(* ===== verification/_CoqProject ===== *)
-Q . S2P
Prelude.v
Wire.v
AbiOps.v
Instruction.v
Codec.v
SlotTable.v
Tasks.v
Channels.v
Foreign.v
ModuleFormat.v
Validate.v
IntWidth.v
Types.v
Ir.v
Mid.v
MidOk.v
Compile.v
CompileRules.v
CompileOk.v
CompileProgram.v
DecimalNumber.v
NativeState.v
Heap.v
HeapOwnership.v
HeapOps.v
HeapView.v
HeapCopy.v
HeapWrites.v
HeapBoxes.v
HeapGlue.v
HeapDrops.v
HeapClient.v
Float64.v
HeapEquality.v
VmState.v
VmText.v
VmOps.v
VmStep.v
VmTextRun.v
VmRun.v
VmEntry.v
VmSteady.v
VmControl.v
VmEntrySafe.v
VmSlices.v
VmPrograms.v
CompileRun.v
IrEval.v
CompileArith.v
CompileDirect.v
CompileSim.v
CompileSound.v
Source.v
Lexer.v
LexerScan.v
LexerText.v
LexerStrings.v
LexerChars.v
Syntax.v
Parser.v
ParserBlocks.v
ParserStmts.v
ParserExpr.v
ParserPrint.v
ParserSteps.v
ParserLists.v
ParserParts.v
ParserStmtRuns.v
ParserRuns.v
