(* ===== verification/Prelude.v ===== *)
(** * Kira: bytecode modules and the virtual machine that runs them

    Kira compiles programs to bytecode modules, which a virtual machine, a
    native back end and generated wrappers all consume.  This library models
    what a module is, how it is written, read and checked
    ([crates/kira-bytecode]), the runtime tables, layouts and arithmetic the
    engines share ([crates/kira-runtime-abi]), the virtual machine: its
    heap, its instructions, its dispatch loop and the ways in
    ([crates/kira-vm-runtime]), and the compiler that makes modules of lowered
    programs ([crates/kira-bytecode/src/compile], [crates/kira-ir/src/mid]).  A
    program becomes a module in [Compile]; a module goes from bytes ([ModuleFormat]) through
    [validate] ([Validate]) to a run ([VmEntry]); a run is the dispatch loop
    ([VmRun]) over instructions ([VmStep]) that call the heap ([Heap]), the
    tables ([Tasks], [Channels]) and the arithmetic ([IntWidth],
    [DecimalNumber], [Float64]).

    ** Files

    - [Prelude]: results, the host's pointer width, machine words, bytes,
      little-endian words, the state-and-error monad of the runtime tables.
    - [Wire]: the byte cursor under [Cursor] of [op/codec.rs] and [Reader] of
      [module.rs], with the two contracts of a codec, [Reads] (what was written
      is read back) and [Consumes] (what was accepted was written).
    - [AbiOps]: the one-byte operation families ([string_op.rs], [number_op.rs],
      [math_op.rs], [env.rs], [compiler.rs], [main_thread.rs], [file_system],
      [TaskPrim], [ChannelPrim], [ForeignType], [ForeignAbi]) behind the class
      [WireByte], which every family discharges and the codecs are proved
      against.
    - [Instruction]: [op.rs] and [op/opcode.rs].
    - [Codec]: [op/codec.rs], current and legacy widths.
    - [SlotTable]: the generational slots under the two runtime tables; the
      class [SlotClient] is what a table must show of its calls to inherit the
      results about reuse of keys.
    - [Tasks]: [tasks.rs], [TaskExecutor::perform].
    - [Channels]: [channels.rs], [ChannelExecutor::perform].
    - [Foreign]: [foreign.rs] and [aggregate.rs], the C layouts of the foreign
      seam.
    - [ModuleFormat]: [module.rs], [module_foreign.rs], [module_release.rs],
      [exports.rs]: [to_bytes] and [from_bytes].
    - [Validate]: [validate.rs], [Module::validate].
    - [IntWidth]: [int_width.rs], what a 64-bit word means at each width.
    - [Types]: the types and the type table of [kira-semantics-model], and the
      walks over it that decide what is released.
    - [Ir]: the lowered program of [kira-ir].
    - [Mid]: [mid.rs] and [mid/scope.rs]: what a frame releases when it returns,
      and where the bindings of a block are released.  [MidOk]: what the two say.
    - [Compile]: [compile.rs], [compile/] and the export table: a lowered program
      becomes a module.  [CompileRules]: what the front end promises, what a piece
      of the compiler leaves behind, and a rule for each way pieces compose.
      [CompileOk]: every node.  [CompileProgram]: whole programs.
    - [DecimalNumber]: [number.rs], the exact decimal behind [Number].
    - [NativeState]: [native_state.rs] and [native_state/]: callback state, its
      paths, its store and portable C blocks.
    - [Heap]: [value/] of the virtual machine: the slot table, shared blocks,
      copies and drops, copy on write, cells, C blocks, parked [Drop] bodies.
    - [HeapOwnership], [HeapOps], [HeapView], [HeapCopy], [HeapWrites],
      [HeapBoxes], [HeapDrops]: the ownership invariant [Inv], what each
      operation does to it, what a handle denotes ([denotes]) and what an
      operation leaves as it was; [HeapDrops] ends with the accounting.
    - [HeapGlue]: what holds of every [Drop] body the heap names.
    - [HeapClient]: a client of the heap, any sequence of operations on values
      it holds; the heap's theorems are stated about it.
    - [Float64]: binary64 as bit patterns, over the Standard Library's
      [SpecFloat].
    - [HeapEquality]: [value/equality.rs].
    - [VmState], [VmText], [VmOps], [VmStep]: the interpreter's state and errors,
      [str] operations, operators ([interp/operators.rs], [numeric.rs],
      [numbers.rs], [strings.rs]) and every other instruction
      ([interp/instructions.rs], [place.rs], [arrays.rs], [cells.rs],
      [native_state.rs]).
    - [VmTextRun]: integers printed and read back by the two instructions.
    - [VmRun]: frames, calls, returns, [Drop] bodies, the dispatch loop, unwinding
      and entering ([interp.rs], [interp/frames.rs], [interp/run.rs]).
    - [VmEntry]: [interp/program.rs], [instance.rs], [fiber.rs].
    - [VmSteady], [VmControl], [VmEntrySafe]: what every instruction, every turn
      and every entry keeps of a validated module's frames.
    - [VmSlices]: runs cut into slices.
    - [VmPrograms]: whole modules run.
    - [CompileRun]: compiled programs run.
    - [Source]: [kira-source]: spans, lines, source files and the map that holds
      them.
    - [Lexer]: [kira-lexer] and the tokens of [kira-syntax-model].  [LexerScan]:
      the grammar of tokens, gaps and comments, and the lexer as the reading that
      takes the longest token.  [LexerText]: texts written from tokens.
      [LexerStrings]: what a string literal means.  [LexerChars]: spans and
      characters.
    - [Syntax]: the syntax tree.  The parser of [kira-parser]: in [Parser] the cursor
      and nesting budget of [lib.rs], what looks ahead, types ([item/type_refs.rs],
      [generics.rs]) and lists; in [ParserBlocks] blocks ([item.rs]), closures and
      content ([expr/]); in [ParserStmts] [stmt.rs] and [stmt/branches.rs]; in
      [ParserExpr] [expr.rs] and calls.  [ParserPrint]: trees written as text and read
      back.  [ParserSteps]: runs step by step, a Hoare judgement with a budget of levels
      and tokens.  [ParserLists], [ParserParts], [ParserStmtRuns]: each part keeps to
      it.  [ParserRuns]: what the parser does on any text.
    - [IrEval]: what integer and boolean programs of the lowered language mean.
      [CompileArith]: the code of an operator computes it.  [CompileDirect]: the
      compiler emits the code built directly.  [CompileSim]: that code run turn by
      turn.  [CompileSound]: whole calls.

    A function of the source is a definition of the same name; where a file
    needs it, a loop or a match arm of it is a definition of its own, composed
    as the source composes it.  [Result] is [result], [Option] is [option],
    [&mut self] calls are a state-and-error computation in which an error keeps
    the state the source has reached, and integers are [Z]s whose Rust width is
    a hypothesis or a wrap written out.  [usize::try_from] goes through the
    class [Host], which fixes the pointer width to 32 or 64 bits, so every
    theorem covers both.

    ** What is shown

    - The codec is a bijection between well-formed instruction sequences and
      the streams it accepts ([decode_encode], [encode_decode]), total, with
      errors inside the stream, and legacy streams upgrade.
    - The module format round-trips for every well-formed module
      ([module_roundtrip]) and accepts only those ([from_bytes_wellformed]).
    - Validation is exactly a declarative structural validity
      ([validate_iff]), under which control never leaves a body
      ([control_stays_in_code]).
    - The task and channel tables refine plain maps ([perform_refines],
      [channel_refines]): handles are never reissued, reclaimed handles stay
      dead, channels are first in, first out, closing is final, and no pending task
      waits for ever ([pending_task_is_picked]).
    - The layout pass gives C layouts, and the leaves that marshalling walks
      are aligned, disjoint and inside their aggregate ([leaves_sound]).

    - [Number] arithmetic computes with the exact rational values: sums are
      exact, products and quotients are rounded once, half to even, whatever
      the floating-point shortcut of division estimates, and printed text reads
      back ([sums_exact], [multiply_rounds], [divide_rounds],
      [hinted_divide_exact], [text_roundtrip]).
    - Wrapping an integer at a width keeps it modulo that width, and words and
      values correspond ([wrap_reduces], [words_denote_values]).

    - The heap's ledger balances: over any sequence of operations a count is the
      number of references held or stored ([heap_ledger]), copies are values
      ([copies_are_values]), writes through a copy stay in it
      ([struct_writes_stay_apart], [appends_stay_apart]), and what is let go of is
      gone ([client_leaves_nothing]).
    - Equality of values is equality of what they denote; hashing and the order
      agree with it ([equality_is_denotational], [equal_values_hash_equal],
      [order_is_consistent]).
    - Callback state: the owners of a state are a ledger, values that need an
      engine to die reach one, path writes are lenses ([owners_ledger],
      [engine_values_handed_over], [replace_at_lens], [child_words_cleared]).
    - The interpreter never panics on a validated module: in any machine it
      reaches ([reachable_frames_ok]), for any history of an instance
      ([instance_never_panics]), any slicing of a fiber ([fiber_never_panics]) and
      any program whose entrypoint is bytecode ([execute_never_panics]).  A fiber
      driven slice by slice does what it does in one slice
      ([slices_are_one_run]).

    - The compiler: on a program that keeps the front end's promises
      ([program_ok]) it answers, its module is valid ([compile_succeeds]) and the
      run of that module never panics ([compiled_never_panics]).  A frame's release
      plan names what the frame owns and nothing else ([plan_names_owned]);
      scope-end releases are inserted without changing anything else, for exactly
      the block-scoped bindings that own storage ([scope_releases_spec]); the walks
      over cyclic types decide reachability ([runs_user_drop_reachable]); exported
      signatures keep their types ([export_table_crosses]).
    - Compiled code means what the program means, for functions of integers and
      booleans: every operator is exact at its width ([operators_exact]),
      backpatching comes to direct code ([compiles_directly]), and a call answers
      or traps as its reference evaluation says ([compiled_computes]).  The
      evaluation takes fuel because a program may loop; a call it cannot finish,
      or whose operands are of the wrong kind, is [Stuck] and nothing is claimed.

    - The lexer ends on every text and its tokens are those of a reading that takes
      the longest at each place ([lex_reads_longest]); a text with nothing wrong is
      lexed to its only reading ([lex_finds_reading]), spaced tokens are read back
      ([spaced_tokens_read_back]), string tokens decode to what they mean
      ([clean_strings_decode], [string_literal_reads_back]), and no span cuts a
      character ([spans_cut_no_character]).  Lines and columns are what the newlines
      say ([line_columns_exact], [lines_rebuild_text]).
    - The expression parser reads a tree back from its text, with parentheses only
      where precedence and associativity ask for them ([expression_reads_back]).  With
      its statements it comes back on every text, without a panic and within the calls
      its nesting budget and its tokens leave room for ([parse_comes_back]), and
      never takes back a report, though it reads braces twice
      ([statement_keeps_reports]).

    A few theorems record where a comment of the source and its code differ:
    [pick_ready_prefers_reused_slot], [detach_after_cancel_traps],
    [constant_init_arity_unchecked], [lifecycle_marker_off_entrypoint], and
    [sum_depends_on_spelling], where a sum overflows though its value fits,
    [sliced_drop_loses_answer], [finish_leaves_objects] and [native_main_panics],
    and the deferred reads at the end of [HeapEquality].

    ** Fuel and bounds

    The decoder's [while] loop carries the bytes left as fuel:
    each turn consumes a byte ([decode_is_the_loop] has no fuel in it).  The
    leaf walk carries one unit per row of the table plus one: rows refer only
    below themselves ([leaves_sound] concludes the walk finishes).  A [u64] is
    printed with twenty digits of fuel, which [10^20 > 2^64] makes enough.  Streams are
    assumed to fit the address space, as a Rust slice does ([addressable]), and
    so are the tables of a module handed to [validate] ([tables_fit]).

    The compiler recurs over an arena of expressions: its fuel is any bound [n] on
    how deep expressions and statements nest, the [n] of [expr_ok] and
    [stmt_ok].  The walk of [owns_heap] has no answer on a type nested by value
    in itself, where the source recurs forever; the walks that keep the shapes
    they have seen carry one more than the rows of the table ([walk_decides]).

    The lexer's loops carry the bytes of the text, and one more: each turn takes one
    at least.  Its theorems ask that the text is shorter than 4 GiB ([fits_u32]); the
    source map refuses more than 16 MiB ([insert_kept]).  The parser's functions call
    each other [n] deep at most in [knot n]; 1537 and two for each token are enough
    ([calls_for]): twelve calls for each of the 128 levels that may nest, and one for
    each token of those that nesting does not count ([parse_comes_back]).  Its loops carry
    twice the number of tokens, and one more: a [>>] that closes two lists of types
    is taken in two turns.

    Releases, views and comparisons of heap values carry one more than the
    number of slots: a drop occupies fewer slots at each level
    ([drop_value_spec]), and a value that denotes a tree has no path longer than
    the table ([view_bound]).  A comparison that runs out is [Overflows], the
    recursion the source would overflow its stack in.  The dispatch loop's fuel
    is not bounded by anything, since programs need not end; theorems about
    it hold for every fuel, and [reachable_frames_ok] speaks of turns instead.

    ** Not modelled

    An instruction that hands control to the host (native and foreign calls,
    files, environment, compiler, main thread, callback-state calls) ends the
    model's run with [Crosses], as do the text of floats, Unicode case mapping
    and the functions of [libm].  Of the heap, the conversions into callback
    state and the C-layout builders ([value/aggregate.rs]) are left out.  The
    debugger and the profiler hooks of the loop have no part in its answers and
    are omitted.  Of the reports of the lexer and the parser the code and the span are
    kept, not the wording.  Names are interned as if the interner were never full.  Of
    the parser the declarations of a file are left out.  Type checking and the lowering
    that makes the IR ([kira-ir/src/lower]), the native and shader back ends, the build
    and package tools and every host service (files, sockets, processes) are not
    modelled. *)

From Stdlib Require Export Strings.Byte ZArith Lia.
From stdpp Require Export base option list numbers sets.

#[global] Open Scope Z_scope.

(** ** Results: Rust's [Result<A, E>] *)

Inductive result (E A : Type) : Type :=
| Ok (a : A)
| Err (e : E).
Arguments Ok {E A} a.
Arguments Err {E A} e.

#[export] Instance result_ret E : MRet (result E) := fun A a => Ok a.
#[export] Instance result_bind E : MBind (result E) := fun A B f m =>
  match m with Ok a => f a | Err e => Err e end.
#[export] Instance result_fmap E : FMap (result E) := fun A B f m =>
  match m with Ok a => Ok (f a) | Err e => Err e end.

(** [Option::ok_or]. *)
Definition ok_or {E A} (o : option A) (e : E) : result E A :=
  match o with Some a => Ok a | None => Err e end.

(** [Result::map_err]. *)
Definition map_err {E F A} (f : E -> F) (m : result E A) : result F A :=
  match m with Ok a => Ok a | Err e => Err (f e) end.

(** [is_empty] of a slice, vector or string. *)
Definition is_nil {A} (l : list A) : bool := match l with [] => true | _ :: _ => false end.

(** ** The host's pointer width

    Kira's portable core runs on 64-bit desktops and on [wasm32]; every
    conversion the source makes with [usize::try_from] depends on it. *)

Class Host := {
  usize_max : Z;
  usize_max_cases : usize_max = 2 ^ 32 - 1 \/ usize_max = 2 ^ 64 - 1
}.

Definition host64 : Host := {| usize_max := 2 ^ 64 - 1; usize_max_cases := or_intror eq_refl |}.
Definition host32 : Host := {| usize_max := 2 ^ 32 - 1; usize_max_cases := or_introl eq_refl |}.

(** [usize::try_from] on a non-negative word. *)
Definition usize_try_from {host : Host} (v : Z) : option nat :=
  if decide (0 <= v <= usize_max) then Some (Z.to_nat v) else None.

Lemma usize_max_bounds {host : Host} : 2 ^ 32 - 1 <= usize_max <= 2 ^ 64 - 1.
Proof. destruct usize_max_cases as [-> | ->]; lia. Qed.

Lemma usize_try_from_Some {host : Host} v n :
  usize_try_from v = Some n -> v = Z.of_nat n /\ Z.of_nat n <= usize_max.
Proof. unfold usize_try_from. case_decide; intros; simplify_eq; lia. Qed.

Lemma usize_try_from_nat {host : Host} (n : nat) :
  Z.of_nat n <= usize_max -> usize_try_from (Z.of_nat n) = Some n.
Proof.
  intros H. unfold usize_try_from. rewrite decide_True by lia. f_equal; lia.
Qed.

(** ** Machine words

    A [w]-bit word is a [Z]; [uwrap] and [swrap] are the two readings of its
    low [w] bits. *)

Definition uwrap (w z : Z) : Z := z mod 2 ^ w.
Definition swrap (w z : Z) : Z := (z + 2 ^ (w - 1)) mod 2 ^ w - 2 ^ (w - 1).

Definition unsigned_ok (w z : Z) : Prop := 0 <= z < 2 ^ w.
Definition signed_ok (w z : Z) : Prop := - 2 ^ (w - 1) <= z < 2 ^ (w - 1).

Abbreviation u8_ok := (unsigned_ok 8).
Abbreviation u32_ok := (unsigned_ok 32).
Abbreviation u64_ok := (unsigned_ok 64).
Abbreviation i64_ok := (signed_ok 64).

Lemma uwrap_range w z : 0 <= w -> unsigned_ok w (uwrap w z).
Proof. intros. apply Z.mod_pos_bound. lia. Qed.

Lemma uwrap_id w z : unsigned_ok w z -> uwrap w z = z.
Proof. intros. apply Z.mod_small. done. Qed.

Lemma pow2_double w : 0 < w -> 2 ^ w = 2 * 2 ^ (w - 1).
Proof. intros. rewrite <- Z.pow_succ_r by lia. f_equal; lia. Qed.

Lemma swrap_range w z : 0 < w -> signed_ok w (swrap w z).
Proof.
  intros Hw. unfold swrap, signed_ok.
  pose proof (Z.mod_pos_bound (z + 2 ^ (w - 1)) (2 ^ w)) as B.
  rewrite (pow2_double w Hw) in *. lia.
Qed.

Lemma swrap_id w z : 0 < w -> signed_ok w z -> swrap w z = z.
Proof.
  intros Hw Hz. unfold swrap, signed_ok in *. rewrite (pow2_double w Hw) in *.
  rewrite Z.mod_small; lia.
Qed.

Lemma swrap_uwrap w z : swrap w (uwrap w z) = swrap w z.
Proof. unfold swrap, uwrap. rewrite Zplus_mod_idemp_l. done. Qed.

Lemma uwrap_swrap w z : uwrap w (swrap w z) = uwrap w z.
Proof.
  unfold swrap, uwrap. rewrite Zminus_mod_idemp_l. f_equal. lia.
Qed.

(** ** Bytes *)

Definition byte_to_Z (b : byte) : Z := Z.of_N (Byte.to_N b).
Definition byte_of_Z (z : Z) : byte :=
  default x00 (Byte.of_N (Z.to_N (z mod 256))).

Lemma byte_to_Z_range b : 0 <= byte_to_Z b < 256.
Proof. unfold byte_to_Z. pose proof (Byte.to_N_bounded b). lia. Qed.

Lemma byte_of_to_Z b : byte_of_Z (byte_to_Z b) = b.
Proof.
  unfold byte_of_Z. rewrite Z.mod_small by apply byte_to_Z_range.
  unfold byte_to_Z. by rewrite N2Z.id, Byte.of_to_N.
Qed.

Lemma byte_to_of_Z z : byte_to_Z (byte_of_Z z) = z mod 256.
Proof.
  unfold byte_of_Z.
  pose proof (Z.mod_pos_bound z 256 ltac:(lia)) as B.
  destruct (Byte.of_N (Z.to_N (z mod 256))) as [b|] eqn:E; simpl.
  - apply Byte.to_of_N in E. unfold byte_to_Z. rewrite E. lia.
  - apply Byte.of_N_None_iff in E. lia.
Qed.

#[export] Instance byte_eq_decision : EqDecision byte := Byte.byte_eq_dec.

(** Little-endian images: [to_le_bytes] and [from_le_bytes]. *)

Fixpoint to_le (n : nat) (v : Z) : list byte :=
  match n with
  | O => []
  | S n => byte_of_Z v :: to_le n (v / 256)
  end.

Fixpoint from_le (bs : list byte) : Z :=
  match bs with
  | [] => 0
  | b :: bs => byte_to_Z b + 256 * from_le bs
  end.

Lemma length_to_le n v : length (to_le n v) = n.
Proof. revert v; induction n; intros; simpl; auto. Qed.

Lemma from_to_le n v : from_le (to_le n v) = v mod 2 ^ (8 * Z.of_nat n).
Proof.
  revert v; induction n as [|n IH]; intros v; simpl.
  - by rewrite Z.mod_1_r.
  - rewrite IH, byte_to_of_Z.
    replace (8 * Z.of_nat (S n)) with (8 + 8 * Z.of_nat n) by lia.
    rewrite Z.pow_add_r by lia. change (2 ^ 8) with 256.
    rewrite Z.rem_mul_r by lia. lia.
Qed.

Lemma from_le_range bs : 0 <= from_le bs < 2 ^ (8 * Z.of_nat (length bs)).
Proof.
  induction bs as [|b bs IH]; simpl length.
  - simpl. lia.
  - replace (8 * Z.of_nat (S (length bs))) with (8 + 8 * Z.of_nat (length bs)) by lia.
    rewrite Z.pow_add_r by lia. change (2 ^ 8) with 256.
    pose proof (byte_to_Z_range b). simpl from_le. nia.
Qed.

Lemma to_from_le bs : to_le (length bs) (from_le bs) = bs.
Proof.
  induction bs as [|b bs IH]; simpl; [done|].
  pose proof (byte_to_Z_range b). f_equal.
  - rewrite <- (byte_of_to_Z b) at 2. unfold byte_of_Z.
    f_equal. f_equal. f_equal.
    rewrite (Z.mul_comm 256), Z.mod_add by lia. done.
  - replace ((byte_to_Z b + 256 * from_le bs) / 256) with (from_le bs); [done|].
    rewrite (Z.mul_comm 256), Z.div_add, Z.div_small by lia. lia.
Qed.

Lemma from_to_le_unsigned n v :
  unsigned_ok (8 * Z.of_nat n) v -> from_le (to_le n v) = v.
Proof. intros H. rewrite from_to_le. by apply Z.mod_small. Qed.

#[global] Arguments to_le : simpl never.
#[global] Arguments from_le : simpl never.
#[global] Arguments byte_of_Z : simpl never.
#[global] Arguments byte_to_Z : simpl never.
#[global] Arguments uwrap : simpl never.
#[global] Arguments swrap : simpl never.

(** ** State and errors

    [st S E] is a [&mut S] method returning [Result<_, E>]: an error keeps
    whatever the method had already done to the state. *)

Definition st (S E A : Type) : Type := S -> S * result E A.

#[export] Instance st_ret S E : MRet (st S E) := fun A a s => (s, Ok a).
#[export] Instance st_bind S E : MBind (st S E) := fun A B f m s =>
  match m s with (s', Ok a) => f a s' | (s', Err e) => (s', Err e) end.

Definition st_lift {S E A} (m : result E A) : st S E A := fun s => (s, m).
Definition st_fail {S E A} (e : E) : st S E A := fun s => (s, Err e).
Definition st_gets {S E A} (f : S -> result E A) : st S E A := fun s => (s, f s).
Definition st_update {S E A} (f : S -> result E (S * A)) : st S E A := fun s =>
  match f s with Ok (s', a) => (s', Ok a) | Err e => (s, Err e) end.

Ltac st_unfold := unfold mbind, st_bind, mret, st_ret, st_lift, st_fail, st_gets, st_update in *.

(** [i64::saturating_add]. *)
Definition i64_max : Z := 2 ^ 63 - 1.
Definition i64_min : Z := - 2 ^ 63.
Definition saturating_add (a b : Z) : Z := Z.max i64_min (Z.min i64_max (a + b)).

(** ** Generational handles

    The task and channel tables name a table slot by a word that packs the
    slot's generation over a 32-bit field; these are the two directions of
    that packing. *)

Definition pack (generation field : Z) : Z := Z.lor (Z.shiftl generation 32) field.
Definition pack_field (word : Z) : Z := Z.land word (2 ^ 32 - 1).
Definition pack_generation (word : Z) : Z := Z.shiftr word 32.

Lemma land_shiftl_field g f : u32_ok f -> Z.land (Z.shiftl g 32) f = 0.
Proof.
  unfold unsigned_ok. intros Hf. apply Z.bits_inj'. intros n Hn.
  rewrite Z.land_spec, Z.bits_0. destruct (Z.lt_ge_cases n 32).
  - by rewrite Z.shiftl_spec_low.
  - destruct (Z.eq_dec f 0) as [->|]; [by rewrite Z.bits_0, andb_false_r|].
    rewrite (Z.bits_above_log2 f), andb_false_r; [done|lia|].
    apply Z.log2_lt_pow2; [lia|]. apply Z.lt_le_trans with (2 ^ 32); [lia|].
    apply Z.pow_le_mono_r; lia.
Qed.

Lemma pack_add g f : 0 <= g -> u32_ok f -> pack g f = g * 2 ^ 32 + f.
Proof.
  intros Hg Hf. unfold pack.
  rewrite <- Z.lxor_lor, <- Z.add_nocarry_lxor by (by apply land_shiftl_field).
  by rewrite Z.shiftl_mul_pow2.
Qed.

Lemma pack_field_mod w : pack_field w = w mod 2 ^ 32.
Proof. unfold pack_field. change (2 ^ 32 - 1) with (Z.ones 32). by rewrite Z.land_ones. Qed.

Lemma pack_generation_div w : pack_generation w = w / 2 ^ 32.
Proof. unfold pack_generation. by rewrite Z.shiftr_div_pow2. Qed.

Lemma pack_field_pack g f : 0 <= g -> u32_ok f -> pack_field (pack g f) = f.
Proof.
  intros. rewrite pack_field_mod, pack_add by done. unfold unsigned_ok in *.
  rewrite Z.add_comm, Z.mod_add by lia. by apply Z.mod_small.
Qed.

Lemma pack_generation_pack g f : 0 <= g -> u32_ok f -> pack_generation (pack g f) = g.
Proof.
  intros. rewrite pack_generation_div, pack_add by done. unfold unsigned_ok in *.
  rewrite Z.div_add_l, Z.div_small by lia. lia.
Qed.

Lemma pack_parts w : 0 <= w -> pack (pack_generation w) (pack_field w) = w.
Proof.
  intros. rewrite pack_add.
  - rewrite pack_generation_div, pack_field_mod.
    pose proof (Z.div_mod w (2 ^ 32) ltac:(lia)). lia.
  - rewrite pack_generation_div. apply Z.div_pos; lia.
  - rewrite pack_field_mod. apply Z.mod_pos_bound. lia.
Qed.

#[global] Arguments pack : simpl never.
#[global] Arguments pack_field : simpl never.
#[global] Arguments pack_generation : simpl never.
