(* ===== verification/Wire.v ===== *)
(** * Byte cursors

    The two hand-written cursors of [kira-bytecode] — [Cursor] in
    [op/codec.rs] and [Reader] in [module.rs] — are the same structure: a
    borrowed byte slice and an offset, advanced by a bounds-checked [take].
    A [reader E A] is a computation over that structure with error type [E].

    [Reads] and [Consumes] are the two halves of a codec's contract:
    [Reads r enc a] says the reader takes exactly the bytes [enc] to [a]
    wherever they appear, and [Consumes r R] says every success of the reader
    consumed bytes related to its answer by [R]. *)

From S2P Require Import Prelude.

Section reader.
Context {E : Type}.

Definition reader (A : Type) : Type :=
  list byte -> nat -> result E (A * nat).

#[global] Instance reader_ret : MRet reader := fun A a _ off => Ok (a, off).
#[global] Instance reader_bind : MBind reader := fun A B f r bs off =>
  match r bs off with Ok (a, off') => f a bs off' | Err e => Err e end.

Definition reader_fail {A} (e : E) : reader A := fun _ _ => Err e.
Definition reader_offset : reader nat := fun _ off => Ok (off, off).
Definition reader_lift {A} (m : result E A) : reader A := fun _ off =>
  match m with Ok a => Ok (a, off) | Err e => Err e end.

(** [while offset < bytes.len()] and [Reader::is_at_end]. *)
Definition reader_at_end : reader bool := fun bs off =>
  Ok (bool_decide (length bs <= off)%nat, off).

(** [for _ in 0..count { items.push(read()?) }]. *)
Fixpoint read_n {A} (count : nat) (r : reader A) : reader (list A) :=
  match count with
  | O => mret []
  | S count => x ← r; xs ← read_n count r; mret (x :: xs)
  end.

(** The same loop when the body sees its index. *)
Fixpoint read_indexed {A} (from : Z) (count : nat) (r : Z -> reader A) : reader (list A) :=
  match count with
  | O => mret []
  | S count => x ← r from; xs ← read_indexed (from + 1) count r; mret (x :: xs)
  end.

(** The bounds-checked slice: [offset.checked_add(n)] then
    [bytes.get(offset..end)], failing with the error built at the offset. *)
Definition take_slice {host : Host} (err : nat -> E) (n : nat) : reader (list byte) :=
  fun bs off =>
    if decide (Z.of_nat (off + n) <= usize_max) then
      if decide (off + n <= length bs)%nat
      then Ok (take n (drop off bs), (off + n)%nat)
      else Err (err off)
    else Err (err off).
End reader.
Arguments reader E A : clear implicits.

(** The slice is addressable: Rust slices never exceed the address space. *)
Definition addressable {host : Host} (bs : list byte) : Prop :=
  Z.of_nat (length bs) <= usize_max.

Section contracts.
Context {host : Host} {E : Type}.

Definition Reads {A} (r : reader E A) (enc : list byte) (a : A) : Prop :=
  forall pre post, addressable (pre ++ enc ++ post) ->
    r (pre ++ enc ++ post) (length pre) = Ok (a, (length pre + length enc)%nat).

Definition Consumes {A} (r : reader E A) (R : A -> list byte -> Prop) : Prop :=
  forall bs off a off', (off <= length bs)%nat ->
    r bs off = Ok (a, off') ->
    exists enc, drop off bs = enc ++ drop off' bs /\
      off' = (off + length enc)%nat /\ (off' <= length bs)%nat /\ R a enc.

Lemma Reads_eq {A} (r : reader E A) enc enc' a :
  enc = enc' -> Reads r enc' a -> Reads r enc a.
Proof. by intros ->. Qed.

Lemma Reads_ret {A} (a : A) : Reads (mret a) [] a.
Proof. intros pre post _. simpl. by rewrite Nat.add_0_r. Qed.

Lemma Reads_bind {A B} (r : reader E A) (f : A -> reader E B) e1 e2 a b :
  Reads r e1 a -> Reads (f a) e2 b -> Reads (r ≫= f) (e1 ++ e2) b.
Proof.
  intros H1 H2 pre post Hfit. unfold mbind, reader_bind.
  rewrite <- app_assoc in *. rewrite (H1 pre (e2 ++ post)) by done.
  rewrite (app_assoc pre). rewrite <- length_app.
  rewrite H2.
  - rewrite !length_app. f_equal. f_equal. lia.
  - unfold addressable in *. by rewrite <- app_assoc.
Qed.

Lemma Reads_bind_nil {A B} (r : reader E A) (f : A -> reader E B) e a b :
  Reads r [] a -> Reads (f a) e b -> Reads (r ≫= f) e b.
Proof. intros H1 H2. exact (Reads_bind r f [] e a b H1 H2). Qed.

Lemma Reads_bind_offset {B} (f : nat -> reader E B) e b :
  (forall n, Reads (f n) e b) -> Reads (reader_offset ≫= f) e b.
Proof.
  intros H pre post Hfit. unfold mbind, reader_bind, reader_offset. by apply H.
Qed.

Lemma Reads_lift {A} (m : result E A) a : m = Ok a -> Reads (reader_lift m) [] a.
Proof. intros -> pre post _. unfold reader_lift. simpl. by rewrite Nat.add_0_r. Qed.

Lemma Reads_take_slice err n enc :
  length enc = n -> Reads (take_slice err n) enc enc.
Proof.
  intros <- pre post Hfit. unfold take_slice.
  unfold addressable in Hfit. rewrite !length_app in *.
  rewrite !decide_True by lia.
  by rewrite drop_app_length, take_app_length.
Qed.

Lemma Reads_read_n {A} (r : reader E A) (enc : A -> list byte) (xs : list A) :
  Forall (fun x => Reads r (enc x) x) xs ->
  Reads (read_n (length xs) r) (xs ≫= enc) xs.
Proof.
  induction 1 as [|x xs Hx _ IH]; simpl; [apply Reads_ret|].
  eapply Reads_bind; [exact Hx|]. eapply Reads_eq; [symmetry; apply app_nil_r|].
  eapply Reads_bind; [exact IH|]. apply Reads_ret.
Qed.

Lemma Reads_read_indexed {A} (r : Z -> reader E A) (enc : A -> list byte) (xs : list A) :
  forall from, (forall i x, xs !! i = Some x -> Reads (r (from + Z.of_nat i)) (enc x) x) ->
  Reads (read_indexed from (length xs) r) (xs ≫= enc) xs.
Proof.
  induction xs as [|x xs IH]; intros from H; simpl; [apply Reads_ret|].
  eapply Reads_bind.
  { specialize (H 0%nat x eq_refl). by rewrite Z.add_0_r in H. }
  eapply Reads_eq; [symmetry; apply app_nil_r|].
  eapply Reads_bind; [|apply Reads_ret].
  apply IH. intros i y Hy. specialize (H (S i) y Hy).
  by replace (from + 1 + Z.of_nat i) with (from + Z.of_nat (S i)) by lia.
Qed.

Lemma Consumes_weaken {A} (r : reader E A) (R R' : A -> list byte -> Prop) :
  Consumes r R -> (forall a enc, R a enc -> R' a enc) -> Consumes r R'.
Proof.
  intros H Himp bs off a off' Hoff Hr.
  destruct (H bs off a off' Hoff Hr) as (enc & ? & ? & ? & ?). eauto 10.
Qed.

Lemma Consumes_ret {A} (v : A) : Consumes (mret v) (fun a enc => a = v /\ enc = []).
Proof.
  intros bs off a off' Hoff [= <- <-]. exists []. simpl. split_and!; auto with lia.
Qed.

Lemma Consumes_fail {A} (e : E) R : Consumes (@reader_fail E A e) R.
Proof. intros bs off a off' _ [=]. Qed.

Lemma Consumes_lift {A} (m : result E A) :
  Consumes (reader_lift m) (fun a enc => m = Ok a /\ enc = []).
Proof.
  intros bs off a off' Hoff. unfold reader_lift. destruct m; intros [= <- <-].
  exists []. simpl. split_and!; auto with lia.
Qed.

Lemma Consumes_bind {A B} (r : reader E A) (f : A -> reader E B) R1 R2 :
  Consumes r R1 -> (forall a, Consumes (f a) (R2 a)) ->
  Consumes (r ≫= f)
    (fun b enc => exists a e1 e2, enc = e1 ++ e2 /\ R1 a e1 /\ R2 a b e2).
Proof.
  intros H1 H2 bs off b off' Hoff. unfold mbind, reader_bind.
  destruct (r bs off) as [[a off1]|] eqn:E1; [|done]. intros E2.
  destruct (H1 _ _ _ _ Hoff E1) as (e1 & D1 & -> & L1 & P1).
  destruct (H2 a _ _ _ _ L1 E2) as (e2 & D2 & -> & L2 & P2).
  exists (e1 ++ e2). rewrite <- app_assoc, D1, D2, length_app.
  split_and!; [done | lia | done | eauto 10].
Qed.

Lemma Consumes_offset : Consumes (@reader_offset E) (fun _ enc => enc = []).
Proof.
  intros bs off a off' Hoff [= <- <-]. exists []. simpl. split_and!; auto with lia.
Qed.

Lemma Consumes_take_slice err n :
  Consumes (take_slice err n) (fun a enc => a = enc /\ length enc = n).
Proof.
  intros bs off a off' Hoff. unfold take_slice.
  repeat case_decide; intros; simplify_eq.
  exists (take n (drop off bs)). rewrite length_take, length_drop.
  split_and!; try lia; [|done].
  rewrite <- drop_drop. by rewrite take_drop.
Qed.

Lemma Consumes_read_n {A} (r : reader E A) (R : A -> list byte -> Prop) n :
  Consumes r R ->
  Consumes (read_n n r) (fun xs enc => length xs = n /\
    exists es, enc = concat es /\ Forall2 R xs es).
Proof.
  intros Hr. induction n as [|n IH]; simpl.
  - eapply Consumes_weaken; [apply Consumes_ret|].
    intros a enc [-> ->]. split; [done|]. exists []. by split.
  - eapply Consumes_weaken.
    { eapply Consumes_bind; [exact Hr|]. intros x. eapply Consumes_bind; [exact IH|].
      intros xs. apply Consumes_ret. }
    intros l enc (x & e1 & e2 & -> & Hx & xs & e3 & e4 & -> & (Hlen & es & -> & Hes) & -> & ->).
    split; [simpl; lia|]. exists (e1 :: es). simpl. rewrite app_nil_r. eauto.
Qed.

(** A reader that always takes at least one byte. *)
Definition Progress {A} (r : reader E A) : Prop :=
  forall bs off a off', r bs off = Ok (a, off') -> (off < off' <= length bs)%nat.

Lemma Progress_take_slice err n : (0 < n)%nat -> Progress (take_slice err n).
Proof.
  intros Hn bs off a off'. unfold take_slice. repeat case_decide; intros; simplify_eq. lia.
Qed.
End contracts.

(** ** Automation

    The [reads] database holds the [Reads] contracts of the primitive readers
    and [reads] steps through a bind along the shape of the expected bytes;
    [consumes] does the same for [Consumes]. *)

Create HintDb reads.
#[export] Hint Constants Opaque : reads.
Create HintDb consumes.
#[export] Hint Constants Opaque : consumes.

Section shapes.
Context {host : Host} {E : Type}.

Lemma Reads_bind_cons {A B} (r : reader E A) (f : A -> reader E B) b e a c :
  Reads r [b] a -> Reads (f a) e c -> Reads (r ≫= f) (b :: e) c.
Proof. apply (Reads_bind r f [b] e). Qed.

Lemma Reads_bind_last {A B} (r : reader E A) (f : A -> reader E B) e a b :
  Reads r e a -> Reads (f a) [] b -> Reads (r ≫= f) e b.
Proof.
  intros. eapply Reads_eq; [symmetry; apply app_nil_r|]. by eapply Reads_bind.
Qed.
End shapes.

#[export] Hint Resolve Reads_ret Reads_take_slice : reads.
#[export] Hint Resolve Consumes_take_slice Consumes_fail Consumes_offset : consumes.

Ltac reads_step :=
  lazymatch goal with
  | |- Reads (mret _) _ _ => apply Reads_ret
  | |- Reads (reader_offset ≫= _) _ _ => apply Reads_bind_offset; intros ?
  | |- Reads (_ ≫= _) (_ :: _) _ => eapply Reads_bind_cons; [solve [eauto 3 with reads]|]
  | |- Reads (_ ≫= _) (_ ++ _) _ => eapply Reads_bind; [solve [eauto 3 with reads]|]
  | |- Reads (_ ≫= _) _ _ => eapply Reads_bind_last; [solve [eauto 3 with reads]|]
  end.
Ltac reads := repeat reads_step; eauto 3 with reads.

Ltac consumes_step :=
  lazymatch goal with
  | |- Consumes (mret _) _ => apply Consumes_ret
  | |- Consumes (reader_fail _) _ => apply Consumes_fail
  | |- Consumes (_ ≫= _) _ => eapply Consumes_bind; [solve [eauto 3 with consumes]|intros ?]
  | |- Consumes _ _ => solve [eauto 3 with consumes]
  end.
Ltac consumes := repeat consumes_step.

(** Opens the existentials and conjunctions a [Consumes_bind] chain leaves. *)
Ltac open_consumed :=
  cbv beta in *;
  repeat match goal with
  | H : exists _, _ |- _ => destruct H as [? H]
  | H : _ /\ _ |- _ => destruct H
  end; subst.
