(* ===== verification/AbiOps.v ===== *)
(** * Operation families of the runtime ABI

    The closed one-byte tags [kira-runtime-abi] defines and the bytecode
    carries as operands: which string, number, maths, environment, compiler,
    main-thread, file-system, task or channel operation an instruction names,
    and the scalar types and ABIs of the foreign seam.  Each family is its own
    enum with an encoder and a decoder; [WireByte] is the contract the codecs
    rely on, and every family discharges it. *)

From S2P Require Import Prelude.

(** [usize::from(byte)]. *)
Definition byte_index (b : byte) : nat := N.to_nat (Byte.to_N b).

(** A family of operations with a one-byte wire spelling: the decoder inverts
    the encoder, and accepts no byte the encoder does not produce. *)
Class WireByte (A : Type) := {
  wire_byte : A -> byte;
  wire_from : byte -> option A;
  wire_from_byte a : wire_from (wire_byte a) = Some a;
  wire_byte_from b a : wire_from b = Some a -> wire_byte a = b
}.

(** [StringOp] ([string_op.rs]) *)
Inductive StringOp :=
| StringOp_Contains
| StringOp_StartsWith
| StringOp_EndsWith
| StringOp_Split
| StringOp_Replace
| StringOp_Trim
| StringOp_Lowercase
| StringOp_Uppercase
| StringOp_IsInt
| StringOp_ToInt
| StringOp_DropLastScalar
| StringOp_Bytes.
#[export] Instance StringOp_eq_dec : EqDecision StringOp.
Proof. solve_decision. Defined.

Definition StringOp_as_byte (op : StringOp) : byte :=
  match op with
  | StringOp_Contains => x00
  | StringOp_StartsWith => x01
  | StringOp_EndsWith => x02
  | StringOp_Split => x03
  | StringOp_Replace => x04
  | StringOp_Trim => x05
  | StringOp_Lowercase => x06
  | StringOp_Uppercase => x07
  | StringOp_IsInt => x09
  | StringOp_ToInt => x0a
  | StringOp_DropLastScalar => x08
  | StringOp_Bytes => x0b
  end.
Definition StringOp_ALL : list StringOp :=
  [StringOp_Contains;
   StringOp_StartsWith;
   StringOp_EndsWith;
   StringOp_Split;
   StringOp_Replace;
   StringOp_Trim;
   StringOp_Lowercase;
   StringOp_Uppercase;
   StringOp_DropLastScalar;
   StringOp_IsInt;
   StringOp_ToInt;
   StringOp_Bytes].
Definition StringOp_from_byte (b : byte) : option StringOp := StringOp_ALL !! byte_index b.
#[export] Program Instance StringOp_wire : WireByte StringOp :=
  {| wire_byte := StringOp_as_byte; wire_from := StringOp_from_byte |}.
Next Obligation. intros a; destruct a; reflexivity. Qed.
Next Obligation. intros b a; destruct b; vm_compute; intros [=]; subst; reflexivity. Qed.

(** [NumberOp] ([number_op.rs]) *)
Inductive NumberOp :=
| NumberOp_FromInt
| NumberOp_FromString
| NumberOp_FromFloat
| NumberOp_ToString
| NumberOp_ToInt
| NumberOp_ToFloat
| NumberOp_Add
| NumberOp_Subtract
| NumberOp_Multiply
| NumberOp_Divide
| NumberOp_Negate
| NumberOp_Equal
| NumberOp_Less
| NumberOp_LessOrEqual
| NumberOp_Greater
| NumberOp_GreaterOrEqual.
#[export] Instance NumberOp_eq_dec : EqDecision NumberOp.
Proof. solve_decision. Defined.

Definition NumberOp_as_byte (op : NumberOp) : byte :=
  match op with
  | NumberOp_FromInt => x00
  | NumberOp_FromString => x01
  | NumberOp_FromFloat => x02
  | NumberOp_ToString => x03
  | NumberOp_ToInt => x04
  | NumberOp_ToFloat => x05
  | NumberOp_Add => x06
  | NumberOp_Subtract => x07
  | NumberOp_Multiply => x08
  | NumberOp_Divide => x09
  | NumberOp_Negate => x0a
  | NumberOp_Equal => x0b
  | NumberOp_Less => x0c
  | NumberOp_LessOrEqual => x0d
  | NumberOp_Greater => x0e
  | NumberOp_GreaterOrEqual => x0f
  end.
Definition NumberOp_ALL : list NumberOp :=
  [NumberOp_FromInt;
   NumberOp_FromString;
   NumberOp_FromFloat;
   NumberOp_ToString;
   NumberOp_ToInt;
   NumberOp_ToFloat;
   NumberOp_Add;
   NumberOp_Subtract;
   NumberOp_Multiply;
   NumberOp_Divide;
   NumberOp_Negate;
   NumberOp_Equal;
   NumberOp_Less;
   NumberOp_LessOrEqual;
   NumberOp_Greater;
   NumberOp_GreaterOrEqual].
Definition NumberOp_from_byte (b : byte) : option NumberOp := NumberOp_ALL !! byte_index b.
#[export] Program Instance NumberOp_wire : WireByte NumberOp :=
  {| wire_byte := NumberOp_as_byte; wire_from := NumberOp_from_byte |}.
Next Obligation. intros a; destruct a; reflexivity. Qed.
Next Obligation. intros b a; destruct b; vm_compute; intros [=]; subst; reflexivity. Qed.

(** [MathOp] ([math_op.rs]) *)
Inductive MathOp :=
| MathOp_Sqrt
| MathOp_Sin
| MathOp_Cos
| MathOp_Tan
| MathOp_Floor
| MathOp_Ceil
| MathOp_Abs
| MathOp_Exp
| MathOp_Log
| MathOp_Log2
| MathOp_Log10
| MathOp_Exp2
| MathOp_Round
| MathOp_Trunc
| MathOp_Asin
| MathOp_Acos
| MathOp_Atan
| MathOp_Sinh
| MathOp_Cosh
| MathOp_Tanh
| MathOp_Pow
| MathOp_Atan2
| MathOp_Min
| MathOp_Max
| MathOp_Hypot
| MathOp_CopySign
| MathOp_Fmod
| MathOp_Cbrt.
#[export] Instance MathOp_eq_dec : EqDecision MathOp.
Proof. solve_decision. Defined.

Definition MathOp_tag (op : MathOp) : byte :=
  match op with
  | MathOp_Sqrt => x00
  | MathOp_Sin => x01
  | MathOp_Cos => x02
  | MathOp_Tan => x03
  | MathOp_Floor => x04
  | MathOp_Ceil => x05
  | MathOp_Abs => x06
  | MathOp_Exp => x07
  | MathOp_Log => x08
  | MathOp_Log2 => x09
  | MathOp_Log10 => x0a
  | MathOp_Exp2 => x0b
  | MathOp_Round => x0c
  | MathOp_Trunc => x0d
  | MathOp_Asin => x0e
  | MathOp_Acos => x0f
  | MathOp_Atan => x10
  | MathOp_Sinh => x11
  | MathOp_Cosh => x12
  | MathOp_Tanh => x13
  | MathOp_Pow => x14
  | MathOp_Atan2 => x15
  | MathOp_Min => x16
  | MathOp_Max => x17
  | MathOp_Hypot => x18
  | MathOp_CopySign => x19
  | MathOp_Fmod => x1a
  | MathOp_Cbrt => x1b
  end.
Definition MathOp_from_tag (b : byte) : option MathOp :=
  match b with
  | x00 => Some MathOp_Sqrt
  | x01 => Some MathOp_Sin
  | x02 => Some MathOp_Cos
  | x03 => Some MathOp_Tan
  | x04 => Some MathOp_Floor
  | x05 => Some MathOp_Ceil
  | x06 => Some MathOp_Abs
  | x07 => Some MathOp_Exp
  | x08 => Some MathOp_Log
  | x09 => Some MathOp_Log2
  | x0a => Some MathOp_Log10
  | x0b => Some MathOp_Exp2
  | x0c => Some MathOp_Round
  | x0d => Some MathOp_Trunc
  | x0e => Some MathOp_Asin
  | x0f => Some MathOp_Acos
  | x10 => Some MathOp_Atan
  | x11 => Some MathOp_Sinh
  | x12 => Some MathOp_Cosh
  | x13 => Some MathOp_Tanh
  | x14 => Some MathOp_Pow
  | x15 => Some MathOp_Atan2
  | x16 => Some MathOp_Min
  | x17 => Some MathOp_Max
  | x18 => Some MathOp_Hypot
  | x19 => Some MathOp_CopySign
  | x1a => Some MathOp_Fmod
  | x1b => Some MathOp_Cbrt
  | _ => None
  end.
#[export] Program Instance MathOp_wire : WireByte MathOp :=
  {| wire_byte := MathOp_tag; wire_from := MathOp_from_tag |}.
Next Obligation. intros a; destruct a; reflexivity. Qed.
Next Obligation. intros b a; destruct b; vm_compute; intros [=]; subst; reflexivity. Qed.

(** [EnvOp] ([env.rs]) *)
Inductive EnvOp :=
| EnvOp_Text
| EnvOp_IsSet
| EnvOp_ArgumentCount
| EnvOp_Argument
| EnvOp_Sleep.
#[export] Instance EnvOp_eq_dec : EqDecision EnvOp.
Proof. solve_decision. Defined.

Definition EnvOp_as_byte (op : EnvOp) : byte :=
  match op with
  | EnvOp_Text => x00
  | EnvOp_IsSet => x01
  | EnvOp_ArgumentCount => x02
  | EnvOp_Argument => x03
  | EnvOp_Sleep => x04
  end.
Definition EnvOp_ALL : list EnvOp :=
  [EnvOp_Text;
   EnvOp_IsSet;
   EnvOp_ArgumentCount;
   EnvOp_Argument;
   EnvOp_Sleep].
Definition EnvOp_from_byte (b : byte) : option EnvOp := EnvOp_ALL !! byte_index b.
#[export] Program Instance EnvOp_wire : WireByte EnvOp :=
  {| wire_byte := EnvOp_as_byte; wire_from := EnvOp_from_byte |}.
Next Obligation. intros a; destruct a; reflexivity. Qed.
Next Obligation. intros b a; destruct b; vm_compute; intros [=]; subst; reflexivity. Qed.

(** [CompilerOp] ([compiler.rs]) *)
Inductive CompilerOp :=
| CompilerOp_CheckPackages
| CompilerOp_CheckPath
| CompilerOp_BuildPath
| CompilerOp_RunPath.
#[export] Instance CompilerOp_eq_dec : EqDecision CompilerOp.
Proof. solve_decision. Defined.

Definition CompilerOp_as_byte (op : CompilerOp) : byte :=
  match op with
  | CompilerOp_CheckPackages => x00
  | CompilerOp_CheckPath => x01
  | CompilerOp_BuildPath => x02
  | CompilerOp_RunPath => x03
  end.
Definition CompilerOp_ALL : list CompilerOp :=
  [CompilerOp_CheckPackages;
   CompilerOp_CheckPath;
   CompilerOp_BuildPath;
   CompilerOp_RunPath].
Definition CompilerOp_from_byte (b : byte) : option CompilerOp := CompilerOp_ALL !! byte_index b.
#[export] Program Instance CompilerOp_wire : WireByte CompilerOp :=
  {| wire_byte := CompilerOp_as_byte; wire_from := CompilerOp_from_byte |}.
Next Obligation. intros a; destruct a; reflexivity. Qed.
Next Obligation. intros b a; destruct b; vm_compute; intros [=]; subst; reflexivity. Qed.

(** [MainThreadOp] ([main_thread.rs]) *)
Inductive MainThreadOp :=
| MainThreadOp_Invoke
| MainThreadOp_Spawn
| MainThreadOp_Post
| MainThreadOp_LifecycleStart.
#[export] Instance MainThreadOp_eq_dec : EqDecision MainThreadOp.
Proof. solve_decision. Defined.

Definition MainThreadOp_as_byte (op : MainThreadOp) : byte :=
  match op with
  | MainThreadOp_Invoke => x00
  | MainThreadOp_Spawn => x01
  | MainThreadOp_Post => x02
  | MainThreadOp_LifecycleStart => x03
  end.
Definition MainThreadOp_ALL : list MainThreadOp :=
  [MainThreadOp_Invoke;
   MainThreadOp_Spawn;
   MainThreadOp_Post;
   MainThreadOp_LifecycleStart].
Definition MainThreadOp_from_byte (b : byte) : option MainThreadOp := MainThreadOp_ALL !! byte_index b.
#[export] Program Instance MainThreadOp_wire : WireByte MainThreadOp :=
  {| wire_byte := MainThreadOp_as_byte; wire_from := MainThreadOp_from_byte |}.
Next Obligation. intros a; destruct a; reflexivity. Qed.
Next Obligation. intros b a; destruct b; vm_compute; intros [=]; subst; reflexivity. Qed.

(** [FileSystemOp] ([file_system/mod.rs]) *)
Inductive FileSystemOp :=
| FileSystemOp_ReadRange
| FileSystemOp_WriteBytes
| FileSystemOp_ReadText
| FileSystemOp_WriteText
| FileSystemOp_ListDirectory
| FileSystemOp_IsDirectory
| FileSystemOp_MakeDirectory
| FileSystemOp_RenamePath
| FileSystemOp_RemovePath
| FileSystemOp_FileExists
| FileSystemOp_PathExists
| FileSystemOp_FileSize.
#[export] Instance FileSystemOp_eq_dec : EqDecision FileSystemOp.
Proof. solve_decision. Defined.

Definition FileSystemOp_as_byte (op : FileSystemOp) : byte :=
  match op with
  | FileSystemOp_ReadRange => x00
  | FileSystemOp_WriteBytes => x01
  | FileSystemOp_ReadText => x02
  | FileSystemOp_WriteText => x03
  | FileSystemOp_ListDirectory => x04
  | FileSystemOp_IsDirectory => x05
  | FileSystemOp_MakeDirectory => x06
  | FileSystemOp_RenamePath => x07
  | FileSystemOp_RemovePath => x08
  | FileSystemOp_FileExists => x09
  | FileSystemOp_PathExists => x0a
  | FileSystemOp_FileSize => x0b
  end.
Definition FileSystemOp_ALL : list FileSystemOp :=
  [FileSystemOp_ReadRange;
   FileSystemOp_WriteBytes;
   FileSystemOp_ReadText;
   FileSystemOp_WriteText;
   FileSystemOp_ListDirectory;
   FileSystemOp_IsDirectory;
   FileSystemOp_MakeDirectory;
   FileSystemOp_RenamePath;
   FileSystemOp_RemovePath;
   FileSystemOp_FileExists;
   FileSystemOp_PathExists;
   FileSystemOp_FileSize].
Definition FileSystemOp_from_byte (b : byte) : option FileSystemOp := FileSystemOp_ALL !! byte_index b.
#[export] Program Instance FileSystemOp_wire : WireByte FileSystemOp :=
  {| wire_byte := FileSystemOp_as_byte; wire_from := FileSystemOp_from_byte |}.
Next Obligation. intros a; destruct a; reflexivity. Qed.
Next Obligation. intros b a; destruct b; vm_compute; intros [=]; subst; reflexivity. Qed.

(** [TaskPrim] ([tasks.rs]) *)
Inductive TaskPrim :=
| TaskPrim_Spawn
| TaskPrim_SetArg
| TaskPrim_SlotGet
| TaskPrim_TargetOf
| TaskPrim_BeginJoin
| TaskPrim_BeginDetach
| TaskPrim_PickReady
| TaskPrim_Complete
| TaskPrim_TakeResult
| TaskPrim_MarkDetached
| TaskPrim_Cancel
| TaskPrim_AdvanceClock.
#[export] Instance TaskPrim_eq_dec : EqDecision TaskPrim.
Proof. solve_decision. Defined.

Definition TaskPrim_as_byte (op : TaskPrim) : byte :=
  match op with
  | TaskPrim_Spawn => x00
  | TaskPrim_SetArg => x01
  | TaskPrim_SlotGet => x02
  | TaskPrim_TargetOf => x03
  | TaskPrim_BeginJoin => x04
  | TaskPrim_BeginDetach => x05
  | TaskPrim_PickReady => x06
  | TaskPrim_Complete => x07
  | TaskPrim_TakeResult => x08
  | TaskPrim_MarkDetached => x09
  | TaskPrim_Cancel => x0a
  | TaskPrim_AdvanceClock => x0b
  end.
Definition TaskPrim_ALL : list TaskPrim :=
  [TaskPrim_Spawn;
   TaskPrim_SetArg;
   TaskPrim_SlotGet;
   TaskPrim_TargetOf;
   TaskPrim_BeginJoin;
   TaskPrim_BeginDetach;
   TaskPrim_PickReady;
   TaskPrim_Complete;
   TaskPrim_TakeResult;
   TaskPrim_MarkDetached;
   TaskPrim_Cancel;
   TaskPrim_AdvanceClock].
Definition TaskPrim_from_byte (b : byte) : option TaskPrim := TaskPrim_ALL !! byte_index b.
#[export] Program Instance TaskPrim_wire : WireByte TaskPrim :=
  {| wire_byte := TaskPrim_as_byte; wire_from := TaskPrim_from_byte |}.
Next Obligation. intros a; destruct a; reflexivity. Qed.
Next Obligation. intros b a; destruct b; vm_compute; intros [=]; subst; reflexivity. Qed.

(** [ChannelPrim] ([channels.rs]) *)
Inductive ChannelPrim :=
| ChannelPrim_Create
| ChannelPrim_Send
| ChannelPrim_Poll
| ChannelPrim_Take
| ChannelPrim_CloseSender
| ChannelPrim_CloseReceiver
| ChannelPrim_Deadlock.
#[export] Instance ChannelPrim_eq_dec : EqDecision ChannelPrim.
Proof. solve_decision. Defined.

Definition ChannelPrim_as_byte (op : ChannelPrim) : byte :=
  match op with
  | ChannelPrim_Create => x00
  | ChannelPrim_Send => x01
  | ChannelPrim_Poll => x02
  | ChannelPrim_Take => x03
  | ChannelPrim_CloseSender => x04
  | ChannelPrim_CloseReceiver => x05
  | ChannelPrim_Deadlock => x06
  end.
Definition ChannelPrim_ALL : list ChannelPrim :=
  [ChannelPrim_Create;
   ChannelPrim_Send;
   ChannelPrim_Poll;
   ChannelPrim_Take;
   ChannelPrim_CloseSender;
   ChannelPrim_CloseReceiver;
   ChannelPrim_Deadlock].
Definition ChannelPrim_from_byte (b : byte) : option ChannelPrim := ChannelPrim_ALL !! byte_index b.
#[export] Program Instance ChannelPrim_wire : WireByte ChannelPrim :=
  {| wire_byte := ChannelPrim_as_byte; wire_from := ChannelPrim_from_byte |}.
Next Obligation. intros a; destruct a; reflexivity. Qed.
Next Obligation. intros b a; destruct b; vm_compute; intros [=]; subst; reflexivity. Qed.

(** [ForeignAbi] ([foreign.rs]) *)
Inductive ForeignAbi :=
| ForeignAbi_C
| ForeignAbi_LinuxSyscall
| ForeignAbi_CAddress.
#[export] Instance ForeignAbi_eq_dec : EqDecision ForeignAbi.
Proof. solve_decision. Defined.

Definition ForeignAbi_tag (op : ForeignAbi) : byte :=
  match op with
  | ForeignAbi_C => x00
  | ForeignAbi_LinuxSyscall => x01
  | ForeignAbi_CAddress => x02
  end.
Definition ForeignAbi_from_tag (b : byte) : option ForeignAbi :=
  match b with
  | x00 => Some ForeignAbi_C
  | x01 => Some ForeignAbi_LinuxSyscall
  | x02 => Some ForeignAbi_CAddress
  | _ => None
  end.
#[export] Program Instance ForeignAbi_wire : WireByte ForeignAbi :=
  {| wire_byte := ForeignAbi_tag; wire_from := ForeignAbi_from_tag |}.
Next Obligation. intros a; destruct a; reflexivity. Qed.
Next Obligation. intros b a; destruct b; vm_compute; intros [=]; subst; reflexivity. Qed.

(** [ForeignType] ([foreign.rs]) *)
Inductive ForeignType :=
| ForeignType_Void
| ForeignType_I8
| ForeignType_I16
| ForeignType_I32
| ForeignType_I64
| ForeignType_U8
| ForeignType_U16
| ForeignType_U32
| ForeignType_U64
| ForeignType_Bool
| ForeignType_F32
| ForeignType_F64
| ForeignType_RawPtr
| ForeignType_CString.
#[export] Instance ForeignType_eq_dec : EqDecision ForeignType.
Proof. solve_decision. Defined.

Definition ForeignType_tag (op : ForeignType) : byte :=
  match op with
  | ForeignType_Void => x00
  | ForeignType_I8 => x01
  | ForeignType_I16 => x02
  | ForeignType_I32 => x03
  | ForeignType_I64 => x04
  | ForeignType_U8 => x05
  | ForeignType_U16 => x06
  | ForeignType_U32 => x07
  | ForeignType_U64 => x08
  | ForeignType_Bool => x09
  | ForeignType_F32 => x0a
  | ForeignType_F64 => x0b
  | ForeignType_RawPtr => x0c
  | ForeignType_CString => x0d
  end.
Definition ForeignType_from_tag (b : byte) : option ForeignType :=
  match b with
  | x00 => Some ForeignType_Void
  | x01 => Some ForeignType_I8
  | x02 => Some ForeignType_I16
  | x03 => Some ForeignType_I32
  | x04 => Some ForeignType_I64
  | x05 => Some ForeignType_U8
  | x06 => Some ForeignType_U16
  | x07 => Some ForeignType_U32
  | x08 => Some ForeignType_U64
  | x09 => Some ForeignType_Bool
  | x0a => Some ForeignType_F32
  | x0b => Some ForeignType_F64
  | x0c => Some ForeignType_RawPtr
  | x0d => Some ForeignType_CString
  | _ => None
  end.
#[export] Program Instance ForeignType_wire : WireByte ForeignType :=
  {| wire_byte := ForeignType_tag; wire_from := ForeignType_from_tag |}.
Next Obligation. intros a; destruct a; reflexivity. Qed.
Next Obligation. intros b a; destruct b; vm_compute; intros [=]; subst; reflexivity. Qed.
