(* ===== verification/Instruction.v ===== *)
(** * The instruction set

    [kira-bytecode/src/op.rs]: the decoded [Instruction] form the interpreter
    dispatches on, the place-path types its operands use, and (in module [o])
    the opcode byte of each instruction from [op/opcode.rs].

    Integers keep the source's widths through the well-formedness predicate
    [Instruction_ok]: [i64], [u64] and [u32] operands are [Z]s in range, [u8]
    operands are bytes, and an [f64] operand is its IEEE-754 bit pattern. *)

From S2P Require Import Prelude AbiOps.

(** ** Opcode bytes *)
Module o.
Definition CONST_INT : byte := x01.
Definition CONST_FLOAT : byte := x02.
Definition CONST_BOOL : byte := x03.
Definition CONST_STR : byte := x04.
Definition CONST_VOID : byte := x05.
Definition LOAD_LOCAL : byte := x06.
Definition STORE_LOCAL : byte := x07.
Definition POP : byte := x08.
Definition NEG_INT : byte := x09.
Definition NEG_FLOAT : byte := x0a.
Definition NOT : byte := x0b.
Definition ADD_INT : byte := x0c.
Definition SUB_INT : byte := x0d.
Definition MUL_INT : byte := x0e.
Definition DIV_INT : byte := x0f.
Definition REM_INT : byte := x10.
Definition ADD_FLOAT : byte := x11.
Definition SUB_FLOAT : byte := x12.
Definition MUL_FLOAT : byte := x13.
Definition DIV_FLOAT : byte := x14.
Definition CONCAT_STR : byte := x15.
Definition EQ_INT : byte := x16.
Definition NE_INT : byte := x17.
Definition LT_INT : byte := x18.
Definition LE_INT : byte := x19.
Definition GT_INT : byte := x1a.
Definition GE_INT : byte := x1b.
Definition EQ_FLOAT : byte := x1c.
Definition NE_FLOAT : byte := x1d.
Definition LT_FLOAT : byte := x1e.
Definition LE_FLOAT : byte := x1f.
Definition GT_FLOAT : byte := x20.
Definition GE_FLOAT : byte := x21.
Definition EQ_BOOL : byte := x22.
Definition NE_BOOL : byte := x23.
Definition EQ_STR : byte := x24.
Definition NE_STR : byte := x25.
Definition JUMP : byte := x26.
Definition JUMP_IF_FALSE : byte := x27.
Definition CALL : byte := x28.
Definition PRINT : byte := x29.
Definition RETURN : byte := x2a.
Definition RETURN_VOID : byte := x2b.
Definition CALL_NATIVE : byte := x2c.
Definition NEW_STRUCT : byte := x2d.
Definition GET_FIELD : byte := x2e.
Definition STORE_FIELD : byte := x2f.
Definition NEW_ARRAY : byte := x30.
Definition ARRAY_GET : byte := x31.
Definition ARRAY_LEN : byte := x32.
Definition STORE_PLACE : byte := x33.
Definition ARRAY_APPEND : byte := x34.
Definition NEW_ENUM : byte := x35.
Definition ENUM_TAG : byte := x36.
Definition ENUM_PAYLOAD : byte := x37.
Definition DIV_UINT : byte := x38.
Definition REM_UINT : byte := x39.
Definition LT_UINT : byte := x3a.
Definition LE_UINT : byte := x3b.
Definition GT_UINT : byte := x3c.
Definition GE_UINT : byte := x3d.
Definition BIT_AND : byte := x3e.
Definition BIT_OR : byte := x3f.
Definition BIT_XOR : byte := x40.
Definition SHL : byte := x41.
Definition SHR_INT : byte := x42.
Definition SHR_UINT : byte := x43.
Definition BIT_NOT : byte := x44.
Definition CALL_FOREIGN : byte := x45.
Definition CONVERT_INT_TO_FLOAT : byte := x46.
Definition CONVERT_FLOAT_TO_INT : byte := x47.
Definition CALL_MUT : byte := x48.
Definition NATIVE_STATE : byte := x49.
Definition NATIVE_USER_DATA : byte := x4a.
Definition NATIVE_RECOVER : byte := x4b.
Definition NATIVE_STATE_RELEASE : byte := x4c.
Definition RAW_PTR_NULL : byte := x4d.
Definition FOREIGN_CALLBACK : byte := x4e.
Definition CALL_WRITEBACK : byte := x4f.
Definition STRING_LEN : byte := x50.
Definition CONVERT_FLOAT_TO_BITS : byte := x51.
Definition CONVERT_BITS_TO_FLOAT : byte := x52.
Definition CSTRING_NEW : byte := x54.
Definition CLAYOUT_ADDRESS : byte := x55.
Definition STRING_CHAR_AT : byte := x56.
Definition STRING_SUBSTRING : byte := x57.
Definition STRING_INDEX_OF : byte := x58.
Definition STRING_OF : byte := x59.
Definition FILE_SYSTEM : byte := x53.
Definition CONVERT_BITS32_TO_FLOAT : byte := x5a.
Definition ARRAY_GET_LOCAL : byte := x5b.
Definition CONVERT_FLOAT_TO_BITS32 : byte := x5c.
Definition REM_FLOAT : byte := x5e.
Definition TASK_OP : byte := x5d.
Definition NEW_CELL : byte := x5f.
Definition CELL_GET : byte := x60.
Definition CELL_SET : byte := x61.
Definition COMPILER : byte := x62.
Definition EQ_ANY : byte := x63.
Definition NE_ANY : byte := x64.
Definition ERASE : byte := x65.
Definition STRING_OP : byte := x66.
Definition ENV_OP : byte := x67.
Definition CALL_NATIVE_WRITEBACK : byte := x68.
Definition MATH_OP : byte := x6c.
Definition SCALAR_TEXT : byte := x6d.
Definition ARRAY_ELEMENTS : byte := x6e.
Definition FOREIGN_LOAD : byte := x69.
Definition FOREIGN_OFFSET : byte := x6a.
Definition FOREIGN_INDEX : byte := x6b.
Definition CONVERT_INT_TO_RAW_PTR : byte := x6f.
Definition CONVERT_RAW_PTR_TO_INT : byte := x70.
Definition NEW_STRUCT_DROPPING : byte := x71.
Definition TAKE_LOCAL : byte := x72.
Definition LOAD_CONSTANT : byte := x73.
Definition MAIN_THREAD_CALL : byte := x74.
Definition MAIN_THREAD_JOIN : byte := x75.
Definition MAIN_THREAD_LIFECYCLE : byte := x76.
Definition NEW_STRUCT_ORDERED : byte := x77.
Definition ADD_INT_CHECKED : byte := x78.
Definition SUB_INT_CHECKED : byte := x79.
Definition MUL_INT_CHECKED : byte := x7a.
Definition NEG_INT_CHECKED : byte := x7b.
Definition DIV_INT_CHECKED : byte := x7c.
Definition ADD_UINT_CHECKED : byte := x7d.
Definition SUB_UINT_CHECKED : byte := x7e.
Definition MUL_UINT_CHECKED : byte := x7f.
Definition CHECK_INT : byte := x80.
Definition WRAP_INT : byte := x81.
Definition CHECK_SHIFT : byte := x82.
Definition CONVERT_INT : byte := x83.
Definition CONVERT_UINT_TO_FLOAT : byte := x84.
Definition PRINT_UNSIGNED : byte := x85.
Definition STRING_OF_UNSIGNED : byte := x86.
Definition TYPE_TEST : byte := x87.
Definition DOWNCAST : byte := x88.
Definition NATIVE_STATE_RETAIN : byte := x89.
Definition CONST_TYPE : byte := x8a.
Definition TYPE_OF : byte := x8b.
Definition EQ_TYPE : byte := x8c.
Definition NE_TYPE : byte := x8d.
Definition TYPE_FIELD : byte := x8e.
Definition TYPE_CAST_RESULT : byte := x8f.
Definition CHANNEL_OP : byte := x90.
Definition CONVERT_FLOAT_TO_UINT : byte := x91.
Definition NATIVE_STATE_TAKE : byte := x92.
Definition NUMBER_OP : byte := x93.
Definition EQ_VALUE : byte := x94.
Definition NE_VALUE : byte := x95.
Definition ABORT : byte := x96.
Definition CMP_VALUE : byte := x97.
Definition ENUM_FROM_CODE : byte := x98.
Definition HASH_VALUE : byte := x99.
End o.

(** ** Place paths *)

(** One step of a [PlacePath]: a constant field index, or an array index the
    operand stack supplies. *)
Inductive PathStep :=
| Field (index : Z)
| Index.

(** [mod step_tag]. *)
Definition step_tag_FIELD : byte := x00.
Definition step_tag_INDEX : byte := x01.

Record PlacePath := { PlacePath_steps : list PathStep }.

Definition PlacePath_len (p : PlacePath) : Z := Z.of_nat (length (PlacePath_steps p)).
Definition PlacePath_is_empty (p : PlacePath) : bool :=
  match PlacePath_steps p with [] => true | _ => false end.

Definition is_index_step (s : PathStep) : bool :=
  match s with Index => true | Field _ => false end.

(** How many values the runtime pops for the path's indices. *)
Definition index_count (p : PlacePath) : nat :=
  length (List.filter is_index_step (PlacePath_steps p)).

Record WritebackTarget := {
  wb_param : Z;
  wb_slot : Z;
  wb_path : PlacePath
}.

Record FieldPath := { FieldPath_steps : list Z }.

Definition FieldPath_len (p : FieldPath) : Z := Z.of_nat (length (FieldPath_steps p)).
Definition FieldPath_is_empty (p : FieldPath) : bool :=
  match FieldPath_steps p with [] => true | _ => false end.

(** ** Instructions *)
Inductive Instruction :=
| I_ConstInt (value : Z)
| I_ConstFloat (bits : Z)
| I_ConstBool (value : bool)
| I_ConstStr (operand : Z)
| I_ConstVoid
| I_LoadLocal (operand : Z)
| I_TakeLocal (operand : Z)
| I_StoreLocal (operand : Z)
| I_LoadConstant (operand : Z)
| I_Pop
| I_NegInt
| I_NegFloat
| I_Not
| I_AddInt
| I_SubInt
| I_MulInt
| I_DivInt
| I_RemInt
| I_DivUInt
| I_RemUInt
| I_AddFloat
| I_SubFloat
| I_MulFloat
| I_DivFloat
| I_RemFloat
| I_ConcatStr
| I_EqInt
| I_NeInt
| I_LtInt
| I_LeInt
| I_GtInt
| I_GeInt
| I_LtUInt
| I_LeUInt
| I_GtUInt
| I_GeUInt
| I_BitAnd
| I_BitOr
| I_BitXor
| I_Shl
| I_ShrInt
| I_ShrUInt
| I_BitNot
| I_EqFloat
| I_NeFloat
| I_LtFloat
| I_LeFloat
| I_GtFloat
| I_GeFloat
| I_EqBool
| I_NeBool
| I_EqStr
| I_NeStr
| I_Erase (operand : Z)
| I_EqAny
| I_NeAny
| I_EqValue
| I_NeValue
| I_CmpValue
| I_EqType
| I_NeType
| I_Jump (operand : Z)
| I_JumpIfFalse (operand : Z)
| I_Call (operand : Z)
| I_CallNative (operand : Z)
| I_CallForeign (operand : Z)
| I_CallMut (func : Z) (slot : Z) (path : PlacePath)
| I_CallWriteback (func : Z) (targets : list WritebackTarget)
| I_CallNativeWriteback (func : Z) (targets : list WritebackTarget)
| I_NativeState (operand : Z)
| I_NativeUserData (shared : bool)
| I_NativeRecover (operand : Z)
| I_NativeStateRetain
| I_NativeStateRelease
| I_ConstRawPtrNull
| I_ForeignCallback (operand : Z)
| I_Print
| I_Abort
| I_Return
| I_ReturnVoid
| I_NewStruct (operand : Z)
| I_NewStructDropping (fields : Z) (glue : Z)
| I_NewStructOrdered (order : list Z) (glue : option Z)
| I_AddIntChecked
| I_SubIntChecked
| I_MulIntChecked
| I_NegIntChecked
| I_DivIntChecked
| I_AddUIntChecked
| I_SubUIntChecked
| I_MulUIntChecked
| I_CheckInt (operand : byte)
| I_WrapInt (operand : byte)
| I_CheckShift (operand : byte)
| I_ConvertInt (from : byte) (to : byte)
| I_ConvertUIntToFloat
| I_PrintUnsigned
| I_StringOfUnsigned
| I_TypeTest (operand : Z)
| I_Downcast (operand : Z)
| I_ConstType (operand : Z)
| I_TypeOf
| I_TypeField (operand : byte)
| I_TypeCastResult (operand : Z)
| I_GetField (operand : Z)
| I_ForeignOffset (operand : Z)
| I_ForeignIndex (operand : Z)
| I_ForeignLoad (offset : Z) (ty : ForeignType)
| I_StoreField (slot : Z) (path : FieldPath)
| I_NewArray (operand : Z)
| I_ArrayGet
| I_ArrayLen
| I_ConvertFloatToBits
| I_ConvertBitsToFloat
| I_ConvertBits32ToFloat
| I_ConvertFloatToBits32
| I_ArrayGetLocal (operand : Z)
| I_TaskOp (operand : TaskPrim)
| I_ChannelOp (operand : ChannelPrim)
| I_MainThreadCall (operation : MainThreadOp) (func : Z) (args : Z)
| I_MainThreadJoin
| I_MainThreadLifecycle
| I_StringLen
| I_StringCharAt
| I_StringSubstring
| I_StringIndexOf
| I_StringOf
| I_CStringNew
| I_CLayoutAddress (operand : Z)
| I_FileSystem (operand : FileSystemOp)
| I_StringOp (operand : StringOp)
| I_NumberOp (operand : NumberOp)
| I_ArrayElements (operand : ForeignType)
| I_ScalarText
| I_MathOp (operand : MathOp)
| I_Compiler (operand : CompilerOp)
| I_Env (operand : EnvOp)
| I_StorePlace (slot : Z) (path : PlacePath)
| I_ArrayAppend (slot : Z) (path : PlacePath)
| I_NewEnum (tag : Z) (has_payload : bool)
| I_EnumTag
| I_EnumFromCode
| I_HashValue
| I_EnumPayload
| I_NewCell
| I_CellGet (operand : Z)
| I_CellSet (operand : Z)
| I_ConvertIntToFloat
| I_ConvertFloatToInt
| I_ConvertFloatToUInt
| I_NativeStateTake (operand : Z)
| I_ConvertIntToRawPtr
| I_ConvertRawPtrToInt.

(** ** Well-formed operands: every integer lies in its Rust type, and every
    vector is short enough to be counted in a [u64]. *)

Definition vec_ok {A} (P : A -> Prop) (l : list A) : Prop :=
  Forall P l /\ Z.of_nat (length l) < 2 ^ 64.

Definition option_ok {A} (P : A -> Prop) (o : option A) : Prop :=
  match o with Some a => P a | None => True end.

Definition PathStep_ok (s : PathStep) : Prop :=
  match s with Field i => u64_ok i | Index => True end.
Definition PlacePath_ok (p : PlacePath) : Prop := vec_ok PathStep_ok (PlacePath_steps p).
Definition FieldPath_ok (p : FieldPath) : Prop := vec_ok u64_ok (FieldPath_steps p).
Definition WritebackTarget_ok (t : WritebackTarget) : Prop :=
  u64_ok (wb_param t) /\ u64_ok (wb_slot t) /\ PlacePath_ok (wb_path t).
Definition targets_ok (l : list WritebackTarget) : Prop := vec_ok WritebackTarget_ok l.
Definition words_ok (l : list Z) : Prop := vec_ok u64_ok l.

Definition Instruction_ok (i : Instruction) : Prop :=
  match i with
  | I_ConstInt a => i64_ok a
  | I_ConstFloat a => u64_ok a
  | I_ConstStr a => u64_ok a
  | I_LoadLocal a => u64_ok a
  | I_TakeLocal a => u64_ok a
  | I_StoreLocal a => u64_ok a
  | I_LoadConstant a => u64_ok a
  | I_Erase a => u64_ok a
  | I_Jump a => u64_ok a
  | I_JumpIfFalse a => u64_ok a
  | I_Call a => u64_ok a
  | I_CallNative a => u32_ok a
  | I_CallForeign a => u32_ok a
  | I_CallMut func slot path => u64_ok func /\ u64_ok slot /\ PlacePath_ok path
  | I_CallWriteback func targets => u64_ok func /\ targets_ok targets
  | I_CallNativeWriteback func targets => u32_ok func /\ targets_ok targets
  | I_NativeState a => u64_ok a
  | I_NativeRecover a => u64_ok a
  | I_ForeignCallback a => u32_ok a
  | I_NewStruct a => u64_ok a
  | I_NewStructDropping fields glue => u64_ok fields /\ u32_ok glue
  | I_NewStructOrdered order glue => words_ok order /\ option_ok u32_ok glue
  | I_TypeTest a => u64_ok a
  | I_Downcast a => u64_ok a
  | I_ConstType a => u64_ok a
  | I_TypeCastResult a => u64_ok a
  | I_GetField a => u64_ok a
  | I_ForeignOffset a => u32_ok a
  | I_ForeignIndex a => u32_ok a
  | I_ForeignLoad offset _ => u32_ok offset
  | I_StoreField slot path => u64_ok slot /\ FieldPath_ok path
  | I_NewArray a => u64_ok a
  | I_ArrayGetLocal a => u64_ok a
  | I_MainThreadCall _ func args => u64_ok func /\ u64_ok args
  | I_CLayoutAddress a => u32_ok a
  | I_StorePlace slot path => u64_ok slot /\ PlacePath_ok path
  | I_ArrayAppend slot path => u64_ok slot /\ PlacePath_ok path
  | I_NewEnum tag _ => u64_ok tag
  | I_CellGet a => u64_ok a
  | I_CellSet a => u64_ok a
  | I_NativeStateTake a => u64_ok a
  | _ => True
  end.
