(* ===== verification/Codec.v ===== *)
(** * The instruction codec

    [kira-bytecode/src/op/codec.rs]: [encode_one]/[encode] turn instructions
    into bytes and the [Cursor] turns bytes back, in the current (KBC2) operand
    widths or, for [legacy], in the narrower KBC1 ones.

    Results: decoding inverts encoding ([decode_encode]), the current
    format is canonical, so encoding inverts decoding ([encode_decode]),
    the decoder's loop is total and is exactly the source's [while] loop
    ([decode_is_the_loop]), a failure points inside the stream
    ([decode_error_in_stream]), and legacy streams only ever yield instructions
    the current format can carry ([decode_legacy_upgrade]). *)

From S2P Require Import Prelude Wire AbiOps Instruction.

Inductive DecodeError :=
| UnexpectedEnd (offset : nat)
| UnknownOpcode (opcode : byte) (offset : nat)
| InvalidBoolean (value : byte) (offset : nat).

(** [u8::from(bool)]. *)
Definition byte_of_bool (b : bool) : byte := if b then x01 else x00.

(** ** Encoding *)

Definition encode_step (step : PathStep) : list byte :=
  match step with
  | Field index => step_tag_FIELD :: to_le 8 index
  | Index => [step_tag_INDEX]
  end.

Definition encode_place (slot : Z) (path : PlacePath) : list byte :=
  to_le 8 slot ++ to_le 8 (PlacePath_len path) ++ (PlacePath_steps path ≫= encode_step).

Definition encode_target (t : WritebackTarget) : list byte :=
  to_le 8 (wb_param t) ++ encode_place (wb_slot t) (wb_path t).

Definition encode_one (instruction : Instruction) : list byte :=
  match instruction with
  | I_ConstInt a => o.CONST_INT :: to_le 8 a
  | I_ConstFloat a => o.CONST_FLOAT :: to_le 8 a
  | I_ConstBool a => o.CONST_BOOL :: [byte_of_bool a]
  | I_ConstStr a => o.CONST_STR :: to_le 8 a
  | I_LoadLocal a => o.LOAD_LOCAL :: to_le 8 a
  | I_StoreLocal a => o.STORE_LOCAL :: to_le 8 a
  | I_LoadConstant a => o.LOAD_CONSTANT :: to_le 8 a
  | I_Jump a => o.JUMP :: to_le 8 a
  | I_JumpIfFalse a => o.JUMP_IF_FALSE :: to_le 8 a
  | I_Call a => o.CALL :: to_le 8 a
  | I_CallNative a => o.CALL_NATIVE :: to_le 4 a
  | I_CallForeign a => o.CALL_FOREIGN :: to_le 4 a
  | I_CallMut func slot path => o.CALL_MUT :: to_le 8 func ++ encode_place slot path
  | I_CallWriteback func targets => o.CALL_WRITEBACK :: to_le 8 func ++ to_le 8 (Z.of_nat (length targets)) ++ (targets ≫= encode_target)
  | I_CallNativeWriteback func targets => o.CALL_NATIVE_WRITEBACK :: to_le 4 func ++ to_le 8 (Z.of_nat (length targets)) ++ (targets ≫= encode_target)
  | I_NativeState a => o.NATIVE_STATE :: to_le 8 a
  | I_NativeRecover a => o.NATIVE_RECOVER :: to_le 8 a
  | I_NewStruct a => o.NEW_STRUCT :: to_le 8 a
  | I_TakeLocal a => o.TAKE_LOCAL :: to_le 8 a
  | I_NewStructDropping fields glue => o.NEW_STRUCT_DROPPING :: to_le 8 fields ++ to_le 4 glue
  | I_AddIntChecked => [o.ADD_INT_CHECKED]
  | I_SubIntChecked => [o.SUB_INT_CHECKED]
  | I_MulIntChecked => [o.MUL_INT_CHECKED]
  | I_NegIntChecked => [o.NEG_INT_CHECKED]
  | I_DivIntChecked => [o.DIV_INT_CHECKED]
  | I_AddUIntChecked => [o.ADD_UINT_CHECKED]
  | I_SubUIntChecked => [o.SUB_UINT_CHECKED]
  | I_MulUIntChecked => [o.MUL_UINT_CHECKED]
  | I_CheckInt a => o.CHECK_INT :: [a]
  | I_WrapInt a => o.WRAP_INT :: [a]
  | I_CheckShift a => o.CHECK_SHIFT :: [a]
  | I_ConvertInt from to => o.CONVERT_INT :: [from] ++ [to]
  | I_ConvertUIntToFloat => [o.CONVERT_UINT_TO_FLOAT]
  | I_PrintUnsigned => [o.PRINT_UNSIGNED]
  | I_StringOfUnsigned => [o.STRING_OF_UNSIGNED]
  | I_TypeOf => [o.TYPE_OF]
  | I_TypeField a => o.TYPE_FIELD :: [a]
  | I_TypeTest a => o.TYPE_TEST :: to_le 8 a
  | I_Downcast a => o.DOWNCAST :: to_le 8 a
  | I_ConstType a => o.CONST_TYPE :: to_le 8 a
  | I_TypeCastResult a => o.TYPE_CAST_RESULT :: to_le 8 a
  | I_NewStructOrdered order glue => o.NEW_STRUCT_ORDERED :: to_le 8 (Z.of_nat (length order)) ++ (order ≫= to_le 8) ++
      match glue with Some glue => x01 :: to_le 4 glue | None => [x00] end
  | I_GetField a => o.GET_FIELD :: to_le 8 a
  | I_ForeignOffset a => o.FOREIGN_OFFSET :: to_le 4 a
  | I_ForeignIndex a => o.FOREIGN_INDEX :: to_le 4 a
  | I_ForeignLoad offset ty => o.FOREIGN_LOAD :: to_le 4 offset ++ [wire_byte ty]
  | I_StoreField slot path => o.STORE_FIELD :: to_le 8 slot ++ to_le 8 (FieldPath_len path) ++ (FieldPath_steps path ≫= to_le 8)
  | I_NewArray a => o.NEW_ARRAY :: to_le 8 a
  | I_StorePlace slot path => o.STORE_PLACE :: encode_place slot path
  | I_ArrayAppend slot path => o.ARRAY_APPEND :: encode_place slot path
  | I_NewEnum tag has_payload => o.NEW_ENUM :: to_le 8 tag ++ [byte_of_bool has_payload]
  | I_ArrayGet => [o.ARRAY_GET]
  | I_ArrayLen => [o.ARRAY_LEN]
  | I_StringLen => [o.STRING_LEN]
  | I_StringCharAt => [o.STRING_CHAR_AT]
  | I_StringSubstring => [o.STRING_SUBSTRING]
  | I_StringIndexOf => [o.STRING_INDEX_OF]
  | I_StringOf => [o.STRING_OF]
  | I_ConvertFloatToBits => [o.CONVERT_FLOAT_TO_BITS]
  | I_ConvertBitsToFloat => [o.CONVERT_BITS_TO_FLOAT]
  | I_ConvertBits32ToFloat => [o.CONVERT_BITS32_TO_FLOAT]
  | I_ConvertFloatToBits32 => [o.CONVERT_FLOAT_TO_BITS32]
  | I_ArrayGetLocal a => o.ARRAY_GET_LOCAL :: to_le 8 a
  | I_CellGet a => o.CELL_GET :: to_le 8 a
  | I_CellSet a => o.CELL_SET :: to_le 8 a
  | I_TaskOp a => o.TASK_OP :: [wire_byte a]
  | I_ChannelOp a => o.CHANNEL_OP :: [wire_byte a]
  | I_MainThreadCall operation func args => o.MAIN_THREAD_CALL :: [wire_byte operation] ++ to_le 8 func ++ to_le 8 args
  | I_MainThreadJoin => [o.MAIN_THREAD_JOIN]
  | I_MainThreadLifecycle => [o.MAIN_THREAD_LIFECYCLE]
  | I_CStringNew => [o.CSTRING_NEW]
  | I_CLayoutAddress a => o.CLAYOUT_ADDRESS :: to_le 4 a
  | I_FileSystem a => o.FILE_SYSTEM :: [wire_byte a]
  | I_StringOp a => o.STRING_OP :: [wire_byte a]
  | I_NumberOp a => o.NUMBER_OP :: [wire_byte a]
  | I_ScalarText => [o.SCALAR_TEXT]
  | I_ArrayElements a => o.ARRAY_ELEMENTS :: [wire_byte a]
  | I_MathOp a => o.MATH_OP :: [wire_byte a]
  | I_Compiler a => o.COMPILER :: [wire_byte a]
  | I_Env a => o.ENV_OP :: [wire_byte a]
  | I_NewCell => [o.NEW_CELL]
  | I_EnumTag => [o.ENUM_TAG]
  | I_EnumFromCode => [o.ENUM_FROM_CODE]
  | I_HashValue => [o.HASH_VALUE]
  | I_EnumPayload => [o.ENUM_PAYLOAD]
  | I_ConvertIntToFloat => [o.CONVERT_INT_TO_FLOAT]
  | I_ConvertFloatToInt => [o.CONVERT_FLOAT_TO_INT]
  | I_ConvertFloatToUInt => [o.CONVERT_FLOAT_TO_UINT]
  | I_NativeStateTake a => o.NATIVE_STATE_TAKE :: to_le 8 a
  | I_ConvertIntToRawPtr => [o.CONVERT_INT_TO_RAW_PTR]
  | I_ConvertRawPtrToInt => [o.CONVERT_RAW_PTR_TO_INT]
  | I_NativeUserData shared => o.NATIVE_USER_DATA :: [byte_of_bool shared]
  | I_NativeStateRetain => [o.NATIVE_STATE_RETAIN]
  | I_NativeStateRelease => [o.NATIVE_STATE_RELEASE]
  | I_ConstRawPtrNull => [o.RAW_PTR_NULL]
  | I_ForeignCallback a => o.FOREIGN_CALLBACK :: to_le 4 a
  | I_ConstVoid => [o.CONST_VOID]
  | I_Pop => [o.POP]
  | I_NegInt => [o.NEG_INT]
  | I_NegFloat => [o.NEG_FLOAT]
  | I_Not => [o.NOT]
  | I_AddInt => [o.ADD_INT]
  | I_SubInt => [o.SUB_INT]
  | I_MulInt => [o.MUL_INT]
  | I_DivInt => [o.DIV_INT]
  | I_RemInt => [o.REM_INT]
  | I_DivUInt => [o.DIV_UINT]
  | I_RemUInt => [o.REM_UINT]
  | I_AddFloat => [o.ADD_FLOAT]
  | I_SubFloat => [o.SUB_FLOAT]
  | I_MulFloat => [o.MUL_FLOAT]
  | I_DivFloat => [o.DIV_FLOAT]
  | I_RemFloat => [o.REM_FLOAT]
  | I_ConcatStr => [o.CONCAT_STR]
  | I_EqInt => [o.EQ_INT]
  | I_NeInt => [o.NE_INT]
  | I_LtInt => [o.LT_INT]
  | I_LeInt => [o.LE_INT]
  | I_GtInt => [o.GT_INT]
  | I_GeInt => [o.GE_INT]
  | I_LtUInt => [o.LT_UINT]
  | I_LeUInt => [o.LE_UINT]
  | I_GtUInt => [o.GT_UINT]
  | I_GeUInt => [o.GE_UINT]
  | I_BitAnd => [o.BIT_AND]
  | I_BitOr => [o.BIT_OR]
  | I_BitXor => [o.BIT_XOR]
  | I_Shl => [o.SHL]
  | I_ShrInt => [o.SHR_INT]
  | I_ShrUInt => [o.SHR_UINT]
  | I_BitNot => [o.BIT_NOT]
  | I_EqFloat => [o.EQ_FLOAT]
  | I_NeFloat => [o.NE_FLOAT]
  | I_LtFloat => [o.LT_FLOAT]
  | I_LeFloat => [o.LE_FLOAT]
  | I_GtFloat => [o.GT_FLOAT]
  | I_GeFloat => [o.GE_FLOAT]
  | I_EqBool => [o.EQ_BOOL]
  | I_NeBool => [o.NE_BOOL]
  | I_Erase a => o.ERASE :: to_le 8 a
  | I_EqAny => [o.EQ_ANY]
  | I_EqValue => [o.EQ_VALUE]
  | I_NeValue => [o.NE_VALUE]
  | I_CmpValue => [o.CMP_VALUE]
  | I_EqType => [o.EQ_TYPE]
  | I_NeType => [o.NE_TYPE]
  | I_NeAny => [o.NE_ANY]
  | I_EqStr => [o.EQ_STR]
  | I_NeStr => [o.NE_STR]
  | I_Print => [o.PRINT]
  | I_Abort => [o.ABORT]
  | I_Return => [o.RETURN]
  | I_ReturnVoid => [o.RETURN_VOID]
  end.

Definition encode (code : list Instruction) : list byte := code ≫= encode_one.

(** ** Decoding *)

(** A Rust [match] of a byte against constants: the first arm that names it. *)
Fixpoint switch {A} (op : byte) (arms : list (byte * A)) (default : A) : A :=
  match arms with
  | [] => default
  | (k, a) :: arms => if Byte.eqb op k then a else switch op arms default
  end.

Section cursor.
Context {host : Host}.
Abbreviation cursor := (reader DecodeError).

(** [Cursor::take::<N>]. *)
Definition take_n (n : nat) : cursor (list byte) := take_slice UnexpectedEnd n.
Definition take1 : cursor byte := bs ← take_n 1; mret (nth 0 bs x00).

Definition read_u64 : cursor Z := bs ← take_n 8; mret (from_le bs).
Definition read_u32 : cursor Z := bs ← take_n 4; mret (from_le bs).
Definition read_u16 : cursor Z := bs ← take_n 2; mret (from_le bs).
Definition read_i64 : cursor Z := bs ← take_n 8; mret (swrap 64 (from_le bs)).

Definition read_word (legacy : bool) : cursor Z := if legacy then read_u32 else read_u64.
Definition read_slot (legacy : bool) : cursor Z := if legacy then read_u16 else read_u64.

Definition read_bool : cursor bool :=
  offset ← reader_offset;
  value ← take1;
  match value with
  | x00 => mret false
  | x01 => mret true
  | value => reader_fail (InvalidBoolean value offset)
  end.

(** The operand byte of an operation family: read it, and refuse a byte the
    family does not name with the offset it was read at. *)
Definition read_family {A} `{WireByte A} : cursor A :=
  offset ← reader_offset;
  tag ← take1;
  match wire_from tag with
  | Some op => mret op
  | None => reader_fail (UnknownOpcode tag offset)
  end.

Definition next_step (legacy : bool) : cursor PathStep :=
  offset ← reader_offset;
  tag ← take1;
  if Byte.eqb tag step_tag_FIELD then index ← read_slot legacy; mret (Field index)
  else if Byte.eqb tag step_tag_INDEX then mret Index
  else reader_fail (UnknownOpcode tag offset).

Definition next_place (legacy : bool) : cursor (Z * PlacePath) :=
  slot ← read_slot legacy;
  count ← read_slot legacy;
  steps ← read_n (Z.to_nat count) (next_step legacy);
  mret (slot, {| PlacePath_steps := steps |}).

Definition next_target (legacy : bool) : cursor WritebackTarget :=
  param ← read_slot legacy;
  p ← next_place legacy;
  mret {| wb_param := param; wb_slot := p.1; wb_path := p.2 |}.

Definition nullary_from_opcode (op : byte) : option Instruction :=
  switch op [
  (o.CONST_VOID, Some I_ConstVoid);
  (o.POP, Some I_Pop);
  (o.NEG_INT, Some I_NegInt);
  (o.NEG_FLOAT, Some I_NegFloat);
  (o.NOT, Some I_Not);
  (o.ADD_INT, Some I_AddInt);
  (o.SUB_INT, Some I_SubInt);
  (o.MUL_INT, Some I_MulInt);
  (o.DIV_INT, Some I_DivInt);
  (o.REM_INT, Some I_RemInt);
  (o.DIV_UINT, Some I_DivUInt);
  (o.REM_UINT, Some I_RemUInt);
  (o.ADD_FLOAT, Some I_AddFloat);
  (o.SUB_FLOAT, Some I_SubFloat);
  (o.MUL_FLOAT, Some I_MulFloat);
  (o.DIV_FLOAT, Some I_DivFloat);
  (o.REM_FLOAT, Some I_RemFloat);
  (o.NEW_CELL, Some I_NewCell);
  (o.CONCAT_STR, Some I_ConcatStr);
  (o.EQ_INT, Some I_EqInt);
  (o.NE_INT, Some I_NeInt);
  (o.LT_INT, Some I_LtInt);
  (o.LE_INT, Some I_LeInt);
  (o.GT_INT, Some I_GtInt);
  (o.GE_INT, Some I_GeInt);
  (o.LT_UINT, Some I_LtUInt);
  (o.LE_UINT, Some I_LeUInt);
  (o.GT_UINT, Some I_GtUInt);
  (o.GE_UINT, Some I_GeUInt);
  (o.BIT_AND, Some I_BitAnd);
  (o.BIT_OR, Some I_BitOr);
  (o.BIT_XOR, Some I_BitXor);
  (o.SHL, Some I_Shl);
  (o.SHR_INT, Some I_ShrInt);
  (o.SHR_UINT, Some I_ShrUInt);
  (o.BIT_NOT, Some I_BitNot);
  (o.EQ_FLOAT, Some I_EqFloat);
  (o.NE_FLOAT, Some I_NeFloat);
  (o.LT_FLOAT, Some I_LtFloat);
  (o.LE_FLOAT, Some I_LeFloat);
  (o.GT_FLOAT, Some I_GtFloat);
  (o.GE_FLOAT, Some I_GeFloat);
  (o.EQ_BOOL, Some I_EqBool);
  (o.NE_BOOL, Some I_NeBool);
  (o.EQ_ANY, Some I_EqAny);
  (o.EQ_VALUE, Some I_EqValue);
  (o.NE_VALUE, Some I_NeValue);
  (o.CMP_VALUE, Some I_CmpValue);
  (o.EQ_TYPE, Some I_EqType);
  (o.NE_TYPE, Some I_NeType);
  (o.NE_ANY, Some I_NeAny);
  (o.EQ_STR, Some I_EqStr);
  (o.NE_STR, Some I_NeStr);
  (o.ARRAY_GET, Some I_ArrayGet);
  (o.ARRAY_LEN, Some I_ArrayLen);
  (o.STRING_LEN, Some I_StringLen);
  (o.STRING_CHAR_AT, Some I_StringCharAt);
  (o.STRING_SUBSTRING, Some I_StringSubstring);
  (o.STRING_INDEX_OF, Some I_StringIndexOf);
  (o.STRING_OF, Some I_StringOf);
  (o.CONVERT_FLOAT_TO_BITS, Some I_ConvertFloatToBits);
  (o.CONVERT_BITS_TO_FLOAT, Some I_ConvertBitsToFloat);
  (o.CONVERT_BITS32_TO_FLOAT, Some I_ConvertBits32ToFloat);
  (o.CONVERT_FLOAT_TO_BITS32, Some I_ConvertFloatToBits32);
  (o.CSTRING_NEW, Some I_CStringNew);
  (o.ENUM_TAG, Some I_EnumTag);
  (o.ENUM_FROM_CODE, Some I_EnumFromCode);
  (o.HASH_VALUE, Some I_HashValue);
  (o.ENUM_PAYLOAD, Some I_EnumPayload);
  (o.CONVERT_INT_TO_FLOAT, Some I_ConvertIntToFloat);
  (o.CONVERT_FLOAT_TO_INT, Some I_ConvertFloatToInt);
  (o.CONVERT_FLOAT_TO_UINT, Some I_ConvertFloatToUInt);
  (o.CONVERT_INT_TO_RAW_PTR, Some I_ConvertIntToRawPtr);
  (o.CONVERT_RAW_PTR_TO_INT, Some I_ConvertRawPtrToInt);
  (o.NATIVE_STATE_RETAIN, Some I_NativeStateRetain);
  (o.NATIVE_STATE_RELEASE, Some I_NativeStateRelease);
  (o.RAW_PTR_NULL, Some I_ConstRawPtrNull);
  (o.PRINT, Some I_Print);
  (o.ABORT, Some I_Abort);
  (o.RETURN, Some I_Return);
  (o.RETURN_VOID, Some I_ReturnVoid);
  (o.MAIN_THREAD_LIFECYCLE, Some I_MainThreadLifecycle)] None.

(** The arms with operands, in source order and in two halves. *)
Definition leading_arms (legacy : bool) : list (byte * cursor Instruction) := [
  (o.CONST_INT, a ← read_i64; mret (I_ConstInt a));
  (o.CONST_FLOAT, a ← read_u64; mret (I_ConstFloat a));
  (o.CONST_BOOL, a ← read_bool; mret (I_ConstBool a));
  (o.CONST_STR, a ← read_word legacy; mret (I_ConstStr a));
  (o.ERASE, a ← read_u64; mret (I_Erase a));
  (o.CONST_VOID, mret I_ConstVoid);
  (o.LOAD_LOCAL, a ← read_slot legacy; mret (I_LoadLocal a));
  (o.ARRAY_GET_LOCAL, a ← read_slot legacy; mret (I_ArrayGetLocal a));
  (o.CELL_GET, a ← read_slot legacy; mret (I_CellGet a));
  (o.CELL_SET, a ← read_slot legacy; mret (I_CellSet a));
  (o.STORE_LOCAL, a ← read_slot legacy; mret (I_StoreLocal a));
  (o.LOAD_CONSTANT, a ← read_slot legacy; mret (I_LoadConstant a));
  (o.JUMP, a ← read_word legacy; mret (I_Jump a));
  (o.JUMP_IF_FALSE, a ← read_word legacy; mret (I_JumpIfFalse a));
  (o.CALL, a ← read_word legacy; mret (I_Call a));
  (o.CALL_NATIVE, a ← read_u32; mret (I_CallNative a));
  (o.CALL_FOREIGN, a ← read_u32; mret (I_CallForeign a));
  (o.FOREIGN_CALLBACK, a ← read_u32; mret (I_ForeignCallback a));
  (o.NATIVE_STATE, a ← read_u64; mret (I_NativeState a));
  (o.NATIVE_RECOVER, a ← read_u64; mret (I_NativeRecover a));
  (o.NATIVE_STATE_TAKE, a ← read_u64; mret (I_NativeStateTake a));
  (o.NATIVE_USER_DATA, shared ← read_bool; mret (I_NativeUserData shared));
  (o.NEW_STRUCT, a ← read_slot legacy; mret (I_NewStruct a));
  (o.TAKE_LOCAL, a ← read_slot legacy; mret (I_TakeLocal a));
  (o.NEW_STRUCT_DROPPING, fields ← read_slot legacy; glue ← read_u32; mret (I_NewStructDropping fields glue));
  (o.ADD_INT_CHECKED, mret I_AddIntChecked);
  (o.SUB_INT_CHECKED, mret I_SubIntChecked);
  (o.MUL_INT_CHECKED, mret I_MulIntChecked);
  (o.NEG_INT_CHECKED, mret I_NegIntChecked);
  (o.DIV_INT_CHECKED, mret I_DivIntChecked);
  (o.ADD_UINT_CHECKED, mret I_AddUIntChecked);
  (o.SUB_UINT_CHECKED, mret I_SubUIntChecked);
  (o.MUL_UINT_CHECKED, mret I_MulUIntChecked);
  (o.CHECK_INT, code ← take1; mret (I_CheckInt code));
  (o.WRAP_INT, code ← take1; mret (I_WrapInt code));
  (o.CHECK_SHIFT, bits ← take1; mret (I_CheckShift bits));
  (o.CONVERT_INT, codes ← take_n 2;
    mret (I_ConvertInt (nth 0 codes x00) (nth 1 codes x00)));
  (o.CONVERT_UINT_TO_FLOAT, mret I_ConvertUIntToFloat);
  (o.PRINT_UNSIGNED, mret I_PrintUnsigned);
  (o.STRING_OF_UNSIGNED, mret I_StringOfUnsigned);
  (o.TYPE_TEST, a ← read_u64; mret (I_TypeTest a));
  (o.DOWNCAST, a ← read_u64; mret (I_Downcast a));
  (o.CONST_TYPE, a ← read_u64; mret (I_ConstType a));
  (o.TYPE_CAST_RESULT, a ← read_u64; mret (I_TypeCastResult a));
  (o.TYPE_OF, mret I_TypeOf);
  (o.TYPE_FIELD, field ← take1; mret (I_TypeField field))].

Definition trailing_arms (legacy : bool) : list (byte * cursor Instruction) := [
  (o.NEW_STRUCT_ORDERED, count ← read_slot legacy; order ← read_n (Z.to_nat count) (read_slot legacy);
    some ← read_bool;
    glue ← (if some : bool then g ← read_u32; mret (Some g) else mret None);
    mret (I_NewStructOrdered order glue));
  (o.GET_FIELD, a ← read_slot legacy; mret (I_GetField a));
  (o.FOREIGN_OFFSET, a ← read_u32; mret (I_ForeignOffset a));
  (o.FOREIGN_INDEX, a ← read_u32; mret (I_ForeignIndex a));
  (o.FOREIGN_LOAD, offset ← read_u32; ty ← read_family; mret (I_ForeignLoad offset ty));
  (o.STORE_FIELD, slot ← read_slot legacy; count ← read_slot legacy;
    steps ← read_n (Z.to_nat count) (read_slot legacy);
    mret (I_StoreField slot {| FieldPath_steps := steps |}));
  (o.NEW_ARRAY, a ← read_word legacy; mret (I_NewArray a));
  (o.STORE_PLACE, p ← next_place legacy; mret (I_StorePlace p.1 p.2));
  (o.ARRAY_APPEND, p ← next_place legacy; mret (I_ArrayAppend p.1 p.2));
  (o.CALL_MUT, func ← read_word legacy; p ← next_place legacy; mret (I_CallMut func p.1 p.2));
  (o.CALL_WRITEBACK, func ← read_word legacy; count ← read_slot legacy;
    targets ← read_n (Z.to_nat count) (next_target legacy);
    mret (I_CallWriteback func targets));
  (o.CALL_NATIVE_WRITEBACK, func ← read_u32; count ← read_slot legacy;
    targets ← read_n (Z.to_nat count) (next_target legacy);
    mret (I_CallNativeWriteback func targets));
  (o.NEW_ENUM, tag ← read_slot legacy; has_payload ← read_bool; mret (I_NewEnum tag has_payload));
  (o.CLAYOUT_ADDRESS, a ← read_u32; mret (I_CLayoutAddress a));
  (o.FILE_SYSTEM, op ← read_family; mret (I_FileSystem op));
  (o.STRING_OP, op ← read_family; mret (I_StringOp op));
  (o.NUMBER_OP, op ← read_family; mret (I_NumberOp op));
  (o.SCALAR_TEXT, mret I_ScalarText);
  (o.ARRAY_ELEMENTS, ty ← read_family; mret (I_ArrayElements ty));
  (o.MATH_OP, op ← read_family; mret (I_MathOp op));
  (o.COMPILER, op ← read_family; mret (I_Compiler op));
  (o.ENV_OP, op ← read_family; mret (I_Env op));
  (o.TASK_OP, prim ← read_family; mret (I_TaskOp prim));
  (o.CHANNEL_OP, prim ← read_family; mret (I_ChannelOp prim));
  (o.MAIN_THREAD_CALL, operation ← read_family; func ← read_word legacy; args ← read_word legacy;
    mret (I_MainThreadCall operation func args));
  (o.MAIN_THREAD_JOIN, mret I_MainThreadJoin)].

Definition operand_arms (legacy : bool) : list (byte * cursor Instruction) :=
  leading_arms legacy ++ trailing_arms legacy.

Definition next_instruction (legacy : bool) : cursor Instruction :=
  opcode_offset ← reader_offset;
  op ← take1;
  switch op (operand_arms legacy)
    match nullary_from_opcode op with
    | Some instruction => mret instruction
    | None => reader_fail (UnknownOpcode op opcode_offset)
    end.

(** [while cursor.offset < bytes.len()]; the fuel bounds the iterations by
    the bytes left, which [decode_is_the_loop] shows is never exhausted. *)
Fixpoint decode_loop (fuel : nat) (legacy : bool) (bytes : list byte) (offset : nat) :
    result DecodeError (list Instruction) :=
  if decide (offset < length bytes)%nat then
    match fuel with
    | O => Err (UnexpectedEnd offset)
    | S fuel =>
      match next_instruction legacy bytes offset with
      | Ok (instruction, offset) =>
        code ← decode_loop fuel legacy bytes offset; Ok (instruction :: code)
      | Err e => Err e
      end
    end
  else Ok [].

Definition decode_with_width (bytes : list byte) (legacy : bool) :
    result DecodeError (list Instruction) :=
  decode_loop (length bytes) legacy bytes 0.

Definition decode (bytes : list byte) : result DecodeError (list Instruction) :=
  decode_with_width bytes false.
Definition decode_legacy (bytes : list byte) : result DecodeError (list Instruction) :=
  decode_with_width bytes true.
End cursor.

(** ** Primitive contracts *)

Section codec_proofs.
Context {host : Host}.

Lemma Reads_take1 b : Reads take1 [b] b.
Proof. unfold take1, take_n. reads. Qed.

Lemma Reads_u64 v : u64_ok v -> Reads read_u64 (to_le 8 v) v.
Proof.
  intros H. unfold read_u64, take_n. eapply Reads_bind_last.
  - apply Reads_take_slice, length_to_le.
  - rewrite (from_to_le_unsigned 8) by exact H. apply Reads_ret.
Qed.

Lemma Reads_u32 v : u32_ok v -> Reads read_u32 (to_le 4 v) v.
Proof.
  intros H. unfold read_u32, take_n. eapply Reads_bind_last.
  - apply Reads_take_slice, length_to_le.
  - rewrite (from_to_le_unsigned 4) by exact H. apply Reads_ret.
Qed.

Lemma Reads_i64 v : i64_ok v -> Reads read_i64 (to_le 8 v) v.
Proof.
  intros H. unfold read_i64, take_n. eapply Reads_bind_last.
  - apply Reads_take_slice, length_to_le.
  - rewrite from_to_le. change (8 * Z.of_nat 8) with 64.
    fold (uwrap 64 v). rewrite swrap_uwrap, swrap_id by done. apply Reads_ret.
Qed.

Lemma Reads_word v : u64_ok v -> Reads (read_word false) (to_le 8 v) v.
Proof. apply Reads_u64. Qed.
Lemma Reads_slot v : u64_ok v -> Reads (read_slot false) (to_le 8 v) v.
Proof. apply Reads_u64. Qed.

#[local] Hint Resolve Reads_take1 Reads_u64 Reads_u32 Reads_i64 Reads_word Reads_slot : reads.

Lemma Reads_bool b : Reads read_bool [byte_of_bool b] b.
Proof. unfold read_bool. reads. destruct b; apply Reads_ret. Qed.

Lemma Reads_family {A} `{WireByte A} (a : A) : Reads read_family [wire_byte a] a.
Proof. unfold read_family. reads. rewrite wire_from_byte. apply Reads_ret. Qed.

#[local] Hint Resolve Reads_bool Reads_family : reads.

(** A counted vector: the length prefix, then the elements. *)
Lemma Reads_counted {A B} (r : reader DecodeError A) (enc : A -> list byte)
    (P : A -> Prop) (xs : list A) (f : list A -> reader DecodeError B) rest b :
  vec_ok P xs -> (forall x, P x -> Reads r (enc x) x) ->
  Reads (f xs) rest b ->
  Reads (count ← read_slot false; ys ← read_n (Z.to_nat count) r; f ys)
    (to_le 8 (Z.of_nat (length xs)) ++ (xs ≫= enc) ++ rest) b.
Proof.
  intros [Hxs Hlen] Hr Hf. eapply Reads_bind.
  - apply Reads_slot. unfold unsigned_ok. lia.
  - rewrite Nat2Z.id. eapply Reads_bind; [|exact Hf].
    apply Reads_read_n. eapply Forall_impl; [exact Hxs|]. auto.
Qed.

Lemma Reads_step s : PathStep_ok s -> Reads (next_step false) (encode_step s) s.
Proof.
  destruct s as [i|]; intros H; unfold next_step, encode_step; do 2 reads_step.
  - change (Byte.eqb step_tag_FIELD step_tag_FIELD) with true; cbv iota. reads.
  - change (Byte.eqb step_tag_INDEX step_tag_FIELD) with false.
    change (Byte.eqb step_tag_INDEX step_tag_INDEX) with true; cbv iota. reads.
Qed.

Lemma Reads_place slot path :
  u64_ok slot -> PlacePath_ok path ->
  Reads (next_place false) (encode_place slot path) (slot, path).
Proof.
  intros Hs Hp. destruct path as [steps]. unfold next_place, encode_place, PlacePath_len.
  cbn [PlacePath_steps]. reads_step.
  eapply Reads_eq; [by rewrite <- (app_nil_r (steps ≫= encode_step))|].
  eapply Reads_counted; eauto using Reads_step, Reads_ret.
Qed.

#[local] Hint Resolve Reads_place : reads.

Lemma Reads_target t : WritebackTarget_ok t -> Reads (next_target false) (encode_target t) t.
Proof.
  destruct t as [p s path]. intros (?&?&?). unfold next_target, encode_target.
  cbn [wb_param wb_slot wb_path] in *. reads.
Qed.

(** The arm a [switch] selects. *)
Fixpoint arm_for {A} (op : byte) (arms : list (byte * A)) : option A :=
  match arms with
  | [] => None
  | (k, a) :: arms => if Byte.eqb op k then Some a else arm_for op arms
  end.

Lemma switch_arm {A} op arms (d : A) : switch op arms d = default d (arm_for op arms).
Proof. induction arms as [|[k a] arms IH]; simpl; [done|]. by destruct (Byte.eqb op k). Qed.

Lemma Reads_operands op r enc i :
  arm_for op (operand_arms false) = Some r -> Reads r enc i ->
  Reads (next_instruction false) (op :: enc) i.
Proof.
  intros Harm Hr. unfold next_instruction. reads_step. reads_step.
  by rewrite switch_arm, Harm.
Qed.

Lemma Reads_nullary op i :
  arm_for op (operand_arms false) = None -> nullary_from_opcode op = Some i ->
  Reads (next_instruction false) [op] i.
Proof.
  intros Harm Hi. unfold next_instruction. reads_step. reads_step.
  rewrite switch_arm, Harm. cbn [default from_option id]. rewrite Hi. apply Reads_ret.
Qed.

Lemma Reads_counted_words {B} (xs : list Z) (f : list Z -> reader DecodeError B) rest b :
  words_ok xs -> Reads (f xs) rest b ->
  Reads (count ← read_slot false; ys ← read_n (Z.to_nat count) (read_slot false); f ys)
    (to_le 8 (Z.of_nat (length xs)) ++ (xs ≫= to_le 8) ++ rest) b.
Proof. intros. eapply Reads_counted; eauto using Reads_slot. Qed.

Lemma Reads_counted_targets {B} (xs : list WritebackTarget)
    (f : list WritebackTarget -> reader DecodeError B) b :
  targets_ok xs -> Reads (f xs) [] b ->
  Reads (count ← read_slot false; ys ← read_n (Z.to_nat count) (next_target false); f ys)
    (to_le 8 (Z.of_nat (length xs)) ++ (xs ≫= encode_target)) b.
Proof.
  intros. eapply Reads_eq; [by rewrite <- (app_nil_r (xs ≫= encode_target))|].
  eapply Reads_counted; eauto using Reads_target.
Qed.

Lemma Reads_instruction i :
  Instruction_ok i -> Reads (next_instruction false) (encode_one i) i.
Proof.
  destruct i; cbn [encode_one Instruction_ok]; intros H; repeat match goal with H : _ /\ _ |- _ => destruct H end;
    first
      [ apply Reads_nullary; reflexivity
      | eapply Reads_operands; [reflexivity|]; try (reads; fail) ].
  all: try solve [reads].
  all: try solve [reads_step; apply Reads_counted_targets; [done|apply Reads_ret]].
  - apply Reads_counted_words; [done|]. destruct glue as [g|]; cbn [option_ok] in *.
    + eapply Reads_bind_cons; [exact (Reads_bool true)|].
      eapply Reads_bind_last; [|apply Reads_ret]. cbv iota. reads.
    + eapply Reads_bind_cons; [exact (Reads_bool false)|].
      eapply Reads_bind_last; [|apply Reads_ret]. apply Reads_ret.
  - eapply Reads_bind_last; [by apply Reads_take_slice|]. apply Reads_ret.
  - match goal with p : FieldPath |- _ => destruct p as [steps] end.
    unfold FieldPath_len. cbn [FieldPath_steps]. reads_step.
    eapply Reads_eq; [by rewrite <- (app_nil_r (steps ≫= to_le 8))|].
    apply Reads_counted_words; [done|apply Reads_ret].
Qed.

(** ** What a successful read consumed *)

Lemma Consumes_take1 : Consumes take1 (fun b enc => enc = [b]).
Proof.
  unfold take1, take_n. eapply Consumes_weaken; [consumes|].
  intros b enc H. open_consumed.
  match goal with H : length ?l = 1%nat |- _ => destruct l as [|? [|]]; simplify_eq/= end. done.
Qed.

Lemma Consumes_from_le n :
  Consumes (bs ← take_n n; mret (from_le bs))
    (fun v enc => enc = to_le n v /\ unsigned_ok (8 * Z.of_nat n) v).
Proof.
  unfold take_n. eapply Consumes_weaken; [consumes|].
  intros v enc H. open_consumed. rewrite app_nil_r.
  split; [by rewrite to_from_le|apply from_le_range].
Qed.

Lemma Consumes_u64 : Consumes read_u64 (fun v enc => enc = to_le 8 v /\ u64_ok v).
Proof. exact (Consumes_from_le 8). Qed.
Lemma Consumes_u32 : Consumes read_u32 (fun v enc => enc = to_le 4 v /\ u32_ok v).
Proof. exact (Consumes_from_le 4). Qed.
Lemma Consumes_u16 : Consumes read_u16 (fun v enc => enc = to_le 2 v /\ unsigned_ok 16 v).
Proof. exact (Consumes_from_le 2). Qed.

Lemma Consumes_i64 : Consumes read_i64 (fun v enc => enc = to_le 8 v /\ i64_ok v).
Proof.
  unfold read_i64, take_n. eapply Consumes_weaken; [consumes|].
  intros v enc H. open_consumed. rewrite app_nil_r. split; [|by apply swrap_range].
  match goal with H : length ?l = 8%nat |- _ =>
    rewrite <- (to_from_le l) at 1; rewrite H; pose proof (from_le_range l) as R;
    rewrite H in R; revert R; generalize (from_le l) end.
  intros v Hv. rewrite <- (to_from_le (to_le 8 v)), <- (to_from_le (to_le 8 (swrap 64 v))).
  rewrite !length_to_le, !from_to_le. change (8 * Z.of_nat 8) with 64.
  fold (uwrap 64 (swrap 64 v)). by rewrite uwrap_swrap.
Qed.

(** In the current format an operand word is its eight-byte image; in the
    legacy format it is only known to fit the wide operand. *)
Definition operand_image (legacy : bool) (v : Z) (enc : list byte) : Prop :=
  u64_ok v /\ (legacy = false -> enc = to_le 8 v).

Lemma Consumes_word legacy : Consumes (read_word legacy) (operand_image legacy).
Proof.
  destruct legacy; simpl; [eapply Consumes_weaken; [apply Consumes_u32|]
                          |eapply Consumes_weaken; [apply Consumes_u64|]];
    intros v enc [-> H]; split; try done; unfold unsigned_ok in *; lia.
Qed.

Lemma Consumes_slot legacy : Consumes (read_slot legacy) (operand_image legacy).
Proof.
  destruct legacy; simpl; [eapply Consumes_weaken; [apply Consumes_u16|]
                          |eapply Consumes_weaken; [apply Consumes_u64|]];
    intros v enc [-> H]; split; try done; unfold unsigned_ok in *; lia.
Qed.

#[local] Hint Resolve Consumes_take1 Consumes_u64 Consumes_u32 Consumes_i64
  Consumes_word Consumes_slot : consumes.

Lemma Consumes_offset_bind {B} (f : nat -> reader DecodeError B) R :
  (forall n, Consumes (f n) R) -> Consumes (reader_offset ≫= f) R.
Proof. intros H bs off b off' Hoff Hr. exact (H off bs off b off' Hoff Hr). Qed.

Lemma Consumes_take1_bind {B} (f : byte -> reader DecodeError B) (R : byte -> B -> list byte -> Prop) :
  (forall b, Consumes (f b) (R b)) ->
  Consumes (take1 ≫= f) (fun a enc => exists b e, enc = b :: e /\ R b a e).
Proof.
  intros H. eapply Consumes_weaken; [eapply Consumes_bind; [apply Consumes_take1|exact H]|].
  intros a enc Ha. open_consumed. eauto.
Qed.

Lemma Consumes_bool : Consumes read_bool (fun b enc => enc = [byte_of_bool b]).
Proof.
  unfold read_bool. apply Consumes_offset_bind. intros off. eapply Consumes_weaken.
  - apply (Consumes_take1_bind _ (fun v b e => e = [] /\ v = byte_of_bool b)). intros v.
    destruct v; try apply Consumes_fail;
      (eapply Consumes_weaken; [apply Consumes_ret|]; intros a enc [-> ->]; done).
  - intros b enc H. open_consumed. done.
Qed.

Lemma Consumes_family {A} `{WireByte A} :
  Consumes (@read_family _ A _) (fun a enc => enc = [wire_byte a]).
Proof.
  unfold read_family. apply Consumes_offset_bind. intros off. eapply Consumes_weaken.
  - apply (Consumes_take1_bind _ (fun tag a e => e = [] /\ tag = wire_byte a)). intros tag.
    destruct (wire_from tag) as [a|] eqn:Ht; [|apply Consumes_fail].
    apply wire_byte_from in Ht.
    eapply Consumes_weaken; [apply Consumes_ret|]. intros a' enc [-> ->]. done.
  - intros b enc H'. open_consumed. done.
Qed.

#[local] Hint Resolve Consumes_bool Consumes_family : consumes.

Lemma concat_images {A} (f : A -> list byte) xs es :
  Forall2 (fun x e => e = f x) xs es -> concat es = xs ≫= f.
Proof. induction 1; simpl; [done|]. by subst; f_equal. Qed.

(** The counted loop: the elements' images in order, and as many as the prefix
    said. *)
Lemma Consumes_counted {A} legacy (r : reader DecodeError A) (f : A -> list byte)
    (P : A -> Prop) count :
  Consumes r (fun x e => P x /\ (legacy = false -> e = f x)) -> u64_ok count ->
  Consumes (read_n (Z.to_nat count) r)
    (fun xs enc => vec_ok P xs /\ count = Z.of_nat (length xs) /\
       (legacy = false -> enc = xs ≫= f)).
Proof.
  intros Hr Hc. eapply Consumes_weaken; [by apply Consumes_read_n|].
  intros xs enc (Hlen & es & -> & Hes). unfold unsigned_ok, vec_ok in *. split_and!.
  - clear Hlen. induction Hes as [|x e xs es [? ?]]; constructor; auto.
  - lia.
  - lia.
  - intros ->. apply concat_images. eapply Forall2_impl; [exact Hes|]. intros x e [_ ?]; auto.
Qed.

(** A bind whose first answer is needed as a fact by the continuation. *)
Lemma Consumes_bind_ok {A B} (r : reader DecodeError A) (f : A -> reader DecodeError B)
    (P : A -> Prop) R1 R2 :
  Consumes r (fun a e => P a /\ R1 a e) -> (forall a, P a -> Consumes (f a) (R2 a)) ->
  Consumes (r ≫= f)
    (fun b enc => exists a e1 e2, enc = e1 ++ e2 /\ P a /\ R1 a e1 /\ R2 a b e2).
Proof.
  intros H1 H2 bs off b off' Hoff. unfold mbind, reader_bind.
  destruct (r bs off) as [[a off1]|] eqn:E1; [|done]. intros E2.
  destruct (H1 _ _ _ _ Hoff E1) as (e1 & D1 & -> & L1 & P1 & P1').
  destruct (H2 a P1 _ _ _ _ L1 E2) as (e2 & D2 & -> & L2 & P2).
  exists (e1 ++ e2). rewrite <- app_assoc, D1, D2, length_app.
  split_and!; [done | lia | done | eauto 10].
Qed.

Lemma Consumes_step legacy :
  Consumes (next_step legacy)
    (fun s enc => PathStep_ok s /\ (legacy = false -> enc = encode_step s)).
Proof.
  unfold next_step. apply Consumes_offset_bind. intros off. eapply Consumes_weaken.
  - apply (Consumes_take1_bind _ (fun tag s e =>
      PathStep_ok s /\ (legacy = false -> tag :: e = encode_step s))). intros tag.
    destruct (Byte.eqb tag step_tag_FIELD) eqn:Ef.
    { apply Byte.byte_dec_bl in Ef as ->. eapply Consumes_weaken; [consumes|].
      intros s enc H. open_consumed. unfold operand_image in *. open_consumed.
      rewrite app_nil_r. split; [done|]. intros Hl. cbn. f_equal. auto. }
    destruct (Byte.eqb tag step_tag_INDEX) eqn:Ei; [|apply Consumes_fail].
    apply Byte.byte_dec_bl in Ei as ->.
    eapply Consumes_weaken; [apply Consumes_ret|]. by intros s enc [-> ->].
  - intros s enc H. open_consumed. done.
Qed.

Lemma Consumes_place legacy :
  Consumes (next_place legacy) (fun p enc => (u64_ok p.1 /\ PlacePath_ok p.2) /\
    (legacy = false -> enc = encode_place p.1 p.2)).
Proof.
  unfold next_place. eapply Consumes_weaken.
  - eapply Consumes_bind; [apply Consumes_slot|]. intros slot.
    eapply Consumes_bind_ok; [apply Consumes_slot|]. intros count Hc.
    eapply Consumes_bind; [apply Consumes_counted; [apply Consumes_step|exact Hc]|].
    intros steps. apply Consumes_ret.
  - intros p enc H. unfold operand_image in *. open_consumed. cbn.
    split; [done|]. intros Hl. unfold encode_place, PlacePath_len. cbn [PlacePath_steps].
    rewrite app_nil_r. f_equal; [auto|]. f_equal; auto.
Qed.

Lemma Consumes_target legacy :
  Consumes (next_target legacy)
    (fun t enc => WritebackTarget_ok t /\ (legacy = false -> enc = encode_target t)).
Proof.
  unfold next_target. eapply Consumes_weaken.
  - eapply Consumes_bind; [apply Consumes_slot|]. intros param.
    eapply Consumes_bind; [apply Consumes_place|]. intros p. apply Consumes_ret.
  - intros p enc H. unfold operand_image in *. open_consumed.
    split; [done|]. intros Hl. unfold encode_target. cbn. rewrite app_nil_r. f_equal; auto.
Qed.

#[local] Hint Resolve Consumes_place : consumes.

(** What an operand arm under opcode [k] consumed: with the opcode in front it
    is the instruction's encoding. *)
Definition arm_image (legacy : bool) (k : byte) (i : Instruction) (enc : list byte) : Prop :=
  Instruction_ok i /\ (legacy = false -> k :: enc = encode_one i).

Lemma counted_arm {A} legacy (r : reader DecodeError A) (f : A -> list byte) (P : A -> Prop) :
  Consumes r (fun x e => P x /\ (legacy = false -> e = f x)) ->
  Consumes (count ← read_slot legacy; read_n (Z.to_nat count) r)
    (fun xs enc => vec_ok P xs /\
      (legacy = false -> enc = to_le 8 (Z.of_nat (length xs)) ++ (xs ≫= f))).
Proof.
  intros Hr. eapply Consumes_weaken.
  - eapply Consumes_bind_ok; [apply Consumes_slot|]. intros count Hc.
    by apply Consumes_counted.
  - intros xs enc H. open_consumed. split; [done|]. intros Hl. f_equal; auto.
Qed.

Lemma reader_bind_assoc {A B C} (r : reader DecodeError A) (f : A -> reader DecodeError B)
    (g : B -> reader DecodeError C) R :
  Consumes ((r ≫= f) ≫= g) R -> Consumes (r ≫= fun a => f a ≫= g) R.
Proof.
  intros H bs off c off' Hoff Hr. apply (H bs off c off' Hoff).
  revert Hr. unfold mbind, reader_bind. by destruct (r bs off) as [[]|].
Qed.

Lemma Consumes_option_glue (some : bool) :
  Consumes (if some then g ← read_u32; mret (Some g) else mret None : reader DecodeError (option Z))
    (fun o enc => option_ok u32_ok o /\
      byte_of_bool some :: enc = match o with Some g => x01 :: to_le 4 g | None => [x00] end).
Proof.
  destruct some; (eapply Consumes_weaken; [consumes|]); intros o enc H; open_consumed; [|done].
  rewrite app_nil_r. done.
Qed.

Ltac close_arm :=
  let i := fresh in let enc := fresh in let H := fresh in
  intros i enc H; unfold operand_image, arm_image in *; open_consumed;
  split; [cbn; first [tauto | unfold FieldPath_ok, targets_ok; cbn; tauto] | intros ->; cbn [encode_one]; rewrite ?app_nil_r;
    repeat match goal with H : false = false -> _ |- _ => specialize (H eq_refl); subst end;
    rewrite ?app_nil_r, <- ?app_assoc; done].

Lemma operand_arms_image legacy :
  Forall (fun '(k, r) => Consumes r (arm_image legacy k)) (operand_arms legacy).
Proof.
  unfold operand_arms, leading_arms, trailing_arms. cbn [app].
  repeat constructor; try (solve [eapply Consumes_weaken; [consumes|close_arm]]).
  - eapply Consumes_weaken; [unfold take_n; consumes|]. intros i enc H. open_consumed.
    match goal with H : length ?l = 2%nat |- _ => destruct l as [|? [|? [|]]]; simplify_eq/= end.
    done.
  - apply reader_bind_assoc. eapply Consumes_weaken.
    { eapply Consumes_bind; [apply counted_arm, Consumes_slot|]. intros order.
      eapply Consumes_bind; [apply Consumes_bool|]. intros some.
      eapply Consumes_bind; [apply Consumes_option_glue|]. intros glue. apply Consumes_ret. }
    intros i enc H. open_consumed. split; [done|]. intros Hl. cbn [encode_one].
    repeat match goal with H : legacy = false -> _ |- _ => specialize (H Hl); subst end.
    match goal with H : byte_of_bool _ :: _ = _ |- _ => rewrite <- H end.
    by rewrite app_nil_r, <- app_assoc.
  - eapply Consumes_weaken.
    { eapply Consumes_bind; [apply Consumes_slot|]. intros slot. apply reader_bind_assoc.
      eapply Consumes_bind; [apply counted_arm, Consumes_slot|]. intros steps. apply Consumes_ret. }
    close_arm.
  - eapply Consumes_weaken.
    { eapply Consumes_bind; [apply Consumes_word|]. intros func. apply reader_bind_assoc.
      eapply Consumes_bind; [apply counted_arm, Consumes_target|]. intros targets. apply Consumes_ret. }
    close_arm.
  - eapply Consumes_weaken.
    { eapply Consumes_bind; [apply Consumes_u32|]. intros func. apply reader_bind_assoc.
      eapply Consumes_bind; [apply counted_arm, Consumes_target|]. intros targets. apply Consumes_ret. }
    close_arm.
Qed.

(** Whatever every arm and the default satisfy, the selected arm satisfies. *)
Lemma switch_case {A} (P : byte -> A -> Prop) op arms (d : A) :
  Forall (fun '(k, a) => P k a) arms -> P op d -> P op (switch op arms d).
Proof.
  intros H Hd. induction H as [|[k a] arms Ha _ IH]; simpl; [done|].
  destruct (Byte.eqb op k) eqn:E; [|done]. by apply Byte.byte_dec_bl in E as ->.
Qed.

Lemma nullary_image op i :
  nullary_from_opcode op = Some i -> Instruction_ok i /\ encode_one i = [op].
Proof.
  revert i. unfold nullary_from_opcode.
  apply (switch_case (fun op o => forall i, o = Some i -> Instruction_ok i /\ encode_one i = [op]));
    [|done].
  repeat constructor; intros; simplify_eq; done.
Qed.

Lemma Consumes_instruction legacy :
  Consumes (next_instruction legacy) (fun i enc => Instruction_ok i /\ enc <> [] /\
    (legacy = false -> enc = encode_one i)).
Proof.
  unfold next_instruction. apply Consumes_offset_bind. intros off. eapply Consumes_weaken.
  - apply (Consumes_take1_bind _ (arm_image legacy)). intros op.
    apply (switch_case (fun op r => Consumes r (arm_image legacy op)));
      [apply operand_arms_image|].
    destruct (nullary_from_opcode op) as [i|] eqn:Hi; [|apply Consumes_fail].
    apply nullary_image in Hi as [Hok Henc].
    eapply Consumes_weaken; [apply Consumes_ret|]. intros i' enc [-> ->]. by split.
  - intros i enc H. unfold arm_image in *. open_consumed. done.
Qed.

(** ** The decoding loop *)

Lemma next_instruction_progress legacy bs off i off' :
  (off <= length bs)%nat -> next_instruction legacy bs off = Ok (i, off') ->
  (off < off' <= length bs)%nat.
Proof.
  intros Hoff Hr. destruct (Consumes_instruction legacy _ _ _ _ Hoff Hr) as (enc & _ & -> & ? & _ & Hne & _).
  destruct enc; [done|]. simpl in *. lia.
Qed.

Lemma decode_loop_fuel f1 f2 legacy bs off :
  (length bs - off <= f1)%nat -> (length bs - off <= f2)%nat ->
  decode_loop f1 legacy bs off = decode_loop f2 legacy bs off.
Proof.
  revert f2 off. induction f1 as [|f1 IH]; intros f2 off H1 H2; destruct f2 as [|f2];
    simpl; case_decide; try done; try lia.
  destruct (next_instruction legacy bs off) as [[i off']|] eqn:E; [|done].
  apply next_instruction_progress in E; [|lia]. by rewrite (IH f2) by lia.
Qed.

(** The decoder from an offset, without its fuel. *)
Definition decode_from (legacy : bool) (bs : list byte) (off : nat) :=
  decode_loop (length bs - off) legacy bs off.

Lemma decode_from_unfold legacy bs off :
  decode_from legacy bs off =
    if decide (off < length bs)%nat then
      match next_instruction legacy bs off with
      | Ok (i, off') => code ← decode_from legacy bs off'; Ok (i :: code)
      | Err e => Err e
      end
    else Ok [].
Proof.
  unfold decode_from at 1. destruct (length bs - off)%nat as [|f] eqn:Hf; simpl;
    (case_decide; [|done]); [lia|].
  destruct (next_instruction legacy bs off) as [[i off']|] eqn:E; [|done].
  apply next_instruction_progress in E; [|lia].
  unfold decode_from. by rewrite (decode_loop_fuel f (length bs - off')) by lia.
Qed.

Lemma decode_with_width_from bs legacy : decode_with_width bs legacy = decode_from legacy bs 0.
Proof. unfold decode_with_width, decode_from. by rewrite Nat.sub_0_r. Qed.

Lemma decode_from_encode pre code :
  Forall Instruction_ok code -> addressable (pre ++ encode code) ->
  decode_from false (pre ++ encode code) (length pre) = Ok code.
Proof.
  intros H. revert pre. induction H as [|i code Hi _ IH]; intros pre Hfit.
  - rewrite decode_from_unfold, decide_False; [done|]. rewrite length_app. simpl. lia.
  - rewrite decode_from_unfold. change (encode (i :: code)) with (encode_one i ++ encode code) in *.
    pose proof (Reads_instruction i Hi pre (encode code) Hfit) as Hr.
    pose proof Hr as Hp. apply next_instruction_progress in Hp; [|rewrite length_app; lia].
    rewrite decide_True by lia. rewrite Hr.
    rewrite (app_assoc pre) in *. rewrite <- length_app. by rewrite IH.
Qed.

Lemma decode_from_image legacy bs off code :
  (off <= length bs)%nat -> decode_from legacy bs off = Ok code ->
  Forall Instruction_ok code /\ (legacy = false -> drop off bs = encode code).
Proof.
  remember (length bs - off)%nat as n eqn:Hn. revert off Hn code.
  induction (lt_wf n) as [n _ IH]. intros off Hn code Hoff.
  rewrite decode_from_unfold. case_decide.
  2: { intros [= <-]. split; [done|]. intros _. by rewrite drop_ge by lia. }
  destruct (next_instruction legacy bs off) as [[i off']|] eqn:E; [|done].
  pose proof (next_instruction_progress _ _ _ _ _ Hoff E).
  destruct (Consumes_instruction legacy _ _ _ _ Hoff E) as (enc & D & -> & ? & Hok & _ & Henc).
  destruct (decode_from legacy bs (off + length enc)) as [code'|] eqn:E'; [|done].
  intros [= <-].
  destruct (IH (length bs - (off + length enc))%nat ltac:(lia) _ eq_refl _ ltac:(lia) E') as [Hall Himg].
  split; [by constructor|]. intros Hl. rewrite D, Himg by done.
  unfold encode. simpl. by rewrite Henc.
Qed.

(** ** Errors point into the stream *)

Definition error_offset (e : DecodeError) : nat :=
  match e with UnexpectedEnd o | UnknownOpcode _ o | InvalidBoolean _ o => o end.

(** A reader whose failures name an offset between where it started and the
    end of the stream. *)
Definition FailsWithin {A} (r : reader DecodeError A) : Prop :=
  forall bs off e, (off <= length bs)%nat -> r bs off = Err e ->
    (off <= error_offset e <= length bs)%nat.

Lemma FailsWithin_ret {A} (a : A) : FailsWithin (mret a).
Proof. by intros bs off e. Qed.

Lemma FailsWithin_bind {A B} (r : reader DecodeError A) (f : A -> reader DecodeError B) R :
  Consumes r R -> FailsWithin r -> (forall a, FailsWithin (f a)) -> FailsWithin (r ≫= f).
Proof.
  intros Hc Hr Hf bs off e Hoff. unfold mbind, reader_bind.
  destruct (r bs off) as [[a off']|e'] eqn:E.
  - destruct (Hc _ _ _ _ Hoff E) as (enc & _ & -> & ? & _). intros H'.
    apply Hf in H'; [|done]. lia.
  - intros [= <-]. by eapply Hr.
Qed.

Lemma FailsWithin_take n : FailsWithin (take_n n).
Proof.
  intros bs off e Hoff. unfold take_n, take_slice. repeat case_decide; intros; simplify_eq; simpl; lia.
Qed.

(** Reading a byte and refusing it: the reported offset is the byte's own. *)
Lemma FailsWithin_tagged {B} (f : nat -> byte -> reader DecodeError B) :
  (forall n b bs off e, (n <= off <= length bs)%nat -> f n b bs off = Err e ->
     (n <= error_offset e <= length bs)%nat) ->
  FailsWithin (n ← reader_offset; b ← take1; f n b).
Proof.
  intros Hf bs off e Hoff. unfold mbind, reader_bind at 1, reader_offset.
  fold (mbind (M := reader DecodeError) (f off) take1). unfold mbind, reader_bind.
  destruct (take1 bs off) as [[b off']|e'] eqn:E.
  - destruct (Consumes_take1 _ _ _ _ Hoff E) as (enc & _ & -> & ? & _). intros H'.
    apply Hf in H'; lia.
  - intros [= <-]. revert E. unfold take1, mbind, reader_bind.
    destruct (take_n 1 bs off) as [[l o]|e''] eqn:E; intros; simplify_eq.
    by eapply FailsWithin_take.
Qed.

Create HintDb fails.
#[local] Hint Constants Opaque : fails.
#[local] Hint Resolve FailsWithin_ret FailsWithin_take : fails.

Ltac fails_step :=
  lazymatch goal with
  | |- FailsWithin (_ ≫= _) =>
    eapply FailsWithin_bind;
      [solve [eauto 4 with consumes] | solve [eauto 4 with fails consumes] | intros ?]
  | |- FailsWithin _ => solve [eauto 4 with fails consumes]
  end.
Ltac fails := repeat fails_step.

#[local] Hint Resolve Consumes_step Consumes_target Consumes_read_n : consumes.

Lemma Consumes_take_n n : Consumes (take_n n) (fun a enc => a = enc /\ length enc = n).
Proof. apply Consumes_take_slice. Qed.
#[local] Hint Resolve Consumes_take_n : consumes.

Lemma FailsWithin_take1 : FailsWithin take1.
Proof. unfold take1. fails. Qed.
Lemma FailsWithin_u64 : FailsWithin read_u64.
Proof. unfold read_u64. fails. Qed.
Lemma FailsWithin_u32 : FailsWithin read_u32.
Proof. unfold read_u32. fails. Qed.
Lemma FailsWithin_i64 : FailsWithin read_i64.
Proof. unfold read_i64. fails. Qed.
#[local] Hint Resolve FailsWithin_take1 FailsWithin_u64 FailsWithin_u32 FailsWithin_i64 : fails.

Lemma FailsWithin_word legacy : FailsWithin (read_word legacy).
Proof. destruct legacy; simpl; fails. Qed.
Lemma FailsWithin_slot legacy : FailsWithin (read_slot legacy).
Proof. destruct legacy; simpl; [unfold read_u16|]; fails. Qed.
#[local] Hint Resolve FailsWithin_word FailsWithin_slot : fails.

Lemma FailsWithin_bool : FailsWithin read_bool.
Proof.
  apply FailsWithin_tagged. intros n b bs off e Hn.
  destruct b; intros H; inversion H; subst; simpl; lia.
Qed.

Lemma FailsWithin_family {A} `{WireByte A} : FailsWithin (@read_family _ A _).
Proof.
  apply FailsWithin_tagged. intros n b bs off e Hn.
  destruct (wire_from b); intros E; inversion E; subst; simpl; lia.
Qed.

Lemma FailsWithin_step legacy : FailsWithin (next_step legacy).
Proof.
  apply FailsWithin_tagged. intros n b bs off e Hn.
  destruct (Byte.eqb b step_tag_FIELD); [|destruct (Byte.eqb b step_tag_INDEX)].
  - intros E. enough (off <= error_offset e <= length bs)%nat by lia.
    assert (FailsWithin (index ← read_slot legacy; mret (Field index))) as Hf by fails.
    by apply Hf; [lia|].
  - done.
  - intros E; inversion E; subst; simpl; lia.
Qed.

Lemma FailsWithin_read_n {A} (r : reader DecodeError A) R n :
  Consumes r R -> FailsWithin r -> FailsWithin (read_n n r).
Proof.
  intros Hc Hr. induction n as [|n IH]; cbn [read_n]; [fails|].
  eapply FailsWithin_bind; [done|done|]. intros x.
  eapply FailsWithin_bind; [by apply Consumes_read_n|done|]. intros xs. fails.
Qed.
#[local] Hint Resolve FailsWithin_bool FailsWithin_family FailsWithin_step FailsWithin_read_n : fails.

Lemma FailsWithin_place legacy : FailsWithin (next_place legacy).
Proof. unfold next_place. fails. Qed.
#[local] Hint Resolve FailsWithin_place : fails.
Lemma FailsWithin_target legacy : FailsWithin (next_target legacy).
Proof. unfold next_target. fails. Qed.
#[local] Hint Resolve FailsWithin_target : fails.

Lemma FailsWithin_glue (some : bool) :
  FailsWithin (if some then g ← read_u32; mret (Some g) else mret None : reader DecodeError (option Z)).
Proof. destruct some; fails. Qed.
#[local] Hint Resolve FailsWithin_glue Consumes_option_glue : fails consumes.

Lemma operand_arms_fail legacy : Forall (fun '(k, r) => FailsWithin r) (operand_arms legacy).
Proof.
  unfold operand_arms, leading_arms, trailing_arms. cbn [app].
  repeat (apply List.Forall_cons; [cbv beta iota; fails|]). apply List.Forall_nil.
Qed.

Lemma FailsWithin_instruction legacy : FailsWithin (next_instruction legacy).
Proof.
  apply FailsWithin_tagged. intros n op bs off e Hn E.
  destruct (decide (arm_for op (operand_arms legacy) = None)) as [Ha|Ha].
  - rewrite switch_arm, Ha in E. simpl in E.
    destruct (nullary_from_opcode op); inversion E; subst; simpl; lia.
  - enough (off <= error_offset e <= length bs)%nat by lia.
    destruct (arm_for op (operand_arms legacy)) as [r|] eqn:Hr; [|done].
    rewrite switch_arm, Hr in E. simpl in E.
    assert (FailsWithin r) as Hf; [|apply Hf; [lia|done]].
    clear -Hr. pose proof (operand_arms_fail legacy) as H.
    induction H as [|[k a] arms Ha _ IH]; simpl in Hr; [done|].
    destruct (Byte.eqb op k); [by simplify_eq|auto].
Qed.

Lemma decode_from_error legacy bs off e :
  (off <= length bs)%nat -> decode_from legacy bs off = Err e ->
  (off <= error_offset e <= length bs)%nat.
Proof.
  remember (length bs - off)%nat as n eqn:Hn. revert off Hn.
  induction (lt_wf n) as [n _ IH]. intros off Hn Hoff.
  rewrite decode_from_unfold. case_decide; [|done].
  destruct (next_instruction legacy bs off) as [[i off']|e'] eqn:E.
  - pose proof (next_instruction_progress _ _ _ _ _ Hoff E).
    destruct (decode_from legacy bs off') as [code'|] eqn:E'; [done|]. intros [= <-].
    destruct (IH (length bs - off')%nat ltac:(lia) _ eq_refl ltac:(lia) E'). lia.
  - intros [= <-]. by eapply FailsWithin_instruction.
Qed.
End codec_proofs.

(** ** Claims *)

(** C3: decoding inverts encoding. Any well-formed instruction sequence whose
    encoding fits the host's address space decodes to itself. *)
Theorem decode_encode {host : Host} (code : list Instruction) :
  Forall Instruction_ok code -> addressable (encode code) ->
  decode (encode code) = Ok code.
Proof.
  intros Hok Hfit. unfold decode. rewrite decode_with_width_from.
  exact (decode_from_encode [] code Hok Hfit).
Qed.

(** A stream exercising every operand shape: words, bytes, families, paths,
    counted vectors and optional glue. *)
Definition sample_code : list Instruction :=
  [I_MainThreadLifecycle; I_ConstInt (-3); I_ConstFloat 4611686018427387904; I_ConstBool true;
   I_CallMut 7 2 {| PlacePath_steps := [Field 1; Index; Field 300] |};
   I_CallWriteback 9 [{| wb_param := 0; wb_slot := 4; wb_path := {| PlacePath_steps := [Index] |} |};
                      {| wb_param := 1; wb_slot := 5; wb_path := {| PlacePath_steps := [] |} |}];
   I_NewStructOrdered [1; 0] (Some 12); I_NewStructOrdered [0] None;
   I_StoreField 3 {| FieldPath_steps := [4; 5] |};
   I_ForeignLoad 16 ForeignType_F64; I_ConvertInt x03 x07; I_TaskOp TaskPrim_PickReady;
   I_MainThreadCall MainThreadOp_Spawn 3 2; I_HashValue; I_ReturnVoid].

Ltac decide_ok := vm_compute; intuition (try congruence).

Lemma decode_encode_witness :
  @decode host64 (encode sample_code) = Ok sample_code.
Proof.
  apply (@decode_encode host64).
  - repeat constructor; decide_ok.
  - decide_ok.
Defined.

(** C36: the current format is canonical. A stream that decodes is exactly the
    encoding of what it decodes to, and every decoded operand is in range, so no
    two byte streams denote the same code. *)
Theorem encode_decode {host : Host} (bs : list byte) (code : list Instruction) :
  decode bs = Ok code -> Forall Instruction_ok code /\ encode code = bs.
Proof.
  unfold decode. rewrite decode_with_width_from. intros H.
  apply decode_from_image in H as [Hok Himg]; [|lia].
  split; [done|]. by rewrite <- Himg.
Qed.

Lemma encode_decode_witness :
  @decode host64 [x06; x02; x00; x00; x00; x00; x00; x00; x00; x2a] = Ok [I_LoadLocal 2; I_Return] /\
  encode [I_LoadLocal 2; I_Return] = [x06; x02; x00; x00; x00; x00; x00; x00; x00; x2a].
Proof.
  split; [reflexivity|].
  apply (@encode_decode host64 [x06; x02; x00; x00; x00; x00; x00; x00; x00; x2a]). reflexivity.
Defined.

(** The decoder terminates on every input and is the source's loop: from
    each offset it stops at the end of the stream, otherwise reads one
    instruction and continues where that instruction ended. *)
Theorem decode_is_the_loop {host : Host} (legacy : bool) (bs : list byte) :
  decode_with_width bs legacy = decode_from legacy bs 0 /\
  forall off, decode_from legacy bs off =
    if decide (off < length bs)%nat then
      match next_instruction legacy bs off with
      | Ok (i, off') => code ← decode_from legacy bs off'; Ok (i :: code)
      | Err e => Err e
      end
    else Ok [].
Proof. split; [apply decode_with_width_from|apply decode_from_unfold]. Qed.

(** Every decode error names an offset inside the stream (at most its
    length), in both formats. *)
Theorem decode_error_in_stream {host : Host} (bs : list byte) (legacy : bool) (e : DecodeError) :
  decode_with_width bs legacy = Err e -> (error_offset e <= length bs)%nat.
Proof.
  rewrite decode_with_width_from. intros H. apply decode_from_error in H; lia.
Qed.

Lemma decode_error_in_stream_witness :
  @decode_with_width host64 [x08; x03; x02] true = Err (InvalidBoolean x02 2) /\
  (error_offset (InvalidBoolean x02 2) <= length [x08; x03; x02])%nat.
Proof.
  split; [reflexivity|].
  apply (@decode_error_in_stream host64 [x08; x03; x02] true). reflexivity.
Defined.

(** Legacy upgrade. Whatever a KBC1 stream decodes to is well formed at the
    wide widths, so re-encoding it in the current format loses nothing. *)
Theorem decode_legacy_upgrade {host : Host} (bs : list byte) (code : list Instruction) :
  decode_legacy bs = Ok code -> addressable (encode code) ->
  Forall Instruction_ok code /\ decode (encode code) = Ok code.
Proof.
  unfold decode_legacy, decode. rewrite !decode_with_width_from. intros H Hfit.
  apply decode_from_image in H as [Hok _]; [|lia].
  split; [done|]. exact (decode_from_encode [] code Hok Hfit).
Qed.

Lemma decode_legacy_upgrade_witness :
  @decode_legacy host32 [x06; x02; x01; x28; x05; x00; x00; x00; x2a] =
    Ok [I_LoadLocal 258; I_Call 5; I_Return] /\
  @decode host32 (encode [I_LoadLocal 258; I_Call 5; I_Return]) =
    Ok [I_LoadLocal 258; I_Call 5; I_Return].
Proof.
  split; [reflexivity|].
  apply (@decode_legacy_upgrade host32 [x06; x02; x01; x28; x05; x00; x00; x00; x2a]);
    [reflexivity|decide_ok].
Defined.
