(* ===== verification/SlotTable.v ===== *)
(** * Generational slot tables

    [kira-runtime-abi]'s task table ([tasks.rs]) and channel table
    ([channels.rs]) keep their storage the same way: a vector of reusable
    positions, each with the generation of its current occupant, and a stack of
    positions ready for reuse.  This file has the two routines they share
    (taking a position, giving one up), the invariant of such a table, its
    steps, and what a (position, generation) key can and cannot come to name. *)

From S2P Require Import Prelude.

Lemma alter_insert_Some {A} (f : A -> A) (l : list A) i s :
  l !! i = Some s -> alter f i l = <[i := f s]> l.
Proof.
  revert i; induction l as [|a l IH]; intros [|i] H; simplify_eq/=; [done|].
  f_equal. by apply IH.
Qed.

Record Slot (A : Type) := {
  generation : Z;
  item : option A
}.
Arguments generation {A} _.
Arguments item {A} _.
Arguments Build_Slot {A} _ _.

(** The largest generation a slot may carry: [i32::MAX], so that a handle word
    stays a non-negative [i64]. *)
Definition last_generation : Z := 2 ^ 31 - 1.

Section table.
Context {A : Type}.
Implicit Types (l : list (Slot A)) (fr : list nat) (s : Slot A) (a : A) (k : nat * Z).

Definition with_item s (o : option A) : Slot A := {| generation := generation s; item := o |}.

(** Takes a position for [a]: the top of the free list, or a new one while the
    table is shorter than [limit].  Answers the position and its generation. *)
Definition occupy (limit : Z) a l fr : (list (Slot A) * list nat) * option (nat * Z) :=
  match fr with
  | index :: rest =>
    match l !! index with
    | None => ((l, rest), None)
    | Some s => ((<[index := with_item s (Some a)]> l, rest), Some (index, generation s))
    end
  | [] =>
    let index := length l in
    if decide (Z.of_nat index < limit) then
      ((l ++ [{| generation := 0; item := Some a |}], []), Some (index, 0))
    else ((l, []), None)
  end.

(** Empties position [index], holding [s]: its generation advances and it
    becomes free, unless its generations are spent and it is retired. *)
Definition vacate (index : nat) s l fr : list (Slot A) * list nat :=
  let next := generation s + 1 in
  if decide (next <= last_generation) then
    (<[index := {| generation := next; item := None |}]> l, index :: fr)
  else (<[index := with_item s None]> l, fr).

(** The occupant a key names. *)
Definition held l k : option A :=
  s ← l !! k.1; if decide (generation s = k.2) then item s else None.

Variables (P : A -> Prop) (limit : Z).

Definition slot_ok s : Prop :=
  0 <= generation s <= last_generation /\ (forall a, item s = Some a -> P a).

(** The table's invariant: generations in range, occupants well formed, and
    the free list naming distinct empty positions. *)
Record table_ok l fr : Prop := {
  ok_slots : forall i s, l !! i = Some s -> slot_ok s;
  ok_len : Z.of_nat (length l) <= limit;
  ok_nodup : NoDup fr;
  ok_free : forall i, i ∈ fr -> exists s, l !! i = Some s /\ item s = None
}.

(** The steps a table can make. *)
Inductive tstep l fr : list (Slot A) -> list nat -> Prop :=
| step_none : tstep l fr l fr
| step_write i s a a' : l !! i = Some s -> item s = Some a -> P a' ->
    tstep l fr (<[i := with_item s (Some a')]> l) fr
| step_vacate i s a : l !! i = Some s -> item s = Some a -> generation s < last_generation ->
    tstep l fr (<[i := {| generation := generation s + 1; item := None |}]> l) (i :: fr)
| step_retire i s a : l !! i = Some s -> item s = Some a -> generation s = last_generation ->
    tstep l fr (<[i := with_item s None]> l) fr
| step_reuse i rest s a : fr = i :: rest -> l !! i = Some s -> P a ->
    tstep l fr (<[i := with_item s (Some a)]> l) rest
| step_grow a : fr = [] -> Z.of_nat (length l) < limit -> P a ->
    tstep l fr (l ++ [{| generation := 0; item := Some a |}]) [].

Ltac slot_cases :=
  repeat match goal with
  | H : <[?i:=_]> ?l !! ?j = Some _ |- _ =>
    destruct (decide (i = j)) as [<-|];
      [rewrite list_lookup_insert_eq in H by (eapply lookup_lt_Some; eassumption)
      |rewrite list_lookup_insert_ne in H by done]
  | H : Some _ = Some _ |- _ => injection H as <-
  end.

Lemma tstep_slots l fr l' fr' :
  table_ok l fr -> tstep l fr l' fr' -> forall i s, l' !! i = Some s -> slot_ok s.
Proof.
  intros Hx Hstep i s. pose proof (ok_slots l fr Hx) as Hok. unfold slot_ok in *.
  destruct Hstep; simpl; intros Hs; slot_cases; simpl; eauto.
  - pose proof (Hok _ _ H) as []. split; [done|]. intros ? [= <-]. done.
  - pose proof (Hok _ _ H) as []. split; [lia|done].
  - pose proof (Hok _ _ H) as []. split; [done|done].
  - pose proof (Hok _ _ H0) as []. split; [done|]. intros ? [= <-]. done.
  - apply lookup_app_Some in Hs as [Hs|[_ Hs]]; [eauto|].
    destruct (i - length l)%nat as [|[]]; simplify_eq/=.
    unfold last_generation. split; [lia|]. by intros ? [= <-].
Qed.

(** Empty positions other than the one written stay where they are. *)
Lemma empty_kept l fr i s s0 a :
  table_ok l fr -> l !! i = Some s -> item s = Some a ->
  forall j, j ∈ fr -> exists s', <[i := s0]> l !! j = Some s' /\ item s' = None.
Proof.
  intros Hx Hs Ha j Hj. destruct (ok_free l fr Hx j Hj) as (s' & Hs' & Ht').
  exists s'. rewrite list_lookup_insert_ne; [done|]. intros ->. congruence.
Qed.

Lemma tstep_free l fr l' fr' :
  table_ok l fr -> tstep l fr l' fr' ->
  NoDup fr' /\ forall i, i ∈ fr' -> exists s, l' !! i = Some s /\ item s = None.
Proof.
  intros Hx Hstep. pose proof (ok_nodup l fr Hx) as Hnd. pose proof (ok_free l fr Hx) as Hfree.
  destruct Hstep as [|i s a a' Hs Ha _|i s a Hs Ha _|i s a Hs Ha _|i rest s a Hf Hs _|a Hf _ _].
  - done.
  - split; [done|]. by eapply empty_kept.
  - split; [constructor; [intros (s' & ? & ?)%Hfree; congruence|done]|].
    intros j [->|Hj]%elem_of_cons; [|by eapply empty_kept].
    rewrite list_lookup_insert_eq by (by eapply lookup_lt_Some). eauto.
  - split; [done|]. by eapply empty_kept.
  - subst fr. inversion Hnd as [|? ? Hni Hnd']; subst. split; [done|]. intros j Hj.
    destruct (Hfree j) as (s' & Hs' & Ht'); [by right|]. exists s'.
    rewrite list_lookup_insert_ne; [done|]. by intros ->.
  - split; [constructor|]. by intros i ?%not_elem_of_nil.
Qed.

Lemma tstep_ok l fr l' fr' : table_ok l fr -> tstep l fr l' fr' -> table_ok l' fr'.
Proof.
  intros Hx Hstep. constructor.
  - by eapply tstep_slots.
  - pose proof (ok_len l fr Hx). destruct Hstep; rewrite ?length_insert, ?length_app; simpl; lia.
  - by eapply tstep_free.
  - by eapply tstep_free.
Qed.

Lemma table_ok_new : 0 <= limit -> table_ok [] [].
Proof. constructor; [done|simpl; lia|constructor|by intros i ?%not_elem_of_nil]. Qed.

(** ** Dead keys *)

(** A key whose generation has passed, or whose position is retired. *)
Definition dead l fr k : Prop :=
  exists s, l !! k.1 = Some s /\
    (k.2 < generation s \/ (k.2 = generation s /\ item s = None /\ k.1 ∉ fr)).

(** A key that has been given out: it names an occupant, or is dead. *)
Definition known l fr k : Prop := held l k <> None \/ dead l fr k.

Lemma held_Some l k a :
  held l k = Some a <-> exists s, l !! k.1 = Some s /\ generation s = k.2 /\ item s = Some a.
Proof.
  unfold held. destruct (l !! k.1) as [s|]; simpl; [|by split; [|intros (? & ? & _)]].
  split; [case_decide; [eauto|done]|]. intros (s' & [= ->] & ? & ?). by rewrite decide_True.
Qed.

Lemma dead_not_held l fr k : dead l fr k -> held l k = None.
Proof.
  intros (s & Hs & Hd). destruct (held l k) as [a|] eqn:E; [|done].
  apply held_Some in E as (s' & Hs' & Hg & Ha).
  rewrite Hs in Hs'; injection Hs' as ->. destruct Hd as [|(?&?&?)]; [lia|congruence].
Qed.

(** Splits on whether a step touched the position a key names. *)
Ltac key_cases j i Hs Hs' :=
  try (destruct (decide (j = i)) as [->|];
    [rewrite list_lookup_insert_eq in * by done; rewrite Hs in Hs'; injection Hs' as <-
    |rewrite list_lookup_insert_ne in * by done]).

Lemma tstep_dead l fr l' fr' k :
  table_ok l fr -> tstep l fr l' fr' -> dead l fr k -> dead l' fr' k.
Proof.
  destruct k as [i g]. intros Hx Hstep (s & Hs & Hd). cbn [fst snd] in *.
  pose proof (lookup_lt_Some _ _ _ Hs) as Hlt. unfold dead; cbn [fst snd].
  destruct Hstep as [|j s' a a' Hs' Ha _|j s' a Hs' Ha _|j s' a Hs' Ha _|j rest s' a Hf Hs' _|a Hf _ _];
    key_cases j i Hs Hs'; eauto.
  - eexists; split; [done|]. destruct Hd as [|(?&?&?)]; [auto|congruence].
  - eexists; split; [done|]. simpl. left. destruct Hd as [|(?&?&?)]; lia.
  - exists s. split; [done|]. destruct Hd as [|(?&?&?)]; [auto|]. right.
    split_and!; [done..|]. rewrite elem_of_cons. by intros [->|].
  - eexists; split; [done|]. destruct Hd as [|(?&?&?)]; [auto|congruence].
  - eexists; split; [done|]. destruct Hd as [|(?&?&Hn)]; [auto|]. destruct Hn. subst fr. by left.
  - exists s. split; [done|]. destruct Hd as [|(?&?&Hn)]; [auto|]. right. subst fr.
    split_and!; [done..|]. intros Hin. apply Hn. by right.
  - exists s. split; [by apply lookup_app_l_Some|]. by subst fr.
Qed.

Lemma tstep_known l fr l' fr' k :
  table_ok l fr -> tstep l fr l' fr' -> known l fr k -> known l' fr' k.
Proof.
  intros Hx Hstep [Hl|Hd]; [|right; by eapply tstep_dead].
  destruct (held l k) as [a0|] eqn:E; [|done]. destruct k as [i g].
  apply held_Some in E as (s & Hs & Hg & Ht); cbn [fst snd] in *. subst g.
  pose proof (lookup_lt_Some _ _ _ Hs) as Hlt.
  assert (forall a s', generation s' = generation s -> l' !! i = Some s' -> item s' = Some a ->
    known l' fr' (i, generation s)) as Hlive.
  { intros a s' Hg Hs' Ha'. left. enough (held l' (i, generation s) = Some a) as -> by done.
    apply held_Some. eauto. }
  destruct Hstep as [|j s' a a' Hs' Ha _|j s' a Hs' Ha _|j s' a Hs' Ha _|j rest s' a Hf Hs' _|a Hf _ _];
    key_cases j i Hs Hs'; eauto.
  - by eapply (Hlive a' (with_item s (Some a'))).
  - right. eexists; cbn [fst snd]. rewrite list_lookup_insert_eq by done. split; [done|]. left. simpl. lia.
  - right. eexists; cbn [fst snd]. rewrite list_lookup_insert_eq by done. split; [done|]. right.
    split_and!; [done..|]. intros (? & ? & ?)%(ok_free l fr Hx). congruence.
  - by eapply (Hlive a (with_item s (Some a))).
  - eapply Hlive; [done|by apply lookup_app_l_Some|done].
Qed.

(** ** How one change shows through keys *)

Definition upd {K} `{EqDecision K} (m : K -> option A) (x : K) (v : option A) : K -> option A :=
  fun y => if decide (y = x) then v else m y.

Lemma held_set l i s s' k :
  l !! i = Some s -> generation s' = generation s \/ item s' = None ->
  held (<[i := s']> l) k = upd (held l) (i, generation s) (item s') k.
Proof.
  intros Hs Hg. unfold held, upd. destruct k as [j g]; cbn [fst snd].
  pose proof (lookup_lt_Some _ _ _ Hs). destruct (decide (j = i)) as [->|Hne].
  - rewrite list_lookup_insert_eq, Hs by done. simpl.
    destruct (decide (g = generation s)) as [->|].
    + rewrite (decide_True (P := (i, _) = _)) by done. case_decide; [done|]. by destruct Hg.
    + rewrite (decide_False (P := (i, _) = _)) by congruence.
      rewrite (decide_False (P := generation s = g)) by congruence.
      case_decide; [|done]. destruct Hg; [congruence|done].
  - rewrite list_lookup_insert_ne by done. by rewrite decide_False by congruence.
Qed.

Lemma held_grow l s' k :
  held (l ++ [s']) k = upd (held l) (length l, generation s') (item s') k /\
  held l (length l, generation s') = None.
Proof.
  unfold held, upd. destruct k as [j g]; cbn [fst snd].
  split; [|by rewrite lookup_ge_None_2].
  destruct (decide (j = length l)) as [->|Hne].
  - rewrite lookup_app_r, Nat.sub_diag, (lookup_ge_None_2 l) by lia. simpl.
    repeat case_decide; congruence.
  - rewrite (decide_False (P := (j, g) = _)) by congruence. destruct (decide (j < length l)%nat).
    + by rewrite lookup_app_l.
    + rewrite !lookup_ge_None_2; [done|lia|]. rewrite length_app. simpl. lia.
Qed.

(** ** The effects of the table's routines *)

Lemma held_lookup l k a :
  held l k = Some a -> exists s, l !! k.1 = Some s /\ item s = Some a /\ k = (k.1, generation s).
Proof.
  intros (s & ? & Hg & ?)%held_Some. exists s. rewrite Hg. by destruct k.
Qed.

Lemma held_in_range l fr k a :
  table_ok l fr -> held l k = Some a -> P a /\ Z.of_nat k.1 < limit /\ 0 <= k.2 <= last_generation.
Proof.
  intros Hx (s & Hs & <- & Ha)%held_Some. destruct (ok_slots l fr Hx _ _ Hs) as [? HP].
  pose proof (ok_len l fr Hx). apply lookup_lt_Some in Hs. split_and!; auto; lia.
Qed.

Lemma write_effect l fr i s a a' :
  table_ok l fr -> l !! i = Some s -> item s = Some a -> P a' ->
  tstep l fr (<[i := with_item s (Some a')]> l) fr /\
  forall k, held (<[i := with_item s (Some a')]> l) k = upd (held l) (i, generation s) (Some a') k.
Proof.
  intros Hx Hs Ha HP. split; [by eapply step_write|]. intros k. by rewrite (held_set l i s) by auto.
Qed.

Lemma vacate_effect l fr i s a :
  table_ok l fr -> l !! i = Some s -> item s = Some a ->
  tstep l fr (vacate i s l fr).1 (vacate i s l fr).2 /\
  forall k, held (vacate i s l fr).1 k = upd (held l) (i, generation s) None k.
Proof.
  intros Hx Hs Ha. destruct (ok_slots l fr Hx i s Hs) as [Hg _]. unfold vacate.
  case_decide; cbn [fst snd]; (split; [|intros k; by rewrite (held_set l i s) by auto]).
  - eapply step_vacate; eauto. lia.
  - eapply step_retire; eauto. lia.
Qed.

(** Taking a position either fails with the table full and unchanged, or
    installs the occupant at a key never given out before. *)
Lemma occupy_effect l fr a :
  table_ok l fr -> P a ->
  (occupy limit a l fr = ((l, fr), None) /\ Z.of_nat (length l) = limit /\ fr = []) \/
  exists l' fr' i g, occupy limit a l fr = ((l', fr'), Some (i, g)) /\ tstep l fr l' fr' /\
    Z.of_nat i < limit /\ 0 <= g <= last_generation /\ held l (i, g) = None /\
    ~ known l fr (i, g) /\ forall k, held l' k = upd (held l) (i, g) (Some a) k.
Proof.
  intros Hx HP. unfold occupy. destruct fr as [|i rest].
  - case_decide as Hd; [right|left; pose proof (ok_len l [] Hx); split_and!; [done|lia|done]].
    pose proof (held_grow l {| generation := 0; item := Some a |}) as Hg. cbn [generation item] in Hg.
    eexists _, _, _, _; split_and!; [done|by apply step_grow|lia|lia|unfold last_generation; lia| | |].
    + apply (Hg (0%nat, 0)).
    + intros [Hn|(s & Hs & _)]; [by destruct (Hg (0%nat, 0)) as [_ ?]|].
      apply lookup_lt_Some in Hs. simpl in Hs. lia.
    + intros k. apply Hg.
  - right. destruct (ok_free l _ Hx i) as (s & Hs & Ht); [by left|]. rewrite Hs.
    pose proof (lookup_lt_Some _ _ _ Hs) as Hlt. pose proof (ok_len l _ Hx).
    destruct (ok_slots l _ Hx i s Hs) as [Hg _].
    assert (held l (i, generation s) = None) as Hn
      by (unfold held; simpl; rewrite Hs; simpl; by rewrite decide_True).
    eexists _, _, _, _; split_and!; [done|by eapply step_reuse|lia|lia|lia|done| |].
    + intros [?|(s' & Hs' & [Hd|(_ & _ & Hd)])]; [done|simplify_eq/=; lia|]. apply Hd. by left.
    + intros k. by rewrite (held_set l i s) by auto.
Qed.
End table.

(** ** Programs that drive a slot table

    What an executor built on a slot table promises: a state with such a table
    in it, and calls that keep it well formed and move it by steps. *)

Class SlotClient {A : Type} (P : A -> Prop) (limit : Z) (X C : Type) := {
  slots_of : X -> list (Slot A);
  free_of : X -> list nat;
  client_ok : X -> Prop;
  exec : C -> X -> X;
  client_table x : client_ok x -> table_ok P limit (slots_of x) (free_of x);
  exec_ok c x : client_ok x -> client_ok (exec c x);
  exec_step c x : client_ok x ->
    tstep P limit (slots_of x) (free_of x) (slots_of (exec c x)) (free_of (exec c x))
}.

Section client.
Context {A : Type} {P : A -> Prop} {limit : Z} {X C : Type} {client : SlotClient P limit X C}.
Implicit Types (x : X) (cs : list C) (k : nat * Z).

(** A sequence of calls. *)
Fixpoint run cs x : X :=
  match cs with [] => x | c :: cs => run cs (exec c x) end.

Lemma run_app cs cs' x : run (cs ++ cs') x = run cs' (run cs x).
Proof. revert x; induction cs; intros x; simpl; auto. Qed.

Lemma run_ok cs x : client_ok x -> client_ok (run cs x).
Proof. revert x; induction cs; intros x Hx; simpl; [done|]. by apply IHcs, exec_ok. Qed.

Lemma exec_known c x k :
  client_ok x -> known (slots_of x) (free_of x) k ->
  known (slots_of (exec c x)) (free_of (exec c x)) k.
Proof. intros Hx. eapply tstep_known; [by apply client_table|by apply exec_step]. Qed.

Lemma run_known cs x k :
  client_ok x -> known (slots_of x) (free_of x) k -> known (slots_of (run cs x)) (free_of (run cs x)) k.
Proof.
  revert x; induction cs as [|c cs IH]; intros x Hx Hk; simpl; [done|].
  apply IH; [by apply exec_ok|by apply exec_known].
Qed.

(** A key that is dead stays dead whatever calls follow. *)
Lemma run_dead cs x k :
  client_ok x -> dead (slots_of x) (free_of x) k -> dead (slots_of (run cs x)) (free_of (run cs x)) k.
Proof.
  revert x; induction cs as [|c cs IH]; intros x Hx Hk; simpl; [done|].
  apply IH; [by apply exec_ok|].
  eapply tstep_dead; [by apply client_table|by apply exec_step|done].
Qed.
End client.
