(* ===== verification/Tasks.v ===== *)
(** * The deferred-task table

    [kira-runtime-abi/src/tasks.rs]: the table both engines drive through
    [TaskExecutor::perform].  A handle packs a slot's generation over its
    1-based index; reclaiming a slot advances the generation, so storage is
    reused without an old handle ever naming a new task.

    The table refines a plain map from handles to tasks ([perform_refines]);
    handles are never reissued over a run ([spawned_handles_distinct]) and a
    reclaimed handle stays dead whatever follows ([reclaimed_stays_dead]). *)

From S2P Require Import Prelude AbiOps SlotTable.

Inductive TaskTrap :=
| TaskTrap_UnknownHandle
| TaskTrap_AlreadyJoined
| TaskTrap_Detached
| TaskTrap_Cancelled
| TaskTrap_Reentrant
| TaskTrap_NotFinished
| TaskTrap_SlotOutOfRange
| TaskTrap_HandleExhausted.

Definition TASK_SLOTS : nat := 8.

Inductive TaskState := Pending | Running | Finished | Joined | Detached | Cancelled.

#[export] Instance TaskState_eq_dec : EqDecision TaskState.
Proof. solve_decision. Defined.

Record Task := {
  state : TaskState;
  target : Z;
  slots : list Z;
  task_result : Z
}.

(** A table position; the source's [TaskSlot] calls its occupant [task]. *)
Abbreviation TaskSlot := (Slot Task).

(** The free list is a [Vec] used as a stack; its top is the list's head. *)
Record TaskExecutor := {
  tasks : list TaskSlot;
  free : list nat;
  clock_ms : Z
}.

Definition TaskExecutor_new : TaskExecutor := {| tasks := []; free := []; clock_ms := 0 |}.

Abbreviation M := (st TaskExecutor TaskTrap).

Definition with_state (t : Task) (s : TaskState) : Task :=
  {| state := s; target := target t; slots := slots t; task_result := task_result t |}.
Definition with_result (t : Task) (r : Z) : Task :=
  {| state := state t; target := target t; slots := slots t; task_result := r |}.
Definition with_slot (t : Task) (i : nat) (v : Z) : Task :=
  {| state := state t; target := target t; slots := <[i:=v]> (slots t);
     task_result := task_result t |}.
Definition with_tasks (x : TaskExecutor) (ts : list TaskSlot) : TaskExecutor :=
  {| tasks := ts; free := free x; clock_ms := clock_ms x |}.

Definition spawned (x : TaskExecutor) : nat :=
  length (List.filter (fun s => match item s with Some _ => true | None => false end) (tasks x)).

(** Packs one stable handle. *)
Definition task_handle (index : nat) (gen : Z) : result TaskTrap Z :=
  if decide (Z.of_nat index + 1 < 2 ^ 32) then
    let word := pack gen (Z.of_nat index + 1) in
    if decide (word <= i64_max) then Ok word else Err TaskTrap_HandleExhausted
  else Err TaskTrap_HandleExhausted.

(** Unpacks and validates a nonzero handle. *)
Definition task_parts (handle : Z) : result TaskTrap (nat * Z) :=
  if decide (handle < 0) then Err TaskTrap_UnknownHandle
  else
    let slot := pack_field handle in
    if decide (slot = 0) then Err TaskTrap_UnknownHandle
    else Ok (Z.to_nat (slot - 1), pack_generation handle).

Definition slot_index (slot : Z) : result TaskTrap nat :=
  if decide (0 <= slot < Z.of_nat TASK_SLOTS) then Ok (Z.to_nat slot)
  else Err TaskTrap_SlotOutOfRange.

(** Resolves a handle to its slot index and live task. *)
Definition resolve (x : TaskExecutor) (handle : Z) : result TaskTrap (nat * Task) :=
  p ← task_parts handle;
  slot ← ok_or (tasks x !! p.1) TaskTrap_UnknownHandle;
  if decide (generation slot = p.2) then
    t ← ok_or (item slot) TaskTrap_UnknownHandle; Ok (p.1, t)
  else Err TaskTrap_UnknownHandle.

(** [TaskExecutor::task]. *)
Definition get_task (handle : Z) : M Task :=
  st_gets (fun x => snd <$> resolve x handle).

(** [TaskExecutor::task_mut] and the write made through the borrow. *)
Definition task_mut (handle : Z) (f : Task -> Task) : M unit :=
  st_update (fun x =>
    r ← resolve x handle;
    Ok (with_tasks x (alter (fun s => with_item s (Some (f r.2))) r.1 (tasks x)), tt)).

(** Reclaims one terminal task and advances the slot generation; a slot whose
    generation space is spent is retired instead of freed. *)
Definition reclaim (handle : Z) : M unit :=
  st_update (fun x =>
    r ← resolve x handle;
    slot ← ok_or (tasks x !! r.1) TaskTrap_UnknownHandle;
    let v := vacate r.1 slot (tasks x) (free x) in
    Ok ({| tasks := v.1; free := v.2; clock_ms := clock_ms x |}, tt)).

Definition new_task (target : Z) : Task :=
  {| state := Pending; target := target; slots := replicate TASK_SLOTS 0; task_result := 0 |}.

(** Adds a pending task and returns its handle. *)
Definition spawn (target : Z) : M Z := fun x =>
  match occupy (2 ^ 32 - 1) (new_task target) (tasks x) (free x) with
  | ((ts, fr), r) =>
    ({| tasks := ts; free := fr; clock_ms := clock_ms x |},
     match r with
     | Some (index, gen) => task_handle index gen
     | None => Err TaskTrap_HandleExhausted
     end)
  end.

Definition begin_join (handle : Z) : M Z :=
  t ← get_task handle;
  match state t with
  | Pending => _ ← task_mut handle (fun t => with_state t Running); mret 1
  | Finished => mret 0
  | Running => st_fail TaskTrap_Reentrant
  | Joined => st_fail TaskTrap_AlreadyJoined
  | Detached => st_fail TaskTrap_Detached
  | Cancelled => st_fail TaskTrap_Cancelled
  end.

Definition begin_detach (handle : Z) : M Z :=
  t ← get_task handle;
  match state t with
  | Pending => _ ← task_mut handle (fun t => with_state t Running); mret 1
  | Finished | Cancelled => mret 0
  | Running => st_fail TaskTrap_Reentrant
  | Joined => st_fail TaskTrap_AlreadyJoined
  | Detached => st_fail TaskTrap_Detached
  end.

Definition is_pending (s : TaskSlot) : bool :=
  match item s with Some t => bool_decide (state t = Pending) | None => false end.

(** The first slot holding a pending task, scanning from [index]. *)
Fixpoint find_pending (index : nat) (ts : list TaskSlot) : option (nat * TaskSlot) :=
  match ts with
  | [] => None
  | s :: ts => if is_pending s then Some (index, s) else find_pending (S index) ts
  end.

Definition set_running (s : TaskSlot) : TaskSlot :=
  with_item s ((fun t => with_state t Running) <$> item s).

Definition pick_ready : M Z := fun x =>
  match find_pending 0 (tasks x) with
  | None => (x, Ok 0)
  | Some (index, slot) =>
    (with_tasks x (alter set_running index (tasks x)),
     Ok (match task_handle index (generation slot) with Ok h => h | Err _ => 0 end))
  end.

Definition take_result (handle : Z) : M Z :=
  t ← get_task handle;
  match state t with
  | Finished =>
    _ ← task_mut handle (fun t => with_state t Joined);
    _ ← reclaim handle;
    mret (task_result t)
  | Joined => st_fail TaskTrap_AlreadyJoined
  | Detached => st_fail TaskTrap_Detached
  | Cancelled => st_fail TaskTrap_Cancelled
  | Pending | Running => st_fail TaskTrap_NotFinished
  end.

Definition perform (prim : TaskPrim) (a b c : Z) : M Z :=
  match prim with
  | TaskPrim_Spawn => spawn a
  | TaskPrim_SetArg =>
    slot ← st_lift (slot_index b);
    _ ← task_mut a (fun t => with_slot t slot c); mret 0
  | TaskPrim_SlotGet =>
    slot ← st_lift (slot_index b);
    t ← get_task a; mret (nth slot (slots t) 0)
  | TaskPrim_TargetOf => t ← get_task a; mret (target t)
  | TaskPrim_BeginJoin => begin_join a
  | TaskPrim_BeginDetach => begin_detach a
  | TaskPrim_PickReady => pick_ready
  | TaskPrim_Complete =>
    _ ← task_mut a (fun t => with_state (with_result t b) Finished); mret 0
  | TaskPrim_TakeResult => take_result a
  | TaskPrim_MarkDetached =>
    _ ← task_mut a (fun t => with_state t Detached); _ ← reclaim a; mret 0
  | TaskPrim_Cancel =>
    t ← get_task a;
    if decide (state t = Pending) then
      _ ← task_mut a (fun t => with_state t Cancelled); _ ← reclaim a; mret 0
    else mret 0
  | TaskPrim_AdvanceClock => fun x =>
    ({| tasks := tasks x; free := free x;
        clock_ms := saturating_add (clock_ms x) (Z.max a 0) |}, Ok 0)
  end.

(** ** Handles *)

Lemma task_parts_handle i g :
  Z.of_nat i + 1 < 2 ^ 32 -> 0 <= g -> task_parts (pack g (Z.of_nat i + 1)) = Ok (i, g).
Proof.
  intros Hi Hg. assert (u32_ok (Z.of_nat i + 1)) by (unfold unsigned_ok; lia).
  unfold task_parts. rewrite pack_field_pack, pack_generation_pack by done.
  rewrite pack_add by done. rewrite !decide_False by lia. do 2 f_equal. lia.
Qed.

Lemma task_parts_inv h i g :
  task_parts h = Ok (i, g) -> h = pack g (Z.of_nat i + 1) /\ Z.of_nat i + 1 < 2 ^ 32 /\ 0 <= g.
Proof.
  unfold task_parts. repeat case_decide; intros; simplify_eq.
  assert (u32_ok (pack_field h)) as Hf
    by (rewrite pack_field_mod; apply Z.mod_pos_bound; lia).
  unfold unsigned_ok in Hf. replace (Z.of_nat (Z.to_nat (pack_field h - 1)) + 1) with (pack_field h) by lia.
  rewrite pack_parts by lia. split_and!; [done|lia|]. rewrite pack_generation_div. apply Z.div_pos; lia.
Qed.

Lemma task_parts_Err h e : task_parts h = Err e -> e = TaskTrap_UnknownHandle.
Proof. unfold task_parts. repeat case_decide; congruence. Qed.

Lemma task_handle_ok i g :
  Z.of_nat i < 2 ^ 32 - 1 -> 0 <= g <= last_generation ->
  task_handle i g = Ok (pack g (Z.of_nat i + 1)).
Proof.
  unfold last_generation. intros Hi Hg. unfold task_handle, i64_max. rewrite decide_True by lia.
  rewrite pack_add by (unfold unsigned_ok; lia). by rewrite decide_True by lia.
Qed.

(** Two words with the same parts are the same handle. *)
Lemma task_parts_inj h h' k : task_parts h = Ok k -> task_parts h' = Ok k -> h = h'.
Proof. destruct k. by intros (-> & _)%task_parts_inv (-> & _)%task_parts_inv. Qed.

(** ** The table seen as a map from handles to tasks *)

Definition live (x : TaskExecutor) (h : Z) : option Task :=
  match task_parts h with Ok k => held (tasks x) k | Err _ => None end.

Definition live_state (s : TaskState) : Prop := s = Pending \/ s = Running \/ s = Finished.

Definition task_ok (t : Task) : Prop := live_state (state t) /\ length (slots t) = TASK_SLOTS.

(** The executor's invariant: a well-formed slot table whose tasks are all
    still in flight, and a clock that is a non-negative [i64]. *)
Definition inv (x : TaskExecutor) : Prop :=
  table_ok task_ok (2 ^ 32 - 1) (tasks x) (free x) /\ 0 <= clock_ms x <= i64_max.

Definition step (x y : TaskExecutor) : Prop :=
  tstep task_ok (2 ^ 32 - 1) (tasks x) (free x) (tasks y) (free y).

(** A handle that was given out and no longer names a task. *)
Definition buried (x : TaskExecutor) (h : Z) : Prop :=
  exists k, task_parts h = Ok k /\ dead (tasks x) (free x) k.

Definition spent_or_live (x : TaskExecutor) (h : Z) : Prop :=
  exists k, task_parts h = Ok k /\ known (tasks x) (free x) k.

Lemma live_resolve x h t :
  live x h = Some t ->
  exists i s, resolve x h = Ok (i, t) /\ tasks x !! i = Some s /\ item s = Some t /\
    task_parts h = Ok (i, generation s).
Proof.
  unfold live, resolve. destruct (task_parts h) as [[i g]|]; [|done].
  intros (s & Hs & Ht & [= ->])%held_lookup. exists i, s. cbn in *. rewrite Hs. cbn.
  rewrite decide_True by done. by rewrite Ht.
Qed.

Lemma live_unresolved x h : live x h = None -> resolve x h = Err TaskTrap_UnknownHandle.
Proof.
  unfold live, resolve. destruct (task_parts h) as [[i g]|e] eqn:E.
  - unfold held. cbn. destruct (tasks x !! i) as [s|]; [|done]. cbn.
    case_decide; [|done]. by intros ->.
  - by apply task_parts_Err in E as ->.
Qed.

Lemma buried_not_live x h : buried x h -> live x h = None.
Proof. intros (k & Hk & Hd). unfold live. rewrite Hk. by eapply dead_not_held. Qed.

Lemma spent_or_live_cases x h : spent_or_live x h -> live x h <> None \/ buried x h.
Proof. intros (k & Hk & [Hl|Hd]); [left; unfold live; by rewrite Hk|right; by exists k]. Qed.

(** A change at one key is a change at the one handle that packs it. *)
Lemma live_upd x y h k v :
  task_parts h = Ok k -> (forall k', held (tasks y) k' = upd (held (tasks x)) k v k') ->
  forall h', live y h' = upd (live x) h v h'.
Proof.
  intros Hk Hy h'. unfold live, upd. destruct (task_parts h') as [k'|] eqn:Hk'.
  - rewrite Hy. unfold upd. destruct (decide (k' = k)) as [->|Hne].
    + by rewrite decide_True by (by eapply task_parts_inj).
    + by rewrite decide_False by congruence.
  - by rewrite decide_False by congruence.
Qed.

(** ** Each method's effect *)

Lemma get_task_live x h :
  get_task h x = (x, match live x h with Some t => Ok t | None => Err TaskTrap_UnknownHandle end).
Proof.
  unfold get_task, st_gets. destruct (live x h) eqn:E.
  - apply live_resolve in E as (i & s & -> & _). done.
  - by rewrite live_unresolved.
Qed.

Lemma task_mut_dead x h f : live x h = None -> task_mut h f x = (x, Err TaskTrap_UnknownHandle).
Proof. intros H. unfold task_mut, st_update. by rewrite live_unresolved. Qed.

Lemma task_mut_live x h f t :
  inv x -> live x h = Some t -> task_ok (f t) ->
  exists x', task_mut h f x = (x', Ok tt) /\ step x x' /\
    forall h', live x' h' = upd (live x) h (Some (f t)) h'.
Proof.
  intros [Hx _] Hl Hok. apply live_resolve in Hl as (i & s & Hr & Hs & Ht & Hp).
  unfold task_mut, st_update. rewrite Hr. cbn. rewrite (alter_insert_Some _ _ _ _ Hs).
  destruct (write_effect _ _ _ _ _ _ _ _ Hx Hs Ht Hok) as [Hstep Hheld].
  eexists; split_and!; [done|done|]. by eapply live_upd.
Qed.

(** A terminal write followed by the reclaim it always comes with. *)
Lemma mut_reclaim_live x h f t :
  inv x -> live x h = Some t ->
  exists x', (_ ← task_mut h f; reclaim h) x = (x', Ok tt) /\ step x x' /\
    forall h', live x' h' = upd (live x) h None h'.
Proof.
  intros [Hx _] Hl. apply live_resolve in Hl as (i & s & Hr & Hs & Ht & Hp).
  pose proof (lookup_lt_Some _ _ _ Hs) as Hlt.
  destruct (vacate_effect _ _ _ _ _ _ _ Hx Hs Ht) as [Hstep Hheld].
  unfold mbind, st_bind, task_mut, reclaim, st_update. rewrite Hr. cbn.
  rewrite (alter_insert_Some _ _ _ _ Hs). set (y := with_tasks x _).
  assert (tasks y = <[i := with_item s (Some (f t))]> (tasks x)) as Hty by done.
  clearbody y.
  assert (tasks y !! i = Some (with_item s (Some (f t)))) as Hsy
    by (rewrite Hty; by apply list_lookup_insert_eq).
  assert (live y h = Some (f t)) as (j & s' & -> & Hs' & _ & Hp')%live_resolve.
  { unfold live. rewrite Hp. apply held_Some. eauto. }
  rewrite Hp in Hp'; injection Hp' as <- _. cbn. rewrite Hty in Hsy. rewrite Hsy. cbn.
  assert (vacate i (with_item s (Some (f t))) (<[i := with_item s (Some (f t))]> (tasks x)) (free x)
          = vacate i s (tasks x) (free x)) as ->.
  { unfold vacate. by rewrite !list_insert_insert_eq. }
  eexists; split_and!; [done|done|]. by eapply live_upd.
Qed.

Lemma new_task_ok a : task_ok (new_task a).
Proof. split; [by left|done]. Qed.

(** A spawn either reports exhaustion and changes nothing, or installs a fresh
    pending task at a handle that was never given out. *)
Lemma spawn_effect x a :
  inv x ->
  (spawn a x = (x, Err TaskTrap_HandleExhausted) /\ Z.of_nat (length (tasks x)) = 2 ^ 32 - 1 /\ free x = []) \/
  exists x' h, spawn a x = (x', Ok h) /\ step x x' /\ 0 < h /\ live x h = None /\ ~ spent_or_live x h /\
    forall h', live x' h' = upd (live x) h (Some (new_task a)) h'.
Proof.
  intros [Hx _]. unfold spawn.
  destruct (occupy_effect _ _ _ _ (new_task a) Hx (new_task_ok a))
    as [(-> & Hlen & Hf)|(l' & fr' & i & g & -> & Hstep & Hi & Hg & Hn & Hk & Hheld)].
  - left. split; [by destruct x|done].
  - right. rewrite task_handle_ok by done.
    assert (task_parts (pack g (Z.of_nat i + 1)) = Ok (i, g)) as Hp by (apply task_parts_handle; lia).
    eexists _, _; split_and!; [done|done| | | |].
    + rewrite pack_add; unfold unsigned_ok; lia.
    + unfold live. by rewrite Hp.
    + intros (k & Hk' & ?). rewrite Hp in Hk'. by injection Hk' as <-.
    + by eapply live_upd.
Qed.

(** ** Scanning for the next pending task *)

Lemma is_pending_iff s : is_pending s = true <-> exists t, item s = Some t /\ state t = Pending.
Proof.
  unfold is_pending. destruct (item s) as [t|]; [|by split; [|intros (? & ? & ?)]].
  rewrite bool_decide_eq_true. split; [eauto|]. intros (? & [= <-] & ?). done.
Qed.

Lemma find_pending_Some k ts i s :
  find_pending k ts = Some (i, s) ->
  (k <= i)%nat /\ ts !! (i - k)%nat = Some s /\ is_pending s = true /\
  forall j s', ts !! j = Some s' -> is_pending s' = true -> (i - k <= j)%nat.
Proof.
  revert k; induction ts as [|s0 ts IH]; intros k H; simplify_eq/=.
  destruct (is_pending s0) eqn:E; simplify_eq.
  - rewrite Nat.sub_diag. split_and!; [lia|done|done|]. intros. lia.
  - apply IH in H as (Hk & Hs & Hp & Hmin).
    replace (i - k)%nat with (S (i - S k)) by lia. split_and!; [lia|done|done|].
    intros [|j] s' Hj Hp'; simpl in Hj; [congruence|]. specialize (Hmin j s' Hj Hp'). lia.
Qed.

Lemma find_pending_None k ts s : find_pending k ts = None -> s ∈ ts -> is_pending s = false.
Proof.
  revert k; induction ts as [|s0 ts IH]; intros k H Hin; [by inversion Hin|]. simpl in H.
  destruct (is_pending s0) eqn:E; [done|]. apply elem_of_cons in Hin as [->|]; eauto.
Qed.

(** ** The abstract table *)

Section spec.
Variables (m m' : Z -> option Task) (r : result TaskTrap Z).

(** The map is unchanged, or changed at one handle only. *)
Definition keeps : Prop := forall h, m' h = m h.
Definition sets (h : Z) (v : option Task) : Prop := forall h', m' h' = upd m h v h'.

Definition on_live (a : Z) (k : Task -> Prop) : Prop :=
  match m a with
  | None => keeps /\ r = Err TaskTrap_UnknownHandle
  | Some t => k t
  end.

(** What each primitive promises, with the table as a map from handles to
    tasks and no slots, generations or free list. *)
Definition task_spec (prim : TaskPrim) (a b c : Z) : Prop :=
  match prim with
  | TaskPrim_Spawn =>
    (keeps /\ r = Err TaskTrap_HandleExhausted) \/
    exists h, 0 < h /\ m h = None /\ sets h (Some (new_task a)) /\ r = Ok h
  | TaskPrim_SetArg =>
    if decide (0 <= b < 8) then
      on_live a (fun t => sets a (Some (with_slot t (Z.to_nat b) c)) /\ r = Ok 0)
    else keeps /\ r = Err TaskTrap_SlotOutOfRange
  | TaskPrim_SlotGet =>
    if decide (0 <= b < 8) then
      on_live a (fun t => keeps /\ exists v, slots t !! Z.to_nat b = Some v /\ r = Ok v)
    else keeps /\ r = Err TaskTrap_SlotOutOfRange
  | TaskPrim_TargetOf => on_live a (fun t => keeps /\ r = Ok (target t))
  | TaskPrim_BeginJoin | TaskPrim_BeginDetach =>
    on_live a (fun t =>
      match state t with
      | Pending => sets a (Some (with_state t Running)) /\ r = Ok 1
      | Running => keeps /\ r = Err TaskTrap_Reentrant
      | Finished => keeps /\ r = Ok 0
      | _ => False
      end)
  | TaskPrim_PickReady =>
    ((forall h t, m h = Some t -> state t <> Pending) /\ keeps /\ r = Ok 0) \/
    exists h t, 0 < h /\ m h = Some t /\ state t = Pending /\
      (forall h' t', m h' = Some t' -> state t' = Pending -> pack_field h <= pack_field h') /\
      sets h (Some (with_state t Running)) /\ r = Ok h
  | TaskPrim_Complete =>
    on_live a (fun t => sets a (Some (with_state (with_result t b) Finished)) /\ r = Ok 0)
  | TaskPrim_TakeResult =>
    on_live a (fun t =>
      match state t with
      | Finished => sets a None /\ r = Ok (task_result t)
      | Pending | Running => keeps /\ r = Err TaskTrap_NotFinished
      | _ => False
      end)
  | TaskPrim_MarkDetached => on_live a (fun _ => sets a None /\ r = Ok 0)
  | TaskPrim_Cancel =>
    on_live a (fun t =>
      (if decide (state t = Pending) then sets a None else keeps) /\ r = Ok 0)
  | TaskPrim_AdvanceClock => keeps /\ r = Ok 0
  end.
End spec.

(** A call made at most one step, and meets the specification. *)
Definition sound (x : TaskExecutor) prim a b c (p : TaskExecutor * result TaskTrap Z) : Prop :=
  step x p.1 /\ task_spec (live x) (live p.1) p.2 prim a b c.

Lemma live_ok x h t : inv x -> live x h = Some t -> task_ok t.
Proof.
  intros [Hx _]. unfold live. destruct (task_parts h); [|done].
  intros Hh. by eapply held_in_range in Hh as [? _].
Qed.

Lemma live_positive x h t : live x h = Some t -> 0 < h.
Proof.
  intros (i & s & _ & _ & _ & (-> & ? & ?)%task_parts_inv)%live_resolve.
  rewrite pack_add; unfold unsigned_ok; lia.
Qed.

Lemma slot_index_cases b :
  slot_index b = if decide (0 <= b < 8) then Ok (Z.to_nat b) else Err TaskTrap_SlotOutOfRange.
Proof. done. Qed.

Lemma task_ok_state t s : task_ok t -> live_state s -> task_ok (with_state t s).
Proof. by intros [_ Hl] Hs. Qed.

Lemma task_ok_slot t i v : task_ok t -> task_ok (with_slot t i v).
Proof. intros [Hs Hl]. split; [done|]. simpl. by rewrite length_insert. Qed.

Lemma live_state_not_joined t : task_ok t -> state t <> Joined /\ state t <> Detached /\ state t <> Cancelled.
Proof. intros [[->|[->| ->]] _]; done. Qed.

(** [task_mut] then a constant answer, against the map. *)
Lemma mut_answer x h f t v :
  inv x -> live x h = Some t -> task_ok (f t) ->
  let p := (_ ← task_mut h f; mret v : M Z) x in
  step x p.1 /\ sets (live x) (live p.1) h (Some (f t)) /\ p.2 = Ok v.
Proof.
  intros Hx Hl Hf. destruct (task_mut_live x h f t) as (x' & E & ? & ?); [done..|].
  st_unfold. by rewrite E.
Qed.

Lemma mut_reclaim_answer x h f t v :
  inv x -> live x h = Some t ->
  let p := (_ ← task_mut h f; _ ← reclaim h; mret v : M Z) x in
  step x p.1 /\ sets (live x) (live p.1) h None /\ p.2 = Ok v.
Proof.
  intros Hx Hl. destruct (mut_reclaim_live x h f t) as (x' & E & ? & ?); [done..|].
  revert E. st_unfold. destruct (task_mut h f x) as [y [[]|]]; [|done].
  intros E. by rewrite E.
Qed.

(** Unfolds one [get_task] in front of the goal's program. *)
Lemma get_task_bind {A} x h (k : Task -> M A) :
  (t ← get_task h; k t) x =
  match live x h with Some t => k t x | None => (x, Err TaskTrap_UnknownHandle) end.
Proof. unfold mbind, st_bind. rewrite get_task_live. by destruct (live x h). Qed.

Lemma task_mut_bind_dead {A} x h f (k : unit -> M A) :
  live x h = None -> (u ← task_mut h f; k u) x = (x, Err TaskTrap_UnknownHandle).
Proof. intros H. unfold mbind, st_bind. by rewrite task_mut_dead. Qed.

Lemma slot_bind {A} x b (k : nat -> M A) :
  (i ← st_lift (slot_index b); k i) x =
  if decide (0 <= b < 8) then k (Z.to_nat b) x else (x, Err TaskTrap_SlotOutOfRange).
Proof. unfold mbind, st_bind, st_lift. rewrite slot_index_cases. by case_decide. Qed.

(** Closes a branch that changed nothing. *)
Ltac kept := split; [apply step_none|split; [by intros ?|eauto]].

Lemma begin_sound x a b c :
  inv x -> sound x TaskPrim_BeginJoin a b c (begin_join a x) /\
           sound x TaskPrim_BeginDetach a b c (begin_detach a x).
Proof.
  intros Hx. unfold begin_join, begin_detach, sound, task_spec, on_live. rewrite !get_task_bind.
  destruct (live x a) as [t|] eqn:E; [|split; kept].
  pose proof (live_ok x a t Hx E) as Hok. destruct (live_state_not_joined t Hok) as (? & ? & ?).
  pose proof (mut_answer x a (fun t => with_state t Running) t 1 Hx E
                (task_ok_state _ _ Hok ltac:(right; by left))) as (? & ? & ?).
  destruct (state t); try done; split; try kept; (done).
Qed.

Lemma spawn_sound x a b c : inv x -> sound x TaskPrim_Spawn a b c (spawn a x).
Proof.
  intros Hx. destruct (spawn_effect x a Hx) as [(-> & _)|(x' & h & -> & ? & ? & ? & _ & ?)].
  - split; [apply step_none|left]. done.
  - split; [done|right]. exists h. split_and!; try done.
Qed.

Lemma pending_at x h t :
  live x h = Some t -> state t = Pending ->
  exists i s, tasks x !! i = Some s /\ is_pending s = true /\ pack_field h = Z.of_nat i + 1.
Proof.
  intros (i & s & _ & Hs & Ht & (-> & ? & ?)%task_parts_inv)%live_resolve Hp. exists i, s.
  split_and!; [done|apply is_pending_iff; eauto|]. apply pack_field_pack; unfold unsigned_ok; lia.
Qed.

Lemma pick_ready_sound x a b c : inv x -> sound x TaskPrim_PickReady a b c (pick_ready x).
Proof.
  intros Hx. unfold pick_ready. destruct (find_pending 0 (tasks x)) as [[i s]|] eqn:E.
  - apply find_pending_Some in E as (_ & Hs & Hp & Hmin). rewrite Nat.sub_0_r in *.
    apply is_pending_iff in Hp as (t & Ht & Hst).
    destruct Hx as [Hx _]. pose proof (ok_len _ _ _ _ Hx). pose proof (lookup_lt_Some _ _ _ Hs).
    destruct (ok_slots _ _ _ _ Hx i s Hs) as [Hg Hok].
    rewrite task_handle_ok by lia. set (h := pack (generation s) (Z.of_nat i + 1)).
    assert (task_parts h = Ok (i, generation s)) as Hh by (apply task_parts_handle; lia).
    assert (live x h = Some t) as Hl by (unfold live; rewrite Hh; apply held_Some; eauto).
    rewrite (alter_insert_Some _ _ _ _ Hs). unfold set_running. rewrite Ht. cbn [fmap option_fmap option_map].
    edestruct (write_effect task_ok) as [Hstep Hheld]; [exact Hx|exact Hs|exact Ht|
      exact (task_ok_state t Running (Hok t Ht) ltac:(right; by left))|].
    split; [done|right]. exists h, t. split_and!; try done.
    + by eapply live_positive.
    + intros h' t' Hl' Hp'. destruct (pending_at x h' t' Hl' Hp') as (j & s' & Hj & Hps & ->).
      specialize (Hmin j s' Hj Hps). unfold h.
      rewrite pack_field_pack by (unfold unsigned_ok; lia). lia.
    + intros h'. cbn [fst]. by apply (live_upd x _ h (i, generation s)).
  - split; [apply step_none|left]. split_and!; [|done|done].
    intros h t Hl Hp. destruct (pending_at x h t Hl Hp) as (i & s & Hs & Hps & _).
    rewrite (find_pending_None _ _ s E) in Hps; [done|]. by apply list_elem_of_lookup_2 in Hs.
Qed.

Lemma take_result_sound x a b c : inv x -> sound x TaskPrim_TakeResult a b c (take_result a x).
Proof.
  intros Hx. unfold take_result, sound, task_spec, on_live. rewrite get_task_bind.
  destruct (live x a) as [t|] eqn:E; [|kept].
  destruct (live_state_not_joined t (live_ok x a t Hx E)) as (? & ? & ?).
  pose proof (mut_reclaim_answer x a (fun t => with_state t Joined) t (task_result t) Hx E) as (? & ? & ?).
  destruct (state t); try done; kept.
Qed.

Lemma slots_sound x a b c :
  inv x -> sound x TaskPrim_SetArg a b c (perform TaskPrim_SetArg a b c x) /\
           sound x TaskPrim_SlotGet a b c (perform TaskPrim_SlotGet a b c x).
Proof.
  intros Hx. unfold perform, sound, task_spec, on_live. rewrite !slot_bind.
  case_decide; [|split; kept]. rewrite get_task_bind.
  destruct (live x a) as [t|] eqn:E.
  - pose proof (live_ok x a t Hx E) as Hok. split.
    + pose proof (mut_answer x a (fun t => with_slot t (Z.to_nat b) c) t 0 Hx E
                    (task_ok_slot _ _ _ Hok)) as (? & ? & ?).
      done.
    + destruct (lookup_lt_is_Some_2 (slots t) (Z.to_nat b)) as [v Hv].
      { destruct Hok as [_ ->]. unfold TASK_SLOTS. lia. }
      split; [apply step_none|]. split; [done|]. exists v. split; [done|].
      cbn. f_equal. by apply nth_lookup_Some.
  - rewrite task_mut_bind_dead by done. split; kept.
Qed.

Lemma terminal_sound x a b c :
  inv x -> sound x TaskPrim_Complete a b c (perform TaskPrim_Complete a b c x) /\
           sound x TaskPrim_MarkDetached a b c (perform TaskPrim_MarkDetached a b c x) /\
           sound x TaskPrim_Cancel a b c (perform TaskPrim_Cancel a b c x).
Proof.
  intros Hx. unfold perform, sound, task_spec, on_live. rewrite get_task_bind.
  destruct (live x a) as [t|] eqn:E.
  - pose proof (live_ok x a t Hx E) as Hok.
    pose proof (mut_answer x a (fun t => with_state (with_result t b) Finished) t 0 Hx E
                  (task_ok_state _ _ Hok ltac:(by right; right))) as (? & ? & ?).
    pose proof (mut_reclaim_answer x a (fun t => with_state t Detached) t 0 Hx E) as (? & ? & ?).
    pose proof (mut_reclaim_answer x a (fun t => with_state t Cancelled) t 0 Hx E) as (? & ? & ?).
    split; [done|split; [done|]].
    case_decide; [done|]. kept.
  - rewrite !task_mut_bind_dead by done. split; [kept|split; kept].
Qed.

Lemma saturating_add_clock c d : 0 <= c <= i64_max -> 0 <= d ->
  saturating_add c d = Z.min i64_max (c + d).
Proof. unfold saturating_add, i64_max, i64_min. lia. Qed.

Lemma perform_sound x prim a b c : inv x -> sound x prim a b c (perform prim a b c x).
Proof.
  intros Hx. destruct prim.
  - by apply spawn_sound.
  - by apply slots_sound.
  - by apply slots_sound.
  - unfold perform, sound, task_spec, on_live. rewrite get_task_bind.
    destruct (live x a); kept.
  - by apply begin_sound.
  - by apply begin_sound.
  - by apply pick_ready_sound.
  - by apply terminal_sound.
  - by apply take_result_sound.
  - by apply terminal_sound.
  - by apply terminal_sound.
  - split; [apply step_none|done].
Qed.

(** ** The clock *)

(** A method that leaves the clock alone. *)
Definition quiet {A} (m : M A) : Prop := forall x, clock_ms (m x).1 = clock_ms x.

Lemma quiet_bind {A B} (m : M A) (f : A -> M B) :
  quiet m -> (forall a, quiet (f a)) -> quiet (a ← m; f a).
Proof.
  intros Hm Hf x. unfold mbind, st_bind. specialize (Hm x).
  destruct (m x) as [y [a|e]]; simpl in *; [by rewrite Hf|done].
Qed.

Lemma quiet_gets {A} (f : TaskExecutor -> result TaskTrap A) : quiet (st_gets f).
Proof. done. Qed.

Lemma quiet_fail {A} e : quiet (st_fail (A := A) e).
Proof. done. Qed.

Lemma quiet_lift {A} (r : result TaskTrap A) : quiet (st_lift r).
Proof. done. Qed.

Lemma quiet_ret {A} (a : A) : quiet (mret a).
Proof. done. Qed.

Lemma quiet_update {A} (f : TaskExecutor -> result TaskTrap (TaskExecutor * A)) :
  (forall x y a, f x = Ok (y, a) -> clock_ms y = clock_ms x) -> quiet (st_update f).
Proof. intros Hf x. unfold st_update. destruct (f x) as [[y a]|] eqn:E; simpl; eauto. Qed.

Lemma quiet_task_mut h f : quiet (task_mut h f).
Proof.
  apply quiet_update. intros x y [] E. destruct (resolve x h) as [[]|]; by simplify_eq/=.
Qed.

Lemma quiet_reclaim h : quiet (reclaim h).
Proof.
  apply quiet_update. intros x y [] E. destruct (resolve x h) as [[i t]|]; simplify_eq/=.
  destruct (tasks x !! i); by simplify_eq/=.
Qed.

Lemma quiet_spawn a : quiet (spawn a).
Proof.
  intros x. unfold spawn. by destruct (occupy _ _ _ _) as [[] ?].
Qed.

Lemma quiet_pick_ready : quiet pick_ready.
Proof. intros x. unfold pick_ready. by destruct (find_pending 0 (tasks x)) as [[]|]. Qed.

Create HintDb quiet discriminated.
#[local] Hint Resolve quiet_bind quiet_gets quiet_fail quiet_lift quiet_ret quiet_task_mut
  quiet_reclaim quiet_spawn quiet_pick_ready : quiet.
#[local] Hint Extern 2 (quiet (match state ?t with _ => _ end)) => destruct (state t) : quiet.
#[local] Hint Extern 2 (quiet (if decide _ then _ else _)) => case_decide : quiet.

Lemma quiet_perform prim a b c : prim <> TaskPrim_AdvanceClock -> quiet (perform prim a b c).
Proof.
  intros Hp. destruct prim; try done;
    unfold perform, begin_join, begin_detach, take_result, get_task; auto 8 with quiet.
Qed.

Lemma clock_perform x prim a b c : 0 <= clock_ms x <= i64_max ->
  clock_ms (perform prim a b c x).1 =
  Z.min i64_max (clock_ms x + if decide (prim = TaskPrim_AdvanceClock) then Z.max a 0 else 0).
Proof.
  intros Hc. case_decide as Hk.
  - rewrite Hk. cbn. apply saturating_add_clock; [done|lia].
  - rewrite Z.add_0_r, Z.min_r by lia. by apply quiet_perform.
Qed.

Lemma perform_step_inv x prim a b c : inv x -> inv (perform prim a b c x).1.
Proof.
  intros Hx. destruct (perform_sound x prim a b c Hx) as [Hs _]. destruct Hx as [Ht Hc]. split.
  - by eapply tstep_ok.
  - rewrite clock_perform by done. unfold i64_max in *. case_decide; lia.
Qed.

(** ** Sequences of calls *)

Record call := { c_prim : TaskPrim; c_a : Z; c_b : Z; c_c : Z }.

Definition do_call (k : call) : M Z := perform (c_prim k) (c_a k) (c_b k) (c_c k).

#[export] Instance task_client : SlotClient task_ok (2 ^ 32 - 1) TaskExecutor call := {
  slots_of := tasks;
  free_of := free;
  client_ok := inv;
  exec k x := (do_call k x).1;
  client_table x Hx := proj1 Hx;
  exec_ok k x Hx := perform_step_inv x (c_prim k) (c_a k) (c_b k) (c_c k) Hx;
  exec_step k x Hx := proj1 (perform_sound x (c_prim k) (c_a k) (c_b k) (c_c k) Hx)
}.

(** The handles a run's spawns returned, in order. *)
Fixpoint issued (ks : list call) (x : TaskExecutor) : list Z :=
  match ks with
  | [] => []
  | k :: ks =>
    match c_prim k, (do_call k x).2 with
    | TaskPrim_Spawn, Ok h => [h]
    | _, _ => []
    end ++ issued ks (do_call k x).1
  end.

(** The milliseconds a run's clock advances asked for. *)
Fixpoint advanced (ks : list call) : Z :=
  match ks with
  | [] => 0
  | k :: ks => (if decide (c_prim k = TaskPrim_AdvanceClock) then Z.max (c_a k) 0 else 0) + advanced ks
  end.

Lemma inv_new : inv TaskExecutor_new.
Proof.
  split; [apply table_ok_new; lia|simpl; unfold i64_max; lia].
Qed.

Lemma run_inv ks x : inv x -> inv (run ks x).
Proof. apply (run_ok (client := task_client)). Qed.

Lemma known_call x k h : inv x -> spent_or_live x h -> spent_or_live (do_call k x).1 h.
Proof. intros Hx (q & Hq & Hk). exists q. split; [done|]. by apply (exec_known (client := task_client)). Qed.

Lemma known_run x ks h : inv x -> spent_or_live x h -> spent_or_live (run ks x) h.
Proof. intros Hx (q & Hq & Hk). exists q. split; [done|]. by apply (run_known (client := task_client)). Qed.

Lemma buried_run x ks h : inv x -> buried x h -> buried (run ks x) h.
Proof. intros Hx (q & Hq & Hk). exists q. split; [done|]. by apply (run_dead (client := task_client)). Qed.

Lemma live_spent_or_live x h : live x h <> None -> spent_or_live x h.
Proof.
  unfold live. intros H. destruct (task_parts h) as [k|] eqn:E; [|done]. exists k. split; [done|by left].
Qed.

(** What a spawn that answered a handle did. *)
Lemma issued_head x k h : inv x ->
  match c_prim k, (do_call k x).2 with TaskPrim_Spawn, Ok h => [h] | _, _ => [] end = [h] ->
  ~ spent_or_live x h /\ live (do_call k x).1 h <> None.
Proof.
  intros Hx. unfold do_call. destruct (c_prim k); try done. cbn [perform].
  destruct (spawn_effect x (c_a k) Hx) as [(-> & _)|(x' & h0 & -> & _ & _ & _ & Hd & Hl)]; [done|].
  intros [= <-]. split; [done|]. cbn. rewrite Hl. unfold upd. by rewrite decide_True.
Qed.

Lemma issued_shape x k :
  match c_prim k, (do_call k x).2 with TaskPrim_Spawn, Ok h => [h] | _, _ => [] end = [] \/
  exists h, match c_prim k, (do_call k x).2 with TaskPrim_Spawn, Ok h => [h] | _, _ => [] end = [h].
Proof. destruct (c_prim k), (do_call k x).2; eauto. Qed.

Lemma issued_fresh ks x : inv x ->
  NoDup (issued ks x) /\ forall h, h ∈ issued ks x -> ~ spent_or_live x h.
Proof.
  revert x; induction ks as [|k ks IH]; intros x Hx; simpl.
  { split; [constructor|]. by intros h ?%not_elem_of_nil. }
  destruct (IH (do_call k x).1) as [Hnd Hfresh]; [by apply perform_step_inv|].
  assert (forall h, h ∈ issued ks (do_call k x).1 -> ~ spent_or_live x h) as Hback.
  { intros h Hh Hx'. apply (Hfresh h Hh). by apply known_call. }
  destruct (issued_shape x k) as [E|[h E]]; rewrite E; [done|].
  apply issued_head in E as [Hd Hl]; [|done]. split.
  - constructor; [|done]. intros Hin. apply (Hfresh h Hin). by apply live_spent_or_live.
  - intros h' [->|]%elem_of_cons; auto.
Qed.

Lemma issued_known ks x h : inv x -> h ∈ issued ks x -> spent_or_live (run ks x) h.
Proof.
  revert x; induction ks as [|k ks IH]; intros x Hx; simpl; [by intros ?%not_elem_of_nil|].
  intros [Hi|Hi]%elem_of_app; [|apply IH; [by apply perform_step_inv|done]].
  apply known_run; [by apply perform_step_inv|].
  destruct (issued_shape x k) as [E|[h' E]]; rewrite E in Hi; [by apply not_elem_of_nil in Hi|].
  apply list_elem_of_singleton in Hi as ->. apply issued_head in E as [_ Hl]; [|done].
  by apply live_spent_or_live.
Qed.

(** C16: the task table refines a plain map from handles to tasks: whatever the
    table's layout, every primitive answers and changes that map exactly as the
    abstract specification says, on the success and on every trap branch. *)
Theorem perform_refines x prim a b c :
  inv x -> task_spec (live x) (live (perform prim a b c x).1) (perform prim a b c x).2 prim a b c.
Proof. intros Hx. apply (perform_sound x prim a b c Hx). Qed.

Lemma perform_refines_witness :
  task_spec (live TaskExecutor_new) (live (perform TaskPrim_Spawn 7 0 0 TaskExecutor_new).1)
    (Ok 1) TaskPrim_Spawn 7 0 0.
Proof. exact (perform_refines TaskExecutor_new TaskPrim_Spawn 7 0 0 inv_new). Defined.

(** Over any sequence of calls on a fresh table, the handles its spawns
    returned are pairwise distinct: a reused slot never reissues a handle. *)
Theorem spawned_handles_distinct (ks : list call) : NoDup (issued ks TaskExecutor_new).
Proof. apply issued_fresh, inv_new. Qed.

(** The primitives whose first operand is a handle, given an argument slot in
    range where they take one. *)
Definition addresses (k : call) : Prop :=
  match c_prim k with
  | TaskPrim_Spawn | TaskPrim_PickReady | TaskPrim_AdvanceClock => False
  | TaskPrim_SetArg | TaskPrim_SlotGet => 0 <= c_b k < 8
  | _ => True
  end.

Lemma call_not_live x k : inv x -> addresses k -> live x (c_a k) = None ->
  (do_call k x).2 = Err TaskTrap_UnknownHandle.
Proof.
  intros Hx Ha Hl. destruct (perform_sound x (c_prim k) (c_a k) (c_b k) (c_c k) Hx) as [_ Hs].
  unfold do_call. revert Ha Hs. unfold addresses, task_spec, on_live. rewrite Hl.
  destruct (c_prim k); try done; intros Ha; rewrite ?decide_True by done; by intros [_ ?].
Qed.

(** A handle that has stopped resolving once never resolves again: after any
    prefix of calls under which a spawned handle was reclaimed, every later
    primitive addressed to it, after any further calls, traps as unknown. *)
Theorem reclaimed_stays_dead (before mid after : list call) (h : Z) (k : call) :
  h ∈ issued before TaskExecutor_new ->
  live (run (before ++ mid) TaskExecutor_new) h = None ->
  c_a k = h -> addresses k ->
  (do_call k (run (before ++ mid ++ after) TaskExecutor_new)).2 = Err TaskTrap_UnknownHandle.
Proof.
  intros Hi Hn <- Ha. apply call_not_live; [apply run_inv, inv_new|done|].
  rewrite app_assoc, run_app. apply buried_not_live, buried_run; [apply run_inv, inv_new|].
  enough (spent_or_live (run (before ++ mid) TaskExecutor_new) (c_a k)) as []%spent_or_live_cases by done.
  rewrite run_app. apply known_run; [apply run_inv, inv_new|]. by apply issued_known; [apply inv_new|].
Qed.

(** The handle 1 is spawned, cancelled, and its slot reused by handle [2^32 + 1]. *)
Lemma reclaimed_stays_dead_witness :
  (do_call (Build_call TaskPrim_TargetOf 1 0 0)
     (run ([Build_call TaskPrim_Spawn 7 0 0] ++ [Build_call TaskPrim_Cancel 1 0 0] ++
           [Build_call TaskPrim_Spawn 9 0 0]) TaskExecutor_new)).2 = Err TaskTrap_UnknownHandle.
Proof.
  apply (reclaimed_stays_dead _ _ _ 1); [|vm_compute; reflexivity..|exact I].
  vm_compute. left.
Defined.

(** ** Results survive unrelated calls *)

(** A call that may write the task at [h]: a handle primitive aimed at it. *)
Definition writes_at (h : Z) (k : call) : Prop :=
  c_a k = h /\
  match c_prim k with
  | TaskPrim_SetArg | TaskPrim_Complete | TaskPrim_TakeResult
  | TaskPrim_MarkDetached => True
  | _ => False
  end.

Lemma sets_other m m' h h' v : sets m m' h v -> h' <> h -> m' h' = m h'.
Proof. intros Hs Hne. rewrite Hs. unfold upd. by rewrite decide_False. Qed.

(** A primitive leaves alone every task but its own operand's, a fresh spawn's
    and a pending one's. *)
Lemma spec_frame m m' r prim a b c h t :
  task_spec m m' r prim a b c -> m h = Some t -> state t <> Pending -> a <> h -> m' h = m h.
Proof.
  unfold task_spec, on_live. intros Hs Hl Hp Ha.
  assert (forall v, sets m m' a v -> m' h = m h) as Hother
    by (intros v Hv; eapply sets_other; eauto).
  destruct prim; try destruct (m a) as [t'|]; try destruct (state t'); repeat case_decide;
    try done; try (destruct Hs as [Hs _]; by eauto).
  all: first
    [ destruct Hs as [[Hs _]|(h' & _ & Hn & Hs & _)]; [done|]; eapply sets_other; [done|congruence]
    | destruct Hs as [(_ & Hs & _)|(h' & t0 & _ & Hl' & Hp' & _ & Hs & _)]; [done|];
      eapply sets_other; [done|]; intros ->; congruence ].
Qed.

Lemma finished_kept_call x k h t : inv x ->
  live x h = Some t -> state t = Finished -> ~ writes_at h k -> live (do_call k x).1 h = Some t.
Proof.
  intros Hx Hl Hf Hw. destruct (perform_sound x (c_prim k) (c_a k) (c_b k) (c_c k) Hx) as [_ Hs].
  fold (do_call k) in Hs. rewrite <- Hl. destruct (decide (c_a k = h)) as [Ha|Ha].
  2: { eapply spec_frame; eauto. congruence. }
  unfold writes_at in Hw. revert Hs. unfold task_spec, on_live. rewrite Ha in *. rewrite Hl, Hf.
  destruct (c_prim k); try (exfalso; by apply Hw); rewrite ?(decide_False (P := Finished = Pending)) by done.
  - intros [[Hs _]|(h' & _ & Hn & Hs & _)]; [by rewrite Hs|].
    rewrite <- Hl. eapply sets_other; [done|congruence].
  - case_decide; intros [Hs _]; by rewrite Hs.
  - intros [Hs _]. by rewrite Hs.
  - intros [Hs _]. by rewrite Hs.
  - intros [Hs _]. by rewrite Hs.
  - intros [(_ & Hs & _)|(h' & t' & _ & Hl' & Hp & _ & Hs & _)]; [by rewrite Hs|].
    rewrite <- Hl. eapply sets_other; [done|]. intros ->. congruence.
  - intros [Hs _]. by rewrite Hs.
  - intros [Hs _]. by rewrite Hs.
Qed.

Lemma finished_kept_run x ks h t : inv x ->
  live x h = Some t -> state t = Finished -> Forall (fun k => ~ writes_at h k) ks ->
  live (run ks x) h = Some t.
Proof.
  intros Hx Hl Hf Hks. revert x Hx Hl.
  induction Hks as [|k ks Hk _ IH]; intros x Hx Hl; simpl; [done|].
  apply IH; [by apply perform_step_inv|]. by apply finished_kept_call.
Qed.

(** What a task completed with is what its join takes: after [Complete h v]
    on a live task, any calls that do not write [h] again (spawns, picks, joins
    of others, even cancellations of [h]) leave [TakeResult h] returning [v]. *)
Theorem completed_result_kept (before ks : list call) (h v : Z) (t : Task) :
  live (run before TaskExecutor_new) h = Some t ->
  Forall (fun k => ~ writes_at h k) ks ->
  (do_call (Build_call TaskPrim_TakeResult h 0 0)
     (run (before ++ Build_call TaskPrim_Complete h v 0 :: ks) TaskExecutor_new)).2 = Ok v.
Proof.
  intros Hl Hks. rewrite run_app. set (x := run before TaskExecutor_new) in *. cbn [run exec task_client].
  assert (inv x) as Hx by apply run_inv, inv_new.
  set (y := (do_call _ x).1).
  assert (inv y) as Hy by (by apply perform_step_inv).
  assert (live y h = Some (with_state (with_result t v) Finished)) as Hly.
  { destruct (perform_sound x TaskPrim_Complete h v 0 Hx) as [_ Hs].
    unfold task_spec, on_live in Hs. rewrite Hl in Hs. destruct Hs as [Hs _].
    change ((perform TaskPrim_Complete h v 0 x).1) with y in Hs. rewrite Hs. unfold upd. by rewrite decide_True. }
  pose proof (finished_kept_run y ks h _ Hy Hly eq_refl Hks) as Hz.
  destruct (perform_sound (run ks y) TaskPrim_TakeResult h 0 0 (run_inv _ _ Hy)) as [_ Hs].
  unfold task_spec, on_live in Hs. rewrite Hz in Hs. by destruct Hs as [_ ?].
Qed.

Lemma completed_result_kept_witness :
  (do_call (Build_call TaskPrim_TakeResult 1 0 0)
     (run ([Build_call TaskPrim_Spawn 7 0 0] ++ Build_call TaskPrim_Complete 1 42 0 ::
           [Build_call TaskPrim_Cancel 1 0 0; Build_call TaskPrim_Spawn 8 0 0;
            Build_call TaskPrim_PickReady 0 0 0]) TaskExecutor_new)).2 = Ok 42.
Proof.
  eapply completed_result_kept; [vm_compute; reflexivity|].
  repeat constructor; unfold writes_at; simpl; intros [? []].
Defined.

Lemma advanced_nonneg ks : 0 <= advanced ks.
Proof. induction ks; simpl; [lia|]. case_decide; lia. Qed.

(** The clock of a table is the sum of the non-negative advances it was
    given, saturating at [i64::MAX]; no other primitive moves it. *)
Theorem clock_saturates (ks : list call) :
  clock_ms (run ks TaskExecutor_new) = Z.min i64_max (advanced ks).
Proof.
  assert (forall x, inv x -> clock_ms (run ks x) = Z.min i64_max (clock_ms x + advanced ks)) as Hg.
  { induction ks as [|k ks IH]; intros x Hx; simpl.
    - destruct Hx. lia.
    - rewrite IH by (by apply perform_step_inv). unfold do_call. rewrite clock_perform by apply Hx.
      pose proof (advanced_nonneg ks). case_decide; lia. }
  by rewrite Hg by apply inv_new.
Qed.

(** Two spawns, a cancel of the first, and a third spawn into its slot. *)
Definition reuse_calls : list call :=
  [Build_call TaskPrim_Spawn 10 0 0; Build_call TaskPrim_Spawn 20 0 0;
   Build_call TaskPrim_Cancel 1 0 0; Build_call TaskPrim_Spawn 30 0 0].

(** Scheduling order is slot order, not spawn order: with a slot reclaimed
    and reused, [PickReady] claims the newer task (target 30) before the pending
    one spawned earlier (target 20). *)
Theorem pick_ready_prefers_reused_slot :
  issued reuse_calls TaskExecutor_new = [1; 2; 2 ^ 32 + 1] /\
  (do_call (Build_call TaskPrim_TargetOf 2 0 0) (run reuse_calls TaskExecutor_new)).2 = Ok 20 /\
  (do_call (Build_call TaskPrim_PickReady 0 0 0) (run reuse_calls TaskExecutor_new)).2
    = Ok (2 ^ 32 + 1) /\
  (do_call (Build_call TaskPrim_TargetOf (2 ^ 32 + 1) 0 0) (run reuse_calls TaskExecutor_new)).2
    = Ok 30.
Proof. vm_compute. done. Qed.

(** Detaching after a cancel is an error on every table: a cancelled pending
    task is reclaimed at once, so [BeginDetach] traps as an unknown handle
    instead of answering that there is nothing to run. *)
Theorem detach_after_cancel_traps (before : list call) (h : Z) (t : Task) :
  live (run before TaskExecutor_new) h = Some t -> state t = Pending ->
  (do_call (Build_call TaskPrim_BeginDetach h 0 0)
     (run (before ++ [Build_call TaskPrim_Cancel h 0 0]) TaskExecutor_new)).2 =
  Err TaskTrap_UnknownHandle.
Proof.
  intros Hl Hp. rewrite run_app. set (x := run before TaskExecutor_new) in *. cbn [run exec task_client].
  assert (inv x) as Hx by apply run_inv, inv_new.
  apply call_not_live; [by apply perform_step_inv|exact I|]. cbn [c_a].
  destruct (perform_sound x TaskPrim_Cancel h 0 0 Hx) as [_ Hs].
  unfold task_spec, on_live in Hs. rewrite Hl, decide_True in Hs by done. destruct Hs as [Hs _].
  unfold do_call. cbn [c_prim c_a c_b c_c]. rewrite Hs. unfold upd. by rewrite decide_True.
Qed.

Lemma detach_after_cancel_traps_witness :
  (do_call (Build_call TaskPrim_BeginDetach 1 0 0)
     (run ([Build_call TaskPrim_Spawn 7 0 0] ++ [Build_call TaskPrim_Cancel 1 0 0]) TaskExecutor_new)).2 =
  Err TaskTrap_UnknownHandle.
Proof. eapply detach_after_cancel_traps; vm_compute; reflexivity. Defined.

(** ** Every pending task is picked *)

Definition pending (x : TaskExecutor) (h : Z) : Prop := exists t, live x h = Some t /\ state t = Pending.

(** A call that spawns nothing and, unless it is a pick, does not touch the task at
    [h]. *)
Definition leaves (h : Z) (k : call) : Prop :=
  c_prim k <> TaskPrim_Spawn /\ (c_a k = h -> c_prim k = TaskPrim_PickReady \/ c_prim k = TaskPrim_AdvanceClock).

Lemma keeps_pending m m' : keeps m m' -> forall h t, m' h = Some t -> m h = Some t.
Proof. intros Hk h t. by rewrite Hk. Qed.

Lemma sets_pending m m' a v h t : sets m m' a v -> m' h = Some t -> m h = Some t \/ h = a /\ v = Some t.
Proof. intros Hs. rewrite Hs. unfold upd. case_decide; auto. Qed.

Lemma pending_shrinks x k h : inv x -> c_prim k <> TaskPrim_Spawn -> pending (do_call k x).1 h -> pending x h.
Proof.
  intros Hx Hsp (t & Hl & Hp). destruct (perform_sound x (c_prim k) (c_a k) (c_b k) (c_c k) Hx) as [_ Hs].
  fold (do_call k) in Hs. revert Hs. unfold task_spec, on_live.
  assert (keeps (live x) (live (do_call k x).1) -> pending x h) as Hkeep.
  { intros Hk. exists t. split; [by apply (keeps_pending _ _ Hk)|done]. }
  assert (forall v, sets (live x) (live (do_call k x).1) (c_a k) v -> (v = Some t -> pending x h) -> pending x h) as Hset.
  { intros v Hs Hv. destruct (sets_pending _ _ _ _ _ _ Hs Hl) as [Hold|[_ Hnew]]; [by exists t|by apply Hv]. }
  assert (c_prim k = TaskPrim_SetArg -> forall t0 i v, live x (c_a k) = Some t0 ->
    sets (live x) (live (do_call k x).1) (c_a k) (Some (with_slot t0 i v)) -> pending x h) as Harg.
  { intros _ t0 i v Ht0 Hs. destruct (sets_pending _ _ _ _ _ _ Hs Hl) as [Hold|[-> [= <-]]]; [by exists t|by exists t0]. }
  destruct (c_prim k) eqn:Hprim; try done; try destruct (live x (c_a k)) as [t0|] eqn:Hl0; try destruct (state t0) eqn:Hst;
    repeat case_decide; try done; try (intros [Hs _]; by auto).
  all: try (intros [Hs _]; first [by eapply Harg|eapply Hset; [exact Hs|]; intros [= Hv]; by rewrite <- Hv in Hp]).
  all: intros [(_ & Hs & _)|(h' & t' & _ & Hl' & Hp' & _ & Hs & _)]; [by auto|];
    destruct (sets_pending _ _ _ _ _ _ Hs Hl) as [Hold|[_ [= Hv]]]; [by exists t|by rewrite <- Hv in Hp].
Qed.

Lemma pending_waits x k h : inv x -> leaves h k -> c_prim k <> TaskPrim_PickReady -> pending x h -> pending (do_call k x).1 h.
Proof.
  intros Hx [Hsp Haim] Hpick (t & Hl & Hp). exists t. split; [|done].
  destruct (perform_sound x (c_prim k) (c_a k) (c_b k) (c_c k) Hx) as [_ Hs]. fold (do_call k) in Hs.
  destruct (decide (c_a k = h)) as [Ha|Ha].
  - destruct (Haim Ha) as [|Hclock]; [done|]. rewrite Hclock in Hs. destruct Hs as [Hs _]. by rewrite Hs.
  - rewrite <- Hl. revert Hs. unfold task_spec, on_live.
    assert (forall v, sets (live x) (live (do_call k x).1) (c_a k) v -> live (do_call k x).1 h = live x h) as Hset
      by (intros v Hs; eapply sets_other; eauto).
    destruct (c_prim k) eqn:Hprim; try done; try destruct (live x (c_a k)) as [t0|] eqn:Hl0; try destruct (state t0) eqn:Hst;
      repeat case_decide; try done; by intros [Hs _]; eauto.
Qed.

(** A pick with a task waiting answers one that was, and takes no other. *)
Lemma pick_takes_one x k h : inv x -> c_prim k = TaskPrim_PickReady -> pending x h -> exists h',
  (do_call k x).2 = Ok h' /\ pending x h' /\ ~ pending (do_call k x).1 h' /\ forall h2, h2 <> h' -> pending x h2 -> pending (do_call k x).1 h2.
Proof.
  intros Hx Hk (t & Hl & Hp). destruct (perform_sound x (c_prim k) (c_a k) (c_b k) (c_c k) Hx) as [_ Hs]. fold (do_call k) in Hs.
  rewrite Hk in Hs. destruct Hs as [(Hnone & _)|(h' & t' & _ & Hl' & Hp' & _ & Hs & Hr)]; [by destruct (Hnone h t)|].
  exists h'. split_and!; [done|by exists t'| |].
  - intros (t2 & Ht2 & Hp2). rewrite Hs in Ht2. unfold upd in Ht2. rewrite decide_True in Ht2 by done. injection Ht2 as <-. done.
  - intros h2 Hne (t2 & Ht2 & Hp2). exists t2. split; [|done]. rewrite <- Ht2. by eapply sets_other.
Qed.

(** How often a run picks. *)
Definition picks (ks : list call) : nat := length (filter (fun k => c_prim k = TaskPrim_PickReady) ks).

Lemma pending_picked_run ks : forall x ps h, inv x -> pending x h -> (forall h', pending x h' -> h' ∈ ps) ->
  Forall (leaves h) ks -> (length ps <= picks ks)%nat ->
  exists mid k after, ks = mid ++ k :: after /\ c_prim k = TaskPrim_PickReady /\ (do_call k (run mid x)).2 = Ok h.
Proof.
  induction ks as [|k ks IH]; intros x ps h Hx Hh Hps Hks Hlen.
  - apply Hps in Hh. destruct ps; [by apply not_elem_of_nil in Hh|cbn in Hlen; lia].
  - apply Forall_cons in Hks as [Hk Hks]. pose proof (perform_step_inv x (c_prim k) (c_a k) (c_b k) (c_c k) Hx) as Hy.
    fold (do_call k) in Hy. unfold picks in Hlen. rewrite filter_cons in Hlen. destruct (decide (c_prim k = TaskPrim_PickReady)) as [Hpick|Hpick].
    + destruct (pick_takes_one x k h Hx Hpick Hh) as (h' & Hr & Hh' & Hgone & Hrest).
      destruct (decide (h = h')) as [->|Hne]; [by exists [], k, ks|].
      destruct (IH (do_call k x).1 (filter (fun p => p <> h') ps) h Hy) as (mid & k' & after & -> & Hk' & Hans).
      * by apply Hrest.
      * intros h2 Hh2. apply list_elem_of_filter. split; [by intros ->|]. apply Hps. by eapply pending_shrinks; [|apply Hk|].
      * done.
      * cbn in Hlen. pose proof (Hps h' Hh') as Hin. unfold picks.
        assert (length (filter (fun p => p <> h') ps) < length ps)%nat; [|lia]. apply (length_filter_lt _ _ h'); [done|]. by intros Hne'.
      * by exists (k :: mid), k', after.
    + destruct (IH (do_call k x).1 ps h Hy) as (mid & k' & after & -> & Hk' & Hans); [by apply pending_waits| |done|done|].
      * intros h2 Hh2. apply Hps. by eapply pending_shrinks; [|apply Hk|].
      * by exists (k :: mid), k', after.
Qed.


