(* ===== verification/Channels.v ===== *)
(** * The channel table

    [kira-runtime-abi/src/channels.rs]: FIFO queues with two owned ends, driven
    by both engines through [ChannelExecutor::perform].  The two ends of one
    channel share a slot and a generation and differ by one in their handle
    words.

    The table refines a map from sender handles to channels
    ([channel_refines]); what a receiver takes is a prefix of what was sent, in
    order ([channel_fifo]); polling says exactly what taking will do
    ([poll_take_agree]); ends of a reclaimed channel stay unknown
    ([closed_channel_stays_unknown]). *)

From S2P Require Import Prelude AbiOps SlotTable.

Inductive ChannelEnd := Sender | Receiver.

#[export] Instance ChannelEnd_eq_dec : EqDecision ChannelEnd.
Proof. solve_decision. Defined.

Inductive ChannelTrap :=
| ChannelTrap_UnknownHandle
| ChannelTrap_ReceiverGone
| ChannelTrap_WrongDirection
| ChannelTrap_NotReady
| ChannelTrap_Deadlock.

#[export] Instance ChannelTrap_eq_dec : EqDecision ChannelTrap.
Proof. solve_decision. Defined.

(** Every trap, in wire order. *)
Definition ChannelTrap_ALL : list ChannelTrap :=
  [ChannelTrap_UnknownHandle; ChannelTrap_ReceiverGone; ChannelTrap_WrongDirection;
   ChannelTrap_NotReady; ChannelTrap_Deadlock].

(** The code a trap travels as: one past its position, zero for "no trap". *)
Definition ChannelTrap_as_code (t : ChannelTrap) : Z :=
  match list_find (fun u => u = t) ChannelTrap_ALL with
  | Some (index, _) => Z.of_nat index + 1
  | None => 0
  end.

Definition ChannelTrap_from_code `{Host} (code : Z) : option ChannelTrap :=
  n ← usize_try_from code;
  match n with O => None | S index => ChannelTrap_ALL !! index end.

(** The [Create] operand of a channel of native-state tokens. *)
Definition BOXED_PAYLOAD : Z := 1.

Inductive ChannelReceive :=
| Value (v : Z)
| Empty
| Closed.

(** The queue is a [VecDeque]; its front is the list's head. *)
Record Channel := {
  queue : list Z;
  sender_live : bool;
  receiver_live : bool;
  boxed : bool
}.

(** The free list is a [Vec] used as a stack; its top is the list's head. *)
Record ChannelExecutor := {
  channels : list (Slot Channel);
  free : list nat
}.

Definition ChannelExecutor_new : ChannelExecutor := {| channels := []; free := [] |}.

Abbreviation M := (st ChannelExecutor ChannelTrap).

Definition live_channels (x : ChannelExecutor) : nat :=
  length (List.filter (fun s => match item s with Some _ => true | None => false end) (channels x)).

Definition end_bit (e : ChannelEnd) : Z := match e with Sender => 0 | Receiver => 1 end.

(** Packs one stable end handle; the shift is a 32-bit one. *)
Definition end_handle (index : nat) (gen : Z) (e : ChannelEnd) : result ChannelTrap Z :=
  if decide (Z.of_nat index < 2 ^ 32) then
    let slot_field := Z.lor (uwrap 32 (Z.shiftl (Z.of_nat index) 1)) (end_bit e) in
    if decide (slot_field + 1 < 2 ^ 32) then
      let word := pack gen (slot_field + 1) in
      if decide (word <= i64_max) then Ok word else Err ChannelTrap_UnknownHandle
    else Err ChannelTrap_UnknownHandle
  else Err ChannelTrap_UnknownHandle.

(** Unpacks and validates a nonzero end handle. *)
Definition end_parts (handle : Z) : result ChannelTrap (nat * Z * ChannelEnd) :=
  if decide (handle < 0) then Err ChannelTrap_UnknownHandle
  else
    let slot_field := pack_field handle in
    if decide (slot_field = 0) then Err ChannelTrap_UnknownHandle
    else
      let base := slot_field - 1 in
      let e := if decide (Z.land base 1 = 0) then Sender else Receiver in
      Ok (Z.to_nat (Z.shiftr base 1), pack_generation handle, e).

Definition end_live (e : ChannelEnd) (c : Channel) : bool :=
  match e with Sender => sender_live c | Receiver => receiver_live c end.

(** The checks every end operation opens with: the handle's direction, its
    slot, its generation, its channel, and that this end is still open. *)
Definition open_end (x : ChannelExecutor) (handle : Z) (want : ChannelEnd)
    : result ChannelTrap (nat * Z * Channel) :=
  p ← end_parts handle;
  let '(index, gen, e) := p in
  if decide (e = want) then
    slot ← ok_or (channels x !! index) ChannelTrap_UnknownHandle;
    if decide (generation slot = gen) then
      c ← ok_or (item slot) ChannelTrap_UnknownHandle;
      if end_live want c then Ok (index, gen, c) else Err ChannelTrap_UnknownHandle
    else Err ChannelTrap_UnknownHandle
  else Err ChannelTrap_WrongDirection.

(** Writes through the borrow of the channel at [index]. *)
Definition put (index : nat) (c : Channel) (x : ChannelExecutor) : ChannelExecutor :=
  {| channels := alter (fun s => with_item s (Some c)) index (channels x); free := free x |}.

Definition with_queue (c : Channel) (q : list Z) : Channel :=
  {| queue := q; sender_live := sender_live c; receiver_live := receiver_live c; boxed := boxed c |}.
Definition without_sender (c : Channel) : Channel :=
  {| queue := queue c; sender_live := false; receiver_live := receiver_live c; boxed := boxed c |}.
Definition without_receiver (c : Channel) : Channel :=
  {| queue := []; sender_live := sender_live c; receiver_live := false; boxed := boxed c |}.

(** Reclaims one channel whose ends are both gone and advances its generation. *)
Definition reclaim (index : nat) (gen : Z) : M unit :=
  st_update (fun x =>
    slot ← ok_or (channels x !! index) ChannelTrap_UnknownHandle;
    if decide (generation slot = gen) then
      _ ← ok_or (item slot) ChannelTrap_UnknownHandle;
      let v := vacate index slot (channels x) (free x) in
      Ok ({| channels := v.1; free := v.2 |}, tt)
    else Err ChannelTrap_UnknownHandle).

Definition new_channel (boxed : bool) : Channel :=
  {| queue := []; sender_live := true; receiver_live := true; boxed := boxed |}.

(** Creates a channel, answering its [(sender, receiver)] handles. *)
Definition create (boxed : bool) : M (Z * Z) := fun x =>
  match occupy (Z.shiftr (2 ^ 32 - 1) 1) (new_channel boxed) (channels x) (free x) with
  | ((cs, fr), r) =>
    ({| channels := cs; free := fr |},
     match r with
     | Some (index, gen) =>
       s ← end_handle index gen Sender; r ← end_handle index gen Receiver; Ok (s, r)
     | None => Err ChannelTrap_UnknownHandle
     end)
  end.

(** Queues [value] behind every value already waiting. *)
Definition send (sender value : Z) : M unit :=
  st_update (fun x =>
    p ← open_end x sender Sender;
    let '(index, _, c) := p in
    if receiver_live c then Ok (put index (with_queue c (queue c ++ [value])) x, tt)
    else Err ChannelTrap_ReceiverGone).

(** Answers [0] (empty), [1] (ready), or [2] (closed and drained). *)
Definition poll (receiver : Z) : M Z :=
  st_gets (fun x =>
    p ← open_end x receiver Receiver;
    let c := p.2 in
    match queue c with
    | _ :: _ => Ok 1
    | [] => if sender_live c then Ok 0 else Ok 2
    end).

(** Answers the oldest waiting value, trapping when none is waiting. *)
Definition take (receiver : Z) : M Z :=
  st_update (fun x =>
    p ← open_end x receiver Receiver;
    let '(index, _, c) := p in
    match queue c with
    | v :: q => Ok (put index (with_queue c q) x, v)
    | [] => Err ChannelTrap_NotReady
    end).

(** Answers the oldest queued value without blocking. *)
Definition receive (receiver : Z) : M ChannelReceive :=
  status ← poll receiver;
  if decide (status = 1) then v ← take receiver; mret (Value v)
  else if decide (status = 0) then mret Empty
  else mret Closed.

(** Drops the sender end, closing the channel once the queue drains. *)
Definition close_sender (sender : Z) : M unit :=
  p ← st_gets (fun x => open_end x sender Sender);
  let '(index, gen, c) := p in
  _ ← st_update (fun x => Ok (put index (without_sender c) x, tt));
  if receiver_live c then mret tt else reclaim index gen.

(** Drops the receiver end, discarding whatever is still queued. *)
Definition close_receiver (receiver : Z) : M unit :=
  p ← st_gets (fun x => open_end x receiver Receiver);
  let '(index, gen, c) := p in
  _ ← st_update (fun x => Ok (put index (without_receiver c) x, tt));
  if sender_live c then mret tt else reclaim index gen.

Definition perform (prim : ChannelPrim) (a b c : Z) : M Z :=
  match prim with
  | ChannelPrim_Create => p ← create (bool_decide (a = BOXED_PAYLOAD)); mret p.1
  | ChannelPrim_Send => _ ← send a b; mret 0
  | ChannelPrim_Poll => poll a
  | ChannelPrim_Take => take a
  | ChannelPrim_CloseSender => _ ← close_sender a; mret 0
  | ChannelPrim_CloseReceiver => _ ← close_receiver a; mret 0
  | ChannelPrim_Deadlock => st_fail ChannelTrap_Deadlock
  end.

(** The tokens of one torn-down slot. *)
Definition slot_tokens (s : Slot Channel) : list Z :=
  match item s with
  | Some c => if boxed c then queue c else []
  | None => []
  end.

(** Empties the table, answering every undelivered token it was holding. *)
Definition take_undelivered_tokens (x : ChannelExecutor) : ChannelExecutor * list Z :=
  ({| channels := []; free := [] |},
   foldl (fun tokens slot => tokens ++ slot_tokens slot) [] (channels x)).

(** ** End handles *)

#[local] Ltac Zify.zify_post_hook ::= Z.to_euclidean_division_equations.

(** The channel and direction a handle word names: channels are known by their
    sender's word, which is odd; the receiver's is the even word after it. *)
Definition side (h : Z) : option (Z * ChannelEnd) :=
  if decide (h < 0 \/ h mod 2 ^ 32 = 0) then None
  else if Z.odd h then Some (h, Sender) else Some (h - 1, Receiver).

(** The sender word of the channel at a position and generation. *)
Definition channel_id (i : nat) (g : Z) : Z := pack g (2 * Z.of_nat i + 1).

Lemma channel_id_add i g :
  Z.of_nat i < 2 ^ 31 -> 0 <= g -> channel_id i g = g * 2 ^ 32 + (2 * Z.of_nat i + 1).
Proof. intros. unfold channel_id. apply pack_add; unfold unsigned_ok; lia. Qed.

Lemma channel_id_inj i g i' g' :
  Z.of_nat i < 2 ^ 31 -> Z.of_nat i' < 2 ^ 31 -> 0 <= g -> 0 <= g' ->
  channel_id i g = channel_id i' g' -> (i, g) = (i', g').
Proof. intros. rewrite !channel_id_add in * by done. f_equal; lia. Qed.

Lemma land_1 b : Z.land b 1 = b mod 2.
Proof. exact (Z.land_ones b 1 ltac:(lia)). Qed.

Lemma odd_word h : Z.odd h = negb (bool_decide (h mod 2 ^ 32 mod 2 = 0)).
Proof.
  rewrite Z.mod_mod_divide by (exists (2 ^ 31); lia). rewrite Zmod_odd. by destruct (Z.odd h).
Qed.

Lemma end_parts_side h :
  match side h with
  | None => end_parts h = Err ChannelTrap_UnknownHandle
  | Some (id, e) => exists i g, end_parts h = Ok (i, g, e) /\ id = channel_id i g /\
                      Z.of_nat i < 2 ^ 31 /\ 0 <= g
  end.
Proof.
  unfold side, end_parts. rewrite pack_field_mod, pack_generation_div.
  destruct (decide (h < 0)) as [|Hn]; [by rewrite decide_True by auto|].
  destruct (decide (h mod 2 ^ 32 = 0)) as [|Hf]; [by rewrite decide_True by auto|].
  rewrite decide_False by lia. rewrite land_1, Z.shiftr_div_pow2, odd_word by lia.
  pose proof (Z.mod_pos_bound h (2 ^ 32) ltac:(lia)). pose proof (Z.div_mod h (2 ^ 32) ltac:(lia)).
  set (f := h mod 2 ^ 32) in *. set (g := h / 2 ^ 32) in *. change (2 ^ 1) with 2.
  assert (0 <= g) by (apply Z.div_pos; lia).
  assert (Z.of_nat (Z.to_nat ((f - 1) / 2)) = (f - 1) / 2) as Hi
    by (apply Z2Nat.id, Z.div_pos; lia).
  assert ((f - 1) / 2 < 2 ^ 31) by (apply Z.div_lt_upper_bound; lia).
  case_bool_decide as Ho; simpl.
  - rewrite decide_False by lia. eexists _, _. split; [done|]. rewrite channel_id_add, Hi by lia.
    split; [|lia]. lia.
  - rewrite decide_True by lia. eexists _, _. split; [done|]. rewrite channel_id_add, Hi by lia.
    split; [|lia]. lia.
Qed.

Lemma lor_end_bit i e :
  Z.of_nat i < 2 ^ 31 -> Z.lor (uwrap 32 (Z.shiftl (Z.of_nat i) 1)) (end_bit e) = 2 * Z.of_nat i + end_bit e.
Proof.
  intros Hi. rewrite Z.shiftl_mul_pow2 by lia. rewrite uwrap_id by (unfold unsigned_ok; lia).
  replace (Z.of_nat i * 2 ^ 1) with (2 * Z.of_nat i) by lia. destruct e; simpl end_bit.
  - by rewrite Z.lor_0_r, Z.add_0_r.
  - destruct i; reflexivity.
Qed.

Lemma end_handle_ok i g e :
  Z.of_nat i < 2 ^ 31 - 1 -> 0 <= g <= last_generation ->
  end_handle i g e = Ok (channel_id i g + end_bit e).
Proof.
  unfold last_generation, i64_max. intros Hi Hg. unfold end_handle, i64_max.
  rewrite decide_True by lia. rewrite lor_end_bit by lia. rewrite channel_id_add by lia.
  assert (0 <= end_bit e <= 1) by (destruct e; simpl; lia).
  rewrite decide_True by lia. rewrite pack_add by (unfold unsigned_ok; lia).
  rewrite decide_True by lia. f_equal. lia.
Qed.

Lemma side_channel_id i g :
  Z.of_nat i < 2 ^ 31 -> 0 <= g -> side (channel_id i g) = Some (channel_id i g, Sender).
Proof.
  intros Hi Hg. unfold side. rewrite odd_word, channel_id_add by done.
  rewrite Z.add_comm, Z.mod_add, Z.mod_small by lia. rewrite decide_False by lia.
  rewrite bool_decide_eq_false_2; [done|]. lia.
Qed.

Lemma side_receiver i g :
  Z.of_nat i < 2 ^ 31 - 1 -> 0 <= g -> side (channel_id i g + 1) = Some (channel_id i g, Receiver).
Proof.
  intros Hi Hg. unfold side. rewrite odd_word, channel_id_add by lia.
  replace (g * 2 ^ 32 + (2 * Z.of_nat i + 1) + 1) with (2 * Z.of_nat i + 2 + g * 2 ^ 32) by lia.
  rewrite Z.mod_add, Z.mod_small by lia. rewrite decide_False by lia.
  rewrite bool_decide_eq_true_2 by lia. simpl. do 2 f_equal. lia.
Qed.

(** ** The table seen as a map from sender handles to channels *)

Definition chan (x : ChannelExecutor) (id : Z) : option Channel :=
  match end_parts id with Ok (i, g, Sender) => held (channels x) (i, g) | _ => None end.

Lemma chan_channel_id x i g :
  Z.of_nat i < 2 ^ 31 -> 0 <= g -> chan x (channel_id i g) = held (channels x) (i, g).
Proof.
  intros Hi Hg. pose proof (end_parts_side (channel_id i g)) as He.
  rewrite side_channel_id in He by done. destruct He as (i' & g' & Hp & Hid & Hi' & Hg').
  unfold chan. rewrite Hp. apply channel_id_inj in Hid; [|done..]. by rewrite Hid.
Qed.

(** A stored channel has an end open, and no queue once its receiver is gone. *)
Definition channel_ok (c : Channel) : Prop :=
  sender_live c || receiver_live c = true /\ (receiver_live c = false -> queue c = []).

Definition inv (x : ChannelExecutor) : Prop :=
  table_ok channel_ok (2 ^ 31 - 1) (channels x) (free x).

Definition step (x y : ChannelExecutor) : Prop :=
  tstep channel_ok (2 ^ 31 - 1) (channels x) (free x) (channels y) (free y).

(** The operation's opening checks, against the map. *)
Lemma open_end_chan x h want :
  inv x ->
  match side h with
  | None => open_end x h want = Err ChannelTrap_UnknownHandle
  | Some (id, e) =>
    if decide (e = want) then
      match chan x id with
      | Some c =>
        if end_live want c then
          exists i s, open_end x h want = Ok (i, generation s, c) /\ channels x !! i = Some s /\
            item s = Some c /\ id = channel_id i (generation s)
        else open_end x h want = Err ChannelTrap_UnknownHandle
      | None => open_end x h want = Err ChannelTrap_UnknownHandle
      end
    else open_end x h want = Err ChannelTrap_WrongDirection
  end.
Proof.
  intros Hx. pose proof (end_parts_side h) as Hp. unfold open_end.
  destruct (side h) as [[id e]|]; [|by rewrite Hp].
  destruct Hp as (i & g & -> & -> & Hi & Hg). cbn. case_decide; [|done].
  rewrite chan_channel_id by done. unfold held; cbn.
  destruct (channels x !! i) as [s|] eqn:Hs; [|done]. cbn. case_decide; [|done]. subst g.
  destruct (item s) as [c|] eqn:Hc; [|done]. cbn. destruct (end_live want c); [|done].
  exists i, s. done.
Qed.

(** A change at one key is a change at the one channel it names. *)
Lemma chan_upd x y i g v :
  Z.of_nat i < 2 ^ 31 -> 0 <= g ->
  (forall k, held (channels y) k = upd (held (channels x)) (i, g) v k) ->
  forall id, chan y id = upd (chan x) (channel_id i g) v id.
Proof.
  intros Hi Hg Hy id. unfold upd. pose proof (end_parts_side id) as Hp.
  destruct (decide (id = channel_id i g)) as [->|Hne].
  - rewrite chan_channel_id, Hy by done. unfold upd. by rewrite decide_True.
  - unfold chan. destruct (side id) as [[id' e]|] eqn:Hs; [|by rewrite Hp].
    destruct Hp as (i' & g' & -> & -> & Hi' & Hg'). destruct e; [|done]. rewrite Hy. unfold upd.
    rewrite decide_False; [done|]. intros [= -> ->]. apply Hne. revert Hs. unfold side.
    repeat case_match; congruence.
Qed.

Lemma slot_range x i s :
  inv x -> channels x !! i = Some s -> Z.of_nat i < 2 ^ 31 - 1 /\ 0 <= generation s <= last_generation.
Proof.
  intros Hx Hs. pose proof (ok_len _ _ _ _ Hx). destruct (ok_slots _ _ _ _ Hx i s Hs).
  apply lookup_lt_Some in Hs. lia.
Qed.

Lemma put_effect x i s c c' :
  inv x -> channels x !! i = Some s -> item s = Some c -> channel_ok c' ->
  step x (put i c' x) /\
  forall id, chan (put i c' x) id = upd (chan x) (channel_id i (generation s)) (Some c') id.
Proof.
  intros Hx Hs Hc Hok. destruct (slot_range x i s Hx Hs).
  destruct (write_effect _ _ _ _ _ _ _ _ Hx Hs Hc Hok) as [Hstep Hheld].
  unfold put, step. cbn [channels free]. rewrite (alter_insert_Some _ _ _ _ Hs). split; [done|].
  apply chan_upd; [lia|lia|done].
Qed.

(** Closing the second end: the write, and the reclaim that follows it. *)
Lemma put_reclaim_effect x i s c c' :
  inv x -> channels x !! i = Some s -> item s = Some c ->
  exists y, reclaim i (generation s) (put i c' x) = (y, Ok tt) /\ step x y /\
    forall id, chan y id = upd (chan x) (channel_id i (generation s)) None id.
Proof.
  intros Hx Hs Hc. destruct (slot_range x i s Hx Hs). pose proof (lookup_lt_Some _ _ _ Hs).
  destruct (vacate_effect _ _ _ _ _ _ _ Hx Hs Hc) as [Hstep Hheld].
  unfold reclaim, st_update, put. cbn [channels free]. rewrite (alter_insert_Some _ _ _ _ Hs).
  rewrite list_lookup_insert_eq by done. cbn. rewrite decide_True by done.
  assert (vacate i (with_item s (Some c')) (<[i := with_item s (Some c')]> (channels x)) (free x)
          = vacate i s (channels x) (free x)) as ->.
  { unfold vacate. by rewrite !list_insert_insert_eq. }
  eexists; split_and!; [done|done|]. apply chan_upd; [lia|lia|done].
Qed.

(** ** The abstract table *)

Section spec.
Variables (m m' : Z -> option Channel) (r : result ChannelTrap Z).

Definition keeps : Prop := forall id, m' id = m id.
Definition sets (id : Z) (v : option Channel) : Prop := forall id', m' id' = upd m id v id'.
Definition refuses (e : ChannelTrap) : Prop := keeps /\ r = Err e.

(** An operation on one end: the wrong direction and a missing, closed or
    malformed end are told apart, then [k] runs on the channel. *)
Definition on_end (a : Z) (want : ChannelEnd) (k : Z -> Channel -> Prop) : Prop :=
  match side a with
  | None => refuses ChannelTrap_UnknownHandle
  | Some (id, e) =>
    if decide (e = want) then
      match m id with
      | Some c => if end_live want c then k id c else refuses ChannelTrap_UnknownHandle
      | None => refuses ChannelTrap_UnknownHandle
      end
    else refuses ChannelTrap_WrongDirection
  end.

Definition channel_spec (prim : ChannelPrim) (a b : Z) : Prop :=
  match prim with
  | ChannelPrim_Create =>
    refuses ChannelTrap_UnknownHandle \/
    exists id, 0 < id /\ side id = Some (id, Sender) /\ side (id + 1) = Some (id, Receiver) /\
      m id = None /\ sets id (Some (new_channel (bool_decide (a = 1)))) /\ r = Ok id
  | ChannelPrim_Send =>
    on_end a Sender (fun id c =>
      if receiver_live c then sets id (Some (with_queue c (queue c ++ [b]))) /\ r = Ok 0
      else refuses ChannelTrap_ReceiverGone)
  | ChannelPrim_Poll =>
    on_end a Receiver (fun id c =>
      keeps /\ r = Ok (match queue c with
                       | _ :: _ => 1
                       | [] => if sender_live c then 0 else 2
                       end))
  | ChannelPrim_Take =>
    on_end a Receiver (fun id c =>
      match queue c with
      | v :: q => sets id (Some (with_queue c q)) /\ r = Ok v
      | [] => refuses ChannelTrap_NotReady
      end)
  | ChannelPrim_CloseSender =>
    on_end a Sender (fun id c =>
      sets id (if receiver_live c then Some (without_sender c) else None) /\ r = Ok 0)
  | ChannelPrim_CloseReceiver =>
    on_end a Receiver (fun id c =>
      sets id (if sender_live c then Some (without_receiver c) else None) /\ r = Ok 0)
  | ChannelPrim_Deadlock => refuses ChannelTrap_Deadlock
  end.
End spec.

Definition sound (x : ChannelExecutor) prim a b (p : ChannelExecutor * result ChannelTrap Z) : Prop :=
  step x p.1 /\ channel_spec (chan x) (chan p.1) p.2 prim a b.

(** An end operation is sound when every refusal of the opening checks leaves
    the table alone and the continuation is sound on an open end. *)
Lemma on_end_sound x prim a b want (p : ChannelExecutor * result ChannelTrap Z)
    (k : (Z -> option Channel) -> result ChannelTrap Z -> Z -> Channel -> Prop) :
  inv x ->
  (forall m' r, channel_spec (chan x) m' r prim a b = on_end (chan x) m' r a want (k m' r)) ->
  (forall e, open_end x a want = Err e -> p = (x, Err e)) ->
  (forall i s c, open_end x a want = Ok (i, generation s, c) -> channels x !! i = Some s ->
     item s = Some c -> channel_ok c -> end_live want c = true ->
     step x p.1 /\ k (chan p.1) p.2 (channel_id i (generation s)) c) ->
  sound x prim a b p.
Proof.
  intros Hx Hspec Herr Hok. unfold sound. rewrite Hspec. unfold on_end.
  pose proof (open_end_chan x a want Hx) as Ho.
  assert (forall e, open_end x a want = Err e -> step x p.1 /\ refuses (chan x) (chan p.1) p.2 e) as Href.
  { intros e ->%Herr. split; [apply step_none|done]. }
  destruct (side a) as [[id e]|]; [|auto]. case_decide; [|auto].
  destruct (chan x id) as [c|] eqn:Hc; [|auto]. destruct (end_live want c) eqn:He; [|auto].
  destruct Ho as (i & s & Ho & Hs & Hi & ->).
  destruct (ok_slots _ _ _ _ Hx i s Hs) as [_ HP]. eapply Hok; eauto.
Qed.

Lemma channel_ok_queue c q : receiver_live c = true -> channel_ok c -> channel_ok (with_queue c q).
Proof. intros Hr [Hs Hq]. split; [done|]. simpl. congruence. Qed.

Lemma send_sound x a b c : inv x -> sound x ChannelPrim_Send a b (perform ChannelPrim_Send a b c x).
Proof.
  intros Hx. eapply on_end_sound; [done|done| |].
  - intros e He. unfold perform, send. st_unfold. by rewrite He.
  - intros i s ch Ho Hs Hi Hok _. unfold perform, send. st_unfold. rewrite Ho. cbn.
    destruct (receiver_live ch) eqn:Hr; [|by split; [apply step_none|]].
    destruct (put_effect x i s ch (with_queue ch (queue ch ++ [b])) Hx Hs Hi) as [? ?];
      [by apply channel_ok_queue|]. done.
Qed.

Lemma poll_sound x a b c : inv x -> sound x ChannelPrim_Poll a b (perform ChannelPrim_Poll a b c x).
Proof.
  intros Hx. eapply on_end_sound; [done|done| |].
  - intros e He. unfold perform, poll. st_unfold. by rewrite He.
  - intros i s ch Ho Hs Hi Hok _. unfold perform, poll. st_unfold. rewrite Ho. cbn.
    split; [apply step_none|]. split; [done|]. destruct (queue ch); [|done]. by destruct (sender_live ch).
Qed.

Lemma take_sound x a b c : inv x -> sound x ChannelPrim_Take a b (perform ChannelPrim_Take a b c x).
Proof.
  intros Hx. eapply on_end_sound; [done|done| |].
  - intros e He. unfold perform, take. st_unfold. by rewrite He.
  - intros i s ch Ho Hs Hi Hok Hr. unfold perform, take. st_unfold. rewrite Ho. cbn.
    destruct (queue ch) as [|v q]; [by split; [apply step_none|]|].
    destruct (put_effect x i s ch (with_queue ch q) Hx Hs Hi) as [? ?]; [by apply channel_ok_queue|]. done.
Qed.

Lemma close_sender_sound x a b c :
  inv x -> sound x ChannelPrim_CloseSender a b (perform ChannelPrim_CloseSender a b c x).
Proof.
  intros Hx. eapply on_end_sound; [done|done| |].
  - intros e He. unfold perform, close_sender. st_unfold. by rewrite He.
  - intros i s ch Ho Hs Hi Hok Hl. unfold perform, close_sender. unfold mbind, st_bind, st_gets.
    rewrite Ho. cbn [st_update]. destruct (receiver_live ch) eqn:Hr.
    + destruct (put_effect x i s ch (without_sender ch) Hx Hs Hi) as [? ?]; [|done].
      split; simpl; [done|congruence].
    + destruct (put_reclaim_effect x i s ch (without_sender ch) Hx Hs Hi) as (y & E & ? & ?).
      unfold st_update. by rewrite E.
Qed.

Lemma close_receiver_sound x a b c :
  inv x -> sound x ChannelPrim_CloseReceiver a b (perform ChannelPrim_CloseReceiver a b c x).
Proof.
  intros Hx. eapply on_end_sound; [done|done| |].
  - intros e He. unfold perform, close_receiver. st_unfold. by rewrite He.
  - intros i s ch Ho Hs Hi Hok Hl. unfold perform, close_receiver. unfold mbind, st_bind, st_gets.
    rewrite Ho. cbn [st_update]. destruct (sender_live ch) eqn:Hr.
    + destruct (put_effect x i s ch (without_receiver ch) Hx Hs Hi) as [? ?]; [|done].
      split; simpl; [by rewrite Hr|done].
    + destruct (put_reclaim_effect x i s ch (without_receiver ch) Hx Hs Hi) as (y & E & ? & ?).
      unfold st_update. by rewrite E.
Qed.

Lemma new_channel_ok b : channel_ok (new_channel b).
Proof. done. Qed.

(** Creating either refuses and changes nothing, or makes a channel whose
    sender handle was never given out, with the receiver's one above it. *)
Lemma create_effect x b :
  inv x ->
  create b x = (x, Err ChannelTrap_UnknownHandle) \/
  exists y i g, create b x = (y, Ok (channel_id i g, channel_id i g + 1)) /\ step x y /\
    Z.of_nat i < 2 ^ 31 - 1 /\ 0 <= g <= last_generation /\
    chan x (channel_id i g) = None /\ ~ known (channels x) (free x) (i, g) /\
    forall id, chan y id = upd (chan x) (channel_id i g) (Some (new_channel b)) id.
Proof.
  intros Hx. unfold create. change (Z.shiftr (2 ^ 32 - 1) 1) with (2 ^ 31 - 1).
  destruct (occupy_effect _ _ _ _ (new_channel b) Hx (new_channel_ok b))
    as [(-> & _)|(l' & fr' & i & g & -> & Hstep & Hi & Hg & Hn & Hk & Hheld)].
  - left. by destruct x.
  - right. rewrite !end_handle_ok by done. eexists _, i, g. cbn. rewrite Z.add_0_r.
    split_and!; [done|done|lia|lia|lia| |done|].
    + by rewrite chan_channel_id by lia.
    + apply chan_upd; [lia|lia|done].
Qed.

Lemma create_sound x a b c :
  inv x -> sound x ChannelPrim_Create a b (perform ChannelPrim_Create a b c x).
Proof.
  intros Hx. unfold perform. st_unfold.
  destruct (create_effect x (bool_decide (a = BOXED_PAYLOAD)) Hx)
    as [->|(y & i & g & -> & Hstep & Hi & Hg & Hn & _ & Hc)].
  - split; [apply step_none|]. by left.
  - split; [done|]. right. exists (channel_id i g). rewrite side_channel_id, side_receiver by lia.
    split_and!; try done. rewrite channel_id_add by lia. lia.
Qed.

Lemma channel_perform_sound x prim a b c : inv x -> sound x prim a b (perform prim a b c x).
Proof.
  intros Hx. destruct prim.
  - by apply create_sound.
  - by apply send_sound.
  - by apply poll_sound.
  - by apply take_sound.
  - by apply close_sender_sound.
  - by apply close_receiver_sound.
  - by split; [apply step_none|].
Qed.

Record call := { c_prim : ChannelPrim; c_a : Z; c_b : Z; c_c : Z }.

Definition do_call (k : call) : M Z := perform (c_prim k) (c_a k) (c_b k) (c_c k).

Lemma do_call_sound x k : inv x -> sound x (c_prim k) (c_a k) (c_b k) (do_call k x).
Proof. apply channel_perform_sound. Qed.

Lemma do_call_inv k x : inv x -> inv (do_call k x).1.
Proof. intros Hx. eapply tstep_ok; [exact Hx|]. apply (do_call_sound x k Hx). Qed.

#[export] Instance channel_client : SlotClient channel_ok (2 ^ 31 - 1) ChannelExecutor call := {
  slots_of := channels;
  free_of := free;
  client_ok := inv;
  exec k x := (do_call k x).1;
  client_table x Hx := Hx;
  exec_ok := do_call_inv;
  exec_step k x Hx := proj1 (do_call_sound x k Hx)
}.

Lemma channel_inv_new : inv ChannelExecutor_new.
Proof. apply table_ok_new. lia. Qed.

Lemma channel_run_inv ks x : inv x -> inv (run ks x).
Proof. apply (run_ok (client := channel_client)). Qed.

(** ** What was sent and what was taken *)

Definition sent_by (id : Z) (k : call) (r : result ChannelTrap Z) : list Z :=
  match c_prim k, r with
  | ChannelPrim_Send, Ok _ => if decide (c_a k = id) then [c_b k] else []
  | _, _ => []
  end.

Definition taken_by (id : Z) (k : call) (r : result ChannelTrap Z) : list Z :=
  match c_prim k, r with
  | ChannelPrim_Take, Ok v => if decide (c_a k = id + 1) then [v] else []
  | _, _ => []
  end.

(** The values sent through sender [id], and taken through its receiver, over a
    sequence of calls. *)
Fixpoint sent (id : Z) (ks : list call) (x : ChannelExecutor) : list Z :=
  match ks with
  | [] => []
  | k :: ks => sent_by id k (do_call k x).2 ++ sent id ks (do_call k x).1
  end.

Fixpoint taken (id : Z) (ks : list call) (x : ChannelExecutor) : list Z :=
  match ks with
  | [] => []
  | k :: ks => taken_by id k (do_call k x).2 ++ taken id ks (do_call k x).1
  end.

Lemma side_Sender a id : side a = Some (id, Sender) -> a = id.
Proof. unfold side. repeat case_match; congruence. Qed.

Lemma side_Receiver a id : side a = Some (id, Receiver) -> a = id + 1.
Proof. unfold side. repeat case_match; try congruence. intros [= <-]. lia. Qed.

Lemma on_end_cases m m' r a want k :
  on_end m m' r a want k ->
  (exists e, refuses m m' r e) \/
  exists id c, side a = Some (id, want) /\ m id = Some c /\ end_live want c = true /\ k id c.
Proof.
  unfold on_end. destruct (side a) as [[id e]|]; [|eauto]. case_decide; [subst|eauto].
  destruct (m id) as [c|] eqn:Hc; [|eauto]. destruct (end_live want c) eqn:He; [|eauto].
  right. eauto 8.
Qed.

Lemma sets_at m m' id v : sets m m' id v -> m' id = v.
Proof. intros Hs. rewrite Hs. unfold upd. by rewrite decide_True. Qed.

Lemma sets_off m m' id id' v : sets m m' id v -> id' <> id -> m' id' = m id'.
Proof. intros Hs ?. rewrite Hs. unfold upd. by rewrite decide_False. Qed.

(** One call, seen from a channel that is stored: it keeps the queue law, or it
    closes the receiver's side. *)
Definition queue_law (id : Z) (k : call) (r : result ChannelTrap Z) (c c' : Channel) : Prop :=
  receiver_live c' = receiver_live c /\
  if receiver_live c then queue c ++ sent_by id k r = taken_by id k r ++ queue c'
  else sent_by id k r = [] /\ taken_by id k r = [].

Definition silent (id : Z) (k : call) (r : result ChannelTrap Z) : Prop :=
  sent_by id k r = [] /\ taken_by id k r = [].

Lemma silent_law id k r c c' :
  silent id k r -> receiver_live c' = receiver_live c -> queue c' = queue c -> queue_law id k r c c'.
Proof.
  unfold queue_law. intros [-> ->] -> ->. split; [done|]. destruct (receiver_live c); [|done].
  by rewrite app_nil_r.
Qed.

Lemma silent_Err id k e : silent id k (Err e).
Proof. unfold silent, sent_by, taken_by. by destruct (c_prim k). Qed.

Definition half_closed (o : option Channel) : Prop :=
  match o with Some c => receiver_live c = false | None => True end.

Lemma call_at x k id c :
  inv x -> chan x id = Some c ->
  (exists c', chan (do_call k x).1 id = Some c' /\ queue_law id k (do_call k x).2 c c') \/
  (silent id k (do_call k x).2 /\ half_closed (chan (do_call k x).1 id)).
Proof.
  intros Hx Hc. destruct (do_call_sound x k Hx) as [_ Hs].
  set (m' := chan (do_call k x).1) in *. set (r := (do_call k x).2) in *.
  assert (forall e, refuses (chan x) m' r e ->
    exists c', m' id = Some c' /\ queue_law id k r c c') as Href.
  { intros e [Hk ->]. exists c. rewrite Hk. split; [done|]. apply silent_law; [apply silent_Err|done|done]. }
  assert (m' id = Some c -> silent id k r -> exists c', m' id = Some c' /\ queue_law id k r c c') as Hsame.
  { intros Hm Hsil. exists c. split; [done|]. by apply silent_law. }
  unfold silent, queue_law, sent_by, taken_by in *. unfold channel_spec in Hs.
  destruct (c_prim k).
  - left. destruct Hs as [?|(id' & _ & _ & _ & Hn & Hs & _)]; [eauto|].
    apply Hsame; [|done]. rewrite <- Hc. eapply sets_off; [done|congruence].
  - left. apply on_end_cases in Hs as [[e He]|(id' & c0 & Ha%side_Sender & Hm & _ & Hs)]; [eauto|].
    destruct (receiver_live c0) eqn:Hr; [|eauto]. destruct Hs as [Hs Hrr]. rewrite Ha, Hrr in *.
    destruct (decide (id' = id)) as [->|Hne].
    + exists (with_queue c (queue c ++ [c_b k])). rewrite Hm in Hc; injection Hc as ->.
      split; [by eapply sets_at|]. simpl. by rewrite Hr.
    + apply Hsame; [|done]. rewrite <- Hc. eapply sets_off; [done|congruence].
  - left. apply on_end_cases in Hs as [[e He]|(id' & c0 & _ & _ & _ & [Hk _])]; [eauto|].
    apply Hsame; [by rewrite Hk|done].
  - left. apply on_end_cases in Hs as [[e He]|(id' & c0 & Ha%side_Receiver & Hm & Hr & Hs)]; [eauto|].
    destruct (queue c0) as [|v q] eqn:Hq; [eauto|]. destruct Hs as [Hs Hrr]. rewrite Ha, Hrr in *.
    destruct (decide (id' + 1 = id + 1)) as [He|Hne].
    + assert (id' = id) as -> by lia. rewrite Hm in Hc; injection Hc as ->.
      exists (with_queue c q). split; [by eapply sets_at|]. simpl in *. by rewrite Hr, Hq, app_nil_r.
    + apply Hsame; [|done]. rewrite <- Hc. eapply sets_off; [done|congruence].
  - apply on_end_cases in Hs as [[e He]|(id' & c0 & _ & Hm & _ & [Hs _])]; [left; eauto|].
    destruct (decide (id' = id)) as [->|Hne].
    + rewrite (sets_at _ _ _ _ Hs). rewrite Hm in Hc; injection Hc as ->.
      destruct (receiver_live c) eqn:Hr; [left|right; done].
      exists (without_sender c). simpl. by rewrite Hr, app_nil_r.
    + left. apply Hsame; [|done]. rewrite <- Hc. eapply sets_off; [done|congruence].
  - apply on_end_cases in Hs as [[e He]|(id' & c0 & _ & Hm & _ & [Hs _])]; [left; eauto|].
    destruct (decide (id' = id)) as [->|Hne].
    + right. rewrite (sets_at _ _ _ _ Hs). by destruct (sender_live c0).
    + left. apply Hsame; [|done]. rewrite <- Hc. eapply sets_off; [done|congruence].
  - left. eauto.
Qed.

(** ** Channels that are gone *)

(** A channel that was given out and whose slot has moved on. *)
Definition buried (x : ChannelExecutor) (id : Z) : Prop :=
  exists i g, id = channel_id i g /\ Z.of_nat i < 2 ^ 31 /\ 0 <= g /\ dead (channels x) (free x) (i, g).

Lemma buried_chan x id : buried x id -> chan x id = None.
Proof. intros (i & g & -> & ? & ? & Hd). rewrite chan_channel_id by done. by eapply dead_not_held. Qed.

Lemma buried_run_channels x ks id : inv x -> buried x id -> buried (run ks x) id.
Proof.
  intros Hx (i & g & ? & ? & ? & Hd). exists i, g. split_and!; [done..|].
  by apply (run_dead (client := channel_client)).
Qed.

(** A stored channel that a call removed is buried. *)
Lemma removed_buried x k id c :
  inv x -> chan x id = Some c -> chan (do_call k x).1 id = None -> buried (do_call k x).1 id.
Proof.
  intros Hx Hc Hn. unfold chan in Hc. pose proof (end_parts_side id) as Hp.
  destruct (side id) as [[id' e]|] eqn:Hside; [|by rewrite Hp in Hc].
  destruct Hp as (i & g & Hp & -> & Hi & Hg). rewrite Hp in Hc. destruct e; [|done].
  apply side_Sender in Hside as ->. rewrite chan_channel_id in Hn by done. exists i, g. split_and!; [done..|].
  assert (known (channels x) (free x) (i, g)) as Hk by (left; congruence).
  by destruct (exec_known (client := channel_client) k x (i, g) Hx Hk) as [?|?].
Qed.

Lemma silent_elsewhere x k id :
  inv x -> chan x id = None -> silent id k (do_call k x).2.
Proof.
  intros Hx Hn. destruct (do_call_sound x k Hx) as [_ Hs]. unfold channel_spec in Hs.
  unfold silent, sent_by, taken_by. destruct (c_prim k); try done.
  - apply on_end_cases in Hs as [[e [_ ->]]|(id' & c & Ha%side_Sender & Hm & _)]; [done|].
    destruct (do_call k x).2; [|done]. rewrite decide_False; [done|]. congruence.
  - apply on_end_cases in Hs as [[e [_ ->]]|(id' & c & Ha%side_Receiver & Hm & _)]; [done|].
    destruct (do_call k x).2; [|done]. rewrite decide_False; [done|].
    intros He. assert (id' = id) by lia. congruence.
Qed.

(** A channel whose receiver is gone for good. *)
Definition finished (x : ChannelExecutor) (id : Z) : Prop :=
  buried x id \/ exists c, chan x id = Some c /\ receiver_live c = false.

Lemma finished_call x k id :
  inv x -> finished x id -> silent id k (do_call k x).2 /\ finished (do_call k x).1 id.
Proof.
  intros Hx [Hb|(c & Hc & Hr)].
  - split; [by apply silent_elsewhere, buried_chan|]. left. by apply (buried_run_channels x [k]).
  - destruct (call_at x k id c Hx Hc) as [(c' & Hc' & Hl & Hq)|[Hs Hh]].
    + rewrite Hr in *. split; [done|]. right. eauto.
    + split; [done|]. destruct (chan (do_call k x).1 id) as [c'|] eqn:E; [right; eauto|].
      left. by eapply removed_buried.
Qed.

Lemma finished_run x ks id :
  inv x -> finished x id -> sent id ks x = [] /\ taken id ks x = [] /\ finished (run ks x) id.
Proof.
  revert x; induction ks as [|k ks IH]; intros x Hx Hf; [done|]. cbn [sent taken run exec channel_client].
  destruct (finished_call x k id Hx Hf) as [[-> ->] Hf'].
  by apply IH; [apply do_call_inv|].
Qed.

(** From an open channel: everything taken, in order, comes from the queue and
    then from what was sent; nothing is lost while the receiver is open. *)
Lemma open_run x ks id c :
  inv x -> chan x id = Some c -> receiver_live c = true ->
  (exists c', chan (run ks x) id = Some c' /\ receiver_live c' = true /\
     queue c ++ sent id ks x = taken id ks x ++ queue c') \/
  (finished (run ks x) id /\ taken id ks x `prefix_of` queue c ++ sent id ks x).
Proof.
  revert x c; induction ks as [|k ks IH]; intros x c Hx Hc Hr; cbn [sent taken run exec channel_client].
  { left. exists c. by rewrite app_nil_r. }
  destruct (call_at x k id c Hx Hc) as [(c' & Hc' & Hl & Hq)|[[Hs Ht] Hh]].
  - rewrite Hr in *.
    destruct (IH (do_call k x).1 c') as [(c'' & ? & ? & Hq')|[? [z Hz]]]; [by apply do_call_inv|done..| |].
    + left. exists c''. split_and!; [done..|]. by rewrite app_assoc, Hq, <- !app_assoc, Hq'.
    + right. split; [done|]. exists z. by rewrite app_assoc, Hq, <- !app_assoc, Hz.
  - rewrite Hs, Ht. right.
    assert (finished (do_call k x).1 id) as Hf.
    { destruct (chan (do_call k x).1 id) as [c'|] eqn:E; [right; eauto|]. left. by eapply removed_buried. }
    destruct (finished_run _ ks id (do_call_inv k x Hx) Hf) as (-> & -> & ?).
    split; [done|]. apply prefix_nil.
Qed.

(** C28: the channel table refines a map from sender handles to channels: every
    primitive answers and changes that map exactly as the abstract queue
    specification says, with wrong directions, closed ends, a departed
    receiver and an empty queue told apart. *)
Theorem channel_refines x prim a b c :
  inv x -> channel_spec (chan x) (chan (perform prim a b c x).1) (perform prim a b c x).2 prim a b.
Proof. intros Hx. apply (channel_perform_sound x prim a b c Hx). Qed.

Lemma channel_refines_witness :
  channel_spec (chan ChannelExecutor_new) (chan (perform ChannelPrim_Create 0 0 0 ChannelExecutor_new).1)
    (Ok 1) ChannelPrim_Create 0 0.
Proof. exact (channel_refines ChannelExecutor_new ChannelPrim_Create 0 0 0 channel_inv_new). Defined.

Lemma create_call x a id y :
  inv x -> do_call (Build_call ChannelPrim_Create a 0 0) x = (y, Ok id) ->
  chan y id = Some (new_channel (bool_decide (a = 1))) /\ inv y.
Proof.
  intros Hx E. pose proof (do_call_sound x (Build_call ChannelPrim_Create a 0 0) Hx) as [_ Hs].
  pose proof (do_call_inv (Build_call ChannelPrim_Create a 0 0) x Hx) as Hy. rewrite E in *.
  split; [|done]. destruct Hs as [[_ ?]|(id' & _ & _ & _ & _ & Hs & [= <-])]; [done|].
  exact (sets_at _ _ _ _ Hs).
Qed.

(** C17: channels are FIFO: whatever calls follow a channel's creation, the
    values taken through its receiver are a prefix, in order, of the values
    sent through its sender, and while the receiver is open the rest are
    exactly what is still queued: none lost, duplicated or reordered. *)
Theorem channel_fifo (before ks : list call) (a id : Z) (x : ChannelExecutor) :
  do_call (Build_call ChannelPrim_Create a 0 0) (run before ChannelExecutor_new) = (x, Ok id) ->
  taken id ks x `prefix_of` sent id ks x /\
  forall c, chan (run ks x) id = Some c -> receiver_live c = true ->
    sent id ks x = taken id ks x ++ queue c.
Proof.
  intros E. apply create_call in E as [Hc Hx]; [|apply channel_run_inv, channel_inv_new].
  destruct (open_run x ks id _ Hx Hc eq_refl) as [(c' & Hc' & Hr & Hq)|[Hf Hq]]; simpl in Hq.
  - rewrite Hq. split; [by exists (queue c')|]. intros c Hc'' _. by simplify_eq.
  - split; [done|]. intros c Hc' Hr. destruct Hf as [Hb%buried_chan|(c0 & ? & ?)]; congruence.
Qed.

Definition fifo_calls : list call :=
  [Build_call ChannelPrim_Send 1 10 0; Build_call ChannelPrim_Send 1 20 0;
   Build_call ChannelPrim_Take 2 0 0; Build_call ChannelPrim_Send 1 30 0].

Lemma channel_fifo_witness :
  taken 1 fifo_calls (do_call (Build_call ChannelPrim_Create 0 0 0) ChannelExecutor_new).1
    `prefix_of` [10; 20; 30] /\
  taken 1 fifo_calls (do_call (Build_call ChannelPrim_Create 0 0 0) ChannelExecutor_new).1 = [10].
Proof.
  split; [|vm_compute; reflexivity].
  exact (proj1 (channel_fifo [] fifo_calls 0 1
    (do_call (Build_call ChannelPrim_Create 0 0 0) ChannelExecutor_new).1 eq_refl)).
Defined.

(** Polling says exactly what taking will do, in every table state: ready
    means [take] and [receive] yield the same oldest value, empty and closed
    mean [take] traps as not ready while [receive] answers which of the two it
    is, and a bad end traps the same way in all three. *)
Theorem poll_take_agree (receiver : Z) (x : ChannelExecutor) :
  match poll receiver x with
  | (_, Err e) => take receiver x = (x, Err e) /\ receive receiver x = (x, Err e)
  | (_, Ok s) =>
    (s = 1 /\ exists v y, take receiver x = (y, Ok v) /\ receive receiver x = (y, Ok (Value v))) \/
    (s = 0 /\ take receiver x = (x, Err ChannelTrap_NotReady) /\ receive receiver x = (x, Ok Empty)) \/
    (s = 2 /\ take receiver x = (x, Err ChannelTrap_NotReady) /\ receive receiver x = (x, Ok Closed))
  end.
Proof.
  unfold receive, poll, take. st_unfold.
  destruct (open_end x receiver Receiver) as [[[i g] c]|e] eqn:Ho; cbn; [|done].
  destruct (queue c) as [|v q] eqn:Hq; cbn.
  2: { left. split; [done|]. do 2 eexists. split; [done|]. case_decide; [|done].
       cbv beta. rewrite Ho. cbn. by rewrite Hq. }
  destruct (sender_live c); cbn; right; [by left|by right].
Qed.

(** ** A drained, closed channel *)

Definition drained (x : ChannelExecutor) (id : Z) (c : Channel) : Prop :=
  chan x id = Some c /\ queue c = [] /\ sender_live c = false /\ receiver_live c = true.

Lemma drained_call x k id c :
  inv x -> drained x id c -> ~ (c_prim k = ChannelPrim_CloseReceiver /\ c_a k = id + 1) ->
  drained (do_call k x).1 id c.
Proof.
  intros Hx (Hc & Hq & Hs & Hr) Hk. destruct (do_call_sound x k Hx) as [_ Hsp].
  split; [|done]. rewrite <- Hc. unfold channel_spec in Hsp.
  destruct (c_prim k).
  - destruct Hsp as [[Hkeep _]|(id' & _ & _ & _ & Hn & Hsets & _)]; [done|].
    eapply sets_off; [done|congruence].
  - apply on_end_cases in Hsp as [[e [Hkeep _]]|(id' & c0 & _ & Hm & Hl & Hsp)]; [done|].
    destruct (receiver_live c0); [|apply Hsp]. destruct Hsp as [Hsets _].
    eapply sets_off; [done|]. simpl in Hl. congruence.
  - apply on_end_cases in Hsp as [[e [Hkeep _]]|(id' & c0 & _ & _ & _ & [Hkeep _])]; done.
  - apply on_end_cases in Hsp as [[e [Hkeep _]]|(id' & c0 & _ & Hm & Hl & Hsp)]; [done|].
    destruct (queue c0) eqn:Hq0; [apply Hsp|]. destruct Hsp as [Hsets _].
    eapply sets_off; [done|congruence].
  - apply on_end_cases in Hsp as [[e [Hkeep _]]|(id' & c0 & _ & Hm & Hl & [Hsets _])]; [done|].
    eapply sets_off; [done|]. simpl in Hl. congruence.
  - apply on_end_cases in Hsp as [[e [Hkeep _]]|(id' & c0 & Ha%side_Receiver & Hm & Hl & [Hsets _])]; [done|].
    eapply sets_off; [done|]. intros ->. by apply Hk.
  - by destruct Hsp as [Hkeep _].
Qed.

Lemma poll_closed x h :
  inv x -> (poll h x).2 = Ok 2 <-> exists id c, side h = Some (id, Receiver) /\ drained x id c.
Proof.
  intros Hx. pose proof (poll_sound x h 0 0 Hx) as [_ Hs].
  unfold perform, channel_spec in Hs. unfold drained. split.
  - intros E. rewrite E in Hs.
    apply on_end_cases in Hs as [[e [_ ?]]|(id & c & Hside & Hm & Hl & [_ [= Hv]])]; [done|].
    exists id, c. split_and!; [done|done|..|done]; destruct (queue c); try done; destruct (sender_live c); done.
  - intros (id & c & Hside & Hc & Hq & Hsl & Hr). unfold on_end in Hs. rewrite Hside, Hc in Hs.
    rewrite decide_True in Hs by done. simpl in Hs. rewrite Hr, Hq, Hsl in Hs. by destruct Hs.
Qed.

(** Closure is final: once a receiver polls as closed, it polls as closed
    after any further calls other than closing that receiver itself. *)
Theorem closed_is_final (before ks : list call) (h : Z) :
  (poll h (run before ChannelExecutor_new)).2 = Ok 2 ->
  Forall (fun k => ~ (c_prim k = ChannelPrim_CloseReceiver /\ c_a k = h)) ks ->
  (poll h (run (before ++ ks) ChannelExecutor_new)).2 = Ok 2.
Proof.
  intros Hp Hks. rewrite run_app. revert Hp.
  generalize (channel_run_inv before _ channel_inv_new).
  generalize (run before ChannelExecutor_new) as x.
  induction Hks as [|k ks Hk _ IH]; intros x Hx Hp; [done|]. cbn [run exec channel_client].
  apply IH; [by apply do_call_inv|].
  apply poll_closed in Hp as (id & c & Hside & Hd); [|done].
  apply poll_closed; [by apply do_call_inv|]. exists id, c. split; [done|].
  apply drained_call; [done..|]. by rewrite <- (side_Receiver _ _ Hside).
Qed.

Lemma closed_is_final_witness :
  (poll 2 (run ([Build_call ChannelPrim_Create 0 0 0; Build_call ChannelPrim_CloseSender 1 0 0] ++
                [Build_call ChannelPrim_Send 1 5 0; Build_call ChannelPrim_Create 0 0 0])
             ChannelExecutor_new)).2 = Ok 2.
Proof.
  apply closed_is_final; [vm_compute; reflexivity|].
  repeat constructor; intros [? ?]; discriminate.
Defined.

(** ** Ends of channels that are gone *)

(** An end operation aimed at channel [id], through the end it is meant for. *)
Definition aims_at (id : Z) (k : call) : Prop :=
  match c_prim k with
  | ChannelPrim_Send | ChannelPrim_CloseSender => side (c_a k) = Some (id, Sender)
  | ChannelPrim_Poll | ChannelPrim_Take | ChannelPrim_CloseReceiver => side (c_a k) = Some (id, Receiver)
  | ChannelPrim_Create | ChannelPrim_Deadlock => False
  end.

Lemma aims_at_gone x k id :
  inv x -> chan x id = None -> aims_at id k -> (do_call k x).2 = Err ChannelTrap_UnknownHandle.
Proof.
  intros Hx Hn Ha. destruct (do_call_sound x k Hx) as [_ Hs].
  unfold channel_spec, on_end, aims_at in *. destruct (c_prim k); try done;
    rewrite Ha, decide_True, Hn in Hs by done; by destruct Hs.
Qed.

(** Once both ends of a channel are closed its storage may be reused but its
    handles never are: from any state where a channel is stored, if some calls
    remove it, every later use of either end traps as unknown, whatever
    channels were created meanwhile. *)
Theorem closed_channel_stays_unknown (before after : list call) (id : Z) (c : Channel) (k k' : call) :
  chan (run before ChannelExecutor_new) id = Some c ->
  chan (do_call k (run before ChannelExecutor_new)).1 id = None ->
  aims_at id k' ->
  (do_call k' (run (before ++ k :: after) ChannelExecutor_new)).2 = Err ChannelTrap_UnknownHandle.
Proof.
  intros Hc Hn Ha. rewrite run_app. cbn [run exec channel_client].
  pose proof (channel_run_inv before _ channel_inv_new) as Hx.
  set (x := run before ChannelExecutor_new) in *.
  assert (inv (do_call k x).1) as Hy by (by apply do_call_inv).
  apply (aims_at_gone _ _ id); [by apply channel_run_inv| |done].
  apply buried_chan, buried_run_channels; [done|]. by eapply removed_buried.
Qed.

Lemma closed_channel_stays_unknown_witness :
  (do_call (Build_call ChannelPrim_Poll 2 0 0)
     (run ([Build_call ChannelPrim_Create 0 0 0; Build_call ChannelPrim_CloseSender 1 0 0] ++
           Build_call ChannelPrim_CloseReceiver 2 0 0 ::
           [Build_call ChannelPrim_Create 0 0 0]) ChannelExecutor_new)).2 = Err ChannelTrap_UnknownHandle.
Proof. eapply (closed_channel_stays_unknown _ _ 1); vm_compute; reflexivity. Defined.

(** ** Teardown *)

Lemma foldl_tokens acc l :
  foldl (fun tokens slot => tokens ++ slot_tokens slot) acc l = acc ++ mjoin (map slot_tokens l).
Proof.
  revert acc; induction l as [|s l IH]; intros acc; simpl; [by rewrite app_nil_r|].
  by rewrite IH, <- app_assoc.
Qed.

Lemma stored_chan x i s c :
  inv x -> channels x !! i = Some s -> item s = Some c -> chan x (channel_id i (generation s)) = Some c.
Proof.
  intros Hx Hs Hc. destruct (slot_range x i s Hx Hs). rewrite chan_channel_id by lia.
  apply held_Some. eauto.
Qed.

Lemma chan_stored x id c :
  chan x id = Some c -> exists i s, channels x !! i = Some s /\ item s = Some c.
Proof.
  unfold chan. destruct (end_parts id) as [[[i g] []]|]; try done.
  intros (s & Hs & _ & Hc)%held_Some. eauto.
Qed.

(** Teardown releases exactly the undelivered tokens: it answers a word if
    and only if some boxed channel still has it queued, answers as many words
    as boxed channels have queued in total, and leaves an empty table. *)
Theorem teardown_tokens (ks : list call) :
  (take_undelivered_tokens (run ks ChannelExecutor_new)).1 = ChannelExecutor_new /\
  length (take_undelivered_tokens (run ks ChannelExecutor_new)).2 =
    sum_list (map (fun s => length (slot_tokens s)) (channels (run ks ChannelExecutor_new))) /\
  forall v, v ∈ (take_undelivered_tokens (run ks ChannelExecutor_new)).2 <->
    exists id c, chan (run ks ChannelExecutor_new) id = Some c /\ boxed c = true /\ v ∈ queue c.
Proof.
  assert (inv (run ks ChannelExecutor_new)) as Hx by apply channel_run_inv, channel_inv_new.
  generalize dependent (run ks ChannelExecutor_new). intros x Hx.
  unfold take_undelivered_tokens. cbn [fst snd]. rewrite foldl_tokens, app_nil_l.
  split; [done|]. split.
  { induction (channels x) as [|s l IH]; simpl; [done|]. by rewrite length_app, IH. }
  intros v. rewrite list_elem_of_join. split.
  - intros (l & Hv & Hl). apply list_elem_of_In, in_map_iff in Hl as (s & <- & Hs%list_elem_of_In).
    apply list_elem_of_lookup in Hs as [i Hs]. unfold slot_tokens in Hv.
    destruct (item s) as [c|] eqn:Hc; [|by apply not_elem_of_nil in Hv].
    destruct (boxed c) eqn:Hb; [|by apply not_elem_of_nil in Hv].
    exists (channel_id i (generation s)), c. split; [by apply stored_chan|done].
  - intros (id & c & (i & s & Hs & Hc)%chan_stored & Hb & Hv). exists (slot_tokens s). split.
    + unfold slot_tokens. by rewrite Hc, Hb.
    + apply list_elem_of_In, in_map, list_elem_of_In. by eapply list_elem_of_lookup_2.
Qed.
