(* ===== verification/Foreign.v ===== *)
(** * The foreign seam: signatures, aggregates and their C layout

    [kira-runtime-abi/src/foreign.rs] (signatures, imports, callbacks) and
    [aggregate.rs] (the C-layout aggregate table, its layout pass and the leaf
    walk that marshalling follows).

    A table built by [push] has no forward reference, so its layout pass fails
    only on size ([layouts_only_too_large]); whenever the pass succeeds, every
    layout is a C layout ([layouts_are_c_layouts]), the member offsets are
    aligned, disjoint and inside the aggregate ([member_offsets_sound]), and the
    leaf walk terminates with aligned, disjoint leaves inside it
    ([leaves_sound]). *)

From S2P Require Import Prelude AbiOps.

(** Rust [String]s are the bytes of their UTF-8 text. *)
Definition rstring : Type := list byte.

Definition ForeignAggregateId : Type := Z.

Inductive ForeignPointerWidth := Bits32 | Bits64.

(** The width of the target this code is running on. *)
Definition ForeignPointerWidth_HOST {host : Host} : ForeignPointerWidth :=
  if decide (usize_max = 2 ^ 64 - 1) then Bits64 else Bits32.

Definition width_bytes (w : ForeignPointerWidth) : Z :=
  match w with Bits32 => 4 | Bits64 => 8 end.

Inductive ForeignArrayElement :=
| Elem_Scalar (ty : ForeignType)
| Elem_Aggregate (id : ForeignAggregateId).

Inductive ForeignMember :=
| Member_Scalar (ty : ForeignType)
| Member_Aggregate (id : ForeignAggregateId)
| Member_Array (element : ForeignArrayElement) (count : Z).

Record ForeignAggregate := { members : list ForeignMember }.

Record ForeignLayout := { size : Z; align : Z }.

Record ForeignLeaf := { offset : Z; leaf_ty : ForeignType }.

Inductive ForeignAggregateError :=
| ForwardReference (container member : Z)
| TooLarge (index : Z)
| UnknownAggregate (index : Z).

Record ForeignAggregates := { entries : list ForeignAggregate }.

Definition ForeignAggregates_new : ForeignAggregates := {| entries := [] |}.

(** The aggregate a member refers to, if any. *)
Definition member_reference (m : ForeignMember) : option ForeignAggregateId :=
  match m with
  | Member_Scalar _ => None
  | Member_Aggregate id => Some id
  | Member_Array element _ =>
    match element with
    | Elem_Scalar _ => None
    | Elem_Aggregate id => Some id
    end
  end.

(** The first member that refers to [index] or beyond. *)
Fixpoint forward_reference (index : Z) (ms : list ForeignMember) : option Z :=
  match ms with
  | [] => None
  | m :: ms =>
    match member_reference m with
    | Some id => if decide (index <= id) then Some id else forward_reference index ms
    | None => forward_reference index ms
    end
  end.

(** Appends an aggregate, returning its id. *)
Definition push (t : ForeignAggregates) (a : ForeignAggregate)
    : result ForeignAggregateError (ForeignAggregates * ForeignAggregateId) :=
  let index := uwrap 32 (Z.of_nat (length (entries t))) in
  match forward_reference index (members a) with
  | Some id => Err (ForwardReference index id)
  | None => Ok ({| entries := entries t ++ [a] |}, index)
  end.

Definition get (t : ForeignAggregates) (id : ForeignAggregateId) : option ForeignAggregate :=
  entries t !! Z.to_nat id.

(** [u32::checked_add] and [u32::checked_mul]. *)
Definition u32_checked (v : Z) : option Z := if decide (v < 2 ^ 32) then Some v else None.

(** Rounds up to the next multiple of [align], or [None] on overflow. *)
Definition round_up (value align : Z) : option Z :=
  raised ← u32_checked (value + (align - 1)); Some (raised - raised mod align).

Definition scalar_size (ty : ForeignType) (w : ForeignPointerWidth) : Z :=
  match ty with
  | ForeignType_Void => 0
  | ForeignType_I8 | ForeignType_U8 | ForeignType_Bool => 1
  | ForeignType_I16 | ForeignType_U16 => 2
  | ForeignType_I32 | ForeignType_U32 | ForeignType_F32 => 4
  | ForeignType_I64 | ForeignType_U64 | ForeignType_F64 => 8
  | ForeignType_RawPtr | ForeignType_CString => width_bytes w
  end.

(** The size and alignment of a seam scalar in C. *)
Definition scalar_layout (ty : ForeignType) (w : ForeignPointerWidth) : ForeignLayout :=
  let size := scalar_size ty w in
  {| size := size; align := if decide (size = 0) then 1 else size |}.

(** The layout of one inline-array element. *)
Definition element_layout (element : ForeignArrayElement) (container : Z)
    (w : ForeignPointerWidth) (layouts : list ForeignLayout)
    : result ForeignAggregateError ForeignLayout :=
  match element with
  | Elem_Scalar ty => Ok (scalar_layout ty w)
  | Elem_Aggregate id => ok_or (layouts !! Z.to_nat id) (ForwardReference container id)
  end.

(** The layout one member occupies inside the aggregate at [container]. *)
Definition member_layout (m : ForeignMember) (container : Z)
    (w : ForeignPointerWidth) (layouts : list ForeignLayout)
    : result ForeignAggregateError ForeignLayout :=
  match m with
  | Member_Scalar ty => Ok (scalar_layout ty w)
  | Member_Aggregate id => ok_or (layouts !! Z.to_nat id) (ForwardReference container id)
  | Member_Array element count =>
    e ← element_layout element container w layouts;
    size ← ok_or (u32_checked (size e * count)) (TooLarge container);
    Ok {| size := size; align := align e |}
  end.

(** The member loop of the layout pass: the running size and alignment. *)
Fixpoint place_members (index : Z) (w : ForeignPointerWidth) (layouts : list ForeignLayout)
    (ms : list ForeignMember) (sz al : Z) : result ForeignAggregateError (Z * Z) :=
  match ms with
  | [] => Ok (sz, al)
  | m :: ms =>
    l ← member_layout m index w layouts;
    sz ← ok_or (start ← round_up sz (align l); u32_checked (start + size l)) (TooLarge index);
    place_members index w layouts ms sz (Z.max al (align l))
  end.

(** One aggregate, given the layouts of those below it. *)
Definition layout_entry (index : Z) (w : ForeignPointerWidth) (layouts : list ForeignLayout)
    (a : ForeignAggregate) : result ForeignAggregateError ForeignLayout :=
  p ← place_members index w layouts (members a) 0 1;
  sz ← ok_or (round_up (Z.max p.1 1) p.2) (TooLarge index);
  Ok {| size := sz; align := p.2 |}.

Fixpoint layouts_from (index : nat) (w : ForeignPointerWidth) (es : list ForeignAggregate)
    (layouts : list ForeignLayout) : result ForeignAggregateError (list ForeignLayout) :=
  match es with
  | [] => Ok layouts
  | a :: es =>
    l ← layout_entry (uwrap 32 (Z.of_nat index)) w layouts a;
    layouts_from (S index) w es (layouts ++ [l])
  end.

(** Computes the layout of every aggregate, in table order: one forward pass. *)
Definition layouts (t : ForeignAggregates) (w : ForeignPointerWidth)
    : result ForeignAggregateError (list ForeignLayout) :=
  layouts_from 0 w (entries t) [].

Definition layout_of (t : ForeignAggregates) (id : ForeignAggregateId) (w : ForeignPointerWidth)
    : result ForeignAggregateError ForeignLayout :=
  ls ← layouts t w; ok_or (ls !! Z.to_nat id) (UnknownAggregate id).

Fixpoint offsets_from (id : Z) (w : ForeignPointerWidth) (layouts : list ForeignLayout)
    (ms : list ForeignMember) (off : Z) : result ForeignAggregateError (list Z) :=
  match ms with
  | [] => Ok []
  | m :: ms =>
    l ← member_layout m id w layouts;
    at_ ← ok_or (round_up off (align l)) (TooLarge id);
    next ← ok_or (u32_checked (at_ + size l)) (TooLarge id);
    rest ← offsets_from id w layouts ms next;
    Ok (at_ :: rest)
  end.

(** The byte offset of each top-level member of one aggregate. *)
Definition member_offsets_of (t : ForeignAggregates) (id : ForeignAggregateId)
    (w : ForeignPointerWidth) : result ForeignAggregateError (list Z) :=
  ls ← layouts t w;
  a ← ok_or (get t id) (UnknownAggregate id);
  offsets_from id w ls (members a) 0.

(** The leaf walk recurses into nested aggregates; [Unfinished] is a walk whose
    fuel ran out, which no table with a layout produces. *)
Inductive walk_error :=
| Unfinished
| Failed (e : ForeignAggregateError).

Abbreviation walk := (result walk_error).

Definition checked (id : Z) (o : option Z) : walk Z := ok_or o (Failed (TooLarge id)).

Section walk.
Variables (self : ForeignAggregateId -> Z -> walk (list ForeignLeaf)).
Variables (id : Z) (w : ForeignPointerWidth) (layouts : list ForeignLayout) (base : Z).

(** The elements of an inline array from [step] on, [remaining] of them. *)
Fixpoint element_leaves (element : ForeignArrayElement) (stride off : Z) (remaining : nat) (step : Z)
    : walk (list ForeignLeaf) :=
  match remaining with
  | O => Ok []
  | S remaining =>
    at_ ← checked id (start ← u32_checked (base + off);
                      by_ ← u32_checked (stride * step); u32_checked (start + by_));
    here ← match element with
           | Elem_Scalar ty => Ok [{| offset := at_; leaf_ty := ty |}]
           | Elem_Aggregate nested => self nested at_
           end;
    rest ← element_leaves element stride off remaining (step + 1);
    Ok (here ++ rest)
  end.

(** One member at running offset [off]: its leaves, and the offset after it. *)
Definition member_leaves (m : ForeignMember) (off : Z) : walk (list ForeignLeaf * Z) :=
  match m with
  | Member_Scalar ty =>
    let l := scalar_layout ty w in
    off ← checked id (round_up off (align l));
    at_ ← checked id (u32_checked (base + off));
    next ← checked id (u32_checked (off + size l));
    Ok ([{| offset := at_; leaf_ty := ty |}], next)
  | Member_Aggregate nested =>
    l ← ok_or (layouts !! Z.to_nat nested) (Failed (ForwardReference id nested));
    off ← checked id (round_up off (align l));
    at_ ← checked id (u32_checked (base + off));
    inner ← self nested at_;
    next ← checked id (u32_checked (off + size l));
    Ok (inner, next)
  | Member_Array element count =>
    whole ← map_err Failed (member_layout m id w layouts);
    e ← map_err Failed (element_layout element id w layouts);
    off ← checked id (round_up off (align whole));
    inner ← element_leaves element (size e) off (Z.to_nat count) 0;
    next ← checked id (u32_checked (off + size whole));
    Ok (inner, next)
  end.

Fixpoint members_leaves (ms : list ForeignMember) (off : Z) : walk (list ForeignLeaf) :=
  match ms with
  | [] => Ok []
  | m :: ms =>
    p ← member_leaves m off;
    rest ← members_leaves ms p.2;
    Ok (p.1 ++ rest)
  end.
End walk.

(** Appends [id]'s leaves, shifted by [base]. *)
Fixpoint collect_leaves (fuel : nat) (t : ForeignAggregates) (w : ForeignPointerWidth)
    (ls : list ForeignLayout) (id : ForeignAggregateId) (base : Z) : walk (list ForeignLeaf) :=
  match fuel with
  | O => Err Unfinished
  | S fuel =>
    a ← ok_or (get t id) (Failed (UnknownAggregate id));
    members_leaves (collect_leaves fuel t w ls) id w ls base (members a) 0
  end.

(** The scalar leaves of one aggregate in depth-first declaration order. *)
Definition leaves_of (t : ForeignAggregates) (id : ForeignAggregateId) (w : ForeignPointerWidth)
    : walk (list ForeignLeaf) :=
  ls ← map_err Failed (layouts t w);
  collect_leaves (S (length (entries t))) t w ls id 0.

(** ** Signatures and imports *)

Inductive ForeignTypeSpec :=
| Spec_Scalar (ty : ForeignType)
| Spec_Aggregate (id : ForeignAggregateId).

Definition AGGREGATE_TAG : byte := x0e.

Definition spec_tag (s : ForeignTypeSpec) : byte :=
  match s with Spec_Scalar ty => ForeignType_tag ty | Spec_Aggregate _ => AGGREGATE_TAG end.

Definition spec_scalar (s : ForeignTypeSpec) : option ForeignType :=
  match s with Spec_Scalar ty => Some ty | Spec_Aggregate _ => None end.

Definition spec_aggregate (s : ForeignTypeSpec) : option ForeignAggregateId :=
  match s with Spec_Scalar _ => None | Spec_Aggregate id => Some id end.

Record ForeignSignature := {
  parameters : list ForeignTypeSpec;
  sig_result : ForeignTypeSpec;
  retained : list bool
}.

Definition ForeignSignature_new (ps : list ForeignTypeSpec) (r : ForeignTypeSpec) : ForeignSignature :=
  {| parameters := ps; sig_result := r; retained := [] |}.

(** Records the callee's retained parameters; flags that do not match the
    parameters one for one, or mark none, are discarded. *)
Definition with_retained (s : ForeignSignature) (flags : list bool) : ForeignSignature :=
  if bool_decide (length flags = length (parameters s)) && existsb id flags
  then {| parameters := parameters s; sig_result := sig_result s; retained := flags |}
  else s.

Definition is_retained (s : ForeignSignature) (index : nat) : bool :=
  default false (retained s !! index).

Definition any_retained (s : ForeignSignature) : bool :=
  match retained s with [] => false | _ :: _ => true end.

(** The positions of the set flags, counted from [index]. *)
Fixpoint set_positions (index : nat) (flags : list bool) : list nat :=
  match flags with
  | [] => []
  | kept :: flags => (if kept : bool then [index] else []) ++ set_positions (S index) flags
  end.

Definition retained_positions (s : ForeignSignature) : list nat := set_positions 0 (retained s).

Definition has_aggregate (s : ForeignSignature) : bool :=
  bool_decide (is_Some (spec_aggregate (sig_result s))) ||
  existsb (fun p => bool_decide (is_Some (spec_aggregate p))) (parameters s).

Record ForeignImport := {
  library : rstring;
  symbol : rstring;
  abi : ForeignAbi;
  signature : ForeignSignature
}.

Definition ForeignImport_new (l s : rstring) (a : ForeignAbi) (sg : ForeignSignature) : ForeignImport :=
  {| library := l; symbol := s; abi := a; signature := sg |}.

(** [retain_parameters]: the decoder's half of [with_retained]. *)
Definition retain_parameters (i : ForeignImport) (flags : list bool) : ForeignImport :=
  {| library := library i; symbol := symbol i; abi := abi i;
     signature := with_retained (signature i) flags |}.

Record ForeignCallback := {
  cb_function : Z;
  cb_signature : ForeignSignature
}.

Definition ForeignCallback_new (f : Z) (s : ForeignSignature) : ForeignCallback :=
  {| cb_function := f; cb_signature := s |}.

(** ** Arithmetic of layouts *)

#[local] Ltac Zify.zify_post_hook ::= Z.to_euclidean_division_equations.

(** The alignments C gives the seam's scalars. *)
Definition align_ok (a : Z) : Prop := a = 1 \/ a = 2 \/ a = 4 \/ a = 8.

(** A C layout: a power-of-two alignment, and a size that is a multiple of it. *)
Definition layout_ok (l : ForeignLayout) : Prop :=
  align_ok (align l) /\ 0 <= size l < 2 ^ 32 /\ size l mod align l = 0.

Lemma align_ok_positive a : align_ok a -> 0 < a.
Proof. unfold align_ok. lia. Qed.

Lemma align_ok_max a b : align_ok a -> align_ok b -> align_ok (Z.max a b).
Proof. unfold align_ok. lia. Qed.

(** A smaller alignment divides a larger one. *)
Lemma align_ok_divides a b z : align_ok a -> align_ok b -> a <= b -> z mod b = 0 -> z mod a = 0.
Proof. unfold align_ok. intros [->|[->|[->| ->]]] [->|[->|[->| ->]]]; lia. Qed.

#[local] Ltac Zify.zify_post_hook ::= idtac.

Lemma mod_add_0 x y a : 0 < a -> x mod a = 0 -> y mod a = 0 -> (x + y) mod a = 0.
Proof. intros Ha Hx Hy. by rewrite Z.add_mod, Hx, Hy by lia. Qed.

Lemma mod_mul_0 x k a : 0 < a -> x mod a = 0 -> (x * k) mod a = 0.
Proof. intros Ha Hx. by rewrite Z.mul_mod, Hx by lia. Qed.

Lemma u32_checked_Some v r : u32_checked v = Some r <-> r = v /\ v < 2 ^ 32.
Proof. unfold u32_checked. case_decide; split; [by intros [= <-]|by intros [-> _]|done|lia]. Qed.

Lemma round_up_Some v a r :
  align_ok a -> 0 <= v -> round_up v a = Some r -> v <= r < v + a /\ r mod a = 0 /\ r < 2 ^ 32.
Proof.
  intros Ha Hv. unfold round_up.
  destruct (u32_checked (v + (a - 1))) as [z|] eqn:E; [|done]. apply u32_checked_Some in E as [-> Hlt].
  cbn. intros [= <-]. pose proof (align_ok_positive a Ha).
  pose proof (Z.mod_pos_bound (v + (a - 1)) a ltac:(lia)). split; [lia|]. split; [|lia].
  rewrite Zminus_mod, Z.mod_mod, Z.sub_diag by lia. apply Z.mod_0_l. lia.
Qed.

Lemma scalar_layout_ok ty w : layout_ok (scalar_layout ty w).
Proof. destruct ty, w; vm_compute; intuition congruence. Qed.

(** ** The layout pass *)

Section pass.
Variables (w : ForeignPointerWidth).

Definition layouts_ok (ls : list ForeignLayout) : Prop := Forall layout_ok ls.

Lemma lookup_layout_ok ls i l : layouts_ok ls -> ls !! i = Some l -> layout_ok l.
Proof. intros H. by apply Forall_lookup_1. Qed.

Lemma element_layout_ok e c ls l : layouts_ok ls -> element_layout e c w ls = Ok l -> layout_ok l.
Proof.
  intros Hls. unfold element_layout, ok_or. destruct e as [ty|id]; [intros [= <-]; apply scalar_layout_ok|].
  destruct (ls !! Z.to_nat id) eqn:E; [|done]. intros [= <-]. by eapply lookup_layout_ok.
Qed.

(** A member the source can describe: its ids and extents are unsigned. *)
Definition element_ok (e : ForeignArrayElement) : Prop :=
  match e with Elem_Scalar _ => True | Elem_Aggregate id => 0 <= id end.

Definition member_ok (m : ForeignMember) : Prop :=
  match m with
  | Member_Scalar _ => True
  | Member_Aggregate id => 0 <= id
  | Member_Array e count => element_ok e /\ 0 <= count
  end.

Lemma member_layout_ok m c ls l :
  member_ok m -> layouts_ok ls -> member_layout m c w ls = Ok l -> layout_ok l.
Proof.
  intros Hm Hls. destruct m as [ty|id|e count]; cbn.
  - intros [= <-]. apply scalar_layout_ok.
  - unfold ok_or. destruct (ls !! Z.to_nat id) eqn:E; [|done]. intros [= <-]. by eapply lookup_layout_ok.
  - destruct (element_layout e c w ls) as [le|] eqn:E; [|done]. cbn.
    destruct (u32_checked (size le * count)) as [z|] eqn:Ez; [|done]. apply u32_checked_Some in Ez as [-> Hz].
    intros [= <-]. apply element_layout_ok in E as (Ha & Hs & Hm0); [|done]. simpl in Hm.
    split_and!; simpl; [done|nia|done|]. apply mod_mul_0; [by apply align_ok_positive|done].
Qed.

(** Layouts of a shorter table agree with those of a longer one. *)
Lemma element_layout_mono e c ls ls' l :
  element_layout e c w ls = Ok l -> ls `prefix_of` ls' -> element_layout e c w ls' = Ok l.
Proof.
  intros H Hp. destruct e as [ty|id]; [done|]. cbn in *. unfold ok_or in *.
  destruct (ls !! Z.to_nat id) eqn:E; [|done]. by rewrite (prefix_lookup_Some _ _ _ _ E Hp).
Qed.

Lemma member_layout_mono m c ls ls' l :
  member_layout m c w ls = Ok l -> ls `prefix_of` ls' -> member_layout m c w ls' = Ok l.
Proof.
  intros H Hp. destruct m as [ty|id|e count]; [done| |].
  - cbn in *. unfold ok_or in *.
    destruct (ls !! Z.to_nat id) eqn:E; [|done]. by rewrite (prefix_lookup_Some _ _ _ _ E Hp).
  - cbn in *. destruct (element_layout e c w ls) eqn:E; [|done].
    by rewrite (element_layout_mono _ _ _ _ _ E Hp).
Qed.

Lemma place_members_mono i ls ls' ms sz al p :
  place_members i w ls ms sz al = Ok p -> ls `prefix_of` ls' -> place_members i w ls' ms sz al = Ok p.
Proof.
  intros H Hp. revert sz al H. induction ms as [|m ms IH]; intros sz al H; [done|]. cbn in *.
  destruct (member_layout m i w ls) eqn:E; [|done]. rewrite (member_layout_mono _ _ _ _ _ E Hp).
  cbn in *. destruct (ok_or _ _); [|done]. cbn in *. by apply IH.
Qed.

(** What placing one member establishes. *)
Lemma place_step i ls m ms sz al p :
  member_ok m -> layouts_ok ls -> 0 <= sz ->
  place_members i w ls (m :: ms) sz al = Ok p ->
  exists l at_, member_layout m i w ls = Ok l /\ layout_ok l /\ round_up sz (align l) = Some at_ /\
    sz <= at_ < sz + align l /\ at_ mod align l = 0 /\ at_ + size l < 2 ^ 32 /\
    place_members i w ls ms (at_ + size l) (Z.max al (align l)) = Ok p.
Proof.
  intros Hm Hls Hsz H. cbn in H. destruct (member_layout m i w ls) as [l|] eqn:E; [|done]. cbn in H.
  pose proof (member_layout_ok _ _ _ _ Hm Hls E) as Hl. destruct Hl as (Ha & Hs & Hd).
  destruct (round_up sz (align l)) as [at_|] eqn:Er; [|done].
  pose proof (round_up_Some _ _ _ Ha Hsz Er) as (? & ? & ?).
  cbn in H. destruct (u32_checked (at_ + size l)) as [z|] eqn:Ez; [|done].
  apply u32_checked_Some in Ez as [-> ?]. cbn in H.
  exists l, at_. split_and!; try done; try lia.
Qed.

Lemma place_members_ok i ls ms sz al p :
  Forall member_ok ms -> layouts_ok ls -> 0 <= sz < 2 ^ 32 -> align_ok al ->
  place_members i w ls ms sz al = Ok p -> sz <= p.1 < 2 ^ 32 /\ align_ok p.2 /\ al <= p.2.
Proof.
  intros Hms Hls. revert sz al. induction Hms as [|m ms Hm Hms IH]; intros sz al Hsz Hal H.
  - injection H as <-. split_and!; try done; simpl; lia.
  - apply place_step in H as (l & at_ & E & (Ha & Hs & Hd) & Er & ? & ? & ? & H); [|done|done|lia].
    pose proof (align_ok_positive _ Ha).
    apply IH in H as (? & ? & ?); [|lia|by apply align_ok_max]. split_and!; [lia|lia|done|lia].
Qed.

Lemma layout_entry_ok i ls a l :
  Forall member_ok (members a) -> layouts_ok ls -> layout_entry i w ls a = Ok l ->
  layout_ok l /\ 1 <= size l /\
  exists sz, place_members i w ls (members a) 0 1 = Ok (sz, align l) /\ 0 <= sz <= size l.
Proof.
  intros Hms Hls. unfold layout_entry.
  destruct (place_members i w ls (members a) 0 1) as [[sz al]|] eqn:E; [|done]. cbn.
  pose proof E as Hp. apply place_members_ok in Hp as (? & Hal & _); [|done|done|lia|by left]. simpl in *.
  destruct (round_up (Z.max sz 1) al) as [r|] eqn:Er; [|done].
  apply round_up_Some in Er as (? & ? & ?); [|done|lia]. cbn. intros [= <-]. simpl.
  split; [split_and!; simpl; [done|lia|lia|done]|]. split; [lia|]. exists sz. split; [done|lia].
Qed.

(** Every row's layout comes from the rows below it. *)
Lemma layouts_from_rows n es ls ls' :
  Forall (fun a => Forall member_ok (members a)) es -> layouts_ok ls -> length ls = n ->
  layouts_from n w es ls = Ok ls' ->
  ls `prefix_of` ls' /\ layouts_ok ls' /\ length ls' = (n + length es)%nat /\
  forall i a, es !! i = Some a -> exists l, ls' !! (n + i)%nat = Some l /\ 1 <= size l /\
    layout_entry (uwrap 32 (Z.of_nat (n + i))) w (take (n + i) ls') a = Ok l.
Proof.
  intros Hes. revert n ls. induction Hes as [|a es Ha Hes IH]; intros n ls Hls Hn H; cbn in H.
  - injection H as <-. split_and!; [done|done|simpl; lia|]. done.
  - destruct (layout_entry (uwrap 32 (Z.of_nat n)) w ls a) as [l|] eqn:E; [|done]. cbn in H.
    pose proof (layout_entry_ok _ _ _ _ Ha Hls E) as (Hl & Hpos & _).
    apply IH in H as (Hp & Hok & Hlen & Hrows);
      [|apply Forall_app; split; [done|by apply Forall_singleton]|rewrite length_app; simpl; lia].
    destruct Hp as [z Hz]. rewrite <- app_assoc in Hz. simpl in Hz.
    split_and!; [by exists (l :: z)|done|simpl; lia|].
    intros [|i] b Hb; simpl in Hb.
    + injection Hb as <-. exists l. rewrite Nat.add_0_r, Hz, lookup_app_r, Hn, Nat.sub_diag by lia.
      split_and!; [done|done|]. by rewrite take_app_length'.
    + replace (n + S i)%nat with (S n + i)%nat by lia. by apply Hrows.
Qed.
End pass.

(** A table whose ids and extents are unsigned, as every [u32] is. *)
Definition table_words_ok (t : ForeignAggregates) : Prop :=
  Forall (fun a => Forall member_ok (members a)) (entries t).

Lemma layouts_rows t w ls :
  table_words_ok t -> layouts t w = Ok ls ->
  layouts_ok ls /\ length ls = length (entries t) /\
  forall i a, entries t !! i = Some a -> exists l, ls !! i = Some l /\ 1 <= size l /\
    layout_entry (uwrap 32 (Z.of_nat i)) w (take i ls) a = Ok l.
Proof.
  intros He H. by apply layouts_from_rows in H as (_ & ? & ? & ?); [|done|constructor|done].
Qed.

(** ** Where members land *)

(** The container is only ever named in errors. *)
Lemma member_layout_container m c c' w ls l :
  member_layout m c w ls = Ok l -> member_layout m c' w ls = Ok l.
Proof.
  destruct m as [ty|id|e count]; cbn; [done| |].
  - unfold ok_or. by destruct (ls !! Z.to_nat id).
  - destruct e as [ty|id]; cbn; [by destruct (u32_checked _)|].
    unfold ok_or. destruct (ls !! Z.to_nat id); cbn; [by destruct (u32_checked _)|done].
Qed.

(** [offs] places the members [ms] one after another in [lo, hi): each at a
    multiple of its alignment, none overlapping the one before. *)
Fixpoint members_within (w : ForeignPointerWidth) (ls : list ForeignLayout) (lo hi : Z)
    (ms : list ForeignMember) (offs : list Z) : Prop :=
  match ms, offs with
  | [], [] => lo <= hi
  | m :: ms, o :: offs => exists l, member_layout m 0 w ls = Ok l /\
      lo <= o /\ o mod align l = 0 /\ members_within w ls (o + size l) hi ms offs
  | _, _ => False
  end.

Lemma members_within_weaken w ls lo hi hi' ms offs :
  members_within w ls lo hi ms offs -> hi <= hi' -> members_within w ls lo hi' ms offs.
Proof.
  revert lo offs. induction ms as [|m ms IH]; intros lo [|o offs] H Hh; try done; simpl in *; [lia|].
  destruct H as (l & ? & ? & ? & ?). eauto 8.
Qed.

Lemma offsets_from_ok w i c pre ls ms sz al p :
  Forall member_ok ms -> layouts_ok ls -> pre `prefix_of` ls -> 0 <= sz ->
  place_members i w pre ms sz al = Ok p ->
  exists offs, offsets_from c w ls ms sz = Ok offs /\ members_within w ls sz p.1 ms offs.
Proof.
  intros Hms Hls Hpre Hsz H. apply (place_members_mono w i pre ls) in H; [|done]. clear pre Hpre.
  revert sz al Hsz H. induction Hms as [|m ms Hm Hms IH]; intros sz al Hsz H.
  - injection H as <-. exists []. simpl. split; [done|lia].
  - apply place_step in H as (l & at_ & E & (_ & Hs & _) & Er & Hat & Hmod & Hlt & Hp); [|done..].
    apply IH in Hp as (offs & E' & Hw); [|lia].
    exists (at_ :: offs). cbn. rewrite (member_layout_container _ _ c _ _ _ E). cbn. rewrite Er. cbn.
    unfold u32_checked. rewrite decide_True by done. cbn. rewrite E'. split; [done|].
    exists l. split; [by eapply member_layout_container|]. split_and!; [lia|done|done].
Qed.

(** ** Where leaves land *)

(** [lv] are scalars one after another in [lo, hi): each at a multiple of its
    alignment, none overlapping the one before. *)
Fixpoint leaves_within (w : ForeignPointerWidth) (lo hi : Z) (lv : list ForeignLeaf) : Prop :=
  match lv with
  | [] => lo <= hi
  | l :: lv =>
    lo <= offset l /\ offset l mod align (scalar_layout (leaf_ty l) w) = 0 /\
    leaves_within w (offset l + size (scalar_layout (leaf_ty l) w)) hi lv
  end.

Lemma leaves_within_app w lo mid mid' hi lv lv' :
  leaves_within w lo mid lv -> mid <= mid' -> leaves_within w mid' hi lv' ->
  leaves_within w lo hi (lv ++ lv').
Proof.
  revert lo. induction lv as [|l lv IH]; intros lo H Hm H'; simpl in *.
  - assert (lo <= mid') as Hlo by lia. clear H Hm. destruct lv' as [|l lv']; simpl in *; [lia|].
    destruct H' as (? & ? & ?). split_and!; [lia|done|done].
  - destruct H as (? & ? & ?). split_and!; [done|done|by apply IH].
Qed.

Lemma leaves_within_one w at_ ty :
  at_ mod align (scalar_layout ty w) = 0 ->
  leaves_within w at_ (at_ + size (scalar_layout ty w)) [{| offset := at_; leaf_ty := ty |}].
Proof. intros H. cbn. split_and!; [lia|done|lia]. Qed.

Section walk_ok.
Variables (self : ForeignAggregateId -> Z -> walk (list ForeignLeaf)).
Variables (id : Z) (w : ForeignPointerWidth) (pre ls : list ForeignLayout) (base : Z).
Hypothesis (Hpre : pre `prefix_of` ls).
Hypothesis (Hls : layouts_ok ls).
Hypothesis (Hbase : 0 <= base).
(** The recursive call is right on every aggregate below this one. *)
Hypothesis (Hself : forall nested l b,
  pre !! Z.to_nat nested = Some l -> 0 <= nested -> 0 <= b -> b mod align l = 0 -> b + size l < 2 ^ 32 ->
  exists lv, self nested b = Ok lv /\ leaves_within w b (b + size l) lv).

Lemma checked_Ok v : v < 2 ^ 32 -> checked id (u32_checked v) = Ok v.
Proof. intros H. unfold checked, u32_checked. by rewrite decide_True. Qed.

Lemma element_leaves_ok e l off n step :
  element_ok e -> element_layout e id w pre = Ok l -> layout_ok l ->
  0 <= off -> 0 <= step -> (base + off) mod align l = 0 ->
  base + off + size l * (step + Z.of_nat n) < 2 ^ 32 ->
  exists lv, element_leaves self id base e (size l) off n step = Ok lv /\
    leaves_within w (base + off + size l * step) (base + off + size l * (step + Z.of_nat n)) lv.
Proof.
  intros He Hl (Ha & Hs & Hm) Hoff. revert step. induction n as [|n IH]; intros step Hstep Hal Hlt.
  - exists []. simpl. split; [done|]. rewrite Z.add_0_r. lia.
  - destruct (IH (step + 1)) as (rest & Er & Hr); [lia|done|nia|].
    assert (base + off + size l * step + size l < 2 ^ 32) as Hfit by nia.
    assert ((base + off + size l * step) mod align l = 0) as Hat.
    { apply mod_add_0; [by apply align_ok_positive|done|]. apply mod_mul_0; [by apply align_ok_positive|done]. }
    assert (exists here, (match e with
        | Elem_Scalar ty => Ok [{| offset := base + off + size l * step; leaf_ty := ty |}]
        | Elem_Aggregate nested => self nested (base + off + size l * step) end) = Ok here /\
      leaves_within w (base + off + size l * step) (base + off + size l * step + size l) here) as (here & Eh & Hh).
    { destruct e as [ty|nested]; cbn in Hl.
      - injection Hl as <-. eexists; split; [done|]. by apply leaves_within_one.
      - destruct (pre !! Z.to_nat nested) as [l'|] eqn:En; [|done]. injection Hl as <-.
        apply (Hself nested l'); [done|done|nia|done|lia]. }
    exists (here ++ rest). cbn.
    unfold u32_checked. rewrite (decide_True (P := base + off < _)) by nia. cbn.
    rewrite (decide_True (P := size l * step < _)) by nia. cbn. rewrite decide_True by lia. cbn.
    rewrite Eh. cbn. rewrite Er. split; [done|].
    eapply leaves_within_app; [exact Hh| |].
    2: { replace (step + Z.of_nat (S n)) with (step + 1 + Z.of_nat n) by lia. exact Hr. }
    lia.
Qed.

Lemma member_leaves_ok m c l off at_ A :
  member_ok m -> member_layout m c w pre = Ok l -> 0 <= off -> round_up off (align l) = Some at_ ->
  align_ok A -> align l <= A -> base mod A = 0 -> base + at_ + size l < 2 ^ 32 ->
  exists lv, member_leaves self id w ls base m off = Ok (lv, at_ + size l) /\
    leaves_within w (base + at_) (base + at_ + size l) lv.
Proof.
  intros Hm Hl Hoff Hr HA HlA HbA Hfit.
  pose proof (member_layout_mono w _ _ _ _ _ Hl Hpre) as Hl'.
  pose proof (member_layout_ok w _ _ _ _ Hm Hls Hl') as (Ha & Hs & Hd).
  pose proof (round_up_Some _ _ _ Ha Hoff Hr) as (Hat & Hat0 & _).
  assert ((base + at_) mod align l = 0) as Hal.
  { apply mod_add_0; [by apply align_ok_positive|by apply (align_ok_divides _ A)|done]. }
  destruct m as [ty|nested|e count].
  - injection Hl as <-. eexists. unfold member_leaves. rewrite Hr. cbn [checked ok_or mbind result_bind].
    rewrite !checked_Ok by lia. split; [done|]. by apply leaves_within_one.
  - cbn in Hl. destruct (pre !! Z.to_nat nested) as [l'|] eqn:En; [|done]. injection Hl as ->.
    destruct (Hself nested l (base + at_)) as (lv & Es & Hlv); [done|done|lia|done|lia|].
    exists lv. unfold member_leaves. rewrite (prefix_lookup_Some _ _ _ _ En Hpre).
    cbn [ok_or mbind result_bind]. rewrite Hr. cbn [checked ok_or mbind result_bind].
    rewrite !checked_Ok by lia. cbn [mbind result_bind]. by rewrite Es.
  - destruct Hm as [He Hc]. unfold member_leaves.
    rewrite (member_layout_container _ _ id _ _ _ Hl'). cbn in Hl.
    destruct (element_layout e c w pre) as [le|] eqn:Ee; [|done]. cbn in Hl.
    destruct (u32_checked (size le * count)) as [z|] eqn:Ez; [|done]. injection Hl as <-.
    apply u32_checked_Some in Ez as [-> Hz]. cbn [size align] in *.
    assert (element_layout e id w pre = Ok le) as Ee'.
    { destruct e as [ty|nd]; [done|]. cbn in *. by destruct (pre !! Z.to_nat nd). }
    rewrite (element_layout_mono w _ _ _ _ _ Ee' Hpre).
    pose proof (element_layout_ok w _ _ _ _ Hls (element_layout_mono w _ _ _ _ _ Ee' Hpre)) as Hle.
    cbn [map_err mbind result_bind size align]. rewrite Hr. cbn [checked ok_or mbind result_bind].
    destruct (element_leaves_ok e le at_ (Z.to_nat count) 0) as (lv & El & Hlv);
      [done|done|done|lia|lia|done|rewrite Z.add_0_l, Z2Nat.id by done; lia|].
    rewrite El, checked_Ok by lia. exists lv. split; [done|].
    rewrite Z.mul_0_r, Z.add_0_r, Z.add_0_l, Z2Nat.id in Hlv by done. done.
Qed.

Lemma members_leaves_ok i ms off al p :
  Forall member_ok ms -> layouts_ok pre -> 0 <= off < 2 ^ 32 -> align_ok al ->
  place_members i w pre ms off al = Ok p ->
  base mod p.2 = 0 -> base + p.1 < 2 ^ 32 ->
  exists lv, members_leaves self id w ls base ms off = Ok lv /\
    leaves_within w (base + off) (base + p.1) lv.
Proof.
  intros Hms Hpok. revert off al. induction Hms as [|m ms Hm Hms IH]; intros off al Hoff Hal H HA Hfit.
  - injection H as <-. exists []. simpl in *. split; [done|lia].
  - pose proof H as Hall. apply place_members_ok in Hall as (Hp1 & HpA & _); [|by constructor|done|done|done].
    apply place_step in H as (l & at_ & E & (Ha & Hs & Hd) & Er & Hat & Hmod & Hlt & Hp); [|done|done|lia].
    pose proof Hp as Hrest. apply place_members_ok in Hrest as (Hp1' & _ & Hmax);
      [|done|done|lia|by apply align_ok_max].
    destruct (member_leaves_ok m i l off at_ p.2) as (lv & El & Hlv); [done|done|lia|done|done|lia|done|lia|].
    destruct (IH (at_ + size l) (Z.max al (align l))) as (rest & Er' & Hr); [lia|by apply align_ok_max|done|done|done|].
    exists (lv ++ rest). cbn. rewrite El. cbn. rewrite Er'. split; [done|].
    apply (leaves_within_app w _ (base + at_ + size l) (base + (at_ + size l))); [|lia|done].
    by apply (leaves_within_app w _ (base + off) (base + at_) _ []); [simpl; lia|lia|].
Qed.
End walk_ok.

Lemma prefix_take {A} n (l : list A) : take n l `prefix_of` l.
Proof. exists (drop n l). by rewrite take_drop. Qed.

Lemma lookup_take_lt {A} (l : list A) n i x : take n l !! i = Some x -> l !! i = Some x /\ (i < n)%nat.
Proof. intros H. apply lookup_take_Some in H as [? ?]. done. Qed.

(** The walk from any aggregate of a table with a layout: fuel above its index
    is enough, and its leaves fill its own bytes. *)
Lemma collect_leaves_ok t w ls fuel : table_words_ok t -> layouts t w = Ok ls ->
  forall i l base, ls !! i = Some l -> (i < fuel)%nat ->
  0 <= base -> base mod align l = 0 -> base + size l < 2 ^ 32 ->
  exists lv, collect_leaves fuel t w ls (Z.of_nat i) base = Ok lv /\
    leaves_within w base (base + size l) lv.
Proof.
  intros Hw H. pose proof (layouts_rows t w ls Hw H) as (Hls & Hlen & Hrows).
  induction fuel as [|fuel IH]; intros i l base Hl Hf Hb Hal Hfit; [lia|].
  destruct (lookup_lt_is_Some_2 (entries t) i) as [a Ha].
  { rewrite <- Hlen. by eapply lookup_lt_Some. }
  destruct (Hrows i a Ha) as (l' & Hl' & Hpos & He). rewrite Hl in Hl'; injection Hl' as <-.
  assert (Forall member_ok (members a)) as Hms by (by eapply Forall_lookup_1 in Hw).
  assert (layouts_ok (take i ls)) as Hpre by (by apply Forall_take).
  apply layout_entry_ok in He as (_ & _ & sz & Hp & Hsz); [|done..].
  cbn [collect_leaves]. unfold get. rewrite Nat2Z.id, Ha. cbn [ok_or mbind result_bind].
  destruct (members_leaves_ok (collect_leaves fuel t w ls) (Z.of_nat i) w (take i ls) ls base
    (prefix_take i ls) Hls Hb) with (i := uwrap 32 (Z.of_nat i)) (ms := members a) (off := 0) (al := 1)
    (p := (sz, align l)) as (lv & E & Hlv); try done; simpl; try lia; [|by left|].
  - intros nested ln b [Hn Hlt]%lookup_take_lt H0 Hb0 Hb1 Hb2.
    rewrite <- (Z2Nat.id nested) by done. apply IH; [done|lia|done..].
  - exists lv. split; [done|]. rewrite Z.add_0_r in Hlv.
    rewrite <- (app_nil_r lv). apply (leaves_within_app w _ (base + sz) (base + sz)); simpl; [done|lia|lia].
Qed.

(** ** Building a table *)

Fixpoint push_all (t : ForeignAggregates) (xs : list ForeignAggregate)
    : result ForeignAggregateError ForeignAggregates :=
  match xs with
  | [] => Ok t
  | a :: xs => p ← push t a; push_all p.1 xs
  end.

(** Every member refers below its own row. *)
Definition refs_below (t : ForeignAggregates) : Prop :=
  forall i a m id, entries t !! i = Some a -> m ∈ members a -> member_reference m = Some id ->
    id < Z.of_nat i.

Lemma forward_reference_None index ms m id :
  forward_reference index ms = None -> m ∈ ms -> member_reference m = Some id -> id < index.
Proof.
  induction ms as [|m' ms IH]; intros H Hm Hid; [by apply not_elem_of_nil in Hm|]. cbn in H.
  apply elem_of_cons in Hm as [->|Hm].
  - rewrite Hid in H. case_decide; [done|lia].
  - destruct (member_reference m'); [case_decide; [done|]|]; auto.
Qed.

Lemma uwrap_le w n : 0 <= n -> 0 <= w -> uwrap w n <= n.
Proof. intros. unfold uwrap. apply Z.mod_le; lia. Qed.

Lemma push_refs_below t a t' id : refs_below t -> push t a = Ok (t', id) -> refs_below t'.
Proof.
  intros Ht. unfold push. destruct (forward_reference _ _) eqn:E; [done|]. intros [= <- <-].
  intros i b m r Hb Hm Hr. cbn in Hb. apply lookup_app_Some in Hb as [Hb|[Hge Hb]]; [eauto|].
  destruct (i - length (entries t))%nat as [|[]] eqn:Ei; simplify_eq/=.
  pose proof (forward_reference_None _ _ _ _ E Hm Hr).
  pose proof (uwrap_le 32 (Z.of_nat (length (entries t))) ltac:(lia) ltac:(lia)). lia.
Qed.

Lemma push_all_refs_below xs t t' : refs_below t -> push_all t xs = Ok t' -> refs_below t'.
Proof.
  revert t. induction xs as [|a xs IH]; intros t Ht; cbn; [by intros [= <-]|].
  destruct (push t a) as [[t1 id]|] eqn:E; [|done]. cbn. apply IH. by eapply push_refs_below.
Qed.

Definition only_too_large {A} (r : result ForeignAggregateError A) : Prop :=
  match r with Ok _ => True | Err (TooLarge _) => True | Err _ => False end.

Lemma member_layout_total m c w ls :
  member_ok m -> (forall id, member_reference m = Some id -> id < Z.of_nat (length ls)) ->
  only_too_large (member_layout m c w ls).
Proof.
  intros Hm Hr. destruct m as [ty|id|e count]; cbn in *; [done| |].
  - specialize (Hr id eq_refl). destruct (lookup_lt_is_Some_2 ls (Z.to_nat id)) as [l ->]; [lia|done].
  - destruct Hm as [He Hc]. destruct e as [ty|id]; cbn in *; [by destruct (u32_checked _)|].
    specialize (Hr id eq_refl). destruct (lookup_lt_is_Some_2 ls (Z.to_nat id)) as [l ->]; [lia|].
    cbn. by destruct (u32_checked _).
Qed.

Lemma place_members_total i w ls ms sz al :
  Forall member_ok ms -> (forall m id, m ∈ ms -> member_reference m = Some id -> id < Z.of_nat (length ls)) ->
  only_too_large (place_members i w ls ms sz al).
Proof.
  intros Hms Hr. revert sz al. induction Hms as [|m ms Hm Hms IH]; intros sz al; [done|]. cbn.
  pose proof (member_layout_total m i w ls Hm) as Hl.
  destruct (member_layout m i w ls); cbn; [|apply Hl; intros; apply (Hr m); [by left|done]].
  destruct (ok_or _ _) as [z|e] eqn:E; cbn.
  - apply IH. intros m' id Hm'. apply Hr. by right.
  - unfold ok_or in E. destruct (_ ≫= _) in E; [done|]. by injection E as <-.
Qed.

(** A table built by [push] always has its layout computed: the pass never
    meets a reference it cannot resolve, and the only way it can fail is an
    aggregate whose size does not fit 32 bits. *)
Theorem layouts_only_too_large (xs : list ForeignAggregate) (t : ForeignAggregates)
    (w : ForeignPointerWidth) :
  push_all ForeignAggregates_new xs = Ok t -> table_words_ok t -> only_too_large (layouts t w).
Proof.
  intros Hp Hw. assert (refs_below t) as Hr by (by eapply push_all_refs_below in Hp). clear Hp.
  unfold layouts, table_words_ok, refs_below in *.
  assert (forall n ls es, length ls = n -> drop n (entries t) = es ->
    only_too_large (layouts_from n w es ls)) as Hgo; [|by apply (Hgo 0%nat)].
  intros n ls es. revert n ls. induction es as [|a es IH]; intros n ls Hn He; [done|]. cbn.
  assert (entries t !! n = Some a) as Ha.
  { rewrite <- (Nat.add_0_r n), <- lookup_drop, He. done. }
  unfold layout_entry.
  pose proof (place_members_total (uwrap 32 (Z.of_nat n)) w ls (members a) 0 1) as Hpl.
  destruct (place_members (uwrap 32 (Z.of_nat n)) w ls (members a) 0 1) as [p|e]; cbn.
  2: { apply Hpl; [by eapply Forall_lookup_1 in Hw|]. intros m id Hm Hid. rewrite Hn. eauto. }
  destruct (ok_or _ _) as [z|e] eqn:E; cbn.
  - apply IH; [rewrite length_app; simpl; lia|].
    replace (S n) with (n + 1)%nat by lia. by rewrite <- drop_drop, He.
  - unfold ok_or in E. destruct (round_up _ _); [done|]. by injection E as <-.
Qed.

(** A pair, an array of three of them, and the struct that holds both. *)
Definition pair_aggregate : ForeignAggregate :=
  {| members := [Member_Scalar ForeignType_I8; Member_Scalar ForeignType_F64] |}.
Definition holder_aggregate : ForeignAggregate :=
  {| members := [Member_Scalar ForeignType_Bool; Member_Array (Elem_Aggregate 0) 3;
                 Member_Aggregate 0; Member_Scalar ForeignType_RawPtr] |}.
Definition example_table : ForeignAggregates :=
  {| entries := [pair_aggregate; holder_aggregate] |}.

Lemma example_table_words : table_words_ok example_table.
Proof. repeat constructor; simpl; lia. Qed.

Lemma layouts_only_too_large_witness : only_too_large (layouts example_table Bits32).
Proof.
  exact (layouts_only_too_large [pair_aggregate; holder_aggregate] example_table Bits32
    eq_refl example_table_words).
Defined.

(** Whenever the layout pass succeeds it yields a C layout for every row:
    one per aggregate, with an alignment of 1, 2, 4 or 8, a size of at least
    one byte that fits 32 bits and is a multiple of the alignment. *)
Theorem layouts_are_c_layouts (t : ForeignAggregates) (w : ForeignPointerWidth) (ls : list ForeignLayout) :
  table_words_ok t -> layouts t w = Ok ls ->
  length ls = length (entries t) /\ Forall (fun l => layout_ok l /\ 1 <= size l) ls.
Proof.
  intros Hw H. destruct (layouts_rows t w ls Hw H) as (Hok & Hlen & Hrows). split; [done|].
  apply Forall_lookup_2. intros i l Hl. split; [by eapply lookup_layout_ok|].
  destruct (lookup_lt_is_Some_2 (entries t) i) as [a Ha]; [rewrite <- Hlen; by eapply lookup_lt_Some|].
  destruct (Hrows i a Ha) as (l' & Hl' & ? & _). congruence.
Qed.

Lemma layouts_are_c_layouts_witness :
  length [{| size := 16; align := 8 |}; {| size := 80; align := 8 |}] = 2%nat /\
  Forall (fun l => layout_ok l /\ 1 <= size l)
    [{| size := 16; align := 8 |}; {| size := 80; align := 8 |}].
Proof. exact (layouts_are_c_layouts example_table Bits64 _ example_table_words eq_refl). Defined.

(** The members of a laid-out aggregate sit where C puts them: each offset
    is a multiple of its member's alignment, no member overlaps the one before
    it, and all of them end within the aggregate's size. *)
Theorem member_offsets_sound (t : ForeignAggregates) (w : ForeignPointerWidth)
    (ls : list ForeignLayout) (i : nat) (a : ForeignAggregate) (l : ForeignLayout) :
  table_words_ok t -> layouts t w = Ok ls -> entries t !! i = Some a -> ls !! i = Some l ->
  exists offs, member_offsets_of t (Z.of_nat i) w = Ok offs /\
    members_within w ls 0 (size l) (members a) offs.
Proof.
  intros Hw H Ha Hl. destruct (layouts_rows t w ls Hw H) as (Hls & Hlen & Hrows).
  destruct (Hrows i a Ha) as (l' & Hl' & _ & He). rewrite Hl in Hl'; injection Hl' as <-.
  assert (Forall member_ok (members a)) as Hms by (by eapply Forall_lookup_1 in Hw).
  apply layout_entry_ok in He as (_ & _ & sz & Hp & Hsz); [|done|by apply Forall_take].
  apply (offsets_from_ok w _ (Z.of_nat i) _ ls) in Hp as (offs & Ho & Hoffs);
    [|done|done|apply prefix_take|lia].
  exists offs. unfold member_offsets_of, get. rewrite H, Nat2Z.id, Ha. cbn. split; [done|].
  eapply members_within_weaken; [done|]. simpl. lia.
Qed.

Lemma member_offsets_sound_witness :
  exists offs, member_offsets_of example_table 1 Bits64 = Ok offs /\
    members_within Bits64 [{| size := 16; align := 8 |}; {| size := 80; align := 8 |}] 0 80
      (members holder_aggregate) offs.
Proof.
  exact (member_offsets_sound example_table Bits64 _ 1 holder_aggregate {| size := 80; align := 8 |}
    example_table_words eq_refl eq_refl eq_refl).
Defined.

(** C23: the leaf walk that marshalling follows terminates on every aggregate of
    a table that has a layout, never fails, and yields scalars that are each
    aligned for their type, pairwise disjoint in order, and inside the
    aggregate's bytes. *)
Theorem leaves_sound (t : ForeignAggregates) (w : ForeignPointerWidth)
    (ls : list ForeignLayout) (i : nat) (l : ForeignLayout) :
  table_words_ok t -> layouts t w = Ok ls -> ls !! i = Some l ->
  exists lv, leaves_of t (Z.of_nat i) w = Ok lv /\ leaves_within w 0 (size l) lv.
Proof.
  intros Hw H Hl. pose proof (layouts_rows t w ls Hw H) as (Hok & Hlen & _).
  pose proof (lookup_layout_ok _ _ _ Hok Hl) as (Ha & Hs & _).
  unfold leaves_of. rewrite H. cbn [map_err mbind result_bind].
  apply (collect_leaves_ok t w ls _ Hw H i l 0); [done| |lia|apply Z.mod_0_l|lia].
  - rewrite <- Hlen. apply lookup_lt_Some in Hl. lia.
  - pose proof (align_ok_positive _ Ha). lia.
Qed.

Lemma leaves_sound_witness :
  exists lv, leaves_of example_table 1 Bits64 = Ok lv /\ leaves_within Bits64 0 80 lv.
Proof.
  exact (leaves_sound example_table Bits64 _ 1 {| size := 80; align := 8 |}
    example_table_words eq_refl eq_refl).
Defined.

(** ** Retained parameters *)

(** A signature as the constructors build it: the flags are absent, or match the
    parameters one for one and mark at least one. *)
Definition signature_ok (s : ForeignSignature) : Prop :=
  retained s = [] \/ (length (retained s) = length (parameters s) /\ existsb id (retained s) = true).

Lemma with_retained_ok s flags : signature_ok s -> signature_ok (with_retained s flags).
Proof.
  intros Hs. unfold with_retained. destruct (bool_decide _ && existsb id flags) eqn:E; [|done].
  apply andb_true_iff in E as [E1%bool_decide_eq_true E2]. right. done.
Qed.
