(* ===== verification/ModuleFormat.v ===== *)
(** * The module format

    [kira-bytecode/src/module.rs], [module_foreign.rs], [module_release.rs] and
    the table types of [exports.rs]: the serialized module, its writer
    [to_bytes] and its reader [from_bytes] for the current format (KBC2) and
    the previous one (KBC1).

    The appended sections are present or absent as a block: each one forces
    those before it.  [module_roundtrip] is the writer/reader round trip for
    every well-formed module; [from_bytes_wellformed] says whatever the reader
    accepts, in either format, is well formed, so upgrading loses nothing
    ([module_upgrade]); [from_bytes_trailing] and [from_bytes_bad_magic]
    are the reader's framing. *)

From Stdlib Require Import String DecimalString.
From S2P Require Import Prelude Wire AbiOps Instruction Codec Foreign.

Inductive Format := Legacy | Wide.

Definition is_legacy (f : Format) : bool := match f with Legacy => true | Wide => false end.

(** ["KBC2"] and ["KBC1"]. *)
Definition MAGIC : list byte := [x4b; x42; x43; x32].
Definition LEGACY_MAGIC : list byte := [x4b; x42; x43; x31].

Definition NO_ENTRYPOINT : Z := 2 ^ 32 - 1.
Definition NO_ENTRYPOINT_WIDE : Z := 2 ^ 64 - 1.

(** ** The module *)

Inductive Execution := Inherited | Runtime | Native.

#[export] Instance Execution_eq_dec : EqDecision Execution.
Proof. solve_decision. Defined.

Definition Execution_as_byte (e : Execution) : byte :=
  match e with Inherited => x00 | Runtime => x01 | Native => x02 end.

Definition Execution_from_byte (b : byte) : option Execution :=
  match b with
  | x00 => Some Inherited
  | x01 => Some Runtime
  | x02 => Some Native
  | _ => None
  end.

(** [Execution::resolve]: an inherited engine takes the build's default. *)
Definition Execution_resolve (e default : Execution) : Execution :=
  match e with Inherited => default | explicit => explicit end.

Inductive FrameRelease :=
| EveryLocal
| Planned (slots : list Z).

Record FuncProto := {
  f_name : rstring;
  param_count : Z;
  local_count : Z;
  execution : Execution;
  code : list Instruction;
  releases : FrameRelease
}.

Definition is_native (f : FuncProto) : bool := bool_decide (execution f = Native).

Record TypeDescriptorRow := {
  t_name : rstring;
  t_package : rstring;
  t_kind : rstring;
  t_arguments : list Z;
  t_conformances : list rstring
}.

Inductive ExportType :=
| Export_Void
| Export_Int
| Export_Float
| Export_Bool
| Export_String
| Export_Handle (class : Z).

(** The bridge tags an export type is written as. *)
Definition BridgeValueTag_VOID : byte := x00.
Definition BridgeValueTag_INT : byte := x01.
Definition BridgeValueTag_FLOAT : byte := x02.
Definition BridgeValueTag_BOOL : byte := x03.
Definition BridgeValueTag_STRING : byte := x04.
Definition BridgeValueTag_HANDLE : byte := x08.

Definition ExportType_tag (t : ExportType) : byte :=
  match t with
  | Export_Void => BridgeValueTag_VOID
  | Export_Int => BridgeValueTag_INT
  | Export_Float => BridgeValueTag_FLOAT
  | Export_Bool => BridgeValueTag_BOOL
  | Export_String => BridgeValueTag_STRING
  | Export_Handle _ => BridgeValueTag_HANDLE
  end.

Definition class_index (t : ExportType) : Z :=
  match t with Export_Handle class => class | _ => 0 end.

Definition ExportType_from_wire (tag : byte) (class : Z) : option ExportType :=
  let plain ty := if decide (class = 0) then Some ty else None in
  if decide (tag = BridgeValueTag_VOID) then plain Export_Void
  else if decide (tag = BridgeValueTag_INT) then plain Export_Int
  else if decide (tag = BridgeValueTag_FLOAT) then plain Export_Float
  else if decide (tag = BridgeValueTag_BOOL) then plain Export_Bool
  else if decide (tag = BridgeValueTag_STRING) then plain Export_String
  else if decide (tag = BridgeValueTag_HANDLE) then Some (Export_Handle class)
  else None.

Record ModuleExport := {
  e_name : rstring;
  kira_name : rstring;
  e_function : Z;
  e_params : list ExportType;
  e_result : ExportType
}.

Record ExportTable := {
  classes : list rstring;
  e_functions : list ModuleExport
}.

Definition ExportTable_default : ExportTable := {| classes := []; e_functions := [] |}.

Definition ExportTable_is_empty (t : ExportTable) : bool :=
  is_nil (classes t) && is_nil (e_functions t).

(** The source's [Module]. *)
Record Module_ := {
  functions : list FuncProto;
  main : option Z;
  strings : list rstring;
  exports : ExportTable;
  foreign_imports : list ForeignImport;
  foreign_aggregates : ForeignAggregates;
  foreign_callbacks : list ForeignCallback;
  constants : list Z;
  types : list TypeDescriptorRow
}.

Inductive ModuleDecodeError :=
| BadMagic
| Truncated
| LengthTooLarge (value : Z)
| EntrypointTooLarge (index : Z)
| IndexTableTooLarge (table : string) (count : Z)
| InvalidString
| Code (e : DecodeError)
| UnknownExecution (b : byte)
| UncrossableExportType (export : rstring) (tag : byte)
| UnknownForeignAbi (import : rstring) (tag : byte)
| UnknownForeignType (import : rstring) (tag : byte)
| UnknownForeignAggregateMember (index : Z) (tag : byte)
| MalformedForeignAggregate (index : Z) (source : ForeignAggregateError)
| UnknownForeignAggregate (import : rstring) (index : Z)
| UnknownCallbackAggregate (callback : Z) (index : Z)
| ReleaseCountMismatch (functions : Z) (entries : Z)
| RetainedRowMismatch (rows : Z) (imports : nat)
| RetainedOutOfRange (import : rstring) (position : Z) (params : nat)
| DuplicateRetainedPosition (import : rstring) (position : Z)
| ConstantInitOutOfRange (slot : Z) (init : Z) (functions : nat)
| TrailingBytes (count : nat).

(** The functions a module marks with the lifecycle instruction, in order. *)
Fixpoint lifecycles_from (index : nat) (fs : list FuncProto) : list Z :=
  match fs with
  | [] => []
  | f :: fs =>
    match code f with
    | I_MainThreadLifecycle :: _ => [uwrap 32 (Z.of_nat index)]
    | _ => []
    end ++ lifecycles_from (S index) fs
  end.

Definition main_thread_lifecycles (m : Module_) : list Z := lifecycles_from 0 (functions m).

Definition is_main_thread (i : Instruction) : bool :=
  match i with
  | I_MainThreadCall _ _ _ | I_MainThreadJoin | I_MainThreadLifecycle => true
  | _ => false
  end.

Definition uses_main_thread (m : Module_) : bool :=
  existsb (fun f => existsb is_main_thread (code f)) (functions m).

(** ** Writing *)

Definition write_u32 (v : Z) : list byte := to_le 4 v.
Definition write_u64 (v : Z) : list byte := to_le 8 v.
Definition write_count (n : nat) : list byte := write_u64 (Z.of_nat n).
Definition write_bytes (bs : list byte) : list byte := write_count (length bs) ++ bs.

(** A count, then the rows. *)
Definition write_rows {A} (row : A -> list byte) (xs : list A) : list byte :=
  write_count (length xs) ++ (xs ≫= row).

Definition write_function (f : FuncProto) : list byte :=
  write_bytes (f_name f) ++ to_le 8 (param_count f) ++ to_le 8 (local_count f) ++
  Execution_as_byte (execution f) :: write_bytes (encode (code f)).

Definition write_export_type (t : ExportType) : list byte :=
  ExportType_tag t :: write_u32 (class_index t).

Definition write_export (e : ModuleExport) : list byte :=
  write_bytes (e_name e) ++ write_bytes (kira_name e) ++ write_u32 (e_function e) ++
  write_rows write_export_type (e_params e) ++ write_export_type (e_result e).

Definition write_exports (t : ExportTable) (force : bool) : list byte :=
  if ExportTable_is_empty t && negb force then []
  else write_rows write_bytes (classes t) ++ write_rows write_export (e_functions t).

Definition write_spec (s : ForeignTypeSpec) : list byte :=
  spec_tag s :: match spec_aggregate s with Some id => write_u32 id | None => [] end.

Definition write_signature (s : ForeignSignature) : list byte :=
  write_rows write_spec (parameters s) ++ write_spec (sig_result s).

Definition write_import (i : ForeignImport) : list byte :=
  write_bytes (library i) ++ write_bytes (symbol i) ++
  ForeignAbi_tag (abi i) :: write_signature (signature i).

Definition write_foreign (imports : list ForeignImport) : list byte := write_rows write_import imports.

Definition NESTED_MEMBER_TAG : byte := xff.
Definition ARRAY_MEMBER_TAG : byte := xfe.

Definition write_element (e : ForeignArrayElement) : list byte :=
  match e with
  | Elem_Scalar ty => [ForeignType_tag ty]
  | Elem_Aggregate id => NESTED_MEMBER_TAG :: write_u32 id
  end.

Definition write_member (m : ForeignMember) : list byte :=
  match m with
  | Member_Scalar ty => [ForeignType_tag ty]
  | Member_Aggregate id => NESTED_MEMBER_TAG :: write_u32 id
  | Member_Array element count => ARRAY_MEMBER_TAG :: write_element element ++ write_u32 count
  end.

Definition write_foreign_aggregates (t : ForeignAggregates) : list byte :=
  write_rows (fun a => write_rows write_member (members a)) (entries t).

Definition write_callback (c : ForeignCallback) : list byte :=
  write_u32 (cb_function c) ++ write_signature (cb_signature c).

Definition write_foreign_callbacks (cs : list ForeignCallback) : list byte := write_rows write_callback cs.

Definition EVERY_LOCAL_LEGACY : Z := 2 ^ 32 - 1.
Definition EVERY_LOCAL_WIDE : Z := 2 ^ 64 - 1.

Definition write_release (f : FuncProto) : list byte :=
  match releases f with
  | EveryLocal => write_u64 EVERY_LOCAL_WIDE
  | Planned slots => write_rows (to_le 8) slots
  end.

Definition write_releases (fs : list FuncProto) : list byte := write_rows write_release fs.

Definition write_retained (i : ForeignImport) : list byte :=
  write_rows (fun p => write_u32 (Z.of_nat p)) (retained_positions (signature i)).

Definition write_foreign_retained (imports : list ForeignImport) : list byte :=
  write_rows write_retained imports.

Definition write_constants (cs : list Z) : list byte := write_rows write_u64 cs.

Definition write_type (t : TypeDescriptorRow) : list byte :=
  write_bytes (t_name t) ++ write_bytes (t_package t) ++ write_bytes (t_kind t) ++
  write_rows write_u64 (t_arguments t) ++ write_rows write_bytes (t_conformances t).

Definition write_types (ts : list TypeDescriptorRow) : list byte := write_rows write_type ts.

(** Which appended sections are written: each forces the ones before it. *)
Definition has_types (m : Module_) : bool := negb (is_nil (types m)).
Definition has_constants (m : Module_) : bool := negb (is_nil (constants m)) || has_types m.
Definition has_retained (m : Module_) : bool :=
  existsb (fun i => any_retained (signature i)) (foreign_imports m) || has_constants m.
Definition is_every_local (r : FrameRelease) : bool :=
  match r with EveryLocal => true | Planned _ => false end.
Definition has_releases (m : Module_) : bool :=
  existsb (fun f => negb (is_every_local (releases f))) (functions m) || has_retained m.
Definition has_callbacks (m : Module_) : bool := negb (is_nil (foreign_callbacks m)) || has_releases m.
Definition has_aggregates (m : Module_) : bool :=
  negb (is_nil (entries (foreign_aggregates m))) || has_callbacks m.
Definition has_foreign (m : Module_) : bool := negb (is_nil (foreign_imports m)) || has_aggregates m.

(** Serializes the module to its byte format. *)
Definition to_bytes (m : Module_) : list byte :=
  MAGIC ++
  to_le 8 (default NO_ENTRYPOINT_WIDE (main m)) ++
  write_rows write_bytes (strings m) ++
  write_rows write_function (functions m) ++
  write_exports (exports m) (has_foreign m) ++
  (if has_foreign m then write_foreign (foreign_imports m) else []) ++
  (if has_aggregates m then write_foreign_aggregates (foreign_aggregates m) else []) ++
  (if has_callbacks m then write_foreign_callbacks (foreign_callbacks m) else []) ++
  (if has_releases m then write_releases (functions m) else []) ++
  (if has_retained m then write_foreign_retained (foreign_imports m) else []) ++
  (if has_constants m then write_constants (constants m) else []) ++
  (if has_types m then write_types (types m) else []).

(** ** Reading *)

(** [core::str::from_utf8]: the well-formed UTF-8 byte sequences. *)
Definition continuation (b : byte) : bool := (0x80 <=? byte_to_Z b) && (byte_to_Z b <=? 0xbf).
Definition between (lo hi : Z) (b : byte) : bool := (lo <=? byte_to_Z b) && (byte_to_Z b <=? hi).

Fixpoint utf8_valid (bs : list byte) : bool :=
  match bs with
  | [] => true
  | b0 :: r0 =>
    if between 0 0x7f b0 then utf8_valid r0
    else match r0 with
    | [] => false
    | b1 :: r1 =>
      if between 0xc2 0xdf b0 then continuation b1 && utf8_valid r1
      else match r1 with
      | [] => false
      | b2 :: r2 =>
        let three lo hi := between lo hi b1 && continuation b2 && utf8_valid r2 in
        if between 0xe0 0xe0 b0 then three 0xa0 0xbf
        else if between 0xe1 0xec b0 then three 0x80 0xbf
        else if between 0xed 0xed b0 then three 0x80 0x9f
        else if between 0xee 0xef b0 then three 0x80 0xbf
        else match r2 with
        | [] => false
        | b3 :: r3 =>
          let four lo hi := between lo hi b1 && continuation b2 && continuation b3 && utf8_valid r3 in
          if between 0xf0 0xf0 b0 then four 0x90 0xbf
          else if between 0xf1 0xf3 b0 then four 0x80 0xbf
          else if between 0xf4 0xf4 b0 then four 0x80 0x8f
          else false
        end
      end
    end
  end.

Section reader.
Context {host : Host}.
Abbreviation rd := (reader ModuleDecodeError).

Definition take_ (n : nat) : rd (list byte) := take_slice (fun _ => Truncated) n.
Definition take_byte : rd byte := bs ← take_ 1; mret (nth 0 bs x00).

Definition read_u16 : rd Z := bs ← take_ 2; mret (from_le bs).
Definition read_u32 : rd Z := bs ← take_ 4; mret (from_le bs).
Definition read_u64 : rd Z := bs ← take_ 8; mret (from_le bs).

Definition read_count (f : Format) : rd Z := if is_legacy f then read_u32 else read_u64.

Definition read_index_count (f : Format) (table : string) : rd Z :=
  count ← read_count f;
  if decide (count < 2 ^ 32) then mret count
  else reader_fail (IndexTableTooLarge table count).

Definition read_len_prefixed (f : Format) : rd (list byte) :=
  len ← read_count f;
  n ← reader_lift (ok_or (usize_try_from len) (LengthTooLarge len));
  take_ n.

Definition read_string (f : Format) : rd rstring :=
  bs ← read_len_prefixed f;
  if utf8_valid bs then mret bs else reader_fail InvalidString.

(** [for _ in 0..count] over a decoded count. *)
Definition read_rows {A} (f : Format) (row : rd A) : rd (list A) :=
  count ← read_count f; read_n (Z.to_nat count) row.

(** An appended section: [default] when the stream has already ended. *)
Definition section {A} (default : A) (body : rd A) : rd A :=
  at_end ← reader_at_end; if at_end : bool then mret default else body.

Definition read_export_type (export : rstring) : rd ExportType :=
  tag ← take_byte;
  class ← read_u32;
  reader_lift (ok_or (ExportType_from_wire tag class) (UncrossableExportType export tag)).

Definition read_export (f : Format) : rd ModuleExport :=
  name ← read_string f;
  kira ← read_string f;
  function ← read_u32;
  params ← read_rows f (read_export_type name);
  res ← read_export_type name;
  mret {| e_name := name; kira_name := kira; e_function := function; e_params := params; e_result := res |}.

Definition read_exports (f : Format) : rd ExportTable :=
  section ExportTable_default (
    class_count ← read_index_count f "export class"%string;
    cs ← read_n (Z.to_nat class_count) (read_string f);
    export_count ← read_index_count f "export"%string;
    fs ← read_n (Z.to_nat export_count) (read_export f);
    mret {| classes := cs; e_functions := fs |}).

Definition read_spec (import : rstring) : rd ForeignTypeSpec :=
  tag ← take_byte;
  if decide (tag = AGGREGATE_TAG) then id ← read_u32; mret (Spec_Aggregate id)
  else
    ty ← reader_lift (ok_or (ForeignType_from_tag tag) (UnknownForeignType import tag));
    mret (Spec_Scalar ty).

Definition read_signature (f : Format) (named : rstring) : rd ForeignSignature :=
  ps ← read_rows f (read_spec named);
  r ← read_spec named;
  mret (ForeignSignature_new ps r).

Definition read_import (f : Format) : rd ForeignImport :=
  lib ← read_string f;
  sym ← read_string f;
  abi_byte ← take_byte;
  a ← reader_lift (ok_or (ForeignAbi_from_tag abi_byte) (UnknownForeignAbi sym abi_byte));
  sg ← read_signature f sym;
  mret (ForeignImport_new lib sym a sg).

Definition read_foreign (f : Format) : rd (list ForeignImport) :=
  section [] (
    count ← read_index_count f "foreign import"%string;
    read_n (Z.to_nat count) (read_import f)).

Definition read_array_element (index : Z) : rd ForeignArrayElement :=
  tag ← take_byte;
  if decide (tag = NESTED_MEMBER_TAG) then id ← read_u32; mret (Elem_Aggregate id)
  else
    ty ← reader_lift (ok_or (ForeignType_from_tag tag) (UnknownForeignAggregateMember index tag));
    mret (Elem_Scalar ty).

Definition read_member (index : Z) : rd ForeignMember :=
  tag ← take_byte;
  if decide (tag = NESTED_MEMBER_TAG) then id ← read_u32; mret (Member_Aggregate id)
  else if decide (tag = ARRAY_MEMBER_TAG) then
    element ← read_array_element index;
    count ← read_u32;
    mret (Member_Array element count)
  else
    ty ← reader_lift (ok_or (ForeignType_from_tag tag) (UnknownForeignAggregateMember index tag));
    mret (Member_Scalar ty).

(** The aggregate rows from [index] on, [remaining] of them, pushed onto [t]. *)
Fixpoint read_aggregates (f : Format) (index : Z) (remaining : nat) (t : ForeignAggregates)
    : rd ForeignAggregates :=
  match remaining with
  | O => mret t
  | S remaining =>
    ms ← read_rows f (read_member index);
    p ← reader_lift (map_err (MalformedForeignAggregate index) (push t {| members := ms |}));
    read_aggregates f (index + 1) remaining p.1
  end.

(** The first position that names an aggregate the table does not have. *)
Fixpoint unresolved (t : ForeignAggregates) (specs : list ForeignTypeSpec) : option Z :=
  match specs with
  | [] => None
  | s :: specs =>
    match spec_aggregate s with
    | Some id => match get t id with None => Some id | Some _ => unresolved t specs end
    | None => unresolved t specs
    end
  end.

Definition signature_specs (s : ForeignSignature) : list ForeignTypeSpec := parameters s ++ [sig_result s].

Fixpoint check_imports (t : ForeignAggregates) (imports : list ForeignImport)
    : result ModuleDecodeError unit :=
  match imports with
  | [] => Ok tt
  | i :: imports =>
    match unresolved t (signature_specs (signature i)) with
    | Some id => Err (UnknownForeignAggregate (symbol i) id)
    | None => check_imports t imports
    end
  end.

Definition read_foreign_aggregates (f : Format) (imports : list ForeignImport) : rd ForeignAggregates :=
  t ← section ForeignAggregates_new (
        count ← read_index_count f "foreign aggregate"%string;
        read_aggregates f 0 (Z.to_nat count) ForeignAggregates_new);
  _ ← reader_lift (check_imports t imports);
  mret t.

(** [format!("callback {index}")]. *)
Definition callback_name (index : Z) : rstring :=
  list_byte_of_string ("callback " ++ NilZero.string_of_uint (N.to_uint (Z.to_N index))).

Definition read_callback (f : Format) (t : ForeignAggregates) (index : Z) : rd ForeignCallback :=
  function ← read_u32;
  sg ← read_signature f (callback_name index);
  match unresolved t (signature_specs sg) with
  | Some id => reader_fail (UnknownCallbackAggregate index id)
  | None => mret (ForeignCallback_new function sg)
  end.

Definition read_foreign_callbacks (f : Format) (t : ForeignAggregates) : rd (list ForeignCallback) :=
  section [] (
    count ← read_index_count f "foreign callback"%string;
    read_indexed 0 (Z.to_nat count) (read_callback f t)).

Definition with_releases (p : FuncProto) (r : FrameRelease) : FuncProto :=
  {| f_name := f_name p; param_count := param_count p; local_count := local_count p;
     execution := execution p; code := code p; releases := r |}.

Definition every_local (f : Format) : Z :=
  match f with Legacy => EVERY_LOCAL_LEGACY | Wide => EVERY_LOCAL_WIDE end.

Definition read_release (f : Format) (p : FuncProto) : rd FuncProto :=
  count ← read_count f;
  if decide (count = every_local f) then mret (with_releases p EveryLocal)
  else
    slots ← read_n (Z.to_nat count) (match f with Legacy => read_u16 | Wide => read_u64 end);
    mret (with_releases p (Planned slots)).

(** [for x in xs.iter_mut()], the body reading the stream. *)
Fixpoint read_each {A} (row : A -> rd A) (xs : list A) : rd (list A) :=
  match xs with
  | [] => mret []
  | x :: xs => y ← row x; ys ← read_each row xs; mret (y :: ys)
  end.

Definition read_releases (f : Format) (fs : list FuncProto) : rd (list FuncProto) :=
  section fs (
    n ← read_count f;
    if decide (n = Z.of_nat (length fs)) then read_each (read_release f) fs
    else reader_fail (ReleaseCountMismatch (Z.of_nat (length fs)) n)).

(** Marks [remaining] decoded positions in the flag vector. *)
Fixpoint read_marks (sym : rstring) (params remaining : nat) (flags : list bool) : rd (list bool) :=
  match remaining with
  | O => mret flags
  | S remaining =>
    position ← read_u32;
    match flags !! Z.to_nat position with
    | None => reader_fail (RetainedOutOfRange sym position params)
    | Some true => reader_fail (DuplicateRetainedPosition sym position)
    | Some false => read_marks sym params remaining (<[Z.to_nat position := true]> flags)
    end
  end.

Definition read_retained (f : Format) (i : ForeignImport) : rd ForeignImport :=
  count ← read_count f;
  let params := length (parameters (signature i)) in
  flags ← read_marks (symbol i) params (Z.to_nat count) (replicate params false);
  mret (retain_parameters i flags).

Definition read_foreign_retained (f : Format) (imports : list ForeignImport) : rd (list ForeignImport) :=
  section imports (
    rows ← read_index_count f "retained foreign parameter"%string;
    if decide (rows = Z.of_nat (length imports)) then read_each (read_retained f) imports
    else reader_fail (RetainedRowMismatch rows (length imports))).

(** [slot as usize]. *)
Definition as_usize (v : Z) : Z := v mod (usize_max + 1).

Definition read_constant (n : nat) (slot : Z) : rd Z :=
  init ← read_u64;
  if decide (init < Z.of_nat n) then mret init
  else reader_fail (ConstantInitOutOfRange (as_usize slot) init n).

Definition read_constants (f : Format) (n : nat) : rd (list Z) :=
  section [] (
    count ← read_count f;
    read_indexed 0 (Z.to_nat count) (read_constant n)).

Definition read_type (f : Format) : rd TypeDescriptorRow :=
  name ← read_string f;
  package ← read_string f;
  kind ← read_string f;
  arguments ← read_rows f read_u64;
  conformances ← read_rows f (read_string f);
  mret {| t_name := name; t_package := package; t_kind := kind; t_arguments := arguments;
          t_conformances := conformances |}.

Definition read_types (f : Format) : rd (list TypeDescriptorRow) := section [] (read_rows f (read_type f)).

Definition read_magic : rd Format :=
  magic ← take_ 4;
  if decide (magic = MAGIC) then mret Wide
  else if decide (magic = LEGACY_MAGIC) then mret Legacy
  else reader_fail BadMagic.

Definition read_main (f : Format) : rd (option Z) :=
  if is_legacy f then
    index ← read_u32;
    mret (if decide (index = NO_ENTRYPOINT) then None else Some index)
  else
    index ← read_u64;
    if decide (index = NO_ENTRYPOINT_WIDE) then mret None
    else if decide (index < 2 ^ 32) then mret (Some index)
    else reader_fail (EntrypointTooLarge index).

Definition read_function (f : Format) : rd FuncProto :=
  name ← read_string f;
  params ← (if is_legacy f then read_u16 else read_u64);
  locals ← (if is_legacy f then read_u16 else read_u64);
  b ← take_byte;
  e ← reader_lift (ok_or (Execution_from_byte b) (UnknownExecution b));
  bs ← read_len_prefixed f;
  c ← reader_lift (map_err Code (if is_legacy f then decode_legacy bs else decode bs));
  mret {| f_name := name; param_count := params; local_count := locals; execution := e;
          code := c; releases := EveryLocal |}.

(** The whole stream up to its end. *)
Definition read_module : rd Module_ :=
  f ← read_magic;
  entry ← read_main f;
  strs ← read_rows f (read_string f);
  fs ← read_rows f (read_function f);
  ex ← read_exports f;
  imports ← read_foreign f;
  aggregates ← read_foreign_aggregates f imports;
  callbacks ← read_foreign_callbacks f aggregates;
  fs ← read_releases f fs;
  imports ← read_foreign_retained f imports;
  cs ← read_constants f (length fs);
  ts ← read_types f;
  mret {| functions := fs; main := entry; strings := strs; exports := ex;
          foreign_imports := imports; foreign_aggregates := aggregates;
          foreign_callbacks := callbacks; constants := cs; types := ts |}.

(** Deserializes a module from its byte format. *)
Definition from_bytes (bytes : list byte) : result ModuleDecodeError Module_ :=
  p ← read_module bytes 0%nat;
  if decide (p.2 = length bytes) then Ok p.1
  else Err (TrailingBytes (length bytes - p.2)).
End reader.

(** ** Well-formed modules

    Beyond the widths of the source's own integer types, a module the format
    can carry has index tables that [u32] ids can name, an aggregate table its
    rows were pushed onto in order, resolvable aggregate references, and
    constants initialised by its own functions. *)

Definition rstring_ok (s : rstring) : Prop := utf8_valid s = true.

Definition release_ok (r : FrameRelease) : Prop :=
  match r with EveryLocal => True | Planned slots => Forall u64_ok slots end.

Definition FuncProto_ok (f : FuncProto) : Prop :=
  rstring_ok (f_name f) /\ u64_ok (param_count f) /\ u64_ok (local_count f) /\
  Forall Instruction_ok (code f) /\ release_ok (releases f).

Definition ExportType_ok (t : ExportType) : Prop := u32_ok (class_index t).

Definition ModuleExport_ok (e : ModuleExport) : Prop :=
  rstring_ok (e_name e) /\ rstring_ok (kira_name e) /\ u32_ok (e_function e) /\
  Forall ExportType_ok (e_params e) /\ ExportType_ok (e_result e).

Definition index_ok {A} (l : list A) : Prop := Z.of_nat (length l) < 2 ^ 32.

Definition ExportTable_ok (t : ExportTable) : Prop :=
  Forall rstring_ok (classes t) /\ index_ok (classes t) /\
  Forall ModuleExport_ok (e_functions t) /\ index_ok (e_functions t).

Definition spec_ok (s : ForeignTypeSpec) : Prop := option_ok u32_ok (spec_aggregate s).

Definition ForeignSignature_ok (s : ForeignSignature) : Prop :=
  Forall spec_ok (parameters s) /\ spec_ok (sig_result s).

Definition ForeignImport_ok (i : ForeignImport) : Prop :=
  rstring_ok (library i) /\ rstring_ok (symbol i) /\ ForeignSignature_ok (signature i) /\
  signature_ok (signature i) /\
  Forall (fun p => Z.of_nat p < 2 ^ 32) (retained_positions (signature i)).

Definition element_word_ok (e : ForeignArrayElement) : Prop :=
  match e with Elem_Scalar _ => True | Elem_Aggregate id => u32_ok id end.

Definition member_word_ok (m : ForeignMember) : Prop :=
  match m with
  | Member_Scalar _ => True
  | Member_Aggregate id => u32_ok id
  | Member_Array e count => element_word_ok e /\ u32_ok count
  end.

Definition ForeignAggregates_ok (t : ForeignAggregates) : Prop :=
  Forall (fun a => Forall member_word_ok (members a)) (entries t) /\ index_ok (entries t) /\
  push_all ForeignAggregates_new (entries t) = Ok t.

Definition resolves (t : ForeignAggregates) (s : ForeignSignature) : Prop :=
  unresolved t (signature_specs s) = None.

Definition ForeignCallback_ok (t : ForeignAggregates) (c : ForeignCallback) : Prop :=
  u32_ok (cb_function c) /\ ForeignSignature_ok (cb_signature c) /\
  retained (cb_signature c) = [] /\ resolves t (cb_signature c).

Definition TypeDescriptorRow_ok (t : TypeDescriptorRow) : Prop :=
  rstring_ok (t_name t) /\ rstring_ok (t_package t) /\ rstring_ok (t_kind t) /\
  Forall u64_ok (t_arguments t) /\ Forall rstring_ok (t_conformances t).

Record Module_ok (m : Module_) : Prop := {
  ok_functions : Forall FuncProto_ok (functions m);
  ok_main : option_ok u32_ok (main m);
  ok_strings : Forall rstring_ok (strings m);
  ok_exports : ExportTable_ok (exports m);
  ok_imports : Forall ForeignImport_ok (foreign_imports m) /\ index_ok (foreign_imports m);
  ok_aggregates : ForeignAggregates_ok (foreign_aggregates m);
  ok_resolves : Forall (fun i => resolves (foreign_aggregates m) (signature i)) (foreign_imports m);
  ok_callbacks : Forall (ForeignCallback_ok (foreign_aggregates m)) (foreign_callbacks m) /\
                 index_ok (foreign_callbacks m);
  ok_constants : Forall (fun c => u64_ok c /\ c < Z.of_nat (length (functions m))) (constants m);
  ok_types : Forall TypeDescriptorRow_ok (types m)
}.

(** ** Reading back what was written *)

Section contracts.
Context {host : Host}.
Abbreviation rd := (reader ModuleDecodeError).

Lemma Reads_fit {A} (r : rd A) enc a : (addressable enc -> Reads r enc a) -> Reads r enc a.
Proof.
  intros H pre post Hfit. apply H; [|done]. unfold addressable in *. rewrite !length_app in Hfit. lia.
Qed.

Lemma Mod_Reads_byte b : Reads take_byte [b] b.
Proof. unfold take_byte, take_. reads. Qed.

Lemma Mod_Reads_u32 v : u32_ok v -> Reads read_u32 (to_le 4 v) v.
Proof.
  intros H. unfold read_u32, take_. eapply Reads_bind_last.
  - apply Reads_take_slice, length_to_le.
  - rewrite (from_to_le_unsigned 4) by exact H. apply Reads_ret.
Qed.

Lemma Mod_Reads_u64 v : u64_ok v -> Reads read_u64 (to_le 8 v) v.
Proof.
  intros H. unfold read_u64, take_. eapply Reads_bind_last.
  - apply Reads_take_slice, length_to_le.
  - rewrite (from_to_le_unsigned 8) by exact H. apply Reads_ret.
Qed.

Lemma fit_u64 (n : nat) (enc : list byte) : (n <= length enc)%nat -> addressable enc -> u64_ok (Z.of_nat n).
Proof. unfold addressable, unsigned_ok. pose proof usize_max_bounds. lia. Qed.

Lemma length_rows {A} (enc : A -> list byte) (xs : list A) :
  (forall x, x ∈ xs -> enc x <> []) -> (length xs <= length (xs ≫= enc))%nat.
Proof.
  induction xs as [|x xs IH]; intros H; [done|]. rewrite bind_cons, length_app.
  specialize (IH ltac:(intros y Hy; apply H; by right)).
  pose proof (H x ltac:(by left)). destruct (enc x); [done|]. simpl length. lia.
Qed.

Lemma fit_rows {A} (enc : A -> list byte) (xs : list A) rest :
  (forall x, x ∈ xs -> enc x <> []) -> addressable (write_rows enc xs ++ rest) -> u64_ok (Z.of_nat (length xs)).
Proof.
  intros H Hf. eapply fit_u64; [|exact Hf]. unfold write_rows. rewrite !length_app.
  pose proof (length_rows enc xs H). lia.
Qed.

(** A counted table: the count, then each row. *)
Lemma Reads_rows {A} (row : rd A) (enc : A -> list byte) (xs : list A) :
  (forall x, x ∈ xs -> enc x <> [] /\ Reads row (enc x) x) ->
  Reads (read_rows Wide row) (write_rows enc xs) xs.
Proof.
  intros H. apply Reads_fit. intros Hf. rewrite <- (app_nil_r (write_rows _ _)) in Hf.
  apply fit_rows in Hf; [|intros x Hx; by apply H].
  eapply Reads_bind; [by apply Mod_Reads_u64|]. rewrite Nat2Z.id. apply Reads_read_n.
  apply Forall_forall. intros x Hx. by apply H.
Qed.

Lemma Reads_index_count n table :
  Z.of_nat n < 2 ^ 32 -> Reads (read_index_count Wide table) (write_count n) (Z.of_nat n).
Proof.
  intros Hn. eapply Reads_bind_last; [apply Mod_Reads_u64; unfold unsigned_ok; lia|].
  rewrite decide_True by done. apply Reads_ret.
Qed.

Lemma Reads_len_prefixed bs : Reads (read_len_prefixed Wide) (write_bytes bs) bs.
Proof.
  apply Reads_fit. intros Hf. unfold write_bytes in *.
  eapply Reads_bind; [apply Mod_Reads_u64; eapply fit_u64; [|exact Hf]; rewrite length_app; lia|].
  eapply Reads_bind_nil; [apply Reads_lift|by apply Reads_take_slice].
  rewrite usize_try_from_nat; [done|]. unfold addressable in Hf. rewrite length_app in Hf. lia.
Qed.

Lemma Reads_string s : rstring_ok s -> Reads (read_string Wide) (write_bytes s) s.
Proof. intros H. eapply Reads_bind_last; [apply Reads_len_prefixed|]. rewrite H. apply Reads_ret. Qed.

#[local] Hint Resolve Mod_Reads_byte Mod_Reads_u32 Mod_Reads_u64 Reads_string Reads_len_prefixed : reads.

Lemma write_bytes_nonempty bs : write_bytes bs <> [].
Proof. done. Qed.

Lemma Reads_export_type name t : ExportType_ok t -> Reads (read_export_type name) (write_export_type t) t.
Proof.
  intros H. unfold read_export_type, write_export_type.
  eapply Reads_bind_cons; [apply Mod_Reads_byte|]. eapply Reads_bind_last; [by apply Mod_Reads_u32|].
  apply Reads_lift. destruct t; done.
Qed.

Lemma Reads_export e : ModuleExport_ok e -> Reads (read_export Wide) (write_export e) e.
Proof.
  intros (Hn & Hk & Hf & Hp & Hr). unfold read_export, write_export.
  eapply Reads_bind; [by apply Reads_string|]. eapply Reads_bind; [by apply Reads_string|].
  eapply Reads_bind; [by apply Mod_Reads_u32|].
  eapply Reads_bind; [apply Reads_rows|eapply Reads_bind_last; [by apply Reads_export_type|]].
  - intros t Ht. split; [done|]. apply Reads_export_type. by eapply Forall_forall in Hp.
  - destruct e. apply Reads_ret.
Qed.

Lemma Reads_spec name s : spec_ok s -> Reads (read_spec name) (write_spec s) s.
Proof.
  intros H. unfold read_spec, write_spec. eapply Reads_bind_cons; [apply Mod_Reads_byte|].
  destruct s as [ty|id]; cbn [spec_tag spec_aggregate].
  - rewrite decide_False by (by destruct ty). eapply Reads_bind_nil; [apply Reads_lift|apply Reads_ret].
    by destruct ty.
  - rewrite decide_True by done. eapply Reads_bind_last; [by apply Mod_Reads_u32|apply Reads_ret].
Qed.

Definition plain_signature (s : ForeignSignature) : ForeignSignature :=
  ForeignSignature_new (parameters s) (sig_result s).

Lemma Reads_signature name s :
  ForeignSignature_ok s -> Reads (read_signature Wide name) (write_signature s) (plain_signature s).
Proof.
  intros [Hp Hr]. unfold read_signature, write_signature.
  eapply Reads_bind; [apply Reads_rows|eapply Reads_bind_last; [by apply Reads_spec|apply Reads_ret]].
  intros x Hx. split; [done|]. apply Reads_spec. by eapply Forall_forall in Hp.
Qed.

(** An import as the foreign section alone decodes it: nothing retained yet. *)
Definition plain_import (i : ForeignImport) : ForeignImport :=
  ForeignImport_new (library i) (symbol i) (abi i) (plain_signature (signature i)).

Lemma Reads_import i : ForeignImport_ok i -> Reads (read_import Wide) (write_import i) (plain_import i).
Proof.
  intros (Hl & Hs & Hsg & _). unfold read_import, write_import.
  eapply Reads_bind; [by apply Reads_string|]. eapply Reads_bind; [by apply Reads_string|].
  eapply Reads_bind_cons; [apply Mod_Reads_byte|].
  eapply Reads_bind_nil; [apply Reads_lift|eapply Reads_bind_last; [by apply Reads_signature|apply Reads_ret]].
  by destruct (abi i).
Qed.

Lemma Reads_element index e : element_word_ok e -> Reads (read_array_element index) (write_element e) e.
Proof.
  intros H. unfold read_array_element. destruct e as [ty|id]; cbn [write_element].
  - eapply Reads_bind_cons; [apply Mod_Reads_byte|]. rewrite decide_False by (by destruct ty).
    eapply Reads_bind_nil; [apply Reads_lift|apply Reads_ret]. by destruct ty.
  - eapply Reads_bind_cons; [apply Mod_Reads_byte|]. rewrite decide_True by done.
    eapply Reads_bind_last; [by apply Mod_Reads_u32|apply Reads_ret].
Qed.

Lemma Reads_member index m : member_word_ok m -> Reads (read_member index) (write_member m) m.
Proof.
  intros H. unfold read_member. destruct m as [ty|id|e count]; cbn [write_member].
  - eapply Reads_bind_cons; [apply Mod_Reads_byte|]. rewrite !decide_False by (by destruct ty).
    eapply Reads_bind_nil; [apply Reads_lift|apply Reads_ret]. by destruct ty.
  - eapply Reads_bind_cons; [apply Mod_Reads_byte|]. rewrite decide_True by done.
    eapply Reads_bind_last; [by apply Mod_Reads_u32|apply Reads_ret].
  - destruct H as [He Hc]. eapply Reads_bind_cons; [apply Mod_Reads_byte|].
    rewrite decide_False, decide_True by done.
    eapply Reads_bind; [by apply Reads_element|]. eapply Reads_bind_last; [by apply Mod_Reads_u32|apply Reads_ret].
Qed.

Lemma write_member_nonempty m : write_member m <> [].
Proof. by destruct m. Qed.

Lemma Reads_aggregates xs index t t' :
  Forall (fun a => Forall member_word_ok (members a)) xs -> push_all t xs = Ok t' ->
  Reads (read_aggregates Wide index (length xs) t) (xs ≫= fun a => write_rows write_member (members a)) t'.
Proof.
  intros Hxs. revert index t. induction Hxs as [|a xs Ha _ IH]; intros index t Hp.
  - injection Hp as <-. apply Reads_ret.
  - cbn in Hp. destruct (push t a) as [[t1 id]|] eqn:E; [|done]. cbn in Hp.
    eapply Reads_bind; [apply Reads_rows|].
    + intros m Hm. split; [apply write_member_nonempty|]. apply Reads_member. by eapply Forall_forall in Ha.
    + eapply Reads_bind_nil; [apply (Reads_lift _ (t1, id))|by apply IH].
      assert ({| members := members a |} = a) as -> by (by destruct a). by rewrite E.
Qed.

Lemma Reads_callback t index c :
  ForeignCallback_ok t c -> Reads (read_callback Wide t index) (write_callback c) c.
Proof.
  intros (Hf & Hs & Hn & Hr). unfold read_callback, write_callback.
  eapply Reads_bind; [by apply Mod_Reads_u32|]. eapply Reads_bind_last; [by apply Reads_signature|].
  assert (plain_signature (cb_signature c) = cb_signature c) as ->.
  { destruct c as [f [ps r ret]]. simpl in *. by subst. }
  rewrite Hr. destruct c. apply Reads_ret.
Qed.

Lemma Reads_each {A} (row : A -> rd A) (enc : A -> list byte) (xs ys : list A) :
  Forall2 (fun x y => Reads (row x) (enc y) y) xs ys -> Reads (read_each row xs) (ys ≫= enc) ys.
Proof.
  induction 1 as [|x y xs ys Hx _ IH]; [apply Reads_ret|]. cbn.
  eapply Reads_bind; [exact Hx|]. eapply Reads_bind_last; [exact IH|apply Reads_ret].
Qed.

(** A function as the function table alone decodes it: no release plan yet. *)
Definition plain_function (f : FuncProto) : FuncProto := with_releases f EveryLocal.

Lemma Reads_release f :
  release_ok (releases f) -> Reads (read_release Wide (plain_function f)) (write_release f) f.
Proof.
  intros Hr. apply Reads_fit. intros Hfit. unfold read_release, write_release in *.
  destruct f as [n p l e c [|slots]]; cbn [releases] in *.
  - eapply Reads_bind_last; [by apply Mod_Reads_u64|]. rewrite decide_True by done. apply Reads_ret.
  - pose proof Hfit as Hlen. rewrite <- (app_nil_r (write_rows _ _)) in Hlen. apply fit_rows in Hlen; [|done].
    eapply Reads_bind; [by apply Mod_Reads_u64|]. rewrite decide_False.
    + eapply Reads_bind_last; [|apply Reads_ret]. rewrite Nat2Z.id. apply Reads_read_n.
      eapply Forall_impl; [exact Hr|]. intros s Hs. by apply Mod_Reads_u64.
    + unfold addressable, write_rows, write_count, write_u64 in Hfit.
      rewrite length_app, length_to_le in Hfit. pose proof usize_max_bounds.
      pose proof (length_rows (to_le 8) slots ltac:(done)). simpl. unfold EVERY_LOCAL_WIDE. lia.
Qed.

(** Marking the written positions rebuilds the flags. *)
Lemma Reads_marks sym params done_ flags :
  Forall (fun p => Z.of_nat p < 2 ^ 32) (set_positions (length done_) flags) ->
  Reads (read_marks sym params (length (set_positions (length done_) flags))
           (done_ ++ replicate (length flags) false))
    (set_positions (length done_) flags ≫= fun p => write_u32 (Z.of_nat p)) (done_ ++ flags).
Proof.
  revert done_. induction flags as [|b flags IH]; intros done_ Hlen; cbn [set_positions].
  { apply Reads_ret. }
  specialize (IH (done_ ++ [b])). rewrite length_app, <- !app_assoc in IH. cbn [length] in IH.
  rewrite Nat.add_1_r in IH. cbn [set_positions] in Hlen.
  destruct b; cbn [app length replicate] in *; [inversion Hlen; subst|].
  - rewrite bind_cons. cbn [read_marks].
    eapply Reads_bind; [apply Mod_Reads_u32; unfold unsigned_ok; lia|].
    rewrite Nat2Z.id, lookup_app_r, Nat.sub_diag by lia. cbn [lookup list_lookup].
    rewrite insert_app_r_alt, Nat.sub_diag by lia. by apply IH.
  - by apply IH.
Qed.

Lemma retain_plain i : signature_ok (signature i) -> retained (signature i) <> [] ->
  retain_parameters (plain_import i) (retained (signature i)) = i.
Proof.
  intros [?|[Hl Ha]] Hn; [done|]. destruct i as [l s a [ps r fl]]. simpl in *.
  unfold retain_parameters, plain_import, with_retained. cbn. by rewrite bool_decide_eq_true_2, Ha by done.
Qed.

Lemma retain_none i n : retained (signature i) = [] ->
  retain_parameters (plain_import i) (replicate n false) = i.
Proof.
  intros Hn. destruct i as [l s a [ps r fl]]. simpl in *. subst fl.
  unfold retain_parameters, plain_import, with_retained. cbn.
  assert (existsb id (replicate n false) = false) as ->; [|by rewrite andb_false_r].
  induction n; done.
Qed.

Lemma Reads_retained i :
  ForeignImport_ok i -> Reads (read_retained Wide (plain_import i)) (write_retained i) i.
Proof.
  intros (_ & _ & _ & Hs & Hlen). apply Reads_fit. intros Hfit.
  rewrite <- (app_nil_r (write_retained _)) in Hfit. apply fit_rows in Hfit; [|done].
  unfold read_retained, write_retained, write_rows, retained_positions in *.
  eapply Reads_bind; [by apply Mod_Reads_u64|]. rewrite Nat2Z.id. cbn zeta.
  destruct (retained (signature i)) as [|b fl] eqn:Er.
  - eapply Reads_bind_last; [apply Reads_ret|]. rewrite retain_none by done. apply Reads_ret.
  - destruct Hs as [?|[Hl Ha]]; [congruence|].
    eapply Reads_bind_last; [|rewrite <- (retain_plain i) at 2; [apply Reads_ret|by right|by rewrite Er]].
    cbn [plain_import ForeignImport_new signature symbol plain_signature ForeignSignature_new parameters].
    rewrite <- Hl, Er. by apply (Reads_marks _ _ []).
Qed.

Lemma Reads_constant n slot c :
  u64_ok c /\ c < Z.of_nat n -> Reads (read_constant n slot) (write_u64 c) c.
Proof.
  intros [Hc Hn]. eapply Reads_bind_last; [by apply Mod_Reads_u64|]. rewrite decide_True by done. apply Reads_ret.
Qed.

Lemma Reads_type t : TypeDescriptorRow_ok t -> Reads (read_type Wide) (write_type t) t.
Proof.
  intros (Hn & Hp & Hk & Ha & Hc). unfold read_type, write_type.
  do 3 (eapply Reads_bind; [by apply Reads_string|]).
  eapply Reads_bind; [apply Reads_rows|eapply Reads_bind_last; [apply Reads_rows|destruct t; apply Reads_ret]].
  - intros x Hx. split; [done|]. apply Mod_Reads_u64. by eapply Forall_forall in Ha.
  - intros x Hx. split; [done|]. apply Reads_string. by eapply Forall_forall in Hc.
Qed.

Lemma Reads_function f : FuncProto_ok f -> Reads (read_function Wide) (write_function f) (plain_function f).
Proof.
  intros (Hn & Hp & Hl & Hc & _). apply Reads_fit. intros Hfit. unfold read_function, write_function in *.
  eapply Reads_bind; [by apply Reads_string|]. do 2 (eapply Reads_bind; [by apply Mod_Reads_u64|]).
  eapply Reads_bind_cons; [apply Mod_Reads_byte|].
  eapply Reads_bind_nil; [apply (Reads_lift _ (execution f)); by destruct (execution f)|].
  eapply Reads_bind_last; [apply Reads_len_prefixed|].
  eapply Reads_bind_nil; [apply Reads_lift|apply Reads_ret].
  assert (addressable (encode (code f))) as Ha.
  { unfold addressable, write_bytes in *. rewrite !length_app in Hfit. cbn [length] in Hfit.
    rewrite !length_app in Hfit. lia. }
  cbn [is_legacy]. unfold decode. rewrite decode_with_width_from.
  pose proof (decode_from_encode [] (code f) Hc Ha) as E. cbn [app length] in E. by rewrite E.
Qed.
End contracts.

(** ** The appended sections *)

Section tail.
Context {host : Host}.
Abbreviation rd := (reader ModuleDecodeError).

(** What follows the module in the stream: nothing, except where a theorem
    says what happens to bytes that should not be there. *)
Variable (post : list byte).

(** A reader that takes everything up to [post]. *)
Definition ReadsEnd {A} (r : rd A) (enc : list byte) (a : A) : Prop :=
  forall pre, addressable (pre ++ enc ++ post) ->
    r (pre ++ enc ++ post) (length pre) = Ok (a, length (pre ++ enc)).

Lemma ReadsEnd_ret {A} (a : A) : ReadsEnd (mret a) [] a.
Proof. intros pre _. by rewrite app_nil_r. Qed.

Lemma ReadsEnd_bind {A B} (r : rd A) (f : A -> rd B) e1 e2 a b :
  Reads r e1 a -> ReadsEnd (f a) e2 b -> ReadsEnd (r ≫= f) (e1 ++ e2) b.
Proof.
  intros H1 H2 pre Hfit. unfold mbind, reader_bind. rewrite <- app_assoc in *.
  rewrite (H1 pre (e2 ++ post)) by done. specialize (H2 (pre ++ e1)).
  rewrite <- !app_assoc, length_app in H2. by apply H2.
Qed.

Lemma ReadsEnd_bind_nil {A B} (r : rd A) (f : A -> rd B) e a b :
  Reads r [] a -> ReadsEnd (f a) e b -> ReadsEnd (r ≫= f) e b.
Proof. apply (ReadsEnd_bind r f []). Qed.

Lemma ReadsEnd_assoc {A B C} (r : rd A) (f : A -> rd B) (g : B -> rd C) e c :
  ReadsEnd (r ≫= fun a => f a ≫= g) e c -> ReadsEnd ((r ≫= f) ≫= g) e c.
Proof.
  intros H pre Hfit. specialize (H pre Hfit). unfold mbind, reader_bind in *.
  by destruct (r (pre ++ e ++ post) (length pre)) as [[]|].
Qed.

(** One appended section: written when [flag] is set; otherwise the stream ends
    here, and it decodes as its default. *)
Lemma ReadsEnd_section {A B} (flag : bool) (d a : A) (r : rd A) enc rest (k : A -> rd B) b :
  (flag = true -> enc <> [] /\ Reads r enc a) -> (flag = false -> a = d /\ rest = [] /\ post = []) ->
  ReadsEnd (k a) rest b ->
  ReadsEnd (section d r ≫= k) ((if flag then enc else []) ++ rest) b.
Proof.
  intros Ht Hf Hk pre Hfit. unfold section, mbind, reader_bind, reader_at_end. destruct flag.
  - destruct (Ht eq_refl) as [Hne Hr]. rewrite bool_decide_eq_false_2.
    + rewrite <- app_assoc in *. rewrite (Hr pre (rest ++ post) Hfit). specialize (Hk (pre ++ enc)).
      rewrite <- !app_assoc, length_app in Hk. by apply Hk.
    + rewrite !length_app. destruct enc; [done|]. simpl. lia.
  - destruct (Hf eq_refl) as (-> & -> & E). specialize (Hk pre). revert Hk. rewrite E, !app_nil_r.
    intros Hk. rewrite bool_decide_eq_true_2 by lia. apply Hk. revert Hfit. by rewrite E, !app_nil_r.
Qed.

Lemma Reads_read_n_map {A B} (r : rd B) (g : A -> B) (enc : A -> list byte) (xs : list A) :
  (forall x, x ∈ xs -> Reads r (enc x) (g x)) -> Reads (read_n (length xs) r) (xs ≫= enc) (g <$> xs).
Proof.
  induction xs as [|x xs IH]; intros H; [apply Reads_ret|]. cbn [length read_n]. rewrite bind_cons.
  eapply Reads_bind; [apply H; by left|].
  eapply Reads_bind_last; [apply IH; intros y Hy; apply H; by right|]. apply Reads_ret.
Qed.

Lemma Reads_indexed_rows {A B} (r : rd B) (g : A -> B) (enc : A -> list byte) (xs : list A) table :
  index_ok xs -> (forall x, x ∈ xs -> Reads r (enc x) (g x)) ->
  Reads (count ← read_index_count Wide table; read_n (Z.to_nat count) r) (write_rows enc xs) (g <$> xs).
Proof.
  intros Hi H. eapply Reads_bind; [by apply Reads_index_count|]. rewrite Nat2Z.id. by apply Reads_read_n_map.
Qed.

Variable (m : Module_).

(** What follows each section. *)
Definition tail_types : list byte := if has_types m then write_types (types m) else [].
Definition tail_constants : list byte :=
  (if has_constants m then write_constants (constants m) else []) ++ tail_types.
Definition tail_retained : list byte :=
  (if has_retained m then write_foreign_retained (foreign_imports m) else []) ++ tail_constants.
Definition tail_releases : list byte :=
  (if has_releases m then write_releases (functions m) else []) ++ tail_retained.
Definition tail_callbacks : list byte :=
  (if has_callbacks m then write_foreign_callbacks (foreign_callbacks m) else []) ++ tail_releases.
Definition tail_aggregates : list byte :=
  (if has_aggregates m then write_foreign_aggregates (foreign_aggregates m) else []) ++ tail_callbacks.
Definition tail_foreign : list byte :=
  (if has_foreign m then write_foreign (foreign_imports m) else []) ++ tail_aggregates.

(** Where a section is absent the stream ends: nothing after it is written. *)
Hypothesis (Hpost : has_types m = false -> post = []).

Lemma tail_types_nil : has_types m = false -> tail_types = [] /\ post = [].
Proof. unfold tail_types. intros H. split; [by rewrite H|auto]. Qed.
Lemma tail_constants_nil : has_constants m = false -> tail_constants = [] /\ post = [].
Proof.
  unfold tail_constants. intros H. rewrite H. apply orb_false_iff in H as [_ ?]. by apply tail_types_nil.
Qed.
Lemma tail_retained_nil : has_retained m = false -> tail_retained = [] /\ post = [].
Proof.
  unfold tail_retained. intros H. rewrite H. apply orb_false_iff in H as [_ ?]. by apply tail_constants_nil.
Qed.
Lemma tail_releases_nil : has_releases m = false -> tail_releases = [] /\ post = [].
Proof.
  unfold tail_releases. intros H. rewrite H. apply orb_false_iff in H as [_ ?]. by apply tail_retained_nil.
Qed.
Lemma tail_callbacks_nil : has_callbacks m = false -> tail_callbacks = [] /\ post = [].
Proof.
  unfold tail_callbacks. intros H. rewrite H. apply orb_false_iff in H as [_ ?]. by apply tail_releases_nil.
Qed.
Lemma tail_aggregates_nil : has_aggregates m = false -> tail_aggregates = [] /\ post = [].
Proof.
  unfold tail_aggregates. intros H. rewrite H. apply orb_false_iff in H as [_ ?]. by apply tail_callbacks_nil.
Qed.
Lemma tail_foreign_nil : has_foreign m = false -> tail_foreign = [] /\ post = [].
Proof.
  unfold tail_foreign. intros H. rewrite H. apply orb_false_iff in H as [_ ?]. by apply tail_aggregates_nil.
Qed.

Lemma not_nil_false {A} (l : list A) : negb (is_nil l) = false -> l = [].
Proof. by destruct l. Qed.

Lemma orb_false_l a b : a || b = false -> a = false.
Proof. by destruct a. Qed.

Hypothesis (Hm : Module_ok m).

Lemma types_tail {B} (k : list TypeDescriptorRow -> rd B) b :
  ReadsEnd (k (types m)) [] b -> ReadsEnd (read_types Wide ≫= k) tail_types b.
Proof.
  intros Hk. unfold tail_types. rewrite <- (app_nil_r (if has_types m then write_types (types m) else [])).
  apply (ReadsEnd_section _ _ (types m)); [| |done].
  - intros _. split; [done|]. apply Reads_rows. intros x Hx. split; [done|]. apply Reads_type.
    pose proof (ok_types m Hm) as Ht. by eapply Forall_forall in Ht.
  - intros H. split; [by apply not_nil_false in H|]. split; [done|auto].
Qed.

Lemma constants_tail {B} (k : list Z -> rd B) b :
  ReadsEnd (k (constants m)) tail_types b ->
  ReadsEnd (read_constants Wide (length (functions m)) ≫= k) tail_constants b.
Proof.
  intros Hk. apply (ReadsEnd_section _ _ (constants m)); [| |done].
  - intros _. split; [done|]. apply Reads_fit. intros Hfit.
    rewrite <- (app_nil_r (write_constants _)) in Hfit. apply fit_rows in Hfit; [|done].
    eapply Reads_bind; [by apply Mod_Reads_u64|]. rewrite Nat2Z.id.
    apply Reads_read_indexed. intros i c Hc. apply Reads_constant.
    exact (Forall_lookup_1 _ _ _ _ (ok_constants m Hm) Hc).
  - intros H. split; [|by apply tail_types_nil, (proj2 (proj1 (orb_false_iff _ _) H))].
    apply orb_false_l in H. by apply not_nil_false in H.
Qed.

Lemma plain_import_id i : any_retained (signature i) = false -> plain_import i = i.
Proof.
  destruct i as [l s a [ps r fl]]. unfold any_retained. simpl. by destruct fl.
Qed.

Lemma retained_tail {B} (k : list ForeignImport -> rd B) b :
  ReadsEnd (k (foreign_imports m)) tail_constants b ->
  ReadsEnd (read_foreign_retained Wide (plain_import <$> foreign_imports m) ≫= k) tail_retained b.
Proof.
  destruct (ok_imports m Hm) as [Hi Hix].
  intros Hk. apply (ReadsEnd_section _ _ (foreign_imports m)); [| |done].
  - intros _. split; [done|]. eapply Reads_bind; [by apply Reads_index_count|].
    rewrite length_fmap, decide_True by done. apply Reads_each.
    clear Hk Hix. induction Hi as [|i is_ Hi _ IH]; constructor; [by apply Reads_retained|done].
  - intros H. split; [|by apply tail_constants_nil, (proj2 (proj1 (orb_false_iff _ _) H))].
    apply orb_false_l in H. clear Hk Hi Hix.
    induction (foreign_imports m) as [|i is_ IH]; [done|]. apply orb_false_iff in H as [H1 H2].
    rewrite fmap_cons, <- IH, plain_import_id by done. done.
Qed.

Lemma plain_function_id f : negb (is_every_local (releases f)) = false -> plain_function f = f.
Proof. destruct f as [? ? ? ? ? []]; done. Qed.

Lemma releases_tail {B} (k : list FuncProto -> rd B) b :
  ReadsEnd (k (functions m)) tail_retained b ->
  ReadsEnd (read_releases Wide (plain_function <$> functions m) ≫= k) tail_releases b.
Proof.
  pose proof (ok_functions m Hm) as Hf.
  intros Hk. apply (ReadsEnd_section _ _ (functions m)); [| |done].
  - intros _. split; [done|]. apply Reads_fit. intros Hfit.
    assert (forall f, write_release f <> []) as Hne by (by intros [? ? ? ? ? []]).
    rewrite <- (app_nil_r (write_releases _)) in Hfit. apply fit_rows in Hfit; [|done].
    eapply Reads_bind; [by apply Mod_Reads_u64|]. rewrite length_fmap, decide_True by done. apply Reads_each.
    clear Hk Hfit. induction Hf as [|f fs Hf _ IH]; constructor; [apply Reads_release, Hf|done].
  - intros H. split; [|by apply tail_retained_nil, (proj2 (proj1 (orb_false_iff _ _) H))].
    apply orb_false_l in H. clear Hk Hf.
    induction (functions m) as [|f fs IH]; [done|]. apply orb_false_iff in H as [H1 H2].
    rewrite fmap_cons, <- IH, plain_function_id by done. done.
Qed.

Lemma callbacks_tail {B} (k : list ForeignCallback -> rd B) b :
  ReadsEnd (k (foreign_callbacks m)) tail_releases b ->
  ReadsEnd (read_foreign_callbacks Wide (foreign_aggregates m) ≫= k) tail_callbacks b.
Proof.
  destruct (ok_callbacks m Hm) as [Hc Hi].
  intros Hk. apply (ReadsEnd_section _ _ (foreign_callbacks m)); [| |done].
  - intros _. split; [done|]. eapply Reads_bind; [by apply Reads_index_count|]. rewrite Nat2Z.id.
    apply Reads_read_indexed. intros i c Hl. apply Reads_callback. by eapply Forall_lookup_1 in Hl.
  - intros H. split; [|by apply tail_releases_nil, (proj2 (proj1 (orb_false_iff _ _) H))].
    apply orb_false_l in H. by apply not_nil_false in H.
Qed.

Lemma plain_specs i : signature_specs (signature (plain_import i)) = signature_specs (signature i).
Proof. done. Qed.

Lemma check_imports_plain t is_ :
  Forall (fun i => resolves t (signature i)) is_ -> check_imports t (plain_import <$> is_) = Ok tt.
Proof.
  induction 1 as [|i is_ Hi _ IH]; [done|]. cbn [fmap list_fmap check_imports]. rewrite plain_specs.
  unfold resolves in Hi. by rewrite Hi.
Qed.

Lemma aggregates_tail {B} (k : ForeignAggregates -> rd B) b :
  ReadsEnd (k (foreign_aggregates m)) tail_callbacks b ->
  ReadsEnd (read_foreign_aggregates Wide (plain_import <$> foreign_imports m) ≫= k) tail_aggregates b.
Proof.
  destruct (ok_aggregates m Hm) as (Hw & Hi & Hp).
  intros Hk. apply ReadsEnd_assoc. apply (ReadsEnd_section _ _ (foreign_aggregates m)).
  - intros _. split; [done|]. eapply Reads_bind; [by apply Reads_index_count|]. rewrite Nat2Z.id.
    by apply Reads_aggregates.
  - intros H. split; [|by apply tail_callbacks_nil, (proj2 (proj1 (orb_false_iff _ _) H))].
    apply orb_false_l, not_nil_false in H. destruct (foreign_aggregates m). simpl in H. by subst.
  - apply ReadsEnd_assoc. eapply ReadsEnd_bind_nil.
    + apply Reads_lift, check_imports_plain, ok_resolves, Hm.
    + eapply ReadsEnd_bind_nil; [apply Reads_ret|done].
Qed.

Lemma foreign_tail {B} (k : list ForeignImport -> rd B) b :
  ReadsEnd (k (plain_import <$> foreign_imports m)) tail_aggregates b ->
  ReadsEnd (read_foreign Wide ≫= k) tail_foreign b.
Proof.
  destruct (ok_imports m Hm) as [Hi Hix].
  intros Hk. apply (ReadsEnd_section _ _ (plain_import <$> foreign_imports m)); [| |done].
  - intros _. split; [done|]. apply Reads_indexed_rows; [done|]. intros i Hin. apply Reads_import.
    by eapply Forall_forall in Hi.
  - intros H. split; [|by apply tail_aggregates_nil, (proj2 (proj1 (orb_false_iff _ _) H))].
    apply orb_false_l, not_nil_false in H. by rewrite H.
Qed.

Lemma exports_tail {B} (k : ExportTable -> rd B) b :
  ReadsEnd (k (exports m)) tail_foreign b ->
  ReadsEnd (read_exports Wide ≫= k) (write_exports (exports m) (has_foreign m) ++ tail_foreign) b.
Proof.
  destruct (ok_exports m Hm) as (Hc & Hci & He & Hei).
  intros Hk. unfold write_exports.
  replace (if ExportTable_is_empty (exports m) && negb (has_foreign m) then [] else _)
    with (if negb (ExportTable_is_empty (exports m)) || has_foreign m
          then write_rows write_bytes (classes (exports m)) ++ write_rows write_export (e_functions (exports m))
          else [])
    by (by destruct (ExportTable_is_empty (exports m)), (has_foreign m)).
  apply (ReadsEnd_section _ _ (exports m)); [| |done].
  - intros _. split; [done|].
    unfold write_rows at 1. rewrite <- app_assoc.
    eapply Reads_bind; [by apply Reads_index_count|]. rewrite Nat2Z.id.
    eapply Reads_bind; [apply Reads_read_n|].
    { eapply Forall_impl; [exact Hc|]. intros s Hs. by apply Reads_string. }
    eapply Reads_bind; [by apply Reads_index_count|]. rewrite Nat2Z.id.
    eapply Reads_bind_last; [apply Reads_read_n|].
    { eapply Forall_impl; [exact He|]. intros s Hs. by apply Reads_export. }
    destruct (exports m). apply Reads_ret.
  - intros H. apply orb_false_iff in H as [H1 H2]. split; [|by apply tail_foreign_nil].
    apply negb_false_iff, andb_true_iff in H1 as [H3 H4]. destruct (exports m) as [cs fs]. simpl in *.
    by destruct cs, fs.
Qed.

Lemma to_bytes_tail :
  to_bytes m = MAGIC ++ to_le 8 (default NO_ENTRYPOINT_WIDE (main m)) ++
    write_rows write_bytes (strings m) ++ write_rows write_function (functions m) ++
    write_exports (exports m) (has_foreign m) ++ tail_foreign.
Proof. done. Qed.

Lemma Reads_main : Reads (read_main Wide) (to_le 8 (default NO_ENTRYPOINT_WIDE (main m))) (main m).
Proof.
  pose proof (ok_main m Hm) as Hmain. unfold read_main. cbn [is_legacy].
  assert (u64_ok (default NO_ENTRYPOINT_WIDE (main m))) as Hw.
  { destruct (main m); simpl in *; unfold unsigned_ok, NO_ENTRYPOINT_WIDE in *; lia. }
  eapply Reads_bind_last; [by apply Mod_Reads_u64|].
  destruct (main m) as [i|]; simpl in *; unfold unsigned_ok, NO_ENTRYPOINT_WIDE in *.
  - rewrite decide_False, decide_True by lia. apply Reads_ret.
  - apply Reads_ret.
Qed.

Lemma Reads_functions :
  Reads (read_rows Wide (read_function Wide)) (write_rows write_function (functions m))
    (plain_function <$> functions m).
Proof.
  pose proof (ok_functions m Hm) as Hf. apply Reads_fit. intros Hfit.
  rewrite <- (app_nil_r (write_rows _ _)) in Hfit. apply fit_rows in Hfit; [|done].
  eapply Reads_bind; [by apply Mod_Reads_u64|]. rewrite Nat2Z.id. apply Reads_read_n_map.
  intros f Hin. apply Reads_function. by eapply Forall_forall in Hf.
Qed.

Lemma read_module_to_bytes : ReadsEnd read_module (to_bytes m) m.
Proof.
  rewrite to_bytes_tail. unfold read_module.
  eapply ReadsEnd_bind; [eapply Reads_bind_last; [by apply Reads_take_slice|apply Reads_ret]|].
  eapply ReadsEnd_bind; [apply Reads_main|].
  eapply ReadsEnd_bind; [apply Reads_rows|].
  { intros s Hs. split; [done|]. apply Reads_string.
    pose proof (ok_strings m Hm) as Hst. by eapply Forall_forall in Hst. }
  eapply ReadsEnd_bind; [apply Reads_functions|].
  apply exports_tail, foreign_tail, aggregates_tail, callbacks_tail, releases_tail, retained_tail,
    constants_tail, types_tail.
  destruct m. apply ReadsEnd_ret.
Qed.
End tail.

(** ** What the reader accepts *)

Section accepts.
Context {host : Host}.
Abbreviation rd := (reader ModuleDecodeError).

(** Every success of [r] satisfies [P]. *)
Definition Yields {A} (r : rd A) (P : A -> Prop) : Prop :=
  forall bs off a off', r bs off = Ok (a, off') -> P a.

Lemma Yields_ret {A} (a : A) (P : A -> Prop) : P a -> Yields (mret a) P.
Proof. intros H bs off b off' [= <- _]. done. Qed.

Lemma Yields_fail {A} e (P : A -> Prop) : Yields (reader_fail e) P.
Proof. intros bs off b off' [=]. Qed.

Lemma Yields_lift {A} (m : result ModuleDecodeError A) (P : A -> Prop) :
  (forall a, m = Ok a -> P a) -> Yields (reader_lift m) P.
Proof. intros H bs off a off'. unfold reader_lift. destruct m; [|done]. intros [= <- _]. by apply H. Qed.

Lemma Yields_bind {A B} (r : rd A) (f : A -> rd B) P Q :
  Yields r P -> (forall a, P a -> Yields (f a) Q) -> Yields (r ≫= f) Q.
Proof.
  intros H1 H2 bs off b off'. unfold mbind, reader_bind.
  destruct (r bs off) as [[a off1]|] eqn:E; [|done]. apply H2. by eapply H1.
Qed.

Lemma Yields_weaken {A} (r : rd A) (P Q : A -> Prop) : Yields r P -> (forall a, P a -> Q a) -> Yields r Q.
Proof. intros H HQ bs off a off' E. by eapply HQ, H. Qed.

Lemma Yields_any {A} (r : rd A) : Yields r (fun _ => True).
Proof. done. Qed.

Lemma Yields_section {A} d (r : rd A) (P : A -> Prop) : P d -> Yields r P -> Yields (section d r) P.
Proof.
  intros Hd Hr. eapply Yields_bind; [apply Yields_any|]. intros [] _; [by apply Yields_ret|done].
Qed.

Lemma Yields_read_n {A} (r : rd A) (P : A -> Prop) n :
  Yields r P -> Yields (read_n n r) (fun xs => Forall P xs /\ length xs = n).
Proof.
  intros Hr. induction n as [|n IH]; cbn [read_n]; [by apply Yields_ret|].
  eapply Yields_bind; [exact Hr|]. intros x Hx. eapply Yields_bind; [exact IH|].
  intros xs [Hxs Hl]. apply Yields_ret. split; [by constructor|simpl; lia].
Qed.

Lemma Yields_read_indexed {A} (r : Z -> rd A) (P : A -> Prop) from n :
  (forall i, Yields (r i) P) -> Yields (read_indexed from n r) (fun xs => Forall P xs /\ length xs = n).
Proof.
  intros Hr. revert from. induction n as [|n IH]; intros from; cbn [read_indexed]; [by apply Yields_ret|].
  eapply Yields_bind; [apply Hr|]. intros x Hx. eapply Yields_bind; [apply IH|].
  intros xs [Hxs Hl]. apply Yields_ret. split; [by constructor|simpl; lia].
Qed.

Lemma Yields_each {A} (row : A -> rd A) (P Q : A -> Prop) xs :
  Forall P xs -> (forall x, P x -> Yields (row x) Q) ->
  Yields (read_each row xs) (fun ys => Forall Q ys /\ length ys = length xs).
Proof.
  intros Hxs Hr. induction Hxs as [|x xs Hx _ IH]; cbn [read_each]; [by apply Yields_ret|].
  eapply Yields_bind; [by apply Hr|]. intros y Hy. eapply Yields_bind; [exact IH|].
  intros ys [Hys Hl]. apply Yields_ret. split; [by constructor|simpl; lia].
Qed.

Lemma Yields_take n : Yields (take_ n) (fun bs => length bs = n).
Proof.
  intros bs off a off'. unfold take_, take_slice. repeat case_decide; intros; simplify_eq.
  rewrite length_take, length_drop. lia.
Qed.

Lemma Yields_from_le n :
  Yields (bs ← take_ n; mret (from_le bs)) (unsigned_ok (8 * Z.of_nat n)).
Proof. eapply Yields_bind; [apply Yields_take|]. intros bs <-. apply Yields_ret, from_le_range. Qed.

Lemma Yields_u16 : Yields read_u16 u64_ok.
Proof. eapply Yields_weaken; [apply (Yields_from_le 2)|]. unfold unsigned_ok. simpl. lia. Qed.
Lemma Yields_u32 : Yields read_u32 u32_ok.
Proof. apply (Yields_from_le 4). Qed.
Lemma Yields_u64 : Yields read_u64 u64_ok.
Proof. apply (Yields_from_le 8). Qed.

Lemma Yields_count f : Yields (read_count f) u64_ok.
Proof.
  destruct f; [|apply Yields_u64]. eapply Yields_weaken; [apply Yields_u32|].
  unfold unsigned_ok. lia.
Qed.

Lemma Yields_index_count f table : Yields (read_index_count f table) u32_ok.
Proof.
  eapply Yields_bind; [apply Yields_count|]. unfold unsigned_ok. intros c Hc.
  case_decide; [apply Yields_ret; lia|apply Yields_fail].
Qed.

Lemma Yields_string f : Yields (read_string f) rstring_ok.
Proof.
  eapply Yields_bind; [apply Yields_any|]. intros bs _. unfold rstring_ok.
  destruct (utf8_valid bs) eqn:E; [by apply Yields_ret|apply Yields_fail].
Qed.

Lemma Yields_rows {A} f (r : rd A) (P : A -> Prop) : Yields r P -> Yields (read_rows f r) (Forall P).
Proof.
  intros Hr. eapply Yields_bind; [apply Yields_any|]. intros c _.
  eapply Yields_weaken; [by apply Yields_read_n|]. by intros xs [? _].
Qed.

Lemma Yields_indexed_n {A} f table (r : rd A) (P : A -> Prop) :
  Yields r P -> Yields (count ← read_index_count f table; read_n (Z.to_nat count) r)
    (fun xs => Forall P xs /\ index_ok xs).
Proof.
  intros Hr. eapply Yields_bind; [apply Yields_index_count|]. unfold unsigned_ok, index_ok. intros c Hc.
  eapply Yields_weaken; [by apply Yields_read_n|]. intros xs [? ->]. split; [done|lia].
Qed.

(** One step along a chain of binds, closing the first reader from the hints. *)
Create HintDb yields.
#[local] Hint Resolve Yields_u16 Yields_u32 Yields_u64 Yields_string Yields_count Yields_index_count : yields.
Ltac yields := eapply Yields_bind; [solve [eauto 3 with yields]|]; intros ? ?.

Lemma Yields_export_type name : Yields (read_export_type name) ExportType_ok.
Proof.
  unfold read_export_type. eapply Yields_bind; [apply Yields_any|]. intros tag _.
  eapply Yields_bind; [apply Yields_u32|]. intros c Hc. apply Yields_lift. intros t.
  unfold ExportType_from_wire, ExportType_ok.
  repeat case_decide; intros; simplify_eq/=; try done; unfold unsigned_ok; lia.
Qed.
#[local] Hint Resolve Yields_export_type : yields.

Lemma Yields_export f : Yields (read_export f) ModuleExport_ok.
Proof.
  unfold read_export. do 3 yields.
  eapply Yields_bind; [apply Yields_rows, Yields_export_type|]. intros ps Hps. yields.
  by apply Yields_ret.
Qed.

Lemma Yields_exports f : Yields (read_exports f) ExportTable_ok.
Proof.
  apply Yields_section; [repeat constructor; unfold index_ok; simpl; lia|].
  eapply Yields_bind; [apply Yields_index_count|]. intros c Hc.
  eapply Yields_bind; [apply Yields_read_n, Yields_string|]. intros cs [Hcs Hcl].
  eapply Yields_bind; [apply Yields_index_count|]. intros n Hn.
  eapply Yields_bind; [apply Yields_read_n, Yields_export|]. intros es [Hes Hel].
  apply Yields_ret. unfold ExportTable_ok, index_ok, unsigned_ok in *. simpl. split_and!; try done; lia.
Qed.

Lemma Yields_spec name : Yields (read_spec name) spec_ok.
Proof.
  unfold read_spec. eapply Yields_bind; [apply Yields_any|]. intros tag _. case_decide.
  - yields. by apply Yields_ret.
  - eapply Yields_bind; [apply Yields_any|]. intros ty _. by apply Yields_ret.
Qed.

Lemma Yields_signature f name :
  Yields (read_signature f name) (fun s => ForeignSignature_ok s /\ retained s = []).
Proof.
  unfold read_signature. eapply Yields_bind; [apply Yields_rows, Yields_spec|]. intros ps Hps.
  eapply Yields_bind; [apply Yields_spec|]. intros r Hr. by apply Yields_ret.
Qed.

Lemma Yields_import f : Yields (read_import f) (fun i => ForeignImport_ok i /\ retained (signature i) = []).
Proof.
  unfold read_import. do 2 yields. do 2 (eapply Yields_bind; [apply Yields_any|]; intros ? _).
  eapply Yields_bind; [apply Yields_signature|]. intros s [Hs Hr]. apply Yields_ret. split; [|done].
  split_and!; try done; [by left|]. unfold retained_positions. cbn [signature ForeignImport_new]. by rewrite Hr.
Qed.

Lemma Yields_foreign f :
  Yields (read_foreign f)
    (fun is_ => Forall (fun i => ForeignImport_ok i /\ retained (signature i) = []) is_ /\ index_ok is_).
Proof.
  apply Yields_section; [split; [constructor|unfold index_ok; simpl; lia]|].
  apply Yields_indexed_n, Yields_import.
Qed.

Lemma Yields_member index : Yields (read_member index) member_word_ok.
Proof.
  unfold read_member. eapply Yields_bind; [apply Yields_any|]. intros tag _. repeat case_decide.
  - yields. by apply Yields_ret.
  - eapply Yields_bind with (P := element_word_ok); [|intros e He; yields; by apply Yields_ret].
    unfold read_array_element. eapply Yields_bind; [apply Yields_any|]. intros tag' _. case_decide.
    + yields. by apply Yields_ret.
    + eapply Yields_bind; [apply Yields_any|]. intros ty _. by apply Yields_ret.
  - eapply Yields_bind; [apply Yields_any|]. intros ty _. by apply Yields_ret.
Qed.

Lemma push_all_snoc t xs t1 a t2 id :
  push_all t xs = Ok t1 -> push t1 a = Ok (t2, id) -> push_all t (xs ++ [a]) = Ok t2.
Proof.
  revert t. induction xs as [|x xs IH]; intros t H Ha; cbn in *.
  - injection H as ->. by rewrite Ha.
  - destruct (push t x) as [[t0 i]|]; [|done]. cbn in *. by apply IH.
Qed.

Lemma push_entries t a t' id : push t a = Ok (t', id) -> entries t' = entries t ++ [a].
Proof. unfold push. destruct (forward_reference _ _); [done|]. by intros [= <- _]. Qed.

Lemma Yields_aggregates f index n t :
  Forall (fun a => Forall member_word_ok (members a)) (entries t) ->
  push_all ForeignAggregates_new (entries t) = Ok t ->
  Yields (read_aggregates f index n t) (fun t' =>
    Forall (fun a => Forall member_word_ok (members a)) (entries t') /\
    length (entries t') = (length (entries t) + n)%nat /\
    push_all ForeignAggregates_new (entries t') = Ok t').
Proof.
  revert index t. induction n as [|n IH]; intros index t Ht Hp; cbn [read_aggregates].
  { apply Yields_ret. split_and!; [done|lia|done]. }
  eapply Yields_bind; [apply Yields_rows, Yields_member|]. intros ms Hms.
  eapply Yields_bind with (P := fun p => push t {| members := ms |} = Ok p).
  { apply Yields_lift. intros p. destruct (push t _); [|done]. by intros [= ->]. }
  intros [t' id] E. pose proof (push_entries _ _ _ _ E) as Hent.
  eapply Yields_weaken; [apply IH|]; cbn [fst].
  - rewrite Hent. apply Forall_app. split; [done|]. by apply Forall_singleton.
  - rewrite Hent. by eapply push_all_snoc.
  - rewrite Hent, length_app. simpl. intros t'' (? & ? & ?). split_and!; [done|lia|done].
Qed.

Lemma check_imports_Ok t is_ : check_imports t is_ = Ok tt -> Forall (fun i => resolves t (signature i)) is_.
Proof.
  induction is_ as [|i is_ IH]; cbn; [constructor|]. unfold resolves in *.
  destruct (unresolved t (signature_specs (signature i))) eqn:E; [done|]. intros H. constructor; auto.
Qed.

Lemma Yields_foreign_aggregates f is_ :
  Yields (read_foreign_aggregates f is_)
    (fun t => ForeignAggregates_ok t /\ Forall (fun i => resolves t (signature i)) is_).
Proof.
  unfold read_foreign_aggregates. eapply Yields_bind with (P := ForeignAggregates_ok).
  - apply Yields_section; [split_and!; [constructor|unfold index_ok; simpl; lia|done]|].
    eapply Yields_bind; [apply Yields_index_count|]. unfold unsigned_ok. intros n Hn.
    eapply Yields_weaken; [by apply Yields_aggregates; [constructor|]|].
    intros t (? & Hl & ?). split_and!; [done| |done]. unfold index_ok. simpl in Hl. lia.
  - intros t Ht. eapply Yields_bind with (P := fun _ => check_imports t is_ = Ok tt).
    + apply Yields_lift. by intros [] ?.
    + intros _ Hc. apply Yields_ret. split; [done|by apply check_imports_Ok].
Qed.

Lemma Yields_callbacks f t :
  Yields (read_foreign_callbacks f t) (fun cs => Forall (ForeignCallback_ok t) cs /\ index_ok cs).
Proof.
  apply Yields_section; [split; [constructor|unfold index_ok; simpl; lia]|].
  eapply Yields_bind; [apply Yields_index_count|]. unfold unsigned_ok. intros n Hn.
  eapply Yields_weaken; [apply (Yields_read_indexed _ (ForeignCallback_ok t))|].
  - intros i. unfold read_callback. yields. eapply Yields_bind; [apply Yields_signature|]. intros s [Hs Hr].
    destruct (unresolved t (signature_specs s)) eqn:E; [apply Yields_fail|by apply Yields_ret].
  - intros cs [? Hl]. split; [done|]. unfold index_ok. lia.
Qed.

Lemma Yields_releases f fs :
  Forall FuncProto_ok fs ->
  Yields (read_releases f fs) (fun fs' => Forall FuncProto_ok fs' /\ length fs' = length fs).
Proof.
  intros Hfs. apply Yields_section; [done|]. eapply Yields_bind; [apply Yields_any|]. intros n _.
  case_decide; [|apply Yields_fail]. eapply Yields_each; [exact Hfs|].
  intros p (? & ? & ? & ? & _). unfold read_release. eapply Yields_bind; [apply Yields_any|]. intros c _.
  case_decide; [by apply Yields_ret|].
  eapply Yields_bind with (P := Forall u64_ok); [|intros slots Hs; by apply Yields_ret].
  eapply Yields_weaken; [apply (Yields_read_n _ u64_ok)|by intros ? [? _]].
  destruct f; [apply Yields_u16|apply Yields_u64].
Qed.

(** Set flags sit at positions a [u32] names. *)
Definition flags_low (flags : list bool) : Prop :=
  forall i, flags !! i = Some true -> Z.of_nat i < 2 ^ 32.

Lemma flags_low_positions k flags :
  (forall i, flags !! i = Some true -> Z.of_nat (k + i) < 2 ^ 32) ->
  Forall (fun p => Z.of_nat p < 2 ^ 32) (set_positions k flags).
Proof.
  revert k. induction flags as [|b flags IH]; intros k H; cbn; [constructor|].
  apply Forall_app. split.
  - destruct b; constructor; [|constructor]. specialize (H 0%nat eq_refl). by rewrite Nat.add_0_r in H.
  - apply IH. intros i Hi. specialize (H (S i) Hi). lia.
Qed.

Lemma Yields_marks sym params n flags :
  flags_low flags -> Yields (read_marks sym params n flags) flags_low.
Proof.
  revert flags. induction n as [|n IH]; intros flags Hf; cbn [read_marks]; [by apply Yields_ret|].
  eapply Yields_bind; [apply Yields_u32|]. unfold unsigned_ok. intros p Hp.
  destruct (flags !! Z.to_nat p) as [[]|] eqn:E; [apply Yields_fail| |apply Yields_fail].
  apply IH. intros i Hi. destruct (decide (i = Z.to_nat p)) as [->|]; [lia|].
  rewrite list_lookup_insert_ne in Hi by done. by apply Hf.
Qed.

Definition same_specs (t : ForeignAggregates) (i : ForeignImport) : Prop :=
  ForeignImport_ok i /\ resolves t (signature i).

Lemma Yields_retained t f is_ :
  Forall (fun i => ForeignImport_ok i /\ retained (signature i) = [] /\ resolves t (signature i)) is_ ->
  Yields (read_foreign_retained f is_)
    (fun is' => Forall (same_specs t) is' /\ length is' = length is_).
Proof.
  intros His. apply Yields_section.
  { split; [|done]. eapply Forall_impl; [exact His|]. by intros i (? & _ & ?). }
  eapply Yields_bind; [apply Yields_any|]. intros n _. case_decide; [|apply Yields_fail].
  eapply Yields_each; [exact His|]. intros i ((Hl & Hs & Hsg & Hok & _) & Hn & Hr).
  unfold read_retained. eapply Yields_bind; [apply Yields_any|]. intros c _. cbn zeta.
  eapply Yields_bind; [apply Yields_marks|].
  { intros j Hj%lookup_replicate. by destruct Hj. }
  intros flags Hf. apply Yields_ret. unfold same_specs, ForeignImport_ok, resolves, retain_parameters. cbn.
  pose proof (with_retained_ok (signature i) flags Hok) as Hok'. unfold with_retained in *.
  destruct (bool_decide _ && existsb id flags) eqn:E; split_and!; try done.
  - apply flags_low_positions. intros j Hj. by apply Hf.
  - unfold retained_positions. by rewrite Hn.
Qed.

Lemma Yields_function f : Yields (read_function f) FuncProto_ok.
Proof.
  unfold read_function. yields.
  eapply Yields_bind with (P := u64_ok); [destruct f; [apply Yields_u16|apply Yields_u64]|]. intros p Hp.
  eapply Yields_bind with (P := u64_ok); [destruct f; [apply Yields_u16|apply Yields_u64]|]. intros l Hl.
  do 3 (eapply Yields_bind; [apply Yields_any|]; intros ? _).
  eapply Yields_bind with (P := Forall Instruction_ok); [|intros c Hc; by apply Yields_ret].
  apply Yields_lift. intros c. unfold decode, decode_legacy. rewrite !decode_with_width_from.
  destruct (if is_legacy f then _ else _) as [c'|] eqn:E; [|done]. intros [= <-].
  destruct f; cbn [is_legacy] in E; by apply decode_from_image in E as [? _]; [|lia].
Qed.

Lemma Yields_constants f n :
  Yields (read_constants f n) (Forall (fun c => u64_ok c /\ c < Z.of_nat n)).
Proof.
  apply Yields_section; [constructor|]. eapply Yields_bind; [apply Yields_any|]. intros c _.
  eapply Yields_weaken; [apply (Yields_read_indexed _ (fun c => u64_ok c /\ c < Z.of_nat n))|by intros ? [? _]].
  intros i. unfold read_constant. yields. case_decide; [by apply Yields_ret|apply Yields_fail].
Qed.

Lemma Yields_types f : Yields (read_types f) (Forall TypeDescriptorRow_ok).
Proof.
  apply Yields_section; [constructor|]. apply Yields_rows. unfold read_type. do 3 yields.
  eapply Yields_bind; [apply Yields_rows, Yields_u64|]. intros args Ha.
  eapply Yields_bind; [apply Yields_rows, Yields_string|]. intros cs Hc. by apply Yields_ret.
Qed.

Lemma Yields_main f : Yields (read_main f) (option_ok u32_ok).
Proof.
  unfold read_main. destruct (is_legacy f); yields.
  - apply Yields_ret. by case_decide.
  - repeat case_decide; [by apply Yields_ret| |apply Yields_fail].
    apply Yields_ret. simpl. unfold unsigned_ok in *. lia.
Qed.

Lemma read_module_ok : Yields read_module Module_ok.
Proof.
  unfold read_module. eapply Yields_bind; [apply Yields_any|]. intros f _.
  eapply Yields_bind; [apply Yields_main|]. intros entry Hentry.
  eapply Yields_bind; [apply Yields_rows, Yields_string|]. intros strs Hstrs.
  eapply Yields_bind; [apply Yields_rows, Yields_function|]. intros fs0 Hfs0.
  eapply Yields_bind; [apply Yields_exports|]. intros ex Hex.
  eapply Yields_bind; [apply Yields_foreign|]. intros is0 [His0 Hix].
  eapply Yields_bind; [apply Yields_foreign_aggregates|]. intros t [Ht Hres].
  eapply Yields_bind; [apply Yields_callbacks|]. intros cbs Hcbs.
  eapply Yields_bind; [by apply Yields_releases|]. intros fs [Hfs Hlen].
  eapply Yields_bind; [apply (Yields_retained t)|].
  { clear -His0 Hres. induction His0 as [|i is_ [? ?] _ IH]; [constructor|].
    inversion Hres; subst. constructor; auto. }
  intros imports [Hi Hil].
  eapply Yields_bind; [apply Yields_constants|]. intros cs Hcs.
  eapply Yields_bind; [apply Yields_types|]. intros ts Hts. apply Yields_ret.
  constructor; cbn; try done.
  - split; [eapply Forall_impl; [exact Hi|by intros ? [? _]]|]. unfold index_ok in *. by rewrite Hil.
  - eapply Forall_impl; [exact Hi|by intros ? [_ ?]].
Qed.
End accepts.

Lemma from_bytes_to_bytes {host : Host} (m : Module_) :
  Module_ok m -> addressable (to_bytes m) -> from_bytes (to_bytes m) = Ok m.
Proof.
  intros Hm Hfit. pose proof (read_module_to_bytes [] m ltac:(done) Hm []) as E.
  cbn [app length] in E. rewrite app_nil_r in E.
  unfold from_bytes. rewrite E by done. cbn [mbind result_bind fst snd]. by rewrite decide_True.
Qed.

(** C4: what was written is read back. Every well-formed module whose bytes fit
    the host's address space decodes, section by section, to exactly itself,
    whichever of its appended sections are present. *)
Theorem module_roundtrip {host : Host} (m : Module_) :
  Module_ok m -> addressable (to_bytes m) -> from_bytes (to_bytes m) = Ok m.
Proof.
  intros Hm Hfit. by apply from_bytes_to_bytes.
Qed.

(** A module with every section: exports with a handle, a retaining import, a
    nested aggregate, a callback, a release plan, a constant and a type row. *)
Definition sample_module : Module_ := {|
  functions := [{| f_name := [x6d]; param_count := 1; local_count := 2; execution := Runtime;
                   code := [I_LoadLocal 0; I_CallForeign 0; I_Return]; releases := Planned [1] |};
                {| f_name := [x6e]; param_count := 0; local_count := 0; execution := Native;
                   code := []; releases := EveryLocal |}];
  main := Some 0;
  strings := [[x68; x69]; [xc3; xa9]];
  exports := {| classes := [[x57]];
                e_functions := [{| e_name := [x6d]; kira_name := [x6d]; e_function := 0;
                                   e_params := [Export_Handle 0]; e_result := Export_Void |}] |};
  foreign_imports := [{| library := [x6c]; symbol := [x73]; abi := ForeignAbi_C;
    signature := {| parameters := [Spec_Scalar ForeignType_I32; Spec_Aggregate 1];
                    sig_result := Spec_Scalar ForeignType_Void; retained := [false; true] |} |}];
  foreign_aggregates := {| entries := [{| members := [Member_Scalar ForeignType_F64] |};
                                       {| members := [Member_Array (Elem_Aggregate 0) 4] |}] |};
  foreign_callbacks := [{| cb_function := 1;
    cb_signature := {| parameters := [Spec_Aggregate 0]; sig_result := Spec_Scalar ForeignType_Bool;
                       retained := [] |} |}];
  constants := [1];
  types := [{| t_name := [x54]; t_package := []; t_kind := [x73]; t_arguments := [0];
               t_conformances := [[x45]] |}]
|}.

Lemma sample_module_ok : Module_ok sample_module.
Proof.
  constructor; cbn [sample_module functions main strings exports foreign_imports foreign_aggregates
    foreign_callbacks constants types].
  all: repeat lazymatch goal with |- signature_ok _ => right | _ => constructor end.
  all: vm_compute; intuition congruence.
Qed.

Lemma module_roundtrip_witness : @from_bytes host32 (to_bytes sample_module) = Ok sample_module.
Proof. apply (@module_roundtrip host32); [exact sample_module_ok|vm_compute; intuition congruence]. Defined.

(** C29: the reader accepts only well-formed modules, in both formats: strings
    are UTF-8, index tables fit their ids, aggregate rows only refer below
    themselves and every signature resolves, retained flags fit their
    signature, constants name the module's own functions and every decoded
    instruction is in range. *)
Theorem from_bytes_wellformed {host : Host} (bs : list byte) (m : Module_) :
  from_bytes bs = Ok m -> Module_ok m.
Proof.
  unfold from_bytes. destruct (read_module bs 0%nat) as [[m' off]|] eqn:E; [|done]. cbn.
  case_decide; [|done]. intros [= <-]. by eapply read_module_ok.
Qed.

(** A KBC1 module: no entrypoint, one string, one function. *)
Definition legacy_bytes : list byte :=
  LEGACY_MAGIC ++ to_le 4 NO_ENTRYPOINT ++ to_le 4 1 ++ to_le 4 2 ++ [x68; x69] ++
  to_le 4 1 ++ to_le 4 1 ++ [x6d] ++ to_le 2 0 ++ to_le 2 3 ++ [x01] ++
  to_le 4 4 ++ [x06; x02; x00; x2a].

Definition legacy_module : Module_ := {|
  functions := [{| f_name := [x6d]; param_count := 0; local_count := 3; execution := Runtime;
                   code := [I_LoadLocal 2; I_Return]; releases := EveryLocal |}];
  main := None; strings := [[x68; x69]]; exports := ExportTable_default;
  foreign_imports := []; foreign_aggregates := ForeignAggregates_new;
  foreign_callbacks := []; constants := []; types := []
|}.

Lemma from_bytes_wellformed_witness :
  @from_bytes host64 legacy_bytes = Ok legacy_module /\ Module_ok legacy_module.
Proof.
  split; [vm_compute; reflexivity|].
  apply (@from_bytes_wellformed host64 legacy_bytes). vm_compute. reflexivity.
Defined.

(** upgrading loses nothing: a module read from bytes of either format,
    written in the current one and read again, is the same module. *)
Theorem module_upgrade {host : Host} (bs : list byte) (m : Module_) :
  from_bytes bs = Ok m -> addressable (to_bytes m) -> from_bytes (to_bytes m) = Ok m.
Proof.
  intros H Hfit. assert (Module_ok m) as Hm.
  { revert H. unfold from_bytes. destruct (read_module bs 0%nat) as [[m' off]|] eqn:E; [|done]. cbn.
    case_decide; [|done]. intros [= <-]. by eapply read_module_ok. }
  by apply from_bytes_to_bytes.
Qed.

Lemma module_upgrade_witness :
  @from_bytes host64 (to_bytes legacy_module) = Ok legacy_module.
Proof.
  apply (@module_upgrade host64 legacy_bytes); [vm_compute; reflexivity|vm_compute; intuition congruence].
Defined.

(** A stream whose first four bytes are neither magic is refused as such,
    and a shorter one as truncated, before anything else is looked at. *)
Lemma from_bytes_bad_magic {host : Host} (bs : list byte) :
  take 4 bs <> MAGIC -> take 4 bs <> LEGACY_MAGIC ->
  from_bytes bs = Err (if decide (length bs < 4)%nat then Truncated else BadMagic).
Proof.
  intros H1 H2. pose proof usize_max_bounds.
  unfold from_bytes, read_module, read_magic, take_, take_slice. unfold mbind at 1.
  unfold mbind at 1, result_bind, reader_bind at 1. unfold mbind at 1, reader_bind at 1.
  rewrite decide_True by lia. rewrite drop_0. destruct (decide (length bs < 4)%nat).
  - by rewrite decide_False by lia.
  - rewrite decide_True by lia. rewrite !decide_False by done. done.
Qed.

(** Leftovers are refused: a well-formed module that has the format's last
    section, followed by any bytes at all, is an error that counts them. *)
Theorem from_bytes_trailing {host : Host} (m : Module_) (junk : list byte) :
  Module_ok m -> has_types m = true -> junk <> [] -> addressable (to_bytes m ++ junk) ->
  from_bytes (to_bytes m ++ junk) = Err (TrailingBytes (length junk)).
Proof.
  intros Hm Ht Hj Hfit. pose proof (read_module_to_bytes junk m ltac:(congruence) Hm []) as E.
  cbn [app length] in E. unfold from_bytes. rewrite E by done. cbn [mbind result_bind fst snd].
  rewrite length_app. destruct junk as [|b junk]; [done|].
  rewrite decide_False by (simpl; lia). do 2 f_equal. lia.
Qed.

Lemma from_bytes_trailing_witness :
  @from_bytes host64 (to_bytes sample_module ++ [x00; x01]) = Err (TrailingBytes 2).
Proof.
  apply (@from_bytes_trailing host64 sample_module [x00; x01]);
    [exact sample_module_ok|reflexivity|discriminate|vm_compute; intuition congruence].
Defined.
