(* ===== verification/Validate.v ===== *)
(** * Structural validation

    [kira-bytecode/src/validate.rs]: [Module::validate], the checks the
    interpreter's direct indexing rests on, run over modules that may not come
    from this compiler.

    [validate_iff] characterises the checker: it accepts a module exactly when
    the declarative [Valid] holds of it, where tables are looked up rather than
    bounds compared, constructor orders are permutations, release plans are
    strictly sorted and export names are distinct.  [control_stays_in_code]
    draws the consequence for control flow, the interpreter's checked [jump]
    included, and [operand_error_is_first] says what an operand error reports.
    [constant_init_arity_unchecked] and [lifecycle_marker_off_entrypoint] show
    two modules the error documentation says are refused. *)

From Stdlib Require Import Sorting.Permutation Sorting.Sorted.
From S2P Require Import Prelude AbiOps Instruction Foreign ModuleFormat.

Inductive ModuleValidateError :=
| MainOutOfRange (main : Z) (function_count : Z)
| NativeWithCode (function : rstring)
| MisplacedMainThreadLifecycle (function : rstring) (instruction : nat)
| EmptyCode (function : rstring)
| NotReturnTerminated (function : rstring)
| ReleaseSlotOutOfRange (function : rstring) (slot : Z)
| ReleasePlanUnordered (function : rstring) (slot : Z)
| ParamsExceedLocals (function : rstring)
| ConstantInitInvalid (slot : Z) (init : Z)
| OperandOutOfRange (function : rstring) (index : nat) (instruction : Instruction)
| ExportFunctionOutOfRange (export : rstring) (function : Z) (function_count : Z)
| ExportArityMismatch (export : rstring) (declared : nat) (actual : Z)
| ExportClassOutOfRange (export : rstring) (class : Z) (class_count : Z)
| CallbackFunctionOutOfRange (callback : Z) (function : Z) (function_count : Z)
| UnknownCallbackAggregate (callback : nat) (index : Z)
| DuplicateExport (export : rstring)
| LocalCountTooLarge (function : rstring) (count : Z).

Abbreviation check := (result ModuleValidateError unit).

(** [if cond { return Err(e) }]. *)
Definition refuse_if (cond : bool) (e : ModuleValidateError) : check := if cond then Err e else Ok tt.

(** A loop whose body may return early, with the index of each element. *)
Fixpoint check_each {A} (body : nat -> A -> check) (index : nat) (xs : list A) : check :=
  match xs with
  | [] => Ok tt
  | x :: xs => _ ← body index x; check_each body (S index) xs
  end.

Section validate.
Context {host : Host}.

Definition function_at (fs : list FuncProto) (index : Z) : option FuncProto :=
  i ← usize_try_from index; fs !! i.

Definition is_some_and {A} (o : option A) (p : A -> bool) : bool :=
  match o with Some a => p a | None => false end.

Definition non_native_function (fs : list FuncProto) (index : Z) : bool :=
  is_some_and (function_at fs index) (fun f => negb (is_native f)).

(** A body entered with a receiver: bytecode, with a slot to put it in. *)
Definition glue_function (fs : list FuncProto) (glue : Z) : bool :=
  non_native_function fs glue &&
  is_some_and (function_at fs glue) (fun callee => 0 <? local_count callee).

(** [usize::try_from(v).ok().is_some_and(|i| i < len)]. *)
Definition index_below (v : Z) (len : nat) : bool :=
  is_some_and (usize_try_from v) (fun i => (i <? len)%nat).

(** The [all] over the constructor order, marking each slot it has seen. *)
Fixpoint distinct_slots (seen : list bool) (order : list Z) : bool :=
  match order with
  | [] => true
  | slot :: order =>
    match usize_try_from slot with
    | None => false
    | Some i =>
      match seen !! i with
      | Some false => distinct_slots (<[i := true]> seen) order
      | _ => false
      end
    end
  end.

Definition in_range (m : Module_) (f : FuncProto) (i : Instruction) : bool :=
  match i with
  | I_ConstStr string => index_below string (length (strings m))
  | I_LoadLocal slot | I_TakeLocal slot | I_StoreLocal slot => slot <? local_count f
  | I_LoadConstant slot => slot <? Z.of_nat (length (constants m))
  | I_Call callee => non_native_function (functions m) callee
  | I_NewStructDropping _ glue => glue_function (functions m) glue
  | I_NewStructOrdered order glue =>
    distinct_slots (replicate (length order) false) order &&
    match glue with None => true | Some glue => glue_function (functions m) glue end
  | I_CallMut func slot _ =>
    non_native_function (functions m) func && (slot <? local_count f) &&
    is_some_and (function_at (functions m) func) (fun callee => 0 <? local_count callee)
  | I_CallWriteback func targets =>
    non_native_function (functions m) func &&
    forallb (fun t => (wb_slot t <? local_count f) &&
      is_some_and (function_at (functions m) func) (fun callee => wb_param t <? local_count callee)) targets
  | I_CallNative _ => true
  | I_MainThreadCall _ func args =>
    is_some_and (function_at (functions m) func) (fun callee => args =? param_count callee)
  | I_CallNativeWriteback _ targets => forallb (fun t => wb_slot t <? local_count f) targets
  | I_CallForeign id => index_below id (length (foreign_imports m))
  | I_ForeignCallback id => index_below id (length (foreign_callbacks m))
  | I_CLayoutAddress id => is_some_and (get (foreign_aggregates m) id) (fun _ => true)
  | I_Jump target | I_JumpIfFalse target => target <? Z.of_nat (length (code f))
  | I_StoreField slot path => (slot <? local_count f) && negb (FieldPath_is_empty path)
  | I_StorePlace slot _ | I_ArrayAppend slot _ => slot <? local_count f
  | I_ArrayGetLocal slot | I_CellGet slot | I_CellSet slot => slot <? local_count f
  | _ => true
  end.

Definition is_lifecycle (i : Instruction) : bool :=
  match i with I_MainThreadLifecycle => true | _ => false end.

Definition check_instruction (m : Module_) (f : FuncProto) (index : nat) (i : Instruction) : check :=
  _ ← refuse_if (is_lifecycle i && negb (index =? 0)%nat) (MisplacedMainThreadLifecycle (f_name f) index);
  refuse_if (negb (in_range m f i)) (OperandOutOfRange (f_name f) index i).

(** The release plan's loop, with the slot before this one. *)
Fixpoint check_plan (f : FuncProto) (previous : option Z) (slots : list Z) : check :=
  match slots with
  | [] => Ok tt
  | slot :: slots =>
    _ ← refuse_if (local_count f <=? slot) (ReleaseSlotOutOfRange (f_name f) slot);
    _ ← refuse_if (is_some_and previous (fun last => slot <=? last)) (ReleasePlanUnordered (f_name f) slot);
    check_plan f (Some slot) slots
  end.

Definition is_return (i : Instruction) : bool :=
  match i with I_Return | I_ReturnVoid => true | _ => false end.

(** [matches!(code.last(), Some(Return | ReturnVoid))]. *)
Definition ends_in_return (code : list Instruction) : bool := is_some_and (last code) is_return.

Definition check_body (m : Module_) (f : FuncProto) : check :=
  if is_native f then
    let lifecycle_stub := match code f with [I_MainThreadLifecycle] => true | _ => false end in
    refuse_if (negb (is_nil (code f)) && negb lifecycle_stub) (NativeWithCode (f_name f))
  else
    _ ← refuse_if (is_nil (code f)) (EmptyCode (f_name f));
    _ ← refuse_if (negb (ends_in_return (code f))) (NotReturnTerminated (f_name f));
    check_each (check_instruction m f) 0 (code f).

Definition check_function (m : Module_) (f : FuncProto) : check :=
  _ ← refuse_if (match usize_try_from (local_count f) with None => true | Some _ => false end)
        (LocalCountTooLarge (f_name f) (local_count f));
  _ ← match releases f with Planned slots => check_plan f None slots | EveryLocal => Ok tt end;
  _ ← refuse_if (local_count f <? param_count f) (ParamsExceedLocals (f_name f));
  check_body m f.

Definition check_class (m : Module_) (e : ModuleExport) (t : ExportType) : check :=
  let class_count := Z.of_nat (length (classes (exports m))) in
  match t with
  | Export_Handle class =>
    refuse_if (class_count <=? class) (ExportClassOutOfRange (e_name e) class class_count)
  | _ => Ok tt
  end.

Fixpoint check_exports (m : Module_) (seen : list rstring) (es : list ModuleExport) : check :=
  match es with
  | [] => Ok tt
  | e :: es =>
    match function_at (functions m) (e_function e) with
    | None => Err (ExportFunctionOutOfRange (e_name e) (e_function e) (Z.of_nat (length (functions m))))
    | Some f =>
      _ ← refuse_if (negb (Z.of_nat (length (e_params e)) =? param_count f))
            (ExportArityMismatch (e_name e) (length (e_params e)) (param_count f));
      _ ← check_each (fun _ => check_class m e) 0 (e_params e ++ [e_result e]);
      _ ← refuse_if (bool_decide (e_name e ∈ seen)) (DuplicateExport (e_name e));
      check_exports m (seen ++ [e_name e]) es
    end
  end.

Definition validate_exports (m : Module_) : check := check_exports m [] (e_functions (exports m)).

Definition check_main (m : Module_) : check :=
  match main m with
  | Some i => refuse_if (Z.of_nat (length (functions m)) <=? i)
                (MainOutOfRange i (Z.of_nat (length (functions m))))
  | None => Ok tt
  end.

Definition check_constant (m : Module_) (slot : nat) (init : Z) : check :=
  refuse_if (negb (non_native_function (functions m) init)) (ConstantInitInvalid (Z.of_nat slot) init).

Definition check_callback (m : Module_) (index : nat) (c : ForeignCallback) : check :=
  match function_at (functions m) (cb_function c) with
  | None => Err (CallbackFunctionOutOfRange (Z.of_nat index) (cb_function c) (Z.of_nat (length (functions m))))
  | Some _ => Ok tt
  end.

Definition check_callback_signature (m : Module_) (index : nat) (c : ForeignCallback) : check :=
  match unresolved (foreign_aggregates m) (signature_specs (cb_signature c)) with
  | Some id => Err (UnknownCallbackAggregate index id)
  | None => Ok tt
  end.

(** Verifies every structural invariant the interpreter relies on. *)
Definition validate (m : Module_) : check :=
  _ ← check_main m;
  _ ← check_each (check_constant m) 0 (constants m);
  _ ← check_each (check_callback m) 0 (foreign_callbacks m);
  _ ← check_each (check_callback_signature m) 0 (foreign_callbacks m);
  _ ← check_each (fun _ => check_function m) 0 (functions m);
  validate_exports m.
End validate.

(** ** What a valid module is *)

(** [i] is an index of [l], and [x] is what it names. *)
Definition at_index {A} (l : list A) (i : Z) (x : A) : Prop := exists n, i = Z.of_nat n /\ l !! n = Some x.

(** [i] names a function with a bytecode body. *)
Definition bytecode (m : Module_) (i : Z) (g : FuncProto) : Prop :=
  at_index (functions m) i g /\ execution g <> Native.

Definition is_local (f : FuncProto) (slot : Z) : Prop := 0 <= slot < local_count f.

(** A body entered with a receiver in its first slot. *)
Definition receiver_body (m : Module_) (i : Z) : Prop := exists g, bytecode m i g /\ 0 < local_count g.

Definition operand_valid (m : Module_) (f : FuncProto) (i : Instruction) : Prop :=
  match i with
  | I_ConstStr s => exists str, at_index (strings m) s str
  | I_LoadLocal slot | I_TakeLocal slot | I_StoreLocal slot => is_local f slot
  | I_LoadConstant slot => exists init, at_index (constants m) slot init
  | I_Call callee => exists g, bytecode m callee g
  | I_NewStructDropping _ glue => receiver_body m glue
  | I_NewStructOrdered order glue =>
    Permutation order (map Z.of_nat (seq 0 (length order))) /\
    (forall g, glue = Some g -> receiver_body m g)
  | I_CallMut func slot _ => is_local f slot /\ receiver_body m func
  | I_CallWriteback func targets =>
    exists g, bytecode m func g /\
      Forall (fun t => is_local f (wb_slot t) /\ is_local g (wb_param t)) targets
  | I_MainThreadCall _ func args => exists g, at_index (functions m) func g /\ args = param_count g
  | I_CallNativeWriteback _ targets => Forall (fun t => is_local f (wb_slot t)) targets
  | I_CallForeign id => exists import, at_index (foreign_imports m) id import
  | I_ForeignCallback id => exists cb, at_index (foreign_callbacks m) id cb
  | I_CLayoutAddress id => exists a, at_index (entries (foreign_aggregates m)) id a
  | I_Jump target | I_JumpIfFalse target => exists next, at_index (code f) target next
  | I_StoreField slot path => is_local f slot /\ FieldPath_steps path <> []
  | I_StorePlace slot _ | I_ArrayAppend slot _ => is_local f slot
  | I_ArrayGetLocal slot | I_CellGet slot | I_CellSet slot => is_local f slot
  | _ => True
  end.

Definition body_valid (m : Module_) (f : FuncProto) : Prop :=
  if decide (execution f = Native) then code f = [] \/ code f = [I_MainThreadLifecycle]
  else
    (exists i, last (code f) = Some i /\ (i = I_Return \/ i = I_ReturnVoid)) /\
    forall pc i, code f !! pc = Some i ->
      operand_valid m f i /\ (i = I_MainThreadLifecycle -> pc = 0%nat).

Definition plan_valid (f : FuncProto) : Prop :=
  match releases f with
  | EveryLocal => True
  | Planned slots => Sorted Z.lt slots /\ Forall (is_local f) slots
  end.

Definition function_valid {host : Host} (m : Module_) (f : FuncProto) : Prop :=
  local_count f <= usize_max /\ plan_valid f /\ param_count f <= local_count f /\ body_valid m f.

Definition class_valid (m : Module_) (t : ExportType) : Prop :=
  match t with
  | Export_Handle class => exists name, at_index (classes (exports m)) class name
  | _ => True
  end.

Definition export_valid (m : Module_) (e : ModuleExport) : Prop :=
  (exists g, at_index (functions m) (e_function e) g /\
     Z.of_nat (length (e_params e)) = param_count g) /\
  Forall (class_valid m) (e_params e ++ [e_result e]).

(** A type that names an aggregate names one of the module's. *)
Definition spec_valid (m : Module_) (s : ForeignTypeSpec) : Prop :=
  forall id, spec_aggregate s = Some id -> exists a, at_index (entries (foreign_aggregates m)) id a.

Record Valid {host : Host} (m : Module_) : Prop := {
  valid_main : forall i, main m = Some i -> exists f, at_index (functions m) i f;
  valid_constants : Forall (fun init => exists g, bytecode m init g) (constants m);
  valid_callbacks : Forall (fun c => (exists g, at_index (functions m) (cb_function c) g) /\
                                     Forall (spec_valid m) (signature_specs (cb_signature c)))
                           (foreign_callbacks m);
  valid_functions : Forall (function_valid m) (functions m);
  valid_exports : Forall (export_valid m) (e_functions (exports m)) /\
                  NoDup (map e_name (e_functions (exports m)))
}.

(** Every integer of the module lies in its Rust type. *)
Record widths_ok (m : Module_) : Prop := {
  w_functions : Forall FuncProto_ok (functions m);
  w_main : option_ok u32_ok (main m);
  w_constants : Forall u64_ok (constants m);
  w_callbacks : Forall (fun c => u32_ok (cb_function c) /\ ForeignSignature_ok (cb_signature c)) (foreign_callbacks m);
  w_exports : Forall ModuleExport_ok (e_functions (exports m))
}.

(** The module's tables fit the address space, as every vector does. *)
Definition tables_fit {host : Host} (m : Module_) : Prop :=
  Z.of_nat (length (functions m)) <= usize_max /\ Z.of_nat (length (strings m)) <= usize_max /\
  Z.of_nat (length (foreign_imports m)) <= usize_max /\
  Z.of_nat (length (foreign_callbacks m)) <= usize_max /\
  Forall (fun f => Z.of_nat (length (code f)) <= usize_max /\
    forall order glue, I_NewStructOrdered order glue ∈ code f -> Z.of_nat (length order) <= usize_max)
    (functions m).

(** ** Checks as propositions *)

Lemma refuse_if_Ok c e : refuse_if c e = Ok tt <-> c = false.
Proof. by destruct c. Qed.

Lemma check_bind_Ok (a b : check) : (_ ← a; b) = Ok tt <-> a = Ok tt /\ b = Ok tt.
Proof. destruct a as [[]|e]; cbn; split; [done|by intros [_ ?]|done|by intros [? _]]. Qed.

Lemma check_each_Ok {A} (body : nat -> A -> check) k xs :
  check_each body k xs = Ok tt <-> forall i x, xs !! i = Some x -> body (k + i)%nat x = Ok tt.
Proof.
  revert k. induction xs as [|x xs IH]; intros k; cbn [check_each]; [done|].
  rewrite check_bind_Ok, IH. split.
  - intros [H1 H2] [|i] y Hy; simpl in Hy; [injection Hy as <-; by rewrite Nat.add_0_r|].
    replace (k + S i)%nat with (S k + i)%nat by lia. by apply H2.
  - intros H. split; [specialize (H 0%nat x eq_refl); by rewrite Nat.add_0_r in H|].
    intros i y Hy. replace (S k + i)%nat with (k + S i)%nat by lia. by apply H.
Qed.

Lemma check_each_Forall {A} (body : A -> check) k xs :
  check_each (fun _ => body) k xs = Ok tt <-> Forall (fun x => body x = Ok tt) xs.
Proof. rewrite check_each_Ok, Forall_lookup. done. Qed.

Lemma is_some_and_true {A} (o : option A) p : is_some_and o p = true <-> exists a, o = Some a /\ p a = true.
Proof. destruct o; cbn; [|by split; [|intros (? & ? & _)]]. split; [eauto|]. by intros (? & [= <-] & ?). Qed.

Section proofs.
Context {host : Host}.

Lemma usize_lookup {A} (l : list A) v x :
  Z.of_nat (length l) <= usize_max -> (i ← usize_try_from v; l !! i) = Some x <-> at_index l v x.
Proof.
  intros Hl. unfold at_index. split.
  - destruct (usize_try_from v) as [n|] eqn:E; [|done]. cbn. apply usize_try_from_Some in E as [-> _]. eauto.
  - intros (n & -> & Hn). rewrite usize_try_from_nat; [done|]. apply lookup_lt_Some in Hn. lia.
Qed.

Lemma index_below_iff {A} (l : list A) v :
  Z.of_nat (length l) <= usize_max -> index_below v (length l) = true <-> exists x, at_index l v x.
Proof.
  intros Hl. unfold index_below. rewrite is_some_and_true. split.
  - intros (i & E & Hi%Nat.ltb_lt). apply usize_try_from_Some in E as [-> _].
    destruct (lookup_lt_is_Some_2 l i Hi) as [x Hx]. exists x, i. done.
  - intros (x & i & -> & Hx). exists i. pose proof (lookup_lt_Some _ _ _ Hx).
    rewrite usize_try_from_nat by lia. split; [done|]. by apply Nat.ltb_lt.
Qed.

Lemma below_iff {A} (l : list A) v :
  0 <= v -> v < Z.of_nat (length l) <-> exists x, at_index l v x.
Proof.
  intros Hv. split.
  - intros H. destruct (lookup_lt_is_Some_2 l (Z.to_nat v)) as [x Hx]; [lia|]. exists x, (Z.to_nat v).
    split; [lia|done].
  - intros (x & n & -> & Hx). apply lookup_lt_Some in Hx. lia.
Qed.

Lemma get_iff t id : 0 <= id ->
  is_some_and (get t id) (fun _ => true) = true <-> exists a, at_index (entries t) id a.
Proof.
  intros Hid. unfold get. rewrite is_some_and_true. split.
  - intros (a & Ha & _). exists a, (Z.to_nat id). split; [lia|done].
  - intros (a & n & -> & Ha). rewrite Nat2Z.id. eauto.
Qed.

Variable (m : Module_).
Hypothesis (Hm : widths_ok m).
Hypothesis (Hfit : tables_fit m).

Lemma function_at_iff i g : function_at (functions m) i = Some g <-> at_index (functions m) i g.
Proof. apply usize_lookup, Hfit. Qed.

Lemma at_index_inj {A} (l : list A) i x y : at_index l i x -> at_index l i y -> x = y.
Proof. intros (n & -> & Hx) (n' & ?%Nat2Z.inj & Hy). congruence. Qed.

Lemma non_native_iff i : non_native_function (functions m) i = true <-> exists g, bytecode m i g.
Proof.
  unfold non_native_function, bytecode, is_native. rewrite is_some_and_true. split.
  - intros (g & Hg%function_at_iff & Hn). exists g. split; [done|].
    by apply negb_true_iff, bool_decide_eq_false in Hn.
  - intros (g & Hg & Hn). exists g. split; [by apply function_at_iff|].
    by apply negb_true_iff, bool_decide_eq_false.
Qed.

(** A check on the callee of a bytecode call, once it is known to be one. *)
Lemma callee_iff i (p : FuncProto -> bool) (P : FuncProto -> Prop) :
  (forall g, p g = true <-> P g) ->
  non_native_function (functions m) i && is_some_and (function_at (functions m) i) p = true <->
  exists g, bytecode m i g /\ P g.
Proof.
  intros Hp. rewrite andb_true_iff, non_native_iff, is_some_and_true. split.
  - intros [(g & Hg & Hn) (g' & Hg'%function_at_iff & Hpg)]. exists g. split; [done|]. apply Hp.
    by rewrite (at_index_inj _ _ _ _ Hg Hg').
  - intros (g & [Hg Hn] & HP). split; [by exists g|]. exists g. split; [by apply function_at_iff|by apply Hp].
Qed.

Lemma glue_iff i : glue_function (functions m) i = true <-> receiver_body m i.
Proof. apply callee_iff. intros g. apply Z.ltb_lt. Qed.

Lemma local_iff f slot : 0 <= slot -> (slot <? local_count f) = true <-> is_local f slot.
Proof. unfold is_local. rewrite Z.ltb_lt. lia. Qed.

(** Marking slots off finds exactly the duplicate-free in-range orders. *)
Lemma distinct_slots_iff seen order :
  Z.of_nat (length seen) <= usize_max ->
  distinct_slots seen order = true <->
  NoDup order /\ Forall (fun s => at_index seen s false) order.
Proof.
  revert seen. induction order as [|s order IH]; intros seen Hs; cbn [distinct_slots].
  { split; [|done]. split; constructor. }
  split.
  - destruct (usize_try_from s) as [i|] eqn:Ei; [|done]. apply usize_try_from_Some in Ei as [-> _].
    destruct (seen !! i) as [[]|] eqn:Hi; [done| |done].
    intros H. apply IH in H as [Hnd Hall]; [|by rewrite length_insert].
    assert (forall j, at_index (<[i:=true]> seen) j false -> j <> Z.of_nat i /\ at_index seen j false) as Hsub.
    { intros j (n & -> & Hn). destruct (decide (n = i)) as [->|Hne].
      - rewrite list_lookup_insert_eq in Hn by (by eapply lookup_lt_Some). done.
      - rewrite list_lookup_insert_ne in Hn by done. split; [lia|]. by exists n. }
    split.
    + constructor; [|done]. intros Hin. eapply Forall_forall in Hall; [|exact Hin]. by apply Hsub in Hall as [? _].
    + constructor; [by exists i|]. eapply Forall_impl; [exact Hall|]. intros j Hj. by apply Hsub.
  - intros [Hnd Hall]. inversion Hnd as [|? ? Hni Hnd']; subst. inversion Hall as [|? ? Hs0 Hall']; subst.
    destruct Hs0 as (i & -> & Hi). pose proof (lookup_lt_Some _ _ _ Hi).
    rewrite usize_try_from_nat, Hi by lia. apply IH; [by rewrite length_insert|]. split; [done|].
    apply Forall_forall. intros j Hj. eapply Forall_forall in Hall'; [|exact Hj].
    destruct Hall' as (n & -> & Hn). exists n. split; [done|].
    rewrite list_lookup_insert_ne; [done|]. intros ->. done.
Qed.

Lemma permutation_iff order :
  Z.of_nat (length order) <= usize_max ->
  distinct_slots (replicate (length order) false) order = true <->
  Permutation order (map Z.of_nat (seq 0 (length order))).
Proof.
  intros Hl. rewrite distinct_slots_iff by (by rewrite length_replicate). split.
  - intros [Hnd Hall]. apply NoDup_Permutation_bis; [by apply NoDup_ListNoDup| |].
    + by rewrite length_map, length_seq.
    + intros s Hs. rewrite Forall_forall in Hall. specialize (Hall s (proj2 (list_elem_of_In _ _) Hs)).
      destruct Hall as (n & -> & Hn). apply lookup_replicate in Hn as [_ Hn].
      apply in_map, in_seq. lia.
  - intros Hp. split.
    + apply NoDup_ListNoDup. eapply Permutation_NoDup; [by symmetry|].
      apply Finite.Injective_map_NoDup; [intros ? ?; lia|apply seq_NoDup].
    + apply Forall_forall. intros s Hs. apply list_elem_of_In in Hs.
      eapply Permutation_in in Hs; [|exact Hp]. apply in_map_iff in Hs as (n & <- & Hn%in_seq).
      exists n. split; [done|]. apply lookup_replicate. split; [done|lia].
Qed.

Lemma forallb_iff {A} (p : A -> bool) (P : A -> Prop) l :
  Forall (fun t => p t = true <-> P t) l -> forallb p l = true <-> Forall P l.
Proof.
  induction 1 as [|t l Ht _ IH]; cbn; [by split|]. by rewrite andb_true_iff, Forall_cons, Ht, IH.
Qed.

Lemma native_targets_iff f ts : targets_ok ts ->
  forallb (fun t => wb_slot t <? local_count f) ts = true <-> Forall (fun t => is_local f (wb_slot t)) ts.
Proof.
  intros [Hts _]. apply forallb_iff. eapply Forall_impl; [exact Hts|].
  intros t [Hp [Hs _]]. unfold u64_ok in *. apply local_iff. lia.
Qed.

Lemma targets_iff f g ts func : targets_ok ts -> bytecode m func g ->
  forallb (fun t => (wb_slot t <? local_count f) &&
    is_some_and (function_at (functions m) func) (fun callee => wb_param t <? local_count callee)) ts = true <->
  Forall (fun t => is_local f (wb_slot t) /\ is_local g (wb_param t)) ts.
Proof.
  intros [Hts _] [Hg _]. apply function_at_iff in Hg. rewrite Hg. cbn [is_some_and].
  apply forallb_iff. eapply Forall_impl; [exact Hts|].
  intros t [Hp [Hs _]]. unfold u64_ok in *. rewrite andb_true_iff. f_equiv; apply local_iff; lia.
Qed.

Lemma writeback_iff f func ts : targets_ok ts ->
  non_native_function (functions m) func &&
  forallb (fun t => (wb_slot t <? local_count f) &&
    is_some_and (function_at (functions m) func) (fun callee => wb_param t <? local_count callee)) ts = true <->
  exists g, bytecode m func g /\ Forall (fun t => is_local f (wb_slot t) /\ is_local g (wb_param t)) ts.
Proof.
  intros Hts. rewrite andb_true_iff, non_native_iff. split.
  - intros [[g Hg] H]. exists g. split; [done|]. by eapply targets_iff.
  - intros (g & Hg & H). split; [by exists g|]. by eapply targets_iff.
Qed.

Lemma ordered_iff f order glue :
  f ∈ functions m -> I_NewStructOrdered order glue ∈ code f ->
  distinct_slots (replicate (length order) false) order &&
    match glue with None => true | Some glue => glue_function (functions m) glue end = true <->
  Permutation order (map Z.of_nat (seq 0 (length order))) /\ (forall g, glue = Some g -> receiver_body m g).
Proof.
  intros Hf Hi. rewrite andb_true_iff, permutation_iff.
  - f_equiv. destruct glue as [g|]; [|by split]. rewrite glue_iff. split; [by intros ? ? [= <-]|by intros H; apply H].
  - destruct Hfit as (_ & _ & _ & _ & Hc). rewrite Forall_forall in Hc. by eapply (proj2 (Hc f Hf)).
Qed.

Lemma main_thread_iff func args :
  is_some_and (function_at (functions m) func) (fun callee => args =? param_count callee) = true <->
  exists g, at_index (functions m) func g /\ args = param_count g.
Proof.
  rewrite is_some_and_true. split; intros (g & Hg & H); exists g;
    (split; [by apply function_at_iff|by apply Z.eqb_eq]).
Qed.

Lemma store_field_iff f slot path : 0 <= slot ->
  (slot <? local_count f) && negb (FieldPath_is_empty path) = true <->
  is_local f slot /\ FieldPath_steps path <> [].
Proof.
  intros Hs. rewrite andb_true_iff, local_iff by done. f_equiv. unfold FieldPath_is_empty.
  by destruct (FieldPath_steps path).
Qed.

Lemma call_mut_iff f func slot : 0 <= slot ->
  non_native_function (functions m) func && (slot <? local_count f) &&
    is_some_and (function_at (functions m) func) (fun callee => 0 <? local_count callee) = true <->
  is_local f slot /\ receiver_body m func.
Proof.
  intros Hs. rewrite <- glue_iff, <- local_iff by done. unfold glue_function. rewrite !andb_true_iff. tauto.
Qed.

(** The operand check decides what each instruction's operands may name. *)
Lemma in_range_iff f i :
  f ∈ functions m -> i ∈ code f -> Instruction_ok i -> in_range m f i = true <-> operand_valid m f i.
Proof.
  intros Hf Hi Hok. pose proof Hfit as (_ & Hstr & Himp & Hcb & _).
  destruct i; cbn [in_range operand_valid Instruction_ok] in *; try done;
    repeat match goal with H : _ /\ _ |- _ => destruct H end; unfold u64_ok, u32_ok in *;
    try (apply local_iff; lia); try (by apply index_below_iff); try apply non_native_iff;
    try apply glue_iff; try (apply get_iff; lia); try apply main_thread_iff;
    try (rewrite Z.ltb_lt; apply below_iff; lia); try (apply store_field_iff; lia);
    try (apply call_mut_iff; lia); try (by apply writeback_iff); try (by apply native_targets_iff).
  by eapply ordered_iff.
Qed.

Lemma is_lifecycle_true i : is_lifecycle i = true <-> i = I_MainThreadLifecycle.
Proof. by destruct i. Qed.

Lemma check_instruction_iff f pc i :
  f ∈ functions m -> i ∈ code f -> Instruction_ok i ->
  check_instruction m f pc i = Ok tt <-> operand_valid m f i /\ (i = I_MainThreadLifecycle -> pc = 0%nat).
Proof.
  intros Hf Hi Hok. unfold check_instruction. rewrite check_bind_Ok, !refuse_if_Ok.
  rewrite negb_false_iff, in_range_iff by done.
  rewrite andb_false_iff, negb_false_iff, Nat.eqb_eq. pose proof (is_lifecycle_true i) as Hl.
  destruct (is_lifecycle i), (decide (pc = 0%nat)); split; intros [H1 H2]; (split; [done || tauto|]); intuition congruence.
Qed.

Lemma check_plan_iff f previous slots :
  Forall u64_ok slots -> 
  check_plan f previous slots = Ok tt <->
  Sorted Z.lt (option_list previous ++ slots) /\ Forall (is_local f) slots.
Proof. 
  intros H; revert previous. induction H as [|s slots Hs _ IH]; intros previous; cbn [check_plan].
  { split; [|done]. intros _. split; [|done]. destruct previous; cbn; repeat constructor. }
  rewrite !check_bind_Ok, !refuse_if_Ok, IH, Z.leb_gt, Forall_cons. unfold is_local, u64_ok in *.
  destruct previous as [p|]; cbn.
  - rewrite Z.leb_gt. split.
    + intros (? & ? & ? & ?). repeat split; try done; try lia. constructor; [done|]. by constructor.
    + intros (Hso & ? & ?). inversion Hso as [|? ? Hso' Hh]; subst. inversion Hh; subst. repeat split; try done; lia.
  - split; [intros (? & _ & ? & ?)|intros (? & ? & ?)]; repeat split; try done; lia.
Qed.

Lemma ends_in_return_iff c :
  ends_in_return c = true <-> exists i, last c = Some i /\ (i = I_Return \/ i = I_ReturnVoid).
Proof.
  unfold ends_in_return. rewrite is_some_and_true. split; intros (i & Hl & Hi); exists i; (split; [done|]).
  - destruct i; try done; [by left|by right].
  - by destruct Hi as [-> | ->].
Qed.

Lemma check_body_iff f :
  f ∈ functions m -> FuncProto_ok f -> check_body m f = Ok tt <-> body_valid m f.
Proof.
  intros Hf (_ & _ & _ & Hc & _). unfold check_body, body_valid, is_native.
  case_bool_decide as Hn; case_decide as Hn0; try done.
  - rewrite refuse_if_Ok, andb_false_iff, !negb_false_iff. unfold is_nil.
    split; intros [Hk|Hk]; try (rewrite Hk; auto; fail).
    + left. by destruct (code f).
    + right. by destruct (code f) as [|[] []].
  - rewrite !check_bind_Ok, !refuse_if_Ok, negb_false_iff, ends_in_return_iff, check_each_Ok.
    assert (forall pc i, code f !! pc = Some i ->
      check_instruction m f (0 + pc) i = Ok tt <->
      operand_valid m f i /\ (i = I_MainThreadLifecycle -> pc = 0%nat)) as Hi.
    { intros pc i Hpc. apply check_instruction_iff; [done|by eapply list_elem_of_lookup_2|].
      rewrite Forall_lookup in Hc. by eapply Hc. }
    split.
    + intros (_ & Hr & H). split; [done|]. intros pc i Hpc. by apply Hi, H.
    + intros (Hr & H). split; [by destruct (code f); [destruct Hr as (? & ? & _)|]|]. split; [done|].
      intros pc i Hpc. apply Hi; [done|]. by apply H.
Qed.

Lemma check_function_iff f :
  f ∈ functions m -> FuncProto_ok f -> check_function m f = Ok tt <-> function_valid m f.
Proof.
  intros Hf Hok. pose proof Hok as (_ & Hp & Hl & _ & Hr). unfold check_function, function_valid.
  rewrite !check_bind_Ok, !refuse_if_Ok, check_body_iff, Z.ltb_ge by done. f_equiv; [|f_equiv].
  - unfold usize_try_from, u64_ok in *. case_decide; split; try done; lia.
  - unfold plan_valid. destruct (releases f); [done|]. by apply check_plan_iff.
Qed.

Lemma at_index_length {A} (l : list A) i : 0 <= i ->
  (Z.of_nat (length l) <=? i) = false <-> exists x, at_index l i x.
Proof. intros Hi. rewrite Z.leb_gt. by apply below_iff. Qed.

Lemma check_class_iff e t : u32_ok (class_index t) -> check_class m e t = Ok tt <-> class_valid m t.
Proof.
  intros Ht. destruct t; try done. cbn [check_class class_valid class_index] in *. unfold u32_ok in Ht.
  rewrite refuse_if_Ok. apply at_index_length. lia.
Qed.

Lemma check_types_iff e ts : Forall ExportType_ok ts ->
  check_each (fun _ => check_class m e) 0 ts = Ok tt <-> Forall (class_valid m) ts.
Proof.
  intros Hts. rewrite check_each_Forall. induction Hts as [|t ts Ht _ IH]; [by split; constructor|].
  by rewrite !Forall_cons, IH, check_class_iff.
Qed.

Lemma check_exports_iff seen es : Forall ModuleExport_ok es ->
  check_exports m seen es = Ok tt <->
  Forall (export_valid m) es /\ NoDup (map e_name es) /\ forall n, n ∈ seen -> n ∉ map e_name es.
Proof.
  intros Hes. revert seen. induction Hes as [|e es He _ IH]; intros seen; cbn [check_exports map].
  { split; [|done]. intros _. repeat split; [constructor..|]. intros n _. apply not_elem_of_nil. }
  destruct He as (_ & _ & Hfn & Hps & Hr). rewrite Forall_cons, NoDup_cons. unfold export_valid at 1.
  destruct (function_at (functions m) (e_function e)) as [g|] eqn:Hg.
  - apply function_at_iff in Hg.
    rewrite !check_bind_Ok, !refuse_if_Ok, negb_false_iff, Z.eqb_eq, bool_decide_eq_false, IH.
    rewrite check_types_iff by (apply Forall_app; split; [done|by constructor]).
    setoid_rewrite elem_of_app. setoid_rewrite list_elem_of_singleton. setoid_rewrite elem_of_cons. split.
    + intros (Ha & Hc & Hns & Hv & Hnd & Hd). repeat split; try done; [by exists g|by apply Hd; right|].
      intros n Hn [->|Hin]; [done|]. by eapply Hd; [left|].
    + intros (([(g' & Hg' & Ha) Hc] & Hv) & (Hni & Hnd) & Hd).
      rewrite (at_index_inj _ _ _ _ Hg Hg'). repeat split; try done.
      * intros Hs. by apply (Hd _ Hs); left.
      * intros n [Hn| ->] Hin; [by apply (Hd n Hn); right|done].
  - split; [done|]. intros ((((g & Hg' & _) & _) & _) & _). apply function_at_iff in Hg'. congruence.
Qed.

Lemma check_main_iff : check_main m = Ok tt <-> forall i, main m = Some i -> exists f, at_index (functions m) i f.
Proof.
  pose proof (w_main m Hm) as Hw. unfold check_main. destruct (main m) as [i|]; [|done].
  cbn in Hw. unfold u32_ok in Hw. rewrite refuse_if_Ok, at_index_length by lia.
  split; [by intros ? ? [= <-]|by intros H; apply H].
Qed.

Lemma check_constants_iff :
  check_each (check_constant m) 0 (constants m) = Ok tt <->
  Forall (fun init => exists g, bytecode m init g) (constants m).
Proof.
  rewrite check_each_Ok, Forall_lookup. unfold check_constant.
  setoid_rewrite refuse_if_Ok. setoid_rewrite negb_false_iff. by setoid_rewrite non_native_iff.
Qed.

Lemma unresolved_iff specs : Forall spec_ok specs ->
  unresolved (foreign_aggregates m) specs = None <-> Forall (spec_valid m) specs.
Proof.
  induction 1 as [|s specs Hs _ IH]; [by split; constructor|]. rewrite Forall_cons. cbn [unresolved].
  unfold spec_valid at 1. unfold spec_ok in Hs. destruct (spec_aggregate s) as [id|]; cbn in Hs.
  - unfold u32_ok in Hs. assert (0 <= id) as Hid by lia. pose proof (get_iff (foreign_aggregates m) id Hid) as Hget.
    rewrite <- IH. destruct (get (foreign_aggregates m) id) as [a|]; cbn [is_some_and] in Hget.
    + split; [|tauto]. intros H. split; [|done]. intros ? [= <-]. by apply Hget.
    + split; [done|]. intros [H _]. by apply Hget in H.
  - rewrite IH. by split; [|intros [_ ?]].
Qed.

Lemma check_callbacks_iff :
  check_each (check_callback m) 0 (foreign_callbacks m) = Ok tt /\
  check_each (check_callback_signature m) 0 (foreign_callbacks m) = Ok tt <->
  Forall (fun c => (exists g, at_index (functions m) (cb_function c) g) /\
                   Forall (spec_valid m) (signature_specs (cb_signature c))) (foreign_callbacks m).
Proof.
  rewrite !check_each_Ok, Forall_and. rewrite !Forall_lookup. f_equiv.
  - unfold check_callback. setoid_rewrite <- function_at_iff.
    split; intros H i c Hc; specialize (H i c Hc); destruct (function_at _ _); try done; [eauto|by destruct H].
  - unfold check_callback_signature.
    assert (forall i c, foreign_callbacks m !! i = Some c ->
      unresolved (foreign_aggregates m) (signature_specs (cb_signature c)) = None <->
      Forall (spec_valid m) (signature_specs (cb_signature c))) as Hu.
    { intros i c Hc. apply unresolved_iff. pose proof (w_callbacks m Hm) as Hw. rewrite Forall_lookup in Hw.
      destruct (Hw i c Hc) as [_ [Hp Hr]]. apply Forall_app. split; [done|by constructor]. }
    split; intros H i c Hc; specialize (H i c Hc).
    + eapply Hu; [exact Hc|]. by destruct (unresolved _ _).
    + eapply Hu in H; [|exact Hc]. by rewrite H.
Qed.

Lemma check_functions_iff :
  check_each (fun _ => check_function m) 0 (functions m) = Ok tt <-> Forall (function_valid m) (functions m).
Proof.
  rewrite check_each_Forall, !Forall_forall. pose proof (w_functions m Hm) as Hw. rewrite Forall_forall in Hw.
  split; intros H f Hf; apply check_function_iff; auto.
Qed.
End proofs.

(** ** Consequences *)

Lemma validate_spec {host : Host} (m : Module_) :
  widths_ok m -> tables_fit m -> validate m = Ok tt <-> Valid m.
Proof.
  intros Hw Hfit. unfold validate, validate_exports. rewrite !check_bind_Ok.
  rewrite check_main_iff, check_constants_iff, check_functions_iff, check_exports_iff by (done || apply Hw).
  pose proof (check_callbacks_iff m Hw Hfit) as Hc. split.
  - intros (H1 & H2 & H3 & H4 & H5 & H6 & H7 & _). constructor; try done. by apply Hc.
  - intros [H1 H2 H3 H4 [H5 H6]]. apply Hc in H3 as [? ?]. repeat split; try done.
    intros n Hn. by apply not_elem_of_nil in Hn.
Qed.

Lemma Module_ok_widths m : Module_ok m -> widths_ok m.
Proof.
  intros H. constructor; try apply H.
  - eapply Forall_impl; [apply (ok_constants m H)|]. by intros c [? _].
  - eapply Forall_impl; [apply (proj1 (ok_callbacks m H))|]. by intros c (? & ? & _).
Qed.

Lemma check_each_Err {A} (body : nat -> A -> check) k xs e :
  check_each body k xs = Err e -> exists i x, xs !! i = Some x /\ body (k + i)%nat x = Err e /\
    forall j y, (j < i)%nat -> xs !! j = Some y -> body (k + j)%nat y = Ok tt.
Proof.
  revert k. induction xs as [|x xs IH]; intros k; cbn [check_each]; [done|].
  destruct (body k x) as [[]|e'] eqn:E; cbn.
  - intros (i & y & Hy & He & Hpre)%IH. exists (S i), y. split; [done|].
    replace (k + S i)%nat with (S k + i)%nat by lia. split; [done|]. intros [|j] z Hj Hz; simpl in Hz.
    + injection Hz as <-. by rewrite Nat.add_0_r.
    + replace (k + S j)%nat with (S k + j)%nat by lia. apply Hpre; [lia|done].
  - intros [= ->]. exists 0%nat, x. rewrite Nat.add_0_r. split; [done|]. split; [done|]. lia.
Qed.

Lemma bind_Err (a b : check) e : (_ ← a; b) = Err e -> a = Err e \/ a = Ok tt /\ b = Err e.
Proof. destruct a as [[]|e']; cbn; [by right|by intros [= ->]; left]. Qed.

Lemma refuse_if_Err c e e' : refuse_if c e = Err e' -> c = true /\ e' = e.
Proof. destruct c; cbn; [by intros [= ->]|done]. Qed.

(** An operand fault can only come from the operand check of a body. *)
Lemma check_function_operand {host : Host} m f name pc i :
  check_function m f = Err (OperandOutOfRange name pc i) ->
  name = f_name f /\ code f !! pc = Some i /\ in_range m f i = false /\
  forall j k, (j < pc)%nat -> code f !! j = Some k -> check_instruction m f j k = Ok tt.
Proof.
  assert (forall slots prev, check_plan f prev slots <> Err (OperandOutOfRange name pc i)) as Hplan.
  { induction slots as [|s slots IH]; intros prev; cbn [check_plan]; [done|].
    intros [[? ?]%refuse_if_Err|[_ [[? ?]%refuse_if_Err|[_ H]]%bind_Err]]%bind_Err; try done. by eapply IH. }
  intros [[_ ?]%refuse_if_Err|[_ H]]%bind_Err; [done|].
  apply bind_Err in H as [H|[_ H]]; [by destruct (releases f); [|apply Hplan in H]|].
  apply bind_Err in H as [[_ ?]%refuse_if_Err|[_ H]]; [done|].
  unfold check_body in H. destruct (is_native f); [by apply refuse_if_Err in H as [_ ?]|].
  apply bind_Err in H as [[_ ?]%refuse_if_Err|[_ H]]; [done|].
  apply bind_Err in H as [[_ ?]%refuse_if_Err|[_ H]]; [done|].
  apply check_each_Err in H as (n & i' & Hi & He & Hpre). cbn [Nat.add] in *.
  apply bind_Err in He as [[_ ?]%refuse_if_Err|[_ He]]; [done|].
  apply refuse_if_Err in He as [Hr [= -> -> ->]]. apply negb_true_iff in Hr. done.
Qed.

Lemma check_exports_operand {host : Host} m seen es name pc i :
  check_exports m seen es <> Err (OperandOutOfRange name pc i).
Proof.
  revert seen. induction es as [|e es IH]; intros seen; cbn [check_exports]; [done|].
  destruct (function_at _ _); [|done].
  intros [[_ ?]%refuse_if_Err|[_ H]]%bind_Err; [done|]. apply bind_Err in H as [H|[_ H]].
  - apply check_each_Err in H as (? & [] & _ & He & _); cbn in He; try done.
    by apply refuse_if_Err in He as [_ ?].
  - apply bind_Err in H as [[_ ?]%refuse_if_Err|[_ H]]; [done|]. by eapply IH.
Qed.

Lemma validate_operand {host : Host} m name pc i :
  validate m = Err (OperandOutOfRange name pc i) ->
  exists n f, functions m !! n = Some f /\ check_function m f = Err (OperandOutOfRange name pc i) /\
    forall k g, (k < n)%nat -> functions m !! k = Some g -> check_function m g = Ok tt.
Proof.
  unfold validate. intros H. apply bind_Err in H as [H|[_ H]].
  { unfold check_main in H. destruct (main m); [by apply refuse_if_Err in H as [_ ?]|done]. }
  apply bind_Err in H as [H|[_ H]].
  { by apply check_each_Err in H as (? & ? & _ & [_ ?]%refuse_if_Err & _). }
  apply bind_Err in H as [H|[_ H]].
  { apply check_each_Err in H as (? & c & _ & He & _). unfold check_callback in He. by destruct (function_at _ _). }
  apply bind_Err in H as [H|[_ H]].
  { apply check_each_Err in H as (? & c & _ & He & _). unfold check_callback_signature in He.
    by destruct (unresolved _ _). }
  apply bind_Err in H as [H|[_ H]]; [|by apply check_exports_operand in H].
  apply check_each_Err in H as (n & f & Hf & He & Hpre). eauto.
Qed.

(** *** Control flow

    How the interpreter moves a frame's [pc]: a return leaves the body, a jump
    goes to its checked target, everything else falls through. *)

(** The jump of the dispatch loop: the target must be an instruction of the body,
    or the step fails with [BadJump]. *)
Definition jump {host : Host} (f : FuncProto) (target : Z) : option nat :=
  i ← usize_try_from target; if (i <? length (code f))%nat then Some i else None.

Inductive flow {host : Host} (f : FuncProto) : nat -> option nat -> Prop :=
| flow_jump pc target : code f !! pc = Some (I_Jump target) -> flow f pc (jump f target)
| flow_branch pc target : code f !! pc = Some (I_JumpIfFalse target) -> flow f pc (jump f target)
| flow_next pc i : code f !! pc = Some i -> is_return i = false -> (forall t, i <> I_Jump t) ->
    flow f pc (Some (S pc))
| flow_off pc : code f !! pc = None -> flow f pc None.

(** Some run of the body, from its first instruction, is at [o]; [None] is a
    failed jump or a fetch past the end. *)
Inductive reaches {host : Host} (f : FuncProto) : option nat -> Prop :=
| reaches_entry : reaches f (Some 0%nat)
| reaches_step pc o : reaches f (Some pc) -> flow f pc o -> reaches f o.

Lemma flow_stays {host : Host} m f pc o :
  widths_ok m -> tables_fit m -> Valid m -> f ∈ functions m -> execution f <> Native ->
  (pc < length (code f))%nat -> flow f pc o -> exists pc', o = Some pc' /\ (pc' < length (code f))%nat.
Proof.
  intros Hw Hfit HV Hf Hn Hpc Hfl.
  pose proof (proj1 (Forall_forall _ _) (valid_functions m HV) f Hf) as (_ & _ & _ & Hb).
  unfold body_valid in Hb. rewrite decide_False in Hb by done. destruct Hb as [Hret Hops].
  assert (Z.of_nat (length (code f)) <= usize_max) as Hc.
  { destruct Hfit as (_ & _ & _ & _ & Hc). rewrite Forall_forall in Hc. by apply Hc. }
  assert (forall target, (exists x, at_index (code f) target x) ->
    exists pc', jump f target = Some pc' /\ (pc' < length (code f))%nat) as Hj.
  { intros target (x & n & -> & Hx). exists n. pose proof (lookup_lt_Some _ _ _ Hx).
    unfold jump. rewrite usize_try_from_nat by lia. 
    change (Some n ≫= _) with (if (n <? length (code f))%nat then Some n else None).
    by rewrite (proj2 (Nat.ltb_lt n (length (code f)))). }
  destruct Hfl as [pc t Hi|pc t Hi|pc i Hi Hr Hnj|pc Hi].
  - apply Hj, (Hops pc _ Hi).
  - apply Hj, (Hops pc _ Hi).
  - exists (S pc). split; [done|]. destruct (decide (S pc = length (code f))) as [Hlast|]; [|lia].
    destruct Hret as (r & Hr' & Hrr). rewrite last_lookup in Hr'. rewrite <- Hlast in Hr'. cbn in Hr'.
    rewrite Hi in Hr'. injection Hr' as ->. by destruct Hrr as [-> | ->].
  - apply lookup_ge_None in Hi. lia.
Qed.

(** ** Claims *)

Definition sample_body : FuncProto := {|
  f_name := [x6d]; param_count := 1; local_count := 3; execution := Runtime;
  code := [I_LoadLocal 0; I_JumpIfFalse 5; I_ConstStr 0; I_StoreLocal 1; I_Jump 0;
           I_NewStructOrdered [1; 0] (Some 1); I_Return];
  releases := Planned [0; 2]
|}.

(** A module around [sample_body], with more functions and a string pool. *)
Definition sample_with (fs : list FuncProto) (strings : list rstring) : Module_ := {|
  functions := sample_body ::
    {| f_name := [x64]; param_count := 0; local_count := 1; execution := Runtime;
       code := [I_ReturnVoid]; releases := EveryLocal |} :: fs;
  main := Some 1;
  ModuleFormat.strings := strings;
  exports := {| classes := [[x57]];
                e_functions := [{| e_name := [x6d]; kira_name := [x6d]; e_function := 0;
                                   e_params := [Export_Handle 0]; e_result := Export_Int |}] |};
  foreign_imports := [];
  foreign_aggregates := {| entries := [] |};
  foreign_callbacks := [];
  constants := [1];
  types := []
|}.

Definition valid_sample : Module_ := sample_with [] [[x68]].

Lemma sample_widths strings : Forall rstring_ok strings -> widths_ok (sample_with [] strings).
Proof. intros _. constructor; cbn; repeat constructor; vm_compute; intuition congruence. Qed.

Lemma sample_fit strings : (length strings <= 1)%nat -> @tables_fit host32 (sample_with [] strings).
Proof.
  intros Hs. do 1 (split; [vm_compute; discriminate|]). split; [cbn; lia|].
  do 2 (split; [vm_compute; discriminate|]).
  constructor; [|constructor; [|constructor]]; (split; [vm_compute; discriminate|]);
    intros order glue Hin%list_elem_of_In; cbn in Hin.
  - destruct Hin as [|[|[|[|[|[[= <- <-]|[|[]]]]]]]]; try done.
  - by destruct Hin as [|[]].
Qed.

(** C19: validation is exactly structural validity.  On a module whose integers
    lie in their Rust types and whose tables fit the address space, [validate]
    accepts if and only if every index it carries names an entry of its table,
    constructor orders are permutations, release plans are strictly ascending
    local slots, bytecode bodies end in a return, export signatures match
    their functions and export names are distinct. *)
Theorem validate_iff {host : Host} (m : Module_) :
  widths_ok m -> tables_fit m -> validate m = Ok tt <-> Valid m.
Proof. apply validate_spec. Qed.

Lemma validate_iff_witness : @Valid host32 valid_sample.
Proof.
  apply (@validate_iff host32); [by apply sample_widths; repeat constructor|by apply sample_fit|vm_compute; reflexivity].
Defined.

(** In a validated module no execution of a bytecode body takes a bad jump
    or runs off the end of its code: wherever control goes from the first
    instruction, it is at an instruction of that body. *)
Theorem control_stays_in_code {host : Host} (m : Module_) (f : FuncProto) (o : option nat) :
  widths_ok m -> tables_fit m -> validate m = Ok tt -> f ∈ functions m -> execution f <> Native ->
  reaches f o -> exists pc, o = Some pc /\ (pc < length (code f))%nat.
Proof.
  intros Hw Hfit HV%validate_spec Hf Hn; [|done..]. induction 1 as [|pc o _ (pc' & [= <-] & Hpc) Hfl].
  - exists 0%nat. split; [done|]. pose proof (proj1 (Forall_forall _ _) (valid_functions m HV) f Hf) as (_ & _ & _ & Hb).
    unfold body_valid in Hb. rewrite decide_False in Hb by done. destruct Hb as [(r & Hr & _) _].
    destruct (code f); [done|cbn; lia].
  - by eapply flow_stays.
Qed.

Lemma control_stays_in_code_witness :
  exists pc, Some 5%nat = Some pc /\ (pc < 7)%nat.
Proof.
  apply (@control_stays_in_code host32 valid_sample sample_body);
    [by apply sample_widths; repeat constructor|by apply sample_fit|vm_compute; reflexivity
    |apply list_elem_of_here|discriminate|].
  change (Some 5%nat) with (@jump host32 sample_body 5). apply (reaches_step _ 1); [|by apply flow_branch].
  eapply (reaches_step _ 0); [constructor|]. by eapply flow_next.
Defined.

(** An operand error points at the first fault.  The function named is
    the first that is not valid, the reported instruction sits at the reported
    index of its code and its operand is not valid, and every instruction
    before it is in order. *)
Theorem operand_error_is_first {host : Host} (m : Module_) (name : rstring) (pc : nat) (i : Instruction) :
  widths_ok m -> tables_fit m -> validate m = Err (OperandOutOfRange name pc i) ->
  exists n f, functions m !! n = Some f /\ f_name f = name /\ code f !! pc = Some i /\
    ~ operand_valid m f i /\
    (forall k g, (k < n)%nat -> functions m !! k = Some g -> function_valid m g) /\
    (forall j ins, (j < pc)%nat -> code f !! j = Some ins -> operand_valid m f ins).
Proof.
  intros Hw Hfit (n & f & Hf & He & Hpre)%validate_operand.
  pose proof (w_functions m Hw) as Hfok. rewrite Forall_lookup in Hfok.
  destruct (check_function_operand _ _ _ _ _ He) as (-> & Hi & Hr & Hbefore).
  assert (forall j ins, code f !! j = Some ins -> ins ∈ code f /\ Instruction_ok ins) as Hins.
  { intros j ins Hj. split; [by eapply list_elem_of_lookup_2|].
    destruct (Hfok n f Hf) as (_ & _ & _ & Hc & _). rewrite Forall_lookup in Hc. by eapply Hc. }
  assert (f ∈ functions m) as Hfin by (by eapply list_elem_of_lookup_2).
  exists n, f. do 3 (split; [done|]). split; [|split].
  - intros Hv. destruct (Hins _ _ Hi). rewrite <- in_range_iff in Hv by done. congruence.
  - intros k g Hk Hg. apply check_function_iff; [done|by eapply list_elem_of_lookup_2|by eapply Hfok|].
    by eapply Hpre.
  - intros j ins Hj Hl. destruct (Hins _ _ Hl).
    by apply (check_instruction_iff m Hfit f j ins), Hbefore.
Qed.

Lemma operand_error_is_first_witness :
  @validate host32 (sample_with [] []) = Err (OperandOutOfRange [x6d] 2 (I_ConstStr 0)) /\
  ~ operand_valid (sample_with [] []) sample_body (I_ConstStr 0).
Proof.
  assert (@validate host32 (sample_with [] []) = Err (OperandOutOfRange [x6d] 2 (I_ConstStr 0))) as H
    by (vm_compute; reflexivity).
  split; [exact H|].
  destruct (@operand_error_is_first host32 (sample_with [] []) _ _ _
    (sample_widths [] (Forall_nil_2 _)) (sample_fit [] (le_S _ _ (le_n _))) H)
    as (n & f & Hf & Hname & Hi & Hv & _).
  destruct n as [|[|n]]; cbn in Hf; [|injection Hf as <-; discriminate|discriminate].
  injection Hf as <-. exact Hv.
Defined.

(** A constant whose initialiser takes parameters passes validation: the
    row check asks only for a bytecode body. *)
Example constant_init_arity_unchecked :
  @validate host64 {|
    functions := [{| f_name := [x69]; param_count := 1; local_count := 1; execution := Runtime;
                     code := [I_LoadLocal 0; I_Return]; releases := EveryLocal |}];
    main := None; strings := []; exports := ExportTable_default; foreign_imports := [];
    foreign_aggregates := {| entries := [] |}; foreign_callbacks := []; constants := [0]; types := [] |} = Ok tt.
Proof. vm_compute. reflexivity. Qed.

(** The lifecycle marker is accepted at instruction zero of any function,
    not only of the entrypoint. *)
Example lifecycle_marker_off_entrypoint :
  @validate host64 (sample_with
    [{| f_name := [x6c]; param_count := 0; local_count := 0; execution := Runtime;
        code := [I_MainThreadLifecycle; I_ReturnVoid]; releases := EveryLocal |}] [[x68]]) = Ok tt.
Proof. vm_compute. reflexivity. Qed.
