(* ===== verification/IntWidth.v ===== *)
(** * Integer widths

    [kira-runtime-abi/src/int_width.rs]: the integer spellings of the language.
    A value travels as one 64-bit word whatever its spelling; this is what the
    word means under each of them.

    [wrap_reduces] says [wrap] keeps a word's value modulo the width and lands
    in the width's range; [words_denote_values] says words and in-range values
    correspond one to one, and that the widening test compares the sets of
    values. *)

From S2P Require Import Prelude.

Inductive IntWidth := Plain | I8 | I16 | I32 | U8 | U16 | U32 | U64.

#[export] Instance IntWidth_eq_dec : EqDecision IntWidth.
Proof. solve_decision. Defined.

Definition bits (w : IntWidth) : Z :=
  match w with
  | I8 | U8 => 8
  | I16 | U16 => 16
  | I32 | U32 => 32
  | Plain | U64 => 64
  end.

Definition is_signed (w : IntWidth) : bool :=
  match w with Plain | I8 | I16 | I32 => true | _ => false end.

Definition range (w : IntWidth) : Z * Z :=
  if is_signed w then (- Z.shiftl 1 (bits w - 1), Z.shiftl 1 (bits w - 1) - 1)
  else (0, Z.shiftl 1 (bits w) - 1).

Definition holds (w : IntWidth) (v : Z) : bool :=
  let '(low, high) := range w in (low <=? v) && (v <=? high).

(** [word as u64] and [v as i64] are the two readings of the low 64 bits. *)
Definition value_of (w : IntWidth) (word : Z) : Z :=
  match w with U64 => uwrap 64 word | _ => word end.

Definition word_of (w : IntWidth) (v : Z) : Z :=
  match w with U64 => swrap 64 (uwrap 64 v) | _ => swrap 64 v end.

Definition wrap (w : IntWidth) (word : Z) : Z :=
  if bits w =? 64 then word else
  let mask := Z.shiftl 1 (bits w) - 1 in
  let low := Z.land (uwrap 64 word) mask in
  if is_signed w && (Z.land (Z.shiftr low (bits w - 1)) 1 =? 1) then
    swrap 64 (Z.lor low (Z.lxor mask (2 ^ 64 - 1)))
  else swrap 64 low.

Definition widens_into (w to : IntWidth) : bool :=
  let '(low, high) := range w in holds to low && holds to high.

Definition code (w : IntWidth) : Z :=
  match w with
  | Plain => 0 | I8 => 1 | I16 => 2 | I32 => 3 | U8 => 4 | U16 => 5 | U32 => 6 | U64 => 7
  end.

Definition from_code (c : Z) : option IntWidth :=
  match c with
  | 0 => Some Plain | 1 => Some I8 | 2 => Some I16 | 3 => Some I32
  | 4 => Some U8 | 5 => Some U16 | 6 => Some U32 | 7 => Some U64
  | _ => None
  end.

(** ** Ranges *)

Lemma holds_iff w v : holds w v = true <-> (if is_signed w then signed_ok (bits w) v else unsigned_ok (bits w) v).
Proof.
  unfold holds, range, signed_ok, unsigned_ok.
  destruct (is_signed w); rewrite andb_true_iff, !Z.leb_le, Z.shiftl_1_l; lia.
Qed.

(** Bits set above a low part add up. *)
Lemma lor_high low k b : 0 <= b -> 0 <= low < 2 ^ b -> Z.lor low (Z.shiftl k b) = low + k * 2 ^ b.
Proof.
  intros Hb Hlow. rewrite <- Z.shiftl_mul_pow2 by done.
  assert (Z.land low (Z.shiftl k b) = 0) as Hd.
  { apply Z.bits_inj'. intros n Hn. rewrite Z.land_spec, Z.bits_0, Z.shiftl_spec by done.
    destruct (Z.ltb_spec n b).
    - rewrite (Z.testbit_neg_r k) by lia. apply andb_false_r.
    - rewrite <- (Z.mod_small low (2 ^ b)) by done. by rewrite Z.mod_pow2_bits_high by lia. }
  by rewrite Z.add_nocarry_lxor, Z.lxor_lor.
Qed.

(** The low bits of a word. *)
Lemma low_bits word b : 0 <= b <= 64 -> Z.land (uwrap 64 word) (Z.shiftl 1 b - 1) = word mod 2 ^ b.
Proof.
  intros Hb. rewrite Z.shiftl_1_l.
  replace (2 ^ b - 1) with (Z.ones b) by (rewrite Z.ones_equiv; lia). rewrite Z.land_ones by lia.
  unfold uwrap. apply Z.mod_mod_divide.
  exists (2 ^ (64 - b)). rewrite <- Z.pow_add_r by lia. f_equal. lia.
Qed.

(** The sign bit of a [b]-bit pattern. *)
Lemma top_bit low b : 0 < b -> 0 <= low < 2 ^ b ->
  (Z.land (Z.shiftr low (b - 1)) 1 =? 1) = (2 ^ (b - 1) <=? low).
Proof.
  intros Hb Hlow. change 1 with (Z.ones 1) at 2. rewrite Z.land_ones, Z.shiftr_div_pow2 by lia.
  rewrite (pow2_double b Hb) in Hlow. assert (0 < 2 ^ (b - 1)) by (apply Z.pow_pos_nonneg; lia).
  destruct (Z.leb_spec (2 ^ (b - 1)) low).
  - replace (low / 2 ^ (b - 1)) with 1; [done|]. apply Z.div_unique with (low - 2 ^ (b - 1)); lia.
  - by rewrite Z.div_small by lia.
Qed.

(** A narrow [wrap] is the width's own reading of the low bits. *)
Lemma wrap_narrow w word : bits w <= 32 ->
  wrap w word = if is_signed w then swrap (bits w) word else uwrap (bits w) word.
Proof.
  intros Hb. assert (0 < bits w) as Hpos by (by destruct w).
  unfold wrap. destruct (Z.eqb_spec (bits w) 64); [lia|]. rewrite low_bits by lia.
  assert (0 < 2 ^ bits w <= 2 ^ 32) as Hp by (split; [apply Z.pow_pos_nonneg; lia|apply Z.pow_le_mono_r; lia]).
  pose proof (Z.mod_pos_bound word (2 ^ bits w) ltac:(lia)) as Hlow.
  set (low := word mod 2 ^ bits w) in *. rewrite top_bit by done. unfold uwrap. fold low.
  assert (swrap 64 low = low) as Hsmall by (apply swrap_id; [lia|unfold signed_ok; lia]).
  destruct (is_signed w); cbn [andb]; [|done].
  assert (swrap (bits w) word = if 2 ^ (bits w - 1) <=? low then low - 2 ^ bits w else low) as ->.
  { rewrite <- swrap_uwrap. unfold uwrap. fold low. unfold swrap. rewrite (pow2_double (bits w)) in * by lia.
    destruct (Z.leb_spec (2 ^ (bits w - 1)) low).
    - replace (low + 2 ^ (bits w - 1)) with ((low - 2 ^ (bits w - 1)) + 1 * (2 * 2 ^ (bits w - 1))) by ring.
      rewrite Z_mod_plus_full, Z.mod_small by lia. lia.
    - rewrite Z.mod_small by lia. lia. }
  destruct (2 ^ (bits w - 1) <=? low); [|done].
  assert (Z.lxor (Z.shiftl 1 (bits w) - 1) (2 ^ 64 - 1) = Z.shiftl (2 ^ (64 - bits w) - 1) (bits w)) as ->
    by (by destruct w).
  rewrite lor_high by lia. unfold swrap.
  replace (low + (2 ^ (64 - bits w) - 1) * 2 ^ bits w + 2 ^ (64 - 1))
    with ((low - 2 ^ bits w + 2 ^ 63) + 2 ^ (64 - bits w) * 2 ^ bits w)
    by (change (2 ^ (64 - 1)) with (2 ^ 63); ring).
  rewrite <- Z.pow_add_r by lia. replace (64 - bits w + bits w) with 64 by lia.
  rewrite <- (Z.mul_1_l (2 ^ 64)) at 1. rewrite Z_mod_plus_full, Z.mod_small by lia. lia.
Qed.

Lemma swrap_mod w z : 0 < w -> swrap w z mod 2 ^ w = z mod 2 ^ w.
Proof. intros. apply uwrap_swrap. Qed.

(** ** Claims *)

(** [wrap] discards high bits and nothing else.  Wrapping any word at any
    width leaves a word that denotes a value of that width, congruent to the
    word modulo two to the width's bits. *)
Theorem wrap_reduces (w : IntWidth) (word : Z) : i64_ok word ->
  i64_ok (wrap w word) /\ holds w (value_of w (wrap w word)) = true /\
  value_of w (wrap w word) mod 2 ^ bits w = word mod 2 ^ bits w.
Proof.
  intros Hw. rewrite holds_iff. destruct (decide (bits w <= 32)) as [Hb|Hb].
  - assert (0 < bits w) as Hpos by (by destruct w). rewrite wrap_narrow by done.
    assert (forall z, value_of w z = z) as -> by (by destruct w).
    assert (2 ^ bits w <= 2 ^ 32) as Hp by (apply Z.pow_le_mono_r; lia).
    pose proof (swrap_range (bits w) word Hpos) as Hs. pose proof (uwrap_range (bits w) word ltac:(lia)) as Hu.
    pose proof (pow2_double (bits w) Hpos). unfold signed_ok, unsigned_ok in *.
    destruct (is_signed w); (split; [lia|]); (split; [lia|]); [by apply swrap_mod|by apply Zmod_mod].
  - destruct w; cbn in Hb; try lia; cbn [wrap bits Z.eqb Pos.eqb is_signed value_of].
    + done.
    + split; [done|]. split; [by apply uwrap_range|]. apply Zmod_mod.
Qed.

Lemma wrap_reduces_witness : wrap I8 511 = -1 /\ holds I8 (value_of I8 (wrap I8 511)) = true.
Proof.
  split; [reflexivity|]. apply (wrap_reduces I8 511). vm_compute. intuition congruence.
Defined.

(** Words and values correspond.  An in-range value is what its word
    denotes, a word whose value is in range is that value's word, and
    [widens_into] answers whether every value of one width is a value of the
    other. *)
Theorem words_denote_values (w to : IntWidth) :
  (forall v, holds w v = true -> i64_ok (word_of w v) /\ value_of w (word_of w v) = v) /\
  (forall word, i64_ok word -> word_of w (value_of w word) = word) /\
  (widens_into w to = true <-> forall v, holds w v = true -> holds to v = true).
Proof.
  split; [|split].
  - intros v Hv%holds_iff. split; [destruct w; by apply swrap_range|].
    destruct w; cbn [word_of value_of bits is_signed] in *; unfold signed_ok, unsigned_ok in Hv;
      try (apply swrap_id; [lia|unfold signed_ok; lia]).
    rewrite uwrap_swrap, (uwrap_id 64 v) by done. by apply uwrap_id.
  - intros word Hword. destruct w; cbn [word_of value_of]; try (by apply swrap_id; [lia|]).
    rewrite swrap_uwrap, swrap_uwrap. by apply swrap_id; [lia|].
  - unfold widens_into. destruct (range w) as [low high] eqn:E. rewrite andb_true_iff. split.
    + intros [Hl Hh] v Hv. unfold holds in *. rewrite E in Hv. destruct (range to) as [low' high'].
      rewrite !andb_true_iff, !Z.leb_le in *. lia.
    + intros H. assert (low <= high) by (destruct w; injection E as <- <-; done).
      split; apply H; unfold holds; rewrite E, andb_true_iff, !Z.leb_le; lia.
Qed.

(** The one-byte codes an instruction carries. *)
Lemma from_code_code w : from_code (code w) = Some w.
Proof. by destruct w. Qed.

Lemma code_from_code c w : from_code c = Some w -> code w = c.
Proof.
  unfold from_code. intros H. repeat (case_match; try discriminate H); by injection H as <-.
Qed.
