(* ===== verification/Types.v ===== *)
(** * Type shapes: what the lowered program's types own and run

    [kira-semantics-model/src/ty]: the [Type] lattice, integer spellings
    ([scalars.rs]), struct rows ([structs.rs]) and the questions the lowered
    program's users ask of the type table ([table/mod.rs]).  A [Type] is flat,
    a row of a table rather than a tree, and a table may be recursive.

    [reaches_user_drop] and [reaches_affine_owner] are depth-first walks that
    remember where they have been; [runs_user_drop_reachable] and
    [contains_affine_owner_reachable] show that on any table, recursive ones
    included, they decide reachability. *)

From stdpp Require Import gmap sets.
From S2P Require Import Prelude Foreign.
From S2P Require Import IntWidth.

(** ** Types *)

(** [IntSpelling]: constructors as in [IntWidth], which it names. *)
Inductive IntSpelling :=
| Spell_Plain | Spell_I8 | Spell_I16 | Spell_I32 | Spell_U8 | Spell_U16 | Spell_U32 | Spell_U64.

Inductive FloatSpelling := FloatPlain | FloatF32.

Definition width (s : IntSpelling) : IntWidth :=
  match s with
  | Spell_Plain => Plain | Spell_I8 => I8 | Spell_I16 => I16 | Spell_I32 => I32
  | Spell_U8 => U8 | Spell_U16 => U16 | Spell_U32 => U32 | Spell_U64 => U64
  end.

(** [IntSpelling::bits], [widens_into] and [code]. *)
Definition spelling_bits (s : IntSpelling) : Z := bits (width s).
Definition spelling_widens_into (s to : IntSpelling) : bool := widens_into (width s) (width to).
Definition spelling_code (s : IntSpelling) : Z := IntWidth.code (width s).

(** Rows of the program's tables, by index. *)
Abbreviation row := N (only parsing).

Inductive TaskResult :=
| Task_Int (spelling : IntSpelling) | Task_Float (spelling : FloatSpelling) | Task_Bool | Task_String
| Task_Number | Task_Struct (id : row) | Task_Array (id : row) | Task_Enum (id : row)
| Task_Distinct (id : row) | Task_RawPtr | Task_ForeignPtr (id : row) | Task_Any.

(** [Type]. *)
Inductive Ty :=
| T_Int (spelling : IntSpelling)
| T_Float (spelling : FloatSpelling)
| T_Bool
| T_String
| T_Number
| T_Void
| T_Error
| T_Struct (id : row)
| T_Array (id : row)
| T_Enum (id : row)
| T_Distinct (id : row)
| T_Cell (id : row)
| T_RawPtr
| T_ForeignPtr (id : row)
| T_NativeState (id : row)
| T_Task (result : TaskResult)
| T_MainThreadTask (result : TaskResult)
| T_Any
| T_CString
| T_RuntimeType
| T_CBlock.

#[export] Instance IntSpelling_eq_dec : EqDecision IntSpelling.
Proof. solve_decision. Defined.
#[export] Instance FloatSpelling_eq_dec : EqDecision FloatSpelling.
Proof. solve_decision. Defined.
#[export] Instance TaskResult_eq_dec : EqDecision TaskResult.
Proof. solve_decision. Defined.
#[export] Instance Ty_eq_dec : EqDecision Ty.
Proof. solve_decision. Defined.

(** Types are keys of the walks' [HashSet]s. *)
Definition spelling_to_N (s : IntSpelling) : N :=
  match s with
  | Spell_Plain => 0 | Spell_I8 => 1 | Spell_I16 => 2 | Spell_I32 => 3 | Spell_U8 => 4 | Spell_U16 => 5
  | Spell_U32 => 6 | Spell_U64 => 7
  end%N.
Definition spelling_of_N (n : N) : IntSpelling :=
  nth (N.to_nat n) [Spell_Plain; Spell_I8; Spell_I16; Spell_I32; Spell_U8; Spell_U16; Spell_U32] Spell_U64.
Definition float_to_N (s : FloatSpelling) : N := match s with FloatPlain => 0 | FloatF32 => 1 end%N.
Definition float_of_N (n : N) : FloatSpelling := match n with N0 => FloatPlain | _ => FloatF32 end.

Definition task_to_N (r : TaskResult) : N * N :=
  match r with
  | Task_Int s => (0, spelling_to_N s) | Task_Float s => (1, float_to_N s) | Task_Bool => (2, 0)
  | Task_String => (3, 0) | Task_Number => (4, 0) | Task_Struct id => (5, id) | Task_Array id => (6, id)
  | Task_Enum id => (7, id) | Task_Distinct id => (8, id) | Task_RawPtr => (9, 0)
  | Task_ForeignPtr id => (10, id) | Task_Any => (11, 0)
  end%N.
Definition task_of_N (p : N * N) : TaskResult :=
  let '(tag, id) := p in
  match N.to_nat tag with
  | 0 => Task_Int (spelling_of_N id) | 1 => Task_Float (float_of_N id) | 2 => Task_Bool | 3 => Task_String
  | 4 => Task_Number | 5 => Task_Struct id | 6 => Task_Array id | 7 => Task_Enum id | 8 => Task_Distinct id
  | 9 => Task_RawPtr | 10 => Task_ForeignPtr id | _ => Task_Any
  end%nat.

Definition Ty_to_N (ty : Ty) : N * (N * N) :=
  match ty with
  | T_Int s => (0, (0, spelling_to_N s)) | T_Float s => (1, (0, float_to_N s)) | T_Bool => (2, (0, 0))
  | T_String => (3, (0, 0)) | T_Number => (4, (0, 0)) | T_Void => (5, (0, 0)) | T_Error => (6, (0, 0))
  | T_Struct id => (7, (0, id)) | T_Array id => (8, (0, id)) | T_Enum id => (9, (0, id))
  | T_Distinct id => (10, (0, id)) | T_Cell id => (11, (0, id)) | T_RawPtr => (12, (0, 0))
  | T_ForeignPtr id => (13, (0, id)) | T_NativeState id => (14, (0, id)) | T_Task r => (15, task_to_N r)
  | T_MainThreadTask r => (16, task_to_N r) | T_Any => (17, (0, 0)) | T_CString => (18, (0, 0))
  | T_RuntimeType => (19, (0, 0)) | T_CBlock => (20, (0, 0))
  end%N.
Definition Ty_of_N (p : N * (N * N)) : Ty :=
  let '(tag, (a, b)) := p in
  match N.to_nat tag with
  | 0 => T_Int (spelling_of_N b) | 1 => T_Float (float_of_N b) | 2 => T_Bool | 3 => T_String
  | 4 => T_Number | 5 => T_Void | 6 => T_Error | 7 => T_Struct b | 8 => T_Array b | 9 => T_Enum b
  | 10 => T_Distinct b | 11 => T_Cell b | 12 => T_RawPtr | 13 => T_ForeignPtr b | 14 => T_NativeState b
  | 15 => T_Task (task_of_N (a, b)) | 16 => T_MainThreadTask (task_of_N (a, b)) | 17 => T_Any
  | 18 => T_CString | 19 => T_RuntimeType | _ => T_CBlock
  end%nat.

#[export] Instance Ty_countable : Countable Ty.
Proof.
  refine (inj_countable' Ty_to_N Ty_of_N _).
  intros [[]|[]| | | | | |id|id|id|id|id| |id|id|r|r| | | |]; try reflexivity;
    destruct r as [[]|[]| | | | | | | | | |]; reflexivity.
Defined.

(** [Type::INT] and [Type::FLOAT]. *)
Definition T_INT : Ty := T_Int Spell_Plain.
Definition T_FLOAT : Ty := T_Float FloatPlain.

(** [TypeField], of [kira-semantics-model/src/ty/descriptor.rs]. *)
Inductive TypeField := TF_Name | TF_Package | TF_Kind | TF_Arguments | TF_Conformances.
Definition TypeField_from_byte (b : byte) : option TypeField :=
  match b with
  | x00 => Some TF_Name | x01 => Some TF_Package | x02 => Some TF_Kind
  | x03 => Some TF_Arguments | x04 => Some TF_Conformances | _ => None
  end.
Definition TypeField_as_byte (f : TypeField) : byte :=
  match f with
  | TF_Name => x00 | TF_Package => x01 | TF_Kind => x02 | TF_Arguments => x03 | TF_Conformances => x04
  end.

(** ** The type table *)

Record FieldDef := { fd_name : rstring; fd_ty : Ty; fd_mutable : bool }.

Record StructDef := {
  sd_name : rstring;
  sd_fields : list FieldDef;
  c_layout : bool;
  drop_glue : option Z
}.

(** An enum's variants, each with its payload's type. *)
Record EnumDef := { ed_name : rstring; ed_variants : list (rstring * option Ty) }.

(** The rows of [TypeTable] that a lowered program's users read. *)
Record TypeTable := {
  structs : list StructDef;
  array_elements : list Ty;
  enums : list EnumDef
}.

Definition get_struct (t : TypeTable) (id : N) : option StructDef := structs t !! N.to_nat id.
Definition get_array (t : TypeTable) (id : N) : option Ty := array_elements t !! N.to_nat id.
Definition get_enum (t : TypeTable) (id : N) : option EnumDef := enums t !! N.to_nat id.

Definition element_of (t : TypeTable) (ty : Ty) : option Ty :=
  match ty with T_Array id => get_array t id | _ => None end.

Definition field (def : StructDef) (index : Z) : option FieldDef := sd_fields def !! Z.to_nat index.

(** [owning_c_slots]: whether a field is one. *)
Definition is_owning_c_slot (def : StructDef) (f : FieldDef) : bool :=
  c_layout def &&
  match fd_ty f with T_CString | T_RawPtr | T_ForeignPtr _ | T_CBlock => true | _ => false end.

Definition user_drop (t : TypeTable) (ty : Ty) : option Z :=
  match ty with T_Struct id => def ← get_struct t id; drop_glue def | _ => None end.

(** [Iterator::any] over a question that may not be answered. *)
Fixpoint any_answer {A} (f : A -> option bool) (l : list A) : option bool :=
  match l with
  | [] => Some false
  | x :: l => b ← f x; if b : bool then Some true else any_answer f l
  end.

(** [Iterator::any] over a walk that carries the shapes it has seen. *)
Fixpoint any_open {O A} (f : A -> O -> option (O * bool)) (l : list A) (open : O) : option (O * bool) :=
  match l with
  | [] => Some (open, false)
  | x :: l =>
    match f x open with
    | Some (open, true) => Some (open, true)
    | Some (open, false) => any_open f l open
    | None => None
    end
  end.

(** The walk of [reaches_user_drop] and [reaches_affine_owner]: [hit] is what it
    looks for and [next] what it follows. *)
Section Walk.
Context (hit : Ty -> bool) (next : Ty -> list Ty).

Fixpoint reaches (fuel : nat) (ty : Ty) (open : gset Ty) : option (gset Ty * bool) :=
  match fuel with
  | O => None
  | S fuel =>
    if decide (ty ∈ open) then Some (open, false)
    else
      let open := {[ty]} ∪ open in
      if hit ty then Some (open, true) else any_open (reaches fuel) (next ty) open
  end.
End Walk.

Section Table.
Context (t : TypeTable).

(** [TypeTable::owns_heap].  Only the absence of by-value cycles bounds the
    recursion: one that outlives its fuel has no answer. *)
Fixpoint owns_heap (fuel : nat) (ty : Ty) : option bool :=
  match fuel with
  | O => None
  | S fuel =>
    match ty with
    | T_String | T_Array _ | T_Enum _ | T_Any | T_Cell _ | T_CBlock | T_NativeState _ => Some true
    | T_Struct id =>
      match get_struct t id with
      | Some def =>
        if bool_decide (is_Some (drop_glue def)) || existsb (is_owning_c_slot def) (sd_fields def)
        then Some true
        else any_answer (fun f => owns_heap fuel (fd_ty f)) (sd_fields def)
      | None => Some false
      end
    | _ => Some false
    end
  end.

(** As many shapes as the tables have rows can be open at once. *)
Definition walk_fuel : nat := S (length (structs t) + length (array_elements t) + length (enums t)).

(** [TypeTable::reaches_user_drop]. *)
Definition has_user_drop (ty : Ty) : bool :=
  match ty with
  | T_Struct id =>
    match get_struct t id with Some def => bool_decide (is_Some (drop_glue def)) | None => false end
  | _ => false
  end.
Definition drop_children (ty : Ty) : list Ty :=
  match ty with
  | T_Struct id => match get_struct t id with Some def => fd_ty <$> sd_fields def | None => [] end
  | T_Array id => option_list (get_array t id)
  | _ => []
  end.

(** [TypeTable::reaches_affine_owner]. *)
Definition is_affine_owner (ty : Ty) : bool := match ty with T_NativeState _ => true | _ => false end.
Definition affine_children (ty : Ty) : list Ty :=
  match ty with
  | T_Struct id => match get_struct t id with Some def => fd_ty <$> sd_fields def | None => [] end
  | T_Array id => option_list (get_array t id)
  | T_Enum id => match get_enum t id with Some def => omap snd (ed_variants def) | None => [] end
  | _ => []
  end.

Definition answer_of {O} (o : option (O * bool)) : bool := match o with Some (_, b) => b | None => false end.

(** The fuel is enough ([walk_answers]). *)
Definition runs_user_drop (ty : Ty) : bool :=
  answer_of (reaches has_user_drop drop_children walk_fuel ty ∅).
Definition contains_affine_owner (ty : Ty) : bool :=
  answer_of (reaches is_affine_owner affine_children walk_fuel ty ∅).

Definition takes_on_read (ty : Ty) : bool := contains_affine_owner ty || runs_user_drop ty.
End Table.

(** ** The walks decide reachability *)

Section Walked.
Context (hit : Ty -> bool) (next : Ty -> list Ty).

(** A shape holds another one directly. *)
Definition holds_shape (a b : Ty) : Prop := b ∈ next a.

(** A walk that answers no has seen everything below what it has seen. *)
Definition explored (open open' : gset Ty) : Prop :=
  open ⊆ open' /\
  forall x, x ∈ open' -> x ∉ open -> hit x = false /\ forall y, holds_shape x y -> y ∈ open'.

Lemma explored_refl open : explored open open.
Proof. split; [done|]. by intros. Qed.

Lemma explored_trans a b c : explored a b -> explored b c -> explored a c.
Proof.
  intros [H1 H2] [H3 H4]. split; [set_solver|]. intros x Hc Ha. destruct (decide (x ∈ b)) as [Hb|Hb].
  - destruct (H2 x Hb Ha) as [Hh Hn]. split; [done|]. intros y Hy. by apply H3, Hn.
  - by apply H4.
Qed.

Lemma any_open_false (f : Ty -> gset Ty -> option (gset Ty * bool)) l : forall open open',
  (forall x o o', x ∈ l -> f x o = Some (o', false) -> explored o o' /\ x ∈ o') ->
  any_open f l open = Some (open', false) -> explored open open' /\ Forall (.∈ open') l.
Proof.
  induction l as [|x l IH]; intros open open' Hf Ha; cbn [any_open] in Ha.
  { simplify_eq. split; [apply explored_refl|done]. }
  destruct (f x open) as [[o [|]]|] eqn:Hx; try done.
  destruct (Hf x open o ltac:(left) Hx) as [He Hin].
  destruct (IH o open') as [He' Hl]; [by intros; eapply Hf; [right|]|done|].
  split; [by eapply explored_trans|]. constructor; [by apply He'|done].
Qed.

Lemma any_open_true (f : Ty -> gset Ty -> option (gset Ty * bool)) l : forall open open',
  any_open f l open = Some (open', true) -> exists x o, x ∈ l /\ f x o = Some (open', true).
Proof.
  induction l as [|x l IH]; intros open open' Ha; cbn [any_open] in Ha; [done|].
  destruct (f x open) as [[o [|]]|] eqn:Hx; try done.
  - simplify_eq. exists x, open. split; [left|done].
  - destruct (IH o open' Ha) as (y & o' & Hy & Hf). exists y, o'. split; [by right|done].
Qed.

Lemma reaches_false fuel : forall ty open open',
  reaches hit next fuel ty open = Some (open', false) -> explored open open' /\ ty ∈ open'.
Proof.
  induction fuel as [|fuel IH]; intros ty open open' Hr; cbn [reaches] in Hr; [done|].
  case_decide as Hin; [simplify_eq; split; [apply explored_refl|done]|].
  destruct (hit ty) eqn:Hh; [done|].
  apply any_open_false in Hr as [[Hs He] Hl]; [|intros; by apply IH].
  split; [|set_solver]. split; [set_solver|]. intros x Hx Hn.
  destruct (decide (x = ty)) as [->|Hne].
  - split; [done|]. intros y Hy. rewrite Forall_forall in Hl. by apply Hl.
  - apply He; [done|set_solver].
Qed.

Lemma reaches_true fuel : forall ty open open',
  reaches hit next fuel ty open = Some (open', true) -> exists x, rtc holds_shape ty x /\ hit x = true.
Proof.
  induction fuel as [|fuel IH]; intros ty open open' Hr; cbn [reaches] in Hr; [done|].
  case_decide as Hin; [done|]. destruct (hit ty) eqn:Hh; [exists ty; by split|].
  apply any_open_true in Hr as (y & o & Hy & Hr). destruct (IH y o open' Hr) as (x & Hx & Hhx).
  exists x. split; [by eapply rtc_l|done].
Qed.

(** [universe] holds every shape that holds others; the walk needs as much fuel as
    there are of them it has not seen. *)
Context (universe : gset Ty) (Huniverse : forall ty, next ty <> [] -> ty ∈ universe).

Lemma any_open_answers (f : Ty -> gset Ty -> option (gset Ty * bool)) l : forall open,
  (forall x o, x ∈ l -> open ⊆ o -> exists o' b, f x o = Some (o', b) /\ o ⊆ o') ->
  exists open' b, any_open f l open = Some (open', b) /\ open ⊆ open'.
Proof.
  induction l as [|x l IH]; intros open Hf; cbn [any_open]; [by eexists _, _|].
  destruct (Hf x open ltac:(left) ltac:(done)) as (o & b & -> & Ho). destruct b; [by eexists _, _|].
  destruct (IH o) as (o' & b & -> & Ho').
  - intros y o1 Hy Ho1. apply Hf; [by right|set_solver].
  - exists o', b. split; [done|set_solver].
Qed.

Lemma walk_answers fuel : forall ty open,
  (base.size (universe ∖ open) < fuel)%nat ->
  exists open' b, reaches hit next fuel ty open = Some (open', b) /\ open ⊆ open'.
Proof.
  induction fuel as [|fuel IH]; intros ty open Hf; [lia|]. cbn [reaches].
  case_decide as Hin; [by eexists _, _|]. destruct (hit ty); [eexists _, _; split; [done|set_solver]|].
  destruct (decide (next ty = [])) as [->|Hne]; [eexists _, _; split; [done|set_solver]|].
  destruct (any_open_answers (reaches hit next fuel) (next ty) ({[ty]} ∪ open)) as (o & b & Ho & Hs).
  - intros x o Hx Ho. apply IH.
    assert (base.size (universe ∖ o) < base.size (universe ∖ open))%nat; [|lia].
    apply subset_size. apply Huniverse in Hne. set_solver.
  - exists o, b. split; [done|set_solver].
Qed.

Lemma walk_decides fuel ty : (base.size universe < fuel)%nat ->
  answer_of (reaches hit next fuel ty ∅) = true <-> exists x, rtc holds_shape ty x /\ hit x = true.
Proof.
  intros Hf. destruct (walk_answers fuel ty ∅) as (o & b & Hr & _); [by rewrite difference_empty_L|].
  rewrite Hr. cbn. destruct b.
  - split; [|done]. intros _. by eapply reaches_true.
  - split; [done|]. intros (x & Hx & Hh). apply reaches_false in Hr as [[_ He] Hin].
    assert (x ∈ o) as Hxo.
    { clear Hh. induction Hx as [|a c d Hac _ IH]; [done|]. apply IH. by apply (He a Hin). }
    destruct (He x Hxo) as [H _]; [set_solver|congruence].
Qed.
End Walked.

Section Reachability.
Context (t : TypeTable).

(** Every row of the tables. *)
Definition rows : list Ty :=
  (T_Struct ∘ N.of_nat <$> seq 0 (length (structs t))) ++
  (T_Array ∘ N.of_nat <$> seq 0 (length (array_elements t))) ++
  (T_Enum ∘ N.of_nat <$> seq 0 (length (enums t))).

Lemma rows_size : (base.size (list_to_set (C := gset Ty) rows) < walk_fuel t)%nat.
Proof.
  unfold walk_fuel. assert (base.size (list_to_set (C := gset Ty) rows) <= length rows)%nat as H.
  { rewrite <- (list_to_set_elements_L (list_to_set rows)), size_list_to_set by apply NoDup_elements.
    apply submseteq_length, NoDup_submseteq; [apply NoDup_elements|]. intros x Hx.
    by rewrite elem_of_elements, elem_of_list_to_set in Hx. }
  unfold rows in *. rewrite !length_app, !length_fmap, !length_seq in H. lia.
Qed.

Lemma row_in (mk : N -> Ty) {A} (l : list A) id x : l !! N.to_nat id = Some x ->
  mk id ∈ (mk ∘ N.of_nat <$> seq 0 (length l)).
Proof.
  intros Hx. apply list_elem_of_fmap. exists (N.to_nat id). cbn. rewrite N2Nat.id. split; [done|].
  apply elem_of_seq. apply lookup_lt_Some in Hx. lia.
Qed.

Lemma children_in_rows ty : drop_children t ty <> [] \/ affine_children t ty <> [] ->
  ty ∈ list_to_set (C := gset Ty) rows.
Proof.
  intros H. apply elem_of_list_to_set. unfold rows. rewrite !elem_of_app.
  unfold drop_children, affine_children, get_struct, get_array, get_enum in H.
  destruct ty as [| | | | | | |id|id|id| | | | | | | | | | |]; try (by destruct H as [[]|[]]).
  - left. destruct (structs t !! N.to_nat id) eqn:Hl; [by eapply row_in|by destruct H as [[]|[]]].
  - right; left. destruct (array_elements t !! N.to_nat id) eqn:Hl; [by eapply row_in|by destruct H as [[]|[]]].
  - right; right. destruct (enums t !! N.to_nat id) eqn:Hl; [by eapply row_in|by destruct H as [[]|[]]].
Qed.

(** C33: Whether releasing a type runs a user [Drop] body is whether a declared
    body is reached through fields and array elements, on any table, recursive
    ones included. *)
Theorem runs_user_drop_reachable ty :
  runs_user_drop t ty = true <->
  exists x, rtc (holds_shape (drop_children t)) ty x /\ is_Some (user_drop t x).
Proof.
  unfold runs_user_drop. rewrite (walk_decides _ _ (list_to_set rows)); [|by intros; apply children_in_rows; left|apply rows_size].
  apply exist_proper. intros x. apply and_iff_compat_l. destruct x; cbn; try (split; [done|by intros []]).
  destruct (get_struct t id) as [def|]; cbn; [by rewrite bool_decide_eq_true|]. split; [done|by intros []].
Qed.

(** The same of [NativeState] handles, which enum payloads can hold too. *)
Theorem contains_affine_owner_reachable ty :
  contains_affine_owner t ty = true <->
  exists x, rtc (holds_shape (affine_children t)) ty x /\ exists id, x = T_NativeState id.
Proof.
  unfold contains_affine_owner.
  rewrite (walk_decides _ _ (list_to_set rows)); [|by intros; apply children_in_rows; right|apply rows_size].
  apply exist_proper. intros x. apply and_iff_compat_l. destruct x; cbn; try (split; [done|by intros (? & ?)]).
  split; [by eexists|done].
Qed.
End Reachability.

(** ** Owning storage *)

Section Owning.
Context (t : TypeTable).

Definition is_owning_leaf (ty : Ty) : bool :=
  match ty with T_String | T_Array _ | T_Enum _ | T_Any | T_Cell _ | T_CBlock | T_NativeState _ => true | _ => false end.

(** A value of the type holds heap storage, itself or in a field. *)
Inductive owns_storage : Ty -> Prop :=
| Owns_leaf ty : is_owning_leaf ty = true -> owns_storage ty
| Owns_struct id def : get_struct t id = Some def ->
    is_Some (drop_glue def) \/ existsb (is_owning_c_slot def) (sd_fields def) = true -> owns_storage (T_Struct id)
| Owns_field id def f : get_struct t id = Some def -> f ∈ sd_fields def -> owns_storage (fd_ty f) -> owns_storage (T_Struct id).

Lemma any_answer_true {A} (g : A -> option bool) l : any_answer g l = Some true -> exists x, x ∈ l /\ g x = Some true.
Proof.
  induction l as [|x l IH]; cbn; [done|]. destruct (g x) as [[]|] eqn:Hg; cbn; [|intros H|done].
  - intros _. exists x. split; [left|done].
  - destruct (IH H) as (y & ? & ?). exists y. split; [by right|done].
Qed.

Lemma any_answer_false {A} (g : A -> option bool) l : any_answer g l = Some false -> forall x, x ∈ l -> g x = Some false.
Proof.
  induction l as [|x l IH]; cbn; [by intros _ ? ?%not_elem_of_nil|]. destruct (g x) as [[]|] eqn:Hg; cbn; [done| |done].
  intros H y [->|Hy]%elem_of_cons; [done|by apply IH].
Qed.

Lemma any_answer_more {A} (g h : A -> option bool) l b : (forall x b, g x = Some b -> h x = Some b) ->
  any_answer g l = Some b -> any_answer h l = Some b.
Proof.
  intros Hgh. induction l as [|x l IH]; cbn; [done|]. destruct (g x) as [b'|] eqn:Hg; [|done]. cbn.
  rewrite (Hgh _ _ Hg). cbn. by destruct b'; [|apply IH].
Qed.

Lemma owns_heap_more n : forall m ty b, (n <= m)%nat -> owns_heap t n ty = Some b -> owns_heap t m ty = Some b.
Proof.
  induction n as [|n IH]; intros [|m] ty b Hm; cbn [owns_heap]; try done; [lia|]. destruct ty; try done.
  destruct (get_struct t id) as [def|]; [|done]. destruct (_ || _); [done|]. apply any_answer_more. intros f b'. apply IH. lia.
Qed.

(** An answer is right. *)
Lemma owns_heap_decides fuel : forall ty b, owns_heap t fuel ty = Some b -> b = true <-> owns_storage ty.
Proof.
  assert (forall ty, is_owning_leaf ty = false -> (forall id, ty <> T_Struct id) -> ~ owns_storage ty) as Hnone.
  { intros ty Hl Hn Ho. inversion Ho; subst; [congruence|by eapply Hn..]. }
  induction fuel as [|fuel IH]; intros ty b; cbn [owns_heap]; [done|].
  destruct ty; try (intros [= <-]; split; [by constructor|done]);
    try (intros [= <-]; split; [done|intros H; exfalso; revert H; by apply Hnone]).
  destruct (get_struct t id) as [def|] eqn:Hdef.
  2: { intros [= <-]. split; [done|]. inversion 1; subst; try done; congruence. }
  destruct (bool_decide (is_Some (drop_glue def)) || existsb (is_owning_c_slot def) (sd_fields def)) eqn:Hown.
  - intros [= <-]. split; [|done]. intros _. apply orb_true_iff in Hown. apply (Owns_struct id def Hdef).
    destruct Hown as [H%bool_decide_eq_true|?]; auto.
  - intros Hany. destruct b; split; try done.
    + intros _. apply any_answer_true in Hany as (f & Hf & Ha). eapply Owns_field; [done..|]. by apply (IH _ _ Ha).
    + intros Ho. apply orb_false_iff in Hown as [Hd Hc]. apply bool_decide_eq_false in Hd.
      inversion Ho as [|? def' ? Hor|? def' f ? Hin Hf]; subst; [done| |]; assert (def' = def) as -> by congruence.
      * destruct Hor as [?|?]; [done|congruence].
      * apply (any_answer_false _ _ Hany) in Hin. by apply (IH _ _ Hin).
Qed.
End Owning.
