(* ===== verification/Ir.v ===== *)
(** * The lowered program

    [kira-ir/src/ir.rs] and [ir/exprs.rs]: the program every back end consumes,
    its expression arena, its statements and the static type of an expression.
    Arena handles are positions in [exprs]. *)

From S2P Require Import Prelude AbiOps Foreign.
From S2P Require Import ModuleFormat.
From S2P Require Import Types.

Definition IrExprId : Type := nat.

(** ** Operators and conversions: [hir/ops.rs], [hir/exprs.rs] *)

Inductive IrUnOp := NegInt | NegFloat | Not | BitNot.

Inductive IrBinOp :=
| AddInt | SubInt | MulInt | WrappingAddInt | WrappingSubInt | WrappingMulInt | DivInt | RemInt | DivUInt | RemUInt
| AddFloat | SubFloat | MulFloat | DivFloat | RemFloat
| ConcatStr
| EqInt | NeInt | LtInt | LeInt | GtInt | GeInt | LtUInt | LeUInt | GtUInt | GeUInt
| EqFloat | NeFloat | LtFloat | LeFloat | GtFloat | GeFloat
| EqBool | NeBool | EqStr | NeStr | EqAny | NeAny | EqValue | NeValue | CmpValue | EqType | NeType
| And | Or
| BitAnd | BitOr | BitXor | Shl | ShrInt | ShrUInt.

Inductive ConvertKind :=
| IntToInt | IntToRawPtr | RawPtrToInt | FloatToFloat | IntToFloat | FloatToInt
| FloatToBits | BitsToFloat | Bits32ToFloat | FloatToBits32.

(** A written order is a permutation of the fields' indices. *)
Inductive FieldOrder :=
| Declared
| Written (order : list Z).

(** ** Places and statements *)

Inductive IrPlaceStep :=
| Step_Field (index : Z)
| Step_Index (e : IrExprId).

Record IrPlace := { pl_local : Z; pl_path : list IrPlaceStep }.

Definition is_all_fields (p : IrPlace) : bool :=
  forallb (fun s => match s with Step_Field _ => true | Step_Index _ => false end) (pl_path p).

(** [IrPlace::indices]. *)
Definition indices (p : IrPlace) : list IrExprId :=
  omap (fun s => match s with Step_Index e => Some e | Step_Field _ => None end) (pl_path p).

Record IrWriteback := { iw_param : Z; iw_place : IrPlace }.

(** [IrStmt], [IrAttempt] and [IrAttemptStep]. *)
Inductive IrStmt :=
| S_Let (local : Z) (init : IrExprId)
| S_Assign (place : IrPlace) (value : IrExprId)
| S_CellSet (slot : Z) (value : IrExprId)
| S_Return (value : option IrExprId)
| S_Eval (e : IrExprId)
| S_If (cond : IrExprId) (then_body else_body : list IrStmt)
| S_Attempt (steps : list IrAttemptStep) (trailing : list IrStmt)
| S_While (cond : IrExprId) (body : list IrStmt)
| S_Break
| S_Continue
| S_ReleaseLocals (locals : list Z)
with IrAttemptStep :=
| AttemptStep (setup : list IrStmt) (error_condition : IrExprId) (handler success : list IrStmt).

(** ** Expressions *)

Inductive IrCallee :=
| Callee_Print | Callee_Abort | Callee_FromCode | Callee_Hash
| Callee_User (index : Z)
| Callee_Foreign (id : Z).

#[export] Instance IrCallee_eq_dec : EqDecision IrCallee.
Proof. solve_decision. Defined.

Inductive IrExpr :=
| E_Int (value : Z)
| E_Float (bits : Z)
| E_Bool (value : bool)
| E_Str (value : rstring)
| E_RawPtrNull
| E_ForeignCallbackPtr (callback : Z)
| E_Local (slot : Z)
| E_ConstantGet (constant : Z) (ty : Ty)
| E_Unary (op : IrUnOp) (operand : IrExprId) (ty : Ty)
| E_TypeTest (value : IrExprId) (target : Z)
| E_TypeCast (value : IrExprId) (target : Z) (ty : Ty)
| E_Binary (op : IrBinOp) (lhs rhs : IrExprId) (ty : Ty)
| E_Select (cond : IrExprId) (then_setup : list IrStmt) (then_value : IrExprId) (then_cleanup : list Z)
    (otherwise_setup : list IrStmt) (otherwise : IrExprId) (otherwise_cleanup : list Z) (ty : Ty)
| E_Call (callee : IrCallee) (args : list IrExprId) (result : Ty) (writebacks : list IrWriteback)
| E_StructNew (struct_id : N) (fields : list IrExprId) (order : FieldOrder)
| E_EnumNew (enum_id : N) (tag : Z) (payload : option IrExprId)
| E_EnumTag (value : IrExprId)
| E_EnumPayload (value : IrExprId) (ty : Ty)
| E_CellNew (value : IrExprId) (ty : Ty)
| E_CellNull (ty : Ty)
| E_CellGet (slot : Z) (ty : Ty)
| E_Field (base : IrExprId) (index : Z) (ty : Ty)
| E_ForeignMemberAddress (base : IrExprId) (aggregate : ForeignAggregateId) (member : Z) (ty : Ty)
| E_ForeignElement (base : IrExprId) (aggregate : ForeignAggregateId) (index : IrExprId) (ty : Ty)
| E_ForeignField (base : IrExprId) (aggregate : ForeignAggregateId) (member : Z) (ty : Ty)
| E_ArrayNew (ty : Ty) (elements : list IrExprId)
| E_Index (base index : IrExprId) (ty : Ty)
| E_ArrayLen (array : IrExprId)
| E_StringLen (text : IrExprId)
| E_StringCharAt (text index : IrExprId)
| E_StringSubstring (text start end_ : IrExprId)
| E_StringIndexOf (text needle : IrExprId)
| E_ArrayElements (value : IrExprId) (element : ForeignType)
| E_ScalarText (value : IrExprId)
| E_MathOperation (op : MathOp) (operands : list IrExprId)
| E_StringOperation (op : StringOp) (text : IrExprId) (arguments : list IrExprId) (ty : Ty)
| E_NumberOperation (op : NumberOp) (operands : list IrExprId) (ty : Ty)
| E_StringOf (value : IrExprId)
| E_CLayoutAddress (value : IrExprId) (aggregate : ForeignAggregateId)
| E_CStringNew (text : IrExprId)
| E_FileSystem (op : FileSystemOp) (args : list IrExprId) (ty : Ty)
| E_Compiler (op : CompilerOp) (args : list IrExprId) (ty : Ty)
| E_Env (op : EnvOp) (args : list IrExprId) (ty : Ty)
| E_ArrayAppend (place : IrPlace) (value : IrExprId)
| E_NativeState (value : IrExprId) (type_id : Z) (drop_glue : option Z) (ty : Ty)
| E_NativeUserData (state : IrExprId) (borrowed : bool) (ty : Ty)
| E_NativeRecover (raw : IrExprId) (type_id : Z) (ty : Ty)
| E_NativeStateTake (raw : IrExprId) (type_id : Z) (ty : Ty)
| E_NativeStateRetain (token : IrExprId)
| E_NativeStateRelease (token : IrExprId) (target : option Ty)
| E_Convert (operand : IrExprId) (kind : ConvertKind) (ty : Ty)
| E_IntoAny (value : IrExprId) (from : Ty) (tag : Z)
| E_TypeConst (value : IrExprId) (id : Z)
| E_TypeOf (value : IrExprId)
| E_TypeCastResult (value : IrExprId) (target : Z) (result failure : N) (payload : Ty)
| E_TypeField (descriptor : IrExprId) (field : TypeField) (ty : Ty)
| E_MainThreadCall (operation : MainThreadOp) (func : Z) (args : list IrExprId) (ty : Ty)
| E_MainThreadJoin (handle : IrExprId) (ty : Ty)
| E_TaskOp (prim : TaskPrim) (a b c : IrExprId)
| E_ChannelOp (prim : ChannelPrim) (a b c : IrExprId).

(** ** Programs *)

(** A callback-state local names its type. *)
Record IrFunction := {
  if_name : rstring;
  if_param_count : Z;
  locals : list Ty;
  native_state_locals : list (option Z);
  return_type : Ty;
  if_execution : Execution;
  is_main_thread : bool;
  by_reference_params : list Z;
  by_pointer_params : list Z;
  body : list IrStmt
}.

Record IrConstant := { ic_name : rstring; ic_ty : Ty; ic_init : Z }.

Record IrForeignImport := { ifi_name : rstring; ifi_import : ForeignImport }.

Record IrExport := {
  ie_kira_name : rstring;
  ie_exported_name : rstring;
  ie_function : Z;
  ie_params : list Ty;
  ie_result : Ty
}.

(** A row of the descriptor table: what the bytecode module takes of it. *)
Record TypeDescriptor := {
  td_name : rstring;
  td_package : rstring;
  td_kind : rstring;
  td_family : Z;
  td_arguments : list Z;
  td_conformances : list rstring
}.

Record IrProgram := {
  ir_functions : list IrFunction;
  ir_types : TypeTable;
  descriptors : list TypeDescriptor;
  ir_main : option Z;
  main_thread_lifecycles : list Z;
  ir_exports : list IrExport;
  ir_foreign_imports : list IrForeignImport;
  ir_foreign_aggregates : ForeignAggregates;
  ir_foreign_callbacks : list ForeignCallback;
  exprs : list IrExpr;
  ir_constants : list IrConstant
}.

(** [local_count()], a cast to [u32]. *)
Definition local_count (f : IrFunction) : Z := uwrap 32 (Z.of_nat (length (locals f))).

(** ** Static types *)

Definition unary_result_type (op : IrUnOp) (ty : Ty) : Ty :=
  match op with NegInt => ty | NegFloat => T_FLOAT | Not => T_Bool | BitNot => T_INT end.

Definition binop_result (op : IrBinOp) : Ty :=
  match op with
  | AddInt | SubInt | MulInt | WrappingAddInt | WrappingSubInt | WrappingMulInt | DivInt | RemInt
  | DivUInt | RemUInt | BitAnd | BitOr | BitXor | Shl | ShrInt | ShrUInt | CmpValue => T_INT
  | AddFloat | SubFloat | MulFloat | DivFloat | RemFloat => T_FLOAT
  | ConcatStr => T_String
  | _ => T_Bool
  end.

(** [expr_type].  An arena index out of range panics in the source; it has no
    type here. *)
Definition expr_type (p : IrProgram) (f : IrFunction) (id : IrExprId) : option Ty :=
  e ← exprs p !! id;
  Some match e with
  | E_Int _ | E_ArrayLen _ | E_StringLen _ | E_StringIndexOf _ _ | E_EnumTag _
  | E_TaskOp _ _ _ _ | E_ChannelOp _ _ _ _ => T_INT
  | E_Float _ | E_MathOperation _ _ => T_FLOAT
  | E_Bool _ | E_TypeTest _ _ => T_Bool
  | E_Str _ | E_ScalarText _ | E_StringSubstring _ _ _ | E_StringOf _ => T_String
  | E_RawPtrNull | E_ForeignCallbackPtr _ => T_RawPtr
  | E_ArrayElements _ _ | E_CStringNew _ | E_CLayoutAddress _ _ => T_CBlock
  | E_Local slot => default T_Error (locals f !! Z.to_nat slot)
  | E_Unary op _ ty => unary_result_type op ty
  | E_Binary op _ _ ty => if decide (binop_result op = T_INT) then ty else binop_result op
  | E_Call _ _ result _ => result
  | E_StructNew struct_id _ _ => T_Struct struct_id
  | E_EnumNew enum_id _ _ => T_Enum enum_id
  | E_Field _ _ ty | E_ForeignField _ _ _ ty | E_ForeignMemberAddress _ _ _ ty | E_ForeignElement _ _ _ ty
  | E_ArrayNew ty _ | E_EnumPayload _ ty | E_NativeState _ _ _ ty | E_NativeRecover _ _ ty
  | E_NativeStateTake _ _ ty | E_Convert _ _ ty | E_FileSystem _ _ ty | E_Compiler _ _ ty | E_Env _ _ ty
  | E_CellNew _ ty | E_CellNull ty | E_CellGet _ ty | E_StringOperation _ _ _ ty | E_NumberOperation _ _ ty
  | E_Index _ _ ty | E_Select _ _ _ _ _ _ _ ty | E_TypeCast _ _ ty | E_ConstantGet _ ty
  | E_NativeUserData _ _ ty | E_TypeField _ _ ty | E_MainThreadCall _ _ _ ty | E_MainThreadJoin _ ty => ty
  | E_StringCharAt _ _ => T_Int Spell_U8
  | E_IntoAny _ _ _ => T_Any
  | E_TypeConst _ _ | E_TypeOf _ => T_RuntimeType
  | E_TypeCastResult _ _ result _ _ => T_Enum result
  | E_ArrayAppend _ _ | E_NativeStateRetain _ | E_NativeStateRelease _ _ => T_Void
  end.

(** [place_type]. *)
Definition step_type (t : TypeTable) (ty : Ty) (s : IrPlaceStep) : Ty :=
  match s, ty with
  | Step_Field index, T_Struct id =>
    match get_struct t id with
    | Some def => match field def index with Some f => fd_ty f | None => T_Error end
    | None => T_Error
    end
  | Step_Index _, array => default T_Error (element_of t array)
  | _, _ => T_Error
  end.
Definition place_type (p : IrProgram) (f : IrFunction) (place : IrPlace) : Ty :=
  foldl (step_type (ir_types p)) (default T_Error (locals f !! Z.to_nat (pl_local place))) (pl_path place).
