(* ===== verification/Mid.v ===== *)
(** * Release planning

    [kira-ir/src/mid.rs] and [mid/scope.rs]: which local slots a function
    releases when it returns ([plan_function], [plan]) and where in its body the
    bindings of a block are released ([scope_releases]). *)

From stdpp Require Import gmap sorting.
From S2P Require Import Prelude Foreign.
From S2P Require Import Types.
From S2P Require Import Ir.

(** ** Whether a slot is released *)

Inductive MidError :=
| ConflictingSlotRole (function : rstring) (slot : Z)
| UnknownParameter (function : rstring) (slot : Z).

(** [MidOverflows]: the walk over a type nested by value without end. *)
Inductive MidStop := MidFailed (e : MidError) | MidOverflows.

Inductive HeapModel := Inline | Boxed.

(** [HeapModel::owns]. *)
Definition owns (fuel : nat) (model : HeapModel) (t : TypeTable) (ty : Ty) : option bool :=
  match model with
  | Inline => owns_heap t fuel ty
  | Boxed =>
    b ← owns_heap t fuel ty;
    Some (b || match ty with T_Struct _ => true | _ => false end)
  end.

Inductive BorrowLending := ByPointer | ByValue.

Definition is_by_pointer (b : BorrowLending) : bool := match b with ByPointer => true | ByValue => false end.

Record Lending := { read_only : BorrowLending; write_through : BorrowLending; user_drop_lending : BorrowLending }.

Definition BY_VALUE : Lending :=
  {| read_only := ByValue; write_through := ByValue; user_drop_lending := ByValue |}.

(** [Vec::contains]. *)
Definition contains_slot (slots : list Z) (slot : Z) : bool := bool_decide (slot ∈ slots).

Section Plan.
Context (fuel : nat) (t : TypeTable) (lending : Lending) (model : HeapModel).

(** Whether a slot's storage is the caller's. *)
Definition is_lent (f : IrFunction) (slot : Z) (ty : Ty) : bool :=
  match contains_slot (by_reference_params f) slot, contains_slot (by_pointer_params f) slot with
  | true, _ => is_by_pointer (write_through lending)
  | false, true =>
    if runs_user_drop t ty then is_by_pointer (user_drop_lending lending) else is_by_pointer (read_only lending)
  | false, false => false
  end.

Definition is_state_local (f : IrFunction) (index : nat) : bool :=
  match native_state_locals f !! index with Some (Some _) => true | _ => false end.

(** The loop of [plan_function] from slot [index] on. *)
Fixpoint plan_slots (f : IrFunction) (drop_glue : bool) (index : nat) (tys : list Ty) : result MidStop (list Z) :=
  match tys with
  | [] => Ok []
  | ty :: tys =>
    let slot := uwrap 32 (Z.of_nat index) in
    if (contains_slot (by_reference_params f) slot || contains_slot (by_pointer_params f) slot)
       && is_state_local f index
    then Err (MidFailed (ConflictingSlotRole (if_name f) slot))
    else
      skipped ←
        (if is_lent f slot ty || is_state_local f index then Ok true
         else owned ← ok_or (owns fuel model t ty) MidOverflows;
              Ok (negb owned || (drop_glue && (slot =? 0))));
      rest ← plan_slots f drop_glue (S index) tys;
      Ok (if skipped : bool then rest else slot :: rest)
  end.

Definition plan_function (f : IrFunction) (drop_glue : bool) : result MidStop (list Z) :=
  match find (fun slot => (Z.of_nat (length (locals f)) <=? slot)) (by_reference_params f) with
  | Some slot => Err (MidFailed (UnknownParameter (if_name f) slot))
  | None => plan_slots f drop_glue 0 (locals f)
  end.

Fixpoint plan_from (index : nat) (fs : list IrFunction) : result MidStop (list (list Z)) :=
  match fs with
  | [] => Ok []
  | f :: fs =>
    plan ← plan_function f (contains_slot (omap Types.drop_glue (structs t)) (uwrap 32 (Z.of_nat index)));
    plans ← plan_from (S index) fs;
    Ok (plan :: plans)
  end.
End Plan.

(** [plan]: every function's, in order. *)
Definition plan (fuel : nat) (p : IrProgram) (lending : Lending) (model : HeapModel) : result MidStop (list (list Z)) :=
  plan_from fuel (ir_types p) lending model 0 (ir_functions p).

(** ** Where it is released *)

(** One statement list of a body: the child indices on the way down to it. *)
Abbreviation ScopePath := (list nat) (only parsing).

Section Scan.
Context (candidates : list bool) (first_local : Z).

(** [pin]: the list a slot's binding belongs to. *)
Definition pin (slot : Z) (path : ScopePath) (owners : gmap Z ScopePath) : gmap Z ScopePath :=
  if (first_local <=? slot) && default false (candidates !! Z.to_nat slot)
  then <[slot := path]> owners else owners.

(** [list]'s loop, over its [stmt] arm.  References do not pin, so expressions
    have no part in the walk. *)
Section ScanList.
Context (stmt : IrStmt -> ScopePath -> option ScopePath -> nat -> gmap Z ScopePath -> nat * gmap Z ScopePath).

Fixpoint scan_stmts (stmts : list IrStmt) (path : ScopePath) (declaration : option ScopePath)
    (child : nat) (owners : gmap Z ScopePath) : nat * gmap Z ScopePath :=
  match stmts with
  | [] => (child, owners)
  | s :: stmts =>
    let '(child, owners) := stmt s path declaration child owners in
    scan_stmts stmts path declaration child owners
  end.

(** [nest] and [nest_attempt], with what [absorb] makes of the answer: a slot
    answered once keeps its owner. *)
Definition nest (stmts : list IrStmt) (declaration : option ScopePath) (path : ScopePath)
    (child : nat) (owners : gmap Z ScopePath) : nat * gmap Z ScopePath :=
  let '(child, folded) := scan_stmts stmts (path ++ [child]) declaration (S child) ∅ in
  (child, owners ∪ folded).

Fixpoint scan_steps (step : IrAttemptStep -> ScopePath -> nat -> gmap Z ScopePath -> nat * gmap Z ScopePath)
    (steps : list IrAttemptStep) (path : ScopePath) (child : nat) (owners : gmap Z ScopePath) : nat * gmap Z ScopePath :=
  match steps with
  | [] => (child, owners)
  | s :: steps => let '(child, owners) := step s path child owners in scan_steps step steps path child owners
  end.
End ScanList.

Fixpoint scan_stmt (s : IrStmt) (path : ScopePath) (declaration : option ScopePath) (child : nat)
    (owners : gmap Z ScopePath) : nat * gmap Z ScopePath :=
  match s with
  | S_Let local _ => (child, pin local (default path declaration) owners)
  | S_If _ then_body else_body =>
    let '(child, owners) := nest scan_stmt then_body None path child owners in
    nest scan_stmt else_body None path child owners
  | S_Attempt steps trailing =>
    let '(child, owners) := scan_steps scan_step steps path child owners in
    nest scan_stmt trailing (Some path) path child owners
  | S_While _ body => nest scan_stmt body None path child owners
  | _ => (child, owners)
  end
with scan_step (s : IrAttemptStep) (path : ScopePath) (child : nat) (owners : gmap Z ScopePath) :
    nat * gmap Z ScopePath :=
  match s with
  | AttemptStep setup _ handler success =>
    let '(child, owners) := nest scan_stmt setup (Some path) path child owners in
    let '(child, owners) := nest scan_stmt handler None path child owners in
    nest scan_stmt success (Some path) path child owners
  end.
End Scan.

(** [union_of]. *)
Definition union_of (sets : list (list Z)) : list Z := remove_dups (merge_sort Z.le (concat sets)).

Section Rewrite.
Abbreviation Sets := (gmap ScopePath (list Z)) (only parsing).

(** [list]'s loop: the rewritten statements, the next child index and the sets not
    placed yet. *)
Section RewriteList.
Context (stmt : IrStmt -> ScopePath -> list (list Z) -> list nat -> nat -> Sets -> list IrStmt * nat * Sets).

Fixpoint rewrite_stmts (stmts : list IrStmt) (path : ScopePath) (active : list (list Z)) (loops : list nat)
    (child : nat) (sets : Sets) : list IrStmt * nat * Sets :=
  match stmts with
  | [] => ([], child, sets)
  | s :: stmts =>
    let '(ended, child, sets) := stmt s path active loops child sets in
    let '(rest, child, sets) := rewrite_stmts stmts path active loops child sets in
    (ended ++ rest, child, sets)
  end.

Definition rewrite_list (stmts : list IrStmt) (path : ScopePath) (active : list (list Z)) (loops : list nat)
    (child : nat) (sets : Sets) : list IrStmt * nat * Sets :=
  let own := default [] (sets !! path) in
  let '(ended, child, sets) := rewrite_stmts stmts path (active ++ [own]) loops child (delete path sets) in
  (ended ++ (if is_nil own then [] else [S_ReleaseLocals own]), child, sets).

(** [child]. *)
Definition rewrite_child (stmts : list IrStmt) (path : ScopePath) (active : list (list Z)) (loops : list nat)
    (child : nat) (sets : Sets) : list IrStmt * nat * Sets :=
  rewrite_list stmts (path ++ [child]) active loops (S child) sets.

Fixpoint rewrite_steps
    (step : IrAttemptStep -> ScopePath -> list (list Z) -> list nat -> nat -> Sets -> IrAttemptStep * nat * Sets)
    (steps : list IrAttemptStep) (path : ScopePath) (active : list (list Z)) (loops : list nat)
    (child : nat) (sets : Sets) : list IrAttemptStep * nat * Sets :=
  match steps with
  | [] => ([], child, sets)
  | s :: steps =>
    let '(s, child, sets) := step s path active loops child sets in
    let '(rest, child, sets) := rewrite_steps step steps path active loops child sets in
    (s :: rest, child, sets)
  end.
End RewriteList.

(** What a jump out of the innermost loop releases first. *)
Definition jump_releases (active : list (list Z)) (loops : list nat) : list IrStmt :=
  match last loops with
  | Some boundary =>
    let locals := union_of (drop boundary active) in
    if is_nil locals then [] else [S_ReleaseLocals locals]
  | None => []
  end.

Fixpoint rewrite_stmt (s : IrStmt) (path : ScopePath) (active : list (list Z)) (loops : list nat)
    (child : nat) (sets : Sets) : list IrStmt * nat * Sets :=
  match s with
  | S_Break | S_Continue => (jump_releases active loops ++ [s], child, sets)
  | S_If cond then_body else_body =>
    let '(then_body, child, sets) := rewrite_child rewrite_stmt then_body path active loops child sets in
    let '(else_body, child, sets) := rewrite_child rewrite_stmt else_body path active loops child sets in
    ([S_If cond then_body else_body], child, sets)
  | S_While cond body =>
    let '(body, child, sets) := rewrite_child rewrite_stmt body path active (loops ++ [length active]) child sets in
    ([S_While cond body], child, sets)
  | S_Attempt steps trailing =>
    let '(steps, child, sets) := rewrite_steps rewrite_step steps path active loops child sets in
    let '(trailing, child, sets) := rewrite_child rewrite_stmt trailing path active loops child sets in
    ([S_Attempt steps trailing], child, sets)
  | _ => ([s], child, sets)
  end
with rewrite_step (s : IrAttemptStep) (path : ScopePath) (active : list (list Z)) (loops : list nat)
    (child : nat) (sets : Sets) : IrAttemptStep * nat * Sets :=
  match s with
  | AttemptStep setup error_condition handler success =>
    let '(setup, child, sets) := rewrite_child rewrite_stmt setup path active loops child sets in
    let '(handler, child, sets) := rewrite_child rewrite_stmt handler path active loops child sets in
    let '(success, child, sets) := rewrite_child rewrite_stmt success path active loops child sets in
    (AttemptStep setup error_condition handler success, child, sets)
  end.
End Rewrite.

(** The slots whose type owns heap storage for some engine and that no callback
    state backs. *)
Fixpoint candidates_from (fuel : nat) (t : TypeTable) (f : IrFunction) (index : nat) (tys : list Ty) : option (list bool) :=
  match tys with
  | [] => Some []
  | ty :: tys =>
    owned ← owns fuel Boxed t ty;
    rest ← candidates_from fuel t f (S index) tys;
    Some ((owned && negb (is_state_local f index)) :: rest)
  end.

(** The release set of every list, ascending. *)
Definition sets_of (owners : gmap Z (list nat)) : gmap (list nat) (list Z) :=
  merge_sort Z.le <$>
  map_fold (fun slot owner sets => <[owner := slot :: default [] (sets !! owner)]> sets) ∅ owners.

Definition with_body (body : list IrStmt) (f : IrFunction) : IrFunction :=
  {| if_name := if_name f; if_param_count := if_param_count f; locals := locals f;
     native_state_locals := native_state_locals f; return_type := return_type f;
     if_execution := if_execution f; is_main_thread := is_main_thread f;
     by_reference_params := by_reference_params f; by_pointer_params := by_pointer_params f; body := body |}.

Definition scope_releases (fuel : nat) (t : TypeTable) (f : IrFunction) : option IrFunction :=
  candidates ← candidates_from fuel t f 0 (locals f);
  let '(_, owners) := scan_stmts (scan_stmt candidates (if_param_count f)) (body f) [] None 0 ∅ in
  let sets := sets_of owners in
  if decide (sets = ∅) then Some f
  else
    let '(body, _, _) := rewrite_list rewrite_stmt (body f) [] [] [] 0 sets in
    Some (with_body body f).
