(* ===== verification/MidOk.v ===== *)
(** * What the release plans say

    [plan_function] names a slot exactly when the frame owns its storage
    ([plan_names_owned]); [scope_releases] inserts releases and changes nothing
    else, and what it releases is exactly the block-scoped bindings that own
    storage ([scope_releases_spec]). *)

From stdpp Require Import gmap sorting.
From S2P Require Import Prelude ModuleFormat.
From S2P Require Import Types.
From S2P Require Import Ir.
From S2P Require Import Mid.

(** ** Induction over statements *)

Section Induction.
Context (P : IrStmt -> Prop) (Q : IrAttemptStep -> Prop).
Context (Hleaf : forall s, match s with S_If _ _ _ | S_While _ _ | S_Attempt _ _ => True | _ => P s end).
Context (Hif : forall c a b, Forall P a -> Forall P b -> P (S_If c a b)).
Context (Hwhile : forall c b, Forall P b -> P (S_While c b)).
Context (Hattempt : forall steps b, Forall Q steps -> Forall P b -> P (S_Attempt steps b)).
Context (Hstep : forall a e h b, Forall P a -> Forall P h -> Forall P b -> Q (AttemptStep a e h b)).

Section All.
Context {A} (R : A -> Prop) (all : forall x, R x).
Definition forall_all (l : list A) : Forall R l := Forall_true R l all.
End All.

Fixpoint stmt_induction (s : IrStmt) : P s :=
  match s with
  | S_If c a b => Hif c a b (forall_all P stmt_induction a) (forall_all P stmt_induction b)
  | S_While c b => Hwhile c b (forall_all P stmt_induction b)
  | S_Attempt steps b => Hattempt steps b (forall_all Q step_induction steps) (forall_all P stmt_induction b)
  | s => Hleaf s
  end
with step_induction (s : IrAttemptStep) : Q s :=
  match s with
  | AttemptStep a e h b =>
    Hstep a e h b (forall_all P stmt_induction a) (forall_all P stmt_induction h) (forall_all P stmt_induction b)
  end.
End Induction.

(** ** What a body declares and releases *)

(** A body without its releases. *)
Fixpoint erase_stmt (s : IrStmt) : list IrStmt :=
  match s with
  | S_ReleaseLocals _ => []
  | S_If c a b => [S_If c (flat_map erase_stmt a) (flat_map erase_stmt b)]
  | S_While c b => [S_While c (flat_map erase_stmt b)]
  | S_Attempt steps b => [S_Attempt (map erase_step steps) (flat_map erase_stmt b)]
  | s => [s]
  end
with erase_step (s : IrAttemptStep) : IrAttemptStep :=
  match s with
  | AttemptStep a e h b => AttemptStep (flat_map erase_stmt a) e (flat_map erase_stmt h) (flat_map erase_stmt b)
  end.
Definition erase : list IrStmt -> list IrStmt := flat_map erase_stmt.

(** The slots its releases name. *)
Fixpoint released_stmt (s : IrStmt) : list Z :=
  match s with
  | S_ReleaseLocals slots => slots
  | S_If _ a b => flat_map released_stmt a ++ flat_map released_stmt b
  | S_While _ b => flat_map released_stmt b
  | S_Attempt steps b => flat_map released_step steps ++ flat_map released_stmt b
  | _ => []
  end
with released_step (s : IrAttemptStep) : list Z :=
  match s with
  | AttemptStep a e h b => flat_map released_stmt a ++ flat_map released_stmt h ++ flat_map released_stmt b
  end.
Definition released : list IrStmt -> list Z := flat_map released_stmt.

(** The slots its [let]s bind. *)
Fixpoint declared_stmt (s : IrStmt) : list Z :=
  match s with
  | S_Let local _ => [local]
  | S_If _ a b => flat_map declared_stmt a ++ flat_map declared_stmt b
  | S_While _ b => flat_map declared_stmt b
  | S_Attempt steps b => flat_map declared_step steps ++ flat_map declared_stmt b
  | _ => []
  end
with declared_step (s : IrAttemptStep) : list Z :=
  match s with
  | AttemptStep a e h b => flat_map declared_stmt a ++ flat_map declared_stmt h ++ flat_map declared_stmt b
  end.
Definition declared : list IrStmt -> list Z := flat_map declared_stmt.

(** ** The rewrite *)

Section Rewritten.
Abbreviation Sets := (gmap (list nat) (list Z)) (only parsing).

Definition at_path (sets : Sets) (q : list nat) : list Z := default [] (sets !! q).

(** From [r] to [r'] the releases grew by slots that were active or in the sets, by
    all of those the sets lost. *)
Record rewritten (active : list (list Z)) (sets sets' : Sets) (r r' : list Z) : Prop := {
  rw_from : forall slot, slot ∈ r' -> slot ∈ r \/ slot ∈ concat active \/ exists q, slot ∈ at_path sets q;
  rw_kept : forall slot, slot ∈ r -> slot ∈ r';
  rw_placed : forall q slot, slot ∈ at_path sets q -> slot ∈ r' \/ slot ∈ at_path sets' q;
  rw_sets : sets' ⊆ sets
}.

Lemma at_path_sub (sets sets' : Sets) q slot : sets' ⊆ sets -> slot ∈ at_path sets' q -> slot ∈ at_path sets q.
Proof.
  unfold at_path. intros Hs. destruct (sets' !! q) as [l|] eqn:Hq; cbn; [|by intros ?%not_elem_of_nil].
  by rewrite (lookup_weaken _ _ _ _ Hq Hs).
Qed.

Lemma rewritten_refl active sets r : rewritten active sets sets r r.
Proof. split; auto. Qed.

Lemma rewritten_app active s0 s1 s2 r1 r1' r2 r2' :
  rewritten active s0 s1 r1 r1' -> rewritten active s1 s2 r2 r2' -> rewritten active s0 s2 (r1 ++ r2) (r1' ++ r2').
Proof.
  intros [F1 K1 P1 S1] [F2 K2 P2 S2]. split; [| | |by etrans].
  - intros slot [H|H]%elem_of_app; [destruct (F1 _ H) as [?|[?|?]]|destruct (F2 _ H) as [?|[?|[q ?]]]]; rewrite ?elem_of_app; eauto.
    right. right. exists q. by eapply at_path_sub.
  - intros slot [H|H]%elem_of_app; apply elem_of_app; auto.
  - intros q slot H. rewrite elem_of_app. destruct (P1 _ _ H) as [?|H1]; [auto|]. destruct (P2 _ _ H1); auto.
Qed.

Lemma rewritten_grow active s s' r r' r'' : rewritten active s s' r r' ->
  (forall slot, slot ∈ r' -> slot ∈ r'') -> (forall slot, slot ∈ r'' -> slot ∈ r' \/ slot ∈ concat active) ->
  rewritten active s s' r r''.
Proof.
  intros [F K P S] Hin Hout. split; [|by auto| |done].
  - intros slot H. destruct (Hout _ H) as [H'|H']; [by apply F|by auto].
  - intros q slot H. destruct (P _ _ H); auto.
Qed.
End Rewritten.

Section Rewrites.
Abbreviation Sets := (gmap (list nat) (list Z)) (only parsing).

Definition list_rewritten (active : list (list Z)) (sets : Sets) (ss : list IrStmt) (r : list IrStmt * nat * Sets) : Prop :=
  erase r.1.1 = erase ss /\ rewritten active sets r.2 (released ss) (released r.1.1).
Definition step_rewritten (active : list (list Z)) (sets : Sets) (s : IrAttemptStep) (r : IrAttemptStep * nat * Sets) : Prop :=
  erase_step r.1.1 = erase_step s /\ rewritten active sets r.2 (released_step s) (released_step r.1.1).

Definition rewrites_stmt (s : IrStmt) : Prop := forall path active loops child sets,
  list_rewritten active sets [s] (rewrite_stmt s path active loops child sets).
Definition rewrites_step (s : IrAttemptStep) : Prop := forall path active loops child sets,
  step_rewritten active sets s (rewrite_step s path active loops child sets).

Lemma released_cons s ss : released (s :: ss) = released [s] ++ released ss.
Proof. unfold released. cbn. by rewrite app_nil_r. Qed.

Lemma rewrites_stmts ss : Forall rewrites_stmt ss -> forall path active loops child sets,
  list_rewritten active sets ss (rewrite_stmts rewrite_stmt ss path active loops child sets).
Proof.
  induction 1 as [|s ss Hs _ IH]; intros path active loops child sets; cbn [rewrite_stmts].
  { split; [done|apply rewritten_refl]. }
  specialize (Hs path active loops child sets). destruct (rewrite_stmt s path active loops child sets) as [[out c1] s1].
  specialize (IH path active loops c1 s1). destruct (rewrite_stmts rewrite_stmt ss path active loops c1 s1) as [[rest c2] s2].
  destruct Hs as [He Hr], IH as [He' Hr']. cbn [fst snd] in *. split; cbn [fst snd].
  - unfold erase in *. rewrite flat_map_app, He, He'. cbn. by rewrite app_nil_r.
  - rewrite released_cons. unfold released in *. rewrite flat_map_app. by eapply rewritten_app.
Qed.

Lemma rewrites_list ss : Forall rewrites_stmt ss -> forall path active loops child sets,
  list_rewritten active sets ss (rewrite_list rewrite_stmt ss path active loops child sets) /\
  (rewrite_list rewrite_stmt ss path active loops child sets).2 !! path = None.
Proof.
  intros Hss path active loops child sets. unfold rewrite_list. set (own := default [] (sets !! path)).
  pose proof (rewrites_stmts ss Hss path (active ++ [own]) loops child (delete path sets)) as H.
  destruct (rewrite_stmts _ _ _ _ _ _ _) as [[out c1] s1]. destruct H as [He [F K P S]]. cbn in *.
  assert (erase (out ++ (if is_nil own then [] else [S_ReleaseLocals own])) = erase ss) as He'.
  { unfold erase in *. rewrite flat_map_app, He. destruct own; cbn; by rewrite app_nil_r. }
  assert (released (out ++ (if is_nil own then [] else [S_ReleaseLocals own])) = released out ++ own) as Hr.
  { unfold released. rewrite flat_map_app. destruct own; cbn; by rewrite ?app_nil_r. }
  split; [split; [done|]|]; cbn.
  - rewrite Hr. assert (s1 ⊆ sets) as Hsub by (etrans; [exact S|apply delete_subseteq]). split; [| | |done].
    + intros slot [H|H]%elem_of_app; [|right; right; by exists path].
      destruct (F _ H) as [?|[H1|[q Hq]]]; [by auto| |].
      * rewrite concat_app in H1. apply elem_of_app in H1 as [?|H1]; [by auto|]. cbn in H1. rewrite app_nil_r in H1.
        right. right. by exists path.
      * right. right. exists q. eapply at_path_sub; [|exact Hq]. apply delete_subseteq.
    + intros slot H. apply elem_of_app. auto.
    + intros q slot H. rewrite elem_of_app. destruct (decide (q = path)) as [->|Hne]; [auto|].
      destruct (P q slot) as [?|?]; [unfold at_path; by rewrite lookup_delete_ne|auto..].
  - destruct (s1 !! path) as [l|] eqn:Hl; [|done].
    pose proof (lookup_weaken _ _ _ _ Hl S) as Hd. by rewrite lookup_delete_eq in Hd.
Qed.

Lemma rewrites_child ss path active loops child sets : Forall rewrites_stmt ss ->
  list_rewritten active sets ss (rewrite_child rewrite_stmt ss path active loops child sets).
Proof. intros Hss. by apply rewrites_list. Qed.

Lemma rewrites_steps steps : Forall rewrites_step steps -> forall path active loops child sets,
  let r := rewrite_steps rewrite_step steps path active loops child sets in
  map erase_step r.1.1 = map erase_step steps /\
  rewritten active sets r.2 (flat_map released_step steps) (flat_map released_step r.1.1).
Proof.
  induction 1 as [|s ss Hs _ IH]; intros path active loops child sets; cbn [rewrite_steps].
  { split; [done|apply rewritten_refl]. }
  specialize (Hs path active loops child sets). destruct (rewrite_step s path active loops child sets) as [[out c1] s1].
  specialize (IH path active loops c1 s1). destruct (rewrite_steps rewrite_step ss path active loops c1 s1) as [[rest c2] s2].
  destruct Hs as [He Hr], IH as [He' Hr']. cbn in *. split; cbn; [by rewrite He, He'|by eapply rewritten_app].
Qed.

Lemma union_of_elem sets slot : slot ∈ union_of sets <-> slot ∈ concat sets.
Proof. unfold union_of. by rewrite elem_of_remove_dups, merge_sort_Permutation. Qed.

Lemma jump_releases_ok active loops s sets : released_stmt s = [] -> erase_stmt s = [s] ->
  list_rewritten active sets [s] (jump_releases active loops ++ [s], 0%nat, sets).
Proof.
  intros Hs He. unfold jump_releases. assert (list_rewritten active sets [s] ([] ++ [s], 0%nat, sets)) as H0.
  { split; [done|apply rewritten_refl]. }
  destruct (last loops) as [b|]; [|exact H0]. destruct (union_of (drop b active)) as [|slot slots] eqn:Hu; [exact H0|].
  split; [cbn; by rewrite He|]. cbn [fst snd]. unfold released. cbn. rewrite Hs. cbn. rewrite app_nil_r.
  eapply rewritten_grow; [apply rewritten_refl|by intros ? ?%not_elem_of_nil|].
  intros x Hx. right. rewrite <- Hu, union_of_elem in Hx. rewrite <- (take_drop b active), concat_app. apply elem_of_app. auto.
Qed.


Lemma rewrites_all : (forall s, rewrites_stmt s) /\ (forall s, rewrites_step s).
Proof.
  assert (forall s, match s with S_If _ _ _ | S_While _ _ | S_Attempt _ _ => True | _ => rewrites_stmt s end) as Hleaf.
  { intros []; try done; intros path active loops ch sets; try (split; [done|apply rewritten_refl]).
    - destruct (jump_releases_ok active loops S_Break sets eq_refl eq_refl) as [H1 H2]. by split.
    - destruct (jump_releases_ok active loops S_Continue sets eq_refl eq_refl) as [H1 H2]. by split. }
  assert (forall c a b, Forall rewrites_stmt a -> Forall rewrites_stmt b -> rewrites_stmt (S_If c a b)) as Hif.
  { intros c a b Ha Hb path active loops ch sets. cbn [rewrite_stmt].
    destruct (rewrites_child a path active loops ch sets Ha) as [E1 R1].
    destruct (rewrite_child rewrite_stmt a path active loops ch sets) as [[a' c1] s1].
    destruct (rewrites_child b path active loops c1 s1 Hb) as [E2 R2].
    destruct (rewrite_child rewrite_stmt b path active loops c1 s1) as [[b' c2] s2].
    cbn [fst snd] in *. split; cbn [fst snd].
    - cbn. change (flat_map erase_stmt) with erase. by rewrite E1, E2.
    - cbn. rewrite !app_nil_r. by eapply rewritten_app. }
  assert (forall c b, Forall rewrites_stmt b -> rewrites_stmt (S_While c b)) as Hwhile.
  { intros c b Hb path active loops ch sets. cbn [rewrite_stmt].
    destruct (rewrites_child b path active (loops ++ [length active]) ch sets Hb) as [E2 R2].
    destruct (rewrite_child _ _ _ _ _ _ _) as [[b' c2] s2].
    cbn [fst snd] in *. split; cbn [fst snd].
    - cbn. change (flat_map erase_stmt) with erase. by rewrite E2.
    - cbn. by rewrite !app_nil_r. }
  assert (forall steps b, Forall rewrites_step steps -> Forall rewrites_stmt b -> rewrites_stmt (S_Attempt steps b)) as Hattempt.
  { intros steps b Hs Hb path active loops ch sets. cbn [rewrite_stmt].
    destruct (rewrites_steps steps Hs path active loops ch sets) as [E1 R1].
    destruct (rewrite_steps _ _ _ _ _ _ _) as [[steps' c1] s1].
    destruct (rewrites_child b path active loops c1 s1 Hb) as [E2 R2].
    destruct (rewrite_child _ _ _ _ _ _ _) as [[b' c2] s2].
    cbn [fst snd] in *. split; cbn [fst snd].
    - cbn. change (flat_map erase_stmt) with erase. by rewrite E1, E2.
    - cbn. rewrite !app_nil_r. by eapply rewritten_app. }
  assert (forall a e h b, Forall rewrites_stmt a -> Forall rewrites_stmt h -> Forall rewrites_stmt b ->
    rewrites_step (AttemptStep a e h b)) as Hstep.
  { intros a e h b Ha Hh Hb path active loops ch sets. cbn [rewrite_step].
    destruct (rewrites_child a path active loops ch sets Ha) as [E1 R1].
    destruct (rewrite_child rewrite_stmt a path active loops ch sets) as [[a' c1] s1].
    destruct (rewrites_child h path active loops c1 s1 Hh) as [E2 R2].
    destruct (rewrite_child rewrite_stmt h path active loops c1 s1) as [[h' c2] s2].
    destruct (rewrites_child b path active loops c2 s2 Hb) as [E3 R3].
    destruct (rewrite_child rewrite_stmt b path active loops c2 s2) as [[b' c3] s3].
    cbn [fst snd] in *. split; cbn [fst snd].
    - cbn. change (flat_map erase_stmt) with erase. by rewrite E1, E2, E3.
    - cbn. eapply rewritten_app; [done|]. by eapply rewritten_app. }
  split; [by apply stmt_induction with (Q := rewrites_step)|by apply step_induction with (P := rewrites_stmt)].
Qed.
End Rewrites.

(** ** The scan, and the rewrite's agreement with it *)

Section Scanned.
Context (candidates : list bool) (first_local : Z).
Abbreviation Sets := (gmap (list nat) (list Z)) (only parsing).
Abbreviation Owners := (gmap Z (list nat)) (only parsing).
Abbreviation scan := (scan_stmt candidates first_local) (only parsing).

Definition pinned (slot : Z) : Prop := (first_local <=? slot) && default false (candidates !! Z.to_nat slot) = true.

(** The scan adds the bindings declared, and no others. *)
Definition binds (slots : list Z) (owners : Owners) (r : nat * Owners) : Prop :=
  forall slot, is_Some (r.2 !! slot) <-> is_Some (owners !! slot) \/ slot ∈ slots /\ pinned slot.

Lemma binds_nil child owners : binds [] owners (child, owners).
Proof. intros slot. rewrite elem_of_nil. split; [auto|by intros [?|[[] _]]]. Qed.

Lemma binds_app a b c1 o0 o1 r : binds a o0 (c1, o1) -> binds b o1 r -> binds (a ++ b) o0 r.
Proof. intros Ha Hb slot. rewrite (Hb slot), (Ha slot), elem_of_app. tauto. Qed.

Lemma binds_pin slot path child owners : binds [slot] owners (child, pin candidates first_local slot path owners).
Proof.
  intros s. cbn [snd]. rewrite list_elem_of_singleton. unfold pin, pinned.
  destruct ((first_local <=? slot) && default false (candidates !! Z.to_nat slot)) eqn:Hp.
  - destruct (decide (s = slot)) as [->|Hne].
    + rewrite lookup_insert_eq. split; [tauto|by eexists].
    + rewrite lookup_insert_ne by done. tauto.
  - split; [tauto|]. intros [?|[-> ?]]; [done|congruence].
Qed.

(** The two walks hand out the same child indices, and a list the scan calls an
    owner is one the rewrite has been through. *)
Definition agrees (owners : Owners) (a : nat * Owners) (child : nat) (sets : Sets) : Prop :=
  a.1 = child /\ forall slot q, a.2 !! slot = Some q -> owners !! slot = Some q \/ sets !! q = None.

Definition visited (path : list nat) (declaration : option (list nat)) (sets : Sets) : Prop :=
  sets !! path = None /\ forall d, declaration = Some d -> sets !! d = None.

Definition scans_stmt (s : IrStmt) : Prop := forall path declaration child owners,
  binds (declared_stmt s) owners (scan s path declaration child owners) /\
  forall active loops sets, visited path declaration sets ->
    let r := rewrite_stmt s path active loops child sets in
    agrees owners (scan s path declaration child owners) r.1.2 r.2.
Definition scans_step (s : IrAttemptStep) : Prop := forall path child owners,
  binds (declared_step s) owners (scan_step candidates first_local s path child owners) /\
  forall active loops sets, sets !! path = None ->
    let r := rewrite_step s path active loops child sets in
    agrees owners (scan_step candidates first_local s path child owners) r.1.2 r.2.

Lemma sub_none (s s' : Sets) q : s' ⊆ s -> s !! q = None -> s' !! q = None.
Proof. intros Hs Hq. destruct (s' !! q) eqn:H; [|done]. by rewrite (lookup_weaken _ _ _ _ H Hs) in Hq. Qed.

Lemma visited_sub path declaration s s' : s' ⊆ s -> visited path declaration s -> visited path declaration s'.
Proof. intros Hs [H1 H2]. split; [by eapply sub_none|]. intros d Hd. eapply sub_none; [exact Hs|auto]. Qed.

Lemma walks_agree_trans o0 a1 c1 s1 a2 c2 s2 :
  agrees o0 a1 c1 s1 -> agrees a1.2 a2 c2 s2 -> s2 ⊆ s1 -> agrees o0 a2 c2 s2.
Proof.
  intros [_ H1] [E2 H2] Hs. split; [done|]. intros slot q Hq. destruct (H2 _ _ Hq) as [Hq'|?]; [|by auto].
  destruct (H1 _ _ Hq') as [?|?]; [by auto|]. right. by eapply sub_none.
Qed.

Lemma rewrite_shrinks s path active loops child sets : (rewrite_stmt s path active loops child sets).2 ⊆ sets.
Proof. by destruct (proj1 rewrites_all s path active loops child sets) as [_ [_ _ _ ?]]. Qed.

Lemma list_shrinks ss path active loops child sets : (rewrite_list rewrite_stmt ss path active loops child sets).2 ⊆ sets.
Proof.
  destruct (rewrites_list ss) with (path := path) (active := active) (loops := loops) (child := child) (sets := sets)
    as [[_ [_ _ _ ?]] _]; [|done]. apply Forall_forall. intros s _. apply rewrites_all.
Qed.

Lemma scans_stmts ss : Forall scans_stmt ss -> forall path declaration child owners,
  binds (declared ss) owners (scan_stmts scan ss path declaration child owners) /\
  forall active loops sets, visited path declaration sets ->
    let r := rewrite_stmts rewrite_stmt ss path active loops child sets in
    agrees owners (scan_stmts scan ss path declaration child owners) r.1.2 r.2.
Proof.
  induction 1 as [|s ss Hs _ IH]; intros path declaration child owners; cbn [scan_stmts rewrite_stmts].
  { split; [apply binds_nil|]. intros active loops sets _. split; [done|auto]. }
  destruct (Hs path declaration child owners) as [Hb Ha].
  destruct (scan s path declaration child owners) as [c1 o1].
  destruct (IH path declaration c1 o1) as [Hb' Ha']. split; [unfold declared in *; by eapply binds_app|].
  intros active loops sets Hv. specialize (Ha active loops sets Hv).
  pose proof (rewrite_shrinks s path active loops child sets) as Hsub.
  destruct (rewrite_stmt s path active loops child sets) as [[out c1'] s1]. destruct Ha as [Hc Ha]. cbn in Hc. subst c1'.
  cbn [fst snd] in Hsub. specialize (Ha' active loops s1 (visited_sub _ _ _ _ Hsub Hv)).
  pose proof (rewrites_stmts ss ltac:(apply Forall_forall; intros x _; apply rewrites_all) path active loops c1 s1) as [_ [_ _ _ Hsub2]].
  destruct (rewrite_stmts rewrite_stmt ss path active loops c1 s1) as [[rest c2] s2].
  by eapply (walks_agree_trans owners (c1, o1)).
Qed.

Lemma scans_child ss : Forall scans_stmt ss -> forall path declaration child owners,
  binds (declared ss) owners (nest scan ss declaration path child owners) /\
  forall active loops sets, (forall d, declaration = Some d -> sets !! d = None) ->
    let r := rewrite_child rewrite_stmt ss path active loops child sets in
    agrees owners (nest scan ss declaration path child owners) r.1.2 r.2.
Proof.
  intros Hss path declaration child owners. unfold nest, rewrite_child, rewrite_list.
  destruct (scans_stmts ss Hss (path ++ [child]) declaration (S child) ∅) as [Hb Ha].
  destruct (scan_stmts scan ss (path ++ [child]) declaration (S child) ∅) as [c1 o1]. split.
  - intros slot. specialize (Hb slot). cbn [snd] in *. rewrite lookup_union_is_Some, Hb, lookup_empty.
    split; [intros [?|[[? ?]|?]]; [auto|done|auto]|intros [?|?]; auto].
  - intros active loops sets Hd. set (q := path ++ [child]) in *.
    destruct (Ha (active ++ [default [] (sets !! q)]) loops (delete q sets)) as [Hc Ho].
    { split; [apply lookup_delete_eq|]. intros d Hd'. eapply sub_none; [apply delete_subseteq|auto]. }
    destruct (rewrite_stmts _ _ _ _ _ _ _) as [[out c2] s2]. cbn in *. split; [done|]. cbn.
    intros slot q' [Hq|[_ Hq]]%lookup_union_Some_raw; [auto|]. right.
    destruct (Ho _ _ Hq) as [Hn|?]; [by rewrite lookup_empty in Hn|done].
Qed.

(** One part of a statement after the parts before it. *)
Lemma child_next ss path declaration child owners o0 before : Forall scans_stmt ss ->
  binds before o0 (child, owners) ->
  binds (before ++ declared ss) o0 (nest scan ss declaration path child owners) /\
  forall active loops sets, (forall d, declaration = Some d -> sets !! d = None) ->
    agrees o0 (child, owners) child sets ->
    let r := rewrite_child rewrite_stmt ss path active loops child sets in
    agrees o0 (nest scan ss declaration path child owners) r.1.2 r.2 /\ r.2 ⊆ sets.
Proof.
  intros Hss Hb. destruct (scans_child ss Hss path declaration child owners) as [Hb' Ha]. split; [by eapply binds_app|].
  intros active loops sets Hd Hag. cbn. split; [|apply list_shrinks].
  eapply (walks_agree_trans o0 (child, owners)); [exact Hag|by apply Ha|apply list_shrinks].
Qed.

Lemma walks_agree_refl o child sets : agrees o (child, o) child sets.
Proof. split; auto. Qed.

Lemma scans_steps steps : Forall scans_step steps -> forall path child owners,
  binds (flat_map declared_step steps) owners (scan_steps (scan_step candidates first_local) steps path child owners) /\
  forall active loops sets, sets !! path = None ->
    let r := rewrite_steps rewrite_step steps path active loops child sets in
    agrees owners (scan_steps (scan_step candidates first_local) steps path child owners) r.1.2 r.2 /\ r.2 ⊆ sets.
Proof.
  induction 1 as [|s ss Hs _ IH]; intros path child owners; cbn [scan_steps rewrite_steps flat_map].
  { split; [apply binds_nil|]. intros active loops sets _. split; [apply walks_agree_refl|done]. }
  destruct (Hs path child owners) as [Hb Ha].
  destruct (scan_step candidates first_local s path child owners) as [c1 o1].
  destruct (IH path c1 o1) as [Hb' Ha']. split; [by eapply binds_app|].
  intros active loops sets Hv. specialize (Ha active loops sets Hv).
  destruct (proj2 rewrites_all s path active loops child sets) as [_ [_ _ _ Hsub]].
  destruct (rewrite_step s path active loops child sets) as [[out c1'] s1]. cbn [fst snd] in *.
  destruct Ha as [Hc Ha]. cbn in Hc. subst c1'.
  destruct (Ha' active loops s1 (sub_none _ _ _ Hsub Hv)) as [Hag Hsub2].
  destruct (rewrite_steps rewrite_step ss path active loops c1 s1) as [[rest c2] s2]. cbn [fst snd] in *.
  split; [|by etrans]. by eapply (walks_agree_trans owners (c1, o1)).
Qed.

Lemma scan_step_unfold a e h b path child owners :
  scan_step candidates first_local (AttemptStep a e h b) path child owners =
  let '(child, owners) := nest scan a (Some path) path child owners in
  let '(child, owners) := nest scan h None path child owners in
  nest scan b (Some path) path child owners.
Proof. done. Qed.

Lemma scans_all : (forall s, scans_stmt s) /\ (forall s, scans_step s).
Proof.
  assert (forall s, match s with S_If _ _ _ | S_While _ _ | S_Attempt _ _ => True | _ => scans_stmt s end) as Hleaf.
  { intros []; try done; intros path declaration ch owners; (split; [try apply binds_nil|intros active loops sets Hv; try apply walks_agree_refl]).
    - apply binds_pin.
    - split; [done|]. cbn. unfold pin. intros slot q. destruct (_ && _); [|auto]. destruct (decide (slot = local)) as [->|Hne].
      + rewrite lookup_insert_eq. intros [= <-]. right. destruct Hv as [Hp Hd]. destruct declaration; cbn; auto.
      + rewrite lookup_insert_ne by done. auto. }
  assert (forall c a b, Forall scans_stmt a -> Forall scans_stmt b -> scans_stmt (S_If c a b)) as Hif.
  { intros c a b Ha Hb path declaration ch owners. cbn [scan_stmt rewrite_stmt declared_stmt].
    destruct (child_next a path None ch owners owners [] Ha (binds_nil _ _)) as [B1 A1]. cbn [app] in B1.
    destruct (nest scan a None path ch owners) as [c1 o1].
    destruct (child_next b path None c1 o1 owners (declared a) Hb B1) as [B2 A2]. split; [exact B2|].
    intros active loops sets _. destruct (A1 active loops sets) as [G1 S1]; [done|apply walks_agree_refl|].
    destruct (rewrite_child rewrite_stmt a path active loops ch sets) as [[a' c1'] s1]. cbn [fst snd] in *.
    pose proof (proj1 G1) as Hc. cbn in Hc. subst c1'. destruct (A2 active loops s1) as [G2 _]; [done|exact G1|].
    by destruct (rewrite_child rewrite_stmt b path active loops c1 s1) as [[b' c2] s2]. }
  assert (forall c b, Forall scans_stmt b -> scans_stmt (S_While c b)) as Hwhile.
  { intros c b Hb path declaration ch owners. cbn [scan_stmt rewrite_stmt declared_stmt].
    destruct (child_next b path None ch owners owners [] Hb (binds_nil _ _)) as [B1 A1]. split; [exact B1|].
    intros active loops sets _. destruct (A1 active (loops ++ [length active]) sets) as [G1 _]; [done|apply walks_agree_refl|].
    by destruct (rewrite_child rewrite_stmt b path active _ ch sets) as [[b' c2] s2]. }
  assert (forall steps b, Forall scans_step steps -> Forall scans_stmt b -> scans_stmt (S_Attempt steps b)) as Hattempt.
  { intros steps b Hs Hb path declaration ch owners. cbn [scan_stmt rewrite_stmt declared_stmt].
    destruct (scans_steps steps Hs path ch owners) as [B1 A1].
    destruct (scan_steps _ steps path ch owners) as [c1 o1].
    destruct (child_next b path (Some path) c1 o1 owners _ Hb B1) as [B2 A2]. split; [exact B2|].
    intros active loops sets [Hp _]. destruct (A1 active loops sets Hp) as [G1 S1].
    destruct (rewrite_steps rewrite_step steps path active loops ch sets) as [[a' c1'] s1]. cbn [fst snd] in *.
    pose proof (proj1 G1) as Hc. cbn in Hc. subst c1'.
    destruct (A2 active loops s1) as [G2 _]; [intros d [= <-]; by eapply sub_none|exact G1|].
    by destruct (rewrite_child rewrite_stmt b path active loops c1 s1) as [[b' c2] s2]. }
  assert (forall a e h b, Forall scans_stmt a -> Forall scans_stmt h -> Forall scans_stmt b ->
    scans_step (AttemptStep a e h b)) as Hstep.
  { intros a e h b Ha Hh Hb path ch owners. rewrite scan_step_unfold. cbn [rewrite_step declared_step].
    destruct (child_next a path (Some path) ch owners owners [] Ha (binds_nil _ _)) as [B1 A1]. cbn [app] in B1.
    destruct (nest scan a (Some path) path ch owners) as [c1 o1].
    destruct (child_next h path None c1 o1 owners (declared a) Hh B1) as [B2 A2].
    destruct (nest scan h None path c1 o1) as [c2 o2].
    destruct (child_next b path (Some path) c2 o2 owners _ Hb B2) as [B3 A3]. split; [rewrite <- app_assoc in B3; exact B3|].
    intros active loops sets Hp. destruct (A1 active loops sets) as [G1 S1]; [by intros d [= <-]|apply walks_agree_refl|].
    destruct (rewrite_child rewrite_stmt a path active loops ch sets) as [[a' c1'] s1]. cbn [fst snd] in *.
    pose proof (proj1 G1) as Hc. cbn in Hc. subst c1'. destruct (A2 active loops s1) as [G2 S2]; [done|exact G1|].
    destruct (rewrite_child rewrite_stmt h path active loops c1 s1) as [[h' c2'] s2]. cbn [fst snd] in *.
    pose proof (proj1 G2) as Hc. cbn in Hc. subst c2'.
    destruct (A3 active loops s2) as [G3 _]; [intros d [= <-]; eapply sub_none; [exact S2|]; by eapply sub_none|exact G2|].
    by destruct (rewrite_child rewrite_stmt b path active loops c2 s2) as [[b' c3] s3]. }
  split; [by apply stmt_induction with (Q := scans_step)|by apply step_induction with (P := scans_stmt)].
Qed.
End Scanned.

(** ** What is released *)

Lemma sets_of_elem owners q slot : slot ∈ at_path (sets_of owners) q <-> owners !! slot = Some q.
Proof.
  unfold at_path, sets_of. rewrite lookup_fmap.
  assert (forall sets, slot ∈ default [] (merge_sort Z.le <$> sets !! q) <-> slot ∈ default [] ((sets : gmap (list nat) (list Z)) !! q)) as Hm.
  { intros sets. destruct (sets !! q); cbn; [by rewrite merge_sort_Permutation|done]. }
  rewrite Hm. clear Hm. apply (map_fold_weak_ind (fun sets owners => slot ∈ default [] (sets !! q) <-> owners !! slot = Some q)); clear owners.
  { rewrite !lookup_empty. split; [by intros ?%not_elem_of_nil|done]. }
  intros i path owners sets Hi IH. destruct (decide (path = q)) as [->|Hp].
  - rewrite lookup_insert_eq. cbn [from_option id]. rewrite elem_of_cons, IH. destruct (decide (i = slot)) as [->|Hne].
    + rewrite lookup_insert_eq. tauto.
    + rewrite lookup_insert_ne by done. split; [intros [?|?]; [congruence|done]|auto].
  - rewrite lookup_insert_ne by done. rewrite IH. destruct (decide (i = slot)) as [->|Hne].
    + rewrite lookup_insert_eq, Hi. split; [done|congruence].
    + by rewrite lookup_insert_ne.
Qed.

Section Scoped.
Context (fuel : nat) (t : TypeTable) (f : IrFunction).

Lemma candidates_lookup tys : forall index cs, candidates_from fuel t f index tys = Some cs ->
  forall i, default false (cs !! i) = true <->
    exists ty, tys !! i = Some ty /\ owns fuel Boxed t ty = Some true /\ is_state_local f (index + i) = false.
Proof.
  induction tys as [|ty tys IH]; intros index cs; cbn [candidates_from]; [intros [= <-]|].
  { intros i. rewrite !lookup_nil. split; [done|by intros (? & ? & _)]. }
  destruct (owns fuel Boxed t ty) as [owned|] eqn:Ho; [|done].
  destruct (candidates_from fuel t f (S index) tys) as [rest|] eqn:Hr; [|done]. intros [= <-] [|i]; cbn [lookup list_lookup from_option id].
  - rewrite Nat.add_0_r, andb_true_iff, negb_true_iff. split.
    + intros [-> ?]. by exists ty.
    + intros (? & [= <-] & Ho' & ?). split; [congruence|done].
  - rewrite (IH _ _ Hr i). by rewrite Nat.add_succ_r.
Qed.

(** A binding of the body, not a parameter, that owns storage and that no callback
    state backs. *)
Definition scoped (slot : Z) : Prop :=
  slot ∈ declared (body f) /\ if_param_count f <= slot /\
  exists ty, locals f !! Z.to_nat slot = Some ty /\ owns fuel Boxed t ty = Some true /\
    is_state_local f (Z.to_nat slot) = false.

Lemma pinned_scoped cs : candidates_from fuel t f 0 (locals f) = Some cs ->
  forall slot, slot ∈ declared (body f) /\ pinned cs (if_param_count f) slot <-> scoped slot.
Proof.
  intros Hc slot. unfold pinned, scoped. rewrite andb_true_iff, Z.leb_le, (candidates_lookup _ _ _ Hc). done.
Qed.
End Scoped.

(** C13: [scope_releases] only inserts releases: without them the body is the one it
    was given.  And what it releases is exact: besides what the body released
    already, the slots its releases name are those of the bindings declared in
    the body that own storage, are not parameters and back no callback state,
    every one of them somewhere.  (The two walks of the pass agree on which list
    is which, or a binding would be released nowhere.) *)
Theorem scope_releases_spec (fuel : nat) (t : TypeTable) (f f' : IrFunction) :
  scope_releases fuel t f = Some f' ->
  f' = with_body (body f') f /\ erase (body f') = erase (body f) /\
  forall slot, slot ∈ released (body f') <-> slot ∈ released (body f) \/ scoped fuel t f slot.
Proof.
  unfold scope_releases. destruct (candidates_from fuel t f 0 (locals f)) as [cs|] eqn:Hc; [|done].
  cbn [mbind option_bind]. pose proof (pinned_scoped fuel t f cs Hc) as Hpin.
  destruct (scans_stmts cs (if_param_count f) (body f)) with (path := @nil nat) (declaration := @None (list nat))
    (child := 0%nat) (owners := ∅ : gmap Z (list nat)) as [Hb Ha].
  { apply Forall_forall. intros s _. apply scans_all. }
  destruct (scan_stmts (scan_stmt cs (if_param_count f)) (body f) [] None 0 ∅) as [c owners].
  assert (forall slot, is_Some (owners !! slot) <-> scoped fuel t f slot) as Hs.
  { intros slot. specialize (Hb slot). cbn in Hb. rewrite Hb, lookup_empty, <- Hpin.
    split; [intros [[]|?]; done|auto]. }
  clear Hb Hpin Hc. destruct (decide (sets_of owners = ∅)) as [He|Hne].
  { intros [= <-]. split; [by destruct f|]. split; [done|]. intros slot. split; [auto|]. intros [?|[q Hq]%Hs]; [done|].
    apply sets_of_elem in Hq. unfold at_path in Hq. rewrite He, lookup_empty in Hq. by apply not_elem_of_nil in Hq. }
  pose proof (rewrites_list (body f) ltac:(apply Forall_forall; intros s _; apply rewrites_all) [] [] [] 0 (sets_of owners))
    as [[E [F K P _]] Hnil].
  specialize (Ha [default [] (sets_of owners !! [])] [] (delete [] (sets_of owners))).
  unfold rewrite_list in *. cbn [app] in *.
  destruct (rewrite_stmts _ _ _ _ _ _ _) as [[out c2] s2]. cbn [fst snd] in *. intros [= <-]. cbn [body with_body].
  split; [done|]. split; [exact E|]. intros slot. split.
  - intros [?|[[]%elem_of_nil|[q Hq]]]%F; [auto|]. right. apply Hs. apply sets_of_elem in Hq. by eexists.
  - intros [?|[q Hq]%Hs]; [by apply K|]. destruct Ha as [_ Ha]; [by split; [apply lookup_delete_eq|]|].
    destruct (Ha _ _ Hq) as [Hn|Hn]; [by rewrite lookup_empty in Hn|].
    apply sets_of_elem in Hq. destruct (P _ _ Hq) as [?|H]; [done|]. cbn in Hn. unfold at_path in H. rewrite Hn in H.
    by apply not_elem_of_nil in H.
Qed.

Definition releases_sample : IrFunction := {|
  if_name := []; if_param_count := 0; locals := [T_String]; native_state_locals := []; return_type := T_Void;
  if_execution := Runtime; is_main_thread := false; by_reference_params := []; by_pointer_params := [];
  body := [S_While 0%nat [S_Let 0 0%nat; S_If 0%nat [S_Break] []]] |}.
Definition empty_types : TypeTable := {| structs := []; enums := []; array_elements := [] |}.

Lemma scope_releases_spec_witness :
  let f' := with_body [S_While 0%nat [S_Let 0 0%nat; S_If 0%nat [S_ReleaseLocals [0]; S_Break] []; S_ReleaseLocals [0]]] releases_sample in
  scope_releases 1 empty_types releases_sample = Some f' /\
  forall slot, slot ∈ released (body f') <-> slot ∈ released (body releases_sample) \/ scoped 1 empty_types releases_sample slot.
Proof.
  assert (scope_releases 1 empty_types releases_sample =
    Some (with_body [S_While 0%nat [S_Let 0 0%nat; S_If 0%nat [S_ReleaseLocals [0]; S_Break] []; S_ReleaseLocals [0]]] releases_sample)) as H
    by (vm_compute; reflexivity).
  split; [exact H|]. exact (proj2 (proj2 (scope_releases_spec _ _ _ _ H))).
Defined.

(** ** The frame plan *)

Section Planned.
Context (fuel : nat) (t : TypeTable) (lending : Lending) (model : HeapModel).

(** A frame owns a slot: its type owns storage there, and it is neither lent to
    the frame, nor a callback state's, nor the receiver of a [Drop] body. *)
Definition frame_owns (f : IrFunction) (drop_glue : bool) (i : nat) (ty : Ty) : Prop :=
  is_lent t lending f (Z.of_nat i) ty = false /\ is_state_local f i = false /\
  owns fuel model t ty = Some true /\ (drop_glue = true -> i <> 0%nat).

(** The roles a plan needs apart. *)
Definition roles_apart (f : IrFunction) (i : nat) : Prop :=
  contains_slot (by_reference_params f) (Z.of_nat i) || contains_slot (by_pointer_params f) (Z.of_nat i) = true ->
  is_state_local f i = false.

Lemma plan_slots_spec f glue tys : forall k plan, Z.of_nat (k + length tys) <= 2 ^ 32 ->
  plan_slots fuel t lending model f glue k tys = Ok plan ->
  Sorted Z.lt plan /\ Forall (fun slot => Z.of_nat k <= slot < Z.of_nat (k + length tys)) plan /\
  forall i ty, tys !! i = Some ty -> (Z.of_nat (k + i) ∈ plan <-> frame_owns f glue (k + i) ty).
Proof.
  induction tys as [|ty tys IH]; intros k plan Hk; cbn [plan_slots length].
  { intros [= <-]. split; [constructor|]. split; [constructor|]. intros i ty. by rewrite lookup_nil. }
  cbn [length] in Hk. unfold uwrap. rewrite (Z.mod_small (Z.of_nat k)) by lia.
  destruct (_ && is_state_local f k); [done|].
  set (skip := if is_lent t lending f (Z.of_nat k) ty || is_state_local f k then Ok true else _).
  destruct skip as [skipped|] eqn:Hskip; [|done]. cbn [mbind result_bind].
  destruct (plan_slots fuel t lending model f glue (S k) tys) as [rest|] eqn:Hr; [|done]. intros [= <-].
  destruct (IH (S k) rest ltac:(lia) Hr) as (Hs & Hin & Hspec).
  assert (skipped = false <-> frame_owns f glue k ty) as Hown.
  { unfold frame_owns. subst skip. destruct (is_lent t lending f (Z.of_nat k) ty), (is_state_local f k); cbn in Hskip;
      try (injection Hskip as <-; split; [done|intros (? & ? & _); done]).
    destruct (owns fuel model t ty) as [owned|]; [|done]. cbn in Hskip. injection Hskip as <-.
    destruct owned; cbn; [|split; [done|intros (_ & _ & ? & _); done]].
    destruct glue; cbn; [|split; [intros _; split_and!; done|done]]. rewrite Z.eqb_neq. split.
    - intros. split_and!; [done..|]. lia.
    - intros (_ & _ & _ & H). specialize (H eq_refl). lia. }
  assert (Forall (fun slot => Z.of_nat k < slot) rest) as Hlt by (eapply Forall_impl; [exact Hin|]; cbn; lia).
  split; [|split].
  - destruct skipped; [done|]. constructor; [done|]. destruct rest; constructor. by inversion Hlt.
  - assert (Forall (fun slot => Z.of_nat k <= slot < Z.of_nat (k + S (length tys))) rest) as Hin'
      by (eapply Forall_impl; [exact Hin|]; cbn; lia).
    destruct skipped; [done|]. constructor; [lia|done].
  - intros [|i] ty'; cbn [lookup list_lookup].
    + intros [= <-]. rewrite Nat.add_0_r, <- Hown. destruct skipped.
      * split; [|done]. intros Hin0. rewrite Forall_forall in Hlt. specialize (Hlt _ Hin0). lia.
      * split; [done|]. intros _. by left.
    + intros Hty. rewrite Nat.add_succ_r. specialize (Hspec i ty' Hty). cbn in Hspec. rewrite <- Hspec.
      destruct skipped; [done|]. rewrite elem_of_cons. split; [intros [?|?]; [lia|done]|auto].
Qed.

Lemma plan_slots_answers f glue tys : forall k, Z.of_nat (k + length tys) <= 2 ^ 32 ->
  (forall i, (i < length tys)%nat -> roles_apart f (k + i)) -> Forall (fun ty => is_Some (owns fuel model t ty)) tys ->
  exists plan, plan_slots fuel t lending model f glue k tys = Ok plan.
Proof.
  induction tys as [|ty tys IH]; intros k Hk Hroles Howns; cbn [plan_slots]; [by eexists|].
  cbn [length] in *. apply Forall_cons in Howns as [[owned Hown] Howns].
  unfold uwrap. rewrite (Z.mod_small (Z.of_nat k)) by lia.
  pose proof (Hroles 0%nat ltac:(lia)) as H0. rewrite Nat.add_0_r in H0. unfold roles_apart in H0.
  destruct (IH (S k)) as [rest Hr]; [lia| |done|].
  { intros i Hi. specialize (Hroles (S i)). rewrite Nat.add_succ_r in Hroles. apply Hroles. lia. }
  rewrite Hr, Hown. destruct (contains_slot _ _ || contains_slot _ _); cbn.
  - rewrite H0 by done. destruct (is_lent _ _ _ _ _); cbn; by eexists.
  - destruct (is_lent _ _ _ _ _ || is_state_local f k); cbn; by eexists.
Qed.
End Planned.


Definition plan_sample : IrFunction := {|
  if_name := []; if_param_count := 2; locals := [T_String; T_String; T_INT; T_String; T_String];
  native_state_locals := [None; None; None; Some 7]; return_type := T_Void;
  if_execution := Runtime; is_main_thread := false; by_reference_params := []; by_pointer_params := [1]; body := [] |}.


Lemma owns_heap_more_model a b model t ty owned : (a <= b)%nat -> owns a model t ty = Some owned -> owns b model t ty = Some owned.
Proof.
  intros Hab. destruct model; cbn; [by apply owns_heap_more|].
  destruct (owns_heap t a ty) as [o|] eqn:Ho; [|done]. by rewrite (owns_heap_more t a b ty o Hab Ho).
Qed.

(** A function whose plan answers. *)
Definition plannable (fuel : nat) (t : TypeTable) (model : HeapModel) (f : IrFunction) : Prop :=
  Z.of_nat (length (locals f)) <= 2 ^ 32 /\
  Forall (fun slot => slot < Z.of_nat (length (locals f))) (by_reference_params f) /\
  (forall i, (i < length (locals f))%nat -> roles_apart f i) /\
  Forall (fun ty => is_Some (owns fuel model t ty)) (locals f).

Lemma plan_function_answers fuel t lending model f glue : plannable fuel t model f ->
  exists slots, plan_function fuel t lending model f glue = Ok slots.
Proof.
  intros (Hl & Href & Hroles & Howns). unfold plan_function.
  destruct (find _ _) as [slot|] eqn:Hf.
  - apply find_some in Hf as [Hin Hle]. apply list_elem_of_In in Hin. rewrite Forall_forall in Href.
    specialize (Href _ Hin). cbn in Hle. lia.
  - by apply plan_slots_answers.
Qed.

Lemma plan_from_answers fuel t lending model fs : Forall (plannable fuel t model) fs -> forall k,
  exists plans, plan_from fuel t lending model k fs = Ok plans /\
    Forall2 (fun f slots => Sorted Z.lt slots /\ Forall (fun slot => 0 <= slot < Z.of_nat (length (locals f))) slots) fs plans.
Proof.
  induction 1 as [|f fs Hf _ IH]; intros k; cbn [plan_from]; [by exists []|].
  destruct (plan_function_answers fuel t lending model f
    (contains_slot (omap Types.drop_glue (structs t)) (uwrap 32 (Z.of_nat k))) Hf) as (slots & Hs).
  destruct (IH (S k)) as (plans & Hp & Hf2). rewrite Hs, Hp. exists (slots :: plans). split; [done|]. constructor; [|done].
  destruct Hf as (Hl & _). unfold plan_function in Hs. destruct (find _ _); [done|].
  destruct (plan_slots_spec _ _ _ _ _ _ _ 0%nat _ Hl Hs) as (? & ? & _). done.
Qed.
