(* ===== verification/Compile.v ===== *)
(** * The bytecode compiler

    [kira-bytecode/src/compile.rs], [compile/] and [build_export_table] of
    [exports.rs]: a lowered program becomes a module.  Code is emitted in order;
    a jump over code not emitted yet is a placeholder patched once its target is
    known.

    The recursion over expressions follows arena handles and is bounded by fuel
    ([CompileOverflows]); [CompileOk.compile_succeeds] gives the fuel that is
    enough. *)

From Stdlib Require Import Strings.String.
From stdpp Require Import gmap strings.
From S2P Require Import Prelude AbiOps Foreign.
From S2P Require Import Instruction.
From S2P Require Import ModuleFormat.
From S2P Require Import Validate.
From S2P Require Import IntWidth.
From S2P Require Import Types.
From S2P Require Import Ir.
From S2P Require Import Mid.

(** ** Errors: [compile/error.rs] *)

(** [UncrossableExport] holds the type and not its printed name. *)
Inductive CompileError :=
| ReleasePlan (e : MidError)
| PatchedNonJump
| ShortCircuitOpcode
| JumpOutsideLoop (function : rstring)
| ForeignMemberMissing (function : rstring) (member : Z)
| DynamicFieldPath (function : rstring)
| MalformedMutCall (function : rstring)
| UnknownMainThreadTarget (function : rstring) (target : Z)
| UncrossableExport (export : rstring) (ty : Ty)
| ExportClassIndexTooLarge (export : rstring) (class : nat)
| Malformed (e : ModuleValidateError).

(** An error; an index out of bounds; a recursion deeper than the fuel. *)
Inductive CompileStop :=
| CompileFailed (e : CompileError)
| CompilePanics
| CompileOverflows.

(** ** The compiler's state *)

#[export] Instance byte_countable : Countable byte := inj_countable' byte_to_Z byte_of_Z byte_of_to_Z.

(** [StringPool]. *)
Record StringPool := { pool_index : gmap rstring Z; pool_strings : list rstring }.

Definition StringPool_default : StringPool := {| pool_index := ∅; pool_strings := [] |}.

Record LoopFrame := { continue_target : Z; break_jumps : list nat }.

(** What [FnCompiler] changes: the pool, the code and the enclosing loops, the
    innermost first. *)
Record Compiler := { c_pool : StringPool; c_code : list Instruction; c_loops : list LoopFrame }.

Definition with_code (code : list Instruction) (c : Compiler) : Compiler :=
  {| c_pool := c_pool c; c_code := code; c_loops := c_loops c |}.
Definition with_loops (loops : list LoopFrame) (c : Compiler) : Compiler :=
  {| c_pool := c_pool c; c_code := c_code c; c_loops := loops |}.
Definition with_pool (pool : StringPool) (c : Compiler) : Compiler :=
  {| c_pool := pool; c_code := c_code c; c_loops := c_loops c |}.

Abbreviation Comp := (st Compiler CompileStop).

Definition fails {A} (e : CompileError) : Comp A := st_fail (CompileFailed e).

(** [self.code.push]. *)
Definition emit (i : Instruction) : Comp unit := fun c => (with_code (c_code c ++ [i]) c, Ok tt).

(** [StringPool::intern]. *)
Definition intern (value : rstring) : Comp Z := fun c =>
  match pool_index (c_pool c) !! value with
  | Some id => (c, Ok id)
  | None =>
    let id := Z.of_nat (length (pool_strings (c_pool c))) in
    (with_pool {| pool_index := <[value := id]> (pool_index (c_pool c));
                  pool_strings := pool_strings (c_pool c) ++ [value] |} c, Ok id)
  end.

(** Loops over a list, with the position of each element where it is used. *)
Fixpoint for_each {A} (f : A -> Comp unit) (l : list A) : Comp unit :=
  match l with [] => mret tt | x :: l => _ ← f x; for_each f l end.
Fixpoint for_each_at {A} (f : nat -> A -> Comp unit) (n : nat) (l : list A) : Comp unit :=
  match l with [] => mret tt | x :: l => _ ← f n x; for_each_at f (S n) l end.
Fixpoint collect {A B} (f : A -> Comp B) (l : list A) : Comp (list B) :=
  match l with [] => mret [] | x :: l => y ← f x; ys ← collect f l; mret (y :: ys) end.

(** ** Jumps *)

Definition here : Comp Z := fun c => (c, Ok (Z.of_nat (length (c_code c)))).

Definition emit_placeholder (i : Instruction) : Comp nat := fun c =>
  (with_code (c_code c ++ [i]) c, Ok (length (c_code c))).
Definition emit_placeholder_jump : Comp nat := emit_placeholder (I_Jump 0).
Definition emit_placeholder_jump_if_false : Comp nat := emit_placeholder (I_JumpIfFalse 0).

Definition patch_to_here (placeholder : nat) : Comp unit := fun c =>
  let target := Z.of_nat (length (c_code c)) in
  match c_code c !! placeholder with
  | Some (I_Jump _) => (with_code (<[placeholder := I_Jump target]> (c_code c)) c, Ok tt)
  | Some (I_JumpIfFalse _) => (with_code (<[placeholder := I_JumpIfFalse target]> (c_code c)) c, Ok tt)
  | _ => (c, Err (CompileFailed PatchedNonJump))
  end.

(** ** Opcodes: [compile.rs] *)

Definition unary_instruction (op : IrUnOp) : Instruction :=
  match op with
  | NegInt => I_NegIntChecked | NegFloat => I_NegFloat | Not => I_Not | BitNot => I_BitNot
  end.

Definition binary_instruction (op : IrBinOp) : result CompileStop Instruction :=
  match op with
  | WrappingAddInt => Ok I_AddInt | WrappingSubInt => Ok I_SubInt | WrappingMulInt => Ok I_MulInt
  | AddInt => Ok I_AddIntChecked | SubInt => Ok I_SubIntChecked | MulInt => Ok I_MulIntChecked
  | DivInt => Ok I_DivIntChecked | RemInt => Ok I_RemInt | DivUInt => Ok I_DivUInt | RemUInt => Ok I_RemUInt
  | AddFloat => Ok I_AddFloat | SubFloat => Ok I_SubFloat | MulFloat => Ok I_MulFloat
  | DivFloat => Ok I_DivFloat | RemFloat => Ok I_RemFloat
  | ConcatStr => Ok I_ConcatStr
  | EqInt => Ok I_EqInt | NeInt => Ok I_NeInt | LtInt => Ok I_LtInt | LeInt => Ok I_LeInt
  | GtInt => Ok I_GtInt | GeInt => Ok I_GeInt | LtUInt => Ok I_LtUInt | LeUInt => Ok I_LeUInt
  | GtUInt => Ok I_GtUInt | GeUInt => Ok I_GeUInt
  | EqFloat => Ok I_EqFloat | NeFloat => Ok I_NeFloat | LtFloat => Ok I_LtFloat | LeFloat => Ok I_LeFloat
  | GtFloat => Ok I_GtFloat | GeFloat => Ok I_GeFloat
  | EqBool => Ok I_EqBool | NeBool => Ok I_NeBool | EqStr => Ok I_EqStr | NeStr => Ok I_NeStr
  | EqAny => Ok I_EqAny | NeAny => Ok I_NeAny | EqValue => Ok I_EqValue | NeValue => Ok I_NeValue
  | CmpValue => Ok I_CmpValue | EqType => Ok I_EqType | NeType => Ok I_NeType
  | BitAnd => Ok I_BitAnd | BitOr => Ok I_BitOr | BitXor => Ok I_BitXor
  | Shl => Ok I_Shl | ShrInt => Ok I_ShrInt | ShrUInt => Ok I_ShrUInt
  | And | Or => Err (CompileFailed ShortCircuitOpcode)
  end.

Definition emit_binary (op : IrBinOp) : Comp unit := i ← st_lift (binary_instruction op); emit i.

(** ** Integer widths and conversions: [compile/numeric.rs] *)

Definition code_byte (s : IntSpelling) : byte := byte_of_Z (spelling_code s).

Definition check_width (ty : Ty) : Comp unit :=
  match ty with
  | T_Int s => if spelling_bits s <? 64 then emit (I_CheckInt (code_byte s)) else mret tt
  | _ => mret tt
  end.

Definition wrap_width (ty : Ty) : Comp unit :=
  match ty with
  | T_Int s => if spelling_bits s <? 64 then emit (I_WrapInt (code_byte s)) else mret tt
  | _ => mret tt
  end.

Definition compile_int_operator (op : IrBinOp) (ty : Ty) : Comp unit :=
  match ty with
  | T_Int spelling =>
    match op with
    | AddInt | SubInt | MulInt =>
      i ← match op, spelling with
          | AddInt, Spell_U64 => mret I_AddUIntChecked
          | SubInt, Spell_U64 => mret I_SubUIntChecked
          | MulInt, Spell_U64 => mret I_MulUIntChecked
          | _, _ => st_lift (binary_instruction op)
          end;
      _ ← emit i;
      check_width ty
    | DivInt => _ ← emit I_DivIntChecked; check_width ty
    | Shl | ShrInt | ShrUInt =>
      _ ← emit (I_CheckShift (byte_of_Z (spelling_bits spelling)));
      _ ← emit_binary op;
      match op with Shl => wrap_width ty | _ => mret tt end
    | WrappingAddInt | WrappingSubInt | WrappingMulInt => _ ← emit_binary op; wrap_width ty
    | _ => emit_binary op
    end
  | _ => emit_binary op
  end.

Definition compile_convert (kind : ConvertKind) (from to : Ty) : Comp unit :=
  let from_spelling := match from with T_Int s => s | _ => Spell_Plain end in
  match kind with
  | IntToInt =>
    match to with
    | T_Int to_spelling =>
      if spelling_widens_into from_spelling to_spelling then mret tt
      else emit (I_ConvertInt (code_byte from_spelling) (code_byte to_spelling))
    | _ => mret tt
    end
  | FloatToFloat => mret tt
  | IntToRawPtr => emit I_ConvertIntToRawPtr
  | RawPtrToInt => emit I_ConvertRawPtrToInt
  | IntToFloat => emit (match from_spelling with Spell_U64 => I_ConvertUIntToFloat | _ => I_ConvertIntToFloat end)
  | FloatToInt =>
    match to with
    | T_Int Spell_U64 => emit I_ConvertFloatToUInt
    | T_Int Spell_Plain => emit I_ConvertFloatToInt
    | T_Int to_spelling =>
      _ ← emit I_ConvertFloatToInt; emit (I_ConvertInt (code_byte Spell_Plain) (code_byte to_spelling))
    | _ => emit I_ConvertFloatToInt
    end
  | FloatToBits => emit I_ConvertFloatToBits
  | BitsToFloat => emit I_ConvertBitsToFloat
  | Bits32ToFloat => emit I_ConvertBits32ToFloat
  | FloatToBits32 => emit I_ConvertFloatToBits32
  end.

(** ** One function: [compile/function.rs], [compile/expression.rs] *)

Section Function.
Context {host : Host} (p : IrProgram) (engines : list Execution) (f : IrFunction).

(** [self.program.expr(id)]: an arena index. *)
Definition expr_at (id : IrExprId) : Comp IrExpr := fun c =>
  match exprs p !! id with Some e => (c, Ok e) | None => (c, Err CompilePanics) end.

Definition static_type (id : IrExprId) : Comp Ty := fun c =>
  match expr_type p f id with Some ty => (c, Ok ty) | None => (c, Err CompilePanics) end.

Definition ir_function (index : Z) : option IrFunction := ir_functions p !! Z.to_nat index.

(** [engines.get(index) == Some(Native)]. *)
Definition is_native_engine (index : Z) : bool := bool_decide (engines !! Z.to_nat index = Some Native).

(** [get(slot).is_some_and(takes_on_read)]. *)
Definition slot_takes_on_read (slot : Z) : bool :=
  match locals f !! Z.to_nat slot with Some ty => takes_on_read (ir_types p) ty | None => false end.

Definition local_is_taken (slot : Z) : bool :=
  slot_takes_on_read slot &&
  negb (contains_slot (by_pointer_params f) slot) && negb (contains_slot (by_reference_params f) slot).

Definition argument_is_borrowed (callee : IrCallee) (position : nat) : bool :=
  match callee with
  | Callee_User index =>
    match ir_function index with
    | Some callee =>
      let slot := uwrap 32 (Z.of_nat position) in
      contains_slot (by_pointer_params callee) slot || contains_slot (by_reference_params callee) slot
    | None => false
    end
  | _ => false
  end.

Definition function_writes_back (index : Z) : bool :=
  match ir_function index with Some g => negb (is_nil (by_reference_params g)) | None => false end.

(** [field_path]. *)
Definition field_step (s : IrPlaceStep) : result CompileStop Z :=
  match s with
  | Step_Field index => Ok index
  | Step_Index _ => Err (CompileFailed (DynamicFieldPath (if_name f)))
  end.
Fixpoint field_steps (path : list IrPlaceStep) : result CompileStop (list Z) :=
  match path with
  | [] => Ok []
  | s :: path => index ← field_step s; rest ← field_steps path; Ok (index :: rest)
  end.

(** The loops of a jump. *)
Definition innermost_loop : Comp LoopFrame := fun c =>
  match c_loops c with
  | frame :: _ => (c, Ok frame)
  | [] => (c, Err (CompileFailed (JumpOutsideLoop (if_name f))))
  end.
Definition record_break (placeholder : nat) : Comp unit := fun c =>
  match c_loops c with
  | frame :: outer =>
    (with_loops ({| continue_target := continue_target frame;
                    break_jumps := break_jumps frame ++ [placeholder] |} :: outer) c, Ok tt)
  | [] => (c, Err (CompileFailed (JumpOutsideLoop (if_name f))))
  end.
Definition push_loop (target : Z) : Comp unit := fun c =>
  (with_loops ({| continue_target := target; break_jumps := [] |} :: c_loops c) c, Ok tt).
(** [self.loops.pop()], and the jumps to patch. *)
Definition pop_loop : Comp (list nat) := fun c =>
  match c_loops c with
  | frame :: outer => (with_loops outer c, Ok (break_jumps frame))
  | [] => (c, Ok [])
  end.

(** Taking a local leaves its slot empty; popping releases the value. *)
Definition release_locals (slots : list Z) : Comp unit :=
  for_each (fun slot => _ ← emit (I_TakeLocal slot); emit I_Pop) slots.

(** ** Foreign layouts *)

Definition foreign_member_offset (aggregate : ForeignAggregateId) (member : Z) : option Z :=
  match member_offsets_of (ir_foreign_aggregates p) aggregate ForeignPointerWidth_HOST with
  | Ok offsets => offsets !! Z.to_nat member
  | Err _ => None
  end.

Definition foreign_member_type (aggregate : ForeignAggregateId) (member : Z) : option ForeignType :=
  a ← Foreign.get (ir_foreign_aggregates p) aggregate;
  m ← members a !! Z.to_nat member;
  match m with Member_Scalar ty => Some ty | _ => None end.

Definition foreign_stride (aggregate : ForeignAggregateId) : option Z :=
  match layout_of (ir_foreign_aggregates p) aggregate ForeignPointerWidth_HOST with
  | Ok l => Some (Foreign.size l)
  | Err _ => None
  end.

Definition member_or_fail {A} (o : option A) (member : Z) : Comp A :=
  st_lift (ok_or o (CompileFailed (ForeignMemberMissing (if_name f) member))).

(** [ErasedTypeId::as_u64] of a cast's three tags. *)
Definition cast_OK_TAG : Z := 0.
Definition cast_ERROR_TAG : Z := 1.
Definition cast_MISMATCH_TAG : Z := 0.

Definition compile_cast_result (target : Z) : Comp unit :=
  _ ← emit (I_TypeCastResult target);
  to_error ← emit_placeholder_jump_if_false;
  _ ← emit (I_NewEnum cast_OK_TAG true);
  to_end ← emit_placeholder_jump;
  _ ← patch_to_here to_error;
  _ ← emit (I_NewEnum cast_MISMATCH_TAG true);
  _ ← emit (I_NewEnum cast_ERROR_TAG true);
  patch_to_here to_end.

(** The struct a construction builds, with the body it records. *)
Definition struct_glue (struct_id : N) : option Z := def ← get_struct (ir_types p) struct_id; Types.drop_glue def.

(** The call instruction of a callee whose arguments are on the stack. *)
Definition emit_call (callee : IrCallee) (prints_unsigned : bool) : Comp unit :=
  match callee with
  | Callee_Print => emit (if prints_unsigned then I_PrintUnsigned else I_Print)
  | Callee_Abort => emit I_Abort
  | Callee_FromCode => emit I_EnumFromCode
  | Callee_Hash => emit I_HashValue
  | Callee_User index =>
    if function_writes_back index then fails (MalformedMutCall (if_name f))
    else emit (if is_native_engine index then I_CallNative index else I_Call index)
  | Callee_Foreign id => emit (I_CallForeign id)
  end.

Definition emit_writeback_call (index : Z) (targets : list WritebackTarget) : Comp unit :=
  if is_native_engine index then emit (I_CallNativeWriteback index targets)
  else
    match targets with
    | [target] =>
      emit (if wb_param target =? 0 then I_CallMut index (wb_slot target) (wb_path target)
            else I_CallWriteback index targets)
    | _ => emit (I_CallWriteback index targets)
    end.

Section Recursion.
Context (expr : IrExprId -> Comp unit) (stmt : IrStmt -> Comp unit).

(** [compile_borrowed_expr]: a local is read, not taken. *)
Definition compile_borrowed_expr (id : IrExprId) : Comp unit :=
  e ← expr_at id;
  match e with E_Local slot => emit (I_LoadLocal slot) | _ => expr id end.

Definition compile_body (stmts : list IrStmt) : Comp unit := for_each stmt stmts.

(** [compile_place_indices]. *)
Definition place_step (s : IrPlaceStep) : Comp PathStep :=
  match s with
  | Step_Field index => mret (Field index)
  | Step_Index e => _ ← expr e; mret Index
  end.
Definition compile_place_indices (place : IrPlace) : Comp PlacePath :=
  steps ← collect place_step (pl_path place); mret {| PlacePath_steps := steps |}.

Definition compile_args (callee : IrCallee) (args : list IrExprId) : Comp unit :=
  for_each_at (fun position arg =>
    if argument_is_borrowed callee position then compile_borrowed_expr arg else expr arg) 0 args.

Definition compile_writeback_argument (arg : IrExprId) : Comp unit :=
  e ← expr_at arg;
  match e with
  | E_Local slot => if slot_takes_on_read slot then emit (I_LoadLocal slot) else expr arg
  | _ => expr arg
  end.

Definition writeback_target (w : IrWriteback) : Comp WritebackTarget :=
  path ← compile_place_indices (iw_place w);
  mret {| wb_param := iw_param w; wb_slot := pl_local (iw_place w); wb_path := path |}.

Definition compile_writeback_call (callee : IrCallee) (args : list IrExprId) (writebacks : list IrWriteback) : Comp unit :=
  match callee with
  | Callee_User index =>
    _ ← for_each_at (fun position arg =>
          if existsb (fun w => Z.of_nat position =? iw_param w) writebacks
          then compile_writeback_argument arg else expr arg) 0 args;
    targets ← collect writeback_target writebacks;
    emit_writeback_call index targets
  | _ => fails (MalformedMutCall (if_name f))
  end.

Definition compile_call (callee : IrCallee) (args : list IrExprId) (writebacks : list IrWriteback) : Comp unit :=
  if negb (is_nil writebacks) then compile_writeback_call callee args writebacks
  else
    prints_unsigned ←
      match callee, args with
      | Callee_Print, arg :: _ => ty ← static_type arg; mret (bool_decide (ty = T_Int Spell_U64))
      | _, _ => mret false
      end;
    _ ← compile_args callee args;
    emit_call callee prints_unsigned.

(** [a && b] and [a || b]: [b] runs only when it decides. *)
Definition compile_and (lhs rhs : IrExprId) : Comp unit :=
  _ ← expr lhs;
  to_false ← emit_placeholder_jump_if_false;
  _ ← expr rhs;
  to_end ← emit_placeholder_jump;
  _ ← patch_to_here to_false;
  _ ← emit (I_ConstBool false);
  patch_to_here to_end.

Definition compile_or (lhs rhs : IrExprId) : Comp unit :=
  _ ← expr lhs;
  to_rhs ← emit_placeholder_jump_if_false;
  _ ← emit (I_ConstBool true);
  to_end ← emit_placeholder_jump;
  _ ← patch_to_here to_rhs;
  _ ← expr rhs;
  patch_to_here to_end.

Definition compile_binary (op : IrBinOp) (lhs rhs : IrExprId) (ty : Ty) : Comp unit :=
  match op with
  | And => compile_and lhs rhs
  | Or => compile_or lhs rhs
  | _ => _ ← expr lhs; _ ← expr rhs; compile_int_operator op ty
  end.

(** [SelectBranch]. *)
Definition compile_branch (setup : list IrStmt) (value : IrExprId) (cleanup : list Z) : Comp unit :=
  _ ← compile_body setup; _ ← expr value; release_locals cleanup.

(** The code of [if]: [then_code] on the true edge, [else_code] on the other. *)
Definition compile_select (cond : IrExprId) (then_code else_code : Comp unit) : Comp unit :=
  _ ← expr cond;
  to_else ← emit_placeholder_jump_if_false;
  _ ← then_code;
  to_end ← emit_placeholder_jump;
  _ ← patch_to_here to_else;
  _ ← else_code;
  patch_to_here to_end.

Definition compile_while (cond : IrExprId) (body : list IrStmt) : Comp unit :=
  loop_start ← here;
  _ ← expr cond;
  to_end ← emit_placeholder_jump_if_false;
  _ ← push_loop loop_start;
  _ ← compile_body body;
  breaks ← pop_loop;
  _ ← emit (I_Jump loop_start);
  _ ← patch_to_here to_end;
  for_each patch_to_here breaks.

(** One guarded step of [compile_attempt]: its exit jump. *)
Definition compile_attempt_step (s : IrAttemptStep) : Comp nat :=
  match s with
  | AttemptStep setup error_condition handler success =>
    _ ← compile_body setup;
    _ ← expr error_condition;
    to_success ← emit_placeholder_jump_if_false;
    _ ← compile_body handler;
    exit_ ← emit_placeholder_jump;
    _ ← patch_to_here to_success;
    _ ← compile_body success;
    mret exit_
  end.
Definition compile_attempt (steps : list IrAttemptStep) (trailing : list IrStmt) : Comp unit :=
  exits ← collect compile_attempt_step steps;
  _ ← compile_body trailing;
  for_each patch_to_here exits.

Definition compile_struct_new (struct_id : N) (fields : list IrExprId) (order : FieldOrder) : Comp unit :=
  let glue := struct_glue struct_id in
  match order with
  | Written order =>
    _ ← for_each (fun slot =>
          match fields !! Z.to_nat slot with Some e => expr e | None => st_fail CompilePanics end) order;
    emit (I_NewStructOrdered order glue)
  | Declared =>
    _ ← for_each expr fields;
    let count := Z.of_nat (length fields) in
    emit (match glue with Some glue => I_NewStructDropping count glue | None => I_NewStruct count end)
  end.

Definition compile_index (base index : IrExprId) : Comp unit :=
  e ← expr_at base;
  match e with
  | E_Local slot => _ ← expr index; emit (I_ArrayGetLocal slot)
  | _ => _ ← expr base; _ ← expr index; emit I_ArrayGet
  end.

Definition compile_native_user_data (state : IrExprId) (borrowed : bool) : Comp unit :=
  if borrowed then _ ← compile_borrowed_expr state; emit (I_NativeUserData true)
  else
    e ← expr_at state;
    _ ← match e with
        | E_Local slot => if local_is_taken slot then emit (I_LoadLocal slot) else expr state
        | _ => expr state
        end;
    emit (I_NativeUserData false).

(** [compile/main_thread.rs]. *)
Definition compile_main_thread_call (operation : MainThreadOp) (function_index : Z) (args : list IrExprId) : Comp unit :=
  match ir_function function_index with
  | None => fails (UnknownMainThreadTarget (if_name f) function_index)
  | Some target =>
    _ ← compile_args (Callee_User function_index) args;
    if negb (is_nil (by_reference_params target)) then fails (MalformedMutCall (if_name f))
    else emit (I_MainThreadCall operation function_index (if_param_count target))
  end.

(** One expression, and one statement. *)
Definition compile_expr_node (id : IrExprId) : Comp unit :=
  e ← expr_at id;
  match e with
  | E_Int value => emit (I_ConstInt value)
  | E_Float bits => emit (I_ConstFloat bits)
  | E_Bool value => emit (I_ConstBool value)
  | E_Str value => pool ← intern value; emit (I_ConstStr pool)
  | E_RawPtrNull | E_CellNull _ => emit I_ConstRawPtrNull
  | E_ForeignCallbackPtr callback => emit (I_ForeignCallback callback)
  | E_Local slot => emit (if local_is_taken slot then I_TakeLocal slot else I_LoadLocal slot)
  | E_ConstantGet constant _ => emit (I_LoadConstant constant)
  | E_CellNew value _ => _ ← expr value; emit I_NewCell
  | E_CellGet slot _ => emit (I_CellGet slot)
  | E_Unary op operand ty =>
    _ ← expr operand; _ ← emit (unary_instruction op); check_width (unary_result_type op ty)
  | E_Binary op lhs rhs ty => compile_binary op lhs rhs ty
  | E_Select cond then_setup then_value then_cleanup otherwise_setup otherwise otherwise_cleanup _ =>
    compile_select cond (compile_branch then_setup then_value then_cleanup)
      (compile_branch otherwise_setup otherwise otherwise_cleanup)
  | E_StructNew struct_id fields order => compile_struct_new struct_id fields order
  | E_Field base index _ => _ ← compile_borrowed_expr base; emit (I_GetField index)
  | E_ArrayElements value element => _ ← expr value; emit (I_ArrayElements element)
  | E_ScalarText value => _ ← expr value; emit I_ScalarText
  | E_MathOperation op operands => _ ← for_each expr operands; emit (I_MathOp op)
  | E_ForeignMemberAddress base aggregate member _ =>
    offset ← member_or_fail (foreign_member_offset aggregate member) member;
    _ ← expr base; emit (I_ForeignOffset offset)
  | E_ForeignElement base aggregate index _ =>
    stride ← member_or_fail (foreign_stride aggregate) 0;
    _ ← expr base; _ ← expr index; emit (I_ForeignIndex stride)
  | E_ForeignField base aggregate member _ =>
    place ← member_or_fail (offset ← foreign_member_offset aggregate member;
                            ty ← foreign_member_type aggregate member; Some (offset, ty)) member;
    _ ← expr base; emit (I_ForeignLoad place.1 place.2)
  | E_ArrayNew _ elements => _ ← for_each expr elements; emit (I_NewArray (Z.of_nat (length elements)))
  | E_Index base index _ => compile_index base index
  | E_TaskOp prim a b c => _ ← expr a; _ ← expr b; _ ← expr c; emit (I_TaskOp prim)
  | E_ChannelOp prim a b c => _ ← expr a; _ ← expr b; _ ← expr c; emit (I_ChannelOp prim)
  | E_MainThreadCall operation func args _ => compile_main_thread_call operation func args
  | E_MainThreadJoin handle _ => _ ← expr handle; emit I_MainThreadJoin
  | E_ArrayLen array => _ ← compile_borrowed_expr array; emit I_ArrayLen
  | E_StringLen text => _ ← expr text; emit I_StringLen
  | E_StringCharAt text index => _ ← expr text; _ ← expr index; emit I_StringCharAt
  | E_StringSubstring text start end_ =>
    _ ← expr text; _ ← expr start; _ ← expr end_; emit I_StringSubstring
  | E_StringIndexOf text needle => _ ← expr text; _ ← expr needle; emit I_StringIndexOf
  | E_StringOperation op text arguments _ => _ ← expr text; _ ← for_each expr arguments; emit (I_StringOp op)
  | E_NumberOperation op operands _ => _ ← for_each expr operands; emit (I_NumberOp op)
  | E_StringOf value =>
    ty ← static_type value;
    _ ← expr value;
    emit (if decide (ty = T_Int Spell_U64) then I_StringOfUnsigned else I_StringOf)
  | E_CStringNew text => _ ← expr text; emit I_CStringNew
  | E_CLayoutAddress value aggregate => _ ← expr value; emit (I_CLayoutAddress aggregate)
  | E_FileSystem op args _ => _ ← for_each expr args; emit (I_FileSystem op)
  | E_Compiler op args _ => _ ← for_each expr args; emit (I_Compiler op)
  | E_Env op args _ => _ ← for_each expr args; emit (I_Env op)
  | E_NativeState value type_id _ _ => _ ← expr value; emit (I_NativeState type_id)
  | E_NativeUserData state borrowed _ => compile_native_user_data state borrowed
  | E_NativeRecover raw type_id _ => _ ← compile_borrowed_expr raw; emit (I_NativeRecover type_id)
  | E_NativeStateTake raw type_id _ => _ ← expr raw; emit (I_NativeStateTake type_id)
  | E_NativeStateRetain token => _ ← compile_borrowed_expr token; emit I_NativeStateRetain
  | E_NativeStateRelease token _ => _ ← expr token; emit I_NativeStateRelease
  | E_Convert operand kind ty =>
    from ← static_type operand; _ ← expr operand; compile_convert kind from ty
  | E_TypeTest value target => _ ← expr value; emit (I_TypeTest target)
  | E_TypeCast value target _ => _ ← expr value; emit (I_Downcast target)
  | E_IntoAny value _ tag => _ ← expr value; emit (I_Erase tag)
  | E_TypeConst value id => _ ← expr value; _ ← emit I_Pop; emit (I_ConstType id)
  | E_TypeOf value => _ ← expr value; emit I_TypeOf
  | E_TypeCastResult value target _ _ _ => _ ← expr value; compile_cast_result target
  | E_TypeField descriptor field _ => _ ← expr descriptor; emit (I_TypeField (TypeField_as_byte field))
  | E_ArrayAppend place value =>
    path ← compile_place_indices place;
    _ ← expr value; _ ← emit (I_ArrayAppend (pl_local place) path); emit I_ConstVoid
  | E_EnumNew _ tag payload =>
    _ ← match payload with Some payload => expr payload | None => mret tt end;
    emit (I_NewEnum tag (bool_decide (is_Some payload)))
  | E_EnumTag value => _ ← compile_borrowed_expr value; emit I_EnumTag
  | E_EnumPayload value _ => _ ← expr value; emit I_EnumPayload
  | E_Call callee args _ writebacks => compile_call callee args writebacks
  end.

Definition compile_stmt_node (s : IrStmt) : Comp unit :=
  match s with
  | S_Let local init => _ ← expr init; emit (I_StoreLocal local)
  | S_Assign place value =>
    let slot := pl_local place in
    if is_nil (pl_path place) then _ ← expr value; emit (I_StoreLocal slot)
    else if is_all_fields place then
      _ ← expr value;
      path ← st_lift (field_steps (pl_path place));
      emit (I_StoreField slot {| FieldPath_steps := path |})
    else
      path ← compile_place_indices place;
      _ ← expr value; emit (I_StorePlace slot path)
  | S_CellSet slot value => _ ← expr value; emit (I_CellSet slot)
  | S_Return (Some e) => _ ← expr e; emit I_Return
  | S_Return None => emit I_ReturnVoid
  | S_Eval e => _ ← expr e; emit I_Pop
  | S_If cond then_body else_body =>
    compile_select cond (compile_body then_body) (compile_body else_body)
  | S_Attempt steps trailing => compile_attempt steps trailing
  | S_While cond body => compile_while cond body
  | S_Break => placeholder ← emit_placeholder_jump; record_break placeholder
  | S_Continue => frame ← innermost_loop; emit (I_Jump (continue_target frame))
  | S_ReleaseLocals slots => release_locals slots
  end.
End Recursion.

(** [compile_expr] and [compile_stmt]. *)
Fixpoint compile_expr (fuel : nat) (id : IrExprId) : Comp unit :=
  match fuel with
  | O => st_fail CompileOverflows
  | S fuel => compile_expr_node (compile_expr fuel) (compile_stmt fuel) id
  end
with compile_stmt (fuel : nat) (s : IrStmt) : Comp unit :=
  match fuel with
  | O => st_fail CompileOverflows
  | S fuel => compile_stmt_node (compile_expr fuel) (compile_stmt fuel) s
  end.
End Function.

(** ** The export table: [exports.rs] *)

(** The name a struct row is printed with. *)
Definition struct_name (t : TypeTable) (id : N) : rstring :=
  match get_struct t id with
  | Some def => sd_name def
  | None => list_byte_of_string "<unknown struct>"
  end.

(** [export_type]: a class is interned by its name. *)
Definition export_type (t : TypeTable) (export : rstring) (classes : list rstring) (ty : Ty) :
    result CompileStop (list rstring * ExportType) :=
  match ty with
  | T_Void => Ok (classes, Export_Void)
  | T_Int _ => Ok (classes, Export_Int)
  | T_Float _ => Ok (classes, Export_Float)
  | T_Bool => Ok (classes, Export_Bool)
  | T_String => Ok (classes, Export_String)
  | T_Struct id =>
    let name := struct_name t id in
    let '(classes, class) :=
      match list_find (name =.) classes with
      | Some (index, _) => (classes, index)
      | None => (classes ++ [name], length classes)
      end in
    if decide (Z.of_nat class < 2 ^ 32) then Ok (classes, Export_Handle (Z.of_nat class))
    else Err (CompileFailed (ExportClassIndexTooLarge export class))
  | _ => Err (CompileFailed (UncrossableExport export ty))
  end.

Fixpoint export_types (t : TypeTable) (export : rstring) (classes : list rstring) (tys : list Ty) :
    result CompileStop (list rstring * list ExportType) :=
  match tys with
  | [] => Ok (classes, [])
  | ty :: tys =>
    r ← export_type t export classes ty;
    rest ← export_types t export r.1 tys;
    Ok (rest.1, r.2 :: rest.2)
  end.

Fixpoint build_exports (t : TypeTable) (classes : list rstring) (es : list IrExport) :
    result CompileStop (list rstring * list ModuleExport) :=
  match es with
  | [] => Ok (classes, [])
  | e :: es =>
    params ← export_types t (ie_exported_name e) classes (ie_params e);
    result ← export_type t (ie_exported_name e) params.1 (ie_result e);
    rest ← build_exports t result.1 es;
    Ok (rest.1, {| e_name := ie_exported_name e; kira_name := ie_kira_name e; e_function := ie_function e;
                   e_params := params.2; e_result := result.2 |} :: rest.2)
  end.

Definition build_export_table (p : IrProgram) : result CompileStop ExportTable :=
  r ← build_exports (ir_types p) [] (ir_exports p);
  Ok {| ModuleFormat.classes := r.1; e_functions := r.2 |}.

(** ** The module: [compile.rs] *)

Section Program.
Context {host : Host}.

(** [ErasedTypeId::from_parts(family, index).as_u64()]. *)
Definition erased_id (family index : Z) : Z := Z.lor (Z.shiftl family 32) index.

Definition descriptor_row (p : IrProgram) (row : TypeDescriptor) : TypeDescriptorRow :=
  {| t_name := td_name row; t_package := td_package row; t_kind := td_kind row;
     t_arguments :=
       omap (fun argument =>
               d ← descriptors p !! Z.to_nat argument; Some (erased_id (td_family d) argument)) (td_arguments row);
     t_conformances := td_conformances row |}.

Definition descriptor_rows (p : IrProgram) : list TypeDescriptorRow := descriptor_row p <$> descriptors p.

(** [Execution::resolve]. *)
Definition resolve (default : Execution) (e : Execution) : Execution :=
  match e with Inherited => default | explicit => explicit end.

(** The code one function starts with. *)
Definition lifecycle_entry (p : IrProgram) (index : nat) : list Instruction :=
  if contains_slot (main_thread_lifecycles p) (uwrap 32 (Z.of_nat index)) then [I_MainThreadLifecycle] else [].

(** A function's code: none of a native one's is emitted here. *)
Definition compile_function (fuel : nat) (p : IrProgram) (engines : list Execution) (index : nat) (f : IrFunction)
    (pool : StringPool) : result CompileStop (StringPool * list Instruction) :=
  let entry := lifecycle_entry p index in
  if decide (default Runtime (engines !! index) = Native) then Ok (pool, entry)
  else
    match compile_body (compile_stmt p engines f fuel) (body f)
            {| c_pool := pool; c_code := entry; c_loops := [] |} with
    | (c, Ok _) => Ok (c_pool c, c_code c ++ [I_ReturnVoid])
    | (_, Err e) => Err e
    end.

Fixpoint compile_functions (fuel : nat) (p : IrProgram) (engines : list Execution) (plans : list (list Z))
    (index : nat) (fs : list IrFunction) (pool : StringPool) : result CompileStop (StringPool * list FuncProto) :=
  match fs with
  | [] => Ok (pool, [])
  | f :: fs =>
    r ← compile_function fuel p engines index f pool;
    rest ← compile_functions fuel p engines plans (S index) fs r.1;
    Ok (rest.1,
        {| f_name := if_name f; param_count := if_param_count f; ModuleFormat.local_count := Ir.local_count f;
           execution := default Runtime (engines !! index); ModuleFormat.code := r.2;
           releases := match plans !! index with Some plan => Planned plan | None => EveryLocal end |} :: rest.2)
  end.

Definition planned (fuel : nat) (p : IrProgram) : result CompileStop (list (list Z)) :=
  map_err (fun e => match e with MidFailed e => CompileFailed (ReleasePlan e) | MidOverflows => CompileOverflows end)
    (plan fuel p BY_VALUE Boxed).

(** [compile_with], up to the check of its own output. *)
Definition build_module (fuel : nat) (p : IrProgram) (engines : list Execution) : result CompileStop Module_ :=
  plans ← planned fuel p;
  r ← compile_functions fuel p engines plans 0 (ir_functions p) StringPool_default;
  exports ← build_export_table p;
  Ok {| functions := r.2; main := ir_main p; strings := pool_strings r.1; exports := exports;
        foreign_imports := ifi_import <$> ir_foreign_imports p;
        foreign_aggregates := ir_foreign_aggregates p; foreign_callbacks := ir_foreign_callbacks p;
        constants := ic_init <$> ir_constants p; types := descriptor_rows p |}.

Definition compile_with (fuel : nat) (p : IrProgram) (engines : list Execution) : result CompileStop Module_ :=
  m ← build_module fuel p engines;
  _ ← map_err (fun e => CompileFailed (Malformed e)) (validate m);
  Ok m.

Definition compile (fuel : nat) (p : IrProgram) : result CompileStop Module_ :=
  compile_with fuel p (replicate (length (ir_functions p)) Runtime).

Definition compile_hybrid (fuel : nat) (p : IrProgram) : result CompileStop Module_ :=
  compile_with fuel p (resolve Runtime ∘ if_execution <$> ir_functions p).
End Program.
