(* ===== verification/CompileRules.v ===== *)
(** * Rules for emitted code

    The promises of the front end that the compiler relies on ([node_ok],
    [expr_ok], [stmt_ok]), what a piece of the compiler leaves behind ([grew]:
    valid code at the end, nothing before it touched), and a rule for each way
    the compiler composes pieces: sequences, branches, loops and guarded steps,
    whose jumps are patched after the fact. *)

From Stdlib Require Import Strings.String.
From stdpp Require Import gmap strings.
From S2P Require Import Prelude AbiOps Foreign.
From S2P Require Import Instruction.
From S2P Require Import ModuleFormat.
From S2P Require Import Validate.
From S2P Require Import IntWidth.
From S2P Require Import Types.
From S2P Require Import Ir.
From S2P Require Import Mid.
From S2P Require Import Compile.

(** ** What the front end promises *)

Section Promises.
Context {host : Host} (p : IrProgram) (engines : list Execution).

Definition below {A} (l : list A) (i : Z) : Prop := u32_ok i /\ i < Z.of_nat (length l).

Definition slot_ok (f : IrFunction) (slot : Z) : Prop := below (locals f) slot.

Definition small {A} (l : list A) : Prop := Z.of_nat (length l) < 2 ^ 64.

(** A function the VM can enter, and one with a slot for a receiver. *)
Definition enterable (index : Z) (g : IrFunction) : Prop :=
  u32_ok index /\ ir_function p index = Some g /\ default Runtime (engines !! Z.to_nat index) <> Native.
Definition receives (index : Z) : Prop := exists g, enterable index g /\ locals g <> [].

Definition glue_ok (glue : option Z) : Prop := match glue with Some g => receives g | None => True end.

(** One node, of which [E] holds the operands and [St] the statements. *)
Section Node.
Context (f : IrFunction) (E : IrExprId -> Prop) (St : IrStmt -> Prop).

Definition step_ok (s : IrPlaceStep) : Prop :=
  match s with Step_Field index => u32_ok index | Step_Index e => E e end.
Definition place_ok (place : IrPlace) : Prop :=
  slot_ok f (pl_local place) /\ Forall step_ok (pl_path place) /\ small (pl_path place).

Definition writeback_ok (g : IrFunction) (w : IrWriteback) : Prop :=
  slot_ok g (iw_param w) /\ place_ok (iw_place w).

Definition call_ok (callee : IrCallee) (args : list IrExprId) (writebacks : list IrWriteback) : Prop :=
  Forall E args /\
  match callee with
  | Callee_User index =>
    u32_ok index /\ exists g, ir_function p index = Some g /\
      (writebacks = [] -> by_reference_params g = []) /\ Forall (writeback_ok g) writebacks /\ small writebacks
  | Callee_Foreign id => below (ir_foreign_imports p) id /\ writebacks = []
  | _ => writebacks = []
  end.

Definition order_ok (fields : list IrExprId) (order : FieldOrder) : Prop :=
  match order with
  | Declared => True
  | Written order => Permutation order (map Z.of_nat (seq 0 (length fields)))
  end.

Definition node_ok (e : IrExpr) : Prop :=
  match e with
  | E_Int value => i64_ok value
  | E_Float bits => u64_ok bits
  | E_Bool _ | E_RawPtrNull | E_CellNull _ => True
  | E_Str _ => True
  | E_ForeignCallbackPtr callback => below (ir_foreign_callbacks p) callback
  | E_Local slot | E_CellGet slot _ => slot_ok f slot
  | E_ConstantGet constant _ => below (ir_constants p) constant
  | E_Unary _ a _ | E_CellNew a _ | E_EnumTag a | E_EnumPayload a _ | E_ArrayLen a | E_StringLen a
  | E_ArrayElements a _ | E_ScalarText a | E_StringOf a | E_CStringNew a | E_NativeUserData a _ _
  | E_NativeStateRetain a | E_NativeStateRelease a _ | E_Convert a _ _ | E_TypeOf a
  | E_TypeField a _ _ | E_MainThreadJoin a _ => E a
  | E_TypeTest a word | E_TypeCast a word _ | E_NativeState a word _ _ | E_NativeRecover a word _
  | E_NativeStateTake a word _ | E_IntoAny a _ word | E_TypeConst a word | E_TypeCastResult a word _ _ _ =>
    E a /\ u64_ok word
  | E_Binary _ a b _ | E_Index a b _ | E_StringCharAt a b | E_StringIndexOf a b => E a /\ E b
  | E_StringSubstring a b c | E_TaskOp _ a b c | E_ChannelOp _ a b c => E a /\ E b /\ E c
  | E_Select cond then_setup then_value then_cleanup otherwise_setup otherwise otherwise_cleanup _ =>
    E cond /\ (Forall St then_setup /\ E then_value /\ Forall (slot_ok f) then_cleanup) /\
    (Forall St otherwise_setup /\ E otherwise /\ Forall (slot_ok f) otherwise_cleanup)
  | E_Call callee args _ writebacks => call_ok callee args writebacks
  | E_StructNew struct_id fields order =>
    Forall E fields /\ small fields /\ order_ok fields order /\ glue_ok (struct_glue p struct_id)
  | E_EnumNew _ tag payload => u32_ok tag /\ match payload with Some a => E a | None => True end
  | E_Field a index _ => E a /\ u32_ok index
  | E_ForeignMemberAddress a aggregate member _ =>
    E a /\ exists offset, foreign_member_offset p aggregate member = Some offset /\ u32_ok offset
  | E_ForeignElement a aggregate b _ =>
    E a /\ E b /\ exists stride, foreign_stride p aggregate = Some stride /\ u32_ok stride
  | E_ForeignField a aggregate member _ =>
    E a /\ (exists offset, foreign_member_offset p aggregate member = Some offset /\ u32_ok offset) /\
    is_Some (foreign_member_type p aggregate member)
  | E_ArrayNew _ es => Forall E es /\ small es
  | E_MathOperation _ es | E_NumberOperation _ es _ | E_FileSystem _ es _ | E_Compiler _ es _ | E_Env _ es _ => Forall E es
  | E_StringOperation _ a es _ => E a /\ Forall E es
  | E_CLayoutAddress a aggregate => E a /\ below (entries (ir_foreign_aggregates p)) aggregate
  | E_ArrayAppend place a => place_ok place /\ E a
  | E_MainThreadCall _ func args _ =>
    Forall E args /\ u32_ok func /\
    exists g, ir_function p func = Some g /\ by_reference_params g = [] /\ u64_ok (if_param_count g)
  end.

(** A statement inside [depth] loops: [In] is asked of those of a loop's body. *)
Definition stmt_node_ok (In : IrStmt -> Prop) (depth : nat) (s : IrStmt) : Prop :=
  match s with
  | S_Let local init => slot_ok f local /\ E init
  | S_Assign place value => place_ok place /\ E value
  | S_CellSet slot value => slot_ok f slot /\ E value
  | S_Return (Some e) | S_Eval e => E e
  | S_Return None => True
  | S_If cond then_body else_body => E cond /\ Forall St then_body /\ Forall St else_body
  | S_Attempt steps trailing =>
    Forall (fun s => match s with
                     | AttemptStep setup error_condition handler success =>
                       Forall St setup /\ E error_condition /\ Forall St handler /\ Forall St success
                     end) steps /\ Forall St trailing
  | S_While cond body => E cond /\ Forall In body
  | S_Break | S_Continue => (0 < depth)%nat
  | S_ReleaseLocals slots => Forall (slot_ok f) slots
  end.
End Node.

(** Expressions and statements nested no deeper than [n], inside [depth] loops. *)
Fixpoint expr_ok (n : nat) (f : IrFunction) (depth : nat) (id : IrExprId) : Prop :=
  match n with
  | O => False
  | S n => exists e, exprs p !! id = Some e /\ node_ok f (expr_ok n f depth) (stmt_ok n f depth) e
  end
with stmt_ok (n : nat) (f : IrFunction) (depth : nat) (s : IrStmt) : Prop :=
  match n with
  | O => False
  | S n => stmt_node_ok f (expr_ok n f depth) (stmt_ok n f depth) (stmt_ok n f (S depth)) depth s
  end.
End Promises.

(** ** Emitted code *)

Section Emitted.
Context {host : Host} (p : IrProgram) (engines : list Execution) (f : IrFunction).

(** What an instruction names is there, with [strings] strings in the pool and
    [next] instructions emitted. *)
Definition instr_ok (strings next : nat) (i : Instruction) : Prop :=
  match i with
  | I_ConstStr s => 0 <= s < Z.of_nat strings
  | I_Jump target | I_JumpIfFalse target => 0 <= target <= Z.of_nat next
  | _ =>
    Instruction_ok i /\
    match i with
    | I_LoadLocal slot | I_TakeLocal slot | I_StoreLocal slot | I_ArrayGetLocal slot | I_CellGet slot | I_CellSet slot
    | I_StorePlace slot _ | I_ArrayAppend slot _ => slot_ok f slot
    | I_StoreField slot path => slot_ok f slot /\ FieldPath_steps path <> []
    | I_LoadConstant c => below (ir_constants p) c
    | I_Call index => exists g, enterable p engines index g
    | I_NewStructDropping _ glue => receives p engines glue
    | I_NewStructOrdered order glue =>
      Permutation order (map Z.of_nat (seq 0 (length order))) /\ glue_ok p engines glue
    | I_CallMut index slot _ => slot_ok f slot /\ receives p engines index
    | I_CallWriteback index targets =>
      exists g, enterable p engines index g /\ Forall (fun t => slot_ok f (wb_slot t) /\ slot_ok g (wb_param t)) targets
    | I_CallNativeWriteback _ targets => Forall (fun t => slot_ok f (wb_slot t)) targets
    | I_MainThreadCall _ index args => exists g, ir_function p index = Some g /\ args = if_param_count g
    | I_CallForeign id => below (ir_foreign_imports p) id
    | I_ForeignCallback id => below (ir_foreign_callbacks p) id
    | I_CLayoutAddress id => below (entries (ir_foreign_aggregates p)) id
    | I_MainThreadLifecycle => False
    | _ => True
    end
  end.

Definition is_jump (i : Instruction) : Prop := exists target, i = I_Jump target \/ i = I_JumpIfFalse target.

Definition pool_ok (pool : StringPool) : Prop :=
  forall value id, pool_index pool !! value = Some id ->
    0 <= id /\ pool_strings pool !! Z.to_nat id = Some value.

Abbreviation nstrings s := (length (pool_strings (c_pool s))) (only parsing).
Abbreviation ncode s := (length (c_code s)) (only parsing).

Definition jump_at (s : Compiler) (k : nat) : Prop := exists i, c_code s !! k = Some i /\ is_jump i.

(** A loop has recorded more jumps out of itself. *)
Definition loop_grew (s s' : Compiler) (l l' : LoopFrame) : Prop :=
  continue_target l' = continue_target l /\
  exists more, break_jumps l' = break_jumps l ++ more /\
    Forall (fun k => (ncode s <= k)%nat /\ jump_at s' k) more.

(** Code was added and nothing before it touched. *)
Record grew (s s' : Compiler) : Prop := {
  grew_code : exists new, c_code s' = c_code s ++ new /\ Forall (instr_ok (nstrings s') (ncode s')) new;
  grew_strings : pool_strings (c_pool s) `prefix_of` pool_strings (c_pool s');
  grew_pool : pool_ok (c_pool s) -> pool_ok (c_pool s');
  grew_loops : Forall2 (loop_grew s s') (c_loops s) (c_loops s')
}.

Record good (depth : nat) (s : Compiler) : Prop := {
  good_pool : pool_ok (c_pool s);
  good_depth : length (c_loops s) = depth;
  good_targets : Forall (fun l => 0 <= continue_target l <= Z.of_nat (ncode s)) (c_loops s)
}.

Lemma instr_ok_mono a a' b b' i : (a <= a')%nat -> (b <= b')%nat -> instr_ok a b i -> instr_ok a' b' i.
Proof. intros Ha Hb. destruct i; cbn; try done; lia. Qed.

Lemma grew_strings_length s s' : grew s s' -> (nstrings s <= nstrings s')%nat.
Proof. intros []. by apply prefix_length. Qed.

Lemma grew_code_length s s' : grew s s' -> (ncode s <= ncode s')%nat.
Proof. intros [(new & -> & _) _ _ _]. rewrite length_app. lia. Qed.

Lemma grew_lookup s s' k i : grew s s' -> c_code s !! k = Some i -> c_code s' !! k = Some i.
Proof. intros [(new & -> & _) _ _ _] Hk. by apply lookup_app_l_Some. Qed.

Lemma grew_jump_at s s' k : grew s s' -> jump_at s k -> jump_at s' k.
Proof. intros Hg (i & Hi & Hj). exists i. split; [by eapply grew_lookup|done]. Qed.

Lemma loop_grew_refl s s' l : loop_grew s s' l l.
Proof. split; [done|]. exists []. by rewrite app_nil_r. Qed.

Lemma grew_refl s : grew s s.
Proof.
  split; [exists []; by rewrite app_nil_r|done|done|]. apply Forall2_same_length_lookup.
  split; [done|]. intros i x y Hx Hy. simplify_eq. apply loop_grew_refl.
Qed.

Lemma grew_trans s1 s2 s3 : grew s1 s2 -> grew s2 s3 -> grew s1 s3.
Proof.
  intros H12 H23. pose proof (grew_strings_length _ _ H23) as Hn. pose proof (grew_code_length _ _ H23) as Hc.
  pose proof (grew_code_length _ _ H12) as Hc12.
  pose proof (fun k => grew_jump_at _ _ k H23) as Hj.
  destruct H12 as [(new & Hnew & Hok) Hs Hp Hl], H23 as [(new' & Hnew' & Hok') Hs' Hp' Hl'].
  split; [|by etrans|by auto|].
  - exists (new ++ new'). rewrite Hnew', Hnew, <- app_assoc. split; [done|].
    apply Forall_app. rewrite app_assoc, <- Hnew, <- Hnew'. split; [|done].
    eapply Forall_impl; [exact Hok|]. intros i. by apply instr_ok_mono.
  - revert Hl'. generalize (c_loops s3). induction Hl as [|a b la lb Hab _ IH]; intros lc Hl';
      inversion Hl' as [|? c ? lc' Hbc Hl2]; subst; constructor; [|by apply IH].
    destruct Hab as [Hab (m & Hm & Hf)], Hbc as [Hbc (m' & Hm' & Hf')]. split; [congruence|].
    exists (m ++ m'). rewrite Hm', Hm, <- app_assoc. split; [done|]. apply Forall_app. split.
    + eapply Forall_impl; [exact Hf|]. intros k [Hk Hjk]. split; [done|by apply Hj].
    + eapply Forall_impl; [exact Hf'|]. intros k [Hk Hjk]. split; [lia|done].
Qed.

Lemma grew_good depth s s' : good depth s -> grew s s' -> good depth s'.
Proof.
  intros [Hp Hd Ht] Hg. pose proof (grew_code_length _ _ Hg). destruct Hg as [_ _ Hp' Hl]. split; [by auto| |].
  - by rewrite <- (Forall2_length _ _ _ Hl).
  - clear Hd. induction Hl as [|l l' ls ls' [Hc _] _ IH]; [done|]. apply Forall_cons in Ht as [Ht1 Ht].
    constructor; [rewrite Hc; lia|by apply IH].
Qed.

(** ** Rules *)

(** From [s], which grew from [s0], the computation answers and leaves a state that
    grew from [s0] too. *)
Definition runs {A} (s0 s : Compiler) (c : Comp A) (Q : A -> Compiler -> Prop) : Prop :=
  exists s' a, c s = (s', Ok a) /\ grew s0 s' /\ Q a s'.

Definition yields {A} (depth : nat) (c : Comp A) (Q : A -> Prop) : Prop :=
  forall s, good depth s -> runs s s c (fun a _ => Q a).

Abbreviation emits depth c := (yields depth c (fun _ => True)).

Lemma runs_bind {A B} s0 s (c : Comp A) (k : A -> Comp B) Q R :
  runs s0 s c Q -> (forall a s', grew s0 s' -> Q a s' -> runs s0 s' (k a) R) -> runs s0 s (c ≫= k) R.
Proof.
  intros (s' & a & Hc & Hg & Hq) Hk. destruct (Hk a s' Hg Hq) as (s2 & b & Hk2 & Hr).
  exists s2, b. split; [|done]. unfold mbind, st_bind. by rewrite Hc.
Qed.

Lemma runs_yields {A} depth s0 s (c : Comp A) Q :
  yields depth c Q -> good depth s0 -> grew s0 s -> runs s0 s c (fun a s' => Q a /\ grew s s').
Proof.
  intros Hc Hg Hs. destruct (Hc s (grew_good _ _ _ Hg Hs)) as (s' & a & Hr & Hg' & Hq).
  exists s', a. split_and!; [done|by eapply grew_trans|done|done].
Qed.

Lemma yields_weaken {A} depth (c : Comp A) (Q R : A -> Prop) : (forall a, Q a -> R a) -> yields depth c Q -> yields depth c R.
Proof. intros H Hc s Hs. destruct (Hc s Hs) as (s' & a & Hr & Hg & Hq). exists s', a. auto. Qed.

Lemma yields_bind {A B} depth (c : Comp A) (k : A -> Comp B) Q R :
  yields depth c Q -> (forall a, Q a -> yields depth (k a) R) -> yields depth (c ≫= k) R.
Proof.
  intros Hc Hk s Hs. eapply runs_bind; [by apply Hc|]. intros a s' Hg Hq.
  destruct (runs_yields depth s s' (k a) R (Hk a Hq) Hs Hg) as (s2 & b & Hr & Hg2 & Hb & _).
  by exists s2, b.
Qed.

Lemma yields_ret {A} depth (a : A) (Q : A -> Prop) : Q a -> yields depth (mret a) Q.
Proof. intros Hq s Hs. exists s, a. split_and!; [done|apply grew_refl|done]. Qed.

Lemma yields_lift {A} depth (a : A) (Q : A -> Prop) : Q a -> yields depth (st_lift (Ok a)) Q.
Proof. apply yields_ret. Qed.

Lemma push_grew s i : instr_ok (nstrings s) (S (ncode s)) i -> grew s (with_code (c_code s ++ [i]) s).
Proof.
  intros Hi. split; [|done|done|].
  - exists [i]. split; [done|]. constructor; [|done]. cbn. by rewrite length_app, Nat.add_1_r.
  - apply Forall2_same_length_lookup. split; [done|]. intros k x y Hx Hy. cbn in Hy. simplify_eq.
    split; [done|]. exists []. by rewrite app_nil_r.
Qed.

Lemma emits_instr depth i : (forall s, good depth s -> instr_ok (nstrings s) (S (ncode s)) i) -> emits depth (emit i).
Proof. intros Hi s Hs. exists (with_code (c_code s ++ [i]) s), tt. split_and!; [done|by apply push_grew, Hi|done]. Qed.

Lemma emits_plain depth i : instr_ok 0 0 i -> emits depth (emit i).
Proof. intros Hi. apply emits_instr. intros s _. eapply instr_ok_mono; [| |exact Hi]; lia. Qed.

Lemma emits_for_each {A} depth (g : A -> Comp unit) l :
  Forall (fun x => emits depth (g x)) l -> emits depth (for_each g l).
Proof.
  induction 1 as [|x l Hx _ IH]; cbn [for_each]; [by apply yields_ret|].
  eapply yields_bind; [exact Hx|]. by intros.
Qed.

Lemma emits_for_each_at {A} depth (g : nat -> A -> Comp unit) l : forall n,
  Forall (fun x => forall k, emits depth (g k x)) l -> emits depth (for_each_at g n l).
Proof.
  induction l as [|x l IH]; intros n Hl; cbn [for_each_at]; [by apply yields_ret|].
  apply Forall_cons in Hl as [Hx Hl]. eapply yields_bind; [apply Hx|]. intros. by apply IH.
Qed.

Lemma yields_collect {A B} depth (g : A -> Comp B) (R : A -> B -> Prop) l :
  Forall (fun x => yields depth (g x) (R x)) l -> yields depth (collect g l) (Forall2 R l).
Proof.
  induction 1 as [|x l Hx _ IH]; cbn [collect]; [by apply yields_ret|].
  eapply yields_bind; [exact Hx|]. intros y Hy. eapply yields_bind; [exact IH|]. intros ys Hys.
  apply yields_ret. by constructor.
Qed.

(** ** Jumps *)

Lemma runs_frame {A} s0 s (c : Comp A) Q : runs s s c Q -> grew s0 s -> runs s0 s c (fun a s' => Q a s' /\ grew s s').
Proof. intros (s' & a & Hr & Hg & Hq) G. exists s', a. split_and!; [done|by eapply grew_trans|done|done]. Qed.

Lemma runs_then {A B} depth s0 s (c : Comp A) (k : A -> Comp B) Q R :
  yields depth c Q -> good depth s0 -> grew s0 s ->
  (forall a s', grew s0 s' -> grew s s' -> Q a -> runs s0 s' (k a) R) -> runs s0 s (c ≫= k) R.
Proof.
  intros Hc Hs Hg Hk. eapply runs_bind; [by apply (runs_yields depth s0 s c Q)|].
  intros a s' Hg' [Hq Hss]. by apply Hk.
Qed.

(** A placeholder, and what follows it. *)
Lemma runs_placeholder {B} depth s0 s i (k : nat -> Comp B) R :
  is_jump i -> instr_ok 0 0 i -> good depth s0 -> grew s0 s ->
  (forall j s', grew s0 s' -> grew s s' -> (ncode s0 <= j)%nat -> jump_at s' j -> runs s0 s' (k j) R) ->
  runs s0 s (j ← emit_placeholder i; k j) R.
Proof.
  intros Hj Hi Hs Hg Hk. assert (grew s (with_code (c_code s ++ [i]) s)) as Hp.
  { apply push_grew. eapply instr_ok_mono; [| |exact Hi]; lia. }
  destruct (Hk (ncode s) (with_code (c_code s ++ [i]) s)) as (s2 & b & Hr & Hq);
    [by eapply grew_trans|done|by apply grew_code_length| |by exists s2, b].
  exists i. split; [|done]. cbn. by rewrite lookup_app_r, Nat.sub_diag by done.
Qed.

Lemma jump_at_patched s k j (i : Instruction) : is_jump i ->
  jump_at s j -> jump_at (with_code (<[k := i]> (c_code s)) s) j.
Proof.
  intros Hi (i' & Hi' & Hj). destruct (decide (k = j)) as [Heq|Hne].
  - subst j. exists i. split; [|done]. cbn. apply list_lookup_insert_eq. by eapply lookup_lt_Some.
  - exists i'. split; [|done]. cbn. by rewrite list_lookup_insert_ne.
Qed.

Lemma patched_grew s0 s k i : (ncode s0 <= k)%nat -> is_jump i -> instr_ok (nstrings s) (ncode s) i ->
  grew s0 s -> grew s0 (with_code (<[k := i]> (c_code s)) s).
Proof.
  intros Hk Hj Hi [(new & Hnew & Hok) Hs Hp Hl]. split; [|done|done|].
  - exists (<[(k - ncode s0)%nat := i]> new). cbn. rewrite length_insert. split.
    + by rewrite Hnew, insert_app_r_alt.
    + by apply Forall_insert.
  - eapply Forall2_impl; [exact Hl|]. intros l l' [Hc (more & Hm & Hf)]. split; [done|]. exists more.
    split; [done|]. eapply Forall_impl; [exact Hf|]. intros j [Hlj Hjj]. split; [done|].
    by apply jump_at_patched.
Qed.

Lemma runs_patch s0 s k : grew s0 s -> (ncode s0 <= k)%nat -> jump_at s k ->
  runs s0 s (patch_to_here k) (fun _ s' => forall j, jump_at s j -> jump_at s' j).
Proof.
  intros Hg Hk (i & Hi & (target & Hj)). unfold runs, patch_to_here. rewrite Hi.
  destruct Hj as [-> | ->]; eexists _, tt; (split; [done|]; split;
    [apply patched_grew; [done|by eexists; auto|cbn; lia|done]
    |intros j Hj; apply jump_at_patched; [by eexists; auto|done]]).
Qed.

Lemma runs_patches s0 ks : forall s, grew s0 s -> Forall (fun k => (ncode s0 <= k)%nat /\ jump_at s k) ks ->
  runs s0 s (for_each patch_to_here ks) (fun _ _ => True).
Proof.
  induction ks as [|k ks IH]; intros s Hg Hks; cbn [for_each]; [by exists s, tt|].
  apply Forall_cons in Hks as [[Hk Hj] Hks]. eapply runs_bind; [by apply runs_patch|].
  intros u s' Hg' Hj'. apply IH; [done|]. eapply Forall_impl; [exact Hks|]. intros j [Hlj Hjj]. split; [done|by apply Hj'].
Qed.

Section Rules.
Context (depth : nat) (expr : IrExprId -> Comp unit).

Lemma emits_select cond then_code else_code :
  emits depth (expr cond) -> emits depth then_code -> emits depth else_code ->
  emits depth (compile_select expr cond then_code else_code).
Proof.
  intros Hc Ht He s Hs. unfold compile_select.
  eapply runs_then; [exact Hc|exact Hs|apply grew_refl|]. intros u1 s1 G1 _ _.
  eapply runs_placeholder; [by eexists; right|cbn; lia|exact Hs|exact G1|]. intros k s2 G2 _ Hk Hj.
  eapply runs_then; [exact Ht|exact Hs|exact G2|]. intros u3 s3 G3 G23 _.
  eapply runs_placeholder; [by eexists; left|cbn; lia|exact Hs|exact G3|]. intros k' s4 G4 G34 Hk' Hj'.
  eapply runs_bind; [apply runs_patch; [done..|]; eapply grew_jump_at; [exact G34|]; by eapply grew_jump_at|].
  intros u5 s5 G5 Hp. eapply runs_then; [exact He|exact Hs|exact G5|]. intros u6 s6 G6 G56 _.
  destruct (runs_patch s s6 k' G6 Hk') as (s7 & u & Hr & G7 & _); [|by exists s7, u].
  eapply grew_jump_at; [exact G56|]. by apply Hp.
Qed.

Lemma emits_and lhs rhs : emits depth (expr lhs) -> emits depth (expr rhs) -> emits depth (compile_and expr lhs rhs).
Proof.
  intros Hl Hr. apply (emits_select lhs (expr rhs) (emit (I_ConstBool false)) Hl Hr). by apply emits_plain.
Qed.

Lemma emits_or lhs rhs : emits depth (expr lhs) -> emits depth (expr rhs) -> emits depth (compile_or expr lhs rhs).
Proof.
  intros Hl Hr. refine (emits_select lhs (emit (I_ConstBool true)) (expr rhs) Hl _ Hr). by apply emits_plain.
Qed.

Lemma runs_emit s0 s i : instr_ok (nstrings s) (S (ncode s)) i -> grew s0 s ->
  runs s0 s (emit i) (fun _ s' => grew s s').
Proof.
  intros Hi Hg. pose proof (push_grew s i Hi). exists (with_code (c_code s ++ [i]) s), tt.
  split_and!; [done|by eapply grew_trans|done].
Qed.

(** A body compiled inside a loop of its own, and what follows it. *)
Lemma runs_loop {B} target (body : Comp unit) (k : list nat -> Comp B) R s0 s :
  0 <= target <= Z.of_nat (ncode s) -> emits (S depth) body -> good depth s0 -> grew s0 s ->
  (forall ks s', grew s0 s' -> grew s s' -> Forall (fun k => (ncode s <= k)%nat /\ jump_at s' k) ks ->
     runs s0 s' (k ks) R) ->
  runs s0 s (_ ← push_loop target; _ ← body; ks ← pop_loop; k ks) R.
Proof.
  intros Ht Hb Hs Hg Hk. pose proof (grew_good _ _ _ Hs Hg) as [Hp Hd Hts].
  set (frame := {| continue_target := target; break_jumps := [] |}).
  destruct (Hb (with_loops (frame :: c_loops s) s)) as (s3 & u & Hr & [Hc Hstr Hpool Hl] & _).
  { split; [done|by cbn; rewrite Hd|by constructor]. }
  inversion Hl as [|? l ? ls [_ (more & Hm & Hmore)] Hls Hl1 Hl2]; subst. cbn in Hm.
  assert (grew s (with_loops ls s3)) as G by by split.
  destruct (Hk (break_jumps l) (with_loops ls s3)) as (s4 & b & Hr4 & Hq); [by eapply grew_trans|done|by rewrite Hm|].
  exists s4, b. split; [|done]. unfold mbind, st_bind, push_loop. fold frame. rewrite Hr. unfold pop_loop.
  by rewrite <- Hl2.
Qed.

Lemma emits_while stmt cond body :
  emits depth (expr cond) -> emits (S depth) (compile_body stmt body) -> emits depth (compile_while expr stmt cond body).
Proof.
  intros Hc Hb s Hs. unfold compile_while.
  eapply (runs_bind s s _ _ (fun t s' => s' = s /\ t = Z.of_nat (ncode s)));
    [exists s, (Z.of_nat (ncode s)); split_and!; [done|apply grew_refl|done..]|]. intros t s' _ [-> ->].
  eapply runs_then; [exact Hc|exact Hs|apply grew_refl|]. intros u1 s1 G1 _ _.
  eapply runs_placeholder; [by eexists; right|cbn; lia|exact Hs|exact G1|]. intros k s2 G2 _ Hk Hj.
  pose proof (grew_code_length _ _ G2) as Hle.
  apply runs_loop; [lia|done..|]. intros ks s3 G3 G23 Hks. pose proof (grew_code_length _ _ G3).
  eapply runs_bind; [apply runs_emit; [cbn; lia|done]|]. intros u4 s4 G4 G34.
  eapply runs_bind; [apply runs_patch; [done..|]; eapply grew_jump_at; [exact G34|]; by eapply grew_jump_at|].
  intros u5 s5 G5 Hp. apply runs_patches; [done|]. eapply Forall_impl; [exact Hks|].
  intros j [Hlj Hjj]. split; [lia|]. apply Hp. eapply grew_jump_at; [exact G34|done].
Qed.

Lemma emits_break : (0 < depth)%nat -> emits depth (k ← emit_placeholder_jump; record_break f k).
Proof.
  intros Hd s Hs. pose proof (good_depth _ _ Hs) as Hl.
  destruct (c_loops s) as [|l ls] eqn:Hls; [cbn in Hl; lia|].
  assert (grew s (with_code (c_code s ++ [I_Jump 0]) s)) as [Hc Hstr Hp Hg] by by apply push_grew; cbn; lia.
  eexists _, tt. split; [unfold mbind, st_bind, emit_placeholder_jump, emit_placeholder, record_break; cbn; by rewrite Hls|].
  split; [|done]. split; [exact Hc|exact Hstr|exact Hp|]. cbn in Hg |- *. rewrite Hls in *.
  inversion Hg as [|? ? ? ? _ Hrest]; subst. constructor; [|exact Hrest].
  split; [done|]. exists [ncode s]. split; [done|]. constructor; [|done]. split; [done|].
  exists (I_Jump 0). split; [|by eexists; left]. cbn. by rewrite lookup_app_r, Nat.sub_diag by done.
Qed.

Lemma emits_continue : (0 < depth)%nat -> emits depth (frame ← innermost_loop f; emit (I_Jump (continue_target frame))).
Proof.
  intros Hd s Hs. destruct Hs as [Hp Hl Ht].
  destruct (c_loops s) as [|l ls] eqn:Hls; [cbn in Hl; lia|]. apply Forall_cons in Ht as [Ht _].
  eapply (runs_bind s s _ _ (fun l' s' => l' = l /\ s' = s));
    [exists s, l; unfold innermost_loop; rewrite Hls; split_and!; [done|apply grew_refl|done..]|].
  intros ? ? _ [-> ->]. destruct (runs_emit s s (I_Jump (continue_target l))) as (s' & u & Hr & Hg & _);
    [cbn; lia|apply grew_refl|by exists s', u].
Qed.

(** Computations that answer a jump to patch. *)
Definition exits (c : Comp nat) : Prop := forall s, good depth s -> runs s s c (fun k s' => (ncode s <= k)%nat /\ jump_at s' k).

Lemma exits_collect {A} (g : A -> Comp nat) l : Forall (fun x => exits (g x)) l -> forall s, good depth s ->
  runs s s (collect g l) (fun ks s' => Forall (fun k => (ncode s <= k)%nat /\ jump_at s' k) ks).
Proof.
  induction 1 as [|x l Hx _ IH]; intros s Hs; cbn [collect].
  { exists s, []. split_and!; [done|apply grew_refl|done]. }
  eapply runs_bind; [by apply Hx|]. intros k s1 G1 (Hk & Hj).
  eapply runs_bind; [apply runs_frame; [|exact G1]; apply IH; by eapply grew_good|]. intros ks s2 G2 (Hks & G12).
  exists s2, (k :: ks). split_and!; [done|done|]. pose proof (grew_code_length _ _ G1). constructor.
  - split; [done|by eapply grew_jump_at].
  - eapply Forall_impl; [exact Hks|]. intros j [Hlj Hjj]. split; [lia|done].
Qed.

Lemma exits_step stmt setup error_condition handler success :
  emits depth (compile_body stmt setup) -> emits depth (expr error_condition) ->
  emits depth (compile_body stmt handler) -> emits depth (compile_body stmt success) ->
  exits (compile_attempt_step expr stmt (AttemptStep setup error_condition handler success)).
Proof.
  intros H1 H2 H3 H4 s Hs. cbn [compile_attempt_step].
  eapply runs_then; [exact H1|exact Hs|apply grew_refl|]. intros u1 s1 G1 _ _.
  eapply runs_then; [exact H2|exact Hs|exact G1|]. intros u2 s2 G2 _ _.
  eapply runs_placeholder; [by eexists; right|cbn; lia|exact Hs|exact G2|]. intros k s3 G3 _ Hk Hj.
  eapply runs_then; [exact H3|exact Hs|exact G3|]. intros u4 s4 G4 G34 _.
  eapply runs_placeholder; [by eexists; left|cbn; lia|exact Hs|exact G4|]. intros k' s5 G5 G45 Hk' Hj'.
  eapply runs_bind; [apply runs_patch; [done..|]; eapply grew_jump_at; [exact G45|]; by eapply grew_jump_at|].
  intros u6 s6 G6 Hp. eapply runs_then; [exact H4|exact Hs|exact G6|]. intros u7 s7 G7 G67 _.
  exists s7, k'. split_and!; [done|done|done|]. eapply grew_jump_at; [exact G67|by apply Hp].
Qed.

Lemma emits_attempt stmt steps trailing :
  Forall (fun step => exits (compile_attempt_step expr stmt step)) steps -> emits depth (compile_body stmt trailing) ->
  emits depth (compile_attempt expr stmt steps trailing).
Proof.
  intros Hsteps Ht s Hs. unfold compile_attempt.
  eapply runs_bind; [by apply exits_collect|]. intros ks s1 G1 Hks.
  eapply runs_then; [exact Ht|exact Hs|exact G1|]. intros u2 s2 G2 G12 _.
  apply runs_patches; [done|]. eapply Forall_impl; [exact Hks|]. intros j [Hlj Hjj]. split; [done|by eapply grew_jump_at].
Qed.
End Rules.
End Emitted.
