(* ===== verification/CompileOk.v ===== *)
(** * What the compiler emits is a valid module

    [compile_with] ends by validating its own output.  On a program that keeps
    the front end's promises ([program_ok]) that check, and every other error of
    the compiler, is never met: [compile_succeeds]. *)

From Stdlib Require Import Strings.String.
From stdpp Require Import gmap strings.
From S2P Require Import Prelude AbiOps Foreign.
From S2P Require Import Instruction.
From S2P Require Import ModuleFormat.
From S2P Require Import Validate.
From S2P Require Import IntWidth.
From S2P Require Import Types.
From S2P Require Import Ir.
From S2P Require Import Mid.
From S2P Require Import Compile.
From S2P Require Import CompileRules.

Section Nodes.
Context {host : Host} (p : IrProgram) (engines : list Execution) (f : IrFunction) (depth : nat).
Context (E : IrExprId -> Prop) (St : IrStmt -> Prop) (expr : IrExprId -> Comp unit) (stmt : IrStmt -> Comp unit).

Abbreviation yields c Q := (yields p engines f depth c Q) (only parsing).
Abbreviation emits c := (yields c (fun _ => True)) (only parsing).

Context (HE : forall id, E id -> emits (expr id)) (HSt : forall s, St s -> emits (stmt s)).
Context (HX : forall id, E id -> exists e, exprs p !! id = Some e /\ forall slot, e = E_Local slot -> slot_ok f slot).

(** A sequence whose first part answers nothing. *)
Lemma emits_seq {A} (c : Comp unit) (k : unit -> Comp A) Q : emits c -> yields (k tt) Q -> yields (c ≫= k) Q.
Proof. intros Hc Hk. eapply yields_bind; [exact Hc|]. by intros []. Qed.

Lemma emits_seqs (g : IrExprId -> Comp unit) args : (forall id, E id -> emits (g id)) -> Forall E args -> emits (for_each g args).
Proof. intros Hg H. apply emits_for_each. eapply Forall_impl; [exact H|exact Hg]. Qed.

Lemma emits_body body : Forall St body -> emits (compile_body stmt body).
Proof. intros H. apply emits_for_each. by eapply Forall_impl. Qed.

Lemma yields_expr_at id : E id -> yields (expr_at p id) (fun e => exprs p !! id = Some e).
Proof.
  intros He s Hs. destruct (HX id He) as (e & Hx & _). exists s, e.
  split_and!; [unfold expr_at; by rewrite Hx|apply grew_refl|done].
Qed.

Lemma emits_expr_at {A} id (k : IrExpr -> Comp A) Q : E id ->
  (forall e, exprs p !! id = Some e -> (forall slot, e = E_Local slot -> slot_ok f slot) -> yields (k e) Q) ->
  yields (expr_at p id ≫= k) Q.
Proof.
  intros He Hk. eapply yields_bind; [by apply yields_expr_at|]. intros e Hx. cbn in Hx.
  destruct (HX id He) as (e' & Hx' & Hs). apply Hk; [done|]. intros slot ->. apply Hs. congruence.
Qed.

Lemma emits_static {A} id (k : Ty -> Comp A) Q : E id -> (forall ty, yields (k ty) Q) -> yields (static_type p f id ≫= k) Q.
Proof.
  intros He Hk. destruct (HX id He) as (e & Hx & _). eapply yields_bind with (Q := fun _ => True); [|by intros].
  intros s Hs. assert (exists ty, expr_type p f id = Some ty) as (ty & Hty) by (unfold expr_type; rewrite Hx; by eexists).
  exists s, ty. split_and!; [unfold static_type; by rewrite Hty|apply grew_refl|done].
Qed.

Lemma slot_u64 slot : slot_ok f slot -> u64_ok slot.
Proof. intros [[] _]. split; lia. Qed.

Lemma u32_u64 v : u32_ok v -> u64_ok v.
Proof. intros []. split; lia. Qed.

Lemma fits_u64 {A} (l : list A) : small l -> u64_ok (Z.of_nat (length l)).
Proof. unfold small. split; [lia|done]. Qed.

Lemma below_u32 {A} (l : list A) i : below l i -> u32_ok i.
Proof. by intros []. Qed.

Lemma below_u64 {A} (l : list A) i : below l i -> u64_ok i.
Proof. intros []. by apply u32_u64. Qed.

Ltac op := apply emits_plain; cbn [instr_ok Instruction_ok]; repeat match goal with |- _ /\ _ => split end; eauto using slot_u64, u32_u64, below_u32, below_u64, fits_u64.

Lemma emits_borrowed id : E id -> emits (compile_borrowed_expr p expr id).
Proof. intros He. apply emits_expr_at; [done|]. intros e Hx Hs. destruct e; try by apply HE. specialize (Hs _ eq_refl). op. Qed.

Lemma emits_release slots : Forall (slot_ok f) slots -> emits (release_locals slots).
Proof.
  intros H. apply emits_for_each. eapply Forall_impl; [exact H|]. intros slot Hs. apply emits_seq; op.
Qed.

Lemma yields_place place : place_ok f E place -> yields (compile_place_indices expr place) PlacePath_ok.
Proof.
  intros (_ & Hs & Hl). unfold compile_place_indices.
  eapply yields_bind; [apply (yields_collect _ _ _ _ _ (fun _ => PathStep_ok))|].
  - eapply Forall_impl; [exact Hs|]. intros [index|e] H; cbn in *.
    + apply yields_ret. by apply u32_u64.
    + apply emits_seq; [by apply HE|by apply yields_ret].
  - intros steps Hsteps. apply yields_ret. pose proof (Forall2_length _ _ _ Hsteps) as Hlen. unfold small in Hl. split; cbn.
    + clear Hlen Hs Hl. induction Hsteps; by constructor.
    + lia.
Qed.

Lemma emits_args callee args : Forall E args -> emits (compile_args p expr callee args).
Proof.
  intros H. apply emits_for_each_at. eapply Forall_impl; [exact H|]. intros id He k.
  destruct (argument_is_borrowed p callee k); [by apply emits_borrowed|by apply HE].
Qed.

Lemma emits_writeback_argument id : E id -> emits (compile_writeback_argument p f expr id).
Proof.
  intros He. apply emits_expr_at; [done|]. intros e Hx Hs. destruct e; try by apply HE.
  destruct (slot_takes_on_read p f slot); [|by apply HE]. specialize (Hs _ eq_refl). op.
Qed.

Lemma yields_target g w : writeback_ok f E g w ->
  yields (writeback_target expr w) (fun t => (WritebackTarget_ok t /\ slot_ok f (wb_slot t)) /\ slot_ok g (wb_param t)).
Proof.
  intros [Hp Hw]. eapply yields_bind; [by apply yields_place|]. intros path Hpath. apply yields_ret.
  pose proof (proj1 Hw) as Hslot. split; [split|done]; [|done].
  split_and!; [by eapply u32_u64, Hp|by apply slot_u64|done].
Qed.

Lemma not_native index g : u32_ok index -> ir_function p index = Some g -> is_native_engine engines index = false ->
  enterable p engines index g.
Proof.
  intros Hi Hg Hn. split_and!; [done..|]. unfold is_native_engine in Hn. apply bool_decide_eq_false in Hn.
  by destruct (engines !! Z.to_nat index) as [[]|].
Qed.

Lemma emits_writeback_call index g targets : u32_ok index -> ir_function p index = Some g ->
  targets_ok targets -> Forall (fun t => slot_ok f (wb_slot t) /\ slot_ok g (wb_param t)) targets ->
  emits (emit_writeback_call engines index targets).
Proof.
  intros Hi Hg Hok Hts. unfold emit_writeback_call. pose proof (u32_u64 _ Hi) as Hi64.
  destruct (is_native_engine engines index) eqn:Hn.
  { op. eapply Forall_impl; [exact Hts|]. by intros t [? _]. }
  pose proof (not_native _ _ Hi Hg Hn) as He.
  assert (emits (emit (I_CallWriteback index targets))) as Hw by op.
  destruct targets as [|t [|]]; try exact Hw. apply Forall_singleton in Hts as [Hs Hp].
  destruct (wb_param t =? 0); [|exact Hw]. destruct Hok as [Hok _]. apply Forall_singleton in Hok as (_ & ? & ?).
  op. exists g. split; [done|]. intros Hnil. unfold slot_ok, below in Hp. rewrite Hnil in Hp. cbn in Hp. destruct Hp as [[] ?]. lia.
Qed.

Lemma emits_call callee args writebacks : call_ok p f E callee args writebacks ->
  emits (compile_call p engines f expr callee args writebacks).
Proof.
  intros [Ha Hc]. unfold compile_call. destruct writebacks as [|w ws]; cbn [is_nil negb].
  - assert (forall unsigned, emits (emit_call p engines f callee unsigned)) as Hemit.
    { intros unsigned. unfold emit_call. destruct callee as [| | | |index|id]; [destruct unsigned; op|op..| |].
      - destruct Hc as (Hi & g & Hg & Hnone & _). unfold function_writes_back. rewrite Hg, (Hnone eq_refl). cbn.
        destruct (is_native_engine engines index) eqn:Hn; op. exists g. by apply not_native.
      - destruct Hc as [Hid _]. pose proof (proj1 Hid). op. }
    assert (forall unsigned, emits (_ ← compile_args p expr callee args; emit_call p engines f callee unsigned)) as Hrest.
    { intros unsigned. apply emits_seq; [by apply emits_args|done]. }
    destruct callee, args as [|a args]; try (eapply yields_bind with (Q := fun _ => True); [by apply yields_ret|by intros]).
    apply Forall_cons in Ha as [Ha _]. eapply yields_bind with (Q := fun _ => True); [|by intros].
    apply emits_static; [done|]. intros ty. by apply yields_ret.
  - destruct callee as [| | | |index|id]; try (by destruct Hc); try done.
    destruct Hc as (Hi & g & Hg & _ & Hws & Hl). unfold compile_writeback_call. apply emits_seq.
    { apply emits_for_each_at. eapply Forall_impl; [exact Ha|]. intros id He k.
      destruct existsb; [by apply emits_writeback_argument|by apply HE]. }
    eapply yields_bind; [apply yields_collect; eapply Forall_impl; [exact Hws|]; intros t Ht; by apply (yields_target g)|].
    intros targets Hts. cbn in Hts. pose proof (Forall2_length _ _ _ Hts) as Hlen.
    apply Forall2_Forall_r with (Q := fun t => (WritebackTarget_ok t /\ slot_ok f (wb_slot t)) /\ slot_ok g (wb_param t)) in Hts;
      [|by apply Forall_true].
    apply (emits_writeback_call index g); [done..| |].
    + split; [|unfold small in Hl; lia]. eapply Forall_impl; [exact Hts|]. by intros t [[? _] _].
    + eapply Forall_impl; [exact Hts|]. by intros t [[_ ?] ?].
Qed.

Lemma emits_struct_new struct_id fields order :
  Forall E fields -> small fields -> order_ok fields order -> glue_ok p engines (struct_glue p struct_id) ->
  emits (compile_struct_new p expr struct_id fields order).
Proof.
  intros Hf Hl Ho Hg. unfold compile_struct_new. unfold small in Hl. destruct order as [|order]; cbn in Ho.
  - apply emits_seq; [by apply emits_seqs|]. destruct (struct_glue p struct_id); op.
    destruct Hg as (g' & (Hg & _) & _). done.
  - assert (Forall (fun slot => 0 <= slot < Z.of_nat (length fields)) order) as Hin.
    { rewrite Ho. apply Forall_forall. intros slot Hs. apply list_elem_of_fmap in Hs as (k & -> & Hk). apply elem_of_seq in Hk. lia. }
    assert (length order = length fields) as Hlen by (rewrite Ho; by rewrite length_map, length_seq).
    apply emits_seq.
    + apply emits_for_each. eapply Forall_impl; [exact Hin|]. intros slot Hs.
      destruct (lookup_lt_is_Some_2 fields (Z.to_nat slot)) as (e & He); [cbn in Hs; lia|]. rewrite He.
      apply HE. by eapply Forall_lookup_1.
    + op; [split; [|by rewrite Hlen]; eapply Forall_impl; [exact Hin|]; intros ? []; split; lia| |by rewrite Hlen].
      destruct (struct_glue p struct_id); [|done]. by destruct Hg as (g' & (Hg & _) & _).
Qed.

Lemma emits_index base index : E base -> E index -> emits (compile_index p expr base index).
Proof.
  intros Hb Hi. apply emits_expr_at; [done|]. intros e Hx Hs.
  assert (emits (_ ← expr base; _ ← expr index; emit I_ArrayGet)) as Hplain.
  { apply emits_seq; [by apply HE|]. apply emits_seq; [by apply HE|]. op. }
  destruct e; try exact Hplain. specialize (Hs _ eq_refl). apply emits_seq; [by apply HE|]. op.
Qed.

Lemma emits_user_data state borrowed : E state -> emits (compile_native_user_data p f expr state borrowed).
Proof.
  intros He. unfold compile_native_user_data. destruct borrowed.
  { apply emits_seq; [by apply emits_borrowed|]. op. }
  apply emits_expr_at; [done|]. intros e Hx Hs. apply emits_seq; [|op].
  destruct e; try by apply HE. destruct (local_is_taken p f slot); [|by apply HE]. specialize (Hs _ eq_refl). op.
Qed.

Lemma emits_main_thread_call operation func args :
  Forall E args -> u32_ok func -> (exists g, ir_function p func = Some g /\ by_reference_params g = [] /\ u64_ok (if_param_count g)) ->
  emits (compile_main_thread_call p f expr operation func args).
Proof.
  intros Ha Hi (g & Hg & Hn & Hc). unfold compile_main_thread_call. rewrite Hg, Hn. cbn [is_nil negb].
  apply emits_seq; [by apply emits_args|]. op.
Qed.

Lemma emits_check_width ty : emits (check_width ty).
Proof. destruct ty; try by apply yields_ret. cbn. destruct (spelling_bits _ <? 64); [op|by apply yields_ret]. Qed.

Lemma emits_wrap_width ty : emits (wrap_width ty).
Proof. destruct ty; try by apply yields_ret. cbn. destruct (spelling_bits _ <? 64); [op|by apply yields_ret]. Qed.

Definition short_circuit (o : IrBinOp) : bool := match o with And | Or => true | _ => false end.

Lemma emits_emit_binary o : short_circuit o = false -> emits (emit_binary o).
Proof. intros H. destruct o; try done; op. Qed.

Lemma emits_int_operator o ty : short_circuit o = false -> emits (compile_int_operator o ty).
Proof.
  intros Ho. pose proof (emits_emit_binary o Ho) as Hb. pose proof emits_check_width as Hc. pose proof emits_wrap_width as Hw.
  destruct ty as [s| | | | | | | | | | | | | | | | | | | |]; try exact Hb.
  destruct o; try done; try exact Hb; cbn [compile_int_operator].
  all: try (apply emits_seq; [exact Hb|]; first [apply Hw|by apply yields_ret]).
  all: try (apply emits_seq; [op|]; first [apply Hc|apply emits_seq; [exact Hb|first [apply Hw|by apply yields_ret]]]).
  all: apply yields_bind with (Q := instr_ok p engines f 0 0);
    [destruct s; by apply yields_ret|intros i Hi; apply emits_seq; [by apply emits_plain|apply Hc]].
Qed.

Lemma emits_binary o lhs rhs ty : E lhs -> E rhs -> emits (compile_binary expr o lhs rhs ty).
Proof.
  intros Hl Hr. unfold compile_binary. pose proof (fun H => emits_int_operator o ty H) as Ho.
  assert (short_circuit o = false -> emits (_ ← expr lhs; _ ← expr rhs; compile_int_operator o ty)) as Hs.
  { intros H. apply emits_seq; [by apply HE|]. apply emits_seq; [by apply HE|]. by apply Ho. }
  destruct o; try by apply Hs.
  - apply emits_and; by apply HE.
  - apply emits_or; by apply HE.
Qed.

Lemma emits_convert kind from to : emits (compile_convert kind from to).
Proof.
  destruct kind; cbn [compile_convert]; try solve [op]; try by apply yields_ret.
  - destruct to; try by apply yields_ret. case_match; [by apply yields_ret|op].
  - destruct (match from with T_Int s => s | _ => Spell_Plain end); op.
  - destruct to as [s| | | | | | | | | | | | | | | | | | | |]; try op. destruct s; try solve [op]; (apply emits_seq; op).
Qed.

(** A new string is the pool's last. *)
Lemma intern_grows s value : good depth s ->
  runs p engines f s s (intern value) (fun id s' => 0 <= id < Z.of_nat (length (pool_strings (c_pool s')))).
Proof.
  intros Hs. pose proof (good_pool _ _ Hs) as Hp. unfold runs, intern.
  destruct (pool_index (c_pool s) !! value) as [id|] eqn:Hid.
  - exists s, id. split; [done|]. split; [apply grew_refl|]. destruct (Hp _ _ Hid) as [? Hl].
    pose proof (lookup_lt_Some _ _ _ Hl). lia.
  - eexists _, _. split; [done|]. split; [|cbn; rewrite length_app; cbn; lia].
    split; [exists []; by rewrite app_nil_r|by apply prefix_app_r| |].
    + intros _ v id. cbn. destruct (decide (v = value)) as [->|Hne].
      * rewrite lookup_insert_eq. intros [= <-]. split; [lia|]. by rewrite Nat2Z.id, lookup_app_r, Nat.sub_diag by done.
      * rewrite lookup_insert_ne by done. intros Hv. destruct (Hp _ _ Hv) as [? Hl]. split; [done|by apply lookup_app_l_Some].
    + apply Forall2_same_length_lookup. split; [done|]. intros k x y Hx Hy. cbn in Hy. simplify_eq. apply loop_grew_refl.
Qed.

Lemma emits_str value : emits (id ← intern value; emit (I_ConstStr id)).
Proof.
  intros s Hs. eapply runs_bind; [by apply intern_grows|]. intros id s' Hg Hid. cbn in Hid.
  destruct (runs_emit p engines f s s' (I_ConstStr id)) as (s2 & u & Hr & Hg2 & _); [done..|]. by exists s2, u.
Qed.

Lemma emits_cast_result target : u64_ok target -> emits (compile_cast_result target).
Proof.
  intros Ht. refine (emits_select p engines f depth (fun _ => emit (I_TypeCastResult target)) 0%nat (emit (I_NewEnum cast_OK_TAG true))
    (_ ← emit (I_NewEnum cast_MISMATCH_TAG true); emit (I_NewEnum cast_ERROR_TAG true)) _ _ _); try apply emits_seq; op; done.
Qed.

Lemma emits_member {A B} (o : option A) member a (k : A -> Comp B) Q :
  o = Some a -> yields (k a) Q -> yields (member_or_fail f o member ≫= k) Q.
Proof. intros -> Hk. eapply yields_bind with (Q := eq a); [by apply yields_ret|]. by intros ? <-. Qed.

Lemma emits_branch setup value cleanup : Forall St setup -> E value -> Forall (slot_ok f) cleanup ->
  emits (compile_branch expr stmt setup value cleanup).
Proof. intros Hs Hv Hc. apply emits_seq; [by apply emits_body|]. apply emits_seq; [by apply HE|by apply emits_release]. Qed.

Lemma emits_assign place value : place_ok f E place -> E value ->
  emits (let slot := pl_local place in
         if is_nil (pl_path place) then _ ← expr value; emit (I_StoreLocal slot)
         else if is_all_fields place then
           _ ← expr value;
           path ← st_lift (field_steps f (pl_path place));
           emit (I_StoreField slot {| FieldPath_steps := path |})
         else
           path ← compile_place_indices expr place;
           _ ← expr value; emit (I_StorePlace slot path)).
Proof.
  intros Hp Hv. pose proof Hp as (Hs & Hpath & Hl). cbn. destruct (is_nil (pl_path place)) eqn:Hnil.
  { apply emits_seq; [by apply HE|]. op. }
  destruct (is_all_fields place) eqn:Hall.
  - apply emits_seq; [by apply HE|].
    assert (exists path, field_steps f (pl_path place) = Ok path /\ Forall u64_ok path /\ length path = length (pl_path place))
      as (path & Hf & Hok & Hlen).
    { clear Hp Hl Hnil. unfold is_all_fields in Hall. induction (pl_path place) as [|[index|e] steps IH]; [by exists []| |done].
      apply Forall_cons in Hpath as [Hi Hpath]. destruct (IH Hpath Hall) as (path & Hf & Hok & Hlen).
      exists (index :: path). cbn. rewrite Hf. split_and!; [done| |by rewrite Hlen]. constructor; [by apply u32_u64|done]. }
    rewrite Hf. eapply yields_bind with (Q := eq path); [by apply yields_ret|]. intros ? <-.
    op; [split; [done|]; cbn; by rewrite Hlen|]. cbn. intros ->. by destruct (pl_path place).
  - eapply yields_bind; [by apply yields_place|]. intros path Hok. apply emits_seq; [by apply HE|]. op.
Qed.

Ltac part := solve [by apply HE | by apply emits_borrowed | by apply emits_seqs | op].
Ltac node := repeat match goal with H : _ /\ _ |- _ => destruct H end; repeat (apply emits_seq; [part|]); try part.

Lemma emits_expr_node id e : exprs p !! id = Some e -> node_ok p engines f E St e -> emits (compile_expr_node p engines f expr stmt id).
Proof.
  intros Hx Hn. unfold compile_expr_node. eapply yields_bind with (Q := eq e).
  { intros s Hs. exists s, e. split_and!; [unfold expr_at; by rewrite Hx|apply grew_refl|done]. }
  intros ? <-. destruct e; cbn [node_ok] in Hn.
  all: try solve [node].
  - apply emits_str.
  - destruct (local_is_taken p f slot); op.
  - apply emits_seq; [by apply HE|]. apply emits_seq; [destruct op; by apply emits_plain|apply emits_check_width].
  - destruct Hn. by apply emits_binary.
  - destruct Hn as (Hc & (? & ? & ?) & (? & ? & ?)). apply emits_select; [by apply HE|by apply emits_branch..].
  - by apply emits_call.
  - destruct Hn as (? & ? & ? & ?). by apply emits_struct_new.
  - destruct Hn as [? Hp]. apply emits_seq; [|op]. destruct payload; [by apply HE|by apply yields_ret].
  - destruct Hn as (? & offset & Ho & ?). apply (emits_member _ _ _ _ _ Ho). node.
  - destruct Hn as (? & ? & stride & Ho & ?). apply (emits_member _ _ _ _ _ Ho). node.
  - destruct Hn as (? & (offset & Ho & ?) & [fty Ht]). eapply emits_member; [rewrite Ho, Ht; done|]. node.
  - destruct Hn. by apply emits_index.
  - apply emits_static; [done|]. intros ty. apply emits_seq; [by apply HE|]. destruct (decide (ty = T_Int Spell_U64)); op.
  - destruct Hn. eapply yields_bind; [by apply yields_place|]. intros path Hpath. cbn in Hpath.
    match goal with H : place_ok _ _ _ |- _ => pose proof (proj1 H) end. node.
  - by apply emits_user_data.
  - apply emits_static; [done|]. intros from. apply emits_seq; [by apply HE|apply emits_convert].
  - destruct Hn. apply emits_seq; [by apply HE|by apply emits_cast_result].
  - destruct Hn as (? & ? & ?). by apply emits_main_thread_call.
Qed.

Lemma emits_stmt_node (In : IrStmt -> Prop) s :
  (forall body, Forall In body -> CompileRules.yields p engines f (S depth) (compile_body stmt body) (fun _ => True)) ->
  stmt_node_ok f E St In depth s -> emits (compile_stmt_node f expr stmt s).
Proof.
  intros Hin Hs. destruct s as [| | |[e|]| | | | | | |]; cbn [stmt_node_ok compile_stmt_node] in *; try solve [node].
  - destruct Hs. by apply emits_assign.
  - destruct Hs as (? & ? & ?). apply emits_select; [by apply HE|by apply emits_body..].
  - destruct Hs as [Hsteps ?]. apply emits_attempt; [|by apply emits_body].
    eapply Forall_impl; [exact Hsteps|]. intros [] (? & ? & ? & ?). apply exits_step; first [by apply emits_body|by apply HE].
  - destruct Hs. apply emits_while; [by apply HE|by apply Hin].
  - by apply emits_break.
  - by apply emits_continue.
  - by apply emits_release.
Qed.
End Nodes.

(** ** Bodies *)

Section Bodies.
Context {host : Host} (p : IrProgram) (engines : list Execution) (f : IrFunction).

Abbreviation emits depth c := (yields p engines f depth c (fun _ => True)) (only parsing).

Lemma expr_there n depth id : expr_ok p engines n f depth id ->
  exists e, exprs p !! id = Some e /\ forall slot, e = E_Local slot -> slot_ok f slot.
Proof. destruct n as [|n]; [done|]. intros (e & Hx & Hn). exists e. split; [done|]. by intros slot ->. Qed.

Lemma emits_compiled n : forall fuel depth, (n <= fuel)%nat ->
  (forall id, expr_ok p engines n f depth id -> emits depth (compile_expr p engines f fuel id)) /\
  (forall s, stmt_ok p engines n f depth s -> emits depth (compile_stmt p engines f fuel s)).
Proof.
  induction n as [|n IH]; intros fuel depth Hfuel; [done|]. destruct fuel as [|fuel]; [lia|].
  destruct (IH fuel depth) as [HE HS]; [lia|]. pose proof (expr_there n depth) as HX. split.
  - intros id (e & Hx & Hn). by eapply emits_expr_node.
  - intros s Hs. eapply emits_stmt_node; [exact HE|exact HS| |exact Hs].
    intros body Hb. destruct (IH fuel (S depth)) as [_ HS']; [lia|]. eapply emits_body; [exact HS'|exact Hb].
Qed.
End Bodies.
