(* ===== verification/CompileProgram.v ===== *)
(** * Whole programs

    What [build_module] makes of a program that keeps the front end's promises
    ([program_ok]) is a valid module, so [compile_with] answers it
    ([compile_succeeds]).  The fuel is any bound on how deep the program's
    expressions and statements nest. *)

From Stdlib Require Import Strings.String.
From stdpp Require Import gmap strings sorting.
From S2P Require Import Prelude AbiOps Foreign.
From S2P Require Import Instruction.
From S2P Require Import ModuleFormat.
From S2P Require Import Validate.
From S2P Require Import IntWidth.
From S2P Require Import Types.
From S2P Require Import Ir.
From S2P Require Import Mid.
From S2P Require Import MidOk.
From S2P Require Import Compile.
From S2P Require Import CompileRules.
From S2P Require Import CompileOk.

(** ** The export table *)

Section Exports.
Context (t : TypeTable).

Definition crossable (ty : Ty) : bool :=
  match ty with T_Void | T_Int _ | T_Float _ | T_Bool | T_String | T_Struct _ => true | _ => false end.

(** [et] is how [ty] crosses: a struct as the class of its name. *)
Definition crosses (classes : list rstring) (ty : Ty) (et : ExportType) : Prop :=
  match ty, et with
  | T_Void, Export_Void | T_Int _, Export_Int | T_Float _, Export_Float | T_Bool, Export_Bool
  | T_String, Export_String => True
  | T_Struct id, Export_Handle class =>
    u32_ok class /\ classes !! Z.to_nat class = Some (struct_name t id)
  | _, _ => False
  end.

Lemma crosses_more classes classes' ty et : classes `prefix_of` classes' -> crosses classes ty et -> crosses classes' ty et.
Proof. destruct ty, et; try done. cbn. intros Hp [? Hl]. split; [done|]. by eapply prefix_lookup_Some. Qed.

(** Classes have one row a name, and few rows. *)
Definition table_ok (budget : nat) (classes : list rstring) : Prop :=
  NoDup classes /\ Z.of_nat (length classes + budget) <= 2 ^ 32.

Lemma export_type_ok export n classes ty : crossable ty = true -> table_ok (S n) classes ->
  exists classes' et, export_type t export classes ty = Ok (classes', et) /\
    table_ok n classes' /\ classes `prefix_of` classes' /\ crosses classes' ty et.
Proof.
  intros Hc [Hnd Hl]. assert (table_ok n classes) as Hsame by (split; [done|lia]).
  destruct ty; try done; try (eexists classes, _; cbn; split; [done|]; by split).
  cbn [export_type]. destruct (list_find _ classes) as [[index name]|] eqn:Hf.
  - apply list_find_Some in Hf as (Hi & Hname & _). pose proof (lookup_lt_Some _ _ _ Hi).
    rewrite decide_True by lia. eexists classes, _. split; [done|]. split; [done|]. split; [done|]. cbn.
    split; [split; lia|]. rewrite Nat2Z.id, Hi. by f_equal.
  - apply list_find_None in Hf. rewrite decide_True by lia. eexists _, _. split; [done|]. split_and!.
    + split; [|rewrite length_app; cbn; lia]. apply NoDup_app. split_and!; [done| |apply NoDup_singleton].
      intros x Hx ->%list_elem_of_singleton. rewrite Forall_forall in Hf. by apply (Hf _ Hx).
    + by apply prefix_app_r.
    + cbn. split; [split; lia|]. by rewrite Nat2Z.id, lookup_app_r, Nat.sub_diag by done.
Qed.

Lemma export_types_ok export tys : forall n classes, Forall (fun ty => crossable ty = true) tys -> table_ok (length tys + n) classes ->
  exists classes' ets, export_types t export classes tys = Ok (classes', ets) /\
    table_ok n classes' /\ classes `prefix_of` classes' /\ Forall2 (crosses classes') tys ets.
Proof.
  induction tys as [|ty tys IH]; intros n classes Hc Hok; cbn [export_types]; [by eexists classes, []|].
  apply Forall_cons in Hc as [Hty Hc].
  destruct (export_type_ok export (length tys + n) classes ty Hty Hok) as (c1 & et & -> & Hok1 & Hp1 & Hx1). cbn.
  destruct (IH n c1 Hc Hok1) as (c2 & ets & -> & Hok2 & Hp2 & Hx2). cbn.
  eexists c2, _. split; [done|]. split_and!; [done|by etrans|]. constructor; [by eapply crosses_more|done].
Qed.

(** A row of the table: what was exported, under the names it was given. *)
Definition exported (classes : list rstring) (e : IrExport) (row : ModuleExport) : Prop :=
  e_name row = ie_exported_name e /\ kira_name row = ie_kira_name e /\ e_function row = ie_function e /\
  Forall2 (crosses classes) (ie_params e) (e_params row) /\ crosses classes (ie_result e) (e_result row).

Definition crossings (es : list IrExport) : nat := sum_list_with (fun e => S (length (ie_params e))) es.

Definition crosses_whole (e : IrExport) : Prop := Forall (fun ty => crossable ty = true) (ie_result e :: ie_params e).

Lemma build_exports_ok es : forall n classes, Forall crosses_whole es -> table_ok (crossings es + n) classes ->
  exists classes' rows, build_exports t classes es = Ok (classes', rows) /\
    table_ok n classes' /\ classes `prefix_of` classes' /\ Forall2 (exported classes') es rows.
Proof.
  induction es as [|e es IH]; intros n classes Hc Hok; cbn [build_exports]; [by eexists classes, []|].
  apply Forall_cons in Hc as [[Hr Hps]%Forall_cons Hc]. unfold crossings in Hok. cbn [sum_list_with] in Hok.
  change (sum_list_with (fun e => S (length (ie_params e))) es) with (crossings es) in Hok.
  destruct (export_types_ok (ie_exported_name e) (ie_params e) (S (crossings es + n)) classes Hps) as (c1 & ps & -> & Hok1 & Hp1 & Hx1).
  { destruct Hok as [? Hb]. split; [done|lia]. }
  cbn. destruct (export_type_ok (ie_exported_name e) _ c1 (ie_result e) Hr Hok1) as (c2 & r & -> & Hok2 & Hp2 & Hx2). cbn.
  destruct (IH n c2 Hc Hok2) as (c3 & rows & -> & Hok3 & Hp3 & Hx3). cbn.
  eexists c3, _. split; [done|]. split_and!; [done|by do 2 (etrans; [eassumption|])|].
  constructor; [|done]. split_and!; [done..| |by eapply crosses_more].
  eapply Forall2_impl; [exact Hx1|]. intros ty et. apply crosses_more. by etrans.
Qed.
End Exports.

(** C34: A program whose exports cross gets an export table: a row an export, under its
    names and of its function, each scalar as itself and each struct as a handle
    of the class that bears its name, a class a name. *)
Theorem export_table_crosses (p : IrProgram) :
  Forall crosses_whole (ir_exports p) -> Z.of_nat (crossings (ir_exports p)) <= 2 ^ 32 ->
  exists table, build_export_table p = Ok table /\ NoDup (classes table) /\
    Forall2 (exported (ir_types p) (classes table)) (ir_exports p) (e_functions table).
Proof.
  intros Hc Hn. destruct (build_exports_ok (ir_types p) (ir_exports p) 0 [] Hc) as (c & rows & Hb & [Hnd _] & _ & Hx).
  { split; [constructor|cbn; lia]. }
  unfold build_export_table. rewrite Hb. eexists. split; [done|]. by split.
Qed.

(** ** The functions *)

Section Program.
Context {host : Host} (n : nat) (p : IrProgram) (engines : list Execution).

Definition engine (index : nat) : Execution := default Runtime (engines !! index).

Record function_ok (index : nat) (f : IrFunction) : Prop := {
  fk_name : rstring_ok (if_name f);
  fk_params : 0 <= if_param_count f <= Z.of_nat (length (locals f));
  fk_locals : Z.of_nat (length (locals f)) < 2 ^ 32;
  fk_plan : plannable n (ir_types p) Boxed f;
  fk_body : engine index <> Native -> Forall (stmt_ok p engines n f 0) (body f)
}.

(** Code whose operands are there, behind at most the marker of a lifecycle. *)
Definition code_ok (strings : nat) (f : IrFunction) (e : Execution) (code : list Instruction) : Prop :=
  exists entry, (entry = [] \/ entry = [I_MainThreadLifecycle]) /\
    if decide (e = Native) then code = entry
    else exists new, code = entry ++ new ++ [I_ReturnVoid] /\
      Forall (instr_ok p engines f strings (length (entry ++ new))) new.

Definition proto_of (strings index : nat) (f : IrFunction) (g : FuncProto) : Prop :=
  f_name g = if_name f /\ param_count g = if_param_count f /\
  ModuleFormat.local_count g = Z.of_nat (length (locals f)) /\ execution g = engine index /\
  code_ok strings f (engine index) (ModuleFormat.code g) /\
  exists slots, releases g = Planned slots /\ Sorted Z.lt slots /\ Forall (fun slot => 0 <= slot < Z.of_nat (length (locals f))) slots.

Lemma code_ok_more a b f e code : (a <= b)%nat -> code_ok a f e code -> code_ok b f e code.
Proof.
  intros Hab (entry & He & Hc). exists entry. split; [done|]. destruct (decide (e = Native)); [done|].
  destruct Hc as (new & Hnew & Hok). exists new. split; [done|]. eapply Forall_impl; [exact Hok|]. intros i. by apply instr_ok_mono.
Qed.

Lemma proto_of_more a b index f g : (a <= b)%nat -> proto_of a index f g -> proto_of b index f g.
Proof. intros Hab (? & ? & ? & ? & ? & ?). split_and!; try done. by eapply code_ok_more. Qed.

Lemma compile_function_ok fuel index f pool : (n <= fuel)%nat -> function_ok index f -> pool_ok pool ->
  exists pool' code, compile_function fuel p engines index f pool = Ok (pool', code) /\
    pool_strings pool `prefix_of` pool_strings pool' /\ pool_ok pool' /\
    code_ok (length (pool_strings pool')) f (engine index) code.
Proof.
  intros Hfuel Hf Hp. unfold compile_function. fold (engine index). set (entry := lifecycle_entry p index).
  assert (entry = [] \/ entry = [I_MainThreadLifecycle]) as He.
  { subst entry. unfold lifecycle_entry. destruct (contains_slot _ _); auto. }
  destruct (decide (engine index = Native)) as [Hn|Hn].
  { eexists _, _. split; [done|]. split; [done|]. split; [done|]. exists entry. split; [done|]. by rewrite decide_True. }
  assert (yields p engines f 0 (compile_body (compile_stmt p engines f fuel) (body f)) (fun _ => True)) as Hb.
  { apply emits_for_each. eapply Forall_impl; [exact (fk_body _ _ Hf Hn)|]. intros s. by apply emits_compiled. }
  destruct (Hb {| c_pool := pool; c_code := entry; c_loops := [] |}) as (s & u & Hr & [(new & Hnew & Hok) Hs Hp' _] & _).
  { split; [done|done|constructor]. }
  rewrite Hr. eexists _, _. split; [done|]. split; [exact Hs|]. split; [by apply Hp'|]. exists entry. split; [done|].
  rewrite decide_False by done. exists new. cbn in Hnew. rewrite Hnew in Hok |- *. by rewrite <- app_assoc.
Qed.

Lemma compile_functions_ok fuel plans fs : (n <= fuel)%nat -> forall index pool,
  (forall j f, fs !! j = Some f -> function_ok (index + j) f) -> pool_ok pool ->
  Forall2 (fun f slots => Sorted Z.lt slots /\ Forall (fun slot => 0 <= slot < Z.of_nat (length (locals f))) slots)
    fs (drop index plans) ->
  exists pool' gs, compile_functions fuel p engines plans index fs pool = Ok (pool', gs) /\
    pool_strings pool `prefix_of` pool_strings pool' /\ length gs = length fs /\
    forall j f, fs !! j = Some f -> exists g, gs !! j = Some g /\ proto_of (length (pool_strings pool')) (index + j) f g.
Proof.
  intros Hfuel. induction fs as [|f fs IH]; intros index pool Hfs Hp Hplans; cbn [compile_functions].
  { eexists pool, []. split_and!; [done..|]. intros j f. by rewrite lookup_nil. }
  pose proof (Hfs 0%nat f eq_refl) as Hf. rewrite Nat.add_0_r in Hf.
  destruct (compile_function_ok fuel index f pool Hfuel Hf Hp) as (pool1 & code & -> & Hpre & Hp1 & Hcode). cbn.
  destruct (drop index plans) as [|slots rest] eqn:Hd; [by inversion Hplans|].
  apply Forall2_cons in Hplans as [[Hsort Hin] Hrest].
  assert (plans !! index = Some slots) as Hslots.
  { rewrite <- (Nat.add_0_r index), <- lookup_drop, Hd. done. }
  destruct (IH (S index) pool1) as (pool2 & gs & -> & Hpre2 & Hlen & Hgs); [|done| |].
  { intros j g Hj. specialize (Hfs (S j) g Hj). by rewrite Nat.add_succ_r in Hfs. }
  { replace (drop (S index) plans) with rest; [done|]. rewrite <- Nat.add_1_r, <- drop_drop, Hd. done. }
  cbn. eexists _, _. split; [done|]. split; [by etrans|]. split; [cbn; by rewrite Hlen|].
  intros [|j] g; cbn; [intros [= <-]|].
  - eexists. split; [done|]. rewrite Nat.add_0_r. split_and!; try done.
    + cbn. unfold Ir.local_count, uwrap. rewrite Z.mod_small; [done|]. pose proof (fk_locals _ _ Hf). lia.
    + cbn. eapply code_ok_more; [|exact Hcode]. by apply prefix_length.
    + cbn. rewrite Hslots. by exists slots.
  - intros Hj. destruct (Hgs j g Hj) as (g' & ? & ?). exists g'. by rewrite Nat.add_succ_r.
Qed.

(** ** The module *)

Definition spec_there (s : ForeignTypeSpec) : Prop :=
  forall id, spec_aggregate s = Some id -> below (entries (ir_foreign_aggregates p)) id.

Definition export_ok (e : IrExport) : Prop :=
  rstring_ok (ie_exported_name e) /\ rstring_ok (ie_kira_name e) /\ crosses_whole e /\ u32_ok (ie_function e) /\
  exists f, ir_function p (ie_function e) = Some f /\ if_param_count f = Z.of_nat (length (ie_params e)).

(** What the front end promises of a program. *)
Record program_ok : Prop := {
  pk_functions : forall index f, ir_functions p !! index = Some f -> function_ok index f;
  pk_main : option_ok (below (ir_functions p)) (ir_main p);
  pk_constants : Forall (fun c => exists g, enterable p engines (ic_init c) g) (ir_constants p);
  pk_callbacks : Forall (fun c => below (ir_functions p) (cb_function c) /\ ForeignSignature_ok (cb_signature c) /\
                                  Forall spec_there (signature_specs (cb_signature c))) (ir_foreign_callbacks p);
  pk_exports : Forall export_ok (ir_exports p);
  pk_exported : NoDup (ie_exported_name <$> ir_exports p);
  pk_crossings : Z.of_nat (crossings (ir_exports p)) <= 2 ^ 32
}.

(** The module a program builds. *)
Record built (m : Module_) : Prop := {
  bt_functions : length (functions m) = length (ir_functions p) /\
    forall j f, ir_functions p !! j = Some f -> exists g, functions m !! j = Some g /\ proto_of (length (strings m)) j f g;
  bt_main : main m = ir_main p;
  bt_constants : constants m = ic_init <$> ir_constants p;
  bt_imports : foreign_imports m = ifi_import <$> ir_foreign_imports p;
  bt_aggregates : foreign_aggregates m = ir_foreign_aggregates p;
  bt_callbacks : foreign_callbacks m = ir_foreign_callbacks p;
  bt_exports : Forall2 (exported (ir_types p) (classes (exports m))) (ir_exports p) (e_functions (exports m))
}.

Section Module_.
Context (Hp : program_ok).

Lemma exports_cross : Forall crosses_whole (ir_exports p).
Proof. eapply Forall_impl; [apply (pk_exports Hp)|]. by intros e (_ & _ & ? & _). Qed.

Lemma build_module_ok fuel : (n <= fuel)%nat -> exists m, build_module fuel p engines = Ok m /\ built m.
Proof.
  intros Hfuel. unfold build_module, planned, plan.
  destruct (plan_from_answers fuel (ir_types p) BY_VALUE Boxed (ir_functions p)) with (k := 0%nat) as (plans & Hplans & Hok).
  { apply Forall_lookup_2. intros j f Hj. destruct (fk_plan _ _ (pk_functions Hp _ _ Hj)) as (Hl & Hr & Ho & Hown).
    split_and!; [done..|]. eapply Forall_impl; [exact Hown|]. intros ty [b Hb]. exists b. by eapply owns_heap_more_model. }
  rewrite Hplans. cbn.
  destruct (compile_functions_ok fuel plans (ir_functions p) Hfuel 0 StringPool_default) as (pool & gs & -> & _ & Hlen & Hgs);
    [apply (pk_functions Hp)|intros value id; cbn; by rewrite lookup_empty|by rewrite drop_0|]. cbn.
  destruct (build_exports_ok (ir_types p) (ir_exports p) 0 [] exports_cross) as (c & rows & Hb & _ & _ & Hx).
  { split; [constructor|cbn; pose proof (pk_crossings Hp); lia]. }
  unfold build_export_table. rewrite Hb. cbn. eexists. split; [done|]. by split.
Qed.

Section Built.
Context (m : Module_) (Hm : built m).

Lemma below_at {A} (l : list A) i : below l i -> exists x, at_index l i x.
Proof.
  intros [[? _] ?]. destruct (lookup_lt_is_Some_2 l (Z.to_nat i)) as [x Hx]; [lia|]. exists x, (Z.to_nat i). split; [lia|done].
Qed.

Lemma function_built index f : 0 <= index -> ir_function p index = Some f ->
  exists g, at_index (functions m) index g /\ proto_of (length (strings m)) (Z.to_nat index) f g.
Proof.
  intros ? Hf. destruct (proj2 (bt_functions m Hm) _ _ Hf) as (g & Hg & Hproto). exists g. split; [|done].
  exists (Z.to_nat index). split; [lia|done].
Qed.

Lemma enterable_built index f : enterable p engines index f ->
  exists g, bytecode m index g /\ ModuleFormat.local_count g = Z.of_nat (length (locals f)).
Proof.
  intros (Hi & Hf & He). destruct (function_built index f (proj1 Hi) Hf) as (g & Hg & _ & _ & Hl & Hx & _).
  exists g. split; [|done]. split; [done|]. by rewrite Hx.
Qed.

Lemma receives_built index : receives p engines index -> receiver_body m index.
Proof.
  intros (f & He & Hl). destruct (enterable_built index f He) as (g & Hg & Hc). exists g. split; [done|]. rewrite Hc.
  destruct (locals f); [done|cbn; lia].
Qed.

Lemma local_built f g slot : ModuleFormat.local_count g = Z.of_nat (length (locals f)) -> slot_ok f slot -> is_local g slot.
Proof. intros Hl [[? _] ?]. unfold is_local. lia. Qed.

Lemma operand_built f g next i : ModuleFormat.local_count g = Z.of_nat (length (locals f)) ->
  (next < length (ModuleFormat.code g))%nat -> instr_ok p engines f (length (strings m)) next i ->
  operand_valid m g i /\ i <> I_MainThreadLifecycle.
Proof.
  intros Hl Hnext Hi. pose proof (fun slot => local_built f g slot Hl) as Hslot.
  assert (forall target, 0 <= target <= Z.of_nat next -> exists x, at_index (ModuleFormat.code g) target x) as Htarget.
  { intros target Ht. destruct (lookup_lt_is_Some_2 (ModuleFormat.code g) (Z.to_nat target)) as [x Hx]; [lia|].
    exists x, (Z.to_nat target). split; [lia|done]. }
  destruct i; cbn [instr_ok operand_valid] in *; try (destruct Hi as [Hw Hi]); try done; (split; [|done]); auto.
  - destruct (lookup_lt_is_Some_2 (strings m) (Z.to_nat operand)) as [x Hx]; [lia|]. exists x, (Z.to_nat operand). split; [lia|done].
  - rewrite (bt_constants m Hm). apply below_at. unfold below in *. by rewrite length_fmap.
  - destruct Hi as (h & He). destruct (enterable_built _ _ He) as (g' & ? & _). by exists g'.
  - rewrite (bt_imports m Hm). apply below_at. unfold below in *. by rewrite length_fmap.
  - destruct Hi. auto using receives_built.
  - destruct Hi as (h & He & Hts). destruct (enterable_built _ _ He) as (g' & ? & Hl'). exists g'. split; [done|].
    eapply Forall_impl; [exact Hts|]. intros t [? ?]. split; [by auto|by eapply local_built].
  - eapply Forall_impl; [exact Hi|]. auto.
  - rewrite (bt_callbacks m Hm). by apply below_at.
  - by apply receives_built.
  - destruct Hi as [? Hg]. split; [done|]. intros x ->. by apply receives_built.
  - destruct Hi. auto.
  - destruct Hi as (h & Hh & ->). destruct Hw as [[? _] _]. destruct (function_built func h) as (g' & Hg & _ & Hpc & _); [done..|].
    by exists g'.
  - rewrite (bt_aggregates m Hm). by apply below_at.
Qed.

Lemma body_built f g index : proto_of (length (strings m)) index f g -> body_valid m g.
Proof.
  intros (_ & _ & Hl & Hx & (entry & He & Hc) & _). unfold body_valid. rewrite Hx. destruct (decide (engine index = Native)) as [Hn|Hn].
  { rewrite Hc. destruct He as [-> | ->]; auto. }
  destruct Hc as (new & Hcode & Hnew). split.
  { exists I_ReturnVoid. rewrite Hcode, app_assoc, last_snoc. auto. }
  intros pc i. rewrite Hcode, lookup_app_Some. intros [Hi|[_ Hi]].
  { destruct He as [-> | ->]; [done|]. apply list_lookup_singleton_Some in Hi as [-> <-]. done. }
  rewrite lookup_app_Some in Hi. destruct Hi as [Hi|[_ Hi]].
  - rewrite Forall_lookup in Hnew. destruct (operand_built f g (length (entry ++ new)) i Hl) as [Hv Hne]; [|by eapply Hnew|].
    + rewrite Hcode, !length_app. cbn. lia.
    + split; [done|]. by intros ->.
  - apply list_lookup_singleton_Some in Hi as [_ <-]. done.
Qed.

Lemma instr_width f strings next i : Z.of_nat strings <= usize_max -> Z.of_nat next <= usize_max ->
  instr_ok p engines f strings next i -> Instruction_ok i.
Proof. intros Hs Hn. pose proof usize_max_bounds. destruct i; cbn; try (by intros [? _]); unfold unsigned_ok; lia. Qed.

Lemma widths_built f g index : function_ok index f -> proto_of (length (strings m)) index f g ->
  Z.of_nat (length (strings m)) <= usize_max -> Z.of_nat (length (ModuleFormat.code g)) <= usize_max -> FuncProto_ok g.
Proof.
  intros [Hname Hpar Hloc _ _] (Hg & Hpc & Hl & _ & (entry & He & Hc) & slots & Hsl & _ & Hin) Hs Hcode.
  unfold FuncProto_ok. rewrite Hg.
  rewrite <- Hpc in Hpar. pose proof usize_max_bounds. split_and!; [done|split; lia|split; lia| |].
  - destruct (decide _) as [_|_]; [rewrite Hc; destruct He as [-> | ->]; by repeat constructor|].
    destruct Hc as (new & Hnew & Hok). rewrite Hnew, !length_app in Hcode. cbn in Hcode. rewrite Hnew.
    apply Forall_app. split; [destruct He as [-> | ->]; by repeat constructor|]. apply Forall_app. split; [|by repeat constructor].
    eapply Forall_impl; [exact Hok|]. intros i. apply instr_width; [done|rewrite length_app; lia].
  - rewrite Hsl. eapply Forall_impl; [exact Hin|]. intros slot []. split; lia.
Qed.

Lemma plan_built f g index : proto_of (length (strings m)) index f g -> plan_valid g.
Proof.
  intros (_ & _ & Hl & _ & _ & slots & Hs & Hsort & Hin). unfold plan_valid. rewrite Hs. split; [done|].
  eapply Forall_impl; [exact Hin|]. intros slot []. unfold is_local. lia.
Qed.

Lemma built_functions (P : FuncProto -> Prop) :
  (forall index f g, function_ok index f -> functions m !! index = Some g -> proto_of (length (strings m)) index f g -> P g) ->
  Forall P (functions m).
Proof.
  intros HP. apply Forall_lookup_2. intros index g Hg. destruct (bt_functions m Hm) as [Hlen Hall].
  pose proof (lookup_lt_Some _ _ _ Hg). destruct (lookup_lt_is_Some_2 (ir_functions p) index) as [f Hf]; [lia|].
  destruct (Hall _ _ Hf) as (g' & Hg' & Hproto). simplify_eq. by eapply HP; [apply (pk_functions Hp)|..].
Qed.

Lemma export_width ty et cs : crosses (ir_types p) cs ty et -> ExportType_ok et.
Proof. destruct ty, et; try done; cbn; try (intros _; split; done). by intros [? _]. Qed.

Lemma export_class ty et : crosses (ir_types p) (classes (exports m)) ty et -> class_valid m et.
Proof.
  destruct ty, et; try done. cbn. intros [[? _] Hc]. eexists. exists (Z.to_nat class). split; [lia|exact Hc].
Qed.

Lemma widths_hold : tables_fit m -> widths_ok m.
Proof.
  intros (_ & Hs & _ & _ & Hfit). split.
  - apply built_functions. intros index f g Hf Hg Hproto. rewrite Forall_lookup in Hfit. by eapply widths_built; [..|by eapply Hfit].
  - rewrite (bt_main m Hm). pose proof (pk_main Hp) as H. by destruct (ir_main p) as [i|]; [destruct H|].
  - rewrite (bt_constants m Hm). apply Forall_fmap. eapply Forall_impl; [apply (pk_constants Hp)|].
    intros c (g & Hc & _). by apply u32_u64.
  - rewrite (bt_callbacks m Hm). eapply Forall_impl; [apply (pk_callbacks Hp)|]. by intros c ([? _] & ? & _).
  - pose proof (pk_exports Hp) as He. pose proof (bt_exports m Hm) as Hb. revert He.
    induction Hb as [|e row es rows (H1 & H2 & H3 & Hps & Hr) _ IH]; intros He; [constructor|].
    apply Forall_cons in He as [(? & ? & _ & ? & _) He]. constructor; [|by apply IH].
    unfold ModuleExport_ok. rewrite H1, H2, H3. split_and!; [done..| |by eapply export_width].
    clear -Hps. induction Hps; constructor; [by eapply export_width|done].
Qed.

Lemma valid_built : Valid m.
Proof.
  split.
  - rewrite (bt_main m Hm). intros i Hi. pose proof (pk_main Hp) as H. rewrite Hi in H. apply below_at in H as (f & j & -> & Hf).
    destruct (proj2 (bt_functions m Hm) _ _ Hf) as (g & Hg & _). exists g. by exists j.
  - rewrite (bt_constants m Hm). apply Forall_fmap. eapply Forall_impl; [apply (pk_constants Hp)|].
    intros c (f & Hc). destruct (enterable_built _ _ Hc) as (g & ? & _). by exists g.
  - rewrite (bt_callbacks m Hm). eapply Forall_impl; [apply (pk_callbacks Hp)|]. intros c (Hc & _ & Hspecs). split.
    + apply below_at in Hc as (f & j & Hj & Hf). destruct (proj2 (bt_functions m Hm) _ _ Hf) as (g & Hg & _). exists g. by exists j.
    + eapply Forall_impl; [exact Hspecs|]. intros s Hs id Hid. rewrite (bt_aggregates m Hm). by apply below_at, Hs.
  - apply built_functions. intros index f g Hf Hg Hproto. pose proof Hproto as (_ & Hpc & Hl & _). split_and!.
    + rewrite Hl. pose proof (fk_locals _ _ Hf). pose proof usize_max_bounds. lia.
    + by eapply plan_built.
    + rewrite Hpc, Hl. by destruct (fk_params _ _ Hf).
    + by eapply body_built.
  - pose proof (pk_exports Hp) as He. pose proof (bt_exports m Hm) as Hb. split.
    + revert He. induction Hb as [|e row es rows (H1 & H2 & H3 & Hps & Hr) _ IH]; intros He; [constructor|].
      apply Forall_cons in He as [(_ & _ & _ & [Hi _] & f & Hf & Hpc) He]. constructor; [|by apply IH]. split.
      * destruct (function_built _ f Hi Hf) as (g & Hg & _ & Hpg & _). exists g. rewrite H3. split; [done|].
        rewrite Hpg, Hpc. by rewrite (Forall2_length _ _ _ Hps).
      * apply Forall_app. split; [|constructor; [by eapply export_class|constructor]].
        clear -Hps. induction Hps; constructor; [by eapply export_class|done].
    + pose proof (pk_exported Hp) as Hnd. replace (map e_name (e_functions (exports m))) with (ie_exported_name <$> ir_exports p); [done|].
      clear -Hb. induction Hb as [|e row es rows (H1 & _) _ IH]; [done|]. cbn. by rewrite H1, IH.
Qed.
End Built.
End Module_.
End Program.

(** C12: Compiling a program that keeps the front end's promises ends in a module, and
    in no error of the compiler's own.  With fuel at least as deep as the
    program nests, [build_module] answers; its module keeps the program's
    functions, names, plans and tables; and if its tables fit the address space
    the module is structurally valid, so the check [compile_with] makes of its own
    output passes.  In particular every jump is patched to an instruction of its
    body, no loop jump is left open, and every slot, string, callee, glue body
    and write-back target an instruction names is there. *)
Theorem compile_succeeds {host : Host} (n fuel : nat) (p : IrProgram) (engines : list Execution) :
  program_ok n p engines -> (n <= fuel)%nat ->
  exists m, build_module fuel p engines = Ok m /\ built p engines m /\
    (tables_fit m -> Valid m /\ compile_with fuel p engines = Ok m).
Proof.
  intros Hp Hfuel. destruct (build_module_ok n p engines Hp fuel Hfuel) as (m & Hb & Hm). exists m. split; [done|].
  split; [done|]. intros Hfit. pose proof (valid_built n p engines Hp m Hm) as Hv. split; [done|].
  unfold compile_with. rewrite Hb. cbn. by rewrite (proj2 (validate_spec m (widths_hold n p engines Hp m Hm Hfit) Hfit) Hv).
Qed.

(** [while true { print("hi"); break }]. *)
Definition compile_sample : IrProgram := {|
  ir_functions := [{| if_name := [x6d]; if_param_count := 0; locals := [T_String]; native_state_locals := [];
    return_type := T_Void; if_execution := Runtime; is_main_thread := false; by_reference_params := [];
    by_pointer_params := []; body := [S_While 2%nat [S_Let 0 0%nat; S_Eval 1%nat; S_ReleaseLocals [0]; S_Break]] |}];
  ir_types := empty_types; descriptors := []; ir_main := Some 0; main_thread_lifecycles := []; ir_exports := [];
  ir_foreign_imports := []; ir_foreign_aggregates := ForeignAggregates_new; ir_foreign_callbacks := [];
  exprs := [E_Str [x68]; E_Call Callee_Print [3%nat] T_Void []; E_Bool true; E_Local 0]; ir_constants := [] |}.

Definition compiled_sample : list Instruction :=
  [I_ConstBool true; I_JumpIfFalse 11; I_ConstStr 0; I_StoreLocal 0; I_LoadLocal 0; I_Print; I_Pop;
   I_TakeLocal 0; I_Pop; I_Jump 11; I_Jump 0; I_ReturnVoid].

Lemma compile_sample_ok : @program_ok host64 4 compile_sample [Runtime].
Proof.
  assert (slot_ok (hd (Build_IrFunction [] 0 [] [] T_Void Runtime false [] [] []) (ir_functions compile_sample)) 0) as Hslot
    by (repeat split; cbn; lia).
  split; cbn.
  - intros [|[|]] f [= <-]. split; cbn; try done; try lia.
    + repeat split; cbn; try done; try lia. constructor; [by exists true|constructor].
    + intros _. constructor; [|constructor]. split; [by eexists|]. constructor; [|constructor; [|constructor; [|constructor; [|constructor]]]].
      * split; [exact Hslot|by eexists].
      * eexists. split; [done|]. split; [|done]. constructor; [|constructor]. eexists. split; [done|exact Hslot].
      * constructor; [exact Hslot|constructor].
      * cbn. lia.
  - repeat split; lia.
  - constructor.
  - constructor.
  - constructor.
  - constructor.
  - cbn. lia.
Qed.

Lemma compile_succeeds_witness : exists m,
  @build_module host64 9 compile_sample [Runtime] = Ok m /\ ModuleFormat.code <$> functions m = [compiled_sample] /\
  @compile_with host64 9 compile_sample [Runtime] = Ok m.
Proof.
  destruct (@compile_succeeds host64 4 9 compile_sample [Runtime] compile_sample_ok ltac:(lia)) as (m & Hb & _ & Hv).
  exists m. split; [exact Hb|]. vm_compute in Hb. injection Hb as Hm. split; [by subst m|].
  apply Hv. subst m. repeat split; cbn; try lia. constructor; [|constructor]. split; cbn; [lia|].
  intros order glue Hin. exfalso. repeat (apply elem_of_cons in Hin as [Hin|Hin]; [discriminate|]). by apply not_elem_of_nil in Hin.
Defined.

Lemma export_table_crosses_witness :
  let p := {| ir_functions := []; ir_types := {| structs := [{| sd_name := [x50]; sd_fields := []; c_layout := false; drop_glue := None |}];
                enums := []; array_elements := [] |};
              descriptors := []; ir_main := None; main_thread_lifecycles := [];
              ir_exports := [{| ie_kira_name := [x66]; ie_exported_name := [x67]; ie_function := 0;
                ie_params := [T_Struct 0; T_INT]; ie_result := T_Struct 0 |}];
              ir_foreign_imports := []; ir_foreign_aggregates := ForeignAggregates_new; ir_foreign_callbacks := [];
              exprs := []; ir_constants := [] |} in
  exists table, build_export_table p = Ok table /\ classes table = [[x50]] /\ NoDup (classes table).
Proof.
  intros p. destruct (export_table_crosses p) as (table & Ht & Hnd & _); [by repeat constructor|cbn; lia|].
  exists table. split; [exact Ht|]. split; [|exact Hnd]. vm_compute in Ht. by injection Ht as <-.
Defined.
