(* ===== verification/DecimalNumber.v ===== *)
(** * The exact decimal behind [Number]

    [kira-runtime-abi/src/number.rs]: an [i64] mantissa and a decimal scale,
    computed with by both engines.

    [value] is the rational a decimal denotes.  Sums and differences are exact
    and, when the scales differ, fail only for a value no decimal has
    ([sums_exact]); a product is the half-to-even rounding of the exact product
    at the combined scale capped at [MAX_SCALE] ([multiply_rounds]); a quotient
    is the half-to-even rounding of the exact quotient at the largest scale
    whose result fits ([divide_rounds]), whatever the floating-point estimate
    said ([hinted_divide_exact]); comparison is the order of the values
    ([compare_is_value_order]); and the printed text reads back to the same
    value in lowest terms ([text_roundtrip]).  [sum_depends_on_spelling] shows
    that equal values written at different scales can add differently.

    [to_f64] is [VmOps.decimal_to_f64], next to the other operations on floats;
    [from_f64] goes through the float formatter and is not modelled. *)

From Stdlib Require Import QArith Qabs Zquot Floats.SpecFloat.
From S2P Require Import Prelude Foreign.

#[local] Open Scope Z_scope.

Definition MAX_SCALE : Z := 18.

Inductive DecimalError :=
| DecimalError_Overflow
| DecimalError_DivideByZero
| DecimalError_Parse.

Record Decimal := { mantissa : Z; scale : Z }.

#[export] Instance Decimal_eq_dec : EqDecision Decimal.
Proof. solve_decision. Defined.

(** Checked [i128] and [i64] results. *)
Definition fit128 (z : Z) : option Z := if decide (signed_ok 128 z) then Some z else None.
Definition fit64 (z : Z) : option Z := if decide (i64_ok z) then Some z else None.

(** The loop of [pow10]. *)
Fixpoint pow10_loop (power : nat) (v : Z) : option Z :=
  match power with
  | O => Some v
  | S power => v ← fit128 (v * 10); pow10_loop power v
  end.

(** Ten to the [power] as an [i128]. *)
Definition pow10 (power : Z) : option Z := pow10_loop (Z.to_nat power) 1.

Definition narrow (m s : Z) : result DecimalError Decimal :=
  m ← ok_or (fit64 m) DecimalError_Overflow; Ok {| mantissa := m; scale := s |}.

(** [while scale > 0 && mantissa % 10 == 0]: the recursion is on the scale. *)
Fixpoint shed_zeros (m : Z) (s : nat) : Z * Z :=
  match s with
  | O => (m, 0)
  | S s' => if Z.rem m 10 =? 0 then shed_zeros (Z.quot m 10) s' else (m, Z.of_nat s)
  end.

Definition narrow_reduced (m s : Z) : result DecimalError Decimal :=
  let '(m, s) := shed_zeros m (Z.to_nat s) in narrow m s.

(** The even test is on the truncated remainder, as in the source. *)
Definition is_odd (z : Z) : bool := negb (Z.rem z 2 =? 0).

Definition round_quotient_half_even (quotient remainder numerator denominator : Z) :
    result DecimalError Z :=
  if remainder =? 0 then Ok quotient else
  let twice := Z.abs remainder * 2 in
  if decide (unsigned_ok 128 twice) then
    let round_away :=
      match twice ?= Z.abs denominator with
      | Gt => true
      | Lt => false
      | Eq => is_odd quotient
      end in
    if round_away then
      let sign := if xorb (numerator <? 0) (denominator <? 0) then -1 else 1 in
      ok_or (fit128 (quotient + sign)) DecimalError_Overflow
    else Ok quotient
  else Err DecimalError_Overflow.

Definition divide_round_half_even (numerator denominator : Z) : result DecimalError Z :=
  round_quotient_half_even (Z.quot numerator denominator) (Z.rem numerator denominator)
    numerator denominator.

(** *** The floating-point estimate *)

(** [z as f64], rounding to nearest, ties to even. *)
Definition f64_of_Z (z : Z) : spec_float := binary_normalize 53 1024 z 0 false.

(** [f64::round] of a finite float, as the integer it is: halves away from
    zero.  [None] when the float is not finite. *)
Definition f64_round (f : spec_float) : option Z :=
  match f with
  | S754_zero _ => Some 0
  | S754_finite s m e =>
    let magnitude :=
      if 0 <=? e then Zpos m * 2 ^ e else (Zpos m * 2 + 2 ^ (- e)) / (2 * 2 ^ (- e)) in
    Some (if s then - magnitude else magnitude)
  | _ => None
  end.

(** [9.007e15], past which the estimate is not used. *)
Definition ESTIMATE_LIMIT : Z := 9007000000000000.

(** The unit-step correction, while the budget lasts. *)
Fixpoint correct_estimate (budget : nat) (numerator denominator quotient remainder : Z) :
    option (Z * Z) :=
  let valid := (Z.abs remainder <? Z.abs denominator) &&
    ((remainder =? 0) || Bool.eqb (remainder <? 0) (numerator <? 0)) in
  if valid then Some (quotient, remainder) else
  match budget with
  | O => None
  | S budget =>
    if Bool.eqb (0 <? remainder) (0 <? denominator) then
      quotient ← fit128 (quotient + 1);
      correct_estimate budget numerator denominator quotient (remainder - denominator)
    else
      quotient ← fit128 (quotient - 1);
      correct_estimate budget numerator denominator quotient (remainder + denominator)
  end.

(** What follows the estimate in [divide_round_half_even_hinted]. *)
Definition divide_from_estimate (rounded numerator denominator : Z) : option Z :=
  if ESTIMATE_LIMIT <=? Z.abs rounded then None else
  product ← fit128 (rounded * denominator);
  remainder ← fit128 (numerator - product);
  p ← correct_estimate 4 numerator denominator rounded remainder;
  match round_quotient_half_even p.1 p.2 numerator denominator with
  | Ok q => Some q
  | Err _ => None
  end.

Definition divide_round_half_even_hinted (numerator denominator : Z) : option Z :=
  rounded ← f64_round (SFdiv 53 1024 (f64_of_Z numerator) (f64_of_Z denominator));
  divide_from_estimate rounded numerator denominator.

(** ** Construction and scales *)

Definition from_i64 (v : Z) : Decimal := {| mantissa := v; scale := 0 |}.

Definition wide_at (d : Decimal) (target : Z) : option Z :=
  factor ← pow10 (target - scale d); fit128 (mantissa d * factor).

Definition align (a b : Decimal) : result DecimalError (Z * Z * Z) :=
  let s := Z.max (scale a) (scale b) in
  lhs ← ok_or (wide_at a s) DecimalError_Overflow;
  rhs ← ok_or (wide_at b s) DecimalError_Overflow;
  Ok (lhs, rhs, s).

(** ** Text *)

(** The UTF-8 of each character of Unicode's [White_Space]. *)
Definition WHITE_SPACE : list rstring :=
  [[x09]; [x0a]; [x0b]; [x0c]; [x0d]; [x20]; [xc2; x85]; [xc2; xa0]; [xe1; x9a; x80];
   [xe2; x80; x80]; [xe2; x80; x81]; [xe2; x80; x82]; [xe2; x80; x83]; [xe2; x80; x84];
   [xe2; x80; x85]; [xe2; x80; x86]; [xe2; x80; x87]; [xe2; x80; x88]; [xe2; x80; x89];
   [xe2; x80; x8a]; [xe2; x80; xa8]; [xe2; x80; xa9]; [xe2; x80; xaf]; [xe2; x81; x9f];
   [xe3; x80; x80]].

Fixpoint strip_prefix (p text : rstring) : option rstring :=
  match p, text with
  | [], _ => Some text
  | b :: p, c :: text => if Byte.eqb b c then strip_prefix p text else None
  | _ :: _, [] => None
  end.

(** Drops spellings of [spaces] off the front; each drop shortens the text. *)
Fixpoint strip_spaces (fuel : nat) (spaces : list rstring) (text : rstring) : rstring :=
  match fuel with
  | O => text
  | S fuel =>
    match list_find (fun p => is_Some (strip_prefix p text)) spaces with
    | Some (_, p) => strip_spaces fuel spaces (default text (strip_prefix p text))
    | None => text
    end
  end.

(** [str::trim]: a suffix of valid UTF-8 that spells a character is one. *)
Definition trim (text : rstring) : rstring :=
  let text := strip_spaces (length text) WHITE_SPACE text in
  rev (strip_spaces (length text) (map (@rev byte) WHITE_SPACE) (rev text)).

Definition CHAR_MINUS : byte := x2d.
Definition CHAR_PLUS : byte := x2b.
Definition CHAR_POINT : byte := x2e.
Definition CHAR_ZERO : byte := x30.

(** [text.split_once('.')]. *)
Fixpoint split_once (text : rstring) : option (rstring * rstring) :=
  match text with
  | [] => None
  | b :: text =>
    if Byte.eqb b CHAR_POINT then Some ([], text) else
    p ← split_once text; Some (b :: p.1, p.2)
  end.

Definition is_ascii_digit (b : byte) : bool :=
  (byte_to_Z CHAR_ZERO <=? byte_to_Z b) && (byte_to_Z b <=? byte_to_Z CHAR_ZERO + 9).

(** The digit loop of [parse]. *)
Fixpoint parse_digits (m : Z) (text : rstring) : result DecimalError Z :=
  match text with
  | [] => Ok m
  | b :: text =>
    if is_ascii_digit b then
      m ← ok_or (v ← fit128 (m * 10); fit128 (v + (byte_to_Z b - byte_to_Z CHAR_ZERO)))
            DecimalError_Overflow;
      parse_digits m text
    else Err DecimalError_Parse
  end.

Definition parse (text : rstring) : result DecimalError Decimal :=
  let text := trim text in
  let '(negative, rest) :=
    match strip_prefix [CHAR_MINUS] text with
    | Some rest => (true, rest)
    | None => (false, default text (strip_prefix [CHAR_PLUS] text))
    end in
  if is_nil rest then Err DecimalError_Parse else
  let '(integer, fraction) := default (rest, []) (split_once rest) in
  if is_nil integer && is_nil fraction then Err DecimalError_Parse else
  m ← parse_digits 0 (integer ++ fraction);
  let s := Z.of_nat (length fraction) in
  if decide (s < 2 ^ 32) then
    if MAX_SCALE <? s then Err DecimalError_Parse else
    let m := if negative then - m else m in
    m ← ok_or (fit64 m) DecimalError_Overflow;
    Ok {| mantissa := m; scale := s |}
  else Err DecimalError_Overflow.

Definition without_trailing_zeros (d : Decimal) : Z * Z := shed_zeros (mantissa d) (Z.to_nat (scale d)).

Definition digit (z : Z) : byte := byte_of_Z (byte_to_Z CHAR_ZERO + z).

(** [u64::to_string], most significant digit first; twenty digits are enough
    for a [u64]. *)
Fixpoint digits (fuel : nat) (z : Z) : rstring :=
  match fuel with
  | O => []
  | S fuel => if z <? 10 then [digit z] else digits fuel (z / 10) ++ [digit (z mod 10)]
  end.

Definition u64_to_string (z : Z) : rstring := digits 20 z.

(** [i64::to_string]. *)
Definition i64_to_string (z : Z) : rstring :=
  if z <? 0 then CHAR_MINUS :: u64_to_string (- z) else u64_to_string z.

Definition to_decimal_string (d : Decimal) : rstring :=
  let '(m, s) := without_trailing_zeros d in
  if s =? 0 then i64_to_string m else
  let ds := u64_to_string (Z.abs m) in
  let s := Z.to_nat s in
  (if m <? 0 then [CHAR_MINUS] else []) ++
  if (s <? length ds)%nat then
    let point := (length ds - s)%nat in
    take point ds ++ [CHAR_POINT] ++ drop point ds
  else
    [CHAR_ZERO; CHAR_POINT] ++ replicate (s - length ds) CHAR_ZERO ++ ds.

(** ** Arithmetic *)

Definition add (a b : Decimal) : result DecimalError Decimal :=
  if scale a =? scale b then
    m ← ok_or (fit64 (mantissa a + mantissa b)) DecimalError_Overflow;
    Ok {| mantissa := m; scale := scale a |}
  else
    p ← align a b;
    let '(lhs, rhs, s) := p in
    sum ← ok_or (fit128 (lhs + rhs)) DecimalError_Overflow;
    narrow_reduced sum s.

Definition subtract (a b : Decimal) : result DecimalError Decimal :=
  if scale a =? scale b then
    m ← ok_or (fit64 (mantissa a - mantissa b)) DecimalError_Overflow;
    Ok {| mantissa := m; scale := scale a |}
  else
    p ← align a b;
    let '(lhs, rhs, s) := p in
    difference ← ok_or (fit128 (lhs - rhs)) DecimalError_Overflow;
    narrow_reduced difference s.

Definition round_i128_to_scale (m s target : Z) : result DecimalError Z :=
  if s <=? target then
    factor ← ok_or (pow10 (target - s)) DecimalError_Overflow;
    ok_or (fit128 (m * factor)) DecimalError_Overflow
  else
    divisor ← ok_or (pow10 (s - target)) DecimalError_Overflow;
    let quotient := Z.quot m divisor in
    let remainder := Z.abs (Z.rem m divisor) in
    let half := Z.quot divisor 2 in
    let round_up :=
      match remainder ?= half with
      | Gt => true
      | Lt => false
      | Eq => is_odd quotient
      end in
    if round_up then
      let sign := if m <? 0 then -1 else 1 in
      ok_or (fit128 (quotient + sign)) DecimalError_Overflow
    else Ok quotient.

Definition multiply (a b : Decimal) : result DecimalError Decimal :=
  let s := scale a + scale b in
  let wide :=
    let target := Z.min s MAX_SCALE in
    m ← round_i128_to_scale (mantissa a * mantissa b) s target;
    narrow m target in
  if s <=? MAX_SCALE then
    match fit64 (mantissa a * mantissa b) with
    | Some m => Ok {| mantissa := m; scale := s |}
    | None => wide
    end
  else wide.

Definition negate (d : Decimal) : result DecimalError Decimal :=
  m ← ok_or (fit64 (- mantissa d)) DecimalError_Overflow;
  Ok {| mantissa := m; scale := scale d |}.

(** [u32::try_from]. *)
Definition u32_try_from (z : Z) : option Z := if decide (u32_ok z) then Some z else None.

Definition quotient_at_scale (self_mantissa other_mantissa power s : Z) : option Decimal :=
  p ← (if 0 <=? power then
         power ← u32_try_from power;
         factor ← pow10 power;
         numerator ← fit128 (self_mantissa * factor);
         Some (numerator, other_mantissa)
       else
         power ← u32_try_from (- power);
         factor ← pow10 power;
         denominator ← fit128 (other_mantissa * factor);
         Some (self_mantissa, denominator));
  let '(numerator, denominator) := p in
  m ← (match divide_round_half_even_hinted numerator denominator with
       | Some m => Some m
       | None =>
         match divide_round_half_even numerator denominator with Ok m => Some m | Err _ => None end
       end);
  m ← fit64 m; Some {| mantissa := m; scale := s |}.

(** The loop of [divide], trying the scales from [s] down. *)
Fixpoint divide_from (a b : Decimal) (s : nat) : result DecimalError Decimal :=
  match quotient_at_scale (mantissa a) (mantissa b) (scale b - scale a + Z.of_nat s) (Z.of_nat s) with
  | Some d => Ok d
  | None => match s with O => Err DecimalError_Overflow | S s => divide_from a b s end
  end.

Definition divide (a b : Decimal) : result DecimalError Decimal :=
  if mantissa b =? 0 then Err DecimalError_DivideByZero else divide_from a b (Z.to_nat MAX_SCALE).

Definition round_to_scale (d : Decimal) (target : Z) : result DecimalError Decimal :=
  m ← round_i128_to_scale (mantissa d) (scale d) target; narrow m target.

Definition compare (a b : Decimal) : result DecimalError comparison :=
  p ← align a b; let '(lhs, rhs, _) := p in Ok (lhs ?= rhs).

Definition equals (a b : Decimal) : result DecimalError bool :=
  c ← compare a b; Ok (match c with Eq => true | _ => false end).

Definition to_i64 (d : Decimal) : result DecimalError Z :=
  if scale d =? 0 then Ok (mantissa d) else
  divisor ← ok_or (pow10 (scale d)) DecimalError_Overflow;
  ok_or (fit64 (Z.quot (mantissa d) divisor)) DecimalError_Overflow.

(** ** What a decimal denotes *)

(** A decimal as the source keeps one: an [i64] mantissa and a bounded scale. *)
Definition decimal_ok (d : Decimal) : Prop := i64_ok (mantissa d) /\ 0 <= scale d <= MAX_SCALE.

Definition value (d : Decimal) : Q := inject_Z (mantissa d) / inject_Z (10 ^ scale d).

(** [q] is [n / d] rounded to the nearest integer, a tie going to the even
    one. *)
Definition nearest_even (n d q : Z) : Prop :=
  2 * Z.abs (n - q * d) <= Z.abs d /\ (2 * Z.abs (n - q * d) = Z.abs d -> Z.even q = true).

(** [d] is [x] rounded half-to-even to [scale d] fractional digits. *)
Definition rounds (x : Q) (d : Decimal) : Prop :=
  let e := Qabs (x * inject_Z (10 ^ scale d) - inject_Z (mantissa d)) in
  (2 * e <= 1 /\ (2 * e == 1 -> Z.even (mantissa d) = true))%Q.

(** In lowest terms: no trailing fractional zero. *)
Definition reduced (d : Decimal) : Prop := scale d = 0 \/ Z.rem (mantissa d) 10 <> 0.

(** ** Checked words *)

Lemma fit128_Some z v : fit128 z = Some v <-> v = z /\ signed_ok 128 z.
Proof. unfold fit128. case_decide; split; [intros [= <-]; done|by intros [-> _]|done|by intros [_ ?]]. Qed.

Lemma fit128_ok z : signed_ok 128 z -> fit128 z = Some z.
Proof. intros. by apply fit128_Some. Qed.

Lemma fit64_Some z v : fit64 z = Some v <-> v = z /\ i64_ok z.
Proof. unfold fit64. case_decide; split; [intros [= <-]; done|by intros [-> _]|done|by intros [_ ?]]. Qed.

Lemma fit64_None z : fit64 z = None <-> ~ i64_ok z.
Proof. unfold fit64. by case_decide. Qed.

Lemma pow10_pos n : 0 < 10 ^ Z.of_nat n.
Proof. apply Z.pow_pos_nonneg; lia. Qed.

Lemma pow10_loop_spec n v : 0 < v -> v * 10 ^ Z.of_nat n < 2 ^ 127 ->
  pow10_loop n v = Some (v * 10 ^ Z.of_nat n).
Proof.
  revert v. induction n as [|n IH]; intros v Hv Hb; cbn [pow10_loop].
  { by rewrite Z.mul_1_r. }
  pose proof (pow10_pos n). rewrite Nat2Z.inj_succ, Z.pow_succ_r in * by lia.
  rewrite fit128_ok by (unfold signed_ok; nia).
  change (Some (v * 10) ≫= _) with (pow10_loop n (v * 10)). rewrite IH by nia. f_equal. ring.
Qed.

Lemma pow10_loop_Some n v f : pow10_loop n v = Some f -> f = v * 10 ^ Z.of_nat n.
Proof.
  revert v. induction n as [|n IH]; intros v; cbn [pow10_loop]; [intros [= <-]; by rewrite Z.mul_1_r|].
  destruct (fit128 (v * 10)) as [w|] eqn:E; [|done]. apply fit128_Some in E as [-> _].
  intros H%IH. rewrite Nat2Z.inj_succ, Z.pow_succ_r by lia. lia.
Qed.

Lemma pow10_Some p f : 0 <= p -> pow10 p = Some f -> f = 10 ^ p.
Proof. intros Hp H%pow10_loop_Some. rewrite Z2Nat.id in H by done. lia. Qed.

Lemma pow10_spec p : 0 <= p <= 38 -> pow10 p = Some (10 ^ p).
Proof.
  intros Hp. unfold pow10. rewrite pow10_loop_spec; rewrite ?Z2Nat.id by lia; [f_equal; lia|lia|].
  assert (10 ^ p <= 10 ^ 38) by (apply Z.pow_le_mono_r; lia). assert (10 ^ 38 < 2 ^ 127) by reflexivity. lia.
Qed.

Lemma pow10_step a b : 0 <= a <= b -> 10 ^ b = 10 ^ a * 10 ^ (b - a).
Proof. intros. rewrite <- Z.pow_add_r by lia. f_equal. lia. Qed.

Lemma pow_pos s : 0 <= s -> 0 < 10 ^ s.
Proof. intros. apply Z.pow_pos_nonneg; lia. Qed.

(** ** Values *)

Lemma inject_pow_nonzero s : 0 <= s -> ~ (inject_Z (10 ^ s) == 0)%Q.
Proof. intros Hs. pose proof (pow_pos s Hs). unfold Qeq. cbn. lia. Qed.

Lemma value_at d k : 0 <= scale d <= k ->
  (value d == inject_Z (mantissa d * 10 ^ (k - scale d)) / inject_Z (10 ^ k))%Q.
Proof.
  intros Hk. unfold value. rewrite (pow10_step (scale d) k) by lia. rewrite !inject_Z_mult.
  pose proof (inject_pow_nonzero (scale d)). pose proof (inject_pow_nonzero (k - scale d)).
  field. split; [apply H0|apply H]; lia.
Qed.

Lemma value_eq a b k : 0 <= scale a <= k -> 0 <= scale b <= k ->
  (value a == value b)%Q <-> mantissa a * 10 ^ (k - scale a) = mantissa b * 10 ^ (k - scale b).
Proof.
  intros Ha Hb. rewrite (value_at a k), (value_at b k) by done.
  pose proof (inject_pow_nonzero k ltac:(lia)) as Hk. split.
  - intros H. apply inject_Z_injective. rewrite <- (Qmult_div_r (inject_Z (mantissa a * _)) _ Hk).
    rewrite <- (Qmult_div_r (inject_Z (mantissa b * _)) _ Hk). by rewrite H.
  - by intros ->.
Qed.

(** ** Rounding *)

Lemma inject_pos_iff (a b : Z) : (inject_Z a <= inject_Z b)%Q <-> a <= b.
Proof. by rewrite <- Zle_Qle. Qed.

(** The error of [q] against [n / d], over the denominator's magnitude. *)
Lemma error_frac n d q : d <> 0 ->
  (Qabs (inject_Z n / inject_Z d - inject_Z q) == inject_Z (Z.abs (n - q * d)) / inject_Z (Z.abs d))%Q.
Proof.
  intros Hd. assert (~ (inject_Z d == 0)%Q) as Hdq by (intros H; apply Hd, inject_Z_injective, H).
  assert (inject_Z n / inject_Z d - inject_Z q == inject_Z (n - q * d) / inject_Z d)%Q as ->.
  { unfold Z.sub. rewrite inject_Z_plus, inject_Z_opp, inject_Z_mult. by field. }
  unfold Qdiv. by rewrite Qabs_Qmult, Qabs_Qinv.
Qed.

(** Rounding a rational whose scaled value is [n / d]. *)
Lemma rounds_iff x n d (r : Decimal) : d <> 0 ->
  (x * inject_Z (10 ^ scale r) == inject_Z n / inject_Z d)%Q ->
  rounds x r <-> nearest_even n d (mantissa r).
Proof.
  intros Hd Hx. unfold rounds, nearest_even. rewrite Hx, error_frac by done.
  set (a := Z.abs (n - mantissa r * d)). assert (0 < Z.abs d) as Hp by lia.
  assert (~ (inject_Z (Z.abs d) == 0)%Q) as Hdq by (unfold Qeq; cbn; lia).
  assert (2 * (inject_Z a / inject_Z (Z.abs d)) == inject_Z (2 * a) / inject_Z (Z.abs d))%Q as ->.
  { rewrite inject_Z_mult. change (inject_Z 2) with 2%Q. by field. }
  assert (1 == inject_Z (Z.abs d) / inject_Z (Z.abs d))%Q as H1 by (by field). f_equiv.
  - rewrite H1. unfold Qdiv. rewrite Qmult_le_r, inject_pos_iff; [done|].
    apply Qinv_lt_0_compat. change 0%Q with (inject_Z 0). by rewrite <- Zlt_Qlt.
  - assert ((inject_Z (2 * a) / inject_Z (Z.abs d) == 1)%Q <-> 2 * a = Z.abs d) as ->; [|done].
    split; intros H.
    + apply inject_Z_injective. rewrite <- (Qmult_1_r (inject_Z (Z.abs d))), <- H. by field.
    + rewrite H. by field.
Qed.

Lemma nearest_even_unique n d q1 q2 : d <> 0 -> nearest_even n d q1 -> nearest_even n d q2 -> q1 = q2.
Proof.
  intros Hd [H1 E1] [H2 E2]. destruct (decide (q1 = q2)) as [|Hne]; [done|]. exfalso.
  assert (Z.abs (q1 - q2) * Z.abs d = Z.abs ((n - q2 * d) - (n - q1 * d))) as Heq.
  { rewrite <- Z.abs_mul. f_equal. ring. }
  assert (Z.abs (q1 - q2) = 1 /\ 2 * Z.abs (n - q1 * d) = Z.abs d /\ 2 * Z.abs (n - q2 * d) = Z.abs d)
    as (Hq & ? & ?) by (assert (1 <= Z.abs (q1 - q2)) by lia; nia).
  specialize (E1 ltac:(lia)). specialize (E2 ltac:(lia)).
  apply Z.even_spec in E1 as [k1 ->]. apply Z.even_spec in E2 as [k2 ->]. lia.
Qed.

Lemma nearest_even_exact n d q : n = q * d -> nearest_even n d q \/ d = 0.
Proof. intros ->. destruct (decide (d = 0)); [by right|left]. unfold nearest_even. rewrite Z.sub_diag. cbn. lia. Qed.

Lemma is_odd_spec z : is_odd z = negb (Z.even z).
Proof.
  unfold is_odd. f_equal. apply eq_true_iff_eq. rewrite Z.eqb_eq, Z.even_spec. split.
  - intros H. exists (Z.quot z 2). pose proof (Z.quot_rem' z 2). lia.
  - intros [k ->]. rewrite Z.mul_comm. apply Z.rem_mul. lia.
Qed.

Lemma even_step q s : s = 1 \/ s = -1 -> Z.even (q + s) = negb (Z.even q).
Proof. intros [-> | ->]; rewrite Z.even_add; by destruct (Z.even q). Qed.

(** A truncated division: the remainder is short and has the numerator's sign. *)
Definition truncated (n d q r : Z) : Prop :=
  n = q * d + r /\ Z.abs r < Z.abs d /\ (r = 0 \/ (r < 0 <-> n < 0)).

Lemma quot_truncated n d : d <> 0 -> truncated n d (Z.quot n d) (Z.rem n d).
Proof.
  intros Hd. repeat split.
  - pose proof (Z.quot_rem' n d). lia.
  - by apply Z.rem_bound_abs.
  - pose proof (Z.rem_sign_nz n d Hd) as Hs. destruct (decide (Z.rem n d = 0)) as [|Hr]; [by left|right].
    specialize (Hs Hr). destruct (Z.sgn_spec (Z.rem n d)), (Z.sgn_spec n); lia.
Qed.

(** Where the half-to-even rounding of a truncated division lands. *)
Lemma truncated_nearest n d q r : d <> 0 -> truncated n d q r ->
  nearest_even n d
    (if match 2 * Z.abs r ?= Z.abs d with Gt => true | Lt => false | Eq => is_odd q end
     then q + (if xorb (n <? 0) (d <? 0) then -1 else 1) else q) \/ r = 0 /\ n = q * d.
Proof.
  intros Hd (Hn & Hr & Hs). destruct (decide (r = 0)) as [->|Hr0]; [right; lia|left].
  destruct Hs as [|Hs]; [done|]. set (s := if xorb (n <? 0) (d <? 0) then -1 else 1).
  assert (Z.abs (n - (q + s) * d) = Z.abs d - Z.abs r) as Haway.
  { subst s. destruct (Z.ltb_spec n 0), (Z.ltb_spec d 0); cbn [xorb]; lia. }
  assert (Z.abs (n - q * d) = Z.abs r) as Hstay by (f_equal; lia).
  assert (s = 1 \/ s = -1) as Hs1 by (subst s; destruct (xorb _ _); lia).
  unfold nearest_even. rewrite is_odd_spec. destruct (Z.compare_spec (2 * Z.abs r) (Z.abs d)) as [He|Hl|Hg].
  - destruct (Z.even q) eqn:Ev; cbn [negb].
    + rewrite Hstay. split; [lia|done].
    + rewrite Haway, even_step, Ev by done. split; [lia|done].
  - rewrite Hstay. split; lia.
  - rewrite Haway. split; lia.
Qed.

Lemma round_quotient_spec n d q r : d <> 0 -> signed_ok 128 n -> signed_ok 128 d -> truncated n d q r ->
  exists z, round_quotient_half_even q r n d = Ok z /\ nearest_even n d z.
Proof.
  intros Hd Hn128 Hd128 Ht. pose proof (truncated_nearest n d q r Hd Ht) as Hnear.
  destruct Ht as (Hn & Hr & Hs). unfold round_quotient_half_even.
  destruct (Z.eqb_spec r 0) as [->|Hr0].
  { exists q. split; [done|]. destruct (nearest_even_exact n d q); [lia|done|done]. }
  destruct Hnear as [Hnear|[? _]]; [|done]. rewrite (Z.mul_comm 2) in Hnear.
  unfold signed_ok in *. rewrite decide_True by (unfold unsigned_ok; lia).
  destruct (match Z.abs r * 2 ?= Z.abs d with Gt => true | Lt => false | Eq => is_odd q end).
  - rewrite fit128_ok; [by eexists|]. unfold signed_ok. destruct (xorb _ _); nia.
  - by exists q.
Qed.

Lemma divide_exact_spec n d : d <> 0 -> signed_ok 128 n -> signed_ok 128 d ->
  exists z, divide_round_half_even n d = Ok z /\ nearest_even n d z.
Proof. intros. apply round_quotient_spec; [done..|]. by apply quot_truncated. Qed.

(** One step of the option monad. *)
Ltac ob := cbn [mbind option_bind].

(** ** The estimate never matters *)

Lemma truncated_unique n d q r : d <> 0 -> truncated n d q r -> q = Z.quot n d /\ r = Z.rem n d.
Proof.
  intros Hd (Hn & Hr & Hs). apply Zquot_mod_unique_full; [|lia]. unfold Zquot.Remainder. lia.
Qed.

Lemma correct_estimate_truncated budget n d q r q' r' :
  n = q * d + r -> correct_estimate budget n d q r = Some (q', r') -> truncated n d q' r'.
Proof.
  revert q r. induction budget as [|budget IH]; intros q r Hn; cbn [correct_estimate];
    destruct (_ && _) eqn:Hv.
  1, 3: intros [= <- <-]; apply andb_true_iff in Hv as [Hr%Z.ltb_lt Hs%orb_true_iff]; split; [done|];
    split; [done|]; destruct Hs as [Hs%Z.eqb_eq|Hs%Bool.eqb_prop]; [by left|right];
    destruct (Z.ltb_spec r 0), (Z.ltb_spec n 0); lia || done.
  - done.
  - destruct (Bool.eqb (0 <? r) (0 <? d)); (destruct (fit128 _) as [w|] eqn:E; cbn; [|discriminate]); apply fit128_Some in E as [-> _];
      intros H; (eapply IH; [|exact H]); lia.
Qed.

Lemma divide_from_estimate_exact rounded n d q : d <> 0 ->
  divide_from_estimate rounded n d = Some q -> divide_round_half_even n d = Ok q.
Proof.
  intros Hd. unfold divide_from_estimate. destruct (_ <=? _); [done|].
  destruct (fit128 (rounded * d)) as [w|] eqn:E1; ob; [|discriminate]. apply fit128_Some in E1 as [-> _]. ob.
  destruct (fit128 (n - rounded * d)) as [w|] eqn:E2; ob; [|discriminate]. apply fit128_Some in E2 as [-> _]. ob.
  destruct (correct_estimate 4 n d rounded (n - rounded * d)) as [[q' r']|] eqn:E3; ob; [|discriminate]. ob.
  apply correct_estimate_truncated in E3; [|lia].
  destruct (truncated_unique n d q' r' Hd E3) as [-> ->]. unfold divide_round_half_even.
  destruct (round_quotient_half_even _ _ n d); [by intros [= ->]|done].
Qed.

Lemma hinted_exact n d q : d <> 0 ->
  divide_round_half_even_hinted n d = Some q -> divide_round_half_even n d = Ok q.
Proof.
  intros Hd. unfold divide_round_half_even_hinted. destruct (f64_round _) as [r|]; cbn; [|discriminate].
  by apply divide_from_estimate_exact.
Qed.

(** ** Division *)

Lemma quotient_scaled a b s power : 0 <= scale a -> 0 <= scale b -> 0 <= s -> mantissa b <> 0 ->
  power = scale b - scale a + s ->
  let n := if 0 <=? power then mantissa a * 10 ^ power else mantissa a in
  let d := if 0 <=? power then mantissa b else mantissa b * 10 ^ (- power) in
  (value a / value b * inject_Z (10 ^ s) == inject_Z n / inject_Z d)%Q /\ d <> 0.
Proof.
  intros Ha Hb Hs Hm Hp. assert (~ (inject_Z (mantissa b) == 0)%Q) as Hmq.
  { intros H. by apply Hm, inject_Z_injective. }
  pose proof (inject_pow_nonzero _ Ha) as Hqa. pose proof (inject_pow_nonzero _ Hb) as Hqb. unfold value.
  destruct (Z.leb_spec 0 power) as [Hpos|Hneg]; cbn zeta; (split; [|pose proof (pow_pos (- power)); nia]).
  - assert (10 ^ scale b * 10 ^ s = 10 ^ power * 10 ^ scale a) as He
      by (rewrite <- !Z.pow_add_r by lia; f_equal; lia).
    apply (f_equal inject_Z) in He. rewrite !inject_Z_mult in He. rewrite inject_Z_mult.
    transitivity (inject_Z (mantissa a) * (inject_Z (10 ^ scale b) * inject_Z (10 ^ s))
                  / (inject_Z (10 ^ scale a) * inject_Z (mantissa b)))%Q; [by field|]. rewrite He. by field.
  - assert (10 ^ scale a = 10 ^ (- power) * 10 ^ scale b * 10 ^ s) as He
      by (rewrite <- !Z.pow_add_r by lia; f_equal; lia).
    pose proof (inject_pow_nonzero (- power) ltac:(lia)) as Hqp.
    pose proof (inject_pow_nonzero s Hs) as Hqs.
    rewrite He, !inject_Z_mult. by field.
Qed.

Lemma u32_try_from_ok z : 0 <= z < 2 ^ 32 -> u32_try_from z = Some z.
Proof. intros H. unfold u32_try_from. by rewrite decide_True. Qed.

(** The numerator and denominator of one candidate scale, when they fit. *)
Lemma quotient_at_scale_unfold ma mb power s : -18 <= power <= 36 -> i64_ok ma -> i64_ok mb -> mb <> 0 ->
  let n := if 0 <=? power then ma * 10 ^ power else ma in
  let d := if 0 <=? power then mb else mb * 10 ^ (- power) in
  signed_ok 128 d /\
  quotient_at_scale ma mb power s =
    (n ← fit128 n; m ← (match divide_round_half_even n d with Ok m => Some m | Err _ => None end);
     m ← fit64 m; Some {| mantissa := m; scale := s |}).
Proof.
  intros Hp Ha Hb Hmb n d. unfold quotient_at_scale, signed_ok in *.
  assert (forall n d, d <> 0 -> match divide_round_half_even_hinted n d with
    | Some m => Some m
    | None => match divide_round_half_even n d with Ok m => Some m | Err _ => None end
    end = match divide_round_half_even n d with Ok m => Some m | Err _ => None end) as Hhint.
  { intros n' d' Hd'. destruct (divide_round_half_even_hinted n' d') eqn:E; [|done].
    by rewrite (hinted_exact n' d' _ Hd' E). }
  destruct (Z.leb_spec 0 power) as [Hpos|Hneg].
  - subst n d. split; [lia|]. rewrite u32_try_from_ok by lia. ob. rewrite pow10_spec by lia. ob.
    destruct (fit128 (ma * 10 ^ power)); [|done]. ob. by rewrite Hhint.
  - assert (0 < 10 ^ (- power) <= 10 ^ 18) as Hpw by (split; [apply pow_pos; lia|apply Z.pow_le_mono_r; lia]).
    assert (10 ^ 18 = 1000000000000000000) as E18 by reflexivity.
    assert (signed_ok 128 d) as Hd by (subst d; unfold signed_ok; nia). split; [done|].
    rewrite u32_try_from_ok by lia. ob. rewrite pow10_spec by lia. ob. fold d. rewrite fit128_ok by done. ob.
    subst n. rewrite fit128_ok by (unfold signed_ok; lia). ob. rewrite Hhint; [done|]. subst d. nia.
Qed.

Lemma quotient_at_scale_spec a b s : decimal_ok a -> decimal_ok b -> mantissa b <> 0 -> 0 <= s <= MAX_SCALE ->
  match quotient_at_scale (mantissa a) (mantissa b) (scale b - scale a + s) s with
  | Some c => scale c = s /\ i64_ok (mantissa c) /\ rounds (value a / value b) c
  | None => forall m, rounds (value a / value b) {| mantissa := m; scale := s |} -> ~ i64_ok m
  end.
Proof.
  intros [Ha Hsa] [Hb Hsb] Hmb Hs. unfold MAX_SCALE in *. set (power := scale b - scale a + s).
  destruct (quotient_at_scale_unfold (mantissa a) (mantissa b) power s ltac:(lia) Ha Hb Hmb) as [Hd128 ->].
  destruct (quotient_scaled a b s power ltac:(lia) ltac:(lia) ltac:(lia) Hmb eq_refl) as [Hx Hd].
  revert Hd128 Hx Hd. 
  set (n := if 0 <=? power then mantissa a * 10 ^ power else mantissa a).
  set (d := if 0 <=? power then mantissa b else mantissa b * 10 ^ (- power)).
  intros Hd128 Hx Hd. destruct (fit128 n) as [n'|] eqn:En; ob.
  - apply fit128_Some in En as [-> Hn128]. destruct (divide_exact_spec n d Hd Hn128 Hd128) as (z & -> & Hz). ob.
    destruct (fit64 z) as [z'|] eqn:Ez; ob.
    + apply fit64_Some in Ez as [-> Hz64]. split; [done|]. split; [done|]. by eapply rounds_iff.
    + intros m Hm%(rounds_iff _ n d); [|done..]. cbn in Hm.
      rewrite (nearest_even_unique n d m z) by done. by apply fit64_None.
  - intros m Hm%(rounds_iff _ n d); [|done..]. cbn in Hm. destruct Hm as [Hm _]. intros Hm64.
    assert (~ signed_ok 128 n) as Hn by (intros H; rewrite fit128_ok in En by done; done).
    unfold signed_ok in *. subst n d. destruct (0 <=? power).
    + assert (Z.abs (m * mantissa b) <= 2 ^ 63 * 2 ^ 63) by (rewrite Z.abs_mul; nia). lia.
    + lia.
Qed.

Lemma divide_from_spec a b s : decimal_ok a -> decimal_ok b -> mantissa b <> 0 -> (s <= 18)%nat ->
  match divide_from a b s with
  | Ok c => scale c <= Z.of_nat s /\ decimal_ok c /\ rounds (value a / value b) c /\
      forall k m, scale c < k <= Z.of_nat s ->
        rounds (value a / value b) {| mantissa := m; scale := k |} -> ~ i64_ok m
  | Err e => e = DecimalError_Overflow /\ forall k m, 0 <= k <= Z.of_nat s ->
      rounds (value a / value b) {| mantissa := m; scale := k |} -> ~ i64_ok m
  end.
Proof.
  intros Ha Hb Hm. assert (MAX_SCALE = 18) as Hmax by reflexivity.
  induction s as [|s IH]; intros Hs; cbn [divide_from].
  - pose proof (quotient_at_scale_spec a b (Z.of_nat 0) Ha Hb Hm ltac:(lia)) as Hq.
    destruct (quotient_at_scale _ _ _ _) as [c|].
    + destruct Hq as (Hsc & H64 & Hr). split; [lia|]. split; [split; [done|lia]|]. split; [done|]. intros; lia.
    + split; [done|]. intros k m Hk. replace k with (Z.of_nat 0) by lia. by apply Hq.
  - pose proof (quotient_at_scale_spec a b (Z.of_nat (S s)) Ha Hb Hm ltac:(lia)) as Hq.
    destruct (quotient_at_scale _ _ _ _) as [c|].
    + destruct Hq as (Hsc & H64 & Hr). split; [lia|]. split; [split; [done|lia]|]. split; [done|]. intros; lia.
    + specialize (IH ltac:(lia)). destruct (divide_from a b s) as [c|e].
      * destruct IH as (Hsc & Hok & Hr & Hmaxs). split; [lia|]. split; [done|]. split; [done|].
        intros k m Hk. destruct (decide (k = Z.of_nat (S s))) as [->|]; [apply Hq|apply Hmaxs; lia].
      * destruct IH as [-> IH]. split; [done|]. intros k m Hk.
        destruct (decide (k = Z.of_nat (S s))) as [->|]; [apply Hq|apply IH; lia].
Qed.

(** ** Sums *)

Lemma shed_zeros_spec m s m' s' : shed_zeros m s = (m', s') ->
  0 <= s' <= Z.of_nat s /\ m = m' * 10 ^ (Z.of_nat s - s') /\ (s' = 0 \/ Z.rem m' 10 <> 0).
Proof.
  revert m. induction s as [|s IH]; intros m; cbn [shed_zeros].
  { intros [= <- <-]. cbn. lia. }
  destruct (Z.eqb_spec (Z.rem m 10) 0) as [Hr|Hr].
  - intros (Hs & Hm & Hd)%IH. split; [lia|]. split; [|done].
    replace (Z.of_nat (S s) - s') with (Z.succ (Z.of_nat s - s')) by lia. rewrite Z.pow_succ_r by lia.
    pose proof (Z.quot_rem' m 10). lia.
  - intros [= <- <-]. rewrite Z.sub_diag, Z.mul_1_r. split; [lia|]. split; [done|by right].
Qed.

(** A reduced mantissa is the smallest that spells its value. *)
Lemma reduced_smallest c d : 0 <= scale c -> 0 <= scale d -> reduced c -> (value d == value c)%Q ->
  exists k, 0 < k /\ mantissa d = mantissa c * k.
Proof.
  intros Hc Hd Hred Hv. rewrite (value_eq d c (scale c + scale d)) in Hv by lia.
  replace (scale c + scale d - scale d) with (scale c) in Hv by lia.
  replace (scale c + scale d - scale c) with (scale d) in Hv by lia.
  pose proof (pow_pos _ Hc). pose proof (pow_pos _ Hd).
  destruct (decide (scale c <= scale d)) as [Hle|Hgt].
  - exists (10 ^ (scale d - scale c)). split; [apply pow_pos; lia|].
    rewrite (pow10_step (scale c) (scale d)) in Hv by lia. nia.
  - exfalso. destruct Hred as [|Hred]; [lia|]. apply Hred.
    rewrite (pow10_step (scale d) (scale c)) in Hv by lia.
    assert (mantissa c = mantissa d * 10 ^ (scale c - scale d)) as -> by nia.
    replace (scale c - scale d) with (Z.succ (scale c - scale d - 1)) by lia.
    rewrite Z.pow_succ_r by lia. rewrite Z.mul_assoc, (Z.mul_comm _ 10), <- Z.mul_assoc, Z.mul_comm.
    apply Z.rem_mul. lia.
Qed.

Lemma narrow_reduced_spec m s : 0 <= s <= MAX_SCALE ->
  match narrow_reduced m s with
  | Ok c => decimal_ok c /\ reduced c /\ (value c == inject_Z m / inject_Z (10 ^ s))%Q
  | Err e => e = DecimalError_Overflow /\
      forall d, decimal_ok d -> ~ (value d == inject_Z m / inject_Z (10 ^ s))%Q
  end.
Proof.
  intros Hs. unfold narrow_reduced, narrow. destruct (shed_zeros m (Z.to_nat s)) as [m' s'] eqn:E.
  apply shed_zeros_spec in E as (Hs' & Hm & Hred). rewrite Z2Nat.id in * by lia.
  set (c := {| mantissa := m'; scale := s' |}).
  assert (value c == inject_Z m / inject_Z (10 ^ s))%Q as Hv by (rewrite (value_at c s), Hm by (cbn; lia); done).
  destruct (fit64 m') as [m''|] eqn:E64; cbn.
  - apply fit64_Some in E64 as [-> H64]. split; [split; [done|cbn; lia]|done].
  - split; [done|]. intros d [Hd64 Hds] Hvd. rewrite <- Hv in Hvd.
    destruct (reduced_smallest c d) as (k & Hk & Hdk); [cbn; lia|lia|done|done|]. cbn in Hdk.
    apply fit64_None in E64. apply E64. unfold signed_ok in *. nia.
Qed.

Lemma pow18_le s : 0 <= s <= MAX_SCALE -> 0 < 10 ^ s <= 1000000000000000000.
Proof.
  intros Hs. split; [apply pow_pos; lia|].
  change 1000000000000000000 with (10 ^ 18). apply Z.pow_le_mono_r; unfold MAX_SCALE in *; lia.
Qed.

Lemma wide_at_spec d s : decimal_ok d -> scale d <= s <= MAX_SCALE ->
  wide_at d s = Some (mantissa d * 10 ^ (s - scale d)) /\
  Z.abs (mantissa d * 10 ^ (s - scale d)) <= 2 ^ 63 * 10 ^ 18.
Proof.
  intros [H64 Hd] Hs. unfold wide_at. rewrite pow10_spec by (unfold MAX_SCALE in *; lia). ob.
  pose proof (pow18_le (s - scale d)) as Hp. specialize (Hp ltac:(lia)). unfold signed_ok in *.
  assert (Z.abs (mantissa d * 10 ^ (s - scale d)) <= 2 ^ 63 * 10 ^ 18) as Hb
    by (rewrite Z.abs_mul; change (10 ^ 18) with 1000000000000000000; nia).
  split; [|done]. apply fit128_ok. unfold signed_ok. change (10 ^ 18) with 1000000000000000000 in Hb. lia.
Qed.

Lemma align_spec a b : decimal_ok a -> decimal_ok b ->
  let s := Z.max (scale a) (scale b) in
  exists x y, align a b = Ok (x, y, s) /\ Z.abs x <= 2 ^ 63 * 10 ^ 18 /\ Z.abs y <= 2 ^ 63 * 10 ^ 18 /\
    (value a == inject_Z x / inject_Z (10 ^ s))%Q /\ (value b == inject_Z y / inject_Z (10 ^ s))%Q.
Proof.
  intros Ha Hb s. pose proof Ha as [_ Hsa]. pose proof Hb as [_ Hsb].
  destruct (wide_at_spec a s Ha ltac:(lia)) as [Ea Ba]. destruct (wide_at_spec b s Hb ltac:(lia)) as [Eb Bb].
  eexists _, _. unfold align. fold s. rewrite Ea. cbn [ok_or mbind result_bind]. rewrite Eb.
  cbn [ok_or mbind result_bind]. split; [done|]. split; [done|]. split; [done|].
  split; apply value_at; lia.
Qed.

(** Both sums go through this: equal scales add their mantissas, others are
    aligned and reduced. *)
Lemma sum_spec (a b : Decimal) (op : Z -> Z -> Z) (qop : Q -> Q -> Q)
    (f : Decimal -> Decimal -> result DecimalError Decimal) :
  (forall x y, Z.abs (op x y) <= Z.abs x + Z.abs y) ->
  (forall x y s, 0 <= s -> (qop (inject_Z x / inject_Z (10 ^ s)) (inject_Z y / inject_Z (10 ^ s)) ==
                            inject_Z (op x y) / inject_Z (10 ^ s))%Q) ->
  Proper (Qeq ==> Qeq ==> Qeq) qop ->
  f a b = (if scale a =? scale b then
             m ← ok_or (fit64 (op (mantissa a) (mantissa b))) DecimalError_Overflow;
             Ok {| mantissa := m; scale := scale a |}
           else
             p ← align a b;
             let '(lhs, rhs, s) := p in
             sum ← ok_or (fit128 (op lhs rhs)) DecimalError_Overflow;
             narrow_reduced sum s) ->
  decimal_ok a -> decimal_ok b ->
  match f a b with
  | Ok c => decimal_ok c /\ (value c == qop (value a) (value b))%Q
  | Err e => e = DecimalError_Overflow /\
      (scale a <> scale b -> forall d, decimal_ok d -> ~ (value d == qop (value a) (value b))%Q)
  end.
Proof.
  intros Hop Hq Hproper -> Ha Hb. destruct (Z.eqb_spec (scale a) (scale b)) as [Heq|Hne].
  - pose proof Ha as [_ Hsa]. destruct (fit64 _) as [m|] eqn:E; cbn; [|done].
    apply fit64_Some in E as [-> H64]. split; [done|]. unfold value at 2 3. rewrite <- Heq, Hq by lia. done.
  - destruct (align_spec a b Ha Hb) as (x & y & -> & Hx & Hy & Hvx & Hvy). cbn [mbind result_bind].
    pose proof (Hop x y). change (10 ^ 18) with 1000000000000000000 in *.
    rewrite fit128_ok by (unfold signed_ok; lia). cbn [ok_or mbind result_bind].
    destruct Ha as [_ Hsa], Hb as [_ Hsb].
    pose proof (narrow_reduced_spec (op x y) (Z.max (scale a) (scale b)) ltac:(lia)) as Hn.
    assert (qop (value a) (value b) == inject_Z (op x y) / inject_Z (10 ^ Z.max (scale a) (scale b)))%Q as Hs
      by (rewrite Hvx, Hvy; apply Hq; lia).
    destruct (narrow_reduced _ _) as [c|e].
    + destruct Hn as (Hok & _ & Hv). split; [done|]. by rewrite Hs.
    + destruct Hn as [-> Hn]. split; [done|]. intros _ d Hd Hv. apply (Hn d Hd). by rewrite <- Hs.
Qed.

Lemma add_spec a b : decimal_ok a -> decimal_ok b ->
  match add a b with
  | Ok c => decimal_ok c /\ (value c == value a + value b)%Q
  | Err e => e = DecimalError_Overflow /\
      (scale a <> scale b -> forall d, decimal_ok d -> ~ (value d == value a + value b)%Q)
  end.
Proof.
  apply (sum_spec a b Z.add Qplus add); [lia| |apply _|done].
  intros x y s Hs. rewrite inject_Z_plus. field. by apply inject_pow_nonzero.
Qed.

Lemma subtract_spec a b : decimal_ok a -> decimal_ok b ->
  match subtract a b with
  | Ok c => decimal_ok c /\ (value c == value a - value b)%Q
  | Err e => e = DecimalError_Overflow /\
      (scale a <> scale b -> forall d, decimal_ok d -> ~ (value d == value a - value b)%Q)
  end.
Proof.
  apply (sum_spec a b Z.sub Qminus subtract); [lia| |apply _|done].
  intros x y s Hs. unfold Z.sub. rewrite inject_Z_plus, inject_Z_opp. field. by apply inject_pow_nonzero.
Qed.

(** ** Comparison *)

Lemma frac_compare x y d : 0 < d -> (inject_Z x / inject_Z d ?= inject_Z y / inject_Z d)%Q = (x ?= y).
Proof.
  intros Hd. destruct d as [|p|p]; [lia| |lia]. unfold Qcompare, Qdiv, Qmult, Qinv, inject_Z. cbn.
  rewrite !Z.mul_1_r. symmetry. by apply Zmult_compare_compat_r.
Qed.

Lemma compare_spec a b : decimal_ok a -> decimal_ok b -> compare a b = Ok (value a ?= value b)%Q.
Proof.
  intros Ha Hb. unfold compare. destruct (align_spec a b Ha Hb) as (x & y & -> & _ & _ & Hx & Hy).
  cbn [mbind result_bind]. rewrite Hx, Hy, frac_compare; [done|]. apply pow_pos. destruct Ha as [_ ?]. lia.
Qed.

(** ** Products *)

Lemma half_pow k : 0 < k -> 10 ^ k = 2 * Z.quot (10 ^ k) 2.
Proof.
  intros Hk. replace k with (Z.succ (k - 1)) by lia. rewrite Z.pow_succ_r by lia.
  replace (10 * 10 ^ (k - 1)) with (5 * 10 ^ (k - 1) * 2) by ring. rewrite Z.quot_mul by lia. ring.
Qed.

Lemma round_to_scale_spec m s target : 0 <= target < s -> s <= 36 -> Z.abs m <= 2 ^ 126 ->
  exists z, round_i128_to_scale m s target = Ok z /\ nearest_even m (10 ^ (s - target)) z.
Proof.
  intros Ht Hs Hm. unfold round_i128_to_scale. destruct (Z.leb_spec s target); [lia|].
  rewrite pow10_spec by lia. cbn [ok_or mbind result_bind]. set (d := 10 ^ (s - target)).
  assert (0 < d) as Hd by (apply pow_pos; lia). pose proof (half_pow (s - target) ltac:(lia)) as Hh. fold d in Hh.
  assert (d <> 0) as Hd0 by lia. pose proof (quot_truncated m d Hd0) as Htr.
  pose proof (truncated_nearest m d _ _ Hd0 Htr) as Hnear. destruct Htr as (Hn & Hr & _).
  assert ((Z.abs (Z.rem m d) ?= Z.quot d 2) = (2 * Z.abs (Z.rem m d) ?= Z.abs d)) as ->.
  { rewrite (Z.abs_eq d), Hh, <- Zmult_compare_compat_l by lia. rewrite <- Hh. done. }
  assert ((d <? 0) = false) as Hneg by (apply Z.ltb_ge; lia). rewrite Hneg, xorb_false_r in Hnear.
  destruct Hnear as [Hnear|[Hr0 Hex]].
  - destruct (match _ with Eq => _ | Lt => _ | Gt => _ end); [|by exists (Z.quot m d)].
    rewrite fit128_ok; [by eexists|]. unfold signed_ok. destruct (m <? 0); nia.
  - rewrite Hr0. exists (Z.quot m d). destruct (Z.compare_spec (2 * Z.abs 0) (Z.abs d)); [lia| |lia].
    split; [done|]. destruct (nearest_even_exact m d (Z.quot m d) Hex); [done|lia].
Qed.

Lemma product_value a b : 0 <= scale a -> 0 <= scale b ->
  (value a * value b == inject_Z (mantissa a * mantissa b) / inject_Z (10 ^ (scale a + scale b)))%Q.
Proof.
  intros Ha Hb. unfold value. rewrite Z.pow_add_r, !inject_Z_mult by done. field.
  split; by apply inject_pow_nonzero.
Qed.

(** Rounding a scaled product and narrowing it. *)
Lemma round_narrow_spec x w s target : (x == inject_Z w / inject_Z (10 ^ s))%Q ->
  0 <= target <= s -> s <= 36 -> target <= MAX_SCALE -> Z.abs w <= 2 ^ 126 ->
  match (m ← round_i128_to_scale w s target; narrow m target) with
  | Ok c => decimal_ok c /\ scale c = target /\ rounds x c
  | Err e => e = DecimalError_Overflow /\
      forall m, rounds x {| mantissa := m; scale := target |} -> ~ i64_ok m
  end.
Proof.
  intros Hx Ht Hs Hmax Hw.
  assert (exists z, round_i128_to_scale w s target = Ok z /\ nearest_even w (10 ^ (s - target)) z) as (z & -> & Hz).
  { destruct (decide (s = target)) as [->|]; [|apply round_to_scale_spec; lia].
    exists w. unfold round_i128_to_scale. rewrite Z.leb_refl, Z.sub_diag.
    change (pow10 0) with (Some 1). cbn [ok_or mbind result_bind].
    rewrite Z.mul_1_r, fit128_ok by (unfold signed_ok; lia). split; [done|].
    destruct (nearest_even_exact w (10 ^ 0) w); [lia|done|done]. }
  pose proof (pow_pos (s - target) ltac:(lia)) as Hpow. cbn [mbind result_bind].
  assert (forall m, rounds x {| mantissa := m; scale := target |} <-> nearest_even w (10 ^ (s - target)) m) as Hr.
  { intros m. apply (rounds_iff _ w (10 ^ (s - target)) {| mantissa := m; scale := target |}); [lia|].
    rewrite Hx. cbn [scale]. rewrite (pow10_step target s) by lia. rewrite inject_Z_mult. field.
    split; apply inject_pow_nonzero; lia. }
  unfold narrow. destruct (fit64 z) as [m|] eqn:E; cbn [ok_or mbind result_bind].
  - apply fit64_Some in E as [-> H64]. split; [split; [done|cbn; lia]|]. split; [done|by apply Hr].
  - split; [done|]. intros m Hm%Hr. apply fit64_None in E.
    rewrite (nearest_even_unique w (10 ^ (s - target)) m z); [done|lia|done|done].
Qed.

Lemma rounds_exact x d : 0 <= scale d -> (value d == x)%Q -> rounds x d.
Proof.
  intros Hs Hv. apply (rounds_iff x (mantissa d) 1); [done| |].
  - rewrite <- Hv. unfold value. change (inject_Z 1) with 1%Q. field. by apply inject_pow_nonzero.
  - destruct (nearest_even_exact (mantissa d) 1 (mantissa d)); lia || done.
Qed.

Lemma product_bound a b : i64_ok a -> i64_ok b -> Z.abs (a * b) <= 2 ^ 126.
Proof.
  intros Ha Hb. unfold signed_ok in *. rewrite Z.abs_mul. change (2 ^ 126) with (2 ^ 63 * 2 ^ 63).
  apply Z.mul_le_mono_nonneg; lia.
Qed.

(** ** Text *)

(** The characters of printed decimals. *)
Definition plain (b : byte) : bool := is_ascii_digit b || Byte.eqb b CHAR_MINUS || Byte.eqb b CHAR_POINT.

Lemma strip_spaces_id fuel spaces text :
  Forall (fun p => strip_prefix p text = None) spaces -> strip_spaces fuel spaces text = text.
Proof.
  intros H. destruct fuel as [|fuel]; [done|]. cbn [strip_spaces].
  destruct (list_find _ spaces) as [[i p]|] eqn:E; [|done].
  apply list_find_Some in E as (Hi & [t Ht] & _). rewrite Forall_lookup in H. rewrite (H i p Hi) in Ht. done.
Qed.

Lemma plain_not_space b text spaces :
  forallb (fun p => match p with c :: _ => negb (plain c) | [] => false end) spaces = true -> plain b = true ->
  Forall (fun p => strip_prefix p (b :: text) = None) spaces.
Proof.
  intros H Hb. apply Forall_forall. intros p Hc%list_elem_of_In%(proj1 (forallb_forall _ _) H). destruct p as [|c p]; [done|]. cbn.
  destruct (Byte.eqb c b) eqn:E; [|done]. apply Byte.byte_dec_bl in E as ->. by rewrite Hb in Hc.
Qed.

Lemma strip_plain fuel spaces text :
  forallb (fun p => match p with c :: _ => negb (plain c) | [] => false end) spaces = true ->
  Forall (fun b => plain b = true) text -> strip_spaces fuel spaces text = text.
Proof.
  intros Hsp Htext. apply strip_spaces_id. destruct text as [|b text].
  - apply Forall_forall. intros p Hc%list_elem_of_In%(proj1 (forallb_forall _ _) Hsp). by destruct p.
  - inversion Htext; subst. by apply plain_not_space.
Qed.

Lemma trim_plain text : Forall (fun b => plain b = true) text -> trim text = text.
Proof.
  intros H. unfold trim. rewrite (strip_plain _ WHITE_SPACE text) by (reflexivity || done).
  rewrite strip_plain; [apply rev_involutive|reflexivity|]. by apply Forall_rev.
Qed.

(** The number a digit text spells, continuing from [m]. *)
Definition spelled (m : Z) (text : rstring) : Z :=
  fold_left (fun m b => m * 10 + (byte_to_Z b - byte_to_Z CHAR_ZERO)) text m.

Definition is_digits (text : rstring) : Prop := Forall (fun b => is_ascii_digit b = true) text.

Lemma digit_range b : is_ascii_digit b = true -> 0 <= byte_to_Z b - byte_to_Z CHAR_ZERO <= 9.
Proof. unfold is_ascii_digit. rewrite andb_true_iff, !Z.leb_le. lia. Qed.

Lemma spelled_mono m text : 0 <= m -> is_digits text -> m <= spelled m text.
Proof.
  intros Hm H. revert m Hm. induction H as [|b text Hb _ IH]; intros m Hm; cbn; [done|].
  apply digit_range in Hb. specialize (IH (m * 10 + (byte_to_Z b - byte_to_Z CHAR_ZERO)) ltac:(lia)).
  unfold spelled in *. lia.
Qed.

Lemma parse_digits_spec m text : 0 <= m -> is_digits text -> spelled m text < 2 ^ 127 ->
  parse_digits m text = Ok (spelled m text).
Proof.
  intros Hm H. revert m Hm. induction H as [|b text Hb Htext IH]; intros m Hm Hlt; [done|].
  cbn [parse_digits]. rewrite Hb. apply digit_range in Hb. cbn [spelled fold_left] in *.
  set (m' := m * 10 + (byte_to_Z b - byte_to_Z CHAR_ZERO)) in *.
  pose proof (spelled_mono m' text ltac:(lia) Htext) as Hle. unfold spelled in Hle.
  rewrite fit128_ok by (unfold signed_ok; lia). ob. fold m'. rewrite fit128_ok by (unfold signed_ok; lia).
  cbn [ok_or mbind result_bind]. apply IH; [lia|done].
Qed.

Lemma spelled_app m a b : spelled m (a ++ b) = spelled (spelled m a) b.
Proof. apply fold_left_app. Qed.

Lemma digit_ok z : 0 <= z <= 9 -> is_ascii_digit (digit z) = true /\ byte_to_Z (digit z) - byte_to_Z CHAR_ZERO = z.
Proof.
  intros Hz. unfold digit, is_ascii_digit. rewrite byte_to_of_Z. change (byte_to_Z CHAR_ZERO) with 48.
  rewrite Z.mod_small by lia. rewrite andb_true_iff, !Z.leb_le. lia.
Qed.

Lemma digits_spec fuel z : 0 <= z < 10 ^ Z.of_nat fuel ->
  is_digits (digits fuel z) /\ spelled 0 (digits fuel z) = z.
Proof.
  revert z. induction fuel as [|fuel IH]; intros z Hz; [cbn in Hz; split; [constructor|cbn; lia]|].
  cbn [digits]. rewrite Nat2Z.inj_succ, Z.pow_succ_r in Hz by lia. destruct (Z.ltb_spec z 10).
  - destruct (digit_ok z ltac:(lia)) as [Hd Hv]. split; [by repeat constructor|]. cbn. lia.
  - destruct (IH (z / 10)) as [Hds Hsp].
    { split; [apply Z.div_pos; lia|]. apply Z.div_lt_upper_bound; lia. }
    pose proof (Z.mod_pos_bound z 10 ltac:(lia)). destruct (digit_ok (z mod 10) ltac:(lia)) as [Hd Hv].
    split; [apply Forall_app; split; [done|by repeat constructor]|]. rewrite spelled_app, Hsp. cbn.
    rewrite Hv. pose proof (Z.div_mod z 10). lia.
Qed.

Lemma digits_nonempty fuel z : fuel <> O -> digits fuel z <> [].
Proof. destruct fuel; [done|]. intros _. cbn. destruct (z <? 10); [done|]. by destruct (digits fuel (z / 10)). Qed.

Lemma spelled_zeros k : spelled 0 (replicate k CHAR_ZERO) = 0.
Proof. induction k as [|k IH]; [done|]. exact IH. Qed.

Lemma digit_not b c : is_ascii_digit b = true -> is_ascii_digit c = false -> Byte.eqb b c = false.
Proof. intros Hb Hc. destruct (Byte.eqb b c) eqn:E; [|done]. apply Byte.byte_dec_bl in E as ->. congruence. Qed.

Lemma split_once_point a b : is_digits a -> split_once (a ++ CHAR_POINT :: b) = Some (a, b).
Proof.
  induction 1 as [|c a Hc _ IH]; [done|]. cbn. rewrite (digit_not c CHAR_POINT Hc eq_refl). by rewrite IH.
Qed.

Lemma split_once_none a : is_digits a -> split_once a = None.
Proof.
  induction 1 as [|c a Hc _ IH]; [done|]. cbn. rewrite (digit_not c CHAR_POINT Hc eq_refl). by rewrite IH.
Qed.

(** A sign, integer digits, and fraction digits after a point if there are any. *)
Definition decimal_text (negative : bool) (integer fraction : rstring) : rstring :=
  (if negative then [CHAR_MINUS] else []) ++ integer ++
  match fraction with [] => [] | _ => CHAR_POINT :: fraction end.

Lemma digits_plain text : is_digits text -> Forall (fun b => plain b = true) text.
Proof. intros H. eapply Forall_impl; [exact H|]. intros b Hb. unfold plain. by rewrite Hb. Qed.

Lemma decimal_text_plain negative integer fraction : is_digits integer -> is_digits fraction ->
  Forall (fun b => plain b = true) (decimal_text negative integer fraction).
Proof.
  intros Hi Hf. unfold decimal_text. repeat (apply Forall_app; split).
  - destruct negative; by repeat constructor.
  - by apply digits_plain.
  - destruct fraction; [constructor|]. constructor; [done|by apply digits_plain].
Qed.

Lemma parse_decimal_text (negative : bool) integer fraction :
  integer <> [] -> is_digits integer -> is_digits fraction ->
  let s := Z.of_nat (length fraction) in
  let m := spelled 0 (integer ++ fraction) in
  s <= MAX_SCALE -> m <= 2 ^ 63 -> i64_ok (if negative then - m else m) ->
  parse (decimal_text negative integer fraction) =
    Ok {| mantissa := if negative then - m else m; scale := s |}.
Proof.
  intros Hne Hi Hf s m Hs Hm H64. unfold parse. rewrite trim_plain by by apply decimal_text_plain.
  destruct integer as [|c integer]; [done|]. inversion Hi as [|? ? Hc Hi']; subst.
  set (rest := (c :: integer) ++ match fraction with [] => [] | _ => CHAR_POINT :: fraction end).
  assert ((match strip_prefix [CHAR_MINUS] (decimal_text negative (c :: integer) fraction) with
    | Some rest => (true, rest)
    | None => (false, default (decimal_text negative (c :: integer) fraction)
        (strip_prefix [CHAR_PLUS] (decimal_text negative (c :: integer) fraction)))
    end) = (negative, rest)) as ->.
  { destruct negative; [done|]. unfold decimal_text. cbn [app strip_prefix].
    assert (Byte.eqb CHAR_MINUS c = false) as -> by (destruct (Byte.eqb CHAR_MINUS c) eqn:E; [|done];
      apply Byte.byte_dec_bl in E as <-; done).
    assert (Byte.eqb CHAR_PLUS c = false) as -> by (destruct (Byte.eqb CHAR_PLUS c) eqn:E; [|done];
      apply Byte.byte_dec_bl in E as <-; done).
    done. }
  cbv beta iota.
  match goal with |- context [from_option id ?a ?b] =>
    assert (from_option id a b = (c :: integer, fraction)) as Hsplit end.
  { subst rest. destruct fraction as [|x fraction].
    - rewrite app_nil_r, split_once_none by done. done.
    - rewrite split_once_point by done. done. }
  rewrite Hsplit. change (is_nil rest) with false. cbn [is_nil andb]. rewrite parse_digits_spec;
    [|done|by apply Forall_app|unfold m in Hm; lia]. cbn [mbind result_bind]. fold m s.
  unfold MAX_SCALE in *. rewrite decide_True by lia. destruct (Z.ltb_spec 18 s); [lia|].
  rewrite (proj2 (fit64_Some _ _) (conj eq_refl H64)). done.
Qed.

Lemma shed_zeros_ok d m s : decimal_ok d -> without_trailing_zeros d = (m, s) ->
  decimal_ok {| mantissa := m; scale := s |} /\ reduced {| mantissa := m; scale := s |} /\
  (value {| mantissa := m; scale := s |} == value d)%Q.
Proof.
  intros [H64 Hd] (Hs & Hm & Hred)%shed_zeros_spec. rewrite Z2Nat.id in * by lia.
  pose proof (pow_pos (scale d - s) ltac:(lia)). repeat split; cbn; try lia.
  - unfold signed_ok in *. nia.
  - unfold signed_ok in *. nia.
  - done.
  - rewrite (value_eq _ d (scale d)) by (cbn; lia). cbn. rewrite Hm, Z.sub_diag. lia.
Qed.

(** What is printed is a sign, the integer digits and exactly [s] fraction
    digits of the reduced mantissa. *)
Lemma to_decimal_string_text d m s : decimal_ok d -> without_trailing_zeros d = (m, s) ->
  exists integer fraction, to_decimal_string d = decimal_text (m <? 0) integer fraction /\
    integer <> [] /\ is_digits integer /\ is_digits fraction /\ Z.of_nat (length fraction) = s /\
    spelled 0 (integer ++ fraction) = Z.abs m.
Proof.
  intros Hd E. destruct (shed_zeros_ok d m s Hd E) as ([H64 Hs] & _ & _). cbn in H64, Hs.
  unfold to_decimal_string. rewrite E. assert (Z.abs m < 10 ^ Z.of_nat 20) as Hlt by (unfold signed_ok in *; cbn; lia).
  destruct (digits_spec 20 (Z.abs m) ltac:(lia)) as [Hds Hsp]. unfold u64_to_string, i64_to_string, u64_to_string.
  pose proof (digits_nonempty 20 (Z.abs m) ltac:(discriminate)) as Hne. destruct (Z.eqb_spec s 0) as [->|Hs0].
  - exists (digits 20 (Z.abs m)), []. unfold decimal_text. rewrite !app_nil_r. split; [|by repeat split; try constructor].
    destruct (Z.ltb_spec m 0); [by rewrite Z.abs_neq by lia|by rewrite Z.abs_eq by lia].
  - set (ds := digits 20 (Z.abs m)) in *. set (n := Z.to_nat s). assert (Z.of_nat n = s) as Hn by lia.
    destruct (Nat.ltb_spec n (length ds)) as [Hl|Hl].
    + exists (take (length ds - n) ds), (drop (length ds - n) ds).
      assert (length (drop (length ds - n) ds) = n) as Hlen by (rewrite length_drop; lia).
      repeat split; [|intros H%(f_equal length); rewrite length_take in H; change (length []) with O in H; lia|by apply Forall_take
        |by apply Forall_drop|lia|by rewrite take_drop].
      unfold decimal_text. destruct (drop _ ds); [cbn in Hlen; lia|done].
    + exists [CHAR_ZERO], (replicate (n - length ds) CHAR_ZERO ++ ds). repeat split.
      * unfold decimal_text. destruct (replicate _ _ ++ ds) eqn:Er; [|done].
        apply app_eq_nil in Er as [_ ?]. done.
      * done.
      * by repeat constructor.
      * apply Forall_app. split; [|done]. by apply Forall_replicate.
      * rewrite length_app, length_replicate. lia.
      * change ([CHAR_ZERO] ++ replicate (n - length ds) CHAR_ZERO ++ ds)
          with (replicate (S (n - length ds)) CHAR_ZERO ++ ds). by rewrite spelled_app, spelled_zeros.
Qed.

Lemma print_parse d m s : decimal_ok d -> without_trailing_zeros d = (m, s) ->
  parse (to_decimal_string d) = Ok {| mantissa := m; scale := s |}.
Proof.
  intros Hd E. destruct (shed_zeros_ok d m s Hd E) as ([H64 Hs] & _ & _). cbn in H64, Hs.
  destruct (to_decimal_string_text d m s Hd E) as (integer & fraction & -> & Hne & Hi & Hf & <- & Hsp).
  assert ((if m <? 0 then - Z.abs m else Z.abs m) = m) as Hsign by (destruct (Z.ltb_spec m 0); lia).
  rewrite parse_decimal_text; rewrite ?Hsp, ?Hsign; try done; unfold signed_ok in *; lia.
Qed.

(** ** Claims *)

(** sums and differences are exact.  Every sum or difference [Decimal]
    answers is a well-formed decimal whose value is the exact sum or
    difference; the only error is [Overflow], and between operands of
    different scales it means no decimal at all has that value. *)
Theorem sums_exact (a b : Decimal) : decimal_ok a -> decimal_ok b ->
  (match add a b with
   | Ok c => decimal_ok c /\ (value c == value a + value b)%Q
   | Err e => e = DecimalError_Overflow /\
       (scale a <> scale b -> forall d, decimal_ok d -> ~ (value d == value a + value b)%Q)
   end) /\
  (match subtract a b with
   | Ok c => decimal_ok c /\ (value c == value a - value b)%Q
   | Err e => e = DecimalError_Overflow /\
       (scale a <> scale b -> forall d, decimal_ok d -> ~ (value d == value a - value b)%Q)
   end).
Proof. intros. split; [by apply add_spec|by apply subtract_spec]. Qed.

Lemma sums_exact_witness :
  add {| mantissa := 1; scale := 1 |} {| mantissa := 20; scale := 2 |} = Ok {| mantissa := 3; scale := 1 |} /\
  (value {| mantissa := 3; scale := 1 |} ==
   value {| mantissa := 1; scale := 1 |} + value {| mantissa := 20; scale := 2 |})%Q.
Proof.
  assert (add {| mantissa := 1; scale := 1 |} {| mantissa := 20; scale := 2 |} =
          Ok {| mantissa := 3; scale := 1 |}) as H by reflexivity.
  split; [exact H|].
  destruct (sums_exact {| mantissa := 1; scale := 1 |} {| mantissa := 20; scale := 2 |}) as [Hadd _];
    [vm_compute; intuition congruence..|].
  rewrite H in Hadd. exact (proj2 Hadd).
Defined.

(** C20: a quotient is rounded once, as finely as fits.  Dividing by a non-zero
    decimal answers the half-to-even rounding of the exact quotient at the
    largest scale up to eighteen whose mantissa fits an [i64]; it overflows
    exactly when the rounding fits at no scale. *)
Theorem divide_rounds (a b : Decimal) : decimal_ok a -> decimal_ok b -> mantissa b <> 0 ->
  match divide a b with
  | Ok c => decimal_ok c /\ rounds (value a / value b) c /\
      forall k m, scale c < k <= MAX_SCALE ->
        rounds (value a / value b) {| mantissa := m; scale := k |} -> ~ i64_ok m
  | Err e => e = DecimalError_Overflow /\ forall k m, 0 <= k <= MAX_SCALE ->
      rounds (value a / value b) {| mantissa := m; scale := k |} -> ~ i64_ok m
  end.
Proof.
  intros Ha Hb Hm. unfold divide. destruct (Z.eqb_spec (mantissa b) 0); [done|].
  pose proof (divide_from_spec a b 18 Ha Hb Hm ltac:(lia)) as H. change (Z.to_nat MAX_SCALE) with 18%nat.
  change MAX_SCALE with (Z.of_nat 18). destruct (divide_from a b 18); [by destruct H as [_ H]|done].
Qed.

Lemma divide_rounds_witness :
  divide {| mantissa := 2; scale := 0 |} {| mantissa := 3; scale := 0 |} =
    Ok {| mantissa := 666666666666666667; scale := 18 |} /\
  rounds (value {| mantissa := 2; scale := 0 |} / value {| mantissa := 3; scale := 0 |})
    {| mantissa := 666666666666666667; scale := 18 |}.
Proof.
  assert (divide {| mantissa := 2; scale := 0 |} {| mantissa := 3; scale := 0 |} =
    Ok {| mantissa := 666666666666666667; scale := 18 |}) as H by (vm_compute; reflexivity).
  split; [exact H|].
  assert (mantissa {| mantissa := 3; scale := 0 |} <> 0) as Hm by discriminate.
  pose proof (divide_rounds {| mantissa := 2; scale := 0 |} {| mantissa := 3; scale := 0 |}
    ltac:(vm_compute; intuition congruence) ltac:(vm_compute; intuition congruence) Hm) as Hd.
  rewrite H in Hd. exact (proj1 (proj2 Hd)).
Defined.

(** The floating-point shortcut of division never changes an answer:
    whatever the estimate, a quotient it leads to is the exact division's. *)
Theorem hinted_divide_exact (numerator denominator q : Z) : denominator <> 0 ->
  divide_round_half_even_hinted numerator denominator = Some q ->
  divide_round_half_even numerator denominator = Ok q.
Proof. apply hinted_exact. Qed.

Lemma hinted_divide_exact_witness :
  divide_round_half_even_hinted 7 (-2) = Some (-4) /\ divide_round_half_even 7 (-2) = Ok (-4).
Proof.
  assert (divide_round_half_even_hinted 7 (-2) = Some (-4)) as H by (vm_compute; reflexivity).
  split; [exact H|]. apply hinted_divide_exact; [discriminate|exact H].
Defined.

(** a product is rounded once.  Multiplying answers the half-to-even
    rounding of the exact product at the operands' combined scale, capped at
    eighteen, and the exact product when the combined scale is within the cap;
    it fails only when that rounding does not fit an [i64]. *)
Theorem multiply_rounds (a b : Decimal) : decimal_ok a -> decimal_ok b ->
  match multiply a b with
  | Ok c => decimal_ok c /\ scale c = Z.min (scale a + scale b) MAX_SCALE /\
      rounds (value a * value b) c /\
      (scale a + scale b <= MAX_SCALE -> (value c == value a * value b)%Q)
  | Err e => e = DecimalError_Overflow /\ forall m,
      rounds (value a * value b) {| mantissa := m; scale := Z.min (scale a + scale b) MAX_SCALE |} ->
      ~ i64_ok m
  end.
Proof.
  intros [Ha Hsa] [Hb Hsb]. pose proof (product_value a b ltac:(lia) ltac:(lia)) as Hp.
  pose proof (product_bound _ _ Ha Hb) as Hw. unfold multiply, MAX_SCALE in *.
  pose proof (round_narrow_spec _ _ _ (Z.min (scale a + scale b) 18) Hp ltac:(lia) ltac:(lia)
    ltac:(unfold MAX_SCALE; lia) Hw) as Hn.
  set (s := scale a + scale b) in *. set (w := mantissa a * mantissa b) in *.
  destruct (Z.leb_spec s 18) as [Hle|Hgt].
  - set (c := {| mantissa := w; scale := s |}).
    assert (value c == value a * value b)%Q as Hv by (rewrite Hp; done).
    destruct (fit64 w) as [m|] eqn:E.
    + apply fit64_Some in E as [-> H64]. split; [split; [done|cbn; unfold MAX_SCALE; lia]|].
      split; [cbn; lia|]. split; [|done]. apply rounds_exact; [cbn; lia|done].
    + destruct (_ ≫= _) as [d|e]; [|done]. exfalso. destruct Hn as ([H64 _] & Hsc & Hr).
      apply fit64_None in E. apply E. replace (Z.min s 18) with s in Hsc by lia.
      assert (nearest_even w 1 w) as Hw1 by (destruct (nearest_even_exact w 1 w); lia || done).
      apply (rounds_iff _ w 1) in Hr; [|done|].
      * by rewrite (nearest_even_unique w 1 w (mantissa d)).
      * rewrite Hsc, Hp. change (inject_Z 1) with 1%Q. field. apply inject_pow_nonzero. lia.
  - destruct (_ ≫= _) as [d|e]; [|done]. destruct Hn as (? & ? & ?). do 3 (split; [done|]). lia.
Qed.

Lemma multiply_rounds_witness :
  multiply {| mantissa := 15; scale := 10 |} {| mantissa := 3; scale := 9 |} =
    Ok {| mantissa := 4; scale := 18 |} /\
  rounds (value {| mantissa := 15; scale := 10 |} * value {| mantissa := 3; scale := 9 |})
    {| mantissa := 4; scale := 18 |}.
Proof.
  assert (multiply {| mantissa := 15; scale := 10 |} {| mantissa := 3; scale := 9 |} =
    Ok {| mantissa := 4; scale := 18 |}) as H by (vm_compute; reflexivity).
  split; [exact H|].
  pose proof (multiply_rounds {| mantissa := 15; scale := 10 |} {| mantissa := 3; scale := 9 |}
    ltac:(vm_compute; intuition congruence) ltac:(vm_compute; intuition congruence)) as Hm.
  rewrite H in Hm. exact (proj1 (proj2 (proj2 Hm))).
Defined.

(** comparison is numeric and never fails on well-formed decimals: it
    answers the order of the values, and [equals] whether they are equal. *)
Theorem compare_is_value_order (a b : Decimal) : decimal_ok a -> decimal_ok b ->
  compare a b = Ok (value a ?= value b)%Q /\
  exists r, equals a b = Ok r /\ (r = true <-> (value a == value b)%Q).
Proof.
  intros Ha Hb. pose proof (compare_spec a b Ha Hb) as H. split; [done|]. unfold equals. rewrite H. cbn.
  eexists. split; [done|]. rewrite Qeq_alt. by destruct (value a ?= value b)%Q.
Qed.

Lemma compare_is_value_order_witness :
  compare {| mantissa := 10; scale := 1 |} {| mantissa := 100; scale := 2 |} = Ok Eq.
Proof.
  destruct (compare_is_value_order {| mantissa := 10; scale := 1 |} {| mantissa := 100; scale := 2 |}) as [H _];
    [vm_compute; intuition congruence..|].
  rewrite H. vm_compute. reflexivity.
Defined.

(** C39: a decimal's text reads back.  Printing any decimal and parsing the
    text gives the decimal in lowest terms, with the same value. *)
Theorem text_roundtrip (d : Decimal) : decimal_ok d ->
  exists r, parse (to_decimal_string d) = Ok r /\ decimal_ok r /\ reduced r /\ (value r == value d)%Q.
Proof.
  intros Hd. destruct (without_trailing_zeros d) as [m s] eqn:E.
  exists {| mantissa := m; scale := s |}. split; [by apply print_parse|by apply shed_zeros_ok].
Qed.

Lemma text_roundtrip_witness :
  exists r, parse [CHAR_MINUS; CHAR_ZERO; CHAR_POINT; CHAR_ZERO; x35] = Ok r /\ reduced r.
Proof.
  destruct (text_roundtrip {| mantissa := -50; scale := 3 |}) as (r & H & _ & Hr & _);
    [vm_compute; intuition congruence|].
  exists r. split; [exact H|exact Hr].
Defined.

(** Whether a sum overflows depends on how its operands are spelled.  Half
    of ten, as division leaves it, cannot be added to itself or doubled, though
    adding the equal value [5] gives [10]. *)
Theorem sum_depends_on_spelling :
  exists h, divide (from_i64 10) (from_i64 2) = Ok h /\ equals h (from_i64 5) = Ok true /\
    add h h = Err DecimalError_Overflow /\ multiply h (from_i64 2) = Err DecimalError_Overflow /\
    add h (from_i64 5) = Ok (from_i64 10).
Proof. exists {| mantissa := 5000000000000000000; scale := 18 |}. vm_compute. repeat split. Qed.
