(* ===== verification/NativeState.v ===== *)
(** Callback state: [kira-runtime-abi/src/native_state.rs] and the modules
    [native_state/{store,cblock,owner}.rs].

    A callback-state value is a tree.  Its aggregates hold their children
    behind an [Arc] that is shared until somebody writes, so a tree is modelled
    by its value: [Arc::make_mut] and [Arc::try_unwrap] then are the identity,
    and a mutable borrow into a tree is the addressed node together with the
    function that puts a node back ([native_state_walk_mut]).  The store is a
    finite map from tokens to counted entries.

    The release closures of [NativeCell] and [NativeStateOwner], which run when
    the last clone of a node goes, belong to the engine that made the node and
    are not part of the tree's value. *)

From stdpp Require Import gmap.
From S2P Require Import Prelude.
From S2P Require Import Instruction.
From S2P Require Import Foreign.
From S2P Require Import DecimalNumber.

(** ** Portable C blocks: [native_state/cblock.rs] *)

(** A payload and the child blocks whose addresses its words embed.  The
    offset of a [NativeCBlockChild] is its [CBlockOffset]'s byte count. *)
Inductive NativeCBlock :=
| CBlockNode (cb_bytes : list byte) (cb_children : list NativeCBlockChild)
with NativeCBlockChild :=
| CBlockChild (ch_offset : Z) (ch_width : ForeignPointerWidth) (ch_block : NativeCBlock).

Definition cb_bytes (b : NativeCBlock) : list byte := let '(CBlockNode bs _) := b in bs.
Definition cb_children (b : NativeCBlock) : list NativeCBlockChild :=
  let '(CBlockNode _ cs) := b in cs.
Definition ch_offset (c : NativeCBlockChild) : Z := let '(CBlockChild o _ _) := c in o.
Definition ch_width (c : NativeCBlockChild) : ForeignPointerWidth :=
  let '(CBlockChild _ w _) := c in w.
Definition ch_block (c : NativeCBlockChild) : NativeCBlock :=
  let '(CBlockChild _ _ b) := c in b.

Inductive NativeCBlockError :=
| ChildOutsidePayload (offset : Z) (width : ForeignPointerWidth) (payload_len : Z).

(** [NativeCBlock::new]. *)
Definition cblock_new (bytes : list byte) : NativeCBlock := CBlockNode bytes [].

(** [bytes[start..end].fill(0)], for a range inside the payload. *)
Definition fill_zero (bytes : list byte) (start finish : nat) : list byte :=
  take start bytes ++ replicate (finish - start) x00 ++ drop finish bytes.

(** [NativeCBlock::attach]. *)
Definition attach (self : NativeCBlock) (offset : Z) (width : ForeignPointerWidth)
    (child : NativeCBlock) : result NativeCBlockError NativeCBlock :=
  let len := Z.of_nat (length (cb_bytes self)) in
  let finish := offset + width_bytes width in
  if decide (2 ^ 64 <= finish) then Err (ChildOutsidePayload offset width len)
  else if decide (len < finish) then Err (ChildOutsidePayload offset width len)
  else Ok (CBlockNode (fill_zero (cb_bytes self) (Z.to_nat offset) (Z.to_nat finish))
                      (cb_children self ++ [CBlockChild offset width child])).

(** ** Values: [NativeStateValue] *)

(** A share of an engine's capture cell ([NativeCell]). *)
Record NativeCell := { cell_handle : Z; vm_owned : bool }.

(** One ownership obligation for a state ([NativeStateOwner]). *)
Record NativeStateOwner := { owner_token : Z }.

(** Floating-point payloads are kept as their 64 bits. *)
#[local] Unset Elimination Schemes.
Inductive NativeStateValue :=
| NS_Int (i : Z)
| NS_Float (bits : Z)
| NS_Bool (b : bool)
| NS_String (text : rstring)
| NS_Number (d : Decimal)
| NS_Struct (fields : list NativeStateValue)
| NS_DropStruct (glue : Z) (fields : list NativeStateValue)
| NS_Array (elements : list NativeStateValue)
| NS_RawPtr (word : Z)
| NS_Cell (cell : NativeCell)
| NS_Any (type_id : Z) (payload : NativeStateValue)
| NS_Enum (tag : Z) (payload : option NativeStateValue)
| NS_NativeState (owner : NativeStateOwner)
| NS_CBlock (block : NativeCBlock).
#[local] Set Elimination Schemes.

(** Induction over trees whose children are lists. *)
Section TreeInduction.
Context (P : NativeStateValue -> Prop).
Context (Hleaf : forall v, match v with
  | NS_Struct _ | NS_DropStruct _ _ | NS_Array _ | NS_Any _ _ | NS_Enum _ (Some _) => True
  | _ => P v end).
Context (Hstruct : forall vs, Forall P vs -> P (NS_Struct vs)).
Context (Hdrop : forall glue vs, Forall P vs -> P (NS_DropStruct glue vs)).
Context (Harray : forall vs, Forall P vs -> P (NS_Array vs)).
Context (Hany : forall ty v, P v -> P (NS_Any ty v)).
Context (Henum : forall tag v, P v -> P (NS_Enum tag (Some v))).

Lemma native_state_ind : forall v, P v.
Proof.
  fix IH 1.
  assert (forall l, Forall P l) as Hl by (induction l; constructor; [apply IH|done]).
  destruct v as [ | | | | | | | | | | |tag payload| | ];
    try match goal with |- P ?x => exact (Hleaf x) end.
  - apply Hstruct, Hl.
  - apply Hdrop, Hl.
  - apply Harray, Hl.
  - apply Hany, IH.
  - destruct payload as [payload|]; [apply Henum, IH|exact (Hleaf (NS_Enum tag None))].
Qed.
End TreeInduction.

Lemma cblock_ind (P : NativeCBlock -> Prop)
    (H : forall bytes kids, Forall (fun c => P (ch_block c)) kids -> P (CBlockNode bytes kids)) :
  forall b, P b.
Proof.
  fix IH 1. intros [bytes kids]. apply H.
  induction kids as [|[offset width nested] kids IHk]; constructor; [apply IH|exact IHk].
Qed.

(** [NativeStateValue::children]. *)
Definition children (v : NativeStateValue) : option (list NativeStateValue) :=
  match v with
  | NS_Struct values | NS_Array values => Some values
  | NS_DropStruct _ fields => Some fields
  | NS_Enum _ payload => Some (match payload with Some p => [p] | None => [] end)
  | NS_Any _ payload => Some [payload]
  | _ => None
  end.

(** [NativeStateValue::requires_engine_release]. *)
Fixpoint requires_engine_release (v : NativeStateValue) : bool :=
  match v with
  | NS_DropStruct _ _ | NS_NativeState _ => true
  | NS_Struct values | NS_Array values => existsb requires_engine_release values
  | NS_Enum _ payload =>
    match payload with Some p => requires_engine_release p | None => false end
  | NS_Any _ payload => requires_engine_release payload
  | _ => false
  end.

(** [NativeStateValueTag]: the open C tags. *)
Definition value_tag (v : NativeStateValue) : Z :=
  match v with
  | NS_Int _ => 1 | NS_Float _ => 2 | NS_Bool _ => 3 | NS_String _ => 4
  | NS_Struct _ => 5 | NS_Array _ => 6 | NS_Enum _ _ => 7 | NS_RawPtr _ => 8
  | NS_Cell _ => 9 | NS_Any _ _ => 10 | NS_CBlock _ => 11 | NS_NativeState _ => 12
  | NS_DropStruct _ _ => 13 | NS_Number _ => 14
  end.

(** ** Errors and statuses *)

Inductive NativeStateError :=
| NoStateHost
| NullToken
| UnknownToken (word : Z)
| WrongType (actual requested : Z)
| TokenExhausted
| MalformedValue
| DropEngineRequired
| PathMismatch.

(** [From<NativeStateError> for NativeStateStatus]; [0] is [OK]. *)
Definition status_of_error (e : NativeStateError) : Z :=
  match e with
  | NoStateHost => 1
  | NullToken => 2
  | UnknownToken _ => 3
  | WrongType _ _ => 4
  | TokenExhausted => 5
  | DropEngineRequired => 7
  | MalformedValue | PathMismatch => 6
  end.

(** [NativeStateToken::is_boxed]. *)
Definition is_boxed (word : Z) : bool := bool_decide (Z.land word 1 = 1).

(** ** Paths *)

Inductive NativeStatePathStep := Path_Field (index : Z) | Path_Index (index : Z).

Definition FIELD_WIRE_TAG : Z := 0.
Definition INDEX_WIRE_TAG : Z := 1.

(** [NativeStatePathStep::to_wire]. *)
Definition to_wire (step : NativeStatePathStep) : Z * Z :=
  match step with
  | Path_Field index => (FIELD_WIRE_TAG, index)
  | Path_Index index => (INDEX_WIRE_TAG, index)
  end.

(** [NativeStatePathStep::from_wire]. *)
Definition from_wire (tag value : Z) : result NativeStateError NativeStatePathStep :=
  if decide (tag = FIELD_WIRE_TAG) then
    if decide (value < 2 ^ 32) then Ok (Path_Field value) else Err PathMismatch
  else if decide (tag = INDEX_WIRE_TAG) then Ok (Path_Index value)
  else Err PathMismatch.

Section Walk.
Context {host : Host}.

(** The child a step addresses in a node, and its position. *)
Definition step_child (step : NativeStatePathStep) (cursor : NativeStateValue)
    : result NativeStateError (nat * NativeStateValue) :=
  match step, cursor with
  | Path_Field index, NS_Struct fields | Path_Field index, NS_DropStruct _ fields =>
    let i := Z.to_nat index in
    child ← ok_or (fields !! i) PathMismatch; Ok (i, child)
  | Path_Index index, NS_Array elements =>
    i ← ok_or (usize_try_from index) PathMismatch;
    child ← ok_or (elements !! i) PathMismatch; Ok (i, child)
  | _, _ => Err PathMismatch
  end.

(** A node with its child at [i] replaced: the store through
    [Arc::make_mut(..).get_mut(i)]. *)
Definition set_child (cursor : NativeStateValue) (i : nat) (child : NativeStateValue)
    : NativeStateValue :=
  match cursor with
  | NS_Struct fields => NS_Struct (<[i := child]> fields)
  | NS_DropStruct glue fields => NS_DropStruct glue (<[i := child]> fields)
  | NS_Array elements => NS_Array (<[i := child]> elements)
  | _ => cursor
  end.

(** [native_state_walk]. *)
Fixpoint native_state_walk (root : NativeStateValue) (path : list NativeStatePathStep)
    : result NativeStateError NativeStateValue :=
  match path with
  | [] => Ok root
  | step :: path => '(_, child) ← step_child step root; native_state_walk child path
  end.

(** [native_state_walk_mut]: what the path addresses, and the root once a node
    has been stored there. *)
Fixpoint native_state_walk_mut (root : NativeStateValue) (path : list NativeStatePathStep)
    : result NativeStateError (NativeStateValue * (NativeStateValue -> NativeStateValue)) :=
  match path with
  | [] => Ok (root, fun v => v)
  | step :: path =>
    '(i, child) ← step_child step root;
    '(node, put) ← native_state_walk_mut child path;
    Ok (node, fun v => set_child root i (put v))
  end.
End Walk.

(** ** The store: [native_state/store.rs] *)

Record Entry := {
  ent_ty : Z;
  ent_value : NativeStateValue;
  ent_refs : Z;
  ent_engine : bool
}.

Record NativeStateStore := {
  next : Z;
  entries : gmap Z Entry
}.

Definition STRIDE : Z := 2.

(** [NativeStateStore::new]. *)
Definition store_new : NativeStateStore := {| next := STRIDE; entries := ∅ |}.

Abbreviation store_m := (st NativeStateStore NativeStateError).

(** [check_non_null]. *)
Definition check_non_null (token : Z) : result NativeStateError unit :=
  if decide (token = 0) then Err NullToken else Ok tt.

(** [entry] and [entry_mut]. *)
Definition entry (self : NativeStateStore) (token : Z) : result NativeStateError Entry :=
  _ ← check_non_null token; ok_or (entries self !! token) (UnknownToken token).

(** The write through an [entry_mut] borrow. *)
Definition store_entry (token : Z) (e : Entry) (self : NativeStateStore) : NativeStateStore :=
  {| next := next self; entries := <[token := e]> (entries self) |}.

Definition check_type (actual requested : Z) : result NativeStateError unit :=
  if decide (actual = requested) then Ok tt else Err (WrongType actual requested).

Definition decorate_root_drop (value : NativeStateValue) (glue : option Z)
    : result NativeStateError NativeStateValue :=
  match glue with
  | None => Ok value
  | Some glue =>
    match value with
    | NS_Struct fields => Ok (NS_DropStruct glue fields)
    | NS_DropStruct _ _ => Ok value
    | _ => Err MalformedValue
    end
  end.

Definition with_refs (e : Entry) (refs : Z) : Entry :=
  {| ent_ty := ent_ty e; ent_value := ent_value e; ent_refs := refs; ent_engine := ent_engine e |}.

Definition with_value (e : Entry) (value : NativeStateValue) : Entry :=
  {| ent_ty := ent_ty e; ent_value := value; ent_refs := ent_refs e;
     ent_engine := requires_engine_release value |}.

Definition create_dropping (ty : Z) (value : NativeStateValue) (glue : option Z) : store_m Z :=
  st_update (fun self =>
    value ← decorate_root_drop value glue;
    let word := next self in
    if decide (word = 0) then Err TokenExhausted
    else if decide (2 ^ 64 <= word + STRIDE) then Err TokenExhausted
    else
      let e := {| ent_ty := ty; ent_value := value; ent_refs := 1;
                  ent_engine := requires_engine_release value |} in
      Ok ({| next := word + STRIDE; entries := <[word := e]> (entries self) |}, word)).

Definition create (ty : Z) (value : NativeStateValue) : store_m Z :=
  create_dropping ty value None.

Definition retain (token : Z) : store_m unit :=
  st_update (fun self =>
    e ← entry self token;
    if decide (2 ^ 64 <= ent_refs e + 1) then Err TokenExhausted
    else Ok (store_entry token (with_refs e (ent_refs e + 1)) self, tt)).

Definition remove_entry (token : Z) (self : NativeStateStore) : NativeStateStore :=
  {| next := next self; entries := delete token (entries self) |}.

Definition release (token : Z) : store_m bool :=
  st_update (fun self =>
    e ← entry self token;
    if decide (1 < ent_refs e) then
      Ok (store_entry token (with_refs e (ent_refs e - 1)) self, false)
    else if ent_engine e then Err DropEngineRequired
    else Ok (remove_entry token self, true)).

Definition release_dropping (token : Z) : store_m (option NativeStateValue) :=
  st_update (fun self =>
    e ← entry self token;
    if decide (1 < ent_refs e) then
      Ok (store_entry token (with_refs e (ent_refs e - 1)) self, None)
    else Ok (remove_entry token self, if ent_engine e then Some (ent_value e) else None)).

Definition live (self : NativeStateStore) : nat := base.size (entries self).

Definition owners (token : Z) : store_m Z :=
  st_gets (fun self => ent_refs <$> entry self token).

Definition recover (token requested : Z) : store_m NativeStateValue :=
  st_gets (fun self =>
    e ← entry self token; _ ← check_type (ent_ty e) requested; Ok (ent_value e)).

Definition replace (token requested : Z) (value : NativeStateValue) : store_m NativeStateValue :=
  st_update (fun self =>
    e ← entry self token; _ ← check_type (ent_ty e) requested;
    Ok (store_entry token (with_value e value) self, ent_value e)).

Definition check (token requested : Z) : store_m unit :=
  st_gets (fun self => e ← entry self token; check_type (ent_ty e) requested).

Section StorePaths.
Context {host : Host}.

Definition read_at (token requested : Z) (path : list NativeStatePathStep)
    : store_m NativeStateValue :=
  st_gets (fun self =>
    e ← entry self token; _ ← check_type (ent_ty e) requested;
    native_state_walk (ent_value e) path).

Definition replace_at (token requested : Z) (path : list NativeStatePathStep)
    (value : NativeStateValue) : store_m NativeStateValue :=
  st_update (fun self =>
    e ← entry self token; _ ← check_type (ent_ty e) requested;
    '(old, put) ← native_state_walk_mut (ent_value e) path;
    Ok (store_entry token (with_value e (put value)) self, old)).

Definition append_at (token requested : Z) (path : list NativeStatePathStep)
    (value : NativeStateValue) : store_m unit :=
  st_update (fun self =>
    e ← entry self token; _ ← check_type (ent_ty e) requested;
    '(node, put) ← native_state_walk_mut (ent_value e) path;
    match node with
    | NS_Array elements =>
      Ok (store_entry token (with_value e (put (NS_Array (elements ++ [value])))) self, tt)
    | _ => Err PathMismatch
    end).
End StorePaths.

(** ** Sequences of operations *)

(** The operations that change the store, as the host receives them. *)
Inductive StoreOp :=
| Op_create (ty : Z) (value : NativeStateValue) (glue : option Z)
| Op_retain (token : Z)
| Op_release (token : Z)
| Op_release_dropping (token : Z)
| Op_replace (token ty : Z) (value : NativeStateValue)
| Op_replace_at (token ty : Z) (path : list NativeStatePathStep) (value : NativeStateValue)
| Op_append_at (token ty : Z) (path : list NativeStatePathStep) (value : NativeStateValue).

Inductive StoreAnswer :=
| Ans_Token (token : Z)
| Ans_Unit
| Ans_Destroyed (destroyed : bool)
| Ans_Dropped (value : option NativeStateValue)
| Ans_Value (value : NativeStateValue).

Definition answer {A} (f : A -> StoreAnswer) (m : store_m A) : store_m StoreAnswer :=
  a ← m; mret (f a).

Section Runs.
Context {host : Host}.

Definition perform (op : StoreOp) : store_m StoreAnswer :=
  match op with
  | Op_create ty value glue => answer Ans_Token (create_dropping ty value glue)
  | Op_retain token => answer (fun _ => Ans_Unit) (retain token)
  | Op_release token => answer Ans_Destroyed (release token)
  | Op_release_dropping token => answer Ans_Dropped (release_dropping token)
  | Op_replace token ty value => answer Ans_Value (replace token ty value)
  | Op_replace_at token ty path value => answer Ans_Value (replace_at token ty path value)
  | Op_append_at token ty path value => answer (fun _ => Ans_Unit) (append_at token ty path value)
  end.

Abbreviation log := (list (StoreOp * result NativeStateError StoreAnswer)).

Fixpoint run (ops : list StoreOp) (self : NativeStateStore) : NativeStateStore * log :=
  match ops with
  | [] => (self, [])
  | op :: ops =>
    let '(self, a) := perform op self in
    let '(self, tr) := run ops self in
    (self, (op, a) :: tr)
  end.

(** What one logged operation does to the owners of [token]: a creation and a
    successful retain add one, a successful release takes one away. *)
Definition owner_delta (token : Z) (step : StoreOp * result NativeStateError StoreAnswer) : Z :=
  match step with
  | (Op_create _ _ _, Ok (Ans_Token t)) => if decide (t = token) then 1 else 0
  | (Op_retain t, Ok _) => if decide (t = token) then 1 else 0
  | (Op_release t, Ok _) | (Op_release_dropping t, Ok _) => if decide (t = token) then -1 else 0
  | _ => 0
  end.

Fixpoint holds (token : Z) (tr : log) : Z :=
  match tr with [] => 0 | step :: tr => owner_delta token step + holds token tr end.

(** The tokens a log hands out. *)
Definition issued (tr : log) : list Z :=
  omap (fun step => match step with (Op_create _ _ _, Ok (Ans_Token t)) => Some t | _ => None end) tr.
End Runs.

(** ** What every operation does

    [effect] classifies an operation by what it did to the store; every later
    invariant is proved once per effect rather than once per operation. *)

Record entry_ok (e : Entry) : Prop := {
  entry_refs : 1 <= ent_refs e < 2 ^ 64;
  entry_engine : ent_engine e = requires_engine_release (ent_value e)
}.

Record store_ok (s : NativeStateStore) : Prop := {
  store_next : 0 < next s < 2 ^ 64;
  store_even : Z.Even (next s);
  store_entries : forall t e, entries s !! t = Some e ->
    0 < t < next s /\ Z.Even t /\ entry_ok e
}.

Section Effects.
Context {host : Host}.

Inductive effect (s : NativeStateStore)
    : StoreOp -> result NativeStateError StoreAnswer -> NativeStateStore -> Prop :=
| effect_fail op err : effect s op (Err err) s
| effect_create ty value glue e :
  next s + STRIDE < 2 ^ 64 -> entry_ok e -> ent_refs e = 1 ->
  effect s (Op_create ty value glue) (Ok (Ans_Token (next s)))
    {| next := next s + STRIDE; entries := <[next s := e]> (entries s) |}
| effect_update op a t e e' :
  (forall ty value glue, op <> Op_create ty value glue) ->
  entries s !! t = Some e -> entry_ok e' -> ent_ty e' = ent_ty e ->
  ent_refs e' = ent_refs e + owner_delta t (op, Ok a) ->
  (forall t', t' <> t -> owner_delta t' (op, Ok a) = 0) ->
  effect s op (Ok a) (store_entry t e' s)
| effect_remove op a t e :
  (forall ty value glue, op <> Op_create ty value glue) ->
  entries s !! t = Some e -> ent_refs e = 1 ->
  owner_delta t (op, Ok a) = -1 ->
  (forall t', t' <> t -> owner_delta t' (op, Ok a) = 0) ->
  (ent_engine e = true -> op = Op_release_dropping t /\ a = Ans_Dropped (Some (ent_value e))) ->
  effect s op (Ok a) (remove_entry t s).

Lemma entry_Ok s t e : entry s t = Ok e -> t <> 0 /\ entries s !! t = Some e.
Proof.
  unfold entry, check_non_null. case_decide; cbn; [done|].
  destruct (entries s !! t); cbn; intros; simplify_eq. done.
Qed.

Lemma owner_delta_at t op a d :
  owner_delta t (op, a) = d ->
  forall t', t' = t -> owner_delta t' (op, a) = d.
Proof. by intros ? t' ->. Qed.

Ltac step_entry s t Hok :=
  destruct (entry s t) as [e|err] eqn:He; cbn; [|constructor];
  apply entry_Ok in He as [Hne He];
  destruct (store_entries s Hok t e He) as (Hrange & Heven & [Hrefs Hengine]).

Ltac delta_solver := intros; cbn; repeat case_decide; try done; lia.

Lemma retain_effect s t :
  store_ok s -> let r := perform (Op_retain t) s in effect s (Op_retain t) r.2 r.1.
Proof.
  intros Hok. cbn. unfold answer, retain; st_unfold. cbn. step_entry s t Hok.
  case_decide; cbn; [constructor|].
  eapply effect_update; [done|exact He| |done|delta_solver|delta_solver].
  split; cbn; [lia|done].
Qed.

Lemma release_effect s t :
  store_ok s -> let r := perform (Op_release t) s in effect s (Op_release t) r.2 r.1.
Proof.
  intros Hok. cbn. unfold answer, release; st_unfold. cbn. step_entry s t Hok.
  case_decide; cbn.
  - eapply effect_update; [done|exact He| |done|delta_solver|delta_solver].
    split; cbn; [lia|done].
  - destruct (ent_engine e) eqn:Hflag; cbn; [constructor|].
    eapply effect_remove; [done|exact He|lia|delta_solver|delta_solver|congruence].
Qed.

Lemma release_dropping_effect s t :
  store_ok s ->
  let r := perform (Op_release_dropping t) s in effect s (Op_release_dropping t) r.2 r.1.
Proof.
  intros Hok. cbn. unfold answer, release_dropping; st_unfold. cbn. step_entry s t Hok.
  case_decide; cbn.
  - eapply effect_update; [done|exact He| |done|delta_solver|delta_solver].
    split; cbn; [lia|done].
  - eapply effect_remove; [done|exact He|lia|delta_solver|delta_solver|].
    by intros ->.
Qed.

Lemma store_create_effect s ty v glue :
  store_ok s ->
  let r := perform (Op_create ty v glue) s in effect s (Op_create ty v glue) r.2 r.1.
Proof.
  intros Hok. destruct (store_next s Hok) as [Hpos Hmax].
  cbn. unfold answer, create_dropping; st_unfold. cbn.
  destruct (decorate_root_drop v glue) as [v'|]; cbn; [|constructor].
  case_decide; cbn; [constructor|]. case_decide; cbn; [constructor|].
  constructor; [lia| |done]. split; cbn; [lia|done].
Qed.

(** A rewritten value keeps the owners and recomputes the engine flag. *)
Lemma store_write_effect s op t e v a :
  store_ok s -> entries s !! t = Some e ->
  (forall ty value glue, op <> Op_create ty value glue) ->
  (forall t', owner_delta t' (op, Ok a) = 0) ->
  effect s op (Ok a) (store_entry t (with_value e v) s).
Proof.
  intros Hok He Hop Hd. destruct (store_entries s Hok t e He) as (_ & _ & [Hrefs _]).
  eapply effect_update; [done|exact He|by split|done|rewrite Hd; cbn; lia|done].
Qed.

Lemma perform_effect s op :
  store_ok s -> effect s op (perform op s).2 (perform op s).1.
Proof.
  intros Hok. destruct op as [ty v glue|t|t|t|t ty v|t ty path v|t ty path v].
  - by apply store_create_effect.
  - by apply retain_effect.
  - by apply release_effect.
  - by apply release_dropping_effect.
  - cbn. unfold answer, replace; st_unfold. cbn. step_entry s t Hok.
    destruct (check_type _ _); cbn; [|constructor]. by eapply store_write_effect.
  - cbn. unfold answer, replace_at; st_unfold. cbn. step_entry s t Hok.
    destruct (check_type _ _); cbn; [|constructor].
    destruct (native_state_walk_mut _ _) as [[node put]|]; cbn; [|constructor].
    by eapply store_write_effect.
  - cbn. unfold answer, append_at; st_unfold. cbn. step_entry s t Hok.
    destruct (check_type _ _); cbn; [|constructor].
    destruct (native_state_walk_mut _ _) as [[node put]|]; cbn; [|constructor].
    destruct node; cbn; try constructor. by eapply store_write_effect.
Qed.

Lemma Even_add2 z : Z.Even z -> Z.Even (z + STRIDE).
Proof. intros [k ->]. exists (k + 1). unfold STRIDE. lia. Qed.

Lemma effect_ok s op a s' : store_ok s -> effect s op a s' -> store_ok s'.
Proof.
  intros Hok [ |? ? ? e Hn He _|? ? t e e' _ Hl He' _ _ _|? ? t e _ Hl _ _ _ _]; [done| | |].
  all: destruct Hok as [[Hpos Hmax] Hev Hent].
  - split; cbn; unfold STRIDE in *; [lia|by apply Even_add2|].
    intros t e'. rewrite lookup_insert. case_decide; intros; simplify_eq; [split; [lia|done]|].
    destruct (Hent t e') as (? & ? & ?); [done|]. split; [lia|done].
  - split; cbn; [lia|done|]. intros t' e''. rewrite lookup_insert.
    case_decide; intros; simplify_eq; [|by apply Hent].
    destruct (Hent t' e Hl) as (? & ? & ?). done.
  - split; cbn; [lia|done|]. intros t' e'. rewrite lookup_delete.
    case_decide; intros; simplify_eq. by apply Hent.
Qed.

(** The owners of a token: none when it is not live. *)
Definition owner_count (s : NativeStateStore) (t : Z) : Z :=
  match entries s !! t with Some e => ent_refs e | None => 0 end.

Lemma effect_owners s op a s' t :
  store_ok s -> effect s op a s' ->
  owner_count s' t = owner_count s t + owner_delta t (op, a).
Proof.
  intros Hok Heff. unfold owner_count. destruct Heff as
    [op err|ty v glue e Hn He Hr|op a u e e' _ Hl He' _ Hd Ho|op a u e _ Hl Hr Hd Ho _].
  - destruct op; cbn; lia.
  - cbn [entries owner_delta]. rewrite lookup_insert. case_decide; subst.
    + destruct (entries s !! next s) as [e0|] eqn:E; [|lia].
      destruct (store_entries s Hok _ _ E); lia.
    + destruct (entries s !! t); lia.
  - cbn [store_entry entries]. rewrite lookup_insert. case_decide; subst.
    + rewrite Hl, Hd. done.
    + rewrite (Ho t) by done. destruct (entries s !! t); lia.
  - cbn [remove_entry entries]. rewrite lookup_delete. case_decide; subst.
    + rewrite Hl, Hr, Hd. done.
    + rewrite (Ho t) by done. destruct (entries s !! t); lia.
Qed.

Lemma effect_next s op a s' :
  effect s op a s' ->
  next s' = next s /\ (forall ty v g t, op = Op_create ty v g -> a <> Ok (Ans_Token t)) \/
  (exists ty v g, op = Op_create ty v g /\ a = Ok (Ans_Token (next s)) /\ next s < next s').
Proof.
  intros [op' err|ty v glue e Hn He Hr|op' a' t e e' Hop|op' a' t e Hop].
  - left. split; [done|congruence].
  - right. do 3 eexists. split_and!; [done|done|]. cbn. unfold STRIDE. lia.
  - left. split; [done|]. intros ty v g t' ->. by destruct (Hop ty v g).
  - left. split; [done|]. intros ty v g t' ->. by destruct (Hop ty v g).
Qed.
End Effects.

(** ** Path laws *)

#[export] Instance path_step_eq_decision : EqDecision NativeStatePathStep.
Proof. solve_decision. Defined.

(** A step the source can hold: a [u32] field or a [u64] index. *)
Definition step_ok (step : NativeStatePathStep) : Prop :=
  match step with Path_Field i => u32_ok i | Path_Index i => u64_ok i end.

(** Two paths that part at some level, so that neither leads through the
    other's node. *)
Fixpoint diverge (p q : list NativeStatePathStep) : Prop :=
  match p, q with
  | a :: p, b :: q => (a = b /\ diverge p q) \/ a <> b
  | _, _ => False
  end.

Section PathLaws.
Context {host : Host}.

Lemma step_child_set step root i child v :
  step_child step root = Ok (i, child) ->
  step_child step (set_child root i v) = Ok (i, v).
Proof.
  intros H.
  destruct step as [ix|ix], root; cbn in H |- *; try done.
  - destruct (fields !! Z.to_nat ix) eqn:E; cbn in H; simplify_eq.
    rewrite list_lookup_insert_eq by (by eapply lookup_lt_Some). done.
  - destruct (fields !! Z.to_nat ix) eqn:E; cbn in H; simplify_eq.
    rewrite list_lookup_insert_eq by (by eapply lookup_lt_Some). done.
  - destruct (usize_try_from ix) as [n|]; cbn in H |- *; [|done].
    destruct (elements !! n) eqn:E; cbn in H; simplify_eq.
    rewrite list_lookup_insert_eq by (by eapply lookup_lt_Some). done.
Qed.

(** A different step never reaches the child that was stored. *)
Lemma step_child_other a b root i child v :
  step_ok a -> step_ok b -> a <> b ->
  step_child a root = Ok (i, child) ->
  step_child b (set_child root i v) = step_child b root.
Proof.
  intros Ha Hb Hne H. unfold step_ok, unsigned_ok in *.
  destruct a as [x|x], b as [y|y], root; cbn in H |- *; try done.
  - destruct (fields !! Z.to_nat x) eqn:E; cbn in H; simplify_eq.
    rewrite list_lookup_insert_ne; [done|]. intros Heq. apply Hne. f_equal. lia.
  - destruct (fields !! Z.to_nat x) eqn:E; cbn in H; simplify_eq.
    rewrite list_lookup_insert_ne; [done|]. intros Heq. apply Hne. f_equal. lia.
  - destruct (usize_try_from x) as [n|] eqn:Ex; cbn in H |- *; [|done].
    destruct (elements !! n) eqn:E; cbn in H; simplify_eq.
    destruct (usize_try_from y) as [m|] eqn:Ey; cbn; [|done].
    apply usize_try_from_Some in Ex as [-> _]. apply usize_try_from_Some in Ey as [-> _].
    rewrite list_lookup_insert_ne; [done|]. intros ->. done.
Qed.

Lemma walk_mut_walk path : forall root,
  native_state_walk root path = fst <$> native_state_walk_mut root path.
Proof.
  induction path as [|a path IH]; intros root; cbn; [done|].
  destruct (step_child a root) as [[i child]|]; cbn; [|done].
  rewrite IH. by destruct (native_state_walk_mut child path) as [[node put]|].
Qed.

(** Everything below the stored node is read out of it. *)
Lemma walk_put path : forall root node put v rest,
  native_state_walk_mut root path = Ok (node, put) ->
  native_state_walk (put v) (path ++ rest) = native_state_walk v rest.
Proof.
  induction path as [|a path IH]; intros root node put v rest H; cbn in *; simplify_eq; [done|].
  destruct (step_child a root) as [[i child]|] eqn:Hs; cbn in H; [|done].
  destruct (native_state_walk_mut child path) as [[node' put']|] eqn:Hw; cbn in H; simplify_eq.
  erewrite step_child_set by done. cbn. by eapply IH.
Qed.

(** Everything a diverging path addresses is as it was. *)
Lemma walk_put_diverge path : forall root node put v other,
  Forall step_ok path -> Forall step_ok other -> diverge path other ->
  native_state_walk_mut root path = Ok (node, put) ->
  native_state_walk (put v) other = native_state_walk root other.
Proof.
  induction path as [|a path IH]; intros root node put v other Hp Ho Hd H;
    destruct other as [|b other]; try done.
  cbn in *. apply Forall_cons in Hp as [Ha Hp]. apply Forall_cons in Ho as [Hb Ho].
  destruct (step_child a root) as [[i child]|] eqn:Hs; cbn in H; [|done].
  destruct (native_state_walk_mut child path) as [[node' put']|] eqn:Hw; cbn in H; simplify_eq.
  destruct (decide (a = b)) as [->|Hne].
  - destruct Hd as [[_ Hd]|]; [|done]. erewrite step_child_set, Hs by done. cbn.
    by eapply IH.
  - cbn. by rewrite (step_child_other a b root i child (put' v)).
Qed.
End PathLaws.

(** ** Correctness of the store *)

Section StoreTheorems.
Context {host : Host}.

Lemma store_new_ok : store_ok store_new.
Proof.
  split; cbn; unfold STRIDE; [lia|by exists 1|]. intros t e. by rewrite lookup_empty.
Qed.

Lemma perform_ok s op : store_ok s -> store_ok (perform op s).1.
Proof. intros. eapply effect_ok; [done|by apply perform_effect]. Qed.

Lemma run_cons op ops s :
  run (op :: ops) s =
  ((run ops (perform op s).1).1, (op, (perform op s).2) :: (run ops (perform op s).1).2).
Proof. cbn [run]. destruct (perform op s) as [s' a]. cbn. by destruct (run ops s'). Qed.

Lemma store_run_ok ops : forall s, store_ok s -> store_ok (run ops s).1.
Proof.
  induction ops as [|op ops IH]; intros s Hs; [done|]. rewrite run_cons. by apply IH, perform_ok.
Qed.

Lemma run_owners ops : forall s t, store_ok s ->
  owner_count (run ops s).1 t = owner_count s t + holds t (run ops s).2.
Proof.
  induction ops as [|op ops IH]; intros s t Hs; [cbn; lia|]. rewrite run_cons. cbn [fst snd holds].
  rewrite IH by (by apply perform_ok).
  erewrite (effect_owners s op) by (try apply perform_effect; done). lia.
Qed.

Lemma run_next ops : forall s, store_ok s ->
  next s <= next (run ops s).1 /\
  NoDup (issued (run ops s).2) /\
  Forall (fun t => next s <= t < next (run ops s).1 /\ Z.Even t) (issued (run ops s).2).
Proof.
  induction ops as [|op ops IH]; intros s Hs; [cbn; split_and!; [lia|constructor|constructor]|].
  rewrite run_cons. cbn [fst snd].
  pose proof (perform_effect s op Hs) as Heff.
  destruct (IH (perform op s).1) as (Hle & Hnd & Hall); [by apply perform_ok|].
  destruct (effect_next _ _ _ _ Heff) as [[Hn Hno]|(ty & v & g & -> & Ha & Hlt)].
  - rewrite Hn in *. replace (issued _) with (issued (run ops (perform op s).1).2); [done|].
    cbn. destruct op; try done. destruct (perform _ _).2 as [[]|] eqn:E; try done.
    by destruct (Hno ty value glue token).
  - rewrite Ha. cbn [issued omap list_omap]. split_and!; [lia| |].
    + apply NoDup_cons. split; [|done]. intros Hin.
      eapply Forall_forall in Hall; [|exact Hin]. lia.
    + apply Forall_cons. split; [split; [lia|apply Hs]|].
      eapply Forall_impl; [exact Hall|]. intros t [[??]?]. split; [lia|done].
Qed.

(** Every state the store can reach is well formed: its tokens are even, so
    never a boxed state's, non-null and below the next one, every live state
    has an owner, and the cached engine flag is the one its value has. *)
Theorem store_invariant ops : store_ok (run ops store_new).1.
Proof. apply store_run_ok, store_new_ok. Qed.

(** C35: The owners of a token are its creation and successful retains less its
    successful releases, whatever operations ran in between: a state is
    destroyed by the release that balances the ledger and by nothing else. *)
Theorem owners_ledger ops token :
  let '(s, tr) := run ops store_new in
  owner_count s token = holds token tr /\
  (is_Some (entries s !! token) <-> 0 < holds token tr).
Proof.
  destruct (run ops store_new) as [s tr] eqn:E.
  pose proof (run_owners ops store_new token store_new_ok) as Ho.
  pose proof (store_invariant ops) as Hok. rewrite E in Ho, Hok. cbn in Ho, Hok.
  change (owner_count store_new token) with 0 in Ho.
  assert (owner_count s token = holds token tr) as Hc by lia. split; [done|].
  rewrite <- Hc. unfold owner_count. destruct (entries s !! token) as [e|] eqn:El.
  - destruct (store_entries s Hok _ _ El) as (_ & _ & [? _]). split; [lia|by eexists].
  - split; [by intros []|lia].
Qed.

Lemma even_not_boxed t : Z.Even t -> is_boxed t = false.
Proof.
  intros [k ->]. unfold is_boxed. apply bool_decide_eq_false_2.
  change 1 with (Z.ones 1). rewrite Z.land_ones, Z.mul_comm by lia.
  change (2 ^ 1) with 2. by rewrite Z.mod_mul by lia.
Qed.

(** No token is handed out twice, and none is null or has the mark of a boxed
    native state: a word whose state was destroyed never comes to name another. *)
Theorem issued_tokens_fresh ops :
  let tr := (run ops store_new).2 in
  NoDup (issued tr) /\
  Forall (fun t => 0 < t < 2 ^ 64 /\ is_boxed t = false) (issued tr).
Proof.
  cbn. destruct (run_next ops store_new store_new_ok) as (_ & Hnd & Hall). split; [done|].
  pose proof (store_next _ (store_invariant ops)).
  eapply Forall_impl; [exact Hall|]. cbn. unfold STRIDE.
  intros t [? ?%even_not_boxed]. split; [lia|done].
Qed.

(** C38: A state whose destruction must run Kira code leaves the store in one way
    only: the release that takes its last owner hands its value to the caller. *)
Theorem engine_values_handed_over ops op token e :
  let s := (run ops store_new).1 in
  entries s !! token = Some e -> requires_engine_release (ent_value e) = true ->
  entries (perform op s).1 !! token = None ->
  op = Op_release_dropping token /\ (perform op s).2 = Ok (Ans_Dropped (Some (ent_value e))).
Proof.
  intros s Hl He Hgone. pose proof (store_invariant ops) as Hok. fold s in Hok.
  pose proof (entry_engine _ (proj2 (proj2 (store_entries s Hok _ _ Hl)))) as Hflag.
  rewrite He in Hflag.
  destruct (perform_effect s op Hok) as
    [op err|ty v glue e' _ _ _|op a t e0 e' _ _ _ _ _ _|op a t e0 _ Hl0 _ Hd Ho Ha].
  - congruence.
  - cbn in Hgone. rewrite lookup_insert in Hgone. case_decide; congruence.
  - cbn in Hgone. rewrite lookup_insert in Hgone. case_decide; congruence.
  - cbn in Hgone. rewrite lookup_delete in Hgone. case_decide as Ht; [|congruence].
    subst t. simplify_eq. by destruct (Ha Hflag) as [-> ->].
Qed.
End StoreTheorems.

Section PathTheorems.
Context {host : Host}.

(** A successful path write hands back what a read of the path gave; afterwards
    a read through the path sees the new node and its insides, a read along any
    path that diverges from it sees what it saw before, errors included, and no
    other state has changed. *)
Theorem replace_at_lens s s' token ty path v old :
  replace_at token ty path v s = (s', Ok old) ->
  read_at token ty path s = (s, Ok old) /\
  (forall rest, read_at token ty (path ++ rest) s' = (s', native_state_walk v rest)) /\
  (forall other, Forall step_ok path -> Forall step_ok other -> diverge path other ->
    (read_at token ty other s').2 = (read_at token ty other s).2) /\
  (forall t, t <> token -> entries s' !! t = entries s !! t).
Proof.
  unfold replace_at, read_at; st_unfold.
  destruct (entry s token) as [e|] eqn:He; cbn; [|done].
  destruct (check_type (ent_ty e) ty) as [[]|] eqn:Ht; cbn; [|done].
  destruct (native_state_walk_mut (ent_value e) path) as [[node put]|] eqn:Hw; cbn; [|done].
  intros; simplify_eq.
  assert (entry (store_entry token (with_value e (put v)) s) token = Ok (with_value e (put v))) as He'.
  { apply entry_Ok in He as [Hne _]. unfold entry, check_non_null. rewrite decide_False by done.
    cbn. by rewrite lookup_insert_eq. }
  split_and!.
  - f_equal. by rewrite walk_mut_walk, Hw.
  - intros rest. rewrite He'. cbn. rewrite Ht. cbn. by erewrite walk_put.
  - intros other Hp Ho Hd. rewrite He'. cbn. rewrite Ht. cbn. by eapply (walk_put_diverge path).
  - intros t Ht'. cbn. by rewrite lookup_insert_ne.
Qed.

(** An append lengthens the array its path addresses by one element. *)
Lemma append_at_grows s s' token ty path v :
  append_at token ty path v s = (s', Ok tt) ->
  exists elements,
    read_at token ty path s = (s, Ok (NS_Array elements)) /\
    read_at token ty path s' = (s', Ok (NS_Array (elements ++ [v]))).
Proof.
  unfold append_at, read_at; st_unfold.
  destruct (entry s token) as [e|] eqn:He; cbn; [|done].
  destruct (check_type (ent_ty e) ty) as [[]|] eqn:Ht; cbn; [|done].
  destruct (native_state_walk_mut (ent_value e) path) as [[node put]|] eqn:Hw; cbn; [|done].
  destruct node; cbn; try done. intros; simplify_eq. exists elements. split.
  - f_equal. by rewrite walk_mut_walk, Hw.
  - apply entry_Ok in He as [Hne _]. unfold entry, check_non_null. rewrite decide_False by done.
    cbn. rewrite lookup_insert_eq. cbn. rewrite Ht. cbn. f_equal.
    rewrite <- (app_nil_r path). by erewrite walk_put.
Qed.

Lemma wire_roundtrip step :
  step_ok step -> from_wire (to_wire step).1 (to_wire step).2 = Ok step.
Proof.
  unfold step_ok, unsigned_ok. destruct step as [i|i]; cbn; intros [_ Hi]; unfold from_wire.
  - by rewrite !decide_True by done.
  - by rewrite decide_False, decide_True by done.
Qed.

(** A callback-state path survives the wire, and a word that is not a step's
    encoding is refused: decoding accepts exactly the encodings. *)
Theorem from_wire_inverts tag value step :
  u64_ok value ->
  (from_wire tag value = Ok step <-> step_ok step /\ to_wire step = (tag, value)).
Proof.
  intros Hv. split.
  - unfold from_wire, FIELD_WIRE_TAG, INDEX_WIRE_TAG, unsigned_ok in *.
    case_decide; [|case_decide]; try case_decide; intros; simplify_eq;
      cbn; unfold unsigned_ok; (split; [lia|done]).
  - intros [Hs Hw]. pose proof (wire_roundtrip step Hs) as H. by rewrite Hw in H.
Qed.
End PathTheorems.

(** ** C blocks *)

Lemma length_fill_zero bs start finish :
  (start <= finish <= length bs)%nat -> length (fill_zero bs start finish) = length bs.
Proof.
  intros. unfold fill_zero. rewrite !length_app, length_take, length_replicate, length_drop. lia.
Qed.

Lemma fill_zero_inside bs start finish k :
  (start <= finish <= length bs)%nat -> (start <= k < finish)%nat ->
  fill_zero bs start finish !! k = Some x00.
Proof.
  intros ? ?. unfold fill_zero. rewrite lookup_app_r by (rewrite length_take; lia).
  rewrite lookup_app_l by (rewrite length_replicate, length_take; lia).
  apply lookup_replicate_2. rewrite length_take. lia.
Qed.

Lemma fill_zero_outside bs start finish k :
  (start <= finish <= length bs)%nat -> (k < start \/ finish <= k)%nat ->
  fill_zero bs start finish !! k = bs !! k.
Proof.
  intros ? [Hk|Hk]; unfold fill_zero.
  - rewrite lookup_app_l by (rewrite length_take; lia). by rewrite lookup_take, decide_True.
  - rewrite lookup_app_r by (rewrite length_take; lia).
    rewrite lookup_app_r by (rewrite length_replicate, length_take; lia).
    rewrite lookup_drop, length_replicate, length_take. f_equal. lia.
Qed.

Lemma fill_zero_keeps_zero bs start finish k :
  (start <= finish <= length bs)%nat -> bs !! k = Some x00 ->
  fill_zero bs start finish !! k = Some x00.
Proof.
  intros Hr Hk. destruct (decide (start <= k < finish)%nat) as [Hin|Hout].
  - by apply fill_zero_inside.
  - by rewrite fill_zero_outside by lia.
Qed.

(** The blocks [new] and [attach] can build. *)
Inductive built : NativeCBlock -> Prop :=
| built_new bytes : built (cblock_new bytes)
| built_attach b offset width child b' :
  built b -> u64_ok offset -> attach b offset width child = Ok b' -> built b'.

Lemma width_bytes_pos w : 0 < width_bytes w.
Proof. by destruct w. Qed.

(** However a C block was put together, every embedded child word lies inside
    the payload and is cleared there, even where attached words overlap. *)
Theorem child_words_cleared b child k :
  built b -> child ∈ cb_children b ->
  ch_offset child <= Z.of_nat k < ch_offset child + width_bytes (ch_width child) ->
  cb_bytes b !! k = Some x00.
Proof.
  intros Hb. revert child k.
  induction Hb as [bytes|b off w new b' Hb IH Hoff Hat]; intros child k Hin Hk.
  { cbn in Hin. by apply elem_of_nil in Hin. }
  unfold attach in Hat. repeat case_decide; simplify_eq. cbn in Hin |- *.
  pose proof (width_bytes_pos w). unfold unsigned_ok in Hoff.
  apply elem_of_app in Hin as [Hin|Hin].
  - apply fill_zero_keeps_zero; [lia|]. by eapply IH.
  - apply list_elem_of_singleton in Hin as ->. cbn in Hk. apply fill_zero_inside; lia.
Qed.

(** ** Witnesses *)

Lemma engine_values_handed_over_witness :
  let v := NS_DropStruct 3 [NS_Int 1] in
  let s := (run (host := host64) [Op_create 7 v None] store_new).1 in
  (perform (host := host64) (Op_release_dropping 2) s).2 = Ok (Ans_Dropped (Some v)).
Proof.
  cbn zeta.
  eapply (engine_values_handed_over (host := host64)
           [Op_create 7 (NS_DropStruct 3 [NS_Int 1]) None] (Op_release_dropping 2) 2
           {| ent_ty := 7; ent_value := NS_DropStruct 3 [NS_Int 1]; ent_refs := 1;
              ent_engine := true |}); vm_compute; reflexivity.
Defined.

Definition sample_state : NativeStateStore :=
  (run (host := host64)
     [Op_create 9 (NS_Struct [NS_Int 1; NS_Array [NS_Bool true; NS_Int 5]]) None] store_new).1.

Lemma replace_at_lens_witness :
  read_at (host := host64) 2 9 [Path_Field 1; Path_Index 1] sample_state
  = (sample_state, Ok (NS_Int 5)).
Proof.
  refine (proj1 (replace_at_lens (host := host64) sample_state
    (replace_at (host := host64) 2 9 [Path_Field 1; Path_Index 1] (NS_Int 6) sample_state).1
    2 9 [Path_Field 1; Path_Index 1] (NS_Int 6) (NS_Int 5) _)).
  vm_compute. reflexivity.
Defined.

Lemma from_wire_inverts_witness : from_wire 1 (2 ^ 40) = Ok (Path_Index (2 ^ 40)).
Proof.
  apply (from_wire_inverts 1 (2 ^ 40) (Path_Index (2 ^ 40))); unfold step_ok, unsigned_ok; [lia|].
  split; [lia|reflexivity].
Defined.

Lemma child_words_cleared_witness :
  match attach (cblock_new (repeat x07 12)) 2 Bits64 (cblock_new []) with
  | Ok b => cb_bytes b !! 5%nat = Some x00
  | Err _ => False
  end.
Proof.
  set (c := CBlockChild 2 Bits64 (cblock_new [])).
  apply (child_words_cleared _ c 5).
  - eapply (built_attach (cblock_new (repeat x07 12)) 2 Bits64 (cblock_new []));
      [constructor|unfold unsigned_ok; lia|vm_compute; reflexivity].
  - apply list_elem_of_singleton. reflexivity.
  - cbn. lia.
Defined.
