(* ===== verification/Heap.v ===== *)
(** The VM's object heap: [kira-vm-runtime/src/value/{mod,object,array,cell,variant}.rs]
    with the conversion from callback state of [value/native_state.rs] and the
    event queue of [value/native_state_events.rs].

    The slot table, free list and counters are the source's.  An [Rc<Vec<Value>>]
    is a pointer into a store of counted blocks, so that [Rc::clone],
    [Rc::try_unwrap], [Rc::get_mut] and [Rc::make_mut] act on an explicit strong
    count; block pointers are never reused.  Handles and share counts are
    [nat], which is exact while a heap has fewer than [2^32] slots and holders.
    The [free_list] and [pending_drops] vectors are stacks, their top first.
    Addresses of C payloads come from an [Allocator].

    Releasing recurses over what the released object held.  Each level has
    vacated a slot before it recurses, so the slots in use are the fuel. *)

From stdpp Require Import gmap.
From S2P Require Import Prelude.
From S2P Require Import Instruction.
From S2P Require Import Foreign.
From S2P Require Import DecimalNumber.
From S2P Require Import NativeState.

(** Where the process allocator puts the payload of the [n]-th allocation. *)
Class Allocator := { payload_address : nat -> Z }.

(** ** Values and objects *)

Inductive Value :=
| V_Int (i : Z)
| V_Float (bits : Z)
| V_Bool (b : bool)
| V_Number (d : Decimal)
| V_Str (id : nat)
| V_Struct (id : nat)
| V_Array (id : nat)
| V_Enum (id : nat)
| V_Erased (id : nat)
| V_Cell (id : nat)
| V_RawPtr (word : Z)
| V_NativeState (token : Z)
| V_MainThreadTask (handle : Z)
| V_NativeView (token type_id : Z)
| V_NativeSnapshot (id : nat)
| V_CBlock (id : nat)
| V_Type (id : Z)
| V_Void.

Record VmCBlockChild := {
  vc_offset : Z;
  vc_width : ForeignPointerWidth;
  vc_block : nat
}.

Inductive Object :=
| O_Str (text : rstring)
| O_Struct (fields : nat)
| O_Array (elements : nat)
| O_Enum (tag : Z) (payload : option Value) (shares : nat)
| O_Erased (type_id : Z) (payload : Value) (shares : nat)
| O_Cell (payload : Value) (shares : nat)
| O_Snapshot (node : NativeStateValue) (shares : nat)
| O_CBlock (address : Z) (bytes : list byte) (kids : list VmCBlockChild).

(** The allocation behind an [Rc<Vec<Value>>]. *)
Record Block := { strong : nat; items : list Value }.

Record PendingDrop := { pd_id : nat; pd_glue : Z }.

Record HeapStats := { st_allocated : nat; st_freed : nat; st_current : nat; st_retained : nat }.

Record Heap := {
  slots : list (option Object);
  free_list : list nat;
  allocated : nat;
  freed : nat;
  blocks : list (option Block);
  released_cells : list nat;
  retained : list Value;
  drop_glue : gmap nat Z;
  pending_drops : list PendingDrop;
  ns_retains : list Z;
  ns_releases : list Z
}.

(** [Heap::new]. *)
Definition heap_new : Heap :=
  {| slots := []; free_list := []; allocated := 0; freed := 0; blocks := [];
     released_cells := []; retained := []; drop_glue := ∅; pending_drops := [];
     ns_retains := []; ns_releases := [] |}.

(** ** Field writes *)

Definition with_slots (s : list (option Object)) (h : Heap) : Heap :=
  {| slots := s; free_list := free_list h; allocated := allocated h; freed := freed h;
     blocks := blocks h; released_cells := released_cells h; retained := retained h;
     drop_glue := drop_glue h; pending_drops := pending_drops h;
     ns_retains := ns_retains h; ns_releases := ns_releases h |}.

Definition with_blocks (b : list (option Block)) (h : Heap) : Heap :=
  {| slots := slots h; free_list := free_list h; allocated := allocated h; freed := freed h;
     blocks := b; released_cells := released_cells h; retained := retained h;
     drop_glue := drop_glue h; pending_drops := pending_drops h;
     ns_retains := ns_retains h; ns_releases := ns_releases h |}.

Definition with_glue (g : gmap nat Z) (h : Heap) : Heap :=
  {| slots := slots h; free_list := free_list h; allocated := allocated h; freed := freed h;
     blocks := blocks h; released_cells := released_cells h; retained := retained h;
     drop_glue := g; pending_drops := pending_drops h;
     ns_retains := ns_retains h; ns_releases := ns_releases h |}.

Definition with_pending (l : list PendingDrop) (h : Heap) : Heap :=
  {| slots := slots h; free_list := free_list h; allocated := allocated h; freed := freed h;
     blocks := blocks h; released_cells := released_cells h; retained := retained h;
     drop_glue := drop_glue h; pending_drops := l;
     ns_retains := ns_retains h; ns_releases := ns_releases h |}.

Definition with_registry (released : list nat) (kept : list Value) (h : Heap) : Heap :=
  {| slots := slots h; free_list := free_list h; allocated := allocated h; freed := freed h;
     blocks := blocks h; released_cells := released; retained := kept;
     drop_glue := drop_glue h; pending_drops := pending_drops h;
     ns_retains := ns_retains h; ns_releases := ns_releases h |}.

Definition with_events (retains releases : list Z) (h : Heap) : Heap :=
  {| slots := slots h; free_list := free_list h; allocated := allocated h; freed := freed h;
     blocks := blocks h; released_cells := released_cells h; retained := retained h;
     drop_glue := drop_glue h; pending_drops := pending_drops h;
     ns_retains := retains; ns_releases := releases |}.

(** [*self.slots[i] = object] through a borrow of an occupied slot. *)
Definition put_slot (i : nat) (o : Object) (h : Heap) : Heap :=
  with_slots (<[i := Some o]> (slots h)) h.

(** What a slot holds, if the handle is in range and the slot is in use. *)
Definition slot (h : Heap) (i : nat) : option Object := mjoin (slots h !! i).

(** [slot.take()], [freed += 1], [free_list.push(i)]. *)
Definition vacate (i : nat) (h : Heap) : Heap :=
  {| slots := <[i := None]> (slots h); free_list := i :: free_list h;
     allocated := allocated h; freed := S (freed h);
     blocks := blocks h; released_cells := released_cells h; retained := retained h;
     drop_glue := drop_glue h; pending_drops := pending_drops h;
     ns_retains := ns_retains h; ns_releases := ns_releases h |}.

(** ** [Rc<Vec<Value>>] *)

Definition block (h : Heap) (p : nat) : option Block := mjoin (blocks h !! p).
Definition rc_items (h : Heap) (p : nat) : list Value :=
  match block h p with Some b => items b | None => [] end.
Definition rc_count (h : Heap) (p : nat) : nat :=
  match block h p with Some b => strong b | None => 0 end.

Definition put_block (p : nat) (b : option Block) (h : Heap) : Heap :=
  with_blocks (<[p := b]> (blocks h)) h.

(** [Rc::new]. *)
Definition rc_new (vs : list Value) (h : Heap) : Heap * nat :=
  (with_blocks (blocks h ++ [Some {| strong := 1; items := vs |}]) h, length (blocks h)).

(** [Rc::clone]. *)
Definition rc_clone (p : nat) (h : Heap) : Heap :=
  match block h p with
  | Some b => put_block p (Some {| strong := S (strong b); items := items b |}) h
  | None => h
  end.

(** Dropping an [Rc]: the vector goes with the last one. *)
Definition rc_drop (p : nat) (h : Heap) : Heap :=
  match block h p with
  | Some b =>
    put_block p (if decide (strong b <= 1)%nat then None
                 else Some {| strong := strong b - 1; items := items b |}) h
  | None => h
  end.

(** [Rc::try_unwrap], the [Err] dropped. *)
Definition rc_try_unwrap (p : nat) (h : Heap) : Heap * option (list Value) :=
  (rc_drop p h, if decide (rc_count h p = 1%nat) then Some (rc_items h p) else None).

(** [Rc::make_mut]: a vector of its own, cloned when it was shared. *)
Definition rc_make_mut (p : nat) (h : Heap) : Heap * nat :=
  if decide (rc_count h p = 1%nat) then (h, p)
  else let '(h', q) := rc_new (rc_items h p) h in (rc_drop p h', q).

(** The vector behind a unique [Rc] rewritten. *)
Definition put_items (p : nat) (vs : list Value) (h : Heap) : Heap :=
  match block h p with
  | Some b => put_block p (Some {| strong := strong b; items := vs |}) h
  | None => h
  end.

(** [iter().map(|x| self.f(x)).collect()], the heap threaded through. *)
Section MapHeap.
Context {A B : Type} (f : A -> Heap -> Heap * B).
Fixpoint map_heap (l : list A) (h : Heap) : Heap * list B :=
  match l with
  | [] => (h, [])
  | a :: l => let '(h, b) := f a h in let '(h, bs) := map_heap l h in (h, b :: bs)
  end.
End MapHeap.

(** ** Allocation and reads: [object.rs] *)

Definition alloc_object (o : Object) (h : Heap) : Heap * nat :=
  match free_list h with
  | index :: rest =>
    ({| slots := <[index := Some o]> (slots h); free_list := rest;
        allocated := S (allocated h); freed := freed h;
        blocks := blocks h; released_cells := released_cells h; retained := retained h;
        drop_glue := drop_glue h; pending_drops := pending_drops h;
        ns_retains := ns_retains h; ns_releases := ns_releases h |}, index)
  | [] =>
    ({| slots := slots h ++ [Some o]; free_list := [];
        allocated := S (allocated h); freed := freed h;
        blocks := blocks h; released_cells := released_cells h; retained := retained h;
        drop_glue := drop_glue h; pending_drops := pending_drops h;
        ns_retains := ns_retains h; ns_releases := ns_releases h |}, length (slots h))
  end.

Definition alloc (text : rstring) (h : Heap) : Heap * nat := alloc_object (O_Str text) h.

Definition get (h : Heap) (id : nat) : rstring :=
  match slot h id with Some (O_Str text) => text | _ => [] end.

Definition fields (h : Heap) (id : nat) : list Value :=
  match slot h id with Some (O_Struct p) => rc_items h p | _ => [] end.

Definition field {host : Host} (h : Heap) (id : nat) (index : Z) : option Value :=
  i ← usize_try_from index; fields h id !! i.

Definition elements (h : Heap) (id : nat) : list Value :=
  match slot h id with Some (O_Array p) => rc_items h p | _ => [] end.

Definition array_len (h : Heap) (id : nat) : option nat :=
  match slot h id with Some (O_Array p) => Some (length (rc_items h p)) | _ => None end.

Definition element (h : Heap) (id index : nat) : option Value := elements h id !! index.

Definition enum_tag (h : Heap) (id : nat) : option Z :=
  match slot h id with Some (O_Enum tag _ _) => Some tag | _ => None end.

Definition enum_shares (h : Heap) (id : nat) : option nat :=
  match slot h id with Some (O_Enum _ _ shares) => Some shares | _ => None end.

Definition erased_type_id (h : Heap) (id : nat) : option Z :=
  match slot h id with Some (O_Erased type_id _ _) => Some type_id | _ => None end.

Definition erased_payload_ref (h : Heap) (id : nat) : option Value :=
  match slot h id with Some (O_Erased _ payload _) => Some payload | _ => None end.

Definition snapshot_node (h : Heap) (id : nat) : option NativeStateValue :=
  match slot h id with Some (O_Snapshot node _) => Some node | _ => None end.

Definition glue_of (h : Heap) (id : nat) : option Z :=
  if decide (drop_glue h = ∅) then None else drop_glue h !! id.

Definition drop_glue_of (h : Heap) (id : nat) : option Z := glue_of h id.

Definition attach_drop_glue (id : nat) (glue : Z) (h : Heap) : Heap :=
  with_glue (<[id := glue]> (drop_glue h)) h.

Definition owes_drops (h : Heap) : bool := negb (is_nil (pending_drops h)).

(** ** Callback-state events: [native_state_events.rs] *)

Definition events_retain (token : Z) (h : Heap) : Heap :=
  with_events (ns_retains h ++ [token]) (ns_releases h) h.
Definition events_release (token : Z) (h : Heap) : Heap :=
  with_events (ns_retains h) (ns_releases h ++ [token]) h.
Definition owes_native_state (h : Heap) : bool :=
  negb (is_nil (ns_retains h) && is_nil (ns_releases h)).
Definition take_native_state_events (h : Heap) : Heap * (list Z * list Z) :=
  (with_events [] [] h, (ns_retains h, ns_releases h)).

(** ** C blocks *)

Section CBlocks.
Context {host : Host} {allocator : Allocator}.

Definition cblock_bytes (bytes : list byte) (h : Heap) : Heap * nat :=
  alloc_object (O_CBlock (payload_address (allocated h)) bytes []) h.

Definition cblock_address (h : Heap) (id : nat) : Z :=
  match slot h id with Some (O_CBlock address _ _) => address | _ => 0 end.

(** [target.copy_from_slice(..)] at [start]. *)
Definition overwrite (bytes : list byte) (start : nat) (word : list byte) : list byte :=
  take start bytes ++ word ++ drop (start + length word) bytes.

Definition cblock_attach (parent : nat) (offset : Z) (width : ForeignPointerWidth) (child : nat)
    (h : Heap) : Heap * bool :=
  let word := take (Z.to_nat (width_bytes width)) (to_le 8 (cblock_address h child)) in
  match usize_try_from offset with
  | None => (h, false)
  | Some start =>
    let finish := (start + length word)%nat in
    if decide (usize_max < Z.of_nat finish) then (h, false)
    else
      match slot h parent with
      | Some (O_CBlock address bytes kids) =>
        if decide (finish <= length bytes)%nat then
          (put_slot parent (O_CBlock address (overwrite bytes start word)
             (kids ++ [{| vc_offset := offset; vc_width := width; vc_block := child |}])) h, true)
        else (h, false)
      | _ => (h, false)
      end
  end.

(** The children of a copied block attached one after the other. *)
Fixpoint attach_copies (copy_child : nat -> Heap -> Heap * nat) (kids : list VmCBlockChild)
    (copy : nat) (h : Heap) : Heap :=
  match kids with
  | [] => h
  | c :: kids =>
    let '(h, child_copy) := copy_child (vc_block c) h in
    let '(h, _) := cblock_attach copy (vc_offset c) (vc_width c) child_copy h in
    attach_copies copy_child kids copy h
  end.

(** [copy_cblock]; the fuel bounds the depth of the block tree. *)
Fixpoint copy_cblock_fuel (fuel : nat) (id : nat) (h : Heap) : Heap * nat :=
  let '(bytes, kids) :=
    match slot h id with
    | Some (O_CBlock _ bytes kids) => (bytes, kids)
    | _ => ([], [])
    end in
  let '(h, copy) := cblock_bytes bytes h in
  match fuel with
  | O => (h, copy)
  | S fuel => (attach_copies (copy_cblock_fuel fuel) kids copy h, copy)
  end.

Definition copy_cblock (id : nat) (h : Heap) : Heap * nat :=
  copy_cblock_fuel (length (slots h)) id h.

(** [copy_native_cblock]. *)
Fixpoint copy_native_cblock (b : NativeCBlock) (h : Heap) : Heap * nat :=
  match b with
  | CBlockNode bytes kids =>
    let '(h, root) := cblock_bytes bytes h in
    ((fix attach_all (kids : list NativeCBlockChild) (h : Heap) : Heap :=
        match kids with
        | [] => h
        | CBlockChild offset width nested :: kids =>
          let '(h, nested) := copy_native_cblock nested h in
          let '(h, _) := cblock_attach root offset width nested h in
          attach_all kids h
        end) kids h, root)
  end.

(** ** Copies *)

(** One more hold on a counted object; an object of another kind is left alone. *)
Definition add_share (id : nat) (h : Heap) : Heap :=
  match slot h id with
  | Some (O_Enum tag payload shares) => put_slot id (O_Enum tag payload (S shares)) h
  | Some (O_Erased type_id payload shares) => put_slot id (O_Erased type_id payload (S shares)) h
  | Some (O_Cell payload shares) => put_slot id (O_Cell payload (S shares)) h
  | Some (O_Snapshot node shares) => put_slot id (O_Snapshot node (S shares)) h
  | _ => h
  end.

Definition is_enum (o : option Object) : bool :=
  match o with Some (O_Enum _ _ _) => true | _ => false end.
Definition is_erased (o : option Object) : bool :=
  match o with Some (O_Erased _ _ _) => true | _ => false end.
Definition is_cell (o : option Object) : bool :=
  match o with Some (O_Cell _ _) => true | _ => false end.
Definition is_snapshot (o : option Object) : bool :=
  match o with Some (O_Snapshot _ _) => true | _ => false end.

Definition copy_value (v : Value) (h : Heap) : Heap * Value :=
  match v with
  | V_NativeState token => (events_retain token h, v)
  | V_Str id =>
    let shared := match slot h id with Some (O_Str text) => text | _ => [] end in
    let '(h, copy) := alloc_object (O_Str shared) h in (h, V_Str copy)
  | V_Struct id =>
    let '(h, shared) :=
      match slot h id with Some (O_Struct p) => (rc_clone p h, p) | _ => rc_new [] h end in
    let '(h, copy) := alloc_object (O_Struct shared) h in
    (match glue_of h id with
     | Some glue => with_glue (<[copy := glue]> (drop_glue h)) h
     | None => h
     end, V_Struct copy)
  | V_Array id =>
    let '(h, shared) :=
      match slot h id with Some (O_Array p) => (rc_clone p h, p) | _ => rc_new [] h end in
    let '(h, copy) := alloc_object (O_Array shared) h in (h, V_Array copy)
  | V_Enum id => (if is_enum (slot h id) then add_share id h else h, v)
  | V_Erased id => (if is_erased (slot h id) then add_share id h else h, v)
  | V_Cell id => (if is_cell (slot h id) then add_share id h else h, v)
  | V_NativeSnapshot id => (if is_snapshot (slot h id) then add_share id h else h, v)
  | V_CBlock id => let '(h, copy) := copy_cblock id h in (h, V_CBlock copy)
  | _ => (h, v)
  end.

(** ** Releases *)

(** The object in a slot loses one of its holders. *)
Definition drop_share (id : nat) (h : Heap) : Heap :=
  match slot h id with
  | Some (O_Enum tag payload shares) => put_slot id (O_Enum tag payload (shares - 1)) h
  | Some (O_Erased type_id payload shares) => put_slot id (O_Erased type_id payload (shares - 1)) h
  | Some (O_Cell payload shares) => put_slot id (O_Cell payload (shares - 1)) h
  | Some (O_Snapshot node shares) => put_slot id (O_Snapshot node (shares - 1)) h
  | _ => h
  end.

Definition last_holder_of (h : Heap) (id : nat) : bool :=
  match slot h id with
  | Some (O_Struct p) => bool_decide (rc_count h p = 1%nat)
  | _ => false
  end.

Definition park_pending_drop (id : nat) (glue : Z) (h : Heap) : Heap :=
  with_pending ({| pd_id := id; pd_glue := glue |} :: pending_drops h) h.

(** The releases of each kind, over the release of what an object held. *)
Section FreeWith.
Context (drop : Value -> Heap -> Heap).

Definition drop_all (vs : list Value) (h : Heap) : Heap := foldl (fun h v => drop v h) h vs.

Definition free_str_at (id : nat) (h : Heap) : Heap :=
  match slot h id with Some (O_Str _) => vacate id h | _ => h end.

Definition free_struct_at (id : nat) (h : Heap) : Heap :=
  match glue_of h id, last_holder_of h id with
  | Some glue, true => park_pending_drop id glue h
  | _, _ =>
    match slot h id with
    | Some (O_Struct p) =>
      let h := vacate id h in
      let h := if decide (drop_glue h = ∅) then h else with_glue (delete id (drop_glue h)) h in
      let '(h, unwrapped) := rc_try_unwrap p h in
      match unwrapped with
      | Some fields => drop_all (rev fields) h
      | None => h
      end
    | _ => h
    end
  end.

Definition free_array_at (id : nat) (h : Heap) : Heap :=
  match slot h id with
  | Some (O_Array p) =>
    let '(h, unwrapped) := rc_try_unwrap p (vacate id h) in
    match unwrapped with
    | Some elements => drop_all (rev elements) h
    | None => h
    end
  | _ => h
  end.

Definition free_enum_at (id : nat) (h : Heap) : Heap :=
  match slot h id with
  | Some (O_Enum _ payload shares) =>
    if decide (1 < shares)%nat then drop_share id h
    else
      let h := vacate id h in
      match payload with Some payload => drop payload h | None => h end
  | _ => h
  end.

Definition free_erased_at (id : nat) (h : Heap) : Heap :=
  match slot h id with
  | Some (O_Erased _ payload shares) =>
    if decide (1 < shares)%nat then drop_share id h else drop payload (vacate id h)
  | _ => h
  end.

Definition free_cell_at (id : nat) (h : Heap) : Heap :=
  match slot h id with
  | Some (O_Cell payload shares) =>
    if decide (1 < shares)%nat then drop_share id h else drop payload (vacate id h)
  | _ => h
  end.

Definition free_cblock_at (id : nat) (h : Heap) : Heap :=
  match slot h id with
  | Some (O_CBlock _ _ kids) =>
    drop_all ((fun c => V_CBlock (vc_block c)) <$> kids) (vacate id h)
  | _ => h
  end.
End FreeWith.

Definition free_snapshot (id : nat) (h : Heap) : Heap :=
  match slot h id with
  | Some (O_Snapshot _ shares) =>
    if decide (1 < shares)%nat then drop_share id h else vacate id h
  | _ => h
  end.

Fixpoint drop_value_fuel (fuel : nat) (v : Value) (h : Heap) : Heap :=
  match fuel with
  | O => h
  | S fuel =>
    match v with
    | V_NativeState token => events_release token h
    | V_Str id => free_str_at id h
    | V_Struct id => free_struct_at (drop_value_fuel fuel) id h
    | V_Array id => free_array_at (drop_value_fuel fuel) id h
    | V_Enum id => free_enum_at (drop_value_fuel fuel) id h
    | V_Erased id => free_erased_at (drop_value_fuel fuel) id h
    | V_Cell id => free_cell_at (drop_value_fuel fuel) id h
    | V_NativeSnapshot id => free_snapshot id h
    | V_CBlock id => free_cblock_at (drop_value_fuel fuel) id h
    | _ => h
    end
  end.

Definition drop_value (v : Value) (h : Heap) : Heap := drop_value_fuel (S (length (slots h))) v h.

Definition free_struct (id : nat) (h : Heap) : Heap := drop_value (V_Struct id) h.
Definition free_cell (id : nat) (h : Heap) : Heap := drop_value (V_Cell id) h.

(** ** Pending user drops *)

Definition take_pending_drop (h : Heap) : Heap * option PendingDrop :=
  match pending_drops h with
  | [] => (h, None)
  | pd :: rest => (with_pending rest h, Some pd)
  end.

Definition finish_pending_drop (id : nat) (h : Heap) : Heap :=
  free_struct id (with_glue (delete id (drop_glue h)) h).

(** [retain_for_foreign]. *)
Definition retain_for_foreign (v : Value) (h : Heap) : Heap :=
  match v with
  | V_NativeState _ => h
  | _ => with_registry (released_cells h) (retained h ++ [v]) h
  end.
End CBlocks.

(** ** Reading callback state back: [value/native_state.rs] *)

Section Building.
Context {host : Host} {allocator : Allocator}.

Definition new_struct (vs : list Value) (h : Heap) : Heap * nat :=
  let '(h, p) := rc_new vs h in alloc_object (O_Struct p) h.
Definition new_array (vs : list Value) (h : Heap) : Heap * nat :=
  let '(h, p) := rc_new vs h in alloc_object (O_Array p) h.

(** [from_native_state].  The source allocates with [alloc_struct] and its
    siblings, whose [own] leaves these freshly built values alone
    ([HeapWrites.from_native_state_equations]). *)
Fixpoint from_native_state (node : NativeStateValue) (h : Heap) : Heap * Value :=
  match node with
  | NS_Int i => (h, V_Int i)
  | NS_Number d => (h, V_Number d)
  | NS_Float bits => (h, V_Float bits)
  | NS_Bool b => (h, V_Bool b)
  | NS_RawPtr word => (h, V_RawPtr word)
  | NS_String text => let '(h, id) := alloc text h in (h, V_Str id)
  | NS_Struct fs =>
    let '(h, vs) := map_heap from_native_state fs h in
    let '(h, id) := new_struct vs h in (h, V_Struct id)
  | NS_DropStruct glue fs =>
    let '(h, vs) := map_heap from_native_state fs h in
    let '(h, id) := new_struct vs h in (attach_drop_glue id glue h, V_Struct id)
  | NS_Array es =>
    let '(h, vs) := map_heap from_native_state es h in
    let '(h, id) := new_array vs h in (h, V_Array id)
  | NS_Enum tag None =>
    let '(h, id) := alloc_object (O_Enum tag None 1) h in (h, V_Enum id)
  | NS_Enum tag (Some payload) =>
    let '(h, v) := from_native_state payload h in
    let '(h, id) := alloc_object (O_Enum tag (Some v) 1) h in (h, V_Enum id)
  | NS_Any type_id payload =>
    let '(h, v) := from_native_state payload h in
    let '(h, id) := alloc_object (O_Erased type_id v 1) h in (h, V_Erased id)
  | NS_Cell cell =>
    if vm_owned cell && bool_decide (cell_handle cell < 2 ^ 32)
    then copy_value (V_Cell (Z.to_nat (cell_handle cell))) h
    else (h, V_RawPtr (cell_handle cell))
  | NS_NativeState owner => (events_retain (owner_token owner) h, V_NativeState (owner_token owner))
  | NS_CBlock b => let '(h, id) := copy_native_cblock b h in (h, V_CBlock id)
  end.

Definition read_state_node (node : NativeStateValue) (h : Heap) : Heap * Value :=
  match node with
  | NS_Struct _ | NS_DropStruct _ _ | NS_Array _ | NS_Enum _ _ =>
    let '(h, id) := alloc_object (O_Snapshot node 1) h in (h, V_NativeSnapshot id)
  | _ => from_native_state node h
  end.

(** [own]. *)
Definition own (v : Value) (h : Heap) : Heap * Value :=
  match v with
  | V_NativeSnapshot id =>
    match snapshot_node h id with
    | None => (free_snapshot id h, V_Void)
    | Some node =>
      let '(h, rebuilt) := from_native_state node h in (free_snapshot id h, rebuilt)
    end
  | _ => (h, v)
  end.

Definition is_snapshot_value (v : Value) : bool :=
  match v with V_NativeSnapshot _ => true | _ => false end.

Definition own_all (vs : list Value) (h : Heap) : Heap * list Value :=
  if existsb is_snapshot_value vs then map_heap own vs h else (h, vs).

(** ** Allocation of values *)

Definition alloc_struct (vs : list Value) (h : Heap) : Heap * nat :=
  let '(h, vs) := own_all vs h in new_struct vs h.

Definition alloc_struct_dropping (vs : list Value) (glue : Z) (h : Heap) : Heap * nat :=
  let '(h, id) := alloc_struct vs h in (with_glue (<[id := glue]> (drop_glue h)) h, id).

Definition alloc_array (vs : list Value) (h : Heap) : Heap * nat :=
  let '(h, vs) := own_all vs h in new_array vs h.

Definition alloc_enum (tag : Z) (payload : option Value) (h : Heap) : Heap * nat :=
  let '(h, payload) :=
    match payload with
    | Some v => let '(h, v) := own v h in (h, Some v)
    | None => (h, None)
    end in
  alloc_object (O_Enum tag payload 1) h.

Definition alloc_erased (type_id : Z) (payload : Value) (h : Heap) : Heap * nat :=
  let '(h, payload) := own payload h in alloc_object (O_Erased type_id payload 1) h.

Definition alloc_cell (payload : Value) (h : Heap) : Heap * nat :=
  let '(h, payload) := own payload h in alloc_object (O_Cell payload 1) h.

(** ** Reads that hand out an owned copy *)

Definition copied (payload : option Value) (h : Heap) : Heap * option Value :=
  match payload with
  | Some v => let '(h, v) := copy_value v h in (h, Some v)
  | None => (h, None)
  end.

Definition enum_payload (id : nat) (h : Heap) : Heap * option Value :=
  copied (match slot h id with Some (O_Enum _ payload _) => payload | _ => None end) h.

Definition erased_payload (id : nat) (h : Heap) : Heap * option Value :=
  copied (match slot h id with Some (O_Erased _ payload _) => Some payload | _ => None end) h.

Definition cell_get (id : nat) (h : Heap) : Heap * option Value :=
  copied (match slot h id with Some (O_Cell payload _) => Some payload | _ => None end) h.

(** ** Writes *)

Definition cell_set (id : nat) (v : Value) (h : Heap) : Heap * bool :=
  if match v with V_Cell self_id => bool_decide (self_id = id) | _ => false end
     || negb (is_cell (slot h id))
  then (drop_value v h, false)
  else
    let '(h, v) := own v h in
    match slot h id with
    | Some (O_Cell previous shares) => (drop_value previous (put_slot id (O_Cell v shares) h), true)
    | _ => (h, false)
    end.

(** [make_struct_unique]: the clone held while the fields are copied, then the
    slot's own hold and the clone let go of. *)
Definition make_struct_unique (id : nat) (h : Heap) : Heap :=
  match slot h id with
  | Some (O_Struct p) =>
    if decide (1 < rc_count h p)%nat then
      let h := rc_clone p h in
      let '(h, copies) := map_heap copy_value (rc_items h p) h in
      let h :=
        match slot h id with
        | Some (O_Struct old) =>
          let '(h, q) := rc_new copies h in rc_drop old (put_slot id (O_Struct q) h)
        | _ => h
        end in
      rc_drop p h
    else h
  | _ => h
  end.

Definition make_array_unique (id : nat) (h : Heap) : Heap :=
  match slot h id with
  | Some (O_Array p) =>
    if decide (1 < rc_count h p)%nat then
      let h := rc_clone p h in
      let '(h, copies) := map_heap copy_value (rc_items h p) h in
      let h :=
        match slot h id with
        | Some (O_Array old) =>
          let '(h, q) := rc_new copies h in rc_drop old (put_slot id (O_Array q) h)
        | _ => h
        end in
      rc_drop p h
    else h
  | _ => h
  end.

Definition set_field (id : nat) (index : Z) (v : Value) (h : Heap) : Heap * bool :=
  match field h id index with
  | None => (h, false)
  | Some _ =>
    let '(h, v) := own v h in
    let h := make_struct_unique id h in
    match field h id index with
    | None => (drop_value v h, false)
    | Some previous =>
      let h := drop_value previous h in
      match slot h id with
      | Some (O_Struct p) =>
        if decide (rc_count h p = 1%nat) then
          match usize_try_from index with
          | Some i =>
            if decide (i < length (rc_items h p))%nat
            then (put_items p (<[i := v]> (rc_items h p)) h, true)
            else (h, false)
          | None => (h, false)
          end
        else (h, false)
      | _ => (h, false)
      end
    end
  end.

Definition set_element (id index : nat) (v : Value) (h : Heap) : Heap * bool :=
  match array_len h id with
  | Some len =>
    if decide (index < len)%nat then
      let '(h, v) := own v h in
      let h := make_array_unique id h in
      match element h id index with
      | None => (drop_value v h, false)
      | Some previous =>
        let h := drop_value previous h in
        match slot h id with
        | Some (O_Array p) =>
          let '(h, q) := rc_make_mut p h in
          let h := put_slot id (O_Array q) h in
          if decide (index < length (rc_items h q))%nat
          then (put_items q (<[index := v]> (rc_items h q)) h, true)
          else (h, false)
        | _ => (h, false)
        end
      end
    else (h, false)
  | None => (h, false)
  end.

Definition push_element (id : nat) (v : Value) (h : Heap) : Heap * bool :=
  match array_len h id with
  | None => (h, false)
  | Some _ =>
    let '(h, v) := own v h in
    let h := make_array_unique id h in
    match slot h id with
    | Some (O_Array p) =>
      let '(h, q) := rc_make_mut p h in
      let h := put_slot id (O_Array q) h in
      (put_items q (rc_items h q ++ [v]) h, true)
    | _ => (h, false)
    end
  end.

(** ** Draining *)

(** A capture-cell share held by a callback-state tree is given up. *)
Definition record_release (handle : nat) (h : Heap) : Heap :=
  with_registry (released_cells h ++ [handle]) (retained h) h.

(** One turn of [drain_released_cells]' loop. *)
Definition drain_released_cells (h : Heap) : Heap :=
  foldl (fun h id => free_cell id h) (with_registry [] (retained h) h) (released_cells h).

(** [abandon_pending_drops]' loop; each turn frees a parked object. *)
Fixpoint abandon_fuel (fuel : nat) (h : Heap) : Heap :=
  match fuel with
  | O => h
  | S fuel =>
    match take_pending_drop h with
    | (h, Some pd) => abandon_fuel fuel (finish_pending_drop (pd_id pd) h)
    | (h, None) => h
    end
  end.
Definition abandon_pending_drops (h : Heap) : Heap := abandon_fuel (S (length (slots h))) h.
End Building.
