(* ===== verification/HeapOwnership.v ===== *)
(** Ownership on the VM heap: who holds what, and that every operation keeps
    the books.

    A heap is a graph whose nodes are the occupied slots and the shared
    [Rc] blocks.  A node's [out] references are what it owns; the program's
    operand stack and locals own a list [R] of references, and callback-state
    trees own a list [E] of shares of capture cells.  [Inv h E R] says that for
    every node the references to it, wherever they are stored, are exactly as
    many as its count says ([1] for the objects that have one owner), together
    with the accounting of the slot table.  Everything is stated pointwise over
    references, so that each step is a sum. *)

From stdpp Require Import gmap.
From S2P Require Import Prelude.
From S2P Require Import Instruction.
From S2P Require Import Foreign.
From S2P Require Import NativeState.
From S2P Require Import Heap.

Create HintDb heap discriminated.

(** ** References *)

Inductive Kind := K_Str | K_Struct | K_Array | K_Enum | K_Erased | K_Cell | K_Snapshot | K_CBlock.

#[export] Instance Kind_eq_decision : EqDecision Kind.
Proof. solve_decision. Defined.

Inductive Ref := R_Slot (k : Kind) (i : nat) | R_Block (p : nat).

#[export] Instance Ref_eq_decision : EqDecision Ref.
Proof. solve_decision. Defined.

(** The reference a value is. *)
Definition refs (v : Value) : list Ref :=
  match v with
  | V_Str i => [R_Slot K_Str i] | V_Struct i => [R_Slot K_Struct i]
  | V_Array i => [R_Slot K_Array i] | V_Enum i => [R_Slot K_Enum i]
  | V_Erased i => [R_Slot K_Erased i] | V_Cell i => [R_Slot K_Cell i]
  | V_NativeSnapshot i => [R_Slot K_Snapshot i] | V_CBlock i => [R_Slot K_CBlock i]
  | _ => []
  end.

Definition refs_all (vs : list Value) : list Ref := concat (refs <$> vs).

Definition kind_of (o : Object) : Kind :=
  match o with
  | O_Str _ => K_Str | O_Struct _ => K_Struct | O_Array _ => K_Array
  | O_Enum _ _ _ => K_Enum | O_Erased _ _ _ => K_Erased | O_Cell _ _ => K_Cell
  | O_Snapshot _ _ => K_Snapshot | O_CBlock _ _ _ => K_CBlock
  end.

Definition kid_refs (kids : list VmCBlockChild) : list Ref :=
  (fun c => R_Slot K_CBlock (vc_block c)) <$> kids.

(** What an object owns. *)
Definition out (o : Object) : list Ref :=
  match o with
  | O_Str _ | O_Snapshot _ _ => []
  | O_Struct p | O_Array p => [R_Block p]
  | O_Enum _ payload _ => match payload with Some v => refs v | None => [] end
  | O_Erased _ payload _ | O_Cell payload _ => refs payload
  | O_CBlock _ _ kids => kid_refs kids
  end.

(** How many holders an object counts. *)
Definition holders (o : Object) : nat :=
  match o with
  | O_Str _ | O_Struct _ | O_Array _ | O_CBlock _ _ _ => 1
  | O_Enum _ _ n | O_Erased _ _ n | O_Cell _ n | O_Snapshot _ n => n
  end.

Definition slot_out (o : option Object) : list Ref :=
  match o with Some o => out o | None => [] end.
Definition block_out (b : option Block) : list Ref :=
  match b with Some b => refs_all (items b) | None => [] end.

(** What the heap's own registries hold. *)
Definition reserved (h : Heap) : list Ref :=
  refs_all (retained h) ++ ((fun pd => R_Slot K_Struct (pd_id pd)) <$> pending_drops h)
  ++ (R_Slot K_Cell <$> released_cells h).

(** ** Counting *)

Fixpoint occ (r : Ref) (l : list Ref) : nat :=
  match l with
  | [] => 0
  | x :: l => (if decide (x = r) then 1 else 0) + occ r l
  end.

Lemma occ_app r l k : occ r (l ++ k) = (occ r l + occ r k)%nat.
Proof. induction l; cbn; lia. Qed.

Lemma occ_cons r x l : occ r (x :: l) = ((if decide (x = r) then 1 else 0) + occ r l)%nat.
Proof. done. Qed.

#[export] Instance occ_Permutation r : Proper (Permutation ==> eq) (occ r).
Proof. intros l k H. induction H; cbn; lia. Qed.

Lemma occ_elem r l : r ∈ l <-> (1 <= occ r l)%nat.
Proof.
  induction l as [|x l IH]; cbn; [split; [by intros ?%elem_of_nil|lia]|].
  rewrite elem_of_cons, IH. case_decide as Hx; [subst; split; [lia|by left]|].
  split; [intros [?|?]; [congruence|lia]|by right].
Qed.

#[export] Instance refs_all_Permutation : Proper (Permutation ==> Permutation) refs_all.
Proof. intros l k H. unfold refs_all. by rewrite H. Qed.

Lemma refs_all_cons v vs : refs_all (v :: vs) = refs v ++ refs_all vs.
Proof. done. Qed.

Lemma refs_all_app vs ws : refs_all (vs ++ ws) = refs_all vs ++ refs_all ws.
Proof. unfold refs_all. by rewrite fmap_app, concat_app. Qed.

Lemma elem_refs_all vs v r : v ∈ vs -> r ∈ refs v -> r ∈ refs_all vs.
Proof.
  intros Hv Hr. induction vs as [|x vs IH]; [by apply elem_of_nil in Hv|].
  rewrite refs_all_cons. apply elem_of_app. apply elem_of_cons in Hv as [->|Hv]; [by left|].
  right. by apply IH.
Qed.

#[global] Arguments refs_all : simpl never.

Definition sum {A} (f : A -> nat) (l : list A) : nat := sum_list (f <$> l).

Lemma sum_insert {A} (f : A -> nat) l i x y :
  l !! i = Some x -> (sum f (<[i := y]> l) + f x = sum f l + f y)%nat.
Proof.
  unfold sum. revert i. induction l as [|z l IH]; intros [|i] H; simplify_eq/=; [lia|].
  specialize (IH i H). lia.
Qed.

Lemma sum_app {A} (f : A -> nat) l k : sum f (l ++ k) = (sum f l + sum f k)%nat.
Proof. unfold sum. rewrite fmap_app, sum_list_with_app. done. Qed.

Definition occupied_slot (o : option Object) : nat := match o with Some _ => 1 | None => 0 end.

(** Slots in use. *)
Definition occupied (h : Heap) : nat := sum occupied_slot (slots h).

(** References to [r] stored in the heap. *)
Definition total (h : Heap) (r : Ref) : nat :=
  sum (fun o => occ r (slot_out o)) (slots h) + sum (fun b => occ r (block_out b)) (blocks h)
  + occ r (reserved h).

(** References to [r] there should be. *)
Definition expected (h : Heap) (r : Ref) : nat :=
  match r with
  | R_Slot k i =>
    match slot h i with
    | Some o => if decide (kind_of o = k) then holders o else 0
    | None => 0
    end
  | R_Block p => rc_count h p
  end.

#[global] Arguments sum : simpl never.
#[global] Arguments total : simpl never.
#[global] Arguments reserved : simpl never.
#[global] Arguments occupied : simpl never.

(** [P] of every element. *)
Section AllOf.
Context {A : Type} (P : A -> Prop).
Fixpoint all_of (l : list A) : Prop :=
  match l with [] => True | x :: l => P x /\ all_of l end.
End AllOf.

Section Ownership.
Context {host : Host} {allocator : Allocator}.

(** A child word lies inside a payload of [len] bytes. *)
Definition word_fits (len : nat) (offset : Z) (width : ForeignPointerWidth) : Prop :=
  exists start, usize_try_from offset = Some start /\
    (start + Z.to_nat (width_bytes width) <= len)%nat /\
    Z.of_nat (start + Z.to_nat (width_bytes width)) <= usize_max.

Fixpoint cblock_fits (b : NativeCBlock) : Prop :=
  match b with
  | CBlockNode bytes kids =>
    (fix kids_fit (kids : list NativeCBlockChild) : Prop :=
       match kids with
       | [] => True
       | CBlockChild offset width nested :: kids =>
         word_fits (length bytes) offset width /\ cblock_fits nested /\ kids_fit kids
       end) kids
  end.

(** A callback-state tree this heap can read back: the VM cells it has shares
    of are held for it, and its C blocks hold their child words. *)
Fixpoint node_ok (E : list Ref) (node : NativeStateValue) : Prop :=
  match node with
  | NS_Struct vs | NS_DropStruct _ vs | NS_Array vs => all_of (node_ok E) vs
  | NS_Any _ v => node_ok E v
  | NS_Enum _ payload => match payload with Some v => node_ok E v | None => True end
  | NS_Cell c =>
    vm_owned c = true -> cell_handle c < 2 ^ 32 -> R_Slot K_Cell (Z.to_nat (cell_handle c)) ∈ E
  | NS_CBlock b => cblock_fits b
  | _ => True
  end.

(** What an object needs besides its holders. *)
Definition object_ok (E : list Ref) (o : Object) : Prop :=
  match o with
  | O_Snapshot node _ => node_ok E node
  | O_CBlock _ bytes kids =>
    Forall (fun c => word_fits (length bytes) (vc_offset c) (vc_width c)) kids
  | _ => True
  end.

(** ** The invariant *)

Record Inv (h : Heap) (E R : list Ref) : Prop := {
  inv_count : forall r, (occ r E + occ r R + total h r = expected h r)%nat;
  inv_holders : forall i o, slot h i = Some o -> (1 <= holders o)%nat;
  inv_strong : forall p b, block h p = Some b -> (1 <= strong b)%nat;
  inv_free_nodup : NoDup (free_list h);
  inv_free : forall i, i ∈ free_list h <-> slots h !! i = Some None;
  inv_accounts : allocated h = (freed h + occupied h)%nat;
  inv_glue : forall i, is_Some (drop_glue h !! i) -> exists p, slot h i = Some (O_Struct p);
  inv_objects : forall i o, slot h i = Some o -> object_ok E o
}.

(** Roots matter only as a multiset. *)
Lemma Inv_perm h E R R' : (forall r, occ r R = occ r R') -> Inv h E R -> Inv h E R'.
Proof. intros H [Hc ? ? ? ? ? ? ?]. split; try done. intros r. rewrite <- H. apply Hc. Qed.

#[export] Instance Inv_Permutation h E : Proper (Permutation ==> iff) (Inv h E).
Proof. intros R R' H. split; apply Inv_perm; intros r; by rewrite H. Qed.

Lemma slot_Some h i o : slot h i = Some o <-> slots h !! i = Some (Some o).
Proof. unfold slot. destruct (slots h !! i) as [[]|]; cbn; split; congruence. Qed.

Lemma block_Some h p b : block h p = Some b <-> blocks h !! p = Some (Some b).
Proof. unfold block. destruct (blocks h !! p) as [[]|]; cbn; split; congruence. Qed.

(** A reference somebody holds names a live node of its kind. *)
Lemma live_ref h E k i R :
  Inv h E (R_Slot k i :: R) -> exists o, slot h i = Some o /\ kind_of o = k.
Proof.
  intros [Hc _ _ _ _ _ _ _]. specialize (Hc (R_Slot k i)). rewrite occ_cons in Hc.
  rewrite decide_True in Hc by done. cbn in Hc.
  destruct (slot h i) as [o|]; [|lia]. exists o. split; [done|]. case_decide; [done|lia].
Qed.

Lemma live_block h E p R :
  Inv h E (R_Block p :: R) -> exists b, block h p = Some b.
Proof.
  intros [Hc _ _ _ _ _ _ _]. specialize (Hc (R_Block p)). rewrite occ_cons in Hc.
  rewrite decide_True in Hc by done. cbn in Hc. unfold rc_count in Hc.
  destruct (block h p) as [b|]; [by eexists|lia].
Qed.

(** What a stored or held reference names is live. *)
Lemma stored_live h E R r : Inv h E R -> (1 <= total h r)%nat -> (1 <= expected h r)%nat.
Proof. intros [Hc _ _ _ _ _ _ _] H. specialize (Hc r). lia. Qed.


(** ** Primitive steps *)

Lemma lookup_put_slot h i o j :
  is_Some (slot h i) -> slot (put_slot i o h) j = if decide (i = j) then Some o else slot h j.
Proof.
  intros [x Hx%slot_Some]. unfold slot, put_slot. cbn. rewrite list_lookup_insert.
  pose proof (lookup_lt_Some _ _ _ Hx). destruct (decide (i = j)) as [->|].
  - by rewrite decide_True by done.
  - by rewrite decide_False by (intros [? ?]; done).
Qed.

Lemma put_slot_total h i o o' r :
  slot h i = Some o ->
  (total (put_slot i o' h) r + occ r (out o) = total h r + occ r (out o'))%nat.
Proof.
  intros H%slot_Some. unfold total, put_slot. cbn [with_slots slots blocks].
  change (reserved (with_slots _ h)) with (reserved h).
  pose proof (sum_insert (fun o => occ r (slot_out o)) (slots h) i _ (Some o') H) as Hs.
  cbn [slot_out] in Hs. lia.
Qed.

Lemma put_slot_occupied h i o o' :
  slot h i = Some o -> occupied (put_slot i o' h) = occupied h.
Proof.
  intros H%slot_Some. unfold occupied, put_slot. cbn [with_slots slots].
  pose proof (sum_insert occupied_slot (slots h) i _ (Some o') H) as Hs. cbn in Hs. lia.
Qed.

(** The holders of an object and what it owns change together. *)
Lemma put_slot_Inv h E R R' i o o' :
  Inv h E R -> slot h i = Some o -> kind_of o' = kind_of o -> (1 <= holders o')%nat ->
  object_ok E o' ->
  (forall r, occ r R' + occ r (out o') +
     (if decide (r = R_Slot (kind_of o) i) then holders o else 0) =
     occ r R + occ r (out o) +
     (if decide (r = R_Slot (kind_of o) i) then holders o' else 0))%nat ->
  Inv (put_slot i o' h) E R'.
Proof.
  intros [Hc Hh Hb Hn Hf Ha Hg Hs] Hi Hk Ho Hsn Hr.
  assert (forall j, slot (put_slot i o' h) j = if decide (i = j) then Some o' else slot h j)
    as Hput by (intros; by apply lookup_put_slot).
  split; try done.
  - intros r. specialize (Hr r). specialize (Hc r). pose proof (put_slot_total h i o o' r Hi).
    assert (expected (put_slot i o' h) r + (if decide (r = R_Slot (kind_of o) i) then holders o else 0)
      = expected h r + (if decide (r = R_Slot (kind_of o) i) then holders o' else 0))%nat; [|lia].
    destruct r as [k j|p]; cbn [expected]; [|change (rc_count (put_slot i o' h) p) with (rc_count h p);
      rewrite !decide_False by done; lia].
    rewrite Hput. destruct (decide (i = j)) as [<-|Hne].
    + rewrite Hi, Hk. case_decide as Hd; repeat case_decide; simplify_eq; lia.
    + rewrite !(decide_False (P := R_Slot k j = _)) by congruence. lia.
  - intros j x. rewrite Hput. case_decide; [intros; simplify_eq; done|apply Hh].
  - intros j. cbn. rewrite Hf, list_lookup_insert_Some. apply slot_Some in Hi.
    split; [intros Hj; right; split; [congruence|done]|]. intros [(? & ? & ?)|[? ?]]; [done|done].
  - rewrite (put_slot_occupied h i o o') by done. done.
  - intros j [p Hj]%Hg. rewrite Hput. case_decide; [|by eexists]. subst j.
    rewrite Hi in Hj. simplify_eq. destruct o'; try done. by eexists.
  - intros j x. rewrite Hput. case_decide; [intros; by simplify_eq|apply Hs].
Qed.

Lemma vacate_total h i o r :
  slot h i = Some o -> (total (vacate i h) r + occ r (out o) = total h r)%nat.
Proof.
  intros H%slot_Some. unfold total, vacate. cbn [slots blocks].
  match goal with |- context [reserved ?x] => change (reserved x) with (reserved h) end.
  pose proof (sum_insert (fun o => occ r (slot_out o)) (slots h) i _ None H) as Hs.
  cbn [slot_out occ] in Hs. lia.
Qed.

Lemma lookup_vacate h i j :
  slot (vacate i h) j = if decide (i = j) then None else slot h j.
Proof.
  unfold slot, vacate. cbn. rewrite list_lookup_insert. destruct (decide (i = j)) as [->|].
  - case_decide; cbn; [done|]. by rewrite lookup_ge_None_2 by lia.
  - by rewrite decide_False by (intros [? ?]; done).
Qed.

Lemma vacate_occupied h i o : slot h i = Some o -> occupied h = S (occupied (vacate i h)).
Proof.
  intros H%slot_Some. unfold occupied, vacate. cbn [slots].
  pose proof (sum_insert occupied_slot (slots h) i _ None H) as Hs. cbn in Hs. lia.
Qed.

(** The last holder of an object takes over what it owned. *)
Lemma vacate_Inv h E R i o :
  Inv h E (R_Slot (kind_of o) i :: R) -> slot h i = Some o -> holders o = 1%nat ->
  drop_glue h !! i = None -> Inv (vacate i h) E (out o ++ R).
Proof.
  intros [Hc Hh Hb Hn Hf Ha Hg Hs] Hi Ho Hgl.
  split; try done.
  - intros r. specialize (Hc r). pose proof (vacate_total h i o r Hi).
    rewrite occ_cons in Hc. rewrite occ_app.
    destruct r as [k j|p]; cbn [expected] in *; [|rewrite decide_False in Hc by done;
      change (rc_count (vacate i h) p) with (rc_count h p); lia].
    rewrite lookup_vacate. destruct (decide (i = j)) as [<-|Hne].
    + rewrite Hi in Hc. repeat case_decide; simplify_eq; lia.
    + rewrite decide_False in Hc by congruence. lia.
  - intros j x. rewrite lookup_vacate. case_decide; [done|apply Hh].
  - cbn. apply NoDup_cons. split; [|done]. rewrite Hf. apply slot_Some in Hi. congruence.
  - intros j. cbn. rewrite elem_of_cons, Hf, list_lookup_insert_Some. apply slot_Some in Hi.
    pose proof (lookup_lt_Some _ _ _ Hi). split.
    + intros [->|Hj]; [by left|]. right. split; [congruence|done].
    + intros [(-> & _)|[_ ?]]; [by left|by right].
  - change (allocated h = S (freed h) + occupied (vacate i h))%nat.
    rewrite Ha, (vacate_occupied h i o) by done. lia.
  - intros j Hj. cbn in Hj. destruct (Hg j Hj) as [p Hp]. exists p. rewrite lookup_vacate.
    rewrite decide_False; [done|]. intros <-. rewrite Hgl in Hj. by destruct Hj.
  - intros j x. rewrite lookup_vacate. case_decide; [done|apply Hs].
Qed.

(** Allocation gives the object it was handed a slot of its own. *)
Lemma alloc_object_fresh h E R o h' i :
  Inv h E R -> alloc_object o h = (h', i) ->
  slot h i = None /\ drop_glue h !! i = None /\
  (forall j, slot h' j = if decide (i = j) then Some o else slot h j).
Proof.
  intros Hinv Ha. assert (slot h i = None /\
    forall j, slot h' j = if decide (i = j) then Some o else slot h j) as [Hi Hj].
  { unfold alloc_object in Ha. destruct (free_list h) as [|k rest] eqn:Hfl; simplify_eq/=.
    - split; [unfold slot; by rewrite lookup_ge_None_2|]. intros j. unfold slot. cbn.
      destruct (decide (length (slots h) = j)) as [<-|].
      + by rewrite lookup_app_r, Nat.sub_diag by lia.
      + destruct (decide (j < length (slots h))%nat); [by rewrite lookup_app_l|].
        rewrite !lookup_ge_None_2; [done|lia|rewrite length_app; cbn; lia].
    - assert (slots h !! i = Some None) as Hk.
      { apply (inv_free _ _ _ Hinv). rewrite Hfl. apply list_elem_of_here. }
      split; [unfold slot; by rewrite Hk|]. intros j. unfold slot. cbn.
      rewrite list_lookup_insert. pose proof (lookup_lt_Some _ _ _ Hk).
      destruct (decide (i = j)) as [->|]; [by rewrite decide_True|].
      by rewrite decide_False by (intros [? ?]; done). }
  split_and!; [done| |done].
  destruct (drop_glue h !! i) eqn:Hg; [|done].
  destruct (inv_glue _ _ _ Hinv i) as [p Hp]; [by rewrite Hg|congruence].
Qed.

Lemma alloc_object_total o h r :
  (forall i, i ∈ free_list h -> slots h !! i = Some None) ->
  total (alloc_object o h).1 r = (total h r + occ r (out o))%nat.
Proof.
  intros Hf. unfold total, alloc_object. destruct (free_list h) as [|i rest]; cbn [fst slots blocks].
  all: match goal with |- context [reserved ?x] => change (reserved x) with (reserved h) end.
  - rewrite sum_app. unfold sum at 2. cbn. lia.
  - pose proof (sum_insert (fun o => occ r (slot_out o)) (slots h) i _ (Some o) (Hf i (list_elem_of_here _ _))) as Hs.
    cbn [slot_out occ] in Hs. lia.
Qed.

Lemma alloc_object_occupied o h :
  (forall i, i ∈ free_list h -> slots h !! i = Some None) ->
  occupied (alloc_object o h).1 = S (occupied h).
Proof.
  intros Hf. unfold occupied, alloc_object. destruct (free_list h) as [|i rest]; cbn [fst slots].
  - rewrite sum_app. unfold sum at 2. cbn. lia.
  - pose proof (sum_insert occupied_slot (slots h) i _ (Some o) (Hf i (list_elem_of_here _ _))) as Hs.
    cbn in Hs. lia.
Qed.

Lemma alloc_object_Inv h E R o h' i :
  Inv h E (out o ++ R) -> holders o = 1%nat ->
  object_ok E o ->
  alloc_object o h = (h', i) -> Inv h' E (R_Slot (kind_of o) i :: R).
Proof.
  intros Hinv Ho Hsn Ha. destruct (alloc_object_fresh _ _ _ _ _ _ Hinv Ha) as (Hi & Hgi & Hput).
  assert (forall k, k ∈ free_list h -> slots h !! k = Some None) as Hfr
    by (intros k; by apply (inv_free _ _ _ Hinv)).
  destruct Hinv as [Hc Hh Hb Hn Hf Hacc Hg Hs].
  assert (h' = (alloc_object o h).1) as Hh' by (by rewrite Ha).
  split.
  - intros r. specialize (Hc r). pose proof (alloc_object_total o h r Hfr) as Ht.
    rewrite <- Hh' in Ht. rewrite occ_app in Hc. rewrite occ_cons, Ht.
    destruct r as [k j|p]; cbn [expected] in *.
    + rewrite Hput. destruct (decide (i = j)) as [<-|Hne].
      * rewrite Hi in Hc. repeat case_decide; simplify_eq; lia.
      * rewrite decide_False by congruence. lia.
    + rewrite decide_False by done.
      replace (rc_count h' p) with (rc_count h p); [lia|].
      rewrite Hh'. unfold alloc_object. by destruct (free_list h).
  - intros j x. rewrite Hput. case_decide; [intros; simplify_eq; lia|apply Hh].
  - intros p b Hp. apply (Hb p). rewrite <- Hp, Hh'. unfold alloc_object. by destruct (free_list h).
  - rewrite Hh'. unfold alloc_object. destruct (free_list h); cbn; [constructor|by inversion Hn].
  - intros j. rewrite Hh'. unfold alloc_object in Ha |- *.
    destruct (free_list h) as [|k rest] eqn:Hfl; simplify_eq/=.
    + split; [by intros ?%elem_of_nil|]. intros Hj. destruct (decide (j < length (slots h))%nat).
      * rewrite lookup_app_l in Hj by done. apply Hf in Hj. by apply elem_of_nil in Hj.
      * rewrite lookup_app_r in Hj by lia. by apply list_lookup_singleton_Some in Hj as [??].
    + rewrite list_lookup_insert_Some. apply NoDup_cons in Hn as [Hni Hn]. split.
      * intros Hj. right. split; [by intros ->|]. apply Hf. by apply list_elem_of_further.
      * intros [(? & ? & ?)|[Hne Hj]]; [done|]. apply Hf in Hj. apply elem_of_cons in Hj as [->|]; done.
  - pose proof (alloc_object_occupied o h Hfr) as Hocc. rewrite <- Hh' in Hocc. rewrite Hocc.
    rewrite Hh'. unfold alloc_object. destruct (free_list h); cbn; lia.
  - intros j Hj. assert (is_Some (drop_glue h !! j)) as Hj'.
    { rewrite Hh' in Hj. unfold alloc_object in Hj. by destruct (free_list h). }
    destruct (Hg j Hj') as [p Hp]. exists p. rewrite Hput. rewrite decide_False; [done|congruence].
  - intros j x. rewrite Hput. case_decide; [intros; by simplify_eq|apply Hs].
Qed.

Definition strong_of (b : option Block) : nat := match b with Some b => strong b | None => 0 end.

Lemma lookup_put_block h p b q :
  is_Some (block h p) -> block (put_block p b h) q = if decide (p = q) then b else block h q.
Proof.
  intros [x Hx%block_Some]. unfold block, put_block. cbn. rewrite list_lookup_insert.
  pose proof (lookup_lt_Some _ _ _ Hx). destruct (decide (p = q)) as [->|].
  - by rewrite decide_True by done.
  - by rewrite decide_False by (intros [? ?]; done).
Qed.

Lemma put_block_total h p b b' r :
  block h p = Some b ->
  (total (put_block p b' h) r + occ r (refs_all (items b)) = total h r + occ r (block_out b'))%nat.
Proof.
  intros H%block_Some. unfold total, put_block. cbn [with_blocks slots blocks].
  change (reserved (with_blocks _ h)) with (reserved h).
  pose proof (sum_insert (fun b => occ r (block_out b)) (blocks h) p _ b' H) as Hs.
  cbn [block_out] in Hs. lia.
Qed.

(** A block's count and its items change together. *)
Lemma put_block_Inv h E R R' p b b' :
  Inv h E R -> block h p = Some b -> (forall x, b' = Some x -> (1 <= strong x)%nat) ->
  (forall r, occ r R' + occ r (block_out b') + (if decide (r = R_Block p) then strong b else 0) =
     occ r R + occ r (refs_all (items b)) + (if decide (r = R_Block p) then strong_of b' else 0))%nat ->
  Inv (put_block p b' h) E R'.
Proof.
  intros [Hc Hh Hb Hn Hf Ha Hg Hs] Hp Hb' Hr.
  assert (forall q, block (put_block p b' h) q = if decide (p = q) then b' else block h q)
    as Hput by (intros; by apply lookup_put_block).
  split; try done.
  - intros r. specialize (Hr r). specialize (Hc r). pose proof (put_block_total h p b b' r Hp).
    destruct r as [k j|q]; cbn [expected] in *.
    + rewrite !decide_False in Hr by done. change (slot (put_block p b' h) j) with (slot h j). lia.
    + unfold rc_count in *. rewrite Hput. destruct (decide (p = q)) as [<-|Hne].
      * rewrite !decide_True in Hr by done. rewrite Hp in Hc. unfold strong_of in Hr.
        destruct b'; lia.
      * rewrite !decide_False in Hr by congruence. lia.
  - intros q x. rewrite Hput. case_decide; [apply Hb'|apply Hb].
Qed.

Lemma rc_new_Inv h E R vs h' p :
  Inv h E (refs_all vs ++ R) -> rc_new vs h = (h', p) -> Inv h' E (R_Block p :: R).
Proof.
  intros [Hc Hh Hb Hn Hf Ha Hg Hs] Hnew. unfold rc_new in Hnew. simplify_eq.
  set (b := Some {| strong := 1; items := vs |}).
  assert (block h (length (blocks h)) = None) as Hfresh by (unfold block; by rewrite lookup_ge_None_2).
  assert (forall q, block (with_blocks (blocks h ++ [b]) h) q =
      if decide (length (blocks h) = q) then b else block h q) as Hput.
  { intros q. unfold block. cbn. destruct (decide (length (blocks h) = q)) as [<-|].
    - by rewrite lookup_app_r, Nat.sub_diag by lia.
    - destruct (decide (q < length (blocks h))%nat); [by rewrite lookup_app_l|].
      rewrite !lookup_ge_None_2; [done|lia|rewrite length_app; cbn; lia]. }
  split; try done.
  - intros r. specialize (Hc r). rewrite occ_app in Hc. rewrite occ_cons.
    unfold total in *. cbn [with_blocks slots blocks]. rewrite sum_app. unfold sum at 3. cbn [fmap list_fmap sum_list].
    change (reserved (with_blocks _ h)) with (reserved h). cbn [sum_list_with b block_out items].
    destruct r as [k j|q]; cbn [expected] in *.
    + rewrite decide_False by done.
      change (slot (with_blocks _ h) j) with (slot h j). cbn. lia.
    + unfold rc_count in *. rewrite Hput. destruct (decide (length (blocks h) = q)) as [<-|Hne].
      * rewrite decide_True by done. rewrite Hfresh in Hc. cbn. lia.
      * rewrite decide_False by congruence. cbn. lia.
  - intros q x. rewrite Hput. case_decide; [intros; simplify_eq; done|apply Hb].
Qed.

Lemma rc_clone_Inv h E R p :
  Inv h E R -> is_Some (block h p) -> Inv (rc_clone p h) E (R_Block p :: R).
Proof.
  intros Hinv [b Hb]. unfold rc_clone. rewrite Hb. eapply put_block_Inv; [done|done|..].
  - intros x ?; simplify_eq/=. lia.
  - intros r. cbn [block_out items strong_of strong]. rewrite occ_cons.
    repeat case_decide; simplify_eq; lia.
Qed.

(** Letting go of an [Rc]: its items come back to the last holder. *)
Lemma rc_try_unwrap_Inv h E R p h' vs :
  Inv h E (R_Block p :: R) -> rc_try_unwrap p h = (h', vs) ->
  Inv h' E (match vs with Some vs => refs_all vs | None => [] end ++ R).
Proof.
  intros Hinv Hu. destruct (live_block _ _ _ _ Hinv) as [b Hb].
  unfold rc_try_unwrap, rc_count, rc_items, rc_drop in Hu. rewrite Hb in Hu. simplify_eq.
  pose proof (inv_strong _ _ _ Hinv p b Hb) as Hs.
  eapply put_block_Inv; [done|done|..].
  - intros x ?. case_decide; simplify_eq/=. lia.
  - intros r. rewrite occ_app, occ_cons.
    destruct (decide (strong b = 1)%nat) as [Hone|]; cbn.
    + rewrite Hone. cbn. repeat case_decide; simplify_eq; cbn; lia.
    + rewrite (decide_False (P := (strong b <= 1)%nat)) by lia. cbn.
      repeat case_decide; simplify_eq; lia.
Qed.

(** Dropping an [Rc] somebody else still holds. *)
Lemma rc_drop_Inv h E R p :
  Inv h E (R_Block p :: R) -> (1 < rc_count h p)%nat -> Inv (rc_drop p h) E R.
Proof.
  intros Hinv Hc. assert (rc_try_unwrap p h = (rc_drop p h, None)) as Hu.
  { unfold rc_try_unwrap. by rewrite decide_False by lia. }
  by apply (rc_try_unwrap_Inv _ _ _ _ _ _ Hinv Hu).
Qed.

(** Rewriting a block nobody shares. *)
Lemma put_items_Inv h E R R' p b vs :
  Inv h E R -> block h p = Some b ->
  (forall r, occ r R' + occ r (refs_all vs) = occ r R + occ r (refs_all (items b)))%nat ->
  Inv (put_items p vs h) E R'.
Proof.
  intros Hinv Hb Hr. unfold put_items. rewrite Hb. eapply put_block_Inv; [done|done|..].
  - intros x ?; simplify_eq/=. by apply (inv_strong _ _ _ Hinv p).
  - intros r. specialize (Hr r). cbn. lia.
Qed.

(** ** Steps that touch neither slots nor blocks *)

Lemma with_events_Inv h E R a b : Inv h E R -> Inv (with_events a b h) E R.
Proof. by intros []; split. Qed.

Lemma with_glue_Inv h E R g :
  Inv h E R -> (forall i, is_Some (g !! i) -> exists p, slot h i = Some (O_Struct p)) ->
  Inv (with_glue g h) E R.
Proof. by intros []; split. Qed.

Lemma glue_delete_Inv h E R i : Inv h E R -> Inv (with_glue (delete i (drop_glue h)) h) E R.
Proof.
  intros Hinv. apply with_glue_Inv; [done|]. intros j [g Hj]. apply lookup_delete_Some in Hj as [_ Hj].
  apply (inv_glue _ _ _ Hinv). by rewrite Hj.
Qed.

Lemma glue_insert_Inv h E R i g p :
  Inv h E R -> slot h i = Some (O_Struct p) -> Inv (with_glue (<[i := g]> (drop_glue h)) h) E R.
Proof.
  intros Hinv Hi. apply with_glue_Inv; [done|]. intros j. rewrite lookup_insert.
  case_decide; [subst; by eexists|]. apply (inv_glue _ _ _ Hinv).
Qed.

(** A step that moves references between the roots and the registries. *)
Lemma registry_Inv h h' E R R' :
  Inv h E R -> slots h' = slots h -> free_list h' = free_list h -> allocated h' = allocated h ->
  freed h' = freed h -> blocks h' = blocks h -> drop_glue h' = drop_glue h ->
  (forall r, occ r R' + occ r (reserved h') = occ r R + occ r (reserved h))%nat ->
  Inv h' E R'.
Proof.
  intros [Hc Hh Hb Hn Hf Ha Hg Hs] H1 H2 H3 H4 H5 H6 Hr.
  assert (forall i, slot h' i = slot h i) as Hsl by (intros; unfold slot; by rewrite H1).
  split.
  - intros r. specialize (Hc r). specialize (Hr r). unfold total in *. rewrite H1, H5.
    assert (expected h' r = expected h r) as ->; [|lia].
    destruct r; cbn; [by rewrite Hsl|]. unfold rc_count, block. by rewrite H5.
  - intros i o. rewrite Hsl. apply Hh.
  - intros p b. unfold block. rewrite H5. apply Hb.
  - by rewrite H2.
  - intros i. rewrite H1, H2. apply Hf.
  - unfold occupied. by rewrite H1, H3, H4.
  - intros i. rewrite H6, Hsl. apply Hg.
  - intros i o. rewrite Hsl. apply Hs.
Qed.

End Ownership.
