(* ===== verification/HeapOps.v ===== *)
(** Every operation of the VM heap keeps the ownership invariant: a copy is one
    more holder, a release one fewer, a write hands the old value's holders
    over, and reading callback state back builds owned objects. *)

From stdpp Require Import gmap.
From S2P Require Import Prelude.
From S2P Require Import Instruction.
From S2P Require Import Foreign.
From S2P Require Import NativeState.
From S2P Require Import Heap.
From S2P Require Import HeapOwnership.

(** Compares two multisets of roots reference by reference. *)
Ltac occ_solver :=
  intros; cbn; repeat rewrite ?occ_app, ?occ_cons; cbn;
  repeat case_decide; simplify_eq; try done; try lia.

(** An object without its holders: what a reader can see of it. *)
Definition content (o : Object) : Object :=
  match o with
  | O_Enum tag payload _ => O_Enum tag payload 0
  | O_Erased type_id payload _ => O_Erased type_id payload 0
  | O_Cell payload _ => O_Cell payload 0
  | O_Snapshot node _ => O_Snapshot node 0
  | o => o
  end.

(** Everything that was on the heap reads as before. *)
Record grows (h h' : Heap) : Prop := {
  grows_slots : forall i o, slot h i = Some o -> exists o', slot h' i = Some o' /\ content o' = content o;
  grows_blocks : forall p b, block h p = Some b -> exists b', block h' p = Some b' /\ items b' = items b /\ (strong b <= strong b')%nat
}.

#[export] Instance grows_PreOrder : PreOrder grows.
Proof.
  split.
  - intros h. split; [eauto|]. intros p b Hp. exists b. split_and!; [done|done|lia].
  - intros h1 h2 h3 [S1 B1] [S2 B2]. split.
    + intros i o Hi. destruct (S1 i o Hi) as (o' & Hi' & Hc).
      destruct (S2 i o' Hi') as (o2 & ? & ?). exists o2. split; [done|congruence].
    + intros p b Hp. destruct (B1 p b Hp) as (b' & Hp' & Hc & ?).
      destruct (B2 p b' Hp') as (b2 & ? & ? & ?). exists b2. split_and!; [done|congruence|lia].
Qed.

(** Heaps with the same blocks. *)
Lemma grows_same_blocks h h' :
  (forall i o, slot h i = Some o -> exists o', slot h' i = Some o' /\ content o' = content o) ->
  blocks h' = blocks h -> grows h h'.
Proof.
  intros Hs Hb. split; [done|]. intros p b. unfold block. rewrite Hb. intros ->. eauto.
Qed.

(** Heaps that differ in one block's count. *)
Lemma grows_same_slots h h' :
  slots h' = slots h ->
  (forall p b, block h p = Some b ->
    exists b', block h' p = Some b' /\ items b' = items b /\ (strong b <= strong b')%nat) -> grows h h'.
Proof. intros Hs Hb. split; [|done]. intros i o. unfold slot. rewrite Hs. eauto. Qed.

Lemma content_kind o o' : content o' = content o -> kind_of o' = kind_of o.
Proof. destruct o, o'; cbn; congruence. Qed.

Lemma content_out o o' : content o' = content o -> out o' = out o.
Proof. destruct o, o'; cbn; intros; by simplify_eq. Qed.

Section Copies.
Context {host : Host} {allocator : Allocator}.

(** What a value names is live. *)
Definition live_value (h : Heap) (v : Value) : Prop :=
  forall r, r ∈ refs v -> (1 <= expected h r)%nat.

Lemma live_slot h k i :
  (1 <= expected h (R_Slot k i))%nat -> exists o, slot h i = Some o /\ kind_of o = k.
Proof.
  cbn. destruct (slot h i) as [o|]; [|lia]. case_decide; [|lia]. by exists o.
Qed.

Lemma stored_slot_out h E R i o r :
  Inv h E R -> slot h i = Some o -> r ∈ out o -> (1 <= expected h r)%nat.
Proof.
  intros Hinv Hi Hr. eapply stored_live; [done|]. apply slot_Some in Hi.
  unfold total. pose proof (sum_insert (fun o => occ r (slot_out o)) (slots h) i _ None Hi) as Hs.
  cbn [slot_out occ] in Hs. apply occ_elem in Hr. lia.
Qed.

Lemma stored_block_out h E R p b r :
  Inv h E R -> block h p = Some b -> r ∈ refs_all (items b) -> (1 <= expected h r)%nat.
Proof.
  intros Hinv Hi Hr. eapply stored_live; [done|]. apply block_Some in Hi.
  unfold total. pose proof (sum_insert (fun b => occ r (block_out b)) (blocks h) p _ None Hi) as Hs.
  cbn [block_out occ] in Hs. apply occ_elem in Hr. lia.
Qed.

Lemma root_live h E R r : Inv h E R -> r ∈ E \/ r ∈ R -> (1 <= expected h r)%nat.
Proof.
  intros Hinv Hr. pose proof (inv_count _ _ _ Hinv r) as Hc.
  rewrite !occ_elem in Hr. lia.
Qed.

Lemma value_live h E R v : Inv h E (refs v ++ R) -> live_value h v.
Proof. intros Hinv r Hr. eapply root_live; [done|]. right. apply elem_of_app. by left. Qed.

(** The block a live struct or array points at is there. *)
Lemma pointed_block h E R i o p :
  Inv h E R -> slot h i = Some o -> out o = [R_Block p] -> is_Some (block h p).
Proof.
  intros Hinv Hi Ho. pose proof (stored_slot_out h E R i o (R_Block p) Hinv Hi) as H.
  rewrite Ho in H. specialize (H (list_elem_of_here _ _)). cbn in H. unfold rc_count in H.
  destruct (block h p); [by eexists|lia].
Qed.

(** ** C blocks *)

Lemma length_word w z : length (take (Z.to_nat (width_bytes w)) (to_le 8 z)) = Z.to_nat (width_bytes w).
Proof. rewrite length_take, length_to_le. destruct w; cbn; lia. Qed.

Lemma length_overwrite bytes start word :
  (start + length word <= length bytes)%nat -> length (overwrite bytes start word) = length bytes.
Proof. intros. unfold overwrite. rewrite !length_app, length_take, length_drop. lia. Qed.

Lemma cblock_bytes_Inv h E R bytes h' i :
  Inv h E R -> cblock_bytes bytes h = (h', i) ->
  Inv h' E (R_Slot K_CBlock i :: R) /\
  exists address, slot h' i = Some (O_CBlock address bytes []).
Proof.
  intros Hinv Ha. unfold cblock_bytes in Ha. split.
  - by eapply (alloc_object_Inv _ _ _ (O_CBlock _ bytes [])); [..|exact Ha]; [|done|constructor].
  - destruct (alloc_object_fresh _ _ _ _ _ _ Hinv Ha) as (_ & _ & Hput).
    eexists. rewrite Hput, decide_True by done. done.
Qed.

(** An attached child is owned by its parent; a word that fits is attached. *)
Lemma cblock_attach_Inv h E R parent offset width child address bytes kids :
  Inv h E (R_Slot K_CBlock child :: R) ->
  slot h parent = Some (O_CBlock address bytes kids) ->
  word_fits (length bytes) offset width ->
  exists h' bytes' kids',
    cblock_attach parent offset width child h = (h', true) /\ Inv h' E R /\
    slot h' parent = Some (O_CBlock address bytes' kids') /\ length bytes' = length bytes /\
    (forall j, j <> parent -> slot h' j = slot h j) /\ blocks h' = blocks h.
Proof.
  intros Hinv Hp (start & Hs & Hfit & Hmax). unfold cblock_attach. rewrite Hs, length_word.
  rewrite decide_False by lia. rewrite Hp. rewrite decide_True by done.
  do 3 eexists. split; [done|].
  assert (length (overwrite bytes start (take (Z.to_nat (width_bytes width))
    (to_le 8 (cblock_address h child)))) = length bytes) as Hlen
    by (apply length_overwrite; by rewrite length_word).
  split_and!.
  - eapply put_slot_Inv; [done|done|done|done| |].
    + cbn. rewrite Hlen. pose proof (inv_objects _ _ _ Hinv _ _ Hp) as Hk. cbn in Hk.
      apply Forall_app. split; [done|]. apply Forall_singleton. cbn. exists start. done.
    + intros r. cbn [out holders kind_of]. unfold kid_refs. rewrite fmap_app. occ_solver.
  - rewrite lookup_put_slot, decide_True by done. done.
  - done.
  - intros j Hj. rewrite lookup_put_slot by done. by rewrite decide_False.
  - done.
Qed.

(** Copying a block tree only adds slots: what was there stays. *)
Definition only_adds (h h' : Heap) : Prop :=
  (forall i o, slot h i = Some o -> slot h' i = Some o) /\ blocks h' = blocks h.

Lemma only_adds_grows h h' : only_adds h h' -> grows h h'.
Proof.
  intros [Hs Hb]. apply grows_same_blocks; [eauto|done].
Qed.

Lemma alloc_object_adds h E R o h' i :
  Inv h E R -> alloc_object o h = (h', i) -> only_adds h h'.
Proof.
  intros Hinv Ha. destruct (alloc_object_fresh _ _ _ _ _ _ Hinv Ha) as (Hn & _ & Hput). split.
  - intros j x Hj. rewrite Hput, decide_False; [done|congruence].
  - unfold alloc_object in Ha. by destruct (free_list h); simplify_eq.
Qed.

Lemma attach_copies_Inv copy_child kids : forall h E R copy address bytes kids0,
  (forall id h E R, Inv h E R ->
    let r := copy_child id h in Inv r.1 E (R_Slot K_CBlock r.2 :: R) /\ only_adds h r.1) ->
  Inv h E (R_Slot K_CBlock copy :: R) -> slot h copy = Some (O_CBlock address bytes kids0) ->
  Forall (fun c => word_fits (length bytes) (vc_offset c) (vc_width c)) kids ->
  let h' := attach_copies copy_child kids copy h in
  Inv h' E (R_Slot K_CBlock copy :: R) /\
  (forall i o, i <> copy -> slot h i = Some o -> slot h' i = Some o) /\ blocks h' = blocks h.
Proof.
  induction kids as [|c kids IH]; intros h E R copy address bytes kids0 Hcopy Hinv Hs Hfit; [done|].
  apply Forall_cons in Hfit as [Hc Hfit]. cbn.
  specialize (Hcopy (vc_block c) h E _ Hinv) as Hchild.
  destruct (copy_child (vc_block c) h) as [h1 cc]. cbn in Hchild. destruct Hchild as [Hinv1 [Hadd Hbl]].
  destruct (cblock_attach_Inv h1 E _ copy (vc_offset c) (vc_width c) cc address bytes kids0 Hinv1)
    as (h2 & bytes' & kids' & -> & Hinv2 & Hs2 & Hlen & Hother & Hbl2); [by apply Hadd|done|].
  destruct (IH h2 E R copy address bytes' kids' Hcopy Hinv2 Hs2) as (Hfin & Hkeep & Hbl3);
    [by rewrite Hlen|].
  split_and!; [done| |congruence].
  intros i o Hne Hi. apply Hkeep; [done|]. rewrite Hother by done. by apply Hadd.
Qed.

Lemma copy_cblock_fuel_Inv fuel : forall id h E R,
  Inv h E R ->
  let r := copy_cblock_fuel fuel id h in
  Inv r.1 E (R_Slot K_CBlock r.2 :: R) /\ only_adds h r.1.
Proof.
  induction fuel as [|fuel IH]; intros id h E R Hinv.
  all: cbn [copy_cblock_fuel]; destruct (slot h id) as [[| | | | | | |addr0 bytes kids]|] eqn:Hid.
  all: match goal with |- context [cblock_bytes ?b ?h0] =>
         destruct (cblock_bytes b h0) as [h1 copy] eqn:Hb;
         destruct (cblock_bytes_Inv _ _ _ _ _ _ Hinv Hb) as [Hinv1 [address Hcopy]];
         pose proof (alloc_object_adds _ _ _ _ _ _ Hinv Hb) as [Hadd Hbl]
       end; cbn; try (split; [done|done]).
  pose proof (inv_objects _ _ _ Hinv _ _ Hid) as Hk. cbn in Hk.
  destruct (attach_copies_Inv (copy_cblock_fuel fuel) kids h1 E R copy address bytes [] IH Hinv1 Hcopy Hk)
    as (Hfin & Hkeep & Hbl2).
  split; [done|]. split; [|congruence]. intros i o Hi. apply Hkeep; [|by apply Hadd].
  intros ->. unfold cblock_bytes in Hb.
  destruct (alloc_object_fresh _ _ _ _ _ _ Hinv Hb) as (Hn & _). congruence.
Qed.

Lemma copy_cblock_Inv h E R id h' copy :
  Inv h E R -> copy_cblock id h = (h', copy) ->
  Inv h' E (R_Slot K_CBlock copy :: R) /\ only_adds h h'.
Proof.
  intros Hinv Hc. pose proof (copy_cblock_fuel_Inv (length (slots h)) id h E R Hinv) as H.
  unfold copy_cblock in Hc. by rewrite Hc in H.
Qed.

(** ** Copies *)

Lemma put_slot_grows h i o o' :
  slot h i = Some o -> content o' = content o -> grows h (put_slot i o' h).
Proof.
  intros Hi Hc. apply grows_same_blocks; [|done]. intros j x Hj.
  rewrite lookup_put_slot by (by eexists). case_decide; [|eauto]. subst. simplify_eq. eauto.
Qed.

(** One more hold on a counted object. *)
Lemma add_share_spec h E R i o :
  Inv h E R -> slot h i = Some o ->
  kind_of o ∈ [K_Enum; K_Erased; K_Cell; K_Snapshot] ->
  Inv (add_share i h) E (R_Slot (kind_of o) i :: R) /\ grows h (add_share i h).
Proof.
  intros Hinv Hi Hk. unfold add_share. rewrite Hi.
  pose proof (inv_objects _ _ _ Hinv _ _ Hi) as Hok.
  destruct o; cbn in Hk; try (by repeat (apply elem_of_cons in Hk as [?|Hk]; [done|]);
    apply elem_of_nil in Hk).
  all: split; [|by eapply put_slot_grows].
  all: eapply put_slot_Inv; [done|done|done|cbn; lia|done|]; occ_solver.
Qed.

Lemma rc_clone_grows h p : grows h (rc_clone p h).
Proof.
  unfold rc_clone. destruct (block h p) as [b|] eqn:Hb; [|done].
  apply grows_same_slots; [done|].
  intros q x Hq. rewrite lookup_put_block by (by eexists). case_decide; [|eauto].
  subst. simplify_eq. eexists. split_and!; [done|done|cbn; lia].
Qed.

Lemma with_glue_grows h g : grows h (with_glue g h).
Proof. by apply grows_same_blocks; [eauto|]. Qed.

Lemma with_events_grows h a b : grows h (with_events a b h).
Proof. by apply grows_same_blocks; [eauto|]. Qed.

(** A copied struct or array: one more hold on the block, in a slot of its own. *)
Lemma share_block_spec h E R i o p copy h' :
  Inv h E R -> slot h i = Some o -> out o = [R_Block p] -> holders o = 1%nat ->
  alloc_object o (rc_clone p h) = (h', copy) -> object_ok E o ->
  Inv h' E (R_Slot (kind_of o) copy :: R) /\ grows h h' /\ slot h' copy = Some o.
Proof.
  intros Hinv Hi Ho Hh Ha Hok.
  pose proof (rc_clone_Inv _ _ _ _ Hinv (pointed_block _ _ _ _ _ _ Hinv Hi Ho)) as Hcl.
  split_and!.
  - eapply alloc_object_Inv; [|done|done|done]. by rewrite Ho.
  - etrans; [apply rc_clone_grows|]. eapply only_adds_grows, alloc_object_adds; done.
  - destruct (alloc_object_fresh _ _ _ _ _ _ Hcl Ha) as (_ & _ & Hput).
    rewrite Hput. by rewrite decide_True.
Qed.

(** A copy is one more holder of what it copies, and changes nothing a reader
    could see. *)
Lemma copy_value_spec h E R v h' v' :
  Inv h E R -> live_value h v -> copy_value v h = (h', v') ->
  Inv h' E (refs v' ++ R) /\ grows h h'.
Proof.
  intros Hinv Hl Hc.
  assert (forall k i, refs v = [R_Slot k i] -> exists o, slot h i = Some o /\ kind_of o = k) as Hlive.
  { intros k i Hr. apply live_slot, Hl. rewrite Hr. apply list_elem_of_here. }
  destruct v; cbn in Hc; simplify_eq; try done;
    try (destruct (Hlive _ _ eq_refl) as (o & Hi & Hk); destruct o; cbn in Hk; try done).
  - rewrite Hi in Hc. destruct (alloc_object (O_Str text) h) as [h1 copy] eqn:Ha; simplify_eq. split.
    + by eapply (alloc_object_Inv _ _ _ (O_Str text)).
    + by eapply only_adds_grows, alloc_object_adds.
  - rewrite Hi in Hc. destruct (alloc_object (O_Struct fields) (rc_clone fields h)) as [h1 copy] eqn:Ha.
    destruct (share_block_spec _ _ _ _ _ _ _ _ Hinv Hi eq_refl eq_refl Ha I) as (Hi1 & Hg1 & Hs1).
    simplify_eq. destruct (glue_of h1 id); [|done]. split; [by eapply glue_insert_Inv|].
    etrans; [exact Hg1|apply with_glue_grows].
  - rewrite Hi in Hc. destruct (alloc_object (O_Array elements) (rc_clone elements h)) as [h1 copy] eqn:Ha.
    destruct (share_block_spec _ _ _ _ _ _ _ _ Hinv Hi eq_refl eq_refl Ha I) as (Hi1 & Hg1 & _).
    simplify_eq. done.
  - rewrite Hi. cbn. eapply (add_share_spec _ _ _ _ _ Hinv Hi). cbn. set_solver.
  - rewrite Hi. cbn. eapply (add_share_spec _ _ _ _ _ Hinv Hi). cbn. set_solver.
  - rewrite Hi. cbn. eapply (add_share_spec _ _ _ _ _ Hinv Hi). cbn. set_solver.
  - split; [by apply with_events_Inv|apply with_events_grows].
  - rewrite Hi. cbn. eapply (add_share_spec _ _ _ _ _ Hinv Hi). cbn. set_solver.
  - destruct (copy_cblock id h) as [h1 copy] eqn:Hcb; simplify_eq.
    destruct (copy_cblock_Inv _ _ _ _ _ _ Hinv Hcb). split; [done|by apply only_adds_grows].
Qed.
End Copies.

(** ** Releases *)

Section Releases.
Context {host : Host} {allocator : Allocator}.

(** A release leaves what it keeps as it was, and never a slot more in use. *)
Record released (h h' : Heap) : Prop := {
  released_grows : grows h' h;
  released_occupied : (occupied h' <= occupied h)%nat
}.

#[export] Instance released_PreOrder : PreOrder released.
Proof.
  split; [by intros h; split|]. intros h1 h2 h3 [G1 O1] [G2 O2].
  split; [by etrans|lia].
Qed.

Lemma glue_none h E R i o :
  Inv h E R -> slot h i = Some o -> kind_of o <> K_Struct -> drop_glue h !! i = None.
Proof.
  intros Hinv Hi Hk. destruct (drop_glue h !! i) eqn:Hg; [|done].
  destruct (inv_glue _ _ _ Hinv i) as [p Hp]; [by rewrite Hg|].
  rewrite Hp in Hi. by simplify_eq.
Qed.

Lemma vacate_released h i o : slot h i = Some o -> released h (vacate i h).
Proof.
  intros Hi. split; [|rewrite (vacate_occupied h i o Hi); lia]. apply grows_same_blocks; [|done].
  intros j x. rewrite lookup_vacate. case_decide; [done|eauto].
Qed.

Lemma put_slot_released h i o o' :
  slot h i = Some o -> content o' = content o -> released h (put_slot i o' h).
Proof.
  intros Hi Hc. split; [|by rewrite (put_slot_occupied h i o o')].
  apply grows_same_blocks; [|done].
  intros j x. rewrite lookup_put_slot by (by eexists). case_decide; [|eauto].
  intros; simplify_eq. eauto.
Qed.

Lemma rc_drop_released h p : released h (rc_drop p h).
Proof.
  unfold rc_drop. destruct (block h p) as [b|] eqn:Hb; [|done]. split; [|done].
  apply grows_same_slots; [done|].
  intros q x. rewrite lookup_put_block by (by eexists). case_decide; [|eauto].
  case_decide; intros; simplify_eq. eexists. split_and!; [done|done|cbn; lia].
Qed.

Lemma same_slots_released h h' : slots h' = slots h -> blocks h' = blocks h -> released h h'.
Proof.
  intros Hs Hb. split; [|by unfold occupied; rewrite Hs]. split.
  - intros i o. unfold slot. rewrite Hs. eauto.
  - intros p b. unfold block. rewrite Hb. eauto.
Qed.

(** The last holder gone: the object's slot is vacated. *)
Lemma take_spec h E R i o :
  Inv h E (R_Slot (kind_of o) i :: R) -> slot h i = Some o -> holders o = 1%nat ->
  kind_of o <> K_Struct ->
  Inv (vacate i h) E (out o ++ R) /\ released h (vacate i h) /\
  (occupied (vacate i h) < occupied h)%nat.
Proof.
  intros Hinv Hi Ho Hk. split_and!.
  - eapply vacate_Inv; try done. by eapply glue_none.
  - by eapply vacate_released.
  - rewrite (vacate_occupied h i o Hi). lia.
Qed.

(** A holder that is not the last gone. *)
Lemma drop_share_spec h E R i o :
  Inv h E (R_Slot (kind_of o) i :: R) -> slot h i = Some o -> (1 < holders o)%nat ->
  Inv (drop_share i h) E R /\ released h (drop_share i h).
Proof.
  intros Hinv Hi Ho. unfold drop_share. rewrite Hi.
  pose proof (inv_objects _ _ _ Hinv _ _ Hi) as Hok.
  destruct o; cbn in Ho; try lia.
  all: split; [|by eapply put_slot_released].
  all: eapply put_slot_Inv; [done|done|done|cbn; lia|done|]; occ_solver.
Qed.

Definition releases_value (drop : Value -> Heap -> Heap) (fuel : nat) : Prop :=
  forall v h E R, (occupied h < fuel)%nat -> Inv h E (refs v ++ R) ->
    Inv (drop v h) E R /\ released h (drop v h).

Section FreeSpecs.
Context (drop : Value -> Heap -> Heap) (fuel : nat) (Hdrop : releases_value drop fuel).

Lemma drop_all_spec vs : forall h E R,
  (occupied h < fuel)%nat -> Inv h E (refs_all vs ++ R) ->
  Inv (drop_all drop vs h) E R /\ released h (drop_all drop vs h).
Proof.
  induction vs as [|v vs IH]; intros h E R Hf Hinv; [done|]. cbn.
  rewrite refs_all_cons, <- (assoc_L (++)) in Hinv.
  destruct (Hdrop v h E _ Hf Hinv) as [Hinv1 Hrel1].
  destruct (IH (drop v h) E R) as [Hinv2 Hrel2]; [|done|].
  - pose proof (released_occupied _ _ Hrel1). lia.
  - split; [done|by etrans].
Qed.

(** A slot vacated and the block it pointed at let go of. *)
Lemma free_block_spec h E R p :
  (occupied h < fuel)%nat -> Inv h E (R_Block p :: R) ->
  let '(h1, unwrapped) := rc_try_unwrap p h in
  let h2 := match unwrapped with Some vs => drop_all drop (rev vs) h1 | None => h1 end in
  Inv h2 E R /\ released h h2.
Proof.
  intros Hf Hinv. destruct (rc_try_unwrap p h) as [h1 unwrapped] eqn:Hu.
  pose proof (rc_try_unwrap_Inv _ _ _ _ _ _ Hinv Hu) as Hinv1.
  assert (released h h1) as Hrel by (unfold rc_try_unwrap in Hu; simplify_eq; apply rc_drop_released).
  destruct unwrapped as [vs|]; [|done]. cbn.
  destruct (drop_all_spec (rev vs) h1 E R) as [Hinv2 Hrel2].
  - pose proof (released_occupied _ _ Hrel). lia.
  - by rewrite <- Permutation_rev.
  - split; [done|by etrans].
Qed.

Lemma free_array_at_spec h E R i :
  (occupied h < S fuel)%nat -> Inv h E (R_Slot K_Array i :: R) ->
  Inv (free_array_at drop i h) E R /\ released h (free_array_at drop i h).
Proof.
  intros Hf Hinv. destruct (live_ref _ _ _ _ _ Hinv) as (o & Hi & Hk). destruct o; try done.
  unfold free_array_at. rewrite Hi.
  destruct (take_spec h E R i (O_Array elements) Hinv Hi eq_refl) as (Hinv1 & Hrel & Hlt); [done|].
  pose proof (free_block_spec (vacate i h) E R elements ltac:(lia) Hinv1) as Hb.
  destruct (rc_try_unwrap elements (vacate i h)) as [h1 u]. destruct Hb as [Hinv2 Hrel2].
  split; [destruct u; done|]. etrans; [exact Hrel|]. by destruct u.
Qed.

Lemma free_enum_at_spec h E R i :
  (occupied h < S fuel)%nat -> Inv h E (R_Slot K_Enum i :: R) ->
  Inv (free_enum_at drop i h) E R /\ released h (free_enum_at drop i h).
Proof.
  intros Hf Hinv. destruct (live_ref _ _ _ _ _ Hinv) as (o & Hi & Hk). destruct o; try done.
  pose proof (inv_holders _ _ _ Hinv _ _ Hi) as Hh. cbn in Hh.
  unfold free_enum_at. rewrite Hi. case_decide.
  - by eapply (drop_share_spec h E R i (O_Enum tag payload shares)).
  - destruct (take_spec h E R i (O_Enum tag payload shares) Hinv Hi) as (Hinv1 & Hrel & Hlt);
      [cbn; lia|done|].
    cbn in Hinv1. destruct payload as [v|]; [|done].
    destruct (Hdrop v (vacate i h) E R) as [Hinv2 Hrel2]; [lia|done|]. split; [done|by etrans].
Qed.

Lemma free_erased_at_spec h E R i :
  (occupied h < S fuel)%nat -> Inv h E (R_Slot K_Erased i :: R) ->
  Inv (free_erased_at drop i h) E R /\ released h (free_erased_at drop i h).
Proof.
  intros Hf Hinv. destruct (live_ref _ _ _ _ _ Hinv) as (o & Hi & Hk). destruct o; try done.
  pose proof (inv_holders _ _ _ Hinv _ _ Hi) as Hh. cbn in Hh.
  unfold free_erased_at. rewrite Hi. case_decide.
  - by eapply (drop_share_spec h E R i (O_Erased type_id payload shares)).
  - destruct (take_spec h E R i (O_Erased type_id payload shares) Hinv Hi) as (Hinv1 & Hrel & Hlt);
      [cbn; lia|done|].
    destruct (Hdrop payload (vacate i h) E R) as [Hinv2 Hrel2]; [lia|done|]. split; [done|by etrans].
Qed.

Lemma free_cell_at_spec h E R i :
  (occupied h < S fuel)%nat -> Inv h E (R_Slot K_Cell i :: R) ->
  Inv (free_cell_at drop i h) E R /\ released h (free_cell_at drop i h).
Proof.
  intros Hf Hinv. destruct (live_ref _ _ _ _ _ Hinv) as (o & Hi & Hk). destruct o; try done.
  pose proof (inv_holders _ _ _ Hinv _ _ Hi) as Hh. cbn in Hh.
  unfold free_cell_at. rewrite Hi. case_decide.
  - by eapply (drop_share_spec h E R i (O_Cell payload shares)).
  - destruct (take_spec h E R i (O_Cell payload shares) Hinv Hi) as (Hinv1 & Hrel & Hlt);
      [cbn; lia|done|].
    destruct (Hdrop payload (vacate i h) E R) as [Hinv2 Hrel2]; [lia|done|]. split; [done|by etrans].
Qed.

Lemma kid_refs_values kids :
  refs_all ((fun c => V_CBlock (vc_block c)) <$> kids) = kid_refs kids.
Proof. induction kids as [|c kids IH]; [done|]. cbn. by rewrite refs_all_cons, IH. Qed.

Lemma free_cblock_at_spec h E R i :
  (occupied h < S fuel)%nat -> Inv h E (R_Slot K_CBlock i :: R) ->
  Inv (free_cblock_at drop i h) E R /\ released h (free_cblock_at drop i h).
Proof.
  intros Hf Hinv. destruct (live_ref _ _ _ _ _ Hinv) as (o & Hi & Hk). destruct o; try done.
  unfold free_cblock_at. rewrite Hi.
  destruct (take_spec h E R i (O_CBlock address bytes kids) Hinv Hi eq_refl) as (Hinv1 & Hrel & Hlt);
    [done|].
  destruct (drop_all_spec ((fun c => V_CBlock (vc_block c)) <$> kids) (vacate i h) E R)
    as [Hinv2 Hrel2]; [lia|by rewrite kid_refs_values|]. split; [done|by etrans].
Qed.

(** The slot of a struct and its glue entry go together. *)
Lemma vacate_glue h i :
  (if decide (drop_glue (vacate i h) = ∅) then vacate i h
   else with_glue (delete i (drop_glue (vacate i h))) (vacate i h))
  = vacate i (with_glue (delete i (drop_glue h)) h).
Proof.
  case_decide as Hd; [|done]. cbn in Hd. rewrite Hd, delete_empty. destruct h; cbn in *. by subst.
Qed.

Lemma free_struct_at_spec h E R i :
  (occupied h < S fuel)%nat -> Inv h E (R_Slot K_Struct i :: R) ->
  Inv (free_struct_at drop i h) E R /\ released h (free_struct_at drop i h).
Proof.
  intros Hf Hinv. destruct (live_ref _ _ _ _ _ Hinv) as (o & Hi & Hk). destruct o; try done.
  assert (forall glue, Inv (park_pending_drop i glue h) E R /\
      released h (park_pending_drop i glue h)) as Hpark.
  { intros glue. split; [|by apply same_slots_released].
    eapply registry_Inv; try done. intros r. unfold reserved. occ_solver. }
  set (hg := with_glue (delete i (drop_glue h)) h).
  assert (Inv hg E (R_Slot K_Struct i :: R)) as Hinvg by (by apply glue_delete_Inv).
  assert (Inv (vacate i hg) E (R_Block fields :: R)) as Hinv1.
  { eapply (vacate_Inv hg E R i (O_Struct fields)); try done. apply lookup_delete_eq. }
  assert (released h (vacate i hg)) as Hrel
    by (etrans; [by apply (same_slots_released h hg)|by eapply (vacate_released hg)]).
  pose proof (vacate_occupied hg i (O_Struct fields) Hi) as Hocc.
  change (occupied hg) with (occupied h) in Hocc.
  assert (Inv (let '(h1, u) := rc_try_unwrap fields (vacate i hg) in
               match u with Some fs => drop_all drop (rev fs) h1 | None => h1 end) E R /\
    released h (let '(h1, u) := rc_try_unwrap fields (vacate i hg) in
               match u with Some fs => drop_all drop (rev fs) h1 | None => h1 end)) as Hfree.
  { pose proof (free_block_spec (vacate i hg) E R fields ltac:(lia) Hinv1) as Hb.
    destruct (rc_try_unwrap fields (vacate i hg)) as [h1 u]. destruct Hb as [Hinv2 Hrel2].
    split; [done|]. by etrans. }
  unfold free_struct_at. rewrite Hi. cbv zeta. rewrite vacate_glue. fold hg.
  destruct (glue_of h i); [destruct (last_holder_of h i)|]; done.
Qed.

Lemma free_str_at_spec h E R i :
  Inv h E (R_Slot K_Str i :: R) ->
  Inv (free_str_at i h) E R /\ released h (free_str_at i h).
Proof.
  intros Hinv. destruct (live_ref _ _ _ _ _ Hinv) as (o & Hi & Hk). destruct o; try done.
  unfold free_str_at. rewrite Hi.
  destruct (take_spec h E R i (O_Str text) Hinv Hi eq_refl) as (Hinv1 & Hrel & _); done.
Qed.

Lemma free_snapshot_spec h E R i :
  Inv h E (R_Slot K_Snapshot i :: R) ->
  Inv (free_snapshot i h) E R /\ released h (free_snapshot i h).
Proof.
  intros Hinv. destruct (live_ref _ _ _ _ _ Hinv) as (o & Hi & Hk). destruct o; try done.
  pose proof (inv_holders _ _ _ Hinv _ _ Hi) as Hh. cbn in Hh.
  unfold free_snapshot. rewrite Hi. case_decide.
  - by eapply (drop_share_spec h E R i (O_Snapshot node shares)).
  - destruct (take_spec h E R i (O_Snapshot node shares) Hinv Hi) as (Hinv1 & Hrel & _);
      [cbn; lia|done|done].
Qed.
End FreeSpecs.

(** Given a slot more of fuel than there are slots in use, a release takes
    exactly one holder away and the fuel never runs out. *)
Lemma drop_value_fuel_spec fuel : releases_value (drop_value_fuel fuel) fuel.
Proof.
  induction fuel as [|fuel IH]; intros v h E R Hf Hinv; [lia|].
  destruct v; cbn [drop_value_fuel]; cbn [refs app] in Hinv; try done.
  - by apply free_str_at_spec.
  - by eapply free_struct_at_spec.
  - by eapply free_array_at_spec.
  - by eapply free_enum_at_spec.
  - by eapply free_erased_at_spec.
  - by eapply free_cell_at_spec.
  - split; [by apply with_events_Inv|by apply same_slots_released].
  - by apply free_snapshot_spec.
  - by eapply free_cblock_at_spec.
Qed.

Lemma occupied_le h : (occupied h <= length (slots h))%nat.
Proof.
  unfold occupied, sum. induction (slots h) as [|o l IH]; cbn; [lia|]. destruct o; cbn; lia.
Qed.

Lemma drop_value_spec v h E R :
  Inv h E (refs v ++ R) -> Inv (drop_value v h) E R /\ released h (drop_value v h).
Proof.
  intros. apply (drop_value_fuel_spec (S (length (slots h)))); [|done].
  pose proof (occupied_le h). lia.
Qed.
End Releases.

(** ** Building *)

Section Building.
Context {host : Host} {allocator : Allocator}.

(** An operation that gives its caller one value and takes nothing away. *)
Definition gives (h : Heap) (E R : list Ref) (r : Heap * Value) : Prop :=
  Inv r.1 E (refs r.2 ++ R) /\ grows h r.1.

Lemma map_heap_gives {A} (f : A -> Heap -> Heap * Value) (P : Heap -> A -> Prop) E l : forall h R,
  (forall x h R, x ∈ l -> P h x -> Inv h E R -> gives h E R (f x h)) ->
  (forall x h h', grows h h' -> P h x -> P h' x) ->
  Forall (P h) l -> Inv h E R ->
  Inv (map_heap f l h).1 E (refs_all (map_heap f l h).2 ++ R) /\ grows h (map_heap f l h).1.
Proof.
  induction l as [|x l IH]; intros h R Hf Hmono HP Hinv; [done|]. cbn.
  apply Forall_cons in HP as [Hx HP].
  pose proof (Hf x h R (list_elem_of_here _ _) Hx Hinv) as [Hinv1 Hg1].
  destruct (f x h) as [h1 v]. cbn in Hinv1, Hg1.
  destruct (IH h1 (refs v ++ R)) as [Hinv2 Hg2]; try done.
  - intros y h' R' Hy. apply Hf. by apply list_elem_of_further.
  - eapply Forall_impl; [exact HP|]. intros y. by apply Hmono.
  - destruct (map_heap f l h1) as [h2 vs]. cbn in *. split; [|by etrans].
    rewrite refs_all_cons. eapply Inv_perm; [|exact Hinv2]. intros r. rewrite !occ_app. lia.
Qed.

Lemma copy_native_cblock_spec b : forall h E R,
  cblock_fits b -> Inv h E R ->
  let r := copy_native_cblock b h in
  Inv r.1 E (R_Slot K_CBlock r.2 :: R) /\ only_adds h r.1.
Proof.
  induction b as [bytes kids IH] using cblock_ind. intros h E R Hfit Hinv.
  cbn. destruct (cblock_bytes bytes h) as [h1 root] eqn:Hb.
  destruct (cblock_bytes_Inv _ _ _ _ _ _ Hinv Hb) as [Hinv1 [address Hroot]].
  pose proof (alloc_object_adds _ _ _ _ _ _ Hinv Hb) as [Hadd Hbl].
  assert (slot h root = None) as Hfresh
    by (unfold cblock_bytes in Hb; by eapply alloc_object_fresh).
  cbn. match goal with |- context [?F kids h1] => set (attach_all := F) end.
  enough (forall kids0 hx bytesx kidsx,
    Forall (fun c => forall h E R, cblock_fits (ch_block c) -> Inv h E R ->
      let r := copy_native_cblock (ch_block c) h in
      Inv r.1 E (R_Slot K_CBlock r.2 :: R) /\ only_adds h r.1) kids0 ->
    cblock_fits (CBlockNode bytesx kids0) ->
    Inv hx E (R_Slot K_CBlock root :: R) ->
    slot hx root = Some (O_CBlock address bytesx kidsx) ->
    Inv (attach_all kids0 hx) E (R_Slot K_CBlock root :: R) /\
    (forall i o, i <> root -> slot hx i = Some o -> slot (attach_all kids0 hx) i = Some o) /\
    blocks (attach_all kids0 hx) = blocks hx) as Hall.
  { destruct (Hall kids h1 bytes [] IH Hfit Hinv1 Hroot) as (Hfin & Hkeep & Hbl2).
    split; [done|]. split; [|congruence]. intros i o Hi. apply Hkeep; [congruence|by apply Hadd]. }
  clear - attach_all. intros kids0. induction kids0 as [|[offset width nested] kids0 IHk];
    intros hx bytesx kidsx IH Hfit Hinv Hroot; [done|].
  apply Forall_cons in IH as [Hn IH]. cbn in Hn. destruct Hfit as (Hw & Hnest & Hfit).
  cbn. destruct (Hn hx E _ Hnest Hinv) as [Hinv1 [Hadd Hbl]].
  destruct (copy_native_cblock nested hx) as [h2 nid]. cbn in Hinv1, Hadd, Hbl.
  destruct (cblock_attach_Inv h2 E _ root offset width nid address bytesx kidsx Hinv1)
    as (h3 & bytes' & kids' & -> & Hinv3 & Hs3 & Hlen & Hother & Hbl3); [by apply Hadd|done|].
  destruct (IHk h3 bytes' kids' IH) as (Hfin & Hkeep & Hbl4); [by cbn; rewrite Hlen|done|done|].
  split_and!; [done| |congruence]. intros i o Hne Hi. apply Hkeep; [done|].
  rewrite Hother by done. by apply Hadd.
Qed.

Lemma new_block_spec h E R vs (mk : nat -> Object) k :
  (forall p, out (mk p) = [R_Block p]) -> (forall p, holders (mk p) = 1%nat) ->
  (forall p, kind_of (mk p) = k) -> (forall p, object_ok E (mk p)) ->
  Inv h E (refs_all vs ++ R) ->
  let '(h1, p) := rc_new vs h in
  let '(h2, id) := alloc_object (mk p) h1 in
  Inv h2 E (R_Slot k id :: R) /\ grows h h2 /\ slot h2 id = Some (mk p).
Proof.
  intros Ho Hh Hk Hok Hinv. destruct (rc_new vs h) as [h1 p] eqn:Hn.
  pose proof (rc_new_Inv _ _ _ _ _ _ Hinv Hn) as Hinv1.
  destruct (alloc_object (mk p) h1) as [h2 id] eqn:Ha.
  split_and!.
  - rewrite <- (Hk p). eapply alloc_object_Inv; [|done|done|done]. by rewrite Ho.
  - etrans; [|eapply only_adds_grows, alloc_object_adds; done].
    unfold rc_new in Hn. simplify_eq. apply grows_same_slots; [done|].
    intros q b Hq. exists b. split_and!; [|done|done]. apply block_Some. cbn.
    apply lookup_app_l_Some. by apply block_Some.
  - destruct (alloc_object_fresh _ _ _ _ _ _ Hinv1 Ha) as (_ & _ & Hput).
    rewrite Hput. by rewrite decide_True.
Qed.

Lemma new_struct_spec h E R vs :
  Inv h E (refs_all vs ++ R) ->
  let '(h2, id) := new_struct vs h in
  Inv h2 E (R_Slot K_Struct id :: R) /\ grows h h2 /\ exists p, slot h2 id = Some (O_Struct p).
Proof.
  intros Hinv. pose proof (new_block_spec h E R vs O_Struct K_Struct) as H. unfold new_struct.
  destruct (rc_new vs h) as [h1 p]. destruct (alloc_object (O_Struct p) h1) as [h2 id].
  destruct H as (? & ? & ?); try done. split_and!; [done|done|by eexists].
Qed.

Lemma new_array_spec h E R vs :
  Inv h E (refs_all vs ++ R) ->
  let '(h2, id) := new_array vs h in Inv h2 E (R_Slot K_Array id :: R) /\ grows h h2.
Proof.
  intros Hinv. pose proof (new_block_spec h E R vs O_Array K_Array) as H. unfold new_array.
  destruct (rc_new vs h) as [h1 p]. destruct (alloc_object (O_Array p) h1) as [h2 id].
  by destruct H as (? & ? & ?).
Qed.

(** A counted object around a value its caller owned. *)
Lemma box_spec h E R v o h' id :
  Inv h E (refs v ++ R) -> out o = refs v -> holders o = 1%nat -> object_ok E o ->
  alloc_object o h = (h', id) -> Inv h' E (R_Slot (kind_of o) id :: R) /\ grows h h'.
Proof.
  intros Hinv Ho Hh Hok Ha. split.
  - eapply alloc_object_Inv; [|done|done|done]. by rewrite Ho.
  - by eapply only_adds_grows, alloc_object_adds.
Qed.

Lemma all_of_Forall {A} (P : A -> Prop) l : all_of P l <-> Forall P l.
Proof. induction l; cbn; [by split|]. by rewrite Forall_cons, IHl. Qed.

(** Reading a callback-state tree back builds one owned value. *)
Lemma from_native_state_spec node : forall h E R,
  node_ok E node -> Inv h E R -> gives h E R (from_native_state node h).
Proof.
  revert node.
  refine (native_state_ind (fun node => forall h E R, node_ok E node -> Inv h E R ->
    gives h E R (from_native_state node h)) _ _ _ _ _ _);
  [intros node|intros vs IH|intros glue vs IH|intros vs IH|intros ty v IH|intros tag v IH].
  { destruct node as [ | | | | | | | | |c| |tag [payload|]|owner|b]; try done;
      intros h E R Hok Hinv; cbn.
    - destruct (alloc text h) as [h1 id] eqn:Ha. by eapply (box_spec h E R V_Void (O_Str text)).
    - cbn in Hok. destruct (vm_owned c) eqn:Hvm; cbn; [|by split].
      destruct (bool_decide (cell_handle c < 2 ^ 32)) eqn:Hc; [|by split].
      apply bool_decide_eq_true in Hc.
      refine (copy_value_spec h E R (V_Cell (Z.to_nat (cell_handle c))) _ _ Hinv _ eq_refl).
      intros r ->%list_elem_of_singleton. eapply root_live; [done|]. left. by apply Hok.
    - destruct (alloc_object (O_Enum tag None 1) h) as [h1 id] eqn:Ha.
      by eapply (box_spec h E R V_Void (O_Enum tag None 1)).
    - split; [by apply with_events_Inv|apply with_events_grows].
    - destruct (copy_native_cblock_spec b h E R Hok Hinv) as [Hinv1 Hadd].
      destruct (copy_native_cblock b h) as [h1 id]. split; [done|by apply only_adds_grows]. }
  all: intros h E R Hok Hinv; cbn -[new_struct new_array] in Hok |- *.
  1-3: apply all_of_Forall in Hok;
    destruct (map_heap_gives from_native_state (fun _ x => node_ok E x) E vs h R) as [Hinv1 Hg1];
    [by intros x h' R' Hx; apply (proj1 (Forall_forall _ _) IH x Hx)|done|done|done
    |destruct (map_heap from_native_state vs h) as [h1 ws]; cbn in Hinv1, Hg1].
  - pose proof (new_struct_spec h1 E R ws Hinv1) as Hn. destruct (new_struct ws h1) as [h2 id].
    destruct Hn as (? & ? & _). split; cbn; [done|by etrans].
  - pose proof (new_struct_spec h1 E R ws Hinv1) as Hn. destruct (new_struct ws h1) as [h2 id].
    destruct Hn as (? & ? & p & ?). split; cbn; [by eapply glue_insert_Inv|].
    etrans; [|apply with_glue_grows]. by etrans.
  - pose proof (new_array_spec h1 E R ws Hinv1) as Hn. destruct (new_array ws h1) as [h2 id].
    destruct Hn as (? & ?). split; cbn; [done|by etrans].
  - destruct (IH h E R Hok Hinv) as [Hinv1 Hg1].
    destruct (from_native_state v h) as [h1 w]. cbn in Hinv1, Hg1.
    destruct (alloc_object (O_Erased ty w 1) h1) as [h2 id] eqn:Ha.
    destruct (box_spec h1 E R w (O_Erased ty w 1) h2 id Hinv1) as [? ?]; try done.
    split; cbn; [done|by etrans].
  - destruct (IH h E R Hok Hinv) as [Hinv1 Hg1].
    destruct (from_native_state v h) as [h1 w]. cbn in Hinv1, Hg1.
    destruct (alloc_object (O_Enum tag (Some w) 1) h1) as [h2 id] eqn:Ha.
    destruct (box_spec h1 E R w (O_Enum tag (Some w) 1) h2 id Hinv1) as [? ?]; try done.
    split; cbn; [done|by etrans].
Qed.
End Building.
