(* ===== verification/HeapView.v ===== *)
(** What a program can see of the VM heap: the tree a value denotes.

    [view] follows handles; it stops at a capture cell, which is a place rather
    than a value.  A C block denotes its bytes with the child words cleared,
    since those hold addresses.  The transport lemma says when a value denotes
    the same tree on two heaps; growing and releasing are instances. *)

From stdpp Require Import gmap.
From S2P Require Import Prelude.
From S2P Require Import Instruction.
From S2P Require Import Foreign.
From S2P Require Import NativeState.
From S2P Require Import Heap.
From S2P Require Import HeapOwnership.
From S2P Require Import HeapOps.

#[local] Unset Elimination Schemes.
Inductive Tree :=
| T_Inline (v : Value)
| T_Str (text : rstring)
| T_Struct (fields : list Tree)
| T_Array (elements : list Tree)
| T_Enum (tag : Z) (payload : option Tree)
| T_Erased (type_id : Z) (payload : Tree)
| T_Snapshot (node : NativeStateValue)
| T_CBlock (bytes : list byte) (kids : list (Z * ForeignPointerWidth * Tree)).
#[local] Set Elimination Schemes.

(** The payload of a C block with its child words cleared. *)
Definition clear_word (bytes : list byte) (c : VmCBlockChild) : list byte :=
  let start := Z.to_nat (vc_offset c) in
  fill_zero bytes start (start + Z.to_nat (width_bytes (vc_width c))).
Definition clear_words (kids : list VmCBlockChild) (bytes : list byte) : list byte :=
  foldl clear_word bytes kids.
#[global] Arguments clear_words : simpl never.

Fixpoint view (fuel : nat) (h : Heap) (v : Value) : option Tree :=
  match fuel with
  | O => None
  | S fuel =>
    match v with
    | V_Str i => match slot h i with Some (O_Str text) => Some (T_Str text) | _ => None end
    | V_Struct i =>
      match slot h i with
      | Some (O_Struct p) => b ← block h p; T_Struct <$> mapM (view fuel h) (items b)
      | _ => None
      end
    | V_Array i =>
      match slot h i with
      | Some (O_Array p) => b ← block h p; T_Array <$> mapM (view fuel h) (items b)
      | _ => None
      end
    | V_Enum i =>
      match slot h i with
      | Some (O_Enum tag (Some w) _) => (fun t => T_Enum tag (Some t)) <$> view fuel h w
      | Some (O_Enum tag None _) => Some (T_Enum tag None)
      | _ => None
      end
    | V_Erased i =>
      match slot h i with
      | Some (O_Erased type_id w _) => T_Erased type_id <$> view fuel h w
      | _ => None
      end
    | V_NativeSnapshot i =>
      match slot h i with Some (O_Snapshot node _) => Some (T_Snapshot node) | _ => None end
    | V_CBlock i =>
      match slot h i with
      | Some (O_CBlock _ bytes kids) =>
        T_CBlock (clear_words kids bytes) <$>
          mapM (fun c => (fun t => (vc_offset c, vc_width c, t)) <$> view fuel h (V_CBlock (vc_block c)))
               kids
      | _ => None
      end
    | _ => Some (T_Inline v)
    end
  end.

(** [v] denotes [t] on [h]. *)
Definition denotes (h : Heap) (v : Value) (t : Tree) : Prop := exists fuel, view fuel h v = Some t.

(** The values an object leads to. *)
Definition object_values (h : Heap) (o : Object) : list Value :=
  match o with
  | O_Struct p | O_Array p => rc_items h p
  | O_Enum _ payload _ => option_list payload
  | O_Erased _ payload _ => [payload]
  | O_CBlock _ _ kids => (fun c => V_CBlock (vc_block c)) <$> kids
  | _ => []
  end.

Lemma mapM_transport {A B} (f g : A -> option B) l : forall ks,
  (forall x y, x ∈ l -> f x = Some y -> g x = Some y) -> mapM f l = Some ks -> mapM g l = Some ks.
Proof.
  induction l as [|x l IH]; intros ks Hfg H; [done|]. cbn in *.
  destruct (f x) as [y|] eqn:Hx; cbn in H; [|done].
  rewrite (Hfg x y (list_elem_of_here _ _) Hx). cbn.
  destruct (mapM f l) as [ys|]; cbn in H; [|done]. rewrite (IH ys); [done| |done].
  intros z w Hz. apply Hfg. by apply list_elem_of_further.
Qed.

Lemma mapM_elem {A B} (f : A -> option B) l ks x :
  mapM f l = Some ks -> x ∈ l -> exists y, f x = Some y.
Proof.
  intros H Hx. apply mapM_Some in H. apply list_elem_of_lookup in Hx as [i Hi].
  destruct (Forall2_lookup_l _ _ _ _ _ H Hi) as (y & _ & Hy). by exists y.
Qed.

Lemma view_mono fuel : forall fuel' h v t,
  view fuel h v = Some t -> (fuel <= fuel')%nat -> view fuel' h v = Some t.
Proof.
  induction fuel as [|fuel IH]; intros [|fuel'] h v t H Hle; try done; [lia|].
  assert (forall w u, view fuel h w = Some u -> view fuel' h w = Some u) as Hstep
    by (intros w u Hw; eapply IH; [exact Hw|lia]).
  destruct v; try done; cbn in *; destruct (slot h id) as [[]|]; try done.
  - destruct (block h fields) as [b|]; cbn in *; [|done].
    destruct (mapM (view fuel h) (items b)) as [ts|] eqn:E; cbn in H; [|done].
    rewrite (mapM_transport (view fuel h) (view fuel' h) _ ts); [done|eauto|done].
  - destruct (block h elements) as [b|]; cbn in *; [|done].
    destruct (mapM (view fuel h) (items b)) as [ts|] eqn:E; cbn in H; [|done].
    rewrite (mapM_transport (view fuel h) (view fuel' h) _ ts); [done|eauto|done].
  - destruct payload as [w|]; [|done]. destruct (view fuel h w) eqn:E; cbn in H; [|done].
    by rewrite (Hstep _ _ E).
  - destruct (view fuel h payload) eqn:E; cbn in H; [|done]. by rewrite (Hstep _ _ E).
  - destruct (mapM _ kids) as [ts|] eqn:E in H; cbn in H; [|done].
    erewrite mapM_transport; [exact H| |exact E]. intros c y _ Hc. cbn in Hc |- *.
    destruct (view fuel h (V_CBlock (vc_block c))) eqn:Hv; cbn in Hc; [|done].
    by rewrite (Hstep _ _ Hv).
Qed.

Lemma denotes_det h v t t' : denotes h v t -> denotes h v t' -> t = t'.
Proof.
  intros [f Hf] [g Hg]. eapply (view_mono f (f + g)) in Hf; [|lia].
  eapply (view_mono g (f + g)) in Hg; [|lia]. congruence.
Qed.

(** ** Transport *)

(** A class [G] of values that [h'] reads the way [h] does: each leads to the
    same content on both, and to values of the class. *)
Record keeps (h h' : Heap) (G : Value -> Prop) : Prop := {
  keeps_slot : forall v k i o, G v -> refs v = [R_Slot k i] -> k <> K_Cell ->
    slot h i = Some o -> kind_of o = k ->
    exists o', slot h' i = Some o' /\ content o' = content o;
  keeps_block : forall v k i o p b, G v -> refs v = [R_Slot k i] -> slot h i = Some o ->
    kind_of o = k -> out o = [R_Block p] -> block h p = Some b ->
    exists b', block h' p = Some b' /\ items b' = items b;
  keeps_closed : forall v k i o w, G v -> refs v = [R_Slot k i] -> k <> K_Cell ->
    slot h i = Some o -> kind_of o = k -> w ∈ object_values h o -> G w
}.

Lemma view_transport h h' G fuel : keeps h h' G ->
  forall v t, G v -> view fuel h v = Some t -> view fuel h' v = Some t.
Proof.
  intros [Hs Hb Hc]. induction fuel as [|fuel IH]; intros v t HG Hv; [done|].
  destruct v; try done; cbn in Hv |- *; destruct (slot h id) as [o|] eqn:Hi; try done;
    destruct o; try done;
    destruct (Hs _ _ _ _ HG eq_refl ltac:(done) Hi eq_refl) as (o' & -> & Ho);
    destruct o'; cbn in Ho; simplify_eq; try done;
    pose proof (fun w => Hc _ _ _ _ w HG eq_refl ltac:(done) Hi eq_refl) as Hch; cbn in Hch.
  - destruct (block h fields) as [b|] eqn:Hp; cbn in Hv; [|done].
    destruct (Hb _ _ _ _ _ _ HG eq_refl Hi eq_refl eq_refl Hp) as (b' & Hb' & Hit).
    unfold rc_items in Hch. rewrite Hp in Hch. rewrite Hb'. cbn. rewrite Hit.
    destruct (mapM (view fuel h) (items b)) as [ts|] eqn:E; cbn in Hv; [|done].
    rewrite (mapM_transport (view fuel h) (view fuel h') _ ts); [done|eauto|done].
  - destruct (block h elements) as [b|] eqn:Hp; cbn in Hv; [|done].
    destruct (Hb _ _ _ _ _ _ HG eq_refl Hi eq_refl eq_refl Hp) as (b' & Hb' & Hit).
    unfold rc_items in Hch. rewrite Hp in Hch. rewrite Hb'. cbn. rewrite Hit.
    destruct (mapM (view fuel h) (items b)) as [ts|] eqn:E; cbn in Hv; [|done].
    rewrite (mapM_transport (view fuel h) (view fuel h') _ ts); [done|eauto|done].
  - destruct payload as [w|]; [|done]. destruct (view fuel h w) eqn:E; cbn in Hv; [|done].
    rewrite (IH _ _ (Hch w ltac:(apply list_elem_of_here)) E). done.
  - destruct (view fuel h payload) eqn:E; cbn in Hv; [|done].
    rewrite (IH _ _ (Hch _ ltac:(apply list_elem_of_here)) E). done.
  - destruct (mapM _ kids) as [ts|] eqn:E in Hv; cbn in Hv; [|done].
    erewrite mapM_transport; [exact Hv| |exact E]. intros c y Hin Hv'. cbn in Hv' |- *.
    destruct (view fuel h (V_CBlock (vc_block c))) eqn:Hv2; cbn in Hv'; [|done].
    rewrite (IH _ _ (Hch _ (list_elem_of_fmap_2 _ _ _ Hin)) Hv2). done.
Qed.

Lemma keeps_trans h1 h2 h3 (G G' : Value -> Prop) :
  keeps h1 h2 G -> keeps h2 h3 G' -> (forall v, G v -> G' v) -> keeps h1 h3 G.
Proof.
  intros [S1 B1 C1] [S2 B2 _] HG. split; [| |done].
  - intros v k i o Hv Hr Hk Hi Ho. destruct (S1 v k i o Hv Hr Hk Hi Ho) as (o2 & Hi2 & Hc2).
    destruct (S2 v k i o2) as (o3 & Hi3 & Hc3); [by apply HG|done|done|done| |].
    + by rewrite (content_kind _ _ Hc2).
    + exists o3. split; [done|congruence].
  - intros v k i o p b Hv Hr Hi Ho Hout Hp.
    assert (k <> K_Cell) as Hk by (intros ->; destruct o; try done; by destruct payload).
    destruct (S1 v k i o Hv Hr Hk Hi Ho) as (o2 & Hi2 & Hc2).
    destruct (B1 v k i o p b Hv Hr Hi Ho Hout Hp) as (b2 & Hp2 & Hb2).
    destruct (B2 v k i o2 p b2) as (b3 & Hp3 & Hb3); [by apply HG|done|done| | |done|].
    + by rewrite (content_kind _ _ Hc2).
    + by rewrite (content_out _ _ Hc2).
    + exists b3. split; [done|congruence].
Qed.

Section ViewTransport.
Context {host : Host} {allocator : Allocator}.

Lemma grows_keeps h h' : grows h h' -> keeps h h' (fun _ => True).
Proof.
  intros [Hs Hb]. split; try done.
  - intros v k i o _ _ _ Hi _. by apply Hs.
  - intros v k i o p b _ _ _ _ _ Hp. destruct (Hb p b Hp) as (b' & ? & ? & _). eauto.
Qed.

Lemma denotes_grows h h' v t : grows h h' -> denotes h v t -> denotes h' v t.
Proof.
  intros Hg [fuel Hv]. exists fuel. by apply (view_transport h h' _ fuel (grows_keeps h h' Hg)).
Qed.

Lemma refs_object_values o h w r :
  w ∈ object_values h o -> r ∈ refs w ->
  match o with
  | O_Struct p | O_Array p => exists b, block h p = Some b /\ r ∈ refs_all (items b)
  | _ => r ∈ out o
  end.
Proof.
  intros Hw Hr. destruct o; cbn in Hw; try (by apply elem_of_nil in Hw).
  1-2: unfold rc_items in Hw; destruct (block h _) as [b|]; [|by apply elem_of_nil in Hw];
    exists b; split; [done|by eapply elem_refs_all].
  - destruct payload; cbn in Hw; [|by apply elem_of_nil in Hw].
    by apply list_elem_of_singleton in Hw as ->.
  - by apply list_elem_of_singleton in Hw as ->.
  - apply list_elem_of_fmap in Hw as (c & -> & Hc). apply list_elem_of_singleton in Hr as ->.
    cbn. unfold kid_refs. by apply (list_elem_of_fmap_2 (fun c => R_Slot K_CBlock (vc_block c))).
Qed.

(** What a live object leads to is live. *)
Lemma object_values_live h E R i o w :
  Inv h E R -> slot h i = Some o -> w ∈ object_values h o -> live_value h w.
Proof.
  intros Hinv Hi Hw r Hr. pose proof (refs_object_values o h w r Hw Hr) as Hx.
  destruct o; try (by eapply stored_slot_out);
    destruct Hx as (b & ? & ?); by eapply stored_block_out.
Qed.

(** On what a release leaves, everything still held reads as before. *)
Lemma released_keeps h h' E R : Inv h' E R -> grows h' h -> keeps h h' (live_value h').
Proof.
  intros Hinv [Hs Hb].
  assert (forall v k i o, live_value h' v -> refs v = [R_Slot k i] -> slot h i = Some o ->
    exists o', slot h' i = Some o' /\ content o' = content o) as Hslot.
  { intros v k i o Hl Hr Hi. destruct (live_slot h' k i) as (o' & Hi' & _).
    - apply Hl. rewrite Hr. apply list_elem_of_here.
    - exists o'. split; [done|]. destruct (Hs i o' Hi') as (o2 & Ho2 & ?). congruence. }
  assert (forall i o o' p b, slot h' i = Some o' -> content o' = content o -> out o = [R_Block p] ->
    block h p = Some b -> exists b', block h' p = Some b' /\ items b' = items b) as Hblock.
  { intros i o o' p b Hi' Hc Ho Hp.
    assert (out o' = [R_Block p]) as Ho' by (destruct o, o'; cbn in *; simplify_eq; done).
    destruct (pointed_block h' E R i o' p Hinv Hi' Ho') as [b' Hb'].
    exists b'. split; [done|]. destruct (Hb p b' Hb') as (b2 & ? & ? & _). congruence. }
  split.
  - eauto.
  - intros v k i o p b Hl Hr Hi Hk Ho Hp. destruct (Hslot v k i o Hl Hr Hi) as (o' & Hi' & Hc).
    eauto.
  - intros v k i o w Hl Hr Hk Hi Hko Hw. destruct (Hslot v k i o Hl Hr Hi) as (o' & Hi' & Hc).
    eapply (object_values_live h' E R i o'); [done|done|].
    destruct o; try (by apply elem_of_nil in Hw);
      destruct o'; cbn in Hc; simplify_eq; try done; cbn in Hw |- *.
    all: unfold rc_items in *; destruct (block h _) as [b|] eqn:Hp; [|by apply elem_of_nil in Hw].
    all: edestruct Hblock as (b' & -> & ->); [exact Hi'|reflexivity|reflexivity|exact Hp|done].
Qed.

Lemma denotes_released h h' E R v t :
  Inv h' E R -> grows h' h -> live_value h' v -> denotes h v t -> denotes h' v t.
Proof.
  intros Hinv Hg Hl [fuel Hv]. exists fuel.
  by apply (view_transport h h' _ fuel (released_keeps h h' E R Hinv Hg)).
Qed.
End ViewTransport.

(** ** Writes nobody else can see *)

Section Away.
Context {host : Host} {allocator : Allocator}.

(** The one reference to an object with one owner is stored nowhere else. *)
Lemma sole_reference h E R k i o :
  Inv h E (R_Slot k i :: R) -> slot h i = Some o -> kind_of o = k -> holders o = 1%nat ->
  total h (R_Slot k i) = 0%nat /\ (R_Slot k i ∉ R) /\ (R_Slot k i ∉ E).
Proof.
  intros Hinv Hi Hk Ho. pose proof (inv_count _ _ _ Hinv (R_Slot k i)) as Hc.
  rewrite occ_cons in Hc. rewrite decide_True in Hc by done. cbn in Hc.
  rewrite Hi, decide_True, Ho in Hc by done. rewrite !occ_elem. lia.
Qed.

Lemma stored_slot_total h i o r : slot h i = Some o -> r ∈ out o -> (1 <= total h r)%nat.
Proof.
  intros Hi Hr. apply slot_Some in Hi.
  unfold total. pose proof (sum_insert (fun o => occ r (slot_out o)) (slots h) i _ None Hi) as Hs.
  cbn [slot_out occ] in Hs. apply occ_elem in Hr. lia.
Qed.

Lemma stored_block_total h p b r : block h p = Some b -> r ∈ refs_all (items b) -> (1 <= total h r)%nat.
Proof.
  intros Hi Hr. apply block_Some in Hi.
  unfold total. pose proof (sum_insert (fun b => occ r (block_out b)) (blocks h) p _ None Hi) as Hs.
  cbn [block_out occ] in Hs. apply occ_elem in Hr. lia.
Qed.

Lemma object_values_stored h i o w r :
  slot h i = Some o -> w ∈ object_values h o -> r ∈ refs w -> (1 <= total h r)%nat.
Proof.
  intros Hi Hw Hr. pose proof (refs_object_values o h w r Hw Hr) as Hx.
  destruct o; try (by eapply stored_slot_total); destruct Hx as (b & ? & ?); by eapply stored_block_total.
Qed.

(** Rewriting an object its owner alone can reach, and the block only it points
    at, is invisible to every other value. *)
Lemma keeps_away h h' E R k i o :
  Inv h E (R_Slot k i :: R) -> slot h i = Some o -> kind_of o = k -> holders o = 1%nat ->
  (forall j, j <> i -> slot h' j = slot h j) ->
  (forall j x q, j <> i -> slot h j = Some x -> out x = [R_Block q] -> block h' q = block h q) ->
  keeps h h' (fun w => R_Slot k i ∉ refs w).
Proof.
  intros Hinv Hi Hk Ho Hs Hb.
  destruct (sole_reference _ _ _ _ _ _ Hinv Hi Hk Ho) as (Htot & _ & _).
  assert (forall w k' j x, R_Slot k i ∉ refs w -> refs w = [R_Slot k' j] -> slot h j = Some x ->
    kind_of x = k' -> j <> i) as Hne.
  { intros w k' j x Hn Hr Hx Hkx ->. apply Hn. rewrite Hr, Hi in *. simplify_eq. apply list_elem_of_here. }
  split.
  - intros w k' j x Hn Hr _ Hj Hkx. rewrite Hs by (by eapply Hne). eauto.
  - intros w k' j x p b Hn Hr Hj Hkx Hx Hp. rewrite (Hb j x p); [eauto| |done|done]. by eapply Hne.
  - intros w k' j x u Hn Hr _ Hj Hkx Hu Hin.
    pose proof (object_values_stored h j x u _ Hj Hu Hin). lia.
Qed.
End Away.
