(* ===== verification/HeapCopy.v ===== *)
(** A copy denotes what it copies: [copy_value] on every kind of value, the
    deep copy of a C-block tree included. *)

From stdpp Require Import gmap.
From S2P Require Import Prelude.
From S2P Require Import Instruction.
From S2P Require Import Foreign.
From S2P Require Import NativeState.
From S2P Require Import Heap.
From S2P Require Import HeapOwnership.
From S2P Require Import HeapOps.
From S2P Require Import HeapView.

(** ** Child words *)

Definition word_start (c : VmCBlockChild) : nat := Z.to_nat (vc_offset c).
Definition word_end (c : VmCBlockChild) : nat := (word_start c + Z.to_nat (width_bytes (vc_width c)))%nat.
Definition covers (c : VmCBlockChild) (j : nat) : Prop := (word_start c <= j < word_end c)%nat.

#[export] Instance covers_decision c j : Decision (covers c j).
Proof. unfold covers. apply _. Defined.

Lemma word_order c : (word_start c <= word_end c)%nat.
Proof. unfold word_end. lia. Qed.

Lemma clear_word_lookup bs c j :
  (word_end c <= length bs)%nat ->
  clear_word bs c !! j = if decide (covers c j) then Some x00 else bs !! j.
Proof.
  intros Hfit. pose proof (word_order c). unfold clear_word.
  change (Z.to_nat (vc_offset c)) with (word_start c). fold (word_end c).
  case_decide as Hc; unfold covers in Hc.
  - by apply fill_zero_inside.
  - apply fill_zero_outside; lia.
Qed.

Lemma length_clear_word bs c :
  (word_end c <= length bs)%nat -> length (clear_word bs c) = length bs.
Proof. intros. apply length_fill_zero. pose proof (word_order c). by unfold word_end, word_start in *. Qed.

Lemma length_clear_words kids : forall bs,
  Forall (fun c => (word_end c <= length bs)%nat) kids -> length (clear_words kids bs) = length bs.
Proof.
  induction kids as [|c kids IH]; intros bs H; [done|]. apply Forall_cons in H as [Hc H].
  change (clear_words (c :: kids) bs) with (clear_words kids (clear_word bs c)). pose proof (length_clear_word bs c Hc) as Hl.
  by rewrite IH, Hl by (by rewrite Hl).
Qed.

(** A cleared payload, byte by byte. *)
Lemma clear_words_lookup kids j : forall bs,
  Forall (fun c => (word_end c <= length bs)%nat) kids ->
  clear_words kids bs !! j = if decide (Exists (fun c => covers c j) kids) then Some x00 else bs !! j.
Proof.
  induction kids as [|c kids IH]; intros bs H; [done|]. apply Forall_cons in H as [Hc H].
  change (clear_words (c :: kids) bs) with (clear_words kids (clear_word bs c)). pose proof (length_clear_word bs c Hc) as Hl.
  rewrite IH, clear_word_lookup by (try rewrite Hl; done).
  destruct (decide (Exists _ kids)) as [He|He]; [rewrite decide_True by (by right); done|].
  case_decide; [rewrite decide_True by (by left); done|].
  rewrite decide_False; [done|]. intros [?|?]%Exists_cons; done.
Qed.

(** Writing inside a child word shows nothing once the words are cleared. *)
Lemma clear_words_snoc kids c bs bs' word :
  Forall (fun c => (word_end c <= length bs)%nat) (kids ++ [c]) -> length bs' = length bs ->
  length word = (word_end c - word_start c)%nat ->
  clear_words kids bs' = clear_words kids bs ->
  clear_words (kids ++ [c]) (overwrite bs' (word_start c) word) = clear_words (kids ++ [c]) bs.
Proof.
  intros Hf Hl Hw Heq. pose proof (word_order c) as Ho.
  pose proof Hf as [Hk Hc]%Forall_app. apply Forall_cons in Hc as [Hc _].
  assert (length (overwrite bs' (word_start c) word) = length bs) as Hlo.
  { rewrite length_overwrite; [done|]. lia. }
  apply list_eq. intros j. rewrite !clear_words_lookup by (try rewrite Hlo; done).
  destruct (decide (Exists _ _)) as [He|He]; [done|].
  assert (~ Exists (fun c => covers c j) kids) as Hnk by (intros ?; apply He, Exists_app; by left).
  assert (~ covers c j) as Hnc by (intros ?; apply He, Exists_app; right; by left).
  assert (bs' !! j = bs !! j) as Hj.
  { apply (f_equal (fun l => l !! j)) in Heq. rewrite !clear_words_lookup in Heq by (try rewrite Hl; done).
    by rewrite !decide_False in Heq. }
  rewrite <- Hj. unfold covers in Hnc. unfold overwrite.
  destruct (decide (j < word_start c)%nat).
  - rewrite lookup_app_l by (rewrite length_take; lia). by rewrite lookup_take, decide_True.
  - rewrite lookup_app_r by (rewrite length_take; lia). rewrite length_take.
    rewrite lookup_app_r by lia. rewrite lookup_drop. f_equal. lia.
Qed.

(** [clear_words] looks at offsets and widths only. *)
Definition same_word (c c' : VmCBlockChild) : Prop :=
  vc_offset c = vc_offset c' /\ vc_width c = vc_width c'.

Lemma clear_words_same kids kids' : Forall2 same_word kids kids' ->
  forall bs, clear_words kids bs = clear_words kids' bs.
Proof.
  induction 1 as [|c c' kids kids' [Ho Hw] _ IH]; intros bs; [done|].
  unfold clear_words in *. cbn.
  assert (clear_word bs c = clear_word bs c') as -> by (unfold clear_word; by rewrite Ho, Hw).
  apply IH.
Qed.

(** ** Depth of a value *)

Fixpoint tree_size (t : Tree) : nat :=
  match t with
  | T_Struct ts | T_Array ts => S (sum_list (tree_size <$> ts))
  | T_Enum _ (Some t) | T_Erased _ t => S (tree_size t)
  | T_CBlock _ kids => S (sum_list ((fun k => tree_size k.2) <$> kids))
  | _ => 1
  end.

Lemma elem_sum_list (l : list nat) n : n ∈ l -> (n <= sum_list l)%nat.
Proof.
  induction l as [|x l IH]; [by intros ?%elem_of_nil|].
  intros [->|H]%elem_of_cons; cbn; [lia|]. specialize (IH H). lia.
Qed.

(** Distinct ancestors are at most as many as the slots. *)
Lemma path_bound h (path : list nat) :
  NoDup path -> (forall i, i ∈ path -> is_Some (slot h i)) -> (length path <= length (slots h))%nat.
Proof.
  intros Hnd Hin. rewrite <- (length_seq (length (slots h)) 0).
  apply submseteq_length, NoDup_submseteq; [done|]. intros i Hi.
  apply elem_of_seq. destruct (Hin i Hi) as [o Ho%slot_Some%lookup_lt_Some]. lia.
Qed.

(** The slot a value is read through; a cell is not. *)
Definition slot_of (v : Value) : option nat :=
  match v, refs v with V_Cell _, _ => None | _, R_Slot _ i :: _ => Some i | _, _ => None end.

(** A value that denotes fits its slot, so the slot determines it. *)
Lemma denotes_slot h v w t u i :
  denotes h v t -> denotes h w u -> slot_of v = Some i -> slot_of w = Some i -> v = w.
Proof.
  intros [[|f] Hv] [[|g] Hw]; try done.
  destruct v; try done; intros Hi; cbn in Hi; simplify_eq; cbn in Hv;
    (match type of Hv with context [slot h ?j] => destruct (slot h j) as [o|] eqn:Hs; [|done] end);
    destruct w; try done; intros Hi; cbn in Hi; simplify_eq; cbn in Hw; rewrite Hs in Hw;
    by destruct o.
Qed.

Lemma denotes_live_slot h v t i : denotes h v t -> slot_of v = Some i -> is_Some (slot h i).
Proof.
  intros [[|f] Hv]; [done|]. destruct v; try done; intros Hi; cbn in Hi; simplify_eq; cbn in Hv;
    match goal with |- is_Some (slot h ?j) => by destruct (slot h j) end.
Qed.

(** The values one level down. *)
Definition parts (h : Heap) (v : Value) : list Value :=
  match slot_of v with
  | Some i => match slot h i with Some o => object_values h o | None => [] end
  | None => []
  end.

(** One level of [view] over any account of the level below that agrees. *)
Lemma view_level f g h v t :
  view (S f) h v = Some t ->
  (forall w u, w ∈ parts h v -> view f h w = Some u -> view g h w = Some u) ->
  view (S g) h v = Some t.
Proof.
  intros Hv Hfg. unfold parts in Hfg.
  destruct v; try done; cbn in Hv, Hfg |- *; (destruct (slot h id) as [o|]; [|done]); destruct o; try done;
    cbn in Hfg.
  - destruct (block h fields) as [b|] eqn:Hb; cbn in *; [|done].
    destruct (mapM (view f h) (items b)) as [ts|] eqn:E; cbn in *; simplify_eq.
    unfold rc_items in Hfg. rewrite Hb in Hfg. by erewrite (mapM_transport (view f h) (view g h)).
  - destruct (block h elements) as [b|] eqn:Hb; cbn in *; [|done].
    destruct (mapM (view f h) (items b)) as [ts|] eqn:E; cbn in *; simplify_eq.
    unfold rc_items in Hfg. rewrite Hb in Hfg. by erewrite (mapM_transport (view f h) (view g h)).
  - destruct payload as [w|]; [|done]. destruct (view f h w) as [u|] eqn:E; cbn in *; simplify_eq.
    by rewrite (Hfg w u (list_elem_of_here _ _) E).
  - destruct (view f h payload) as [u|] eqn:E; cbn in *; simplify_eq.
    by rewrite (Hfg payload u (list_elem_of_here _ _) E).
  - destruct (mapM _ kids) as [ts|] eqn:E in Hv; cbn in *; simplify_eq.
    enough (mapM (fun c => (fun t => (vc_offset c, vc_width c, t)) <$> view g h (V_CBlock (vc_block c)))
      kids = Some ts) as -> by done.
    eapply mapM_transport; [|exact E]. intros c y Hc Hy. cbn in Hy.
    destruct (view f h (V_CBlock (vc_block c))) as [tc|] eqn:Hvc; cbn in Hy; simplify_eq.
    rewrite (Hfg (V_CBlock (vc_block c)) tc); [done| |done]. apply list_elem_of_fmap. by exists c.
Qed.

(** What is one level down denotes a smaller tree. *)
Lemma part_denotes f h v t w :
  view (S f) h v = Some t -> w ∈ parts h v ->
  exists u, view f h w = Some u /\ (tree_size u < tree_size t)%nat.
Proof.
  intros Hv Hw. unfold parts in Hw.
  assert (forall ts vs, mapM (view f h) vs = Some ts -> w ∈ vs ->
    exists u, view f h w = Some u /\ (tree_size u < S (sum_list (tree_size <$> ts)))%nat) as Hlist.
  { intros ts vs E Hin. apply mapM_Some in E. apply list_elem_of_lookup in Hin as [m Hm].
    destruct (Forall2_lookup_l _ _ _ _ _ E Hm) as (y & Hy & Hfy). exists y. split; [done|].
    enough (tree_size y <= sum_list (tree_size <$> ts))%nat by lia.
    apply elem_sum_list, list_elem_of_fmap. exists y. split; [done|]. by eapply list_elem_of_lookup_2. }
  destruct v; try (by apply elem_of_nil in Hw); cbn in Hv, Hw;
    (destruct (slot h id) as [o|]; [|done]); destruct o; try done; cbn in Hw.
  all: try (by apply elem_of_nil in Hw).
  - unfold rc_items in Hw. destruct (block h fields) as [b|]; cbn in *; [|done].
    destruct (mapM (view f h) (items b)) as [ts|] eqn:E; cbn in *; simplify_eq. by apply (Hlist ts (items b)).
  - unfold rc_items in Hw. destruct (block h elements) as [b|]; cbn in *; [|done].
    destruct (mapM (view f h) (items b)) as [ts|] eqn:E; cbn in *; simplify_eq. by apply (Hlist ts (items b)).
  - destruct payload as [x|]; cbn in Hw; [|by apply elem_of_nil in Hw].
    apply list_elem_of_singleton in Hw as ->. destruct (view f h x) as [u|]; cbn in *; simplify_eq.
    exists u. split; [done|]. cbn. lia.
  - apply list_elem_of_singleton in Hw as ->. destruct (view f h payload) as [u|]; cbn in *; simplify_eq.
    exists u. split; [done|]. cbn. lia.
  - apply list_elem_of_fmap in Hw as (c & -> & Hc). destruct (mapM _ kids) as [ts|] eqn:E in Hv; cbn in *; simplify_eq.
    apply mapM_Some in E. apply list_elem_of_lookup in Hc as [m Hm].
    destruct (Forall2_lookup_l _ _ _ _ _ E Hm) as (y & Hy & Hfy). cbn in Hfy.
    destruct (view f h (V_CBlock (vc_block c))) as [tc|]; cbn in Hfy; simplify_eq.
    exists tc. split; [done|]. cbn.
    enough (tree_size tc <= sum_list ((fun k => tree_size k.2) <$> ts))%nat by lia.
    apply elem_sum_list, list_elem_of_fmap. exists (vc_offset c, vc_width c, tc).
    split; [done|]. by eapply list_elem_of_lookup_2.
Qed.

(** The slots in use bound the depth: on the way down no slot repeats, or the
    tree would contain itself. *)
Lemma view_bound_path h fuel : forall v t path,
  view fuel h v = Some t -> NoDup path ->
  (forall j, j ∈ path -> exists w u, slot_of w = Some j /\ denotes h w u /\ (tree_size t < tree_size u)%nat) ->
  view (S (length (slots h)) - length path) h v = Some t.
Proof.
  induction fuel as [|fuel IH]; intros v t path Hv Hnd Hpath; [done|].
  assert (denotes h v t) as Hd by (by exists (S fuel)).
  assert (length path <= length (slots h))%nat as Hlen.
  { apply path_bound; [done|]. intros j Hj. destruct (Hpath j Hj) as (w & u & Hw & Hu & _).
    by eapply denotes_live_slot. }
  destruct (S (length (slots h)) - length path)%nat as [|n] eqn:Hn; [lia|].
  apply (view_level fuel); [done|]. intros w u Hw Hu.
  destruct (part_denotes _ _ _ _ _ Hv Hw) as (u' & Hu' & Hlt). simplify_eq.
  destruct (slot_of v) as [i|] eqn:Hi; [|unfold parts in Hw; rewrite Hi in Hw; by apply elem_of_nil in Hw].
  assert (i ∉ path) as Hni.
  { intros Hin. destruct (Hpath i Hin) as (x & y & Hx & Hy & Hlt').
    rewrite (denotes_slot _ _ _ _ _ _ Hy Hd Hx Hi) in Hy.
    rewrite (denotes_det _ _ _ _ Hd Hy) in Hlt'. lia. }
  replace n with (S (length (slots h)) - length (i :: path))%nat by (cbn [length]; lia).
  apply IH; [done|by apply NoDup_cons|].
  intros j [->|Hj]%elem_of_cons; [by exists v, t|].
  destruct (Hpath j Hj) as (x & y & ? & ? & ?). exists x, y. split_and!; [done|done|lia].
Qed.

Lemma view_bound h v t : denotes h v t -> view (S (length (slots h))) h v = Some t.
Proof.
  intros [fuel Hv]. pose proof (view_bound_path h fuel v t [] Hv NoDup_nil_2) as H.
  rewrite Nat.sub_0_r in H. apply H. by intros j ?%elem_of_nil.
Qed.

(** ** Copying a block tree *)

Section CopyViews.
Context {host : Host} {allocator : Allocator}.

Definition kid_view (fuel : nat) (h : Heap) (c : VmCBlockChild) : option (Z * ForeignPointerWidth * Tree) :=
  (fun t => (vc_offset c, vc_width c, t)) <$> view fuel h (V_CBlock (vc_block c)).

Lemma kid_view_transport fuel h h' G kids ts :
  keeps h h' G -> Forall (fun c => G (V_CBlock (vc_block c))) kids ->
  mapM (kid_view fuel h) kids = Some ts -> mapM (kid_view fuel h') kids = Some ts.
Proof.
  intros Hk HG. apply mapM_transport. intros c y Hc Hy. unfold kid_view in *.
  destruct (view fuel h (V_CBlock (vc_block c))) as [t|] eqn:Hv; cbn in Hy; [|done].
  rewrite (view_transport h h' G fuel Hk _ _ (proj1 (Forall_forall _ _) HG c Hc) Hv). done.
Qed.

Lemma word_fits_end len c :
  word_fits len (vc_offset c) (vc_width c) -> (word_end c <= len)%nat.
Proof.
  intros (start & Hs & Hf & _). apply usize_try_from_Some in Hs as [Ho _].
  unfold word_end, word_start. rewrite Ho, Nat2Z.id. done.
Qed.

(** One turn of the copying loop: the child's copy attached, its word patched. *)
Lemma attach_view h E R copy address bs kids c cc :
  Inv h E (R_Slot K_CBlock cc :: R_Slot K_CBlock copy :: R) ->
  slot h copy = Some (O_CBlock address bs kids) ->
  word_fits (length bs) (vc_offset c) (vc_width c) ->
  exists h' word,
    cblock_attach copy (vc_offset c) (vc_width c) cc h = (h', true) /\
    Inv h' E (R_Slot K_CBlock copy :: R) /\
    length word = (word_end c - word_start c)%nat /\
    slot h' copy = Some (O_CBlock address (overwrite bs (word_start c) word)
      (kids ++ [{| vc_offset := vc_offset c; vc_width := vc_width c; vc_block := cc |}])) /\
    keeps h h' (fun w => R_Slot K_CBlock copy ∉ refs w).
Proof.
  intros Hinv Hc Hfit.
  destruct (cblock_attach_Inv h E _ copy _ _ cc address bs kids Hinv Hc Hfit)
    as (h' & bs' & kids' & Ha & Hinv' & Hs' & _ & Hother & Hbl).
  exists h', (take (Z.to_nat (width_bytes (vc_width c))) (to_le 8 (cblock_address h cc))).
  assert (copy <> cc) as Hne.
  { intros ->. pose proof (inv_count _ _ _ Hinv (R_Slot K_CBlock cc)) as Hx.
    rewrite !occ_cons, decide_True in Hx by done. cbn in Hx. rewrite Hc, decide_True in Hx by done.
    cbn in Hx. lia. }
  split_and!; try done.
  - rewrite length_word. unfold word_end, word_start. lia.
  - rewrite Hs'. destruct Hfit as (start & Hst & Hf & Hm). unfold cblock_attach in Ha.
    pose proof (usize_try_from_Some _ _ Hst) as [Ho _].
    rewrite Hst, length_word in Ha. rewrite decide_False, Hc, decide_True in Ha by lia.
    simplify_eq. rewrite lookup_put_slot, decide_True in Hs' by (try by eexists; done).
    simplify_eq. unfold word_start. rewrite Ho, Nat2Z.id. done.
  - eapply keeps_away; [|exact Hc|done|done|done|].
    + rewrite (Permutation_swap (R_Slot K_CBlock copy)) in Hinv. exact Hinv.
    + intros j x q _ _ _. unfold block. by rewrite Hbl.
Qed.

(** The state of the copying loop after the children [done]. *)
Record copying (h0 h : Heap) (E R : list Ref) (fuel copy : nat) (bytes : list byte)
    (done : list VmCBlockChild) (ts : list (Z * ForeignPointerWidth * Tree)) : Prop := {
  copying_inv : Inv h E (R_Slot K_CBlock copy :: R);
  copying_slot : exists address bs kids,
    slot h copy = Some (O_CBlock address bs kids) /\ length bs = length bytes /\
    Forall2 same_word done kids /\ clear_words done bs = clear_words done bytes /\
    mapM (kid_view fuel h) kids = Some ts;
  copying_keeps : keeps h0 h (fun w => R_Slot K_CBlock copy ∉ refs w)
}.

Definition copies_child (fuel : nat) (copy_child : nat -> Heap -> Heap * nat) : Prop :=
  forall id h E R t, Inv h E R -> view fuel h (V_CBlock id) = Some t ->
    let r := copy_child id h in
    Inv r.1 E (R_Slot K_CBlock r.2 :: R) /\ only_adds h r.1 /\
    view fuel r.1 (V_CBlock r.2) = Some t.

Lemma copying_step h0 h E R fuel copy bytes done ts c t copy_child :
  copies_child fuel copy_child -> copying h0 h E R fuel copy bytes done ts ->
  R_Slot K_CBlock copy ∉ refs (V_CBlock (vc_block c)) ->
  view fuel h0 (V_CBlock (vc_block c)) = Some t ->
  Forall (fun c => word_fits (length bytes) (vc_offset c) (vc_width c)) (done ++ [c]) ->
  let r := copy_child (vc_block c) h in
  copying h0 (cblock_attach copy (vc_offset c) (vc_width c) r.2 r.1).1 E R fuel copy bytes
    (done ++ [c]) (ts ++ [(vc_offset c, vc_width c, t)]).
Proof.
  intros Hcopy [Hinv (address & bs & kids & Hs & Hlen & Hsame & Hclear & Hts) Hk] Hn Hv Hfit.
  pose proof (view_transport _ _ _ _ Hk _ _ Hn Hv) as Hv1.
  destruct (Hcopy _ h E _ t Hinv Hv1) as (Hinv1 & Hadd & Hv2).
  destruct (copy_child (vc_block c) h) as [h1 cc]. cbn in *.
  pose proof (proj1 (Forall_app _ _ _) Hfit) as [Hfd Hfc]. apply Forall_cons in Hfc as [Hfc _].
  destruct (attach_view h1 E R copy address bs kids c cc Hinv1) as
    (h2 & word & -> & Hinv2 & Hw & Hs2 & Hk2); [by apply Hadd|by rewrite Hlen|]. cbn.
  split; [done| |].
  - do 3 eexists. split; [exact Hs2|]. split_and!.
    + rewrite length_overwrite; [done|]. rewrite Hw, Hlen. pose proof (word_fits_end _ _ Hfc).
      pose proof (word_order c). lia.
    + apply Forall2_app; [done|]. constructor; [|constructor]. by split.
    + apply clear_words_snoc; [|done|done|done].
      eapply Forall_impl; [exact Hfit|]. intros x. apply word_fits_end.
    + pose proof Hinv1 as Hinv1'. rewrite (Permutation_swap (R_Slot K_CBlock copy)) in Hinv1'.
      destruct (sole_reference _ _ _ _ _ _ Hinv1' (proj1 Hadd _ _ Hs) eq_refl eq_refl)
        as (Htot & Hncc & _).
      assert (mapM (kid_view fuel h2) kids = Some ts) as Hold.
      { eapply (kid_view_transport fuel h1 h2); [exact Hk2| |].
        - apply Forall_forall. intros x Hx Hin. apply list_elem_of_singleton in Hin.
          assert (R_Slot K_CBlock copy ∈ kid_refs kids) as Hkid
            by (rewrite Hin; by apply (list_elem_of_fmap_2 (fun c => R_Slot K_CBlock (vc_block c)))).
          pose proof (stored_slot_total h1 copy _ _ (proj1 Hadd _ _ Hs) Hkid). lia.
        - eapply (kid_view_transport fuel h h1 (fun _ => True));
            [by apply grows_keeps, only_adds_grows| |done]. by apply Forall_true. }
      apply mapM_Some, Forall2_app; [by apply mapM_Some|]. constructor; [|constructor].
      unfold kid_view. cbn [vc_block vc_offset vc_width].
      assert (R_Slot K_CBlock copy ∉ refs (V_CBlock cc)) as Hna.
      { intros Hin%list_elem_of_singleton. apply Hncc. rewrite Hin. apply list_elem_of_here. }
      by rewrite (view_transport _ _ _ _ Hk2 _ _ Hna Hv2).
  - eapply keeps_trans; [|exact Hk2|done].
    eapply keeps_trans; [exact Hk|by apply grows_keeps, only_adds_grows|done].
Qed.

Lemma copying_loop h0 E R fuel copy bytes copy_child kids : forall h done ts ts',
  copies_child fuel copy_child -> copying h0 h E R fuel copy bytes done ts ->
  Forall (fun c => R_Slot K_CBlock copy ∉ refs (V_CBlock (vc_block c))) kids ->
  mapM (kid_view fuel h0) kids = Some ts' ->
  Forall (fun c => word_fits (length bytes) (vc_offset c) (vc_width c)) (done ++ kids) ->
  copying h0 (attach_copies copy_child kids copy h) E R fuel copy bytes (done ++ kids) (ts ++ ts').
Proof.
  induction kids as [|c kids IH]; intros h dn ts ts' Hcopy Hst Haway Hv Hfit.
  { injection Hv as <-. by rewrite !app_nil_r. }
  apply Forall_cons in Haway as [Ha Haway].
  change (dn ++ c :: kids) with (dn ++ [c] ++ kids) in *. rewrite (assoc_L (++)) in Hfit |- *.
  cbn in Hv. destruct (kid_view fuel h0 c) as [t|] eqn:Hc; cbn in Hv; [|done].
  destruct (mapM (kid_view fuel h0) kids) as [tks|] eqn:Hks; cbn in Hv; simplify_eq.
  unfold kid_view in Hc. destruct (view fuel h0 _) as [tc|] eqn:Hvc; cbn in Hc; simplify_eq.
  pose proof (copying_step h0 h E R fuel copy bytes dn ts c tc copy_child Hcopy Hst Ha Hvc
    (proj1 (proj1 (Forall_app _ _ _) Hfit))) as Hst'.
  cbn [attach_copies]. cbn zeta in Hst'. destruct (copy_child (vc_block c) h) as [h1 cc].
  cbn [fst snd] in Hst'.
  destruct (cblock_attach copy (vc_offset c) (vc_width c) cc h1) as [h2 b]. cbn [fst] in Hst'.
  pose proof (IH h2 (dn ++ [c]) _ tks Hcopy Hst' Haway eq_refl Hfit) as Hfin.
  rewrite <- (assoc_L (++) ts) in Hfin. injection Hv as <-. exact Hfin.
Qed.

Lemma copying_start h E R fuel bytes h1 copy :
  Inv h E R -> cblock_bytes bytes h = (h1, copy) ->
  copying h1 h1 E R fuel copy bytes [] [].
Proof.
  intros Hinv Hb. destruct (cblock_bytes_Inv _ _ _ _ _ _ Hinv Hb) as [Hinv1 [address Hs]].
  split; [done| |].
  - do 3 eexists. split; [exact Hs|]. split_and!; try done.
  - by eapply keeps_away.
Qed.

(** A value that is live on [h] does not name a slot that was vacant there. *)
Lemma fresh_away h i k v fuel t : slot h i = None -> view fuel h v = Some t -> R_Slot k i ∉ refs v \/ k = K_Cell.
Proof.
  intros Hs Hv. destruct fuel; [done|]. destruct v; cbn in Hv |- *; try (left; apply not_elem_of_nil).
  all: destruct (decide (k = K_Cell)); [by right|left; intros Hin%list_elem_of_singleton; simplify_eq].
  all: by rewrite Hs in Hv.
Qed.

Lemma copy_cblock_fuel_view n : forall fuel, (fuel <= S n)%nat -> copies_child fuel (copy_cblock_fuel n).
Proof.
  induction n as [|n IH]; intros fuel Hle id h E R t Hinv Hv;
    [destruct (copy_cblock_fuel_Inv 0 id h E R Hinv) as [Hi Ha]
    |destruct (copy_cblock_fuel_Inv (S n) id h E R Hinv) as [Hi Ha]];
    (split_and!; [exact Hi|exact Ha|]; clear Hi Ha).
  all: destruct fuel as [|fuel]; [done|]; cbn in Hv;
    destruct (slot h id) as [[| | | | | | |addr0 bytes kids]|] eqn:Hid; try done;
    destruct (mapM _ kids) as [ts|] eqn:Hts in Hv; cbn in Hv; simplify_eq;
    cbn [copy_cblock_fuel]; rewrite Hid;
    destruct (cblock_bytes bytes h) as [h1 copy] eqn:Hb;
    destruct (cblock_bytes_Inv _ _ _ _ _ _ Hinv Hb) as [Hinv1 [address Hs]].
  - assert (fuel = 0%nat) as -> by lia. destruct kids as [|c kids]; cbn in Hts; [|done].
    injection Hts as <-. cbn. by rewrite Hs.
  - pose proof (copying_start h E R fuel bytes h1 copy Hinv Hb) as Hst.
    pose proof (alloc_object_adds _ _ _ _ _ _ Hinv Hb) as Hadd.
    assert (slot h copy = None) as Hfresh by (unfold cblock_bytes in Hb; by eapply alloc_object_fresh).
    assert (mapM (kid_view fuel h1) kids = Some ts) as Hts1.
    { eapply (kid_view_transport fuel h h1 (fun _ => True)); [|by apply Forall_true|exact Hts].
      by apply grows_keeps, only_adds_grows. }
    assert (Forall (fun c => R_Slot K_CBlock copy ∉ refs (V_CBlock (vc_block c))) kids) as Haway.
    { apply Forall_forall. intros c Hc. destruct (mapM_elem _ _ _ _ Hts Hc) as [y Hy].
      destruct (view fuel h (V_CBlock (vc_block c))) as [tc|] eqn:Hvc; [|done].
      by destruct (fresh_away h copy K_CBlock _ _ _ Hfresh Hvc). }
    pose proof (inv_objects _ _ _ Hinv _ _ Hid) as Hfit. cbn in Hfit.
    destruct (copying_loop h1 E R fuel copy bytes (copy_cblock_fuel n) kids h1 [] [] ts
      (IH fuel ltac:(lia)) Hst Haway Hts1 Hfit) as [_ (a & bs & ks & Hs' & _ & Hsame & Hcl & Hks) _].
    cbn. rewrite Hs'. cbn in Hsame, Hcl, Hks. fold (kid_view fuel).
    change (mapM _ ks) with (mapM (kid_view fuel (attach_copies (copy_cblock_fuel n) kids copy h1)) ks).
    rewrite Hks. cbn. f_equal. f_equal. rewrite <- (clear_words_same _ _ Hsame). exact Hcl.
Qed.

(** The deep copy of a block tree denotes the tree. *)
Lemma copy_cblock_view h E R id fuel t :
  Inv h E R -> view fuel h (V_CBlock id) = Some t ->
  let r := copy_cblock id h in view fuel r.1 (V_CBlock r.2) = Some t.
Proof.
  intros Hinv Hv. set (n := length (slots h)). unfold copy_cblock. fold n.
  destruct (decide (fuel <= S n)%nat) as [Hle|Hgt].
  - eapply (copy_cblock_fuel_view n fuel); eauto.
  - cbn zeta. eapply (view_mono (S n)); [|lia].
    eapply (copy_cblock_fuel_view n (S n)); [lia|exact Hinv|].
    apply view_bound. by exists fuel.
Qed.

Lemma view_grows fuel h h' v t : grows h h' -> view fuel h v = Some t -> view fuel h' v = Some t.
Proof. intros Hg. by apply (view_transport h h' _ fuel (grows_keeps h h' Hg)). Qed.

(** What was live stays live as the heap grows. *)
Lemma grows_expected h h' E R r :
  Inv h' E R -> grows h h' -> (1 <= expected h r)%nat -> (1 <= expected h' r)%nat.
Proof.
  intros Hinv [Hs Hb] Hr. destruct r as [k i|p]; cbn in *.
  - destruct (slot h i) as [o|] eqn:Hi; [|lia]. case_decide as Hk; [|lia].
    destruct (Hs i o Hi) as (o' & Hi' & Hc). rewrite Hi', decide_True
      by (by rewrite (content_kind _ _ Hc)). by apply (inv_holders _ _ _ Hinv i).
  - unfold rc_count in *. destruct (block h p) as [b|] eqn:Hp; [|lia].
    destruct (Hb p b Hp) as (b' & -> & _ & ?). lia.
Qed.

(** Two structs, or two arrays, on the same block denote the same. *)
Lemma view_same_block fuel h i j o t :
  slot h i = Some o -> slot h j = Some o ->
  (view fuel h (V_Struct i) = Some t -> view fuel h (V_Struct j) = Some t) /\
  (view fuel h (V_Array i) = Some t -> view fuel h (V_Array j) = Some t).
Proof. intros Hi Hj. destruct fuel; [done|]. cbn. by rewrite Hi, Hj. Qed.

(** [copy_value] gives a value that denotes what the original does. *)
Lemma copy_value_view h E R v h' v' fuel t :
  Inv h E R -> live_value h v -> copy_value v h = (h', v') ->
  view fuel h v = Some t -> view fuel h' v' = Some t.
Proof.
  intros Hinv Hl Hc Hv. pose proof (copy_value_spec _ _ _ _ _ _ Hinv Hl Hc) as [_ Hg].
  destruct v; cbn in Hc; try (simplify_eq; by eapply view_grows).
  all: try (destruct (live_slot h _ id (Hl _ (list_elem_of_here _ _))) as (o & Hi & Hk);
    destruct o; try done).
  - rewrite Hi in Hc. destruct (alloc_object (O_Str text) h) as [h1 copy] eqn:Ha. simplify_eq.
    destruct (alloc_object_fresh _ _ _ _ _ _ Hinv Ha) as (_ & _ & Hput).
    destruct fuel; [done|]. cbn in Hv |- *. rewrite Hi in Hv. by rewrite Hput, decide_True.
  - rewrite Hi in Hc. destruct (alloc_object (O_Struct fields) (rc_clone fields h)) as [h1 copy] eqn:Ha.
    destruct (share_block_spec _ _ _ _ _ _ _ _ Hinv Hi eq_refl eq_refl Ha I) as (_ & _ & Hs).
    assert (h' = h1 \/ exists g, h' = with_glue g h1) as Hh
      by (destruct (glue_of h1 id); simplify_eq; eauto).
    assert (v' = V_Struct copy) as -> by (by destruct (glue_of h1 id); simplify_eq).
    assert (slot h' copy = Some (O_Struct fields)) as Hs' by (by destruct Hh as [->|[g ->]]).
    clear Hc.
    destruct (grows_slots _ _ Hg id _ Hi) as (o' & Hi' & Hco). destruct o'; cbn in Hco; simplify_eq.
    eapply (view_same_block fuel h' id copy (O_Struct fields)); [done|done|].
    by eapply view_grows.
  - rewrite Hi in Hc. destruct (alloc_object (O_Array elements) (rc_clone elements h)) as [h1 copy] eqn:Ha.
    destruct (share_block_spec _ _ _ _ _ _ _ _ Hinv Hi eq_refl eq_refl Ha I) as (_ & _ & Hs).
    simplify_eq.
    destruct (grows_slots _ _ Hg id _ Hi) as (o' & Hi' & Hco). destruct o'; cbn in Hco; simplify_eq.
    eapply (view_same_block fuel h' id copy (O_Array elements)); [done|done|].
    by eapply view_grows.
  - destruct (copy_cblock id h) as [h1 copy] eqn:Hcb. simplify_eq.
    pose proof (copy_cblock_view h E R id fuel t Hinv Hv) as Hx. by rewrite Hcb in Hx.
Qed.

(** Copying a list of values copies what each of them denotes. *)
Lemma map_copy_spec vs : forall h E R,
  Inv h E R -> Forall (live_value h) vs ->
  let r := map_heap copy_value vs h in
  Inv r.1 E (refs_all r.2 ++ R) /\ grows h r.1 /\
  (forall fuel ts, mapM (view fuel h) vs = Some ts -> mapM (view fuel r.1) r.2 = Some ts).
Proof.
  induction vs as [|v vs IH]; intros h E R Hinv Hl; [done|].
  apply Forall_cons in Hl as [Hv Hl]. cbn.
  destruct (copy_value v h) as [h1 v'] eqn:Hc.
  destruct (copy_value_spec _ _ _ _ _ _ Hinv Hv Hc) as [Hinv1 Hg1].
  destruct (IH h1 E _ Hinv1) as (Hinv2 & Hg2 & Hvs).
  { eapply Forall_impl; [exact Hl|]. intros w Hw r Hr. specialize (Hw r Hr).
    eapply grows_expected; eauto. }
  destruct (map_heap copy_value vs h1) as [h2 ws]. cbn in *. split_and!.
  - rewrite refs_all_cons. eapply Inv_perm; [|exact Hinv2]. intros r. rewrite !occ_app. lia.
  - by etrans.
  - intros fuel ts Hts. destruct (view fuel h v) as [t|] eqn:Hvt; cbn in Hts; [|done].
    destruct (mapM (view fuel h) vs) as [ts'|] eqn:Hts'; cbn in Hts; [|done].
    injection Hts as <-.
    rewrite (view_grows fuel h1 h2 v' t Hg2) by exact (copy_value_view h E R v h1 v' fuel t Hinv Hv Hc Hvt). cbn.
    rewrite (Hvs fuel ts'); [done|]. eapply mapM_transport; [|exact Hts'].
    intros w u _. by apply view_grows.
Qed.
End CopyViews.
