(* ===== verification/HeapWrites.v ===== *)
(** Writes to the VM heap: taking over a deferred read, unsharing on the first
    write, and the stores themselves.  Each keeps the ownership invariant, and
    nobody who does not hold the written object can tell. *)

From stdpp Require Import gmap.
From S2P Require Import Prelude.
From S2P Require Import Instruction.
From S2P Require Import Foreign.
From S2P Require Import NativeState.
From S2P Require Import Heap.
From S2P Require Import HeapOwnership.
From S2P Require Import HeapOps.
From S2P Require Import HeapView.
From S2P Require Import HeapCopy.

(** One level of [view] over the view of what lies below. *)
Definition node_view (rec : Value -> option Tree) (h : Heap) (v : Value) : option Tree :=
  match v with
  | V_Str i => match slot h i with Some (O_Str text) => Some (T_Str text) | _ => None end
  | V_Struct i =>
    match slot h i with
    | Some (O_Struct p) => b ← block h p; T_Struct <$> mapM rec (items b)
    | _ => None
    end
  | V_Array i =>
    match slot h i with
    | Some (O_Array p) => b ← block h p; T_Array <$> mapM rec (items b)
    | _ => None
    end
  | V_Enum i =>
    match slot h i with
    | Some (O_Enum tag (Some w) _) => (fun t => T_Enum tag (Some t)) <$> rec w
    | Some (O_Enum tag None _) => Some (T_Enum tag None)
    | _ => None
    end
  | V_Erased i =>
    match slot h i with
    | Some (O_Erased type_id w _) => T_Erased type_id <$> rec w
    | _ => None
    end
  | V_NativeSnapshot i =>
    match slot h i with Some (O_Snapshot node _) => Some (T_Snapshot node) | _ => None end
  | V_CBlock i =>
    match slot h i with
    | Some (O_CBlock _ bytes kids) =>
      T_CBlock (clear_words kids bytes) <$>
        mapM (fun c => (fun t => (vc_offset c, vc_width c, t)) <$> rec (V_CBlock (vc_block c))) kids
    | _ => None
    end
  | _ => Some (T_Inline v)
  end.

Lemma view_S fuel h v : view (S fuel) h v = node_view (view fuel h) h v.
Proof. by destruct v. Qed.

Lemma node_view_mono (rec rec' : Value -> option Tree) h v t :
  (forall w u, rec w = Some u -> rec' w = Some u) ->
  node_view rec h v = Some t -> node_view rec' h v = Some t.
Proof.
  intros Hrec Hv. destruct v; try done; cbn in *; destruct (slot h id) as [[]|]; try done.
  1-2: destruct (block h _) as [b|]; cbn in *; [|done];
    destruct (mapM rec (items b)) as [ts|] eqn:E; cbn in Hv; [|done];
    rewrite (mapM_transport rec rec' _ ts); [done|eauto|done].
  - destruct payload as [w|]; [|done]. destruct (rec w) eqn:E; cbn in Hv; [|done]. by rewrite (Hrec _ _ E).
  - destruct (rec payload) eqn:E; cbn in Hv; [|done]. by rewrite (Hrec _ _ E).
  - destruct (mapM _ kids) as [ts|] eqn:E in Hv; cbn in Hv; [|done].
    erewrite mapM_transport; [exact Hv| |exact E]. intros c y _ Hc. cbn in Hc |- *.
    destruct (rec (V_CBlock (vc_block c))) eqn:Hv2; cbn in Hc; [|done]. by rewrite (Hrec _ _ Hv2).
Qed.

Section Writes.
Context {host : Host} {allocator : Allocator}.

(** What the holder of the references [R] sees stays the same. *)
Definition sees_same (h h' : Heap) (R : list Ref) : Prop :=
  forall w t, (forall r, r ∈ refs w -> r ∈ R) -> denotes h w t -> denotes h' w t.

Lemma grows_sees h h' R : grows h h' -> sees_same h h' R.
Proof. intros Hg w t _. by apply denotes_grows. Qed.

Lemma released_sees h h' E R : Inv h' E R -> grows h' h -> sees_same h h' R.
Proof.
  intros Hinv Hg w t Hw. eapply denotes_released; [done|done|].
  intros r Hr. eapply root_live; [done|]. right. by apply Hw.
Qed.

Lemma sees_trans h1 h2 h3 R : sees_same h1 h2 R -> sees_same h2 h3 R -> sees_same h1 h3 R.
Proof. intros H1 H2 w t Hw Hd. by apply H2, H1. Qed.

(** ** Taking over a deferred read *)

(** What two heaps both have, they have the same. *)
Definition agrees (h h' : Heap) : Prop :=
  (forall i o o', slot h i = Some o -> slot h' i = Some o' -> content o' = content o) /\
  (forall p b b', block h p = Some b -> block h' p = Some b' -> items b' = items b).

Lemma agrees_refl h : agrees h h.
Proof. split; intros; by simplify_eq. Qed.

Lemma agrees_via h h1 h' : grows h h1 -> grows h' h1 -> agrees h h'.
Proof.
  intros [S1 B1] [S2 B2]. split.
  - intros i o o' Hi Hi'. destruct (S1 i o Hi) as (x & Hx & Hc). destruct (S2 i o' Hi') as (y & Hy & Hd).
    simplify_eq. congruence.
  - intros p b b' Hp Hp'. destruct (B1 p b Hp) as (x & Hx & Hc & _).
    destruct (B2 p b' Hp') as (y & Hy & Hd & _). simplify_eq. congruence.
Qed.

Lemma from_native_state_not_snapshot node h :
  is_snapshot_value (from_native_state node h).2 = false.
Proof.
  destruct node; cbn -[new_struct new_array alloc]; try done.
  - by destruct (alloc text h).
  - destruct (map_heap _ _ _). by destruct (new_struct _ _).
  - destruct (map_heap _ _ _). by destruct (new_struct _ _).
  - destruct (map_heap _ _ _). by destruct (new_array _ _).
  - by destruct (_ && _).
  - destruct (from_native_state _ _) as [h1 v]. by destruct (alloc_object _ h1).
  - destruct payload; [destruct (from_native_state _ _) as [h1 v]|]; by destruct (alloc_object _ _).
  - by destruct (copy_native_cblock _ _).
Qed.

(** The values a tree is built of are never deferred reads, so the allocations of
    [from_native_state] are the public ones, as the source spells them. *)
Lemma map_from_native_state_plain nodes : forall h,
  existsb is_snapshot_value (map_heap from_native_state nodes h).2 = false.
Proof.
  induction nodes as [|node nodes IH]; intros h; [done|]. cbn [map_heap].
  pose proof (from_native_state_not_snapshot node h) as Hn. destruct (from_native_state node h) as [h1 v].
  pose proof (IH h1) as Hr. destruct (map_heap from_native_state nodes h1) as [h2 vs]. cbn in *. by rewrite Hn, Hr.
Qed.

Lemma own_plain v h : is_snapshot_value v = false -> own v h = (h, v).
Proof. by destruct v. Qed.

Lemma own_all_plain vs h : existsb is_snapshot_value vs = false -> own_all vs h = (h, vs).
Proof. intros Hv. unfold own_all. by rewrite Hv. Qed.

Lemma from_native_state_equations h :
  (forall fs, from_native_state (NS_Struct fs) h =
    let '(h, vs) := map_heap from_native_state fs h in
    let '(h, id) := alloc_struct vs h in (h, V_Struct id)) /\
  (forall es, from_native_state (NS_Array es) h =
    let '(h, vs) := map_heap from_native_state es h in
    let '(h, id) := alloc_array vs h in (h, V_Array id)) /\
  (forall tag payload, from_native_state (NS_Enum tag (Some payload)) h =
    let '(h, v) := from_native_state payload h in
    let '(h, id) := alloc_enum tag (Some v) h in (h, V_Enum id)) /\
  (forall type_id payload, from_native_state (NS_Any type_id payload) h =
    let '(h, v) := from_native_state payload h in
    let '(h, id) := alloc_erased type_id v h in (h, V_Erased id)).
Proof.
  split_and!.
  1, 2: intros nodes; cbn [from_native_state]; pose proof (map_from_native_state_plain nodes h) as Hp;
    destruct (map_heap from_native_state nodes h) as [h1 vs]; unfold alloc_struct, alloc_array; cbn in Hp;
    by rewrite own_all_plain by done.
  all: intros tag payload; cbn [from_native_state]; pose proof (from_native_state_not_snapshot payload h) as Hp;
    destruct (from_native_state payload h) as [h1 v]; unfold alloc_enum, alloc_erased; cbn in Hp;
    by rewrite own_plain by done.
Qed.

(** [own] hands its caller a value it can store: the deferred read it was given,
    if it was one, rebuilt and let go of. *)
Lemma own_spec h E R v h' v' :
  Inv h E (refs v ++ R) -> own v h = (h', v') ->
  Inv h' E (refs v' ++ R) /\ is_snapshot_value v' = false /\ sees_same h h' R /\
  (is_snapshot_value v = false -> h' = h /\ v' = v) /\ agrees h h'.
Proof.
  intros Hinv Ho.
  destruct v; cbn in Ho; try (simplify_eq; split_and!; done || (by intros ? ?) || apply agrees_refl).
  cbn in Hinv. destruct (live_ref _ _ _ _ _ Hinv) as (o & Hi & Hk). destruct o; try done.
  unfold snapshot_node in Ho. rewrite Hi in Ho.
  pose proof (inv_objects _ _ _ Hinv _ _ Hi) as Hok. cbn in Hok.
  pose proof (from_native_state_spec node h E _ Hok Hinv) as [Hinv1 Hg1].
  pose proof (from_native_state_not_snapshot node h) as Hns.
  destruct (from_native_state node h) as [h1 rebuilt]. cbn in Hinv1, Hg1, Hns. simplify_eq.
  rewrite (Permutation_app_comm (refs v')) in Hinv1. cbn in Hinv1.
  destruct (free_snapshot_spec h1 E _ id Hinv1) as [Hinv2 [Hg2 _]].
  rewrite (Permutation_app_comm R) in Hinv2. split_and!; [done|done| |done|by eapply agrees_via].
  eapply sees_trans; [by apply grows_sees|].
  intros w t Hw. eapply denotes_released; [done|done|].
  intros r Hr. eapply root_live; [done|]. right. apply elem_of_app. right. by apply Hw.
Qed.

(** ** Unsharing *)

(** An object that points at a block: a struct or an array. *)
Definition points_at (mk : nat -> Object) : Prop := mk = O_Struct \/ mk = O_Array.

(** The common body of [make_struct_unique] and [make_array_unique]. *)
Definition unshare (mk : nat -> Object) (id p : nat) (h : Heap) : Heap :=
  let h1 := rc_clone p h in
  let '(h2, copies) := map_heap copy_value (rc_items h1 p) h1 in
  let '(h3, q) := rc_new copies h2 in
  rc_drop p (rc_drop p (put_slot id (mk q) h3)).

Lemma rc_new_grows vs h h' q : rc_new vs h = (h', q) -> grows h h' /\
  block h' q = Some {| strong := 1; items := vs |} /\ slots h' = slots h.
Proof.
  unfold rc_new. intros; simplify_eq. split_and!; [|by apply block_Some; apply list_lookup_middle|done].
  apply grows_same_slots; [done|]. intros p b Hp. exists b. split_and!; [|done|done].
  apply block_Some. cbn. apply lookup_app_l_Some. by apply block_Some.
Qed.

(** Dropping an [Rc] that is not the last shows nothing. *)
Lemma rc_drop_shared h p q b :
  (1 < rc_count h p)%nat -> block h q = Some b ->
  exists b', block (rc_drop p h) q = Some b' /\ items b' = items b /\
    strong b' = (if decide (q = p) then strong b - 1 else strong b)%nat.
Proof.
  unfold rc_drop, rc_count. destruct (block h p) as [x|] eqn:Hp; [|lia]. intros Hc Hq.
  rewrite lookup_put_block by (by eexists). destruct (decide (p = q)) as [->|Hne].
  - simplify_eq. rewrite decide_False, decide_True by (done || lia). eexists. split_and!; done.
  - rewrite decide_False by congruence. eauto.
Qed.

Lemma rc_drop_keeps h p : (1 < rc_count h p)%nat -> keeps h (rc_drop p h) (fun _ => True).
Proof.
  intros Hc. assert (forall i, slot (rc_drop p h) i = slot h i) as Hs
    by (intros i; unfold rc_drop; by destruct (block h p)).
  split; [| |done].
  - intros v k i o _ _ _ Hi _. rewrite Hs. eauto.
  - intros v k i o q b _ _ _ _ _ Hq. destruct (rc_drop_shared h p q b Hc Hq) as (b' & ? & ? & _). eauto.
Qed.

Lemma rc_count_drop h p : (1 < rc_count h p)%nat -> rc_count (rc_drop p h) p = (rc_count h p - 1)%nat.
Proof.
  intros Hc. unfold rc_count in *. destruct (block h p) as [b|] eqn:Hb; [|lia].
  destruct (rc_drop_shared h p p b) as (b' & -> & _ & ->); [unfold rc_count; by rewrite Hb|done|].
  by rewrite decide_True.
Qed.

(** The fields an object gets for itself denote what the shared ones did, so
    that nothing on the heap denotes anything new. *)
Lemma repoint_view mk h id p q b c fuel : points_at mk ->
  slot h id = Some (mk p) -> block h p = Some b -> block h q = Some c ->
  (forall fuel ts, mapM (view fuel h) (items b) = Some ts -> mapM (view fuel h) (items c) = Some ts) ->
  forall v t, view fuel h v = Some t -> view fuel (put_slot id (mk q) h) v = Some t.
Proof.
  intros Hmk Hid Hb Hc Hcopies. set (h' := put_slot id (mk q) h).
  assert (forall i, slot h' i = if decide (id = i) then Some (mk q) else slot h i) as Hs
    by (intros i; apply lookup_put_slot; by eexists).
  induction fuel as [|fuel IH]; intros v t Hv; [done|]. rewrite view_S in *.
  assert (node_view (view fuel h) h' v = Some t -> node_view (view fuel h') h' v = Some t) as Hrec
    by (apply node_view_mono, IH).
  apply Hrec. clear Hrec.
  assert (forall i, id <> i -> slot h' i = slot h i) as Hne
    by (intros i Hi; rewrite Hs; by rewrite decide_False).
  assert (slot h' id = Some (mk q)) as Hat by (rewrite Hs; by rewrite decide_True).
  destruct v; try done; cbn in Hv |- *;
    (destruct (decide (id = id0)) as [<-|Hd]; [|rewrite Hne by done; done]);
    rewrite Hid in Hv; rewrite Hat; destruct Hmk as [-> | ->]; try done.
  all: rewrite Hb in Hv; change (block h' q) with (block h q); rewrite Hc; cbn in Hv |- *;
    destruct (mapM (view fuel h) (items b)) as [ts|] eqn:E; cbn in Hv; [|done];
    by rewrite (Hcopies _ _ E).
Qed.

Lemma map_heap_length {A B} (f : A -> Heap -> Heap * B) l h : length (map_heap f l h).2 = length l.
Proof.
  revert h. induction l as [|x l IH]; intros h; [done|]. cbn.
  destruct (f x h) as [h1 b]. specialize (IH h1). destruct (map_heap f l h1). cbn in *. by rewrite IH.
Qed.

(** What is there once the block's items have been copied, the clone held. *)
Record copied_block (mk : nat -> Object) (h h1 h2 : Heap) (E R : list Ref) (id p : nat)
    (copies : list Value) : Prop := {
  cb_live : Forall (live_value h1) (rc_items h p);
  cb_inv1 : Inv h1 E (R_Block p :: R);
  cb_inv2 : Inv h2 E (refs_all copies ++ R_Block p :: R);
  cb_grows1 : grows h h1;
  cb_grows2 : grows h1 h2;
  cb_views : forall fuel ts, mapM (view fuel h1) (rc_items h p) = Some ts ->
    mapM (view fuel h2) copies = Some ts;
  cb_slot : slot h2 id = Some (mk p);
  cb_count : (S (rc_count h p) <= rc_count h2 p)%nat;
  cb_block : exists b, block h2 p = Some b /\ items b = rc_items h p;
  cb_length : length copies = length (rc_items h p)
}.

Lemma copy_block_spec mk h E R id p h2 copies : points_at mk ->
  Inv h E R -> slot h id = Some (mk p) -> (1 < rc_count h p)%nat ->
  map_heap copy_value (rc_items (rc_clone p h) p) (rc_clone p h) = (h2, copies) ->
  copied_block mk h (rc_clone p h) h2 E R id p copies.
Proof.
  intros Hmk Hinv Hid Hcount Hmap.
  assert (exists b, block h p = Some b) as [b Hb]
    by (unfold rc_count in Hcount; destruct (block h p); [eauto|lia]).
  pose proof (rc_clone_Inv h E R p Hinv ltac:(by eexists)) as Hinv1.
  pose proof (rc_clone_grows h p) as Hg1.
  assert (block (rc_clone p h) p = Some {| strong := S (strong b); items := items b |}) as Hb1.
  { unfold rc_clone. rewrite Hb, lookup_put_block by (by eexists). by rewrite decide_True. }
  assert (slot (rc_clone p h) id = Some (mk p)) as Hid1 by (unfold rc_clone; by rewrite Hb).
  set (h1 := rc_clone p h) in *.
  assert (rc_items h p = items b /\ rc_items h1 p = items b) as [Hit Hit1]
    by (unfold rc_items; by rewrite Hb, Hb1).
  assert (Forall (live_value h1) (items b)) as Hlive.
  { apply Forall_forall. intros w Hw r Hr. eapply stored_block_out; [exact Hinv1|exact Hb1|].
    by eapply elem_refs_all. }
  destruct (map_copy_spec (rc_items h1 p) h1 E _ Hinv1) as (Hinv2 & Hg2 & Hviews); [by rewrite Hit1|].
  pose proof (map_heap_length copy_value (rc_items h1 p) h1) as Hlen.
  rewrite Hmap in Hinv2, Hg2, Hviews, Hlen. rewrite Hit1 in Hviews, Hlen.
  cbn [fst snd] in Hinv2, Hg2, Hviews, Hlen.
  destruct (grows_blocks _ _ Hg2 p _ Hb1) as (b2 & Hb2 & Hi2 & Hs2). cbn in Hi2, Hs2.
  rewrite <- Hit in *.
  split; try done.
  - destruct (grows_slots _ _ Hg2 id _ Hid1) as (o' & -> & Hc).
    f_equal. destruct Hmk as [-> | ->]; destruct o'; cbn in Hc; by simplify_eq.
  - unfold rc_count. by rewrite Hb, Hb2.
  - by exists b2.
Qed.

(** The two holds let go of at the end: the clone's and the slot's old one. *)
Lemma drop_twice_spec h E R p id o :
  Inv h E (R_Block p :: R_Block p :: R) -> (2 < rc_count h p)%nat -> slot h id = Some o ->
  let h' := rc_drop p (rc_drop p h) in
  Inv h' E R /\ (forall v t, denotes h v t -> denotes h' v t) /\ slot h' id = Some o /\
  forall q b, q <> p -> block h q = Some b -> block h' q = Some b.
Proof.
  intros Hinv Hc Hid. cbn zeta.
  assert (1 < rc_count (rc_drop p h) p)%nat as Hc' by (rewrite rc_count_drop; lia).
  split_and!.
  - apply rc_drop_Inv; [|done]. apply rc_drop_Inv; [done|lia].
  - intros v t [fuel Hv]. exists fuel.
    apply (view_transport _ _ _ fuel (rc_drop_keeps (rc_drop p h) p Hc')); [done|].
    apply (view_transport _ _ _ fuel (rc_drop_keeps h p ltac:(lia))); done.
  - assert (forall hx, slot (rc_drop p hx) id = slot hx id) as Hdrop
      by (intros hx; unfold rc_drop; by destruct (block hx p)).
    by rewrite !Hdrop.
  - intros q b Hne Hq.
    assert (forall hx, block hx q = Some b -> block (rc_drop p hx) q = Some b) as Hdrop.
    { intros hx Hx. unfold rc_drop. destruct (block hx p) eqn:Hp; [|done].
      rewrite lookup_put_block by (by eexists). by rewrite decide_False. }
    by apply Hdrop, Hdrop.
Qed.

Lemma unshare_spec mk h E R id p : points_at mk ->
  Inv h E R -> slot h id = Some (mk p) -> (1 < rc_count h p)%nat ->
  let h' := unshare mk id p h in
  Inv h' E R /\ (forall v t, denotes h v t -> denotes h' v t) /\
  exists q b, slot h' id = Some (mk q) /\ block h' q = Some b /\ strong b = 1%nat /\
    length (items b) = length (rc_items h p).
Proof.
  intros Hmk Hinv Hid Hcount. cbn zeta. unfold unshare.
  destruct (map_heap copy_value _ _) as [h2 copies] eqn:Hmap.
  destruct (copy_block_spec mk h E R id p h2 copies Hmk Hinv Hid Hcount Hmap)
    as [Hlive Hinv1 Hinv2 Hg1 Hg2 Hviews Hs2 Hc2 (b & Hb & Hib) Hlen].
  destruct (rc_new copies h2) as [h3 q] eqn:Hnew.
  pose proof (rc_new_Inv _ _ _ _ _ _ Hinv2 Hnew) as Hinv3.
  destruct (rc_new_grows _ _ _ _ Hnew) as (Hg3 & Hq & Hs3).
  assert (slot h3 id = Some (mk p)) as Hid3 by (unfold slot; rewrite Hs3; exact Hs2).
  destruct (grows_blocks _ _ Hg3 p b Hb) as (b3 & Hb3 & Hi3 & Hst3).
  assert (Inv (put_slot id (mk q) h3) E (R_Block p :: R_Block p :: R)) as Hinv4.
  { eapply put_slot_Inv; [exact Hinv3|exact Hid3|..]; try by destruct Hmk as [-> | ->].
    intros r. destruct Hmk as [-> | ->]; cbn [out holders kind_of]; rewrite !occ_cons; cbn [occ]; lia. }
  assert (2 < rc_count (put_slot id (mk q) h3) p)%nat as Hc4.
  { change (2 < rc_count h3 p)%nat. unfold rc_count in *. rewrite Hb in Hc2. rewrite Hb3. lia. }
  destruct (drop_twice_spec _ E R p id (mk q) Hinv4 Hc4) as (Hfin & Hden & Hslot & Hblk).
  { rewrite lookup_put_slot by (by eexists). by rewrite decide_True. }
  split_and!; [done| |].
  - intros v t [fuel Hv]. apply Hden. exists fuel.
    eapply (repoint_view mk h3 id p q b3); [done|done|done|exact Hq| |].
    + intros f ts Hts. cbn [items]. rewrite Hi3, Hib in Hts.
      eapply mapM_transport; [|apply (Hviews f ts)]; [intros w u _; by apply view_grows|].
      eapply mapM_transport; [|exact Hts]. intros w u Hw.
      apply (view_transport _ _ _ f (released_keeps h3 _ E _ Hinv1 ltac:(etrans; done))).
      by apply (proj1 (Forall_forall _ _) Hlive).
    + eapply view_grows; [|exact Hv]. by do 2 (etrans; [done|]).
  - exists q, {| strong := 1; items := copies |}. split_and!; try done. apply Hblk; [|exact Hq].
    intros ->. change (2 < rc_count h3 p)%nat in Hc4. unfold rc_count in Hc4. rewrite Hq in Hc4. cbn in Hc4. lia.
Qed.

(** [make_struct_unique] leaves the struct with a block of its own, and nobody
    the wiser. *)
Lemma make_struct_unique_spec h E R id p :
  Inv h E R -> slot h id = Some (O_Struct p) ->
  let h' := make_struct_unique id h in
  Inv h' E R /\ (forall v t, denotes h v t -> denotes h' v t) /\
  exists q b, slot h' id = Some (O_Struct q) /\ block h' q = Some b /\ strong b = 1%nat /\
    length (items b) = length (rc_items h p).
Proof.
  intros Hinv Hid. cbn zeta. unfold make_struct_unique. rewrite Hid.
  destruct (decide (1 < rc_count h p)%nat) as [Hc|Hc].
  - pose proof (unshare_spec O_Struct h E R id p ltac:(by left) Hinv Hid Hc) as Hu.
    unfold unshare in Hu. cbn zeta in *.
    destruct (map_heap copy_value _ _) as [h2 copies] eqn:Hm.
    assert (slot h2 id = Some (O_Struct p)) as ->.
    { by apply (copy_block_spec O_Struct h E R id p h2 copies ltac:(by left) Hinv Hid Hc Hm). }
    by destruct (rc_new copies h2).
  - destruct (pointed_block h E R id _ p Hinv Hid eq_refl) as [b Hb].
    unfold rc_count in Hc. rewrite Hb in Hc. pose proof (inv_strong _ _ _ Hinv p b Hb).
    split_and!; [done|done|]. exists p, b. split_and!; [done|done|lia|].
    unfold rc_items. by rewrite Hb.
Qed.

Lemma make_array_unique_spec h E R id p :
  Inv h E R -> slot h id = Some (O_Array p) ->
  let h' := make_array_unique id h in
  Inv h' E R /\ (forall v t, denotes h v t -> denotes h' v t) /\
  exists q b, slot h' id = Some (O_Array q) /\ block h' q = Some b /\ strong b = 1%nat /\
    length (items b) = length (rc_items h p).
Proof.
  intros Hinv Hid. cbn zeta. unfold make_array_unique. rewrite Hid.
  destruct (decide (1 < rc_count h p)%nat) as [Hc|Hc].
  - pose proof (unshare_spec O_Array h E R id p ltac:(by right) Hinv Hid Hc) as Hu.
    unfold unshare in Hu. cbn zeta in *.
    destruct (map_heap copy_value _ _) as [h2 copies] eqn:Hm.
    assert (slot h2 id = Some (O_Array p)) as ->.
    { by apply (copy_block_spec O_Array h E R id p h2 copies ltac:(by right) Hinv Hid Hc Hm). }
    by destruct (rc_new copies h2).
  - destruct (pointed_block h E R id _ p Hinv Hid eq_refl) as [b Hb].
    unfold rc_count in Hc. rewrite Hb in Hc. pose proof (inv_strong _ _ _ Hinv p b Hb).
    split_and!; [done|done|]. exists p, b. split_and!; [done|done|lia|].
    unfold rc_items. by rewrite Hb.
Qed.

(** ** Releasing next to a hole

    A store releases what it replaces before it writes, so for a moment the
    object holds a reference that is no longer its own.  A release never looks
    at the items of a block that stays reachable, so the order does not matter. *)

(** An object that survives points at [p]. *)
Definition pointed (h : Heap) (p : nat) : Prop :=
  exists i o, slot h i = Some o /\ out o = [R_Block p].

Lemma pointed_back h h' p : released h h' -> pointed h' p -> pointed h p.
Proof.
  intros [[Hs _] _] (i & o & Hi & Ho). destruct (Hs i o Hi) as (o' & Hi' & Hc).
  exists i, o'. split; [done|]. by rewrite (content_out _ _ Hc).
Qed.

Lemma slot_put_items p vs h i : slot (put_items p vs h) i = slot h i.
Proof. unfold put_items. by destruct (block h p). Qed.

Lemma glue_put_items p vs h : drop_glue (put_items p vs h) = drop_glue h.
Proof. unfold put_items. by destruct (block h p). Qed.

Lemma block_put_items p vs h q :
  block (put_items p vs h) q =
  if decide (p = q) then (fun b => {| strong := strong b; items := vs |}) <$> block h q else block h q.
Proof.
  unfold put_items. destruct (block h p) as [b|] eqn:Hb.
  - rewrite lookup_put_block by (by eexists). case_decide; [|done]. subst. by rewrite Hb.
  - case_decide; [subst; by rewrite Hb|done].
Qed.

Lemma rc_count_put_items p vs h q : rc_count (put_items p vs h) q = rc_count h q.
Proof. unfold rc_count. rewrite block_put_items. case_decide; [|done]. by destruct (block h q). Qed.

Lemma rc_items_put_items p vs h q : p <> q -> rc_items (put_items p vs h) q = rc_items h q.
Proof. intros. unfold rc_items. rewrite block_put_items. by rewrite decide_False. Qed.

Lemma put_items_vacate p vs i h : vacate i (put_items p vs h) = put_items p vs (vacate i h).
Proof. unfold put_items. change (block (vacate i h) p) with (block h p). by destruct (block h p). Qed.

Lemma put_items_put_slot p vs i o h :
  put_slot i o (put_items p vs h) = put_items p vs (put_slot i o h).
Proof. unfold put_items. change (block (put_slot i o h) p) with (block h p). by destruct (block h p). Qed.

Lemma put_items_glue p vs g h : with_glue g (put_items p vs h) = put_items p vs (with_glue g h).
Proof. unfold put_items. change (block (with_glue g h) p) with (block h p). by destruct (block h p). Qed.

Lemma put_items_park p vs i g h :
  park_pending_drop i g (put_items p vs h) = put_items p vs (park_pending_drop i g h).
Proof.
  unfold put_items. change (block (park_pending_drop i g h) p) with (block h p).
  by destruct (block h p).
Qed.

Lemma put_items_event p vs t h :
  events_release t (put_items p vs h) = put_items p vs (events_release t h).
Proof. unfold put_items. change (block (events_release t h) p) with (block h p). by destruct (block h p). Qed.

Lemma drop_share_put_items p vs i h :
  drop_share i (put_items p vs h) = put_items p vs (drop_share i h).
Proof.
  unfold drop_share. rewrite slot_put_items.
  destruct (slot h i) as [[]|]; try done; apply put_items_put_slot.
Qed.

Lemma rc_drop_put_items p vs q h :
  (p = q -> 1 < rc_count h q)%nat -> rc_drop q (put_items p vs h) = put_items p vs (rc_drop q h).
Proof.
  intros Hpq. unfold rc_drop at 1. rewrite block_put_items.
  unfold rc_count in Hpq. unfold rc_drop, put_items.
  destruct (decide (p = q)) as [->|Hne].
  - specialize (Hpq eq_refl). destruct (block h q) as [b|] eqn:Hb; [|lia]. cbn [fmap option_fmap option_map strong].
    rewrite lookup_put_block by (by eexists). rewrite (decide_True (P := q = q)) by done.
    cbn. rewrite !(decide_False (P := (strong b <= 1)%nat)) by lia.
    unfold put_block, with_blocks. cbn. by rewrite !list_insert_insert_eq.
  - destruct (block h q) as [b|] eqn:Hb; [|done].
    rewrite lookup_put_block by (by eexists). rewrite (decide_False (P := q = p)) by done.
    destruct (block h p) as [c|]; [|done].
    unfold put_block, with_blocks. cbn. f_equal. by apply list_insert_insert_ne.
Qed.

(** A surviving pointer keeps a block that somebody also holds shared. *)
Lemma pointed_shared h E R p h' :
  Inv h E (R_Block p :: R) -> released (rc_drop p h) h' -> pointed h' p -> (1 < rc_count h p)%nat.
Proof.
  intros Hinv Hrel Hp. apply (pointed_back _ _ _ Hrel) in Hp as (i & o & Hi & Ho).
  assert (slot h i = Some o) as Hi' by (unfold rc_drop in Hi; by destruct (block h p)).
  pose proof (inv_count _ _ _ Hinv (R_Block p)) as Hc. rewrite occ_cons, decide_True in Hc by done.
  pose proof (stored_slot_total h i o (R_Block p) Hi' ltac:(rewrite Ho; apply list_elem_of_here)).
  cbn in Hc. lia.
Qed.

Section Commute.
Context (p : nat) (vs : list Value).

Definition commutes (drop : Value -> Heap -> Heap) (fuel : nat) : Prop :=
  forall v h E R, (occupied h < fuel)%nat -> Inv h E (refs v ++ R) -> pointed (drop v h) p ->
    drop v (put_items p vs h) = put_items p vs (drop v h).

Context (drop : Value -> Heap -> Heap) (fuel : nat).
Context (Hdrop : releases_value drop fuel) (Hcomm : commutes drop fuel).

Lemma drop_all_commutes ws : forall h E R,
  (occupied h < fuel)%nat -> Inv h E (refs_all ws ++ R) -> pointed (drop_all drop ws h) p ->
  drop_all drop ws (put_items p vs h) = put_items p vs (drop_all drop ws h).
Proof.
  induction ws as [|w ws IH]; intros h E R Hf Hinv Hp; [done|]. cbn in *.
  rewrite refs_all_cons, <- (assoc_L (++)) in Hinv.
  destruct (Hdrop w h E _ Hf Hinv) as [Hinv1 Hrel1].
  pose proof (released_occupied _ _ Hrel1).
  destruct (drop_all_spec drop fuel Hdrop ws (drop w h) E R) as [_ Hrel2]; [lia|done|].
  rewrite (Hcomm w h E _ Hf Hinv) by (by eapply pointed_back).
  by eapply IH; [lia|exact Hinv1|].
Qed.

Lemma free_block_commutes h E R q :
  (occupied h < fuel)%nat -> Inv h E (R_Block q :: R) ->
  let go h := let '(h1, u) := rc_try_unwrap q h in
    match u with Some ws => drop_all drop (rev ws) h1 | None => h1 end in
  pointed (go h) p -> go (put_items p vs h) = put_items p vs (go h).
Proof.
  intros Hf Hinv go Hp. subst go. cbn zeta beta in *.
  pose proof (free_block_spec drop fuel Hdrop h E R q Hf Hinv) as Hspec.
  destruct (rc_try_unwrap q h) as [h1 u] eqn:Hu. destruct Hspec as [_ Hrel].
  pose proof (rc_try_unwrap_Inv _ _ _ _ _ _ Hinv Hu) as Hinv1.
  unfold rc_try_unwrap in Hu |- *. injection Hu as <- <-.
  rewrite rc_count_put_items.
  assert (released (rc_drop q h) (match (if decide (rc_count h q = 1%nat) then Some (rc_items h q) else None) with
    Some ws => drop_all drop (rev ws) (rc_drop q h) | None => rc_drop q h end)) as Hrel1.
  { pose proof (released_occupied _ _ (rc_drop_released h q)).
    case_decide; [|done]. apply (drop_all_spec drop fuel Hdrop (rev (rc_items h q)) (rc_drop q h) E R); [lia|].
    by rewrite <- Permutation_rev. }
  assert (p = q -> 1 < rc_count h q)%nat as Hshared.
  { intros ->. by eapply (pointed_shared h E R q). }
  rewrite rc_drop_put_items by done.
  case_decide as Hone; [|done].
  rewrite rc_items_put_items by (intros ->; specialize (Hshared eq_refl); lia).
  eapply (drop_all_commutes _ _ E R); [|by rewrite <- Permutation_rev|exact Hp].
  pose proof (released_occupied _ _ (rc_drop_released h q)). lia.
Qed.

Lemma free_array_commutes i h E R :
  (occupied h < S fuel)%nat -> Inv h E (R_Slot K_Array i :: R) ->
  pointed (free_array_at drop i h) p ->
  free_array_at drop i (put_items p vs h) = put_items p vs (free_array_at drop i h).
Proof.
  intros Hf Hinv Hp. destruct (live_ref _ _ _ _ _ Hinv) as (o & Hi & Hk). destruct o; try done.
  unfold free_array_at in *. rewrite slot_put_items, Hi in *. rewrite put_items_vacate.
  destruct (take_spec h E R i (O_Array elements) Hinv Hi eq_refl) as (Hinv1 & _ & Hlt); [done|].
  apply (free_block_commutes (vacate i h) E R elements); [lia|done|done].
Qed.

Lemma free_struct_commutes i h E R :
  (occupied h < S fuel)%nat -> Inv h E (R_Slot K_Struct i :: R) ->
  pointed (free_struct_at drop i h) p ->
  free_struct_at drop i (put_items p vs h) = put_items p vs (free_struct_at drop i h).
Proof.
  intros Hf Hinv Hp. destruct (live_ref _ _ _ _ _ Hinv) as (o & Hi & Hk). destruct o; try done.
  set (hg := with_glue (delete i (drop_glue h)) h).
  assert (Inv (vacate i hg) E (R_Block fields :: R)) as Hinv1.
  { eapply (vacate_Inv hg E R i (O_Struct fields)); try done; [by apply glue_delete_Inv|].
    apply lookup_delete_eq. }
  assert (occupied (vacate i hg) < fuel)%nat as Hlt.
  { pose proof (vacate_occupied hg i (O_Struct fields) Hi) as Hocc.
    change (occupied hg) with (occupied h) in Hocc. lia. }
  pose proof (free_block_commutes (vacate i hg) E R fields Hlt Hinv1) as Hfree. cbn beta zeta in Hfree.
  unfold free_struct_at in *. rewrite slot_put_items, Hi in *. cbv zeta in *.
  unfold glue_of, last_holder_of in *. rewrite Hi in Hp.
  rewrite glue_put_items, slot_put_items, Hi, rc_count_put_items.
  rewrite !vacate_glue in *. fold hg in Hp |- *. rewrite glue_put_items.
  rewrite put_items_glue, put_items_vacate. fold hg.
  destruct (decide (drop_glue h = ∅)); [by apply Hfree|].
  destruct (drop_glue h !! i); [|by apply Hfree].
  destruct (bool_decide _); [apply put_items_park|by apply Hfree].
Qed.

Lemma free_boxed_commutes i h E R o (payload : Value) :
  (occupied h < S fuel)%nat -> Inv h E (R_Slot (kind_of o) i :: R) -> slot h i = Some o ->
  out o = refs payload -> (holders o <= 1)%nat -> kind_of o <> K_Struct ->
  pointed (drop payload (vacate i h)) p ->
  drop payload (vacate i (put_items p vs h)) = put_items p vs (drop payload (vacate i h)).
Proof.
  intros Hf Hinv Hi Ho Hh Hk Hp. pose proof (inv_holders _ _ _ Hinv _ _ Hi).
  destruct (take_spec h E R i o Hinv Hi) as (Hinv1 & _ & Hlt); [lia|done|].
  rewrite put_items_vacate. rewrite Ho in Hinv1. by eapply Hcomm; [lia|exact Hinv1|].
Qed.

Lemma free_cblock_commutes i h E R :
  (occupied h < S fuel)%nat -> Inv h E (R_Slot K_CBlock i :: R) ->
  pointed (free_cblock_at drop i h) p ->
  free_cblock_at drop i (put_items p vs h) = put_items p vs (free_cblock_at drop i h).
Proof.
  intros Hf Hinv Hp. destruct (live_ref _ _ _ _ _ Hinv) as (o & Hi & Hk). destruct o; try done.
  unfold free_cblock_at in *. rewrite slot_put_items, Hi in *. rewrite put_items_vacate.
  destruct (take_spec h E R i (O_CBlock address bytes kids) Hinv Hi eq_refl) as (Hinv1 & _ & Hlt); [done|].
  eapply (drop_all_commutes _ _ E R); [lia|by rewrite kid_refs_values|done].
Qed.
End Commute.

(** A release does not look into a block that stays reachable. *)
Lemma drop_value_commutes p vs fuel : commutes p vs (drop_value_fuel fuel) fuel.
Proof.
  induction fuel as [|fuel IH]; intros v h E R Hf Hinv Hp; [lia|].
  pose proof (drop_value_fuel_spec fuel) as Hdrop.
  destruct v; cbn [drop_value_fuel] in *; cbn [refs app] in Hinv; try done.
  - unfold free_str_at. rewrite slot_put_items. destruct (slot h id) as [[]|]; try done.
    apply put_items_vacate.
  - by eapply free_struct_commutes.
  - by eapply free_array_commutes.
  - destruct (live_ref _ _ _ _ _ Hinv) as (o & Hi & Hk). destruct o; try done.
    unfold free_enum_at in *. rewrite slot_put_items, Hi in *.
    case_decide; [apply drop_share_put_items|].
    destruct payload as [w|]; [|apply put_items_vacate].
    eapply (free_boxed_commutes p vs (drop_value_fuel fuel) fuel); eauto; cbn; done || lia.
  - destruct (live_ref _ _ _ _ _ Hinv) as (o & Hi & Hk). destruct o; try done.
    unfold free_erased_at in *. rewrite slot_put_items, Hi in *.
    case_decide; [apply drop_share_put_items|].
    eapply (free_boxed_commutes p vs (drop_value_fuel fuel) fuel); eauto; cbn; done || lia.
  - destruct (live_ref _ _ _ _ _ Hinv) as (o & Hi & Hk). destruct o; try done.
    unfold free_cell_at in *. rewrite slot_put_items, Hi in *.
    case_decide; [apply drop_share_put_items|].
    eapply (free_boxed_commutes p vs (drop_value_fuel fuel) fuel); eauto; cbn; done || lia.
  - apply put_items_event.
  - unfold free_snapshot. rewrite slot_put_items. destruct (slot h id) as [[]|]; try done.
    case_decide; [apply drop_share_put_items|apply put_items_vacate].
  - by eapply free_cblock_commutes.
Qed.

(** ** Stores *)

Lemma occ_refs_all_insert ws i prev v r : ws !! i = Some prev ->
  (occ r (refs_all (<[i := v]> ws)) + occ r (refs prev) = occ r (refs_all ws) + occ r (refs v))%nat.
Proof.
  revert i. induction ws as [|w ws IH]; intros [|i] Hi; simplify_eq/=;
    rewrite !refs_all_cons, !occ_app; [lia|]. specialize (IH i Hi). lia.
Qed.

Lemma put_items_id q h b : block h q = Some b -> put_items q (items b) h = h.
Proof.
  intros Hb. unfold put_items. rewrite Hb. unfold put_block, with_blocks. destruct b, h. cbn in *.
  f_equal. apply list_insert_id. by apply block_Some in Hb.
Qed.

Lemma put_items_twice q vs ws h : put_items q vs (put_items q ws h) = put_items q vs h.
Proof.
  destruct (block h q) as [b|] eqn:Hb; [|unfold put_items; by rewrite Hb, Hb].
  unfold put_items at 1. rewrite block_put_items, decide_True, Hb by done. cbn.
  unfold put_items. rewrite Hb. unfold put_block, with_blocks. cbn. by rewrite list_insert_insert_eq.
Qed.

Lemma points_out mk q : points_at mk -> out (mk q) = [R_Block q] /\ holders (mk q) = 1%nat.
Proof. by intros [-> | ->]. Qed.

Lemma points_content mk q o : points_at mk -> content o = content (mk q) -> o = mk q.
Proof. intros [-> | ->]; destruct o; cbn; intros; by simplify_eq. Qed.

(** The block only one object points at. *)
Lemma sole_block h E R i j o x q b :
  Inv h E R -> slot h i = Some o -> out o = [R_Block q] -> block h q = Some b -> strong b = 1%nat ->
  slot h j = Some x -> out x = [R_Block q] -> i = j.
Proof.
  intros Hinv Hi Ho Hb Hs Hj Hx. destruct (decide (i = j)) as [|Hne]; [done|exfalso].
  pose proof (inv_count _ _ _ Hinv (R_Block q)) as Hc. cbn in Hc. unfold rc_count in Hc. rewrite Hb in Hc.
  pose proof (vacate_total h i o (R_Block q) Hi) as H1. rewrite Ho in H1. cbn in H1.
  rewrite decide_True in H1 by done.
  pose proof (stored_slot_total (vacate i h) j x (R_Block q)) as H2. rewrite lookup_vacate in H2.
  rewrite decide_False in H2 by done. specialize (H2 Hj). rewrite Hx in H2.
  specialize (H2 (list_elem_of_here _ _)). lia.
Qed.

(** Rewriting the items of a block its one owner points at is seen by that
    owner only. *)
Lemma put_items_away h E R k id mk q b vs : points_at mk ->
  Inv h E (R_Slot k id :: R) -> slot h id = Some (mk q) -> kind_of (mk q) = k ->
  block h q = Some b -> strong b = 1%nat ->
  keeps h (put_items q vs h) (fun w => R_Slot k id ∉ refs w).
Proof.
  intros Hmk Hinv Hid Hk Hb Hs. destruct (points_out mk q Hmk) as [Ho Hh].
  eapply keeps_away; [exact Hinv|exact Hid|done|done| |].
  - intros j _. apply slot_put_items.
  - intros j x q' Hj Hx Hxo. rewrite block_put_items. case_decide; [|done]. subst q'. exfalso.
    apply Hj. symmetry. by eapply sole_block.
Qed.

Lemma mapM_insert {A B} (f : A -> option B) l ks i x y :
  mapM f l = Some ks -> f x = Some y -> mapM f (<[i := x]> l) = Some (<[i := y]> ks).
Proof. rewrite !mapM_Some. intros H Hx. by apply Forall2_insert. Qed.

Lemma mapM_view_mono fuel fuel' h l ts :
  mapM (view fuel h) l = Some ts -> (fuel <= fuel')%nat -> mapM (view fuel' h) l = Some ts.
Proof. intros H Hle. eapply mapM_transport; [|exact H]. intros w u _ Hw. by eapply view_mono. Qed.

(** The items of the written block, once the new one is in. *)
Lemma written_items_view h E R k id mk q b v i fuel ts tv : points_at mk ->
  Inv h E (R_Slot k id :: refs v ++ R) -> slot h id = Some (mk q) -> kind_of (mk q) = k ->
  block h q = Some b -> strong b = 1%nat ->
  mapM (view fuel h) (items b) = Some ts -> denotes h v tv ->
  exists fuel', mapM (view fuel' (put_items q (<[i := v]> (items b)) h)) (<[i := v]> (items b))
    = Some (<[i := tv]> ts).
Proof.
  intros Hmk Hinv Hid Hk Hb Hs Hts [fv Hv]. destruct (points_out mk q Hmk) as [Ho Hh].
  set (h' := put_items q (<[i := v]> (items b)) h).
  pose proof (put_items_away h E _ k id mk q b (<[i := v]> (items b)) Hmk Hinv Hid Hk Hb Hs) as Hkeep.
  destruct (sole_reference _ _ _ _ _ _ Hinv Hid Hk Hh) as (Htot & Hnr & _).
  exists (fuel + fv)%nat. apply mapM_insert.
  - eapply mapM_transport; [|eapply (mapM_view_mono fuel (fuel + fv)); [exact Hts|lia]].
    intros w u Hw Hwv. eapply (view_transport h h' _ _ Hkeep); [|exact Hwv].
    intros Hin. pose proof (stored_block_total h q b _ Hb (elem_refs_all _ _ _ Hw Hin)). lia.
  - eapply (view_mono fv); [|lia]. eapply (view_transport h h' _ _ Hkeep); [|exact Hv].
    intros Hin. apply Hnr. apply elem_of_app. by left.
Qed.

(** The heap a store ends in: the new item in place, the old one released. *)
Definition stored (q i : nat) (v prev : Value) (h : Heap) : Heap :=
  drop_value prev (put_items q (<[i := v]> (rc_items h q)) h).

(** Releasing what is replaced before the write ends in the same heap. *)
Lemma store_order mk h E R k id q b i v prev : points_at mk ->
  Inv h E (refs v ++ R_Slot k id :: R) -> slot h id = Some (mk q) -> kind_of (mk q) = k ->
  block h q = Some b -> strong b = 1%nat -> items b !! i = Some prev ->
  let h' := stored q i v prev h in
  Inv h' E (R_Slot k id :: R) /\ released (put_items q (<[i := v]> (items b)) h) h' /\
  slot h' id = Some (mk q) /\ rc_count h' q = 1%nat /\ rc_items h' q = <[i := v]> (items b) /\
  drop_value prev h = put_items q (items b) h'.
Proof.
  intros Hmk Hinv Hid Hk Hb Hs Hprev. cbn zeta. unfold stored.
  assert (rc_items h q = items b) as -> by (unfold rc_items; by rewrite Hb).
  set (vs := <[i := v]> (items b)). set (hw := put_items q vs h).
  assert (Inv hw E (refs prev ++ R_Slot k id :: R)) as Hinvw.
  { eapply put_items_Inv; [exact Hinv|exact Hb|]. intros r. rewrite !occ_app.
    pose proof (occ_refs_all_insert (items b) i prev v r Hprev) as Hocc. fold vs in Hocc. lia. }
  destruct (drop_value_spec prev hw E _ Hinvw) as [Hinv' Hrel].
  destruct (points_out mk q Hmk) as [Ho Hh].
  assert (slot hw id = Some (mk q)) as Hidw by (by unfold hw; rewrite slot_put_items).
  assert (block hw q = Some {| strong := strong b; items := vs |}) as Hbw.
  { unfold hw. by rewrite block_put_items, decide_True, Hb. }
  destruct (live_ref _ _ _ _ _ Hinv') as (o & Hio & _).
  destruct (grows_slots _ _ (released_grows _ _ Hrel) id o Hio) as (o' & Hi' & Hc).
  rewrite Hidw in Hi'. simplify_eq. symmetry in Hc. apply (points_content mk q o Hmk) in Hc as ->.
  destruct (pointed_block _ _ _ _ _ q Hinv' Hio Ho) as [b' Hb'].
  destruct (grows_blocks _ _ (released_grows _ _ Hrel) q b' Hb') as (b2 & Hb2 & Hit & Hst).
  rewrite Hbw in Hb2. simplify_eq. cbn in Hit, Hst.
  pose proof (inv_strong _ _ _ Hinv' q b' Hb').
  split_and!; [done|done|done|unfold rc_count; rewrite Hb'; lia|unfold rc_items; by rewrite Hb'|].
  assert (h = put_items q (items b) hw) as Heq.
  { unfold hw. rewrite put_items_twice. symmetry. by apply put_items_id. }
  rewrite Heq at 1. unfold drop_value. rewrite <- Heq.
  change (length (slots h)) with (length (slots h)).
  assert (slots hw = slots h) as Hsl by (unfold hw, put_items; by rewrite Hb).
  rewrite Hsl. rewrite Heq at 2.
  rewrite (drop_value_commutes q (items b) (S (length (slots h))) prev hw E (R_Slot (kind_of (mk q)) id :: R)); [done| |done|].
  - pose proof (occupied_le hw) as Hocc. rewrite Hsl in Hocc. lia.
  - exists id, (mk q). split; [|done]. unfold drop_value in Hio. by rewrite Hsl in Hio.
Qed.

Lemma sees_weaken h h' R R' : (forall r, r ∈ R' -> r ∈ R) -> sees_same h h' R -> sees_same h h' R'.
Proof. intros HR Hs w t Hw. apply Hs. intros r Hr. by apply HR, Hw. Qed.

(** What a store shows: to others nothing, to the owner the new item. *)
Lemma store_view mk h E R k id q b i v prev : points_at mk ->
  Inv h E (refs v ++ R_Slot k id :: R) -> slot h id = Some (mk q) -> kind_of (mk q) = k ->
  block h q = Some b -> strong b = 1%nat -> items b !! i = Some prev ->
  let h' := stored q i v prev h in
  sees_same h h' R /\
  forall fuel ts tv, mapM (view fuel h) (items b) = Some ts -> denotes h v tv ->
    exists fuel', mapM (view fuel' h') (<[i := v]> (items b)) = Some (<[i := tv]> ts).
Proof.
  intros Hmk Hinv Hid Hk Hb Hs Hprev. cbn zeta.
  destruct (store_order mk h E R k id q b i v prev Hmk Hinv Hid Hk Hb Hs Hprev)
    as (Hinv' & Hrel & Hid' & Hc' & Hit' & _).
  set (hw := put_items q (<[i := v]> (items b)) h) in *. set (h' := stored q i v prev h) in *.
  assert (Inv h E (R_Slot k id :: refs v ++ R)) as Hinv0.
  { eapply Inv_perm; [|exact Hinv]. intros r. rewrite occ_cons, !occ_app, occ_cons. lia. }
  destruct (points_out mk q Hmk) as [Ho Hh]. split.
  - pose proof (put_items_away h E _ k id mk q b (<[i := v]> (items b)) Hmk Hinv0 Hid Hk Hb Hs) as Hkeep.
    destruct (sole_reference _ _ _ _ _ _ Hinv0 Hid Hk Hh) as (_ & Hnr & _).
    eapply (sees_trans h hw h').
    + intros w t Hw [f Hv]. exists f. apply (view_transport h hw _ f Hkeep); [|done].
      intros Hin. apply Hnr, elem_of_app. right. by apply Hw.
    + eapply sees_weaken; [|eapply released_sees; [exact Hinv'|apply Hrel]].
      intros r Hr. by apply list_elem_of_further.
  - intros fuel ts tv Hts Hv.
    destruct (written_items_view h E R k id mk q b v i fuel ts tv Hmk Hinv0 Hid Hk Hb Hs Hts Hv) as [f Hf].
    exists f. eapply mapM_transport; [|exact Hf]. intros w u Hw Hwu.
    apply (view_transport hw h' _ f (released_keeps hw h' E _ Hinv' (released_grows _ _ Hrel))); [|done].
    intros r Hr. assert (exists b', block h' q = Some b') as [b' Hb']
      by (unfold rc_count in Hc'; destruct (block h' q); [eauto|lia]).
    eapply (stored_block_out h' E _ q b'); [exact Hinv'|exact Hb'|].
    unfold rc_items in Hit'. rewrite Hb' in Hit'. rewrite Hit'. by eapply elem_refs_all.
Qed.

(** ** [set_field] *)

(** The struct a handle owned before [own] is the one it owns after. *)
Lemma own_keeps_block h E R k id mk p v h1 v1 : points_at mk ->
  Inv h E (refs v ++ R_Slot k id :: R) -> slot h id = Some (mk p) -> own v h = (h1, v1) ->
  slot h1 id = Some (mk p) /\ rc_items h1 p = rc_items h p.
Proof.
  intros Hmk Hinv Hid Hown. destruct (own_spec _ _ _ _ _ _ Hinv Hown) as (Hinv1 & _ & _ & _ & Hs & Hb).
  destruct (points_out mk p Hmk) as [Ho _].
  rewrite (Permutation_app_comm (refs v1)) in Hinv1. cbn in Hinv1.
  destruct (live_ref _ _ _ _ _ Hinv1) as (o & Hi & _).
  pose proof (points_content mk p o Hmk (Hs _ _ _ Hid Hi)) as ->. split; [done|].
  destruct (pointed_block _ _ _ _ _ p Hinv Hid Ho) as [b Hbk].
  destruct (pointed_block _ _ _ _ _ p Hinv1 Hi Ho) as [b1 Hbk1].
  unfold rc_items. rewrite Hbk, Hbk1. by eapply Hb.
Qed.

Lemma denotes_struct h id p t : slot h id = Some (O_Struct p) -> denotes h (V_Struct id) t ->
  exists fuel ts, t = T_Struct ts /\ mapM (view fuel h) (rc_items h p) = Some ts.
Proof.
  intros Hid [[|f] Hv]; [done|]. cbn in Hv. rewrite Hid in Hv. unfold rc_items.
  destruct (block h p) as [b|]; [|done]. cbn in Hv.
  destruct (mapM (view f h) (items b)) as [ts|] eqn:E; [|done]. cbn in Hv. simplify_eq. eauto.
Qed.

Lemma denotes_array h id p t : slot h id = Some (O_Array p) -> denotes h (V_Array id) t ->
  exists fuel ts, t = T_Array ts /\ mapM (view fuel h) (rc_items h p) = Some ts.
Proof.
  intros Hid [[|f] Hv]; [done|]. cbn in Hv. rewrite Hid in Hv. unfold rc_items.
  destruct (block h p) as [b|]; [|done]. cbn in Hv.
  destruct (mapM (view f h) (items b)) as [ts|] eqn:E; [|done]. cbn in Hv. simplify_eq. eauto.
Qed.

(** The heap between the release and the write: the written block unchanged. *)
Lemma store_hole mk h E R k id q b i v prev : points_at mk ->
  Inv h E (refs v ++ R_Slot k id :: R) -> slot h id = Some (mk q) -> kind_of (mk q) = k ->
  block h q = Some b -> strong b = 1%nat -> items b !! i = Some prev ->
  let hd := drop_value prev h in
  slot hd id = Some (mk q) /\ rc_count hd q = 1%nat /\ rc_items hd q = items b /\
  put_items q (<[i := v]> (items b)) hd = stored q i v prev h.
Proof.
  intros Hmk Hinv Hid Hk Hb Hs Hprev. cbn zeta.
  destruct (store_order mk h E R k id q b i v prev Hmk Hinv Hid Hk Hb Hs Hprev)
    as (_ & _ & Hid3 & Hc3 & Hit3 & ->).
  rewrite slot_put_items, rc_count_put_items, put_items_twice.
  assert (exists c, block (stored q i v prev h) q = Some c) as [c Hcb]
    by (unfold rc_count in Hc3; destruct (block (stored q i v prev h) q); [eauto|done]).
  split_and!; [done|done| |].
  - unfold rc_items. by rewrite block_put_items, decide_True, Hcb.
  - unfold rc_items in Hit3. rewrite Hcb in Hit3. rewrite <- Hit3. by apply put_items_id.
Qed.

(** What a store is about to work on: the new value taken over and the object
    alone on its block. *)
Record ready (mk : nat -> Object) (h h1 h2 : Heap) (E R : list Ref) (k : Kind) (id : nat) (v1 : Value)
    (q : nat) (b : Block) (len : nat) : Prop := {
  ready_inv : Inv h2 E (refs v1 ++ R_Slot k id :: R);
  ready_sees : sees_same h h1 (R_Slot k id :: R);
  ready_denotes : forall w t, denotes h1 w t -> denotes h2 w t;
  ready_slot : slot h2 id = Some (mk q);
  ready_block : block h2 q = Some b;
  ready_strong : strong b = 1%nat;
  ready_length : length (items b) = len
}.

Lemma ready_struct h E R id p v h1 v1 :
  Inv h E (refs v ++ R_Slot K_Struct id :: R) -> slot h id = Some (O_Struct p) -> own v h = (h1, v1) ->
  exists q b, ready O_Struct h h1 (make_struct_unique id h1) E R K_Struct id v1 q b (length (rc_items h p)).
Proof.
  intros Hinv Hid Hown. destruct (own_spec _ _ _ _ _ _ Hinv Hown) as (Hinv1 & _ & Hsee1 & _ & _).
  destruct (own_keeps_block h E R K_Struct id O_Struct p v h1 v1 ltac:(by left) Hinv Hid Hown) as [Hid1 Hit1].
  destruct (make_struct_unique_spec h1 E _ id p Hinv1 Hid1) as (Hinv2 & Hden2 & q & b & Hid2 & Hb2 & Hs2 & Hlen2).
  exists q, b. split; try done. by rewrite <- Hit1.
Qed.

Lemma ready_array h E R id p v h1 v1 :
  Inv h E (refs v ++ R_Slot K_Array id :: R) -> slot h id = Some (O_Array p) -> own v h = (h1, v1) ->
  exists q b, ready O_Array h h1 (make_array_unique id h1) E R K_Array id v1 q b (length (rc_items h p)).
Proof.
  intros Hinv Hid Hown. destruct (own_spec _ _ _ _ _ _ Hinv Hown) as (Hinv1 & _ & Hsee1 & _ & _).
  destruct (own_keeps_block h E R K_Array id O_Array p v h1 v1 ltac:(by right) Hinv Hid Hown) as [Hid1 Hit1].
  destruct (make_array_unique_spec h1 E _ id p Hinv1 Hid1) as (Hinv2 & Hden2 & q & b & Hid2 & Hb2 & Hs2 & Hlen2).
  exists q, b. split; try done. by rewrite <- Hit1.
Qed.

(** The reference a handle is a root of, and what it shows after a store. *)
Lemma ready_stored mk h h1 h2 E R k id v1 q b len i prev : points_at mk -> kind_of (mk q) = k ->
  ready mk h h1 h2 E R k id v1 q b len -> items b !! i = Some prev ->
  let h' := stored q i v1 prev h2 in
  Inv h' E (R_Slot k id :: R) /\ sees_same h h' R /\
  slot h' id = Some (mk q) /\
  (exists c, block h' q = Some c /\ items c = <[i := v1]> (items b)) /\
  forall fuel ts tv, mapM (view fuel h2) (items b) = Some ts -> denotes h1 v1 tv ->
    exists fuel', mapM (view fuel' h') (<[i := v1]> (items b)) = Some (<[i := tv]> ts).
Proof.
  intros Hmk Hk [Hinv Hsee Hden Hid Hb Hs _] Hprev. cbn zeta.
  destruct (store_order mk h2 E R k id q b i v1 prev Hmk Hinv Hid Hk Hb Hs Hprev)
    as (Hinv3 & _ & Hid3 & Hc3 & Hit3 & _).
  destruct (store_view mk h2 E R k id q b i v1 prev Hmk Hinv Hid Hk Hb Hs Hprev) as [Hsee3 Hview3].
  split_and!; [done| |done| |eauto].
  - eapply sees_trans; [|exact Hsee3]. eapply (sees_trans h h1 h2).
    + eapply sees_weaken; [|exact Hsee]. intros r Hr. by apply list_elem_of_further.
    + intros w t _. apply Hden.
  - unfold rc_count in Hc3. unfold rc_items in Hit3.
    destruct (block (stored q i v1 prev h2) q) as [c|] eqn:Hcb; [|done].
    exists c. by split.
Qed.

(** A field store succeeds exactly when the field is there; it takes over the
    new value, releases the old one, and changes what the struct denotes at
    that index and nothing anybody else sees. *)
Lemma set_field_spec h E R id index v h' ok :
  Inv h E (refs v ++ R_Slot K_Struct id :: R) -> set_field id index v h = (h', ok) ->
  (ok = true <-> is_Some (field h id index)) /\
  (ok = false -> h' = h) /\
  (ok = true -> Inv h' E (R_Slot K_Struct id :: R) /\ sees_same h h' R /\
    forall i ts tv, usize_try_from index = Some i ->
      denotes h (V_Struct id) (T_Struct ts) -> denotes (own v h).1 (own v h).2 tv ->
      denotes h' (V_Struct id) (T_Struct (<[i := tv]> ts))).
Proof.
  intros Hinv Hset. unfold set_field in Hset.
  destruct (field h id index) as [x|] eqn:Hf; [|simplify_eq; split_and!; [split; [done|by intros []]|done|done]].
  destruct (own v h) as [h1 v1] eqn:Hown.
  unfold field, fields in Hf. destruct (usize_try_from index) as [i|] eqn:Hi; [|done].
  cbn in Hf. destruct (slot h id) as [[|p| | | | | |]|] eqn:Hid; try done.
  destruct (ready_struct h E R id p v h1 v1 Hinv Hid Hown) as (q & b & Hready).
  pose proof Hready as [Hinv2 _ Hden2 Hid2 Hb2 Hs2 Hlen2].
  pose proof (lookup_lt_Some _ _ _ Hf) as Hilt. rewrite <- Hlen2 in Hilt.
  destruct (lookup_lt_is_Some_2 _ _ Hilt) as [prev Hprev].
  set (h2 := make_struct_unique id h1) in *.
  assert (field h2 id index = Some prev) as Hf2.
  { unfold field, fields. rewrite Hi. cbn. rewrite Hid2. unfold rc_items. by rewrite Hb2. }
  destruct (store_hole O_Struct h2 E R K_Struct id q b i v1 prev ltac:(by left) Hinv2 Hid2 eq_refl Hb2 Hs2 Hprev)
    as (Hid3 & Hc3 & Hit3 & Hfin).
  rewrite Hf2, Hid3, Hc3, Hit3, Hfin in Hset. rewrite !decide_True in Hset by done. simplify_eq.
  destruct (ready_stored O_Struct h h1 h2 E R K_Struct id v1 q b _ i prev ltac:(by left) eq_refl Hready Hprev)
    as (Hinv3 & Hsee3 & Hid' & (c & Hc & Hci) & Hview3).
  split_and!; [by split|done|]. intros _. split_and!; [done|done|].
  intros i' ts tv ? Hd Htv. simplify_eq/=.
  assert (denotes h2 (V_Struct id) (T_Struct ts)) as Hd2
    by (apply Hden2, (ready_sees _ _ _ _ _ _ _ _ _ _ _ _ Hready); [intros r Hr; cbn in Hr;
        apply list_elem_of_singleton in Hr as ->; apply list_elem_of_here|done]).
  destruct (denotes_struct h2 id q _ Hid2 Hd2) as (f & ts' & [= <-] & Hts).
  unfold rc_items in Hts. rewrite Hb2 in Hts.
  destruct (Hview3 f ts tv Hts Htv) as [f' Hf']. exists (S f'). rewrite view_S.
  unfold node_view. rewrite Hid', Hc. cbn -[stored]. by rewrite Hci, Hf'.
Qed.

(** ** [set_element] and [push_element] *)

Lemma put_slot_id h i o : slot h i = Some o -> put_slot i o h = h.
Proof.
  intros Hi. unfold put_slot, with_slots. destruct h. cbn in *. f_equal.
  apply list_insert_id. by apply slot_Some in Hi.
Qed.

Lemma rc_make_mut_unique h p : rc_count h p = 1%nat -> rc_make_mut p h = (h, p).
Proof. intros Hc. unfold rc_make_mut. by rewrite decide_True. Qed.

(** What the array denotes, carried to the heap the write works on. *)
Lemma ready_array_view h h1 h2 E R id v1 q b len ts :
  ready O_Array h h1 h2 E R K_Array id v1 q b len -> denotes h (V_Array id) (T_Array ts) ->
  exists fuel, mapM (view fuel h2) (items b) = Some ts.
Proof.
  intros [_ Hsee Hden Hid Hb _ _] Hd.
  assert (denotes h2 (V_Array id) (T_Array ts)) as Hd2
    by (apply Hden, Hsee; [intros r Hr; cbn in Hr;
        apply list_elem_of_singleton in Hr as ->; apply list_elem_of_here|done]).
  destruct (denotes_array h2 id q _ Hid Hd2) as (f & ts' & [= <-] & Hts).
  unfold rc_items in Hts. rewrite Hb in Hts. by exists f.
Qed.

Lemma denotes_items_array h id q c f ts :
  slot h id = Some (O_Array q) -> block h q = Some c -> mapM (view f h) (items c) = Some ts ->
  denotes h (V_Array id) (T_Array ts).
Proof. intros Hid Hc Hts. exists (S f). rewrite view_S. unfold node_view. rewrite Hid, Hc. cbn. by rewrite Hts. Qed.

(** An element store, as a field store. *)
Lemma set_element_spec h E R id i v h' ok :
  Inv h E (refs v ++ R_Slot K_Array id :: R) -> set_element id i v h = (h', ok) ->
  (ok = true <-> is_Some (element h id i)) /\
  (ok = false -> h' = h) /\
  (ok = true -> Inv h' E (R_Slot K_Array id :: R) /\ sees_same h h' R /\
    forall ts tv, denotes h (V_Array id) (T_Array ts) -> denotes (own v h).1 (own v h).2 tv ->
      denotes h' (V_Array id) (T_Array (<[i := tv]> ts))).
Proof.
  intros Hinv Hset. unfold set_element, array_len, element, elements in *.
  destruct (slot h id) as [[| |p| | | | |]|] eqn:Hid;
    try (simplify_eq; split_and!; [split; [done|by intros []]|done|done]).
  case_decide as Hlt; [|simplify_eq; split_and!;
    [split; [done|intros Hx%lookup_lt_is_Some; lia]|done|done]].
  destruct (own v h) as [h1 v1] eqn:Hown.
  destruct (ready_array h E R id p v h1 v1 Hinv Hid Hown) as (q & b & Hready).
  pose proof Hready as [Hinv2 _ Hden2 Hid2 Hb2 Hs2 Hlen2].
  pose proof Hlt as Hilt. rewrite <- Hlen2 in Hilt.
  destruct (lookup_lt_is_Some_2 _ _ Hilt) as [prev Hprev].
  set (h2 := make_array_unique id h1) in *.
  destruct (store_hole O_Array h2 E R K_Array id q b i v1 prev ltac:(by right) Hinv2 Hid2 eq_refl Hb2 Hs2 Hprev)
    as (Hid3 & Hc3 & Hit3 & Hfin).
  assert (rc_items h2 q = items b) as Hit2 by (unfold rc_items; by rewrite Hb2).
  rewrite Hid2, Hit2, Hprev in Hset.
  rewrite Hid3, rc_make_mut_unique, put_slot_id, Hit3, Hfin in Hset by done.
  rewrite decide_True in Hset by done. simplify_eq.
  destruct (ready_stored O_Array h h1 h2 E R K_Array id v1 q b _ i prev ltac:(by right) eq_refl Hready Hprev)
    as (Hinv3 & Hsee3 & Hid' & (c & Hc & Hci) & Hview3).
  split_and!; [split; [intros _; by apply lookup_lt_is_Some|done]|done|]. intros _.
  split_and!; [done|done|]. intros ts tv Hd Htv. simplify_eq/=.
  destruct (ready_array_view _ _ _ _ _ _ _ _ _ _ _ Hready Hd) as [f Hts].
  destruct (Hview3 f ts tv Hts Htv) as [f' Hf']. rewrite <- Hci in Hf'.
  by eapply denotes_items_array.
Qed.

(** An append gives the array one more element, and nobody else. *)
Lemma push_element_spec h E R id v h' ok :
  Inv h E (refs v ++ R_Slot K_Array id :: R) -> push_element id v h = (h', ok) ->
  ok = true /\ Inv h' E (R_Slot K_Array id :: R) /\ sees_same h h' R /\
  forall ts tv, denotes h (V_Array id) (T_Array ts) -> denotes (own v h).1 (own v h).2 tv ->
    denotes h' (V_Array id) (T_Array (ts ++ [tv])).
Proof.
  intros Hinv Hset.
  assert (Inv h E (R_Slot K_Array id :: R ++ refs v)) as Hinv0.
  { eapply Inv_perm; [|exact Hinv]. intros r. rewrite occ_cons, !occ_app, occ_cons. lia. }
  destruct (live_ref _ _ _ _ _ Hinv0) as (o & Hid & Hk). destruct o as [|?|p|?|?|?|?|?]; try done.
  unfold push_element, array_len in Hset. rewrite Hid in Hset.
  destruct (own v h) as [h1 v1] eqn:Hown.
  destruct (ready_array h E R id p v h1 v1 Hinv Hid Hown) as (q & b & Hready).
  pose proof Hready as [Hinv2 Hsee1 Hden2 Hid2 Hb2 Hs2 _].
  set (h2 := make_array_unique id h1) in *.
  assert (rc_count h2 q = 1%nat /\ rc_items h2 q = items b) as [Hc2 Hit2]
    by (unfold rc_count, rc_items; by rewrite Hb2).
  rewrite Hid2, rc_make_mut_unique, put_slot_id, Hit2 in Hset by done. simplify_eq.
  assert (Inv h2 E (R_Slot K_Array id :: refs v1 ++ R)) as Hinv2'.
  { eapply Inv_perm; [|exact Hinv2]. intros r. rewrite occ_cons, !occ_app, occ_cons. lia. }
  pose proof (put_items_away h2 E _ K_Array id O_Array q b (items b ++ [v1]) ltac:(by right)
    Hinv2' Hid2 eq_refl Hb2 Hs2) as Hkeep.
  destruct (sole_reference _ _ _ _ _ _ Hinv2' Hid2 eq_refl eq_refl) as (Htot & Hnr & _).
  split_and!; [done| | |].
  - eapply put_items_Inv; [exact Hinv2|exact Hb2|]. intros r.
    rewrite refs_all_app, !occ_app. change (refs_all [v1]) with (refs v1 ++ []). rewrite app_nil_r. lia.
  - apply (sees_trans h h1); [eapply sees_weaken; [|exact Hsee1]; intros r; apply list_elem_of_further|].
    apply (sees_trans h1 h2); [intros w t _; apply Hden2|].
    intros w t Hw [f Hv]. exists f. apply (view_transport h2 _ _ f Hkeep); [|done].
    intros Hin. apply Hnr, elem_of_app. right. by apply Hw.
  - intros ts tv Hd Htv. destruct (ready_array_view _ _ _ _ _ _ _ _ _ _ _ Hready Hd) as [f Hts].
    cbn in Htv. apply Hden2 in Htv as [g Htv].
    set (h' := put_items q (items b ++ [v1]) h2) in *.
    assert (block h' q = Some {| strong := strong b; items := items b ++ [v1] |}) as Hb'
      by (unfold h'; by rewrite block_put_items, decide_True, Hb2).
    eapply (denotes_items_array h' id q _ (f + g)); [by unfold h'; rewrite slot_put_items|exact Hb'|].
    cbn [items]. apply mapM_Some, Forall2_app; [|constructor; [|constructor]].
    + apply mapM_Some. eapply mapM_transport; [|eapply (mapM_view_mono f (f + g)); [exact Hts|lia]].
      intros w u Hw. apply (view_transport h2 h' _ _ Hkeep). intros Hin.
      pose proof (stored_block_total h2 q b _ Hb2 (elem_refs_all _ _ _ Hw Hin)). lia.
    + eapply (view_mono g); [|lia]. apply (view_transport h2 h' _ _ Hkeep); [|exact Htv].
      intros Hin. apply Hnr. apply elem_of_app. by left.
Qed.
End Writes.
