(* ===== verification/HeapBoxes.v ===== *)
(** Objects that box values: allocation of structs, arrays, enums, erased
    values and cells, deferred reads, payload reads and the write through a
    capture cell, each with its effect on the books and on what others see. *)

From stdpp Require Import gmap.
From S2P Require Import Prelude.
From S2P Require Import Instruction.
From S2P Require Import Foreign.
From S2P Require Import NativeState.
From S2P Require Import Heap.
From S2P Require Import HeapOwnership.
From S2P Require Import HeapOps.
From S2P Require Import HeapView.
From S2P Require Import HeapCopy.
From S2P Require Import HeapWrites.

Section Boxes.
Context {host : Host} {allocator : Allocator}.

(** ** Allocation, cells and payload reads *)

Lemma map_own_spec vs : forall h E R,
  Inv h E (refs_all vs ++ R) ->
  let r := map_heap own vs h in Inv r.1 E (refs_all r.2 ++ R) /\ sees_same h r.1 R.
Proof.
  induction vs as [|v vs IH]; intros h E R Hinv; [split; [done|by intros w t]|].
  rewrite refs_all_cons, <- (assoc_L (++)) in Hinv. cbn.
  destruct (own v h) as [h1 v1] eqn:Hown.
  destruct (own_spec _ _ _ _ _ _ Hinv Hown) as (Hinv1 & _ & Hsee1 & _).
  destruct (IH h1 E (refs v1 ++ R)) as [Hinv2 Hsee2].
  { eapply Inv_perm; [|exact Hinv1]. intros r. rewrite !occ_app. lia. }
  destruct (map_heap own vs h1) as [h2 ws]. cbn in *. split.
  - rewrite refs_all_cons. eapply Inv_perm; [|exact Hinv2]. intros r. rewrite !occ_app. lia.
  - eapply sees_trans; (eapply sees_weaken; [|done]); intros r Hr; apply elem_of_app; by right.
Qed.

Lemma own_all_spec vs h E R :
  Inv h E (refs_all vs ++ R) ->
  let r := own_all vs h in Inv r.1 E (refs_all r.2 ++ R) /\ sees_same h r.1 R.
Proof.
  intros Hinv. cbn zeta. unfold own_all. destruct (existsb _ vs); [by apply map_own_spec|].
  split; [done|by intros w t].
Qed.

Lemma alloc_struct_spec vs h E R h' id :
  Inv h E (refs_all vs ++ R) -> alloc_struct vs h = (h', id) ->
  Inv h' E (R_Slot K_Struct id :: R) /\ sees_same h h' R /\ exists p, slot h' id = Some (O_Struct p).
Proof.
  intros Hinv Ha. unfold alloc_struct in Ha. destruct (own_all_spec vs h E R Hinv) as [Hinv1 Hsee1].
  destruct (own_all vs h) as [h1 ws]. cbn in Hinv1, Hsee1.
  pose proof (new_struct_spec h1 E R ws Hinv1) as Hn. rewrite Ha in Hn. destruct Hn as (? & Hg & ?).
  split_and!; [done| |done]. eapply sees_trans; [done|by apply grows_sees].
Qed.

Lemma alloc_struct_dropping_spec vs glue h E R h' id :
  Inv h E (refs_all vs ++ R) -> alloc_struct_dropping vs glue h = (h', id) ->
  Inv h' E (R_Slot K_Struct id :: R) /\ sees_same h h' R.
Proof.
  intros Hinv Ha. unfold alloc_struct_dropping in Ha. destruct (alloc_struct vs h) as [h1 i] eqn:Hs.
  destruct (alloc_struct_spec _ _ _ _ _ _ Hinv Hs) as (Hinv1 & Hsee & p & Hp). simplify_eq. split.
  - by eapply glue_insert_Inv.
  - eapply sees_trans; [exact Hsee|apply grows_sees, with_glue_grows].
Qed.

Lemma alloc_array_spec vs h E R h' id :
  Inv h E (refs_all vs ++ R) -> alloc_array vs h = (h', id) ->
  Inv h' E (R_Slot K_Array id :: R) /\ sees_same h h' R.
Proof.
  intros Hinv Ha. unfold alloc_array in Ha. destruct (own_all_spec vs h E R Hinv) as [Hinv1 Hsee1].
  destruct (own_all vs h) as [h1 ws]. cbn in Hinv1, Hsee1.
  pose proof (new_array_spec h1 E R ws Hinv1) as Hn. rewrite Ha in Hn. destruct Hn as (? & Hg).
  split; [done|]. eapply sees_trans; [done|by apply grows_sees].
Qed.

(** A value taken over and boxed. *)
Lemma own_box_spec v h E R h1 v1 o h' id :
  Inv h E (refs v ++ R) -> own v h = (h1, v1) -> out o = refs v1 -> holders o = 1%nat ->
  object_ok E o -> alloc_object o h1 = (h', id) ->
  Inv h' E (R_Slot (kind_of o) id :: R) /\ sees_same h h' R.
Proof.
  intros Hinv Hown Ho Hh Hok Ha. destruct (own_spec _ _ _ _ _ _ Hinv Hown) as (Hinv1 & _ & Hsee1 & _).
  destruct (box_spec _ _ _ _ _ _ _ Hinv1 Ho Hh Hok Ha) as [Hinv2 Hg].
  split; [done|]. eapply sees_trans; [done|by apply grows_sees].
Qed.

Lemma alloc_enum_spec tag payload h E R h' id :
  Inv h E (refs_all (option_list payload) ++ R) -> alloc_enum tag payload h = (h', id) ->
  Inv h' E (R_Slot K_Enum id :: R) /\ sees_same h h' R.
Proof.
  intros Hinv Ha. unfold alloc_enum in Ha. destruct payload as [v|].
  - destruct (own v h) as [h1 v1] eqn:Hown. cbn in Hinv. rewrite refs_all_cons, app_nil_r in Hinv.
    by eapply (own_box_spec v h E R h1 v1 (O_Enum tag (Some v1) 1)).
  - destruct (box_spec h E R V_Void (O_Enum tag None 1) h' id Hinv) as [? Hg]; try done.
    split; [done|by apply grows_sees].
Qed.

Lemma alloc_erased_spec type_id v h E R h' id :
  Inv h E (refs v ++ R) -> alloc_erased type_id v h = (h', id) ->
  Inv h' E (R_Slot K_Erased id :: R) /\ sees_same h h' R.
Proof.
  intros Hinv Ha. unfold alloc_erased in Ha. destruct (own v h) as [h1 v1] eqn:Hown.
  by eapply (own_box_spec v h E R h1 v1 (O_Erased type_id v1 1)).
Qed.

Lemma alloc_cell_spec v h E R h' id :
  Inv h E (refs v ++ R) -> alloc_cell v h = (h', id) ->
  Inv h' E (R_Slot K_Cell id :: R) /\ sees_same h h' R.
Proof.
  intros Hinv Ha. unfold alloc_cell in Ha. destruct (own v h) as [h1 v1] eqn:Hown.
  by eapply (own_box_spec v h E R h1 v1 (O_Cell v1 1)).
Qed.

Lemma read_state_node_spec node h E R h' v :
  Inv h E R -> node_ok E node -> read_state_node node h = (h', v) ->
  Inv h' E (refs v ++ R) /\ sees_same h h' R.
Proof.
  intros Hinv Hok Hr.
  assert (forall h' v, from_native_state node h = (h', v) -> Inv h' E (refs v ++ R) /\ sees_same h h' R)
    as Hbuild.
  { intros h2 w Hb. pose proof (from_native_state_spec node h E R Hok Hinv) as [Hi Hg].
    rewrite Hb in Hi, Hg. split; [done|by apply grows_sees]. }
  assert (forall h' v, (let '(h, id) := alloc_object (O_Snapshot node 1) h in (h, V_NativeSnapshot id)) = (h', v) ->
    Inv h' E (refs v ++ R) /\ sees_same h h' R) as Hsnap.
  { intros h2 w Hb. destruct (alloc_object (O_Snapshot node 1) h) as [h3 id] eqn:Ha. simplify_eq.
    destruct (box_spec h E R V_Void (O_Snapshot node 1) h2 id Hinv) as [? Hg]; try done.
    split; [done|by apply grows_sees]. }
  unfold read_state_node in Hr. destruct node; first [by apply Hsnap|by apply Hbuild].
Qed.

(** A payload read is an owned copy; the box keeps its own. *)
Lemma copied_spec payload h E R h' r :
  Inv h E R -> (forall v, payload = Some v -> live_value h v) -> copied payload h = (h', r) ->
  Inv h' E (refs_all (option_list r) ++ R) /\ grows h h' /\
  forall v t, payload = Some v -> denotes h v t -> exists w, r = Some w /\ denotes h' w t.
Proof.
  intros Hinv Hl Hc. unfold copied in Hc. destruct payload as [v|]; [|by simplify_eq].
  destruct (copy_value v h) as [h1 w] eqn:Hcp. simplify_eq.
  destruct (copy_value_spec _ _ _ _ _ _ Hinv (Hl v eq_refl) Hcp) as [Hinv1 Hg]. split_and!; [|done|].
  - cbn. by rewrite refs_all_cons, app_nil_r.
  - intros v' t [= <-] [f Hv]. exists w. split; [done|]. exists f.
    exact (copy_value_view h E R v h' w f t Hinv (Hl v eq_refl) Hcp Hv).
Qed.

Lemma cell_get_spec id h E R h' r :
  Inv h E R -> cell_get id h = (h', r) -> Inv h' E (refs_all (option_list r) ++ R) /\ grows h h'.
Proof.
  intros Hinv Hc. unfold cell_get in Hc.
  pose proof (fun Hl => copied_spec _ h E R h' r Hinv Hl Hc) as Hcp.
  destruct Hcp as (? & ? & _); [|done].
  intros v Hv. destruct (slot h id) as [[]|] eqn:Hi; simplify_eq.
  intros r' Hr. by eapply (stored_slot_out h E R id).
Qed.

Lemma enum_payload_spec id h E R h' r :
  Inv h E R -> enum_payload id h = (h', r) -> Inv h' E (refs_all (option_list r) ++ R) /\ grows h h'.
Proof.
  intros Hinv Hc. unfold enum_payload in Hc.
  pose proof (fun Hl => copied_spec _ h E R h' r Hinv Hl Hc) as Hcp.
  destruct Hcp as (? & ? & _); [|done].
  intros v Hv. destruct (slot h id) as [[]|] eqn:Hi; simplify_eq.
  intros r' Hr. by eapply (stored_slot_out h E R id).
Qed.

Lemma erased_payload_spec id h E R h' r :
  Inv h E R -> erased_payload id h = (h', r) -> Inv h' E (refs_all (option_list r) ++ R) /\ grows h h'.
Proof.
  intros Hinv Hc. unfold erased_payload in Hc.
  pose proof (fun Hl => copied_spec _ h E R h' r Hinv Hl Hc) as Hcp.
  destruct Hcp as (? & ? & _); [|done].
  intros v Hv. destruct (slot h id) as [[]|] eqn:Hi; simplify_eq.
  intros r' Hr. by eapply (stored_slot_out h E R id).
Qed.

(** A write through a cell consumes the value on every path out. *)
Lemma cell_set_spec id v h E R h' ok :
  Inv h E (refs v ++ R_Slot K_Cell id :: R) -> cell_set id v h = (h', ok) ->
  Inv h' E (R_Slot K_Cell id :: R) /\ (ok = true <-> v <> V_Cell id).
Proof.
  intros Hinv Hset. unfold cell_set in Hset.
  assert (Inv h E (R_Slot K_Cell id :: refs v ++ R)) as Hinv0.
  { eapply Inv_perm; [|exact Hinv]. intros r. rewrite occ_cons, !occ_app, occ_cons. lia. }
  destruct (live_ref _ _ _ _ _ Hinv0) as (o & Hid & Hk). destruct o; try done.
  rewrite Hid in Hset. cbn [is_cell negb] in Hset. rewrite orb_false_r in Hset.
  destruct (match v with V_Cell self_id => bool_decide (self_id = id) | _ => false end) eqn:Hself.
  - destruct v; try done. apply bool_decide_eq_true_1 in Hself as ->. simplify_eq.
    destruct (drop_value_spec _ _ _ _ Hinv) as [? _]. split; [done|by split].
  - assert (v <> V_Cell id) as Hne.
    { intros ->. by rewrite bool_decide_eq_true_2 in Hself. }
    destruct (own v h) as [h1 v1] eqn:Hown.
    destruct (own_spec _ _ _ _ _ _ Hinv Hown) as (Hinv1 & _).
    assert (Inv h1 E (R_Slot K_Cell id :: refs v1 ++ R)) as Hinv1'.
    { eapply Inv_perm; [|exact Hinv1]. intros r. rewrite occ_cons, !occ_app, occ_cons. lia. }
    destruct (live_ref _ _ _ _ _ Hinv1') as (o & Hid1 & Hk1). destruct o as [| | | | |prev n| |]; try done.
    rewrite Hid1 in Hset. simplify_eq. split; [|by split].
    pose proof (inv_holders _ _ _ Hinv1 _ _ Hid1).
    apply drop_value_spec. eapply put_slot_Inv; [exact Hinv1|exact Hid1|done|done|done|]. intros r.
    cbn [out holders]. rewrite !occ_app. lia.
Qed.
End Boxes.
