(* ===== verification/HeapGlue.v ===== *)
(** The bodies a heap can ask for: every [Drop] body named by a live object, by a
    parked one or inside a deferred read of callback state satisfies a predicate
    [P], and no operation of the heap brings in another. *)

From stdpp Require Import gmap.
From S2P Require Import Prelude.
From S2P Require Import AbiOps.
From S2P Require Import Foreign.
From S2P Require Import NativeState.
From S2P Require Import Heap.
From S2P Require Import HeapOwnership.
From S2P Require Import HeapOps.

Section Glue.
Context {host : Host} {allocator : Allocator}.
Context (P : Z -> Prop).

(** The bodies named in a stored tree. *)
Fixpoint node_glued (node : NativeStateValue) : Prop :=
  match node with
  | NS_DropStruct glue fields => P glue /\ all_of node_glued fields
  | NS_Struct fields | NS_Array fields => all_of node_glued fields
  | NS_Any _ payload => node_glued payload
  | NS_Enum _ payload => match payload with Some payload => node_glued payload | None => True end
  | _ => True
  end.

Definition object_glued (o : Object) : Prop :=
  match o with O_Snapshot node _ => node_glued node | _ => True end.

Definition slot_glued (o : option Object) : Prop := match o with Some o => object_glued o | None => True end.

Record glued (h : Heap) : Prop := {
  glued_live : map_Forall (fun _ glue => P glue) (drop_glue h);
  glued_parked : Forall (fun pd => P (pd_glue pd)) (pending_drops h);
  glued_slots : Forall slot_glued (slots h)
}.

Lemma glued_new : glued heap_new.
Proof. split; [apply map_Forall_empty|constructor..]. Qed.

Lemma glued_slot h i o : glued h -> slot h i = Some o -> object_glued o.
Proof.
  intros [_ _ Hs] Hi. unfold slot in Hi. destruct (slots h !! i) as [x|] eqn:Hx; [|done].
  cbn in Hi. subst x. exact (Forall_lookup_1 _ _ _ _ Hs Hx).
Qed.

Lemma snapshot_glued h i node : glued h -> snapshot_node h i = Some node -> node_glued node.
Proof.
  intros Hg Hn. unfold snapshot_node in Hn. destruct (slot h i) as [o|] eqn:Ho; [|done].
  pose proof (glued_slot _ _ _ Hg Ho). by destruct o; simplify_eq.
Qed.

(** ** The elementary writes *)

Lemma glued_same h h' :
  glued h -> drop_glue h' = drop_glue h -> pending_drops h' = pending_drops h -> slots h' = slots h ->
  glued h'.
Proof. intros [] Hg Hp Hs. split; by rewrite ?Hg, ?Hp, ?Hs. Qed.

Lemma glued_put i o h : object_glued o -> glued h -> glued (put_slot i o h).
Proof. intros Ho []. split; [done..|]. cbn. apply Forall_insert; done. Qed.

Lemma glued_vacate i h : glued h -> glued (vacate i h).
Proof. intros []. split; [done..|]. cbn. apply Forall_insert; done. Qed.

Lemma glued_alloc o h : object_glued o -> glued h -> glued (alloc_object o h).1.
Proof.
  intros Ho []. unfold alloc_object. destruct (free_list h); (split; [done..|]); cbn.
  - apply Forall_app. by repeat constructor.
  - apply Forall_insert; done.
Qed.

Lemma glued_attach i glue h : P glue -> glued h -> glued (with_glue (<[i := glue]> (drop_glue h)) h).
Proof. intros Hg []. split; [|done..]. apply map_Forall_insert_2; done. Qed.

Lemma glued_delete i h : glued h -> glued (with_glue (delete i (drop_glue h)) h).
Proof. intros []. split; [|done..]. apply map_Forall_delete; done. Qed.

Lemma glue_of_glued h i glue : glued h -> glue_of h i = Some glue -> P glue.
Proof. intros [Hl _ _] Hg. unfold glue_of in Hg. case_decide; [done|]. exact (Hl _ _ Hg). Qed.

Lemma glued_rc_drop p h : glued h -> glued (rc_drop p h).
Proof. intros Hg. unfold rc_drop. destruct (block h p); [eapply glued_same; [exact Hg|done..]|done]. Qed.
Lemma glued_rc_clone p h : glued h -> glued (rc_clone p h).
Proof. intros Hg. unfold rc_clone. destruct (block h p); [eapply glued_same; [exact Hg|done..]|done]. Qed.
Lemma glued_rc_new vs h : glued h -> glued (rc_new vs h).1.
Proof. intros Hg. eapply glued_same; [exact Hg|done..]. Qed.
Lemma glued_put_items p vs h : glued h -> glued (put_items p vs h).
Proof. intros Hg. unfold put_items. destruct (block h p); [eapply glued_same; [exact Hg|done..]|done]. Qed.
Lemma glued_make_mut p h : glued h -> glued (rc_make_mut p h).1.
Proof.
  intros Hg. unfold rc_make_mut. case_decide; [done|]. destruct (rc_new _ h) as [h1 q] eqn:Hn. cbn.
  apply glued_rc_drop. change h1 with (h1, q).1. rewrite <- Hn. by apply glued_rc_new.
Qed.

(** One holder more or less of a counted object. *)
Lemma glued_add_share i h : glued h -> glued (add_share i h).
Proof.
  intros Hg. unfold add_share. destruct (slot h i) as [o|] eqn:Ho; [|done].
  pose proof (glued_slot _ _ _ Hg Ho). destruct o; try done; by apply glued_put.
Qed.

Lemma glued_drop_share i h : glued h -> glued (drop_share i h).
Proof.
  intros Hg. unfold drop_share. destruct (slot h i) as [o|] eqn:Ho; [|done].
  pose proof (glued_slot _ _ _ Hg Ho). destruct o; try done; by apply glued_put.
Qed.

Lemma glued_map_heap {A B} (f : A -> Heap -> Heap * B) l :
  Forall (fun a => forall h, glued h -> glued (f a h).1) l ->
  forall h, glued h -> glued (map_heap f l h).1.
Proof.
  induction 1 as [|a l Ha Hl IH]; intros h Hg; [done|]. cbn.
  specialize (Ha h Hg). destruct (f a h) as [h1 b]. specialize (IH h1 Ha).
  by destruct (map_heap f l h1).
Qed.

(** ** C blocks *)

Lemma glued_cblock_bytes bytes h : glued h -> glued (cblock_bytes bytes h).1.
Proof. by apply glued_alloc. Qed.

Lemma glued_cblock_attach parent offset width child h :
  glued h -> glued (cblock_attach parent offset width child h).1.
Proof.
  intros Hg. unfold cblock_attach. destruct (usize_try_from offset); [|done].
  case_decide; [done|]. destruct (slot h parent) as [[]|]; try done.
  case_decide; [|done]. by apply glued_put.
Qed.

Lemma glued_attach_copies copy_child kids :
  (forall id h, glued h -> glued (copy_child id h).1) ->
  forall copy h, glued h -> glued (attach_copies copy_child kids copy h).
Proof.
  intros Hc. induction kids as [|c kids IH]; intros copy h Hg; [done|]. cbn.
  pose proof (Hc (vc_block c) h Hg) as H1. destruct (copy_child (vc_block c) h) as [h1 k]. cbn in H1.
  pose proof (glued_cblock_attach copy (vc_offset c) (vc_width c) k h1 H1) as H2.
  destruct (cblock_attach _ _ _ _ h1) as [h2 b]. by apply IH.
Qed.

Lemma glued_copy_cblock_fuel fuel : forall id h, glued h -> glued (copy_cblock_fuel fuel id h).1.
Proof.
  induction fuel as [|fuel IH]; intros id h Hg; cbn [copy_cblock_fuel];
    (destruct (match slot h id with Some (O_CBlock _ b k) => (b, k) | _ => ([], []) end) as [bytes kids]);
    pose proof (glued_cblock_bytes bytes h Hg) as H1; destruct (cblock_bytes bytes h) as [h1 copy]; [done|].
  by apply glued_attach_copies.
Qed.

Lemma glued_copy_native_cblock b : forall h, glued h -> glued (copy_native_cblock b h).1.
Proof.
  induction b as [bytes kids IH] using cblock_ind. intros h Hg. cbn [copy_native_cblock].
  pose proof (glued_cblock_bytes bytes h Hg) as H1. destruct (cblock_bytes bytes h) as [h1 root]. cbn in H1.
  revert h1 H1. induction IH as [|[offset width nested] kids Hn _ IHk]; intros h1 H1; [done|].
  cbn in Hn. specialize (Hn h1 H1). destruct (copy_native_cblock nested h1) as [h2 child]. cbn in Hn.
  pose proof (glued_cblock_attach root offset width child h2 Hn) as H3.
  destruct (cblock_attach root offset width child h2) as [h3 done_]. by apply IHk.
Qed.

(** ** Copies and releases *)

Lemma glued_copy_value v h : glued h -> glued (copy_value v h).1.
Proof.
  intros Hg. destruct v; cbn [copy_value]; try done;
    try (case_match; [by apply glued_add_share|done]).
  - pose proof (glued_alloc (O_Str match slot h id with Some (O_Str text) => text | _ => [] end) h I Hg) as H1.
    by destruct (alloc_object _ h).
  - set (shared := match slot h id with Some (O_Struct p) => (rc_clone p h, p) | _ => rc_new [] h end).
    assert (glued shared.1) as H1
      by (subst shared; repeat case_match; try (by apply glued_rc_clone); by apply glued_rc_new).
    destruct shared as [h1 p]. cbn in H1.
    pose proof (glued_alloc (O_Struct p) h1 I H1) as H2. destruct (alloc_object _ h1) as [h2 copy]. cbn in H2 |- *.
    destruct (glue_of h2 id) as [glue|] eqn:Hgl; [|done]. cbn. apply glued_attach; [|done].
    by eapply glue_of_glued.
  - set (shared := match slot h id with Some (O_Array p) => (rc_clone p h, p) | _ => rc_new [] h end).
    assert (glued shared.1) as H1
      by (subst shared; repeat case_match; try (by apply glued_rc_clone); by apply glued_rc_new).
    destruct shared as [h1 p]. cbn in H1.
    pose proof (glued_alloc (O_Array p) h1 I H1) as H2. by destruct (alloc_object _ h1).
  - eapply glued_same; [exact Hg|done..].
  - pose proof (glued_copy_cblock_fuel (length (slots h)) id h Hg) as H1. unfold copy_cblock.
    by destruct (copy_cblock_fuel _ id h).
Qed.

Lemma glued_drop_all drop vs :
  (forall v h, glued h -> glued (drop v h)) -> forall h, glued h -> glued (drop_all drop vs h).
Proof. intros Hd. induction vs as [|v vs IH]; intros h Hg; [done|]. cbn. by apply IH, Hd. Qed.

Lemma glued_free_snapshot id h : glued h -> glued (free_snapshot id h).
Proof.
  intros Hg. unfold free_snapshot. destruct (slot h id) as [[]|]; try done.
  case_decide; [by apply glued_drop_share|by apply glued_vacate].
Qed.

Lemma glued_free_struct drop id h :
  (forall v h, glued h -> glued (drop v h)) -> glued h -> glued (free_struct_at drop id h).
Proof.
  intros Hd Hg. unfold free_struct_at.
  assert (glued (match slot h id with
    | Some (O_Struct p) =>
      let h := vacate id h in
      let h := if decide (drop_glue h = ∅) then h else with_glue (delete id (drop_glue h)) h in
      let '(h, unwrapped) := rc_try_unwrap p h in
      match unwrapped with Some fields => drop_all drop (rev fields) h | None => h end
    | _ => h end)) as Hfree.
  { destruct (slot h id) as [[]|]; try done. pose proof (glued_vacate id h Hg) as H1.
    cbn zeta. case_decide; unfold rc_try_unwrap; case_decide;
      repeat first [apply glued_drop_all; [done|] | apply glued_rc_drop | apply glued_delete]; done. }
  destruct (glue_of h id) as [glue|] eqn:Hgl; [|done].
  destruct (last_holder_of h id); [|done]. destruct Hg as [Hl Hp Hs]. split; [done| |done].
  constructor; [|done]. eapply glue_of_glued; [|exact Hgl]. by split.
Qed.

Lemma glued_drop_fuel fuel : forall v h, glued h -> glued (drop_value_fuel fuel v h).
Proof.
  induction fuel as [|fuel IH]; intros v h Hg; [done|]. destruct v; cbn [drop_value_fuel]; try done.
  - unfold free_str_at. destruct (slot h id) as [[]|]; try done. by apply glued_vacate.
  - by apply glued_free_struct.
  - unfold free_array_at. destruct (slot h id) as [[]|]; try done. unfold rc_try_unwrap.
    case_decide; [apply glued_drop_all; [done|]|]; by apply glued_rc_drop, glued_vacate.
  - unfold free_enum_at. destruct (slot h id) as [[]|]; try done.
    case_decide; [by apply glued_drop_share|]. case_match; [apply IH|]; by apply glued_vacate.
  - unfold free_erased_at. destruct (slot h id) as [[]|]; try done.
    case_decide; [by apply glued_drop_share|]. by apply IH, glued_vacate.
  - unfold free_cell_at. destruct (slot h id) as [[]|]; try done.
    case_decide; [by apply glued_drop_share|]. by apply IH, glued_vacate.
  - eapply glued_same; [exact Hg|done..].
  - by apply glued_free_snapshot.
  - unfold free_cblock_at. destruct (slot h id) as [[]|]; try done.
    apply glued_drop_all; [done|]. by apply glued_vacate.
Qed.

Lemma glued_drop v h : glued h -> glued (drop_value v h).
Proof. apply glued_drop_fuel. Qed.

Lemma glued_discard vs h : glued h -> glued (drop_all drop_value vs h).
Proof. apply glued_drop_all. intros v h'. apply glued_drop. Qed.

Lemma glued_take_pending h : glued h ->
  glued (take_pending_drop h).1 /\ (forall pd, (take_pending_drop h).2 = Some pd -> P (pd_glue pd)).
Proof.
  intros Hg. unfold take_pending_drop. destruct (pending_drops h) as [|pd rest] eqn:Hr; [by split|].
  destruct Hg as [Hl Hp Hs]. rewrite Hr in Hp. apply Forall_cons in Hp as [Hpd Hrest]. split; [by split|]. intros pd' H. by simplify_eq/=.
Qed.

Lemma glued_finish_pending id h : glued h -> glued (finish_pending_drop id h).
Proof. intros Hg. unfold finish_pending_drop, free_struct. by apply glued_drop, glued_delete. Qed.

Lemma glued_abandon h : glued h -> glued (abandon_pending_drops h).
Proof.
  unfold abandon_pending_drops. generalize (S (length (slots h))). intros fuel. revert h.
  induction fuel as [|fuel IH]; intros h Hg; [done|]. cbn.
  pose proof (glued_take_pending h Hg) as [H1 _]. destruct (take_pending_drop h) as [h1 [pd|]]; [|done].
  by apply IH, glued_finish_pending.
Qed.

Lemma glued_drain h : glued h -> glued (drain_released_cells h).
Proof.
  intros Hg. unfold drain_released_cells.
  assert (glued (with_registry [] (retained h) h)) as H1 by (eapply glued_same; [exact Hg|done..]).
  revert H1. generalize (with_registry [] (retained h) h). induction (released_cells h) as [|c cs IH];
    intros h1 H1; [done|]. cbn. apply IH, (glued_drop (V_Cell c)), H1.
Qed.

Lemma glued_free_str i h : glued h -> glued (free_str_at i h).
Proof.
  intros Hg. unfold free_str_at. destruct (slot h i) as [[]|]; try done. by apply glued_vacate.
Qed.

Lemma glued_alloc_str text h : glued h -> glued (alloc text h).1.
Proof. by apply glued_alloc. Qed.

(** One string a piece. *)
Lemma glued_alloc_strs (texts : list rstring) h :
  glued h -> glued (map_heap (fun text h => let '(h, id) := alloc text h in (h, V_Str id)) texts h).1.
Proof.
  intros Hg. apply glued_map_heap; [|done]. apply Forall_true. intros text h' Hg'.
  pose proof (glued_alloc_str text h' Hg'). by destruct (alloc text h').
Qed.

(** ** Building from stored trees *)

Lemma glued_new_struct vs h : glued h -> glued (new_struct vs h).1.
Proof. intros Hg. unfold new_struct, rc_new. apply glued_alloc; [done|]. by apply glued_rc_new. Qed.
Lemma glued_new_array vs h : glued h -> glued (new_array vs h).1.
Proof. intros Hg. unfold new_array, rc_new. apply glued_alloc; [done|]. by apply glued_rc_new. Qed.

Lemma glued_children l h :
  Forall (fun node => node_glued node -> forall h, glued h -> glued (from_native_state node h).1) l ->
  all_of node_glued l -> glued h -> glued (map_heap from_native_state l h).1.
Proof.
  intros IH Hn%all_of_Forall Hg. apply glued_map_heap; [|done].
  induction IH; [done|]. inversion Hn; subst. constructor; auto.
Qed.

Lemma glued_from_native_state node : node_glued node ->
  forall h, glued h -> glued (from_native_state node h).1.
Proof.
  revert node.
  refine (native_state_ind (fun node => node_glued node -> forall h, glued h -> glued (from_native_state node h).1)
    _ _ _ _ _ _);
  [intros node|intros fs IH Hn h Hg|intros glue fs IH Hn h Hg|intros es IH Hn h Hg
  |intros type_id payload IH Hn h Hg|intros tag payload IH Hn h Hg].
  { destruct node as [| | | | | | | | |cell| |tag payload|owner|block];
      try (by intros ? h Hg); try (destruct payload; [done|]); try done; intros Hn h Hg; cbn [from_native_state].
    - pose proof (glued_alloc (O_Str text) h I Hg). unfold alloc. by destruct (alloc_object _ h).
    - case_match; [|done]. by apply glued_copy_value.
    - pose proof (glued_alloc (O_Enum tag None 1) h I Hg). by destruct (alloc_object _ h).
    - eapply glued_same; [exact Hg|done..].
    - pose proof (glued_copy_native_cblock block h Hg). by destruct (copy_native_cblock block h).
  }
  - cbn [from_native_state].
    pose proof (glued_children fs h IH Hn Hg) as H1.
    destruct (map_heap from_native_state fs h) as [h1 vs]. pose proof (glued_new_struct vs h1 H1).
    by destruct (new_struct vs h1).
  - cbn [from_native_state]. destruct Hn as [HP Hn].
    pose proof (glued_children fs h IH Hn Hg) as H1.
    destruct (map_heap from_native_state fs h) as [h1 vs]. pose proof (glued_new_struct vs h1 H1).
    destruct (new_struct vs h1). by apply glued_attach.
  - cbn [from_native_state].
    pose proof (glued_children es h IH Hn Hg) as H1.
    destruct (map_heap from_native_state es h) as [h1 vs]. pose proof (glued_new_array vs h1 H1).
    by destruct (new_array vs h1).
  - cbn [from_native_state]. specialize (IH Hn h Hg). destruct (from_native_state payload h) as [h1 v].
    pose proof (glued_alloc (O_Erased type_id v 1) h1 I IH). by destruct (alloc_object _ h1).
  - cbn [from_native_state]. specialize (IH Hn h Hg). destruct (from_native_state payload h) as [h1 v].
    pose proof (glued_alloc (O_Enum tag (Some v) 1) h1 I IH). by destruct (alloc_object _ h1).
Qed.

Lemma glued_read_state_node node h : node_glued node -> glued h -> glued (read_state_node node h).1.
Proof.
  intros Hn Hg.
  assert (glued (let '(h, id) := alloc_object (O_Snapshot node 1) h in (h, V_NativeSnapshot id)).1) as H1
    by (pose proof (glued_alloc (O_Snapshot node 1) h Hn Hg); by destruct (alloc_object _ h)).
  destruct node; try exact H1; by apply glued_from_native_state.
Qed.

Lemma glued_own v h : glued h -> glued (own v h).1.
Proof.
  intros Hg. destruct v; try done. cbn [own]. destruct (snapshot_node h id) as [node|] eqn:Hn.
  - pose proof (glued_from_native_state node (snapshot_glued _ _ _ Hg Hn) h Hg).
    destruct (from_native_state node h). by apply glued_free_snapshot.
  - by apply glued_free_snapshot.
Qed.

Lemma glued_own_all vs h : glued h -> glued (own_all vs h).1.
Proof.
  intros Hg. unfold own_all. case_match; [|done]. apply glued_map_heap; [|done].
  apply Forall_true. intros v h'. apply glued_own.
Qed.

Lemma glued_alloc_struct vs h : glued h -> glued (alloc_struct vs h).1.
Proof.
  intros Hg. unfold alloc_struct. pose proof (glued_own_all vs h Hg).
  destruct (own_all vs h) as [h1 ws]. by apply glued_new_struct.
Qed.
Lemma glued_alloc_array vs h : glued h -> glued (alloc_array vs h).1.
Proof.
  intros Hg. unfold alloc_array. pose proof (glued_own_all vs h Hg).
  destruct (own_all vs h) as [h1 ws]. by apply glued_new_array.
Qed.
Lemma glued_alloc_dropping vs glue h : P glue -> glued h -> glued (alloc_struct_dropping vs glue h).1.
Proof.
  intros HP Hg. unfold alloc_struct_dropping. pose proof (glued_alloc_struct vs h Hg).
  destruct (alloc_struct vs h) as [h1 i]. by apply glued_attach.
Qed.
Lemma glued_alloc_enum tag payload h : glued h -> glued (alloc_enum tag payload h).1.
Proof.
  intros Hg. unfold alloc_enum. destruct payload as [v|]; [|by apply glued_alloc].
  pose proof (glued_own v h Hg). destruct (own v h) as [h1 w]. by apply glued_alloc.
Qed.
Lemma glued_alloc_erased type_id v h : glued h -> glued (alloc_erased type_id v h).1.
Proof.
  intros Hg. unfold alloc_erased. pose proof (glued_own v h Hg). destruct (own v h). by apply glued_alloc.
Qed.
Lemma glued_alloc_cell v h : glued h -> glued (alloc_cell v h).1.
Proof.
  intros Hg. unfold alloc_cell. pose proof (glued_own v h Hg). destruct (own v h). by apply glued_alloc.
Qed.

(** ** Reads and writes *)

Lemma glued_copied payload h : glued h -> glued (copied payload h).1.
Proof.
  intros Hg. destruct payload as [v|]; [|done]. cbn. pose proof (glued_copy_value v h Hg).
  by destruct (copy_value v h).
Qed.

Lemma glued_enum_payload i h : glued h -> glued (enum_payload i h).1.
Proof. apply glued_copied. Qed.
Lemma glued_erased_payload i h : glued h -> glued (erased_payload i h).1.
Proof. apply glued_copied. Qed.
Lemma glued_cell_get i h : glued h -> glued (cell_get i h).1.
Proof. apply glued_copied. Qed.

Lemma glued_make_struct_unique i h : glued h -> glued (make_struct_unique i h).
Proof.
  intros Hg. unfold make_struct_unique. destruct (slot h i) as [[]|]; try done. case_decide; [|done].
  cbn zeta. pose proof (glued_rc_clone fields h Hg) as H1.
  assert (glued (map_heap copy_value (rc_items (rc_clone fields h) fields) (rc_clone fields h)).1) as H2
    by (apply glued_map_heap; [apply Forall_true; intros v h'; apply glued_copy_value|done]).
  destruct (map_heap copy_value _ _) as [h2 copies]. cbn in H2. apply glued_rc_drop.
  destruct (slot h2 i) as [[]|]; try done. apply glued_rc_drop, glued_put; [done|]. by apply glued_rc_new.
Qed.

Lemma glued_make_array_unique i h : glued h -> glued (make_array_unique i h).
Proof.
  intros Hg. unfold make_array_unique. destruct (slot h i) as [[]|]; try done. case_decide; [|done].
  cbn zeta. pose proof (glued_rc_clone elements h Hg) as H1.
  assert (glued (map_heap copy_value (rc_items (rc_clone elements h) elements) (rc_clone elements h)).1) as H2
    by (apply glued_map_heap; [apply Forall_true; intros v h'; apply glued_copy_value|done]).
  destruct (map_heap copy_value _ _) as [h2 copies]. cbn in H2. apply glued_rc_drop.
  destruct (slot h2 i) as [[]|]; try done. apply glued_rc_drop, glued_put; [done|]. by apply glued_rc_new.
Qed.

Lemma glued_cell_set i v h : glued h -> glued (cell_set i v h).1.
Proof.
  intros Hg. unfold cell_set. case_match; [by apply glued_drop|].
  pose proof (glued_own v h Hg). destruct (own v h) as [h1 w]. cbn in *.
  destruct (slot h1 i) as [[]|]; try done. by apply glued_drop, glued_put.
Qed.

Lemma glued_set_field i index v h : glued h -> glued (set_field i index v h).1.
Proof.
  intros Hg. unfold set_field. destruct (field h i index); [|done].
  pose proof (glued_own v h Hg) as H1. destruct (own v h) as [h1 w]. cbn in H1. cbn zeta.
  pose proof (glued_make_struct_unique i h1 H1) as H2.
  destruct (field (make_struct_unique i h1) i index) as [previous|]; [|by apply glued_drop].
  pose proof (glued_drop previous _ H2) as H3.
  repeat case_match; try done. by apply glued_put_items.
Qed.

Lemma glued_set_element i index v h : glued h -> glued (set_element i index v h).1.
Proof.
  intros Hg. unfold set_element. destruct (array_len h i); [|done]. case_decide; [|done].
  pose proof (glued_own v h Hg) as H1. destruct (own v h) as [h1 w]. cbn in H1. cbn zeta.
  pose proof (glued_make_array_unique i h1 H1) as H2.
  destruct (element (make_array_unique i h1) i index) as [previous|]; [|by apply glued_drop].
  pose proof (glued_drop previous _ H2) as H3.
  destruct (slot _ i) as [[]|]; try done. pose proof (glued_make_mut elements _ H3) as H4.
  destruct (rc_make_mut _ _) as [h4 q]. cbn in H4.
  pose proof (glued_put i (O_Array q) h4 I H4). case_decide; [by apply glued_put_items|done].
Qed.

Lemma glued_push_element i v h : glued h -> glued (push_element i v h).1.
Proof.
  intros Hg. unfold push_element. destruct (array_len h i); [|done].
  pose proof (glued_own v h Hg) as H1. destruct (own v h) as [h1 w]. cbn in H1. cbn zeta.
  pose proof (glued_make_array_unique i h1 H1) as H2.
  destruct (slot _ i) as [[]|]; try done. pose proof (glued_make_mut elements _ H2) as H4.
  destruct (rc_make_mut _ _) as [h4 q]. cbn in H4. apply glued_put_items. by apply glued_put.
Qed.
End Glue.
