(* ===== verification/HeapDrops.v ===== *)
(** Releases that are deferred: user [Drop] bodies waiting to run, capture-cell
    shares handed back by callback state, and values kept for foreign code.
    Ends with the leak theorem: when nothing holds a reference from outside and
    the objects left form no cycle, there are none left. *)

From stdpp Require Import gmap.
From S2P Require Import Prelude.
From S2P Require Import Instruction.
From S2P Require Import Foreign.
From S2P Require Import NativeState.
From S2P Require Import Heap.
From S2P Require Import HeapOwnership.
From S2P Require Import HeapOps.
From S2P Require Import HeapView.

Section Drops.
Context {host : Host} {allocator : Allocator}.

(** Nothing waits in the heap's own registries. *)
Definition settled (h : Heap) : Prop :=
  retained h = [] /\ pending_drops h = [] /\ released_cells h = [].

Lemma settled_reserved h : settled h -> reserved h = [].
Proof. intros (H1 & H2 & H3). unfold reserved. by rewrite H1, H2, H3. Qed.

Lemma reserved_with_registry released kept h :
  reserved (with_registry released kept h) =
  refs_all kept ++ ((fun pd => R_Slot K_Struct (pd_id pd)) <$> pending_drops h) ++ (R_Slot K_Cell <$> released).
Proof. done. Qed.

(** ** Values kept for foreign code *)

Lemma retain_for_foreign_spec v h E R :
  Inv h E (refs v ++ R) -> Inv (retain_for_foreign v h) E R.
Proof.
  intros Hinv. destruct v; try done; (eapply registry_Inv; [exact Hinv|done..|]);
    intros r; cbn [retain_for_foreign]; rewrite reserved_with_registry, refs_all_app;
    unfold reserved; rewrite refs_all_cons; change (refs_all []) with (@nil Ref); rewrite !occ_app; cbn; lia.
Qed.

(** ** Capture cells given back *)

Lemma free_cells_spec ids : forall h E R,
  Inv h E ((R_Slot K_Cell <$> ids) ++ R) ->
  let h' := foldl (fun h id => free_cell id h) h ids in Inv h' E R /\ released h h'.
Proof.
  induction ids as [|id ids IH]; intros h E R Hinv; [done|].
  destruct (drop_value_spec (V_Cell id) h E _ Hinv) as [Hinv1 Hrel].
  destruct (IH _ _ _ Hinv1) as [Hinv2 Hrel2]. split; [done|by etrans].
Qed.

Lemma with_registry_released a b h : released h (with_registry a b h).
Proof. by apply same_slots_released. Qed.

Lemma drain_released_cells_spec h E R :
  Inv h E R -> Inv (drain_released_cells h) E R /\ released h (drain_released_cells h).
Proof.
  intros Hinv. unfold drain_released_cells.
  destruct (free_cells_spec (released_cells h) (with_registry [] (retained h) h) E R) as [Hi Hr].
  - eapply registry_Inv; [exact Hinv|done..|]. intros r. rewrite reserved_with_registry.
    unfold reserved. rewrite !occ_app. cbn. lia.
  - split; [done|]. etrans; [apply (with_registry_released [] (retained h))|exact Hr].
Qed.

(** ** User [Drop] bodies *)

Lemma take_pending_drop_spec h E R h' pd :
  Inv h E R -> take_pending_drop h = (h', Some pd) ->
  Inv h' E (R_Slot K_Struct (pd_id pd) :: R) /\ slots h' = slots h /\
  pending_drops h = pd :: pending_drops h' /\ drop_glue h' = drop_glue h.
Proof.
  intros Hinv Ht. unfold take_pending_drop in Ht.
  destruct (pending_drops h) as [|x rest] eqn:Hp; simplify_eq. split_and!; try done.
  eapply registry_Inv; [exact Hinv|done..|]. intros r. unfold reserved.
  cbn [pending_drops with_pending retained released_cells]. rewrite Hp. cbn [fmap list_fmap].
  rewrite occ_cons, !occ_app, occ_cons. lia.
Qed.

Lemma finish_pending_drop_spec id h E R :
  Inv h E (R_Slot K_Struct id :: R) ->
  Inv (finish_pending_drop id h) E R /\ released h (finish_pending_drop id h).
Proof.
  intros Hinv. unfold finish_pending_drop, free_struct.
  destruct (drop_value_spec (V_Struct id) (with_glue (delete id (drop_glue h)) h) E R) as [Hi Hr].
  - by apply glue_delete_Inv.
  - split; [done|]. etrans; [by apply (same_slots_released h (with_glue (delete id (drop_glue h)) h))|exact Hr].
Qed.

(** The object goes: its body has run, so it is not parked again. *)
Lemma finish_pending_drop_frees id h E R :
  Inv h E (R_Slot K_Struct id :: R) ->
  (occupied (finish_pending_drop id h) < occupied h)%nat.
Proof.
  intros Hinv. destruct (live_ref _ _ _ _ _ Hinv) as (o & Hi & Hk). destruct o as [|p| | | | | |]; try done.
  set (hg := with_glue (delete id (drop_glue h)) h).
  assert (Inv hg E (R_Slot K_Struct id :: R)) as Hinvg by (by apply glue_delete_Inv).
  assert (slot hg id = Some (O_Struct p)) as Hig by done.
  unfold finish_pending_drop, free_struct, drop_value. fold hg. cbn [drop_value_fuel].
  unfold free_struct_at. assert (glue_of hg id = None) as ->.
  { unfold glue_of. case_decide; [done|]. apply lookup_delete_eq. }
  rewrite Hig. cbv zeta. rewrite vacate_glue.
  set (hv := with_glue (delete id (drop_glue hg)) hg).
  assert (Inv (vacate id hv) E (R_Block p :: R)) as Hinvv.
  { eapply (vacate_Inv hv E R id (O_Struct p)); try done; [by apply glue_delete_Inv|apply lookup_delete_eq]. }
  pose proof (vacate_occupied hv id (O_Struct p) Hig) as Hocc.
  change (occupied hv) with (occupied h) in Hocc. pose proof (occupied_le h) as Hle.
  change (slots hg) with (slots h).
  pose proof (free_block_spec (drop_value_fuel (length (slots h))) (length (slots h))
    (drop_value_fuel_spec _) (vacate id hv) E R p ltac:(lia) Hinvv) as Hb.
  destruct (rc_try_unwrap p (vacate id hv)) as [h1 u]. destruct Hb as [_ Hrel].
  pose proof (released_occupied _ _ Hrel). destruct u; lia.
Qed.

(** Every parked object goes, with whatever its release parks in turn. *)
Lemma abandon_fuel_spec fuel : forall h E R,
  (occupied h < fuel)%nat -> Inv h E R ->
  let h' := abandon_fuel fuel h in Inv h' E R /\ released h h' /\ pending_drops h' = [].
Proof.
  induction fuel as [|fuel IH]; intros h E R Hf Hinv; [lia|]. cbn [abandon_fuel].
  destruct (take_pending_drop h) as [h1 [pd|]] eqn:Ht.
  - destruct (take_pending_drop_spec _ _ _ _ _ Hinv Ht) as (Hinv1 & Hs & _ & _).
    destruct (finish_pending_drop_spec _ _ _ _ Hinv1) as [Hinv2 Hrel2].
    pose proof (finish_pending_drop_frees _ _ _ _ Hinv1) as Hlt.
    assert (released h h1) as Hrel1.
    { unfold take_pending_drop in Ht. destruct (pending_drops h); simplify_eq. by apply same_slots_released. }
    pose proof (released_occupied _ _ Hrel1).
    destruct (IH (finish_pending_drop (pd_id pd) h1) E R) as (Hinv3 & Hrel3 & Hp3); [lia|done|].
    split_and!; [done| |done]. etrans; [exact Hrel1|]. by etrans.
  - unfold take_pending_drop in Ht. destruct (pending_drops h) eqn:Hp; simplify_eq. done.
Qed.

Lemma abandon_pending_drops_spec h E R :
  Inv h E R ->
  let h' := abandon_pending_drops h in Inv h' E R /\ released h h' /\ pending_drops h' = [].
Proof.
  intros Hinv. apply abandon_fuel_spec; [|done]. pose proof (occupied_le h). lia.
Qed.

(** ** Leaks *)

(** What an object leads to, through its block if it points at one. *)
Definition leads_to (h : Heap) (o : Object) : list Ref :=
  match o with O_Struct p | O_Array p => refs_all (rc_items h p) | _ => out o end.

Definition refers (h : Heap) (o : Object) (i : nat) : Prop := exists k, R_Slot k i ∈ leads_to h o.

(** The objects can be ranked so that references lead down. *)
Definition acyclic (h : Heap) : Prop :=
  exists rank : nat -> nat, forall i j o, slot h i = Some o -> refers h o j -> (rank j < rank i)%nat.

Lemma sum_pos {A} (f : A -> nat) l : (1 <= sum f l)%nat -> exists i x, l !! i = Some x /\ (1 <= f x)%nat.
Proof.
  unfold sum. induction l as [|x l IH]; cbn; intros H; [lia|].
  destruct (decide (1 <= f x)%nat) as [Hx|Hx]; [by exists 0%nat, x|].
  destruct IH as (i & y & Hi & Hy); [lia|]. by exists (S i), y.
Qed.

Lemma refs_slot v r : r ∈ refs v -> exists k i, r = R_Slot k i.
Proof. destruct v; cbn; intros H; try (by apply elem_of_nil in H); apply list_elem_of_singleton in H as ->; eauto. Qed.

Lemma refs_all_slot vs r : r ∈ refs_all vs -> exists k i, r = R_Slot k i.
Proof.
  induction vs as [|v vs IH]; [by intros ?%elem_of_nil|].
  rewrite refs_all_cons, elem_of_app. intros [H|H]; [by eapply refs_slot|by apply IH].
Qed.

(** A reference stored in the heap is stored in an object, or in the block an
    object points at. *)
Lemma stored_in h i k :
  Inv h [] [] -> settled h -> (1 <= total h (R_Slot k i))%nat ->
  exists j o, slot h j = Some o /\ refers h o i.
Proof.
  intros Hinv Hset Ht. unfold total in Ht. rewrite (settled_reserved h Hset) in Ht. cbn [occ] in Ht.
  destruct (decide (1 <= sum (fun o => occ (R_Slot k i) (slot_out o)) (slots h))%nat) as [Hs|Hs].
  - destruct (sum_pos _ _ Hs) as (j & o & Hj & Ho). destruct o as [o|]; [|cbn in Ho; lia].
    exists j, o. split; [by apply slot_Some|]. exists k. apply occ_elem.
    destruct o; cbn in Ho |- *; try done; case_decide; done || lia.
  - destruct (sum_pos (fun b => occ (R_Slot k i) (block_out b)) (blocks h)) as (p & b & Hp & Hb); [lia|].
    destruct b as [b|]; [|cbn in Hb; lia]. apply block_Some in Hp.
    pose proof (inv_count _ _ _ Hinv (R_Block p)) as Hc. cbn [expected occ] in Hc.
    unfold rc_count in Hc. rewrite Hp in Hc. pose proof (inv_strong _ _ _ Hinv _ _ Hp).
    unfold total in Hc. rewrite (settled_reserved h Hset) in Hc. cbn [occ] in Hc.
    destruct (decide (1 <= sum (fun o => occ (R_Block p) (slot_out o)) (slots h))%nat) as [Hs'|Hs'].
    + destruct (sum_pos _ _ Hs') as (j & o & Hj & Ho). destruct o as [o|]; [|cbn in Ho; lia].
      apply occ_elem in Ho. cbn in Ho. exists j, o. split; [by apply slot_Some|]. exists k.
      assert (R_Slot k i ∈ refs_all (items b)) as Hin by (by apply occ_elem).
      assert (forall v, R_Block p ∈ refs v -> False) as Hno.
      { intros v Hv. destruct (refs_slot _ _ Hv) as (? & ? & ?). done. }
      destruct o; cbn in Ho |- *; try (by apply elem_of_nil in Ho); try (by destruct (Hno _ Ho)).
      * apply list_elem_of_singleton in Ho. simplify_eq. unfold rc_items. by rewrite Hp.
      * apply list_elem_of_singleton in Ho. simplify_eq. unfold rc_items. by rewrite Hp.
      * destruct payload; [by destruct (Hno _ Ho)|by apply elem_of_nil in Ho].
      * apply list_elem_of_fmap in Ho as (? & ? & _). done.
    + destruct (sum_pos (fun b => occ (R_Block p) (block_out b)) (blocks h)) as (q & c & _ & Hc'); [lia|].
      destruct c as [c|]; [|cbn in Hc'; lia]. apply occ_elem in Hc'. cbn in Hc'.
      destruct (refs_all_slot _ _ Hc') as (? & ? & ?). done.
Qed.

(** Every live object is referred to by another one. *)
Lemma referred h i o :
  Inv h [] [] -> settled h -> slot h i = Some o -> exists j o', slot h j = Some o' /\ refers h o' i.
Proof.
  intros Hinv Hset Hi. apply (stored_in h i (kind_of o) Hinv Hset).
  pose proof (inv_count _ _ _ Hinv (R_Slot (kind_of o) i)) as Hc. cbn [expected occ] in Hc.
  rewrite Hi, decide_True in Hc by done. pose proof (inv_holders _ _ _ Hinv _ _ Hi). lia.
Qed.

(** No leak: once nothing outside holds a reference and no work is deferred,
    objects that form no cycle have all been freed, so the counters agree and
    every slot is on the free list. *)
Lemma no_leak h :
  Inv h [] [] -> settled h -> acyclic h ->
  (forall i, slot h i = None) /\ allocated h = freed h /\
  (forall i, (i < length (slots h))%nat -> i ∈ free_list h).
Proof.
  intros Hinv Hset [rank Hrank].
  assert (forall i, slot h i = None) as Hempty.
  { set (M := max_list (rank <$> seq 0 (length (slots h)))).
    assert (forall i o, slot h i = Some o -> (rank i <= M)%nat) as Hbound.
    { intros i o Hi%slot_Some%lookup_lt_Some. apply max_list_elem_of_le, list_elem_of_fmap.
      exists i. split; [done|]. apply elem_of_seq. lia. }
    assert (forall n i o, (M < rank i + n)%nat -> slot h i = Some o -> False) as Hnone.
    { induction n as [|n IH]; intros i o Hn Hi; [pose proof (Hbound _ _ Hi); lia|].
      destruct (referred h i o Hinv Hset Hi) as (j & o' & Hj & Hr).
      pose proof (Hrank _ _ _ Hj Hr). eapply (IH j); [lia|done]. }
    intros i. destruct (slot h i) as [o|] eqn:Hi; [|done].
    exfalso. eapply (Hnone (S M) i o); [lia|done]. }
  assert (forall i, (i < length (slots h))%nat -> slots h !! i = Some None) as Hnone.
  { intros i Hi. destruct (lookup_lt_is_Some_2 _ _ Hi) as [[o|] Ho]; [|done].
    apply slot_Some in Ho. by rewrite Hempty in Ho. }
  split_and!; [done| |].
  - rewrite (inv_accounts _ _ _ Hinv). cut (occupied h = 0)%nat; [lia|].
    destruct (decide (occupied h = 0)%nat) as [|H0]; [done|]. exfalso.
    destruct (sum_pos occupied_slot (slots h)) as (i & x & Hx & Ho); [unfold occupied in H0; lia|].
    destruct x as [o|]; [|cbn in Ho; lia]. apply slot_Some in Hx. by rewrite Hempty in Hx.
  - intros i Hi. by apply (inv_free _ _ _ Hinv), Hnone.
Qed.

(** ** Accounting: [stats] *)

(** The slot a value names, whatever it holds. *)
Definition named_slot (v : Value) : option nat :=
  match refs v with R_Slot _ i :: _ => Some i | _ => None end.

(** What [count_owned_slots] walks into. *)
Definition owned_values (h : Heap) (i : nat) : list Value :=
  match slot h i with
  | Some (O_Cell payload _) => [payload]
  | Some o => object_values h o
  | None => []
  end.

(** [count_owned_slots]: every slot reached, each once.  A level of the walk
    enters a slot not seen before, so one level more than there are slots is
    enough. *)
Fixpoint count_owned (fuel : nat) (h : Heap) (v : Value) (seen : gset nat) : gset nat :=
  match fuel with
  | O => seen
  | S fuel =>
    match named_slot v with
    | None => seen
    | Some i =>
      if decide (i ∈ seen) then seen
      else foldl (fun seen w => count_owned fuel h w seen) ({[i]} ∪ seen) (owned_values h i)
    end
  end.

Definition retained_slot_count (h : Heap) : nat :=
  stdpp.base.size (foldl (fun seen v => count_owned (S (length (slots h))) h v seen) ∅ (retained h)).

Definition stats (h : Heap) : HeapStats :=
  {| st_allocated := allocated h; st_freed := freed h;
     st_current := allocated h - freed h; st_retained := retained_slot_count h |}.

(** [current] counts the occupied slots. *)
Lemma stats_current h E R : Inv h E R -> st_current (stats h) = occupied h.
Proof. intros Hinv. cbn. rewrite (inv_accounts _ _ _ Hinv). lia. Qed.

(** With nothing handed to foreign code, nothing is retained. *)
Lemma stats_retained h : retained h = [] -> st_retained (stats h) = 0%nat.
Proof. intros H. cbn. unfold retained_slot_count. rewrite H. apply size_empty. Qed.
End Drops.
