(* ===== verification/HeapClient.v ===== *)
(** A client of the heap: any sequence of the operations the interpreter makes
    on it, on values it holds.  It holds each value it was given until it hands
    it over, and the heap's ledger always balances against what it holds. *)

From stdpp Require Import gmap strings.
From S2P Require Import Prelude.
From S2P Require Import Foreign.
From S2P Require Import NativeState.
From S2P Require Import Heap.
From S2P Require Import HeapOwnership.
From S2P Require Import HeapOps.
From S2P Require Import HeapView.
From S2P Require Import HeapCopy.
From S2P Require Import HeapWrites.
From S2P Require Import HeapBoxes.
From S2P Require Import HeapDrops.

(** ** Operations *)

(** A position names one of the held values; the value an operation hands over
    is the first of them. *)
Inductive HeapOp :=
| HO_inline (z : Z)
| HO_str (text : rstring)
| HO_struct (n : nat)
| HO_dropping (n : nat) (glue : Z)
| HO_array (n : nat)
| HO_enum (tag : Z) (with_payload : bool)
| HO_erase (type_id : Z)
| HO_cell
| HO_copy (i : nat)
| HO_drop (i : nat)
| HO_set_field (i : nat) (index : Z)
| HO_set_element (i index : nat)
| HO_push (i : nat)
| HO_cell_get (i : nat)
| HO_cell_set (i : nat)
| HO_payload (i : nat)
| HO_finish_drop
| HO_drain.

(** The heap and the values the client holds. *)
Definition Client : Type := Heap * list Value.

Section Client.
Context {host : Host} {allocator : Allocator}.

(** A value handed back joins the held ones. *)
Definition given (r : Heap * option Value) (vs : list Value) : Client := (r.1, option_list r.2 ++ vs).
Definition boxed (mk : nat -> Value) (r : Heap * nat) (vs : list Value) : Client := (r.1, mk r.2 :: vs).

(** The value handed over is the client's again when the store is refused. *)
Definition stored_or (v : Value) (r : Heap * bool) (vs : list Value) : Client :=
  (r.1, if r.2 then vs else v :: vs).

(** An operation that names no value of its kind does nothing. *)
Definition client (op : HeapOp) (s : Client) : Client :=
  let '(h, vs) := s in
  match op with
  | HO_inline z => (h, V_Int z :: vs)
  | HO_str text => boxed V_Str (alloc text h) vs
  | HO_struct n => boxed V_Struct (alloc_struct (firstn n vs) h) (skipn n vs)
  | HO_dropping n glue => boxed V_Struct (alloc_struct_dropping (firstn n vs) glue h) (skipn n vs)
  | HO_array n => boxed V_Array (alloc_array (firstn n vs) h) (skipn n vs)
  | HO_enum tag false => boxed V_Enum (alloc_enum tag None h) vs
  | HO_enum tag true => boxed V_Enum (alloc_enum tag (head vs) h) (tail vs)
  | HO_erase type_id => match vs with [] => s | v :: vs => boxed V_Erased (alloc_erased type_id v h) vs end
  | HO_cell => match vs with [] => s | v :: vs => boxed V_Cell (alloc_cell v h) vs end
  | HO_copy i => match vs !! i with Some v => let '(h, w) := copy_value v h in (h, w :: vs) | None => s end
  | HO_drop i => match vs !! i with Some v => (drop_value v h, delete i vs) | None => s end
  | HO_set_field i index =>
    match vs with
    | v :: vs => match vs !! i with Some (V_Struct id) => stored_or v (set_field id index v h) vs | _ => s end
    | [] => s
    end
  | HO_set_element i index =>
    match vs with
    | v :: vs => match vs !! i with Some (V_Array id) => stored_or v (set_element id index v h) vs | _ => s end
    | [] => s
    end
  | HO_push i =>
    match vs with
    | v :: vs => match vs !! i with Some (V_Array id) => stored_or v (push_element id v h) vs | _ => s end
    | [] => s
    end
  | HO_cell_get i => match vs !! i with Some (V_Cell id) => given (cell_get id h) vs | _ => s end
  | HO_cell_set i =>
    match vs with
    | v :: vs => match vs !! i with Some (V_Cell id) => ((cell_set id v h).1, vs) | _ => s end
    | [] => s
    end
  | HO_payload i =>
    match vs !! i with
    | Some (V_Enum id) => given (enum_payload id h) vs
    | Some (V_Erased id) => given (erased_payload id h) vs
    | _ => s
    end
  | HO_finish_drop =>
    match take_pending_drop h with (h, Some pd) => (finish_pending_drop (pd_id pd) h, vs) | (h, None) => (h, vs) end
  | HO_drain => (drain_released_cells h, vs)
  end.

Fixpoint clients (ops : list HeapOp) (s : Client) : Client :=
  match ops with [] => s | op :: ops => clients ops (client op s) end.

(** The client lets go of everything, and the bodies still owed are abandoned. *)
Definition let_go (s : Client) : Heap := abandon_pending_drops (drop_all drop_value s.2 s.1).
End Client.

(** ** The ledger balances *)

Section Ledger.
Context {host : Host} {allocator : Allocator}.

Definition balanced (s : Client) : Prop := Inv s.1 [] (refs_all s.2).

Lemma heap_new_Inv : Inv heap_new [] [].
Proof.
  split; try done.
  - intros [k i|p]; done.
  - constructor.
  - intros i. split; [by intros ?%elem_of_nil|done].
  - intros i [g Hg]. cbn in Hg. by rewrite (lookup_empty (M := gmap nat)) in Hg.
Qed.

Lemma refs_all_split n vs : refs_all vs = refs_all (firstn n vs) ++ refs_all (skipn n vs).
Proof. by rewrite <- refs_all_app, firstn_skipn. Qed.

Lemma refs_all_picked i vs v : vs !! i = Some v -> refs_all vs ≡ₚ refs v ++ refs_all (delete i vs).
Proof. intros Hi. rewrite <- refs_all_cons. by rewrite <- (delete_Permutation vs i v). Qed.

(** A value written through stays held beside the one handed over. *)
Lemma balanced_beside h v vs i w : vs !! i = Some w -> Inv h [] (refs_all (v :: vs)) ->
  Inv h [] (refs v ++ refs w ++ refs_all (delete i vs)).
Proof. intros Hi. by rewrite refs_all_cons, (refs_all_picked i vs w Hi). Qed.

Lemma balanced_given r vs : Inv r.1 [] (refs_all (option_list r.2) ++ refs_all vs) -> balanced (given r vs).
Proof. unfold balanced, given. cbn. by rewrite refs_all_app. Qed.

Lemma balanced_stored h v vs i w r : vs !! i = Some w -> balanced (h, v :: vs) ->
  (r.2 = false -> r.1 = h) -> (r.2 = true -> Inv r.1 [] (refs w ++ refs_all (delete i vs))) ->
  balanced (stored_or v r vs).
Proof.
  intros Hi Hb Hf Ht. destruct r as [h' []]; unfold balanced in *; cbn in *.
  - rewrite (refs_all_picked i vs w Hi). by apply Ht.
  - by rewrite Hf by done.
Qed.

Lemma client_balanced op s : balanced s -> balanced (client op s).
Proof.
  destruct s as [h vs]. intros Hb. pose proof Hb as Hinv. unfold balanced in Hinv. cbn in Hinv.
  destruct op as [z|text|n|n glue|n|tag [|]|ty| |i|i|i index|i index|i|i|i|i| |]; cbn [client].
  - done.
  - destruct (alloc text h) as [h' id] eqn:Ha. exact (alloc_object_Inv h [] _ (O_Str text) h' id Hinv eq_refl I Ha).
  - rewrite (refs_all_split n) in Hinv. destruct (alloc_struct _ h) as [h' id] eqn:Ha.
    by destruct (alloc_struct_spec _ _ _ _ _ _ Hinv Ha).
  - rewrite (refs_all_split n) in Hinv. destruct (alloc_struct_dropping _ glue h) as [h' id] eqn:Ha.
    by destruct (alloc_struct_dropping_spec _ _ _ _ _ _ _ Hinv Ha).
  - rewrite (refs_all_split n) in Hinv. destruct (alloc_array _ h) as [h' id] eqn:Ha.
    by destruct (alloc_array_spec _ _ _ _ _ _ Hinv Ha).
  - destruct (alloc_enum tag (head vs) h) as [h' id] eqn:Ha.
    eapply (alloc_enum_spec tag (head vs) h [] (refs_all (tail vs))) in Ha as [? _]; [done|].
    destruct vs as [|v vs]; cbn; [done|]. by rewrite refs_all_cons in *; cbn; rewrite app_nil_r.
  - destruct (alloc_enum tag None h) as [h' id] eqn:Ha.
    by destruct (alloc_enum_spec tag None h [] _ h' id Hinv Ha).
  - destruct vs as [|v vs]; [done|]. destruct (alloc_erased ty v h) as [h' id] eqn:Ha.
    by destruct (alloc_erased_spec _ _ _ _ _ _ _ Hinv Ha).
  - destruct vs as [|v vs]; [done|]. destruct (alloc_cell v h) as [h' id] eqn:Ha.
    by destruct (alloc_cell_spec _ _ _ _ _ _ Hinv Ha).
  - destruct (vs !! i) as [v|] eqn:Hi; [|done]. destruct (copy_value v h) as [h' w] eqn:Hc.
    eapply copy_value_spec in Hc as [? _]; [|exact Hinv|].
    + unfold balanced. cbn. by rewrite refs_all_cons.
    + eapply value_live. by rewrite <- (refs_all_picked i vs v Hi).
  - destruct (vs !! i) as [v|] eqn:Hi; [|done]. rewrite (refs_all_picked i vs v Hi) in Hinv.
    by destruct (drop_value_spec _ _ _ _ Hinv).
  - destruct vs as [|v vs]; [done|]. destruct (vs !! i) as [[]|] eqn:Hi; try done.
    destruct (set_field id index v h) as [h' ok] eqn:Hs.
    destruct (set_field_spec _ _ _ _ _ _ _ _ (balanced_beside _ _ _ _ _ Hi Hinv) Hs) as (_ & Hf & Ht).
    eapply balanced_stored; [done..|]. intros Hok. by destruct (Ht Hok).
  - destruct vs as [|v vs]; [done|]. destruct (vs !! i) as [[]|] eqn:Hi; try done.
    destruct (set_element id index v h) as [h' ok] eqn:Hs.
    destruct (set_element_spec _ _ _ _ _ _ _ _ (balanced_beside _ _ _ _ _ Hi Hinv) Hs) as (_ & Hf & Ht).
    eapply balanced_stored; [done..|]. intros Hok. by destruct (Ht Hok).
  - destruct vs as [|v vs]; [done|]. destruct (vs !! i) as [[]|] eqn:Hi; try done.
    destruct (push_element id v h) as [h' ok] eqn:Hs.
    destruct (push_element_spec _ _ _ _ _ _ _ (balanced_beside _ _ _ _ _ Hi Hinv) Hs) as (-> & Ht & _).
    by eapply balanced_stored.
  - destruct (vs !! i) as [[]|] eqn:Hi; try done. apply balanced_given.
    destruct (cell_get id h) as [h' r] eqn:Hg. by destruct (cell_get_spec _ _ _ _ _ _ Hinv Hg).
  - destruct vs as [|v vs]; [done|]. destruct (vs !! i) as [[]|] eqn:Hi; try done.
    destruct (cell_set id v h) as [h' ok] eqn:Hs. cbn. unfold balanced. cbn.
    destruct (cell_set_spec _ _ _ _ _ _ _ (balanced_beside _ _ _ _ _ Hi Hinv) Hs) as [? _].
    by rewrite (refs_all_picked i vs _ Hi).
  - destruct (vs !! i) as [[]|] eqn:Hi; try done; apply balanced_given.
    + destruct (enum_payload id h) as [h' r] eqn:Hg. by destruct (enum_payload_spec _ _ _ _ _ _ Hinv Hg).
    + destruct (erased_payload id h) as [h' r] eqn:Hg. by destruct (erased_payload_spec _ _ _ _ _ _ Hinv Hg).
  - destruct (take_pending_drop h) as [h' [pd|]] eqn:Ht.
    + destruct (take_pending_drop_spec _ _ _ _ _ Hinv Ht) as [Hinv' _].
      by destruct (finish_pending_drop_spec _ _ _ _ Hinv').
    + unfold take_pending_drop in Ht. by destruct (pending_drops h); simplify_eq.
  - by destruct (drain_released_cells_spec _ _ _ Hinv).
Qed.

Lemma clients_balanced ops : forall s, balanced s -> balanced (clients ops s).
Proof. induction ops as [|op ops IH]; intros s Hs; [done|]. by apply IH, client_balanced. Qed.

Lemma client_start : balanced (heap_new, []).
Proof. exact heap_new_Inv. Qed.

Lemma let_held vs : forall h R, Inv h [] (refs_all vs ++ R) -> Inv (drop_all drop_value vs h) [] R.
Proof.
  induction vs as [|v vs IH]; intros h R Hinv; [done|]. apply IH.
  rewrite refs_all_cons, <- (assoc_L (++)) in Hinv. by destruct (drop_value_spec _ _ _ _ Hinv).
Qed.

Lemma let_go_balanced s : balanced s -> Inv (let_go s) [] [].
Proof.
  intros Hs. unfold let_go. apply abandon_pending_drops_spec. apply let_held. by rewrite app_nil_r.
Qed.

(** C14: Whatever a client does, every object's count is the number of references
    to it that are held or stored, so a held value is never freed under its
    holder; the free list names exactly the empty slots, and every allocation is
    either freed or occupied. *)
Theorem heap_ledger ops :
  let '(h, vs) := clients ops (heap_new, []) in
  (forall r, occ r (refs_all vs) + total h r = expected h r)%nat /\
  (forall v, v ∈ vs -> live_value h v) /\
  NoDup (free_list h) /\ (forall i, i ∈ free_list h <-> slots h !! i = Some None) /\
  allocated h = (freed h + occupied h)%nat.
Proof.
  pose proof (clients_balanced ops _ client_start) as Hb. destruct (clients ops _) as [h vs].
  pose proof Hb as []. split_and!; try done. intros v (i & Hi)%list_elem_of_lookup.
  eapply (value_live h [] (refs_all (delete i vs))). by rewrite <- (refs_all_picked i vs v Hi).
Qed.

(** A client that lets go of everything leaves no object behind, unless some
    were tied into a cycle through a capture cell or are still owed elsewhere. *)
Theorem client_leaves_nothing ops :
  let h := let_go (clients ops (heap_new, [])) in
  settled h -> acyclic h -> (forall i, slot h i = None) /\ allocated h = freed h.
Proof.
  intros h Hs Ha. destruct (no_leak h) as (H1 & H2 & _); [|done..].
  apply let_go_balanced, clients_balanced, client_start.
Qed.

(** A copy made beside a value about to be handed over. *)
Lemma copied_value h R v x h1 w t :
  Inv h [] (refs v ++ refs x ++ R) -> copy_value x h = (h1, w) -> denotes h x t ->
  Inv h1 [] (refs v ++ refs w ++ refs x ++ R) /\ grows h h1 /\ denotes h1 w t.
Proof.
  intros Hinv Hc Hx.
  assert (live_value h x) as Hl.
  { eapply (value_live h [] (refs v ++ R)). eapply Inv_perm; [|exact Hinv]. intros r. rewrite !occ_app. lia. }
  destruct (copy_value_spec _ _ _ _ _ _ Hinv Hl Hc) as [Hinv1 Hg]. split_and!; [|done|].
  - eapply Inv_perm; [|exact Hinv1]. intros r. rewrite !occ_app. lia.
  - destruct Hx as [fuel Hx]. exists fuel. by eapply (copy_value_view h _ _ x h1 w fuel t Hinv).
Qed.

(** What was held beside a copy is seen as before once the copy is written. *)
Lemma sees_beside h h1 h2 x R t :
  grows h h1 -> sees_same h1 h2 (refs x ++ R) -> denotes h x t -> denotes h2 x t /\ sees_same h h2 R.
Proof.
  intros Hg Hs Hx. split.
  - eapply Hs; [|by eapply denotes_grows]. intros r Hin. apply elem_of_app. by left.
  - intros y u Hy Hu. eapply Hs; [|by eapply denotes_grows]. intros r Hin. apply elem_of_app. right. by apply Hy.
Qed.

(** C27: A copy denotes what the original denotes, and dropping either one leaves
    the other, and everything else that is held, denoting the same. *)
Theorem copies_are_values h R v h1 w t :
  Inv h [] (refs v ++ R) -> copy_value v h = (h1, w) -> denotes h v t ->
  denotes h1 w t /\
  (let h2 := drop_value v h1 in Inv h2 [] (refs w ++ R) /\ denotes h2 w t /\ sees_same h h2 R) /\
  (let h2 := drop_value w h1 in Inv h2 [] (refs v ++ R) /\ denotes h2 v t /\ sees_same h h2 R).
Proof.
  intros Hinv Hc Hv. pose proof (value_live _ _ _ _ Hinv) as Hl.
  destruct (copy_value_spec _ _ _ _ _ _ Hinv Hl Hc) as [Hinv1 Hg].
  assert (denotes h1 w t) as Hw.
  { destruct Hv as [fuel Hv]. exists fuel. by eapply (copy_value_view h [] (refs v ++ R) v h1 w fuel t). }
  split; [done|]. split; cbn zeta.
  - assert (Inv h1 [] (refs v ++ refs w ++ R)) as Hinv2.
    { eapply Inv_perm; [|exact Hinv1]. intros r. rewrite !occ_app. lia. }
    destruct (drop_value_spec _ _ _ _ Hinv2) as [Hinv3 Hr]. pose proof (released_sees h1 _ _ _ Hinv3 (released_grows _ _ Hr)) as Hs.
    split_and!; [done| |].
    + eapply Hs; [|done]. intros r Hin. apply elem_of_app. by left.
    + intros x u Hx Hu. eapply Hs; [|by eapply denotes_grows]. intros r Hin. apply elem_of_app. right. by apply Hx.
  - destruct (drop_value_spec _ _ _ _ Hinv1) as [Hinv3 Hr]. pose proof (released_sees h1 _ _ _ Hinv3 (released_grows _ _ Hr)) as Hs.
    split_and!; [done| |].
    + eapply Hs; [|by eapply denotes_grows]. intros r Hin. apply elem_of_app. by left.
    + intros x u Hx Hu. eapply Hs; [|by eapply denotes_grows]. intros r Hin. apply elem_of_app. right. by apply Hx.
Qed.
(** C15: Copy on write of structs: a field stored through a copy of a struct is
    seen through that copy only; the struct it was copied from, and everything
    else that is held, denotes what it did, and the store is refused exactly
    when the struct has no such field. *)
Theorem struct_writes_stay_apart h R id id' v index ts h1 h2 ok :
  Inv h [] (refs v ++ refs (V_Struct id) ++ R) ->
  copy_value (V_Struct id) h = (h1, V_Struct id') -> set_field id' index v h1 = (h2, ok) ->
  denotes h (V_Struct id) (T_Struct ts) ->
  (ok = true <-> is_Some (field h1 id' index)) /\
  (ok = true -> denotes h2 (V_Struct id) (T_Struct ts) /\ sees_same h h2 R /\
    forall i tv, usize_try_from index = Some i -> denotes (own v h1).1 (own v h1).2 tv ->
      denotes h2 (V_Struct id') (T_Struct (<[i := tv]> ts))).
Proof.
  intros Hinv Hc Hset Hd.
  destruct (copied_value _ _ _ _ _ _ _ Hinv Hc Hd) as (Hinv1 & Hg & Hw).
  destruct (set_field_spec _ _ _ _ _ _ _ _ Hinv1 Hset) as (Hok & _ & Hset'). split; [done|].
  intros Htrue. destruct (Hset' Htrue) as (_ & Hsees & Hval).
  destruct (sees_beside _ _ _ _ _ _ Hg Hsees Hd) as [H1 H2]. split_and!; [done..|]. intros i tv Hi Hv. by apply Hval.
Qed.

(** Copy on write of arrays: an element appended through a copy of an array is
    seen through that copy only. *)
Theorem appends_stay_apart h R id id' v ts h1 h2 ok :
  Inv h [] (refs v ++ refs (V_Array id) ++ R) ->
  copy_value (V_Array id) h = (h1, V_Array id') -> push_element id' v h1 = (h2, ok) ->
  denotes h (V_Array id) (T_Array ts) ->
  ok = true /\ denotes h2 (V_Array id) (T_Array ts) /\ sees_same h h2 R /\
  forall tv, denotes (own v h1).1 (own v h1).2 tv -> denotes h2 (V_Array id') (T_Array (ts ++ [tv])).
Proof.
  intros Hinv Hc Hset Hd.
  destruct (copied_value _ _ _ _ _ _ _ Hinv Hc Hd) as (Hinv1 & Hg & Hw).
  destruct (push_element_spec _ _ _ _ _ _ _ Hinv1 Hset) as (Hok & _ & Hsees & Hval).
  destruct (sees_beside _ _ _ _ _ _ Hg Hsees Hd) as [H1 H2]. split_and!; [done..|]. by intros tv; apply Hval.
Qed.
End Ledger.

(** ** Witnesses *)

#[local] Instance client_pages : Allocator := {| payload_address n := 4096 * Z.of_nat (S n) |}.

(** A struct of an array and a text, copied, the copy's array lengthened; then a
    struct with a [Drop] body in a capture cell. *)
Definition sample_client : list HeapOp :=
  [HO_str [x61]; HO_inline 7; HO_array 1; HO_struct 2; HO_copy 0; HO_inline 8; HO_set_field 0 1;
   HO_dropping 0 3; HO_cell; HO_copy 0; HO_cell_get 0; HO_drop 2].

Lemma sample_client_run : st_current (stats (@clients host64 client_pages sample_client (heap_new, [])).1) = 8%nat.
Proof. by vm_compute. Qed.

(** Every object of a heap without objects is fit for anything. *)
Lemma empty_acyclic h : forallb (fun o => match o with None => true | Some _ => false end) (slots h) = true ->
  acyclic h.
Proof.
  intros He. exists (fun _ => 0%nat). intros i j o Hi. apply slot_Some in Hi.
  rewrite List.forallb_forall in He. specialize (He (Some o)). cbn in He. discriminate He.
  apply list_elem_of_In. by eapply list_elem_of_lookup_2.
Qed.

Lemma client_leaves_nothing_witness :
  let h := let_go (@clients host64 client_pages sample_client (heap_new, [])) in
  (forall i, slot h i = None) /\ allocated h = freed h.
Proof. apply (@client_leaves_nothing host64 client_pages sample_client); [by vm_compute|by apply empty_acyclic]. Defined.

(** The array [[7]], held once. *)
Definition sample_array : Heap := (@clients host64 client_pages [HO_inline 7; HO_array 1] (heap_new, [])).1.

Lemma sample_array_Inv : @Inv host64 sample_array [] (refs (V_Array 0) ++ []).
Proof. exact (@clients_balanced host64 client_pages [HO_inline 7; HO_array 1] _ (@client_start host64)). Qed.

Lemma copies_are_values_witness :
  denotes (@copy_value host64 client_pages (V_Array 0) sample_array).1 (V_Array 1) (T_Array [T_Inline (V_Int 7)]) /\
  slot (@copy_value host64 client_pages (V_Array 0) sample_array).1 1 = Some (O_Array 0).
Proof.
  split; [|by vm_compute].
  apply (@copies_are_values host64 client_pages sample_array [] (V_Array 0)
    (@copy_value host64 client_pages (V_Array 0) sample_array).1 (V_Array 1)).
  - exact sample_array_Inv.
  - by vm_compute.
  - exists 2%nat. by vm_compute.
Defined.

(** The struct [{7}] and the number 8. *)
Definition sample_struct : Heap := (@clients host64 client_pages [HO_inline 7; HO_struct 1] (heap_new, [])).1.

Lemma sample_struct_Inv : @Inv host64 sample_struct [] (refs (V_Int 8) ++ refs (V_Struct 0) ++ []).
Proof. exact (@clients_balanced host64 client_pages [HO_inline 7; HO_struct 1] _ (@client_start host64)). Qed.

Lemma struct_writes_stay_apart_witness :
  let h1 := (@copy_value host64 client_pages (V_Struct 0) sample_struct).1 in
  let h2 := (@set_field host64 client_pages 1 0 (V_Int 8) h1).1 in
  denotes h2 (V_Struct 0) (T_Struct [T_Inline (V_Int 7)]) /\ denotes h2 (V_Struct 1) (T_Struct [T_Inline (V_Int 8)]).
Proof.
  set (h1 := (@copy_value host64 client_pages (V_Struct 0) sample_struct).1).
  set (h2 := (@set_field host64 client_pages 1 0 (V_Int 8) h1).1).
  destruct (@struct_writes_stay_apart host64 client_pages sample_struct [] 0 1 (V_Int 8) 0
    [T_Inline (V_Int 7)] h1 h2 true) as [_ Ht].
  - exact sample_struct_Inv.
  - by vm_compute.
  - by vm_compute.
  - exists 2%nat. by vm_compute.
  - destruct (Ht eq_refl) as (H1 & _ & H2). split; [exact H1|].
    apply (H2 0%nat (T_Inline (V_Int 8))); [by vm_compute|]. exists 1%nat. by vm_compute.
Defined.

Lemma appends_stay_apart_witness :
  let h1 := (@copy_value host64 client_pages (V_Array 0) sample_array).1 in
  let h2 := (@push_element host64 client_pages 1 (V_Int 8) h1).1 in
  denotes h2 (V_Array 0) (T_Array [T_Inline (V_Int 7)]) /\
  denotes h2 (V_Array 1) (T_Array [T_Inline (V_Int 7); T_Inline (V_Int 8)]).
Proof.
  set (h1 := (@copy_value host64 client_pages (V_Array 0) sample_array).1).
  set (h2 := (@push_element host64 client_pages 1 (V_Int 8) h1).1).
  destruct (@appends_stay_apart host64 client_pages sample_array [] 0 1 (V_Int 8)
    [T_Inline (V_Int 7)] h1 h2 true) as (_ & H1 & _ & H2).
  - exact sample_array_Inv.
  - by vm_compute.
  - by vm_compute.
  - exists 2%nat. by vm_compute.
  - split; [exact H1|]. apply (H2 (T_Inline (V_Int 8))). exists 1%nat. by vm_compute.
Defined.
