(* ===== verification/Float64.v ===== *)
(** IEEE 754 binary64 values as the 64-bit patterns a [Value::Float] carries:
    what the interpreter and the heap ask of Rust's [f64].

    A pattern is decoded to the Standard Library's [spec_float], which has one
    NaN, and an arithmetic result is encoded back; Rust leaves the payload of a
    computed NaN open, here it is the canonical quiet one. *)

From Stdlib Require Import ZArith Lia Bool.
From Stdlib Require Import SpecFloat.
From S2P Require Import Prelude.

(** ** Encodings *)

Section Format.
(** Stored mantissa bits and exponent bits. *)
Context (mw ew : Z).

Definition f_emax : Z := 2 ^ (ew - 1).
Definition f_prec : Z := mw + 1.
Definition exponent_mask : Z := 2 ^ ew - 1.

(** The float a bit pattern spells. *)
Definition decode (bits : Z) : spec_float :=
  let s := Z.testbit bits (mw + ew) in
  let e := Z.land (Z.shiftr bits mw) exponent_mask in
  let m := Z.land bits (2 ^ mw - 1) in
  if e =? 0 then
    match m with Zpos p => S754_finite s p (emin f_prec f_emax) | _ => S754_zero s end
  else if e =? exponent_mask then
    match m with Zpos _ => S754_nan | _ => S754_infinity s end
  else
    match m + 2 ^ mw with
    | Zpos p => S754_finite s p (e + emin f_prec f_emax - 1)
    | _ => S754_nan
    end.

Definition sign_bit (s : bool) : Z := if s then 2 ^ (mw + ew) else 0.

(** The pattern of a float in canonical form. *)
Definition encode (f : spec_float) : Z :=
  match f with
  | S754_zero s => sign_bit s
  | S754_infinity s => sign_bit s + exponent_mask * 2 ^ mw
  | S754_nan => exponent_mask * 2 ^ mw + 2 ^ (mw - 1)
  | S754_finite s m e =>
    if Zpos m <? 2 ^ mw then sign_bit s + Zpos m
    else sign_bit s + (e - emin f_prec f_emax + 1) * 2 ^ mw + (Zpos m - 2 ^ mw)
  end.
End Format.

Definition f64_decode (bits : Z) : spec_float := decode 52 11 bits.
Definition f64_encode (f : spec_float) : Z := encode 52 11 f.
Definition f32_decode (bits : Z) : spec_float := decode 23 8 bits.
Definition f32_encode (f : spec_float) : Z := encode 23 8 f.

(** ** Comparisons *)

Definition f64_compare (a b : Z) : option comparison := SFcompare (f64_decode a) (f64_decode b).
Definition f64_eq (a b : Z) : bool := SFeqb (f64_decode a) (f64_decode b).
Definition f64_lt (a b : Z) : bool := SFltb (f64_decode a) (f64_decode b).
Definition f64_le (a b : Z) : bool := SFleb (f64_decode a) (f64_decode b).
Definition f64_gt (a b : Z) : bool := f64_lt b a.
Definition f64_ge (a b : Z) : bool := f64_le b a.

(** ** Arithmetic *)

Definition f64_add (a b : Z) : Z := f64_encode (SFadd 53 1024 (f64_decode a) (f64_decode b)).
Definition f64_sub (a b : Z) : Z := f64_encode (SFsub 53 1024 (f64_decode a) (f64_decode b)).
Definition f64_mul (a b : Z) : Z := f64_encode (SFmul 53 1024 (f64_decode a) (f64_decode b)).
Definition f64_div (a b : Z) : Z := f64_encode (SFdiv 53 1024 (f64_decode a) (f64_decode b)).

(** [%]: the truncated remainder, exact, with the sign of the left operand. *)
Definition sf_rem (x y : spec_float) : spec_float :=
  match x, y with
  | S754_nan, _ | _, S754_nan | S754_infinity _, _ | _, S754_zero _ => S754_nan
  | S754_zero _, _ | _, S754_infinity _ => x
  | S754_finite sx mx ex, S754_finite _ my ey =>
    let ez := Z.min ex ey in
    let r := Z.rem (Zpos mx * 2 ^ (ex - ez)) (Zpos my * 2 ^ (ey - ez)) in
    binary_normalize 53 1024 (if sx then - r else r) ez sx
  end.
Definition f64_rem (a b : Z) : Z := f64_encode (sf_rem (f64_decode a) (f64_decode b)).

(** [-x] flips the sign of any pattern. *)
Definition f64_neg (a : Z) : Z := Z.lxor a (2 ^ 63).

(** ** Conversions *)

(** [v as f64]. *)
Definition f64_of_int (v : Z) : Z := f64_encode (binary_normalize 53 1024 v 0 false).

Definition f64_is_finite (a : Z) : bool :=
  match f64_decode a with S754_zero _ | S754_finite _ _ _ => true | _ => false end.

(** A finite float truncated toward zero. *)
Definition f64_trunc (a : Z) : Z :=
  match f64_decode a with
  | S754_finite s m e =>
    let magnitude := if 0 <=? e then Zpos m * 2 ^ e else Zpos m / 2 ^ (- e) in
    if s then - magnitude else magnitude
  | _ => 0
  end.

(** [x as f32], as its 32-bit pattern. *)
Definition f32_bits_of_f64 (a : Z) : Z :=
  f32_encode
    match f64_decode a with
    | S754_finite s m e => binary_round 24 128 s m e
    | f => f
    end.

(** [f64::from(f32::from_bits(bits))]. *)
Definition f64_of_f32_bits (bits : Z) : Z :=
  f64_encode
    match f32_decode bits with
    | S754_finite s m e => binary_round 53 1024 s m e
    | f => f
    end.

(** ** Round trip *)

Section FormatFacts.
Context (mw ew : Z) (Hmw : 0 < mw) (Hew : 1 < ew).

Lemma land_mask z w : 0 <= w -> Z.land z (2 ^ w - 1) = z mod 2 ^ w.
Proof. intros Hw. rewrite <- Z.land_ones by lia. by rewrite Z.ones_equiv, Z.sub_1_r. Qed.

(** A pattern is its sign, exponent and mantissa. *)
Lemma pattern_fields bits : 0 <= bits < 2 ^ (mw + ew + 1) ->
  bits = sign_bit mw ew (Z.testbit bits (mw + ew))
         + Z.land (Z.shiftr bits mw) (exponent_mask ew) * 2 ^ mw + Z.land bits (2 ^ mw - 1).
Proof.
  intros Hb. unfold exponent_mask. rewrite !land_mask by lia. rewrite Z.shiftr_div_pow2 by lia.
  assert (Z.testbit bits (mw + ew) = (1 =? bits / 2 ^ (mw + ew))) as ->.
  { rewrite Z.testbit_eqb by lia. rewrite (Z.mod_small (bits / _)); [by rewrite Z.eqb_sym|].
    split; [apply Z.div_pos; lia|]. apply Z.div_lt_upper_bound; [lia|].
    replace (mw + ew + 1) with (Z.succ (mw + ew)) in Hb by lia. rewrite Z.pow_succ_r in Hb; lia. }
  pose proof (Z.div_mod bits (2 ^ mw) ltac:(lia)) as H1.
  pose proof (Z.div_mod (bits / 2 ^ mw) (2 ^ ew) ltac:(lia)) as H2.
  rewrite Z.div_div in H2 by lia. rewrite <- Z.pow_add_r in H2 by lia.
  set (q := bits / 2 ^ (mw + ew)) in *.
  assert (q = 0 \/ q = 1) as Hq.
  { assert (0 <= q < 2); [|lia]. split; [apply Z.div_pos; lia|]. apply Z.div_lt_upper_bound; [lia|].
    replace (mw + ew + 1) with (Z.succ (mw + ew)) in Hb by lia. rewrite Z.pow_succ_r in Hb; lia. }
  unfold sign_bit. destruct Hq as [Hq|Hq]; rewrite Hq in *; cbn [Z.eqb Pos.eqb]; rewrite ?Z.pow_add_r by lia; lia.
Qed.

Lemma encode_decode_bits bits : 0 <= bits < 2 ^ (mw + ew + 1) ->
  decode mw ew bits <> S754_nan -> encode mw ew (decode mw ew bits) = bits.
Proof.
  intros Hb Hnan. rewrite (pattern_fields bits Hb) at 2. unfold decode in *.
  set (s := Z.testbit bits (mw + ew)) in *.
  set (e := Z.land (Z.shiftr bits mw) (exponent_mask ew)) in *.
  set (m := Z.land bits (2 ^ mw - 1)) in *.
  assert (0 <= m < 2 ^ mw) as Hm by (unfold m; rewrite land_mask by lia; apply Z.mod_pos_bound; lia).
  destruct (Z.eqb_spec e 0) as [He|He].
  - rewrite He. destruct m as [|p|p] eqn:Em; cbn [encode]; [lia| |lia].
    destruct (Z.ltb_spec (Zpos p) (2 ^ mw)); lia.
  - destruct (Z.eqb_spec e (exponent_mask ew)) as [He'|He'].
    + destruct m as [|p|p] eqn:Em; cbn [encode]; [lia|done|lia].
    + destruct (m + 2 ^ mw) as [|p|p] eqn:Em; [lia| |lia]. cbn [encode].
      destruct (Z.ltb_spec (Zpos p) (2 ^ mw)); lia.
Qed.
End FormatFacts.

Lemma f64_encode_decode bits : unsigned_ok 64 bits -> f64_decode bits <> S754_nan ->
  f64_encode (f64_decode bits) = bits.
Proof. intros Hb. apply encode_decode_bits; [lia..|exact Hb]. Qed.

(** ** Order *)

Lemma SFcompare_swap x y : SFcompare y x = CompOpp <$> SFcompare x y.
Proof.
  destruct x as [sx|sx| |sx mx ex], y as [sy|sy| |sy my ey]; try done;
    try (by destruct sx); try (by destruct sy); try (by destruct sx, sy).
  cbn. rewrite (Z.compare_antisym ex ey).
  assert (Pos.compare_cont Eq my mx = CompOpp (Pos.compare_cont Eq mx my)) as ->
    by (apply (Pos.compare_antisym mx my)).
  destruct sx, sy; cbn; try done; destruct (ex ?= ey); cbn; rewrite ?CompOpp_involutive; done.
Qed.

Lemma f64_eq_sym a b : f64_eq a b = f64_eq b a.
Proof.
  unfold f64_eq, SFeqb. rewrite (SFcompare_swap (f64_decode b)).
  by destruct (SFcompare (f64_decode b) (f64_decode a)) as [[]|].
Qed.

(** At most one of [<], [==] and [>] holds, and exactly one unless a NaN is
    compared. *)
Lemma f64_trichotomy a b :
  match f64_compare a b with
  | Some Lt => f64_lt a b = true /\ f64_eq a b = false /\ f64_gt a b = false
  | Some Eq => f64_lt a b = false /\ f64_eq a b = true /\ f64_gt a b = false
  | Some Gt => f64_lt a b = false /\ f64_eq a b = false /\ f64_gt a b = true
  | None => f64_lt a b = false /\ f64_eq a b = false /\ f64_gt a b = false
  end.
Proof.
  unfold f64_compare, f64_gt, f64_lt, f64_eq, SFltb, SFeqb.
  rewrite (SFcompare_swap (f64_decode a) (f64_decode b)).
  by destruct (SFcompare (f64_decode a) (f64_decode b)) as [[]|].
Qed.
