(* ===== verification/HeapEquality.v ===== *)
(** Structural equality, order and hashing of heap values:
    [kira-vm-runtime/src/value/equality.rs].

    The walks recurse as deep as the values nest; [fuel] bounds that depth and
    [None] says it ran out, which for a value that denotes a tree does not
    happen with the fuel the entry points use ([view_bound]). *)

From Stdlib Require Import QArith.
From stdpp Require Import gmap.
From S2P Require Import Prelude.
From S2P Require Import Instruction.
From S2P Require Import Foreign.
From S2P Require Import DecimalNumber.
From S2P Require Import NativeState.
From S2P Require Import Float64.
From S2P Require Import Heap.
From S2P Require Import HeapOwnership.
From S2P Require Import HeapOps.
From S2P Require Import HeapView.
From S2P Require Import HeapCopy.

(** ** Walks over two lists *)

Section Walks.
Context {A B C : Type}.

(** [for x in xs { acc = f(acc, x) }]. *)
Fixpoint fold_opt (f : B -> A -> option B) (acc : B) (xs : list A) : option B :=
  match xs with [] => Some acc | x :: xs => acc ← f acc x; fold_opt f acc xs end.

(** [xs.iter().zip(ys).all(f)]. *)
Fixpoint all_zip (f : A -> B -> option bool) (xs : list A) (ys : list B) : option bool :=
  match xs, ys with
  | x :: xs, y :: ys => b ← f x y; if b : bool then all_zip f xs ys else Some false
  | _, _ => Some true
  end.

(** The first pair that is not [Equal] decides, otherwise [rest]. *)
Fixpoint compare_zip (f : A -> B -> option comparison) (rest : comparison) (xs : list A) (ys : list B) :
    option comparison :=
  match xs, ys with
  | x :: xs, y :: ys => c ← f x y; match c with Eq => compare_zip f rest xs ys | _ => Some c end
  | _, _ => Some rest
  end.
End Walks.

(** [str::cmp]: the bytes, lexicographically. *)
Fixpoint bytes_compare (a b : list byte) : comparison :=
  match a, b with
  | [], [] => Eq
  | [], _ => Lt
  | _, [] => Gt
  | x :: a, y :: b =>
    match byte_to_Z x ?= byte_to_Z y with Eq => bytes_compare a b | c => c end
  end.

Definition bool_compare (a b : bool) : comparison :=
  match a, b with false, true => Lt | true, false => Gt | _, _ => Eq end.

(** [Option::<u64>::cmp]. *)
Definition option_compare (a b : option Z) : comparison :=
  match a, b with
  | None, None => Eq | None, Some _ => Lt | Some _, None => Gt | Some a, Some b => a ?= b
  end.

#[export] Instance ForeignPointerWidth_eq_decision : EqDecision ForeignPointerWidth.
Proof. solve_decision. Defined.

(** ** Definitions *)

Definition FNV_SEED : Z := 0xcbf29ce484222325.
Definition FNV_PRIME : Z := 0x100000001b3.

Definition feed (acc : Z) (bytes : list byte) : Z :=
  foldl (fun acc b => uwrap 64 (Z.lxor acc (byte_to_Z b) * FNV_PRIME)) acc bytes.

Definition enum_payload_ref (h : Heap) (id : nat) : option Value :=
  match slot h id with Some (O_Enum _ payload _) => payload | _ => None end.

Definition tag_or_zero (h : Heap) (id : nat) : Z :=
  match enum_tag h id with Some tag => tag | None => 0 end.

Fixpoint hash_into (fuel : nat) (h : Heap) (acc : Z) (v : Value) : option Z :=
  match fuel with
  | O => None
  | S fuel =>
    match v with
    | V_Int i => Some (feed acc (to_le 8 i))
    | V_Bool b => Some (feed acc [byte_of_Z (Z.b2z b)])
    | V_Str id => Some (feed acc (get h id))
    | V_Struct id => fold_opt (hash_into fuel h) acc (fields h id)
    | V_Array id =>
      fold_opt (hash_into fuel h) (feed acc (to_le 8 (Z.of_nat (length (elements h id))))) (elements h id)
    | V_Enum id =>
      let acc := feed acc (to_le 8 (tag_or_zero h id)) in
      match enum_payload_ref h id with
      | Some payload => hash_into fuel h acc payload
      | None => Some acc
      end
    | _ => Some acc
    end
  end.

Definition hash_value (h : Heap) (v : Value) : option Z :=
  swrap 64 <$> hash_into (S (length (slots h))) h FNV_SEED v.

Definition number_compare (a b : Decimal) : comparison :=
  match compare a b with Ok c => c | Err _ => Eq end.

Definition float_order (a b : Z) : comparison :=
  if f64_lt a b then Lt else if f64_gt a b then Gt else Eq.

Fixpoint compare_values_fuel (fuel : nat) (h : Heap) (l r : Value) : option comparison :=
  match fuel with
  | O => None
  | S fuel =>
    match l, r with
    | V_Int a, V_Int b => Some (a ?= b)
    | V_Float a, V_Float b => Some (float_order a b)
    | V_Bool a, V_Bool b => Some (bool_compare a b)
    | V_Number a, V_Number b => Some (number_compare a b)
    | V_Str a, V_Str b => Some (bytes_compare (get h a) (get h b))
    | V_Struct a, V_Struct b => compare_zip (compare_values_fuel fuel h) Eq (fields h a) (fields h b)
    | V_Array a, V_Array b =>
      compare_zip (compare_values_fuel fuel h)
        (Nat.compare (length (elements h a)) (length (elements h b))) (elements h a) (elements h b)
    | V_Enum a, V_Enum b =>
      match option_compare (enum_tag h a) (enum_tag h b) with
      | Eq =>
        match enum_payload_ref h a, enum_payload_ref h b with
        | Some one, Some other => compare_values_fuel fuel h one other
        | _, _ => Some Eq
        end
      | order => Some order
      end
    | _, _ => Some Eq
    end
  end.

Definition compare_values (h : Heap) (l r : Value) : option comparison :=
  compare_values_fuel (S (length (slots h))) h l r.

(** [NativeCBlock]'s derived equality. *)
Fixpoint cblock_equal (a b : NativeCBlock) : bool :=
  match a, b with
  | CBlockNode bytes kids, CBlockNode bytes' kids' =>
    bool_decide (bytes = bytes') &&
    (fix go (kids kids' : list NativeCBlockChild) : bool :=
       match kids, kids' with
       | [], [] => true
       | CBlockChild o w c :: kids, CBlockChild o' w' c' :: kids' =>
         (o =? o') && bool_decide (w = w') && cblock_equal c c' && go kids kids'
       | _, _ => false
       end) kids kids'
  end.

(** [NativeStateValue]'s derived equality; a cell compares by its handle. *)
Fixpoint node_equal (a b : NativeStateValue) : bool :=
  let all := (fix go (xs ys : list NativeStateValue) : bool :=
    match xs, ys with
    | [], [] => true
    | x :: xs, y :: ys => node_equal x y && go xs ys
    | _, _ => false
    end) in
  match a, b with
  | NS_Int a, NS_Int b => a =? b
  | NS_Float a, NS_Float b => f64_eq a b
  | NS_Bool a, NS_Bool b => Bool.eqb a b
  | NS_String a, NS_String b => bool_decide (a = b)
  | NS_Number a, NS_Number b => (mantissa a =? mantissa b) && (scale a =? scale b)
  | NS_Struct a, NS_Struct b => all a b
  | NS_DropStruct g a, NS_DropStruct g' b => (g =? g') && all a b
  | NS_Array a, NS_Array b => all a b
  | NS_RawPtr a, NS_RawPtr b => a =? b
  | NS_Cell a, NS_Cell b => cell_handle a =? cell_handle b
  | NS_Any t a, NS_Any t' b => (t =? t') && node_equal a b
  | NS_Enum t None, NS_Enum t' None => t =? t'
  | NS_Enum t (Some a), NS_Enum t' (Some b) => (t =? t') && node_equal a b
  | NS_NativeState a, NS_NativeState b => owner_token a =? owner_token b
  | NS_CBlock a, NS_CBlock b => cblock_equal a b
  | _, _ => false
  end.

Fixpoint value_equals_node (h : Heap) (v : Value) (node : NativeStateValue) {struct node} : bool :=
  let all := (fix go (vs : list Value) (ns : list NativeStateValue) {struct ns} : bool :=
    match ns, vs with
    | [], [] => true
    | n :: ns, v :: vs => value_equals_node h v n && go vs ns
    | _, _ => false
    end) in
  match v, node with
  | V_Int a, NS_Int b => a =? b
  | V_Float a, NS_Float b => f64_eq a b
  | V_Bool a, NS_Bool b => Bool.eqb a b
  | V_RawPtr a, NS_RawPtr b => a =? b
  | V_Str a, NS_String b => bool_decide (get h a = b)
  | V_Struct a, NS_Struct b => all (fields h a) b
  | V_Array a, NS_Array b => all (elements h a) b
  | V_Enum a, NS_Enum tag payload =>
    bool_decide (enum_tag h a = Some tag) &&
    match enum_payload_ref h a, payload with
    | Some one, Some other => value_equals_node h one other
    | None, None => true
    | _, _ => false
    end
  | V_Erased a, NS_Any type_id payload =>
    bool_decide (erased_type_id h a = Some type_id) &&
    match erased_payload_ref h a with
    | Some value => value_equals_node h value payload
    | None => false
    end
  | _, _ => false
  end.

Definition seam_word (h : Heap) (v : Value) : Value :=
  match v with V_CBlock id => V_RawPtr (cblock_address h id) | other => other end.

Definition number_equals (a b : Decimal) : bool :=
  match equals a b with Ok b => b | Err _ => false end.

(** [objects_equal], over the comparison of what objects hold. *)
Section ObjectsEqual.
Context (values_equal : Value -> Value -> option bool) (h : Heap).

Definition lists_equal (xs ys : list Value) : option bool :=
  if decide (length xs = length ys) then all_zip values_equal xs ys else Some false.

Definition objects_equal (l r : Value) : option bool :=
  match l, r with
  | V_Int a, V_Int b => Some (a =? b)
  | V_Float a, V_Float b => Some (f64_eq a b)
  | V_Bool a, V_Bool b => Some (Bool.eqb a b)
  | V_RawPtr a, V_RawPtr b => Some (a =? b)
  | V_CBlock _, _ | _, V_CBlock _ =>
    match seam_word h l, seam_word h r with
    | V_RawPtr a, V_RawPtr b => Some (a =? b)
    | _, _ => Some false
    end
  | V_Void, V_Void => Some true
  | V_Number a, V_Number b => Some (number_equals a b)
  | V_Str a, V_Str b => Some (bool_decide (get h a = get h b))
  | V_Struct a, V_Struct b => lists_equal (fields h a) (fields h b)
  | V_Array a, V_Array b => lists_equal (elements h a) (elements h b)
  | V_Erased a, V_Erased b =>
    if decide (erased_type_id h a = erased_type_id h b) then
      match erased_payload_ref h a, erased_payload_ref h b with
      | Some one, Some other => values_equal one other
      | _, _ => Some false
      end
    else Some false
  | V_Enum a, V_Enum b =>
    if decide (enum_tag h a = enum_tag h b) then
      match enum_payload_ref h a, enum_payload_ref h b with
      | Some one, Some other => values_equal one other
      | None, None => Some true
      | _, _ => Some false
      end
    else Some false
  | V_Cell a, V_Cell b => Some (bool_decide (a = b))
  | V_NativeState a, V_NativeState b => Some (a =? b)
  | V_MainThreadTask a, V_MainThreadTask b => Some (a =? b)
  | V_NativeView a a_ty, V_NativeView b b_ty => Some ((a =? b) && (a_ty =? b_ty))
  | _, _ => Some false
  end.
End ObjectsEqual.

Fixpoint values_equal_fuel (fuel : nat) (h : Heap) (l r : Value) : option bool :=
  match fuel with
  | O => None
  | S fuel =>
    match l, r with
    | V_NativeSnapshot a, V_NativeSnapshot b =>
      match snapshot_node h a, snapshot_node h b with
      | Some one, Some other => Some (node_equal one other)
      | _, _ => Some false
      end
    | V_NativeSnapshot a, other | other, V_NativeSnapshot a =>
      match snapshot_node h a with
      | Some node => Some (value_equals_node h other node)
      | None => Some false
      end
    | _, _ => objects_equal (values_equal_fuel fuel h) h l r
    end
  end.

Definition values_equal (h : Heap) (l r : Value) : option bool :=
  values_equal_fuel (S (length (slots h))) h l r.

(** ** Reading a tree through the accessors *)

Section Facts.
Context {host : Host} {allocator : Allocator}.

Lemma view_cases fuel h v t : view (S fuel) h v = Some t ->
  match v with
  | V_Str i => t = T_Str (get h i)
  | V_Struct i => exists ts, mapM (view fuel h) (fields h i) = Some ts /\ t = T_Struct ts
  | V_Array i => exists ts, mapM (view fuel h) (elements h i) = Some ts /\ t = T_Array ts
  | V_Enum i => exists tag, enum_tag h i = Some tag /\
    match enum_payload_ref h i with
    | None => t = T_Enum tag None
    | Some w => exists u, view fuel h w = Some u /\ t = T_Enum tag (Some u)
    end
  | V_Erased i => exists ty w u, erased_type_id h i = Some ty /\ erased_payload_ref h i = Some w /\
    view fuel h w = Some u /\ t = T_Erased ty u
  | V_NativeSnapshot i => exists node, snapshot_node h i = Some node /\ t = T_Snapshot node
  | V_CBlock _ => exists bytes kids, t = T_CBlock bytes kids
  | _ => t = T_Inline v
  end.
Proof.
  intros Hv. destruct v; cbn in Hv; try by simplify_eq.
  all: try (unfold get, fields, elements, enum_tag, enum_payload_ref, erased_type_id, erased_payload_ref,
    snapshot_node, rc_items; destruct (slot h id) as [[]|]; try done).
  - by simplify_eq.
  - destruct (block h fields) as [b|]; cbn in *; [|done].
    destruct (mapM (view fuel h) (items b)) as [ts|]; cbn in *; simplify_eq. by eexists.
  - destruct (block h elements) as [b|]; cbn in *; [|done].
    destruct (mapM (view fuel h) (items b)) as [ts|]; cbn in *; simplify_eq. by eexists.
  - exists tag. split; [done|]. destruct payload as [w|]; [|by simplify_eq].
    destruct (view fuel h w) as [u|]; cbn in *; simplify_eq. by eexists.
  - destruct (view fuel h payload) as [u|] eqn:E; cbn in *; simplify_eq. by eexists _, _, u.
  - simplify_eq. by eexists.
  - destruct (mapM _ kids); cbn in *; simplify_eq. by eexists _, _.
Qed.

(** ** Equality and denotation *)

(** Trees whose leaves compare as data: no float, decimal, C block, deferred
    read or type descriptor in them. *)
Definition exact_leaf (v : Value) : bool :=
  match v with
  | V_Int _ | V_Bool _ | V_RawPtr _ | V_Void | V_Cell _ | V_NativeState _ | V_MainThreadTask _
  | V_NativeView _ _ => true
  | _ => false
  end.

Fixpoint exact (t : Tree) : bool :=
  match t with
  | T_Inline v => exact_leaf v
  | T_Str _ => true
  | T_Struct ts | T_Array ts => forallb exact ts
  | T_Enum _ (Some t) | T_Erased _ t => exact t
  | T_Enum _ None => true
  | T_Snapshot _ | T_CBlock _ _ => false
  end.

(** A test of two values that decides whether they denote one tree. *)
Definition decides (o : option bool) (P : Prop) : Prop := exists b, o = Some b /\ (b = true <-> P).

Lemma decides_iff o (P Q : Prop) : (P <-> Q) -> decides o P -> decides o Q.
Proof. intros H (b & Hb & ?). exists b. split; [done|]. by rewrite <- H. Qed.

Lemma all_zip_decides f (g : Value -> option Tree) xs : forall ys ts us,
  (forall x y t u, x ∈ xs -> y ∈ ys -> g x = Some t -> g y = Some u -> exact t -> exact u ->
    decides (f x y) (t = u)) ->
  length xs = length ys -> mapM g xs = Some ts -> mapM g ys = Some us ->
  forallb exact ts -> forallb exact us -> decides (all_zip f xs ys) (ts = us).
Proof.
  induction xs as [|x xs IH]; intros [|y ys] ts us Hf Hlen Hts Hus Het Heu; try done; cbn in *.
  - injection Hts as <-. injection Hus as <-. by exists true.
  - destruct (g x) as [t|] eqn:Hx; cbn in *; [|done].
    destruct (mapM g xs) as [ts'|] eqn:Exs; cbn in *; [|done]. injection Hts as <-.
    destruct (g y) as [u|] eqn:Hy; cbn in *; [|done].
    destruct (mapM g ys) as [us'|] eqn:Eys; cbn in *; [|done]. injection Hus as <-.
    cbn in Het, Heu. apply andb_prop_elim in Het as [Ht Hts']. apply andb_prop_elim in Heu as [Hu Hus'].
    destruct (Hf x y t u (list_elem_of_here _ _) (list_elem_of_here _ _) Hx Hy Ht Hu) as (b & -> & Hb).
    cbn. destruct b.
    + apply (decides_iff _ (ts' = us')); [split; [intros ->; f_equal; by apply Hb|by intros [= _ ?]]|].
      apply IH; [|lia|done..]. intros. by eapply Hf; try apply list_elem_of_further.
    + exists false. split; [done|]. split; [done|]. intros [= Htu _]. by apply Hb in Htu.
Qed.

Lemma mapM_same_length {A B} (f : A -> option B) l k : mapM f l = Some k -> length k = length l.
Proof. intros H%mapM_Some. by apply Forall2_length in H. Qed.

Lemma lists_equal_decides f (g : Value -> option Tree) xs ys ts us :
  (forall x y t u, g x = Some t -> g y = Some u -> exact t -> exact u -> decides (f x y) (t = u)) ->
  mapM g xs = Some ts -> mapM g ys = Some us -> forallb exact ts -> forallb exact us ->
  decides (lists_equal f xs ys) (ts = us).
Proof.
  intros Hf Hts Hus Het Heu. unfold lists_equal. case_decide as Hlen.
  - eapply (all_zip_decides f g); try done. intros; by eapply Hf.
  - exists false. split; [done|]. split; [done|]. intros ->.
    by rewrite <- (mapM_same_length _ _ _ Hts), <- (mapM_same_length _ _ _ Hus) in Hlen.
Qed.

Ltac flatten :=
  repeat match goal with
  | H : exists _, _ |- _ => destruct H
  | H : _ /\ _ |- _ => destruct H
  | H : match ?o with Some _ => _ | None => _ end |- _ => destruct o eqn:?
  end; subst.

Ltac rewrite_accessors :=
  repeat match goal with
  | H : enum_tag _ _ = _ |- _ => rewrite H in *; clear H
  | H : enum_payload_ref _ _ = _ |- _ => rewrite H in *; clear H
  | H : erased_type_id _ _ = _ |- _ => rewrite H in *; clear H
  | H : erased_payload_ref _ _ = _ |- _ => rewrite H in *; clear H
  end.

Lemma values_equal_decides fuel : forall h v w t u,
  view fuel h v = Some t -> view fuel h w = Some u -> exact t -> exact u ->
  decides (values_equal_fuel fuel h v w) (t = u).
Proof.
  induction fuel as [|fuel IH]; intros h v w t u Hv Hw Ht Hu; [done|].
  apply view_cases in Hv. apply view_cases in Hw.
  assert (forall b : bool, (b = true <-> t = u) -> decides (Some b) (t = u)) as Hdone by (intros b ?; by exists b).
  assert (forall p : Prop, (p <-> t = u) -> forall o, decides o p -> decides o (t = u)) as Hvia
    by (intros p Hp o; by apply decides_iff).
  destruct v; cbn [values_equal_fuel]; flatten; try done.
  all: destruct w; flatten; try done; cbn [objects_equal seam_word];
    try (apply Hdone; split; [done|discriminate]).
  - apply Hdone. rewrite Z.eqb_eq. by split; [intros ->|intros [= ->]].
  - apply Hdone. rewrite Bool.eqb_true_iff. by split; [intros ->|intros [= ->]].
  - apply Hdone. rewrite bool_decide_eq_true. by split; [intros ->|intros [= ->]].
  - eapply Hvia; [|eapply (lists_equal_decides _ (view fuel h)); [intros; by eapply IH|done..]]. by split; [intros ->|intros [= ->]].
  - eapply Hvia; [|eapply (lists_equal_decides _ (view fuel h)); [intros; by eapply IH|done..]]. by split; [intros ->|intros [= ->]].
  - rewrite_accessors. case_decide as Hd; [|apply Hdone; split; [done|congruence]].
    eapply Hvia; [|by eapply IH]. injection Hd as ->. by split; [intros ->|intros [= ->]].
  - rewrite_accessors. case_decide; apply Hdone; (split; [done|congruence]).
  - rewrite_accessors. case_decide; apply Hdone; (split; [done|congruence]).
  - rewrite_accessors. case_decide as Hd; apply Hdone; (split; [|congruence]); [|done].
    by injection Hd as ->.
  - rewrite_accessors. case_decide as Hd; [|apply Hdone; split; [done|congruence]].
    eapply Hvia; [|by eapply IH]. injection Hd as ->. by split; [intros ->|intros [= ->]].
  - apply Hdone. rewrite bool_decide_eq_true. by split; [intros ->|intros [= ->]].
  - apply Hdone. rewrite Z.eqb_eq. by split; [intros ->|intros [= ->]].
  - apply Hdone. rewrite Z.eqb_eq. by split; [intros ->|intros [= ->]].
  - apply Hdone. rewrite Z.eqb_eq. by split; [intros ->|intros [= ->]].
  - apply Hdone. rewrite andb_true_iff, !Z.eqb_eq. by split; [intros [-> ->]|intros [= -> ->]].
  - by apply Hdone.
Qed.

(** C30: Equality follows handles: on exact values it is equality of what they
    denote, so a value and a copy of it are equal, wherever they are stored. *)
Theorem equality_is_denotational h v w t u :
  denotes h v t -> denotes h w u -> exact t -> exact u ->
  exists b, values_equal h v w = Some b /\ (b = true <-> t = u).
Proof.
  intros Hv Hw. apply values_equal_decides; by apply view_bound.
Qed.

(** ** Hashing *)

(** What [Hashable] admits. *)
Definition hashable_leaf (v : Value) : bool :=
  match v with V_Int _ | V_Bool _ => true | _ => false end.

Fixpoint hashable (t : Tree) : bool :=
  match t with
  | T_Inline v => hashable_leaf v
  | T_Str _ | T_Enum _ None => true
  | T_Struct ts | T_Array ts => forallb hashable ts
  | T_Enum _ (Some t) => hashable t
  | T_Erased _ _ | T_Snapshot _ | T_CBlock _ _ => false
  end.

(** The bytes a hashable tree folds. *)
Fixpoint hash_bytes (t : Tree) : list byte :=
  match t with
  | T_Inline (V_Int i) => to_le 8 i
  | T_Inline (V_Bool b) => [byte_of_Z (Z.b2z b)]
  | T_Str text => text
  | T_Struct ts => concat (hash_bytes <$> ts)
  | T_Array ts => to_le 8 (Z.of_nat (length ts)) ++ concat (hash_bytes <$> ts)
  | T_Enum tag None => to_le 8 tag
  | T_Enum tag (Some t) => to_le 8 tag ++ hash_bytes t
  | _ => []
  end.

Lemma feed_app acc xs ys : feed acc (xs ++ ys) = feed (feed acc xs) ys.
Proof. apply foldl_app. Qed.

Lemma fold_hash fuel h vs : forall acc ts,
  (forall acc v t, view fuel h v = Some t -> hashable t -> hash_into fuel h acc v = Some (feed acc (hash_bytes t))) ->
  mapM (view fuel h) vs = Some ts -> forallb hashable ts ->
  fold_opt (hash_into fuel h) acc vs = Some (feed acc (concat (hash_bytes <$> ts))).
Proof.
  induction vs as [|v vs IH]; intros acc ts Hf Hts Hh; cbn in *; [by injection Hts as <-|].
  destruct (view fuel h v) as [t|] eqn:Hv; cbn in *; [|done].
  destruct (mapM (view fuel h) vs) as [ts'|] eqn:Evs; cbn in *; [|done]. injection Hts as <-.
  cbn in Hh |- *. apply andb_prop_elim in Hh as [Ht Hh]. rewrite (Hf _ _ _ Hv Ht). cbn.
  rewrite (IH _ ts' Hf eq_refl Hh). by rewrite feed_app.
Qed.

Lemma hash_into_bytes fuel : forall h acc v t,
  view fuel h v = Some t -> hashable t -> hash_into fuel h acc v = Some (feed acc (hash_bytes t)).
Proof.
  induction fuel as [|fuel IH]; intros h acc v t Hv Ht; [done|]. apply view_cases in Hv.
  destruct v; cbn [hash_into]; flatten; try done.
  - by apply (fold_hash fuel); [intros; by apply IH|..].
  - rewrite (fold_hash fuel h _ _ x); [|intros; by apply IH|done|done].
    cbn. by rewrite feed_app, (mapM_same_length _ _ _ H).
  - unfold tag_or_zero. rewrite_accessors. cbn. rewrite feed_app. by apply IH.
  - unfold tag_or_zero. by rewrite_accessors.
Qed.

(** Hashing reads what a value denotes: FNV-1a over its canonical bytes. *)
Lemma hash_value_bytes h v t :
  denotes h v t -> hashable t -> hash_value h v = Some (swrap 64 (feed FNV_SEED (hash_bytes t))).
Proof. intros Hv Ht. unfold hash_value. by rewrite (hash_into_bytes _ _ _ _ _ (view_bound _ _ _ Hv) Ht). Qed.

Lemma hashable_exact_list ts (IH : Forall (fun t => hashable t -> exact t) ts) :
  forallb hashable ts -> forallb exact ts.
Proof.
  induction IH as [|t ts Ht _ IHts]; cbn; [done|]. intros [H1 H2]%andb_prop_elim.
  apply andb_prop_intro. split; [by apply Ht|by apply IHts].
Qed.

Fixpoint hashable_exact (t : Tree) : hashable t -> exact t.
Proof.
  assert (forall ts, Forall (fun t => hashable t -> exact t) ts) as Hall
    by (induction ts; constructor; [apply hashable_exact|done]).
  destruct t as [v| |ts|ts|tag [t|]| | |]; cbn; try done.
  - by destruct v.
  - by apply hashable_exact_list.
  - by apply hashable_exact_list.
  - apply hashable_exact.
Defined.

(** C22: The contract of [Hashable] with [==]: two hashable values that are equal
    hash to one word, wherever they are stored. *)
Theorem equal_values_hash_equal h v w t u :
  denotes h v t -> denotes h w u -> hashable t -> hashable u ->
  values_equal h v w = Some true -> hash_value h v = hash_value h w.
Proof.
  intros Hv Hw Ht Hu Heq.
  destruct (values_equal_decides _ h v w t u (view_bound _ _ _ Hv) (view_bound _ _ _ Hw)) as (b & Hb & Hbtu);
    [by apply hashable_exact..|].
  unfold values_equal in Heq. rewrite Heq in Hb. injection Hb as <-. destruct Hbtu as [Htu _]. specialize (Htu eq_refl). subst.
  by rewrite (hash_value_bytes h v u), (hash_value_bytes h w u).
Qed.

(** ** Order *)

Lemma bytes_compare_swap a : forall b, bytes_compare b a = CompOpp (bytes_compare a b).
Proof.
  induction a as [|x a IH]; intros [|y b]; try done. cbn. rewrite (Z.compare_antisym (byte_to_Z x)).
  rewrite IH. by destruct (byte_to_Z x ?= byte_to_Z y).
Qed.

Lemma bytes_compare_eq a : forall b, bytes_compare a b = Eq <-> a = b.
Proof.
  induction a as [|x a IH]; intros [|y b]; try done. cbn.
  destruct (Z.compare_spec (byte_to_Z x) (byte_to_Z y)) as [H|H|H]; [|split; [done|intros [= -> _]; lia]..].
  assert (x = y) as -> by (rewrite <- (byte_of_to_Z x), H; apply byte_of_to_Z).
  rewrite IH. by split; [intros ->|intros [= ->]].
Qed.

Lemma option_compare_swap a b : option_compare b a = CompOpp (option_compare a b).
Proof. destruct a, b; try done. apply Z.compare_antisym. Qed.

Lemma option_compare_eq a b : option_compare a b = Eq <-> a = b.
Proof. destruct a, b; try done. cbn. rewrite Z.compare_eq_iff. by split; [intros ->|intros [= ->]]. Qed.

Lemma float_order_swap a b : float_order b a = CompOpp (float_order a b).
Proof.
  pose proof (f64_trichotomy a b) as H. unfold float_order. unfold f64_gt in *.
  destruct (f64_compare a b) as [[]|]; destruct H as (-> & _ & ->); done.
Qed.

Lemma align_swap a b :
  align b a = match align a b with Ok (l, r, s) => Ok (r, l, s) | Err e => Err e end.
Proof.
  unfold align. rewrite (Z.max_comm (scale b)).
  by destruct (wide_at a (Z.max (scale a) (scale b))), (wide_at b (Z.max (scale a) (scale b))).
Qed.

Lemma number_compare_swap a b : number_compare b a = CompOpp (number_compare a b).
Proof.
  unfold number_compare, compare. rewrite (align_swap a b).
  destruct (align a b) as [[[l r] s]|]; [|done]. cbn. apply Z.compare_antisym.
Qed.

Lemma compare_zip_swap {A} (f : A -> A -> option comparison) xs : forall ys rest,
  (forall x y, f y x = CompOpp <$> f x y) ->
  compare_zip f (CompOpp rest) ys xs = CompOpp <$> compare_zip f rest xs ys.
Proof.
  induction xs as [|x xs IH]; intros [|y ys] rest Hf; try done. cbn. rewrite (Hf x y).
  destruct (f x y) as [c|]; cbn; [|done]. destruct c; cbn; [by apply IH|done|done].
Qed.

(** Comparing the other way round reverses the answer, for any two values. *)
Lemma compare_antisymmetric fuel : forall h v w,
  compare_values_fuel fuel h w v = CompOpp <$> compare_values_fuel fuel h v w.
Proof.
  induction fuel as [|fuel IH]; intros h v w; [done|].
  destruct v, w; cbn [compare_values_fuel]; try done.
  - cbn. by rewrite (Z.compare_antisym i).
  - cbn. by rewrite (float_order_swap bits).
  - by destruct b, b0.
  - cbn. by rewrite (number_compare_swap d).
  - cbn. by rewrite (bytes_compare_swap (get h id)).
  - by apply (compare_zip_swap (compare_values_fuel fuel h) _ _ Eq).
  - rewrite Nat.compare_antisym. by apply compare_zip_swap.
  - rewrite option_compare_swap. destruct (option_compare (enum_tag h id) (enum_tag h id0)); cbn; try done.
    destruct (enum_payload_ref h id), (enum_payload_ref h id0); try done.
Qed.

(** Two trees of one [Ordered] type, floats apart. *)
Fixpoint alike (t u : Tree) : Prop :=
  let pairs := (fix go (ts us : list Tree) : Prop :=
    match ts, us with t :: ts, u :: us => alike t u /\ go ts us | _, _ => True end) in
  match t, u with
  | T_Inline (V_Int _), T_Inline (V_Int _) => True
  | T_Inline (V_Bool _), T_Inline (V_Bool _) => True
  | T_Inline (V_Number a), T_Inline (V_Number b) => decimal_ok a /\ decimal_ok b
  | T_Str _, T_Str _ => True
  | T_Struct ts, T_Struct us => length ts = length us /\ pairs ts us
  | T_Array ts, T_Array us => pairs ts us
  | T_Enum tag p, T_Enum tag' p' => tag = tag' ->
    match p, p' with Some t, Some u => alike t u | None, None => True | _, _ => False end
  | _, _ => False
  end.

(** A comparison and an equality test that agree on what is equal. *)
Definition agree (c : option comparison) (b : option bool) : Prop :=
  exists c' b', c = Some c' /\ b = Some b' /\ (c' = Eq <-> b' = true).

Lemma zip_agree fuel h vs : forall ws ts us rest,
  (forall v w t u, view fuel h v = Some t -> view fuel h w = Some u -> alike t u ->
    agree (compare_values_fuel fuel h v w) (values_equal_fuel fuel h v w)) ->
  mapM (view fuel h) vs = Some ts -> mapM (view fuel h) ws = Some us ->
  (fix go (ts us : list Tree) : Prop :=
    match ts, us with t :: ts, u :: us => alike t u /\ go ts us | _, _ => True end) ts us ->
  (exists c, compare_zip (compare_values_fuel fuel h) rest vs ws = Some c /\
    (rest <> Eq -> c <> Eq)) /\
  (length vs = length ws -> rest = Eq ->
    agree (compare_zip (compare_values_fuel fuel h) rest vs ws) (all_zip (values_equal_fuel fuel h) vs ws)).
Proof.
  induction vs as [|v vs IH]; intros [|w ws] ts us rest Hf Hts Hus Hal; cbn;
    try (split; [by eexists|try done; intros; by exists Eq, true]).
  { split; [by eexists|]. intros _ ->. by exists Eq, true. }
  cbn in Hts, Hus. destruct (view fuel h v) as [t|] eqn:Hv; cbn in *; [|done].
  destruct (mapM (view fuel h) vs) as [ts'|] eqn:Evs; cbn in *; [|done]. injection Hts as <-.
  destruct (view fuel h w) as [u|] eqn:Hw; cbn in *; [|done].
  destruct (mapM (view fuel h) ws) as [us'|] eqn:Ews; cbn in *; [|done]. injection Hus as <-.
  destruct Hal as [Htu Hal]. destruct (Hf v w t u Hv Hw Htu) as (c & b & Hc & Hb & Hcb).
  rewrite Hc, Hb. cbn.
  destruct (IH ws ts' us' rest Hf eq_refl Ews Hal) as [H1 H2].
  destruct c, b; try (by destruct Hcb as [Hx Hy]; try specialize (Hx eq_refl); try specialize (Hy eq_refl)).
  - split; [done|]. intros Hlen Hr. apply H2; [lia|done].
  - split; [by eexists|]. intros _ _. by exists Lt, false.
  - split; [by eexists|]. intros _ _. by exists Gt, false.
Qed.

(** The enum arms of the two walks, on tags that are there. *)
Lemma enum_agrees (tag tag' : Z) (c : option comparison) (b : option bool) :
  (tag = tag' -> agree c b) ->
  agree (match option_compare (Some tag) (Some tag') with Eq => c | order => Some order end)
    (if decide (Some tag = Some tag') then b else Some false).
Proof.
  intros H. cbn. destruct (Z.compare_spec tag tag') as [Ht|Ht|Ht].
  - rewrite decide_True by congruence. by apply H.
  - rewrite decide_False by (intros [= ?]; lia). by exists Lt, false.
  - rewrite decide_False by (intros [= ?]; lia). by exists Gt, false.
Qed.

Lemma compare_agrees fuel : forall h v w t u,
  view fuel h v = Some t -> view fuel h w = Some u -> alike t u ->
  agree (compare_values_fuel fuel h v w) (values_equal_fuel fuel h v w).
Proof.
  induction fuel as [|fuel IH]; intros h v w t u Hv Hw Hal; [done|].
  apply view_cases in Hv. apply view_cases in Hw.
  destruct v; flatten; try (by destruct Hal); destruct w; flatten; try (by destruct Hal);
    cbn [compare_values_fuel values_equal_fuel objects_equal].
  - exists (i ?= i0), (i =? i0). by rewrite Z.compare_eq_iff, Z.eqb_eq.
  - exists (bool_compare b b0), (eqb b b0). by destruct b, b0.
  - destruct Hal as [Ha Hb]. unfold number_compare, number_equals, equals.
    rewrite (compare_spec d d0 Ha Hb). eexists _, _. split_and!; [done|done|]. by destruct (Qcompare (value d) (value d0)).
  - eexists _, _. split_and!; [done|done|]. by rewrite bytes_compare_eq, bool_decide_eq_true.
  - destruct Hal as [Hlen Hal]. rename select (mapM _ (fields h id) = _) into Hl.
    rename select (mapM _ (fields h id0) = _) into Hr.
    rewrite (mapM_same_length _ _ _ Hl), (mapM_same_length _ _ _ Hr) in Hlen.
    destruct (zip_agree fuel h _ _ _ _ Eq (IH h) Hl Hr Hal) as [_ Hz].
    unfold lists_equal. rewrite decide_True by done. by apply Hz.
  - rename select (mapM _ (elements h id) = _) into Hl. rename select (mapM _ (elements h id0) = _) into Hr.
    destruct (zip_agree fuel h _ _ _ _
      (Nat.compare (length (elements h id)) (length (elements h id0))) (IH h) Hl Hr Hal) as [(c & Hc & Hne) Hz].
    unfold lists_equal. case_decide as Hlen.
    + apply Hz; [done|]. by apply Nat.compare_eq_iff.
    + exists c, false. split_and!; [done|done|]. split; [|done]. intros ->. exfalso. apply Hne; [|done].
      by rewrite Nat.compare_eq_iff.
  - rewrite_accessors. apply enum_agrees. intros <-. eapply IH; [done|done|by apply Hal].
  - rewrite_accessors. apply enum_agrees. intros <-. by destruct (Hal eq_refl).
  - rewrite_accessors. apply enum_agrees. intros <-. by destruct (Hal eq_refl).
  - rewrite_accessors. apply enum_agrees. intros <-. by exists Eq, true.
Qed.


(** ** Deferred reads *)

(** A deferred read of [[1]] next to the array [[1]]. *)
Definition deferred_heap (node : NativeStateValue) : Heap :=
  let '(h, v) := read_state_node node heap_new in (from_native_state node h).1.

(** A deferred read equals the value it was read as, but hashes and orders as
    nothing at all. *)
Lemma deferred_read_hashes_apart :
  let h := deferred_heap (NS_Array [NS_Int 1]) in
  let read := V_NativeSnapshot 0 in let rebuilt := V_Array 1 in
  values_equal h read rebuilt = Some true /\
  hash_value h read = Some (swrap 64 FNV_SEED) /\ hash_value h rebuilt <> hash_value h read.
Proof. vm_compute. split_and!; done. Qed.

Lemma deferred_reads_compare_equal :
  let '(h, one) := read_state_node (NS_Array [NS_Int 1]) heap_new in
  let '(h, two) := read_state_node (NS_Array [NS_Int 2]) h in
  values_equal h one two = Some false /\ compare_values h one two = Some Eq.
Proof. vm_compute. by split. Qed.

(** A deferred read with a decimal in it equals nothing it was read as. *)
Lemma deferred_decimal_unequal :
  let n := NS_Array [NS_Number {| mantissa := 5; scale := 1 |}] in
  let h := deferred_heap n in
  values_equal h (V_NativeSnapshot 0) (V_Array 1) = Some false /\
  values_equal h (V_Array 1) (V_Array 1) = Some true /\
  values_equal h (V_NativeSnapshot 0) (V_NativeSnapshot 0) = Some true.
Proof. vm_compute. by split_and!. Qed.

(** Erased type descriptors never compare equal, themselves included. *)
Lemma type_descriptors_unequal h id : values_equal h (V_Type id) (V_Type id) = Some false.
Proof. done. Qed.
End Facts.

(** ** Witnesses *)

#[local] Instance equality_pages : Allocator := {| payload_address n := 4096 * Z.of_nat (S n) |}.

(** The structs [{7, "a"}], twice, and [{7, "b"}]. *)
Definition pairs_heap : Heap :=
  (map_heap (fun text h => let '(h, id) := alloc text h in
                           let '(h, s) := new_struct [V_Int 7; V_Str id] h in (h, V_Struct s))
     [[x61]; [x61]; [x62]] heap_new).1.

Definition pair_tree (text : rstring) : Tree := T_Struct [T_Inline (V_Int 7); T_Str text].

Lemma equality_is_denotational_witness :
  exists b, values_equal pairs_heap (V_Struct 1) (V_Struct 3) = Some b /\
    (b = true <-> pair_tree [x61] = pair_tree [x61]).
Proof.
  apply (equality_is_denotational pairs_heap (V_Struct 1) (V_Struct 3) (pair_tree [x61]) (pair_tree [x61]));
    [exists 2%nat; vm_compute; reflexivity|exists 2%nat; vm_compute; reflexivity|exact I|exact I].
Defined.

Lemma equal_values_hash_equal_witness :
  hash_value pairs_heap (V_Struct 1) = hash_value pairs_heap (V_Struct 3).
Proof.
  apply (equal_values_hash_equal pairs_heap (V_Struct 1) (V_Struct 3) (pair_tree [x61]) (pair_tree [x61]));
    [exists 2%nat; vm_compute; reflexivity|exists 2%nat; vm_compute; reflexivity|exact I|exact I
    |vm_compute; reflexivity].
Defined.

