(* ===== verification/VmState.v ===== *)
(** The interpreter's state and its operand-stack helpers:
    [kira-vm-runtime/src/interp.rs], [interp/helpers.rs], [error.rs].

    An instruction is a computation over the VM and the frame it runs in.  It
    ends normally or stops: with a trap of the source, at a point where control
    passes to host capabilities outside this model ([Crosses]), where the source
    would panic ([Panics]), or in a recursion over the heap that does not end, as
    it does not on a value that holds itself ([Overflows]).  The operand stack, the frame stack and the
    list of running [Drop] bodies are [Vec]s used as stacks, their top first.
    The scratch buffers the source keeps for their capacity are always empty
    between operations and are not part of the state. *)

From stdpp Require Import gmap strings.
From S2P Require Import Prelude.
From S2P Require Import AbiOps.
From S2P Require Import Instruction.
From S2P Require Import Tasks.
From S2P Require Import Channels.
From S2P Require Import Foreign.
From S2P Require Import Validate.
From S2P Require Import IntWidth.
From S2P Require Import DecimalNumber.
From S2P Require Import NativeState.
From S2P Require Import Heap.

(** ** Errors: [VmError], the variants these instructions raise *)

Inductive NativeStateOperation := Op_Store | Op_UserData.

Inductive VmError :=
| E_UnexpectedSuspend
| E_DivideByZero
| E_IntegerOverflow (spelling : IntWidth)
| E_ShiftOutOfRange (count bits : Z)
| E_NarrowingOutOfRange (value : Z) (spelling : IntWidth)
| E_TypeCastFailed (actual expected : Z)
| E_FloatToIntOutOfRange (value : Z)
| E_StackUnderflow
| E_TypeMismatch (expected : string)
| E_UnknownFunction (index : Z)
| E_ArityMismatch (function expected : Z) (got : nat)
| E_NativeStateValueMismatch (operation : NativeStateOperation) (kind : string)
| E_BadJump (target : Z)
| E_CallDepthExceeded
| E_FrameUnderflow
| E_BadDispatch
| E_UnprintableValue
| E_NotAStruct
| E_NoSuchField (index : Z)
| E_LocalSlotOutOfRange (slot : Z)
| E_StringConstantOutOfRange (index : Z)
| E_ConstantUninitialized (slot : Z)
| E_EmptyFieldPath
| E_NotAnArray
| E_NotAString
| E_NotAWholeNumber
| E_IndexOutOfBounds
| E_NegativeIndex
| E_StringIndexOutOfBounds
| E_InvertedSubstring
| E_ArrayTooLong
| E_NotAnEnum
| E_NotACell
| E_MissingEnumPayload
| E_NumberTrap (e : DecimalError)
| E_Aborted (message : rstring)
| E_Task (trap : TaskTrap)
| E_Channel (trap : ChannelTrap)
| E_Module (e : ModuleValidateError)
| E_NoEntrypoint
| E_NativeEntry (function : Z)
| E_DanglingRoot (root : Z)
| E_UncrossableExport (function : Z) (kind : string)
| E_RootSpaceExhausted.

Inductive Stop :=
| Trap (e : VmError)
| Crosses
| Panics
| Overflows.

(** ** State *)

(** Whether the host answers [channel_op] from a table of its own. *)
Class HostChannels := { host_channels : bool }.

(** [ResolvedStep]. *)
Inductive ResolvedStep := RS_Field (index : Z) | RS_Index (index : Z).

Record Writeback := { w_param : Z; w_slot : Z; w_steps : list ResolvedStep }.

Record Frame := {
  func : Z;
  pc : nat;
  locals : list Value;
  live : list bool;
  writebacks : list Writeback;
  capture : list Z
}.

Record Vm := {
  heap : Heap;
  stack : list Value;
  constants : list Value;
  initializing_constants : bool;
  pending_capture : list Z;
  captured : list (Z * Value);
  tasks : TaskExecutor;
  channels : ChannelExecutor;
  frame_cache : list Frame;
  running_drops : list (nat * nat);
  slice_budget : option Z;
  (** Lines handed to [host.write_line]. *)
  written : list rstring
}.

Definition with_heap (h : Heap) (v : Vm) : Vm :=
  {| heap := h; stack := stack v; constants := constants v;
     initializing_constants := initializing_constants v; pending_capture := pending_capture v;
     captured := captured v; tasks := tasks v; channels := channels v; frame_cache := frame_cache v;
     running_drops := running_drops v; slice_budget := slice_budget v; written := written v |}.

Definition with_stack (s : list Value) (v : Vm) : Vm :=
  {| heap := heap v; stack := s; constants := constants v;
     initializing_constants := initializing_constants v; pending_capture := pending_capture v;
     captured := captured v; tasks := tasks v; channels := channels v; frame_cache := frame_cache v;
     running_drops := running_drops v; slice_budget := slice_budget v; written := written v |}.

Definition with_constants (c : list Value) (busy : bool) (v : Vm) : Vm :=
  {| heap := heap v; stack := stack v; constants := c;
     initializing_constants := busy; pending_capture := pending_capture v;
     captured := captured v; tasks := tasks v; channels := channels v; frame_cache := frame_cache v;
     running_drops := running_drops v; slice_budget := slice_budget v; written := written v |}.

Definition with_capture (pending : list Z) (done : list (Z * Value)) (v : Vm) : Vm :=
  {| heap := heap v; stack := stack v; constants := constants v;
     initializing_constants := initializing_constants v; pending_capture := pending;
     captured := done; tasks := tasks v; channels := channels v; frame_cache := frame_cache v;
     running_drops := running_drops v; slice_budget := slice_budget v; written := written v |}.

Definition with_executors (t : TaskExecutor) (c : ChannelExecutor) (v : Vm) : Vm :=
  {| heap := heap v; stack := stack v; constants := constants v;
     initializing_constants := initializing_constants v; pending_capture := pending_capture v;
     captured := captured v; tasks := t; channels := c; frame_cache := frame_cache v;
     running_drops := running_drops v; slice_budget := slice_budget v; written := written v |}.

Definition with_cache (fs : list Frame) (v : Vm) : Vm :=
  {| heap := heap v; stack := stack v; constants := constants v;
     initializing_constants := initializing_constants v; pending_capture := pending_capture v;
     captured := captured v; tasks := tasks v; channels := channels v; frame_cache := fs;
     running_drops := running_drops v; slice_budget := slice_budget v; written := written v |}.

Definition with_drops (d : list (nat * nat)) (v : Vm) : Vm :=
  {| heap := heap v; stack := stack v; constants := constants v;
     initializing_constants := initializing_constants v; pending_capture := pending_capture v;
     captured := captured v; tasks := tasks v; channels := channels v; frame_cache := frame_cache v;
     running_drops := d; slice_budget := slice_budget v; written := written v |}.

Definition with_budget (b : option Z) (v : Vm) : Vm :=
  {| heap := heap v; stack := stack v; constants := constants v;
     initializing_constants := initializing_constants v; pending_capture := pending_capture v;
     captured := captured v; tasks := tasks v; channels := channels v; frame_cache := frame_cache v;
     running_drops := running_drops v; slice_budget := b; written := written v |}.

Definition with_written (w : list rstring) (v : Vm) : Vm :=
  {| heap := heap v; stack := stack v; constants := constants v;
     initializing_constants := initializing_constants v; pending_capture := pending_capture v;
     captured := captured v; tasks := tasks v; channels := channels v; frame_cache := frame_cache v;
     running_drops := running_drops v; slice_budget := slice_budget v; written := w |}.

Definition set_pc (n : nat) (f : Frame) : Frame :=
  {| func := func f; pc := n; locals := locals f; live := live f; writebacks := writebacks f;
     capture := capture f |}.
Definition set_locals (l : list Value) (b : list bool) (f : Frame) : Frame :=
  {| func := func f; pc := pc f; locals := l; live := b; writebacks := writebacks f;
     capture := capture f |}.
Definition set_writebacks (w : list Writeback) (f : Frame) : Frame :=
  {| func := func f; pc := pc f; locals := locals f; live := live f; writebacks := w;
     capture := capture f |}.
Definition set_capture (c : list Z) (f : Frame) : Frame :=
  {| func := func f; pc := pc f; locals := locals f; live := live f; writebacks := writebacks f;
     capture := c |}.

(** ** Computations *)

(** [&mut self] and [&mut Frame], failing with a [Stop]. *)
Definition State : Type := Vm * Frame.
Abbreviation M := (st State Stop).

Definition trap {A} (e : VmError) : M A := st_fail (Trap e).
Definition crosses {A} : M A := st_fail Crosses.
Definition panics {A} : M A := st_fail Panics.

Definition get_vm : M Vm := fun s => (s, Ok s.1).
Definition get_frame : M Frame := fun s => (s, Ok s.2).
Definition put_vm (f : Vm -> Vm) : M unit := fun s => ((f s.1, s.2), Ok tt).
Definition put_frame (f : Frame -> Frame) : M unit := fun s => ((s.1, f s.2), Ok tt).
Definition get_heap : M Heap := fun s => (s, Ok (heap s.1)).

(** A heap operation, with and without an answer. *)
Definition on_heap {A} (f : Heap -> Heap * A) : M A := fun s =>
  let '(h, a) := f (heap s.1) in ((with_heap h s.1, s.2), Ok a).
Definition heap_do (f : Heap -> Heap) : M unit := on_heap (fun h => (f h, tt)).

(** [ok_or]. *)
Definition need {A} (o : option A) (e : VmError) : M A :=
  match o with Some a => mret a | None => trap e end.

(** [if let Err(error) = .. { cleanup; return Err(error) }]. *)
Definition on_trap {A} (m : M A) (cleanup : M unit) : M A := fun s =>
  match m s with
  | (s, Err (Trap e)) => match cleanup s with (s, Ok _) => (s, Err (Trap e)) | (s, Err e) => (s, Err e) end
  | r => r
  end.

(** An index into a [Vec] the source does without a check. *)
Definition index_or_panic {A} (l : list A) (i : nat) : M A :=
  match l !! i with Some a => mret a | None => panics end.

(** ** The operand stack *)

Section Stack.
Context {host : Host} {allocator : Allocator}.

Definition push (v : Value) : M unit := put_vm (fun vm => with_stack (v :: stack vm) vm).

Definition pop : M Value := fun s =>
  match stack s.1 with
  | v :: rest => ((with_stack rest s.1, s.2), Ok v)
  | [] => (s, Err (Trap E_StackUnderflow))
  end.

Definition drop_v (v : Value) : M unit := heap_do (drop_value v).

(** [discard]. *)
Definition discard (vs : list Value) : M unit := heap_do (drop_all drop_value vs).

Definition mismatch {A} (v : Value) (expected : string) : M A :=
  _ ← drop_v v; trap (E_TypeMismatch expected).

(** [pop_operands]: the top of the stack first; on underflow what was popped is
    released. *)
Fixpoint pop_operands_from (popped : list Value) (count : nat) : M (list Value) :=
  match count with
  | O => mret popped
  | S count => v ← on_trap pop (discard popped); pop_operands_from (popped ++ [v]) count
  end.
Definition pop_operands (count : nat) : M (list Value) := pop_operands_from [] count.

Definition pop_int : M Z :=
  v ← pop; match v with V_Int i => mret i | other => mismatch other "Int" end.
Definition pop_float : M Z :=
  v ← pop; match v with V_Float x => mret x | other => mismatch other "Float" end.
Definition pop_bool : M bool :=
  v ← pop; match v with V_Bool b => mret b | other => mismatch other "Bool" end.
Definition pop_str : M nat :=
  v ← pop; match v with V_Str id => mret id | other => mismatch other "String" end.

(** [Heap::free]. *)
Definition free_str (id : nat) : M unit := heap_do (free_str_at id).

Definition pop_two_str : M (nat * nat) :=
  rhs ← pop_str;
  lhs ← on_trap pop_str (free_str rhs);
  mret (lhs, rhs).

Definition pop_foreign_pointer : M Z :=
  v ← pop;
  match v with V_RawPtr address => mret address | other => mismatch other "a pointer into C storage" end.

(** [self.stack.split_off(len - count)]: the top [count] values in the order
    they were pushed. *)
Definition split_off (count : nat) : M (list Value) := fun s =>
  let st := stack s.1 in
  if decide (count <= length st)%nat
  then ((with_stack (drop count st) s.1, s.2), Ok (rev (firstn count st)))
  else (s, Err (Trap E_StackUnderflow)).
End Stack.
