(* ===== verification/VmText.v ===== *)
(** Text as the interpreter's string instructions use it: what
    [interp/strings.rs] and the [StringOf] and [ScalarText] arms of
    [interp/instructions.rs] ask of Rust's [str].

    A string is its UTF-8 bytes.  Searching and splitting are done on bytes,
    which on valid UTF-8 is the same as on characters; the places where
    character boundaries matter ask [is_char_boundary]. *)

From S2P Require Import Prelude.
From S2P Require Import AbiOps.
From S2P Require Import Foreign.
From S2P Require Import ModuleFormat.
From S2P Require Import DecimalNumber.

(** ** Characters *)

(** A byte that continues a character. *)
Definition is_continuation (b : byte) : bool := (128 <=? byte_to_Z b) && (byte_to_Z b <? 192).

Definition is_char_boundary (text : rstring) (i : nat) : bool :=
  match text !! i with
  | Some b => bool_decide (i = 0%nat) || negb (is_continuation b)
  | None => bool_decide (i = length text)
  end.

(** [text.get(from..to)] for [from <= to]. *)
Definition get_range (text : rstring) (from to : nat) : option rstring :=
  if is_char_boundary text from && is_char_boundary text to then Some (take (to - from) (drop from text))
  else None.

(** [String::pop]: the last character goes. *)
Fixpoint pop_rev (text : rstring) : rstring :=
  match text with [] => [] | b :: rest => if is_continuation b then pop_rev rest else rest end.
Definition drop_last_scalar (text : rstring) : rstring := rev (pop_rev (rev text)).

(** [char::from_u32]. *)
Definition is_scalar (code : Z) : bool :=
  (0 <=? code) && (code <? 0x110000) && negb ((0xd800 <=? code) && (code <? 0xe000)).

(** A character's UTF-8. *)
Definition encode_char (code : Z) : rstring :=
  let cont n := byte_of_Z (0x80 + Z.land (Z.shiftr code n) 0x3f) in
  if code <? 0x80 then [byte_of_Z code]
  else if code <? 0x800 then [byte_of_Z (0xc0 + Z.shiftr code 6); cont 0]
  else if code <? 0x10000 then [byte_of_Z (0xe0 + Z.shiftr code 12); cont 6; cont 0]
  else [byte_of_Z (0xf0 + Z.shiftr code 18); cont 12; cont 6; cont 0].

(** [u32::try_from(code).ok().and_then(char::from_u32).map(String::from).unwrap_or_default()]. *)
Definition scalar_text (code : Z) : rstring := if is_scalar code then encode_char code else [].

(** ** Searching *)

Definition starts_with (p text : rstring) : bool :=
  match strip_prefix p text with Some _ => true | None => false end.

Definition ends_with (s text : rstring) : bool := starts_with (rev s) (rev text).

(** [str::find]. *)
Fixpoint find (p text : rstring) : option nat :=
  if starts_with p text then Some 0%nat
  else match text with [] => None | _ :: text => S <$> find p text end.

Definition contains (p text : rstring) : bool := match find p text with Some _ => true | None => false end.

(** [str::split] by a separator that is not empty; each piece but the last ends
    at a separator, so the text is shorter after it. *)
Fixpoint split_fuel (fuel : nat) (sep text : rstring) : list rstring :=
  match fuel with
  | O => [text]
  | S fuel =>
    match find sep text with
    | Some i => take i text :: split_fuel fuel sep (drop (i + length sep) text)
    | None => [text]
    end
  end.
Definition split (sep text : rstring) : list rstring := split_fuel (length text) sep text.

Fixpoint join (sep : rstring) (pieces : list rstring) : rstring :=
  match pieces with
  | [] => []
  | [piece] => piece
  | piece :: rest => piece ++ sep ++ join sep rest
  end.

(** [to] before every character and at the end. *)
Fixpoint between_chars (to text : rstring) : rstring :=
  match text with
  | [] => to
  | b :: rest => (if is_continuation b then [b] else to ++ [b]) ++ between_chars to rest
  end.

(** [str::replace]. *)
Definition replace (from to text : rstring) : rstring :=
  if is_nil from then between_chars to text else join to (split from text).

(** ** Numbers *)

Fixpoint all_digits (m : Z) (text : rstring) : option Z :=
  match text with
  | [] => Some m
  | b :: text =>
    if is_ascii_digit b then all_digits (m * 10 + (byte_to_Z b - byte_to_Z CHAR_ZERO)) text else None
  end.

(** [str::parse::<i64>]: a sign at most, then digits, in range. *)
Definition parse_i64 (text : rstring) : option Z :=
  let '(negative, digits) :=
    match strip_prefix [CHAR_MINUS] text with
    | Some rest => (true, rest)
    | None => (false, default text (strip_prefix [CHAR_PLUS] text))
    end in
  if is_nil digits then None
  else m ← all_digits 0 digits; fit64 (if negative : bool then - m else m).

(** ** Facts *)

Lemma starts_with_app p text : starts_with p text = true <-> exists rest, text = p ++ rest.
Proof.
  unfold starts_with. revert text. induction p as [|b p IH]; intros text; cbn.
  - split; [by exists text|done].
  - destruct text as [|c text]; [by split; [done|intros (rest & ?)]|].
    destruct (Byte.eqb b c) eqn:E.
    + apply Byte.byte_dec_bl in E as ->. rewrite IH. split; intros (rest & Hr); exists rest; cbn; congruence.
    + split; [done|]. intros (rest & Heq). injection Heq as -> _. by rewrite Byte.byte_dec_lb in E.
Qed.

(** [find] is the first place the pattern occurs. *)
Lemma find_first p text :
  match find p text with
  | Some i => exists rest, drop i text = p ++ rest /\
      forall j, (j < i)%nat -> starts_with p (drop j text) = false
  | None => forall j, starts_with p (drop j text) = false
  end.
Proof.
  induction text as [|b text IH]; cbn; destruct (starts_with p _) eqn:E.
  - apply starts_with_app in E as (rest & ->). exists rest. split; [done|lia].
  - intros [|j]; done.
  - apply starts_with_app in E as (rest & Hr). exists rest. split; [done|lia].
  - destruct (find p text) as [i|]; cbn.
    + destruct IH as (rest & Hr & Hj). exists rest. split; [done|]. intros [|j] H; [done|]. apply Hj. lia.
    + intros [|j]; [done|]. apply IH.
Qed.

Lemma split_fuel_join fuel : forall sep text, sep <> [] -> (length text <= fuel)%nat ->
  join sep (split_fuel fuel sep text) = text /\
  Forall (fun piece => contains sep piece = true -> False) (split_fuel fuel sep text) /\
  split_fuel fuel sep text <> [].
Proof.
  assert (forall sep : rstring, sep <> [] -> starts_with sep [] = false) as Hnil.
  { intros [|b sep] Hs; done. }
  assert (forall sep text : rstring, find sep text = None -> contains sep text = true -> False) as Hnone
    by (intros sep text Hf; unfold contains; by rewrite Hf).
  induction fuel as [|fuel IH]; intros sep text Hsep Hlen; cbn [split_fuel].
  - destruct text; [|cbn in Hlen; lia]. split_and!; [done| |done]. constructor; [|done]. apply Hnone.
    cbn. by rewrite Hnil.
  - pose proof (find_first sep text) as Hf. destruct (find sep text) as [i|] eqn:Ef.
    + destruct Hf as (rest & Hr & Hj).
      assert (drop (i + length sep) text = rest) as Hd by (by rewrite <- drop_drop, Hr, drop_app_length).
      rewrite Hd.
      assert (length text = i + length sep + length rest)%nat as Hlt.
      { assert (i <= length text)%nat.
        { destruct (decide (i <= length text)%nat) as [|Hgt]; [done|].
          rewrite drop_ge in Hr by lia. destruct sep; [done|]. done. }
        pose proof (f_equal length Hr) as Hl. rewrite length_drop, length_app in Hl. lia. }
      assert (1 <= length sep)%nat by (destruct sep; [done|cbn; lia]).
      destruct (IH sep rest Hsep) as (Hjoin & Hpieces & Hne); [lia|]. split_and!; [|constructor; [|done]|done].
      * destruct (split_fuel fuel sep rest) as [|q qs] eqn:Eq; [done|].
        change (take i text ++ sep ++ join sep (q :: qs) = text). rewrite Hjoin, <- Hr. apply take_drop.
      * unfold contains. pose proof (find_first sep (take i text)) as Hg.
        destruct (find sep (take i text)) as [j|]; [|done]. intros _.
        destruct Hg as (rest' & Hr' & _).
        assert (j < i)%nat as Hji.
        { pose proof (f_equal length Hr') as Hl. rewrite length_drop, length_take, length_app in Hl. lia. }
        specialize (Hj j Hji).
        assert (starts_with sep (drop j text) = true) as Ht; [|congruence].
        apply starts_with_app. exists (rest' ++ drop i text).
        rewrite (assoc_L (++)), <- Hr'. rewrite <- (take_drop i text) at 1.
        rewrite drop_app_le; [done|]. rewrite length_take. lia.
    + split_and!; [done| |done]. constructor; [|done]. by apply Hnone.
Qed.

(** Splitting loses nothing and leaves no separator in a piece. *)
Lemma split_join sep text : sep <> [] ->
  join sep (split sep text) = text /\ Forall (fun piece => contains sep piece = false) (split sep text).
Proof.
  intros Hsep. destruct (split_fuel_join (length text) sep text Hsep (Nat.le_refl _)) as (Hj & Hp & _).
  split; [done|]. eapply Forall_impl; [exact Hp|]. intros piece H.
  by apply not_true_is_false.
Qed.

Lemma all_digits_spelled text : forall m, is_digits text -> all_digits m text = Some (spelled m text).
Proof.
  induction text as [|b text IH]; intros m Hd; [done|]. inversion Hd as [|? ? Hb Ht]; subst. cbn.
  rewrite Hb. by apply IH.
Qed.

Lemma digits_cons z : 0 <= z < 2 ^ 64 -> exists b rest,
  u64_to_string z = b :: rest /\ is_digits (b :: rest) /\ spelled 0 (b :: rest) = z.
Proof.
  intros Hz. unfold u64_to_string. destruct (digits_spec 20 z) as (Hd & Hs); [lia|].
  pose proof (digits_nonempty 20 z) as Hne. destruct (digits 20 z) as [|b rest]; [by destruct Hne|].
  by exists b, rest.
Qed.

Lemma digit_no_sign b c rest : is_ascii_digit b = true -> is_ascii_digit c = false ->
  strip_prefix [c] (b :: rest) = None.
Proof. intros Hb Hc. cbn. destruct (Byte.eqb c b) eqn:E; [|done]. apply Byte.byte_dec_bl in E as ->. congruence. Qed.

(** Every [Int] reads back from what is printed for it. *)
Lemma parse_i64_print z : i64_ok z -> parse_i64 (i64_to_string z) = Some z.
Proof.
  intros Hz. unfold i64_to_string. pose proof Hz as Hr. unfold i64_ok, signed_ok in Hr.
  destruct (Z.ltb_spec z 0) as [Hneg|Hpos].
  - destruct (digits_cons (- z)) as (b & rest & -> & Hd & Hs); [lia|].
    unfold parse_i64. change (strip_prefix [CHAR_MINUS] (CHAR_MINUS :: b :: rest)) with (Some (b :: rest)).
    cbn [is_nil]. rewrite all_digits_spelled, Hs by done. cbn. unfold fit64.
    rewrite decide_True; [f_equal; lia|]. by rewrite Z.opp_involutive.
  - destruct (digits_cons z) as (b & rest & -> & Hd & Hs); [lia|].
    unfold parse_i64. inversion Hd; subst. rewrite !digit_no_sign by done. cbn [default is_nil].
    rewrite all_digits_spelled by done. cbn. unfold fit64. by rewrite decide_True.
Qed.
