(* ===== verification/VmOps.v ===== *)
(** The operators: [interp/operators.rs], [interp/numeric.rs],
    [interp/numbers.rs] and [interp/strings.rs] of [kira-vm-runtime].

    Each takes its operands off the stack and pushes its answer; a popped
    operand is released on every way out. *)

From Stdlib Require Import Strings.String.
From stdpp Require Import gmap strings.
From S2P Require Import Prelude.
From S2P Require Import AbiOps.
From S2P Require Import Instruction.
From S2P Require Import Tasks.
From S2P Require Import Channels.
From S2P Require Import Foreign.
From S2P Require Import ModuleFormat.
From S2P Require Import IntWidth.
From S2P Require Import DecimalNumber.
From S2P Require Import NativeState.
From S2P Require Import Float64.
From S2P Require Import Heap.
From S2P Require Import HeapEquality.
From S2P Require Import VmState.
From S2P Require Import VmText.

Section Operators.
Context {host : Host} {allocator : Allocator}.

(** ** Integers: [operators.rs] *)

(** [rhs as u32], masked as [wrapping_shl] masks it. *)
Definition shift_count (rhs : Z) : Z := rhs mod 64.

Definition bitwise (i : Instruction) : M unit :=
  rhs ← pop_int; lhs ← pop_int;
  match i with
  | I_BitAnd => push (V_Int (Z.land lhs rhs))
  | I_BitOr => push (V_Int (Z.lor lhs rhs))
  | I_BitXor => push (V_Int (Z.lxor lhs rhs))
  | I_Shl => push (V_Int (swrap 64 (Z.shiftl lhs (shift_count rhs))))
  | I_ShrInt => push (V_Int (Z.shiftr lhs (shift_count rhs)))
  | I_ShrUInt => push (V_Int (swrap 64 (Z.shiftr (uwrap 64 lhs) (shift_count rhs))))
  | _ => trap E_BadDispatch
  end.

Definition divided (rhs : Z) (v : Z) : M unit :=
  if rhs =? 0 then trap E_DivideByZero else push (V_Int v).

Definition int_arith (i : Instruction) : M unit :=
  rhs ← pop_int; lhs ← pop_int;
  match i with
  | I_AddInt => push (V_Int (swrap 64 (lhs + rhs)))
  | I_SubInt => push (V_Int (swrap 64 (lhs - rhs)))
  | I_MulInt => push (V_Int (swrap 64 (lhs * rhs)))
  | I_DivInt => divided rhs (swrap 64 (Z.quot lhs rhs))
  | I_RemInt => divided rhs (Z.rem lhs rhs)
  | I_DivUInt => divided rhs (swrap 64 (uwrap 64 lhs / uwrap 64 rhs))
  | I_RemUInt => divided rhs (swrap 64 (uwrap 64 lhs mod uwrap 64 rhs))
  | _ => trap E_BadDispatch
  end.

Definition float_arith (i : Instruction) : M unit :=
  rhs ← pop_float; lhs ← pop_float;
  match i with
  | I_AddFloat => push (V_Float (f64_add lhs rhs))
  | I_SubFloat => push (V_Float (f64_sub lhs rhs))
  | I_MulFloat => push (V_Float (f64_mul lhs rhs))
  | I_DivFloat => push (V_Float (f64_div lhs rhs))
  | I_RemFloat => push (V_Float (f64_rem lhs rhs))
  | _ => trap E_BadDispatch
  end.

(** The two strings read before either is released. *)
Definition concat_str : M unit :=
  p ← pop_two_str;
  h ← get_heap;
  let joined := get h p.1 ++ get h p.2 in
  _ ← free_str p.1; _ ← free_str p.2;
  id ← on_heap (alloc joined);
  push (V_Str id).

Definition int_compare (i : Instruction) : M unit :=
  rhs ← pop_int; lhs ← pop_int;
  match i with
  | I_EqInt => push (V_Bool (lhs =? rhs))
  | I_NeInt => push (V_Bool (negb (lhs =? rhs)))
  | I_LtInt => push (V_Bool (lhs <? rhs))
  | I_LeInt => push (V_Bool (lhs <=? rhs))
  | I_GtInt => push (V_Bool (rhs <? lhs))
  | I_GeInt => push (V_Bool (rhs <=? lhs))
  | _ => trap E_BadDispatch
  end.

Definition uint_compare (i : Instruction) : M unit :=
  rhs ← pop_int; lhs ← pop_int;
  let rhs := uwrap 64 rhs in let lhs := uwrap 64 lhs in
  match i with
  | I_LtUInt => push (V_Bool (lhs <? rhs))
  | I_LeUInt => push (V_Bool (lhs <=? rhs))
  | I_GtUInt => push (V_Bool (rhs <? lhs))
  | I_GeUInt => push (V_Bool (rhs <=? lhs))
  | _ => trap E_BadDispatch
  end.

Definition float_compare (i : Instruction) : M unit :=
  rhs ← pop_float; lhs ← pop_float;
  match i with
  | I_EqFloat => push (V_Bool (f64_eq lhs rhs))
  | I_NeFloat => push (V_Bool (negb (f64_eq lhs rhs)))
  | I_LtFloat => push (V_Bool (f64_lt lhs rhs))
  | I_LeFloat => push (V_Bool (f64_le lhs rhs))
  | I_GtFloat => push (V_Bool (f64_gt lhs rhs))
  | I_GeFloat => push (V_Bool (f64_ge lhs rhs))
  | _ => trap E_BadDispatch
  end.

Definition bool_compare_op (i : Instruction) : M unit :=
  rhs ← pop_bool; lhs ← pop_bool;
  match i with
  | I_EqBool => push (V_Bool (eqb lhs rhs))
  | I_NeBool => push (V_Bool (negb (eqb lhs rhs)))
  | _ => trap E_BadDispatch
  end.

(** The top of the stack is the right operand.  The source releases nothing
    when the operands are not descriptors. *)
Definition type_compare (i : Instruction) : M unit :=
  operands ← pop_operands 2;
  match operands with
  | [V_Type rhs; V_Type lhs] =>
    match i with
    | I_EqType => push (V_Bool (lhs =? rhs))
    | I_NeType => push (V_Bool (negb (lhs =? rhs)))
    | _ => trap E_BadDispatch
    end
  | _ => trap (E_TypeMismatch "two runtime type descriptors")
  end.

(** A comparison that reads the heap; one that runs out of depth would overflow
    the source's stack. *)
Definition compared {A} (o : option A) : M A := match o with Some a => mret a | None => st_fail Overflows end.

Definition any_compare (i : Instruction) : M unit :=
  operands ← pop_operands 2;
  match operands with
  | [rhs; lhs] =>
    h ← get_heap;
    equal ← compared (values_equal h lhs rhs);
    _ ← discard operands;
    match i with
    | I_EqAny | I_EqValue => push (V_Bool equal)
    | I_NeAny | I_NeValue => push (V_Bool (negb equal))
    | _ => trap E_BadDispatch
    end
  | _ => panics
  end.

Definition value_compare : M unit :=
  operands ← pop_operands 2;
  match operands with
  | [rhs; lhs] =>
    h ← get_heap;
    order ← compared (compare_values h lhs rhs);
    _ ← discard operands;
    push (V_Int (match order with Lt => -1 | Eq => 0 | Gt => 1 end))
  | _ => panics
  end.

Definition str_compare (i : Instruction) : M unit :=
  p ← pop_two_str;
  h ← get_heap;
  let equal := bool_decide (get h p.1 = get h p.2) in
  _ ← free_str p.1; _ ← free_str p.2;
  match i with
  | I_EqStr => push (V_Bool equal)
  | I_NeStr => push (V_Bool (negb equal))
  | _ => trap E_BadDispatch
  end.

Definition binary (i : Instruction) : M unit :=
  match i with
  | I_AddInt | I_SubInt | I_MulInt | I_DivInt | I_RemInt | I_DivUInt | I_RemUInt => int_arith i
  | I_AddFloat | I_SubFloat | I_MulFloat | I_DivFloat | I_RemFloat => float_arith i
  | I_ConcatStr => concat_str
  | I_EqInt | I_NeInt | I_LtInt | I_LeInt | I_GtInt | I_GeInt => int_compare i
  | I_LtUInt | I_LeUInt | I_GtUInt | I_GeUInt => uint_compare i
  | I_EqFloat | I_NeFloat | I_LtFloat | I_LeFloat | I_GtFloat | I_GeFloat => float_compare i
  | I_EqBool | I_NeBool => bool_compare_op i
  | I_EqStr | I_NeStr => str_compare i
  | I_EqAny | I_NeAny | I_EqValue | I_NeValue => any_compare i
  | I_CmpValue => value_compare
  | I_EqType | I_NeType => type_compare i
  | I_BitAnd | I_BitOr | I_BitXor | I_Shl | I_ShrInt | I_ShrUInt => bitwise i
  | _ => trap E_BadDispatch
  end.

(** ** Widths: [numeric.rs] *)

Definition spelling (code : byte) : M IntWidth := need (from_code (byte_to_Z code)) E_BadDispatch.

(** [checked_*] over [u64], the answer carried as an [i64]. *)
Definition checked_u64 (v : Z) : option Z := if decide (u64_ok v) then Some (swrap 64 v) else None.

Definition checked_int_arith (i : Instruction) : M unit :=
  rhs ← pop_int; lhs ← pop_int;
  let answer v w := v ← need v (E_IntegerOverflow w); push (V_Int v) in
  match i with
  | I_AddIntChecked => answer (fit64 (lhs + rhs)) Plain
  | I_SubIntChecked => answer (fit64 (lhs - rhs)) Plain
  | I_MulIntChecked => answer (fit64 (lhs * rhs)) Plain
  | I_DivIntChecked =>
    if rhs =? 0 then trap E_DivideByZero else answer (fit64 (Z.quot lhs rhs)) Plain
  | I_AddUIntChecked => answer (checked_u64 (uwrap 64 lhs + uwrap 64 rhs)) U64
  | I_SubUIntChecked => answer (checked_u64 (uwrap 64 lhs - uwrap 64 rhs)) U64
  | I_MulUIntChecked => answer (checked_u64 (uwrap 64 lhs * uwrap 64 rhs)) U64
  | _ => trap E_BadDispatch
  end.

Definition neg_int_checked : M unit :=
  v ← pop_int; v ← need (fit64 (- v)) (E_IntegerOverflow Plain); push (V_Int v).

Definition check_int (code : byte) : M unit :=
  w ← spelling code; v ← pop_int;
  if IntWidth.holds w v then push (V_Int v) else trap (E_IntegerOverflow w).

Definition wrap_int (code : byte) : M unit :=
  w ← spelling code; v ← pop_int; push (V_Int (wrap w v)).

Definition check_shift (bits : byte) : M unit :=
  let bits := byte_to_Z bits in
  count ← pop_int;
  if (count <? 0) || (bits <=? count) then trap (E_ShiftOutOfRange count bits) else push (V_Int count).

Definition convert_int (from to : byte) : M unit :=
  from ← spelling from; to ← spelling to;
  word ← pop_int;
  let v := value_of from word in
  if IntWidth.holds to v then push (V_Int (word_of to v)) else trap (E_NarrowingOutOfRange v to).

Definition convert_float_to_int : M unit :=
  v ← pop_float;
  if f64_is_finite v && (f64_le (f64_of_int (- 2 ^ 63)) v && f64_lt v (f64_of_int (2 ^ 63)))
  then push (V_Int (f64_trunc v)) else trap (E_FloatToIntOutOfRange v).

Definition convert_float_to_uint : M unit :=
  v ← pop_float;
  if f64_is_finite v && (f64_le 0 v && f64_lt v (f64_of_int (2 ^ 64)))
  then push (V_Int (swrap 64 (f64_trunc v))) else trap (E_FloatToIntOutOfRange v).

(** ** Decimals: [numbers.rs] *)

Definition as_number (v : Value) : M Decimal :=
  match v with V_Number d => mret d | _ => trap (E_TypeMismatch "Number") end.

Definition number_answer (r : result DecimalError Value) : M Value :=
  match r with Ok v => mret v | Err e => trap (E_NumberTrap e) end.

(** [Decimal::to_f64]: [10f64.powi(scale)] is exact for a scale up to 18. *)
Definition decimal_to_f64 (d : Decimal) : Z :=
  f64_div (f64_of_int (mantissa d)) (f64_of_int (10 ^ scale d)).

Definition number_binary (operands : list Value) (combine : Decimal -> Decimal -> result DecimalError Decimal) :
    M Value :=
  l ← index_or_panic operands 0; left ← as_number l;
  r ← index_or_panic operands 1; right ← as_number r;
  number_answer (d ← combine left right; Ok (V_Number d)).

Definition number_predicate (operands : list Value) (test : Decimal -> Decimal -> result DecimalError bool) :
    M Value :=
  l ← index_or_panic operands 0; left ← as_number l;
  r ← index_or_panic operands 1; right ← as_number r;
  number_answer (b ← test left right; Ok (V_Bool b)).

Definition ordered (keep : comparison -> bool) (a b : Decimal) : result DecimalError bool :=
  c ← compare a b; Ok (keep c).

Definition number_op_result (op : NumberOp) (operands : list Value) : M Value :=
  let first := (v ← index_or_panic operands 0; as_number v) in
  match op with
  | NumberOp_FromInt =>
    match operands with
    | [V_Int v] => mret (V_Number (from_i64 v))
    | _ => trap (E_TypeMismatch "Int")
    end
  | NumberOp_FromString =>
    match operands with
    | [V_Str id] =>
      h ← get_heap; number_answer (d ← parse (get h id); Ok (V_Number d))
    | _ => trap E_NotAString
    end
  | NumberOp_FromFloat => crosses
  | NumberOp_ToString =>
    d ← first; id ← on_heap (alloc (to_decimal_string d)); mret (V_Str id)
  | NumberOp_ToInt => d ← first; number_answer (v ← to_i64 d; Ok (V_Int v))
  | NumberOp_ToFloat => d ← first; mret (V_Float (decimal_to_f64 d))
  | NumberOp_Negate => d ← first; number_answer (v ← negate d; Ok (V_Number v))
  | NumberOp_Add => number_binary operands add
  | NumberOp_Subtract => number_binary operands subtract
  | NumberOp_Multiply => number_binary operands multiply
  | NumberOp_Divide => number_binary operands divide
  | NumberOp_Equal => number_predicate operands equals
  | NumberOp_Less => number_predicate operands (ordered (fun c => match c with Lt => true | _ => false end))
  | NumberOp_LessOrEqual => number_predicate operands (ordered (fun c => match c with Gt => false | _ => true end))
  | NumberOp_Greater => number_predicate operands (ordered (fun c => match c with Gt => true | _ => false end))
  | NumberOp_GreaterOrEqual => number_predicate operands (ordered (fun c => match c with Lt => false | _ => true end))
  end.

(** A computation whose answer, trap or not, is given after a cleanup. *)
Definition finally {A} (m : M A) (cleanup : M unit) : M A :=
  a ← on_trap m cleanup; _ ← cleanup; mret a.

Definition perform_number_op (op : NumberOp) (operands : list Value) : M Value :=
  finally (number_op_result op operands) (discard operands).

Definition NumberOp_operand_count (op : NumberOp) : nat :=
  match op with
  | NumberOp_FromInt | NumberOp_FromString | NumberOp_FromFloat | NumberOp_ToString | NumberOp_ToInt
  | NumberOp_ToFloat | NumberOp_Negate => 1
  | _ => 2
  end.

Definition number_op (op : NumberOp) : M unit :=
  operands ← pop_operands (NumberOp_operand_count op);
  produced ← perform_number_op op (rev operands);
  push produced.

(** ** Strings: [strings.rs] *)

Definition byte_at (h : Heap) (base index : Value) : M Z :=
  match base, index with
  | V_Str id, V_Int at_ =>
    if at_ <? 0 then trap E_StringIndexOutOfBounds
    else
      match usize_try_from at_ with
      | Some i => b ← need (get h id !! i) E_StringIndexOutOfBounds; mret (byte_to_Z b)
      | None => trap E_StringIndexOutOfBounds
      end
  | V_Str _, _ => trap (E_TypeMismatch "Int")
  | _, _ => trap E_NotAString
  end.

Definition read_char_at (base index : Value) : M Z :=
  h ← get_heap; finally (byte_at h base index) (_ ← drop_v base; drop_v index).

(** An index past [usize] is past every string. *)
Definition usize_or_max (v : Z) : Z := match usize_try_from v with Some n => Z.of_nat n | None => usize_max end.

Definition slice_of (h : Heap) (base start end_ : Value) : M rstring :=
  match base with
  | V_Str id =>
    match start, end_ with
    | V_Int from, V_Int to =>
      if (from <? 0) || (to <? 0) then trap E_StringIndexOutOfBounds
      else if to <? from then trap E_InvertedSubstring
      else
        if decide (usize_or_max to <= Z.of_nat (length (get h id)))
        then need (get_range (get h id) (Z.to_nat (usize_or_max from)) (Z.to_nat (usize_or_max to)))
               E_StringIndexOutOfBounds
        else trap E_StringIndexOutOfBounds
    | _, _ => trap (E_TypeMismatch "Int")
    end
  | _ => trap E_NotAString
  end.

Definition carve_substring (base start end_ : Value) : M rstring :=
  h ← get_heap;
  finally (slice_of h base start end_) (_ ← drop_v base; _ ← drop_v start; drop_v end_).

Definition find_index_of (base needle : Value) : M Z :=
  h ← get_heap;
  let found :=
    match base, needle with
    | V_Str haystack, V_Str pattern =>
      mret (match find (get h pattern) (get h haystack) with
            | Some i => match fit64 (Z.of_nat i) with Some v => v | None => -1 end
            | None => -1
            end)
    | _, _ => trap E_NotAString
    end in
  finally found (_ ← drop_v base; drop_v needle).

Definition is_str (v : Value) : bool := match v with V_Str _ => true | _ => false end.

Definition string_answer (text : rstring) : M Value := id ← on_heap (alloc text); mret (V_Str id).

(** The change of case of a whole string needs Unicode's tables. *)
Definition string_op_result (op : StringOp) (base : Value) (arguments : list Value) : M Value :=
  match base with
  | V_Str id =>
    h ← get_heap;
    let text := get h id in
    if negb (forallb is_str arguments) then trap E_NotAString else
    match op, arguments with
    | StringOp_Contains, [V_Str needle] => mret (V_Bool (contains (get h needle) text))
    | StringOp_StartsWith, [V_Str prefix] => mret (V_Bool (starts_with (get h prefix) text))
    | StringOp_EndsWith, [V_Str suffix] => mret (V_Bool (ends_with (get h suffix) text))
    | StringOp_Replace, [V_Str from; V_Str to] => string_answer (replace (get h from) (get h to) text)
    | StringOp_IsInt, [] => mret (V_Bool (match parse_i64 (trim text) with Some _ => true | None => false end))
    | StringOp_ToInt, [] => v ← need (parse_i64 (trim text)) E_NotAWholeNumber; mret (V_Int v)
    | StringOp_DropLastScalar, [] => string_answer (drop_last_scalar text)
    | StringOp_Trim, [] => string_answer (trim text)
    | StringOp_Lowercase, [] | StringOp_Uppercase, [] => crosses
    | StringOp_Split, [V_Str separator] =>
      let separator := get h separator in
      let pieces := if is_nil separator then [text] else split separator text in
      elements ← on_heap (map_heap (fun piece h => let '(h, id) := alloc piece h in (h, V_Str id)) pieces);
      id ← on_heap (alloc_array elements); mret (V_Array id)
    | StringOp_Bytes, [] =>
      id ← on_heap (alloc_array ((fun b => V_Int (byte_to_Z b)) <$> text)); mret (V_Array id)
    | _, _ => trap (E_TypeMismatch "String")
    end
  | _ => trap E_NotAString
  end.

Definition perform_string_op (op : StringOp) (base : Value) (arguments : list Value) : M Value :=
  finally (string_op_result op base arguments) (_ ← drop_v base; discard arguments).

Definition StringOp_argument_count (op : StringOp) : nat :=
  match op with
  | StringOp_Contains | StringOp_StartsWith | StringOp_EndsWith | StringOp_Split => 1
  | StringOp_Replace => 2
  | _ => 0
  end.

Definition string_op (op : StringOp) : M unit :=
  arguments ← pop_operands (StringOp_argument_count op);
  base ← on_trap pop (discard (rev arguments));
  produced ← perform_string_op op base (rev arguments);
  push produced.

(** [format_and_consume]; the text of a float is not modelled. *)
Definition format_and_consume (v : Value) : M (option rstring) :=
  h ← get_heap;
  match v with
  | V_Float _ => crosses
  | V_Int n => mret (Some (i64_to_string n))
  | V_Bool b => mret (Some (list_byte_of_string (if b : bool then "true" else "false")))
  | V_Number d => mret (Some (to_decimal_string d))
  | V_Str id => _ ← drop_v v; mret (Some (get h id))
  | V_Void => mret (Some [])
  | _ => _ ← drop_v v; mret None
  end.
End Operators.
