(* ===== verification/VmStep.v ===== *)
(** The instructions that stay inside one frame: [interp/instructions.rs],
    [interp/place.rs], [interp/arrays.rs], [interp/cells.rs] and the deferred
    reads of [interp/native_state.rs].

    An arm that hands over to the host (the callback-state store, files, the
    compiler, the environment, the main thread, foreign storage and calls,
    library mathematics, the text of a float) ends in [Crosses]. *)

From Stdlib Require Import Strings.String.
From stdpp Require Import gmap strings.
From S2P Require Import Prelude.
From S2P Require Import AbiOps.
From S2P Require Import Types.
From S2P Require Import Instruction.
From S2P Require Import Tasks.
From S2P Require Import Channels.
From S2P Require Import Foreign.
From S2P Require Import ModuleFormat.
From S2P Require Import IntWidth.
From S2P Require Import DecimalNumber.
From S2P Require Import NativeState.
From S2P Require Import Float64.
From S2P Require Import Heap.
From S2P Require Import HeapEquality.
From S2P Require Import VmState.
From S2P Require Import VmText.
From S2P Require Import VmOps.

Section Step.
Context {host : Host} {allocator : Allocator} {hosted : HostChannels}.

(** ** Locals *)

(** [usize::try_from(slot).map_err(LocalSlotOutOfRange)]. *)
Definition local_index (slot : Z) : M nat := need (usize_try_from slot) (E_LocalSlotOutOfRange slot).

(** [is_heap_value]: what a frame is responsible for dropping. *)
Definition is_heap_value (v : Value) : bool :=
  match v with
  | V_Str _ | V_Struct _ | V_Array _ | V_Enum _ | V_Erased _ | V_Cell _ | V_NativeSnapshot _
  | V_CBlock _ | V_MainThreadTask _ | V_NativeState _ => true
  | _ => false
  end.

(** A value that is pushed without the heap. *)
Definition is_independent (v : Value) : bool :=
  match v with
  | V_Int _ | V_Float _ | V_Bool _ | V_RawPtr _ | V_NativeView _ _ | V_MainThreadTask _ | V_Void => true
  | _ => false
  end.

Definition push_copy (v : Value) : M unit :=
  if is_independent v then push v else c ← on_heap (copy_value v); push c.

Definition load_local (slot : Z) : M unit :=
  i ← local_index slot;
  f ← get_frame;
  v ← need (locals f !! i) (E_LocalSlotOutOfRange slot);
  push_copy v.

Definition load_constant (slot : Z) : M unit :=
  i ← need (usize_try_from slot) (E_ConstantUninitialized slot);
  vm ← get_vm;
  v ← need (constants vm !! i) (E_ConstantUninitialized slot);
  push_copy v.

Definition is_live (f : Frame) (i : nat) : bool := default false (live f !! i).

Definition take_local (slot : Z) : M unit :=
  i ← local_index slot;
  f ← get_frame;
  v ← need (locals f !! i) (E_LocalSlotOutOfRange slot);
  if is_live f i then
    _ ← push v; put_frame (fun f => set_locals (locals f) (<[i := false]> (live f)) f)
  else push V_Void.

(** What [store_local] releases of a live slot's old value. *)
Definition store_releases (v : Value) : bool :=
  match v with
  | V_Str _ | V_Struct _ | V_Array _ | V_Enum _ | V_Erased _ | V_Cell _ | V_NativeSnapshot _ => true
  | _ => false
  end.

Definition is_view (v : Value) : bool := match v with V_NativeView _ _ => true | _ => false end.

Definition store_local (slot : Z) : M unit :=
  i ← local_index slot;
  v ← pop;
  f ← get_frame;
  match locals f !! i with
  | None => _ ← drop_v v; trap (E_LocalSlotOutOfRange slot)
  | Some current =>
    if is_view current && negb (is_view v) then crosses
    else
      let was_live := is_live f i in
      _ ← put_frame (fun f => set_locals (<[i := v]> (locals f)) (live f) f);
      _ ← (if was_live && store_releases current then drop_v current else mret tt);
      put_frame (fun f => set_locals (locals f) (<[i := is_heap_value v]> (live f)) f)
  end.

(** ** Deferred reads: [native_state.rs] *)

(** [fields.get(index)] of a stored node, the shape checked. *)
Definition snapshot_child (node : option NativeStateValue) (step : NativeStatePathStep) :
    option (option NativeStateValue) :=
  match node, step with
  | Some (NS_Struct fields), Path_Field index | Some (NS_DropStruct _ fields), Path_Field index =>
    Some (i ← usize_try_from index; fields !! i)
  | Some (NS_Array elements), Path_Index index => Some (i ← usize_try_from index; elements !! i)
  | _, _ => None
  end.

Definition read_snapshot_child (id : nat) (step : NativeStatePathStep) (error : VmError) : M Value :=
  h ← get_heap;
  let child := snapshot_child (snapshot_node h id) step in
  _ ← heap_do (free_snapshot id);
  match child with
  | Some (Some child) => on_heap (read_state_node child)
  | _ => trap error
  end.

Definition snapshot_array_len (id : nat) : M nat :=
  h ← get_heap;
  let len := match snapshot_node h id with Some (NS_Array elements) => Some (List.length elements) | _ => None end in
  _ ← heap_do (free_snapshot id);
  need len E_NotAnArray.

Definition snapshot_enum_tag (id : nat) : M Z :=
  h ← get_heap;
  let tag := match snapshot_node h id with Some (NS_Enum tag _) => Some tag | _ => None end in
  _ ← heap_do (free_snapshot id);
  need tag E_NotAnEnum.

Definition snapshot_enum_payload (id : nat) : M Value :=
  h ← get_heap;
  let payload := match snapshot_node h id with Some (NS_Enum _ payload) => Some payload | _ => None end in
  _ ← heap_do (free_snapshot id);
  payload ← need payload E_NotAnEnum;
  payload ← need payload E_MissingEnumPayload;
  on_heap (read_state_node payload).

Definition native_user_data (shared : bool) : M unit :=
  state ← pop;
  match state with
  | V_NativeState token =>
    if shared then _ ← drop_v (V_NativeState token); push (V_RawPtr token) else push (V_NativeState token)
  | other =>
    _ ← drop_v other;
    trap (E_NativeStateValueMismatch Op_UserData "a value that is not callback state")
  end.

(** ** Places: [place.rs] *)

Definition check_index (index : Z) (len : option nat) : result VmError nat :=
  match usize_try_from index with
  | None => Err E_NegativeIndex
  | Some i =>
    match len with
    | Some len => if decide (i < len)%nat then Ok i else Err E_IndexOutOfBounds
    | None => Err E_NotAnArray
    end
  end.

Definition checked {A} (r : result VmError A) : M A := match r with Ok a => mret a | Err e => trap e end.

(** A deferred read in a local becomes objects before a write through it. *)
Definition own_local (slot : Z) : M unit :=
  match usize_try_from slot with
  | None => mret tt
  | Some i =>
    f ← get_frame;
    local ← index_or_panic (locals f) i;
    match local with
    | V_NativeSnapshot _ =>
      v ← on_heap (own local);
      put_frame (fun f => set_locals (<[i := v]> (locals f)) (live f) f)
    | _ => mret tt
    end
  end.

Definition walk_step (current : Value) (step : ResolvedStep) : M Value :=
  match step with
  | RS_Field index =>
    match current with
    | V_Struct id =>
      _ ← heap_do (make_struct_unique id);
      h ← get_heap;
      need (field h id index) (E_NoSuchField index)
    | _ => trap E_NotAStruct
    end
  | RS_Index index =>
    match current with
    | V_Array id =>
      h ← get_heap;
      i ← checked (check_index index (array_len h id));
      _ ← heap_do (make_array_unique id);
      h ← get_heap;
      need (element h id i) E_IndexOutOfBounds
    | _ => trap E_NotAnArray
    end
  end.

Fixpoint walk_value (current : Value) (steps : list ResolvedStep) : M Value :=
  match steps with
  | [] => mret current
  | step :: steps => next ← walk_step current step; walk_value next steps
  end.

Definition root_local (slot : Z) : M Value :=
  i ← local_index slot; f ← get_frame; index_or_panic (locals f) i.

Definition write_last (target : Value) (last : ResolvedStep) (v : Value) : M unit :=
  match last with
  | RS_Field index =>
    match target with
    | V_Struct id =>
      ok ← on_heap (set_field id index v);
      if ok : bool then mret tt else trap (E_NoSuchField index)
    | _ => trap E_NotAStruct
    end
  | RS_Index index =>
    match target with
    | V_Array id =>
      h ← get_heap;
      i ← checked (check_index index (array_len h id));
      ok ← on_heap (set_element id i v);
      if ok : bool then mret tt else trap E_IndexOutOfBounds
    | _ => trap E_NotAnArray
    end
  end.

(** [steps.split_last()]. *)
Fixpoint split_last {A} (l : list A) : option (list A * A) :=
  match l with
  | [] => None
  | x :: l => match split_last l with Some (init, last) => Some (x :: init, last) | None => Some ([], x) end
  end.

Definition native_field (index : Z) : M unit :=
  if decide (u32_ok index) then mret tt else trap (E_NoSuchField index).

(** [resolve_native_path], for its refusals. *)
Fixpoint resolve_native_path (steps : list ResolvedStep) : M unit :=
  match steps with
  | [] => mret tt
  | RS_Field index :: steps => _ ← native_field index; resolve_native_path steps
  | RS_Index index :: steps =>
    _ ← (if index <? 0 then trap E_NegativeIndex else mret tt); resolve_native_path steps
  end.

Definition store_place (slot : Z) (steps : list ResolvedStep) (v : Value) : M unit :=
  _ ← own_local slot;
  root ← root_local slot;
  match root with
  | V_NativeView _ _ =>
    if is_nil steps then _ ← drop_v v; trap E_EmptyFieldPath
    else _ ← resolve_native_path steps; crosses
  | _ =>
    match split_last steps with
    | None => trap E_EmptyFieldPath
    | Some (walk, last) => target ← walk_value root walk; write_last target last v
    end
  end.

Definition store_field (slot : Z) (path : list Z) (v : Value) : M unit :=
  _ ← own_local slot;
  root ← root_local slot;
  match root with
  | V_NativeView _ _ =>
    if is_nil path then _ ← drop_v v; trap E_EmptyFieldPath
    else _ ← resolve_native_path (RS_Field <$> path); crosses
  | _ =>
    match split_last path with
    | None => trap E_EmptyFieldPath
    | Some (walk, last) => target ← walk_value root (RS_Field <$> walk); write_last target (RS_Field last) v
    end
  end.

Definition append_through (slot : Z) (steps : list ResolvedStep) (v : Value) : M unit :=
  _ ← own_local slot;
  root ← root_local slot;
  match root with
  | V_NativeView _ _ => _ ← resolve_native_path steps; crosses
  | _ =>
    target ← walk_value root steps;
    match target with
    | V_Array id =>
      ok ← on_heap (push_element id v);
      if ok : bool then mret tt else trap E_NotAnArray
    | _ => trap E_NotAnArray
    end
  end.

(** [fill_steps]: the innermost index is on top. *)
Fixpoint fill_steps (steps : list PathStep) : M (list ResolvedStep) :=
  match steps with
  | [] => mret []
  | step :: steps =>
    rest ← fill_steps steps;
    match step with
    | Field index => mret (RS_Field index :: rest)
    | Index => i ← pop_int; mret (RS_Index i :: rest)
    end
  end.

(** ** Arrays: [arrays.rs] *)

Definition new_array_op (count : Z) : M unit :=
  count ← need (usize_try_from count) E_ArrayTooLong;
  elements ← split_off count;
  id ← on_heap (alloc_array elements);
  push (V_Array id).

Definition is_array_node (node : option NativeStateValue) : bool :=
  match node with Some (NS_Array _) => true | _ => false end.

(** [u64::try_from(index)] of a signed index, refusing a negative one. *)
Definition snapshot_element (id : nat) (index : Z) : M Value :=
  if index <? 0 then _ ← heap_do (free_snapshot id); trap E_NegativeIndex
  else read_snapshot_child id (Path_Index index) E_IndexOutOfBounds.

Definition array_get : M unit :=
  index ← pop_int;
  base ← pop;
  h ← get_heap;
  match base with
  | V_NativeSnapshot id =>
    if is_array_node (snapshot_node h id) then
      element ← snapshot_element id index; push element
    else _ ← heap_do (free_snapshot id); trap E_NotAnArray
  | V_Array id =>
    let read := (i ← check_index index (array_len h id); ok_or (element h id i) E_IndexOutOfBounds) in
    element ← on_trap (checked read) (drop_v base);
    copy ← on_heap (copy_value element);
    _ ← drop_v base;
    push copy
  | _ => _ ← drop_v base; trap E_NotAnArray
  end.

Definition array_get_local (slot : Z) : M unit :=
  i ← local_index slot;
  index ← pop_int;
  f ← get_frame;
  local ← need (locals f !! i) (E_LocalSlotOutOfRange slot);
  h ← get_heap;
  match local with
  | V_NativeSnapshot id =>
    if is_array_node (snapshot_node h id) then
      borrowed ← on_heap (copy_value (V_NativeSnapshot id));
      match borrowed with
      | V_NativeSnapshot borrowed => element ← snapshot_element borrowed index; push element
      | _ => trap E_NotAnArray
      end
    else trap E_NotAnArray
  | V_Array id =>
    i ← checked (check_index index (array_len h id));
    element ← need (element h id i) E_IndexOutOfBounds;
    copy ← on_heap (copy_value element);
    push copy
  | _ => trap E_NotAnArray
  end.

(** [i64::try_from(len)]. *)
Definition counted (len : nat) : result VmError Z := ok_or (fit64 (Z.of_nat len)) E_ArrayTooLong.

Definition array_len_op : M unit :=
  base ← pop;
  h ← get_heap;
  match base with
  | V_NativeSnapshot id =>
    len ← snapshot_array_len id; n ← checked (counted len); push (V_Int n)
  | V_Array id =>
    let n := (len ← ok_or (array_len h id) E_NotAnArray; counted len) in
    _ ← drop_v base;
    n ← checked n;
    push (V_Int n)
  | _ => _ ← drop_v base; trap E_NotAnArray
  end.

(** One element as the C seam writes it; [None] for a refused pairing. *)
Definition seam_scalar (ty : ForeignType) (v : Value) : option (list byte) :=
  match ty, v with
  | ForeignType_I8, V_Int n | ForeignType_U8, V_Int n => Some (to_le 1 n)
  | ForeignType_Bool, V_Int n => Some [if n =? 0 then x00 else x01]
  | ForeignType_Bool, V_Bool flag => Some [if flag : bool then x01 else x00]
  | ForeignType_I16, V_Int n | ForeignType_U16, V_Int n => Some (to_le 2 n)
  | ForeignType_I32, V_Int n | ForeignType_U32, V_Int n => Some (to_le 4 n)
  | ForeignType_I64, V_Int n | ForeignType_U64, V_Int n => Some (to_le 8 n)
  | ForeignType_F32, V_Float x => Some (to_le 4 (f32_bits_of_f64 x))
  | ForeignType_F64, V_Float x => Some (to_le 8 x)
  | ForeignType_RawPtr, V_RawPtr word => Some (to_le 8 word)
  | _, _ => None
  end.

(** The same of a stored node; an integer written as a [Bool] keeps its low
    byte here. *)
Definition node_seam_scalar (ty : ForeignType) (node : NativeStateValue) : option (list byte) :=
  match ty, node with
  | ForeignType_I8, NS_Int n | ForeignType_U8, NS_Int n | ForeignType_Bool, NS_Int n => Some (to_le 1 n)
  | ForeignType_Bool, NS_Bool flag => Some [if flag : bool then x01 else x00]
  | ForeignType_I16, NS_Int n | ForeignType_U16, NS_Int n => Some (to_le 2 n)
  | ForeignType_I32, NS_Int n | ForeignType_U32, NS_Int n => Some (to_le 4 n)
  | ForeignType_I64, NS_Int n | ForeignType_U64, NS_Int n => Some (to_le 8 n)
  | ForeignType_F32, NS_Float x => Some (to_le 4 (f32_bits_of_f64 x))
  | ForeignType_F64, NS_Float x => Some (to_le 8 x)
  | ForeignType_RawPtr, NS_RawPtr word => Some (to_le 8 word)
  | _, _ => None
  end.

Definition seam_mismatch : VmError := E_TypeMismatch "an array element the C seam can carry".

Definition seam_bytes {A} (write : A -> option (list byte)) (l : list A) : result VmError (list byte) :=
  ok_or (@List.concat byte <$> mapM write l) seam_mismatch.

Definition array_elements (ty : ForeignType) : M unit :=
  v ← pop;
  h ← get_heap;
  bytes ←
    match v with
    | V_Array id =>
      let bytes := seam_bytes (seam_scalar ty) (elements h id) in
      _ ← drop_v v; checked bytes
    | V_NativeSnapshot id =>
      let bytes :=
        match snapshot_node h id with
        | Some (NS_Array nodes) => seam_bytes (node_seam_scalar ty) nodes
        | _ => Err E_NotAnArray
        end in
      _ ← heap_do (free_snapshot id); checked bytes
    | other => _ ← drop_v other; trap E_NotAnArray
    end;
  if is_nil bytes then push (V_RawPtr 0)
  else id ← on_heap (cblock_bytes bytes); push (V_CBlock id).

Definition array_append (slot : Z) (path : PlacePath) : M unit :=
  v ← pop;
  on_trap (steps ← fill_steps (PlacePath_steps path); append_through slot steps v) (drop_v v).

(** ** Capture cells: [cells.rs] *)

Definition new_cell : M unit := payload ← pop; id ← on_heap (alloc_cell payload); push (V_Cell id).

Definition cell_get_op (slot : Z) : M unit :=
  i ← local_index slot;
  f ← get_frame;
  match locals f !! i with
  | Some (V_Cell id) => v ← on_heap (cell_get id); v ← need v E_NotACell; push v
  | _ => trap E_NotACell
  end.

Definition cell_set_op (slot : Z) : M unit :=
  i ← local_index slot;
  v ← pop;
  f ← get_frame;
  match locals f !! i with
  | Some (V_Cell id) => ok ← on_heap (cell_set id v); if ok : bool then mret tt else trap E_NotACell
  | _ => _ ← drop_v v; trap E_NotACell
  end.

(** ** Structs and enums *)

Definition new_struct_op (count : Z) (glue : option Z) : M unit :=
  count ← need (usize_try_from count) E_ArrayTooLong;
  fields ← split_off count;
  id ← on_heap (match glue with
                | Some glue => alloc_struct_dropping fields glue
                | None => alloc_struct fields
                end);
  push (V_Struct id).

(** The evaluated values moved to their declared slots; a slot named twice keeps
    the later value. *)
Fixpoint place_fields (order : list Z) (evaluated : list Value) (fields : list (option Value)) :
    M (list (option Value)) :=
  match order, evaluated with
  | slot :: order, v :: evaluated =>
    i ← need (usize_try_from slot) E_ArrayTooLong;
    if decide (i < List.length fields)%nat then place_fields order evaluated (<[i := Some v]> fields)
    else trap E_StackUnderflow
  | _, _ => mret fields
  end.

Definition new_struct_ordered (order : list Z) (glue : option Z) : M unit :=
  evaluated ← split_off (List.length order);
  fields ← place_fields order evaluated (replicate (List.length order) None);
  fields ← need (mapM id fields) E_StackUnderflow;
  id ← on_heap (match glue with
                | Some glue => alloc_struct_dropping fields glue
                | None => alloc_struct fields
                end);
  push (V_Struct id).

(** A C block read out of a struct resolves to its address. *)
Definition get_field (index : Z) : M unit :=
  base ← pop;
  h ← get_heap;
  match base with
  | V_NativeView _ _ => _ ← native_field index; crosses
  | V_NativeSnapshot id =>
    _ ← native_field index;
    field ← read_snapshot_child id (Path_Field index) (E_NoSuchField index); push field
  | V_Struct id =>
    match field h id index with
    | None => _ ← drop_v base; trap (E_NoSuchField index)
    | Some field =>
      copy ← match field with
             | V_CBlock _ => mret (seam_word h field)
             | _ => on_heap (copy_value field)
             end;
      _ ← drop_v base;
      push copy
    end
  | _ => _ ← drop_v base; trap E_NotAStruct
  end.

Definition store_field_op (slot : Z) (path : FieldPath) : M unit :=
  v ← pop; on_trap (store_field slot (FieldPath_steps path) v) (drop_v v).

Definition store_place_op (slot : Z) (path : PlacePath) : M unit :=
  v ← pop;
  on_trap (steps ← fill_steps (PlacePath_steps path); store_place slot steps v) (drop_v v).

Definition new_enum (tag : Z) (has_payload : bool) : M unit :=
  payload ← (if has_payload then v ← pop; mret (Some v) else mret None);
  id ← on_heap (alloc_enum tag payload);
  push (V_Enum id).

Definition enum_tag_op : M unit :=
  base ← pop;
  h ← get_heap;
  match base with
  | V_NativeSnapshot id =>
    tag ← snapshot_enum_tag id; n ← need (fit64 tag) E_ArrayTooLong; push (V_Int n)
  | V_Enum id =>
    let tag := enum_tag h id in
    _ ← drop_v base;
    tag ← need tag E_NotAnEnum; n ← need (fit64 tag) E_ArrayTooLong; push (V_Int n)
  | _ => _ ← drop_v base; trap E_NotAnEnum
  end.

Definition enum_from_code : M unit :=
  count ← pop_int; code ← pop_int;
  let tag := if (0 <=? code) && (code <? count) then code else 0 in
  id ← on_heap (alloc_enum tag None);
  push (V_Enum id).

Definition enum_payload_op : M unit :=
  base ← pop;
  match base with
  | V_NativeSnapshot id => payload ← snapshot_enum_payload id; push payload
  | V_Enum id =>
    payload ← on_heap (enum_payload id);
    match payload with
    | None => _ ← drop_v base; trap E_MissingEnumPayload
    | Some payload => _ ← drop_v base; push payload
    end
  | _ => _ ← drop_v base; trap E_NotAnEnum
  end.

Definition hash_value_op : M unit :=
  v ← pop; h ← get_heap; hash ← compared (hash_value h v); _ ← drop_v v; push (V_Int hash).

(** ** Erased values and type descriptors *)

Definition pop_erased (expected : string) : M (Value * nat) :=
  v ← pop; match v with V_Erased id => mret (v, id) | other => mismatch other expected end.

Definition erase (type_id : Z) : M unit :=
  v ← pop; id ← on_heap (alloc_erased type_id v); push (V_Erased id).

Definition type_test (expected : Z) : M unit :=
  p ← pop_erased "an `Any` to test the type of";
  h ← get_heap;
  let holds := bool_decide (erased_type_id h p.2 = Some expected) in
  _ ← drop_v p.1;
  push (V_Bool holds).

Definition downcast (expected : Z) : M unit :=
  p ← pop_erased "an `Any` to cast";
  h ← get_heap;
  let actual := default 0 (erased_type_id h p.2) in
  if decide (actual = expected) then
    payload ← on_heap (erased_payload p.2);
    match payload with
    | None => _ ← drop_v p.1; trap E_MissingEnumPayload
    | Some payload => _ ← drop_v p.1; push payload
    end
  else _ ← drop_v p.1; trap (E_TypeCastFailed actual expected).

Definition type_cast_result (expected : Z) : M unit :=
  p ← pop_erased "an `Any` to cast";
  h ← get_heap;
  let actual := default 0 (erased_type_id h p.2) in
  if decide (actual = expected) then
    payload ← on_heap (erased_payload p.2);
    match payload with
    | None => _ ← drop_v p.1; trap E_MissingEnumPayload
    | Some payload => _ ← drop_v p.1; _ ← push payload; push (V_Bool true)
    end
  else _ ← drop_v p.1; _ ← push (V_Type actual); push (V_Bool false).

Definition type_of : M unit :=
  p ← pop_erased "an `Any` to read the type of";
  h ← get_heap;
  let identity := erased_type_id h p.2 in
  match identity with
  | None => _ ← drop_v p.1; trap (E_TypeMismatch "an erased value carrying its type")
  | Some identity => _ ← drop_v p.1; push (V_Type identity)
  end.

(** The source releases nothing when the operand is not a descriptor. *)
Definition type_field (m : Module_) (b : byte) : M unit :=
  tf ← need (TypeField_from_byte b) (E_TypeMismatch "a runtime type property");
  v ← pop;
  match v with
  | V_Type id =>
    let row := types m !! Z.to_nat (uwrap 32 id) in
    v ←
      match tf with
      | TF_Arguments =>
        let arguments := match row with Some row => t_arguments row | None => [] end in
        id ← on_heap (alloc_array (V_Type <$> arguments)); mret (V_Array id)
      | TF_Conformances =>
        let names := match row with Some row => t_conformances row | None => [] end in
        names ← on_heap (map_heap (fun name h => let '(h, id) := alloc name h in (h, V_Str id)) names);
        id ← on_heap (alloc_array names); mret (V_Array id)
      | TF_Name => string_answer (match row with Some row => t_name row | None => [] end)
      | TF_Package => string_answer (match row with Some row => t_package row | None => [] end)
      | TF_Kind => string_answer (match row with Some row => t_kind row | None => [] end)
      end;
    push v
  | _ => trap (E_TypeMismatch "a runtime type descriptor")
  end.

(** ** Conversions and the rest *)

Definition const_str (m : Module_) (index : Z) : M unit :=
  i ← need (usize_try_from index) (E_StringConstantOutOfRange index);
  text ← need (ModuleFormat.strings m !! i) (E_StringConstantOutOfRange index);
  v ← string_answer text; push v.

Definition convert_raw_ptr_to_int : M unit :=
  v ← pop;
  match v with
  | V_RawPtr word | V_NativeState word => push (V_Int (swrap 64 word))
  | other => mismatch other "a pointer into C storage"
  end.

(** [nul_terminated]. *)
Definition nul_terminated (text : rstring) : option (list byte) :=
  if existsb (Byte.eqb x00) text then None else Some (text ++ [x00]).

Definition cstring_new : M unit :=
  v ← pop;
  h ← get_heap;
  match v with
  | V_Str id =>
    block ← match nul_terminated (get h id) with
            | Some bytes => id ← on_heap (cblock_bytes bytes); mret (Some id)
            | None => mret None
            end;
    _ ← drop_v v;
    push (match block with Some block => V_CBlock block | None => V_RawPtr 0 end)
  | _ => _ ← drop_v v; trap E_NotAString
  end.

Definition string_len : M unit :=
  base ← pop;
  h ← get_heap;
  match base with
  | V_Str id =>
    let n := counted (List.length (get h id)) in
    _ ← drop_v base; n ← checked n; push (V_Int n)
  | _ => _ ← drop_v base; trap E_NotAString
  end.

Definition scalar_text_op : M unit :=
  v ← pop;
  match v with
  | V_Int code => v ← string_answer (scalar_text code); push v
  | other => mismatch other "a code point to render as text"
  end.

Definition foreign_offset (offset : Z) : M unit :=
  address ← pop_foreign_pointer; push (V_RawPtr (uwrap 64 (address + offset))).

Definition foreign_index (stride : Z) : M unit :=
  index ← pop;
  match index with
  | V_Int index =>
    address ← pop_foreign_pointer; push (V_RawPtr (uwrap 64 (address + uwrap 64 (uwrap 64 index * stride))))
  | other => mismatch other "an integer index into C storage"
  end.

Definition print : M unit :=
  v ← pop;
  text ← format_and_consume v;
  line ← need text E_UnprintableValue;
  _ ← put_vm (fun vm => with_written (written vm ++ [line]) vm);
  push V_Void.

Definition abort_op : M unit :=
  v ← pop;
  text ← format_and_consume v;
  trap (E_Aborted (default (list_byte_of_string "abort") text)).

Definition string_of : M unit :=
  v ← pop;
  text ← format_and_consume v;
  text ← need text E_UnprintableValue;
  v ← string_answer text; push v.

(** A table operation: its state kept, its trap the run's. *)
Definition task_op (prim : TaskPrim) : M unit :=
  third ← pop_int; second ← pop_int; first ← pop_int;
  vm ← get_vm;
  let '(t, answer) := Tasks.perform prim first second third (VmState.tasks vm) in
  _ ← put_vm (fun vm => with_executors t (VmState.channels vm) vm);
  match answer with Ok v => push (V_Int v) | Err e => trap (E_Task e) end.

Definition channel_op (prim : ChannelPrim) : M unit :=
  third ← pop_int; second ← pop_int; first ← pop_int;
  if host_channels then crosses
  else
    vm ← get_vm;
    let '(c, answer) := Channels.perform prim first second third (VmState.channels vm) in
    _ ← put_vm (fun vm => with_executors (VmState.tasks vm) c vm);
    match answer with Ok v => push (V_Int v) | Err e => trap (E_Channel e) end.

(** [jump]: the target must be an instruction of the current function. *)
Definition jump_op (m : Module_) (target : Z) : M unit :=
  f ← get_frame;
  function ← need (i ← usize_try_from (func f); functions m !! i) (E_UnknownFunction (func f));
  match usize_try_from target with
  | Some t =>
    if decide (t < List.length (ModuleFormat.code function))%nat then put_frame (set_pc t) else trap (E_BadJump target)
  | None => trap (E_BadJump target)
  end.

Definition jump_if_false (m : Module_) (target : Z) : M unit :=
  condition ← pop_bool; if condition : bool then mret tt else jump_op m target.

(** [self.stack.push(Value::Int(v.to_string()))] of an unsigned word. *)
Definition print_unsigned : M unit :=
  v ← pop_int;
  _ ← put_vm (fun vm => with_written (written vm ++ [u64_to_string (uwrap 64 v)]) vm);
  push V_Void.

Definition string_of_unsigned : M unit :=
  v ← pop_int; v ← string_answer (u64_to_string (uwrap 64 v)); push v.

(** An [Int] operand replaced by what [f] makes of it; the same of a [Float]. *)
Definition map_int (f : Z -> Value) : M unit := v ← pop_int; push (f v).
Definition map_float (f : Z -> Value) : M unit := v ← pop_float; push (f v).

Definition MathOp_argument_count (op : MathOp) : nat :=
  match op with
  | MathOp_Pow | MathOp_Atan2 | MathOp_Min | MathOp_Max | MathOp_Hypot | MathOp_CopySign | MathOp_Fmod => 2
  | _ => 1
  end.

(** The operands of a library function; the function itself is the host's
    floating-point library. *)
Fixpoint pop_floats (count : nat) : M unit :=
  match count with
  | O => mret tt
  | S count =>
    v ← pop;
    match v with
    | V_Float _ => pop_floats count
    | other => mismatch other "a float to take a maths operation of"
    end
  end.

Definition math_op (op : MathOp) : M unit := _ ← pop_floats (MathOp_argument_count op); crosses.

(** ** [Vm::step] *)

(** The instruction on its own, without the release of pending cells. *)
Definition execute (m : Module_) (i : Instruction) : M unit :=
  match i with
  | I_ConstInt v => push (V_Int v)
  | I_ConstFloat bits => push (V_Float bits)
  | I_ConstBool b => push (V_Bool b)
  | I_ConstVoid => push V_Void
  | I_ConstRawPtrNull => push (V_RawPtr 0)
  | I_ConstStr index => const_str m index
  | I_LoadLocal slot => load_local slot
  | I_LoadConstant slot => load_constant slot
  | I_TakeLocal slot => take_local slot
  | I_StoreLocal slot => store_local slot
  | I_Pop => v ← pop; drop_v v
  | I_NativeUserData shared => native_user_data shared
  | I_Print => print
  | I_Abort => abort_op
  | I_NewStruct count => new_struct_op count None
  | I_NewStructDropping count glue => new_struct_op count (Some glue)
  | I_NewStructOrdered order glue => new_struct_ordered order glue
  | I_GetField index => get_field index
  | I_StoreField slot path => store_field_op slot path
  | I_StorePlace slot path => store_place_op slot path
  | I_ArrayAppend slot path => array_append slot path
  | I_NewArray count => new_array_op count
  | I_ArrayGet => array_get
  | I_TaskOp prim => task_op prim
  | I_ChannelOp prim => channel_op prim
  | I_MainThreadLifecycle => mret tt
  | I_ArrayGetLocal slot => array_get_local slot
  | I_ArrayLen => array_len_op
  | I_StringLen => string_len
  | I_StringCharAt => index ← pop; base ← pop; v ← read_char_at base index; push (V_Int v)
  | I_StringSubstring =>
    end_ ← pop; start ← pop; base ← pop;
    text ← carve_substring base start end_;
    v ← string_answer text; push v
  | I_StringIndexOf => needle ← pop; base ← pop; v ← find_index_of base needle; push (V_Int v)
  | I_NumberOp op => number_op op
  | I_StringOp op => string_op op
  | I_StringOf => string_of
  | I_NewEnum tag has_payload => new_enum tag has_payload
  | I_Erase type_id => erase type_id
  | I_NewCell => new_cell
  | I_CellGet slot => cell_get_op slot
  | I_CellSet slot => cell_set_op slot
  | I_EnumTag => enum_tag_op
  | I_EnumFromCode => enum_from_code
  | I_HashValue => hash_value_op
  | I_EnumPayload => enum_payload_op
  | I_Jump target => jump_op m target
  | I_JumpIfFalse target => jump_if_false m target
  | I_Not => v ← pop_bool; push (V_Bool (negb v))
  | I_BitNot => map_int (fun v => V_Int (Z.lnot v))
  | I_NegInt => map_int (fun v => V_Int (swrap 64 (- v)))
  | I_NegFloat => map_float (fun v => V_Float (f64_neg v))
  | I_ConvertIntToFloat => map_int (fun v => V_Float (f64_of_int v))
  | I_ConvertIntToRawPtr => map_int (fun v => V_RawPtr (uwrap 64 v))
  | I_ConvertRawPtrToInt => convert_raw_ptr_to_int
  | I_ConvertFloatToBits => map_float (fun v => V_Int (swrap 64 v))
  | I_CStringNew => cstring_new
  | I_ArrayElements ty => array_elements ty
  | I_ScalarText => scalar_text_op
  | I_MathOp op => math_op op
  | I_ForeignLoad _ _ => _ ← pop_foreign_pointer; crosses
  | I_ForeignOffset offset => foreign_offset offset
  | I_ForeignIndex stride => foreign_index stride
  | I_ConvertBitsToFloat => map_int (fun v => V_Float (uwrap 64 v))
  | I_ConvertBits32ToFloat => map_int (fun v => V_Float (f64_of_f32_bits (uwrap 32 v)))
  | I_ConvertFloatToBits32 => map_float (fun v => V_Int (f32_bits_of_f64 v))
  | I_ConvertFloatToInt => convert_float_to_int
  | I_ConvertFloatToUInt => convert_float_to_uint
  | I_AddIntChecked | I_SubIntChecked | I_MulIntChecked | I_DivIntChecked
  | I_AddUIntChecked | I_SubUIntChecked | I_MulUIntChecked => checked_int_arith i
  | I_NegIntChecked => neg_int_checked
  | I_CheckInt code => check_int code
  | I_WrapInt code => wrap_int code
  | I_CheckShift bits => check_shift bits
  | I_ConvertInt from to => convert_int from to
  | I_ConvertUIntToFloat => map_int (fun v => V_Float (f64_of_int (uwrap 64 v)))
  | I_PrintUnsigned => print_unsigned
  | I_TypeTest expected => type_test expected
  | I_Downcast expected => downcast expected
  | I_StringOfUnsigned => string_of_unsigned
  | I_ConstType id => push (V_Type id)
  | I_TypeCastResult expected => type_cast_result expected
  | I_TypeField b => type_field m b
  | I_TypeOf => type_of
  | I_ForeignCallback _ | I_NativeState _ | I_NativeRecover _ | I_NativeStateTake _
  | I_NativeStateRetain | I_NativeStateRelease | I_MainThreadCall _ _ _ | I_MainThreadJoin
  | I_CLayoutAddress _ | I_FileSystem _ | I_Compiler _ | I_Env _ =>
    crosses
  | arithmetic => binary arithmetic
  end.

Definition step (m : Module_) (i : Instruction) : M unit :=
  _ ← heap_do drain_released_cells; execute m i.
End Step.
