(* ===== verification/VmTextRun.v ===== *)
(** Numbers and text through the interpreter: what [StringOf] writes, [toInt]
    reads back, and the text in between leaves nothing on the heap. *)

From stdpp Require Import gmap strings.
From S2P Require Import Prelude.
From S2P Require Import AbiOps.
From S2P Require Import Tasks.
From S2P Require Import Channels.
From S2P Require Import Foreign.
From S2P Require Import Instruction.
From S2P Require Import ModuleFormat.
From S2P Require Import Validate.
From S2P Require Import DecimalNumber.
From S2P Require Import NativeState.
From S2P Require Import Heap.
From S2P Require Import HeapOwnership.
From S2P Require Import HeapOps.
From S2P Require Import HeapClient.
From S2P Require Import VmState.
From S2P Require Import VmText.
From S2P Require Import VmOps.
From S2P Require Import VmStep.

Section TextRun.
Context {host : Host} {allocator : Allocator} {hosted : HostChannels}.

(** A text just allocated is there, and is given up again. *)
Lemma text_held h E R text h1 id : Inv h E R -> alloc text h = (h1, id) ->
  get h1 id = text /\ Inv (drop_value (V_Str id) h1) E R.
Proof.
  intros Hinv Ha. destruct (alloc_object_fresh _ _ _ _ _ _ Hinv Ha) as (_ & _ & Hs).
  pose proof (alloc_object_Inv h E R (O_Str text) h1 id Hinv eq_refl I Ha) as Hinv1. split.
  - unfold get. by rewrite Hs, decide_True.
  - by destruct (drop_value_spec (V_Str id) h1 E R Hinv1).
Qed.

Lemma i64_text_plain z : i64_ok z -> trim (i64_to_string z) = i64_to_string z.
Proof.
  intros Hz. unfold i64_ok, signed_ok in Hz. apply trim_plain. unfold i64_to_string.
  destruct (Z.ltb_spec z 0).
  - destruct (digits_cons (- z)) as (b & rest & -> & Hd & _); [lia|]. constructor; [done|by apply digits_plain].
  - destruct (digits_cons z) as (b & rest & -> & Hd & _); [lia|]. by apply digits_plain.
Qed.

(** Printing an integer and reading the text back, as the two instructions
    do it on the operand stack, gives the integer again for every [i64], changes
    nothing else of the stack or the frame, and leaves the heap's ledger as it
    was: the text is gone. *)
Theorem int_survives_text m vm f z below E R :
  i64_ok z -> stack vm = V_Int z :: below -> Inv (heap vm) E R ->
  exists h, Inv h E R /\
    (_ ← execute m I_StringOf; execute m (I_StringOp StringOp_ToInt)) (vm, f)
    = ((with_heap h (with_stack (V_Int z :: below) vm), f), Ok tt).
Proof.
  intros Hz Hs Hinv. destruct (alloc (i64_to_string z) (heap vm)) as [h1 id] eqn:Ha.
  destruct (text_held _ _ _ _ _ _ Hinv Ha) as [Hg Hd]. exists (drop_value (V_Str id) h1). split; [done|].
  cbn [execute]. unfold string_of, format_and_consume, string_answer, push, on_heap, need, put_vm, get_heap, pop.
  st_unfold. cbn. rewrite Hs. cbn. rewrite Ha. cbn.
  unfold string_op. cbn. st_unfold. unfold pop. cbn.
  unfold perform_string_op, finally, string_op_result, on_trap. st_unfold. cbn.
  rewrite Hg, i64_text_plain, parse_i64_print by done. cbn. by destruct vm.
Qed.

End TextRun.

(** ** Witness *)

#[local] Instance unheard : HostChannels := {| host_channels := false |}.
#[local] Instance text_pages : Allocator := {| payload_address n := 4096 * Z.of_nat (S n) |}.

Definition text_vm : Vm :=
  {| heap := heap_new; stack := [V_Int (- 2 ^ 63)]; VmState.constants := []; initializing_constants := false;
     pending_capture := []; captured := []; VmState.tasks := TaskExecutor_new;
     VmState.channels := ChannelExecutor_new; frame_cache := []; running_drops := []; slice_budget := None;
     written := [] |}.

Definition text_frame : Frame :=
  {| func := 0; pc := 0; locals := []; live := []; writebacks := []; capture := [] |}.

Lemma int_survives_text_witness :
  exists h, @Inv host64 h [] [] /\
    (_ ← @execute host64 text_pages unheard valid_sample I_StringOf;
     @execute host64 text_pages unheard valid_sample (I_StringOp StringOp_ToInt)) (text_vm, text_frame)
    = ((with_heap h (with_stack [V_Int (- 2 ^ 63)] text_vm), text_frame), Ok tt).
Proof.
  apply (@int_survives_text host64 text_pages unheard valid_sample text_vm text_frame (- 2 ^ 63) [] [] []);
    [unfold i64_ok, signed_ok; lia|reflexivity|exact heap_new_Inv].
Defined.
