(* ===== verification/VmRun.v ===== *)
(** Calls, frames and the dispatch loop: [interp/frames.rs], [interp/run.rs] and
    the loop of [interp.rs].

    The frame stack is kept top first.  The observer and the profiler's shadow
    stack are not modelled.  The loop takes fuel, one unit a turn; [None] means
    the fuel ran out. *)

From stdpp Require Import gmap strings.
From S2P Require Import Prelude.
From S2P Require Import AbiOps.
From S2P Require Import Instruction.
From S2P Require Import Tasks.
From S2P Require Import Channels.
From S2P Require Import ModuleFormat.
From S2P Require Import NativeState.
From S2P Require Import Heap.
From S2P Require Import VmState.
From S2P Require Import VmOps.
From S2P Require Import VmStep.

Definition MAX_CALL_DEPTH : nat := Z.to_nat 65536.
Definition FRAME_CACHE_LIMIT : nat := 64.

(** The VM and the frames it is running. *)
Definition Machine : Type := Vm * list Frame.
Abbreviation Run := (st Machine Stop).

Inductive Dispatched := Completed (v : Value) | Suspended.

Section Run.
Context {host : Host} {allocator : Allocator} {hosted : HostChannels}.

(** ** Machine-level computations *)

Definition stop {A} (e : VmError) : Run A := st_fail (Trap e).
Definition ok_or_stop {A} (o : option A) (e : VmError) : Run A :=
  match o with Some a => mret a | None => stop e end.
Definition get_machine : Run Machine := fun s => (s, Ok s).
Definition set_vm (f : Vm -> Vm) : Run unit := fun s => ((f s.1, s.2), Ok tt).
Definition set_frames (f : list Frame -> list Frame) : Run unit := fun s => ((s.1, f s.2), Ok tt).
Definition heap_run (f : Heap -> Heap) : Run unit := set_vm (fun vm => with_heap (f (heap vm)) vm).
Definition discard_run (vs : list Value) : Run unit := heap_run (drop_all drop_value vs).

(** A computation in the running frame; [frames[depth]] of no frame panics. *)
Definition in_top {A} (m : M A) : Run A := fun s =>
  match s.2 with
  | [] => (s, Err Panics)
  | f :: fs => let '((vm, f), r) := m (s.1, f) in ((vm, f :: fs), r)
  end.

(** A computation in a frame that is not on the frame stack; it answers the
    frame and how the computation ended. *)
Definition with_frame {A} (f : Frame) (m : M A) : Run (Frame * result Stop A) := fun s =>
  let '((vm, f), r) := m (s.1, f) in ((vm, s.2), Ok (f, r)).

(** ** Frames: [frames.rs] *)

Definition function_at (m : Module_) (index : Z) : option FuncProto :=
  i ← usize_try_from index; functions m !! i.

Definition fresh_frame (index : Z) (local_count : nat) : Frame :=
  {| func := index; pc := 0; locals := replicate local_count V_Void;
     live := replicate local_count false; writebacks := []; capture := [] |}.

Definition cache_frame (f : Frame) : Run unit :=
  set_vm (fun vm =>
    if decide (length (frame_cache vm) < FRAME_CACHE_LIMIT)%nat
    then with_cache (f :: frame_cache vm) vm else vm).

(** [self.frame_cache.pop()]. *)
Definition pop_cached : Run (option Frame) := fun s =>
  match frame_cache s.1 with
  | f :: rest => ((with_cache rest s.1, s.2), Ok (Some f))
  | [] => (s, Ok None)
  end.

(** A cached frame's slots are kept when their number fits. *)
Definition retarget (index : Z) (local_count : nat) (f : Frame) : Frame :=
  {| func := index; pc := 0;
     locals := if decide (length (locals f) = local_count) then locals f
               else replicate local_count V_Void;
     live := replicate local_count false; writebacks := []; capture := [] |}.

Definition take_frame (m : Module_) (index : Z) : Run Frame :=
  function ← ok_or_stop (function_at m index) (E_UnknownFunction index);
  let count := usize_try_from (local_count function) in
  let refused := E_LocalSlotOutOfRange (local_count function) in
  cached ← pop_cached;
  frame ← match cached with
          | Some frame => mret frame
          | None => count ← ok_or_stop count refused; mret (fresh_frame index count)
          end;
  count ← ok_or_stop count refused;
  mret (retarget index count frame).

(** [frame.locals[slot] = value; frame.live[slot] = is_heap_value(&value)]. *)
Definition fill_slot (slot : nat) (v : Value) : M unit :=
  f ← get_frame;
  if decide (slot < length (locals f) /\ slot < length (live f))%nat
  then put_frame (set_locals (<[slot := v]> (locals f)) (<[slot := is_heap_value v]> (live f)))
  else panics.

(** Slots [n - 1] down to [0]; the cases of no and of one parameter are the
    loop's. *)
Fixpoint fill_slots (n : nat) : M unit :=
  match n with
  | O => mret tt
  | S n => v ← pop; _ ← fill_slot n v; fill_slots n
  end.

Definition fill_params (m : Module_) (index : Z) : M unit :=
  function ← need (function_at m index) (E_UnknownFunction index);
  count ← need (usize_try_from (param_count function)) (E_LocalSlotOutOfRange index);
  fill_slots count.

(** Releases what the frame owns in [slot] and leaves [Void] there. *)
Definition release_slot (slot : nat) : M unit :=
  f ← get_frame;
  match locals f !! slot with
  | None => mret tt
  | Some held =>
    _ ← (if is_live f slot && is_heap_value held then drop_v held else mret tt);
    put_frame (set_locals (<[slot := V_Void]> (locals f)) (<[slot := false]> (live f)))
  end.

Fixpoint release_slots (slots : list nat) : M unit :=
  match slots with [] => mret tt | slot :: slots => _ ← release_slot slot; release_slots slots end.

Definition release_live_locals : M unit :=
  f ← get_frame; release_slots (seq 0 (length (locals f))).

(** A slot past the frame is skipped. *)
Definition release_planned (slots : list Z) : M unit := release_slots (omap usize_try_from slots).

(** A slot the frame does not own is forgotten. *)
Definition forget_dead : M unit :=
  put_frame (fun f =>
    set_locals (imap (fun i v => if is_live f i then v else V_Void) (locals f)) (live f) f).

(** [mem::replace(slot, Void)] of a slot whose value moves elsewhere. *)
Definition move_out (slot : Z) (f : Frame) : option (Value * Frame) :=
  i ← usize_try_from slot;
  v ← locals f !! i;
  Some (v, set_locals (<[i := V_Void]> (locals f)) (<[i := false]> (live f)) f).

(** The value is stored in the caller, which is the frame on top. *)
Definition write_caller (w : Writeback) (v : Value) : M unit :=
  if is_nil (w_steps w) then
    match usize_try_from (w_slot w) with
    | None => _ ← drop_v v; trap (E_LocalSlotOutOfRange (w_slot w))
    | Some slot =>
      caller ← get_frame;
      match locals caller !! slot with
      | None => _ ← drop_v v; trap (E_LocalSlotOutOfRange (w_slot w))
      | Some previous =>
        _ ← put_frame (set_locals (<[slot := v]> (locals caller)) (live caller)); drop_v previous
      end
    end
  else on_trap (store_place (w_slot w) (w_steps w) v) (drop_v v).

Definition write_back (w : Writeback) (v : Value) : Run unit :=
  s ← get_machine;
  if is_nil s.2 then _ ← heap_run (drop_value v); stop E_FrameUnderflow
  else in_top (write_caller w v).

(** [m], and [cleanup] when it traps. *)
Definition on_stop {A} (m : Run A) (cleanup : Run unit) : Run A := fun s =>
  match m s with
  | (s, Err (Trap e)) => match cleanup s with (s, Ok _) => (s, Err (Trap e)) | (s, Err e) => (s, Err e) end
  | r => r
  end.

(** The release of a frame that is off the stack, for its effect on the heap. *)
Definition release_frame (f : Frame) : Run Frame :=
  p ← with_frame f release_live_locals; mret p.1.

Fixpoint land_writebacks (ws : list Writeback) (finished : Frame) (answer : Value) : Run Frame :=
  match ws with
  | [] => mret finished
  | w :: ws =>
    match move_out (w_param w) finished with
    | None => land_writebacks ws finished answer
    | Some (v, finished) =>
      _ ← on_stop (write_back w v)
            (_ ← release_frame finished; heap_run (drop_value answer));
      land_writebacks ws finished answer
    end
  end.

Fixpoint take_captures (slots : list Z) (finished : Frame) : Run Frame :=
  match slots with
  | [] => mret finished
  | slot :: slots =>
    match move_out slot finished with
    | None => take_captures slots finished
    | Some (v, finished) =>
      _ ← set_vm (fun vm => with_capture (pending_capture vm) (captured vm ++ [(slot, v)]) vm);
      take_captures slots finished
    end
  end.

Definition cleared (w : Writeback) : Writeback :=
  {| w_param := w_param w; w_slot := w_slot w; w_steps := [] |}.

(** The release plan walked, and the frame cached when it holds no heap value. *)
Definition release_plan (plan : FrameRelease) (finished : Frame) : Run unit :=
  match plan with
  | EveryLocal => finished ← release_frame finished; cache_frame finished
  | Planned slots =>
    p ← with_frame finished (_ ← release_planned slots; forget_dead);
    let finished := p.1 in
    if forallb (fun v => negb (is_heap_value v)) (locals finished)
    then cache_frame (set_locals ((fun _ => V_Void) <$> locals finished) (live finished) finished)
    else mret tt
  end.

(** The answer goes to the caller, or is the run's when no frame is left; what an
    ill-typed function left on the stack is released then, the bottom first. *)
Definition hand_over (answer : Value) : Run (option Value) :=
  s ← get_machine;
  if is_nil s.2 then
    _ ← discard_run (rev (stack s.1));
    _ ← set_vm (with_stack []);
    mret (Some answer)
  else _ ← set_vm (fun vm => with_stack (answer :: stack vm) vm); mret None.

Definition finish_frame (m : Module_) (answer : Value) : Run (option Value) :=
  s ← get_machine;
  match s.2 with
  | [] => stop E_FrameUnderflow
  | finished :: frames =>
    _ ← set_frames (fun _ => frames);
    match function_at m (func finished) with
    | None =>
      _ ← release_frame finished;
      _ ← heap_run (drop_value answer);
      stop (E_UnknownFunction (func finished))
    | Some function =>
      if is_nil (writebacks finished) && is_nil (capture finished) && is_every_local (releases function)
      then
        finished ← release_frame finished; _ ← cache_frame finished; hand_over answer
      else
        finished ← land_writebacks (writebacks finished) finished answer;
        let finished := set_writebacks (cleared <$> writebacks finished) finished in
        let slots := capture finished in
        finished ← take_captures slots (set_capture [] finished);
        _ ← release_plan (releases function) finished;
        hand_over answer
    end
  end.

(** ** Calls *)

(** A callee prepared by [body] enters the frame stack; when [body] fails, what
    it holds is released. *)
Definition enter_callee (callee : Frame) (body : M unit) : Run unit :=
  p ← with_frame callee body;
  let '(callee, r) := p in
  match r with
  | Ok _ => set_frames (cons callee)
  | Err (Trap e) => _ ← discard_run (locals callee); stop e
  | Err e => st_fail e
  end.

Definition check_depth : Run unit :=
  s ← get_machine;
  if decide (MAX_CALL_DEPTH <= length s.2)%nat then stop E_CallDepthExceeded else mret tt.

Definition call (m : Module_) (index : Z) : Run unit :=
  _ ← check_depth;
  callee ← take_frame m index;
  enter_callee callee (fill_params m index).

Definition add_writeback (param slot : Z) (path : PlacePath) : M unit :=
  steps ← fill_steps (PlacePath_steps path);
  put_frame (fun f =>
    set_writebacks (writebacks f ++ [{| w_param := param; w_slot := slot; w_steps := steps |}]) f).

Definition call_mut (m : Module_) (index slot : Z) (path : PlacePath) : Run unit :=
  _ ← check_depth;
  callee ← take_frame m index;
  enter_callee callee (
    steps ← fill_steps (PlacePath_steps path);
    _ ← fill_params m index;
    put_frame (fun f =>
      set_writebacks (writebacks f ++ [{| w_param := 0; w_slot := slot; w_steps := steps |}]) f)).

Fixpoint add_writebacks (targets : list WritebackTarget) : M unit :=
  match targets with
  | [] => mret tt
  | t :: targets =>
    _ ← add_writeback (wb_param t) (wb_slot t) (wb_path t); add_writebacks targets
  end.

(** The last target's indices are on top of the stack. *)
Definition call_writeback (m : Module_) (index : Z) (targets : list WritebackTarget) : Run unit :=
  _ ← check_depth;
  callee ← take_frame m index;
  enter_callee callee (
    _ ← add_writebacks (rev targets);
    _ ← put_frame (fun f => set_writebacks (rev (writebacks f)) f);
    fill_params m index).

(** ** User [Drop] bodies: [run.rs] *)

(** The parked object, taken off the heap's list, becomes the only argument of
    its body. *)
Definition enter_drop_body (m : Module_) (pending : PendingDrop) (h : Heap) : Run unit :=
  _ ← set_vm (with_heap h);
  _ ← check_depth;
  callee ← take_frame m (pd_glue pending);
  _ ← set_vm (fun vm => with_stack (V_Struct (pd_id pending) :: stack vm) vm);
  enter_callee callee (fill_params m (pd_glue pending)).

Definition run_pending_drop (m : Module_) : Run unit :=
  s ← get_machine;
  match take_pending_drop (heap s.1) with
  | (_, None) => mret tt
  | (h, Some pending) =>
    _ ← enter_drop_body m pending h;
    s ← get_machine;
    set_vm (fun vm => with_drops ((length s.2, pd_id pending) :: running_drops vm) vm)
  end.

(** The bodies whose frame is gone, the innermost first. *)
Fixpoint finish_drops (running : list (nat * nat)) (depth : nat) (vm : Vm) : Vm :=
  match running with
  | [] => with_drops [] vm
  | (entered, id) :: rest =>
    if decide (entered <= depth)%nat then with_drops running vm
    else
      let vm :=
        match stack vm with
        | unit :: below =>
          if decide (1 < entered)%nat
          then with_heap (drop_value unit (heap vm)) (with_stack below vm) else vm
        | [] => vm
        end in
      finish_drops rest depth (with_heap (finish_pending_drop id (heap vm)) vm)
  end.

Definition finish_returned_drops : Run unit := fun s =>
  ((finish_drops (running_drops s.1) (length s.2) s.1, s.2), Ok tt).

(** ** The loop: [interp.rs] *)

(** The instructions the loop executes itself, past [step]. *)
Definition is_fast (i : Instruction) : bool :=
  match i with
  | I_Jump _ | I_ConstInt _ | I_ConstFloat _ | I_ConstBool _ | I_ConstVoid | I_ConstRawPtrNull
  | I_LoadLocal _ | I_StoreLocal _ | I_JumpIfFalse _ | I_AddInt | I_SubInt | I_MulInt
  | I_EqInt | I_NeInt | I_LtInt | I_LeInt | I_GtInt | I_GeInt => true
  | _ => false
  end.

(** The answer of the entered function is kept; a later one is not. *)
Definition get_or_insert (completed answer : option Value) : option Value :=
  match completed with Some v => Some v | None => answer end.

Definition dispatch (m : Module_) (completed : option Value) (i : Instruction) : Run (option Value) :=
  match i with
  | I_Return =>
    answer ← in_top pop; answer ← finish_frame m answer; mret (get_or_insert completed answer)
  | I_ReturnVoid => answer ← finish_frame m V_Void; mret (get_or_insert completed answer)
  | I_Call index => _ ← call m index; mret completed
  | I_CallMut index slot path => _ ← call_mut m index slot path; mret completed
  | I_CallWriteback index targets => _ ← call_writeback m index targets; mret completed
  | I_CallNative _ | I_CallForeign _ | I_CallNativeWriteback _ _ => st_fail Crosses
  | i => _ ← in_top (if is_fast i then execute m i else step m i); mret completed
  end.

(** Takes one instruction off the slice; [false] when none is left. *)
Definition spend : Run bool := fun s =>
  match slice_budget s.1 with
  | None => (s, Ok true)
  | Some budget =>
    if budget =? 0 then (s, Ok false) else ((with_budget (Some (budget - 1)) s.1, s.2), Ok true)
  end.

(** [&func.code[pc]], and the counter moved past it. *)
Definition fetch (m : Module_) : M Instruction :=
  f ← get_frame;
  function ← need (function_at m (func f)) (E_UnknownFunction (func f));
  i ← index_or_panic (ModuleFormat.code function) (pc f);
  _ ← put_frame (set_pc (S (pc f)));
  mret i.

(** One turn: the run goes on with what it holds as its answer, or stops. *)
Definition turn (m : Module_) (completed : option Value) : Run (option Value + Dispatched) :=
  _ ← finish_returned_drops;
  s ← get_machine;
  if owes_drops (heap s.1) then _ ← run_pending_drop m; mret (inl completed)
  else if owes_native_state (heap s.1) then st_fail Crosses
  else
    match completed, s.2 with
    | Some v, [] => mret (inr (Completed v))
    | _, _ =>
      going ← spend;
      if going : bool then
        i ← in_top (fetch m);
        completed ← dispatch m completed i;
        mret (inl completed)
      else mret (inr Suspended)
    end.

Fixpoint dispatch_inner (fuel : nat) (m : Module_) (completed : option Value) (s : Machine) :
    option (Machine * result Stop Dispatched) :=
  match fuel with
  | O => None
  | S fuel =>
    match turn m completed s with
    | (s, Ok (inl completed)) => dispatch_inner fuel m completed s
    | (s, Ok (inr d)) => Some (s, Ok d)
    | (s, Err e) => Some (s, Err e)
    end
  end.

(** ** Unwinding *)

(** The locals past the parameters. *)
Definition owned_locals (m : Module_) (f : Frame) : list Value :=
  match function_at m (func f) with
  | Some function => drop (default 0%nat (usize_try_from (param_count function))) (locals f)
  | None => locals f
  end.

Definition unwind (m : Module_) (s : Machine) : Machine :=
  let h := drop_all drop_value (concat (owned_locals m <$> rev s.2)) (heap s.1) in
  let h := drop_all drop_value (rev (stack s.1)) h in
  (with_stack [] (with_heap (abandon_pending_drops h) s.1), []).

(** A trap is unwound; a crossing or a panic stops where it is. *)
Definition dispatch_frames (fuel : nat) (m : Module_) (entry : option Frame) (s : Machine) :
    option (Machine * result Stop Dispatched) :=
  match dispatch_inner fuel m None (s.1, option_list entry ++ s.2) with
  | Some (s, Err (Trap e)) => Some (unwind m s, Err (Trap e))
  | r => r
  end.

Definition run (fuel : nat) (m : Module_) (entry : Frame) (s : Machine) :
    option (Machine * result Stop Value) :=
  match dispatch_frames fuel m (Some entry) s with
  | Some (s, Ok (Completed v)) => Some (s, Ok v)
  | Some (s, Ok Suspended) => Some (s, Err (Trap E_UnexpectedSuspend))
  | Some (s, Err e) => Some (s, Err e)
  | None => None
  end.

(** ** Entering *)

(** [for (slot, value) in args.into_iter().enumerate()]. *)
Definition bind_args (args : list Value) (f : Frame) : Frame :=
  set_locals (args ++ drop (length args) (locals f))
             ((is_heap_value <$> args) ++ drop (length args) (live f)) f.

(** [enter_values] past [ensure_constants]. *)
Definition enter_ready (fuel : nat) (m : Module_) (function_id : Z) (args : list Value) (s : Machine) :
    option (Machine * result Stop Value) :=
  match on_stop (take_frame m function_id) (discard_run args) s with
  | (s, Err e) => Some (s, Err e)
  | (s, Ok frame) =>
    if decide (length (locals frame) < length args)%nat then
      let expected := match function_at m function_id with Some f => param_count f | None => 0 end in
      Some ((_ ← discard_run args; _ ← discard_run (locals frame);
             stop (E_ArityMismatch function_id expected (length args))) s)
    else
      let frame := set_capture (pending_capture s.1) (bind_args args frame) in
      run fuel m frame (with_capture [] (captured s.1) s.1, s.2)
  end.

(** [fill_constants]' loop over the slots not filled yet.  The entry it makes
    finds the initialisation running and does not start it again. *)
Fixpoint fill_constants (fuel : nat) (m : Module_) (inits : list Z) (s : Machine) :
    option (Machine * result Stop unit) :=
  match inits with
  | [] => Some (s, Ok tt)
  | init :: inits =>
    if decide (u32_ok init) then
      match enter_ready fuel m init [] s with
      | Some (s, Ok v) =>
        fill_constants fuel m inits
          (with_constants (VmState.constants s.1 ++ [v]) (initializing_constants s.1) s.1, s.2)
      | Some (s, Err e) => Some (s, Err e)
      | None => None
      end
    else Some (s, Err (Trap (E_UnknownFunction init)))
  end.

Definition ensure_constants (fuel : nat) (m : Module_) (s : Machine) :
    option (Machine * result Stop unit) :=
  let vm := s.1 in
  let filled := length (VmState.constants vm) in
  if initializing_constants vm || bool_decide (length (ModuleFormat.constants m) <= filled)%nat
  then Some (s, Ok tt)
  else
    let busy := with_budget None (with_capture [] (captured vm) (with_constants (VmState.constants vm) true vm)) in
    match fill_constants fuel m (drop filled (ModuleFormat.constants m)) (busy, s.2) with
    | Some ((after, frames), r) =>
      Some ((with_budget (slice_budget vm)
               (with_capture (pending_capture vm) (captured after)
                  (with_constants (VmState.constants after) false after)), frames), r)
    | None => None
    end.

Definition enter_values (fuel : nat) (m : Module_) (function_id : Z) (args : list Value) (s : Machine) :
    option (Machine * result Stop Value) :=
  match ensure_constants fuel m s with
  | Some (s, Ok _) => enter_ready fuel m function_id args s
  | Some (s, Err (Trap e)) => Some ((_ ← discard_run args; stop e) s)
  | Some (s, Err e) => Some (s, Err e)
  | None => None
  end.

Definition release_constants (vm : Vm) : Vm :=
  with_constants [] (initializing_constants vm)
    (with_heap (drop_all drop_value (VmState.constants vm) (heap vm)) vm).

Definition enter_sliced (fuel : nat) (m : Module_) (function_id : Z) (s : Machine) :
    option (Machine * result Stop Dispatched) :=
  match ensure_constants fuel m s with
  | Some (s, Ok _) =>
    match take_frame m function_id s with
    | (s, Ok frame) => dispatch_frames fuel m (Some frame) s
    | (s, Err e) => Some (s, Err e)
    end
  | Some (s, Err e) => Some (s, Err e)
  | None => None
  end.

Definition resume_sliced (fuel : nat) (m : Module_) (s : Machine) :
    option (Machine * result Stop Dispatched) := dispatch_frames fuel m None s.
End Run.
