(* ===== verification/VmEntry.v ===== *)
(** Entering a module: [interp/program.rs], [instance.rs], [fiber.rs] and the
    scalar part of [value/seam.rs].

    A run's host is what it wrote and the callback-state tokens released as the
    run ends; both are answered beside the result. *)

From stdpp Require Import gmap strings.
From S2P Require Import Prelude.
From S2P Require Import AbiOps.
From S2P Require Import Foreign.
From S2P Require Import Instruction.
From S2P Require Import Tasks.
From S2P Require Import Channels.
From S2P Require Import ModuleFormat.
From S2P Require Import Validate.
From S2P Require Import IntWidth.
From S2P Require Import DecimalNumber.
From S2P Require Import NativeState.
From S2P Require Import HeapView.
From S2P Require Import Heap.
From S2P Require Import HeapDrops.
From S2P Require Import HeapEquality.
From S2P Require Import VmState.
From S2P Require Import VmStep.
From S2P Require Import VmRun.

(** ** The seam's values *)

Inductive NativeArg :=
| NA_Void | NA_Int (v : Z) | NA_Float (bits : Z) | NA_Bool (b : bool) | NA_Str (text : rstring)
| NA_Enum (tag : Z) | NA_Aggregate (tree : NativeStateValue) | NA_Handle (word : Z)
| NA_RawPtr (word : Z) | NA_NativeState (token : Z).

Inductive NativeResult :=
| NR_Void | NR_Int (v : Z) | NR_Float (bits : Z) | NR_Bool (b : bool) | NR_Str (text : rstring)
| NR_Enum (tag : Z) | NR_Handle (word : Z) | NR_RawPtr (word : Z) | NR_NativeState (token : Z).

(** [VmScratch]: what outlives one entry, less the always-empty buffers. *)
Record Scratch := {
  sc_stack : list Value;
  sc_frames : list Frame;
  sc_pending_capture : list Z;
  sc_captured : list (Z * Value);
  sc_frame_cache : list Frame;
  sc_constants : list Value
}.

Definition scratch_new : Scratch :=
  {| sc_stack := []; sc_frames := []; sc_pending_capture := []; sc_captured := [];
     sc_frame_cache := []; sc_constants := [] |}.

Section Entry.
Context {host : Host} {allocator : Allocator} {hosted : HostChannels}.

Definition lower (a : NativeArg) (h : Heap) : Heap * option Value :=
  match a with
  | NA_Void => (h, Some V_Void)
  | NA_Int v => (h, Some (V_Int v))
  | NA_Float bits => (h, Some (V_Float bits))
  | NA_Bool b => (h, Some (V_Bool b))
  | NA_Str text => let '(h, id) := alloc text h in (h, Some (V_Str id))
  | NA_Aggregate tree => let '(h, v) := from_native_state tree h in (h, Some v)
  | NA_RawPtr word => (h, Some (V_RawPtr word))
  | NA_NativeState token => (h, Some (V_NativeState token))
  | NA_Enum tag =>
    if tag <? 0 then (h, None) else let '(h, id) := alloc_enum tag None h in (h, Some (V_Enum id))
  | NA_Handle _ => (h, None)
  end.

(** A value whose result is a tree copied out of the heap is [Crosses]. *)
Definition lift_transfer (v : Value) (h : Heap) : Heap * result Stop (option NativeResult) :=
  match v with
  | V_NativeState token => (h, Ok (Some (NR_NativeState token)))
  | V_Struct _ | V_Array _ | V_Erased _ | V_CBlock _ => (h, Err Crosses)
  | V_Enum id =>
    match enum_tag h id, enum_payload_ref h id with
    | Some tag, None =>
      match fit64 tag with
      | Some tag => (drop_value v h, Ok (Some (NR_Enum tag)))
      | None => (h, Err Crosses)
      end
    | _, _ => (h, Err Crosses)
    end
  | _ =>
    let lifted :=
      match v with
      | V_Void => Some NR_Void
      | V_Int i => Some (NR_Int i)
      | V_Float bits => Some (NR_Float bits)
      | V_Bool b => Some (NR_Bool b)
      | V_Str id => Some (NR_Str (get h id))
      | V_RawPtr word => Some (NR_RawPtr word)
      | _ => None
      end in
    (drop_value v h, Ok lifted)
  end.

(** ** A VM from its reusable storage: [frames.rs] *)

Definition new_with_scratch (h : Heap) (sc : Scratch) : Machine :=
  ({| heap := h; stack := sc_stack sc; VmState.constants := sc_constants sc;
      initializing_constants := false; pending_capture := sc_pending_capture sc;
      captured := sc_captured sc; VmState.tasks := TaskExecutor_new;
      VmState.channels := ChannelExecutor_new; frame_cache := sc_frame_cache sc;
      running_drops := []; slice_budget := None; written := [] |},
   sc_frames sc).

Definition into_heap_and_scratch (s : Machine) : Heap * Scratch :=
  (heap s.1,
   {| sc_stack := stack s.1; sc_frames := s.2; sc_pending_capture := pending_capture s.1;
      sc_captured := captured s.1; sc_frame_cache := frame_cache s.1;
      sc_constants := VmState.constants s.1 |}).

(** [release_undelivered_channel_payloads]: the tokens handed to the host. *)
Definition release_undelivered (s : Machine) : Machine * list Z :=
  let '(c, tokens) := take_undelivered_tokens (VmState.channels s.1) in
  ((with_executors (VmState.tasks s.1) c s.1, s.2), tokens).

(** ** Programs: [program.rs] *)

Definition check_signature (m : Module_) (function_id : Z) (arg_count : nat) : result VmError unit :=
  match VmRun.function_at m function_id with
  | None => Err (E_UnknownFunction function_id)
  | Some function =>
    if is_native function then Err (E_NativeEntry function_id)
    else if decide (Z.of_nat arg_count = param_count function) then Ok tt
    else Err (E_ArityMismatch function_id (param_count function) arg_count)
  end.

Record RunOutcome := { ro_result : Value; ro_heap : HeapStats }.

(** [Vm::new]. *)
Definition vm_new (h : Heap) : Machine := new_with_scratch h scratch_new.

(** What a run leaves: its machine, the released tokens and its outcome. *)
Definition run_entry (fuel : nat) (m : Module_) :
    option (Machine * list Z * result Stop RunOutcome) :=
  let s := vm_new heap_new in
  match main m with
  | None => Some (s, [], Err (Trap E_NoEntrypoint))
  | Some main =>
    match enter_values fuel m main [] s with
    | None => None
    | Some (s, outcome) =>
      let '(s, tokens) := release_undelivered s in
      match outcome with
      | Err e => Some (s, tokens, Err e)
      | Ok answer =>
        let vm := release_constants (with_heap (drop_value answer (heap s.1)) s.1) in
        Some ((vm, s.2), tokens, Ok {| ro_result := answer; ro_heap := stats (heap vm) |})
      end
    end
  end.

Definition execute (fuel : nat) (m : Module_) :
    option (Machine * list Z * result Stop RunOutcome) :=
  match validate m with
  | Err e => Some (vm_new heap_new, [], Err (Trap (E_Module e)))
  | Ok _ => run_entry fuel m
  end.

(** ** Instances: [instance.rs] *)

(** The root table in the order of its keys. *)
Record Instance := {
  in_heap : Heap;
  in_roots : list (Z * Value);
  next_root : Z;
  in_scratch : Scratch
}.

Definition instance_new : Instance :=
  {| in_heap := heap_new; in_roots := []; next_root := 1; in_scratch := scratch_new |}.

Definition live_roots (x : Instance) : nat := length (in_roots x).
Definition root (x : Instance) (id : Z) : option Value :=
  snd <$> find (fun p => bool_decide (p.1 = id)) (in_roots x).

(** The arguments in this heap; a refused one releases those before it. *)
Fixpoint lower_args (function : Z) (roots : list (Z * Value)) (args : list NativeArg)
    (lowered : list Value) (h : Heap) : Heap * result VmError (list Value) :=
  match args with
  | [] => (h, Ok lowered)
  | a :: args =>
    let '(h, v) :=
      match a with
      | NA_Handle word =>
        match find (fun p => bool_decide (p.1 = word)) roots with
        | Some (_, rooted) => let '(h, v) := copy_value rooted h in (h, Ok v)
        | None => (h, Err (E_DanglingRoot word))
        end
      | _ =>
        let '(h, v) := lower a h in
        (h, ok_or v (E_UncrossableExport function "this argument"))
      end in
    match v with
    | Ok v => lower_args function roots args (lowered ++ [v]) h
    | Err e => (drop_all drop_value lowered h, Err e)
    end
  end.

(** [checked_add(1)] on [u64]. *)
Definition mint_root (x : Instance) : result VmError (Z * Instance) :=
  if next_root x + 1 <? 2 ^ 64
  then Ok (next_root x, {| in_heap := in_heap x; in_roots := in_roots x; next_root := next_root x + 1;
                           in_scratch := in_scratch x |})
  else Err E_RootSpaceExhausted.

Definition with_in_heap (h : Heap) (x : Instance) : Instance :=
  {| in_heap := h; in_roots := in_roots x; next_root := next_root x; in_scratch := in_scratch x |}.
Definition with_roots (roots : list (Z * Value)) (x : Instance) : Instance :=
  {| in_heap := in_heap x; in_roots := roots; next_root := next_root x; in_scratch := in_scratch x |}.

(** A minted id is past every id in the table. *)
Definition lift_result (function : Z) (answer : Value) (x : Instance) : Instance * result Stop NativeResult :=
  match answer with
  | V_Struct _ =>
    match mint_root x with
    | Ok (root, x) => (with_roots (in_roots x ++ [(root, answer)]) x, Ok (NR_Handle root))
    | Err e => (with_in_heap (drop_value answer (in_heap x)) x, Err (Trap e))
    end
  | V_Array _ =>
    (with_in_heap (drop_value answer (in_heap x)) x, Err (Trap (E_UncrossableExport function "an array result")))
  | V_Enum _ =>
    (with_in_heap (drop_value answer (in_heap x)) x, Err (Trap (E_UncrossableExport function "an enum result")))
  | scalar =>
    let '(h, lifted) := lift_transfer scalar (in_heap x) in
    (with_in_heap h x,
     match lifted with
     | Ok lifted => ok_or lifted (Trap (E_UncrossableExport function "this result"))
     | Err e => Err e
     end)
  end.

Definition instance_call (fuel : nat) (m : Module_) (function_id : Z)
    (args : list NativeArg) (x : Instance) : option (Instance * list Z * result Stop NativeResult) :=
  match check_signature m function_id (length args) with
  | Err e => Some (x, [], Err (Trap e))
  | Ok _ =>
    match lower_args function_id (in_roots x) args [] (in_heap x) with
    | (h, Err e) => Some (with_in_heap h x, [], Err (Trap e))
    | (h, Ok lowered) =>
      match enter_values fuel m function_id lowered (new_with_scratch h (in_scratch x)) with
      | None => None
      | Some (s, outcome) =>
        let '(s, tokens) := release_undelivered s in
        let '(h, scratch) := into_heap_and_scratch s in
        let x := {| in_heap := h; in_roots := in_roots x; next_root := next_root x; in_scratch := scratch |} in
        match outcome with
        | Err e => Some (x, tokens, Err e)
        | Ok answer => let '(x, r) := lift_result function_id answer x in Some (x, tokens, r)
        end
      end
    end
  end.

Definition instance_release (id : Z) (x : Instance) : Instance * result VmError unit :=
  match root x id with
  | None => (x, Err (E_DanglingRoot id))
  | Some v =>
    (with_roots (filter (fun p => p.1 <> id) (in_roots x))
       (with_in_heap (abandon_pending_drops (drop_value v (in_heap x))) x), Ok tt)
  end.

Definition release_all (x : Instance) : Instance :=
  with_roots [] (with_in_heap
    (abandon_pending_drops (drop_all drop_value (snd <$> in_roots x) (in_heap x))) x).

Definition finish (x : Instance) : HeapStats := stats (in_heap (release_all x)).

(** ** Fibers: [fiber.rs] *)

Inductive FiberStep := FiberSuspended | FiberFinished.

Record Fiber := {
  fb_function : Z;
  fb_heap : Heap;
  fb_scratch : Scratch;
  fb_tasks : TaskExecutor;
  fb_channels : ChannelExecutor;
  fb_started : bool;
  fb_finished : bool
}.

Definition fiber_new (function : Z) : Fiber :=
  {| fb_function := function; fb_heap := heap_new; fb_scratch := scratch_new;
     fb_tasks := TaskExecutor_new; fb_channels := ChannelExecutor_new;
     fb_started := false; fb_finished := false |}.

(** The machine a slice starts from. *)
Definition fiber_machine (budget : Z) (x : Fiber) : Machine :=
  let s := new_with_scratch (fb_heap x) (fb_scratch x) in
  (with_budget (Some budget) (with_executors (fb_tasks x) (fb_channels x) s.1), s.2).

(** What is kept of the machine a slice ends in. *)
Definition fiber_of (function : Z) (finished : bool) (s : Machine) : Fiber :=
  let '(h, scratch) := into_heap_and_scratch s in
  {| fb_function := function; fb_heap := h; fb_scratch := scratch;
     fb_tasks := VmState.tasks s.1; fb_channels := VmState.channels s.1;
     fb_started := true; fb_finished := finished |}.

(** The answer also holds the lines written and the tokens released. *)
Definition fiber_step (fuel : nat) (m : Module_) (budget : Z) (x : Fiber) :
    option (Fiber * (list rstring * list Z) * result Stop FiberStep) :=
  if fb_finished x then Some (x, ([], []), Ok FiberFinished)
  else
    let s := fiber_machine budget x in
    match (if fb_started x then resume_sliced fuel m s else enter_sliced fuel m (fb_function x) s) with
    | None => None
    | Some (s, Ok Suspended) =>
      Some (fiber_of (fb_function x) false s, (written s.1, []), Ok FiberSuspended)
    | Some (s, Ok (Completed answer)) =>
      let '(s, tokens) := release_undelivered (release_constants s.1, s.2) in
      let s := (with_heap (drop_value answer (heap s.1)) s.1, s.2) in
      Some (fiber_of (fb_function x) true s, (written s.1, tokens), Ok FiberFinished)
    | Some (s, Err e) =>
      let '(s, tokens) := release_undelivered s in
      Some (fiber_of (fb_function x) true s, (written s.1, tokens), Err e)
    end.
End Entry.
