(* ===== verification/VmSteady.v ===== *)
(** What every instruction that stays inside its frame has in common: it keeps
    the frame's shape, lands its jumps on instructions, never panics, does not
    look at what is left of the slice, and leaves a heap that asks for no other
    [Drop] bodies than the module's. *)

From stdpp Require Import gmap strings.
From S2P Require Import Prelude.
From S2P Require Import AbiOps.
From S2P Require Import Instruction.
From S2P Require Import Tasks.
From S2P Require Import Channels.
From S2P Require Import Foreign.
From S2P Require Import ModuleFormat.
From S2P Require Import Validate.
From S2P Require Import IntWidth.
From S2P Require Import DecimalNumber.
From S2P Require Import NativeState.
From S2P Require Import Heap.
From S2P Require Import HeapOwnership.
From S2P Require Import HeapOps.
From S2P Require Import HeapGlue.
From S2P Require Import VmState.
From S2P Require Import VmText.
From S2P Require Import VmOps.
From S2P Require Import VmStep.
From S2P Require Import VmRun.

(** A frame differs from [f0] in its values and in its program counter only,
    which moved to an instruction of its function if it moved. *)
Record alike {host : Host} (m : Module_) (f0 f : Frame) : Prop := {
  alike_func : func f = func f0;
  alike_locals : length (locals f) = length (locals f0);
  alike_live : length (live f) = length (locals f0);
  alike_writebacks : writebacks f = writebacks f0;
  alike_capture : capture f = capture f0;
  alike_pc : pc f = pc f0 \/
    exists function, function_at m (func f0) = Some function /\
      (pc f < length (ModuleFormat.code function))%nat
}.

(** The machine with another slice, other lines written before, other [Drop]
    bodies running and its constants marked otherwise. *)
Definition adrift (x : option Z * list rstring) (vm : Vm) : Vm :=
  with_budget x.1 (with_written (x.2 ++ written vm) vm).
Definition elsewhere (x : option Z * list rstring) (d : list (nat * nat) * bool) (vm : Vm) : Vm :=
  with_drops d.1 (with_constants (VmState.constants vm) d.2 (adrift x vm)).

(** What only the loop itself changes. *)
Definition bystanders (vm : Vm) : list (nat * nat) * bool := (running_drops vm, initializing_constants vm).

(** None of them has a part in a computation. *)
Definition budget_free {A} (c : M A) (vm : Vm) (f : Frame) : Prop :=
  forall x d, c (elsewhere x d vm, f) = ((elsewhere x d (c (vm, f)).1.1, (c (vm, f)).1.2), (c (vm, f)).2).

Lemma elsewhere_same x vm : elsewhere x (bystanders vm) vm = adrift x vm.
Proof. by destruct vm. Qed.

Lemma budget_free_adrift {A} (c : M A) vm f x : budget_free c vm f ->
  c (adrift x vm, f) = ((adrift x (c (vm, f)).1.1, (c (vm, f)).1.2), (c (vm, f)).2) /\
  bystanders (c (vm, f)).1.1 = bystanders vm.
Proof.
  intros Hc.
  assert (bystanders (c (vm, f)).1.1 = bystanders vm) as Hd.
  { specialize (Hc (slice_budget vm, []) (bystanders vm)).
    assert (elsewhere (slice_budget vm, []) (bystanders vm) vm = vm) as He by by destruct vm.
    rewrite He in Hc. apply (f_equal (fun r => bystanders r.1.1)) in Hc. exact Hc. }
  split; [|done]. specialize (Hc x (bystanders vm)). by rewrite <- Hd in Hc at 2; rewrite !elsewhere_same in Hc.
Qed.

(** The bodies the heap may ask for are bytecode functions with a receiver. *)
Abbreviation bodies_ok m := (glued (receiver_body m)).

(** Run in a frame of [J], the computation leaves one of [J], does not panic,
    does not look at the slice, and answers in [Q]. *)
Definition calm {host : Host} {A} (m : Module_) (J : Frame -> Prop) (c : M A) (Q : A -> Prop) : Prop :=
  forall vm f, J f -> bodies_ok m (heap vm) ->
    budget_free c vm f /\ J (c (vm, f)).1.2 /\ bodies_ok m (heap (c (vm, f)).1.1) /\
    match (c (vm, f)).2 with Ok a => Q a | Err e => e <> Panics end.

Definition steady {host : Host} {A} (m : Module_) (f0 : Frame) (c : M A) (Q : A -> Prop) : Prop :=
  calm m (alike m f0) c Q.

Lemma calm_bind {host : Host} {A B} m J (c : M A) (k : A -> M B) (P : A -> Prop) Q :
  calm m J c P -> (forall a, P a -> calm m J (k a) Q) -> calm m J (c ≫= k) Q.
Proof.
  intros Hc Hk vm f Hf Hg. destruct (Hc vm f Hf Hg) as (Hb & Ha & Hh & Hr).
  unfold budget_free in *. unfold mbind, st_bind.
  destruct (c (vm, f)) as [[vm1 f1] [a|e]] eqn:Hcf; cbn in *.
  - destruct (Hk a Hr vm1 f1 Ha Hh) as (Hb' & Ha' & Hh' & Hr'). split_and!; [|done..].
    intros x d. rewrite Hb. apply Hb'.
  - split_and!; [|done..]. intros x d. by rewrite Hb.
Qed.

Lemma calm_put_frame {host : Host} m (J : Frame -> Prop) (g : Frame -> Frame) :
  (forall f, J f -> J (g f)) -> calm m J (put_frame g) (fun _ => True).
Proof. intros Hg vm f Hf Hgl. split_and!; [done| |done..]. by apply Hg. Qed.

Section Steady.
Context {host : Host} {allocator : Allocator} {hosted : HostChannels}.
Context (m : Module_) (f0 : Frame).

Abbreviation ok := (steady m f0).
Abbreviation any := (fun _ => True).

(** ** The rules *)

Lemma steady_mono {A} (c : M A) (Q Q' : A -> Prop) : (forall a, Q a -> Q' a) -> ok c Q -> ok c Q'.
Proof.
  intros HQ Hc vm f Hf Hg. destruct (Hc vm f Hf Hg) as (Hb & Ha & Hh & Hr). split_and!; [done..|].
  destruct (c (vm, f)).2; auto.
Qed.

Lemma steady_ret {A} (a : A) (Q : A -> Prop) : Q a -> ok (mret a) Q.
Proof. intros HQ vm f Hf Hg. done. Qed.

Lemma steady_fail {A} e Q : e <> Panics -> ok (st_fail e : M A) Q.
Proof. intros He vm f Hf Hg. done. Qed.

Lemma steady_bind {A B} (c : M A) (k : A -> M B) (P : A -> Prop) Q :
  ok c P -> (forall a, P a -> ok (k a) Q) -> ok (c ≫= k) Q.
Proof. apply calm_bind. Qed.

Lemma steady_trap {A} e Q : ok (trap e : M A) Q.
Proof. by apply steady_fail. Qed.

Lemma steady_crosses {A} Q : ok (crosses : M A) Q.
Proof. by apply steady_fail. Qed.

Lemma steady_need {A} (o : option A) e (Q : A -> Prop) : (forall a, o = Some a -> Q a) -> ok (need o e) Q.
Proof. intros HQ. destruct o; [by apply steady_ret, HQ|apply steady_trap]. Qed.

Lemma steady_index {A} (l : list A) i (Q : A -> Prop) :
  (i < length l)%nat -> (forall a, l !! i = Some a -> Q a) -> ok (index_or_panic l i) Q.
Proof.
  intros Hi HQ. unfold index_or_panic. apply lookup_lt_is_Some in Hi as [a Ha].
  rewrite Ha. by apply steady_ret, HQ.
Qed.

Lemma steady_get_frame : ok get_frame (alike m f0).
Proof. intros vm f Hf Hg. done. Qed.

Lemma steady_get_heap : ok get_heap (bodies_ok m).
Proof. intros vm f Hf Hg. done. Qed.

Lemma steady_get_vm {B} (k : Vm -> M B) Q :
  (forall x d vm, k (elsewhere x d vm) = k vm) -> (forall vm, ok (k vm) Q) -> ok (vm ← get_vm; k vm) Q.
Proof.
  intros Hk Hq vm f Hf Hg. destruct (Hq vm vm f Hf Hg) as (Hb & Ha & Hh & Hr). split_and!; [|done..].
  intros x d. unfold mbind, st_bind, get_vm. cbn. rewrite Hk. apply Hb.
Qed.

Lemma steady_put_vm (g : Vm -> Vm) :
  (forall x d vm, g (elsewhere x d vm) = elsewhere x d (g vm)) -> (forall vm, heap (g vm) = heap vm) ->
  ok (put_vm g) any.
Proof.
  intros Hg Hh vm f Hf Hgl. split_and!; [|done| |done].
  - intros x d. unfold put_vm. cbn. by rewrite Hg.
  - cbn. by rewrite Hh.
Qed.

Lemma steady_put_frame (g : Frame -> Frame) :
  (forall f, alike m f0 f -> alike m f0 (g f)) -> ok (put_frame g) any.
Proof. apply calm_put_frame. Qed.

Lemma steady_on_heap {A} (g : Heap -> Heap * A) :
  (forall h, bodies_ok m h -> bodies_ok m (g h).1) -> ok (on_heap g) any.
Proof.
  intros Hg vm f Hf Hgl. specialize (Hg _ Hgl). unfold budget_free, on_heap. cbn.
  destruct (g (heap vm)) as [h a]. done.
Qed.

Lemma steady_heap_do g : (forall h, bodies_ok m h -> bodies_ok m (g h)) -> ok (heap_do g) any.
Proof. intros Hg. by apply steady_on_heap. Qed.

Lemma steady_on_trap {A} (c : M A) cleanup Q : ok c Q -> ok cleanup any -> ok (on_trap c cleanup) Q.
Proof.
  intros Hc Hk vm f Hf Hg. destruct (Hc vm f Hf Hg) as (Hb & Ha & Hh & Hr).
  unfold budget_free in *. unfold on_trap.
  destruct (c (vm, f)) as [[vm1 f1] [a|[e| | |]]] eqn:Hcf; cbn in *;
    try (split_and!; [|done..]; intros x d; by rewrite Hb).
  destruct (Hk vm1 f1 Ha Hh) as (Hb' & Ha' & Hh' & Hr'). unfold budget_free in Hb'.
  destruct (cleanup (vm1, f1)) as [[vm2 f2] [[]|e']] eqn:Hcl; cbn in *;
    (split_and!; [|done..]); intros x d; rewrite Hb, Hb'; done.
Qed.

(** ** The stack *)

Lemma steady_push v : ok (push v) any.
Proof. by apply steady_put_vm. Qed.

Lemma steady_pop : ok pop any.
Proof.
  intros vm f Hf Hg. unfold budget_free, pop. cbn. destruct (stack vm) eqn:Hs; cbn; by rewrite ?Hs.
Qed.

Lemma steady_split_off n : ok (split_off n) any.
Proof. intros vm f Hf Hg. unfold budget_free, split_off. cbn. by case_decide. Qed.

Lemma steady_drop v : ok (drop_v v) any.
Proof. apply steady_heap_do. intros h. apply glued_drop. Qed.
Lemma steady_discard vs : ok (discard vs) any.
Proof. apply steady_heap_do. intros h. apply glued_discard. Qed.

Lemma steady_pop_operands_from n : forall popped,
  ok (pop_operands_from popped n) (fun l => length l = (length popped + n)%nat).
Proof.
  induction n as [|n IH]; intros popped; cbn [pop_operands_from]; [apply steady_ret; lia|].
  eapply steady_bind; [apply steady_on_trap; [apply steady_pop|apply steady_discard]|]. intros v _.
  eapply steady_mono; [|apply IH]. intros l. rewrite length_app. cbn. lia.
Qed.

Lemma steady_pop_operands n : ok (pop_operands n) (fun l => length l = n).
Proof. apply steady_pop_operands_from. Qed.
End Steady.

Create HintDb steady.
#[export] Hint Resolve steady_ret steady_need steady_get_frame steady_get_heap steady_push steady_pop
  steady_split_off steady_pop_operands steady_on_heap steady_heap_do steady_crosses steady_trap
  steady_fail : steady.
#[export] Hint Extern 1 (_ <> Panics) => discriminate : steady.
#[export] Hint Resolve glued_drop glued_discard glued_copy_value glued_free_snapshot glued_free_str
  glued_alloc_str glued_alloc_strs glued_alloc_struct glued_alloc_array glued_alloc_dropping
  glued_alloc_enum glued_alloc_erased glued_alloc_cell glued_enum_payload glued_erased_payload
  glued_cell_get glued_cell_set glued_set_field glued_set_element glued_push_element
  glued_make_struct_unique glued_make_array_unique glued_cblock_bytes glued_own
  glued_read_state_node glued_drain : steady.

(** One step of a proof that a computation is steady: the head of a sequence by
    a lemma of the database when there is one, a test by its cases. *)
Ltac steady_step :=
  match goal with
  | |- True => exact I
  | |- steady _ _ (get_vm ≫= _) _ => apply steady_get_vm; [done|intros ?]
  | |- steady _ _ (put_vm _) _ =>
    apply steady_put_vm; [intros; unfold elsewhere, adrift; cbn; rewrite ?app_assoc; reflexivity|done]
  | |- steady _ _ (_ ≫= _) _ =>
    first [ eapply steady_bind; [solve [eauto with steady]|intros ? ?]
          | apply steady_bind with (P := fun _ => True); [|intros ? ?] ]
  | |- steady _ _ (on_trap _ _) _ => apply steady_on_trap
  | |- steady _ _ (if ?b then _ else _) _ => destruct b eqn:?
  | |- steady _ _ (match ?x with _ => _ end) _ => destruct x eqn:?
  | |- steady _ _ _ _ => solve [eauto with steady]
  end.
Ltac steady_solve := repeat steady_step.

Section Operators.
Context {host : Host} {allocator : Allocator} {hosted : HostChannels}.
Context (m : Module_) (f0 : Frame).
Abbreviation ok c := (steady m f0 c (fun _ => True)).

Hint Resolve steady_drop steady_discard : steady.
Lemma steady_mismatch {A} v e (Q : A -> Prop) : steady m f0 (mismatch v e) Q.
Proof. unfold mismatch. eapply steady_bind; [apply steady_drop|]. intros _ _. apply steady_trap. Qed.
Hint Resolve steady_mismatch : steady.

Lemma steady_pop_int : ok pop_int. Proof. unfold pop_int. steady_solve. Qed.
Lemma steady_pop_float : ok pop_float. Proof. unfold pop_float. steady_solve. Qed.
Lemma steady_pop_bool : ok pop_bool. Proof. unfold pop_bool. steady_solve. Qed.
Lemma steady_pop_str : ok pop_str. Proof. unfold pop_str. steady_solve. Qed.
Lemma steady_free_str id : ok (free_str id).
Proof. unfold free_str. steady_solve. Qed.
Hint Resolve steady_pop_int steady_pop_float steady_pop_bool steady_pop_str steady_free_str : steady.
Lemma steady_pop_two_str : ok pop_two_str. Proof. unfold pop_two_str. steady_solve. Qed.
Lemma steady_pop_pointer : ok pop_foreign_pointer. Proof. unfold pop_foreign_pointer. steady_solve. Qed.
Hint Resolve steady_pop_two_str steady_pop_pointer : steady.

Lemma steady_binary i : ok (binary i).
Proof.
  destruct i; cbn [binary]; try apply steady_trap;
    unfold int_arith, float_arith, concat_str, int_compare, uint_compare, float_compare, bool_compare_op,
      type_compare, any_compare, value_compare, str_compare, bitwise, divided, compared; steady_solve.
Qed.
Hint Resolve steady_binary : steady.

Lemma steady_spelling code : ok (spelling code).
Proof. unfold spelling. steady_solve. Qed.
Hint Resolve steady_spelling : steady.

Lemma steady_checked_int_arith i : ok (checked_int_arith i).
Proof. unfold checked_int_arith. steady_solve. Qed.
Lemma steady_neg_int_checked : ok neg_int_checked.
Proof. unfold neg_int_checked. steady_solve. Qed.
Lemma steady_check_int c : ok (check_int c).
Proof. unfold check_int. steady_solve. Qed.
Lemma steady_wrap_int c : ok (wrap_int c).
Proof. unfold wrap_int. steady_solve. Qed.
Lemma steady_check_shift b : ok (check_shift b).
Proof. unfold check_shift. steady_solve. Qed.
Lemma steady_convert_int a b : ok (convert_int a b).
Proof. unfold convert_int. steady_solve. Qed.
Lemma steady_convert_float_to_int : ok convert_float_to_int.
Proof. unfold convert_float_to_int. steady_solve. Qed.
Lemma steady_convert_float_to_uint : ok convert_float_to_uint.
Proof. unfold convert_float_to_uint. steady_solve. Qed.

(** ** Decimals *)

Lemma steady_finally {A} (c : M A) cleanup : ok c -> ok cleanup -> ok (finally c cleanup).
Proof. intros Hc Hk. unfold finally. steady_solve. Qed.

Lemma steady_as_number v : ok (as_number v).
Proof. unfold as_number. steady_solve. Qed.
Lemma steady_number_answer r : ok (number_answer r).
Proof. unfold number_answer. steady_solve. Qed.
Hint Resolve steady_as_number steady_number_answer : steady.

Lemma steady_operand (operands : list Value) i : (i < length operands)%nat -> ok (index_or_panic operands i).
Proof. intros Hi. by apply steady_index. Qed.

Lemma steady_number_op_result op operands :
  length operands = NumberOp_operand_count op -> ok (number_op_result op operands).
Proof.
  intros Hl.
  assert (forall i, (i < NumberOp_operand_count op)%nat -> ok (index_or_panic operands i)) as Hi
    by (intros i ?; apply steady_operand; lia).
  assert (ok (index_or_panic operands 0)) as H0 by (apply Hi; destruct op; cbn; lia).
  destruct op; try assert (ok (index_or_panic operands 1)) as H1 by (apply Hi; cbn; lia);
    unfold number_op_result, number_binary, number_predicate; steady_solve.
Qed.

Lemma steady_number_op op : ok (number_op op).
Proof.
  unfold number_op, perform_number_op. eapply steady_bind; [apply steady_pop_operands|]. intros l Hl.
  apply steady_bind with (P := fun _ => True); [|intros; steady_solve].
  apply steady_finally; [|apply steady_discard]. apply steady_number_op_result. by rewrite length_rev.
Qed.

(** ** Strings *)

Lemma steady_byte_at h a b : ok (byte_at h a b).
Proof. unfold byte_at. steady_solve. Qed.
Lemma steady_slice_of h a b c : ok (slice_of h a b c).
Proof. unfold slice_of. steady_solve. Qed.
Hint Resolve steady_byte_at steady_slice_of steady_finally : steady.
Lemma steady_read_char_at a b : ok (read_char_at a b).
Proof. unfold read_char_at. steady_solve; apply steady_finally; steady_solve. Qed.
Lemma steady_carve_substring a b c : ok (carve_substring a b c).
Proof. unfold carve_substring. steady_solve; apply steady_finally; steady_solve. Qed.
Lemma steady_find_index_of a b : ok (find_index_of a b).
Proof. unfold find_index_of. steady_solve; apply steady_finally; steady_solve. Qed.
Lemma steady_string_answer t : ok (string_answer t).
Proof. unfold string_answer. steady_solve. Qed.
Hint Resolve steady_string_answer : steady.

Lemma steady_string_op_result op base arguments : ok (string_op_result op base arguments).
Proof. unfold string_op_result. steady_solve. Qed.
Hint Resolve steady_string_op_result : steady.

Lemma steady_string_op op : ok (string_op op).
Proof.
  unfold string_op, perform_string_op. steady_solve; apply steady_finally; steady_solve.
Qed.

Lemma steady_format v : ok (format_and_consume v).
Proof. unfold format_and_consume. steady_solve. Qed.
End Operators.

#[export] Hint Resolve steady_drop steady_discard steady_mismatch steady_pop_int steady_pop_float
  steady_pop_bool steady_pop_str steady_free_str steady_pop_two_str steady_pop_pointer steady_binary
  steady_spelling steady_checked_int_arith steady_neg_int_checked steady_check_int steady_wrap_int
  steady_check_shift steady_convert_int steady_convert_float_to_int steady_convert_float_to_uint
  steady_number_op steady_read_char_at steady_carve_substring steady_find_index_of steady_string_answer
  steady_string_op steady_format : steady.

(** ** Instructions: [VmStep] *)

Section Instructions.
Context {host : Host} {allocator : Allocator} {hosted : HostChannels}.
Context (m : Module_) (f0 : Frame).
Abbreviation ok c := (steady m f0 c (fun _ => True)).

(** The slot is one of the frame's. *)
Definition slot_in (slot : Z) : Prop :=
  forall i, usize_try_from slot = Some i -> (i < length (locals f0))%nat.

Lemma alike_set_locals f l b :
  alike m f0 f -> length l = length (locals f) -> length b = length (live f) ->
  alike m f0 (set_locals l b f).
Proof. intros [] Hl Hb. split; cbn; congruence. Qed.

(** A write to the frame's slots keeps their number. *)
Lemma steady_put_locals (g : Frame -> list Value) (k : Frame -> list bool) :
  (forall f, length (g f) = length (locals f)) -> (forall f, length (k f) = length (live f)) ->
  ok (put_frame (fun f => set_locals (g f) (k f) f)).
Proof. intros Hg Hk. apply steady_put_frame. intros f Hf. by apply alike_set_locals. Qed.

Hint Extern 2 (steady _ _ (put_frame _) _) =>
  apply steady_put_locals; intros ?; rewrite ?length_insert; reflexivity : steady.

Lemma steady_checked {A} (r : result VmError A) : ok (checked r).
Proof. unfold checked. steady_solve. Qed.
Lemma steady_compared {A} (o : option A) : ok (compared o).
Proof. unfold compared. steady_solve. Qed.
Lemma steady_local_index slot : steady m f0 (local_index slot) (fun i => usize_try_from slot = Some i).
Proof. unfold local_index. by apply steady_need. Qed.
Hint Resolve steady_checked steady_compared steady_local_index : steady.

Lemma steady_push_copy v : ok (push_copy v).
Proof. unfold push_copy. steady_solve. Qed.
Hint Resolve steady_push_copy : steady.

Lemma steady_load_local slot : ok (load_local slot).
Proof. unfold load_local. steady_solve. Qed.
Lemma steady_load_constant slot : ok (load_constant slot).
Proof. unfold load_constant. steady_solve. Qed.
Lemma steady_take_local slot : ok (take_local slot).
Proof. unfold take_local. steady_solve. Qed.
Lemma steady_store_local slot : ok (store_local slot).
Proof. unfold store_local. steady_solve. Qed.

(** *** Deferred reads *)

(** A tree read out of a stored tree names no other bodies. *)
Lemma child_glued h id s child :
  bodies_ok m h -> snapshot_child (snapshot_node h id) s = Some (Some child) ->
  node_glued (receiver_body m) child.
Proof.
  intros Hg Hc. destruct (snapshot_node h id) as [node|] eqn:Hn; [|done].
  pose proof (snapshot_glued _ _ _ _ Hg Hn) as Hok.
  assert (forall l (i : Z), all_of (node_glued (receiver_body m)) l ->
    (j ← usize_try_from i; l !! j) = Some child -> node_glued (receiver_body m) child) as Hl.
  { intros l i Hl%all_of_Forall Hi. destruct (usize_try_from i); [|done]. cbn in Hi.
    exact (Forall_lookup_1 _ _ _ _ Hl Hi). }
  destruct node, s; cbn in Hc; try done; injection Hc as Hc; eapply Hl; [|done| |done..]; try done;
    by destruct Hok.
Qed.

Lemma enum_child_glued h id child :
  bodies_ok m h ->
  match snapshot_node h id with Some (NS_Enum _ payload) => Some payload | _ => None end = Some (Some child) ->
  node_glued (receiver_body m) child.
Proof.
  intros Hg Hc. destruct (snapshot_node h id) as [node|] eqn:Hn; [|done].
  pose proof (snapshot_glued _ _ _ _ Hg Hn) as Hok. by destruct node; simplify_eq.
Qed.

Lemma steady_read_snapshot_child id s e : ok (read_snapshot_child id s e).
Proof.
  unfold read_snapshot_child. eapply steady_bind; [apply steady_get_heap|]. intros h Hh.
  cbn zeta. eapply steady_bind; [steady_solve|]. intros _ _.
  destruct (snapshot_child _ s) as [[child|]|] eqn:Hc; try apply steady_trap.
  apply steady_on_heap. intros h' Hg. apply glued_read_state_node; [|done]. eapply child_glued; [exact Hh|exact Hc].
Qed.
Lemma steady_snapshot_array_len id : ok (snapshot_array_len id).
Proof. unfold snapshot_array_len. steady_solve. Qed.
Lemma steady_snapshot_enum_tag id : ok (snapshot_enum_tag id).
Proof. unfold snapshot_enum_tag. steady_solve. Qed.
Lemma steady_snapshot_enum_payload id : ok (snapshot_enum_payload id).
Proof.
  unfold snapshot_enum_payload. eapply steady_bind; [apply steady_get_heap|]. intros h Hh.
  cbn zeta. eapply steady_bind; [steady_solve|]. intros _ _.
  apply steady_bind with (P := fun p => match snapshot_node h id with
      | Some (NS_Enum _ payload) => Some payload | _ => None end = Some p);
    [apply steady_need; intros p Hp; exact Hp|]. intros p Hp.
  apply steady_bind with (P := fun child => p = Some child); [apply steady_need; intros c Hc; exact Hc|]. intros child ->.
  apply steady_on_heap. intros h' Hg. apply glued_read_state_node; [|done]. eapply enum_child_glued; [exact Hh|exact Hp].
Qed.
Lemma steady_native_user_data s : ok (native_user_data s).
Proof. unfold native_user_data. steady_solve. Qed.
Hint Resolve steady_read_snapshot_child steady_snapshot_array_len steady_snapshot_enum_tag
  steady_snapshot_enum_payload : steady.

(** *** Places *)

Lemma steady_frame_local (slot : Z) i f :
  slot_in slot -> usize_try_from slot = Some i -> alike m f0 f -> ok (index_or_panic (locals f) i).
Proof. intros Hs Hi Hf. apply steady_index; [rewrite (alike_locals _ _ _ Hf); by apply Hs|done]. Qed.

Lemma steady_own_local slot : slot_in slot -> ok (own_local slot).
Proof.
  intros Hs. unfold own_local. destruct (usize_try_from slot) as [i|] eqn:Hi; [|by apply steady_ret].
  eapply steady_bind; [apply steady_get_frame|]. intros f Hf.
  eapply steady_bind; [by eapply steady_frame_local|]. intros local _.
  destruct local; try by apply steady_ret. steady_solve.
Qed.

Lemma steady_root_local slot : slot_in slot -> ok (root_local slot).
Proof.
  intros Hs. unfold root_local. eapply steady_bind; [apply steady_local_index|]. intros i Hi.
  eapply steady_bind; [apply steady_get_frame|]. intros f Hf. by eapply steady_frame_local.
Qed.
Hint Resolve steady_own_local steady_root_local : steady.

Lemma steady_walk_step v s : ok (walk_step v s).
Proof. unfold walk_step. steady_solve. Qed.
Hint Resolve steady_walk_step : steady.
Lemma steady_walk_value steps : forall v, ok (walk_value v steps).
Proof. induction steps; intros; cbn [walk_value]; steady_solve. Qed.
Lemma steady_write_last t s v : ok (write_last t s v).
Proof. unfold write_last. steady_solve. Qed.
Lemma steady_native_field i : ok (native_field i).
Proof. unfold native_field. steady_solve. Qed.
Hint Resolve steady_walk_value steady_write_last steady_native_field : steady.
Lemma steady_resolve_native steps : ok (resolve_native_path steps).
Proof. induction steps as [|[] steps IH]; cbn [resolve_native_path]; steady_solve. Qed.
Hint Resolve steady_resolve_native : steady.

Lemma steady_store_place slot steps v : slot_in slot -> ok (store_place slot steps v).
Proof. intros Hs. unfold store_place. steady_solve. Qed.
Lemma steady_store_field slot path v : slot_in slot -> ok (store_field slot path v).
Proof. intros Hs. unfold store_field. steady_solve. Qed.
Lemma steady_append_through slot steps v : slot_in slot -> ok (append_through slot steps v).
Proof. intros Hs. unfold append_through. steady_solve. Qed.
Lemma steady_fill_steps path : ok (fill_steps path).
Proof. induction path; cbn [fill_steps]; steady_solve. Qed.
Hint Resolve steady_store_place steady_store_field steady_append_through steady_fill_steps : steady.

(** *** Arrays, cells, structs and enums *)

Lemma steady_snapshot_element id i : ok (snapshot_element id i).
Proof. unfold snapshot_element. steady_solve. Qed.
Hint Resolve steady_snapshot_element : steady.
Lemma steady_array_get : ok array_get.
Proof. unfold array_get. steady_solve. Qed.
Lemma steady_array_get_local slot : ok (array_get_local slot).
Proof. unfold array_get_local. steady_solve. Qed.
Lemma steady_array_len_op : ok array_len_op.
Proof. unfold array_len_op. steady_solve. Qed.
Lemma steady_array_elements ty : ok (array_elements ty).
Proof. unfold array_elements. steady_solve. Qed.
Lemma steady_array_append slot path : slot_in slot -> ok (array_append slot path).
Proof. intros Hs. unfold array_append. steady_solve. Qed.
Lemma steady_place_fields order : forall evaluated fields, ok (place_fields order evaluated fields).
Proof. induction order; intros; cbn [place_fields]; steady_solve. Qed.
Hint Resolve steady_place_fields : steady.
Lemma steady_alloc_glue vs glue :
  (forall g, glue = Some g -> receiver_body m g) ->
  ok (on_heap (match glue with Some g => alloc_struct_dropping vs g | None => alloc_struct vs end)).
Proof. intros Hg. destruct glue; steady_solve. Qed.
Hint Resolve steady_alloc_glue : steady.
Lemma steady_new_struct_op count glue :
  (forall g, glue = Some g -> receiver_body m g) -> ok (new_struct_op count glue).
Proof. intros Hg. unfold new_struct_op. steady_solve. Qed.
Lemma steady_new_struct_ordered order glue :
  (forall g, glue = Some g -> receiver_body m g) -> ok (new_struct_ordered order glue).
Proof. intros Hg. unfold new_struct_ordered. steady_solve. Qed.
Lemma steady_get_field i : ok (get_field i).
Proof. unfold get_field. steady_solve. Qed.
Lemma steady_store_field_op slot path : slot_in slot -> ok (store_field_op slot path).
Proof. intros Hs. unfold store_field_op. steady_solve. Qed.
Lemma steady_store_place_op slot path : slot_in slot -> ok (store_place_op slot path).
Proof. intros Hs. unfold store_place_op. steady_solve. Qed.
Lemma steady_new_enum tag b : ok (new_enum tag b).
Proof. unfold new_enum. steady_solve. Qed.
Lemma steady_pop_erased e : ok (pop_erased e).
Proof. unfold pop_erased. steady_solve. Qed.
Hint Resolve steady_pop_erased : steady.
Lemma steady_type_field b : ok (type_field m b).
Proof. unfold type_field. steady_solve. Qed.

(** *** The rest *)

Lemma steady_const_str i : ok (const_str m i).
Proof. unfold const_str. steady_solve. Qed.
Lemma steady_cstring_new : ok cstring_new.
Proof. unfold cstring_new. steady_solve. Qed.
Lemma steady_task_op p : ok (task_op p).
Proof.
  unfold task_op. steady_solve.
Qed.
Lemma steady_channel_op p : ok (channel_op p).
Proof. unfold channel_op. steady_solve. Qed.
Lemma steady_pop_floats n : ok (pop_floats n).
Proof. induction n; cbn [pop_floats]; steady_solve. Qed.
Hint Resolve steady_pop_floats : steady.

Lemma steady_jump target : ok (jump_op m target).
Proof.
  unfold jump_op. eapply steady_bind; [apply steady_get_frame|]. intros f Hf.
  apply steady_bind with (P := fun function => function_at m (func f) = Some function);
    [apply steady_need; intros ? H; exact H|]. intros function Hfn.
  destruct (usize_try_from target) as [t|]; [|apply steady_trap].
  case_decide; [|apply steady_trap]. apply steady_put_frame. intros f' [].
  split; cbn; try done. right. exists function. split; [|done].
  by rewrite <- (alike_func _ _ _ Hf).
Qed.
Hint Resolve steady_jump : steady.

(** What validation asks of the slot and the body an instruction names. *)
Definition names_ok (i : Instruction) : Prop :=
  match i with
  | I_StoreField slot _ | I_StorePlace slot _ | I_ArrayAppend slot _ => slot_in slot
  | I_NewStructDropping _ glue => receiver_body m glue
  | I_NewStructOrdered _ glue => forall g, glue = Some g -> receiver_body m g
  | _ => True
  end.

Hint Resolve steady_load_local steady_load_constant steady_take_local steady_store_local
  steady_native_user_data steady_array_get steady_array_get_local steady_array_len_op
  steady_array_elements steady_array_append steady_new_struct_op steady_new_struct_ordered steady_get_field
  steady_store_field_op steady_store_place_op steady_new_enum steady_pop_erased steady_type_field
  steady_const_str steady_cstring_new steady_task_op steady_channel_op : steady.

Lemma steady_execute i : names_ok i -> ok (execute m i).
Proof.
  intros Hs. destruct i; cbn [execute names_ok] in *; try solve [eauto with steady];
    try (apply steady_new_struct_op; congruence);
    unfold new_array_op, print, abort_op, string_of, print_unsigned, string_of_unsigned,
      map_int, map_float, enum_tag_op, enum_from_code, enum_payload_op, hash_value_op, erase, type_test,
      downcast, type_cast_result, type_of, convert_raw_ptr_to_int, string_len, scalar_text_op,
      foreign_offset, foreign_index, jump_if_false, math_op, new_cell, cell_get_op, cell_set_op;
    steady_solve.
Qed.

Lemma steady_instruction i : names_ok i -> ok (step m i).
Proof.
  intros Hs. unfold step. apply steady_bind with (P := fun _ => True); [steady_solve|].
  intros _ _. by apply steady_execute.
Qed.
End Instructions.
