(* ===== verification/VmControl.v ===== *)
(** Control safety: a validated module never makes the dispatch loop panic.
    Every frame on the stack runs a bytecode function with as many slots as it
    declares and stands on one of its instructions; every turn keeps that. *)

From stdpp Require Import gmap strings.
From S2P Require Import Prelude.
From S2P Require Import AbiOps.
From S2P Require Import Instruction.
From S2P Require Import Tasks.
From S2P Require Import Channels.
From S2P Require Import Foreign.
From S2P Require Import ModuleFormat.
From S2P Require Import Validate.
From S2P Require Import NativeState.
From S2P Require Import Heap.
From S2P Require Import HeapGlue.
From S2P Require Import VmState.
From S2P Require Import VmOps.
From S2P Require Import VmStep.
From S2P Require Import VmRun.
From S2P Require Import VmSteady.

(** ** Machine-level rules *)

(** The machine with another slice and other lines written before. *)
Definition moved (x : option Z * list rstring) (s : Machine) : Machine := (adrift x s.1, s.2).

(** From frames in [P] the computation does not panic, does not look at the
    slice, keeps the bodies the heap asks for, and answers in [Q] beside the
    frames it leaves.  It leaves the mark of the constants alone and, with
    [keep], the list of running [Drop] bodies. *)
Definition kept (keep : bool) (vm : Vm) : list (nat * nat) * bool :=
  (if keep then running_drops vm else [], initializing_constants vm).
Definition sound_for {host : Host} {A} (keep : bool) (m : Module_) (P : list Frame -> Prop) (c : Run A)
    (Q : A -> list Frame -> Prop) : Prop :=
  forall s, P s.2 -> bodies_ok m (heap s.1) ->
    (forall x, c (moved x s) = (moved x (c s).1, (c s).2)) /\
    kept keep (c s).1.1 = kept keep s.1 /\
    bodies_ok m (heap (c s).1.1) /\
    match (c s).2 with Ok a => Q a (c s).1.2 | Err e => e <> Panics end.

Abbreviation sound := (sound_for true).
Abbreviation rough := (sound_for false).

Section Rules.
Context {host : Host} {allocator : Allocator} {hosted : HostChannels}.
Context {keep : bool} (m : Module_).
Abbreviation sound_k := (sound_for keep).

Lemma sound_rough {A} (P : list Frame -> Prop) (c : Run A) (Q : A -> list Frame -> Prop) :
  sound m P c Q -> sound_k m P c Q.
Proof.
  intros Hc s Hs Hg. destruct (Hc s Hs Hg) as (Hb & Hd & Hh & Hr). split_and!; [done| |done..].
  injection Hd as Hd1 Hd2. unfold kept. rewrite Hd2. by destruct keep; [rewrite Hd1|].
Qed.

Lemma bystanders_kept vm vm' : bystanders vm' = bystanders vm -> kept keep vm' = kept keep vm.
Proof. intros [= H1 H2]. unfold kept. by rewrite H1, H2. Qed.

Lemma sound_weaken {A} (P P' : list Frame -> Prop) (c : Run A) (Q Q' : A -> list Frame -> Prop) :
  (forall fs, P' fs -> P fs) -> (forall a fs, Q a fs -> Q' a fs) -> sound_k m P c Q -> sound_k m P' c Q'.
Proof.
  intros HP HQ Hc s Hs Hg. destruct (Hc s (HP _ Hs) Hg) as (Hb & Hd & Hh & Hr). split_and!; [done..|].
  destruct (c s).2; auto.
Qed.

Lemma sound_ret {A} (a : A) (P : list Frame -> Prop) (Q : A -> list Frame -> Prop) :
  (forall fs, P fs -> Q a fs) -> sound_k m P (mret a) Q.
Proof. intros HQ s Hs Hg. split_and!; [done..|]. by apply HQ. Qed.

Lemma sound_fail {A} e P (Q : A -> list Frame -> Prop) : e <> Panics -> sound_k m P (st_fail e) Q.
Proof. intros He s Hs Hg. done. Qed.

Lemma sound_stop {A} e P (Q : A -> list Frame -> Prop) : sound_k m P (stop e) Q.
Proof. by apply sound_fail. Qed.

Lemma sound_bind {A B} P (c : Run A) (R : A -> list Frame -> Prop) (k : A -> Run B) Q :
  sound_k m P c R -> (forall a, sound_k m (R a) (k a) Q) -> sound_k m P (c ≫= k) Q.
Proof.
  intros Hc Hk s Hs Hg. destruct (Hc s Hs Hg) as (Hb & Hd & Hh & Hr). unfold mbind, st_bind.
  destruct (c s) as [s1 [a|e]] eqn:Hcs; cbn in *.
  - destruct (Hk a s1 Hr Hh) as (Hb' & Hd' & Hh' & Hr'). split_and!; [| |done..].
    + intros x. rewrite Hb. cbn. apply Hb'.
    + by rewrite Hd', Hd.
  - split_and!; [|done..]. intros x. by rewrite Hb.
Qed.

Lemma sound_ok_or {A} (o : option A) e (P : list Frame -> Prop) (Q : A -> list Frame -> Prop) :
  (forall a fs, o = Some a -> P fs -> Q a fs) -> sound_k m P (ok_or_stop o e) Q.
Proof. intros HQ. destruct o as [a|]; [|apply sound_stop]. apply sound_ret. intros fs. by apply HQ. Qed.

(** The machine is read for what is not the slice. *)
Lemma sound_get {A} P (k : Machine -> Run A) Q :
  (forall x s, k (moved x s) = k s) ->
  (forall s, P s.2 -> bodies_ok m (heap s.1) -> sound_k m (fun fs => fs = s.2) (k s) Q) ->
  sound_k m P (s ← get_machine; k s) Q.
Proof.
  intros Hk Hq s Hs Hg. destruct (Hq s Hs Hg s eq_refl Hg) as (Hb & Hd & Hh & Hr). split_and!; [|done..].
  intros x. unfold mbind, st_bind, get_machine. cbn. rewrite Hk. apply Hb.
Qed.

Lemma sound_set_vm (g : Vm -> Vm) (P : list Frame -> Prop) (Q : unit -> list Frame -> Prop) :
  (forall x vm, g (adrift x vm) = adrift x (g vm)) ->
  (forall vm, kept keep (g vm) = kept keep vm) ->
  (forall vm, bodies_ok m (heap vm) -> bodies_ok m (heap (g vm))) ->
  (forall fs, P fs -> Q tt fs) -> sound_k m P (set_vm g) Q.
Proof.
  intros Hb Hd Hh HQ s Hs Hg. split_and!; [|by apply Hd|by apply Hh|by apply HQ].
  intros x. unfold set_vm, moved. cbn. by rewrite Hb.
Qed.

Lemma sound_heap_run g (P : list Frame -> Prop) (Q : unit -> list Frame -> Prop) :
  (forall h, bodies_ok m h -> bodies_ok m (g h)) -> (forall fs, P fs -> Q tt fs) ->
  sound_k m P (heap_run g) Q.
Proof. intros Hg HQ. apply sound_set_vm; [done..| |done]. intros vm H. by apply Hg. Qed.

Lemma sound_drop v (P : list Frame -> Prop) : sound_k m P (heap_run (drop_value v)) (fun _ => P).
Proof. apply sound_heap_run; [|done]. intros h. apply glued_drop. Qed.

Lemma sound_discard vs (P : list Frame -> Prop) : sound_k m P (discard_run vs) (fun _ => P).
Proof. apply sound_heap_run; [|done]. intros h. apply glued_discard. Qed.

Lemma sound_set_frames g (P : list Frame -> Prop) (Q : unit -> list Frame -> Prop) :
  (forall fs, P fs -> Q tt (g fs)) -> sound_k m P (set_frames g) Q.
Proof. intros HQ s Hs Hg. split_and!; [done..|]. by apply HQ. Qed.

(** A computation in the frame on top. *)
Lemma sound_in_top {A} J (c : M A) rest (R : A -> Prop) :
  calm m J c R ->
  sound_k m (fun fs => exists f, fs = f :: rest /\ J f) (in_top c)
    (fun a fs => R a /\ exists f, fs = f :: rest /\ J f).
Proof.
  intros Hc [vm fs] Hs Hg. cbn in Hs. destruct Hs as (f & -> & Hf). destruct (Hc vm f Hf Hg) as (Hb & Ha & Hh & Hr).
  pose proof (fun x => proj1 (budget_free_adrift c vm f x Hb)) as Hb'.
  pose proof (bystanders_kept _ _ (proj2 (budget_free_adrift c vm f (None, []) Hb))) as Hd.
  unfold in_top, moved in *. cbn in *.
  destruct (c (vm, f)) as [[vm1 f1] r]. cbn in *. split_and!; [|done|done|].
  - intros x. by rewrite Hb'.
  - destruct r; [|done]. split; [done|]. by eexists.
Qed.

(** A computation in a frame that is off the stack. *)
Lemma sound_with_frame {A} (J : Frame -> Prop) f (c : M A) (R : A -> Prop) (P : list Frame -> Prop) :
  J f -> calm m J c R ->
  sound_k m P (with_frame f c)
    (fun p fs => P fs /\ J p.1 /\ match p.2 with Ok a => R a | Err e => e <> Panics end).
Proof.
  intros Hf Hc [vm fs] Hs Hg. destruct (Hc vm f Hf Hg) as (Hb & Ha & Hh & Hr).
  pose proof (fun x => proj1 (budget_free_adrift c vm f x Hb)) as Hb'.
  pose proof (bystanders_kept _ _ (proj2 (budget_free_adrift c vm f (None, []) Hb))) as Hd.
  unfold with_frame, moved in *. cbn in *.
  destruct (c (vm, f)) as [[vm1 f1] r]. cbn in *. split_and!; [|done..].
  intros x. by rewrite Hb'.
Qed.

Lemma sound_on_stop {A} P (c : Run A) cleanup Q :
  sound_k m P c Q -> sound_k m (fun _ => True) cleanup (fun _ _ => True) -> sound_k m P (on_stop c cleanup) Q.
Proof.
  intros Hc Hk s Hs Hg. destruct (Hc s Hs Hg) as (Hb & Hd & Hh & Hr). unfold on_stop.
  destruct (c s) as [s1 [a|[e| | |]]] eqn:Hcs; cbn in *;
    try (split_and!; [|done..]; intros x; by rewrite Hb).
  destruct (Hk s1 I Hh) as (Hb' & Hd' & Hh' & Hr').
  destruct (cleanup s1) as [s2 [u|e']] eqn:Hcl; cbn in *; (split_and!; [| |done..];
    [intros x; rewrite Hb; cbn; by rewrite Hb'|by rewrite Hd', Hd]).
Qed.
End Rules.

(** ** Frames of a validated module *)

Section Control.
Context {host : Host} {allocator : Allocator} {hosted : HostChannels}.
Context (m : Module_) (Hvalid : Valid m).

(** A frame of a bytecode function, standing on one of its instructions. *)
Record frame_ok (f : Frame) : Prop := {
  frame_function : exists function,
    function_at m (func f) = Some function /\ execution function <> Native /\
    length (locals f) = Z.to_nat (local_count function) /\
    (pc f < length (ModuleFormat.code function))%nat;
  frame_live : length (live f) = length (locals f)
}.

(** Each frame's writebacks name slots of the frame that entered it. *)
Definition targets_in (ws : list Writeback) (fs : list Frame) : Prop :=
  match fs with caller :: _ => Forall (fun w => slot_in caller (w_slot w)) ws | [] => True end.

Fixpoint linked (fs : list Frame) : Prop :=
  match fs with [] => True | f :: rest => targets_in (writebacks f) rest /\ linked rest end.

Definition frames_ok (fs : list Frame) : Prop := Forall frame_ok fs /\ linked fs.

(** The same frames, the one on top with other values. *)
Definition top_alike (fs fs' : list Frame) : Prop :=
  match fs, fs' with
  | [], [] => True
  | f :: rest, f' :: rest' => rest' = rest /\ alike m f f'
  | _, _ => False
  end.

Lemma alike_refl f : length (live f) = length (locals f) -> alike m f f.
Proof. intros H. split; auto. Qed.

Lemma alike_frame f f' : frame_ok f -> alike m f f' -> frame_ok f'.
Proof.
  intros [(function & Hf & Hn & Hl & Hp) Hv] [Af Al Av _ _ Ap]. split; [|congruence].
  exists function. rewrite Af, Al. split_and!; try done.
  destruct Ap as [->|(g & Hg & Hpc)]; [done|]. by simplify_eq.
Qed.

Lemma alike_slot_in f f' slot : alike m f f' -> slot_in f slot -> slot_in f' slot.
Proof. intros [_ Al _ _ _ _] Hs i Hi. rewrite Al. by apply Hs. Qed.

Lemma top_alike_targets ws fs fs' : top_alike fs fs' -> targets_in ws fs -> targets_in ws fs'.
Proof.
  destruct fs as [|f rest], fs' as [|f' rest']; try done. intros [-> Ha] Ht.
  eapply Forall_impl; [exact Ht|]. intros w. by apply alike_slot_in.
Qed.

Lemma top_alike_ok fs fs' : top_alike fs fs' -> frames_ok fs -> frames_ok fs'.
Proof.
  destruct fs as [|f rest], fs' as [|f' rest']; try done. intros [-> Ha] [Hf [Ht Hl]].
  apply Forall_cons in Hf as [Hf Hr]. split; [constructor; [by eapply alike_frame|done]|].
  split; [|done]. by rewrite (alike_writebacks _ _ _ Ha).
Qed.

Lemma pop_ok f rest : frames_ok (f :: rest) -> frame_ok f /\ targets_in (writebacks f) rest /\ frames_ok rest.
Proof. intros [Hf [Ht Hl]]. by apply Forall_cons in Hf as [Hf Hr]. Qed.

Lemma push_ok f rest : frame_ok f -> targets_in (writebacks f) rest -> frames_ok rest -> frames_ok (f :: rest).
Proof. intros Hf Ht [Hr Hl]. split; [by constructor|done]. Qed.

(** ** What validation says *)

Lemma valid_at i function : function_at m i = Some function -> function_valid m function.
Proof.
  intros Hf. unfold function_at in Hf. destruct (usize_try_from i) as [n|]; [|done]. cbn in Hf.
  exact (Forall_lookup_1 _ _ _ _ (valid_functions _ Hvalid) Hf).
Qed.

Lemma at_function i function : function_at m i = Some function -> at_index (functions m) i function.
Proof.
  intros Hf. unfold function_at in Hf. destruct (usize_try_from i) as [n|] eqn:Hi; [|done]. cbn in Hf.
  apply usize_try_from_Some in Hi as [-> _]. by exists n.
Qed.

Lemma function_of i g : at_index (functions m) i g -> forall function, function_at m i = Some function -> function = g.
Proof.
  intros (n & -> & Hn) function Hf. apply at_function in Hf as (k & Hk & Hf).
  apply Nat2Z.inj in Hk as <-. congruence.
Qed.

Lemma bytecode_body function : function_valid m function -> execution function <> Native ->
  (exists i, last (ModuleFormat.code function) = Some i /\ (i = I_Return \/ i = I_ReturnVoid)) /\
  forall pc i, ModuleFormat.code function !! pc = Some i -> operand_valid m function i.
Proof.
  intros (_ & _ & _ & Hb) Hn. unfold body_valid in Hb. rewrite decide_False in Hb by done.
  destruct Hb as [Hl Hp]. split; [done|]. intros pc i Hi. by apply (Hp _ _ Hi).
Qed.

(** Only a return is the last instruction of a body. *)
Lemma next_instruction function pc i :
  function_valid m function -> execution function <> Native -> ModuleFormat.code function !! pc = Some i ->
  i <> I_Return -> i <> I_ReturnVoid -> (S pc < length (ModuleFormat.code function))%nat.
Proof.
  intros Hv Hn Hi H1 H2. destruct (bytecode_body _ Hv Hn) as [(j & Hl & Hj) _].
  pose proof (lookup_lt_Some _ _ _ Hi). destruct (decide (S pc = length (ModuleFormat.code function))) as [He|]; [|lia].
  rewrite last_lookup, <- He in Hl. cbn in Hl. rewrite Hi in Hl. simplify_eq. by destruct Hj.
Qed.

Lemma body_not_empty function : function_valid m function -> execution function <> Native ->
  (0 < length (ModuleFormat.code function))%nat.
Proof.
  intros Hv Hn. destruct (bytecode_body _ Hv Hn) as [(j & Hl & _) _].
  destruct (ModuleFormat.code function); [done|cbn; lia].
Qed.

Lemma local_slot function slot : function_valid m function -> is_local function slot ->
  exists i, usize_try_from slot = Some i /\ (i < Z.to_nat (local_count function))%nat.
Proof.
  intros (Hu & _) [H1 H2]. exists (Z.to_nat slot). unfold usize_try_from.
  rewrite decide_True by lia. split; [done|lia].
Qed.
(** ** Calls *)

(** A frame just taken for [g]. *)
Record fresh (index : Z) (g : FuncProto) (f : Frame) : Prop := {
  fresh_function : function_at m index = Some g;
  fresh_func : func f = index;
  fresh_pc : pc f = 0%nat;
  fresh_locals : length (locals f) = Z.to_nat (local_count g);
  fresh_live : length (live f) = Z.to_nat (local_count g);
  fresh_writebacks : writebacks f = []
}.

Lemma sound_pop_cached (P : list Frame -> Prop) : sound m P pop_cached (fun _ => P).
Proof.
  intros [vm fs] Hs Hg. unfold pop_cached, moved. cbn.
  destruct (frame_cache vm) as [|f rest] eqn:Hc; cbn; rewrite ?Hc; done.
Qed.

Lemma retarget_fresh index g n f : function_at m index = Some g ->
  usize_try_from (local_count g) = Some n -> fresh index g (retarget index n f).
Proof.
  intros Hg [Hn _]%usize_try_from_Some. split; cbn; try done.
  - case_decide; [lia|]. rewrite length_replicate. lia.
  - rewrite length_replicate. lia.
Qed.

Lemma sound_take_frame index (P : list Frame -> Prop) :
  sound m P (take_frame m index) (fun f fs => P fs /\ exists g, fresh index g f).
Proof.
  unfold take_frame.
  apply sound_bind with (R := fun g fs => P fs /\ function_at m index = Some g); [by apply sound_ok_or|].
  intros g. apply sound_bind with (R := fun _ fs => P fs /\ function_at m index = Some g);
    [apply sound_pop_cached|]. intros cached.
  apply sound_bind with (R := fun _ fs => P fs /\ function_at m index = Some g).
  { destruct cached; [by apply sound_ret|].
    apply sound_bind with (R := fun _ fs => P fs /\ function_at m index = Some g); [by apply sound_ok_or|].
    intros n. by apply sound_ret. }
  intros frame.
  apply sound_bind with (R := fun n fs => P fs /\ function_at m index = Some g /\
    usize_try_from (local_count g) = Some n); [apply sound_ok_or; by intros ? fs ? [? ?]|].
  intros n. apply sound_ret. intros fs (HP & Hg & Hn). split; [done|]. exists g. by apply retarget_fresh.
Qed.

Lemma steady_fill_slot f0 slot v : (slot < length (locals f0))%nat -> steady m f0 (fill_slot slot v) (fun _ => True).
Proof.
  intros Hs. unfold fill_slot. eapply steady_bind; [apply steady_get_frame|].
  intros f [_ Hl Hv _ _ _]. rewrite decide_True by lia. apply steady_put_frame. intros f' Hf'.
  pose proof Hf' as [_ Hl' Hv' _ _ _]. apply alike_set_locals; [done|rewrite length_insert; lia..].
Qed.

Lemma steady_fill_params f0 index g :
  function_at m index = Some g -> (Z.to_nat (param_count g) <= length (locals f0))%nat ->
  steady m f0 (fill_params m index) (fun _ => True).
Proof.
  intros Hg Hp. unfold fill_params.
  apply steady_bind with (P := fun g' => g' = g); [apply steady_need; congruence|]. intros ? ->.
  apply steady_bind with (P := fun n => (n <= length (locals f0))%nat).
  { apply steady_need. intros n [Hn _]%usize_try_from_Some. lia. }
  intros n. induction n as [|n IH]; intros Hn; cbn [fill_slots]; [by apply steady_ret|].
  eapply steady_bind; [apply steady_pop|]. intros v _.
  eapply steady_bind; [apply steady_fill_slot; lia|]. intros _ _. apply IH. lia.
Qed.

(** The callee as it is made ready: its writebacks name slots of the caller. *)
Definition entering (rest : list Frame) (f0 f : Frame) : Prop :=
  targets_in (writebacks f) rest /\ alike m (set_writebacks (writebacks f) f0) f.

Lemma calm_entering {A} rest f0 (c : M A) Q :
  (forall ws, steady m (set_writebacks ws f0) c Q) -> calm m (entering rest f0) c Q.
Proof.
  intros Hc vm f [Ht Ha] Hg. destruct (Hc _ vm f Ha Hg) as (Hb & Ha' & Hh & Hr). split_and!; try done.
  pose proof (alike_writebacks _ _ _ Ha') as Hw. cbn in Hw. split; by rewrite Hw.
Qed.

Lemma calm_put_writebacks rest f0 (g : Frame -> list Writeback) :
  (forall f, targets_in (writebacks f) rest -> targets_in (g f) rest) ->
  calm m (entering rest f0) (put_frame (fun f => set_writebacks (g f) f)) (fun _ => True).
Proof. intros Hg. apply calm_put_frame. intros f [Ht []]. split; [by apply Hg|]. by split. Qed.

Lemma targets_app ws w rest :
  targets_in ws rest -> targets_in [w] rest -> targets_in (ws ++ [w]) rest.
Proof. destruct rest; [done|]. apply Forall_app_2. Qed.

Lemma targets_rev ws rest : targets_in ws rest -> targets_in (rev ws) rest.
Proof. destruct rest; [done|]. apply Forall_rev. Qed.

Lemma calm_fill_params rest f0 index g :
  fresh index g f0 -> function_valid m g -> calm m (entering rest f0) (fill_params m index) (fun _ => True).
Proof.
  intros [] (_ & _ & Hp & _). apply calm_entering. intros ws. eapply steady_fill_params; [done|]. cbn. lia.
Qed.

Lemma sound_enter_callee callee index g rest body :
  fresh index g callee -> execution g <> Native -> frames_ok rest ->
  calm m (entering rest callee) body (fun _ => True) ->
  sound m (fun fs => fs = rest) (enter_callee callee body) (fun _ fs => frames_ok fs /\ exists f, fs = f :: rest).
Proof.
  intros [] Hn Hrest Hbody. unfold enter_callee.
  eapply sound_bind; [apply (sound_with_frame m (entering rest callee)); [|exact Hbody]|].
  { split; [rewrite fresh_writebacks0; destruct rest; [done|constructor]|]. split; cbn; try done; [lia|by left]. }
  intros [callee' r]. cbn. destruct r as [u|[e| | |]].
  - apply sound_set_frames. intros fs (-> & [Ht Ha] & _). split; [|by eexists]. apply push_ok; [|done..].
    destruct Ha as [Af Al Av _ _ Ap]. cbn in *. split; [|lia]. exists g.
    rewrite Af, Al, fresh_func0. split_and!; try done.
    destruct Ap as [->|(g' & Hg' & Hpc)]; [|by rewrite fresh_func0 in Hg'; simplify_eq].
    rewrite fresh_pc0. exact (body_not_empty _ (valid_at _ _ fresh_function0) Hn).
  - eapply sound_bind; [apply sound_discard|]. intros ?. apply sound_stop.
  - by apply sound_fail.
  - intros s (_ & _ & He) Hg. done.
  - by apply sound_fail.
Qed.

Lemma sound_check_depth (P : list Frame -> Prop) : sound m P check_depth (fun _ => P).
Proof.
  apply sound_get; [done|]. intros s Hs Hg. case_decide; [apply sound_stop|].
  apply sound_ret. by intros fs ->.
Qed.

(** A call of the bytecode function [g], the callee made ready by [body]. *)
Lemma sound_call_with index g rest body :
  at_index (functions m) index g -> execution g <> Native -> frames_ok rest ->
  (forall callee, fresh index g callee -> function_valid m g ->
     calm m (entering rest callee) (body callee) (fun _ => True)) ->
  sound m (fun fs => fs = rest)
    (_ ← check_depth; callee ← take_frame m index; enter_callee callee (body callee))
    (fun _ fs => frames_ok fs /\ fs <> []).
Proof.
  intros Hg Hn Hrest Hbody. eapply sound_bind; [apply sound_check_depth|]. intros ?.
  eapply sound_bind; [apply sound_take_frame|]. intros callee s (Hs & g' & Hf) Hh.
  assert (g' = g) as -> by (eapply function_of; [exact Hg|]; by destruct Hf).
  revert s Hs Hh. change (sound m (fun fs => fs = rest) (enter_callee callee (body callee))
    (fun _ fs => frames_ok fs /\ fs <> [])).
  eapply sound_weaken; [| |eapply sound_enter_callee; try done].
  - done.
  - cbn. intros ? fs [Hfs [f ->]]. done.
  - apply Hbody; [done|]. eapply valid_at. by destruct Hf.
Qed.

Lemma sound_call index g rest :
  at_index (functions m) index g -> execution g <> Native -> frames_ok rest ->
  sound m (fun fs => fs = rest) (call m index) (fun _ fs => frames_ok fs /\ fs <> []).
Proof.
  intros Hg Hn Hrest. apply (sound_call_with index g rest (fun _ => fill_params m index)); try done.
  intros callee Hf Hv. by eapply calm_fill_params.
Qed.

Lemma sound_call_mut index g slot path caller rest :
  at_index (functions m) index g -> execution g <> Native -> frames_ok (caller :: rest) -> slot_in caller slot ->
  sound m (fun fs => fs = caller :: rest) (call_mut m index slot path) (fun _ fs => frames_ok fs /\ fs <> []).
Proof.
  intros Hg Hn Hrest Hs. eapply (sound_call_with index g (caller :: rest) (fun _ =>
    steps ← fill_steps (PlacePath_steps path); _ ← fill_params m index; put_frame _)); try done.
  intros callee Hf Hv.
  apply calm_bind with (P := fun _ => True); [apply calm_entering; intros ws; apply steady_fill_steps|].
  intros steps _. apply calm_bind with (P := fun _ => True); [by eapply calm_fill_params|]. intros _ _.
  apply (calm_put_writebacks (caller :: rest) callee). intros f Ht. apply targets_app; [done|].
  by constructor.
Qed.

Lemma calm_add_writebacks caller rest f0 targets :
  Forall (fun t => slot_in caller (wb_slot t)) targets ->
  calm m (entering (caller :: rest) f0) (add_writebacks targets) (fun _ => True).
Proof.
  induction 1 as [|t targets Ht _ IH]; cbn [add_writebacks]; [apply calm_entering; by intros; apply steady_ret|].
  apply calm_bind with (P := fun _ => True); [|by intros]. unfold add_writeback.
  apply calm_bind with (P := fun _ => True); [apply calm_entering; intros ws; apply steady_fill_steps|].
  intros steps _. apply (calm_put_writebacks (caller :: rest) f0). intros f Hw. apply targets_app; [done|].
  by constructor.
Qed.

Lemma sound_call_writeback index g targets caller rest :
  at_index (functions m) index g -> execution g <> Native -> frames_ok (caller :: rest) ->
  Forall (fun t => slot_in caller (wb_slot t)) targets ->
  sound m (fun fs => fs = caller :: rest) (call_writeback m index targets)
    (fun _ fs => frames_ok fs /\ fs <> []).
Proof.
  intros Hg Hn Hrest Hs. eapply (sound_call_with index g (caller :: rest) (fun _ =>
    _ ← add_writebacks (rev targets); _ ← put_frame _; fill_params m index)); try done.
  intros callee Hf Hv.
  apply calm_bind with (P := fun _ => True); [by apply calm_add_writebacks, Forall_rev|]. intros _ _.
  apply calm_bind with (P := fun _ => True); [|intros _ _; by eapply calm_fill_params].
  apply (calm_put_writebacks (caller :: rest) callee). intros f. apply targets_rev.
Qed.
(** ** Returns *)

(** A slot and its flag for every local. *)
Definition even (f : Frame) : Prop := length (live f) = length (locals f).

Lemma even_alike f0 f : alike m f0 f -> even f.
Proof. intros []. unfold even. congruence. Qed.

Lemma steady_release_slot f0 slot : steady m f0 (release_slot slot) (fun _ => True).
Proof.
  unfold release_slot. eapply steady_bind; [apply steady_get_frame|]. intros f Hf.
  destruct (locals f !! slot); [|by apply steady_ret].
  apply steady_bind with (P := fun _ => True); [case_match; steady_solve|]. intros _ _.
  apply steady_put_frame. intros f' Hf'. pose proof Hf as [_ Hl Hv _ _ _]. pose proof Hf' as [_ Hl' Hv' _ _ _].
  apply alike_set_locals; [done|rewrite length_insert; lia..].
Qed.

Lemma steady_release_slots f0 slots : steady m f0 (release_slots slots) (fun _ => True).
Proof.
  induction slots as [|slot slots IH]; cbn [release_slots]; [by apply steady_ret|].
  eapply steady_bind; [apply steady_release_slot|done].
Qed.

Lemma sound_release_frame f (P : list Frame -> Prop) :
  even f -> sound m P (release_frame f) (fun f' fs => P fs /\ even f').
Proof.
  intros He. unfold release_frame.
  eapply sound_bind; [apply (sound_with_frame m (alike m f) f _ (fun _ => True))|].
  - by apply alike_refl.
  - unfold release_live_locals. eapply steady_bind; [apply steady_get_frame|]. intros f' _.
    apply steady_release_slots.
  - intros [f' r]. apply sound_ret. intros fs (HP & Ha & _). split; [done|]. by eapply even_alike.
Qed.

Lemma sound_cache f (P : list Frame -> Prop) : sound m P (cache_frame f) (fun _ => P).
Proof. apply sound_set_vm; [intros x vm; cbn; by case_decide|intros vm; by case_decide|intros vm; by case_decide|done]. Qed.

Lemma steady_write_caller f0 w v :
  slot_in f0 (w_slot w) -> steady m f0 (write_caller w v) (fun _ => True).
Proof.
  intros Hs. unfold write_caller. destruct (is_nil (w_steps w)).
  - destruct (usize_try_from (w_slot w)) as [slot|]; [|steady_solve].
    eapply steady_bind; [apply steady_get_frame|]. intros f Hf.
    destruct (locals f !! slot) as [previous|]; [|steady_solve].
    apply steady_bind with (P := fun _ => True); [|intros; steady_solve].
    apply steady_put_frame. intros f' Hf'. pose proof Hf as [_ Hl Hv _ _ _]. pose proof Hf' as [_ Hl' Hv' _ _ _].
    apply alike_set_locals; [done|rewrite ?length_insert; lia..].
  - apply steady_on_trap; [by apply steady_store_place|steady_solve].
Qed.

Lemma sound_write_back w ws v :
  sound m (fun fs => frames_ok fs /\ targets_in (w :: ws) fs) (write_back w v)
    (fun _ fs => frames_ok fs /\ targets_in ws fs).
Proof.
  apply sound_get; [done|]. intros s [Hfs Ht] _. destruct s.2 as [|caller rest] eqn:Hs; cbn [is_nil].
  - eapply sound_bind; [apply sound_drop|]. intros ?. apply sound_stop.
  - apply Forall_cons in Ht as [Hw Hws]. pose proof (pop_ok _ _ Hfs) as (Hc & _).
    eapply sound_weaken; [| |apply (sound_in_top m (alike m caller) _ rest (fun _ => True));
      by apply steady_write_caller].
    + intros fs ->. exists caller. split; [done|]. apply alike_refl. by destruct Hc.
    + intros _ fs (_ & f & -> & Hf). assert (top_alike (caller :: rest) (f :: rest)) as Ha by done.
      split; [by eapply top_alike_ok|by eapply (top_alike_targets ws (caller :: rest))].
Qed.

Lemma even_move_out slot f v f' : even f -> move_out slot f = Some (v, f') ->
  even f' /\ func f' = func f /\ writebacks f' = writebacks f.
Proof.
  intros He Hm. unfold move_out in Hm. destruct (usize_try_from slot) as [i|]; [|done]. cbn in Hm.
  destruct (locals f !! i); [|done]. cbn in Hm. simplify_eq. unfold even. cbn. by rewrite !length_insert.
Qed.

Lemma sound_land_writebacks ws answer : forall finished, even finished ->
  sound m (fun fs => frames_ok fs /\ targets_in ws fs) (land_writebacks ws finished answer)
    (fun f fs => frames_ok fs /\ even f).
Proof.
  induction ws as [|w ws IH]; intros finished He; cbn [land_writebacks]; [by apply sound_ret; intros fs []|].
  destruct (move_out (w_param w) finished) as [[v finished']|] eqn:Hm.
  - destruct (even_move_out _ _ _ _ He Hm) as [He' _].
    eapply sound_bind; [apply sound_on_stop; [apply sound_write_back|]|intros ?; by apply IH].
    eapply sound_bind; [by apply sound_release_frame|]. intros ?.
    eapply sound_weaken; [| |apply (sound_drop m answer (fun _ => True))]; done.
  - eapply sound_weaken; [| |by apply (IH finished)]; [|done]. intros [|c rest] [H Ht]; [done|].
    by apply Forall_cons in Ht as [_ Ht].
Qed.

Lemma sound_take_captures slots (P : list Frame -> Prop) : forall finished, even finished ->
  sound m P (take_captures slots finished) (fun f fs => P fs /\ even f).
Proof.
  induction slots as [|slot slots IH]; intros finished He; cbn [take_captures]; [by apply sound_ret|].
  destruct (move_out slot finished) as [[v finished']|] eqn:Hm; [|by apply IH].
  destruct (even_move_out _ _ _ _ He Hm) as [He' _].
  apply sound_bind with (R := fun _ => P); [by apply sound_set_vm|]. intros _. by apply IH.
Qed.

Lemma sound_release_plan plan finished (P : list Frame -> Prop) : even finished ->
  sound m P (release_plan plan finished) (fun _ => P).
Proof.
  intros He. destruct plan as [|slots]; cbn [release_plan].
  - eapply sound_bind; [by apply sound_release_frame|]. intros f.
    eapply sound_weaken; [| |apply (sound_cache f P)]; [by intros ? []|done].
  - eapply sound_bind; [apply (sound_with_frame m (alike m finished) _ _ (fun _ => True))|].
    + by apply alike_refl.
    + eapply steady_bind; [apply steady_release_slots|]. intros _ _.
      apply steady_put_locals; [intros f; apply length_imap|done].
    + intros [f r]. cbn. destruct (forallb _ _).
      * eapply sound_weaken; [| |apply (sound_cache _ P)]; [by intros ? []|done].
      * apply sound_ret. by intros ? [].
Qed.

Lemma sound_hand_over answer (P : list Frame -> Prop) :
  sound m P (hand_over answer) (fun r fs => P fs /\ (r = None -> fs <> [])).
Proof.
  apply sound_get; [done|]. intros s Hs _. destruct s.2 as [|f rest] eqn:Hfs; cbn [is_nil].
  - eapply sound_bind; [apply sound_discard|]. intros ?.
    eapply sound_bind; [by apply (sound_set_vm m _ _ (fun _ fs => fs = []))|]. intros ?.
    apply sound_ret. by intros fs ->.
  - eapply sound_bind; [by apply (sound_set_vm m _ _ (fun _ fs => fs = f :: rest))|]. intros ?.
    apply sound_ret. by intros fs ->.
Qed.

(** The frame on top is about to go. *)
Definition returning (fs : list Frame) : Prop :=
  match fs with [] => True | f :: rest => even f /\ targets_in (writebacks f) rest /\ frames_ok rest end.

Lemma sound_finish_frame answer :
  sound m returning (finish_frame m answer) (fun r fs => frames_ok fs /\ (r = None -> fs <> [])).
Proof.
  apply sound_get; [done|]. intros s Hfs _. destruct s.2 as [|finished frames] eqn:Hs; [apply sound_stop|].
  destruct Hfs as (Hlive & Ht & Hrest).
  apply sound_bind with (R := fun _ fs => fs = frames); [by apply sound_set_frames|]. intros _.
  destruct (function_at m (func finished)) as [function|].
  2: { eapply sound_bind; [by apply sound_release_frame|]. intros ?.
       eapply sound_bind; [apply sound_drop|]. intros ?. apply sound_stop. }
  case_match.
  - eapply sound_bind; [by apply sound_release_frame|]. intros f.
    eapply sound_bind; [apply sound_cache|]. intros ?.
    eapply sound_weaken; [| |apply (sound_hand_over answer frames_ok)]; [by intros fs [-> _]|done].
  - eapply sound_bind; [eapply sound_weaken; [| |by apply sound_land_writebacks]; [|done]; by intros fs ->|].
    intros f. cbn zeta. cbn beta. intros s1 [Hfs1 He] Hg1. revert s1 Hfs1 Hg1.
    change (sound m frames_ok
      (finished ← take_captures (capture (set_writebacks (cleared <$> writebacks f) f))
         (set_capture [] (set_writebacks (cleared <$> writebacks f) f));
       _ ← release_plan (releases function) finished; hand_over answer)
      (fun r fs => frames_ok fs /\ (r = None -> fs <> []))).
    eapply sound_bind; [by apply sound_take_captures|]. intros f2 s2 [Hfs2 He2] Hg2.
    revert s2 Hfs2 Hg2.
    change (sound m frames_ok (_ ← release_plan (releases function) f2; hand_over answer)
      (fun r fs => frames_ok fs /\ (r = None -> fs <> []))).
    eapply sound_bind; [by apply sound_release_plan|]. intros ?. apply sound_hand_over.
Qed.
(** ** The loop *)

(** What holds between two turns of a run that answers [completed]. *)
Definition live_ok (completed : option Value) (fs : list Frame) : Prop :=
  frames_ok fs /\ (completed = None -> fs <> []).

Lemma sound_enter_drop_body rest pd h :
  bodies_ok m h -> receiver_body m (pd_glue pd) -> frames_ok rest ->
  sound m (fun fs => fs = rest) (enter_drop_body m pd h) (fun _ fs => frames_ok fs /\ exists f, fs = f :: rest).
Proof.
  intros Hg' (g & [Hat Hn] & _) Hfs. unfold enter_drop_body.
  eapply sound_bind; [apply (sound_set_vm m _ _ (fun _ fs => fs = rest)); [done..|]; by intros|]. intros ?.
  eapply sound_bind; [apply sound_check_depth|]. intros ?.
  eapply sound_bind; [apply sound_take_frame|]. intros callee.
  apply sound_bind with (R := fun _ fs => fs = rest /\ exists g, fresh (pd_glue pd) g callee);
    [by apply sound_set_vm|]. intros ? s1 (Hs1 & g' & Hf) Hg1.
  assert (g' = g) as -> by (eapply function_of; [exact Hat|]; by destruct Hf).
  revert s1 Hs1 Hg1.
  change (sound m (fun fs => fs = rest) (enter_callee callee (fill_params m (pd_glue pd)))
    (fun _ fs => frames_ok fs /\ exists f, fs = f :: rest)).
  eapply sound_enter_callee; [done..|]. eapply calm_fill_params; [done|]. eapply valid_at. by destruct Hf.
Qed.

Lemma sound_run_pending_drop completed :
  rough m (live_ok completed) (run_pending_drop m) (fun _ => live_ok completed).
Proof.
  apply sound_get; [done|]. intros s Hs Hg. destruct (glued_take_pending _ _ Hg) as [Hg' Hpd].
  destruct (take_pending_drop (heap s.1)) as [h [pd|]]; [|by apply sound_ret; intros fs ->]. cbn in Hg', Hpd.
  destruct Hs as [Hfs _].
  eapply sound_bind; [apply sound_rough, sound_enter_drop_body; [done|by apply Hpd|done]|].
  intros ?. apply sound_get; [done|]. intros s2 [Hfs2 [f Hne]] _. apply sound_set_vm; [done..|].
  intros fs ->. split; [done|]. by rewrite Hne.
Qed.

Lemma finish_drops_flag running depth : forall vm,
  initializing_constants (finish_drops running depth vm) = initializing_constants vm.
Proof.
  induction running as [|[entered i] rest IH]; intros vm; cbn [finish_drops]; [done|].
  case_decide; [done|]. cbn zeta. rewrite IH. cbn. destruct (stack vm); [done|]. by case_decide.
Qed.

Lemma finish_drops_adrift running depth x : forall vm,
  finish_drops running depth (adrift x vm) = adrift x (finish_drops running depth vm).
Proof.
  induction running as [|[entered i] rest IH]; intros vm; cbn [finish_drops]; [done|].
  case_decide; [done|]. cbn zeta. change (stack (adrift x vm)) with (stack vm). destruct (stack vm); [|case_decide];
    (etrans; [|apply IH]); done.
Qed.

Lemma finish_drops_glued running depth : forall vm,
  bodies_ok m (heap vm) -> bodies_ok m (heap (finish_drops running depth vm)).
Proof.
  induction running as [|[entered i] rest IH]; intros vm Hg; cbn [finish_drops]; [done|].
  case_decide; [done|]. cbn zeta. apply IH. cbn. apply glued_finish_pending.
  destruct (stack vm); [done|]. case_decide; [by apply glued_drop|done].
Qed.

Lemma sound_finish_returned (P : list Frame -> Prop) : rough m P finish_returned_drops (fun _ => P).
Proof.
  intros s Hs Hg. unfold finish_returned_drops. cbn. split_and!; [| |by apply finish_drops_glued|done].
  - intros x. unfold moved. cbn. by rewrite finish_drops_adrift.
  - unfold kept. by rewrite finish_drops_flag.
Qed.

(** A frame that has just fetched [i] of its function [g]. *)
Record fetched (i : Instruction) (rest : list Frame) (f : Frame) (g : FuncProto) : Prop := {
  fetched_function : function_at m (func f) = Some g;
  fetched_bytecode : execution g <> Native;
  fetched_locals : length (locals f) = Z.to_nat (local_count g);
  fetched_even : even f;
  fetched_targets : targets_in (writebacks f) rest;
  fetched_rest : frames_ok rest;
  fetched_instruction : ModuleFormat.code g !! Nat.pred (pc f) = Some i;
  fetched_pc : pc f = S (Nat.pred (pc f))
}.

Lemma sound_fetch f0 rest : frames_ok (f0 :: rest) ->
  sound m (fun fs => fs = f0 :: rest) (in_top (fetch m))
    (fun i fs => exists f g, fs = f :: rest /\ fetched i rest f g).
Proof.
  intros Hfs. destruct (pop_ok _ _ Hfs) as ([(g & Hf & Hn & Hl & Hp) He] & Ht & Hrest).
  apply lookup_lt_is_Some in Hp as [i Hi].
  assert (forall vm, in_top (fetch m) (vm, f0 :: rest) = ((vm, set_pc (S (pc f0)) f0 :: rest), Ok i)) as Heq.
  { intros vm. unfold in_top, fetch. st_unfold. cbn. unfold need. rewrite Hf. cbn.
    unfold index_or_panic. rewrite Hi. done. }
  intros [vm fs] Hs Hg. cbn in Hs. subst fs. rewrite Heq. split_and!; [|done|done|].
  - intros x. exact (Heq (adrift x vm)).
  - exists (set_pc (S (pc f0)) f0), g. split; [done|]. by split.
Qed.

Lemma fetched_ok i rest f g : fetched i rest f g -> i <> I_Return -> i <> I_ReturnVoid -> frames_ok (f :: rest).
Proof.
  intros [] H1 H2. apply push_ok; [|done..]. split; [|done]. exists g. split_and!; try done.
  rewrite fetched_pc0. eapply next_instruction; [by eapply valid_at|done..].
Qed.

Lemma fetched_operand i rest f g : fetched i rest f g -> operand_valid m g i.
Proof. intros []. eapply bytecode_body; [by eapply valid_at|done..]. Qed.

Lemma fetched_slot i rest f g slot : fetched i rest f g -> is_local g slot -> slot_in f slot.
Proof.
  intros [] Hs k Hk. destruct (local_slot g slot (valid_at _ _ fetched_function0) Hs) as (n & Hn & Hl).
  simplify_eq. lia.
Qed.

Lemma fetched_names i rest f g : fetched i rest f g -> names_ok m f i.
Proof.
  intros Hf. pose proof (fetched_operand _ _ _ _ Hf) as Ho.
  destruct i; cbn in *; try done; try (by eapply fetched_slot; [exact Hf|]; destruct Ho || idtac); by destruct Ho.
Qed.
(** An instruction that stays in its frame. *)
Lemma sound_in_frame completed i rest f g (c : M unit) :
  fetched i rest f g -> i <> I_Return -> i <> I_ReturnVoid -> steady m f c (fun _ => True) ->
  sound m (fun fs => fs = f :: rest) (_ ← in_top c; mret completed) live_ok.
Proof.
  intros Hf H1 H2 Hc. pose proof (fetched_ok _ _ _ _ Hf H1 H2) as Hok.
  eapply sound_bind; [eapply sound_weaken; [| |apply (sound_in_top m (alike m f) c rest (fun _ => True) Hc)]|].
  - intros fs ->. exists f. split; [done|]. apply alike_refl. by destruct Hf.
  - intros a fs H. exact H.
  - intros ?. apply sound_ret. intros fs (_ & f' & -> & Ha). split; [|done].
    by apply (top_alike_ok (f :: rest) (f' :: rest)).
Qed.

Lemma sound_returning completed (c : Run (option Value)) i rest f g :
  fetched i rest f g -> sound m returning c (fun r fs => frames_ok fs /\ (r = None -> fs <> [])) ->
  sound m (fun fs => fs = f :: rest) (answer ← c; mret (get_or_insert completed answer)) live_ok.
Proof.
  intros [] Hc. eapply sound_bind; [eapply sound_weaken; [| |exact Hc]; [|done]; by intros fs ->|].
  intros r. apply sound_ret. intros fs [Hfs Hr]. split; [done|]. by destruct completed.
Qed.

Lemma steady_chosen f i :
  names_ok m f i -> steady m f (if is_fast i then execute m i else step m i) (fun _ => True).
Proof. intros Hn. destruct (is_fast i); [by apply steady_execute|by apply steady_instruction]. Qed.

Lemma sound_dispatch completed i rest f g :
  fetched i rest f g -> sound m (fun fs => fs = f :: rest) (dispatch m completed i) live_ok.
Proof.
  intros Hf. pose proof (fetched_operand _ _ _ _ Hf) as Ho. pose proof (fetched_names _ _ _ _ Hf) as Hn.
  assert (forall (c : Run unit), sound m (fun fs => fs = f :: rest) c (fun _ fs => frames_ok fs /\ fs <> []) ->
    sound m (fun fs => fs = f :: rest) (_ ← c; mret completed) live_ok) as Hcall.
  { intros c Hc. eapply sound_bind; [exact Hc|]. intros ?. apply sound_ret. intros fs [H1 H2]. by split. }
  destruct i; cbn [dispatch]; try (apply sound_fail; discriminate);
    try (eapply sound_in_frame; [exact Hf|discriminate|discriminate|];
         exact (steady_chosen f _ Hn)).
  - apply Hcall. destruct Ho as (g' & Hg & Hbc). eapply sound_call; [done..|]. by eapply fetched_ok.
  - apply Hcall. destruct Ho as (Hs & g' & (Hg & Hbc) & _). eapply sound_call_mut; [done..| |].
    + by eapply fetched_ok.
    + by eapply fetched_slot.
  - apply Hcall. destruct Ho as (g' & (Hg & Hbc) & Ht). eapply sound_call_writeback; [done..| |].
    + by eapply fetched_ok.
    + eapply Forall_impl; [exact Ht|]. intros t [Hs _]. by eapply fetched_slot.
  - eapply sound_bind with (R := fun _ => returning).
    + eapply sound_weaken; [| |apply (sound_in_top m (alike m f) pop rest (fun _ => True)); apply steady_pop].
      * intros fs ->. exists f. split; [done|]. apply alike_refl. by destruct Hf.
      * intros a fs (_ & f' & -> & Ha). destruct Hf. split_and!; [by eapply even_alike| |done].
        by rewrite (alike_writebacks _ _ _ Ha).
    + intros answer. eapply sound_bind; [apply sound_finish_frame|]. intros r. apply sound_ret.
      intros fs [Hfs Hr]. split; [done|]. by destruct completed.
  - eapply sound_returning; [exact Hf|]. apply sound_finish_frame.
Qed.

(** What a turn leaves. *)
Definition turn_ok (r : result Stop (option Value + Dispatched)) (fs : list Frame) : Prop :=
  match r with
  | Ok (inl completed) => live_ok completed fs
  | Ok (inr d) => frames_ok fs /\ (d = Suspended -> fs <> [])
  | Err e => e <> Panics
  end.

Lemma sound_result {A keep} P (c : Run A) Q s :
  sound_for keep m P c Q -> P s.2 -> bodies_ok m (heap s.1) ->
  bodies_ok m (heap (c s).1.1) /\ slice_budget (c s).1.1 = slice_budget s.1 /\
  match (c s).2 with Ok a => Q a (c s).1.2 | Err e => e <> Panics end.
Proof.
  intros Hc Hs Hg. destruct (Hc s Hs Hg) as (Hb & _ & Hh & Hr). split_and!; [done| |done].
  specialize (Hb (slice_budget s.1, [])).
  assert (moved (slice_budget s.1, []) s = s) as He by by destruct s as [[] fs].
  rewrite He in Hb. apply (f_equal (fun r => slice_budget r.1.1)) in Hb. exact Hb.
Qed.

(** The instruction of the frame on top, fetched and executed. *)
Definition execute_next (completed : option Value) : Run (option Value + Dispatched) :=
  i ← in_top (fetch m); completed ← dispatch m completed i; mret (inl completed).

Lemma sound_execute_next completed f0 rest :
  frames_ok (f0 :: rest) ->
  sound m (fun fs => fs = f0 :: rest) (execute_next completed) (fun r fs => turn_ok (Ok r) fs).
Proof.
  intros Hfs. eapply sound_bind; [by apply sound_fetch|]. intros i s (f & g & Hs & Hf) Hg.
  revert s Hs Hg. change (sound m (fun fs => fs = f :: rest) (c ← dispatch m completed i; mret (inl c))
    (fun r fs => turn_ok (Ok r) fs)).
  eapply sound_bind; [by eapply sound_dispatch|]. intros c. by apply sound_ret.
Qed.
(** What a turn does: the releases of returned bodies, then one of four. *)
Definition settled_machine (s : Machine) : Machine := (finish_returned_drops s).1.

(** The turn takes an instruction off the slice. *)
Definition spends (completed : option Value) (s : Machine) : bool :=
  negb (owes_drops (heap (settled_machine s).1)) && negb (owes_native_state (heap (settled_machine s).1)) &&
  negb (match completed with Some _ => is_nil s.2 | None => false end).

Lemma turn_unfold completed s :
  turn m completed s =
  (if owes_drops (heap (settled_machine s).1)
   then (_ ← run_pending_drop m; mret (inl completed)) (settled_machine s)
   else if owes_native_state (heap (settled_machine s).1) then (settled_machine s, Err Crosses)
   else match completed, s.2 with
        | Some v, [] => (settled_machine s, Ok (inr (Completed v)))
        | _, _ =>
          match spend (settled_machine s) with
          | (s, Ok going) => (if going : bool then execute_next completed else mret (inr Suspended)) s
          | (s, Err e) => (s, Err e)
          end
        end).
Proof.
  unfold turn. unfold mbind at 1, st_bind at 1, finish_returned_drops at 1. cbn beta iota.
  unfold mbind at 1, st_bind at 1, get_machine. cbn beta iota.
  unfold settled_machine, finish_returned_drops. cbn [fst snd].
  destruct (owes_drops _); [done|]. destruct (owes_native_state _); [done|].
  destruct completed; [|done]. by destruct s.2.
Qed.

Lemma turn_spends completed s : spends completed s = true ->
  turn m completed s =
  match spend (settled_machine s) with
  | (s, Ok true) => execute_next completed s
  | (s, Ok false) => (s, Ok (inr Suspended))
  | (s, Err e) => (s, Err e)
  end.
Proof.
  unfold spends. rewrite !andb_true_iff, !negb_true_iff. intros [[Hd Hn] Hc].
  rewrite turn_unfold, Hd, Hn.
  destruct (spend (settled_machine s)) as [s1 [[]|]]; destruct completed; try done; by destruct s.2.
Qed.

(** The turns that take nothing off the slice. *)
Definition free_turn (completed : option Value) : Run (option Value + Dispatched) :=
  s ← get_machine;
  if owes_drops (heap s.1) then _ ← run_pending_drop m; mret (inl completed)
  else if owes_native_state (heap s.1) then st_fail Crosses
  else mret (inr (Completed (default V_Void completed))).

Lemma turn_free completed s : spends completed s = false ->
  turn m completed s = free_turn completed (settled_machine s).
Proof.
  unfold spends. intros Hs. rewrite turn_unfold. unfold free_turn, mbind at 2, st_bind at 2, get_machine.
  cbn beta iota. destruct (owes_drops _); [done|]. destruct (owes_native_state _); [done|].
  destruct completed; [|done]. by destruct s.2.
Qed.

Lemma sound_free_turn completed :
  rough m (live_ok completed) (free_turn completed) (fun r fs => turn_ok (Ok r) fs).
Proof.
  apply sound_get; [done|]. intros s Hs _. destruct (owes_drops _).
  - eapply sound_bind; [eapply sound_weaken; [| |apply (sound_run_pending_drop completed)]; [|done]; by intros fs ->|].
    intros ?. by apply sound_ret.
  - destruct (owes_native_state _); [by apply sound_fail|]. apply sound_ret. intros fs ->.
    destruct Hs as [Hs _]. split; [done|]. discriminate.
Qed.

Lemma settled_ok s : bodies_ok m (heap s.1) -> bodies_ok m (heap (settled_machine s).1).
Proof. intros Hg. by apply finish_drops_glued. Qed.

Lemma spend_cases s : exists going vm, spend s = ((vm, s.2), Ok going) /\ heap vm = heap s.1 /\
  (slice_budget s.1 = None -> going = true /\ slice_budget vm = None).
Proof.
  destruct s as [vm fs]. unfold spend. cbn. destruct (slice_budget vm) as [b|] eqn:Hb; [|by eexists _, vm].
  destruct (b =? 0); [by eexists _, vm|]. by eexists _, (with_budget _ vm).
Qed.

Lemma finish_drops_budget running depth : forall vm,
  slice_budget (finish_drops running depth vm) = slice_budget vm.
Proof.
  induction running as [|[entered i] rest IH]; intros vm; cbn [finish_drops]; [done|].
  case_decide; [done|]. cbn zeta. rewrite IH. cbn. destruct (stack vm); [done|]. by case_decide.
Qed.

Lemma settled_budget s : slice_budget (settled_machine s).1 = slice_budget s.1.
Proof. apply finish_drops_budget. Qed.

(** An instruction does not end a run, and a turn that takes none does not suspend
    it. *)
Lemma execute_next_on completed s d : (execute_next completed s).2 <> Ok (inr d).
Proof.
  unfold execute_next, mbind, st_bind. destruct (in_top _ _) as [s1 [i|]]; [|done].
  by destruct (dispatch m completed i s1) as [s2 [|]].
Qed.

Lemma free_turn_on completed s : (free_turn completed s).2 <> Ok (inr Suspended).
Proof.
  unfold free_turn, mbind at 1, st_bind at 1, get_machine.
  destruct (owes_drops _); [|by destruct (owes_native_state _)].
  unfold mbind, st_bind. by destruct (run_pending_drop m s) as [? [|]].
Qed.

(** A turn never panics, and leaves the frames and the heap as it needs them; one
    without a slice does not suspend. *)
Lemma turn_safe completed s :
  live_ok completed s.2 -> bodies_ok m (heap s.1) ->
  bodies_ok m (heap (turn m completed s).1.1) /\ turn_ok (turn m completed s).2 (turn m completed s).1.2 /\
  (slice_budget s.1 = None ->
   slice_budget (turn m completed s).1.1 = None /\ (turn m completed s).2 <> Ok (inr Suspended)).
Proof.
  intros Hs Hg. apply settled_ok in Hg. destruct (spends completed s) eqn:Hsp.
  - rewrite turn_spends by done. destruct (spend_cases (settled_machine s)) as (going & vm & -> & Hh & Hb).
    rewrite settled_budget in Hb. change ((settled_machine s).2) with s.2.
    unfold spends in Hsp. apply andb_true_iff in Hsp as [_ Hsp].
    destruct Hs as [Hfs Hne]. destruct (s.2) as [|f rest] eqn:Hs.
    { destruct completed; [done|by destruct (Hne eq_refl)]. }
    destruct going.
    + destruct (sound_result _ _ _ (vm, f :: rest) (sound_execute_next completed f rest Hfs)) as (H1 & H2 & H3);
        [done|cbn; by rewrite Hh|]. split; [done|].
      pose proof (fun d => execute_next_on completed (vm, f :: rest) d) as Hn.
      split; [by destruct (execute_next completed (vm, f :: rest)) as [s2 [r|e]]|].
      intros [_ H]%Hb. by rewrite H2.
    + cbn. rewrite Hh. split_and!; [done..|]. by intros [? _]%Hb.
  - rewrite turn_free by done.
    destruct (sound_result _ _ _ (settled_machine s) (sound_free_turn completed) Hs Hg) as (H1 & H2 & H3).
    rewrite settled_budget in H2. split_and!; [done| |].
    + by destruct (free_turn completed (settled_machine s)) as [s2 [r|e]].
    + intros Hb. rewrite H2. split; [done|]. apply free_turn_on.
Qed.

(** ** Runs *)

(** What a run leaves: it never ended in a panic, and a suspended one can go
    on. *)
Definition outcome_ok (s : Machine) (r : result Stop Dispatched) : Prop :=
  bodies_ok m (heap s.1) /\
  match r with
  | Ok (Completed _) => frames_ok s.2
  | Ok Suspended => live_ok None s.2
  | Err e => e <> Panics
  end.

Lemma dispatch_inner_safe fuel : forall completed s s' r,
  live_ok completed s.2 -> bodies_ok m (heap s.1) ->
  dispatch_inner fuel m completed s = Some (s', r) ->
  outcome_ok s' r /\ (slice_budget s.1 = None -> slice_budget s'.1 = None /\ r <> Ok Suspended).
Proof.
  induction fuel as [|fuel IH]; intros completed s s' r Hs Hg Hr; [done|]. cbn [dispatch_inner] in Hr.
  destruct (turn_safe completed s Hs Hg) as (Hg' & Ht & Hb).
  destruct (turn m completed s) as [s1 [[c|d]|e]]; cbn in *.
  - destruct (IH _ _ _ _ Ht Hg' Hr) as [H1 H2]. split; [done|]. intros [H _]%Hb. by apply H2.
  - injection Hr as <- <-. split.
    + split; [done|]. destruct Ht as [Hf Hn]. destruct d; [done|]. split; [done|]. intros _. by apply Hn.
    + intros [H1 H2]%Hb. split; [done|]. congruence.
  - injection Hr as <- <-. split; [done|]. by intros [H1 _]%Hb.
Qed.

(** A run ends with its last frame gone. *)
Lemma turn_completed completed s s' v :
  turn m completed s = (s', Ok (inr (Completed v))) -> s'.2 = [].
Proof.
  rewrite turn_unfold. intros Ht.
  assert (forall (c : Run (option Value)) s1, (a ← c; mret (inl a) : Run (option Value + Dispatched)) s1 =
    (s', Ok (inr (Completed v))) -> False) as Hinl.
  { intros c s1. unfold mbind, st_bind. by destruct (c s1) as [s2 [|]]. }
  assert (forall s1, execute_next completed s1 = (s', Ok (inr (Completed v))) -> False) as Hnext.
  { intros s1. unfold execute_next, mbind at 1, st_bind at 1. destruct (in_top (fetch m) s1) as [s2 [i|e]]; [|done].
    apply Hinl. }
  destruct (owes_drops _).
  { unfold mbind, st_bind in Ht. by destruct (run_pending_drop m (settled_machine s)) as [? [|]]. }
  destruct (owes_native_state _); [done|].
  assert (match spend (settled_machine s) with
    | (s, Ok going) => (if going : bool then execute_next completed else mret (inr Suspended)) s
    | (s, Err e) => (s, Err e) end = (s', Ok (inr (Completed v))) -> False) as Hsp.
  { destruct (spend (settled_machine s)) as [s1 [[]|]]; try done. by intros ?%Hnext. }
  destruct completed as [w|]; [|by destruct (Hsp Ht)]. destruct s.2 as [|f rest] eqn:Hs.
  - by injection Ht as <- _.
  - by destruct (Hsp Ht).
Qed.

Lemma dispatch_inner_completed fuel : forall completed s s' v,
  dispatch_inner fuel m completed s = Some (s', Ok (Completed v)) -> s'.2 = [].
Proof.
  induction fuel as [|fuel IH]; intros completed s s' v Hr; [done|]. cbn [dispatch_inner] in Hr.
  destruct (turn m completed s) as [s1 [[c|d]|e]] eqn:Ht; [by eapply IH| |done].
  injection Hr as <- ->. by eapply turn_completed.
Qed.

(** What is left when no turn was refused: an unwound machine has no frames. *)
Definition ended_ok (s : Machine) (r : result Stop Dispatched) : Prop :=
  match r with
  | Ok (Completed _) | Err (Trap _) => bodies_ok m (heap s.1) /\ s.2 = []
  | Ok Suspended => bodies_ok m (heap s.1) /\ live_ok None s.2
  | Err e => e <> Panics
  end.

Lemma unwind_glued s : bodies_ok m (heap s.1) -> bodies_ok m (heap (unwind m s).1).
Proof. intros Hg. cbn. by apply glued_abandon, glued_discard, glued_discard. Qed.

Lemma dispatch_frames_safe fuel entry s s' r :
  live_ok None (option_list entry ++ s.2) -> bodies_ok m (heap s.1) ->
  dispatch_frames fuel m entry s = Some (s', r) ->
  ended_ok s' r /\ (slice_budget s.1 = None -> slice_budget s'.1 = None /\ r <> Ok Suspended).
Proof.
  intros Hs Hg Hr. unfold dispatch_frames in Hr.
  destruct (dispatch_inner fuel m None (s.1, option_list entry ++ s.2)) as [[s1 r1]|] eqn:Hd; [|done].
  destruct (dispatch_inner_safe fuel None (s.1, option_list entry ++ s.2) s1 r1 Hs Hg Hd) as [[Hg1 Ho] Hb].
  cbn [fst] in Hb. destruct r1 as [[v|]|[e| | |]]; injection Hr as <- <-;
    (split; [|first [exact Hb|by intros [H _]%Hb]]); try done.
  - split; [done|]. by eapply dispatch_inner_completed.
  - split; [by apply unwind_glued|done].
Qed.

(** ** Entering *)

(** A machine that runs nothing, on no slice. *)
Definition ready (s : Machine) : Prop := bodies_ok m (heap s.1) /\ s.2 = [] /\ slice_budget s.1 = None.

(** What an entry that answers a value leaves. *)
Definition entered_ok (s : Machine) (r : result Stop Value) : Prop :=
  match r with Ok _ | Err (Trap _) => ready s | Err e => e <> Panics end.

Lemma bind_args_frame index g f args :
  fresh index g f -> execution g <> Native -> (length args <= length (locals f))%nat ->
  frame_ok (bind_args args f) /\ writebacks (bind_args args f) = [].
Proof.
  intros [] Hn Hl. split; [|done]. split.
  - exists g. cbn. rewrite fresh_func0, fresh_pc0. split_and!; [done|done| |].
    + rewrite length_app, length_drop. lia.
    + exact (body_not_empty _ (valid_at _ _ fresh_function0) Hn).
  - cbn. rewrite !length_app, length_fmap, !length_drop. lia.
Qed.

Lemma take_frame_frames index s : (take_frame m index s).1.2 = s.2.
Proof.
  unfold take_frame, ok_or_stop. destruct (function_at m index) as [g|]; [|done].
  unfold mbind, st_bind, pop_cached. destruct s as [vm fs]. cbn.
  destruct (frame_cache vm); cbn; by destruct (usize_try_from (local_count g)).
Qed.

Lemma enter_ready_safe fuel index g args s s' r :
  at_index (functions m) index g -> execution g <> Native -> ready s ->
  enter_ready fuel m index args s = Some (s', r) -> entered_ok s' r.
Proof.
  intros Hat Hn (Hg & Hfs & Hb) Hr. unfold enter_ready in Hr.
  assert (sound m (fun fs => fs = []) (on_stop (take_frame m index) (discard_run args))
    (fun f fs => fs = [] /\ exists g, fresh index g f)) as Hs.
  { apply sound_on_stop; [apply sound_take_frame|].
    eapply sound_weaken; [| |apply (sound_discard m args (fun _ => True))]; done. }
  destruct (sound_result _ _ _ s Hs Hfs Hg) as (Hg1 & Hb1 & Ho). rewrite Hb in Hb1.
  assert (forall e s0, on_stop (take_frame m index) (discard_run args) s = (s0, Err e) -> s0.2 = []) as Herr.
  { intros e s0 He. pose proof (take_frame_frames index s) as Hf. rewrite Hfs in Hf. unfold on_stop in He.
    destruct (take_frame m index s) as [s1 [f|[t| | |]]]; cbn in *; by injection He as <- _. }
  destruct (on_stop _ _ s) as [s1 [f|e]] eqn:Ht; cbn in Hg1, Hb1, Ho.
  - destruct Ho as [Hfs1 (g' & Hf)].
    assert (g' = g) as -> by (eapply function_of; [exact Hat|]; by destruct Hf).
    case_decide as Hlen.
    + apply (inj Some) in Hr. unfold mbind, st_bind, discard_run, heap_run, set_vm, stop, st_fail in Hr.
      cbn in Hr. injection Hr as <- <-. split_and!; [|done..]. cbn. by apply glued_discard, glued_discard.
    + unfold run in Hr. destruct (bind_args_frame index g f args Hf Hn ltac:(lia)) as [Hfr Hwb].
      destruct (dispatch_frames _ _ _ _) as [[s2 r2]|] eqn:Hd; [|done].
      apply dispatch_frames_safe in Hd as [Ho2 Hb2]; [| |exact Hg1].
      * destruct (Hb2 Hb1) as [Hb3 Hns].
        destruct r2 as [[v|]|[]]; try done; injection Hr as <- <-; try done; by destruct Ho2.
      * cbn. rewrite Hfs1. split; [|done]. apply push_ok; [by destruct Hfr; split|done|by split].
  - injection Hr as <- <-. destruct e; try done. split_and!; [done| |done]. by eapply Herr.
Qed.

Lemma fill_constants_safe fuel inits : forall s s' r,
  Forall (fun init => exists g, bytecode m init g) inits -> ready s ->
  fill_constants fuel m inits s = Some (s', r) ->
  match r with Ok _ | Err (Trap _) => ready s' | Err e => e <> Panics end.
Proof.
  induction inits as [|init inits IH]; intros s s' r Hi Hs Hr; cbn [fill_constants] in Hr.
  { by injection Hr as <- <-. }
  apply Forall_cons in Hi as [(g & Hat & Hn) Hi]. case_decide; [|by injection Hr as <- <-].
  destruct (enter_ready fuel m init [] s) as [[s1 r1]|] eqn:He; [|done].
  pose proof (enter_ready_safe _ _ _ _ _ _ _ Hat Hn Hs He) as H1. destruct r1 as [v|e].
  - eapply IH; [done| |exact Hr]. done.
  - by injection Hr as <- <-.
Qed.

Lemma ensure_constants_safe fuel s s' r :
  bodies_ok m (heap s.1) -> s.2 = [] -> ensure_constants fuel m s = Some (s', r) ->
  match r with
  | Ok _ | Err (Trap _) => bodies_ok m (heap s'.1) /\ s'.2 = [] /\ slice_budget s'.1 = slice_budget s.1
  | Err e => e <> Panics end.
Proof.
  intros Hg Hfs Hr. unfold ensure_constants in Hr. case_match; [by injection Hr as <- <-|].
  destruct (fill_constants _ _ _ _) as [[[vm fs] r1]|] eqn:Hf; [|done].
  injection Hr as <- <-. eapply fill_constants_safe in Hf; [|by apply Forall_drop, Hvalid|done].
  destruct r1 as [u|[]]; try done; by destruct Hf as (? & ? & _).
Qed.

Lemma enter_values_safe fuel index g args s s' r :
  at_index (functions m) index g -> execution g <> Native -> ready s ->
  enter_values fuel m index args s = Some (s', r) -> entered_ok s' r.
Proof.
  intros Hat Hn (Hg & Hfs & Hb) Hr. unfold enter_values in Hr.
  destruct (ensure_constants fuel m s) as [[s1 r1]|] eqn:He; [|done].
  eapply ensure_constants_safe in He; [|done..]. destruct r1 as [u|[e| | |]].
  - destruct He as (Hg1 & Hfs1 & Hb1). eapply enter_ready_safe; [done..| |exact Hr].
    split_and!; [done..|by rewrite Hb1].
  - destruct He as (Hg1 & Hfs1 & Hb1). apply (inj Some) in Hr.
    unfold mbind, st_bind, discard_run, heap_run, set_vm, stop, st_fail in Hr. cbn in Hr.
    injection Hr as <- <-. split_and!; [by apply glued_discard|done|]. cbn. by rewrite Hb1.
  - by injection Hr as <- <-.
  - by injection Hr as <- <-.
  - by injection Hr as <- <-.
Qed.

Lemma resume_sliced_safe fuel s s' r :
  live_ok None s.2 -> bodies_ok m (heap s.1) -> resume_sliced fuel m s = Some (s', r) -> ended_ok s' r.
Proof. intros Hs Hg Hr. by apply dispatch_frames_safe in Hr as [He _]. Qed.

Lemma enter_sliced_safe fuel index g s s' r :
  at_index (functions m) index g -> execution g <> Native -> s.2 = [] -> bodies_ok m (heap s.1) ->
  enter_sliced fuel m index s = Some (s', r) -> ended_ok s' r.
Proof.
  intros Hat Hn Hfs Hg Hr. unfold enter_sliced in Hr.
  destruct (ensure_constants fuel m s) as [[s1 r1]|] eqn:He; [|done].
  eapply ensure_constants_safe in He; [|done..]. destruct r1 as [u|e].
  - destruct He as (Hg1 & Hfs1 & _).
    destruct (sound_result _ _ _ s1 (sound_take_frame index (fun fs => fs = [])) Hfs1 Hg1) as (Hg2 & _ & Ho).
    pose proof (take_frame_frames index s1) as Hfr. rewrite Hfs1 in Hfr.
    destruct (take_frame m index s1) as [s2 [f|e]]; cbn in *.
    + destruct Ho as (_ & g' & Hf). assert (g' = g) as -> by (eapply function_of; [exact Hat|]; by destruct Hf).
      apply dispatch_frames_safe in Hr as [Hr _]; [done| |done]. cbn. rewrite Hfr. split; [|done].
      destruct (bind_args_frame index g f [] Hf Hn ltac:(cbn; lia)) as [[] Hw]. apply push_ok; [|done|by split].
      by split.
    + injection Hr as <- <-. by destruct e.
  - injection Hr as <- <-. destruct e; try done. by destruct He as (? & ? & _).
Qed.
End Control.

(** ** Runs of any length *)

Section Reachable.
Context {host : Host} {allocator : Allocator} {hosted : HostChannels}.

(** A turn after which the run goes on, from what it holds as its answer and the
    machine to the next ones. *)
Definition goes_on (m : Module_) (x y : option Value * Machine) : Prop :=
  turn m x.1 x.2 = (y.2, Ok (inl y.1)).

(** The machine a function is entered in. *)
Definition entered (vm : Vm) (index : Z) (g : FuncProto) (args : list Value) : Machine :=
  (vm, [bind_args args (fresh_frame index (Z.to_nat (local_count g)))]).

Lemma entered_live m vm index g args : Valid m -> tables_fit m ->
  at_index (functions m) index g -> execution g <> Native ->
  (length args <= Z.to_nat (local_count g))%nat -> live_ok m None (entered vm index g args).2.
Proof.
  intros HV Hf (n & -> & Hat) Hn Hargs. split; [|done].
  destruct (bind_args_frame m HV (Z.of_nat n) g (fresh_frame (Z.of_nat n) (Z.to_nat (local_count g))) args)
    as [Hfr Hwb].
  - split; cbn; rewrite ?length_replicate; try done. unfold VmRun.function_at.
    pose proof (lookup_lt_Some _ _ _ Hat). destruct Hf as (Hfit & _).
    by rewrite usize_try_from_nat by lia.
  - done.
  - cbn. by rewrite length_replicate.
  - apply push_ok; [done|by rewrite Hwb|by split].
Qed.

Lemma goes_on_live m x y : Valid m -> goes_on m x y ->
  live_ok m x.1 x.2.2 /\ bodies_ok m (heap x.2.1) -> live_ok m y.1 y.2.2 /\ bodies_ok m (heap y.2.1).
Proof.
  intros HV Hxy [Hl Hb]. destruct (turn_safe m HV x.1 x.2 Hl Hb) as (H1 & H2 & _).
  unfold goes_on in Hxy. rewrite Hxy in H1, H2. by split.
Qed.

(** C2: Type soundness of frames, for runs of any length, endless ones included.
    From the entry of a bytecode function of a validated module, in every
    machine the dispatch loop reaches, each frame belongs to a bytecode function,
    has as many slots as the function declares, stands on one of its
    instructions and writes back only to slots its caller has; and the next turn
    does not panic. *)
Theorem reachable_frames_ok m vm index g args x :
  widths_ok m -> tables_fit m -> validate m = Ok tt ->
  at_index (functions m) index g -> execution g <> Native ->
  (length args <= Z.to_nat (local_count g))%nat -> bodies_ok m (heap vm) ->
  rtc (goes_on m) (None, entered vm index g args) x ->
  frames_ok m x.2.2 /\ (turn m x.1 x.2).2 <> Err Panics.
Proof.
  intros Hw Hf HV%validate_spec Hat Hn Hargs Hg Hrun; [|done..].
  assert (live_ok m x.1 x.2.2 /\ bodies_ok m (heap x.2.1)) as [Hl Hh].
  { assert (live_ok m None (entered vm index g args).2 /\ bodies_ok m (heap vm)) as Hstart
      by (split; [by apply entered_live|done]).
    revert Hrun Hstart.
    enough (forall x0, rtc (goes_on m) x0 x -> live_ok m x0.1 x0.2.2 /\ bodies_ok m (heap x0.2.1) ->
      live_ok m x.1 x.2.2 /\ bodies_ok m (heap x.2.1)) as H by apply (H (None, entered vm index g args)).
    induction 1 as [x0|x0 y z Hxy _ IH]; [done|]. intros H0. by eapply IH, goes_on_live. }
  destruct (turn_safe m HV x.1 x.2 Hl Hh) as (_ & Ht & _). split; [by destruct Hl|].
  intros He. by rewrite He in Ht.
Qed.
End Reachable.

(** ** Witnesses *)

#[local] Instance deaf : HostChannels := {| host_channels := false |}.
#[local] Instance control_pages : Allocator := {| payload_address n := 4096 * Z.of_nat (S n) |}.

Definition idle_vm : Vm :=
  {| heap := heap_new; stack := []; VmState.constants := []; initializing_constants := false;
     pending_capture := []; captured := []; VmState.tasks := TaskExecutor_new;
     VmState.channels := ChannelExecutor_new; frame_cache := []; running_drops := []; slice_budget := None;
     written := [] |}.

(** The loop of [sample_body] with its condition true. *)
Definition looping : Machine := @entered idle_vm 0 sample_body [V_Bool true].

(** Its first [n] turns. *)
Fixpoint turned (n : nat) (x : option Value * Machine) : option Value * Machine :=
  match n with
  | O => x
  | S n =>
    match @turn host32 control_pages deaf valid_sample x.1 x.2 with
    | (s, Ok (inl completed)) => turned n (completed, s)
    | _ => x
    end
  end.

Lemma turned_reaches n : forall x, rtc (@goes_on host32 control_pages deaf valid_sample) x (turned n x).
Proof.
  induction n as [|n IH]; intros x; [constructor|]. cbn [turned].
  destruct (turn valid_sample x.1 x.2) as [s [[completed|]|]] eqn:Ht; try constructor.
  eapply (rtc_l _ _ (completed, s)); [exact Ht|apply IH].
Qed.

Lemma reachable_frames_ok_witness :
  let x := turned 5 (None, looping) in
  pc <$> head x.2.2 = Some 0%nat /\ @frames_ok host32 valid_sample x.2.2.
Proof.
  split; [vm_compute; reflexivity|].
  apply (@reachable_frames_ok host32 control_pages deaf valid_sample idle_vm 0 sample_body [V_Bool true]);
    [by apply sample_widths; repeat constructor|by apply sample_fit|vm_compute; reflexivity
    |by exists 0%nat|discriminate|vm_compute; lia|apply glued_new|].
  exact (turned_reaches 5 (None, looping)).
Defined.
