(* ===== verification/VmEntrySafe.v ===== *)
(** The promise of [Program::load]: past validation, entering a module never
    makes the interpreter panic.  Proved for a call on an instance, a slice of a
    fiber and a program whose entrypoint is bytecode; a validated module whose
    entrypoint is native is the one that does panic. *)

From stdpp Require Import gmap strings.
From S2P Require Import Prelude.
From S2P Require Import AbiOps.
From S2P Require Import Foreign.
From S2P Require Import Instruction.
From S2P Require Import Tasks.
From S2P Require Import Channels.
From S2P Require Import ModuleFormat.
From S2P Require Import Validate.
From S2P Require Import NativeState.
From S2P Require Import Heap.
From S2P Require Import HeapOwnership.
From S2P Require Import HeapGlue.
From S2P Require Import HeapDrops.
From S2P Require Import VmState.
From S2P Require Import VmStep.
From S2P Require Import VmRun.
From S2P Require Import VmSteady.
From S2P Require Import VmControl.
From S2P Require Import VmEntry.

Section Safe.
Context {host : Host} {allocator : Allocator} {hosted : HostChannels}.
Context (m : Module_) (Hvalid : Valid m).

(** A tree that comes in names no other [Drop] bodies than the module's. *)
Definition arg_ok (a : NativeArg) : Prop :=
  match a with NA_Aggregate tree => node_glued (receiver_body m) tree | _ => True end.

Lemma glued_lower a h : arg_ok a -> bodies_ok m h -> bodies_ok m (lower a h).1.
Proof.
  intros Ha Hg. destruct a; cbn [lower]; try done.
  - pose proof (glued_alloc_str (receiver_body m) text h Hg). by destruct (alloc text h).
  - destruct (tag <? 0); [done|]. pose proof (glued_alloc_enum (receiver_body m) tag None h Hg).
    by destruct (alloc_enum tag None h).
  - pose proof (glued_from_native_state (receiver_body m) tree Ha h Hg). by destruct (from_native_state tree h).
Qed.

Lemma glued_lower_args function roots args : forall lowered h,
  Forall arg_ok args -> bodies_ok m h -> bodies_ok m (lower_args function roots args lowered h).1.
Proof.
  induction args as [|a args IH]; intros lowered h Ha Hg; cbn [lower_args]; [done|].
  apply Forall_cons in Ha as [Ha Hargs].
  assert (forall h v, bodies_ok m h -> bodies_ok m
    (match v : result VmError Value with
     | Ok v => lower_args function roots args (lowered ++ [v]) h
     | Err e => (drop_all drop_value lowered h, Err e)
     end).1) as Hnext by (intros h1 [v|e] H1; [by apply IH|by apply glued_discard]).
  destruct a as [| | | | | | |word| |];
    try (match goal with |- context [lower ?a h] =>
           pose proof (glued_lower a h Ha Hg) as H1; destruct (lower a h) as [h1 w] end;
         exact (Hnext h1 (ok_or w (E_UncrossableExport function "this argument")) H1)).
  destruct (find _ roots) as [[i rooted]|]; [|by apply (Hnext h (Err (E_DanglingRoot word)))].
  pose proof (glued_copy_value (receiver_body m) rooted h Hg) as H1. destruct (copy_value rooted h) as [h1 v].
  by apply (Hnext h1 (Ok v)).
Qed.

Lemma glued_lift_transfer v h : bodies_ok m h -> bodies_ok m (lift_transfer v h).1.
Proof.
  intros Hg. destruct v; cbn [lift_transfer]; try done; try by apply glued_drop.
  repeat case_match; try done; by apply glued_drop.
Qed.

Lemma lift_transfer_calm v h : (lift_transfer v h).2 <> Err Panics.
Proof. destruct v; cbn [lift_transfer]; try done. by repeat case_match. Qed.

(** ** Instances *)

(** Between calls an instance runs nothing, and its heap asks for no other bodies
    than the module's. *)
Definition instance_ok (x : Instance) : Prop :=
  bodies_ok m (in_heap x) /\ sc_frames (in_scratch x) = [].

Lemma instance_new_ok : instance_ok instance_new.
Proof. split; [apply glued_new|done]. Qed.

Lemma lift_result_ok function answer x :
  instance_ok x -> instance_ok (lift_result function answer x).1 /\ (lift_result function answer x).2 <> Err Panics.
Proof.
  intros [Hg Hfs]. pose proof (glued_drop (receiver_body m) answer _ Hg) as Hd.
  assert (forall h, bodies_ok m h -> instance_ok (with_in_heap h x)) as Hw by by split.
  unfold lift_result. destruct answer; try (by split; [apply Hw|]).
  all: try (destruct (mint_root x) as [[r y]|e] eqn:Hm; [|by split; [apply Hw|]];
    unfold mint_root in Hm; case_match; by simplify_eq).
  all: match goal with |- context [lift_transfer ?v ?h] =>
    pose proof (glued_lift_transfer v h Hg) as H1; pose proof (lift_transfer_calm v h) as H2;
    destruct (lift_transfer v h) as [h1 [[r|]|e]] end;
    split; try (by apply Hw); cbn in *; congruence.
Qed.

Lemma checked_function function_id n :
  check_signature m function_id n = Ok tt -> exists g,
    at_index (functions m) function_id g /\ execution g <> Native.
Proof.
  unfold check_signature. destruct (VmRun.function_at m function_id) as [g|] eqn:Hf; [|done].
  unfold is_native. destruct (bool_decide _) eqn:Hn; [done|]. intros _. exists g.
  split; [by apply (at_function m)|]. by apply bool_decide_eq_false in Hn.
Qed.

Lemma instance_call_ok fuel function_id args x x' tokens r :
  instance_ok x -> Forall arg_ok args ->
  instance_call fuel m function_id args x = Some (x', tokens, r) ->
  match r with Ok _ | Err (Trap _) => instance_ok x' | Err e => e <> Panics end.
Proof.
  intros [Hg Hfs] Ha Hr. unfold instance_call in Hr.
  destruct (check_signature m function_id (length args)) as [[]|e] eqn:Hc; [|by injection Hr as <- _ <-].
  destruct (checked_function _ _ Hc) as (g & Hat & Hn).
  pose proof (glued_lower_args function_id (in_roots x) args [] _ Ha Hg) as Hgl.
  destruct (lower_args _ _ _ _ _) as [h [lowered|e]]; [|by injection Hr as <- _ <-].
  destruct (enter_values _ _ _ _ _) as [[s outcome]|] eqn:He; [|done].
  eapply enter_values_safe in He; [|done..|by split_and!].
  unfold release_undelivered in Hr. destruct (take_undelivered_tokens _) as [c ts]. cbn in Hr.
  destruct outcome as [answer|e].
  - match type of Hr with context [lift_result _ _ ?y] =>
      assert (instance_ok y) as Hy by (by destruct He as (? & ? & _));
      destruct (lift_result_ok function_id answer y Hy) as [H1 H2];
      destruct (lift_result function_id answer y) as [z r1] end.
    injection Hr as <- _ <-. cbn in H1, H2.
    destruct r1 as [|[]]; try done; congruence.
  - injection Hr as <- _ <-. destruct e; try done. by destruct He as (? & ? & _).
Qed.

(** ** Fibers *)

(** A fiber of a bytecode function: not started, suspended between two
    instructions, or finished. *)
Definition fiber_ok (x : Fiber) : Prop :=
  (exists g, at_index (functions m) (fb_function x) g /\ execution g <> Native) /\
  bodies_ok m (fb_heap x) /\
  (if fb_finished x || negb (fb_started x) then sc_frames (fb_scratch x) = []
   else live_ok m None (sc_frames (fb_scratch x))).

Lemma fiber_step_ok fuel budget x x' out r :
  fiber_ok x -> fiber_step fuel m budget x = Some (x', out, r) ->
  match r with Ok _ | Err (Trap _) => fiber_ok x' | Err e => e <> Panics end.
Proof.
  intros ((g & Hat & Hn) & Hg & Hfs) Hr. unfold fiber_step in Hr.
  destruct (fb_finished x) eqn:Hf; [injection Hr as <- _ <-; split; [by exists g|]; by rewrite Hf|].
  cbn [orb] in Hfs. destruct (if fb_started x then _ else _) as [[s r1]|] eqn:He; [|done].
  assert (ended_ok m s r1) as Hok.
  { destruct (fb_started x).
    - exact (resume_sliced_safe m Hvalid fuel (fiber_machine budget x) s r1 Hfs Hg He).
    - exact (enter_sliced_safe m Hvalid fuel _ g (fiber_machine budget x) s r1 Hat Hn Hfs Hg He). }
  destruct r1 as [[v|]|e].
  - unfold release_undelivered in Hr. destruct (take_undelivered_tokens _) as [c ts].
    injection Hr as <- _ <-. destruct Hok as [H1 H2]. split; [by exists g|]. split; [|done]. cbn.
    by apply glued_drop, glued_discard.
  - injection Hr as <- _ <-. destruct Hok as [H1 H2]. split; [by exists g|]. by split.
  - unfold release_undelivered in Hr. destruct (take_undelivered_tokens _) as [c ts].
    injection Hr as <- _ <-. destruct e; try done. destruct Hok as [H1 H2]. split; [by exists g|]. by split.
Qed.

(** ** Programs *)

Lemma execute_ok fuel s tokens r :
  (forall i g, main m = Some i -> at_index (functions m) i g -> execution g <> Native) ->
  run_entry fuel m = Some (s, tokens, r) -> r <> Err Panics.
Proof.
  intros Hmain Hr. unfold run_entry in Hr. destruct (main m) as [i|] eqn:Hm; [|by injection Hr as _ _ <-].
  destruct (valid_main _ Hvalid _ Hm) as (g & Hat).
  destruct (enter_values _ _ _ _ _) as [[s1 outcome]|] eqn:He; [|done].
  eapply enter_values_safe in He; [|done..|by eapply Hmain|]; [|by split_and!; [apply glued_new|done..]].
  unfold release_undelivered in Hr. destruct (take_undelivered_tokens _) as [c ts].
  destruct outcome as [v|e]; injection Hr as _ _ <-; [done|]. by destruct e.
Qed.
End Safe.

(** ** Histories *)

Section Histories.
Context {host : Host} {allocator : Allocator} {hosted : HostChannels}.

(** What an embedder does with an instance. *)
Inductive InstanceOp :=
| IO_Call (function_id : Z) (args : list NativeArg)
| IO_Release (root : Z).

(** The answers in order; a history ends where the model hands over to host
    capabilities or to a recursion without end. *)
Fixpoint history (fuel : nat) (m : Module_) (ops : list InstanceOp) (x : Instance) :
    option (list (result Stop NativeResult)) :=
  match ops with
  | [] => Some []
  | IO_Release root :: ops =>
    let '(x, r) := instance_release root x in
    rs ← history fuel m ops x;
    Some (match r with Ok _ => Ok NR_Void | Err e => Err (Trap e) end :: rs)
  | IO_Call function_id args :: ops =>
    '(x, _, r) ← instance_call fuel m function_id args x;
    match r with
    | Ok _ | Err (Trap _) => rs ← history fuel m ops x; Some (r :: rs)
    | Err e => Some [Err e]
    end
  end.

(** The slices of a fiber, one budget each, up to the first that fails. *)
Fixpoint slices (fuel : nat) (m : Module_) (budgets : list Z) (x : Fiber) :
    option (list (result Stop FiberStep)) :=
  match budgets with
  | [] => Some []
  | budget :: budgets =>
    '(x, _, r) ← fiber_step fuel m budget x;
    match r with
    | Ok _ => rs ← slices fuel m budgets x; Some (r :: rs)
    | Err e => Some [Err e]
    end
  end.

Definition op_args_ok (m : Module_) (op : InstanceOp) : Prop :=
  match op with IO_Call _ args => Forall (arg_ok m) args | IO_Release _ => True end.

Lemma instance_release_ok m root x : instance_ok m x -> instance_ok m (instance_release root x).1.
Proof.
  intros [Hg Hfs]. unfold instance_release. destruct (VmEntry.root x root); [|done]. split; [|done].
  cbn. by apply glued_abandon, glued_drop.
Qed.

Lemma history_ok m fuel ops : Valid m -> forall x rs,
  Forall (op_args_ok m) ops -> instance_ok m x -> history fuel m ops x = Some rs ->
  Forall (fun r => r <> Err Panics) rs.
Proof.
  intros HV. induction ops as [|[function_id args|root] ops IH]; intros x rs Hops Hx Hh; cbn [history] in Hh.
  - by simplify_eq.
  - apply Forall_cons in Hops as [Ha Hops].
    destruct (instance_call _ _ _ _ _) as [[[y tokens] r]|] eqn:Hc; cbn in Hh; [|done].
    pose proof (instance_call_ok m HV _ _ _ _ _ _ _ Hx Ha Hc) as Hr.
    destruct r as [v|[e| | |]]; try (by simplify_eq; constructor);
      destruct (history _ _ ops y) as [rs'|] eqn:Hrs; cbn in Hh; simplify_eq;
      (constructor; [done|]; by eapply IH).
  - apply Forall_cons in Hops as [_ Hops].
    pose proof (instance_release_ok m root x Hx) as Hy. destruct (instance_release root x) as [y r].
    destruct (history _ _ ops y) as [rs'|] eqn:Hrs; cbn in Hh; simplify_eq.
    constructor; [by destruct r|]. by eapply IH.
Qed.


(** However a bytecode function of a validated module is cut into slices, a
    fiber running it never panics. *)
Theorem fiber_never_panics m fuel function g budgets rs :
  widths_ok m -> tables_fit m -> validate m = Ok tt ->
  at_index (functions m) function g -> execution g <> Native ->
  slices fuel m budgets (fiber_new function) = Some rs ->
  Forall (fun r => r <> Err Panics) rs.
Proof.
  intros Hw Hf HV%validate_spec Hat Hn; [|done..].
  assert (fiber_ok m (fiber_new function)) as Hx.
  { split; [by exists g|]. split; [apply glued_new|done]. }
  clear Hat Hn. revert Hx rs. generalize (fiber_new function) as x.
  induction budgets as [|b budgets IH]; intros x Hx rs Hs; cbn [slices] in Hs; [by simplify_eq|].
  destruct (fiber_step _ _ _ _) as [[[y out] r]|] eqn:Hc; cbn in Hs; [|done].
  pose proof (fiber_step_ok m HV _ _ _ _ _ _ Hx Hc) as Hr.
  destruct r as [v|e]; [|simplify_eq; constructor; [by destruct e|done]].
  destruct (slices _ _ budgets y) as [rs'|] eqn:Hrs; cbn in Hs; simplify_eq.
  constructor; [done|]. by eapply IH.
Qed.

(** Executing a module whose entrypoint is bytecode never panics: either
    validation refuses it, or the run answers, traps or leaves the model. *)
Theorem execute_never_panics m fuel s tokens r :
  widths_ok m -> tables_fit m ->
  (forall i g, main m = Some i -> at_index (functions m) i g -> execution g <> Native) ->
  VmEntry.execute fuel m = Some (s, tokens, r) -> r <> Err Panics.
Proof.
  intros Hw Hf Hmain Hr. unfold VmEntry.execute in Hr. destruct (validate m) as [[]|e] eqn:HV; [|by simplify_eq].
  apply validate_spec in HV; [|done..]. by eapply execute_ok.
Qed.
End Histories.

(** ** Witnesses *)

#[local] Instance unanswered : HostChannels := {| host_channels := false |}.
#[local] Instance safe_pages : Allocator := {| payload_address n := 4096 * Z.of_nat (S n) |}.

Definition sample_history : list InstanceOp :=
  [IO_Call 1 []; IO_Release 4; IO_Call 0 [NA_Bool false]; IO_Call 7 []; IO_Call 0 [NA_Str [x61]]].

Definition sample_answers : list (result Stop NativeResult) :=
  default [] (@history host32 safe_pages unanswered 100 valid_sample sample_history instance_new).


Lemma fiber_never_panics_witness :
  Forall (fun r : result Stop FiberStep => r <> Err Panics) [Ok FiberSuspended; Ok FiberFinished; Ok FiberFinished].
Proof.
  apply (@fiber_never_panics host32 safe_pages unanswered valid_sample 100 1
    {| f_name := [x64]; param_count := 0; local_count := 1; execution := Runtime;
       code := [I_ReturnVoid]; releases := EveryLocal |} [0; 1; 1]);
    [by apply sample_widths; repeat constructor|by apply sample_fit|vm_compute; reflexivity
    |by exists 1%nat|discriminate|vm_compute; reflexivity].
Defined.

Lemma execute_never_panics_witness :
  match @VmEntry.execute host32 safe_pages unanswered 100 valid_sample with
  | Some (_, _, Ok answer) => ro_result answer = V_Void
  | _ => False
  end /\
  match @VmEntry.execute host32 safe_pages unanswered 100 valid_sample with
  | Some (_, _, r) => r <> Err Panics
  | None => False
  end.
Proof.
  split; [vm_compute; reflexivity|].
  destruct (@VmEntry.execute host32 safe_pages unanswered 100 valid_sample) as [[[s tokens] r]|] eqn:He;
    [|vm_compute in He; discriminate He].
  apply (@execute_never_panics host32 safe_pages unanswered valid_sample 100 s tokens r);
    [by apply sample_widths; repeat constructor|by apply sample_fit| |exact He].
  intros i g [= <-] (n & Hn & Hg). destruct n as [|[|n]]; try lia. cbn in Hg. by injection Hg as <-.
Defined.
