(* ===== verification/VmSlices.v ===== *)
(** Slices: a run cut into slices is the run.  A [Fiber] is stopped when its slice
    is spent and goes on from there in the next one; as long as no user [Drop]
    body is running where it stops, what it does, writes and leaves is what one
    slice of both budgets does.  [VmPrograms.sliced_drop_loses_answer] is what
    happens otherwise. *)

From stdpp Require Import gmap strings.
From S2P Require Import Prelude.
From S2P Require Import AbiOps.
From S2P Require Import Foreign.
From S2P Require Import Instruction.
From S2P Require Import Tasks.
From S2P Require Import Channels.
From S2P Require Import ModuleFormat.
From S2P Require Import Validate.
From S2P Require Import NativeState.
From S2P Require Import Heap.
From S2P Require Import HeapGlue.
From S2P Require Import VmState.
From S2P Require Import VmOps.
From S2P Require Import VmStep.
From S2P Require Import VmRun.
From S2P Require Import VmSteady.
From S2P Require Import VmControl.
From S2P Require Import VmEntry.
From S2P Require Import VmEntrySafe.

(** The machine with [k] more instructions in its slice, and the lines [w]
    written before. *)
Definition shift (k : Z) (w : list rstring) (s : Machine) : Machine :=
  moved (Z.add k <$> slice_budget s.1, w) s.

(** Slices are counted in a [u64]. *)
Definition budget_ok (s : Machine) : Prop := forall b, slice_budget s.1 = Some b -> 0 <= b.

(** An inversion of sequencing. *)
Lemma bind_ok {S E A B} (c : st S E A) (k : A -> st S E B) s s' b :
  (c ≫= k) s = (s', Ok b) -> exists s1 a, c s = (s1, Ok a) /\ k a s1 = (s', Ok b).
Proof. unfold mbind, st_bind. destruct (c s) as [s1 [a|e]]; [by eauto|done]. Qed.

Section Slices.
Context {host : Host} {allocator : Allocator} {hosted : HostChannels}.
Context (m : Module_) (Hvalid : Valid m).

(** ** A turn does not see the rest of the slice *)

Lemma settled_moved x s : settled_machine (moved x s) = moved x (settled_machine s).
Proof.
  destruct s as [vm fs]. unfold settled_machine, finish_returned_drops, moved. cbn.
  by rewrite finish_drops_adrift.
Qed.

Lemma settled_heap_moved x s : heap (settled_machine (moved x s)).1 = heap (settled_machine s).1.
Proof. by rewrite settled_moved. Qed.

Lemma spends_moved completed x s : spends completed (moved x s) = spends completed s.
Proof. unfold spends. by rewrite settled_heap_moved. Qed.

Lemma settled_shift k w (s : Machine) : settled_machine (shift k w s) = shift k w (settled_machine s).
Proof. unfold shift. by rewrite settled_moved, settled_budget. Qed.

Lemma shift_budget k w (s t : Machine) : slice_budget t.1 = slice_budget s.1 ->
  moved (Z.add k <$> slice_budget s.1, w) t = shift k w t.
Proof. intros H. unfold shift. by rewrite H. Qed.

Lemma spend_shift k w (s : Machine) : 0 <= k -> budget_ok s -> (slice_budget s.1 = Some 0 -> k = 0) ->
  spend (shift k w s) = (shift k w (spend s).1, (spend s).2).
Proof.
  intros Hk Hb Hz. destruct s as [vm fs]. unfold spend, shift, moved. cbn.
  destruct (slice_budget vm) as [b|] eqn:Hv; [|by cbn; rewrite Hv].
  cbn. specialize (Hb b Hv). cbn in Hz. rewrite Hv in Hz.
  destruct (Z.eqb_spec b 0) as [->|Hne].
  - rewrite (Hz eq_refl). cbn. by rewrite Hv.
  - rewrite (proj2 (Z.eqb_neq (k + b) 0)) by lia. cbn. by replace (k + b - 1) with (k + (b - 1)) by lia.
Qed.

Lemma turn_shift k w completed (s : Machine) :
  0 <= k -> budget_ok s -> live_ok m completed s.2 -> bodies_ok m (heap s.1) ->
  (spends completed s = true -> slice_budget s.1 = Some 0 -> k = 0) ->
  turn m completed (shift k w s) = (shift k w (turn m completed s).1, (turn m completed s).2).
Proof.
  intros Hk Hb Hl Hg Hz. apply (settled_ok m) in Hg.
  destruct (spends completed s) eqn:Hsp.
  - rewrite !turn_spends by (try done; unfold shift; by rewrite spends_moved).
    rewrite settled_shift, spend_shift; [|done|..].
    2: { intros b. rewrite settled_budget. apply Hb. }
    2: { rewrite settled_budget. by apply Hz. }
    destruct (spend_cases (settled_machine s)) as (going & vm & -> & Hh & _). cbn [fst snd].
    destruct going; [|done].
    change ((settled_machine s).2) with s.2 in *.
    unfold spends in Hsp. apply andb_true_iff in Hsp as [_ Hsp].
    destruct Hl as [Hfs Hne]. destruct (s.2) as [|f rest] eqn:Hs.
    { destruct completed; [done|by destruct (Hne eq_refl)]. }
    pose proof (sound_execute_next m Hvalid completed f rest Hfs) as Hc.
    destruct (sound_result m _ _ _ (vm, f :: rest) Hc) as (_ & H2 & _); [done|cbn; by rewrite Hh|].
    unfold shift at 1. rewrite (proj1 (Hc (vm, f :: rest) eq_refl ltac:(cbn; by rewrite Hh))).
    by rewrite shift_budget.
  - rewrite !turn_free by (try done; unfold shift; by rewrite spends_moved).
    rewrite settled_shift. pose proof (sound_free_turn m Hvalid completed) as Hc.
    destruct (sound_result m _ _ _ (settled_machine s) Hc Hl Hg) as (_ & H2 & _).
    unfold shift at 1. rewrite (proj1 (Hc (settled_machine s) Hl Hg)). by rewrite shift_budget.
Qed.

Lemma turn_budget completed (s : Machine) :
  live_ok m completed s.2 -> bodies_ok m (heap s.1) -> budget_ok s -> budget_ok (turn m completed s).1.
Proof.
  intros Hl Hg Hb. apply (settled_ok m) in Hg. destruct (spends completed s) eqn:Hsp.
  - rewrite turn_spends by done. unfold spend.
    unfold spends in Hsp. apply andb_true_iff in Hsp as [_ Hsp].
    destruct Hl as [Hfs Hne]. destruct (s.2) as [|f rest] eqn:Hs.
    { destruct completed; [done|by destruct (Hne eq_refl)]. }
    pose proof (sound_execute_next m Hvalid completed f rest Hfs) as Hc.
    assert (forall vm, heap vm = heap (settled_machine s).1 ->
      slice_budget (execute_next m completed (vm, f :: rest)).1.1 = slice_budget vm) as Hx.
    { intros vm Hh. by destruct (sound_result m _ _ _ (vm, f :: rest) Hc) as (_ & H2 & _); [|cbn; rewrite Hh|]. }
    destruct (settled_machine s) as [vm fs] eqn:He. cbn [fst snd].
    assert (fs = f :: rest) as -> by (rewrite <- Hs; change s.2 with (settled_machine s).2; by rewrite He).
    pose proof (settled_budget s) as Hsb. rewrite He in Hsb. cbn in Hsb.
    destruct (slice_budget vm) as [b|] eqn:Hv.
    + destruct (Z.eqb_spec b 0) as [->|Hz]; intros b'.
      * cbn. rewrite Hv. intros [= <-]. lia.
      * rewrite Hx by done. cbn. intros [= <-]. specialize (Hb b). rewrite <- Hsb in Hb. specialize (Hb eq_refl). lia.
    + intros b'. rewrite Hx by done. by rewrite Hv.
  - rewrite turn_free by done. intros b.
    destruct (sound_result m _ _ _ (settled_machine s) (sound_free_turn m Hvalid completed) Hl Hg) as (_ & -> & _).
    rewrite settled_budget. apply Hb.
Qed.

Lemma turn_suspended completed (s s' : Machine) :
  turn m completed s = (s', Ok (inr Suspended)) ->
  spends completed s = true /\ slice_budget s.1 = Some 0 /\ s' = settled_machine s.
Proof.
  intros Ht. destruct (spends completed s) eqn:Hsp.
  - rewrite turn_spends in Ht by done. split; [done|].
    rewrite <- (settled_budget s). unfold spend in Ht. destruct (slice_budget _) as [b|] eqn:Hb.
    + destruct (Z.eqb_spec b 0) as [->|_]; [by simplify_eq|].
      exfalso. eapply execute_next_on. by rewrite Ht.
    + exfalso. eapply execute_next_on. by rewrite Ht.
  - rewrite turn_free in Ht by done. exfalso. eapply free_turn_on. by rewrite Ht.
Qed.

(** Settling twice is settling once. *)
Lemma finish_drops_again running depth : forall vm,
  finish_drops (running_drops (finish_drops running depth vm)) depth (finish_drops running depth vm)
  = finish_drops running depth vm.
Proof.
  induction running as [|[entered i] rest IH]; intros vm; cbn [finish_drops]; [by destruct vm|].
  case_decide as Hd; [|by apply IH]. cbn [running_drops with_drops finish_drops].
  rewrite decide_True by done. by destruct vm.
Qed.

Lemma settled_settled s : settled_machine (settled_machine s) = settled_machine s.
Proof. destruct s as [vm fs]. unfold settled_machine, finish_returned_drops. cbn. by rewrite finish_drops_again. Qed.

Lemma turn_settled completed s : turn m completed (settled_machine s) = turn m completed s.
Proof. by rewrite !turn_unfold, settled_settled. Qed.

(** ** What runs where a slice ends *)

Definition drops_ok (s : Machine) : Prop := Forall (fun e => 1 <= e.1)%nat (running_drops s.1).

(** While a run that has its answer still has frames, they are those of a user
    [Drop] body entered after its last own frame was gone. *)
Definition quiet (completed : option Value) (s : Machine) : Prop :=
  drops_ok s /\
  (is_Some completed -> s.2 <> [] -> exists id, last (running_drops s.1) = Some (1%nat, id)).

Lemma finish_drops_running depth running : forall vm, exists gone,
  running = gone ++ running_drops (finish_drops running depth vm) /\
  Forall (fun e => depth < e.1)%nat gone /\
  forall e, head (running_drops (finish_drops running depth vm)) = Some e -> (e.1 <= depth)%nat.
Proof.
  induction running as [|[entered i] rest IH]; intros vm; cbn [finish_drops]; [by exists []|].
  case_decide as Hd; [exists []; split_and!; [done..|]; by intros e [= <-]|].
  match goal with |- context [finish_drops rest depth ?vm'] => destruct (IH vm') as (gone & Hr & Hg & Hh) end.
  exists ((entered, i) :: gone). split_and!; [cbn; f_equal; exact Hr| |done].
  constructor; [cbn; lia|done].
Qed.

Lemma settled_quiet completed s : quiet completed s ->
  quiet completed (settled_machine s) /\ (s.2 = [] -> running_drops (settled_machine s).1 = []).
Proof.
  intros [Hd Hq]. unfold quiet, drops_ok in *. change (settled_machine s).2 with s.2.
  destruct (finish_drops_running (length s.2) (running_drops s.1) s.1) as (gone & Hr & Hg & Hh).
  change (finish_drops (running_drops s.1) (length s.2) s.1) with (settled_machine s).1 in *.
  revert Hd Hq Hr Hh. generalize (running_drops (settled_machine s).1) as kept_drops.
  intros after Hd Hq Hr Hh. rewrite Hr in Hd. apply Forall_app in Hd as [Hd1 Hd2]. split_and!; [done| |].
  - intros Hc Hn. destruct (Hq Hc Hn) as [id Hl]. exists id. rewrite Hr in Hl.
    apply last_app_Some in Hl as [Hl|[_ Hl]]; [done|]. apply last_Some_elem_of in Hl.
    rewrite Forall_forall in Hg. apply Hg in Hl. cbn in Hl. destruct s.2; [done|cbn in Hl; lia].
  - intros He. rewrite He in Hh. destruct after as [|e after]; [done|].
    specialize (Hh e eq_refl). apply Forall_cons in Hd2 as [Hd2 _]. cbn in Hh. lia.
Qed.

(** A run gets its answer when its last frame is gone. *)
Lemma hand_over_empty answer (s s' : Machine) v : hand_over answer s = (s', Ok (Some v)) -> s'.2 = [].
Proof.
  unfold hand_over. intros (s1 & s2 & [= <- <-] & H)%bind_ok. destruct (s.2) eqn:Hs; cbn [is_nil] in H.
  - apply bind_ok in H as (s3 & ? & [= <- _] & H). apply bind_ok in H as (s4 & ? & [= <- _] & H).
    by injection H as <- _.
  - apply bind_ok in H as (s3 & ? & [= <- _] & H). by injection H.
Qed.

Lemma finish_frame_empty answer (s s' : Machine) v : finish_frame m answer s = (s', Ok (Some v)) -> s'.2 = [].
Proof.
  unfold finish_frame. intros (s1 & s2 & [= <- <-] & H)%bind_ok. destruct (s.2) as [|f rest]; [done|].
  apply bind_ok in H as (s3 & ? & _ & H). destruct (function_at m (func f)) as [g|].
  - destruct (_ && _); repeat (first [by apply hand_over_empty in H | apply bind_ok in H as (? & ? & _ & H)]).
  - do 2 apply bind_ok in H as (? & ? & _ & H). done.
Qed.

Lemma bind_ret {A B} (c : Run A) (v : B) (s s' : Machine) w : (_ ← c; mret v) s = (s', Ok w) -> w = v.
Proof. intros (s1 & a & _ & [= _ <-])%bind_ok. done. Qed.

Lemma bind_answer (c : Run (option Value)) completed (s s' : Machine) w :
  (forall s1 v, c s = (s1, Ok (Some v)) -> s1.2 = []) ->
  (answer ← c; mret (get_or_insert completed answer)) s = (s', Ok w) ->
  w = completed \/ (completed = None /\ s'.2 = []).
Proof.
  intros Hc (s1 & a & Ha & [= <- <-])%bind_ok. destruct completed; [by left|].
  destruct a as [v|]; [right|by left]. split; [done|]. by eapply Hc.
Qed.

Lemma dispatch_answer i completed (s s' : Machine) c :
  dispatch m completed i s = (s', Ok c) -> c = completed \/ (completed = None /\ s'.2 = []).
Proof.
  destruct i; unfold dispatch; try (intros H; left; exact (bind_ret _ _ _ _ _ H)); try discriminate.
  - intros (s1 & answer & _ & H)%bind_ok. refine (bind_answer _ _ _ _ _ _ H).
    intros s2 v. apply finish_frame_empty.
  - apply bind_answer. intros s2 v. apply finish_frame_empty.
Qed.

Lemma spend_kept (s : Machine) : exists going vm, spend s = ((vm, s.2), Ok going) /\ heap vm = heap s.1 /\
  bystanders vm = bystanders s.1.
Proof.
  destruct s as [vm fs]. unfold spend. cbn. destruct (slice_budget vm) as [b|]; [|by eexists _, vm].
  destruct (b =? 0); [by eexists _, vm|]. by eexists _, (with_budget _ vm).
Qed.

Lemma execute_next_quiet completed f rest (s s' : Machine) r :
  frames_ok m (f :: rest) -> s.2 = f :: rest -> bodies_ok m (heap s.1) -> quiet completed s ->
  execute_next m completed s = (s', Ok r) ->
  bystanders s'.1 = bystanders s.1 /\ exists c, r = inl c /\ quiet c s'.
Proof.
  intros Hfs Hs Hg [Hd Hq] Hx.
  destruct (sound_execute_next m Hvalid completed f rest Hfs s Hs Hg) as (_ & Hk & _).
  rewrite Hx in Hk. cbn in Hk. split; [done|]. unfold execute_next in Hx.
  apply bind_ok in Hx as (s1 & i & _ & Hx). apply bind_ok in Hx as (s2 & c & Hi & Hx).
  injection Hx as <- <-. exists c. split; [done|]. injection Hk as Hk _. unfold quiet, drops_ok. rewrite Hk.
  split; [done|]. intros Hc Hne. apply dispatch_answer in Hi as [->|[_ Hi]]; [|done].
  apply Hq; [done|]. by rewrite Hs.
Qed.

Lemma run_pending_quiet completed (s s' : Machine) u :
  live_ok m completed s.2 -> bodies_ok m (heap s.1) -> quiet completed s ->
  (s.2 = [] -> running_drops s.1 = []) -> run_pending_drop m s = (s', Ok u) ->
  initializing_constants s'.1 = initializing_constants s.1 /\ quiet completed s'.
Proof.
  intros [Hfs _] Hg [Hd Hq] He Hr. unfold run_pending_drop in Hr.
  apply bind_ok in Hr as (s1 & ? & [= <- <-] & Hr). destruct (glued_take_pending _ _ Hg) as [Hg' Hpd].
  destruct (take_pending_drop (heap s.1)) as [h [pd|]]; [|by injection Hr as <- _]. cbn in Hg', Hpd.
  apply bind_ok in Hr as (s2 & ? & Hb & Hr). apply bind_ok in Hr as (s3 & ? & [= <- <-] & [= <- _]).
  destruct (sound_enter_drop_body m Hvalid s.2 pd h Hg' (Hpd _ eq_refl) Hfs s eq_refl Hg)
    as (_ & Hk & _ & Hf). rewrite Hb in Hk, Hf. cbn in Hk, Hf. destruct Hf as (_ & f & Hf).
  injection Hk as Hk1 Hk2. split; [done|]. unfold quiet, drops_ok. cbn. rewrite Hk1, Hf. cbn. split.
  - constructor; [cbn; lia|done].
  - intros Hc _. destruct s.2 as [|f0 rest] eqn:Hs.
    + rewrite He by done. by eexists.
    + destruct (Hq Hc ltac:(done)) as [id Hl]. exists id. by destruct (running_drops s.1).
Qed.

(** What a turn does to them. *)
Definition still (completed : option Value) (s s' : Machine) (r : option Value + Dispatched) : Prop :=
  initializing_constants s'.1 = initializing_constants s.1 /\
  match r with
  | inl c => quiet c s'
  | inr (Completed _) => running_drops s'.1 = []
  | inr Suspended => quiet completed s' /\ (is_Some completed -> s'.2 <> [])
  end.

Lemma free_turn_still completed (s s' : Machine) r :
  live_ok m completed s.2 -> bodies_ok m (heap s.1) -> spends completed s = false -> quiet completed s ->
  free_turn m completed (settled_machine s) = (s', Ok r) -> still completed s s' r.
Proof.
  intros Hl Hg Hsp Hq Ht. pose proof (settled_quiet _ _ Hq) as [Hq' He].
  assert (initializing_constants (settled_machine s).1 = initializing_constants s.1) as Hi by apply finish_drops_flag.
  unfold free_turn in Ht. apply bind_ok in Ht as (s1 & ? & [= <- <-] & Ht).
  unfold spends in Hsp. destruct (owes_drops _).
  - apply bind_ok in Ht as (s2 & u & Hr & [= <- <-]). unfold still.
    destruct (run_pending_quiet completed (settled_machine s) s2 u) as [Hi' Hq2]; try done.
    + by apply (settled_ok m).
    + by rewrite Hi'.
  - destruct (owes_native_state _); [done|]. injection Ht as <- <-. split; [done|]. cbn in Hsp. apply He.
    destruct completed; [|done]. by destruct s.2.
Qed.

Lemma turn_still completed (s s' : Machine) r :
  live_ok m completed s.2 -> bodies_ok m (heap s.1) -> quiet completed s ->
  turn m completed s = (s', Ok r) -> still completed s s' r.
Proof.
  intros Hl Hg Hq Ht. destruct (spends completed s) eqn:Hsp.
  2: { rewrite turn_free in Ht by done. by eapply free_turn_still. }
  rewrite turn_spends in Ht by done. pose proof (settled_quiet _ _ Hq) as [Hq' _].
  apply (settled_ok m) in Hg.
  assert (initializing_constants (settled_machine s).1 = initializing_constants s.1) as Hi by apply finish_drops_flag.
  destruct (spend_kept (settled_machine s)) as (going & vm & Hs & Hh & Hk). rewrite Hs in Ht.
  injection Hk as Hk1 Hk2. pose proof (eq_trans Hk2 Hi) as Hvi. clear Hk2.
  change (settled_machine s).2 with s.2 in *.
  assert (quiet completed (vm, s.2)) as Hqv by (destruct Hq'; unfold quiet, drops_ok; cbn; by rewrite Hk1).
  unfold spends in Hsp. apply andb_true_iff in Hsp as [_ Hsp]. destruct going.
  - destruct Hl as [Hfs Hne]. destruct (s.2) as [|f rest] eqn:Hf.
    { destruct completed; [done|by destruct (Hne eq_refl)]. }
    destruct (execute_next_quiet completed f rest (vm, f :: rest) s' r) as (Hb & c & -> & Hc);
      [done|done|by rewrite <- Hh in Hg|done|done|].
    injection Hb as _ Hb2. split; [exact (eq_trans Hb2 Hvi)|done].
  - injection Ht as <- <-. split; [exact Hvi|]. split; [done|]. intros [v ->]. cbn in *.
    by destruct s.2.
Qed.

(** ** A run does not see it either *)

Lemma dispatch_inner_more fuel : forall completed s r fuel',
  dispatch_inner fuel m completed s = Some r -> (fuel <= fuel')%nat -> dispatch_inner fuel' m completed s = Some r.
Proof.
  induction fuel as [|fuel IH]; intros completed s r [|fuel'] Hr Hf; try done; [lia|]. cbn [dispatch_inner] in *.
  destruct (turn m completed s) as [s1 [[c|d]|e]]; [|done..]. apply IH; [done|lia].
Qed.

(** Lines written before stay there. *)
Lemma dispatch_inner_written w fuel : forall completed (s : Machine),
  live_ok m completed s.2 -> bodies_ok m (heap s.1) -> budget_ok s ->
  dispatch_inner fuel m completed (shift 0 w s)
  = prod_map (shift 0 w) id <$> dispatch_inner fuel m completed s.
Proof.
  induction fuel as [|fuel IH]; intros completed s Hl Hg Hb; [done|]. cbn [dispatch_inner].
  rewrite turn_shift by done.
  destruct (turn_safe m Hvalid completed s Hl Hg) as (Hg' & Ht & _). pose proof (turn_budget _ _ Hl Hg Hb) as Hb'.
  destruct (turn m completed s) as [s1 [[c|d]|e]]; cbn in *; [by apply IH|done..].
Qed.

(** What a run leaves alone, and what it leaves when it has its answer. *)
Lemma dispatch_inner_still fuel : forall completed (s s' : Machine) d,
  live_ok m completed s.2 -> bodies_ok m (heap s.1) -> quiet completed s ->
  dispatch_inner fuel m completed s = Some (s', Ok d) ->
  initializing_constants s'.1 = initializing_constants s.1 /\
  (d <> Suspended -> running_drops s'.1 = []).
Proof.
  induction fuel as [|fuel IH]; intros completed s s' d Hl Hg Hq Hr; [done|]. cbn [dispatch_inner] in Hr.
  destruct (turn_safe m Hvalid completed s Hl Hg) as (Hg' & Ht & _).
  destruct (turn m completed s) as [s1 [[c|d1]|e]] eqn:Hturn; cbn in *; [| |done];
    apply turn_still in Hturn as [Hi Hd]; try done.
  - destruct (IH c s1 s' d Ht Hg' Hd Hr) as [Hi' Hd']. by rewrite Hi'.
  - injection Hr as <- <-. split; [done|]. by destruct d1.
Qed.

(** A suspended run goes on as the run with the longer slice does; [c] is what the
    run held as its answer where it stopped. *)
Lemma dispatch_inner_resumed k fuel : 0 <= k -> forall completed (s s1 : Machine),
  live_ok m completed s.2 -> bodies_ok m (heap s.1) -> budget_ok s -> quiet completed s ->
  dispatch_inner fuel m completed s = Some (s1, Ok Suspended) ->
  exists c, (quiet c s1 /\ (is_Some c -> s1.2 <> [])) /\ forall fuel' r,
    dispatch_inner fuel' m c (shift k [] s1) = Some r ->
    dispatch_inner (fuel + fuel') m completed (shift k [] s) = Some r.
Proof.
  intros Hk. induction fuel as [|fuel IH]; intros completed s s1 Hl Hg Hb Hq Hr; [done|]. cbn [dispatch_inner] in Hr.
  destruct (turn_safe m Hvalid completed s Hl Hg) as (Hg' & Ht & _). pose proof (turn_budget _ _ Hl Hg Hb) as Hb'.
  destruct (turn m completed s) as [s2 [[c|d]|e]] eqn:Hturn; cbn in *; [|simplify_eq|done];
    pose proof (turn_still _ _ _ _ Hl Hg Hq Hturn) as [_ Hd].
  - destruct (IH c s2 s1 Ht Hg' Hb' Hd Hr) as (c1 & Hq1 & Hc). exists c1. split; [done|]. intros fuel' r Hr'.
    rewrite turn_shift; [|done..|].
    + rewrite Hturn. cbn. by apply Hc.
    + intros Hsp Hz. exfalso. rewrite turn_spends in Hturn by done. unfold spend in Hturn.
      rewrite settled_budget, Hz in Hturn. by simplify_eq.
  - apply turn_suspended in Hturn as (Hsp & Hz & ->). exists completed. split; [done|]. intros fuel' r Hr'.
    destruct fuel' as [|fuel']; [done|]. cbn [dispatch_inner] in Hr'.
    rewrite <- settled_shift, turn_settled in Hr'.
    destruct (turn m completed (shift k [] s)) as [s2 [[c|d]|e]]; [|done..].
    eapply dispatch_inner_more; [exact Hr'|lia].
Qed.

(** ** Entries *)

Lemma dispatch_frames_more fuel fuel' entry s r :
  dispatch_frames fuel m entry s = Some r -> (fuel <= fuel')%nat -> dispatch_frames fuel' m entry s = Some r.
Proof.
  unfold dispatch_frames. intros Hr Hf.
  destruct (dispatch_inner fuel _ _ _) as [r1|] eqn:Hd; [|done]. by rewrite (dispatch_inner_more _ _ _ _ _ Hd Hf).
Qed.

Lemma enter_ready_more fuel fuel' index args s r :
  enter_ready fuel m index args s = Some r -> (fuel <= fuel')%nat -> enter_ready fuel' m index args s = Some r.
Proof.
  unfold enter_ready, run. intros Hr Hf. destruct (on_stop _ _ s) as [s1 [f|e]]; [|done].
  case_decide; [done|]. destruct (dispatch_frames fuel _ _ _) as [r1|] eqn:Hd; [|done].
  by rewrite (dispatch_frames_more _ _ _ _ _ Hd Hf).
Qed.

Lemma fill_constants_more fuel fuel' inits : forall s r,
  fill_constants fuel m inits s = Some r -> (fuel <= fuel')%nat -> fill_constants fuel' m inits s = Some r.
Proof.
  induction inits as [|init inits IH]; intros s r Hr Hf; cbn [fill_constants] in *; [done|].
  case_decide; [|done]. destruct (enter_ready fuel _ _ _ _) as [r1|] eqn:He; [|done].
  rewrite (enter_ready_more _ _ _ _ _ _ He Hf). destruct r1 as [s1 [v|e]]; [by apply IH|done].
Qed.

Lemma ensure_constants_more fuel fuel' s r :
  ensure_constants fuel m s = Some r -> (fuel <= fuel')%nat -> ensure_constants fuel' m s = Some r.
Proof.
  unfold ensure_constants. intros Hr Hf. case_match; [done|]. cbn zeta in *.
  destruct (fill_constants fuel _ _ _) as [r1|] eqn:He; [|done]. by rewrite (fill_constants_more _ _ _ _ _ He Hf).
Qed.

(** Constants are not initialised on the slice. *)
Lemma ensure_constants_shift k fuel s :
  ensure_constants fuel m (shift k [] s) = prod_map (shift k []) id <$> ensure_constants fuel m s.
Proof.
  destruct s as [vm fs]. unfold ensure_constants, shift, moved. cbn.
  destruct (initializing_constants vm || _); [done|].
  match goal with |- match ?a with _ => _ end = _ <$> match ?b with _ => _ end =>
    assert (a = b) as -> by reflexivity; destruct b as [[[after frames] r]|]; [|done] end.
  done.
Qed.

Lemma unwind_shift k w s : unwind m (shift k w s) = shift k w (unwind m s).
Proof. done. Qed.

Lemma dispatch_frames_written w fuel entry (s : Machine) :
  live_ok m None (option_list entry ++ s.2) -> bodies_ok m (heap s.1) -> budget_ok s ->
  dispatch_frames fuel m entry (shift 0 w s) = prod_map (shift 0 w) id <$> dispatch_frames fuel m entry s.
Proof.
  intros Hl Hg Hb. unfold dispatch_frames.
  change ((shift 0 w s).1, option_list entry ++ (shift 0 w s).2) with (shift 0 w (s.1, option_list entry ++ s.2)).
  rewrite dispatch_inner_written by done.
  destruct (dispatch_inner fuel _ _ _) as [[s1 [[v|]|[e| | |]]]|]; try done.
Qed.

Lemma dispatch_frames_resumed k fuel entry (s s1 : Machine) :
  0 <= k -> live_ok m None (option_list entry ++ s.2) -> bodies_ok m (heap s.1) -> budget_ok s ->
  drops_ok s -> dispatch_frames fuel m entry s = Some (s1, Ok Suspended) -> running_drops s1.1 = [] ->
  initializing_constants s1.1 = initializing_constants s.1 /\
  forall fuel' r, dispatch_frames fuel' m None (shift k [] s1) = Some r ->
    dispatch_frames (fuel + fuel') m entry (shift k [] s) = Some r.
Proof.
  intros Hk Hl Hg Hb Hd Hr Hn. unfold dispatch_frames in Hr.
  destruct (dispatch_inner fuel m None (s.1, option_list entry ++ s.2)) as [[s2 r2]|] eqn:Hi; [|done].
  assert (r2 = Ok Suspended /\ s2 = s1) as [-> ->] by (destruct r2 as [[]|[]]; by simplify_eq).
  assert (quiet None (s.1, option_list entry ++ s.2)) as Hq by (split; [done|by intros []]).
  split; [by destruct (dispatch_inner_still fuel None (s.1, option_list entry ++ s.2) s1 Suspended Hl Hg Hq Hi) as [Hini _]|].
  destruct (dispatch_inner_resumed k fuel Hk None (s.1, option_list entry ++ s.2) s1) as (c & [Hc Hne] & Hgo); try done.
  assert (c = None) as ->.
  { destruct c as [v|]; [|done]. destruct Hc as [_ Hc]. destruct (Hc ltac:(done) (Hne ltac:(done))) as [i Hl'].
    by rewrite Hn in Hl'. }
  intros fuel' r Hr'. unfold dispatch_frames in *. cbn [option_list app] in Hr'.
  change ((shift k [] s).1, option_list entry ++ (shift k [] s).2) with (shift k [] (s.1, option_list entry ++ s.2)).
  destruct (dispatch_inner fuel' m None _) as [r2|] eqn:Hd2; [|done].
  replace ((shift k [] s1).1, (shift k [] s1).2) with (shift k [] s1) in Hd2 by by destruct s1.
  by rewrite (Hgo _ _ Hd2).
Qed.

Lemma dispatch_frames_suspended fuel entry (s s1 : Machine) :
  dispatch_frames fuel m entry s = Some (s1, Ok Suspended) -> slice_budget s1.1 = Some 0.
Proof.
  unfold dispatch_frames. intros Hr.
  assert (dispatch_inner fuel m None (s.1, option_list entry ++ s.2) = Some (s1, Ok Suspended)) as Hi
    by (destruct (dispatch_inner _ _ _ _) as [[s2 [[]|[]]]|]; by simplify_eq). clear Hr. revert Hi.
  generalize (None : option Value), (s.1, option_list entry ++ s.2).
  induction fuel as [|fuel IH]; intros c s0 Hi; [done|]. cbn [dispatch_inner] in Hi.
  destruct (turn m c s0) as [s2 [[c2|d]|e]] eqn:Ht; [by eapply IH| |done]. injection Hi as -> ->.
  apply turn_suspended in Ht as (_ & Hz & ->). by rewrite settled_budget.
Qed.

(** A run that ends has no use for a longer slice. *)
Lemma dispatch_inner_ended k fuel : 0 <= k -> forall completed (s s' : Machine) r,
  live_ok m completed s.2 -> bodies_ok m (heap s.1) -> budget_ok s ->
  dispatch_inner fuel m completed s = Some (s', r) -> r <> Ok Suspended ->
  dispatch_inner fuel m completed (shift k [] s) = Some (shift k [] s', r).
Proof.
  intros Hk. induction fuel as [|fuel IH]; intros completed s s' r Hl Hg Hb Hr Hn; [done|]. cbn [dispatch_inner] in *.
  destruct (turn_safe m Hvalid completed s Hl Hg) as (Hg' & Ht & _). pose proof (turn_budget _ _ Hl Hg Hb) as Hb'.
  rewrite turn_shift; [|done..|].
  - destruct (turn m completed s) as [s1 [[c|d]|e]]; cbn in *; [by apply IH|by simplify_eq..].
  - intros Hsp Hz. exfalso. rewrite turn_spends in Hr by done. unfold spend in Hr.
    rewrite settled_budget, Hz in Hr. cbn in Hr. by simplify_eq.
Qed.

Lemma dispatch_frames_ended k fuel entry (s s' : Machine) r :
  0 <= k -> live_ok m None (option_list entry ++ s.2) -> bodies_ok m (heap s.1) -> budget_ok s ->
  dispatch_frames fuel m entry s = Some (s', r) -> r <> Ok Suspended ->
  dispatch_frames fuel m entry (shift k [] s) = Some (shift k [] s', r).
Proof.
  intros Hk Hl Hg Hb Hr Hn. unfold dispatch_frames in *.
  change ((shift k [] s).1, option_list entry ++ (shift k [] s).2) with (shift k [] (s.1, option_list entry ++ s.2)).
  destruct (dispatch_inner fuel m None (s.1, option_list entry ++ s.2)) as [[s2 r2]|] eqn:Hi; [|done].
  assert (r2 = r) as -> by (destruct r2 as [[]|[]]; by simplify_eq).
  rewrite (dispatch_inner_ended k fuel Hk None (s.1, option_list entry ++ s.2) s2 r Hl Hg Hb Hi Hn).
  destruct r as [[]|[]]; by simplify_eq.
Qed.

(** ** Entering on a slice *)

(** No user [Drop] body runs. *)
Definition clear (s : Machine) : Prop := running_drops s.1 = [].

Lemma clear_drops s : clear s -> drops_ok s.
Proof. unfold clear, drops_ok. by intros ->. Qed.

Lemma take_frame_shift k index (s : Machine) : s.2 = [] -> bodies_ok m (heap s.1) ->
  take_frame m index (shift k [] s) = (shift k [] (take_frame m index s).1, (take_frame m index s).2) /\
  bystanders (take_frame m index s).1.1 = bystanders s.1 /\
  slice_budget (take_frame m index s).1.1 = slice_budget s.1.
Proof.
  intros Hs Hg. pose proof (sound_take_frame m index (fun fs => fs = [])) as Hc.
  destruct (sound_result m _ _ _ s Hc Hs Hg) as (_ & Hb & _). destruct (Hc s Hs Hg) as (Hm & Hk & _).
  split_and!; [|done|done]. unfold shift at 1. by rewrite Hm, shift_budget.
Qed.

Lemma enter_ready_clear fuel index g args (s s' : Machine) v :
  at_index (functions m) index g -> execution g <> Native -> ready m s -> clear s ->
  enter_ready fuel m index args s = Some (s', Ok v) -> clear s'.
Proof.
  intros Hat Hn (Hg & Hfs & Hb) Hd Hr. unfold enter_ready in Hr.
  destruct (on_stop _ _ s) as [s1 [f|e]] eqn:Ht; [|done].
  assert (take_frame m index s = (s1, Ok f)) as Htf.
  { unfold on_stop in Ht. by destruct (take_frame m index s) as [s2 [f2|[]]]. }
  destruct (sound_take_frame m index (fun fs => fs = []) s Hfs Hg) as (_ & Hk & Hg1 & Ho).
  rewrite Htf in Hk, Hg1, Ho. cbn in Hk, Hg1, Ho. destruct Ho as (Hfs1 & g' & Hf).
  assert (g' = g) as -> by (eapply (function_of m); [exact Hat|]; by destruct Hf).
  case_decide as Hlen; [by apply (inj Some) in Hr|]. unfold run in Hr. cbn zeta in Hr.
  destruct (bind_args_frame m Hvalid index g f args Hf Hn ltac:(lia)) as [Hfr Hwb].
  destruct (dispatch_frames _ _ _ _) as [[s2 r2]|] eqn:Hdf; [|done].
  assert (r2 = Ok (Completed v) /\ s2 = s') as [-> ->] by (destruct r2 as [[]|[]]; by simplify_eq).
  unfold dispatch_frames in Hdf. cbn [fst snd option_list app] in Hdf.
  destruct (dispatch_inner _ _ _ _) as [[s3 r3]|] eqn:Hdi; [|done].
  assert (r3 = Ok (Completed v) /\ s3 = s') as [-> ->] by (destruct r3 as [[]|[]]; by simplify_eq).
  eapply dispatch_inner_still in Hdi as [_ Hdi]; [by apply Hdi| |exact Hg1|].
  - cbn. rewrite Hfs1. split; [|done]. apply push_ok; [by destruct Hfr; split|done|by split].
  - injection Hk as Hk _. split; [|by intros []]. unfold drops_ok. cbn. rewrite Hk, Hd. constructor.
Qed.

Lemma fill_constants_clear fuel inits : forall (s s' : Machine) u,
  Forall (fun init => exists g, bytecode m init g) inits -> ready m s -> clear s ->
  fill_constants fuel m inits s = Some (s', Ok u) -> clear s'.
Proof.
  induction inits as [|init inits IH]; intros s s' u Hi Hs Hd Hr; cbn [fill_constants] in Hr; [by simplify_eq|].
  apply Forall_cons in Hi as [(g & Hat & Hn) Hi]. case_decide; [|done].
  destruct (enter_ready fuel m init [] s) as [[s1 [v|e]]|] eqn:He; [|done..].
  pose proof (enter_ready_safe m Hvalid _ _ _ _ _ _ _ Hat Hn Hs He) as H1.
  pose proof (enter_ready_clear _ _ _ _ _ _ _ Hat Hn Hs Hd He) as H2.
  by eapply IH; [| | |exact Hr].
Qed.

Lemma ensure_constants_clear fuel (s s' : Machine) u :
  bodies_ok m (heap s.1) -> s.2 = [] -> clear s -> initializing_constants s.1 = false ->
  ensure_constants fuel m s = Some (s', Ok u) -> clear s' /\ initializing_constants s'.1 = false.
Proof.
  intros Hg Hfs Hd Hi Hr. unfold ensure_constants in Hr. case_match; [by simplify_eq|]. cbn zeta in Hr.
  destruct (fill_constants _ _ _ _) as [[[vm fs] r1]|] eqn:Hf; [|done]. injection Hr as <- ->.
  split; [|done]. eapply fill_constants_clear in Hf; [exact Hf|by apply Forall_drop, Hvalid|done|done].
Qed.

Lemma enter_sliced_machine fuel index g (s s1 : Machine) :
  at_index (functions m) index g -> execution g <> Native -> s.2 = [] -> bodies_ok m (heap s.1) ->
  clear s -> initializing_constants s.1 = false ->
  ensure_constants fuel m s = Some (s1, Ok tt) ->
  (s1.2 = [] /\ bodies_ok m (heap s1.1) /\ slice_budget s1.1 = slice_budget s.1) /\
  forall s2 f, take_frame m index s1 = (s2, Ok f) ->
    live_ok m None (f :: s2.2) /\ bodies_ok m (heap s2.1) /\ slice_budget s2.1 = slice_budget s.1 /\
    clear s2 /\ initializing_constants s2.1 = false.
Proof.
  intros Hat Hn Hfs Hg Hd Hi He.
  pose proof (ensure_constants_clear _ _ _ _ Hg Hfs Hd Hi He) as [Hd1 Hi1].
  eapply (ensure_constants_safe m Hvalid) in He as (Hg1 & Hfs1 & Hb1); [|done..]. split; [done|]. intros s2 f Ht.
  destruct (take_frame_shift 0 index s1 Hfs1 Hg1) as (_ & Hk & Hb2).
  destruct (sound_take_frame m index (fun fs => fs = []) s1 Hfs1 Hg1) as (_ & _ & Hg2 & Ho).
  rewrite Ht in *. cbn in *. destruct Ho as (Hfs2 & g' & Hf). injection Hk as Hk1 Hk2.
  assert (g' = g) as -> by (eapply (function_of m); [exact Hat|]; by destruct Hf).
  destruct (bind_args_frame m Hvalid index g f [] Hf Hn ltac:(cbn; lia)) as [[] Hw].
  split_and!; [|done|congruence|unfold clear; congruence|congruence].
  rewrite Hfs2. split; [|done]. apply push_ok; [by split|done|by split].
Qed.

Lemma enter_sliced_resumed k fuel index g (s s1 : Machine) :
  0 <= k -> at_index (functions m) index g -> execution g <> Native -> s.2 = [] -> bodies_ok m (heap s.1) ->
  budget_ok s -> clear s -> initializing_constants s.1 = false ->
  enter_sliced fuel m index s = Some (s1, Ok Suspended) -> clear s1 ->
  initializing_constants s1.1 = false /\
  forall fuel' r, dispatch_frames fuel' m None (shift k [] s1) = Some r ->
    enter_sliced (fuel + fuel') m index (shift k [] s) = Some r.
Proof.
  intros Hk Hat Hn Hfs Hg Hb Hd Hi Hr Hd1. unfold enter_sliced in Hr.
  destruct (ensure_constants fuel m s) as [[s2 [[]|e]]|] eqn:He; [|done..].
  destruct (enter_sliced_machine _ _ _ _ _ Hat Hn Hfs Hg Hd Hi He) as [(Hfs2 & Hg2 & Hb2) Ht].
  destruct (take_frame_shift k index s2 Hfs2 Hg2) as (Hts & _).
  destruct (take_frame m index s2) as [s3 [f|e]]; [|done].
  destruct (Ht s3 f eq_refl) as (Hl3 & Hg3 & Hb3 & Hd3 & Hi3).
  destruct (dispatch_frames_resumed k fuel (Some f) s3 s1) as [Hi1 Hgo]; try done.
  { unfold budget_ok. by rewrite Hb3. }
  { by apply clear_drops. }
  split; [by rewrite Hi1|]. intros fuel' r Hr'. unfold enter_sliced.
  rewrite ensure_constants_shift, (ensure_constants_more _ (fuel + fuel') _ _ He) by lia.
  cbn [fmap option_fmap option_map prod_map id fst snd]. rewrite Hts. cbn [fst snd]. by apply Hgo.
Qed.

Lemma enter_sliced_ended k fuel index g (s s1 : Machine) r :
  0 <= k -> at_index (functions m) index g -> execution g <> Native -> s.2 = [] -> bodies_ok m (heap s.1) ->
  budget_ok s -> clear s -> initializing_constants s.1 = false ->
  enter_sliced fuel m index s = Some (s1, r) -> r <> Ok Suspended ->
  enter_sliced fuel m index (shift k [] s) = Some (shift k [] s1, r).
Proof.
  intros Hk Hat Hn Hfs Hg Hb Hd Hi Hr Hne. unfold enter_sliced in *. rewrite ensure_constants_shift.
  destruct (ensure_constants fuel m s) as [[s2 [[]|e]]|] eqn:He; [|by simplify_eq|done].
  cbn [fmap option_fmap option_map prod_map id fst snd].
  destruct (enter_sliced_machine _ _ _ _ _ Hat Hn Hfs Hg Hd Hi He) as [(Hfs2 & Hg2 & Hb2) Ht].
  destruct (take_frame_shift k index s2 Hfs2 Hg2) as (Hts & _). rewrite Hts.
  destruct (take_frame m index s2) as [s3 [f|e]]; [|by simplify_eq]. cbn [fst snd].
  destruct (Ht s3 f eq_refl) as (Hl3 & Hg3 & Hb3 & _).
  apply (dispatch_frames_ended k fuel (Some f)); try done. unfold budget_ok. by rewrite Hb3.
Qed.

(** ** Slices of a fiber *)

(** The machine a slice ends in. *)
Definition slice_machine (fuel : nat) (budget : Z) (x : Fiber) : option (Machine * result Stop Dispatched) :=
  let s := fiber_machine budget x in
  if fb_started x then resume_sliced fuel m s else enter_sliced fuel m (fb_function x) s.

(** What a slice that ends in [s] gives. *)
Definition slice_end (function : Z) (s : Machine) (r : result Stop Dispatched) :
    Fiber * (list rstring * list Z) * result Stop FiberStep :=
  match r with
  | Ok Suspended => (fiber_of function false s, (written s.1, []), Ok FiberSuspended)
  | Ok (Completed answer) =>
    let '(s, tokens) := release_undelivered (release_constants s.1, s.2) in
    let s := (with_heap (drop_value answer (heap s.1)) s.1, s.2) in
    (fiber_of function true s, (written s.1, tokens), Ok FiberFinished)
  | Err e =>
    let '(s, tokens) := release_undelivered s in
    (fiber_of function true s, (written s.1, tokens), Err e)
  end.

Lemma fiber_step_slice fuel budget x : fb_finished x = false ->
  fiber_step fuel m budget x = (fun '(s, r) => slice_end (fb_function x) s r) <$> slice_machine fuel budget x.
Proof.
  intros Hf. unfold fiber_step, slice_machine. rewrite Hf.
  destruct (if fb_started x then _ else _) as [[s [[v|]|e]]|]; [| | |done]; cbn;
    unfold release_undelivered; try done; by destruct (take_undelivered_tokens _).
Qed.

(** The lines [w] put before those a slice wrote. *)
Definition after_lines {A B} (w : list rstring) (x : A * (list rstring * list Z) * B) :
    A * (list rstring * list Z) * B := (x.1.1, (w ++ x.1.2.1, x.1.2.2), x.2).

Lemma slice_end_shift function k w s r :
  slice_end function (shift k w s) r = after_lines w (slice_end function s r).
Proof.
  destruct s as [vm fs], r as [[v|]|e]; try done; cbn; unfold release_undelivered; cbn;
    by destruct (take_undelivered_tokens _).
Qed.

Lemma fiber_machine_shift k budget x : shift k [] (fiber_machine budget x) = fiber_machine (k + budget) x.
Proof. done. Qed.

(** A suspended machine, picked up again from what the fiber keeps of it. *)
Lemma fiber_machine_again function k (s : Machine) :
  slice_budget s.1 = Some 0 -> clear s -> initializing_constants s.1 = false ->
  shift 0 (written s.1) (fiber_machine k (fiber_of function false s)) = shift k [] s.
Proof.
  destruct s as [[] fs]. cbn. intros -> Hd ->. unfold clear in Hd. cbn in Hd. subst.
  unfold shift, moved, fiber_machine, fiber_of, adrift. cbn. by rewrite !app_nil_r, Z.add_0_r.
Qed.

Lemma fiber_machine_budget a x : 0 <= a -> budget_ok (fiber_machine a x).
Proof. intros Ha b [= <-]. done. Qed.

(** Two slices, the first one ending with no user [Drop] body running. *)
Lemma slices_join fuel fuel' a b x s r :
  0 <= a -> 0 <= b -> fiber_ok m x -> fb_finished x = false ->
  slice_machine fuel a x = Some (s, Ok Suspended) -> clear s ->
  fiber_step fuel' m b (fiber_of (fb_function x) false s) = Some r ->
  fiber_step (fuel + fuel') m (a + b) x = Some (after_lines (written s.1) r).
Proof.
  intros Ha Hb Hx Hf Hs Hc Hr. pose proof (fiber_step_slice fuel a x Hf) as Hy. rewrite Hs in Hy. cbn in Hy.
  pose proof (fiber_step_ok m Hvalid _ _ _ _ _ _ Hx Hy) as (_ & Hg1 & Hl1). cbn in Hg1, Hl1.
  destruct Hx as ((g & Hat & Hn) & Hg & Hfs). rewrite Hf in Hfs. cbn in Hfs.
  rewrite fiber_step_slice in Hr by done. unfold slice_machine in Hr. cbn [fb_started fiber_of] in Hr.
  destruct (resume_sliced fuel' m (fiber_machine b (fiber_of (fb_function x) false s))) as [[t r2]|] eqn:Ht; [|done].
  injection Hr as <-. unfold resume_sliced in Ht.
  assert (initializing_constants s.1 = false /\ slice_budget s.1 = Some 0 /\
    forall fuel' r, dispatch_frames fuel' m None (shift b [] s) = Some r ->
      slice_machine (fuel + fuel') (b + a) x = Some r) as (Hi & Hz & Hgo).
  { unfold slice_machine in *. rewrite <- fiber_machine_shift. destruct (fb_started x).
    - destruct (dispatch_frames_resumed b fuel None (fiber_machine a x) s) as [Hi Hgo]; try done.
      + by apply fiber_machine_budget.
      + by constructor.
      + split_and!; [done|by eapply dispatch_frames_suspended|done].
    - destruct (enter_sliced_resumed b fuel (fb_function x) g (fiber_machine a x) s) as [Hi Hgo]; try done.
      + by apply fiber_machine_budget.
      + split_and!; [done| |done]. unfold enter_sliced in Hs.
        destruct (ensure_constants _ _ _) as [[s1 [u|e]]|]; [|done..].
        destruct (take_frame _ _ _) as [s2 [f|e]]; [|done]. by eapply dispatch_frames_suspended. }
  assert (dispatch_frames fuel' m None (shift b [] s) = Some (shift 0 (written s.1) t, r2)) as Hd.
  { rewrite <- (fiber_machine_again (fb_function x)) by done.
    rewrite dispatch_frames_written, Ht; [done|done|done|by apply fiber_machine_budget]. }
  rewrite fiber_step_slice by done. replace (a + b) with (b + a) by lia. rewrite (Hgo _ _ Hd). cbn.
  by rewrite slice_end_shift.
Qed.

Lemma slice_longer fuel k a x z w r :
  0 <= a -> 0 <= k -> fiber_ok m x -> fiber_step fuel m a x = Some (z, w, r) -> r <> Ok FiberSuspended ->
  fiber_step fuel m (a + k) x = Some (z, w, r).
Proof.
  intros Ha Hk Hx Hr Hne. destruct (fb_finished x) eqn:Hf.
  { unfold fiber_step in *. by rewrite Hf in *. }
  rewrite fiber_step_slice in * by done. destruct (slice_machine fuel a x) as [[s r1]|] eqn:Hs; [|done].
  assert (r1 <> Ok Suspended) as Hne1 by (intros ->; cbn in Hr; by simplify_eq).
  destruct Hx as ((g & Hat & Hn) & Hg & Hfs). rewrite Hf in Hfs. cbn in Hfs.
  assert (slice_machine fuel (a + k) x = Some (shift k [] s, r1)) as ->.
  { unfold slice_machine in *. replace (a + k) with (k + a) by lia. rewrite <- fiber_machine_shift.
    destruct (fb_started x).
    - eapply dispatch_frames_ended; try done. by apply fiber_machine_budget.
    - eapply (enter_sliced_ended k fuel (fb_function x) g); try done. by apply fiber_machine_budget. }
  cbn in *. rewrite slice_end_shift. injection Hr as Hr. rewrite Hr. by destruct w.
Qed.

Lemma slice_more fuel fuel' a x r :
  fiber_step fuel m a x = Some r -> (fuel <= fuel')%nat -> fiber_step fuel' m a x = Some r.
Proof.
  intros Hr Hf. destruct (fb_finished x) eqn:Hfin.
  { unfold fiber_step in *. by rewrite Hfin in *. }
  rewrite fiber_step_slice in * by done. destruct (slice_machine fuel a x) as [r1|] eqn:Hs; [|done].
  assert (slice_machine fuel' a x = Some r1) as ->; [|done]. unfold slice_machine, resume_sliced in *.
  destruct (fb_started x); [by eapply dispatch_frames_more|]. unfold enter_sliced in *.
  destruct (ensure_constants fuel m _) as [r2|] eqn:He; [|done].
  rewrite (ensure_constants_more _ _ _ _ He Hf). destruct r2 as [s2 [u|e]]; [|done].
  destruct (take_frame _ _ s2) as [s3 [f|e]]; [|done]. by eapply dispatch_frames_more.
Qed.
End Slices.

(** ** Any number of slices *)

Section Driven.
Context {host : Host} {allocator : Allocator} {hosted : HostChannels}.

(** A fiber driven by one slice and then by others, until it ends or they do, with
    all it wrote. *)
Fixpoint driven (fuel : nat) (m : Module_) (budget : Z) (budgets : list Z) (x : Fiber) :
    option (Fiber * (list rstring * list Z) * result Stop FiberStep) :=
  r ← fiber_step fuel m budget x;
  match r.2, budgets with
  | Ok FiberSuspended, budget :: budgets => after_lines r.1.2.1 <$> driven fuel m budget budgets r.1.1
  | _, _ => Some r
  end.

(** No cut is made while a user [Drop] body runs. *)
Fixpoint cuts_clear (fuel : nat) (m : Module_) (budget : Z) (budgets : list Z) (x : Fiber) : bool :=
  match budgets with
  | [] => true
  | next :: budgets =>
    if fb_finished x then true
    else
      match slice_machine m fuel budget x with
      | Some (s, Ok Suspended) =>
        is_nil (running_drops s.1) && cuts_clear fuel m next budgets (fiber_of (fb_function x) false s)
      | _ => true
      end
  end.

Definition total (budget : Z) (budgets : list Z) : Z := foldr Z.add 0 (budget :: budgets).

(** C21: Preemption is transparent.  A fiber of a validated module driven by any
    slices does, writes, releases and leaves exactly what it does in one slice as
    long as all of them together, provided no slice ends inside a user [Drop]
    body. *)
Theorem slices_are_one_run m fuel budget budgets x r :
  widths_ok m -> tables_fit m -> validate m = Ok tt ->
  fiber_ok m x -> Forall (Z.le 0) (budget :: budgets) ->
  cuts_clear fuel m budget budgets x = true ->
  driven fuel m budget budgets x = Some r ->
  exists fuel', fiber_step fuel' m (total budget budgets) x = Some r.
Proof.
  intros Hw Hf HV%validate_spec; [|done..]. revert budget x r.
  induction budgets as [|next budgets IH]; intros budget x r Hx Hpos Hcut Hr; cbn [driven] in Hr;
    apply Forall_cons in Hpos as [Hb Hpos]; destruct (fiber_step fuel m budget x) as [[[y [w ts]] r1]|] eqn:Hs; try done;
    cbn in Hr.
  - exists fuel. unfold total. cbn [foldr]. rewrite Z.add_0_r. rewrite Hs. destruct r1 as [[]|]; exact Hr.
  - assert (0 <= total next budgets) as Htot.
    { clear -Hpos. unfold total. induction Hpos; cbn [foldr] in *; lia. }
    change (total budget (next :: budgets)) with (budget + total next budgets).
    assert (r1 = Ok FiberSuspended \/ r1 <> Ok FiberSuspended) as [->|Hne] by (destruct r1 as [[]|]; [by left|by right..]).
    + destruct (driven fuel m next budgets y) as [r2|] eqn:Hd; cbn in Hr; [|done]. injection Hr as <-.
      destruct (fb_finished x) eqn:Hfin; [unfold fiber_step in Hs; rewrite Hfin in Hs; discriminate Hs|].
      pose proof (fiber_step_ok m HV _ _ _ _ _ _ Hx Hs) as Hy. cbn in Hy.
      cbn [cuts_clear] in Hcut. rewrite Hfin in Hcut. rewrite fiber_step_slice in Hs by done.
      destruct (slice_machine m fuel budget x) as [[s r1]|] eqn:Hm; [|done]. cbn in Hs.
      assert (r1 = Ok Suspended) as ->.
      { destruct r1 as [[v|]|e]; cbn in Hs; unfold release_undelivered in Hs; try done;
          destruct (take_undelivered_tokens _); by simplify_eq. }
      injection Hs as <- <- <-. apply andb_true_iff in Hcut as [Hc Hcut].
      destruct (IH next (fiber_of (fb_function x) false s) r2) as [fuel' Hgo]; try done.
      exists (fuel + fuel')%nat. eapply slices_join; try done. unfold clear. by destruct (running_drops s.1).
    + exists fuel. assert (r = (y, (w, ts), r1)) as -> by (destruct r1 as [[]|]; [by destruct Hne|by simplify_eq..]).
      by apply slice_longer.
Qed.
End Driven.

(** ** Witnesses *)

#[local] Instance unpublished : HostChannels := {| host_channels := false |}.
#[local] Instance slice_pages : Allocator := {| payload_address n := 4096 * Z.of_nat (S n) |}.

Lemma slices_are_one_run_witness :
  @driven host32 slice_pages unpublished 100 valid_sample 0 [0; 1; 5] (fiber_new 1)
  = @driven host32 slice_pages unpublished 100 valid_sample 6 [] (fiber_new 1) /\
  exists fuel,
    @fiber_step host32 slice_pages unpublished fuel valid_sample 6 (fiber_new 1)
    = @driven host32 slice_pages unpublished 100 valid_sample 0 [0; 1; 5] (fiber_new 1).
Proof.
  split; [vm_compute; reflexivity|].
  destruct (@driven host32 slice_pages unpublished 100 valid_sample 0 [0; 1; 5] (fiber_new 1)) as [r|] eqn:Hr;
    [|vm_compute in Hr; discriminate Hr].
  apply (@slices_are_one_run host32 slice_pages unpublished valid_sample 100 0 [0; 1; 5]);
    [by apply sample_widths; repeat constructor|by apply sample_fit|vm_compute; reflexivity|
    |repeat constructor; lia|vm_compute; reflexivity|exact Hr].
  clear r Hr. split; [|split; [apply glued_new|done]].
  exists {| f_name := [x64]; param_count := 0; local_count := 1; execution := Runtime;
            code := [I_ReturnVoid]; releases := EveryLocal |}.
  split; [by exists 1%nat|discriminate].
Defined.
