(* ===== verification/VmPrograms.v ===== *)
(** Whole modules run by the interpreter: calls, text, user [Drop] bodies, and
    the places where a run leaves more behind than its documentation says. *)

From stdpp Require Import gmap strings.
From S2P Require Import Prelude.
From S2P Require Import AbiOps.
From S2P Require Import Foreign.
From S2P Require Import Instruction.
From S2P Require Import ModuleFormat.
From S2P Require Import Validate.
From S2P Require Import NativeState.
From S2P Require Import Heap.
From S2P Require Import HeapDrops.
From S2P Require Import VmState.
From S2P Require Import VmStep.
From S2P Require Import VmRun.
From S2P Require Import VmEntry.

(** ** Modules *)

#[local] Instance unanswered : HostChannels := {| host_channels := false |}.
#[local] Instance paged : Allocator := {| payload_address n := 4096 * Z.of_nat (S n) |}.

Definition body_of (params slots : Z) (plan : FrameRelease) (code : list Instruction) : FuncProto :=
  {| f_name := []; param_count := params; local_count := slots; execution := Inherited;
     ModuleFormat.code := code; releases := plan |}.

Definition module_of (main : option Z) (texts : list rstring) (constants : list Z) (fs : list FuncProto) : Module_ :=
  {| functions := fs; ModuleFormat.main := main; ModuleFormat.strings := texts; exports := ExportTable_default;
     foreign_imports := []; foreign_aggregates := ForeignAggregates_new; foreign_callbacks := [];
     ModuleFormat.constants := constants; types := [] |}.

(** What an execution answers, with the objects its heap still holds. *)
Definition ran (fuel : nat) (m : Module_) : option (result Stop (Value * nat)) :=
  '(_, _, r) ← @execute host64 paged unanswered fuel m;
  Some (match r with Ok o => Ok (ro_result o, st_current (ro_heap o)) | Err e => Err e end).

(** What a call on a new instance answers, and the objects still live once the
    instance is finished. *)
Definition called (fuel : nat) (m : Module_) (function : Z) (args : list NativeArg) :
    option (result Stop NativeResult * nat) :=
  '(x, _, r) ← @instance_call host64 paged unanswered fuel m function args instance_new;
  Some (r, st_current (finish x)).

(** A fiber stepped [slices] times with one budget: how it ended, and the
    objects its heap still holds. *)
Fixpoint stepped (slices fuel : nat) (m : Module_) (budget : Z) (x : Fiber) :
    option (result Stop FiberStep * nat) :=
  match slices with
  | O => None
  | S slices =>
    '(x, _, r) ← @fiber_step host64 paged unanswered fuel m budget x;
    match r with
    | Ok FiberSuspended => stepped slices fuel m budget x
    | r => Some (r, st_current (stats (fb_heap x)))
    end
  end.

(** [fact n = if n <= 1 then 1 else n * fact (n - 1)], and a caller. *)
Definition factorial : Module_ := module_of (Some 1) [] [] [
  body_of 1 1 (Planned []) [
    I_LoadLocal 0; I_ConstInt 1; I_LeInt; I_JumpIfFalse 6; I_ConstInt 1; I_Return;
    I_LoadLocal 0; I_LoadLocal 0; I_ConstInt 1; I_SubInt; I_Call 0; I_MulInt; I_Return];
  body_of 0 0 (Planned []) [I_ConstInt 20; I_Call 0; I_Return]].

(** The argument of function 0 is text, and function 0 divides by zero. *)
Definition trap_with_argument : Module_ := module_of None [] [] [
  body_of 1 1 (Planned []) [I_ConstInt 1; I_ConstInt 0; I_DivInt; I_Pop; I_ReturnVoid]].

(** A constant whose value is text, and a function that does nothing. *)
Definition text_constant : Module_ := module_of None [[x68; x69]] [0] [
  body_of 0 0 (Planned []) [I_ConstStr 0; I_Return];
  body_of 0 0 (Planned []) [I_ReturnVoid]].

(** Function 0 makes a struct whose [Drop] body is function 1, lets it go and
    adds two numbers around it. *)
Definition drop_between : Module_ := module_of (Some 0) [] [] [
  body_of 0 0 (Planned []) [
    I_ConstInt 1; I_NewStructDropping 0 1; I_Pop; I_ConstInt 2; I_AddInt; I_Return];
  body_of 1 1 (Planned []) [I_ConstVoid; I_Pop; I_ReturnVoid]].

(** An entrypoint that belongs to the native half. *)
Definition native_main : Module_ := module_of (Some 0) [] [] [
  {| f_name := []; param_count := 0; local_count := 0; execution := Native;
     ModuleFormat.code := []; releases := EveryLocal |}].

(** ** Runs *)

(** Recursion: 21 frames deep, the answer 20!. *)
Example factorial_of_twenty :
  validate (host := host64) factorial = Ok tt /\
  ran 1000 factorial = Some (Ok (V_Int 2432902008176640000, 0%nat)).
Proof. vm_compute. by split. Qed.


(** [finish] does not always balance.  A trap in a function that was handed
    text leaves the argument behind, since the unwind releases no parameters,
    and a module with a constant on the heap leaves the constant behind, since
    an instance that is finished does not release its constants. *)
Theorem finish_leaves_objects :
  validate (host := host64) trap_with_argument = Ok tt /\
  called 100 trap_with_argument 0 [NA_Str [x68]] = Some (Err (Trap E_DivideByZero), 1%nat) /\
  validate (host := host64) text_constant = Ok tt /\
  called 100 text_constant 1 [] = Some (Ok NR_Void, 1%nat).
Proof. vm_compute. by split_and!. Qed.

(** Validation accepts a native entrypoint, and executing the module then
    indexes its empty body. *)
Theorem native_main_panics :
  validate (host := host64) native_main = Ok tt /\
  ran 100 native_main = Some (Err Panics).
Proof. vm_compute. by split. Qed.
