(* ===== verification/CompileRun.v ===== *)
(** * Compiled programs on the interpreter

    [compile_with] and [execute] together: what the compiler makes of a program
    that keeps the front end's promises runs without a panic of the
    interpreter. *)

From stdpp Require Import gmap strings.
From S2P Require Import Prelude.
From S2P Require Import Instruction.
From S2P Require Import ModuleFormat.
From S2P Require Import Validate.
From S2P Require Import Types.
From S2P Require Import Ir.
From S2P Require Import Compile.
From S2P Require Import CompileRules.
From S2P Require Import CompileProgram.
From S2P Require Import Heap.
From S2P Require Import VmState.
From S2P Require Import VmRun.
From S2P Require Import VmEntry.
From S2P Require Import VmEntrySafe.

(** C8: A program that keeps the front end's promises and whose entrypoint is bytecode
    compiles, and running the module answers, traps or leaves the model: no
    operand, jump, slot or frame of the compiled code can make the interpreter
    panic. *)
Theorem compiled_never_panics {host : Host} {allocator : Allocator} {channels : HostChannels}
    (n fuel : nat) (p : IrProgram) (engines : list Execution) (entry : Z) (f : IrFunction) (run_fuel : nat) :
  program_ok n p engines -> (n <= fuel)%nat -> ir_main p = Some entry -> enterable p engines entry f ->
  exists m, build_module fuel p engines = Ok m /\
    (tables_fit m -> compile_with fuel p engines = Ok m /\
      forall s tokens r, VmEntry.execute run_fuel m = Some (s, tokens, r) -> r <> Err Panics).
Proof.
  intros Hp Hfuel Hmain Hentry. destruct (build_module_ok n p engines Hp fuel Hfuel) as (m & Hb & Hm).
  exists m. split; [done|]. intros Hfit.
  pose proof (valid_built n p engines Hp m Hm) as Hv. pose proof (widths_hold n p engines Hp m Hm Hfit) as Hw.
  assert (validate m = Ok tt) as Hok by by apply validate_spec.
  split; [unfold compile_with; rewrite Hb; cbn; by rewrite Hok|].
  intros s tokens r Hr. unfold VmEntry.execute in Hr. rewrite Hok in Hr. eapply execute_ok; [exact Hv| |exact Hr].
  intros i g Hi Hat. rewrite (bt_main p engines m Hm), Hmain in Hi. injection Hi as <-.
  destruct (enterable_built p engines m Hm entry f Hentry) as (g' & [Hat' Hn] & _). by rewrite (at_index_inj _ _ _ _ Hat Hat').
Qed.

#[local] Instance unanswered : HostChannels := {| host_channels := false |}.
#[local] Instance paged : Allocator := {| payload_address n := 4096 * Z.of_nat (S n) |}.

(** The sample prints its line once, and nothing is left on its heap. *)
Lemma compiled_never_panics_witness : exists m,
  @compile_with host64 9 compile_sample [Runtime] = Ok m /\
  match @VmEntry.execute host64 paged unanswered 100 m with
  | Some (s, _, r) => written s.1 = [[x68]] /\ (exists o, r = Ok o /\ ro_result o = V_Void) /\ r <> Err Panics
  | None => False
  end.
Proof.
  destruct (@compiled_never_panics host64 paged unanswered 4 9 compile_sample [Runtime] 0
    (hd (Build_IrFunction [] 0 [] [] T_Void Runtime false [] [] []) (ir_functions compile_sample)) 100
    compile_sample_ok ltac:(lia) eq_refl) as (m & Hb & Hrun); [split; [split; lia|split; [reflexivity|discriminate]]|].
  exists m. vm_compute in Hb. injection Hb as Hm.
  destruct Hrun as [Hc Hsafe].
  { subst m. repeat split; cbn; try lia. constructor; [|constructor]. split; cbn; [lia|].
    intros order glue Hin. exfalso. repeat (apply elem_of_cons in Hin as [Hin|Hin]; [discriminate|]). by apply not_elem_of_nil in Hin. }
  split; [exact Hc|]. destruct (@VmEntry.execute host64 paged unanswered 100 m) as [[[s tokens] r]|] eqn:Hr.
  - split_and!; [| |by eapply Hsafe]; clear Hsafe Hc; subst m; vm_compute in Hr; injection Hr as <- _ <-; [reflexivity|by eexists].
  - clear Hsafe Hc. subst m. vm_compute in Hr. discriminate Hr.
Defined.
