(* ===== verification/IrEval.v ===== *)
(** * A reference meaning of scalar programs

    What the integer and boolean part of the lowered language means, over the
    values integers stand for and not over instructions: an operation computes on
    the operands' values, and one whose answer its spelling does not hold is a
    fault.  The compiler is measured against it in [CompileSound].

    Outside the fragment, and where a program has no meaning (a local that was
    never bound, operands of the wrong kind, fuel that is not enough), the
    evaluator is [Stuck] and nothing is claimed. *)

From stdpp Require Import gmap.
From S2P Require Import Prelude.
From S2P Require Import IntWidth.
From S2P Require Import Types.
From S2P Require Import Ir.

(** An integer is the word that carries it. *)
Inductive Scalar := SInt (word : Z) | SBool (b : bool).

Inductive Answer (A : Type) := Gives (a : A) | Faults | Stuck.
Arguments Gives {A} a.
Arguments Faults {A}.
Arguments Stuck {A}.

#[export] Instance answer_bind : MBind Answer := fun _ _ f a =>
  match a with Gives a => f a | Faults => Faults | Stuck => Stuck end.
#[export] Instance answer_ret : MRet Answer := fun _ => Gives.

Definition want_int (v : Scalar) : Answer Z := match v with SInt w => Gives w | SBool _ => Stuck end.
Definition want_bool (v : Scalar) : Answer bool := match v with SBool b => Gives b | SInt _ => Stuck end.

(** ** Operators *)

(** The word of a value, if the spelling holds it. *)
Definition exactly (s : IntSpelling) (v : Z) : Answer Scalar :=
  if holds (width s) v then Gives (SInt (word_of (width s) v)) else Faults.

(** A word modulo the spelling's width, read as the spelling reads it. *)
Definition wrapped (s : IntSpelling) (v : Z) : Answer Scalar := Gives (SInt (wrap (width s) (swrap 64 v))).

Definition divided_by (b : Z) (a : Answer Scalar) : Answer Scalar := if b =? 0 then Faults else a.

Definition shifted (s : IntSpelling) (count : Z) (a : Answer Scalar) : Answer Scalar :=
  if (0 <=? count) && (count <? spelling_bits s) then a else Faults.

Definition int_op (op : IrBinOp) (s : IntSpelling) (a b : Z) : Answer Scalar :=
  let va := value_of (width s) a in
  let vb := value_of (width s) b in
  match op with
  | AddInt => exactly s (va + vb)
  | SubInt => exactly s (va - vb)
  | MulInt => exactly s (va * vb)
  | WrappingAddInt => wrapped s (va + vb)
  | WrappingSubInt => wrapped s (va - vb)
  | WrappingMulInt => wrapped s (va * vb)
  | DivInt => if is_signed (width s) then divided_by vb (exactly s (Z.quot va vb)) else Stuck
  | RemInt => if is_signed (width s) then divided_by vb (Gives (SInt (Z.rem va vb))) else Stuck
  | DivUInt => divided_by b (Gives (SInt (swrap 64 (uwrap 64 a / uwrap 64 b))))
  | RemUInt => divided_by b (Gives (SInt (swrap 64 (uwrap 64 a mod uwrap 64 b))))
  | BitAnd => Gives (SInt (Z.land a b))
  | BitOr => Gives (SInt (Z.lor a b))
  | BitXor => Gives (SInt (Z.lxor a b))
  | Shl => shifted s b (wrapped s (a * 2 ^ b))
  | ShrInt => shifted s b (Gives (SInt (a / 2 ^ b)))
  | ShrUInt => shifted s b (Gives (SInt (swrap 64 (uwrap 64 a / 2 ^ b))))
  | EqInt => Gives (SBool (a =? b))
  | NeInt => Gives (SBool (negb (a =? b)))
  | LtInt => Gives (SBool (a <? b))
  | LeInt => Gives (SBool (a <=? b))
  | GtInt => Gives (SBool (b <? a))
  | GeInt => Gives (SBool (b <=? a))
  | LtUInt => Gives (SBool (uwrap 64 a <? uwrap 64 b))
  | LeUInt => Gives (SBool (uwrap 64 a <=? uwrap 64 b))
  | GtUInt => Gives (SBool (uwrap 64 b <? uwrap 64 a))
  | GeUInt => Gives (SBool (uwrap 64 b <=? uwrap 64 a))
  | _ => Stuck
  end.

Definition bool_op (op : IrBinOp) (a b : bool) : Answer Scalar :=
  match op with
  | EqBool => Gives (SBool (eqb a b))
  | NeBool => Gives (SBool (negb (eqb a b)))
  | _ => Stuck
  end.

Definition binary_op (op : IrBinOp) (ty : Ty) (a b : Scalar) : Answer Scalar :=
  match ty, a, b with
  | T_Int s, SInt a, SInt b => int_op op s a b
  | T_Bool, SBool a, SBool b => bool_op op a b
  | _, _, _ => Stuck
  end.

(** Negation of an unsigned word is left out: the compiler checks it as if it
    were signed. *)
Definition unary_op (op : IrUnOp) (ty : Ty) (a : Scalar) : Answer Scalar :=
  match op, ty, a with
  | NegInt, T_Int s, SInt a =>
    match s with Spell_U64 => Stuck | _ => exactly s (- a) end
  | BitNot, _, SInt a => Gives (SInt (Z.lnot a))
  | Not, _, SBool a => Gives (SBool (negb a))
  | _, _, _ => Stuck
  end.

(** A conversion of a word its own spelling holds. *)
Definition convert_op (from to : IntSpelling) (a : Z) : Answer Scalar :=
  let v := value_of (width from) a in
  if holds Plain a && holds (width from) v then exactly to v else Stuck.

(** ** Expressions and statements *)

Abbreviation Env := (gmap Z Scalar) (only parsing).

Section Eval.
Context (p : IrProgram) (f : IrFunction).

Fixpoint eval (fuel : nat) (rho : Env) (id : IrExprId) : Answer Scalar :=
  match fuel with
  | O => Stuck
  | S fuel =>
    match exprs p !! id with
    | Some (E_Int value) => Gives (SInt value)
    | Some (E_Bool value) => Gives (SBool value)
    | Some (E_Local slot) => match rho !! slot with Some v => Gives v | None => Stuck end
    | Some (E_Unary op operand ty) => a ← eval fuel rho operand; unary_op op ty a
    | Some (E_Binary And lhs rhs _) =>
      a ← eval fuel rho lhs; a ← want_bool a;
      if a : bool then b ← eval fuel rho rhs; b ← want_bool b; mret (SBool b) else mret (SBool false)
    | Some (E_Binary Or lhs rhs _) =>
      a ← eval fuel rho lhs; a ← want_bool a;
      if a : bool then mret (SBool true) else b ← eval fuel rho rhs; b ← want_bool b; mret (SBool b)
    | Some (E_Binary op lhs rhs ty) => a ← eval fuel rho lhs; b ← eval fuel rho rhs; binary_op op ty a b
    | Some (E_Select cond [] then_value [] [] otherwise [] _) =>
      c ← eval fuel rho cond; c ← want_bool c;
      if c : bool then eval fuel rho then_value else eval fuel rho otherwise
    | Some (E_Convert operand IntToInt (T_Int to)) =>
      match expr_type p f operand with
      | Some (T_Int from) => a ← eval fuel rho operand; a ← want_int a; convert_op from to a
      | _ => Stuck
      end
    | _ => Stuck
    end
  end.

Inductive Flow := Next | Broke | Continued | Returned (v : option Scalar).

Definition is_scalar_local (slot : Z) : bool :=
  match locals f !! Z.to_nat slot with Some (T_Int _) | Some T_Bool => 0 <=? slot | _ => false end.

(** A statement list, over the meaning of one statement. *)
Fixpoint exec_list (exec : Env -> IrStmt -> Answer (Env * Flow)) (rho : Env) (ss : list IrStmt) : Answer (Env * Flow) :=
  match ss with
  | [] => Gives (rho, Next)
  | s :: ss =>
    r ← exec rho s;
    match r with (rho, Next) => exec_list exec rho ss | r => Gives r end
  end.

Definition bind_local (fuel : nat) (rho : Env) (slot : Z) (e : IrExprId) : Answer (Env * Flow) :=
  if is_scalar_local slot then v ← eval fuel rho e; Gives (<[slot := v]> rho, Next) else Stuck.

Fixpoint exec (fuel : nat) (rho : Env) (s : IrStmt) : Answer (Env * Flow) :=
  match fuel with
  | O => Stuck
  | S fuel =>
    match s with
    | S_Let slot e => bind_local fuel rho slot e
    | S_Assign {| pl_local := slot; pl_path := [] |} e => bind_local fuel rho slot e
    | S_Eval e => _ ← eval fuel rho e; Gives (rho, Next)
    | S_Return (Some e) => v ← eval fuel rho e; Gives (rho, Returned (Some v))
    | S_Return None => Gives (rho, Returned None)
    | S_If cond then_body else_body =>
      c ← eval fuel rho cond; c ← want_bool c;
      if c : bool then exec_list (exec fuel) rho then_body else exec_list (exec fuel) rho else_body
    | S_While cond body =>
      c ← eval fuel rho cond; c ← want_bool c;
      if c : bool then
        r ← exec_list (exec fuel) rho body;
        match r with
        | (rho, Next) | (rho, Continued) => exec fuel rho s
        | (rho, Broke) => Gives (rho, Next)
        | r => Gives r
        end
      else Gives (rho, Next)
    | S_Break => Gives (rho, Broke)
    | S_Continue => Gives (rho, Continued)
    | _ => Stuck
    end
  end.

(** The parameters are the first slots. *)
Definition bound (args : list Scalar) : Env :=
  list_to_map (zip (Z.of_nat <$> seq 0 (length args)) args).

(** A call, and its answer if it has one. *)
Definition call (fuel : nat) (args : list Scalar) : Answer (option Scalar) :=
  r ← exec_list (exec fuel) (bound args) (body f);
  match r.2 with Returned v => Gives v | Next => Gives None | Broke | Continued => Stuck end.
End Eval.
