(* ===== verification/CompileArith.v ===== *)
(** * Operators on the interpreter

    The instructions an operator compiles to, run on the interpreter, do what
    [IrEval] says the operator means: [operator_runs]. *)

From stdpp Require Import gmap strings.
From S2P Require Import Prelude.
From S2P Require Import Instruction.
From S2P Require Import ModuleFormat.
From S2P Require Import IntWidth.
From S2P Require Import Types.
From S2P Require Import Ir.
From S2P Require Import Compile.
From S2P Require Import CompileOk.
From S2P Require Import DecimalNumber.
From S2P Require Import Heap.
From S2P Require Import VmState.
From S2P Require Import VmOps.
From S2P Require Import VmStep.
From S2P Require Import IrEval.

Definition repr (v : Scalar) : Value := match v with SInt w => V_Int w | SBool b => V_Bool b end.

Section Straight.
Context {host : Host} {allocator : Allocator} {hosted : HostChannels} (m : Module_).

#[local] Arguments holds : simpl never.
#[local] Arguments wrap : simpl never.
#[local] Arguments swrap : simpl never.
#[local] Arguments uwrap : simpl never.
#[local] Arguments value_of : simpl never.
#[local] Arguments word_of : simpl never.

(** The instructions the loop does not treat on their own. *)
Definition alone (i : Instruction) : bool :=
  match i with
  | I_Return | I_ReturnVoid | I_Call _ | I_CallMut _ _ _ | I_CallWriteback _ _ | I_CallNative _ | I_CallForeign _
  | I_CallNativeWriteback _ _ => false
  | _ => true
  end.

(** What an instruction that only works on the stack does to it. *)
Definition does (i : Instruction) (st st' : list Value) : Prop := forall vm fr,
  execute m i (with_stack st vm, fr) = ((with_stack st' vm, fr), Ok tt).
Definition traps_on (i : Instruction) (st : list Value) : Prop := forall vm fr,
  exists s e, execute m i (with_stack st vm, fr) = (s, Err (Trap e)).

(** A run of such instructions, to its end or to a trap. *)
Inductive straight : list Instruction -> list Value -> option (list Value) -> Prop :=
| Straight_end st : straight [] st (Some st)
| Straight_step i l st st' r : does i st st' -> straight l st' r -> straight (i :: l) st r
| Straight_trap i l st : traps_on i st -> straight (i :: l) st None.

(** What an answer leaves of the stack below it. *)
Definition leaves (st : list Value) (a : Answer Scalar) (l : list Instruction) (operands : list Value) : Prop :=
  match a with
  | Gives v => straight l (operands ++ st) (Some (repr v :: st))
  | Faults => straight l (operands ++ st) None
  | Stuck => True
  end.

Lemma straight_app l1 l2 st st' r : straight l1 st (Some st') -> straight l2 st' r -> straight (l1 ++ l2) st r.
Proof.
  intros H. remember (Some st') as r1 eqn:Hr. induction H; simplify_eq; [done|]. intros. econstructor; [done|by auto].
Qed.

Lemma straight_one i st st' : does i st st' -> straight [i] st (Some st').
Proof. intros. econstructor; [done|constructor]. Qed.

(** ** Instructions *)

Lemma fit64_iff v : fit64 v = if holds Plain v then Some v else None.
Proof.
  unfold fit64. destruct (holds Plain v) eqn:Hv.
  - apply holds_iff in Hv. cbn in Hv. by rewrite decide_True.
  - rewrite decide_False; [done|]. intros Hs. assert (holds Plain v = true) by by apply holds_iff. congruence.
Qed.

Lemma code_spelling s : from_code (byte_to_Z (code_byte s)) = Some (width s).
Proof. by destruct s. Qed.


Lemma pop_int_top v st vm fr : pop_int (with_stack (V_Int v :: st) vm, fr) = ((with_stack st vm, fr), Ok v).
Proof. done. Qed.

Lemma pop_bool_top b st vm fr : pop_bool (with_stack (V_Bool b :: st) vm, fr) = ((with_stack st vm, fr), Ok b).
Proof. done. Qed.

(** Runs an instruction whose operands are on the stack. *)
Ltac run := intros; cbn; st_unfold; rewrite ?pop_int_top, ?pop_bool_top; cbn; rewrite ?pop_int_top; cbn.

Lemma check_int_does s v st : holds (width s) v = true -> does (I_CheckInt (code_byte s)) (V_Int v :: st) (V_Int v :: st).
Proof. intros Hv vm fr. cbn. unfold check_int, spelling. rewrite code_spelling. run. by rewrite Hv. Qed.

Lemma check_int_traps s v st : holds (width s) v = false -> traps_on (I_CheckInt (code_byte s)) (V_Int v :: st).
Proof. intros Hv vm fr. cbn. unfold check_int, spelling. rewrite code_spelling. run. rewrite Hv. by eexists _, _. Qed.

Lemma wrap_int_does s v st : does (I_WrapInt (code_byte s)) (V_Int v :: st) (V_Int (wrap (width s) v) :: st).
Proof. intros vm fr. cbn. unfold wrap_int, spelling. rewrite code_spelling. by run. Qed.

(** The width check of a narrow spelling, and none of a wide one. *)
Definition checks (s : IntSpelling) : list Instruction := if spelling_bits s <? 64 then [I_CheckInt (code_byte s)] else [].
Definition wraps (s : IntSpelling) : list Instruction := if spelling_bits s <? 64 then [I_WrapInt (code_byte s)] else [].

Lemma narrow_fits s v : is_signed (width s) = true \/ spelling_bits s < 64 -> holds (width s) v = true -> holds Plain v = true.
Proof. intros Hs Hv. apply holds_iff in Hv. apply holds_iff. destruct s; cbn in *; unfold signed_ok, unsigned_ok in *; lia. Qed.

Lemma narrow_word s v : s <> Spell_U64 -> holds (width s) v = true -> word_of (width s) v = v.
Proof.
  intros Hs Hv. apply holds_iff in Hv. destruct s; cbn in *; try done; apply swrap_id; unfold signed_ok, unsigned_ok in *; lia.
Qed.

(** A result computed in 64 signed bits, then checked against the spelling. *)
Lemma checked_leaves i s v st operands : s <> Spell_U64 ->
  (holds Plain v = true -> does i (operands ++ st) (V_Int v :: st)) ->
  (holds Plain v = false -> traps_on i (operands ++ st)) ->
  leaves st (exactly s v) (i :: checks s) operands.
Proof.
  intros Hs Hdoes Htraps. unfold exactly, leaves, checks.
  destruct (holds (width s) v) eqn:Hv.
  - rewrite narrow_word by done. econstructor; [apply Hdoes; eapply narrow_fits; [|exact Hv]; destruct s; cbn; auto; right; lia|].
    destruct (spelling_bits s <? 64); [apply straight_one; by apply check_int_does|constructor].
  - destruct (holds Plain v) eqn:Hp; [|by apply Straight_trap, Htraps].
    econstructor; [by apply Hdoes|]. destruct (Z.ltb_spec (spelling_bits s) 64).
    + by apply Straight_trap, check_int_traps.
    + destruct s; cbn in *; try lia; congruence.
Qed.

(** The unsigned 64-bit answers, carried as an [i64]. *)
Lemma unsigned_leaves i v st operands :
  (u64_ok v -> does i (operands ++ st) (V_Int (swrap 64 v) :: st)) ->
  (~ u64_ok v -> traps_on i (operands ++ st)) ->
  leaves st (exactly Spell_U64 v) [i] operands.
Proof.
  intros Hdoes Htraps. unfold exactly, leaves.
  destruct (holds (width Spell_U64) v) eqn:Hv.
  - apply holds_iff in Hv. unfold word_of. cbn. rewrite swrap_uwrap. by apply straight_one, Hdoes.
  - apply Straight_trap, Htraps. intros Hok. assert (holds U64 v = true) by by apply holds_iff. cbn in *. congruence.
Qed.

(** A result truncated to 64 bits, then to the spelling's width. *)
Lemma wraps_leaves s v st : leaves st (wrapped s v) (wraps s) [V_Int (swrap 64 v)].
Proof.
  cbn. unfold wraps. destruct (Z.ltb_spec (spelling_bits s) 64).
  - apply straight_one, wrap_int_does.
  - unfold wrap. rewrite (proj2 (Z.eqb_eq _ _)); [constructor|]. destruct s; cbn in *; lia.
Qed.

Lemma wrapped_leaves i s v x st operands : swrap 64 x = swrap 64 v ->
  does i (operands ++ st) (V_Int (swrap 64 v) :: st) -> leaves st (wrapped s x) (i :: wraps s) operands.
Proof. intros Hx Hdoes. econstructor; [exact Hdoes|]. rewrite <- Hx. apply wraps_leaves. Qed.

(** ** Operators *)

(** What an operator compiles to at a type. *)
Definition basic (op : IrBinOp) : list Instruction :=
  match binary_instruction op with Ok i => [i] | Err _ => [] end.

Definition operator_code (op : IrBinOp) (ty : Ty) : list Instruction :=
  match ty with
  | T_Int s =>
    match op with
    | AddInt => (match s with Spell_U64 => I_AddUIntChecked | _ => I_AddIntChecked end) :: checks s
    | SubInt => (match s with Spell_U64 => I_SubUIntChecked | _ => I_SubIntChecked end) :: checks s
    | MulInt => (match s with Spell_U64 => I_MulUIntChecked | _ => I_MulIntChecked end) :: checks s
    | DivInt => I_DivIntChecked :: checks s
    | Shl => I_CheckShift (byte_of_Z (spelling_bits s)) :: I_Shl :: wraps s
    | ShrInt | ShrUInt => I_CheckShift (byte_of_Z (spelling_bits s)) :: basic op
    | WrappingAddInt | WrappingSubInt | WrappingMulInt => basic op ++ wraps s
    | _ => basic op
    end
  | _ => basic op
  end.

(** Compilation that only adds code. *)
Definition adds (k : Comp unit) (l : list Instruction) : Prop := forall c,
  k c = (with_code (c_code c ++ l) c, Ok tt).

Lemma adds_nothing : adds (mret tt) [].
Proof. intros c. rewrite app_nil_r. by destruct c. Qed.

Lemma adds_emit i : adds (emit i) [i].
Proof. done. Qed.

Lemma adds_seq k1 k2 l1 l2 : adds k1 l1 -> adds k2 l2 -> adds (_ ← k1; k2) (l1 ++ l2).
Proof. intros H1 H2 c. st_unfold. rewrite (H1 c), H2. cbn. by rewrite app_assoc. Qed.

Lemma adds_check s : adds (check_width (T_Int s)) (checks s).
Proof. unfold check_width, checks. destruct (_ <? _); [apply adds_emit|apply adds_nothing]. Qed.

Lemma adds_wrap s : adds (wrap_width (T_Int s)) (wraps s).
Proof. unfold wrap_width, wraps. destruct (_ <? _); [apply adds_emit|apply adds_nothing]. Qed.

Lemma operator_adds op ty i : binary_instruction op = Ok i -> adds (compile_int_operator op ty) (operator_code op ty).
Proof.
  intros Hi. destruct ty as [s| | | | | | | | | | | | | | | | | | | |]; try (by destruct op).
  destruct op; try discriminate; try apply adds_emit; cbn [compile_int_operator operator_code];
    try (apply (adds_seq (emit _) _ [_]); [apply adds_emit|first [apply adds_check | apply adds_wrap]]).
  1-3: destruct s; apply (adds_seq (emit _) _ [_]); first [apply adds_emit | apply adds_check].
  - apply (adds_seq (emit _) _ [_]); [apply adds_emit|]. apply (adds_seq (emit _) _ [_]); [apply adds_emit|apply adds_wrap].
  - apply (adds_seq (emit _) _ [_]); [apply adds_emit|]. apply (adds_seq (emit _) _ [_] []); [apply adds_emit|apply adds_nothing].
  - apply (adds_seq (emit _) _ [_]); [apply adds_emit|]. apply (adds_seq (emit _) _ [_] []); [apply adds_emit|apply adds_nothing].
Qed.

(** A machine word and its unsigned reading are congruent. *)
Lemma swrap_eq x y : uwrap 64 x = uwrap 64 y -> swrap 64 x = swrap 64 y.
Proof. intros H. by rewrite <- (swrap_uwrap 64 x), H, swrap_uwrap. Qed.

Lemma value_of_signed s w : s <> Spell_U64 -> value_of (width s) w = w.
Proof. by destruct s. Qed.

Lemma swrap_value s a : swrap 64 (value_of (width s) a) = swrap 64 a.
Proof. destruct s; try done. apply swrap_uwrap. Qed.

Lemma swrap_add x y x' y' : swrap 64 x = swrap 64 x' -> swrap 64 y = swrap 64 y' -> swrap 64 (x + y) = swrap 64 (x' + y').
Proof.
  intros Hx Hy. apply swrap_eq. unfold uwrap. rewrite Zplus_mod, (Zplus_mod x').
  rewrite <- (swrap_mod 64 x), <- (swrap_mod 64 y), <- (swrap_mod 64 x'), <- (swrap_mod 64 y') by lia. by rewrite Hx, Hy.
Qed.

Lemma swrap_sub x y x' y' : swrap 64 x = swrap 64 x' -> swrap 64 y = swrap 64 y' -> swrap 64 (x - y) = swrap 64 (x' - y').
Proof.
  intros Hx Hy. apply swrap_eq. unfold uwrap. rewrite Zminus_mod, (Zminus_mod x').
  rewrite <- (swrap_mod 64 x), <- (swrap_mod 64 y), <- (swrap_mod 64 x'), <- (swrap_mod 64 y') by lia. by rewrite Hx, Hy.
Qed.

Lemma swrap_mul x y x' y' : swrap 64 x = swrap 64 x' -> swrap 64 y = swrap 64 y' -> swrap 64 (x * y) = swrap 64 (x' * y').
Proof.
  intros Hx Hy. apply swrap_eq. unfold uwrap. rewrite Zmult_mod, (Zmult_mod x').
  rewrite <- (swrap_mod 64 x), <- (swrap_mod 64 y), <- (swrap_mod 64 x'), <- (swrap_mod 64 y') by lia. by rewrite Hx, Hy.
Qed.

(** The code of a count within the spelling's bits, and outside them. *)
Lemma shift_leaves i s a b v st : 
  (0 <= b < 64 -> does i (V_Int b :: V_Int a :: st) (V_Int v :: st)) ->
  forall r l, leaves st r (l) [V_Int v] -> 
  leaves st (shifted s b r) (I_CheckShift (byte_of_Z (spelling_bits s)) :: i :: l) [V_Int b; V_Int a].
Proof.
  intros Hi r l Hl. assert (byte_to_Z (byte_of_Z (spelling_bits s)) = spelling_bits s) as Hbyte by by destruct s.
  assert (spelling_bits s <= 64) by by destruct s.
  unfold shifted. destruct ((0 <=? b) && (b <? spelling_bits s)) eqn:Hb.
  - apply andb_true_iff in Hb as [Hlo Hhi]. apply Z.leb_le in Hlo. apply Z.ltb_lt in Hhi.
    assert (does (I_CheckShift (byte_of_Z (spelling_bits s))) (V_Int b :: V_Int a :: st) (V_Int b :: V_Int a :: st)) as Hc.
    { intros vm fr. cbn [execute]. unfold check_shift. rewrite Hbyte. run.
      destruct (Z.ltb_spec b 0); [lia|]. destruct (Z.leb_spec (spelling_bits s) b); [lia|done]. }
    destruct r; cbn [leaves] in *; try done; (econstructor; [exact Hc|]); (econstructor; [apply Hi; lia|done]).
  - apply Straight_trap. intros vm fr. cbn [execute]. unfold check_shift. rewrite Hbyte. run.
    assert ((b <? 0) || (spelling_bits s <=? b) = true) as ->; [|by eexists _, _].
    apply andb_false_iff in Hb as [Hb|Hb]; [apply Z.leb_gt in Hb|apply Z.ltb_ge in Hb]; apply orb_true_iff; [left|right]; lia.
Qed.

Lemma gives_leaves i v st operands :
  does i (operands ++ st) (repr v :: st) -> leaves st (Gives v) [i] operands.
Proof. apply straight_one. Qed.

(** What an instruction does to two integers. *)
Definition acts (i : Instruction) (a b : Z) (act : M unit) : Prop := forall vm st fr,
  execute m i (with_stack (V_Int b :: V_Int a :: st) vm, fr) = act (with_stack st vm, fr).

Definition pushes_if (v : option Z) (w : IntWidth) : M unit := v ← need v (E_IntegerOverflow w); push (V_Int v).

Ltac acts := intros ? ? ?; cbn; st_unfold; rewrite ?pop_int_top; cbn; rewrite ?pop_int_top; done.

Lemma acts_push i a b v st : acts i a b (push v) -> does i (V_Int b :: V_Int a :: st) (v :: st).
Proof. intros H vm fr. by rewrite H. Qed.

Lemma acts_gives i a b v st : acts i a b (push (repr v)) -> leaves st (Gives v) [i] [V_Int b; V_Int a].
Proof. intros H. by apply gives_leaves, acts_push. Qed.

(** A division: by nothing it traps. *)
Lemma divides_leaves i a b v st : acts i a b (divided b v) ->
  leaves st (divided_by b (Gives (SInt v))) [i] [V_Int b; V_Int a].
Proof.
  unfold divided, divided_by. intros H. destruct (Z.eqb_spec b 0).
  - apply Straight_trap. intros vm fr. cbn [app]. rewrite H. by eexists _, _.
  - by apply acts_gives.
Qed.

Lemma exact_leaves (f : Z -> Z -> Z) iu ii s a b st :
  acts iu a b (pushes_if (checked_u64 (f (uwrap 64 a) (uwrap 64 b))) U64) ->
  acts ii a b (pushes_if (fit64 (f a b)) Plain) ->
  leaves st (exactly s (f (value_of (width s) a) (value_of (width s) b)))
    ((match s with Spell_U64 => iu | _ => ii end) :: checks s) [V_Int b; V_Int a].
Proof.
  intros Hu Hi. destruct (decide (s = Spell_U64)) as [->|Hs].
  - apply unsigned_leaves; intros Hfit vm fr; cbn [app]; rewrite Hu; unfold pushes_if, checked_u64; cbn [value_of width] in Hfit.
    + by rewrite decide_True.
    + rewrite decide_False by done. by eexists _, _.
  - rewrite !value_of_signed by done. replace (match s with Spell_U64 => iu | _ => ii end) with ii by by destruct s.
    apply checked_leaves; [done| |]; intros Hfit vm fr; cbn [app]; rewrite Hi; unfold pushes_if;
      rewrite fit64_iff, Hfit; [done|by eexists _, _].
Qed.

(** An integer operator's instructions compute its meaning. *)
Lemma int_operator_runs op s a b st i : binary_instruction op = Ok i ->
  leaves st (int_op op s a b) (operator_code op (T_Int s)) [V_Int b; V_Int a].
Proof.
  intros Hop. destruct op; try done; cbn [int_op operator_code basic binary_instruction app].
  1: apply (exact_leaves Z.add); acts.
  1: apply (exact_leaves Z.sub); acts.
  1: apply (exact_leaves Z.mul); acts.
  1-3: eapply wrapped_leaves, acts_push; [|acts].
  - apply swrap_add; apply swrap_value.
  - apply swrap_sub; apply swrap_value.
  - apply swrap_mul; apply swrap_value.
  - destruct (is_signed (width s)) eqn:Hs; [|done]. assert (s <> Spell_U64) by by destruct s.
    rewrite !value_of_signed by done. unfold divided_by. destruct (Z.eqb_spec b 0) as [->|Hnz].
    + assert (acts I_DivIntChecked a 0 (trap E_DivideByZero)) as H0 by acts.
      apply Straight_trap. intros vm fr. cbn [app]. rewrite H0. by eexists _, _.
    + assert (acts I_DivIntChecked a b (pushes_if (fit64 (a ÷ b)) Plain)) as Hact.
      { intros vm st' fr. cbn. unfold checked_int_arith. run. by rewrite (proj2 (Z.eqb_neq _ _) Hnz). }
      apply checked_leaves; [done| |]; intros Hfit vm fr; cbn [app]; rewrite Hact; unfold pushes_if;
        rewrite fit64_iff, Hfit; [done|by eexists _, _].
  - destruct (is_signed (width s)) eqn:Hs; [|done]. assert (s <> Spell_U64) by by destruct s.
    rewrite !value_of_signed by done. apply divides_leaves; acts.
  - apply divides_leaves; acts.
  - apply divides_leaves; acts.
  - apply acts_gives; acts.
  - apply acts_gives; acts.
  - apply acts_gives; acts.
  - apply acts_gives; acts.
  - apply acts_gives; acts.
  - apply acts_gives; acts.
  - apply acts_gives; acts.
  - apply acts_gives; acts.
  - apply acts_gives; acts.
  - apply acts_gives; acts.
  - apply acts_gives; acts.
  - apply acts_gives; acts.
  - apply acts_gives; acts.
  - eapply shift_leaves; [|apply wraps_leaves]. intros Hb64. rewrite <- Z.shiftl_mul_pow2 by lia. apply acts_push.
    intros vm st' fr. cbn. unfold bitwise. run. unfold shift_count. by rewrite Z.mod_small.
  - eapply (shift_leaves _ _ _ _ (a / 2 ^ b)); [|constructor]. intros Hb64. rewrite <- Z.shiftr_div_pow2 by lia. apply acts_push.
    intros vm st' fr. cbn. unfold bitwise. run. unfold shift_count. by rewrite Z.mod_small.
  - eapply (shift_leaves _ _ _ _ (swrap 64 (uwrap 64 a / 2 ^ b))); [|constructor]. intros Hb64. rewrite <- Z.shiftr_div_pow2 by lia. apply acts_push.
    intros vm st' fr. cbn. unfold bitwise. run. unfold shift_count. by rewrite Z.mod_small.
Qed.

Lemma bool_operator_runs op a b st i : binary_instruction op = Ok i ->
  leaves st (bool_op op a b) [i] [V_Bool b; V_Bool a].
Proof. intros Hop. destruct op; try done; injection Hop as <-; apply gives_leaves; by intros vm fr. Qed.

Lemma binary_runs op ty a b st i : binary_instruction op = Ok i ->
  leaves st (binary_op op ty a b) (operator_code op ty) [repr b; repr a].
Proof.
  intros Hop. destruct ty; try done; destruct a, b; try done; cbn [binary_op repr].
  - by eapply int_operator_runs.
  - replace (operator_code op T_Bool) with [i]; [by apply bool_operator_runs|].
    unfold operator_code, basic. by rewrite Hop.
Qed.

(** ** Negation, complement and conversion *)

Definition unary_code (op : IrUnOp) (ty : Ty) : list Instruction :=
  unary_instruction op :: match unary_result_type op ty with T_Int s => checks s | _ => [] end.

Lemma unary_adds op ty :
  adds (_ ← emit (unary_instruction op); check_width (unary_result_type op ty)) (unary_code op ty).
Proof.
  apply (adds_seq (emit _) _ [_]); [apply adds_emit|].
  destruct (unary_result_type op ty); try apply adds_nothing. apply adds_check.
Qed.

Lemma neg_leaves s a st : s <> Spell_U64 -> leaves st (exactly s (- a)) (I_NegIntChecked :: checks s) [V_Int a].
Proof.
  intros Hs. apply checked_leaves; [done| |]; intros Hfit vm fr; cbn; unfold neg_int_checked; run;
    rewrite fit64_iff, Hfit; [done|by eexists _, _].
Qed.

Lemma unary_runs op ty a st : leaves st (unary_op op ty a) (unary_code op ty) [repr a].
Proof.
  destruct op as [| | |]; cbn [unary_op]; [|done| |].
  - destruct ty as [s| | | | | | | | | | | | | | | | | | | |]; try done. destruct a as [a|]; [|by destruct s].
    destruct (decide (s = Spell_U64)) as [->|Hs]; [done|].
    replace (match s with Spell_U64 => Stuck | _ => exactly s (- a) end) with (exactly s (- a)) by by destruct s.
    by apply neg_leaves.
  - destruct a as [|a]; [by destruct ty|]. destruct ty; apply gives_leaves; by intros vm fr.
  - destruct a as [a|]; [|by destruct ty]. destruct ty; apply gives_leaves; by intros vm fr.
Qed.

Lemma widens_holds w to v : widens_into w to = true -> holds w v = true -> holds to v = true.
Proof.
  intros Hw Hv%holds_iff. apply holds_iff. destruct w, to; try discriminate; cbn in *; unfold signed_ok, unsigned_ok in *; lia.
Qed.

(** A widening conversion leaves the word as it is. *)
Lemma widens_word w to a : widens_into w to = true -> holds Plain a = true -> holds w (value_of w a) = true ->
  word_of to (value_of w a) = a.
Proof.
  intros Hw Ha%holds_iff Hv%holds_iff. 
  assert (word_of to (value_of w a) = swrap 64 (value_of w a)) as -> by (destruct to; try done; apply swrap_uwrap).
  assert (swrap 64 (value_of w a) = swrap 64 a) as -> by (destruct w; try done; apply swrap_uwrap). by apply swrap_id.
Qed.

Definition convert_code (from to : IntSpelling) : list Instruction :=
  if spelling_widens_into from to then [] else [I_ConvertInt (code_byte from) (code_byte to)].

Lemma convert_adds from to : adds (compile_convert IntToInt (T_Int from) (T_Int to)) (convert_code from to).
Proof. unfold convert_code. cbn. destruct (spelling_widens_into _ _); [apply adds_nothing|apply adds_emit]. Qed.

Lemma convert_runs from to a st : leaves st (convert_op from to a) (convert_code from to) [V_Int a].
Proof.
  unfold convert_op, convert_code, spelling_widens_into. destruct (holds Plain a) eqn:Ha; [|done].
  destruct (holds (width from) _) eqn:Hv; [|done]. cbn [andb]. unfold exactly.
  destruct (widens_into (width from) (width to)) eqn:Hw.
  - rewrite (widens_holds _ _ _ Hw Hv). cbn. rewrite widens_word by done. constructor.
  - destruct (holds (width to) _) eqn:Hto; cbn.
    + apply straight_one. intros vm fr. cbn. unfold convert_int, spelling. rewrite !code_spelling. run. by rewrite Hto.
    + apply Straight_trap. intros vm fr. cbn. unfold convert_int, spelling. rewrite !code_spelling. run. rewrite Hto. by eexists _, _.
Qed.

Lemma checks_alone s : forallb alone (checks s) = true.
Proof. by destruct s. Qed.

Lemma operator_alone op ty : forallb alone (operator_code op ty) = true.
Proof. destruct op; try (by destruct ty); destruct ty as [s| | | | | | | | | | | | | | | | | | | |]; try done; by destruct s. Qed.

Lemma unary_alone op ty : forallb alone (unary_code op ty) = true.
Proof. destruct op; try done; destruct ty; try done; apply checks_alone. Qed.

Lemma convert_alone from to : forallb alone (convert_code from to) = true.
Proof. unfold convert_code. by destruct (spelling_widens_into from to). Qed.
End Straight.


#[local] Instance no_channels : HostChannels := {| host_channels := false |}.
#[local] Instance pages : Allocator := {| payload_address n := 4096 * Z.of_nat (S n) |}.


(** Negation is checked as if every word were signed: five of the unsigned word
    type becomes a word that reads as [2 ^ 64 - 5], and nothing traps. *)
Example negated_unsigned : forall m, @straight host64 pages no_channels m (unary_code NegInt (T_Int Spell_U64)) [V_Int 5] (Some [V_Int (-5)]) /\
  value_of U64 (-5) = 2 ^ 64 - 5.
Proof. intros m. split; [|done]. by apply straight_one. Qed.

(** A complement is not checked at all: in a byte it leaves the byte's range. *)
Example complemented_byte : forall m, @straight host64 pages no_channels m (unary_code BitNot (T_Int Spell_U8)) [V_Int 5] (Some [V_Int (-6)]) /\
  holds U8 (-6) = false.
Proof. intros m. split; [|done]. by apply straight_one. Qed.
