(* ===== verification/CompileDirect.v ===== *)
(** * Backpatching computes what direct code generation does

    The compiler emits a jump before it knows its target and patches it later.
    [expr_code] and [stmt_code] build the code of the scalar part of the language
    directly, every jump with its target; [compiles_directly] says the compiler
    emits the same instructions. *)

From stdpp Require Import gmap strings.
From S2P Require Import Prelude.
From S2P Require Import Foreign.
From S2P Require Import Instruction.
From S2P Require Import ModuleFormat.
From S2P Require Import Types.
From S2P Require Import Ir.
From S2P Require Import MidOk.
From S2P Require Import Compile.
From S2P Require Import CompileArith.

(** ** Direct code *)

(** Code in which the jumps out of the loop around it are still open. *)
Abbreviation Code := (list Instruction) (only parsing).
Abbreviation Open := (list (option Instruction)) (only parsing).

Definition closed (exit : nat) (l : Open) : Code := default (I_Jump (Z.of_nat exit)) <$> l.

(** [cond], and one of two codes, each built for where it starts. *)
Definition select_code {A} (inj : Instruction -> A) (base : nat) (cond : list A) (then_ else_ : nat -> option (list A)) :
    option (list A) :=
  let then_base := S (base + length cond) in
  t ← then_ then_base;
  let else_base := S (then_base + length t) in
  e ← else_ else_base;
  Some (cond ++ inj (I_JumpIfFalse (Z.of_nat else_base)) :: t ++ inj (I_Jump (Z.of_nat (else_base + length e))) :: e).

Lemma select_code_Some {A} (inj : Instruction -> A) base cond then_ else_ l :
  select_code inj base cond then_ else_ = Some l ->
  let then_base := S (base + length cond) in
  exists t e, then_ then_base = Some t /\
    let else_base := S (then_base + length t) in
    else_ else_base = Some e /\
    l = cond ++ inj (I_JumpIfFalse (Z.of_nat else_base)) :: t ++ inj (I_Jump (Z.of_nat (else_base + length e))) :: e.
Proof.
  unfold select_code. intros (t & Ht & Hl)%bind_Some. apply bind_Some in Hl as (e & He & [= <-]). by exists t, e.
Qed.

Fixpoint stmts_code (code : nat -> IrStmt -> option Open) (base : nat) (ss : list IrStmt) : option Open :=
  match ss with
  | [] => Some []
  | s :: ss => l ← code base s; r ← stmts_code code (base + length l) ss; Some (l ++ r)
  end.

Section Direct.
Context {host : Host} (p : IrProgram) (engines : list Execution) (f : IrFunction).

Fixpoint expr_code (fuel : nat) (base : nat) (id : IrExprId) : option Code :=
  match fuel with
  | O => None
  | S fuel =>
    match exprs p !! id with
    | Some (E_Int value) => Some [I_ConstInt value]
    | Some (E_Bool value) => Some [I_ConstBool value]
    | Some (E_Local slot) => Some [if local_is_taken p f slot then I_TakeLocal slot else I_LoadLocal slot]
    | Some (E_Unary op operand ty) => l ← expr_code fuel base operand; Some (l ++ unary_code op ty)
    | Some (E_Binary And lhs rhs _) =>
      l ← expr_code fuel base lhs;
      select_code (fun i => i) base l (fun base => expr_code fuel base rhs) (fun _ => Some [I_ConstBool false])
    | Some (E_Binary Or lhs rhs _) =>
      l ← expr_code fuel base lhs;
      select_code (fun i => i) base l (fun _ => Some [I_ConstBool true]) (fun base => expr_code fuel base rhs)
    | Some (E_Binary op lhs rhs ty) =>
      l ← expr_code fuel base lhs; r ← expr_code fuel (base + length l) rhs; Some (l ++ r ++ operator_code op ty)
    | Some (E_Select cond [] then_value [] [] otherwise [] _) =>
      l ← expr_code fuel base cond;
      select_code (fun i => i) base l (fun base => expr_code fuel base then_value) (fun base => expr_code fuel base otherwise)
    | Some (E_Convert operand IntToInt (T_Int to)) =>
      match expr_type p f operand with
      | Some (T_Int from) => l ← expr_code fuel base operand; Some (l ++ convert_code from to)
      | _ => None
      end
    | _ => None
    end
  end.

(** [continue] is where the loop around the statement starts. *)
Fixpoint stmt_code (fuel : nat) (continue : option Z) (base : nat) (s : IrStmt) : option Open :=
  match fuel with
  | O => None
  | S fuel =>
    match s with
    | S_Let slot e | S_Assign {| pl_local := slot; pl_path := [] |} e =>
      l ← expr_code fuel base e; Some (Some <$> l ++ [I_StoreLocal slot])
    | S_Eval e => l ← expr_code fuel base e; Some (Some <$> l ++ [I_Pop])
    | S_Return (Some e) => l ← expr_code fuel base e; Some (Some <$> l ++ [I_Return])
    | S_Return None => Some [Some I_ReturnVoid]
    | S_If cond then_body else_body =>
      l ← expr_code fuel base cond;
      select_code Some base (Some <$> l)
        (fun base => stmts_code (stmt_code fuel continue) base then_body)
        (fun base => stmts_code (stmt_code fuel continue) base else_body)
    | S_While cond body =>
      l ← expr_code fuel base cond;
      let body_base := S (base + length l) in
      t ← stmts_code (stmt_code fuel (Some (Z.of_nat base))) body_base body;
      let end_ := S (body_base + length t) in
      Some (Some <$> l ++ I_JumpIfFalse (Z.of_nat end_) :: closed end_ t ++ [I_Jump (Z.of_nat base)])
    | S_Break => match continue with Some _ => Some [None] | None => None end
    | S_Continue => match continue with Some target => Some [Some (I_Jump target)] | None => None end
    | _ => None
    end
  end.

Lemma insert_middle {A} (pre : list A) x y post n : n = length pre -> <[n := x]> (pre ++ y :: post) = pre ++ x :: post.
Proof. intros ->. by rewrite insert_app_r_alt, Nat.sub_diag by done. Qed.

Lemma closed_app exit l1 l2 : closed exit (l1 ++ l2) = closed exit l1 ++ closed exit l2.
Proof. apply fmap_app. Qed.

Lemma closed_all exit l : closed exit (Some <$> l) = l.
Proof. unfold closed. induction l as [|i l IH]; [done|]. cbn. by f_equal. Qed.

Lemma closed_length exit l : length (closed exit l) = length l.
Proof. apply length_fmap. Qed.

Lemma closed_select exit cl i t j e :
  closed exit ((Some <$> cl) ++ Some i :: t ++ Some j :: e) = cl ++ i :: closed exit t ++ j :: closed exit e.
Proof. rewrite closed_app, closed_all. f_equal. change (i :: closed exit (t ++ Some j :: e) = i :: closed exit t ++ j :: closed exit e). by rewrite closed_app. Qed.

(** ** Compilation that adds code *)

(** The jumps left open in code that starts at [base]. *)
Fixpoint opened (base : nat) (l : Open) : list nat :=
  match l with
  | [] => []
  | None :: l => base :: opened (S base) l
  | Some _ :: l => opened (S base) l
  end.

Lemma opened_app base l1 l2 : opened base (l1 ++ l2) = opened base l1 ++ opened (base + length l1) l2.
Proof.
  revert base. induction l1 as [|[i|] l1 IH]; intros base; cbn; [by rewrite Nat.add_0_r|..];
    rewrite IH; by replace (base + S (length l1))%nat with (S base + length l1)%nat by lia.
Qed.

Lemma opened_all base l : opened base (Some <$> l) = [].
Proof. revert base. induction l as [|i l IH]; intros base; [done|]. apply IH. Qed.

Definition recorded (ks : list nat) (loops : list LoopFrame) : list LoopFrame :=
  match loops with
  | frame :: outer =>
    {| continue_target := continue_target frame; break_jumps := break_jumps frame ++ ks |} :: outer
  | [] => []
  end.

Lemma recorded_nothing loops : recorded [] loops = loops.
Proof. destruct loops as [|[] loops]; [done|]. cbn. by rewrite app_nil_r. Qed.

Lemma recorded_recorded ks ks' loops : recorded ks' (recorded ks loops) = recorded (ks ++ ks') loops.
Proof. destruct loops as [|[] loops]; [done|]. cbn. by rewrite app_assoc. Qed.

(** The state with more code, whose open jumps the loop has recorded. *)
Definition extended (l : Open) (c : Compiler) : Compiler :=
  with_loops (recorded (opened (length (c_code c)) l) (c_loops c)) (with_code (c_code c ++ closed 0 l) c).

Definition loop_start (c : Compiler) : option Z :=
  match c_loops c with frame :: _ => Some (continue_target frame) | [] => None end.

Lemma extended_nothing c : extended [] c = c.
Proof. unfold extended. cbn. rewrite app_nil_r, recorded_nothing. by destruct c. Qed.

Lemma extended_length l c : length (c_code (extended l c)) = (length (c_code c) + length l)%nat.
Proof. cbn. by rewrite length_app, closed_length. Qed.

Lemma extended_start l c : loop_start (extended l c) = loop_start c.
Proof. unfold loop_start. cbn. by destruct (c_loops c). Qed.

Lemma extended_extended l1 l2 c : extended l2 (extended l1 c) = extended (l1 ++ l2) c.
Proof.
  unfold extended at 1. rewrite extended_length. unfold extended, with_loops, with_code. cbn.
  by rewrite recorded_recorded, closed_app, opened_app, app_assoc.
Qed.

(** Adds [l] where [base] instructions are emitted, inside a loop that starts at
    [continue]. *)
Definition adds_at (continue : option Z) (base : nat) (k : Comp unit) (l : Open) : Prop := forall c,
  length (c_code c) = base -> loop_start c = continue -> k c = (extended l c, Ok tt).

Lemma extended_plain l c : extended (Some <$> l) c = with_code (c_code c ++ l) c.
Proof. unfold extended. rewrite closed_all, opened_all. cbn. rewrite recorded_nothing. by destruct c. Qed.

Lemma adds_adds_at continue base k l : adds k l -> adds_at continue base k (Some <$> l).
Proof. intros H c _ _. by rewrite extended_plain, H. Qed.

Lemma adds_at_emit continue base i : adds_at continue base (emit i) [Some i].
Proof. apply (adds_adds_at _ _ _ [i]), adds_emit. Qed.

Lemma adds_at_seq continue base k1 k2 l1 l2 :
  adds_at continue base k1 l1 -> adds_at continue (base + length l1) k2 l2 ->
  adds_at continue base (_ ← k1; k2) (l1 ++ l2).
Proof.
  intros H1 H2 c Hc Hl. st_unfold. rewrite (H1 c Hc Hl), H2; [by rewrite extended_extended| |].
  - rewrite extended_length. lia.
  - by rewrite extended_start.
Qed.

(** A placeholder is replaced by the jump it stands for. *)
Lemma patch_extended l i post c :
  (exists t, i = I_Jump t \/ i = I_JumpIfFalse t) ->
  patch_to_here (length (c_code c) + length l) (extended (l ++ Some i :: post) c) =
    (extended (l ++ Some ((match i with I_Jump _ => I_Jump | _ => I_JumpIfFalse end)
                 (Z.of_nat (length (c_code c) + length l + S (length post)))) :: post) c, Ok tt).
Proof.
  intros Hi. set (k := (length (c_code c) + length l)%nat). set (c' := extended (l ++ Some i :: post) c).
  assert (c_code c' = (c_code c ++ closed 0 l) ++ i :: closed 0 post) as Hc.
  { subst c'. cbn. by rewrite closed_app, app_assoc. }
  assert (length (c_code c ++ closed 0 l) = k) as Hk by (by rewrite length_app, closed_length).
  assert (length (c_code c') = (k + S (length post))%nat) as Hlen by (rewrite Hc, length_app, Hk; cbn; by rewrite closed_length).
  unfold patch_to_here. rewrite Hlen, Hc, list_lookup_middle by done.
  assert (forall j, with_code (<[k := j]> ((c_code c ++ closed 0 l) ++ i :: closed 0 post)) c' =
                    extended (l ++ Some j :: post) c) as Hj.
  { intros j. rewrite insert_middle by done. subst c'. unfold extended, with_loops, with_code. cbn.
    rewrite closed_app, opened_app, (opened_app _ l). by rewrite <- app_assoc. }
  destruct Hi as (t & [-> | ->]); by rewrite Hj.
Qed.

Lemma placeholder_extended i c : emit_placeholder i c = (extended [Some i] c, Ok (length (c_code c))).
Proof. by rewrite (extended_plain [i]). Qed.

Lemma adds_at_run continue base k l l0 c :
  adds_at continue base k l -> base = (length (c_code c) + length l0)%nat -> continue = loop_start c ->
  k (extended l0 c) = (extended (l0 ++ l) c, Ok tt).
Proof. intros H -> ->. rewrite H, extended_extended; [done|apply extended_length|by rewrite extended_start]. Qed.

Ltac lengths := rewrite ?length_app; cbn [length] in *; rewrite ?length_app, ?length_fmap, ?closed_length; cbn [length] in *; rewrite ?length_app, ?length_fmap, ?closed_length; cbn [length] in *; lia.

Lemma emit_extended i l c : emit i (extended l c) = (extended (l ++ [Some i]) c, Ok tt).
Proof. by rewrite <- extended_extended, (extended_plain [i]). Qed.

(** The two arms of a condition. *)
Lemma adds_at_select continue base expr cond cl then_ t else_ e :
  adds_at continue base (expr cond) cl ->
  adds_at continue (S (base + length cl)) then_ t ->
  adds_at continue (S (S (base + length cl) + length t)) else_ e ->
  adds_at continue base (compile_select expr cond then_ else_)
    (cl ++ Some (I_JumpIfFalse (Z.of_nat (S (S (base + length cl) + length t)))) ::
     t ++ Some (I_Jump (Z.of_nat (S (S (base + length cl) + length t) + length e))) :: e).
Proof.
  intros Hc Ht He c Hb Hl. unfold compile_select. st_unfold. rewrite (Hc c Hb Hl).
  unfold emit_placeholder_jump_if_false, emit_placeholder_jump. rewrite placeholder_extended, extended_extended, extended_length.
  rewrite (adds_at_run _ _ _ _ _ _ Ht); [|lengths|done].
  rewrite placeholder_extended, extended_extended, extended_length, <- !app_assoc. cbn [app].
  rewrite patch_extended by (by eexists; right).
  rewrite (adds_at_run _ _ _ _ _ _ He); [|lengths|done].
  rewrite <- app_assoc. cbn [app]. rewrite <- (app_assoc t). cbn [app].
  match goal with |- patch_to_here ?k (extended (cl ++ Some ?j :: t ++ ?r) c) = _ =>
    replace k with (length (c_code c) + length (cl ++ Some j :: t))%nat by lengths;
    replace (cl ++ Some j :: t ++ r) with ((cl ++ Some j :: t) ++ r) by (by rewrite <- app_assoc)
  end.
  rewrite patch_extended by (by eexists; left). rewrite <- app_assoc. cbn [app].
  assert (length (c_code c) = base) as -> by done. repeat (first [done | lengths | f_equal]).
Qed.

(** The jumps a loop has recorded are patched to its end. *)
Lemma patch_opened c post end_ t : forall l,
  end_ = (length (c_code c) + length l + length t + length post)%nat ->
  for_each patch_to_here (opened (length (c_code c) + length l) t) (extended (l ++ (Some <$> closed 0 t) ++ post) c) =
  (extended (l ++ (Some <$> closed end_ t) ++ post) c, Ok tt).
Proof.
  induction t as [|[i|] t IH]; intros l Hend; [done|..]; cbn [opened closed fmap list_fmap app default] in *.
  - specialize (IH (l ++ [Some i])). rewrite <- !app_assoc, !length_app, Nat.add_assoc, Nat.add_1_r in IH. apply IH. lengths.
  - cbn [for_each]. st_unfold. rewrite patch_extended by (by eexists; left).
    match goal with |- context [I_Jump (Z.of_nat ?k)] => replace k with end_ end.
    2: { rewrite Hend. lengths. }
    specialize (IH (l ++ [Some (I_Jump (Z.of_nat end_))])).
    rewrite <- !app_assoc, !length_app, Nat.add_assoc, Nat.add_1_r in IH. apply IH. lengths.
Qed.

Lemma run_bind {S E A B} (k : st S E A) (rest : A -> st S E B) s s' a : k s = (s', Ok a) -> (k ≫= rest) s = rest a s'.
Proof. intros H. st_unfold. by rewrite H. Qed.

(** A body inside a loop of its own. *)
Lemma loop_body base stmt body t (k : list nat -> Comp unit) c :
  adds_at (Some (Z.of_nat base)) (length (c_code c)) (compile_body stmt body) t ->
  (_ ← push_loop (Z.of_nat base); _ ← compile_body stmt body; breaks ← pop_loop; k breaks) c =
  k (opened (length (c_code c)) t) (extended (Some <$> closed 0 t) c).
Proof.
  intros Hbody. st_unfold. unfold push_loop. rewrite Hbody by done. unfold pop_loop. cbn. by rewrite extended_plain.
Qed.

Lemma adds_at_while continue base expr cond cl stmt body t :
  adds_at continue base (expr cond) (Some <$> cl) ->
  adds_at (Some (Z.of_nat base)) (S (base + length cl)) (compile_body stmt body) t ->
  let end_ := S (S (base + length cl) + length t) in
  adds_at continue base (compile_while expr stmt cond body)
    (Some <$> cl ++ I_JumpIfFalse (Z.of_nat end_) :: closed end_ t ++ [I_Jump (Z.of_nat base)]).
Proof.
  intros Hc Hbody end_ c Hb Hl. unfold compile_while. rewrite (run_bind here _ c c (Z.of_nat (length (c_code c))) eq_refl), Hb.
  erewrite run_bind by by apply Hc. erewrite run_bind by apply placeholder_extended. rewrite extended_extended.
  rewrite loop_body with (t := t); [|rewrite extended_length; replace (length (c_code c) + _)%nat with (S (base + length cl)) by lengths; done].
  rewrite extended_extended, !extended_length, <- app_assoc. cbn [app].
  erewrite run_bind by apply emit_extended.
  rewrite <- app_assoc. cbn [app].
  erewrite run_bind by (rewrite length_fmap, <- (length_fmap Some cl); apply patch_extended; by eexists; right).
  rewrite Hb. match goal with |- context [Some (I_JumpIfFalse (Z.of_nat ?k))] => replace k with end_ by (subst end_; lengths) end.
  pose proof (patch_opened c [Some (I_Jump (Z.of_nat base))] end_ t ((Some <$> cl) ++ [Some (I_JumpIfFalse (Z.of_nat end_))])) as Hp.
  rewrite Hb, <- !app_assoc in Hp. cbn [app] in Hp.
  replace (length ((Some <$> cl) ++ [Some (I_JumpIfFalse 0)])) with
    (length ((Some <$> cl) ++ [Some (I_JumpIfFalse (Z.of_nat end_))])) by (by rewrite !length_app).
  rewrite Hp by (subst end_; lengths). by rewrite !fmap_app, fmap_cons, fmap_app.
Qed.

(** ** The compiler *)

Abbreviation compile_expr := (compile_expr p engines f) (only parsing).
Abbreviation compile_stmt := (compile_stmt p engines f) (only parsing).

Lemma compile_expr_unfold fuel id : Compile.compile_expr p engines f (S fuel) id =
  compile_expr_node p engines f (compile_expr fuel) (compile_stmt fuel) id.
Proof. done. Qed.

Lemma compile_stmt_unfold fuel s : Compile.compile_stmt p engines f (S fuel) s =
  compile_stmt_node f (compile_expr fuel) (compile_stmt fuel) s.
Proof. done. Qed.

Lemma adds_at_nothing continue base : adds_at continue base (mret tt) [].
Proof. intros c _ _. by rewrite extended_nothing. Qed.

Lemma adds_at_plain_seq continue base k1 k2 l1 l2 :
  adds_at continue base k1 (Some <$> l1) -> adds_at continue (base + length l1) k2 (Some <$> l2) ->
  adds_at continue base (_ ← k1; k2) (Some <$> l1 ++ l2).
Proof. intros H1 H2. rewrite fmap_app. apply adds_at_seq; [done|by rewrite length_fmap]. Qed.

Lemma adds_at_node continue base id e (k : IrExpr -> Comp unit) l :
  exprs p !! id = Some e -> adds_at continue base (k e) l -> adds_at continue base (e ← expr_at p id; k e) l.
Proof. intros He Hk c Hb Hl. unfold expr_at. st_unfold. rewrite He. by apply Hk. Qed.

Lemma adds_at_static continue base id ty (k : Ty -> Comp unit) l :
  expr_type p f id = Some ty -> adds_at continue base (k ty) l -> adds_at continue base (from ← static_type p f id; k from) l.
Proof. intros Hty Hk c Hb Hl. unfold static_type. st_unfold. rewrite Hty. by apply Hk. Qed.

Lemma adds_at_select_plain continue base expr cond cl then_ else_ then_code else_code l :
  adds_at continue base (expr cond) (Some <$> cl) -> select_code (fun i => i) base cl then_code else_code = Some l ->
  (forall b t, then_code b = Some t -> adds_at continue b then_ (Some <$> t)) ->
  (forall b e, else_code b = Some e -> adds_at continue b else_ (Some <$> e)) ->
  adds_at continue base (compile_select expr cond then_ else_) (Some <$> l).
Proof.
  intros Hc Hl Ht He. apply select_code_Some in Hl as (t & e & Hcode & Hcode' & ->).
  apply Ht in Hcode. apply He in Hcode'. rewrite <- (length_fmap Some cl), <- (length_fmap Some t) in Hcode'.
  rewrite <- (length_fmap Some cl) in Hcode.
  pose proof (adds_at_select _ _ _ _ _ _ _ _ _ Hc Hcode Hcode') as H. rewrite !length_fmap in H.
  by rewrite fmap_app, fmap_cons, fmap_app, fmap_cons.
Qed.

Lemma adds_at_select_open continue base expr cond cl then_ else_ then_code else_code l :
  adds_at continue base (expr cond) (Some <$> cl) -> select_code Some base (Some <$> cl) then_code else_code = Some l ->
  (forall b t, then_code b = Some t -> adds_at continue b then_ t) ->
  (forall b e, else_code b = Some e -> adds_at continue b else_ e) ->
  adds_at continue base (compile_select expr cond then_ else_) l.
Proof.
  intros Hc Hl Ht He. apply select_code_Some in Hl as (t & e & Hcode & Hcode' & ->).
  apply Ht in Hcode. apply He in Hcode'. apply (adds_at_select _ _ _ _ _ _ _ _ _ Hc Hcode Hcode').
Qed.

Lemma adds_at_branch continue base (expr : IrExprId -> Comp unit) stmt value l :
  adds_at continue base (expr value) l -> adds_at continue base (compile_branch expr stmt [] value []) l.
Proof.
  intros H. apply (adds_at_seq _ _ _ _ []); [apply adds_at_nothing|]. rewrite <- (app_nil_r l), Nat.add_0_r.
  apply adds_at_seq; [done|apply adds_at_nothing].
Qed.

Lemma adds_at_binary continue base (expr : IrExprId -> Comp unit) op lhs rhs ty l r i : binary_instruction op = Ok i ->
  adds_at continue base (expr lhs) (Some <$> l) -> adds_at continue (base + length l) (expr rhs) (Some <$> r) ->
  adds_at continue base (compile_binary expr op lhs rhs ty) (Some <$> l ++ r ++ operator_code op ty).
Proof.
  intros Hop Hl Hr. replace (compile_binary expr op lhs rhs ty) with (_ ← expr lhs; _ ← expr rhs; compile_int_operator op ty)
    by by destruct op.
  apply adds_at_plain_seq; [done|]. apply adds_at_plain_seq; [done|]. by eapply adds_adds_at, operator_adds.
Qed.

Lemma adds_expr fuel : forall base id l continue, expr_code fuel base id = Some l ->
  adds_at continue base (Compile.compile_expr p engines f fuel id) (Some <$> l).
Proof.
  induction fuel as [|fuel IH]; intros base id l continue Hl; [done|].
  rewrite compile_expr_unfold. unfold compile_expr_node. cbn [expr_code] in Hl.
  destruct (exprs p !! id) as [e|] eqn:He; [|done]. eapply adds_at_node; [exact He|].
  destruct e; try discriminate; try (by simplify_eq; apply (adds_adds_at _ _ _ [_]), adds_emit).
  - apply bind_Some in Hl as (a & Ha & [= <-]). apply adds_at_plain_seq; [by apply IH|]. apply adds_adds_at, unary_adds.
  - assert (forall i, binary_instruction op = Ok i ->
      (a ← expr_code fuel base lhs; r ← expr_code fuel (base + length a) rhs; Some (a ++ r ++ operator_code op ty)) = Some l ->
      adds_at continue base (compile_binary (Compile.compile_expr p engines f fuel) op lhs rhs ty) (Some <$> l)) as Hplain.
    { intros i Hop H. apply bind_Some in H as (a & Ha & H). apply bind_Some in H as (r & Hr & [= <-]).
      eapply adds_at_binary; [exact Hop|by apply IH|by apply IH]. }
    destruct op; try (by eapply Hplain); apply bind_Some in Hl as (a & Ha & Hl);
      (eapply adds_at_select_plain; [by apply IH|exact Hl|..]); intros b t Ht; cbn in Ht; try (by apply IH); simplify_eq;
      apply (adds_adds_at _ _ _ [_]), adds_emit.
  - destruct then_setup, then_cleanup, otherwise_setup, otherwise_cleanup; try done.
    apply bind_Some in Hl as (a & Ha & Hl).
    eapply adds_at_select_plain; [by apply IH|exact Hl|..]; intros b t Ht; by apply adds_at_branch, IH.
  - destruct kind; try done. destruct ty as [to| | | | | | | | | | | | | | | | | | | |]; try done.
    destruct (expr_type p f operand) as [[from| | | | | | | | | | | | | | | | | | | |]|] eqn:Hty; try done.
    apply bind_Some in Hl as (a & Ha & [= <-]).
    eapply adds_at_static; [exact Hty|]. apply adds_at_plain_seq; [by apply IH|]. apply adds_adds_at, convert_adds.
Qed.

(** ** Statements *)

Lemma adds_body (code : nat -> IrStmt -> option Open) (stmt : IrStmt -> Comp unit) continue ss :
  (forall base s l, code base s = Some l -> adds_at continue base (stmt s) l) ->
  forall base l, stmts_code code base ss = Some l -> adds_at continue base (compile_body stmt ss) l.
Proof.
  intros Hs. induction ss as [|s ss IH]; intros base l Hl; cbn [stmts_code] in Hl.
  - simplify_eq. apply adds_at_nothing.
  - apply bind_Some in Hl as (a & Ha & Hl). apply bind_Some in Hl as (r & Hr & [= <-]).
    apply adds_at_seq; [by apply Hs|by apply IH].
Qed.

Lemma adds_expr_then fuel base e i l continue :
  (a ← expr_code fuel base e; Some (Some <$> a ++ [i])) = Some l ->
  adds_at continue base (_ ← Compile.compile_expr p engines f fuel e; emit i) l.
Proof.
  intros Hl. apply bind_Some in Hl as (a & Ha & [= <-]).
  apply adds_at_plain_seq; [by apply adds_expr|apply (adds_adds_at _ _ _ [_]), adds_emit].
Qed.

Lemma adds_at_break base target : adds_at (Some target) base (k ← emit_placeholder_jump; record_break f k) [None].
Proof.
  intros c Hb Hl. unfold loop_start in Hl. destruct (c_loops c) as [|frame outer] eqn:Hloops; [done|].
  st_unfold. unfold emit_placeholder_jump, emit_placeholder, record_break. cbn. rewrite Hloops.
  unfold extended, with_loops, with_code. cbn. by rewrite Hloops.
Qed.

Lemma adds_at_continue base target :
  adds_at (Some target) base (frame ← innermost_loop f; emit (I_Jump (continue_target frame))) [Some (I_Jump target)].
Proof.
  intros c Hb Hl. unfold loop_start in Hl. destruct (c_loops c) as [|frame outer] eqn:Hloops; [done|]. injection Hl as Hl.
  st_unfold. unfold innermost_loop. rewrite Hloops, Hl. by rewrite (extended_plain [I_Jump target]).
Qed.

Lemma adds_stmt fuel : forall base s l continue, stmt_code fuel continue base s = Some l ->
  adds_at continue base (Compile.compile_stmt p engines f fuel s) l.
Proof.
  induction fuel as [|fuel IH]; intros base s l continue Hl; [done|].
  rewrite compile_stmt_unfold. cbn [stmt_code] in Hl.
  destruct s as [slot e|[slot path] e| |[e|]|e|cond ts es| |cond body| | |]; try discriminate; cbn [compile_stmt_node].
  - by apply adds_expr_then.
  - destruct path; [|done]. by apply adds_expr_then.
  - by apply adds_expr_then.
  - simplify_eq. apply adds_at_emit.
  - by apply adds_expr_then.
  - apply bind_Some in Hl as (a & Ha & Hl). eapply adds_at_select_open; [by apply adds_expr|exact Hl|..];
      intros b t Ht; (eapply adds_body; [|exact Ht]); intros; by apply IH.
  - apply bind_Some in Hl as (a & Ha & Hl). apply bind_Some in Hl as (t & Ht & [= <-]).
    apply adds_at_while; [by apply adds_expr|]. eapply adds_body; [|exact Ht]. intros. by apply IH.
  - destruct continue as [target|]; [|done]. simplify_eq. apply adds_at_break.
  - destruct continue as [target|]; [|done]. simplify_eq. apply adds_at_continue.
Qed.

(** ** Functions *)

(** The code of a whole body: no jump is left open. *)
Definition body_code (fuel base : nat) (ss : list IrStmt) : option Code :=
  l ← stmts_code (stmt_code fuel None) base ss; Some (closed 0 l ++ [I_ReturnVoid]).

Lemma adds_function fuel index pool l :
  default Runtime (engines !! index) <> Native ->
  body_code fuel (length (lifecycle_entry p index)) (body f) = Some l ->
  compile_function fuel p engines index f pool = Ok (pool, lifecycle_entry p index ++ l).
Proof.
  intros Hn Hl. unfold compile_function. rewrite decide_False by done.
  apply bind_Some in Hl as (a & Ha & [= <-]).
  assert (forall base s l, stmt_code fuel None base s = Some l -> adds_at None base (Compile.compile_stmt p engines f fuel s) l)
    as Hs by (intros; by apply adds_stmt).
  pose proof (adds_body _ _ _ _ Hs _ _ Ha {| c_pool := pool; c_code := lifecycle_entry p index; c_loops := [] |} eq_refl eq_refl) as H.
  rewrite H. cbn. by rewrite <- app_assoc.
Qed.
End Direct.


(** [acc = 1; while true { if n <= 0 { break } acc = acc * n; n = n - 1 } return acc],
    over [U8]. *)
Definition factorial_u8 : IrProgram :=
  let u8 := T_Int Spell_U8 in {|
  ir_functions := [{| if_name := [x66]; if_param_count := 1; Ir.locals := [u8; u8]; native_state_locals := [];
    return_type := u8; if_execution := Runtime; is_main_thread := false; by_reference_params := [];
    by_pointer_params := [];
    body := [S_Let 1 0%nat;
             S_While 1%nat [S_If 4%nat [S_Break] [];
                            S_Assign {| pl_local := 1; pl_path := [] |} 6%nat;
                            S_Assign {| pl_local := 0; pl_path := [] |} 7%nat];
             S_Return (Some 5%nat)] |}];
  ir_types := empty_types; descriptors := []; ir_main := None; main_thread_lifecycles := []; ir_exports := [];
  ir_foreign_imports := []; ir_foreign_aggregates := Foreign.ForeignAggregates_new; ir_foreign_callbacks := [];
  exprs := [E_Int 1; E_Bool true; E_Local 0; E_Int 0; E_Binary LeInt 2%nat 3%nat u8; E_Local 1;
            E_Binary MulInt 5%nat 2%nat u8; E_Binary SubInt 2%nat 0%nat u8];
  ir_constants := [] |}.

Definition factorial_f : IrFunction :=
  hd (Build_IrFunction [] 0 [] [] T_Void Runtime false [] [] []) (ir_functions factorial_u8).

