(* ===== verification/CompileSim.v ===== *)
(** * Direct code on the interpreter

    The code [CompileDirect] builds, run on the interpreter, does what [IrEval]
    says: an expression leaves its value on the stack, a statement changes the
    locals and goes where it says, and a fault is a trap. *)

From stdpp Require Import gmap strings relations.
From S2P Require Import Prelude.
From S2P Require Import Instruction.
From S2P Require Import ModuleFormat.
From S2P Require Import Types.
From S2P Require Import Ir.
From S2P Require Import Compile.
From S2P Require Import Heap.
From S2P Require Import VmState.
From S2P Require Import VmOps.
From S2P Require Import VmStep.
From S2P Require Import VmRun.
From S2P Require Import IrEval.
From S2P Require Import CompileArith.
From S2P Require Import CompileDirect.

(** Nothing for the loop to do but the next instruction. *)
Record calm (vm : Vm) : Prop := {
  calm_cells : released_cells (heap vm) = [];
  calm_drops : owes_drops (heap vm) = false;
  calm_events : owes_native_state (heap vm) = false;
  calm_bodies : running_drops vm = [];
  calm_budget : slice_budget vm = None
}.

(** A value a frame holds without owning anything. *)
Definition unowned (v : Value) : bool := negb (is_heap_value v) && negb (is_view v).

Section Sim.
Context {host : Host} {allocator : Allocator} {hosted : HostChannels}.
Context (p : IrProgram) (f : IrFunction) (m : Module_) (index : Z) (g : FuncProto) (vm0 : Vm).
Context (Hat : function_at m index = Some g) (Hcalm : calm vm0).
Context (Hcode : Z.of_nat (length (code g)) <= usize_max) (Hlocals : Z.of_nat (length (Ir.locals f)) <= usize_max).

(** The machine about to run instruction [k]. *)
Definition at_pc (k : nat) (st loc : list Value) (lv : list bool) : Machine :=
  (with_stack st vm0,
   [{| func := index; pc := k; VmState.locals := loc; live := lv; writebacks := []; capture := [] |}]).

Definition steps_to (s s' : Machine) : Prop := turn m None s = (s', Ok (inl None)).
Abbreviation reaches := (rtc steps_to).
Definition trapped (s : Machine) : Prop := exists s1 s2 e, reaches s s1 /\ turn m None s1 = (s2, Err (Trap e)).

(** From [s] the machine gets where the answer says. *)
Definition comes {A} (s : Machine) (a : Answer A) (P : A -> Machine -> Prop) : Prop :=
  match a with
  | Gives a => exists s', reaches s s' /\ P a s'
  | Faults => trapped s
  | Stuck => True
  end.

Lemma trapped_later s s' : reaches s s' -> trapped s' -> trapped s.
Proof. intros Hs (s1 & s2 & e & Hr & Ht). exists s1, s2, e. split; [by etrans|done]. Qed.

Lemma comes_later {A} s s' (a : Answer A) P : reaches s s' -> comes s' a P -> comes s a P.
Proof. intros Hs. destruct a; cbn; [|by apply trapped_later|done]. intros (s2 & Hr & HP). exists s2. split; [by etrans|done]. Qed.

Lemma comes_here {A} s (a : A) (P : A -> Machine -> Prop) : P a s -> comes s (Gives a) P.
Proof. intros. by exists s. Qed.

Lemma comes_bind {A B} s (a : Answer A) (k : A -> Answer B) P Q :
  comes s a P -> (forall x s', P x s' -> comes s' (k x) Q) -> comes s (a ≫= k) Q.
Proof.
  destruct a as [x| |]; cbn; [|done|done]. intros (s' & Hr & HP) Hk. eapply comes_later; [exact Hr|by apply Hk].
Qed.

Lemma comes_weaken {A} s (a : Answer A) (P Q : A -> Machine -> Prop) :
  comes s a P -> (forall x s', P x s' -> exists s2, reaches s' s2 /\ Q x s2) -> comes s a Q.
Proof.
  destruct a as [x| |]; cbn; [|done|done]. intros (s' & Hr & HP) Hk. destruct (Hk _ _ HP) as (s2 & Hr2 & HQ).
  exists s2. split; [by etrans|done].
Qed.

Lemma comes_want_int s v (P : Z -> Machine -> Prop) : (forall w, v = SInt w -> P w s) -> comes s (want_int v) P.
Proof. intros H. destruct v; [|done]. by apply comes_here, H. Qed.

Lemma comes_want_bool s v (P : bool -> Machine -> Prop) : (forall b, v = SBool b -> P b s) -> comes s (want_bool v) P.
Proof. intros H. destruct v; [done|]. by apply comes_here, H. Qed.

(** ** Code in place *)

(** [l] is the function's code from [base], and not its end. *)
Definition placed (base : nat) (l : list Instruction) : Prop :=
  exists pre post, code g = pre ++ l ++ post /\ length pre = base /\ post <> [].

Lemma placed_app base l1 l2 : placed base (l1 ++ l2) -> placed base l1 /\ placed (base + length l1) l2.
Proof.
  intros (pre & post & Hc & <- & Hp). split.
  - exists pre, (l2 ++ post). rewrite Hc, <- !app_assoc. split_and!; [done|done|]. by destruct l2.
  - exists (pre ++ l1), post. rewrite Hc, length_app, <- !app_assoc. done.
Qed.

Lemma placed_cons base i l : placed base (i :: l) -> code g !! base = Some i /\ placed (S base) l.
Proof.
  intros H. apply (placed_app base [i] l) in H as [(pre & post & Hc & <- & _) H].
  split; [|by replace (S (length pre)) with (length pre + 1)%nat by lia]. rewrite Hc. by apply list_lookup_middle.
Qed.

Lemma placed_end base l : placed base l -> (base + length l < length (code g))%nat.
Proof. intros (pre & [|i post] & Hc & <- & Hp); [done|]. rewrite Hc, !length_app. cbn. lia. Qed.

(** ** Turns *)

Lemma with_stack_self vm : with_stack (stack vm) vm = vm.
Proof. by destruct vm. Qed.

Lemma calm_step i st fr : step m i (with_stack st vm0, fr) = execute m i (with_stack st vm0, fr).
Proof.
  unfold step. st_unfold. cbn. unfold drain_released_cells. rewrite (calm_cells _ Hcalm). cbn. do 2 f_equal.
  pose proof (calm_cells _ Hcalm) as Hc. destruct vm0 as [h ? ? ? ? ? ? ? ? ? ? ?]. cbn in *. unfold with_stack, with_heap. cbn.
  f_equal. destruct h. unfold with_registry. cbn in *. by subst.
Qed.

Lemma turn_at k st loc lv i : code g !! k = Some i ->
  turn m None (at_pc k st loc lv) = (completed ← dispatch m None i; mret (inl completed)) (at_pc (S k) st loc lv).
Proof.
  intros Hi. unfold turn. st_unfold. unfold finish_returned_drops, get_machine. cbn.
  rewrite (calm_bodies _ Hcalm). cbn.
  assert (with_drops [] (with_stack st vm0) = with_stack st vm0) as ->.
  { pose proof (calm_bodies _ Hcalm) as Hb. destruct vm0. unfold with_drops, with_stack. cbn in *. by rewrite Hb. }
  cbn. rewrite (calm_drops _ Hcalm), (calm_events _ Hcalm). unfold spend. cbn. rewrite (calm_budget _ Hcalm).
  unfold in_top, fetch, get_frame, need, index_or_panic, put_frame. st_unfold. cbn. rewrite Hat. cbn. by rewrite Hi.
Qed.

Lemma dispatch_alone i k st loc lv : alone i = true ->
  dispatch m None i (at_pc k st loc lv) = (_ ← in_top (execute m i); mret None) (at_pc k st loc lv).
Proof.
  intros Hi. assert (dispatch m None i = (_ ← in_top (if is_fast i then execute m i else step m i); mret None)) as ->
    by (by destruct i).
  st_unfold. unfold in_top, at_pc. cbn. destruct (is_fast i); [done|]. by rewrite calm_step.
Qed.

(** An instruction that leaves the frame's counter where the loop put it. *)
Lemma executes k i st st' loc loc' lv lv' : code g !! k = Some i -> alone i = true ->
  (forall fr, VmState.locals fr = loc -> live fr = lv ->
     execute m i (with_stack st vm0, fr) = ((with_stack st' vm0, set_locals loc' lv' fr), Ok tt)) ->
  steps_to (at_pc k st loc lv) (at_pc (S k) st' loc' lv').
Proof.
  intros Hi Ha Hx. unfold steps_to. rewrite (turn_at _ _ _ _ _ Hi). st_unfold. rewrite dispatch_alone by done.
  st_unfold. unfold in_top, at_pc. cbn. by rewrite Hx.
Qed.

Lemma does_step k i st st' loc lv : code g !! k = Some i -> alone i = true -> does m i st st' ->
  steps_to (at_pc k st loc lv) (at_pc (S k) st' loc lv).
Proof. intros Hi Ha Hd. apply (executes k i); [done..|]. intros fr <- <-. rewrite Hd. by destruct fr. Qed.

Lemma traps_step k i st loc lv : code g !! k = Some i -> alone i = true -> traps_on m i st -> trapped (at_pc k st loc lv).
Proof.
  intros Hi Ha Ht. destruct (Ht vm0 {| func := index; pc := S k; VmState.locals := loc; live := lv; writebacks := []; capture := [] |})
    as ([vm fr] & e & Hx).
  exists (at_pc k st loc lv), (vm, [fr]), e. split; [done|]. rewrite (turn_at _ _ _ _ _ Hi). st_unfold. rewrite dispatch_alone by done.
  st_unfold. unfold in_top, at_pc. cbn. by rewrite Hx.
Qed.

Lemma straight_run l st r loc lv : straight m l st r -> forall base, forallb alone l = true -> placed base l ->
  match r with
  | Some st' => reaches (at_pc base st loc lv) (at_pc (base + length l) st' loc lv)
  | None => trapped (at_pc base st loc lv)
  end.
Proof.
  induction 1 as [st|i l st st' r Hi _ IH|i l st Hi]; intros base Ha Hp; cbn [length].
  - by rewrite Nat.add_0_r.
  - apply andb_true_iff in Ha as [Hai Ha]. apply placed_cons in Hp as [Hlk Hp].
    pose proof (does_step _ _ _ _ loc lv Hlk Hai Hi) as Hs. specialize (IH (S base) Ha Hp). destruct r as [st2|].
    + replace (base + S (length l))%nat with (S base + length l)%nat by lia. by eapply rtc_l.
    + eapply trapped_later; [by eapply rtc_once|done].
  - apply andb_true_iff in Ha as [Hai Ha]. apply placed_cons in Hp as [Hlk Hp]. by eapply traps_step.
Qed.

(** What operator code makes of its operands. *)
Lemma leaves_comes base st a l operands loc lv : leaves m st a l operands -> forallb alone l = true -> placed base l ->
  comes (at_pc base (operands ++ st) loc lv) a (fun v s' => s' = at_pc (base + length l) (repr v :: st) loc lv).
Proof.
  intros Hl Ha Hp. destruct a as [v| |]; cbn in *; [|exact (straight_run _ _ _ loc lv Hl base Ha Hp)|done].
  eexists. split; [exact (straight_run _ _ _ loc lv Hl base Ha Hp)|done].
Qed.

(** ** Jumps *)

Lemma jumps k t st st0 loc lv i : code g !! k = Some i -> alone i = true -> (t < length (code g))%nat ->
  (forall fr, execute m i (with_stack st0 vm0, fr) = jump_op m (Z.of_nat t) (with_stack st vm0, fr)) ->
  steps_to (at_pc k st0 loc lv) (at_pc t st loc lv).
Proof.
  intros Hi Ha Ht Hx. unfold steps_to. rewrite (turn_at _ _ _ _ _ Hi). st_unfold. rewrite dispatch_alone by done.
  st_unfold. unfold in_top, at_pc. cbn. rewrite Hx. unfold jump_op, get_frame, need. st_unfold. cbn.
  unfold function_at in Hat. st_unfold. rewrite Hat. cbn. rewrite usize_try_from_nat by lia. by rewrite decide_True.
Qed.

Lemma jump_runs k t st loc lv : code g !! k = Some (I_Jump (Z.of_nat t)) -> (t < length (code g))%nat ->
  steps_to (at_pc k st loc lv) (at_pc t st loc lv).
Proof. intros Hi Ht. by apply (jumps k t st st loc lv (I_Jump (Z.of_nat t))). Qed.

Lemma jump_if_false_runs k t b st loc lv : code g !! k = Some (I_JumpIfFalse (Z.of_nat t)) -> (t < length (code g))%nat ->
  steps_to (at_pc k (V_Bool b :: st) loc lv) (at_pc (if b : bool then S k else t) st loc lv).
Proof.
  intros Hi Ht. destruct b.
  - apply (executes k _ _ _ _ _ _ _ Hi); [done|]. intros fr <- <-. by destruct fr.
  - by apply (jumps k t _ _ _ _ _ Hi).
Qed.

(** ** Locals *)

(** The frame's locals hold what the environment says. *)
Record env (rho : gmap Z Scalar) (loc : list Value) : Prop := {
  env_length : length loc = length (Ir.locals f);
  env_plain : Forall (fun v => unowned v = true) loc;
  env_values : forall slot v, rho !! slot = Some v ->
    is_scalar_local f slot = true /\ loc !! Z.to_nat slot = Some (repr v)
}.

Lemma scalar_slot slot : is_scalar_local f slot = true -> 0 <= slot /\ (Z.to_nat slot < length (Ir.locals f))%nat.
Proof.
  unfold is_scalar_local. destruct (Ir.locals f !! Z.to_nat slot) as [ty|] eqn:Hty; [|done].
  intros H. split; [destruct ty; try done; by apply Z.leb_le|by eapply lookup_lt_Some].
Qed.

Lemma slot_index slot : is_scalar_local f slot = true -> usize_try_from slot = Some (Z.to_nat slot).
Proof. intros [H0 Hl]%scalar_slot. rewrite <- (Z2Nat.id slot) at 1 by done. apply usize_try_from_nat. lia. Qed.

Lemma scalar_not_taken slot : is_scalar_local f slot = true -> local_is_taken p f slot = false.
Proof.
  unfold is_scalar_local, local_is_taken, slot_takes_on_read. destruct (Ir.locals f !! Z.to_nat slot) as [ty|]; [|done].
  intros H. destruct ty; done.
Qed.

Lemma load_runs k st loc lv rho slot v : code g !! k = Some (I_LoadLocal slot) -> env rho loc -> rho !! slot = Some v ->
  steps_to (at_pc k st loc lv) (at_pc (S k) (repr v :: st) loc lv).
Proof.
  intros Hi He Hv. destruct (env_values _ _ He _ _ Hv) as [Hs Hl]. apply (executes k _ _ _ _ _ _ _ Hi); [done|].
  intros fr Hloc <-. cbn. unfold load_local, local_index, need. st_unfold. rewrite (slot_index _ Hs). cbn. rewrite Hloc, Hl. cbn.
  destruct fr, v; cbn in *; by subst.
Qed.

Lemma env_insert rho loc slot v : env rho loc -> is_scalar_local f slot = true ->
  env (<[slot := v]> rho) (<[Z.to_nat slot := repr v]> loc).
Proof.
  intros [Hlen Hp Hv] Hs. pose proof (scalar_slot _ Hs) as [H0 Hl]. split.
  - by rewrite length_insert.
  - apply Forall_insert; [done|by destruct v].
  - intros slot' v'. destruct (decide (slot' = slot)) as [->|Hne].
    + rewrite lookup_insert_eq. intros [= <-]. split; [done|]. apply list_lookup_insert_eq. lia.
    + rewrite lookup_insert_ne by done. intros Hlk. destruct (Hv _ _ Hlk) as [Hs' Hl']. split; [done|].
      pose proof (scalar_slot _ Hs') as [H0' _]. rewrite list_lookup_insert_ne by lia. done.
Qed.

Lemma store_runs k st loc lv rho slot v : code g !! k = Some (I_StoreLocal slot) -> env rho loc -> is_scalar_local f slot = true ->
  exists loc' lv', steps_to (at_pc k (repr v :: st) loc lv) (at_pc (S k) st loc' lv') /\ env (<[slot := v]> rho) loc'.
Proof.
  intros Hi He Hs. pose proof (scalar_slot _ Hs) as [H0 Hl].
  destruct (lookup_lt_is_Some_2 loc (Z.to_nat slot)) as (old & Hold); [rewrite (env_length _ _ He); done|].
  assert (unowned old = true) as Hplain.
  { exact (Forall_lookup_1 _ _ _ _ (env_plain _ _ He) Hold). }
  exists (<[Z.to_nat slot := repr v]> loc), (<[Z.to_nat slot := false]> lv). split; [|by apply env_insert].
  apply (executes k _ _ _ _ _ _ _ Hi); [done|].
  intros fr Hloc <-. cbn. unfold store_local, local_index, need. st_unfold. rewrite (slot_index _ Hs). cbn. rewrite Hloc, Hold.
  assert (is_view old = false /\ store_releases old = false) as [-> ->] by by destruct old.
  cbn. rewrite andb_false_r. cbn. destruct fr, v; cbn in *; by subst.
Qed.

(** ** Conditions *)

Definition pushed (k : nat) (st loc : list Value) (lv : list bool) (v : Scalar) (s : Machine) : Prop :=
  s = at_pc k (repr v :: st) loc lv.

(** An arm chosen by a condition; [Q] says where an arm that ends at [k] leaves
    the machine. *)
Lemma select_comes {A} (Q : nat -> A -> Machine -> Prop) base cl t e st loc lv cond (then_ else_ : Answer A) :
  let then_base := S (base + length cl) in
  let else_base := S (then_base + length t) in
  let end_ := (else_base + length e)%nat in
  placed base (cl ++ I_JumpIfFalse (Z.of_nat else_base) :: t ++ I_Jump (Z.of_nat end_) :: e) ->
  comes (at_pc base st loc lv) cond (pushed (base + length cl) st loc lv) ->
  comes (at_pc then_base st loc lv) then_ (Q (then_base + length t)%nat) ->
  comes (at_pc else_base st loc lv) else_ (Q end_) ->
  ((forall st loc lv, steps_to (at_pc (then_base + length t) st loc lv) (at_pc end_ st loc lv)) ->
    forall a s, Q (then_base + length t)%nat a s -> exists s', reaches s s' /\ Q end_ a s') ->
  comes (at_pc base st loc lv) (c ← cond; c ← want_bool c; if c : bool then then_ else else_) (Q end_).
Proof.
  intros then_base else_base end_ Hp Hc Ht He Hmove.
  pose proof (placed_end _ _ Hp) as Hend. apply placed_app in Hp as [_ Hp]. apply placed_cons in Hp as [Hjif Hp].
  apply placed_app in Hp as [_ Hp]. apply placed_cons in Hp as [Hjump _]. fold then_base in Hjump.
  rewrite length_app in Hend. cbn in Hend. rewrite length_app in Hend. cbn in Hend.
  eapply comes_bind; [exact Hc|]. intros v s' ->.
  eapply (comes_bind _ _ _ (fun b s => v = SBool b /\ s = at_pc (base + length cl) (repr v :: st) loc lv)).
  { by apply comes_want_bool. }
  intros b s' [-> ->]. eapply comes_later.
  { apply rtc_once, (jump_if_false_runs _ else_base b); [exact Hjif|subst else_base then_base; lia]. }
  destruct b; [|exact He]. eapply comes_weaken; [exact Ht|]. apply Hmove.
  intros st' loc' lv'. apply jump_runs; [exact Hjump|subst end_ else_base then_base; lia].
Qed.

Lemma pushed_moves k k' st loc lv :
  (forall st loc lv, steps_to (at_pc k st loc lv) (at_pc k' st loc lv)) ->
  forall v s, pushed k st loc lv v s -> exists s', reaches s s' /\ pushed k' st loc lv v s'.
Proof. intros H v s ->. eexists. split; [apply rtc_once, H|done]. Qed.

Lemma push_runs k i v st loc lv : code g !! k = Some i -> alone i = true -> does m i st (v :: st) ->
  reaches (at_pc k st loc lv) (at_pc (S k) (v :: st) loc lv).
Proof. intros. by eapply rtc_once, does_step. Qed.

(** A second operand that must be a boolean. *)
Lemma bool_comes s k st loc lv (a : Answer Scalar) : comes s a (pushed k st loc lv) ->
  comes s (b ← a; b ← want_bool b; mret (SBool b)) (pushed k st loc lv).
Proof.
  intros H. eapply comes_bind; [exact H|]. intros v s' Hv. destruct v as [|b]; [done|]. by apply comes_here.
Qed.

Lemma pushes_comes base i v st loc lv : placed base [i] -> alone i = true -> does m i st (repr v :: st) ->
  comes (at_pc base st loc lv) (Gives v) (pushed (base + 1) st loc lv).
Proof.
  intros [Hi _]%placed_cons Ha Hd. eexists. split; [by eapply push_runs|]. by rewrite Nat.add_1_r.
Qed.

Lemma select_expr_comes base cl then_code else_code l st loc lv cond then_ else_ :
  select_code (fun i => i) base cl then_code else_code = Some l -> placed base l ->
  (placed base cl -> comes (at_pc base st loc lv) cond (pushed (base + length cl) st loc lv)) ->
  (forall k t, then_code k = Some t -> placed k t -> comes (at_pc k st loc lv) then_ (pushed (k + length t) st loc lv)) ->
  (forall k e, else_code k = Some e -> placed k e -> comes (at_pc k st loc lv) else_ (pushed (k + length e) st loc lv)) ->
  comes (at_pc base st loc lv) (c ← cond; c ← want_bool c; if c : bool then then_ else else_) (pushed (base + length l) st loc lv).
Proof.
  intros (t & e & Htc & Hec & ->)%select_code_Some Hp Hc Ht He.
  pose proof Hp as [Hcl Hrest]%placed_app. apply placed_cons in Hrest as [_ Hrest].
  apply placed_app in Hrest as [Hpt Hrest]. apply placed_cons in Hrest as [_ Hpe].
  replace (base + _)%nat with (S (S (base + length cl) + length t) + length e)%nat by (rewrite length_app; cbn; rewrite length_app; cbn; lia).
  apply (select_comes (fun k => pushed k st loc lv)); [exact Hp|by apply Hc|by apply Ht|by apply He|].
  intros Hjump. by apply pushed_moves.
Qed.

(** ** Expressions *)

Lemma expr_runs n : forall fuel base id l st rho loc lv,
  expr_code p f n base id = Some l -> placed base l -> env rho loc ->
  comes (at_pc base st loc lv) (eval p f fuel rho id) (pushed (base + length l) st loc lv).
Proof.
  induction n as [|n IH]; intros fuel base id l st rho loc lv Hl Hp He; [done|]. destruct fuel as [|fuel]; [done|].
  cbn [eval expr_code] in *. destruct (exprs p !! id) as [e|]; [|done].
  destruct e; try done.
  - simplify_eq. by eapply pushes_comes.
  - simplify_eq. by eapply pushes_comes.
  - simplify_eq. destruct (rho !! slot) as [v|] eqn:Hv; [|done].
    destruct (env_values _ _ He _ _ Hv) as [Hs _]. rewrite scalar_not_taken in Hp |- * by done.
    apply placed_cons in Hp as [Hi _]. eexists. split; [by eapply rtc_once, load_runs|]. by rewrite Nat.add_1_r.
  - apply bind_Some in Hl as (a & Ha & [= <-]). apply placed_app in Hp as [Hpa Hp].
    eapply comes_bind; [by apply IH|]. intros v s' ->. rewrite length_app, Nat.add_assoc.
    by apply (leaves_comes _ _ _ _ [repr v]); [apply unary_runs|apply unary_alone|].
  - assert (forall i, binary_instruction op = Ok i ->
      (a ← expr_code p f n base lhs; r ← expr_code p f n (base + length a) rhs; Some (a ++ r ++ operator_code op ty)) = Some l ->
      comes (at_pc base st loc lv) (a ← eval p f fuel rho lhs; b ← eval p f fuel rho rhs; binary_op op ty a b)
        (pushed (base + length l) st loc lv)) as Hplain.
    { intros i Hop H. apply bind_Some in H as (a & Ha & H). apply bind_Some in H as (r & Hr & [= <-]).
      apply placed_app in Hp as [Hpa Hp]. apply placed_app in Hp as [Hpr Hp].
      eapply comes_bind; [by apply IH|]. intros va s1 ->. eapply comes_bind; [by apply IH|]. intros vb s2 ->.
      rewrite !length_app, !Nat.add_assoc.
      by apply (leaves_comes _ _ _ _ [repr vb; repr va]); [eapply binary_runs|apply operator_alone|]. }
    destruct op; try (by eapply Hplain); apply bind_Some in Hl as (a & Ha & Hl);
      (eapply select_expr_comes; [exact Hl|exact Hp|by intros; apply IH|..]); intros k t Ht Hpt; cbn in Ht.
    + by apply bool_comes, IH.
    + simplify_eq. by apply (pushes_comes _ (I_ConstBool false) (SBool false)).
    + simplify_eq. by apply (pushes_comes _ (I_ConstBool true) (SBool true)).
    + by apply bool_comes, IH.
  - destruct then_setup, then_cleanup, otherwise_setup, otherwise_cleanup; try done.
    apply bind_Some in Hl as (a & Ha & Hl).
    (eapply select_expr_comes; [exact Hl|exact Hp|by intros; apply IH|..]); intros k t Ht Hpt; by apply IH.
  - destruct kind; try done. destruct ty as [to| | | | | | | | | | | | | | | | | | | |]; try done.
    destruct (expr_type p f operand) as [[from| | | | | | | | | | | | | | | | | | | |]|] eqn:Hty; try done.
    apply bind_Some in Hl as (a & Ha & [= <-]). apply placed_app in Hp as [Hpa Hp].
    eapply comes_bind; [by apply IH|]. intros v s' ->. rewrite length_app, Nat.add_assoc.
    eapply (comes_bind _ _ _ (fun w s => v = SInt w /\ s = at_pc (base + length a) (repr v :: st) loc lv));
      [by apply comes_want_int|]. intros w s' [-> ->].
    by apply (leaves_comes _ _ _ _ [V_Int w]); [apply convert_runs|apply convert_alone|].
Qed.

(** ** Statements *)

(** Where a statement whose code ends at [k] leaves the machine: a break goes to
    [exit], a continue to [start]. *)
Definition lands (k exit : nat) (start : option nat) (st : list Value) (r : gmap Z Scalar * Flow) (s : Machine) : Prop :=
  exists loc lv, env r.1 loc /\
    match r.2 with
    | Next => s = at_pc k st loc lv
    | Broke => start <> None /\ s = at_pc exit st loc lv
    | Continued => exists t, start = Some t /\ s = at_pc t st loc lv
    | Returned (Some v) => exists j, code g !! j = Some I_Return /\ s = at_pc j (repr v :: st) loc lv
    | Returned None => exists j, code g !! j = Some I_ReturnVoid /\ s = at_pc j st loc lv
    end.

Lemma lands_moves k k' exit start st :
  (forall st loc lv, steps_to (at_pc k st loc lv) (at_pc k' st loc lv)) ->
  forall r s, lands k exit start st r s -> exists s', reaches s s' /\ lands k' exit start st r s'.
Proof.
  intros H [rho flow] s (loc & lv & He & Hs). cbn in *. destruct flow; try (by exists s; split; [done|exists loc, lv]).
  subst s. exists (at_pc k' st loc lv). split; [apply rtc_once, H|by exists loc, lv].
Qed.

Definition runs_stmts (code_of : nat -> IrStmt -> option (list (option Instruction)))
    (exec : gmap Z Scalar -> IrStmt -> Answer (gmap Z Scalar * Flow)) (exit : nat) (start : option nat) (st : list Value) : Prop :=
  forall base s l rho loc lv, code_of base s = Some l -> placed base (closed exit l) -> env rho loc ->
    comes (at_pc base st loc lv) (exec rho s) (lands (base + length l) exit start st).

Lemma stmts_run code_of exec exit start st : runs_stmts code_of exec exit start st ->
  forall ss base l rho loc lv, stmts_code code_of base ss = Some l -> placed base (closed exit l) -> env rho loc ->
    comes (at_pc base st loc lv) (exec_list exec rho ss) (lands (base + length l) exit start st).
Proof.
  intros Hs ss. induction ss as [|s ss IH]; intros base l rho loc lv Hl Hp He; cbn [stmts_code exec_list] in *.
  - simplify_eq. apply comes_here. exists loc, lv. by rewrite Nat.add_0_r.
  - apply bind_Some in Hl as (a & Ha & Hl). apply bind_Some in Hl as (r & Hr & [= <-]).
    rewrite closed_app in Hp. apply placed_app in Hp as [Hpa Hpr]. rewrite closed_length in Hpr.
    eapply comes_bind; [by eapply Hs|]. intros [rho' flow] s' (loc' & lv' & He' & Hf). cbn in *.
    destruct flow; try (by apply comes_here; exists loc', lv').
    subst s'. rewrite length_app, Nat.add_assoc. by apply IH.
Qed.

Lemma bound_comes n fuel base e slot l st rho loc lv exit start :
  (a ← expr_code p f n base e; Some (Some <$> a ++ [I_StoreLocal slot])) = Some l -> placed base (closed exit l) -> env rho loc ->
  comes (at_pc base st loc lv) (bind_local p f fuel rho slot e) (lands (base + length l) exit start st).
Proof.
  intros Hl Hp He. apply bind_Some in Hl as (a & Ha & [= <-]). rewrite closed_all in Hp. apply placed_app in Hp as [Hpa Hp].
  apply placed_cons in Hp as [Hi _]. unfold bind_local. destruct (is_scalar_local f slot) eqn:Hs; [|done].
  eapply comes_bind; [by eapply expr_runs|]. intros v s' ->.
  destruct (store_runs _ st loc lv rho slot v Hi He Hs) as (loc' & lv' & Hstep & He').
  eapply comes_later; [by apply rtc_once|]. apply comes_here. exists loc', lv'. split; [done|].
  rewrite length_fmap, length_app. cbn. f_equal. lia.
Qed.

Lemma pop_does v st : does m I_Pop (repr v :: st) st.
Proof. intros vm fr. destruct v; cbn; st_unfold; cbn; unfold with_heap, with_stack; cbn; by destruct vm. Qed.

(** A loop whose body runs. *)
Lemma while_runs n base cond body cl t st exit start :
  expr_code p f n base cond = Some cl ->
  let body_base := S (base + length cl) in
  let end_ := S (body_base + length t) in
  placed base (cl ++ I_JumpIfFalse (Z.of_nat end_) :: closed end_ t ++ [I_Jump (Z.of_nat base)]) ->
  (forall fuel rho loc lv, env rho loc ->
     comes (at_pc body_base st loc lv) (exec_list (exec p f fuel) rho body) (lands (body_base + length t) end_ (Some base) st)) ->
  forall fuel rho loc lv, env rho loc ->
    comes (at_pc base st loc lv) (exec p f fuel rho (S_While cond body)) (lands end_ exit start st).
Proof.
  intros Hcl body_base end_ Hp Hbody fuel. pose proof (placed_end _ _ Hp) as Hend.
  apply placed_app in Hp as [Hpc Hp]. apply placed_cons in Hp as [Hjif Hp]. apply placed_app in Hp as [_ Hp].
  rewrite closed_length in Hp. apply placed_cons in Hp as [Hjump _]. fold body_base in Hjump.
  rewrite !length_app in Hend. cbn in Hend. rewrite length_app, closed_length in Hend. cbn in Hend.
  induction fuel as [|fuel IH]; intros rho loc lv He; [done|]. cbn [exec].
  eapply comes_bind; [by eapply expr_runs|]. intros v s' ->.
  eapply (comes_bind _ _ _ (fun b s => v = SBool b /\ s = at_pc (base + length cl) (repr v :: st) loc lv));
    [by apply comes_want_bool|]. intros b s' [-> ->].
  eapply comes_later; [apply rtc_once, (jump_if_false_runs _ end_ b); [exact Hjif|subst end_ body_base; lia]|].
  destruct b; [|by apply comes_here; exists loc, lv].
  eapply comes_bind; [by apply Hbody|]. intros [rho' flow] s' (loc' & lv' & He' & Hf). cbn in He', Hf.
  destruct flow.
  - subst s'. eapply comes_later; [apply rtc_once, (jump_runs _ base); [exact Hjump|lia]|]. by apply IH.
  - destruct Hf as [_ Hf]. by apply comes_here; exists loc', lv'.
  - destruct Hf as (t0 & [= <-] & ->). by apply IH.
  - by apply comes_here; exists loc', lv'.
Qed.

Lemma stmt_runs n : forall fuel exit start base s l st rho loc lv,
  stmt_code p f n (Z.of_nat <$> start) base s = Some l -> placed base (closed exit l) -> env rho loc ->
  (exit < length (code g))%nat -> (forall t, start = Some t -> (t < length (code g))%nat) ->
  comes (at_pc base st loc lv) (exec p f fuel rho s) (lands (base + length l) exit start st).
Proof.
  induction n as [|n IH]; intros fuel exit start base s l st rho loc lv Hl Hp He Hexit Hstart; [done|].
  destruct fuel as [|fuel]; [done|].
  destruct s as [slot e|[slot path] e| |[e|]|e|cond ts es| |cond body| | |]; try discriminate; cbn [stmt_code] in Hl.
  - by apply (bound_comes n).
  - destruct path; [|done]. by apply (bound_comes n).
  - apply bind_Some in Hl as (a & Ha & [= <-]). rewrite closed_all in Hp. apply placed_app in Hp as [Hpa Hp].
    apply placed_cons in Hp as [Hi _]. cbn [exec]. eapply comes_bind; [by eapply expr_runs|]. intros v s' ->.
    apply comes_here. exists loc, lv. split; [done|]. by eexists.
  - simplify_eq. apply placed_cons in Hp as [Hi _]. apply comes_here. exists loc, lv. split; [done|]. by eexists.
  - apply bind_Some in Hl as (a & Ha & [= <-]). rewrite closed_all in Hp. apply placed_app in Hp as [Hpa Hp].
    apply placed_cons in Hp as [Hi _]. cbn [exec]. eapply comes_bind; [by eapply expr_runs|]. intros v s' ->.
    eapply comes_later; [by eapply rtc_once, does_step, pop_does|]. apply comes_here. exists loc, lv. split; [done|].
    rewrite length_fmap, length_app. cbn. f_equal. lia.
  - apply bind_Some in Hl as (a & Ha & Hl). apply select_code_Some in Hl as (t & e & Ht & Hel & ->).
    rewrite closed_select, length_fmap in Hp. rewrite length_fmap in Ht, Hel.
    pose proof Hp as [Hpc Hrest]%placed_app. apply placed_cons in Hrest as [_ Hrest].
    apply placed_app in Hrest as [Hpt Hrest]. apply placed_cons in Hrest as [_ Hpe]. rewrite closed_length in Hpe.
    replace (base + _)%nat with (S (S (base + length a) + length t) + length e)%nat
      by (rewrite length_app, length_fmap; cbn; rewrite length_app, ?length_fmap; cbn; lia).
    cbn [exec]. pose proof (select_comes (fun k => lands k exit start st) base a (closed exit t) (closed exit e)) as H.
    rewrite !closed_length in H. apply H; clear H.
    + exact Hp.
    + by eapply expr_runs.
    + apply (stmts_run (stmt_code p f n (Z.of_nat <$> start))); [|done..]. intros b s l rho' loc' lv' Hl' Hp' He'. by apply IH.
    + apply (stmts_run (stmt_code p f n (Z.of_nat <$> start))); [|done..]. intros b s l rho' loc' lv' Hl' Hp' He'. by apply IH.
    + intros Hjump. by apply lands_moves.
  - apply bind_Some in Hl as (a & Ha & Hl). apply bind_Some in Hl as (t & Ht & [= <-]). rewrite closed_all in Hp.
    pose proof (placed_end _ _ Hp) as Hend. rewrite !length_app in Hend. cbn in Hend. rewrite length_app, closed_length in Hend. cbn in Hend.
    replace (base + _)%nat with (S (S (base + length a) + length t))
      by (rewrite length_fmap, length_app; cbn; rewrite length_app, closed_length; cbn; lia).
    eapply (while_runs n); [exact Ha|exact Hp| |exact He]. intros fuel' rho' loc' lv' He'.
    apply (stmts_run (stmt_code p f n (Some (Z.of_nat base)))); [|exact Ht| |done].
    + intros b s l rho2 loc2 lv2 Hl2 Hp2 He2. apply (IH fuel' _ (Some base)); [done..|lia|]. intros t' [= <-]. lia.
    + apply placed_app in Hp as [_ Hp]. apply placed_cons in Hp as [_ Hp]. by apply placed_app in Hp as [Hp _].
  - destruct start as [t|]; [|done]. cbn in Hl. simplify_eq. apply placed_cons in Hp as [Hi _].
    eapply comes_later; [by eapply rtc_once, jump_runs|]. apply comes_here. by exists loc, lv.
  - destruct start as [t|]; [|done]. cbn in Hl. simplify_eq. apply placed_cons in Hp as [Hi _].
    eapply comes_later; [apply rtc_once, (jump_runs _ t); [exact Hi|by apply Hstart]|]. apply comes_here. exists loc, lv.
    split; [done|]. by exists t.
Qed.
End Sim.
