(* ===== verification/CompileSound.v ===== *)
(** * Compiled programs compute what they mean

    A function of the scalar fragment, compiled and entered on a quiet
    interpreter, answers what [IrEval.call] says it answers and traps where it
    faults: [compiled_computes]. *)

From stdpp Require Import gmap strings relations.
From S2P Require Import Prelude.
From S2P Require Import VmEntry.
From S2P Require Import Instruction.
From S2P Require Import ModuleFormat.
From S2P Require Import Types.
From S2P Require Import Ir.
From S2P Require Import Mid.
From S2P Require Import Compile.
From S2P Require Import Heap.
From S2P Require Import VmState.
From S2P Require Import VmStep.
From S2P Require Import VmRun.
From S2P Require Import IrEval.
From S2P Require Import CompileArith.
From S2P Require Import CompileDirect.
From S2P Require Import CompileSim.

Section Finish.
Context {host : Host} {allocator : Allocator} {hosted : HostChannels} (m : Module_).

Definition unowning (fr : Frame) : Prop := Forall (fun v => unowned v = true) (VmState.locals fr).

(** ** Frames that own nothing *)

Lemma set_locals_self fr : set_locals (VmState.locals fr) (live fr) fr = fr.
Proof. by destruct fr. Qed.

Lemma release_slot_unowning slot vm fr : unowning fr ->
  exists loc lv, release_slot slot (vm, fr) = ((vm, set_locals loc lv fr), Ok tt) /\ unowning (set_locals loc lv fr).
Proof.
  intros Hf. unfold release_slot, get_frame. st_unfold. cbn. destruct (VmState.locals fr !! slot) as [held|] eqn:Hheld.
  - assert (is_heap_value held = false) as ->.
    { pose proof (Forall_lookup_1 _ _ _ _ Hf Hheld) as H. cbn in H. unfold unowned in H. by destruct (is_heap_value held). }
    rewrite andb_false_r. cbn. eexists _, _. split; [done|]. by apply Forall_insert.
  - exists (VmState.locals fr), (live fr). by rewrite set_locals_self.
Qed.

Lemma release_slots_unowning slots : forall vm fr, unowning fr ->
  exists loc lv, release_slots slots (vm, fr) = ((vm, set_locals loc lv fr), Ok tt) /\ unowning (set_locals loc lv fr).
Proof.
  induction slots as [|slot slots IH]; intros vm fr Hf; cbn [release_slots].
  - exists (VmState.locals fr), (live fr). by rewrite set_locals_self.
  - destruct (release_slot_unowning slot vm fr Hf) as (loc & lv & Hr & Hf'). st_unfold. rewrite Hr. cbn.
    destruct (IH vm _ Hf') as (loc' & lv' & Hr' & Hf2). rewrite Hr'. by exists loc', lv'.
Qed.

Definition tidy (vm : Vm) : Prop := Forall unowning (frame_cache vm).

Lemma cache_frame_tidy vm fs fr : unowning fr -> tidy vm ->
  exists cache, cache_frame fr (vm, fs) = ((with_cache cache vm, fs), Ok tt) /\ tidy (with_cache cache vm).
Proof.
  intros Hf Ht. unfold cache_frame, set_vm. cbn. destruct (decide _).
  - exists (fr :: frame_cache vm). split; [done|]. by constructor.
  - exists (frame_cache vm). split; [by destruct vm|done].
Qed.

Lemma forget_dead_unowning vm fr : unowning fr ->
  exists loc, forget_dead (vm, fr) = ((vm, set_locals loc (live fr) fr), Ok tt) /\ unowning (set_locals loc (live fr) fr).
Proof.
  intros Hf. eexists. split; [done|]. apply Forall_lookup. intros i v Hv. cbn in Hv. rewrite list_lookup_imap in Hv.
  apply fmap_Some in Hv as (w & Hw & ->). destruct (is_live fr i); [|done]. exact (Forall_lookup_1 _ _ _ _ Hf Hw).
Qed.

Lemma release_plan_tidy plan vm fs fr : unowning fr -> tidy vm ->
  exists cache, release_plan plan fr (vm, fs) = ((with_cache cache vm, fs), Ok tt) /\ tidy (with_cache cache vm).
Proof.
  intros Hf Ht. destruct plan as [|slots]; unfold release_plan.
  - destruct (release_slots_unowning (seq 0 (length (VmState.locals fr))) vm fr Hf) as (loc & lv & Hr & Hf').
    unfold release_frame, with_frame, release_live_locals, get_frame. st_unfold. cbn -[cache_frame]. rewrite Hr. cbn -[cache_frame].
    by apply cache_frame_tidy.
  - destruct (release_slots_unowning (omap usize_try_from slots) vm fr Hf) as (loc & lv & Hr & Hf').
    destruct (forget_dead_unowning vm _ Hf') as (loc' & Hr' & Hf2).
    unfold with_frame, release_planned. st_unfold. cbn. rewrite Hr, Hr'. cbn. destruct (forallb _ _).
    + apply cache_frame_tidy; [|done]. apply Forall_fmap, Forall_true. done.
    + exists (frame_cache vm). split; [by destruct vm|done].
Qed.

Lemma hand_over_last vm answer : stack vm = [] -> hand_over answer (vm, []) = ((vm, []), Ok (Some answer)).
Proof. intros Hs. unfold hand_over. st_unfold. cbn. rewrite Hs. cbn. destruct vm; cbn in *; by subst. Qed.

(** The last frame leaves, and its answer is the run's. *)
Lemma finish_last vm fr answer g : function_at m (func fr) = Some g -> writebacks fr = [] -> capture fr = [] ->
  unowning fr -> tidy vm -> stack vm = [] ->
  exists cache, finish_frame m answer (vm, [fr]) = ((with_cache cache vm, []), Ok (Some answer)) /\ tidy (with_cache cache vm).
Proof.
  intros Hg Hw Hc Hf Ht Hs. unfold finish_frame, get_machine, set_frames. st_unfold.
  cbn -[release_frame cache_frame hand_over release_plan]. rewrite Hg, Hw, Hc. cbn -[release_frame cache_frame hand_over release_plan].
  destruct (releases g) as [|slots] eqn:Hr; cbn [is_every_local andb].
  - destruct (release_slots_unowning (seq 0 (length (VmState.locals fr))) vm fr Hf) as (loc & lv & Hrs & Hf').
    unfold release_frame, with_frame, release_live_locals, get_frame. st_unfold. cbn -[cache_frame hand_over].
    rewrite Hrs. cbn -[cache_frame hand_over].
    destruct (cache_frame_tidy vm [] _ Hf' Ht) as (cache & -> & Ht'). exists cache. split; [|done].
    by apply hand_over_last.
  - cbn -[release_plan hand_over]. rewrite Hc. cbn -[release_plan hand_over]. match goal with |- context [release_plan ?plan ?fr' _] =>
      destruct (release_plan_tidy plan vm [] fr' Hf Ht) as (cache & Hp & Ht') end.
    exists cache. split; [|done]. rewrite Hp. by apply hand_over_last.
Qed.
End Finish.

Section Run.
Context {host : Host} {allocator : Allocator} {hosted : HostChannels} (m : Module_).

(** An interpreter between two entries. *)
Record quiet (vm : Vm) : Prop := {
  quiet_calm : calm vm;
  quiet_tidy : tidy vm;
  quiet_stack : stack vm = [];
  quiet_capture : pending_capture vm = [];
  quiet_constants : (length (ModuleFormat.constants m) <= length (VmState.constants vm))%nat
}.

Lemma quiet_cache cache vm : quiet vm -> tidy (with_cache cache vm) -> quiet (with_cache cache vm).
Proof. intros [[]] Ht. split; [by split|done..]. Qed.

Lemma calm_self vm fs : calm vm -> finish_returned_drops (vm, fs) = ((vm, fs), Ok tt).
Proof. intros Hc. unfold finish_returned_drops. cbn. rewrite (calm_bodies _ Hc). destruct vm, Hc. cbn in *. by subst. Qed.

(** With no frame left the loop ends with the answer. *)
Lemma completed_turn vm v : calm vm -> turn m (Some v) (vm, []) = ((vm, []), Ok (inr (Completed v))).
Proof.
  intros Hc. unfold turn. st_unfold. rewrite calm_self by done. cbn. by rewrite (calm_drops _ Hc), (calm_events _ Hc).
Qed.

Section Frame.
Context (index : Z) (g : FuncProto) (vm0 : Vm).
Context (Hat : function_at m index = Some g) (Hquiet : quiet vm0).

Abbreviation at_pc := (at_pc index vm0) (only parsing).
Abbreviation reaches := (rtc (steps_to m)) (only parsing).

Lemma reaches_runs s s' r k : reaches s s' -> (forall fuel, (k <= fuel)%nat -> dispatch_inner fuel m None s' = Some r) ->
  exists k, forall fuel, (k <= fuel)%nat -> dispatch_inner fuel m None s = Some r.
Proof.
  intros Hs Hr. induction Hs as [s|s s1 s2 H1 _ IH]; [by exists k|]. destruct (IH Hr) as (k1 & Hk).
  exists (S k1). intros [|fuel] Hf; [lia|]. cbn. unfold steps_to in H1. rewrite H1. apply Hk. lia.
Qed.

Lemma trapped_runs s : trapped m s -> exists k s' e, forall fuel, (k <= fuel)%nat ->
  dispatch_inner fuel m None s = Some (s', Err (Trap e)).
Proof.
  intros (s1 & s2 & e & Hr & Ht).
  assert (forall fuel, (1 <= fuel)%nat -> dispatch_inner fuel m None s1 = Some (s2, Err (Trap e))) as H.
  { intros [|fuel] Hf; [lia|]. cbn. by rewrite Ht. }
  destruct (reaches_runs _ _ _ _ Hr H) as (k & Hk). by exists k, s2, e.
Qed.

(** A return ends the run. *)
Lemma return_runs j st loc lv answer i : code g !! j = Some i -> Forall (fun v => unowned v = true) loc ->
  (i = I_Return /\ st = [answer] \/ i = I_ReturnVoid /\ st = [] /\ answer = V_Void) ->
  exists cache, tidy (with_cache cache vm0) /\
    forall fuel, (2 <= fuel)%nat ->
      dispatch_inner fuel m None (at_pc j st loc lv) = Some ((with_cache cache vm0, []), Ok (Completed answer)).
Proof.
  intros Hi Hloc Hst. pose proof (quiet_calm _ Hquiet) as Hc. pose proof (quiet_tidy _ Hquiet) as Ht.
  set (fr := {| func := index; pc := S j; VmState.locals := loc; live := lv; writebacks := []; capture := [] |}).
  destruct (finish_last m vm0 fr answer g) as (cache & Hf & Htidy); [done..|apply (quiet_stack _ Hquiet)|].
  exists cache. split; [done|]. intros [|[|fuel]] Hfuel; [lia|lia|]. cbn [dispatch_inner].
  assert (turn m None (at_pc j st loc lv) = ((with_cache cache vm0, []), Ok (inl (Some answer)))) as ->.
  { rewrite (turn_at m index g vm0 Hat Hc _ _ _ _ _ Hi). unfold CompileSim.at_pc. fold fr.
    assert (with_stack [] vm0 = vm0) as Hs0 by (rewrite <- (quiet_stack _ Hquiet); apply with_stack_self).
    destruct Hst as [[-> ->]|(-> & -> & ->)]; cbn [dispatch]; st_unfold.
    - unfold in_top, pop. cbn -[finish_frame]. change (with_stack [] (with_stack [answer] vm0)) with (with_stack [] vm0).
      rewrite Hs0, Hf. done.
    - rewrite Hs0, Hf. done. }
  rewrite completed_turn; [done|]. by destruct (quiet_cache _ _ Hquiet Htidy).
Qed.

(** ** A body *)

Context (p : IrProgram) (f : IrFunction) (n : nat) (entry : list Instruction) (o : list (option Instruction)).
Context (Hentry : entry = [] \/ entry = [I_MainThreadLifecycle]).
Context (Hopen : stmts_code (stmt_code p f n None) (length entry) (body f) = Some o).
Context (Hbody : code g = entry ++ closed 0 o ++ [I_ReturnVoid]).
Context (Hcode : Z.of_nat (length (code g)) <= usize_max) (Hlocals : Z.of_nat (length (Ir.locals f)) <= usize_max).

Lemma entry_reaches loc lv : reaches (at_pc 0 [] loc lv) (at_pc (length entry) [] loc lv).
Proof.
  pose proof (quiet_calm _ Hquiet) as Hc. destruct Hentry as [-> | He]; [done|]. rewrite He. apply rtc_once.
  apply (does_step m index g vm0 Hat Hc 0 I_MainThreadLifecycle); [by rewrite Hbody, He|done|by intros vm fr].
Qed.

Lemma body_comes fuel rho loc lv : env f rho loc ->
  comes m (at_pc (length entry) [] loc lv) (exec_list (exec p f fuel) rho (body f))
    (lands f index g vm0 (length entry + length o) 0 None []).
Proof.
  intros He. pose proof (quiet_calm _ Hquiet) as Hc.
  apply (stmts_run f m index g vm0 (stmt_code p f n None)); [|exact Hopen| |exact He].
  - intros base s l rho' loc' lv' Hl Hp He'. apply (stmt_runs p f m index g vm0 Hat Hc Hcode Hlocals n fuel 0 None); [done..| |done].
    rewrite Hbody, !length_app. cbn. lia.
  - exists entry, [I_ReturnVoid]. by rewrite Hbody.
Qed.

(** What a call leaves of a quiet interpreter. *)
Definition ends (s : Machine) (a : Answer (option Scalar)) : Prop :=
  match a with
  | Gives v => exists cache, tidy (with_cache cache vm0) /\ exists k, forall fuel, (k <= fuel)%nat ->
      dispatch_inner fuel m None s = Some ((with_cache cache vm0, []), Ok (Completed (default V_Void (repr <$> v))))
  | Faults => exists k s' e, forall fuel, (k <= fuel)%nat -> dispatch_inner fuel m None s = Some (s', Err (Trap e))
  | Stuck => True
  end.

Lemma returned_ends s j st loc lv i v : reaches s (at_pc j st loc lv) -> code g !! j = Some i -> env f ∅ loc ->
  match v with Some v => i = I_Return /\ st = [repr v] | None => i = I_ReturnVoid /\ st = [] end ->
  ends s (Gives v).
Proof.
  intros Hr Hi He Hst.
  destruct (return_runs j st loc lv (default V_Void (repr <$> v)) i Hi (env_plain _ _ _ He)) as (cache & Ht & Hk).
  { destruct v as [v|]; [left|right]; by destruct Hst as [-> ->]. }
  exists cache. split; [done|]. by eapply reaches_runs.
Qed.

Lemma call_ends fuel args loc lv : env f (bound args) loc -> ends (at_pc 0 [] loc lv) (call p f fuel args).
Proof.
  intros He. pose proof (body_comes fuel _ _ lv He) as Hc. pose proof (entry_reaches loc lv) as Hent. unfold call.
  destruct (exec_list _ _ _) as [[rho flow]| |]; [|by apply trapped_runs; eapply trapped_later|done].
  destruct Hc as (s' & Hr & loc' & lv' & He' & Hs). cbn in *.
  assert (env f ∅ loc') as Hempty by (destruct He'; by split).
  assert (reaches (at_pc 0 [] loc lv) s') as Hreach by by etrans.
  destruct flow as [| | |[v|]]; cbn.
  - subst s'. eapply (returned_ends _ _ _ _ _ _ None); [exact Hreach| |done|done].
    rewrite Hbody, app_assoc. apply list_lookup_middle. by rewrite length_app, closed_length.
  - by destruct Hs.
  - by destruct Hs as (t & ? & _).
  - destruct Hs as (j & Hj & ->). by eapply (returned_ends _ _ _ _ _ _ (Some v)).
  - destruct Hs as (j & Hj & ->). by eapply (returned_ends _ _ _ _ _ _ None).
Qed.
End Frame.

(** ** Entering *)

Lemma take_frame_quiet index g vm count : function_at m index = Some g -> quiet vm ->
  ModuleFormat.local_count g = Z.of_nat count -> Z.of_nat count <= usize_max ->
  exists cache loc lv, take_frame m index (vm, []) =
      ((with_cache cache vm, []), Ok {| func := index; pc := 0; VmState.locals := loc; live := lv; writebacks := []; capture := [] |}) /\
    quiet (with_cache cache vm) /\ length loc = count /\ Forall (fun v => unowned v = true) loc.
Proof.
  intros Hat Hq Hcount Hfits. unfold take_frame, ok_or_stop. st_unfold. rewrite Hat. cbn.
  rewrite Hcount, usize_try_from_nat by done. unfold pop_cached. cbn. pose proof (quiet_tidy _ Hq) as Ht. unfold tidy in Ht.
  destruct (frame_cache vm) as [|fr rest] eqn:Hcache; cbn.
  - exists [], (if decide (length (replicate count V_Void) = count) then replicate count V_Void else replicate count V_Void),
      (replicate count false).
    assert (with_cache [] vm = vm) as -> by (destruct vm; cbn in *; by subst).
    split_and!; [done|done|..]; destruct (decide _); first [apply length_replicate|by apply Forall_replicate].
  - apply Forall_cons in Ht as [Hfr Ht].
    exists rest, (if decide (length (VmState.locals fr) = count) then VmState.locals fr else replicate count V_Void), (replicate count false).
    split_and!; [done|by apply quiet_cache|..]; destruct (decide _); try done; [apply length_replicate|by apply Forall_replicate].
Qed.

Lemma bound_lookup args slot v : bound args !! slot = Some v -> exists k, slot = Z.of_nat k /\ args !! k = Some v.
Proof.
  unfold bound. intros H. apply elem_of_list_to_map_2 in H. apply list_elem_of_lookup in H as (k & Hk).
  apply lookup_zip_Some in Hk as [Hk Hv]. exists k. split; [|done]. rewrite list_lookup_fmap in Hk.
  apply fmap_Some in Hk as (j & Hj & ->). apply lookup_seq in Hj as [-> _]. done.
Qed.

Definition takes (f : IrFunction) (args : list Scalar) : Prop :=
  forall k, (k < length args)%nat -> is_scalar_local f (Z.of_nat k) = true.

Lemma takes_length f args : takes f args -> (length args <= length (Ir.locals f))%nat.
Proof.
  intros Ht. destruct (decide (length args <= length (Ir.locals f))%nat) as [|Hlt]; [done|].
  specialize (Ht (length (Ir.locals f)) ltac:(lia)). apply scalar_slot in Ht as [_ Hl]. lia.
Qed.

Lemma bound_env f args loc : takes f args -> length loc = length (Ir.locals f) -> Forall (fun v => unowned v = true) loc ->
  env f (bound args) ((repr <$> args) ++ drop (length args) loc).
Proof.
  intros Ht Hlen Hloc. pose proof (takes_length _ _ Ht). split.
  - rewrite length_app, length_fmap, length_drop. lia.
  - apply Forall_app. split; [|by apply Forall_drop]. apply Forall_fmap, Forall_true. by intros [].
  - intros slot v Hv. apply bound_lookup in Hv as (k & -> & Hk). pose proof (lookup_lt_Some _ _ _ Hk). split; [by apply Ht|].
    rewrite Nat2Z.id, lookup_app_l by (by rewrite length_fmap). by rewrite list_lookup_fmap, Hk.
Qed.

Lemma enter_values_quiet fuel index args vm : quiet vm ->
  enter_values fuel m index args (vm, []) = enter_ready fuel m index args (vm, []).
Proof.
  intros Hq. unfold enter_values, ensure_constants. cbn. rewrite bool_decide_eq_true_2 by apply (quiet_constants _ Hq).
  by rewrite orb_true_r.
Qed.

(** What a call answers through the interpreter's entry. *)
Definition answers (vm : Vm) (entered : nat -> option (Machine * result Stop Value)) (a : Answer (option Scalar)) : Prop :=
  match a with
  | Gives v => exists vm' k, quiet vm' /\ heap vm' = heap vm /\ written vm' = written vm /\
      forall fuel, (k <= fuel)%nat -> entered fuel = Some ((vm', []), Ok (default V_Void (repr <$> v)))
  | Faults => exists k s' e, forall fuel, (k <= fuel)%nat -> entered fuel = Some (s', Err (Trap e))
  | Stuck => True
  end.

Lemma enters p f n entry o index g vm fuel args :
  function_at m index = Some g -> quiet vm -> entry = [] \/ entry = [I_MainThreadLifecycle] ->
  stmts_code (stmt_code p f n None) (length entry) (body f) = Some o -> code g = entry ++ closed 0 o ++ [I_ReturnVoid] ->
  ModuleFormat.local_count g = Z.of_nat (length (Ir.locals f)) ->
  Z.of_nat (length (code g)) <= usize_max -> Z.of_nat (length (Ir.locals f)) <= usize_max -> takes f args ->
  answers vm (fun fuel => enter_values fuel m index (repr <$> args) (vm, [])) (call p f fuel args).
Proof.
  intros Hat Hq Hentry Hopen Hbody Hcount Hcode Hlocals Ht.
  destruct (take_frame_quiet index g vm _ Hat Hq Hcount Hlocals) as (cache & loc & lv & Htake & Hq' & Hlen & Hloc).
  pose proof (takes_length _ _ Ht) as Hargs. pose proof (bound_env f args loc Ht Hlen Hloc) as He.
  set (loc' := (repr <$> args) ++ drop (length args) loc) in *.
  set (lv' := (is_heap_value <$> (repr <$> args)) ++ drop (length (repr <$> args)) lv).
  remember (with_cache cache vm) as vm1 eqn:Hvm1.
  assert (forall fuel, enter_values fuel m index (repr <$> args) (vm, []) =
    match dispatch_inner fuel m None (at_pc index vm1 0 [] loc' lv') with
    | Some (s, Err (Trap e)) => Some (unwind m s, Err (Trap e))
    | Some (s, Ok (Completed v)) => Some (s, Ok v)
    | Some (s, Ok Suspended) => Some (s, Err (Trap E_UnexpectedSuspend))
    | Some (s, Err e) => Some (s, Err e)
    | None => None
    end) as Henter.
  { intros k. rewrite enter_values_quiet by done. unfold enter_ready, on_stop. rewrite Htake. cbn -[length].
    rewrite decide_False by (rewrite length_fmap; lia). unfold run, dispatch_frames. cbn [fst snd option_list app].
    assert (with_capture [] (captured vm1) vm1 = with_stack [] vm1) as ->.
    { pose proof (quiet_capture _ Hq') as Hc. pose proof (quiet_stack _ Hq') as Hs. clear - Hc Hs. destruct vm1. cbn in *. by subst. }
    rewrite (quiet_capture _ Hq'). unfold bind_args, set_capture, set_locals, at_pc. cbn.
    replace (drop (length (repr <$> args)) loc) with (drop (length args) loc) by (by rewrite length_fmap).
    fold loc' lv'. destruct (dispatch_inner k m None _) as [[s [[]|[]]]|]; done. }
  pose proof (call_ends index g vm1 Hat Hq' p f n entry o Hentry Hopen Hbody Hcode Hlocals fuel args loc' lv' He) as Hends.
  destruct (call p f fuel args) as [v| |]; cbn in *; [|..|done].
  - destruct Hends as (cache' & Htidy & k & Hk). exists (with_cache cache' vm1), k.
    split; [by apply quiet_cache|]. split_and!; [by rewrite Hvm1|by rewrite Hvm1|]. intros fuel' Hf. by rewrite Henter, Hk.
  - destruct Hends as (k & s' & e & Hk). exists k, (unwind m s'), e. intros fuel' Hf. by rewrite Henter, Hk.
Qed.
End Run.

(** ** Compiled functions *)

Lemma compile_functions_at {host : Host} fuel p engines plans fs : forall index pool pool' gs,
  compile_functions fuel p engines plans index fs pool = Ok (pool', gs) -> forall j f, fs !! j = Some f ->
  exists pool1 r g, compile_function fuel p engines (index + j) f pool1 = Ok r /\ gs !! j = Some g /\
    code g = r.2 /\ ModuleFormat.local_count g = Ir.local_count f.
Proof.
  induction fs as [|f fs IH]; intros index pool pool' gs Hc j f' Hj; [done|]. cbn [compile_functions] in Hc.
  destruct (compile_function fuel p engines index f pool) as [r|] eqn:Hr; [|done]. cbn in Hc.
  destruct (compile_functions fuel p engines plans (S index) fs r.1) as [rest|] eqn:Hrest; [|done]. cbn in Hc. simplify_eq.
  destruct j as [|j]; cbn in Hj |- *.
  - simplify_eq. rewrite Nat.add_0_r. by eexists _, _, _.
  - rewrite Nat.add_succ_r. destruct rest as [pool2 gs]. by eapply (IH (S index)).
Qed.

Lemma compile_with_at {host : Host} n p engines m i f l :
  compile_with n p engines = Ok m -> ir_functions p !! i = Some f -> default Runtime (engines !! i) <> Native ->
  body_code p f n (length (lifecycle_entry p i)) (body f) = Some l ->
  exists g, functions m !! i = Some g /\ code g = lifecycle_entry p i ++ l /\ ModuleFormat.local_count g = Ir.local_count f.
Proof.
  intros Hc Hf Hn Hl. unfold compile_with in Hc. destruct (build_module n p engines) as [m'|] eqn:Hb; [|done]. cbn in Hc.
  destruct (map_err _ _); [|done]. cbn in Hc. simplify_eq. unfold build_module in Hb.
  destruct (planned n p) as [plans|]; [|done]. cbn in Hb.
  destruct (compile_functions n p engines plans 0 (ir_functions p) StringPool_default) as [[pool gs]|] eqn:Hfs; [|done]. cbn in Hb.
  destruct (build_export_table p); [|done]. cbn in Hb. simplify_eq. cbn.
  destruct (compile_functions_at _ _ _ _ _ _ _ _ _ Hfs i f Hf) as (pool1 & r & g & Hr & Hg & Hcode & Hcount).
  rewrite (adds_function p engines f n i pool1 l Hn Hl) in Hr. simplify_eq. by exists g.
Qed.

Lemma lifecycle_entry_cases p i : lifecycle_entry p i = [] \/ lifecycle_entry p i = [I_MainThreadLifecycle].
Proof. unfold lifecycle_entry. destruct (contains_slot _ _); auto. Qed.

(** C9: Compiling a function of integers and booleans keeps its meaning.  Whatever the
    reference evaluation of a call answers, the interpreter entered with the compiled
    module answers too, with the machine as quiet as before; where the evaluation
    faults (a result its width does not hold, a division by zero, a shift or a
    conversion out of range) the interpreter traps. *)
Theorem compiled_computes {host : Host} {allocator : Allocator} {channels : HostChannels}
    (n fuel i : nat) (p : IrProgram) (engines : list Execution) (f : IrFunction) (l : list Instruction) (m : Module_)
    (vm : Vm) (args : list Scalar) :
  compile_with n p engines = Ok m -> ir_functions p !! i = Some f -> default Runtime (engines !! i) <> Native ->
  body_code p f n (length (lifecycle_entry p i)) (body f) = Some l ->
  Z.of_nat i <= usize_max -> Z.of_nat (length l) < usize_max -> Z.of_nat (length (Ir.locals f)) < 2 ^ 32 ->
  takes f args -> quiet m vm ->
  answers m vm (fun run_fuel => enter_values run_fuel m (Z.of_nat i) (repr <$> args) (vm, [])) (call p f fuel args).
Proof.
  intros Hc Hf Hn Hl Hi Hcode Hlocals Ht Hq.
  destruct (compile_with_at _ _ _ _ _ _ _ Hc Hf Hn Hl) as (g & Hg & Hgcode & Hcount).
  apply bind_Some in Hl as (o & Ho & [= <-]). pose proof usize_max_bounds.
  apply (enters m p f n (lifecycle_entry p i) o (Z.of_nat i) g); try done.
  - unfold function_at. rewrite usize_try_from_nat by done. exact Hg.
  - apply lifecycle_entry_cases.
  - rewrite Hcount. unfold Ir.local_count. apply uwrap_id. split; lia.
  - rewrite Hgcode. destruct (lifecycle_entry_cases p i) as [-> | ->]; cbn; lia.
  - lia.
Qed.

#[local] Instance silent : HostChannels := {| host_channels := false |}.
#[local] Instance aligned : Allocator := {| payload_address n := 4096 * Z.of_nat (S n) |}.

(** Five factorial fits a byte and six does not. *)
Lemma compiled_computes_witness : exists m, @compile_with host64 9 factorial_u8 [Runtime] = Ok m /\
  (exists vm k, forall fuel, (k <= fuel)%nat ->
     @enter_values host64 aligned silent fuel m 0 [V_Int 5] (VmEntry.vm_new heap_new) = Some ((vm, []), Ok (V_Int 120))) /\
  (exists s e k, forall fuel, (k <= fuel)%nat ->
     @enter_values host64 aligned silent fuel m 0 [V_Int 6] (VmEntry.vm_new heap_new) = Some (s, Err (Trap e))).
Proof.
  destruct (@compile_with host64 9 factorial_u8 [Runtime]) as [m|] eqn:Hc; [|vm_compute in Hc; discriminate Hc].
  exists m. split; [done|].
  assert (Hq : quiet m (VmEntry.vm_new heap_new).1).
  { vm_compute in Hc. injection Hc as <-. repeat split; try constructor. }
  assert (Ht : forall w, takes factorial_f [SInt w]) by (intros w [|k] Hk; cbn in Hk; [done|lia]).
  pose proof (fun w => @compiled_computes host64 aligned silent 9 30 0 factorial_u8 [Runtime] factorial_f _ m
    (VmEntry.vm_new heap_new).1 [SInt w] Hc eq_refl ltac:(discriminate) eq_refl ltac:(done) ltac:(done) ltac:(done) (Ht w) Hq) as H.
  assert (call factorial_u8 factorial_f 30 [SInt 5] = Gives (Some (SInt 120))) as H5 by (vm_compute; reflexivity).
  assert (call factorial_u8 factorial_f 30 [SInt 6] = Faults) as H6 by (vm_compute; reflexivity).
  pose proof (H 5) as A5. pose proof (H 6) as A6. rewrite H5 in A5. rewrite H6 in A6. split.
  - destruct A5 as (vm & k & _ & _ & _ & Hk). by exists vm, k.
  - destruct A6 as (k & s & e & Hk). by exists s, e, k.
Defined.
