(* ===== verification/Source.v ===== *)
(** * Source files: spans, lines and the source map

    [kira-source]: [span.rs], [line_map.rs], [source_file.rs], [source_map.rs].
    Offsets are [u32]s.  A [SourceMap] refuses a file of more than 16 MiB, so an
    offset into a file it holds never wraps ([fits_u32]).

    [line_columns_exact] says what a line and a column are; [lines_rebuild_text]
    says the lines are the text, cut at its newlines. *)

From stdpp Require Import list.
From S2P Require Import Prelude.
From S2P Require Import Foreign.

(** ** Spans *)

Record Span := { start : Z; len : Z }.

#[export] Instance Span_eq_dec : EqDecision Span.
Proof. solve_decision. Defined.

(** [from_bounds]: the difference of the bounds, which are in order. *)
Definition from_bounds (start_ end_ : Z) : Span := {| start := start_; len := uwrap 32 (end_ - start_) |}.
Definition end_of (s : Span) : Z := uwrap 32 (start s + len s).
Definition is_empty (s : Span) : bool := len s =? 0.

(** [str::is_char_boundary]. *)
Definition is_char_boundary (text : list byte) (i : nat) : bool :=
  match text !! i with
  | Some b => negb ((0x80 <=? byte_to_Z b) && (byte_to_Z b <=? 0xbf))
  | None => bool_decide (i = length text)
  end.

(** [&text[start..end]], which panics off the text or inside a character. *)
Definition slice (s : Span) (text : rstring) : option rstring :=
  let from := Z.to_nat (start s) in
  let to := Z.to_nat (end_of s) in
  if bool_decide (from <= to)%nat && is_char_boundary text from && is_char_boundary text to
  then Some (take (to - from) (drop from text)) else None.

Record FileSpan := { source : Z; span : Span }.

(** ** Lines *)

Record LineColumn := { line : Z; column : Z }.

Abbreviation LineMap := (list Z) (only parsing).

Definition newline : byte := x0a.

(** The loop of [new] over the bytes from [index]. *)
Fixpoint starts_after (index : nat) (text : rstring) : list Z :=
  match text with
  | [] => []
  | b :: text =>
    if Byte.eqb b newline then uwrap 32 (uwrap 32 (Z.of_nat index) + 1) :: starts_after (S index) text
    else starts_after (S index) text
  end.

Definition LineMap_new (text : rstring) : LineMap := 0 :: starts_after 0 text.

(** [slice::partition_point] on a slice the predicate partitions. *)
Fixpoint partition_point {A} (keep : A -> bool) (l : list A) : nat :=
  match l with x :: l => if keep x then S (partition_point keep l) else O | [] => O end.

Definition line_index (m : LineMap) (offset : Z) : nat :=
  Nat.pred (partition_point (fun start => start <=? offset) m).

Definition line_column (m : LineMap) (offset : Z) : option LineColumn :=
  let index := line_index m offset in
  line_start ← m !! index;
  Some {| line := uwrap 32 (uwrap 32 (Z.of_nat index) + 1); column := uwrap 32 (uwrap 32 (offset - line_start) + 1) |}.

Definition line_count (m : LineMap) : nat := length m.

(** [None] is an index out of bounds, which only another text than the map's own
    can bring about. *)
Definition line_bounds (m : LineMap) (index : nat) (text : list byte) : option (Z * Z) :=
  let index := Nat.min index (length m - 1) in
  start ← m !! index;
  let raw_end := match m !! S index with Some next => next | None => uwrap 32 (Z.of_nat (length text)) end in
  if start <? raw_end then
    last ← text !! Z.to_nat (raw_end - 1);
    Some (start, if Byte.eqb last newline then raw_end - 1 else raw_end)
  else Some (start, raw_end).

(** ** Files *)

Definition MAX_SOURCE_FILE_BYTES : Z := 16 * 1024 * 1024.

Record SourceFile := { id : Z; path : rstring; text : rstring; line_map : LineMap }.

Definition SourceFile_new (id_ : Z) (path_ text_ : rstring) : SourceFile :=
  {| id := id_; path := path_; text := text_; line_map := LineMap_new text_ |}.

Inductive SourceMapInsertError := SourceMapFull | FileTooLarge (len : Z).

Abbreviation SourceMap := (list SourceFile) (only parsing).
Definition SourceMap_new : SourceMap := [].

Definition insert (path_ text_ : rstring) (files : SourceMap) : SourceMap * result SourceMapInsertError Z :=
  let len := Z.of_nat (length text_) in
  if decide (MAX_SOURCE_FILE_BYTES < len) then (files, Err (FileTooLarge len))
  else
    let raw := Z.of_nat (length files) in
    if decide (u32_ok raw) then (files ++ [SourceFile_new raw path_ text_], Ok raw)
    else (files, Err SourceMapFull).

Definition get (files : SourceMap) (id_ : Z) : option SourceFile := files !! Z.to_nat id_.

(** ** Facts *)

Definition fits_u32 (t : rstring) : Prop := Z.of_nat (length t) < 2 ^ 32 - 1.

(** The newlines of a text, as positions. *)
Fixpoint newlines (index : nat) (t : rstring) : list nat :=
  match t with
  | [] => []
  | b :: t => if Byte.eqb b newline then index :: newlines (S index) t else newlines (S index) t
  end.

Lemma starts_newlines t : forall index, Z.of_nat (index + length t) < 2 ^ 32 ->
  starts_after index t = (fun k => Z.of_nat k + 1) <$> newlines index t.
Proof.
  induction t as [|b t IH]; intros index Hfit; cbn [starts_after newlines length] in *; [done|].
  rewrite IH by lia. destruct (Byte.eqb b newline); [|done]. cbn. f_equal.
  rewrite (uwrap_id 32 (Z.of_nat index)), uwrap_id; [done|split; lia|split; lia].
Qed.

(** The text cut at its newlines. *)
Fixpoint split_lines (t : rstring) : list rstring :=
  match t with
  | [] => [[]]
  | b :: t =>
    match split_lines t with
    | l :: ls => if Byte.eqb b newline then [] :: l :: ls else (b :: l) :: ls
    | [] => [[b]]
    end
  end.

Fixpoint join_lines (ls : list rstring) : rstring :=
  match ls with
  | [] => []
  | [l] => l
  | l :: ls => l ++ newline :: join_lines ls
  end.

Lemma split_lines_cons t : exists l ls, split_lines t = l :: ls.
Proof. destruct t as [|b t]; cbn; [by eexists _, _|]. destruct (split_lines t), (Byte.eqb b newline); by eexists _, _. Qed.

Lemma join_split t : join_lines (split_lines t) = t.
Proof.
  induction t as [|b t IH]; [done|]. cbn [split_lines]. destruct (split_lines_cons t) as (l & ls & Hs). rewrite Hs in IH |- *.
  destruct (Byte.eqb b newline) eqn:Hb.
  - apply Byte.byte_dec_bl in Hb as ->. change (newline :: join_lines (l :: ls) = newline :: t). by rewrite IH.
  - destruct ls; cbn [join_lines app] in *; by rewrite IH.
Qed.

Lemma newlines_app s r : forall index, newlines index (s ++ r) = newlines index s ++ newlines (index + length s) r.
Proof.
  induction s as [|b s IH]; intros index; cbn [newlines app length]; [by rewrite Nat.add_0_r|].
  rewrite IH, Nat.add_succ_r. by destruct (Byte.eqb b newline).
Qed.

Lemma newlines_range t : forall index k, k ∈ newlines index t -> (index <= k < index + length t)%nat.
Proof.
  induction t as [|b t IH]; intros index k Hk; cbn [newlines length] in *; [by apply not_elem_of_nil in Hk|].
  destruct (Byte.eqb b newline); [apply elem_of_cons in Hk as [->|Hk]; [lia|]|]; apply IH in Hk; lia.
Qed.

Lemma split_snoc s b : exists front l, split_lines s = front ++ [l] /\
  split_lines (s ++ [b]) = if Byte.eqb b newline then front ++ [l; []] else front ++ [l ++ [b]].
Proof.
  induction s as [|c s (front & l & Hs & Hb)]; cbn [split_lines app].
  - exists [], []. cbn. by destruct (Byte.eqb b newline).
  - rewrite Hs, Hb. destruct front as [|l0 front], (Byte.eqb c newline), (Byte.eqb b newline); cbn;
      [by exists [[]], l|by exists [[]], l|by exists [], (c :: l)|by exists [], (c :: l)
      |by exists ([] :: l0 :: front), l|by exists ([] :: l0 :: front), l
      |by exists ((c :: l0) :: front), l|by exists ((c :: l0) :: front), l].
Qed.

(** Where the last line starts, and how long it is. *)
Lemma last_line s : exists front l, split_lines s = front ++ [l] /\ length front = length (newlines 0 s) /\
  exists start, last (0%nat :: (S <$> newlines 0 s)) = Some start /\ (start + length l = length s)%nat.
Proof.
  induction s as [|b s (front & l & Hs & Hlen & start & Hstart & Hl)] using rev_ind.
  - exists [], []. split; [done|]. split; [done|]. by exists 0%nat.
  - destruct (split_snoc s b) as (front' & l' & Hs' & Hb). rewrite Hs in Hs'. apply app_inj_tail in Hs' as [<- <-].
    rewrite Hb, newlines_app. cbn [newlines app]. rewrite length_app. cbn [length].
    destruct (Byte.eqb b newline).
    + exists (front ++ [l]), []. split; [by rewrite <- app_assoc|]. rewrite !length_app. cbn. split; [by rewrite Hlen|].
      exists (S (length s)).
      change (S <$> newlines 0 s ++ [(0 + length s)%nat]) with (S <$> newlines 0 s ++ [length s]).
      rewrite fmap_app. change (0%nat :: (S <$> newlines 0 s) ++ (S <$> [length s])) with ((0%nat :: (S <$> newlines 0 s)) ++ [S (length s)]).
      rewrite last_snoc. split; [done|]. cbn. lia.
    + exists front, (l ++ [b]). split; [done|]. rewrite app_nil_r. split; [cbn; lia|]. exists start. split; [done|].
      rewrite !length_app. cbn. lia.
Qed.

Lemma partition_point_app {A} (keep : A -> bool) l1 l2 :
  Forall (fun x => keep x = true) l1 -> (forall x l, l2 = x :: l -> keep x = false) ->
  partition_point keep (l1 ++ l2) = length l1.
Proof.
  intros H1 H2. induction H1 as [|x l1 Hx _ IH]; cbn.
  - destruct l2 as [|x l2]; [done|]. cbn. by rewrite (H2 x l2 eq_refl).
  - by rewrite Hx, IH.
Qed.

Lemma LineMap_new_starts t : fits_u32 t -> LineMap_new t = Z.of_nat <$> (0%nat :: (S <$> newlines 0 t)).
Proof.
  intros Hf. unfold LineMap_new, fits_u32 in *. rewrite starts_newlines by (cbn; lia). cbn. f_equal.
  rewrite <- list_fmap_compose. apply list_fmap_ext. intros i k _. cbn. lia.
Qed.

Lemma LineMap_new_app s r : fits_u32 (s ++ r) -> LineMap_new (s ++ r) =
  (Z.of_nat <$> 0%nat :: (S <$> newlines 0 s)) ++ (Z.of_nat <$> (S <$> newlines (length s) r)).
Proof.
  intros Hf. rewrite LineMap_new_starts, newlines_app by done. cbn. f_equal. by rewrite !fmap_app.
Qed.

Lemma line_index_at s r : fits_u32 (s ++ r) ->
  line_index (LineMap_new (s ++ r)) (Z.of_nat (length s)) = length (newlines 0 s).
Proof.
  intros Hf. unfold line_index. rewrite LineMap_new_app by done. rewrite partition_point_app.
  - by rewrite length_fmap, length_cons, length_fmap.
  - apply Forall_fmap. constructor; [apply Z.leb_le; cbn; lia|]. apply Forall_fmap, Forall_forall. intros k Hk%newlines_range.
    apply Z.leb_le. cbn. lia.
  - intros x l Hx. destruct (newlines (length s) r) as [|k ks] eqn:Hk; [done|]. cbn in Hx. injection Hx as <- _.
    assert (k ∈ newlines (length s) r) as Hin by (rewrite Hk; by left). apply newlines_range in Hin. apply Z.leb_gt. lia.
Qed.

(** The line of an offset is the number of lines before it, the cut one included,
    and its column is one more than what the cut line holds. *)
Theorem line_columns_exact (t : rstring) (offset : nat) : fits_u32 t -> (offset <= length t)%nat ->
  exists front l, split_lines (take offset t) = front ++ [l] /\
    line_column (LineMap_new t) (Z.of_nat offset) =
      Some {| line := Z.of_nat (length front) + 1; column := Z.of_nat (length l) + 1 |}.
Proof.
  intros Hf Ho. assert (exists s r, t = s ++ r /\ offset = length s) as (s & r & -> & ->).
  { exists (take offset t), (drop offset t). split; [by rewrite take_drop|rewrite length_take; lia]. }
  rewrite take_app_length. destruct (last_line s) as (front & l & Hsplit & Hlen & start & Hstart & Hl).
  exists front, l. split; [done|]. unfold line_column. rewrite line_index_at by done.
  rewrite LineMap_new_app by done.
  assert ((Z.of_nat <$> 0%nat :: (S <$> newlines 0 s)) !! length (newlines 0 s) = Some (Z.of_nat start)) as Hlk.
  { rewrite last_lookup in Hstart. rewrite list_lookup_fmap. cbn [length Nat.pred] in Hstart. rewrite length_fmap in Hstart.
    by rewrite Hstart. }
  rewrite lookup_app_l by (rewrite length_fmap; cbn; rewrite length_fmap; lia). rewrite Hlk. cbn.
  unfold fits_u32 in Hf. rewrite length_app in Hf.
  assert (length (newlines 0 s) <= length s)%nat as Hn.
  { clear. generalize 0%nat. induction s as [|b s IH]; intros index; cbn; [done|]. specialize (IH (S index)). destruct (Byte.eqb b newline); cbn; lia. }
  rewrite (uwrap_id 32 (Z.of_nat (length (newlines 0 s)))) by (split; lia).
  rewrite (uwrap_id 32 (_ - _)) by (split; lia). rewrite !uwrap_id by (split; lia). f_equal. f_equal; lia.
Qed.

Definition no_newline (l : rstring) : Prop := Forall (fun b => Byte.eqb b newline = false) l.
Definition ended (s : rstring) : Prop := s = [] \/ exists s0, s = s0 ++ [newline].

Lemma newlines_none l : no_newline l -> forall index, newlines index l = [].
Proof. induction 1 as [|b l Hb _ IH]; intros index; [done|]. cbn. by rewrite Hb. Qed.

Lemma ended_last s : ended s -> last (0%nat :: (S <$> newlines 0 s)) = Some (length s).
Proof.
  intros Hs. destruct (last_line s) as (front & l & Hsplit & _ & start & -> & Hl).
  assert (l = []) as ->; [|f_equal; cbn in Hl; lia].
  destruct Hs as [->|(s0 & ->)]; [by destruct front as [|? []]; simplify_eq/=|].
  destruct (split_snoc s0 newline) as (front' & l' & _ & Hb). rewrite Hsplit in Hb. cbn in Hb.
  change (front' ++ [l'; []]) with (front' ++ [l'] ++ [[]]) in Hb. rewrite app_assoc in Hb. by apply app_inj_tail in Hb as [_ ->].
Qed.

(** A line inside its text. *)
Lemma split_lines_at t : forall i l, split_lines t !! i = Some l -> exists s r, t = s ++ l ++ r /\
  length (newlines 0 s) = i /\ ended s /\ no_newline l /\
  (r = [] /\ S i = length (split_lines t) \/ (exists r', r = newline :: r') /\ (S i < length (split_lines t))%nat).
Proof.
  assert (forall b s, length (newlines 0 (b :: s)) = ((if Byte.eqb b newline then 1 else 0) + length (newlines 0 s))%nat) as Hcons.
  { intros b s. cbn [newlines]. assert (forall k j, length (newlines k s) = length (newlines j s)) as Hk.
    { clear. induction s as [|c s IH]; intros k j; [done|]. cbn. specialize (IH (S k) (S j)). destruct (Byte.eqb c newline); cbn; by rewrite IH. }
    destruct (Byte.eqb b newline); cbn; by rewrite (Hk 1%nat 0%nat). }
  induction t as [|b t IH]; intros i l Hi.
  { destruct i; [|done]. cbn in Hi. simplify_eq. exists [], []. split_and!; try done; [by left|by constructor|by left]. }
  cbn [split_lines] in *. destruct (split_lines_cons t) as (l0 & ls & Hs). rewrite Hs in *.
  destruct (Byte.eqb b newline) eqn:Hb.
  - pose proof (Byte.byte_dec_bl _ _ Hb) as ->. destruct i as [|i]; cbn in Hi.
    + simplify_eq. exists [], (newline :: t). split_and!; try done; [by left|by constructor|]. right. split; [by eexists|cbn; lia].
    + destruct (IH i l Hi) as (s & r & -> & Hn & He & Hl & Hr). exists (newline :: s), r. rewrite Hcons, Hb, Hn.
      split_and!; [done|done| |done|cbn in *; destruct Hr as [[]|[]]; [left|right]; split; auto; lia].
      right. destruct He as [->|(s0 & ->)]; [by exists []|by exists (newline :: s0)].
  - destruct i as [|i]; cbn in Hi.
    + simplify_eq. destruct (IH 0%nat l0 eq_refl) as (s & r & -> & Hn & He & Hl & Hr).
      assert (s = []) as ->.
      { destruct He as [->|(s0 & ->)]; [done|]. rewrite newlines_app, length_app in Hn. cbn in Hn. lia. }
      exists [], r. split_and!; try done; first [by left | by constructor].
    + destruct (IH (S i) l Hi) as (s & r & -> & Hn & He & Hl & Hr). exists (b :: s), r. rewrite Hcons, Hb.
      split_and!; try done. right. destruct He as [->|(s0 & ->)]; [done|by exists (b :: s0)].
Qed.

(** The lines of a text are the text cut at its newlines, one at each line number;
    put together again they are the text.  A line number past the last reads the
    last line. *)
Theorem lines_rebuild_text (t : rstring) : fits_u32 t ->
  line_count (LineMap_new t) = length (split_lines t) /\ join_lines (split_lines t) = t /\
  (forall i l, split_lines t !! i = Some l -> exists a, line_bounds (LineMap_new t) i t = Some (Z.of_nat a, Z.of_nat (a + length l)) /\
     take (length l) (drop a t) = l) /\
  (forall i, (line_count (LineMap_new t) <= i)%nat ->
     line_bounds (LineMap_new t) i t = line_bounds (LineMap_new t) (line_count (LineMap_new t) - 1) t).
Proof.
  intros Hf. assert (length (LineMap_new t) = length (split_lines t)) as Hcount.
  { destruct (last_line t) as (front & l & -> & Hlen & _). rewrite LineMap_new_starts by done.
    rewrite length_fmap, length_cons, length_fmap, length_app, Hlen. cbn. lia. }
  split_and!; [exact Hcount|apply join_split| |].
  - intros i l Hi. pose proof (lookup_lt_Some _ _ _ Hi) as Hlt.
    destruct (split_lines_at t i l Hi) as (s & r & Ht & Hn & He & Hl & Hr).
    exists (length s). split; [|by rewrite Ht, drop_app_length, take_app_length].
    assert (LineMap_new t = (Z.of_nat <$> 0%nat :: (S <$> newlines 0 s)) ++ (Z.of_nat <$> (S <$> newlines (length s + length l) r))) as Hmap.
    { rewrite Ht in Hf |- *. rewrite LineMap_new_app, newlines_app, (newlines_none l) by done. done. }
    unfold line_bounds. rewrite Nat.min_l by (rewrite Hcount; lia).
    assert (LineMap_new t !! i = Some (Z.of_nat (length s))) as ->.
    { rewrite Hmap, lookup_app_l by (rewrite length_fmap, length_cons, length_fmap; lia).
      pose proof (ended_last s He) as Hlast. rewrite last_lookup in Hlast. cbn [length Nat.pred] in Hlast. rewrite length_fmap, Hn in Hlast.
      by rewrite list_lookup_fmap, Hlast. }
    assert (LineMap_new t !! S i = match r with [] => None | _ => Some (Z.of_nat (S (length s + length l))) end) as Hnext.
    { rewrite Hmap, lookup_app_r by (rewrite length_fmap, length_cons, length_fmap; lia).
      rewrite length_fmap, length_cons, length_fmap, Hn, Nat.sub_diag. destruct Hr as [[-> _]|[(r' & ->) _]]; done. }
    unfold fits_u32 in Hf. rewrite Ht, !length_app in Hf. rewrite Hnext. cbn [mbind option_bind].
    destruct Hr as [[-> _]|[(r' & ->) _]].
    + rewrite Ht, app_nil_r, length_app, uwrap_id by (split; lia).
      destruct (Z.ltb_spec (Z.of_nat (length s)) (Z.of_nat (length s + length l))); [|do 2 f_equal; lia].
      assert (l <> []) as Hne by (intros ->; cbn in *; lia). destruct (exists_last Hne) as (l' & b & ->).
      rewrite lookup_app_r by (rewrite length_app; cbn; lia).
      replace (Z.to_nat (Z.of_nat (length s + length (l' ++ [b])) - 1) - length s)%nat with (length l') by (rewrite length_app; cbn; lia).
      rewrite list_lookup_middle by done. cbn [mbind option_bind]. apply Forall_app in Hl as [_ Hb]. assert (Byte.eqb b newline = false) as -> by by inversion Hb. done.
    + destruct (Z.ltb_spec (Z.of_nat (length s)) (Z.of_nat (S (length s + length l)))); [|lia].
      replace (Z.to_nat (Z.of_nat (S (length s + length l)) - 1)) with (length (s ++ l)) by (rewrite length_app; lia).
      rewrite Ht, app_assoc, list_lookup_middle by done. cbn. do 2 f_equal. lia.
  - intros i Hi. unfold line_bounds, line_count in *. rewrite Nat.min_r, Nat.min_id by lia. done.
Qed.

(** Two lines, the second without an end. *)
Definition two_lines : rstring := [x61; newline; x62; x63].

Lemma line_columns_exact_witness : fits_u32 two_lines /\ exists front l, split_lines (take 3 two_lines) = front ++ [l] /\
  line_column (LineMap_new two_lines) 3 = Some {| line := Z.of_nat (length front) + 1; column := Z.of_nat (length l) + 1 |}.
Proof. split; [by vm_compute|]. apply (line_columns_exact two_lines 3); [by vm_compute|cbn; lia]. Defined.

Lemma lines_rebuild_text_witness : fits_u32 two_lines /\ line_count (LineMap_new two_lines) = length (split_lines two_lines) /\
  exists a, line_bounds (LineMap_new two_lines) 1 two_lines = Some (Z.of_nat a, Z.of_nat (a + 2)).
Proof.
  assert (fits_u32 two_lines) as Hf by by vm_compute. pose proof (lines_rebuild_text two_lines Hf) as (Hc & _ & Hl & _).
  split; [done|]. split; [done|]. destruct (Hl 1%nat [x62; x63] eq_refl) as (a & Ha & _). by exists a.
Defined.

(** ** The source map *)

(** A file is under its position, fits, and has the map of its own text. *)
Definition kept (files : SourceMap) : Prop := forall i f, files !! i = Some f ->
  id f = Z.of_nat i /\ fits_u32 (text f) /\ line_map f = LineMap_new (text f).

(** An insertion keeps that of every file, and the files there were; it is refused
    for a text of more than 16 MiB or when the identifiers are used up. *)
Lemma insert_kept (path_ text_ : rstring) (files : SourceMap) : kept files ->
  kept (insert path_ text_ files).1 /\ files `prefix_of` (insert path_ text_ files).1 /\
  match (insert path_ text_ files).2 with
  | Ok i => get (insert path_ text_ files).1 i = Some (SourceFile_new i path_ text_)
  | Err (FileTooLarge n) => n = Z.of_nat (length text_) /\ MAX_SOURCE_FILE_BYTES < n
  | Err SourceMapFull => ~ u32_ok (Z.of_nat (length files))
  end.
Proof.
  intros Hk. unfold insert. destruct (decide (MAX_SOURCE_FILE_BYTES < Z.of_nat (length text_))) as [Hbig|Hfit]; [by split_and!|].
  destruct (decide (u32_ok (Z.of_nat (length files)))) as [Hid|Hid]; [|by split_and!]. cbn [fst snd]. split_and!.
  - intros i f [Hf|[Hi Hf]]%lookup_app_Some; [by apply Hk|]. destruct (i - length files)%nat eqn:Hd; [|done]. cbn in Hf. simplify_eq.
    split_and!; [cbn; f_equal; lia|unfold fits_u32, MAX_SOURCE_FILE_BYTES in *; cbn; lia|done].
  - by exists [SourceFile_new (Z.of_nat (length files)) path_ text_].
  - unfold get. by rewrite Nat2Z.id, list_lookup_middle.
Qed.
