(* ===== verification/Lexer.v ===== *)
(** * The lexer

    [kira-lexer] and [kira-syntax-model/src/token.rs]: source bytes become tokens
    and diagnostics.  A loop of the source that reads ahead byte by byte is a
    function of the bytes left.  Of a diagnostic its code and span are kept, not
    its wording. *)

From Stdlib Require Import Strings.String.
From stdpp Require Import list.
From S2P Require Import Prelude.
From S2P Require Import Foreign.
From S2P Require Import Source.

(** ** Tokens: [token.rs] *)

Inductive TokenKind :=
| Identifier | IntLiteral | FloatLiteral | StringLiteral
| Function_ | Let_ | Var | Return_ | If_ | Else_ | While_ | True_ | False_ | Infinity | Import_ | Namespace | As_ | Is_
| Struct_ | Enum_ | Class_ | Construct | Trait | Extends | Override | Public | Match_ | Attempt | Try_ | For_ | In_
| Break_ | Continue_ | Type__ | Distinct
| LParen | RParen | LBrace | RBrace | LBracket | RBracket | Comma | Colon | Dot | DotDot | At_ | Question | Arrow | Equals
| PlusEq | MinusEq | StarEq | SlashEq | PercentEq | AmpEq | PipeEq | CaretEq | LtLtEq | GtGtEq
| Plus | Minus | Star | Slash | Percent | EqEq | BangEq | Lt_ | LtEq | Gt_ | GtEq | AmpAmp | PipePipe | Amp | Pipe | Caret
| Tilde | LtLt | GtGt | Bang
| Unknown | Eof_.

#[export] Instance TokenKind_eq_dec : EqDecision TokenKind.
Proof. solve_decision. Defined.

Record Token := { kind : TokenKind; token_span : Span }.

#[export] Instance Token_eq_dec : EqDecision Token.
Proof. solve_decision. Defined.

Definition spelled (s : string) : rstring := list_byte_of_string s.

(** The arms of [keyword_from_text]. *)
Definition keywords : list (rstring * TokenKind) :=
  [(spelled "function", Function_); (spelled "let", Let_); (spelled "var", Var); (spelled "return", Return_);
   (spelled "if", If_); (spelled "else", Else_); (spelled "while", While_); (spelled "true", True_);
   (spelled "false", False_); (spelled "infinity", Infinity); (spelled "import", Import_);
   (spelled "namespace", Namespace); (spelled "as", As_); (spelled "is", Is_); (spelled "struct", Struct_);
   (spelled "enum", Enum_); (spelled "class", Class_); (spelled "construct", Construct); (spelled "trait", Trait);
   (spelled "extends", Extends); (spelled "override", Override); (spelled "public", Public); (spelled "match", Match_);
   (spelled "attempt", Attempt); (spelled "try", Try_); (spelled "for", For_); (spelled "in", In_);
   (spelled "break", Break_); (spelled "continue", Continue_); (spelled "type", Type__); (spelled "distinct", Distinct)].

Definition keyword_from_text (t : rstring) : option TokenKind :=
  snd <$> find (fun row => bool_decide (row.1 = t)) keywords.

(** The operators of [lex_symbol], the longest first. *)
Definition three_bytes : list (rstring * TokenKind) := [(spelled "<<=", LtLtEq); (spelled ">>=", GtGtEq)].
Definition two_bytes : list (rstring * TokenKind) :=
  [(spelled "->", Arrow); (spelled "==", EqEq); (spelled "!=", BangEq); (spelled "<=", LtEq); (spelled ">=", GtEq);
   (spelled "&&", AmpAmp); (spelled "||", PipePipe); (spelled "<<", LtLt); (spelled ">>", GtGt); (spelled "..", DotDot);
   (spelled "+=", PlusEq); (spelled "-=", MinusEq); (spelled "*=", StarEq); (spelled "/=", SlashEq);
   (spelled "%=", PercentEq); (spelled "&=", AmpEq); (spelled "|=", PipeEq); (spelled "^=", CaretEq)].
Definition one_byte : list (rstring * TokenKind) :=
  [(spelled "(", LParen); (spelled ")", RParen); (spelled "{", LBrace); (spelled "}", RBrace); (spelled "[", LBracket);
   (spelled "]", RBracket); (spelled ",", Comma); (spelled ":", Colon); (spelled ".", Dot); (spelled "@", At_);
   (spelled "?", Question); (spelled "=", Equals); (spelled "+", Plus); (spelled "-", Minus); (spelled "*", Star);
   (spelled "/", Slash); (spelled "%", Percent); (spelled "<", Lt_); (spelled ">", Gt_); (spelled "&", Amp);
   (spelled "|", Pipe); (spelled "^", Caret); (spelled "~", Tilde); (spelled "!", Bang)].

(** ** Bytes *)

Definition within (low high : Z) (b : byte) : bool := (low <=? byte_to_Z b) && (byte_to_Z b <=? high).

Definition is_ascii_digit (b : byte) : bool := within 0x30 0x39 b.
Definition is_ascii_alphabetic (b : byte) : bool := within 0x41 0x5a b || within 0x61 0x7a b.
Definition is_ascii_alphanumeric (b : byte) : bool := is_ascii_alphabetic b || is_ascii_digit b.
Definition is_ascii_hexdigit (b : byte) : bool := is_ascii_digit b || within 0x41 0x46 b || within 0x61 0x66 b.
(** Space, tab, line feed, form feed and carriage return. *)
Definition is_ascii_whitespace (b : byte) : bool :=
  within 0x20 0x20 b || within 0x09 0x0a b || within 0x0c 0x0d b.

Definition UNDERSCORE : byte := x5f.
Definition SLASH : byte := x2f.
Definition STAR : byte := x2a.
Definition QUOTE : byte := x22.
Definition BACKSLASH : byte := x5c.
Definition CARRIAGE_RETURN : byte := x0d.
Definition POINT : byte := x2e.
Definition SEMICOLON : byte := x3b.

Definition is_ident_start (b : byte) : bool := Byte.eqb b UNDERSCORE || is_ascii_alphabetic b.
Definition is_ident (b : byte) : bool := Byte.eqb b UNDERSCORE || is_ascii_alphanumeric b.

Definition UTF8_BOM : list byte := [xef; xbb; xbf].

Definition utf8_char_len (first : byte) : nat :=
  if within 0x00 0x7f first then 1 else if within 0xc0 0xdf first then 2
  else if within 0xe0 0xef first then 3 else if within 0xf0 0xf7 first then 4 else 1.

(** [slice::starts_with]. *)
Fixpoint starts_with (prefix l : list byte) : bool :=
  match prefix, l with
  | [], _ => true
  | a :: prefix, b :: l => Byte.eqb a b && starts_with prefix l
  | _, [] => false
  end.

(** [while self.peek().is_some_and(..) { self.pos += 1 }]: how far it goes. *)
Fixpoint run (p : byte -> bool) (l : list byte) : nat :=
  match l with b :: l => if p b then S (run p l) else O | [] => O end.

(** ** The lexer *)

(** The codes [KLEX001] to [KLEX006]. *)
Inductive LexCode := UnknownByte | UnterminatedString | UnknownEscape | UnterminatedComment | Semicolon | MisplacedBom.

Record Diagnostic := { code : LexCode; at_file : FileSpan }.

Record Lexer := {
  lx_source : Z;
  bytes : list byte;
  pos : nat;
  tokens : list Token;
  diagnostics : list Diagnostic
}.

Record LexResult := { lr_tokens : list Token; lr_diagnostics : list Diagnostic }.

Definition with_pos (n : nat) (x : Lexer) : Lexer :=
  {| lx_source := lx_source x; bytes := bytes x; pos := n; tokens := tokens x; diagnostics := diagnostics x |}.
Definition advance (n : nat) (x : Lexer) : Lexer := with_pos (pos x + n) x.
Definition push_token (t : Token) (x : Lexer) : Lexer :=
  {| lx_source := lx_source x; bytes := bytes x; pos := pos x; tokens := tokens x ++ [t]; diagnostics := diagnostics x |}.
Definition report (ds : list Diagnostic) (x : Lexer) : Lexer :=
  {| lx_source := lx_source x; bytes := bytes x; pos := pos x; tokens := tokens x; diagnostics := diagnostics x ++ ds |}.

(** The bytes from the cursor on; [peek] and [peek_at] read them. *)
Definition rest (x : Lexer) : list byte := drop (pos x) (bytes x).
Definition peek_at (offset : nat) (x : Lexer) : option byte := bytes x !! (pos x + offset)%nat.
Definition peek (x : Lexer) : option byte := bytes x !! pos x.

(** [start as u32], [end as u32]. *)
Definition span_of (from to : nat) : Span := from_bounds (uwrap 32 (Z.of_nat from)) (uwrap 32 (Z.of_nat to)).

Definition diagnostic (code_ : LexCode) (source_ : Z) (s : Span) : Diagnostic :=
  {| code := code_; at_file := {| source := source_; span := s |} |}.

Definition emit (k : TokenKind) (start_ : nat) (x : Lexer) : Lexer :=
  push_token {| kind := k; token_span := span_of start_ (pos x) |} x.

Definition is_byte (o : option byte) (b : byte) : bool := match o with Some c => Byte.eqb c b | None => false end.
Definition is_class (o : option byte) (p : byte -> bool) : bool := match o with Some c => p c | None => false end.

(** *** Trivia *)

(** The loop of [skip_block_comment]: how far it goes, and whether it closed. *)
Fixpoint block_comment (depth : nat) (l : list byte) : nat * bool :=
  match l with
  | [] => (0, false)
  | a :: l1 =>
    match l1 with
    | b :: l2 =>
      if Byte.eqb a SLASH && Byte.eqb b STAR then
        let '(n, closed) := block_comment (S depth) l2 in (S (S n), closed)
      else if Byte.eqb a STAR && Byte.eqb b SLASH then
        let depth := Nat.pred depth in
        if bool_decide (depth = 0%nat) then (2, true)
        else let '(n, closed) := block_comment depth l2 in (S (S n), closed)
      else let '(n, closed) := block_comment depth l1 in (S n, closed)
    | [] => (1, false)
    end
  end%nat.

Definition skip_block_comment (x : Lexer) : Lexer :=
  let '(n, closed) := block_comment 0 (rest x) in
  let y := advance n x in
  if closed : bool then y
  else report [diagnostic UnterminatedComment (lx_source x) (span_of (pos x) (pos y))] y.

(** The loop runs once per piece of trivia, each of a byte at least. *)
Fixpoint skip_trivia (fuel : nat) (x : Lexer) : Lexer :=
  match fuel with
  | O => x
  | S fuel =>
    match peek x with
    | Some b =>
      if is_ascii_whitespace b then skip_trivia fuel (advance 1 x)
      else if Byte.eqb b SLASH && is_byte (peek_at 1 x) SLASH then
        skip_trivia fuel (advance (run (fun b => negb (Byte.eqb b newline)) (rest x)) x)
      else if Byte.eqb b SLASH && is_byte (peek_at 1 x) STAR then skip_trivia fuel (skip_block_comment x)
      else x
    | None => x
    end
  end.

(** *** Tokens *)

Definition lex_identifier (x : Lexer) : Lexer :=
  let n := run is_ident (rest x) in
  let text := take n (rest x) in
  emit (default Identifier (keyword_from_text text)) (pos x) (advance n x).

Definition lex_number (x : Lexer) : Lexer :=
  let start := pos x in
  if is_byte (peek x) x30 && (is_byte (peek_at 1 x) x78 || is_byte (peek_at 1 x) x58) && is_class (peek_at 2 x) is_ascii_hexdigit
  then
    let x := advance 2 x in
    emit IntLiteral start (advance (run is_ascii_hexdigit (rest x)) x)
  else
    let x := advance (run is_ascii_digit (rest x)) x in
    if is_byte (peek x) POINT && is_class (peek_at 1 x) is_ascii_digit then
      let x := advance 1 x in
      emit FloatLiteral start (advance (run is_ascii_digit (rest x)) x)
    else emit IntLiteral start x.

Definition is_escape (b : byte) : bool :=
  existsb (Byte.eqb b) [x6e; x74; x72; x65; x30; QUOTE; BACKSLASH].

(** The loop of [lex_string] past the opening quote, at [at_] in a text of [total]
    bytes: where it stops, whether on a quote, and the escapes it reports. *)
Fixpoint string_loop (source_ : Z) (total at_ : nat) (l : list byte) : nat * bool * list Diagnostic :=
  match l with
  | [] => (at_, false, [])
  | b :: l1 =>
    if Byte.eqb b QUOTE then (S at_, true, [])
    else if Byte.eqb b BACKSLASH then
      match l1 with
      | [] => (S at_, false, [])
      | e :: l2 =>
        let other :=
          let '(stop, closed, ds) := string_loop source_ total (at_ + 2) l2 in
          if is_escape e then (stop, closed, ds)
          else (stop, closed,
                diagnostic UnknownEscape source_ (span_of at_ (Nat.min (at_ + 1 + utf8_char_len e) total)) :: ds) in
        if Byte.eqb e newline then string_loop source_ total (at_ + 2) l2
        else if Byte.eqb e CARRIAGE_RETURN then
          match l2 with
          | c :: l3 => if Byte.eqb c newline then string_loop source_ total (at_ + 3) l3 else other
          | [] => other
          end
        else other
      end
    else if Byte.eqb b newline then (at_, false, [])
    else string_loop source_ total (S at_) l1
  end%nat.

Definition lex_string (x : Lexer) : Lexer :=
  let start := pos x in
  let '(stop, terminated, ds) := string_loop (lx_source x) (length (bytes x)) (S start) (drop 1 (rest x)) in
  let x := report ds (with_pos stop x) in
  let x := if terminated : bool then x
           else report [diagnostic UnterminatedString (lx_source x) (span_of start (pos x))] x in
  emit StringLiteral start x.

Definition operator (table : list (rstring * TokenKind)) (l : list byte) : option TokenKind :=
  snd <$> find (fun row => starts_with row.1 l) table.

Definition lex_symbol (x : Lexer) : Lexer :=
  let start := pos x in
  match operator three_bytes (rest x) with
  | Some k => emit k start (advance 3 x)
  | None =>
    match operator two_bytes (rest x) with
    | Some k => emit k start (advance 2 x)
    | None =>
      match operator one_byte (rest x) with
      | Some k => emit k start (advance 1 x)
      | None =>
        let b := default x00 (peek x) in
        let x := with_pos (Nat.min (pos x + utf8_char_len b) (length (bytes x))) x in
        let s := span_of start (pos x) in
        let c := if Byte.eqb b SEMICOLON then Semicolon
                 else if bool_decide (take (pos x - start) (drop start (bytes x)) = UTF8_BOM) then MisplacedBom
                 else UnknownByte in
        push_token {| kind := Unknown; token_span := s |} (report [diagnostic c (lx_source x) s] x)
      end
    end
  end.

Definition lex_one (x : Lexer) : Lexer :=
  match peek x with
  | None => x
  | Some b =>
    if Byte.eqb b QUOTE then lex_string x
    else if is_ascii_digit b then lex_number x
    else if is_ident_start b then lex_identifier x
    else lex_symbol x
  end.

(** The loop of [run]: a token a turn. *)
Fixpoint lex_all (fuel : nat) (x : Lexer) : Lexer :=
  match fuel with
  | O => x
  | S fuel =>
    let x := skip_trivia (S (length (bytes x))) x in
    if (length (bytes x) <=? pos x)%nat then x else lex_all fuel (lex_one x)
  end.

Definition lexer_new (source_ : Z) (text_ : list byte) : Lexer :=
  {| lx_source := source_; bytes := text_; pos := if starts_with UTF8_BOM text_ then 3 else 0; tokens := []; diagnostics := [] |}.

Definition lex (source_ : Z) (text_ : list byte) : LexResult :=
  let x := lex_all (S (length text_)) (lexer_new source_ text_) in
  let eof := {| start := uwrap 32 (Z.of_nat (length (bytes x))); len := 0 |} in
  {| lr_tokens := tokens x ++ [{| kind := Eof_; token_span := eof |}]; lr_diagnostics := diagnostics x |}.

(** ** String literals *)

Definition push_result (b : byte) (r : result unit (list byte)) : result unit (list byte) :=
  match r with Ok s => Ok (b :: s) | Err e => Err e end.

(** [char::is_whitespace] of the character a text starts with: the bytes it takes,
    if it is one. *)
Definition white_char (l : list byte) : option nat :=
  match l with
  | b :: l =>
    if within 0x09 0x0d b || within 0x20 0x20 b then Some 1
    else
      match l with
      | c :: l =>
        if Byte.eqb b xc2 && (Byte.eqb c x85 || Byte.eqb c xa0) then Some 2
        else
          match l with
          | d :: _ =>
            if Byte.eqb b xe1 && Byte.eqb c x9a && Byte.eqb d x80
               || Byte.eqb b xe2 && Byte.eqb c x80 && (within 0x80 0x8a d || within 0xa8 0xa9 d || Byte.eqb d xaf)
               || Byte.eqb b xe2 && Byte.eqb c x81 && Byte.eqb d x9f
               || Byte.eqb b xe3 && Byte.eqb c x80 && Byte.eqb d x80
            then Some 3 else None
          | [] => None
          end
      | [] => None
      end
  | [] => None
  end%nat.

(** [skip_continuation_indent]: the text past the whitespace it starts with.  The
    fuel is the bytes there are. *)
Fixpoint skip_indent (fuel : nat) (l : list byte) : list byte :=
  match fuel with
  | O => l
  | S fuel => match white_char l with Some n => skip_indent fuel (drop n l) | None => l end
  end.
Definition skip_continuation_indent (l : list byte) : list byte := skip_indent (length l) l.

(** The character an escape stands for. *)
Definition escaped (e : byte) : option byte :=
  snd <$> find (fun row => Byte.eqb e row.1) [(x6e, x0a); (x74, x09); (x72, x0d); (x65, x1b); (x30, x00); (QUOTE, QUOTE); (BACKSLASH, BACKSLASH)].

(** The loop of [decode_string_literal]; an error is an [UnknownEscape].  It reads a
    character at least each turn. *)
Fixpoint decode_loop (fuel : nat) (l : list byte) : result unit (list byte) :=
  match fuel with
  | O => Ok []
  | S fuel =>
    match l with
    | [] => Ok []
    | b :: l =>
      if negb (Byte.eqb b BACKSLASH) then push_result b (decode_loop fuel l)
      else
        match l with
        | [] => Err tt
        | e :: l =>
          match escaped e with
          | Some c => push_result c (decode_loop fuel l)
          | None =>
            if Byte.eqb e newline then decode_loop fuel (skip_continuation_indent l)
            else if Byte.eqb e CARRIAGE_RETURN then
              decode_loop fuel (skip_continuation_indent (if is_byte (head l) newline then tail l else l))
            else Err tt
          end
        end
    end
  end.

(** The text without the quote it starts with, and without the quote the rest ends with. *)
Definition literal_inner (raw : list byte) : list byte :=
  match raw with
  | b :: s =>
    if Byte.eqb b QUOTE then
      match last s with Some c => if Byte.eqb c QUOTE then removelast s else s | None => s end
    else raw
  | [] => raw
  end.

Definition decode_string_literal (raw : list byte) : result unit (list byte) :=
  decode_loop (S (length raw)) (literal_inner raw).
