(* ===== verification/LexerScan.v ===== *)
(** * What the lexer accepts

    The tokens of the language as a grammar ([lexeme], [gap]), the reading of a
    text that takes the longest token at each place ([scanned]), and the lexer as
    that reading: [lex_reads_longest], [lex_finds_reading]. *)

From Stdlib Require Import Strings.String.
From stdpp Require Import list.
From S2P Require Import Prelude.
From S2P Require Import Foreign.
From S2P Require Import Source.
From S2P Require Import Lexer.

(** ** The grammar *)

Definition opener : list byte := [SLASH; STAR].
Definition closer : list byte := [STAR; SLASH].
Definition line_opener : list byte := [SLASH; SLASH].

(** What a block comment holds: whole comments, and bytes that neither open nor
    close one. *)
Inductive comment_body : list byte -> Prop :=
| body_nil : comment_body []
| body_comment b1 b2 : comment_body b1 -> comment_body b2 -> comment_body (opener ++ b1 ++ closer ++ b2)
| body_byte b w : ~ opener `prefix_of` (b :: w ++ closer) -> ~ closer `prefix_of` (b :: w ++ closer) ->
    comment_body w -> comment_body (b :: w).

Definition comment (w : list byte) : Prop := exists b, comment_body b /\ w = opener ++ b ++ closer.

(** The whitespace and the comments between two tokens. *)
Inductive gap : list byte -> Prop :=
| gap_nil : gap []
| gap_white b g : is_ascii_whitespace b = true -> gap g -> gap (b :: g)
| gap_line w g : no_newline w -> gap g -> gap (line_opener ++ w ++ newline :: g)
| gap_block w g : comment w -> gap g -> gap (w ++ g).

(** What follows the last token; [false] for a comment the file ends inside. *)
Inductive last_gap : bool -> list byte -> Prop :=
| last_done g : gap g -> last_gap true g
| last_line_comment g w : gap g -> no_newline w -> last_gap true (g ++ line_opener ++ w)
| last_open g w : gap g -> (forall c, comment c -> ~ c `prefix_of` (opener ++ w)) -> last_gap false (g ++ opener ++ w).

(** What stands between the quotes; [false] where an escape is not one of the
    language's. *)
Inductive string_body : bool -> list byte -> Prop :=
| string_nil : string_body true []
| string_char ok b w : b <> QUOTE -> b <> BACKSLASH -> b <> newline -> string_body ok w -> string_body ok (b :: w)
| string_escape ok e w : e <> newline -> string_body ok w -> string_body (is_escape e && ok) (BACKSLASH :: e :: w)
| string_continued ok w : string_body ok w -> string_body ok (BACKSLASH :: newline :: w)
| string_continued_crlf ok w : string_body ok w -> string_body ok (BACKSLASH :: CARRIAGE_RETURN :: newline :: w).

Definition operators : list (list byte * TokenKind) := three_bytes ++ two_bytes ++ one_byte.

Definition all (p : byte -> bool) (w : list byte) : Prop := Forall (fun b => p b = true) w.

Inductive lexeme : TokenKind -> list byte -> Prop :=
| lexeme_word b w : is_ident_start b = true -> all is_ident w ->
    lexeme (default Identifier (keyword_from_text (b :: w))) (b :: w)
| lexeme_int b w : all is_ascii_digit (b :: w) -> lexeme IntLiteral (b :: w)
| lexeme_hex x h w : x = x78 \/ x = x58 -> all is_ascii_hexdigit (h :: w) -> lexeme IntLiteral (x30 :: x :: h :: w)
| lexeme_float b w d v : all is_ascii_digit (b :: w) -> all is_ascii_digit (d :: v) ->
    lexeme FloatLiteral (b :: w ++ POINT :: d :: v)
| lexeme_string w : string_body true w -> lexeme StringLiteral (QUOTE :: w ++ [QUOTE])
| lexeme_operator k w : (w, k) ∈ operators -> lexeme k w.

(** The longest token a text starts with. *)
Definition longest (k : TokenKind) (w r : list byte) : Prop :=
  lexeme k w /\ forall k' w', lexeme k' w' -> w' `prefix_of` (w ++ r) -> (length w' <= length w)%nat.

Definition stuck (l : list byte) : Prop := forall k w, lexeme k w -> ~ w `prefix_of` l.

(** What is made of a text no token starts: a string that is not closed on its line or
    holds another escape, or a character. *)
Inductive malformed : TokenKind -> list byte -> list byte -> Prop :=
| wrong_escape w r : string_body false w -> malformed StringLiteral (QUOTE :: w ++ [QUOTE]) r
| unclosed_at_line ok w r : string_body ok w -> malformed StringLiteral (QUOTE :: w) (newline :: r)
| unclosed_at_end ok w : string_body ok w -> malformed StringLiteral (QUOTE :: w) []
| unclosed_backslash ok w : string_body ok w -> malformed StringLiteral (QUOTE :: w ++ [BACKSLASH]) []
| unknown_char b w r : b <> QUOTE -> (S (length w) = utf8_char_len b \/ (S (length w) < utf8_char_len b)%nat /\ r = []) ->
    malformed Unknown (b :: w) r.

(** No whitespace and no comment starts here. *)
Definition at_token (l : list byte) : Prop :=
  match l with
  | b :: l => is_ascii_whitespace b = false /\ ~ line_opener `prefix_of` (b :: l) /\ ~ opener `prefix_of` (b :: l)
  | [] => False
  end.

Definition token_at (k : TokenKind) (at_ : nat) (w : list byte) : Token :=
  {| kind := k; token_span := {| start := Z.of_nat at_; len := Z.of_nat (length w) |} |}.

(** A text read token by token from [at_] on; [false] where something was wrong. *)
Inductive scanned : nat -> list byte -> list Token -> bool -> Prop :=
| scanned_end at_ g ok : last_gap ok g -> scanned at_ g [] ok
| scanned_token at_ g k w r ts ok : gap g -> at_token (w ++ r) -> longest k w r ->
    scanned (at_ + length g + length w) r ts ok ->
    scanned at_ (g ++ w ++ r) (token_at k (at_ + length g) w :: ts) ok
| scanned_wrong at_ g k w r ts ok : gap g -> at_token (w ++ r) -> stuck (w ++ r) -> malformed k w r ->
    scanned (at_ + length g + length w) r ts ok ->
    scanned at_ (g ++ w ++ r) (token_at k (at_ + length g) w :: ts) false.

(** ** Runs of a class of bytes *)

Lemma eqb_spec (a b : byte) : Bool.reflect (a = b) (Byte.eqb a b).
Proof. destruct (Byte.eqb a b) eqn:H; constructor; [by apply Byte.byte_dec_bl|]. intros ->. by rewrite (Byte.byte_dec_lb eq_refl) in H. Qed.

Lemma eqb_same (a : byte) : Byte.eqb a a = true.
Proof. by apply Byte.byte_dec_lb. Qed.

Lemma run_stops p l : exists w r, l = w ++ r /\ run p l = length w /\ all p w /\ (forall b r', r = b :: r' -> p b = false).
Proof.
  induction l as [|b l (w & r & -> & Hn & Hw & Hr)].
  - exists [], []. split_and!; [done|done|by constructor|done].
  - cbn. destruct (p b) eqn:Hb.
    + exists (b :: w), r. rewrite Hn. split_and!; [done|done|by constructor|done].
    + exists [], (b :: w ++ r). split_and!; [done|done|by constructor|]. intros c r' [= <- _]. done.
Qed.

Lemma run_covers p w r : all p w -> (length w <= run p (w ++ r))%nat.
Proof. induction 1 as [|b w Hb _ IH]; cbn; [lia|]. rewrite Hb. lia. Qed.

Lemma starts_with_spec p l : starts_with p l = true <-> p `prefix_of` l.
Proof.
  revert l. induction p as [|a p IH]; intros l; cbn.
  - split; [intros _; apply prefix_nil|done].
  - destruct l as [|b l]; [split; [done|intros H; by apply prefix_nil_not in H]|]. rewrite Bool.andb_true_iff, IH.
    destruct (eqb_spec a b) as [->|Hne]; split.
    + intros [_ H]. by apply prefix_cons.
    + intros H. split; [done|by apply prefix_cons_inv_2 in H].
    + by intros [? _].
    + intros H. by apply prefix_cons_inv_1 in H.
Qed.

(** ** Moving the lexer *)

(** The lexer [n] bytes on, with more tokens and reports. *)
Definition after (n : nat) (ts : list Token) (ds : list Diagnostic) (x : Lexer) : Lexer :=
  {| lx_source := lx_source x; bytes := bytes x; pos := pos x + n; tokens := tokens x ++ ts; diagnostics := diagnostics x ++ ds |}.

Lemma after_nothing x : after 0 [] [] x = x.
Proof. destruct x. unfold after. cbn. by rewrite Nat.add_0_r, !app_nil_r. Qed.

Lemma after_after n1 ts1 ds1 n2 ts2 ds2 x :
  after n2 ts2 ds2 (after n1 ts1 ds1 x) = after (n1 + n2) (ts1 ++ ts2) (ds1 ++ ds2) x.
Proof. unfold after. cbn. by rewrite Nat.add_assoc, !app_assoc. Qed.

Lemma advance_after n x : advance n x = after n [] [] x.
Proof. destruct x. unfold advance, with_pos, after. cbn. by rewrite !app_nil_r. Qed.

Lemma report_after n ts ds more x : report more (after n ts ds x) = after n ts (ds ++ more) x.
Proof. unfold report, after. cbn. by rewrite app_assoc. Qed.

Lemma rest_after w r ts ds x : rest x = w ++ r -> rest (after (length w) ts ds x) = r.
Proof. unfold rest. cbn. intros H. by rewrite <- drop_drop, H, drop_app_length. Qed.

Lemma peek_rest x : peek x = head (rest x).
Proof. unfold peek, rest. rewrite head_lookup, lookup_drop. by rewrite Nat.add_0_r. Qed.

Lemma peek_at_rest n x : peek_at n x = rest x !! n.
Proof. unfold peek_at, rest. by rewrite lookup_drop. Qed.

(** The file fits: 4 GiB less one byte at the most, and the cursor is in it. *)
Definition inside (x : Lexer) : Prop := fits_u32 (bytes x) /\ (pos x <= length (bytes x))%nat.

Lemma rest_length x : inside x -> length (bytes x) = (pos x + length (rest x))%nat.
Proof. intros [_ H]. unfold rest. rewrite length_drop. lia. Qed.

Lemma inside_after w r ts ds x : inside x -> rest x = w ++ r -> inside (after (length w) ts ds x).
Proof.
  intros Hx Hr. pose proof (rest_length x Hx) as Hl. rewrite Hr, length_app in Hl. destruct Hx as [Hf _].
  split; cbn; [done|lia].
Qed.

Lemma span_exact w r x : inside x -> rest x = w ++ r ->
  span_of (pos x) (pos x + length w) = {| start := Z.of_nat (pos x); len := Z.of_nat (length w) |}.
Proof.
  intros Hx Hr. pose proof (rest_length x Hx) as Hl. rewrite Hr, length_app in Hl. destruct Hx as [Hf Hp]. unfold fits_u32 in Hf.
  unfold span_of, from_bounds. rewrite !(uwrap_id 32) by (rewrite ?uwrap_id by (split; lia); split; lia). f_equal. lia.
Qed.

Lemma emit_after k w r ds x : inside x -> rest x = w ++ r ->
  emit k (pos x) (after (length w) [] ds x) = after (length w) [token_at k (pos x) w] ds x.
Proof.
  intros Hx Hr. unfold emit, push_token, after, token_at. cbn. by rewrite app_nil_r, (span_exact w r) by done.
Qed.

Lemma emit_exact k w r x : inside x -> rest x = w ++ r ->
  emit k (pos x) (advance (length w) x) = after (length w) [token_at k (pos x) w] [] x.
Proof. rewrite advance_after. apply emit_after. Qed.

(** ** Comments *)

Definition farther (n : nat) (r : nat * bool) : nat * bool := ((n + r.1)%nat, r.2).

Lemma block_opens d l : block_comment d (opener ++ l) = farther 2 (block_comment (S d) l).
Proof. cbn. by destruct (block_comment (S d) l). Qed.

Lemma block_closes d l : block_comment (S d) (closer ++ l) = if decide (d = 0%nat) then (2%nat, true) else farther 2 (block_comment d l).
Proof. cbn. rewrite decide_bool_decide. destruct (bool_decide (d = 0%nat)); [done|]. by destruct (block_comment d l). Qed.

Lemma prefix_two (a b c d : byte) l : Byte.eqb c a && Byte.eqb d b = true <-> [a; b] `prefix_of` (c :: d :: l).
Proof. rewrite <- starts_with_spec. cbn. rewrite Bool.andb_true_r. destruct (eqb_spec c a), (eqb_spec a c), (eqb_spec d b), (eqb_spec b d); cbn; split; congruence. Qed.

Lemma block_passes d a l : ~ opener `prefix_of` (a :: l) -> ~ closer `prefix_of` (a :: l) ->
  block_comment d (a :: l) = farther 1 (block_comment d l).
Proof.
  intros Ho Hc. destruct l as [|b l]; [done|]. unfold opener, closer in *. rewrite <- prefix_two in Ho. rewrite <- prefix_two in Hc.
  apply not_true_is_false in Ho, Hc. cbn [block_comment]. rewrite Ho, Hc. destruct (block_comment d (b :: l)) eqn:He. cbn in He. by rewrite He.
Qed.

Lemma farther_farther n m r : farther n (farther m r) = farther (n + m) r.
Proof. unfold farther. cbn. f_equal. lia. Qed.

(** The two bytes of an opener or a closer are within what ends in a closer. *)
Lemma prefix_within (a b c : byte) w r : [a; b] `prefix_of` (c :: (w ++ closer) ++ r) -> [a; b] `prefix_of` (c :: w ++ closer).
Proof. unfold closer. destruct w; cbn; intros H; apply prefix_two in H. all: by apply prefix_two. Qed.

Lemma block_body b : comment_body b -> forall d r, block_comment (S d) (b ++ closer ++ r) = farther (length b) (block_comment (S d) (closer ++ r)).
Proof.
  induction 1 as [|b1 b2 _ IH1 _ IH2|b w Ho Hc _ IH]; intros d r.
  - rewrite app_nil_l. generalize (block_comment (S d) (closer ++ r)). by intros [].
  - rewrite <- !app_assoc, block_opens, IH1, block_closes. rewrite decide_False by done. rewrite IH2, !farther_farther. f_equal.
    rewrite !length_app. cbn. lia.
  - rewrite <- app_comm_cons, block_passes, IH, farther_farther; [done|..]; intros Hp; rewrite app_assoc in Hp; by apply prefix_within in Hp.
Qed.

Lemma block_comment_whole w r : comment w -> block_comment 0 (w ++ r) = (length w, true).
Proof.
  intros (b & Hb & ->). rewrite <- !app_assoc, block_opens, block_body by done. rewrite block_closes, decide_True by done. unfold farther. cbn [fst snd].
  f_equal. rewrite !length_app. cbn. lia.
Qed.

(** What closes [d] comments. *)
Fixpoint closes (d : nat) (w : list byte) : Prop :=
  match d with O => w = [] | S d => exists b w', w = b ++ closer ++ w' /\ comment_body b /\ closes d w' end.

Lemma block_closed n0 : forall l d n, (length l < n0)%nat -> block_comment (S d) l = (n, true) ->
  exists w r, l = w ++ r /\ n = length w /\ closes (S d) w.
Proof.
  induction n0 as [|n0 IH]; intros l d n Hlen Hb; [lia|].
  destruct l as [|a l]; [done|]. cbn in Hlen.
  destruct (decide (opener `prefix_of` (a :: l))) as [[l' Ho]|Ho].
  { rewrite Ho, block_opens in Hb. assert (length (a :: l) = S (S (length l'))) as Hl by (rewrite Ho; done). cbn in Hl.
    destruct (block_comment (S (S d)) l') as [m c] eqn:He. unfold farther in Hb. cbn in Hb. simplify_eq.
    destruct (IH l' (S d) m ltac:(lia) He) as (w & r & -> & -> & b1 & w1 & -> & Hb1 & b2 & w2 & -> & Hb2 & Hw).
    exists (opener ++ b1 ++ closer ++ b2 ++ closer ++ w2), r. rewrite Ho. split_and!.
    - by rewrite <- !app_assoc.
    - done.
    - exists (opener ++ b1 ++ closer ++ b2), w2. split; [by rewrite <- !app_assoc|]. split; [by constructor|done]. }
  destruct (decide (closer `prefix_of` (a :: l))) as [[l' Hc]|Hc].
  { rewrite Hc, block_closes in Hb. assert (length (a :: l) = S (S (length l'))) as Hl by (rewrite Hc; done). cbn in Hl.
    destruct (decide (d = 0%nat)) as [->|Hd].
    - simplify_eq. exists closer, l'. split_and!; [done|done|]. exists [], []. split_and!; [done|constructor|done].
    - destruct d as [|d]; [done|]. destruct (block_comment (S d) l') as [m c] eqn:He. unfold farther in Hb. cbn in Hb. simplify_eq.
      destruct (IH l' d m ltac:(lia) He) as (w & r & -> & -> & Hw).
      exists (closer ++ w), r. rewrite Hc. split_and!; [by rewrite <- app_assoc|done|]. exists [], w. split_and!; [done|constructor|done]. }
  rewrite block_passes in Hb by done. destruct (block_comment (S d) l) as [m c] eqn:He. unfold farther in Hb. cbn in Hb. simplify_eq.
  destruct (IH l d m ltac:(lia) He) as (w & r & -> & -> & b & w' & -> & Hbody & Hw).
  exists (a :: b ++ closer ++ w'), r. split_and!; [done|done|]. exists (a :: b), w'. split_and!; [done| |done].
  replace (a :: (b ++ closer ++ w') ++ r) with ((a :: b ++ closer) ++ w' ++ r) in * by (cbn; by rewrite <- !app_assoc).
  constructor; [| |done]; intros Hp; [apply Ho|apply Hc]; by apply prefix_app_r.
Qed.

Lemma block_open_to_end l : forall d n, block_comment d l = (n, false) -> n = length l.
Proof.
  assert (forall n0 l d n, (length l < n0)%nat -> block_comment d l = (n, false) -> n = length l) as H; [|intros d n; eapply (H (S (length l))); lia].
  clear l. induction n0 as [|n0 IH]; intros l d n Hlen Hb; [lia|].
  destruct l as [|a [|b l]]; [by cbn in Hb; simplify_eq|by cbn in Hb; simplify_eq|].
  remember (b :: l) as m eqn:Hm. assert (length m = S (length l)) as Hml by by rewrite Hm.
  cbn [block_comment] in Hb. rewrite Hm in Hb at 1. cbn [length] in *.
  repeat case_match; simplify_eq;
    match goal with H : block_comment _ ?k = (_, false) |- _ => apply IH in H; cbn in *; lia end.
Qed.

(** ** Between tokens *)

Lemma gap_app g1 g2 : gap g1 -> gap g2 -> gap (g1 ++ g2).
Proof.
  intros H1 H2. induction H1 as [|b g Hb _ IH|w g Hw _ IH|w g Hw _ IH].
  - done.
  - by apply gap_white.
  - rewrite <- !app_assoc, <- app_comm_cons. by apply gap_line.
  - rewrite <- app_assoc. by apply gap_block.
Qed.

Lemma last_gap_app g1 ok g2 : gap g1 -> last_gap ok g2 -> last_gap ok (g1 ++ g2).
Proof. intros H1 [g H2|g w H2 Hw|g w H2 Hw]; rewrite ?(app_assoc g1); [apply last_done|apply last_line_comment|apply last_open]; auto using gap_app. Qed.

Lemma rest_starts x n l : rest x = l -> peek_at n x = l !! n.
Proof. intros <-. apply peek_at_rest. Qed.

Lemma skip_trivia_end fuel x : rest x = [] -> skip_trivia fuel x = x.
Proof. destruct fuel; [done|]. cbn. rewrite peek_rest. by intros ->. Qed.

Lemma skip_trivia_white fuel x b l : rest x = b :: l -> is_ascii_whitespace b = true -> skip_trivia (S fuel) x = skip_trivia fuel (after 1 [] [] x).
Proof. intros Hr Hb. cbn. rewrite peek_rest, Hr. cbn. by rewrite Hb, advance_after. Qed.

Lemma skip_trivia_line fuel x l : rest x = line_opener ++ l ->
  skip_trivia (S fuel) x = skip_trivia fuel (after (2 + run (fun b => negb (Byte.eqb b newline)) l) [] [] x).
Proof. intros Hr. cbn. rewrite peek_rest, peek_at_rest, Hr. cbn. change (is_ascii_whitespace SLASH) with false. by rewrite !advance_after. Qed.

Lemma skip_trivia_block fuel x l : rest x = opener ++ l ->
  skip_trivia (S fuel) x = skip_trivia fuel (skip_block_comment x).
Proof. intros Hr. cbn. rewrite peek_rest, peek_at_rest, Hr. cbn. by change (is_ascii_whitespace SLASH) with false. Qed.

Lemma skip_trivia_stays fuel x : at_token (rest x) -> skip_trivia fuel x = x.
Proof.
  destruct fuel as [|fuel]; [done|]. destruct (rest x) as [|b l] eqn:Hr; [done|]. intros (Hw & Hl & Ho). cbn.
  rewrite peek_rest, peek_at_rest, Hr. cbn. rewrite Hw.
  destruct l as [|c l]; cbn; [by rewrite Bool.andb_false_r|].
  unfold line_opener, opener in *. rewrite <- prefix_two in Hl. rewrite <- prefix_two in Ho. by apply not_true_is_false in Hl as ->, Ho as ->.
Qed.

Lemma skip_whole_comment x w r : rest x = w ++ r -> comment w -> skip_block_comment x = after (length w) [] [] x.
Proof. intros Hr Hw. unfold skip_block_comment. rewrite Hr, block_comment_whole by done. apply advance_after. Qed.

Lemma is_newline b : negb (Byte.eqb b newline) = true <-> Byte.eqb b newline = false.
Proof. by destruct (Byte.eqb b newline). Qed.

Lemma line_run w r : no_newline w -> (r = [] \/ exists r', r = newline :: r') ->
  run (fun b => negb (Byte.eqb b newline)) (w ++ r) = length w.
Proof.
  intros Hw Hr. induction Hw as [|b w Hb _ IH]; cbn; [by destruct Hr as [->|[? ->]]|]. by rewrite Hb, IH.
Qed.

(** Before a token, a gap is passed, to the byte. *)
Lemma skip_trivia_gap g : gap g -> forall fuel x r, rest x = g ++ r -> (length (rest x) < fuel)%nat ->
  exists fuel', skip_trivia fuel x = skip_trivia fuel' (after (length g) [] [] x) /\ (length r < fuel')%nat.
Proof.
  assert (forall fuel1 fuel x w g r, rest x = (w ++ g) ++ r -> (length (rest x) - length w < fuel1)%nat ->
    skip_trivia fuel x = skip_trivia fuel1 (after (length w) [] [] x) ->
    (forall fuel x r, rest x = g ++ r -> (length (rest x) < fuel)%nat ->
      exists fuel', skip_trivia fuel x = skip_trivia fuel' (after (length g) [] [] x) /\ (length r < fuel')%nat) ->
    exists fuel', skip_trivia fuel x = skip_trivia fuel' (after (length (w ++ g)) [] [] x) /\ (length r < fuel')%nat) as step.
  { intros fuel1 fuel x w g0 r Hr Hf Hs IH. rewrite <- app_assoc in Hr. rewrite Hs.
    destruct (IH fuel1 (after (length w) [] [] x) r) as (fuel' & -> & Hfuel').
    - by eapply rest_after.
    - rewrite (rest_after w (g0 ++ r)) by done. rewrite Hr, length_app in Hf. lia.
    - exists fuel'. rewrite after_after, length_app. done. }
  induction 1 as [|b g Hb _ IH|w g Hw Hg IH|w g Hw _ IH]; intros fuel x r Hr Hf; (destruct fuel as [|fuel]; [lia|]).
  - exists (S fuel). rewrite after_nothing. split; [done|]. by rewrite Hr in Hf.
  - apply (step fuel (S fuel) x [b] g r); auto; [rewrite Hr in *; cbn in *; lia|]. by apply (skip_trivia_white fuel x b (g ++ r)).
  - replace (line_opener ++ w ++ newline :: g) with ((line_opener ++ w ++ [newline]) ++ g) in * by (rewrite <- !app_assoc; done).
    destruct fuel as [|fuel]; [rewrite Hr, !length_app in Hf; cbn in Hf; lia|].
    apply (step fuel (S (S fuel)) x _ g r); [done|rewrite Hr, !length_app in *; cbn in *; lia| |done].
    rewrite <- !app_assoc in Hr. rewrite (skip_trivia_line _ x (w ++ newline :: g ++ r)) by done. rewrite line_run by eauto.
    rewrite (skip_trivia_white _ _ newline (g ++ r)); [rewrite after_after; do 2 f_equal; rewrite !length_app; cbn; lia| |done].
    apply (rest_after (line_opener ++ w)). by rewrite Hr, <- !app_assoc.
  - pose proof Hw as (b & _ & Hb). apply (step fuel (S fuel) x w g r); auto.
    + rewrite Hr, Hb, !length_app in *. cbn in *. lia.
    + rewrite Hb, <- !app_assoc in Hr. erewrite skip_trivia_block by done.
      erewrite (skip_whole_comment x w (g ++ r)); [done| |done]. by rewrite Hr, Hb, <- !app_assoc.
Qed.

(** Every text starts with a gap; a token, the end, or a comment the text ends in
    comes next. *)
Lemma gap_split l : exists g r, l = g ++ r /\ gap g /\
  (at_token r \/ r = [] \/ (exists w, r = line_opener ++ w /\ no_newline w) \/
   exists w, r = opener ++ w /\ block_comment 0 r = (length r, false)).
Proof.
  induction l as [l IH] using (induction_ltof1 _ (@length byte)). unfold ltof in IH.
  assert (forall w l', l = w ++ l' -> w <> [] -> (forall g, gap g -> gap (w ++ g)) -> exists g r, l = g ++ r /\ gap g /\
    (at_token r \/ r = [] \/ (exists w, r = line_opener ++ w /\ no_newline w) \/ exists w, r = opener ++ w /\ block_comment 0 r = (length r, false))) as step.
  { intros w l' Hl Hw Hgap. destruct (IH l') as (g & r & -> & Hg & Hr).
    - rewrite Hl, length_app. destruct w; [done|cbn; lia].
    - exists (w ++ g), r. split; [by rewrite <- app_assoc|]. auto. }
  destruct l as [|b l]; [exists [], []; split; [done|]; split; [constructor|auto]|].
  destruct (is_ascii_whitespace b) eqn:Hb.
  { apply (step [b] l); [done|done|]. intros g. by apply gap_white. }
  destruct (decide (line_opener `prefix_of` (b :: l))) as [[l' Hl]|Hline].
  { rewrite Hl in *. destruct (run_stops (fun b => negb (Byte.eqb b newline)) l') as (w & r & -> & _ & Hw & Hr).
    assert (no_newline w) as Hno by (eapply Forall_impl; [exact Hw|]; intros c; apply is_newline).
    destruct r as [|c r].
    - exists [], (line_opener ++ w). rewrite app_nil_r. split; [done|]. split; [constructor|]. right; right; left. by exists w.
    - specialize (Hr c r eq_refl). destruct (eqb_spec c newline) as [->|]; [|done].
      apply (step (line_opener ++ w ++ [newline]) r); [by rewrite <- !app_assoc|done|]. intros g Hg. rewrite <- !app_assoc. by apply gap_line. }
  destruct (decide (opener `prefix_of` (b :: l))) as [[l' Hl]|Ho].
  { rewrite Hl in *. destruct (block_comment 0 (opener ++ l')) as [n []] eqn:Hn.
    - rewrite block_opens in Hn. destruct (block_comment 1 l') as [m c] eqn:Hm. unfold farther in Hn. cbn in Hn. simplify_eq.
      destruct (block_closed (S (length l')) l' 0 m ltac:(lia) Hm) as (w & r & -> & -> & w1 & w2 & -> & Hw & Hw2).
      cbn in Hw2. subst w2. rewrite app_nil_r. apply (step (opener ++ w1 ++ closer) r); [by rewrite <- !app_assoc|done|]. intros g. apply gap_block. by exists w1.
    - exists [], (opener ++ l'). split; [done|]. split; [constructor|]. right; right; right. exists l'. split; [done|].
      by rewrite Hn, (block_open_to_end _ _ _ Hn). }
  exists [], (b :: l). split; [done|]. split; [constructor|]. by left.
Qed.

(** The end of a text after a line comment, or after none. *)
Lemma skip_trivia_last ok l : last_gap ok l -> ok = true -> forall x fuel, rest x = l -> (length l < fuel)%nat ->
  skip_trivia fuel x = after (length l) [] [] x.
Proof.
  intros [g Hg|g w Hg Hw|] Hok x fuel Hr Hf; [| |done].
  - rewrite <- (app_nil_r g) in Hr. rewrite <- (app_nil_r g) in Hf. rewrite <- Hr in Hf.
    destruct (skip_trivia_gap g Hg fuel x [] Hr Hf) as (fuel' & -> & _). apply skip_trivia_end. by apply rest_after.
  - rewrite <- Hr in Hf. destruct (skip_trivia_gap g Hg fuel x (line_opener ++ w) Hr Hf) as (fuel' & -> & Hf').
    destruct fuel' as [|fuel']; [lia|]. rewrite (skip_trivia_line _ _ w) by by apply rest_after.
    rewrite <- (app_nil_r w), line_run by eauto. rewrite after_after. cbn [app]. rewrite app_nil_r.
    replace (length g + (2 + length w))%nat with (length (g ++ line_opener ++ w)) by (rewrite !length_app; cbn; lia).
    apply skip_trivia_end, rest_after. by rewrite app_nil_r.
Qed.

Lemma skip_trivia_token x fuel g r : rest x = g ++ r -> gap g -> at_token r -> (length (rest x) < fuel)%nat ->
  skip_trivia fuel x = after (length g) [] [] x.
Proof.
  intros Hr Hg Ht Hf. destruct (skip_trivia_gap g Hg fuel x r Hr Hf) as (fuel' & -> & _). apply skip_trivia_stays.
  by rewrite (rest_after g r) by done.
Qed.

Lemma skip_trivia_stops x fuel : (length (rest x) < fuel)%nat ->
  (exists g r, rest x = g ++ r /\ gap g /\ at_token r /\ skip_trivia fuel x = after (length g) [] [] x) \/
  (exists ok ds, last_gap ok (rest x) /\ skip_trivia fuel x = after (length (rest x)) [] ds x /\ (ok = true <-> ds = []) /\ (ds = [] \/ exists g r,
    rest x = g ++ r /\ gap g /\ ds = [diagnostic UnterminatedComment (lx_source x) (span_of (pos x + length g) (pos x + length (g ++ r)))])).
Proof.
  intros Hf. destruct (gap_split (rest x)) as (g & r & Hr & Hg & [Ht|[->|[(w & -> & Hw)|(w & -> & Hw)]]]).
  - left. exists g, r. split_and!; [done|done|done|]. by eapply skip_trivia_token.
  - assert (last_gap true (rest x)) as Hlast by (rewrite Hr, app_nil_r; by apply last_done).
    right. exists true, []. split_and!; [done|by eapply skip_trivia_last|done|by left].
  - assert (last_gap true (rest x)) as Hlast by (rewrite Hr; by apply last_line_comment).
    right. exists true, []. split_and!; [done|by eapply skip_trivia_last|done|by left].
  - destruct (skip_trivia_gap g Hg fuel x _ Hr Hf) as (fuel' & -> & Hf'). pose proof (rest_after g _ [] [] x Hr) as Hafter.
    right. rewrite Hr. exists false. eexists [_]. split_and!; [apply last_open; [done|]| |done|right; by exists g, (opener ++ w)].
    + intros c Hc [k Hk]. rewrite Hk, block_comment_whole in Hw by done. done.
    + destruct fuel' as [|fuel']; [lia|]. rewrite (skip_trivia_block _ _ w) by done. unfold skip_block_comment. rewrite Hafter, Hw.
      rewrite advance_after, after_after, report_after, <- length_app. apply skip_trivia_end.
      apply rest_after. by rewrite app_nil_r.
Qed.

(** ** One token *)

Lemma operators_heads : Forall (fun row => match row.1 with
  | b :: _ => b <> QUOTE /\ is_ascii_digit b = false /\ is_ident_start b = false | [] => False end) operators.
Proof. repeat constructor; done. Qed.

Lemma operator_head b w k : (b :: w, k) ∈ operators -> b <> QUOTE /\ is_ascii_digit b = false /\ is_ident_start b = false.
Proof. intros H. pose proof operators_heads as Hall. rewrite Forall_forall in Hall. exact (Hall _ H). Qed.

Lemma start_class b : is_ident_start b = true -> is_ident b = true /\ is_ascii_digit b = false /\ b <> QUOTE.
Proof. by destruct b. Qed.

Lemma digit_class b : is_ascii_digit b = true -> is_ident_start b = false /\ b <> QUOTE /\ b <> POINT /\ b <> x78 /\ b <> x58.
Proof. by destruct b. Qed.

Lemma lexeme_not_empty k : ~ lexeme k [].
Proof.
  inversion 1 as [| | | | |? ? Hop]. pose proof operators_heads as Hall. rewrite Forall_forall in Hall. exact (Hall _ Hop).
Qed.

(** The first byte of a token decides what it can be. *)
Inductive headed : byte -> TokenKind -> list byte -> Prop :=
| headed_word b w k : is_ident_start b = true -> all is_ident (b :: w) -> k = default Identifier (keyword_from_text (b :: w)) -> headed b k w
| headed_int b w : is_ascii_digit b = true -> all is_ascii_digit (b :: w) -> headed b IntLiteral w
| headed_hex x h w : x = x78 \/ x = x58 -> all is_ascii_hexdigit (h :: w) -> headed x30 IntLiteral (x :: h :: w)
| headed_float b w d v : is_ascii_digit b = true -> all is_ascii_digit (b :: w) -> all is_ascii_digit (d :: v) -> headed b FloatLiteral (w ++ POINT :: d :: v)
| headed_string v : string_body true v -> headed QUOTE StringLiteral (v ++ [QUOTE])
| headed_operator b k w : b <> QUOTE -> is_ascii_digit b = false -> is_ident_start b = false -> (b :: w, k) ∈ operators -> headed b k w.

Lemma lexeme_headed k w : lexeme k w -> exists b w', w = b :: w' /\ headed b k w'.
Proof.
  intros [b v Hb Hv|b v Hv|x h v Hx Hv|b v d u Hv Hu|v Hv|k' w' Hop].
  - exists b, v. split; [done|]. apply headed_word; [done|constructor; [by apply start_class|done]|done].
  - exists b, v. split; [done|]. apply headed_int; [by inversion Hv|done].
  - eexists _, _. split; [done|]. by apply headed_hex.
  - eexists _, _. split; [done|]. apply headed_float; [by inversion Hv|done|done].
  - eexists _, _. split; [done|]. by apply headed_string.
  - destruct w' as [|b w']; [by apply lexeme_operator, lexeme_not_empty in Hop|]. exists b, w'. split; [done|].
    destruct (operator_head b w' k' Hop) as (? & ? & ?). by apply headed_operator.
Qed.

(** A lexeme is the longest when the lexemes with its first byte are no longer. *)
Lemma longest_headed k b w r : lexeme k (b :: w) ->
  (forall k' v s, headed b k' v -> w ++ r = v ++ s -> (length v <= length w)%nat) -> longest k (b :: w) r.
Proof.
  intros Hk Hlen. split; [done|]. intros k' w' Hk' [s Hs]. destruct (lexeme_headed k' w' Hk') as (b' & v & -> & Hv).
  cbn in Hs. injection Hs as <- Hs. cbn. apply le_n_S. by eapply Hlen.
Qed.

Lemma stuck_headed b l : (forall k v s, headed b k v -> l = v ++ s -> False) -> stuck (b :: l).
Proof.
  intros H k w Hk [s Hs]. destruct (lexeme_headed k w Hk) as (b' & v & -> & Hv). cbn in Hs. injection Hs as <- Hs. by eapply H.
Qed.

Lemma lex_identifier_reads x b l : inside x -> rest x = b :: l -> is_ident_start b = true ->
  exists k w r, rest x = w ++ r /\ longest k w r /\ lex_identifier x = after (length w) [token_at k (pos x) w] [] x.
Proof.
  intros Hx Hr Hb. destruct (run_stops is_ident (rest x)) as (w & r & Hwr & Hn & Hw & Hstop).
  destruct (start_class b Hb) as (Hib & Hd & Hq).
  exists (default Identifier (keyword_from_text w)), w, r. split; [done|]. split.
  - rewrite Hr in Hwr. destruct w as [|b' w]; [cbn in Hwr; subst r; by rewrite (Hstop b l eq_refl) in Hib|].
    cbn in Hwr. injection Hwr as <- ->. apply longest_headed; [constructor; [done|by inversion Hw]|].
    intros k' v s Hv Hs. inversion Hv; subst; try congruence; [|by vm_compute in Hd].
    match goal with H : all is_ident (_ :: v) |- _ => pose proof (run_covers is_ident (b :: v) s H) as Hle end.
    rewrite <- app_comm_cons, <- Hs in Hle. rewrite Hr in Hn. rewrite Hn in Hle. cbn in Hle. lia.
  - unfold lex_identifier. rewrite Hn, Hwr, take_app_length. by eapply emit_exact.
Qed.

(** The bytes a run of a class stops at, and what a longer run would have to be. *)
Lemma run_bound p w r v s n : run p (w ++ r) = n -> w ++ r = v ++ s -> all p v -> (length v <= n)%nat.
Proof. intros <- -> Hv. by apply run_covers. Qed.

Lemma run_whole p w r : all p w -> (forall c r', r = c :: r' -> p c = false) -> run p (w ++ r) = length w.
Proof.
  intros Hw Hr. induction Hw as [|b w Hb _ IH]; cbn; [|by rewrite Hb, IH].
  destruct r as [|c r]; [done|]. cbn. by rewrite (Hr c r eq_refl).
Qed.

Lemma run_exact p w c s : all p w -> p c = false -> run p (w ++ c :: s) = length w.
Proof. intros Hw Hc. apply run_whole; [done|]. by intros ? ? [= <- _]. Qed.

Lemma advance_advance m n x : advance m (advance n x) = advance (n + m) x.
Proof. unfold advance, with_pos. cbn. by rewrite Nat.add_assoc. Qed.

Lemma rest_advance w r x : rest x = w ++ r -> rest (advance (length w) x) = r.
Proof. rewrite advance_after. apply rest_after. Qed.

(** The test of [lex_number] for a hexadecimal literal. *)
Definition hex_ahead (l : list byte) : bool :=
  is_byte (head l) x30 && (is_byte (l !! 1%nat) x78 || is_byte (l !! 1%nat) x58) && is_class (l !! 2%nat) is_ascii_hexdigit.

Lemma hex_ahead_true l : hex_ahead l = true -> exists x h l', l = x30 :: x :: h :: l' /\ (x = x78 \/ x = x58) /\ is_ascii_hexdigit h = true.
Proof.
  unfold hex_ahead. destruct l as [|b [|c [|h l]]]; cbn; try done; [by rewrite !Bool.andb_false_r|by rewrite !Bool.andb_false_r|].
  intros [[Hb Hc]%andb_prop Hh]%andb_prop. apply Byte.byte_dec_bl in Hb as ->. exists c, h, l. split_and!; [done| |done].
  apply orb_prop in Hc as [Hc|Hc]; apply Byte.byte_dec_bl in Hc; auto.
Qed.

Lemma hex_ahead_found x h w s : x = x78 \/ x = x58 -> all is_ascii_hexdigit (h :: w) -> hex_ahead (x30 :: x :: h :: w ++ s) = true.
Proof. intros Hx Hw. inversion Hw as [|? ? Hh]. subst. unfold hex_ahead. cbn. rewrite Hh. by destruct Hx as [-> | ->]. Qed.

Lemma longest_hex x h w r : x = x78 \/ x = x58 -> all is_ascii_hexdigit (h :: w) -> (forall c r', r = c :: r' -> is_ascii_hexdigit c = false) ->
  longest IntLiteral (x30 :: x :: h :: w) r.
Proof.
  intros Hx Hw Hr. apply longest_headed; [by constructor|]. intros k v s Hv Hs.
  assert (forall v, all is_ascii_digit v -> forall s, x :: h :: w ++ r = v ++ s -> v = []) as Hnone.
  { intros [|c v0] Hall s0 Heq; [done|]. injection Heq as <- _. inversion Hall. by destruct Hx as [-> | ->]. }
  inversion Hv; subst; try done.
  - match goal with H : all is_ascii_digit _ |- _ => inversion H; subst end. rewrite (Hnone v ltac:(done) s Hs). cbn. lia.
  - cbn in Hs. injection Hs as _ Hs Hs'. cbn. do 2 apply le_n_S.
    assert (run is_ascii_hexdigit ((h :: w) ++ r) = length (h :: w)) as Hrun by by apply run_whole.
    assert (length (h0 :: w0) <= length (h :: w))%nat as Hle; [|cbn in Hle; lia].
    eapply run_bound; [exact Hrun| |done]. cbn. by rewrite Hs, Hs'.
  - match goal with H : all is_ascii_digit (x30 :: _) |- _ => inversion H; subst end.
    rewrite <- app_assoc in Hs. match goal with H : Forall _ w0 |- _ => pose proof (Hnone w0 H _ Hs) as -> end.
    cbn in Hs. injection Hs as -> _. by destruct Hx.
Qed.

(** A text that starts as a number and not as a hexadecimal one. *)
Lemma decimal_headed b k v s l : is_ascii_digit b = true -> headed b k v -> l = b :: v ++ s -> hex_ahead l = false ->
  k = IntLiteral /\ all is_ascii_digit (b :: v) \/
  exists w d u, k = FloatLiteral /\ v = w ++ POINT :: d :: u /\ all is_ascii_digit (b :: w) /\ all is_ascii_digit (d :: u).
Proof.
  intros Hb Hv -> Hhex. destruct (digit_class b Hb) as (Hid & Hq & _). inversion Hv; subst; try congruence; [by left| |by right; eauto 10].
  cbn [app] in Hhex. rewrite hex_ahead_found in Hhex by done. done.
Qed.

Lemma longest_int b w r : all is_ascii_digit (b :: w) -> (forall c r', r = c :: r' -> is_ascii_digit c = false) ->
  hex_ahead (b :: w ++ r) = false -> (forall d r', r = POINT :: d :: r' -> is_ascii_digit d = false) -> longest IntLiteral (b :: w) r.
Proof.
  intros Hw Hr Hhex Hpoint. assert (is_ascii_digit b = true) as Hb by by inversion Hw.
  pose proof (run_whole is_ascii_digit (b :: w) r Hw Hr) as Hrun.
  apply longest_headed; [by constructor|]. intros k v s Hv Hs.
  destruct (decimal_headed b k v s (b :: w ++ r) Hb Hv ltac:(by rewrite Hs) Hhex) as [[_ Hall]|(u & d & t & _ & -> & Hu & Ht)].
  - assert (length (b :: v) <= length (b :: w))%nat as Hle; [|cbn in Hle; lia]. eapply run_bound; [exact Hrun| |done]. cbn. by rewrite Hs.
  - rewrite <- app_assoc in Hs. pose proof (run_exact is_ascii_digit (b :: u) POINT ((d :: t) ++ s) Hu eq_refl) as Hrun'.
    cbn [app] in Hrun, Hrun'. rewrite Hs in Hrun. cbn [app] in Hrun. rewrite Hrun in Hrun'. cbn in Hrun'.
    apply app_inj_1 in Hs as [-> ->]; [|lia]. inversion Ht as [|? ? Hd]. by rewrite (Hpoint d (t ++ s) eq_refl) in Hd.
Qed.

Lemma longest_float b w d v r : all is_ascii_digit (b :: w) -> all is_ascii_digit (d :: v) ->
  (forall c r', r = c :: r' -> is_ascii_digit c = false) -> hex_ahead (b :: (w ++ POINT :: d :: v) ++ r) = false ->
  longest FloatLiteral (b :: w ++ POINT :: d :: v) r.
Proof.
  intros Hw Hv Hr Hhex. assert (is_ascii_digit b = true) as Hb by by inversion Hw.
  apply longest_headed; [by constructor|]. intros k v' s Hv' Hs.
  destruct (decimal_headed b k v' s _ Hb Hv' ltac:(by rewrite <- Hs) Hhex) as [[_ Hall]|(u & e & t & _ & -> & Hu & Ht)];
    rewrite <- app_assoc in Hs; cbn [app] in Hs.
  - pose proof (run_exact is_ascii_digit (b :: w) POINT ((d :: v) ++ r) Hw eq_refl) as Hrun.
    assert (length (b :: v') <= length (b :: w))%nat as Hle; [|rewrite length_app; cbn in *; lia].
    eapply (run_bound is_ascii_digit (b :: w) (POINT :: (d :: v) ++ r)); [exact Hrun| |exact Hall]. cbn. by rewrite Hs.
  - rewrite <- app_assoc in Hs. pose proof (run_exact is_ascii_digit (b :: w) POINT (d :: v ++ r) Hw eq_refl) as Hrun.
    pose proof (run_exact is_ascii_digit (b :: u) POINT ((e :: t) ++ s) Hu eq_refl) as Hrun'.
    cbn [app] in Hrun, Hrun', Hs. rewrite Hs in Hrun. rewrite Hrun in Hrun'. cbn in Hrun'.
    apply app_inj_1 in Hs as [-> Hs]; [|lia]. injection Hs as -> Hs.
    pose proof (run_whole is_ascii_digit (e :: v) r Hv Hr) as Hrunv.
    assert (length (e :: t) <= length (e :: v))%nat as Hle; [|rewrite !length_app; cbn in *; lia].
    eapply run_bound; [exact Hrunv| |done]. cbn. by rewrite Hs.
Qed.

Lemma run_head p b l : p b = true -> exists w r, l = w ++ r /\ run p (b :: l) = length (b :: w) /\ all p (b :: w) /\
  (forall c r', r = c :: r' -> p c = false).
Proof.
  intros Hb. destruct (run_stops p l) as (w & r & -> & Hn & Hw & Hr). exists w, r. cbn. rewrite Hb, Hn.
  split_and!; [done|done|by constructor|done].
Qed.

Lemma lex_number_reads x b l : inside x -> rest x = b :: l -> is_ascii_digit b = true ->
  exists k w r, rest x = w ++ r /\ longest k w r /\ lex_number x = after (length w) [token_at k (pos x) w] [] x.
Proof.
  intros Hx Hr Hb. unfold lex_number. cbv zeta. rewrite !peek_rest, !peek_at_rest. fold (hex_ahead (rest x)).
  destruct (hex_ahead (rest x)) eqn:Hhex.
  - apply hex_ahead_true in Hhex as (c & h & l' & Hl & Hc & Hh).
    destruct (run_head is_ascii_hexdigit h l' Hh) as (w & r & -> & Hn & Hw & Hstop).
    exists IntLiteral, (x30 :: c :: h :: w), r. split; [done|]. split; [by apply longest_hex|].
    rewrite (rest_advance [x30; c] (h :: w ++ r)) by done. rewrite Hn, advance_advance.
    apply (emit_exact IntLiteral (x30 :: c :: h :: w) r); done.
  - rewrite Hr in *. destruct (run_head is_ascii_digit b l Hb) as (w & r & -> & Hn & Hw & Hstop). rewrite Hn.
    rewrite (rest_advance (b :: w) r) by done.
    destruct (is_byte (head r) POINT && is_class (r !! 1%nat) is_ascii_digit) eqn:Hpoint.
    + apply andb_prop in Hpoint as [Hp Hd]. destruct r as [|c [|d r]]; [done|done|]. cbn in Hp, Hd. apply Byte.byte_dec_bl in Hp as ->.
      destruct (run_head is_ascii_digit d r Hd) as (v & r' & -> & Hm & Hv & Hstop').
      exists FloatLiteral, (b :: w ++ POINT :: d :: v), r'. split; [cbn; by rewrite <- app_assoc|]. split.
      * apply longest_float; try done. by rewrite <- app_assoc.
      * rewrite (advance_advance 1). replace (length (b :: w) + 1)%nat with (length (b :: w ++ [POINT])) by (cbn; rewrite length_app; done).
        rewrite (rest_advance (b :: w ++ [POINT]) (d :: v ++ r')) by (rewrite Hr; cbn; by rewrite <- app_assoc).
        rewrite Hm, advance_advance, <- length_app, <- app_comm_cons, <- app_assoc.
        apply (emit_exact FloatLiteral (b :: w ++ POINT :: d :: v) r'); [done|]. rewrite Hr. cbn. by rewrite <- app_assoc.
    + exists IntLiteral, (b :: w), r. split; [done|]. split.
      * apply longest_int; try done. intros d r' ->. cbn in Hpoint. done.
      * by apply (emit_exact IntLiteral (b :: w) r).
Qed.

Lemma operator_found table l k : operator table l = Some k -> exists w r, (w, k) ∈ table /\ l = w ++ r.
Proof.
  unfold operator. intros Hf. apply fmap_Some in Hf as ([w k'] & Hf & ->). apply find_some in Hf as [Hin Hw]. cbn in *.
  apply starts_with_spec in Hw as [r ->]. exists w, r. split; [|done]. by apply list_elem_of_In.
Qed.

Lemma operator_missing table l : operator table l = None -> forall (w : list byte) (k : TokenKind), (w, k) ∈ table -> ~ w `prefix_of` l.
Proof.
  unfold operator. intros Hf w k Hin Hw. apply fmap_None in Hf. pose proof (find_none _ _ Hf (w, k)) as H.
  rewrite <- list_elem_of_In in H. specialize (H Hin). cbn in H. apply starts_with_spec in Hw. congruence.
Qed.

Lemma operator_lengths : Forall (fun row => length row.1 = 3%nat) three_bytes /\ Forall (fun row => length row.1 = 2%nat) two_bytes /\
  Forall (fun row => length row.1 = 1%nat) one_byte.
Proof. split_and!; repeat constructor. Qed.

Lemma operator_length n table (w : list byte) (k : TokenKind) : Forall (fun row => length row.1 = n) table -> (w, k) ∈ table -> length w = n.
Proof. rewrite Forall_forall. intros H Hin. exact (H _ Hin). Qed.

(** Of the tokens a symbol starts, only operators are left. *)
Lemma symbol_headed b k v : is_ascii_digit b = false -> is_ident_start b = false -> b <> QUOTE -> headed b k v -> (b :: v, k) ∈ operators.
Proof. intros Hd Hi Hq Hv. inversion Hv; subst; by try congruence. Qed.

Lemma longest_operator b k w r n : is_ascii_digit b = false -> is_ident_start b = false -> b <> QUOTE ->
  (b :: w, k) ∈ operators -> length (b :: w) = n ->
  (forall v k, (v, k) ∈ operators -> (n < length v)%nat -> ~ v `prefix_of` (b :: w ++ r)) -> longest k (b :: w) r.
Proof.
  intros Hd Hi Hq Hin <- Hlong. apply longest_headed; [by constructor|]. intros k' v s Hv%symbol_headed Hs; [|done..].
  destruct (decide (length v <= length w)%nat); [done|]. exfalso. apply (Hlong (b :: v) k'); [done|cbn; lia|].
  rewrite Hs. by exists s.
Qed.

Lemma elem_of_operators w k : (w, k) ∈ operators <-> (w, k) ∈ three_bytes \/ (w, k) ∈ two_bytes \/ (w, k) ∈ one_byte.
Proof. unfold operators. by rewrite !elem_of_app. Qed.

Lemma utf8_char_len_pos b : (1 <= utf8_char_len b)%nat.
Proof. unfold utf8_char_len. repeat case_match; lia. Qed.

(** Where a report of a token is: at the token, or at an escape in a string. *)
Definition spot (x : Lexer) (w : list byte) (d : Diagnostic) : Prop :=
  span (at_file d) = {| start := Z.of_nat (pos x); len := Z.of_nat (length w) |} \/
  exists l, rest x = QUOTE :: l /\ d ∈ (string_loop (lx_source x) (length (bytes x)) (S (pos x)) l).2.

Lemma lex_symbol_reads x b l : inside x -> rest x = b :: l -> is_ascii_digit b = false -> is_ident_start b = false -> b <> QUOTE ->
  exists k w r ds, rest x = w ++ r /\ lex_symbol x = after (length w) [token_at k (pos x) w] ds x /\
    (longest k w r /\ ds = [] \/ stuck (w ++ r) /\ malformed k w r /\ ds <> []) /\ Forall (spot x w) ds.
Proof.
  intros Hx Hr Hd Hi Hq. destruct operator_lengths as (H3 & H2 & H1).
  assert (forall (w : list byte) (k : TokenKind), (w, k) ∈ operators -> (length w = 3%nat /\ (w, k) ∈ three_bytes) \/ (length w = 2%nat /\ (w, k) ∈ two_bytes) \/
    (length w = 1%nat /\ (w, k) ∈ one_byte)) as Hsize.
  { intros w k [Hin|[Hin|Hin]]%elem_of_operators; eauto 10 using operator_length. }
  assert (forall n table (k : TokenKind) (w r : list byte), Forall (fun row => length row.1 = n) table -> (w, k) ∈ table -> (w, k) ∈ operators -> rest x = w ++ r ->
    (forall (v : list byte) (k : TokenKind), (v, k) ∈ operators -> (n < length v)%nat -> ~ v `prefix_of` rest x) ->
    exists k' w' r' ds, rest x = w' ++ r' /\ emit k (pos x) (advance n x) = after (length w') [token_at k' (pos x) w'] ds x /\
    (longest k' w' r' /\ ds = [] \/ stuck (w' ++ r') /\ malformed k' w' r' /\ ds <> []) /\ Forall (spot x w') ds) as found.
  { intros n table k w r Hn Hin Hop Hwr Hlong. pose proof (operator_length n table w k Hn Hin) as <-.
    exists k, w, r, []. split; [done|]. split; [by eapply emit_exact|]. split; [|constructor]. left. split; [|done].
    rewrite Hr in Hwr, Hlong. destruct w as [|b' w]; [by apply lexeme_operator, lexeme_not_empty in Hop|]. cbn in Hwr. injection Hwr as <- ->.
    by eapply longest_operator. }
  unfold lex_symbol.
  destruct (operator three_bytes (rest x)) as [k|] eqn:E3.
  { destruct (operator_found _ _ _ E3) as (w & r & Hin & Hwr). apply (found 3%nat three_bytes k w r); [done|done|by apply elem_of_operators; left|done|].
    intros v k' [[Hl _]|[[Hl _]|[Hl _]]]%Hsize; lia. }
  destruct (operator two_bytes (rest x)) as [k|] eqn:E2.
  { destruct (operator_found _ _ _ E2) as (w & r & Hin & Hwr). apply (found 2%nat two_bytes k w r); [done|done|by apply elem_of_operators; right; left|done|].
    intros v k' [[Hl Hv]|[[Hl _]|[Hl _]]]%Hsize; [|lia..]. intros _. by apply (operator_missing _ _ E3 v k'). }
  destruct (operator one_byte (rest x)) as [k|] eqn:E1.
  { destruct (operator_found _ _ _ E1) as (w & r & Hin & Hwr). apply (found 1%nat one_byte k w r); [done|done|by apply elem_of_operators; right; right|done|].
    intros v k' [[Hl Hv]|[[Hl Hv]|[Hl _]]]%Hsize; [| |lia]; intros _; [by apply (operator_missing _ _ E3 v k')|by apply (operator_missing _ _ E2 v k')]. }
  assert (stuck (rest x)) as Hstuck.
  { rewrite Hr in *. apply stuck_headed. intros k v s Hv%symbol_headed Hs; [|done..]. assert ((b :: v) `prefix_of` (b :: l)) as Hp by (rewrite Hs; by exists s).
    apply elem_of_operators in Hv as [Hv|[Hv|Hv]]; [by apply (operator_missing _ _ E3 _ _ Hv)|by apply (operator_missing _ _ E2 _ _ Hv)|by apply (operator_missing _ _ E1 _ _ Hv)]. }
  rewrite peek_rest, Hr. cbn [head]. change (default x00 (Some b)) with b. pose proof (rest_length x Hx) as Hlen. rewrite Hr in Hlen. cbn in Hlen.
  destruct (utf8_char_len b) as [|n] eqn:Hn; [pose proof (utf8_char_len_pos b); lia|].
  exists Unknown, (b :: take n l), (drop n l). eexists [_]. split; [cbn; by rewrite take_drop|].
  assert (Nat.min (pos x + S n) (length (bytes x)) = (pos x + length (b :: take n l))%nat) as -> by (cbn; rewrite length_take; lia).
  split; [|split].
  - unfold push_token, report, with_pos, after, token_at. cbn [lx_source bytes pos tokens diagnostics].
    rewrite (span_exact (b :: take n l) (drop n l)); [done|done|]. rewrite Hr. cbn. by rewrite take_drop.
  - right. rewrite <- app_comm_cons, take_drop, <- Hr. split_and!; [done| |done].
    apply unknown_char; [done|]. rewrite Hn. cbn. rewrite length_take. destruct (decide (n <= length l)%nat); [left; lia|right].
    split; [lia|]. apply drop_ge. lia.
  - constructor; [by left|constructor].
Qed.

(** ** Strings *)

(** What stands after the body of a string: the bytes of it the string takes, and
    whether they close it. *)
Inductive string_end : list byte -> nat -> bool -> Prop :=
| end_quote r : string_end (QUOTE :: r) 1 true
| end_line r : string_end (newline :: r) 0 false
| end_text : string_end [] 0 false
| end_backslash : string_end [BACKSLASH] 1 false.

Lemma eqb_other (a b : byte) : a <> b -> Byte.eqb a b = false.
Proof. by destruct (eqb_spec a b). Qed.

Lemma body_not_newline ok w : ~ string_body ok (newline :: w).
Proof. inversion 1; congruence. Qed.

Definition escape_report (source_ : Z) (total at_ : nat) (e : byte) : list Diagnostic :=
  if is_escape e then [] else [diagnostic UnknownEscape source_ (span_of at_ (Nat.min (at_ + 1 + utf8_char_len e) total))].

Lemma escape_report_nil source_ total at_ e : is_escape e = true <-> escape_report source_ total at_ e = [].
Proof. unfold escape_report. by destruct (is_escape e). Qed.

Lemma string_loop_escape source_ total at_ e l : e <> newline -> (forall l', l = newline :: l' -> e <> CARRIAGE_RETURN) ->
  string_loop source_ total at_ (BACKSLASH :: e :: l) =
    let '(stop, closed, ds) := string_loop source_ total (at_ + 2) l in (stop, closed, escape_report source_ total at_ e ++ ds).
Proof.
  intros He Hcr. unfold escape_report. cbn [string_loop]. change (Byte.eqb BACKSLASH QUOTE) with false. change (Byte.eqb BACKSLASH BACKSLASH) with true.
  cbv iota zeta. rewrite (eqb_other e newline) by done. destruct (string_loop source_ total (at_ + 2) l) as [[stop closed] ds].
  destruct (eqb_spec e CARRIAGE_RETURN) as [->|]; [|by destruct (is_escape e)].
  destruct l as [|c l]; [done|]. destruct (eqb_spec c newline) as [->|]; [by destruct (Hcr l eq_refl)|done].
Qed.

Lemma string_loop_char source_ total at_ b l : b <> QUOTE -> b <> BACKSLASH -> b <> newline ->
  string_loop source_ total at_ (b :: l) = string_loop source_ total (S at_) l.
Proof. intros Hq Hb Hn. cbn. by rewrite !eqb_other. Qed.

Lemma no_reports {A} (a b : bool) (l1 l2 : list A) : (a = true <-> l1 = []) -> (b = true <-> l2 = []) -> (a && b = true <-> l1 ++ l2 = []).
Proof. intros H1 H2. rewrite Bool.andb_true_iff, H1, H2. split; [by intros [-> ->]|apply app_nil]. Qed.

Lemma crlf_or_not (e : byte) l : (e = CARRIAGE_RETURN /\ exists l', l = newline :: l') \/ (forall l', l = newline :: l' -> e <> CARRIAGE_RETURN).
Proof.
  destruct l as [|c l]; [by right|]. destruct (decide (c = newline)) as [->|]; [|right; congruence].
  destruct (decide (e = CARRIAGE_RETURN)) as [->|]; [left; eauto|by right].
Qed.

Lemma string_loop_body ok v : string_body ok v -> forall source_ total at_ r, exists ds,
  string_loop source_ total at_ (v ++ QUOTE :: r) = ((at_ + S (length v))%nat, true, ds) /\ (ok = true <-> ds = []).
Proof.
  induction 1 as [|ok b w Hq Hb Hn _ IH|ok e w He Hw IH|ok w _ IH|ok w _ IH]; intros source_ total at_ r.
  - exists []. cbn. by rewrite Nat.add_1_r.
  - destruct (IH source_ total (S at_) r) as (ds & Hl & Hok). exists ds. rewrite <- app_comm_cons, string_loop_char, Hl by done.
    split; [|done]. do 2 f_equal. cbn. lia.
  - destruct (IH source_ total (at_ + 2)%nat r) as (ds & Hl & Hok).
    assert (forall l', w ++ QUOTE :: r = newline :: l' -> e <> CARRIAGE_RETURN) as Hcr.
    { intros l' Hl' ->. destruct w as [|c w]; [done|]. cbn in Hl'. injection Hl' as -> _. by apply body_not_newline in Hw. }
    pose proof (string_loop_escape source_ total at_ e (w ++ QUOTE :: r) He Hcr) as Hloop.
    pose proof (escape_report_nil source_ total at_ e) as Hmore. set (more := escape_report source_ total at_ e) in *.
    exists (more ++ ds). rewrite <- !app_comm_cons, Hloop, Hl. split; [do 2 f_equal; cbn; lia|].
    by apply no_reports.
  - destruct (IH source_ total (at_ + 2)%nat r) as (ds & Hl & Hok). exists ds. cbn. rewrite Hl. split; [do 2 f_equal; lia|done].
  - destruct (IH source_ total (at_ + 3)%nat r) as (ds & Hl & Hok). exists ds. cbn. rewrite Hl. split; [do 2 f_equal; lia|done].
Qed.

(** The loop reads a body and stops at one of its ends. *)
Lemma string_loop_reads source_ total l : forall at_, exists v r n closed ok ds,
  l = v ++ r /\ string_end r n closed /\ string_body ok v /\
  string_loop source_ total at_ l = ((at_ + length v + n)%nat, closed, ds) /\ (ok = true <-> ds = []).
Proof.
  induction l as [l IH] using (induction_ltof1 _ (@length byte)). unfold ltof in IH. intros at_.
  assert (forall w l' more good, l = w ++ l' -> (length w <> 0)%nat -> (good = true <-> more = []) ->
    (forall ok v, string_body ok v -> string_body (good && ok) (w ++ v)) ->
    string_loop source_ total at_ l = (let '(stop, closed, ds) := string_loop source_ total (at_ + length w) l' in (stop, closed, more ++ ds)) ->
    exists v r n closed ok ds, l = v ++ r /\ string_end r n closed /\ string_body ok v /\
      string_loop source_ total at_ l = ((at_ + length v + n)%nat, closed, ds) /\ (ok = true <-> ds = [])) as step.
  { intros w l' more good -> Hw Hgood Hbody ->. destruct (IH l') with (at_ := (at_ + length w)%nat) as (v & r & n & closed & ok & ds & -> & Hr & Hv & -> & Hok).
    - rewrite length_app. lia.
    - exists (w ++ v), r, n, closed, (good && ok), (more ++ ds). rewrite <- app_assoc. split_and!; [done|done|auto| |].
      + do 2 f_equal. rewrite length_app. lia.
      + by apply no_reports. }
  assert (forall r n closed, l = r -> string_end r n closed -> string_loop source_ total at_ l = ((at_ + n)%nat, closed, []) ->
    exists v r n closed ok ds, l = v ++ r /\ string_end r n closed /\ string_body ok v /\
      string_loop source_ total at_ l = ((at_ + length v + n)%nat, closed, ds) /\ (ok = true <-> ds = [])) as stop.
  { intros r n closed -> Hend ->. exists [], r, n, closed, true, []. split_and!; [done|done|constructor| |done]. do 2 f_equal. cbn. lia. }
  destruct l as [|b l]; [apply (stop [] 0%nat false); [done|constructor|by rewrite Nat.add_0_r]|].
  destruct (decide (b = QUOTE)) as [->|Hq]; [apply (stop (QUOTE :: l) 1%nat true); [done|constructor|by rewrite Nat.add_1_r]|].
  destruct (decide (b = newline)) as [->|Hn]; [apply (stop (newline :: l) 0%nat false); [done|constructor|by rewrite Nat.add_0_r]|].
  destruct (decide (b = BACKSLASH)) as [->|Hb].
  - destruct l as [|e l]; [apply (stop [BACKSLASH] 1%nat false); [done|constructor|by rewrite Nat.add_1_r]|].
    destruct (decide (e = newline)) as [->|He].
    { apply (step [BACKSLASH; newline] l [] true); [done|done|done|intros ok v; apply string_continued|].
      cbn. by destruct (string_loop source_ total (at_ + 2) l) as [[]]. }
    destruct (crlf_or_not e l) as [[-> [l' ->]]|Hcr].
    { apply (step [BACKSLASH; CARRIAGE_RETURN; newline] l' [] true); [done|done|done|intros ok v; apply string_continued_crlf|].
      cbn. by destruct (string_loop source_ total (at_ + 3) l') as [[]]. }
    apply (step [BACKSLASH; e] l (escape_report source_ total at_ e) (is_escape e));
      [done|done|apply escape_report_nil| |by apply string_loop_escape]. intros ok v Hv. by apply string_escape.
  - apply (step [b] l [] true); [done|done|done|intros ok v; by apply string_char|].
    rewrite string_loop_char, Nat.add_1_r by done. by destruct (string_loop source_ total (S at_) l) as [[]].
Qed.

Lemma string_headed k v s l source_ total at_ : headed QUOTE k v -> l = v ++ s -> exists u,
  v = u ++ [QUOTE] /\ string_body true u /\ k = StringLiteral /\ string_loop source_ total at_ l = ((at_ + S (length u))%nat, true, []).
Proof.
  intros Hv ->. inversion Hv as [? ? ? Hi| ? ? Hd| |? ? ? ? Hd|u Hu|? ? ? Hq]; subst; try done.
  exists u. split_and!; [done|done|done|]. rewrite <- app_assoc. cbn [app].
  destruct (string_loop_body true u Hu source_ total at_ s) as (ds & -> & Hok). by rewrite (proj1 Hok eq_refl).
Qed.

Lemma lex_string_reads x l : inside x -> rest x = QUOTE :: l ->
  exists w r ds, rest x = w ++ r /\ (0 < length w)%nat /\ lex_string x = after (length w) [token_at StringLiteral (pos x) w] ds x /\
    (longest StringLiteral w r /\ ds = [] \/ stuck (w ++ r) /\ malformed StringLiteral w r /\ ds <> []) /\ Forall (spot x w) ds.
Proof.
  intros Hx Hr. destruct (string_loop_reads (lx_source x) (length (bytes x)) l (S (pos x))) as (v & r & n & closed & ok & ds & Hl & Hend & Hv & Hloop & Hok).
  assert (forall k v' s, headed QUOTE k v' -> l = v' ++ s -> closed = true /\ ok = true /\ length v' = (length v + n)%nat) as Hprefix.
  { intros k v' s Hhead Hs. destruct (string_headed k v' s l (lx_source x) (length (bytes x)) (S (pos x)) Hhead Hs) as (u & -> & _ & _ & Hu).
    rewrite Hloop in Hu. injection Hu as Hlen -> ->. split_and!; [done|by apply Hok|]. rewrite length_app. cbn. lia. }
  assert (forall w r', w ++ r' = QUOTE :: l -> length w = (S (length v) + n)%nat ->
    lex_string x = after (length w) [token_at StringLiteral (pos x) w]
      (ds ++ if closed then [] else [diagnostic UnterminatedString (lx_source x) (span_of (pos x) (pos x + length w))]) x) as Hrun.
  { intros w r' Hw Hlen. unfold lex_string. rewrite Hr. change (drop 1 (QUOTE :: l)) with l. rewrite Hloop.
    assert (with_pos (S (pos x) + length v + n) x = after (length w) [] [] x) as ->.
    { rewrite <- advance_after. unfold advance. f_equal. lia. }
    rewrite report_after. destruct closed; [rewrite app_nil_r|rewrite report_after]; apply (emit_after _ w r'); [done|by rewrite Hr|done|by rewrite Hr]. }
  assert (closed = true -> n = 1%nat /\ exists r', r = QUOTE :: r') as Hclosed by (inversion Hend; subst; eauto; done).
  assert (forall w, Forall (spot x w) ds) as Hspots.
  { intros w. apply Forall_forall. intros d Hin. right. exists l. split; [done|]. by rewrite Hloop. }
  destruct closed.
  - destruct (Hclosed eq_refl) as [-> [r' ->]]. exists (QUOTE :: v ++ [QUOTE]), r', ds.
    assert ((QUOTE :: v ++ [QUOTE]) ++ r' = QUOTE :: l) as Hw by (rewrite Hl; cbn; by rewrite <- app_assoc).
    split; [by rewrite Hr|]. split; [cbn; lia|]. rewrite (Hrun _ r' Hw), app_nil_r by (cbn; rewrite length_app; done). split; [done|]. split; [|done].
    destruct ok.
    + left. split; [|by apply Hok]. apply longest_headed; [by constructor|]. intros k v' s Hhead Hs.
      rewrite <- app_assoc in Hs. cbn [app] in Hs. rewrite <- Hl in Hs. destruct (Hprefix k v' s Hhead Hs) as (_ & _ & ->). rewrite length_app. done.
    + right. rewrite Hw. split_and!; [|by constructor|by intros ?%Hok]. apply stuck_headed. intros k v' s Hhead Hs.
      by destruct (Hprefix k v' s Hhead Hs) as (_ & ? & _).
  - exists (QUOTE :: v ++ take n r), (drop n r). eexists.
    assert ((QUOTE :: v ++ take n r) ++ drop n r = QUOTE :: l) as Hw by (rewrite Hl; cbn; by rewrite <- app_assoc, take_drop).
    split; [by rewrite Hr|]. split; [cbn; lia|]. split; [apply (Hrun _ _ Hw); cbn; rewrite length_app; f_equal; inversion Hend; done|].
    split; [|apply Forall_app; split; [done|constructor; [left; apply (span_exact _ (drop n r)); [done|by rewrite Hr]|constructor]]]. right. rewrite Hw. split_and!.
    + apply stuck_headed. intros k v' s Hhead Hs. by destruct (Hprefix k v' s Hhead Hs) as (? & _).
    + inversion Hend; subst; cbn; rewrite ?app_nil_r; econstructor; eassumption.
    + by destruct ds.
Qed.

(** A turn of the loop reads a token: the longest there is, or, where there is none
    and with a report, what is wrong. *)
Lemma lex_one_reads x : inside x -> at_token (rest x) -> exists k w r ds,
  rest x = w ++ r /\ (0 < length w)%nat /\ lex_one x = after (length w) [token_at k (pos x) w] ds x /\
  (longest k w r /\ ds = [] \/ stuck (w ++ r) /\ malformed k w r /\ ds <> []) /\ Forall (spot x w) ds.
Proof.
  intros Hx Ht. destruct (rest x) as [|b l] eqn:Hr; [done|]. unfold lex_one. rewrite peek_rest, Hr. cbn [head].
  assert (forall k w r, longest k w r -> (0 < length w)%nat) as Hpos.
  { intros k [|? w] r [Hk _]; [by apply lexeme_not_empty in Hk|cbn; lia]. }
  destruct (eqb_spec b QUOTE) as [->|Hq].
  { destruct (lex_string_reads x l Hx Hr) as (w & r & ds & Hw & H). rewrite Hr in Hw. by exists StringLiteral, w, r, ds. }
  destruct (is_ascii_digit b) eqn:Hd.
  { destruct (lex_number_reads x b l Hx Hr Hd) as (k & w & r & Hw & Hl & He). rewrite Hr in Hw. exists k, w, r, [].
    split_and!; eauto. }
  destruct (is_ident_start b) eqn:Hi.
  { destruct (lex_identifier_reads x b l Hx Hr Hi) as (k & w & r & Hw & Hl & He). rewrite Hr in Hw. exists k, w, r, [].
    split_and!; eauto. }
  destruct (lex_symbol_reads x b l Hx Hr Hd Hi Hq) as (k & w & r & ds & Hw & He & Hcase & Hspots). rewrite Hr in Hw.
  exists k, w, r, ds. split_and!; [done| |done|done|done].
  destruct Hcase as [[Hl _]|(_ & Hm & _)]; [by eapply Hpos|]. inversion Hm; cbn; lia.
Qed.

(** ** Whole texts *)

Definition silent (ds : list Diagnostic) : bool := match ds with [] => true | _ => false end.

Lemma silent_nil ds : silent ds = true <-> ds = [].
Proof. by destruct ds. Qed.

Lemma at_token_nil l : at_token l -> (0 < length l)%nat.
Proof. destruct l; [done|cbn; lia]. Qed.

Lemma lex_all_reads fuel : forall x, inside x -> (length (rest x) < fuel)%nat -> exists ts ds,
  scanned (pos x) (rest x) ts (silent ds) /\ lex_all fuel x = after (length (rest x)) ts ds x.
Proof.
  induction fuel as [|fuel IH]; intros x Hx Hf; [lia|]. cbn [lex_all].
  pose proof (rest_length x Hx) as Hlen.
  destruct (skip_trivia_stops x (S (length (bytes x)))) as [(g & r & Hr & Hg & Ht & ->)|(ok & ds & Hlast & -> & Hok & _)]; [lia| |].
  - pose proof (at_token_nil r Ht) as Hpos. pose proof (rest_after g r [] [] x Hr) as Hr'.
    pose proof (inside_after g r [] [] x Hx Hr) as Hx'. rewrite Hr, length_app in Hlen.
    set (y := after (length g) [] [] x) in *.
    assert ((length (bytes y) <=? pos y)%nat = false) as -> by (apply Nat.leb_gt; cbn; lia).
    destruct (lex_one_reads y Hx') as (k & w & s & ds & Hs & Hw & -> & Hcase & _); [by rewrite Hr'|].
    rewrite Hr' in Hs. revert Hs. intros ->. pose proof (inside_after w s [token_at k (pos y) w] ds y Hx' Hr') as Hz.
    pose proof (rest_after w s [token_at k (pos y) w] ds y Hr') as Hrz.
    destruct (IH _ Hz) as (ts & more & Hscan & ->).
    { rewrite Hrz, Hr, !length_app in *. lia. }
    rewrite Hrz in *. exists (token_at k (pos y) w :: ts), (ds ++ more). rewrite Hr. split.
    + cbn [pos after] in Hscan. destruct Hcase as [[Hl ->]|(Hst & Hm & Hne)].
      * apply scanned_token; done.
      * destruct ds; [done|]. by apply (scanned_wrong _ _ _ _ _ _ (silent more)).
    + unfold y. rewrite !after_after. f_equal. rewrite !length_app. lia.
  - exists [], ds. assert ((length (bytes (after (length (rest x)) [] ds x)) <=? pos (after (length (rest x)) [] ds x))%nat = true) as ->
      by (apply Nat.leb_le; cbn; lia).
    split; [|done]. assert (silent ds = ok) as ->; [|by constructor]. apply Bool.eq_true_iff_eq. by rewrite silent_nil.
Qed.

(** A spelling is of one kind. *)
Lemma operators_distinct w k k' : (w, k) ∈ operators -> (w, k') ∈ operators -> k = k'.
Proof.
  assert (Forall (fun row1 => Forall (fun row2 => row1.1 = row2.1 -> row1.2 = row2.2) operators) operators) as H.
  { apply (bool_decide_eq_true_1 _). by vm_compute. }
  intros Hw Hw'. rewrite Forall_forall in H. specialize (H _ Hw). rewrite Forall_forall in H. exact (H _ Hw' eq_refl).
Qed.

Lemma all_app p w1 w2 : all p (w1 ++ w2) -> all p w1 /\ all p w2.
Proof. apply Forall_app. Qed.

Lemma no_point p w : p POINT = false -> all p w -> existsb (Byte.eqb POINT) w = false.
Proof.
  intros Hp Hw. induction Hw as [|b w Hb _ IH]; [done|]. cbn [existsb]. rewrite IH.
  by destruct (eqb_spec POINT b) as [<-|]; [congruence|].
Qed.

Lemma number_kind b k v : is_ascii_digit b = true -> headed b k v ->
  k = if existsb (Byte.eqb POINT) v then FloatLiteral else IntLiteral.
Proof.
  intros Hd Hv. destruct (digit_class b Hd) as (Hi & Hq & _). inversion Hv as [|? ? _ Hall|x h w Hx Hall| | |]; subst; try congruence.
  - apply Forall_cons in Hall as [_ Hall]. by rewrite (no_point is_ascii_digit).
  - cbn [existsb]. pose proof (no_point is_ascii_hexdigit (h :: w) eq_refl Hall) as Hn. cbn [existsb] in Hn. rewrite Hn.
    by destruct Hx as [-> | ->].
  - rewrite existsb_app. cbn [existsb]. rewrite eqb_same. cbn. by rewrite Bool.orb_true_r.
Qed.

Lemma lexeme_kind k k' w : lexeme k w -> lexeme k' w -> k = k'.
Proof.
  intros (b & v & -> & Hv)%lexeme_headed (b' & v' & [= <- <-] & Hv')%lexeme_headed.
  destruct (is_ascii_digit b) eqn:Hd; [by rewrite (number_kind b k v), (number_kind b k' v)|].
  inversion Hv; subst; inversion Hv'; subst; try congruence; try done. by eapply operators_distinct.
Qed.

Lemma longest_unique k k' w w' r r' : longest k w r -> longest k' w' r' -> w ++ r = w' ++ r' -> k = k' /\ w = w' /\ r = r'.
Proof.
  intros [Hk Hmax] [Hk' Hmax'] Heq. assert (length w = length w') as Hlen.
  { apply Nat.le_antisymm; [apply (Hmax' k)|apply (Hmax k')]; try done; [rewrite <- Heq|rewrite Heq]; by apply prefix_app_r. }
  apply app_inj_1 in Heq as [<- <-]; [|done]. split; [by eapply lexeme_kind|done].
Qed.

Lemma lex_all_finds at_ l ts ok : scanned at_ l ts ok -> ok = true -> forall fuel x, inside x -> pos x = at_ -> rest x = l ->
  (length l < fuel)%nat -> lex_all fuel x = after (length l) ts [] x.
Proof.
  induction 1 as [at_ g ok Hg|at_ g k w r ts ok Hg Ht Hl _ IH|]; intros Hok fuel x Hx Hpos Hr Hf; [| |done];
    (destruct fuel as [|fuel]; [lia|]); cbn [lex_all]; pose proof (rest_length x Hx) as Hlen.
  - rewrite Hr in Hlen. rewrite (skip_trivia_last ok g) by (try done; lia).
    match goal with |- (if ?b then _ else _) = _ => assert (b = true) as -> by (apply Nat.leb_le; cbn; lia) end. done.
  - rewrite (skip_trivia_token x _ g (w ++ r)) by (try done; lia). pose proof (at_token_nil _ Ht) as Hlt.
    pose proof (rest_after g (w ++ r) [] [] x Hr) as Hr'. pose proof (inside_after g (w ++ r) [] [] x Hx Hr) as Hx'.
    rewrite Hr, length_app in Hlen. set (y := after (length g) [] [] x) in *.
    assert ((length (bytes y) <=? pos y)%nat = false) as -> by (apply Nat.leb_gt; cbn; lia).
    destruct (lex_one_reads y Hx') as (k' & w' & r' & ds & Hs & Hw & -> & Hcase & _); [by rewrite Hr'|].
    rewrite Hr' in Hs. destruct Hcase as [[Hl' ->]|(Hst & _)].
    + destruct (longest_unique _ _ _ _ _ _ Hl Hl' Hs) as (<- & <- & <-).
      rewrite IH; [|done|by eapply inside_after|cbn; lia|by apply rest_after|rewrite !length_app in Hf; lia].
      unfold y. rewrite !after_after. cbn [app]. f_equal; [rewrite !length_app; lia|]. cbn. by rewrite Hpos.
    + exfalso. apply (Hst k w); [apply Hl|]. rewrite <- Hs. by apply prefix_app_r.
Qed.

Definition bom_len (t : list byte) : nat := if starts_with UTF8_BOM t then 3 else 0.

Definition eof_token (t : list byte) : Token := {| kind := Eof_; token_span := {| start := Z.of_nat (length t); len := 0 |} |}.

Lemma lexer_new_inside source_ t : fits_u32 t -> inside (lexer_new source_ t) /\
  pos (lexer_new source_ t) = bom_len t /\ rest (lexer_new source_ t) = drop (bom_len t) t.
Proof.
  intros Hf. unfold inside, rest, lexer_new, bom_len. cbn [bytes pos]. split_and!; try done.
  destruct (starts_with UTF8_BOM t) eqn:Hb; [|lia]. apply starts_with_spec in Hb as [r ->]. rewrite length_app. cbn. lia.
Qed.

Lemma lex_run source_ t ts ds : fits_u32 t ->
  lex_all (S (length t)) (lexer_new source_ t) = after (length (rest (lexer_new source_ t))) ts ds (lexer_new source_ t) ->
  lex source_ t = {| lr_tokens := ts ++ [eof_token t]; lr_diagnostics := ds |}.
Proof.
  intros Hf Hall. unfold lex. cbv zeta. rewrite Hall. cbn. f_equal. f_equal. unfold eof_token. do 3 f_equal.
  unfold fits_u32 in Hf. apply uwrap_id. split; lia.
Qed.

Lemma lex_reads source_ t : fits_u32 t -> exists ts ds,
  scanned (bom_len t) (drop (bom_len t) t) ts (silent ds) /\
  lex source_ t = {| lr_tokens := ts ++ [eof_token t]; lr_diagnostics := ds |}.
Proof.
  intros Hf. destruct (lexer_new_inside source_ t Hf) as (Hx & Hpos & Hr).
  destruct (lex_all_reads (S (length t)) (lexer_new source_ t) Hx) as (ts & ds & Hscan & Hall).
  { rewrite Hr, length_drop. lia. }
  rewrite Hpos, Hr in Hscan. exists ts, ds. split; [done|]. by apply lex_run.
Qed.

Lemma lex_finds source_ t ts : fits_u32 t -> scanned (bom_len t) (drop (bom_len t) t) ts true ->
  lex source_ t = {| lr_tokens := ts ++ [eof_token t]; lr_diagnostics := [] |}.
Proof.
  intros Hf Hscan. destruct (lexer_new_inside source_ t Hf) as (Hx & Hpos & Hr).
  apply lex_run; [done|]. rewrite Hr. eapply lex_all_finds; try done. rewrite length_drop. lia.
Qed.

(** C24: The lexer ends on every text, and its tokens are those of a reading of the whole
    text: gap, token, gap, token, to the end.  Each token is the longest there is
    at its place, under its span; where no token starts, what is taken is the
    string or the character that is wrong.  It reports exactly when something was
    wrong. *)
Theorem lex_reads_longest source_ t : fits_u32 t -> exists ts ok,
  lr_tokens (lex source_ t) = ts ++ [eof_token t] /\ scanned (bom_len t) (drop (bom_len t) t) ts ok /\
  (ok = true <-> lr_diagnostics (lex source_ t) = []).
Proof.
  intros Hf. destruct (lex_reads source_ t Hf) as (ts & ds & Hscan & ->). exists ts, (silent ds). split_and!; [done|done|apply silent_nil].
Qed.

(** C5: A reading with nothing wrong is found, and is the only one: the lexer answers its
    tokens with no report exactly when the grammar has that reading. *)
Theorem lex_finds_reading source_ t ts : fits_u32 t ->
  lex source_ t = {| lr_tokens := ts ++ [eof_token t]; lr_diagnostics := [] |} <->
  scanned (bom_len t) (drop (bom_len t) t) ts true.
Proof.
  intros Hf. split; [|by apply lex_finds]. intros Hlex. destruct (lex_reads source_ t Hf) as (ts' & ds & Hscan & Hlex').
  rewrite Hlex in Hlex'. injection Hlex' as Hts <-. by apply app_inj_tail in Hts as [-> _].
Qed.

Definition sample : rstring := spelled "a <<= 0x1F // b".

Lemma lex_reads_longest_witness : fits_u32 sample /\ exists ts ok,
  lr_tokens (lex 0 sample) = ts ++ [eof_token sample] /\ scanned (bom_len sample) (drop (bom_len sample) sample) ts ok /\
  (ok = true <-> lr_diagnostics (lex 0 sample) = []).
Proof. split; [by vm_compute|]. apply lex_reads_longest. by vm_compute. Defined.

Lemma lex_finds_reading_witness : fits_u32 sample /\
  scanned 0 sample [token_at Identifier 0 (spelled "a"); token_at LtLtEq 2 (spelled "<<="); token_at IntLiteral 6 (spelled "0x1F")] true.
Proof. split; [by vm_compute|]. apply (lex_finds_reading 0 sample); by vm_compute. Defined.
