(* ===== verification/LexerStrings.v ===== *)
(** * String literals

    What a literal means ([meaning]), that [decode_string_literal] answers it, and
    that the lexer and the decoder agree on what a literal is. *)

From Stdlib Require Import Strings.String.
From stdpp Require Import list.
From S2P Require Import Prelude.
From S2P Require Import Foreign.
From S2P Require Import Source.
From S2P Require Import Lexer.
From S2P Require Import LexerScan.
From S2P Require Import LexerText.

(** ** Meaning *)

(** Whitespace characters, one after another. *)
Inductive indent : list byte -> Prop :=
| indent_nil : indent []
| indent_char c i : white_char c = Some (length c) -> indent i -> indent (c ++ i).

Definition line_ending (nl : list byte) : Prop := nl = [newline] \/ nl = [CARRIAGE_RETURN; newline].

(** What the text between the quotes stands for. *)
Inductive meaning : list byte -> list byte -> Prop :=
| meaning_nil : meaning [] []
| meaning_char b w s : b <> BACKSLASH -> meaning w s -> meaning (b :: w) (b :: s)
| meaning_escape e c w s : escaped e = Some c -> meaning w s -> meaning (BACKSLASH :: e :: w) (c :: s)
| meaning_continued nl i w s : line_ending nl -> indent i -> white_char w = None -> meaning w s ->
    meaning (BACKSLASH :: nl ++ i ++ w) s.

Lemma white_char_positive l n : white_char l = Some n -> (0 < n)%nat.
Proof. destruct l as [|b [|c [|d l]]]; cbn [white_char]; repeat case_match; intros; simplify_eq; lia. Qed.

Lemma white_char_app c w : white_char c = Some (length c) -> white_char (c ++ w) = Some (length c).
Proof.
  destruct c as [|b [|c [|d l]]]; cbn [white_char app length]; repeat case_match; intros; simplify_eq; try done; try lia.
  all: repeat case_match; try congruence.
Qed.

(** A whitespace character of the text is one of its own. *)
Lemma white_char_take l n : white_char l = Some n -> (n <= length l)%nat /\ white_char (take n l) = Some n.
Proof.
  destruct l as [|b [|c [|d l]]]; cbn [white_char]; repeat case_match; intros; simplify_eq; cbn [take length white_char]; split; try lia;
    repeat case_match; try congruence.
Qed.

Ltac bytes_of H :=
  repeat (apply orb_prop in H as [H|H]);
  repeat match goal with
    | E : _ && _ = true |- _ => apply andb_prop in E as [? ?]
    | E : _ || _ = true |- _ => apply orb_prop in E as [?|?]
    | E : Byte.eqb _ _ = true |- _ => apply Byte.byte_dec_bl in E; subst
    end.

Lemma white_char_plain l n : white_char l = Some n -> Forall (fun b => b <> BACKSLASH) (take n l).
Proof.
  destruct l as [|b [|c [|d l]]]; cbn [white_char]; repeat case_match; intros; simplify_eq; cbn [take];
    match goal with E : _ = true |- _ => bytes_of E end; repeat constructor; try done; intros ->; done.
Qed.

Lemma skip_indent_reads i w fuel : indent i -> white_char w = None -> (length (i ++ w) <= fuel)%nat -> skip_indent fuel (i ++ w) = w.
Proof.
  intros Hi Hw. revert fuel. induction Hi as [|c i Hc _ IH]; intros fuel Hf.
  - destruct fuel; [done|]. cbn. by rewrite Hw.
  - rewrite <- app_assoc in *. pose proof (white_char_positive _ _ Hc) as Hpos. rewrite length_app in Hf. destruct fuel as [|fuel]; [lia|].
    cbn [skip_indent]. rewrite (white_char_app c) by done. rewrite drop_app_length. apply IH. lia.
Qed.

Lemma decode_means w s : meaning w s -> forall fuel, (length w < fuel)%nat -> decode_loop fuel w = Ok s.
Proof.
  induction 1 as [|b w s Hb _ IH|e c w s He _ IH|nl i w s Hnl Hi Hw _ IH]; intros fuel Hf; (destruct fuel as [|fuel]; [lia|]); cbn [decode_loop].
  - done.
  - rewrite (eqb_other b) by done. cbn [negb]. cbn in Hf. by rewrite IH by lia.
  - change (Byte.eqb BACKSLASH BACKSLASH) with true. cbn [negb]. rewrite He. cbn in Hf. by rewrite IH by lia.
  - change (Byte.eqb BACKSLASH BACKSLASH) with true. cbn [negb]. cbn [length] in Hf. rewrite !length_app in Hf.
    destruct Hnl as [-> | ->]; cbn [app]; cbn [length] in Hf.
    + change (escaped newline) with (@None byte). change (Byte.eqb newline newline) with true. cbv iota.
      unfold skip_continuation_indent. rewrite skip_indent_reads by done. apply IH. lia.
    + change (escaped CARRIAGE_RETURN) with (@None byte). change (Byte.eqb CARRIAGE_RETURN newline) with false.
      change (Byte.eqb CARRIAGE_RETURN CARRIAGE_RETURN) with true. cbv iota. cbn [head is_byte tail].
      change (Byte.eqb newline newline) with true. cbv iota.
      unfold skip_continuation_indent. rewrite skip_indent_reads by done. apply IH. lia.
Qed.

Lemma literal_inner_quoted w : literal_inner (QUOTE :: w ++ [QUOTE]) = w.
Proof.
  cbn [literal_inner]. change (Byte.eqb QUOTE QUOTE) with true. cbv iota. rewrite last_snoc. change (Byte.eqb QUOTE QUOTE) with true. cbv iota.
  apply removelast_last.
Qed.

Lemma decode_literal w s : meaning w s -> decode_string_literal (QUOTE :: w ++ [QUOTE]) = Ok s.
Proof. intros Hw. unfold decode_string_literal. rewrite literal_inner_quoted. apply decode_means; [done|]. cbn. rewrite length_app. lia. Qed.

Lemma body_drop ok n w : string_body ok w -> Forall (fun b => b <> BACKSLASH) (take n w) -> string_body ok (drop n w).
Proof.
  revert w. induction n as [|n IH]; intros w Hw Hall; [done|]. destruct w as [|b w]; [done|]. cbn [take drop] in *.
  apply Forall_cons in Hall as [Hb Hall]. apply IH; [|done]. by inversion Hw.
Qed.

Lemma body_indent w : string_body true w -> exists i w', w = i ++ w' /\ indent i /\ white_char w' = None /\ string_body true w'.
Proof.
  induction w as [w IH] using (induction_ltof1 _ (@length byte)). unfold ltof in IH. intros Hw.
  destruct (white_char w) as [n|] eqn:Hn; [|exists [], w; split_and!; [done|constructor|done|done]].
  destruct (white_char_take w n Hn) as [Hle Htake]. pose proof (white_char_positive w n Hn) as Hpos.
  destruct (IH (drop n w)) as (i & w' & Hd & Hi & Hnone & Hbody).
  - rewrite length_drop. lia.
  - apply body_drop; [done|by apply white_char_plain].
  - exists (take n w ++ i), w'. split_and!; [by rewrite <- app_assoc, <- Hd, take_drop| |done|done].
    apply indent_char; [|done]. rewrite length_take, Nat.min_l by lia. done.
Qed.

Lemma escape_escaped e : is_escape e = true -> exists c, escaped e = Some c.
Proof. by destruct e; cbn; eauto. Qed.

(** Every literal the lexer takes without a report stands for a text. *)
Lemma body_means w : string_body true w -> exists s, meaning w s.
Proof.
  induction w as [w IH] using (induction_ltof1 _ (@length byte)). unfold ltof in IH. intros Hw.
  assert (forall nl v, line_ending nl -> w = BACKSLASH :: nl ++ v -> string_body true v -> exists s, meaning w s) as continued.
  { intros nl v Hnl -> Hv. destruct (body_indent v Hv) as (i & v' & -> & Hi & Hnone & Hbody). destruct (IH v') as (s & Hs); [|done|].
    - cbn. rewrite !length_app. lia.
    - exists s. by apply meaning_continued. }
  inversion Hw as [|ok b v Hq Hb Hn Hv|ok e v He Hv Hok|ok v Hv|ok v Hv]; subst.
  - exists []. constructor.
  - destruct (IH v) as (s & Hs); [cbn; lia|done|]. exists (b :: s). by constructor.
  - apply andb_prop in Hok as [Hesc ->]. destruct (escape_escaped e Hesc) as (c & Hc). destruct (IH v) as (s & Hs); [cbn; lia|done|].
    exists (c :: s). by constructor.
  - apply (continued [newline] v); [by left|done|done].
  - apply (continued [CARRIAGE_RETURN; newline] v); [by right|done|done].
Qed.

(** ** The strings of a text *)

Lemma keywords_not_strings w : default Identifier (keyword_from_text w) <> StringLiteral.
Proof.
  unfold keyword_from_text. destruct (find _ keywords) as [[t k]|] eqn:Hf; [|done]. apply find_some in Hf as [Hin _]. cbn.
  assert (Forall (fun row => row.2 <> StringLiteral) keywords) as H by (apply (bool_decide_eq_true_1 _); by vm_compute).
  rewrite Forall_forall in H. apply list_elem_of_In in Hin. exact (H _ Hin).
Qed.

Lemma operators_not_strings w : (w, StringLiteral) ∈ operators -> False.
Proof.
  assert (Forall (fun row => row.2 <> StringLiteral) operators) as H by (apply (bool_decide_eq_true_1 _); by vm_compute).
  rewrite Forall_forall in H. intros Hw. by apply (H _ Hw).
Qed.

Lemma string_lexeme w : lexeme StringLiteral w -> exists v, w = QUOTE :: v ++ [QUOTE] /\ string_body true v.
Proof.
  inversion 1 as [b v Hb Hv Hk| | | |v Hv|k v Hop]; subst; [by apply keywords_not_strings in Hk|by exists v|by apply operators_not_strings in Hop].
Qed.

(** The tokens of a reading with nothing wrong are lexemes of the text. *)
Lemma scanned_lexemes at_ l ts ok : scanned at_ l ts ok -> ok = true -> Forall (fun t => exists s w r,
  l = s ++ w ++ r /\ lexeme (kind t) w /\ t = token_at (kind t) (at_ + length s) w) ts.
Proof.
  induction 1 as [|at_ g k w r ts ok Hg Ht Hl _ IH|]; intros Hok; [constructor| |done]. constructor.
  - exists g, w, r. split; [done|]. split; [apply Hl|done].
  - eapply Forall_impl; [by apply IH|]. intros t (s & w' & r' & -> & Hk & Ht'). exists (g ++ w ++ s), w', r'.
    split; [by rewrite <- !app_assoc|]. split; [done|]. rewrite Ht' at 1. f_equal. rewrite !length_app. lia.
Qed.

(** C25: In a text the lexer has nothing to report on, every string token is a quoted
    body that means a text, and [decode_string_literal] answers that text. *)
Theorem clean_strings_decode source_ t k : fits_u32 t -> lr_diagnostics (lex source_ t) = [] ->
  k ∈ lr_tokens (lex source_ t) -> kind k = StringLiteral -> exists v s,
  take (Z.to_nat (len (token_span k))) (drop (Z.to_nat (start (token_span k))) t) = QUOTE :: v ++ [QUOTE] /\
  meaning v s /\ decode_string_literal (QUOTE :: v ++ [QUOTE]) = Ok s.
Proof.
  intros Hf Hd Hk Hkind. destruct (lex_reads source_ t Hf) as (ts & ds & Hscan & Hlex). rewrite Hlex in *. cbn in Hd, Hk. subst ds.
  apply elem_of_app in Hk as [Hk|Hk]; [|apply list_elem_of_singleton in Hk as ->; done].
  pose proof (scanned_lexemes _ _ _ _ Hscan eq_refl) as Hall. rewrite Forall_forall in Hall.
  destruct (Hall k Hk) as (s & w & r & Hdrop & Hw & Htok). rewrite Hkind in Hw. destruct (string_lexeme w Hw) as (v & -> & Hv).
  destruct (body_means v Hv) as (m & Hm). exists v, m. split; [|split; [done|by apply decode_literal]].
  rewrite Htok. unfold token_at. cbn [token_span start len]. rewrite !Nat2Z.id, <- drop_drop, Hdrop, drop_app_length, take_app_length. done.
Qed.

(** ** Writing a literal *)

Definition escape_byte (b : byte) : list byte :=
  if Byte.eqb b newline then [BACKSLASH; x6e] else if Byte.eqb b x09 then [BACKSLASH; x74]
  else if Byte.eqb b CARRIAGE_RETURN then [BACKSLASH; x72] else if Byte.eqb b x1b then [BACKSLASH; x65]
  else if Byte.eqb b x00 then [BACKSLASH; x30] else if Byte.eqb b QUOTE then [BACKSLASH; QUOTE]
  else if Byte.eqb b BACKSLASH then [BACKSLASH; BACKSLASH] else [b].

Fixpoint escape_text (s : list byte) : list byte := match s with [] => [] | b :: s => escape_byte b ++ escape_text s end.

Definition string_literal (s : list byte) : list byte := QUOTE :: escape_text s ++ [QUOTE].

Lemma escape_byte_cases b : escape_byte b = [b] /\ b <> BACKSLASH /\ b <> QUOTE /\ b <> newline \/
  exists e, escape_byte b = [BACKSLASH; e] /\ escaped e = Some b /\ is_escape e = true /\ e <> newline.
Proof. destruct b; cbn; first [left; by split_and!|right; eexists; by split_and!]. Qed.

Lemma escape_text_means s : meaning (escape_text s) s.
Proof.
  induction s as [|b s IH]; [constructor|]. cbn [escape_text].
  destruct (escape_byte_cases b) as [(-> & Hb & _)|(e & -> & He & _)]; cbn [app]; by constructor.
Qed.

Lemma escape_text_body s : string_body true (escape_text s).
Proof.
  induction s as [|b s IH]; [constructor|]. cbn [escape_text].
  destruct (escape_byte_cases b) as [(-> & Hb & Hq & Hn)|(e & -> & _ & He & Hn)]; cbn [app]; [by constructor|].
  change true with (true && true). rewrite <- He at 1. by apply string_escape.
Qed.

(** A text written as a literal is one string token, with nothing to report, and
    decodes to the text. *)
Theorem string_literal_reads_back source_ s : fits_u32 (string_literal s) ->
  lex source_ (string_literal s) =
    {| lr_tokens := [token_at StringLiteral 0 (string_literal s); eof_token (string_literal s)]; lr_diagnostics := [] |} /\
  decode_string_literal (string_literal s) = Ok s.
Proof.
  intros Hf. split; [|apply decode_literal, escape_text_means].
  pose (p := {| before := []; as_kind := StringLiteral; spelling := string_literal s |}).
  assert (spaced [p] []) as Hs.
  { cbn. split; [constructor|]. split; [|split; [done|constructor]]. apply lexeme_string, escape_text_body. }
  assert (written [p] [] = string_literal s) as Hw by (cbn [written p before spelling app]; apply app_nil_r).
  rewrite <- Hw in Hf |- *. rewrite (lex_finds source_ (written [p] []) (placed 0 [p])); [by rewrite Hw|done|].
  rewrite (spaced_no_bom [p] [] Hs). by apply spaced_scanned.
Qed.

(** A literal continued on an indented line. *)
Definition continued_literal : list byte := [QUOTE; x61; BACKSLASH; newline; x20; x20; x62; QUOTE].

Lemma clean_strings_decode_witness : exists v s,
  take 8 (drop 0 continued_literal) = QUOTE :: v ++ [QUOTE] /\ meaning v s /\ decode_string_literal (QUOTE :: v ++ [QUOTE]) = Ok s.
Proof.
  apply (clean_strings_decode 0 continued_literal (token_at StringLiteral 0 continued_literal)); [by vm_compute|by vm_compute| |done].
  apply (bool_decide_eq_true_1 _). by vm_compute.
Defined.

Lemma string_literal_reads_back_witness : fits_u32 (string_literal [QUOTE; newline; x61]) /\
  decode_string_literal (string_literal [QUOTE; newline; x61]) = Ok [QUOTE; newline; x61].
Proof. split; [by vm_compute|]. apply (string_literal_reads_back 0). by vm_compute. Defined.
