(* ===== verification/LexerChars.v ===== *)
(** * Tokens and characters

    The lexer reads bytes; the text is UTF-8.  A token of it is sliced out of the
    text by its span, which Rust refuses inside a character: it never is. *)

From Stdlib Require Import Strings.String.
From stdpp Require Import list.
From S2P Require Import Prelude.
From S2P Require Import Foreign.
From S2P Require Import Source.
From S2P Require Import Lexer.
From S2P Require Import LexerScan.

Definition ascii (b : byte) : bool := within 0x00 0x7f b.
Definition continuation (b : byte) : bool := within 0x80 0xbf b.

(** A text of characters: a first byte that says how many continue it. *)
Inductive utf8 : list byte -> Prop :=
| utf8_nil : utf8 []
| utf8_char b c t : continuation b = false -> S (length c) = utf8_char_len b -> all continuation c -> utf8 t -> utf8 (b :: c ++ t).

Lemma ascii_len b : ascii b = true -> continuation b = false /\ utf8_char_len b = 1%nat.
Proof. by destruct b. Qed.

Lemma utf8_cons b l : ascii b = true -> utf8 l -> utf8 (b :: l).
Proof. intros Hb Hl. destruct (ascii_len b Hb) as [Hc Hlen]. apply (utf8_char b []); [done|by rewrite Hlen|constructor|done]. Qed.

Lemma ascii_utf8 l : forallb ascii l = true -> utf8 l.
Proof. induction l as [|b l IH]; [constructor|]. cbn. intros [Hb Hl]%andb_prop. by apply utf8_cons; [|apply IH]. Qed.

Lemma utf8_tail b c t r : S (length c) = utf8_char_len b -> all continuation c -> utf8 (b :: t) -> t = c ++ r -> utf8 r.
Proof.
  intros Hlen _ Ht ->. inversion Ht; subst. match goal with E : _ ++ _ = _ ++ _ |- _ => apply app_inj_1 in E as [-> ->]; [done|lia] end.
Qed.

(** Past an ASCII byte another character starts, and so it does there. *)
Lemma utf8_ascii l : utf8 l -> forall w b r, l = w ++ b :: r -> ascii b = true -> utf8 (b :: r) /\ utf8 r.
Proof.
  induction 1 as [|b0 c t Hb0 Hlen Hc Ht IH]; intros w b r Hl Hb; [by destruct w|].
  destruct w as [|b1 w].
  - cbn in Hl. injection Hl as <- <-. destruct (ascii_len b0 Hb) as [_ H1]. rewrite H1 in Hlen. destruct c; [|done].
    split; [|done]. by apply (utf8_char b0 []).
  - cbn in Hl. injection Hl as <- Hl. apply app_eq_inv in Hl as [(k & -> & Hk)|(k & -> & Hk)].
    + destruct k as [|d k].
      * cbn in Hk. eapply (IH []); [by symmetry|done].
      * cbn in Hk. injection Hk as <- ->. apply Forall_app in Hc as [_ Hc]. apply Forall_cons in Hc as [Hc _].
        destruct (ascii_len b Hb) as [Hcont _]. by rewrite Hc in Hcont.
    + by eapply IH.
Qed.

(** A piece of text whose last byte is ASCII. *)
Definition ends_ascii (w : list byte) : Prop := w = [] \/ exists v b, w = v ++ [b] /\ ascii b = true.

Lemma utf8_past w r : ends_ascii w -> utf8 (w ++ r) -> utf8 r.
Proof.
  intros [->|(v & b & -> & Hb)] Ht; [done|]. rewrite <- app_assoc in Ht. by destruct (utf8_ascii _ Ht v b r eq_refl Hb).
Qed.

Lemma ends_ascii_app w1 w2 : ends_ascii w2 -> ends_ascii w1 -> ends_ascii (w1 ++ w2).
Proof. intros [->|(v & b & -> & Hb)] H1; [by rewrite app_nil_r|]. right. exists (w1 ++ v), b. by rewrite <- app_assoc. Qed.

Lemma all_ends_ascii p w : (forall b, p b = true -> ascii b = true) -> all p w -> ends_ascii w.
Proof.
  intros Hp Hw. destruct (decide (w = [])) as [->|Hne]; [by left|]. destruct (exists_last Hne) as (v & b & ->).
  right. exists v, b. split; [done|]. apply Forall_app in Hw as [_ Hw]. apply Hp. by inversion Hw.
Qed.

Lemma snoc_ends_ascii w b : ascii b = true -> ends_ascii (w ++ [b]).
Proof. intros Hb. right. by exists w, b. Qed.

Lemma gap_ends_ascii g : gap g -> ends_ascii g.
Proof.
  induction 1 as [|b g Hb _ IH|w g _ _ IH|w g (c & _ & ->) _ IH].
  - by left.
  - apply (ends_ascii_app [b]); [done|]. apply (snoc_ends_ascii []). by destruct b.
  - replace (line_opener ++ w ++ newline :: g) with ((line_opener ++ w ++ [newline]) ++ g) by by rewrite <- !app_assoc.
    apply ends_ascii_app; [done|]. rewrite app_assoc. by apply snoc_ends_ascii.
  - apply ends_ascii_app; [done|]. replace (opener ++ c ++ closer) with ((opener ++ c ++ [STAR]) ++ [SLASH]) by by rewrite <- !app_assoc.
    by apply snoc_ends_ascii.
Qed.

Lemma operators_ascii w k : (w, k) ∈ operators -> all ascii w.
Proof.
  assert (Forall (fun row => Forall (fun b => ascii b = true) row.1) operators) as H by (apply (bool_decide_eq_true_1 _); by vm_compute).
  rewrite Forall_forall in H. intros Hw. exact (H _ Hw).
Qed.

Lemma ident_ascii b : is_ident b = true -> ascii b = true.
Proof. by destruct b. Qed.
Lemma hex_ascii b : is_ascii_hexdigit b = true -> ascii b = true.
Proof. by destruct b. Qed.
Lemma digit_ascii b : is_ascii_digit b = true -> ascii b = true.
Proof. by destruct b. Qed.

Lemma lexeme_ends_ascii k w : lexeme k w -> ends_ascii w.
Proof.
  intros [b v Hb Hv|b v Hv|x h v Hx Hv|b v d u _ Hu|v _|k' v Hop].
  - apply (all_ends_ascii is_ident); [apply ident_ascii|]. constructor; [by apply start_class|done].
  - by apply (all_ends_ascii is_ascii_digit); [apply digit_ascii|].
  - apply (ends_ascii_app [x30; x]); [by apply (all_ends_ascii is_ascii_hexdigit); [apply hex_ascii|]|].
    apply (snoc_ends_ascii [x30]). by destruct Hx as [-> | ->].
  - replace (b :: v ++ POINT :: d :: u) with ((b :: v ++ [POINT]) ++ d :: u) by (cbn; by rewrite <- app_assoc).
    apply ends_ascii_app; [by apply (all_ends_ascii is_ascii_digit); [apply digit_ascii|]|]. by apply (snoc_ends_ascii (b :: v)).
  - by apply (snoc_ends_ascii (QUOTE :: v)).
  - apply (all_ends_ascii ascii); [done|]. by eapply operators_ascii.
Qed.

Lemma malformed_past k w r : malformed k w r -> utf8 (w ++ r) -> utf8 r.
Proof.
  intros [v r' _|ok v r' _|ok v _|ok v _|b v r' _ Hlen] Ht.
  - apply (utf8_past (QUOTE :: v ++ [QUOTE])); [|done]. by apply (snoc_ends_ascii (QUOTE :: v)).
  - by destruct (utf8_ascii _ Ht (QUOTE :: v) newline r' eq_refl eq_refl).
  - constructor.
  - constructor.
  - destruct Hlen as [Hlen|[_ ->]]; [|constructor]. cbn in Ht.
    inversion Ht; subst. match goal with E : _ ++ _ = _ ++ _ |- _ => apply app_inj_1 in E as [-> ->]; [done|lia] end.
Qed.

(** Where a character starts, the text may be cut. *)
Lemma utf8_boundary t n : (n <= length t)%nat -> utf8 (drop n t) -> is_char_boundary t n = true.
Proof.
  intros Hn Ht. unfold is_char_boundary. destruct (t !! n) as [b|] eqn:Hb.
  - apply drop_S in Hb. rewrite Hb in Ht. inversion Ht as [|? ? ? Hc]; subst. unfold continuation, within in Hc. by rewrite Hc.
  - apply bool_decide_eq_true. apply lookup_ge_None in Hb. lia.
Qed.

Lemma slice_exact k t s w r : fits_u32 t -> t = s ++ w ++ r -> utf8 (w ++ r) -> utf8 r ->
  slice (token_span (token_at k (length s) w)) t = Some w.
Proof.
  intros Hf -> Hw Hr. unfold slice, token_at, end_of. cbn [token_span start len]. unfold fits_u32 in Hf. rewrite !length_app in Hf.
  rewrite uwrap_id by (split; lia). rewrite <- Nat2Z.inj_add, !Nat2Z.id.
  rewrite bool_decide_true by lia. rewrite (utf8_boundary _ (length s)), (utf8_boundary _ (length s + length w)).
  - cbn [andb]. by rewrite Nat.add_comm, Nat.add_sub, drop_app_length, take_app_length.
  - rewrite !length_app. lia.
  - by rewrite <- drop_drop, !drop_app_length.
  - rewrite length_app. lia.
  - by rewrite drop_app_length.
Qed.

(** [>>] is spelled one way. *)
Lemma shift_spelled w : lexeme GtGt w -> w = spelled ">>".
Proof.
  intros H. inversion H as [b v _ _ Hk| | | | |k v Hop]; subst.
  - exfalso. unfold keyword_from_text in Hk. destruct (find _ keywords) as [row|] eqn:E; [|done].
    apply find_some in E as [Hi%list_elem_of_In _]. assert (Forall (fun row => row.2 <> GtGt) keywords) as Hall by (apply (bool_decide_eq_true_1 _); by vm_compute).
    rewrite Forall_forall in Hall. by apply (Hall row).
  - assert (Forall (fun row => row.2 = GtGt -> row.1 = spelled ">>") operators) as Hall by (apply (bool_decide_eq_true_1 _); by vm_compute).
    rewrite Forall_forall in Hall. by apply (Hall _ Hop).
Qed.

(** A token that slices the text; a [>>] is where a [>>] is. *)
Definition spans_text (t : list byte) (k : Token) : Prop := (exists w, slice (token_span k) t = Some w) /\
  (kind k = GtGt -> exists a b, t = a ++ spelled ">>" ++ b /\ utf8 b /\ token_span k = token_span (token_at GtGt (length a) (spelled ">>"))).

Lemma scanned_spelled t at_ l ts ok : scanned at_ l ts ok -> fits_u32 t -> forall s, t = s ++ l -> at_ = length s -> utf8 l -> Forall (spans_text t) ts.
Proof.
  intros Hs Hf. induction Hs as [|at_ g k w r ts ok Hg _ Hl _ IH|at_ g k w r ts ok Hg _ _ Hm _ IH]; intros s Ht -> Hu; [constructor| |];
    apply utf8_past in Hu as Hwr; [|by apply gap_ends_ascii| |by apply gap_ends_ascii];
    (assert (utf8 r) as Hr; [first [by eapply malformed_past|eapply utf8_past; [eapply lexeme_ends_ascii; apply Hl|done]]|]);
    (constructor; [split; [exists w; rewrite <- length_app; eapply slice_exact; [done| |done|done]; by rewrite Ht, <- app_assoc|]|
     apply (IH (s ++ g ++ w)); [by rewrite Ht, <- !app_assoc|rewrite !length_app; lia|done]]).
  - cbn. intros ->. rewrite (shift_spelled w (proj1 Hl)) in *. exists (s ++ g), r. rewrite length_app. split_and!; try done. by rewrite Ht, <- app_assoc.
  - cbn. intros ->. by inversion Hm.
Qed.

Lemma scanned_sliced t at_ l ts ok : scanned at_ l ts ok -> fits_u32 t -> forall s, t = s ++ l -> at_ = length s -> utf8 l ->
  Forall (fun k => exists w, slice (token_span k) t = Some w) ts.
Proof. intros Hs Hf s Ht Hl Hu. eapply Forall_impl; [by eapply scanned_spelled|]. by intros k [? _]. Qed.

Lemma utf8_bom t : utf8 t -> utf8 (drop (bom_len t) t).
Proof.
  intros Ht. unfold bom_len. destruct (starts_with UTF8_BOM t) eqn:Hb; [|done]. apply starts_with_spec in Hb as [r ->].
  change (drop 3 (UTF8_BOM ++ r)) with r. cbn in Ht. eapply (utf8_tail xef [xbb; xbf]); [done|by repeat constructor|exact Ht|done].
Qed.

Lemma utf8_whole t : utf8 t -> fits_u32 t -> slice (token_span (eof_token t)) t = Some [].
Proof.
  intros Ht Hf. pose proof (slice_exact Eof_ t t [] []) as H. cbn [app] in H. rewrite app_nil_r in H. apply H; first [done|constructor].
Qed.

(** ** Reports *)

Definition sliced (t : list byte) (s : Span) : Prop := exists w, slice s t = Some w.

Lemma span_of_sliced t s w r : fits_u32 t -> t = s ++ w ++ r -> utf8 (w ++ r) -> utf8 r ->
  sliced t (span_of (length s) (length s + length w)).
Proof.
  intros Hf Ht Hw Hr. pose proof Hf as Hlen. unfold fits_u32 in Hlen. rewrite Ht, !length_app in Hlen.
  assert (span_of (length s) (length s + length w) = token_span (token_at Unknown (length s) w)) as ->; [|exists w; by eapply slice_exact].
  unfold span_of, from_bounds, token_at. cbn [token_span]. rewrite !(uwrap_id 32) by (rewrite ?uwrap_id by (split; lia); split; lia).
  f_equal. lia.
Qed.

(** Past an escape that is not one, the rest of its character. *)
Definition loose (l : list byte) : Prop := exists c t, l = c ++ t /\ all continuation c /\ utf8 t.

Lemma utf8_loose l : utf8 l -> loose l.
Proof. intros Hl. exists [], l. split_and!; [done|constructor|done]. Qed.

Lemma loose_ascii b l : loose (b :: l) -> ascii b = true -> utf8 (b :: l) /\ utf8 l.
Proof.
  intros ([|c0 c] & t & Hl & Hc & Ht) Hb; cbn in Hl.
  - subst t. by apply (utf8_ascii _ Ht []).
  - injection Hl as <- _. apply Forall_cons in Hc as [Hc _]. destruct (ascii_len b Hb) as [Hcont _]. by rewrite Hc in Hcont.
Qed.

Lemma utf8_first b l : utf8 (b :: l) -> exists c t, l = c ++ t /\ S (length c) = utf8_char_len b /\ all continuation c /\ utf8 t.
Proof. inversion 1; subst. eexists _, _. by split_and!. Qed.

Lemma loose_tail b l : loose (b :: l) -> loose l.
Proof.
  intros ([|c0 c] & t & Hl & Hc & Ht); cbn in Hl.
  - subst t. destruct (utf8_first b l Ht) as (c & t & -> & _ & ? & ?). by exists c, t.
  - injection Hl as <- ->. apply Forall_cons in Hc as [_ Hc]. by exists c, t.
Qed.

Lemma string_loop_sliced source_ t : fits_u32 t -> forall l s, t = s ++ l -> loose l ->
  Forall (fun d => sliced t (span (at_file d))) (string_loop source_ (length t) (length s) l).2.
Proof.
  intros Hf l. induction l as [l IH] using (induction_ltof1 _ (@length byte)). unfold ltof in IH. intros s Ht Hl.
  assert (forall w l', l = w ++ l' -> (0 < length w)%nat -> loose l' ->
    Forall (fun d => sliced t (span (at_file d))) (string_loop source_ (length t) (length s + length w) l').2) as step.
  { intros w l' -> Hw Hl'. rewrite <- length_app. apply IH; [rewrite length_app; lia| |done]. by rewrite Ht, <- app_assoc. }
  destruct l as [|b l]; [constructor|]. destruct (decide (b = QUOTE)) as [->|Hq]; [constructor|].
  destruct (decide (b = newline)) as [->|Hn]; [constructor|]. destruct (decide (b = BACKSLASH)) as [->|Hb].
  - destruct (loose_ascii _ _ Hl eq_refl) as [Hu Hu']. destruct l as [|e l]; [constructor|].
    destruct (decide (e = newline)) as [->|He].
    { apply (step [BACKSLASH; newline] l); [done|cbn; lia|]. eapply loose_tail, utf8_loose, Hu'. }
    destruct (crlf_or_not e l) as [[-> [l' ->]]|Hcr].
    { apply (step [BACKSLASH; CARRIAGE_RETURN; newline] l'); [done|cbn; lia|]. eapply loose_tail, loose_tail, utf8_loose, Hu'. }
    rewrite (string_loop_escape source_ (length t) (length s) e l He Hcr).
    pose proof (step [BACKSLASH; e] l eq_refl) as Hrest. cbn [length] in Hrest.
    destruct (string_loop source_ (length t) (length s + 2) l) as [[stop closed] ds]. cbn [snd] in *.
    apply Forall_app. split; [|apply Hrest; [lia|eapply loose_tail, utf8_loose, Hu']].
    unfold escape_report. destruct (is_escape e); [constructor|]. constructor; [|constructor]. cbn [diagnostic at_file span].
    destruct (utf8_first e l Hu') as (c & r & -> & Hlen & Hc & Hr).
    rewrite Nat.min_l by (rewrite Ht, !length_app; cbn; rewrite length_app; lia).
    replace (length s + 1 + utf8_char_len e)%nat with (length s + length (BACKSLASH :: e :: c))%nat by (cbn; lia).
    eapply span_of_sliced; [done|by rewrite Ht| |done]. done.
  - rewrite string_loop_char by done. rewrite <- Nat.add_1_r. apply (step [b] l); [done|cbn; lia|by eapply loose_tail].
Qed.

(** What is reported while the rest of a text is read. *)
Lemma lex_all_sliced t fuel : utf8 t -> fits_u32 t -> forall x s, bytes x = t -> t = s ++ rest x -> pos x = length s -> utf8 (rest x) ->
  (length (rest x) < fuel)%nat ->
  Forall (fun d => sliced t (span (at_file d))) (diagnostics x) ->
  Forall (fun d => sliced t (span (at_file d))) (diagnostics (lex_all fuel x)).
Proof.
  intros Hall Hf. induction fuel as [|fuel IH]; intros x s Hb Ht Hp Hu Hfuel Hd; [lia|]. cbn [lex_all].
  assert (inside x) as Hx. { split; [by rewrite Hb|]. rewrite Hb, Ht, length_app. lia. }
  pose proof (rest_length x Hx) as Hlen.
  destruct (skip_trivia_stops x (S (length (bytes x)))) as [(g & r & Hr & Hg & Hat & ->)|(ok & ds & Hlast & -> & Hok & Hspan)]; [lia| |].
  - pose proof (at_token_nil r Hat) as Hpos. pose proof (rest_after g r [] [] x Hr) as Hr'.
    pose proof (inside_after g r [] [] x Hx Hr) as Hx'. rewrite Hr, length_app in Hlen.
    assert (t = (s ++ g) ++ r) as Ht' by (by rewrite Ht, Hr, <- app_assoc).
    set (y := after (length g) [] [] x) in *.
    assert ((length (bytes y) <=? pos y)%nat = false) as -> by (apply Nat.leb_gt; cbn; lia).
    assert (pos y = length (s ++ g)) as Hpy by (rewrite length_app; cbn; lia).
    assert (utf8 r) as Hur by (rewrite Hr in Hu; by apply utf8_past in Hu; [|apply gap_ends_ascii]).
    destruct (lex_one_reads y Hx') as (k & w & q & ds & Hs & Hw & -> & Hcase & Hspots); [by rewrite Hr'|].
    rewrite Hr' in Hs. revert Hs. intros ->.
    assert (utf8 q) as Huq.
    { destruct Hcase as [[[Hk _] _]|(_ & Hm & _)]; [by eapply utf8_past; [eapply lexeme_ends_ascii|]|by eapply malformed_past]. }
    pose proof (rest_after w q [token_at k (pos y) w] ds y Hr') as Hrz.
    apply (IH _ ((s ++ g) ++ w)); rewrite ?Hrz; try done.
    + by rewrite Ht', <- !app_assoc.
    + rewrite !length_app in *. cbn. lia.
    + rewrite Hr, !length_app in Hfuel. lia.
    + cbn. rewrite app_nil_r. apply Forall_app. split; [done|]. eapply Forall_impl; [exact Hspots|].
      intros d [Hspan|(l & Hl & Hin)].
      * rewrite Hspan, Hpy. exists w. by apply (slice_exact Unknown t (s ++ g) w q).
      * rewrite Hr' in Hl. rewrite Hl in Hur. destruct (utf8_ascii _ Hur [] QUOTE l eq_refl eq_refl) as [_ Hul].
        pose proof (string_loop_sliced (lx_source y) t Hf l ((s ++ g) ++ [QUOTE])) as Hesc.
        rewrite Forall_forall in Hesc. apply Hesc; [by rewrite Ht', Hl, <- !app_assoc|by apply utf8_loose|].
        rewrite Hpy in Hin. rewrite (length_app (s ++ g)), Nat.add_1_r. by rewrite <- Hb.
  - match goal with |- context [if ?b then _ else _] => assert (b = true) as -> by (apply Nat.leb_le; cbn; lia) end.
    cbn. apply Forall_app. split; [done|]. destruct Hspan as [->|(g & r & Hr & Hg & ->)]; [constructor|].
    constructor; [|constructor]. cbn [diagnostic at_file span]. rewrite length_app, Nat.add_assoc, Hp, <- length_app.
    rewrite Hr in Ht, Hu. apply utf8_past in Hu; [|by apply gap_ends_ascii].
    apply (span_of_sliced t (s ++ g) r []); [done|by rewrite app_nil_r, <- app_assoc|by rewrite app_nil_r|constructor].
Qed.

Lemma reports_sliced source_ t : utf8 t -> fits_u32 t -> Forall (fun d => sliced t (span (at_file d))) (lr_diagnostics (lex source_ t)).
Proof.
  intros Ht Hf. destruct (lexer_new_inside source_ t Hf) as (Hx & Hpos & Hr).
  pose proof (lex_all_sliced t (S (length t)) Ht Hf (lexer_new source_ t) (take (bom_len t) t)) as H.
  rewrite Hr, Hpos, take_drop in H. unfold lex. cbv zeta. cbn [lr_diagnostics]. apply H; [done|done| | |rewrite length_drop; lia|constructor].
  - destruct Hx as [_ Hp]. rewrite Hpos in Hp. rewrite length_take. cbn in Hp. lia.
  - by apply utf8_bom.
Qed.

(** C26: The span of every token and of every report of a UTF-8 text cuts the text
    between characters: slicing the text with it does not panic. *)
Theorem spans_cut_no_character source_ t s : utf8 t -> fits_u32 t ->
  s ∈ (token_span <$> lr_tokens (lex source_ t)) ++ ((fun d => span (at_file d)) <$> lr_diagnostics (lex source_ t)) ->
  sliced t s.
Proof.
  intros Ht Hf [(k & -> & Hk)%list_elem_of_fmap|(d & -> & Hd)%list_elem_of_fmap]%elem_of_app.
  - destruct (lex_reads source_ t Hf) as (ts & ds & Hscan & Hlex). rewrite Hlex in Hk. cbn in Hk.
    apply elem_of_app in Hk as [Hk|Hk]; [|apply list_elem_of_singleton in Hk as ->; exists []; by apply utf8_whole].
    pose proof (scanned_sliced t _ _ _ _ Hscan Hf (take (bom_len t) t)) as Hall. rewrite Forall_forall in Hall.
    apply Hall; [by rewrite take_drop| |by apply utf8_bom|done].
    destruct (lexer_new_inside source_ t Hf) as ([_ Hp] & Hpos & _). rewrite Hpos in Hp. rewrite length_take. cbn in Hp. lia.
  - pose proof (reports_sliced source_ t Ht Hf) as Hall. rewrite Forall_forall in Hall. by apply Hall.
Qed.

(** A string with an escape of two bytes that is none of the language's. *)
Definition odd_escape : list byte := [QUOTE; BACKSLASH; xc3; xa9; QUOTE].

Lemma spans_cut_no_character_witness : utf8 odd_escape /\ sliced odd_escape {| start := 1; len := 3 |}.
Proof.
  assert (utf8 odd_escape) as Hu.
  { apply (utf8_char QUOTE []); [done|done|constructor|]. apply (utf8_char BACKSLASH []); [done|done|constructor|].
    apply (utf8_char xc3 [xa9]); [done|done|by repeat constructor|]. apply (utf8_char QUOTE []); [done|done|constructor|constructor]. }
  split; [done|]. apply (spans_cut_no_character 0); [done|by vm_compute|]. apply (bool_decide_eq_true_1 _). by vm_compute.
Defined.
