(* ===== verification/Syntax.v ===== *)
(** * The syntax tree

    [kira-syntax-model]: [ast/expr.rs], [ast/stmt.rs], [ast/item/types.rs],
    [ownership.rs].  A node of the arena is the tree it names, and a symbol the text
    it was interned from; where the parser has no text for a name ([Symbol::ERROR])
    there is [None]. *)

From stdpp Require Import list.
From S2P Require Import Prelude.
From S2P Require Import Foreign.
From S2P Require Import Source.

Inductive UnaryOp := Op_Neg | Op_Not | Op_BitNot.
Inductive BinaryOp :=
| Op_Add | Op_Sub | Op_Mul | Op_Div | Op_Rem | Op_Eq | Op_Ne | Op_Lt | Op_Le | Op_Gt | Op_Ge | Op_And | Op_Or
| Op_BitAnd | Op_BitOr | Op_BitXor | Op_Shl | Op_Shr.
Inductive OwnershipOp := Op_Move | Op_Copy.

#[export] Instance UnaryOp_eq_dec : EqDecision UnaryOp.
Proof. solve_decision. Defined.
#[export] Instance BinaryOp_eq_dec : EqDecision BinaryOp.
Proof. solve_decision. Defined.

Inductive OwnershipMode := Owned | BorrowRead | BorrowMut | Mode_Move | Mode_Copy.
#[export] Instance OwnershipMode_eq_dec : EqDecision OwnershipMode.
Proof. solve_decision. Defined.

(** What is written for a type.  [ConstructMember] is written by nobody. *)
Inductive TypeRef :=
| TypeRef_Named (name : rstring) (span_ : Span)
| TypeRef_SomeConstruct (family : rstring) (family_span span_ : Span)
| TypeRef_Generic (name : rstring) (name_span : Span) (args : list TypeRef) (span_ : Span)
| TypeRef_Tuple (elements : list TypeRef) (span_ : Span)
| TypeRef_Array (element : TypeRef) (span_ : Span)
| TypeRef_Function (params : list TypeRef) (param_ownership : list OwnershipMode) (result : TypeRef) (span_ : Span)
| TypeRef_Error (span_ : Span).

(** ** The parts of expressions and statements *)

Record CallArg (A : Type) := { arg_label : option (rstring * Span); arg_value : A; arg_span : Span }.
Arguments arg_label {A} _.
Arguments arg_value {A} _.
Arguments arg_span {A} _.

Record FieldInit (A : Type) := { init_name : rstring; init_name_span : Span; init_value : A; init_span : Span }.
Arguments init_name {A} _.
Arguments init_value {A} _.

Record TrailingClosure (A : Type) := { tc_closure : A; tc_slot : Z; tc_content_args : Z }.
Arguments tc_closure {A} _.
Arguments tc_slot {A} _.
Arguments tc_content_args {A} _.

(** A name and its span. *)
Definition ClosureParam : Type := rstring * Span.
Definition MatchBinding : Type := rstring * Span.

Record Block (S : Type) := { block_stmts : list S; block_span : Span }.
Arguments block_stmts {S} _.
Arguments block_span {S} _.

Inductive MatchPattern (E : Type) :=
| Pattern_Variant (variant : rstring) (variant_span : Span) (binding : option MatchBinding)
| Pattern_Value (expr : E) (span_ : Span)
| Pattern_Range (start_ end_ : E) (span_ : Span)
| Pattern_Wildcard (span_ : Span).
Arguments Pattern_Variant {E} _ _ _.
Arguments Pattern_Value {E} _ _.
Arguments Pattern_Range {E} _ _ _.
Arguments Pattern_Wildcard {E} _.

Record MatchArm (E S : Type) := { arm_patterns : list (MatchPattern E); arm_body : Block S; arm_span : Span }.
Arguments arm_patterns {E S} _.
Arguments arm_body {E S} _.
Arguments arm_span {E S} _.

Inductive ForIterable (E : Type) := Iterable_Range (start_ end_ : E) | Iterable_Each (array : E).
Arguments Iterable_Range {E} _ _.
Arguments Iterable_Each {E} _.

(** ** Expressions and statements *)

Inductive Expr :=
| Expr_Int (value : Z) (span_ : Span)
| Expr_Float (value : Z) (span_ : Span)
| Expr_Bool (value : bool) (span_ : Span)
| Expr_Str (value : rstring) (span_ : Span)
| Expr_Name (symbol : rstring) (span_ : Span)
| Expr_Unary (op : UnaryOp) (operand : Expr) (span_ : Span)
| Expr_Binary (op : BinaryOp) (lhs rhs : Expr) (span_ : Span)
| Expr_Tuple (elements : list Expr) (span_ : Span)
| Expr_Conditional (cond then_ otherwise : Expr) (span_ : Span)
| Expr_TypeTest (value : Expr) (ty : TypeRef) (span_ : Span)
| Expr_TypeCast (value : Expr) (ty : TypeRef) (span_ : Span)
| Expr_Call (callee : rstring) (callee_span : Span) (braced : bool) (type_args : list TypeRef) (args : list (CallArg Expr))
    (children : list Expr) (trailing_closure : option (TrailingClosure Expr)) (span_ : Span)
| Expr_StructLit (name : rstring) (name_span : Span) (fields : list (FieldInit Expr)) (span_ : Span)
| Expr_MethodCall (receiver : Expr) (method : rstring) (method_span : Span) (args : list (CallArg Expr)) (children : list Expr) (span_ : Span)
| Expr_Field (base : Expr) (field : rstring) (field_span : Span) (span_ : Span)
| Expr_ArrayLit (elements : list Expr) (span_ : Span)
| Expr_Index (base index : Expr) (span_ : Span)
| Expr_DotMember (name : rstring) (name_span : Span) (args : option (list Expr)) (span_ : Span)
| Expr_Try (value : Expr) (span_ : Span)
| Expr_Ownership (op : OwnershipOp) (operand : Expr) (span_ : Span)
| Expr_Closure (params : list ClosureParam) (body : Block Stmt) (span_ : Span)
| Expr_ContentFor (binding : option rstring) (binding_span : Span) (iterable : Expr) (body : list Expr) (span_ : Span)
| Expr_ContentIf (cond : Expr) (then_body else_body : list Expr) (span_ : Span)
| Expr_Content (children : list Expr) (closure : option Expr) (span_ : Span)
| Expr_TaskSpawn (body : Expr) (span_ : Span)
| Expr_Match (subject : Expr) (arms : list (MatchArm Expr Stmt)) (span_ : Span)
| Expr_Error (span_ : Span)
with Stmt :=
| Stmt_Let (name : option rstring) (name_span : Span) (mutable : bool) (ty : option TypeRef) (ownership : OwnershipMode)
    (ownership_span : option Span) (init : Expr) (span_ : Span)
| Stmt_Assign (target : Expr) (op : option BinaryOp) (value : Expr) (span_ : Span)
| Stmt_Return (value : option Expr) (span_ : Span)
| Stmt_Expr (expr : Expr) (span_ : Span)
| Stmt_If (cond : Expr) (then_block : Block Stmt) (else_block : option (Block Stmt)) (span_ : Span)
| Stmt_While (cond : Expr) (body : Block Stmt) (span_ : Span)
| Stmt_For (name : option rstring) (name_span : Span) (iterable : ForIterable Expr) (body : Block Stmt) (span_ : Span)
| Stmt_Match (subject : Expr) (arms : list (MatchArm Expr Stmt)) (span_ : Span)
| Stmt_Attempt (body : Block Stmt) (handlers : list (MatchArm Expr Stmt)) (span_ : Span)
| Stmt_Break (span_ : Span)
| Stmt_Continue (span_ : Span)
| Stmt_Error (span_ : Span).

Definition expr_span (e : Expr) : Span :=
  match e with
  | Expr_Int _ s | Expr_Float _ s | Expr_Bool _ s | Expr_Str _ s | Expr_Name _ s | Expr_Unary _ _ s | Expr_Binary _ _ _ s
  | Expr_Tuple _ s | Expr_Conditional _ _ _ s | Expr_Call _ _ _ _ _ _ _ s | Expr_TypeTest _ _ s | Expr_TypeCast _ _ s
  | Expr_StructLit _ _ _ s | Expr_MethodCall _ _ _ _ _ s | Expr_Field _ _ _ s | Expr_ArrayLit _ s | Expr_Index _ _ s
  | Expr_DotMember _ _ _ s | Expr_Try _ s | Expr_Ownership _ _ s | Expr_Closure _ _ s | Expr_ContentFor _ _ _ _ s
  | Expr_ContentIf _ _ _ s | Expr_Content _ _ s | Expr_TaskSpawn _ s | Expr_Match _ _ s | Expr_Error s => s
  end.

Definition stmt_span (s : Stmt) : Span :=
  match s with
  | Stmt_Let _ _ _ _ _ _ _ s | Stmt_Assign _ _ _ s | Stmt_Return _ s | Stmt_Expr _ s | Stmt_If _ _ _ s | Stmt_While _ _ s
  | Stmt_For _ _ _ _ s | Stmt_Match _ _ s | Stmt_Attempt _ _ s | Stmt_Break s | Stmt_Continue s | Stmt_Error s => s
  end.
