(* ===== verification/Parser.v ===== *)
(** * The parser: cursor, lookahead, types and lists

    [kira-parser]: the token cursor, diagnostics and nesting budget of [lib.rs], the
    tests that look ahead, the written types of [item/type_refs.rs] with the type
    arguments of [generics.rs], and the lists of [expr/calls.rs] and
    [expr/aggregates.rs].

    Of a diagnostic its code and span are kept, and the names are those of an interner
    that is never full.  The functions call each other through [self]. *)

From Stdlib Require Import Strings.String Floats.SpecFloat.
From stdpp Require Import list.
From S2P Require Import Prelude.
From S2P Require Import Foreign.
From S2P Require Import Float64.
From S2P Require Import VmText.
From S2P Require Import Source.
From S2P Require Import Lexer.
From S2P Require Import Syntax.

(** ** The parser's state *)

Inductive ParseCode :=
| KPAR001 | KPAR002 | KPAR006 | KPAR010 | KPAR011 | KPAR012 | KPAR014 | KPAR015 | KPAR016 | KPAR017 | KPAR020 | KPAR021
| KPAR022 | KPAR023 | KPAR024 | KPAR038 | KPAR039 | KPAR040 | KPAR045 | KPAR046 | KPAR060 | KPAR065 | KPAR068 | KPAR070 | KPAR091.

Record ParseError := { error_code : ParseCode; error_span : Span }.

Record Parser := {
  p_text : rstring;
  p_tokens : list Token;
  p_pos : nat;
  p_errors : list ParseError;
  no_struct_literal : bool;
  no_named_fill : bool;
  nesting : nat
}.

(** Why a run of the model ends early: the source panics (a span that slices inside a
    character, no tokens at all), or calls deeper than the fuel. *)
Inductive Stop := Panics | OutOfFuel.

Abbreviation M := (st Parser Stop).

Definition with_cursor (n : nat) (p : Parser) : Parser :=
  {| p_text := p_text p; p_tokens := p_tokens p; p_pos := n; p_errors := p_errors p;
     no_struct_literal := no_struct_literal p; no_named_fill := no_named_fill p; nesting := nesting p |}.
Definition with_errors (es : list ParseError) (p : Parser) : Parser :=
  {| p_text := p_text p; p_tokens := p_tokens p; p_pos := p_pos p; p_errors := es;
     no_struct_literal := no_struct_literal p; no_named_fill := no_named_fill p; nesting := nesting p |}.
Definition with_literal_flag (b : bool) (p : Parser) : Parser :=
  {| p_text := p_text p; p_tokens := p_tokens p; p_pos := p_pos p; p_errors := p_errors p;
     no_struct_literal := b; no_named_fill := no_named_fill p; nesting := nesting p |}.
Definition with_fill_flag (b : bool) (p : Parser) : Parser :=
  {| p_text := p_text p; p_tokens := p_tokens p; p_pos := p_pos p; p_errors := p_errors p;
     no_struct_literal := no_struct_literal p; no_named_fill := b; nesting := nesting p |}.
Definition with_nesting (n : nat) (p : Parser) : Parser :=
  {| p_text := p_text p; p_tokens := p_tokens p; p_pos := p_pos p; p_errors := p_errors p;
     no_struct_literal := no_struct_literal p; no_named_fill := no_named_fill p; nesting := n |}.

Definition with_tokens (ts : list Token) (p : Parser) : Parser :=
  {| p_text := p_text p; p_tokens := ts; p_pos := p_pos p; p_errors := p_errors p;
     no_struct_literal := no_struct_literal p; no_named_fill := no_named_fill p; nesting := nesting p |}.

Definition parser_new (text_ : rstring) (tokens_ : list Token) : Parser :=
  {| p_text := text_; p_tokens := tokens_; p_pos := 0; p_errors := []; no_struct_literal := false; no_named_fill := false; nesting := 0 |}.

Definition MAX_NESTING_DEPTH : nat := 128.

(** *** The cursor *)

Definition peek_token (offset : nat) : M Token := fun p =>
  match p_tokens p !! Nat.min (p_pos p + offset) (length (p_tokens p) - 1) with
  | Some t => (p, Ok t)
  | None => (p, Err Panics)
  end.
Definition current : M Token := peek_token 0.
Definition current_kind : M TokenKind := t ← current; mret (kind t).
Definition peek_kind (offset : nat) : M TokenKind := t ← peek_token offset; mret (kind t).
Definition at_kind (k : TokenKind) : M bool := c ← current_kind; mret (bool_decide (c = k)).
Definition at_eof : M bool := at_kind Eof_.

Definition text_of (s : Span) : M rstring := fun p =>
  match slice s (p_text p) with Some t => (p, Ok t) | None => (p, Err Panics) end.

Definition peek_is_word (offset : nat) (word : rstring) : M bool :=
  t ← peek_token offset;
  if decide (kind t = Identifier) then w ← text_of (token_span t); mret (bool_decide (w = word)) else mret false.

Definition step_cursor : M unit := fun p =>
  ((if (p_pos p + 1 <? length (p_tokens p))%nat then with_cursor (p_pos p + 1) p else p), Ok tt).
Definition bump : M Token := t ← current; _ ← step_cursor; mret t.

Definition eat (k : TokenKind) : M bool :=
  b ← at_kind k;
  if b : bool then _ ← bump; mret true else mret false.

Definition error (s : Span) (c : ParseCode) : M unit := fun p =>
  (with_errors (p_errors p ++ [{| error_code := c; error_span := s |}]) p, Ok tt).

Definition expect (k : TokenKind) : M bool :=
  b ← eat k;
  if b : bool then mret true else t ← current; _ ← error (token_span t) KPAR001; mret false.

(** What bounds a loop that takes a token each turn: the tokens there are, each of
    which may be cut in two. *)
Definition turns : M nat := fun p => (p, Ok (S (2 * length (p_tokens p)))).

Fixpoint skip_unknown_loop (fuel : nat) : M unit :=
  match fuel with
  | O => st_fail OutOfFuel
  | S fuel => b ← at_kind Unknown; if b : bool then _ ← bump; skip_unknown_loop fuel else mret tt
  end.
Definition skip_unknown : M unit := n ← turns; skip_unknown_loop n.

Definition eat_separator : M bool :=
  b ← eat Comma;
  if b : bool then mret true
  else u ← at_kind Unknown; if u : bool then _ ← skip_unknown; mret true else mret false.

Definition missing_comma : M unit := t ← current; error (token_span t) KPAR002.

Definition previous_end : M Z := fun p =>
  match p_pos p with
  | O => (p, Ok 0)
  | S n => match p_tokens p !! n with Some t => (p, Ok (end_of (token_span t))) | None => (p, Err Panics) end
  end.

Definition previous_kind : M TokenKind := fun p =>
  match p_pos p with
  | O => (p, Ok Eof_)
  | S n => match p_tokens p !! n with Some t => (p, Ok (kind t)) | None => (p, Err Panics) end
  end.

Definition with_flag {A} (get_ : Parser -> bool) (set_ : bool -> Parser -> Parser) (b : bool) (body : M A) : M A := fun p =>
  match body (set_ b p) with
  | (q, Ok a) => (set_ (get_ p) q, Ok a)
  | (q, Err e) => (q, Err e)
  end.
Definition without_struct_literals {A} : M A -> M A := with_flag no_struct_literal with_literal_flag true.
Definition with_struct_literals {A} : M A -> M A := with_flag no_struct_literal with_literal_flag false.
Definition without_named_fills {A} : M A -> M A := with_flag no_named_fill with_fill_flag true.

(** *** Nesting *)

Definition deepen : M bool := fun p => (with_nesting (S (nesting p)) p, Ok (nesting p <? MAX_NESTING_DEPTH)%nat).
Definition enter_nesting : M bool := fun p =>
  (t ← current;
   _ ← (if decide (nesting p = MAX_NESTING_DEPTH) then error (token_span t) KPAR068 else mret tt);
   deepen) p.

Definition exit_nesting : M unit := fun p => (with_nesting (Nat.pred (nesting p)) p, Ok tt).

Fixpoint skip_balanced_loop (fuel depth : nat) (open close : TokenKind) : M unit :=
  match fuel with
  | O => st_fail OutOfFuel
  | S fuel =>
    e ← at_eof;
    if e : bool then mret tt
    else
      k ← current_kind;
      if decide (k = open) then _ ← bump; skip_balanced_loop fuel (S depth) open close
      else if decide (k = close) then
        if (depth <=? 1)%nat then _ ← bump; mret tt else _ ← bump; skip_balanced_loop fuel (depth - 1) open close
      else _ ← bump; skip_balanced_loop fuel depth open close
  end.
Definition skip_balanced (open close : TokenKind) : M unit :=
  b ← at_kind open; if b : bool then n ← turns; skip_balanced_loop n 0 open close else mret tt.

Definition recover_refused_nesting : M unit :=
  k ← current_kind;
  match k with
  | LParen => skip_balanced LParen RParen
  | LBracket => skip_balanced LBracket RBracket
  | LBrace => skip_balanced LBrace RBrace
  | _ => mret tt
  end.

(** *** Looking ahead *)

(** The names and commas from [ahead] on, as the closure tests walk them. *)
Fixpoint closure_run (fuel ahead : nat) (saw_comma : bool) : M (nat * bool) :=
  match fuel with
  | O => st_fail OutOfFuel
  | S fuel =>
    k ← peek_kind ahead;
    if decide (k = Identifier) then
      c ← peek_kind (S ahead);
      if decide (c = Comma) then closure_run fuel (S (S ahead)) true else mret (S ahead, saw_comma)
    else mret (ahead, saw_comma)
  end.

Definition at_closure_brace : M bool :=
  b ← at_kind LBrace;
  if negb b then mret false
  else
    k ← peek_kind 1;
    if decide (k = In_) then mret true
    else
      n ← turns; r ← closure_run n 1 false; k ← peek_kind r.1;
      mret (bool_decide (1 < r.1)%nat && bool_decide (k = In_)).

Definition at_malformed_closure_brace : M bool :=
  b ← at_kind LBrace;
  k ← peek_kind 1;
  if negb b || bool_decide (k <> Identifier) then mret false
  else
    n ← turns; r ← closure_run n 1 false; k ← peek_kind r.1;
    mret (r.2 && bool_decide (k <> In_)).

Definition at_closure_start : M bool :=
  b ← at_closure_brace; if b : bool then mret true else at_malformed_closure_brace.

Fixpoint dotted_run (fuel index : nat) (dotted : bool) : M (nat * bool) :=
  match fuel with
  | O => st_fail OutOfFuel
  | S fuel =>
    k ← peek_kind index;
    n ← peek_kind (S index);
    if decide (k = Dot /\ n = Identifier) then dotted_run fuel (S (S index)) true else mret (index, dotted)
  end.

Definition at_braced_field_override : M bool :=
  k ← peek_kind 1;
  if decide (k = Identifier) then
    n ← turns; r ← dotted_run n 2 false; k ← peek_kind r.1;
    mret (r.2 && bool_decide (k = Equals \/ k = Colon))
  else mret false.

Definition at_content_block : M bool := fun p =>
  (b ← at_kind LBrace;
   c ← at_closure_start;
   if negb b || no_struct_literal p || c then mret false
   else
     k ← peek_kind 1;
     if decide (k = RBrace) then mret false
     else
       k2 ← peek_kind 2;
       o ← at_braced_field_override;
       mret (negb (bool_decide (k = Identifier /\ (k2 = Equals \/ k2 = Colon)) || o))) p.

Definition at_bare_construct_block : M bool := fun p =>
  (b ← at_kind LBrace;
   c ← at_closure_start;
   if negb b || no_struct_literal p || c then mret false
   else
     k ← peek_kind 1;
     o ← at_braced_field_override;
     mret (bool_decide (k = RBrace \/ k = Let_) || o)) p.

Definition at_trailing_block : M bool := fun p =>
  (b ← at_kind LBrace;
   c ← at_closure_start;
   mret (b && negb (no_struct_literal p) && negb c)) p.

Definition at_named_fill : M bool := fun p =>
  (b ← at_kind Identifier;
   k ← peek_kind 1;
   mret (negb (no_named_fill p) && negb (no_struct_literal p) && b && bool_decide (k = Colon))) p.

Definition is_call (e : Expr) : bool := match e with Expr_Call _ _ _ _ _ _ _ _ => true | _ => false end.

Definition at_fillable_construction (base : Expr) : M bool :=
  k ← previous_kind; mret (bool_decide (k = RBrace) && is_call base).

(** The scan of [at_explicit_call_type_args] from the [<] on. *)
Fixpoint type_args_run (fuel offset : nat) (depth : Z) : M bool :=
  match fuel with
  | O => st_fail OutOfFuel
  | S fuel =>
    k ← peek_kind offset;
    n ← peek_kind (S offset);
    let opens := bool_decide (n = LParen \/ n = LBrace) in
    match k with
    | Lt_ => type_args_run fuel (S offset) (depth + 1)
    | Gt_ => if decide (depth - 1 = 0) then mret opens
             else if decide (depth - 1 < 0) then mret false
             else type_args_run fuel (S offset) (depth - 1)
    | GtGt => if decide (depth - 2 <= 0) then mret (bool_decide (depth - 2 = 0) && opens)
              else type_args_run fuel (S offset) (depth - 2)
    | Identifier | Dot | Comma | LBracket | RBracket | LParen | RParen | Colon | Arrow => type_args_run fuel (S offset) depth
    | _ => mret false
    end
  end.

Definition at_explicit_call_type_args : M bool :=
  b ← at_kind Lt_; if b : bool then n ← turns; type_args_run (S n) 0 0 else mret false.

Definition starts_operand (k : TokenKind) : bool :=
  match k with
  | Identifier | IntLiteral | FloatLiteral | StringLiteral | True_ | False_ | Infinity | Minus | Bang | Tilde | LBracket => true
  | _ => false
  end.

Definition ownership_op_here : M (option OwnershipOp) :=
  mv ← peek_is_word 0 (spelled "move");
  cp ← peek_is_word 0 (spelled "copy");
  k ← peek_kind 1;
  let op := if mv : bool then Some Op_Move else if cp : bool then Some Op_Copy else None in
  mret (if starts_operand k then op else None).

(** *** Operators *)

Definition TYPE_OPERATOR_BP : nat := 8.

Definition binary_op (k : TokenKind) : option (BinaryOp * nat) :=
  match k with
  | PipePipe => Some (Op_Or, 1) | AmpAmp => Some (Op_And, 2) | Pipe => Some (Op_BitOr, 3) | Caret => Some (Op_BitXor, 4)
  | Amp => Some (Op_BitAnd, 5) | EqEq => Some (Op_Eq, 6) | BangEq => Some (Op_Ne, 6) | Lt_ => Some (Op_Lt, 7)
  | LtEq => Some (Op_Le, 7) | Gt_ => Some (Op_Gt, 7) | GtEq => Some (Op_Ge, 7) | LtLt => Some (Op_Shl, 9)
  | GtGt => Some (Op_Shr, 9) | Plus => Some (Op_Add, 10) | Minus => Some (Op_Sub, 10) | Star => Some (Op_Mul, 11)
  | Slash => Some (Op_Div, 11) | Percent => Some (Op_Rem, 11)
  | _ => None
  end%nat.

Definition unary_op (k : TokenKind) : option UnaryOp :=
  match k with Minus => Some Op_Neg | Bang => Some Op_Not | Tilde => Some Op_BitNot | _ => None end.

(** *** Literals *)

Definition hex_digit (b : byte) : option Z :=
  if within 0x30 0x39 b then Some (byte_to_Z b - 0x30)
  else if within 0x41 0x46 b then Some (byte_to_Z b - 0x41 + 10)
  else if within 0x61 0x66 b then Some (byte_to_Z b - 0x61 + 10) else None.

Fixpoint hex_digits (m : Z) (text_ : rstring) : option Z :=
  match text_ with
  | [] => Some m
  | b :: text_ => d ← hex_digit b; if decide (m * 16 + d < 2 ^ 64) then hex_digits (m * 16 + d) text_ else None
  end.

(** [u64::from_str_radix(digits, 16)]: a plus at most, then digits, in range. *)
Definition u64_from_hex (text_ : rstring) : option Z :=
  match text_ with
  | [] => None
  | b :: digits =>
    if Byte.eqb b x2b then match digits with [] => None | _ => hex_digits 0 digits end else hex_digits 0 text_
  end.

Definition parsed_int (text_ : rstring) : option Z :=
  match text_ with
  | x30 :: (x78 | x58) :: digits => swrap 64 <$> u64_from_hex digits
  | _ => parse_i64 text_
  end.

(** [str::parse::<f64>] of digits, a point and digits: the closest binary64 to the
    rational they spell. *)
Definition parse_f64 (text_ : rstring) : option Z :=
  let n := run (fun b => negb (Byte.eqb b POINT)) text_ in
  let whole := take n text_ in
  let fraction := drop (S n) text_ in
  m ← all_digits 0 (whole ++ fraction);
  Some (match m, 10 ^ Z.of_nat (length fraction) with
        | Zpos m, Zpos d => f64_encode (SFdiv 53 1024 (S754_finite false m 0) (S754_finite false d 0))
        | _, _ => 0
        end).

Definition parse_int (s : Span) : M Expr :=
  _ ← bump; t ← text_of s;
  match parsed_int t with
  | Some v => mret (Expr_Int v s)
  | None => _ ← error s KPAR021; mret (Expr_Int 0 s)
  end.

Definition parse_float (s : Span) : M Expr :=
  _ ← bump; t ← text_of s;
  match parse_f64 t with
  | Some v => if f64_is_finite v then mret (Expr_Float v s) else _ ← error s KPAR070; mret (Expr_Float 0 s)
  | None => _ ← error s KPAR070; mret (Expr_Float 0 s)
  end.

Definition parse_string_literal (s : Span) : M Expr :=
  _ ← bump; t ← text_of s;
  mret (match decode_string_literal t with Ok v => Expr_Str v s | Err _ => Expr_Error s end).

Definition POSITIVE_INFINITY : Z := Z.shiftl 0x7ff 52.

(** ** Expressions *)

Definition cursor : M nat := fun p => (p, Ok (p_pos p)).

(** What the functions call back: [parse_expr], [parse_binary], [parse_unary],
    [parse_type_ref], [parse_stmt], [parse_content_item], [parse_fill_value]. *)
Record Self := {
  self_expr : M Expr;
  self_binary : nat -> M Expr;
  self_unary : M Expr;
  self_type : M TypeRef;
  self_stmt : M (option Stmt);
  self_item : M Expr;
  self_fill : M Expr
}.

Section parse.
Variable self : Self.

(** The body of [parse_expr], [parse_try_operand] and [parse_unary_nested]: one level
    deeper, or an error node when that is refused. *)
Definition nested (body : M Expr) : M Expr :=
  allowed ← enter_nesting;
  e ← (if allowed : bool then body
       else _ ← recover_refused_nesting; t ← current; mret (Expr_Error (token_span t)));
  _ ← exit_nesting;
  mret e.

Definition parse_try_operand : M Expr := nested (self_binary self (TYPE_OPERATOR_BP - 1)).
Definition parse_unary_nested : M Expr := nested (self_unary self).

(** *** Types: [item/type_refs.rs], [generics.rs] *)

Definition at_generic_close : M bool := k ← current_kind; mret (bool_decide (k = Gt_ \/ k = GtGt)).

(** A [>>] is cut in two where the cursor is. *)
Definition split_close : M unit := fun p =>
  match p_tokens p !! p_pos p with
  | Some t =>
    let at_ n := {| kind := Gt_; token_span := {| start := n; len := 1 |} |} in
    let s := start (token_span t) in
    (with_tokens (take (p_pos p) (p_tokens p) ++ at_ s :: at_ (Z.min (2 ^ 32 - 1) (s + 1)) :: drop (S (p_pos p)) (p_tokens p)) p, Ok tt)
  | None => (p, Err Panics)
  end.

Definition eat_generic_close : M bool :=
  k ← current_kind;
  match k with
  | Gt_ => _ ← bump; mret true
  | GtGt => _ ← split_close; _ ← bump; mret true
  | _ => mret false
  end.

Fixpoint type_args_loop (fuel : nat) (args : list TypeRef) : M (list TypeRef) :=
  match fuel with
  | O => st_fail OutOfFuel
  | S fuel =>
    c ← at_generic_close;
    e ← at_eof;
    if (c || e) : bool then mret args
    else
      before ← cursor;
      arg ← self_type self;
      _ ← eat Comma;
      now ← cursor;
      _ ← (if decide (now = before) then _ ← bump; mret tt else mret tt);
      type_args_loop fuel (args ++ [arg])
  end.

Definition parse_call_type_args : M (list TypeRef) :=
  t ← current;
  _ ← bump;
  n ← turns;
  args ← type_args_loop n [];
  closed ← eat_generic_close;
  last_ ← previous_end;
  let s := from_bounds (start (token_span t)) last_ in
  _ ← (if closed : bool then mret tt else error s KPAR045);
  _ ← (if bool_decide (args = []) then error s KPAR046 else mret tt);
  mret args.

Definition parse_generic_args (name : rstring) (name_span start_ : Span) : M TypeRef :=
  _ ← bump;
  n ← turns;
  args ← type_args_loop n [];
  closed ← eat_generic_close;
  last_ ← previous_end;
  let s := from_bounds (start start_) last_ in
  if negb closed then _ ← error s KPAR045; mret (TypeRef_Error s)
  else if bool_decide (args = []) then _ ← error s KPAR046; mret (TypeRef_Error s)
  else mret (TypeRef_Generic name name_span args s).

Definition at_word (word : rstring) : M bool := peek_is_word 0 word.

Definition peek_starts_type (n : nat) : M bool :=
  k ← peek_kind n; mret (bool_decide (k = Identifier \/ k = LBracket \/ k = LParen)).

Definition parse_ownership_prefix : M (OwnershipMode * option Span) :=
  borrow ← at_word (spelled "borrow");
  mut ← peek_is_word 1 (spelled "mut");
  two ← peek_starts_type 2;
  one ← peek_starts_type 1;
  if borrow && mut && two then
    t ← current; _ ← bump; u ← current; _ ← bump;
    mret (BorrowMut, Some (from_bounds (start (token_span t)) (end_of (token_span u))))
  else if borrow && one then t ← current; _ ← bump; mret (BorrowRead, Some (token_span t))
  else
    move_ ← at_word (spelled "move");
    if move_ && one then t ← current; _ ← bump; mret (Mode_Move, Some (token_span t))
    else
      copy ← at_word (spelled "copy");
      if copy && one then t ← current; _ ← bump; mret (Mode_Copy, Some (token_span t))
      else mret (Owned, None).

Definition at_some_construct : M bool :=
  some_ ← at_word (spelled "some"); k ← peek_kind 1; mret (some_ && bool_decide (k = Identifier)).

Inductive TypeEnd := Enclosed | StatementFinal.

Definition at_any_construct (end_ : TypeEnd) : M bool :=
  any ← at_word (spelled "Any");
  k ← peek_kind 1;
  if negb (any && bool_decide (k = Identifier)) then mret false
  else
    match end_ with
    | Enclosed => mret true
    | StatementFinal => n ← turns; r ← dotted_run n 2 false; k ← peek_kind r.1; mret (bool_decide (k = Equals))
    end.

Fixpoint qualified_loop (fuel : nat) (text_ : rstring) : M rstring :=
  match fuel with
  | O => st_fail OutOfFuel
  | S fuel =>
    d ← at_kind Dot;
    k ← peek_kind 1;
    if d && bool_decide (k = Identifier) then
      _ ← bump;
      t ← current;
      w ← text_of (token_span t);
      _ ← bump;
      qualified_loop fuel (text_ ++ [POINT] ++ w)
    else mret text_
  end.

Definition parse_qualified_name (start_ : Span) : M (rstring * Span) :=
  w ← text_of start_;
  _ ← bump;
  n ← turns;
  text_ ← qualified_loop n w;
  last_ ← previous_end;
  mret (text_, from_bounds (start start_) last_).

(** The parameters in parentheses, the ownership of each, and whether a comma was
    seen. *)
Fixpoint params_loop (fuel : nat) (params : list TypeRef) (modes : list OwnershipMode) (saw_comma : bool) :
    M (list TypeRef * list OwnershipMode * bool) :=
  match fuel with
  | O => st_fail OutOfFuel
  | S fuel =>
    r ← at_kind RParen;
    e ← at_eof;
    if (r || e) : bool then mret (params, modes, saw_comma)
    else
      before ← cursor;
      mode ← parse_ownership_prefix;
      ty ← self_type self;
      let params := params ++ [ty] in
      let modes := modes ++ [mode.1] in
      c ← eat Comma;
      if negb c then mret (params, modes, saw_comma)
      else
        now ← cursor;
        _ ← (if decide (now = before) then _ ← bump; mret tt else mret tt);
        params_loop fuel params modes true
  end.

Definition parse_function_type : M TypeRef :=
  t ← current;
  _ ← bump;
  n ← turns;
  r ← params_loop n [] [] false;
  let '(params, modes, saw_comma) := r in
  _ ← expect RParen;
  last_ ← previous_end;
  let paren_span := from_bounds (start (token_span t)) last_ in
  arrow ← eat Arrow;
  if arrow : bool then
    result ← self_type self;
    last_ ← previous_end;
    mret (TypeRef_Function params modes result (from_bounds (start (token_span t)) last_))
  else
    match params, saw_comma with
    | [ty], false => mret ty
    | _, _ =>
      _ ← (if (length params <? 2)%nat || (4 <? length params)%nat then error paren_span KPAR091 else mret tt);
      _ ← (if existsb (fun m => negb (bool_decide (m = Owned))) modes then error paren_span KPAR038 else mret tt);
      mret (TypeRef_Tuple params paren_span)
    end.

Definition parse_type_ref_inner (end_ : TypeEnd) : M TypeRef :=
  k ← current_kind;
  t ← current;
  match k with
  | LParen => parse_function_type
  | LBracket =>
    _ ← bump;
    element ← self_type self;
    _ ← expect RBracket;
    last_ ← previous_end;
    mret (TypeRef_Array element (from_bounds (start (token_span t)) last_))
  | Identifier =>
    some_ ← at_some_construct;
    any ← at_any_construct end_;
    if (some_ || any) : bool then
      _ ← bump;
      u ← current;
      family ← parse_qualified_name (token_span u);
      last_ ← previous_end;
      mret (TypeRef_SomeConstruct family.1 family.2 (from_bounds (start (token_span t)) last_))
    else
      name ← parse_qualified_name (token_span t);
      lt ← at_kind Lt_;
      if lt : bool then parse_generic_args name.1 name.2 (token_span t)
      else mret (TypeRef_Named name.1 name.2)
  | _ => _ ← error (token_span t) KPAR006; mret (TypeRef_Error (token_span t))
  end.

(** A refused level is not left. *)
Definition parse_type_ref_ending (end_ : TypeEnd) : M TypeRef :=
  allowed ← enter_nesting;
  if negb allowed then _ ← recover_refused_nesting; t ← current; mret (TypeRef_Error (token_span t))
  else ty ← parse_type_ref_inner end_; _ ← exit_nesting; mret ty.

Definition parse_type_ref : M TypeRef := parse_type_ref_ending Enclosed.
Definition parse_type_ref_statement_final : M TypeRef := parse_type_ref_ending StatementFinal.

(** *** Lists *)

Definition parse_call_arg : M (CallArg Expr) :=
  k ← current_kind;
  k1 ← peek_kind 1;
  label ← (if decide (k = Identifier /\ (k1 = Colon \/ k1 = Equals)) then
             t ← current; w ← text_of (token_span t); _ ← bump; _ ← bump; mret (Some (w, token_span t))
           else mret None);
  value ← self_expr self;
  last_ ← previous_end;
  let first_ := match label with Some l => start l.2 | None => start (expr_span value) end in
  mret {| arg_label := label; arg_value := value; arg_span := from_bounds first_ last_ |}.

Fixpoint call_args_loop (fuel : nat) (args : list (CallArg Expr)) : M (list (CallArg Expr)) :=
  match fuel with
  | O => st_fail OutOfFuel
  | S fuel =>
    r ← at_kind RParen;
    e ← at_eof;
    if (r || e) : bool then mret args
    else
      before ← cursor;
      arg ← parse_call_arg;
      c ← eat Comma;
      if negb c then mret (args ++ [arg])
      else
        now ← cursor;
        _ ← (if decide (now = before) then _ ← bump; mret tt else mret tt);
        call_args_loop fuel (args ++ [arg])
  end.

Definition parse_call_args : M (list (CallArg Expr)) :=
  _ ← bump;
  n ← turns;
  args ← with_struct_literals (call_args_loop n []);
  _ ← expect RParen;
  mret args.

Definition parse_positional_call_args : M (list Expr) := args ← parse_call_args; mret (arg_value <$> args).

Fixpoint tuple_loop (fuel : nat) (elements : list Expr) : M (list Expr) :=
  match fuel with
  | O => st_fail OutOfFuel
  | S fuel =>
    r ← at_kind RParen;
    e ← at_eof;
    if (r || e) : bool then mret elements
    else
      element ← with_struct_literals (self_expr self);
      let elements := elements ++ [element] in
      _ ← (if (4 <? length elements)%nat then error (expr_span element) KPAR091 else mret tt);
      c ← eat Comma;
      if negb c then mret elements else tuple_loop fuel elements
  end.

Definition parse_paren : M Expr :=
  t ← current;
  _ ← bump;
  first_ ← with_struct_literals (self_expr self);
  c ← eat Comma;
  if negb c then _ ← expect RParen; mret first_
  else
    n ← turns;
    elements ← tuple_loop n [first_];
    _ ← expect RParen;
    last_ ← previous_end;
    mret (Expr_Tuple elements (from_bounds (start (token_span t)) last_)).

Definition at_array_end : M bool :=
  k ← current_kind; mret (bool_decide (k = RBracket \/ k = RBrace \/ k = Eof_)).

Fixpoint array_loop (fuel : nat) (elements : list Expr) : M (list Expr) :=
  match fuel with
  | O => st_fail OutOfFuel
  | S fuel =>
    e ← at_array_end;
    if e : bool then mret elements
    else
      before ← cursor;
      _ ← skip_unknown;
      e ← at_array_end;
      if e : bool then mret elements
      else
        element ← self_expr self;
        s ← eat_separator;
        e ← at_array_end;
        _ ← (if negb s && negb e then missing_comma else mret tt);
        now ← cursor;
        _ ← (if decide (now = before) then _ ← bump; mret tt else mret tt);
        array_loop fuel (elements ++ [element])
  end.

Definition parse_array_literal : M Expr :=
  t ← current;
  _ ← bump;
  n ← turns;
  elements ← with_struct_literals (array_loop n []);
  _ ← expect RBracket;
  last_ ← previous_end;
  mret (Expr_ArrayLit elements (from_bounds (start (token_span t)) last_)).

Definition parse_field_init : M (option (FieldInit Expr)) :=
  t ← current;
  if decide (kind t <> Identifier) then _ ← error (token_span t) KPAR023; _ ← bump; mret None
  else
    name ← text_of (token_span t);
    _ ← bump;
    e ← eat Equals;
    c ← (if e : bool then mret true else eat Colon);
    if negb c then t ← current; _ ← error (token_span t) KPAR024; mret None
    else
      value ← without_named_fills (self_expr self);
      last_ ← previous_end;
      mret (Some {| init_name := name; init_name_span := token_span t; init_value := value;
                    init_span := from_bounds (start (token_span t)) last_ |}).

Fixpoint fields_loop (fuel : nat) (fields : list (FieldInit Expr)) : M (list (FieldInit Expr)) :=
  match fuel with
  | O => st_fail OutOfFuel
  | S fuel =>
    r ← at_kind RBrace;
    e ← at_eof;
    if (r || e) : bool then mret fields
    else
      before ← cursor;
      _ ← skip_unknown;
      r ← at_kind RBrace;
      e ← at_eof;
      if (r || e) : bool then mret fields
      else
        field ← parse_field_init;
        s ← eat_separator;
        r ← at_kind RBrace;
        e ← at_eof;
        _ ← (if negb s && negb r && negb e then missing_comma else mret tt);
        now ← cursor;
        _ ← (if decide (now = before) then _ ← bump; mret tt else mret tt);
        fields_loop fuel (fields ++ match field with Some f => [f] | None => [] end)
  end.

Definition parse_struct_literal (name : rstring) (name_span : Span) : M Expr :=
  _ ← bump;
  n ← turns;
  fields ← with_struct_literals (fields_loop n []);
  _ ← expect RBrace;
  last_ ← previous_end;
  mret (Expr_StructLit name name_span fields (from_bounds (start name_span) last_)).
End parse.
