(* ===== verification/ParserBlocks.v ===== *)
(** * The parser: blocks, closures, content and statements

    [item.rs]'s blocks, [stmt.rs], [stmt/branches.rs], [expr/closures.rs] and
    [expr/content.rs] of [kira-parser]. *)

From Stdlib Require Import Strings.String.
From stdpp Require Import list.
From S2P Require Import Prelude.
From S2P Require Import Foreign.
From S2P Require Import VmText.
From S2P Require Import Source.
From S2P Require Import Lexer.
From S2P Require Import Syntax.
From S2P Require Import Parser.

(** The diagnostics so far, those to keep of them, and the cursor put back. *)
Definition reports : M nat := fun p => (p, Ok (length (p_errors p))).
Definition truncate (n : nat) : M unit := fun p => (with_errors (take n (p_errors p)) p, Ok tt).
Definition seek (n : nat) : M unit := fun p => (with_cursor n p, Ok tt).

(** A name where one is due, or the diagnostic [c]. *)
Definition expect_name (c : ParseCode) : M (option rstring * Span) :=
  t ← current;
  if decide (kind t = Identifier) then name ← text_of (token_span t); _ ← bump; mret (Some name, token_span t)
  else _ ← error (token_span t) c; mret (None, token_span t).

Section parse.
Variable self : Self.

(** ** Blocks: [item.rs] *)

Fixpoint block_loop (fuel : nat) (stmts : list Stmt) : M (list Stmt) :=
  match fuel with
  | O => st_fail OutOfFuel
  | S fuel =>
    r ← at_kind RBrace;
    e ← at_eof;
    if (r || e) : bool then mret stmts
    else
      before ← cursor;
      _ ← skip_unknown;
      r ← at_kind RBrace;
      e ← at_eof;
      if (r || e) : bool then mret stmts
      else
        stmt ← self_stmt self;
        _ ← skip_unknown;
        now ← cursor;
        _ ← (if decide (now = before) then _ ← bump; mret tt else mret tt);
        block_loop fuel (stmts ++ match stmt with Some s => [s] | None => [] end)
  end.

Definition parse_block_body (start_ : Span) : M (Block Stmt) :=
  n ← turns;
  stmts ← block_loop n [];
  _ ← expect RBrace;
  last_ ← previous_end;
  mret {| block_stmts := stmts; block_span := from_bounds (start start_) last_ |}.

Definition parse_block : M (Block Stmt) :=
  t ← current;
  let empty_ := {| block_stmts := []; block_span := token_span t |} in
  open ← expect LBrace;
  if negb open then mret empty_
  else
    allowed ← enter_nesting;
    block ← (if allowed : bool then parse_block_body (token_span t)
             else _ ← recover_refused_nesting; _ ← expect RBrace; mret empty_);
    _ ← exit_nesting;
    mret block.

(** ** Closures: [expr/closures.rs] *)

Fixpoint closure_params_loop (fuel : nat) (params : list ClosureParam) : M (list ClosureParam) :=
  match fuel with
  | O => st_fail OutOfFuel
  | S fuel =>
    i ← at_kind In_;
    r ← at_kind RBrace;
    e ← at_eof;
    if (i || r || e) : bool then mret params
    else
      t ← current;
      if decide (kind t <> Identifier) then _ ← error (token_span t) KPAR039; mret params
      else
        name ← text_of (token_span t);
        _ ← bump;
        c ← eat Comma;
        if negb c then mret (params ++ [(name, token_span t)]) else closure_params_loop fuel (params ++ [(name, token_span t)])
  end.

Definition parse_closure : M Expr :=
  t ← current;
  _ ← bump;
  n ← turns;
  params ← closure_params_loop n [];
  _ ← expect In_;
  body ← parse_block_body (token_span t);
  last_ ← previous_end;
  mret (Expr_Closure params body (from_bounds (start (token_span t)) last_)).

Definition positional_arg (value : Expr) : CallArg Expr :=
  {| arg_label := None; arg_value := value; arg_span := expr_span value |}.

Definition attach_trailing_closure (base : Expr) : M Expr :=
  closure ← parse_closure;
  last_ ← previous_end;
  let span_ := from_bounds (start (expr_span base)) last_ in
  match base with
  | Expr_Call callee callee_span braced type_args args children trailing _ =>
    mret (Expr_Call callee callee_span braced type_args (args ++ [positional_arg closure]) children trailing span_)
  | Expr_MethodCall receiver method method_span args children _ =>
    mret (Expr_MethodCall receiver method method_span (args ++ [positional_arg closure]) children span_)
  | Expr_Name symbol name => mret (Expr_Call symbol name false [] [positional_arg closure] [] None span_)
  | Expr_Field receiver field field_span _ => mret (Expr_MethodCall receiver field field_span [positional_arg closure] [] span_)
  | _ => _ ← error span_ KPAR040; mret (Expr_Error span_)
  end.

(** ** Content: [expr/content.rs] *)

Fixpoint content_loop (fuel : nat) (children : list Expr) : M (list Expr) :=
  match fuel with
  | O => st_fail OutOfFuel
  | S fuel =>
    r ← at_kind RBrace;
    e ← at_eof;
    if (r || e) : bool then mret children
    else
      before ← cursor;
      _ ← skip_unknown;
      r ← at_kind RBrace;
      e ← at_eof;
      if (r || e) : bool then mret children
      else
        child ← self_item self;
        _ ← eat Comma;
        now ← cursor;
        _ ← (if decide (now = before) then _ ← bump; mret tt else mret tt);
        content_loop fuel (children ++ [child])
  end.

Definition parse_content_block : M (list Expr) :=
  _ ← bump;
  n ← turns;
  children ← with_struct_literals (content_loop n []);
  _ ← expect RBrace;
  mret children.

Definition bare_override_path_ends_in_binder : M bool :=
  n ← turns; r ← dotted_run n 1 false; k ← peek_kind r.1; mret (bool_decide (k = Colon \/ k = Equals)).

(** The path of an override after its first name, with the span of the label. *)
Fixpoint override_path_loop (fuel : nat) (path : rstring) (label_span : Span) : M (rstring * Span) :=
  match fuel with
  | O => st_fail OutOfFuel
  | S fuel =>
    d ← eat Dot;
    if negb d then mret (path, label_span)
    else
      t ← current;
      if decide (kind t <> Identifier) then _ ← error (token_span t) KPAR022; mret (path, label_span)
      else
        segment ← text_of (token_span t);
        _ ← bump;
        override_path_loop fuel (path ++ [POINT] ++ segment) (from_bounds (start label_span) (end_of (token_span t)))
  end.

(** Tells whether an override starts, with its [let]. *)
Definition parse_override : M (option (CallArg Expr)) :=
  has_let ← at_kind Let_;
  word ← at_kind Identifier;
  k1 ← peek_kind 1;
  k2 ← peek_kind 2;
  binder ← bare_override_path_ends_in_binder;
  let bare := word && bool_decide (k1 = Dot \/ k1 = Colon) && binder in
  if (negb has_let && negb bare) || (has_let && bool_decide (k1 <> Identifier)) then mret None
  else if has_let && bool_decide (k2 <> Equals /\ k2 <> Dot) then mret None
  else
    t ← current;
    _ ← (if has_let : bool then _ ← bump; mret tt else mret tt);
    name ← current;
    first_ ← text_of (token_span name);
    _ ← bump;
    n ← turns;
    label ← override_path_loop n first_ (token_span name);
    colon ← eat Colon;
    _ ← (if colon : bool then mret true else expect Equals);
    value ← self_fill self;
    last_ ← previous_end;
    mret (Some {| arg_label := Some label; arg_value := value; arg_span := from_bounds (start (token_span t)) last_ |}).

Fixpoint trailing_loop (fuel : nat) (args : list (CallArg Expr)) (children : list Expr) : M (list (CallArg Expr) * list Expr) :=
  match fuel with
  | O => st_fail OutOfFuel
  | S fuel =>
    r ← at_kind RBrace;
    e ← at_eof;
    if (r || e) : bool then mret (args, children)
    else
      before ← cursor;
      _ ← skip_unknown;
      r ← at_kind RBrace;
      e ← at_eof;
      if (r || e) : bool then mret (args, children)
      else
        override ← parse_override;
        next ← match override with
               | Some argument => mret (args ++ [argument], children)
               | None => child ← self_item self; mret (args, children ++ [child])
               end;
        _ ← eat Comma;
        now ← cursor;
        _ ← (if decide (now = before) then _ ← bump; mret tt else mret tt);
        trailing_loop fuel next.1 next.2
  end.

(** The arguments and the children in the braces. *)
Definition parse_trailing_block : M (list (CallArg Expr) * list Expr) :=
  _ ← bump;
  n ← turns;
  r ← with_struct_literals (trailing_loop n [] []);
  _ ← expect RBrace;
  mret r.

Record DeferredBrace := { db_children : list Expr; db_closure : option (TrailingClosure Expr) }.

(** The braces as a block, then from the same place as content. *)
Definition parse_deferred_brace (args : list (CallArg Expr)) : M (list (CallArg Expr) * DeferredBrace) :=
  start_ ← cursor;
  mark ← reports;
  brace ← current;
  block ← parse_block;
  now ← reports;
  let block_reads := bool_decide (now = mark) in
  _ ← truncate mark;
  after_block ← cursor;
  _ ← seek start_;
  content ← parse_trailing_block;
  now ← reports;
  let content_reads := bool_decide (now = mark) in
  last_ ← previous_end;
  let closure n := {| tc_closure := Expr_Closure [] block (from_bounds (start (token_span brace)) last_);
                      tc_slot := Z.of_nat (length args) mod 2 ^ 32; tc_content_args := n |} in
  if block_reads && negb content_reads then
    _ ← truncate mark;
    _ ← seek after_block;
    mret (args, {| db_children := []; db_closure := Some (closure 0) |})
  else
    mret (args ++ content.1,
          {| db_children := content.2;
             db_closure := if block_reads then Some (closure (Z.of_nat (length content.1) mod 2 ^ 32)) else None |}).

Definition parse_fill_value : M Expr :=
  b ← at_kind LBrace;
  c ← at_closure_start;
  if b && negb c then
    t ← current;
    brace ← with_struct_literals (parse_deferred_brace []);
    last_ ← previous_end;
    mret (Expr_Content (db_children brace.2) (tc_closure <$> db_closure brace.2) (from_bounds (start (token_span t)) last_))
  else without_named_fills (self_expr self).

Definition parse_named_fill : M (CallArg Expr) :=
  t ← current;
  label ← text_of (token_span t);
  _ ← bump;
  _ ← bump;
  value ← parse_fill_value;
  last_ ← previous_end;
  mret {| arg_label := Some (label, token_span t); arg_value := value; arg_span := from_bounds (start (token_span t)) last_ |}.

Fixpoint fills_loop (fuel : nat) (base : Expr) : M Expr :=
  match fuel with
  | O => st_fail OutOfFuel
  | S fuel =>
    fill ← at_named_fill;
    if negb fill then mret base
    else
      match base with
      | Expr_Call callee callee_span braced type_args args children trailing base_span =>
        arg ← parse_named_fill;
        last_ ← previous_end;
        fills_loop fuel (Expr_Call callee callee_span braced type_args (args ++ [arg]) children trailing (from_bounds (start base_span) last_))
      | _ => mret base
      end
  end.

Definition attach_named_fills (base : Expr) : M Expr := n ← turns; fills_loop n base.

Definition attach_content_block (base : Expr) : M (option Expr) :=
  match base with
  | Expr_MethodCall receiver method method_span args existing base_span =>
    if bool_decide (existing <> []) then mret None
    else
      brace ← parse_deferred_brace args;
      last_ ← previous_end;
      mret (Some (Expr_MethodCall receiver method method_span brace.1 (db_children brace.2) (from_bounds (start base_span) last_)))
  | Expr_Call callee callee_span braced type_args args existing existing_closure base_span =>
    if bool_decide (existing <> []) || bool_decide (is_Some existing_closure) then mret None
    else
      brace ← parse_deferred_brace args;
      last_ ← previous_end;
      mret (Some (Expr_Call callee callee_span braced type_args brace.1 (db_children brace.2) (db_closure brace.2)
                            (from_bounds (start base_span) last_)))
  | _ => mret None
  end.

Definition parse_content_for : M Expr :=
  t ← current;
  _ ← bump;
  _ ← expect LParen;
  binding ← expect_name KPAR012;
  _ ← expect In_;
  iterable ← self_expr self;
  _ ← expect RParen;
  b ← at_kind LBrace;
  body ← (if b : bool then parse_content_block else t ← current; _ ← error (token_span t) KPAR065; mret []);
  last_ ← previous_end;
  mret (Expr_ContentFor binding.1 binding.2 iterable body (from_bounds (start (token_span t)) last_)).

(** [else if] goes round. *)
Fixpoint content_if_loop (fuel : nat) : M Expr :=
  match fuel with
  | O => st_fail OutOfFuel
  | S fuel =>
    t ← current;
    _ ← bump;
    cond ← without_struct_literals (self_expr self);
    then_body ← parse_content_block;
    else_ ← eat Else_;
    if_ ← at_kind If_;
    else_body ← (if negb else_ then mret []
                 else if if_ : bool then e ← content_if_loop fuel; mret [e] else parse_content_block);
    last_ ← previous_end;
    mret (Expr_ContentIf cond then_body else_body (from_bounds (start (token_span t)) last_))
  end.

Definition parse_content_if : M Expr := n ← turns; content_if_loop n.

Definition parse_content_item : M Expr :=
  for_ ← at_word (spelled "For");
  k ← peek_kind 1;
  if_ ← at_kind If_;
  if for_ && bool_decide (k = LParen) then parse_content_for
  else if if_ : bool then parse_content_if else self_expr self.

End parse.
