(* ===== verification/ParserStmts.v ===== *)
(** * The parser: patterns, arms and statements

    [stmt.rs] and [stmt/branches.rs] of [kira-parser]. *)

From Stdlib Require Import Strings.String.
From stdpp Require Import list.
From S2P Require Import Prelude.
From S2P Require Import Foreign.
From S2P Require Import Source.
From S2P Require Import Lexer.
From S2P Require Import Syntax.
From S2P Require Import Parser.
From S2P Require Import ParserBlocks.

(** ** Patterns: [stmt/branches.rs] *)

Definition starts_pattern_literal (k : TokenKind) : bool :=
  match k with IntLiteral | FloatLiteral | StringLiteral | True_ | False_ | Minus => true | _ => false end.

Definition parse_literal_primary : M Expr :=
  t ← current;
  let s := token_span t in
  match kind t with
  | IntLiteral => parse_int s
  | FloatLiteral => parse_float s
  | StringLiteral => parse_string_literal s
  | True_ => _ ← bump; mret (Expr_Bool true s)
  | False_ => _ ← bump; mret (Expr_Bool false s)
  | _ => _ ← error s KPAR020; _ ← bump; mret (Expr_Error s)
  end.

Definition parse_pattern_literal : M Expr :=
  t ← current;
  if decide (kind t = Minus) then
    _ ← bump;
    operand ← parse_literal_primary;
    last_ ← previous_end;
    mret (Expr_Unary Op_Neg operand (from_bounds (start (token_span t)) last_))
  else parse_literal_primary.

Definition parse_payload_binding : M (option MatchBinding) :=
  open ← eat LParen;
  if negb open then mret None
  else
    t ← current;
    binding ← (if decide (kind t = Identifier) then name ← text_of (token_span t); _ ← bump; mret (Some (name, token_span t))
               else _ ← error (token_span t) KPAR015; mret None);
    _ ← expect RParen;
    mret binding.

Definition parse_match_pattern : M (option (MatchPattern Expr)) :=
  t ← current;
  if decide (kind t = Else_) then _ ← bump; mret (Some (Pattern_Wildcard (token_span t)))
  else if decide (kind t = Identifier) then
    variant ← text_of (token_span t);
    _ ← bump;
    binding ← parse_payload_binding;
    mret (Some (Pattern_Variant variant (token_span t) binding))
  else if starts_pattern_literal (kind t) then
    first_ ← parse_pattern_literal;
    range ← eat DotDot;
    if range : bool then
      end_ ← parse_pattern_literal;
      last_ ← previous_end;
      mret (Some (Pattern_Range first_ end_ (from_bounds (start (token_span t)) last_)))
    else
      last_ ← previous_end;
      mret (Some (Pattern_Value first_ (from_bounds (start (token_span t)) last_)))
  else _ ← error (token_span t) KPAR014; mret None.

(** The head of an arm from a pattern on; [None] where a pattern is not one. *)
Fixpoint patterns_loop (fuel : nat) (patterns : list (MatchPattern Expr)) : M (option (list (MatchPattern Expr))) :=
  match fuel with
  | O => st_fail OutOfFuel
  | S fuel =>
    pattern ← parse_match_pattern;
    match pattern with
    | None => mret None
    | Some pattern =>
      c ← eat Comma;
      if negb c then mret (Some (patterns ++ [pattern])) else patterns_loop fuel (patterns ++ [pattern])
    end
  end.

Fixpoint recover_loop (fuel : nat) : M unit :=
  match fuel with
  | O => st_fail OutOfFuel
  | S fuel =>
    k ← current_kind;
    if decide (k = Eof_ \/ k = RBrace) then mret tt
    else if decide (k = LBrace) then skip_balanced LBrace RBrace
    else _ ← bump; recover_loop fuel
  end.

Definition recover_to_next_arm : M unit := n ← turns; recover_loop n.

(** The arms of a [match] or a [handle], up to the closing brace. *)
Fixpoint arms_loop (arm : M (option (MatchArm Expr Stmt))) (fuel : nat) (arms : list (MatchArm Expr Stmt)) : M (list (MatchArm Expr Stmt)) :=
  match fuel with
  | O => st_fail OutOfFuel
  | S fuel =>
    r ← at_kind RBrace;
    e ← at_eof;
    if (r || e) : bool then mret arms
    else
      next ← arm;
      match next with
      | Some a => arms_loop arm fuel (arms ++ [a])
      | None => _ ← recover_to_next_arm; arms_loop arm fuel arms
      end
  end.

Section parse.
Variable self : Self.

(** ** Arms *)

Definition parse_match_arm_body : M (Block Stmt) :=
  b ← at_kind LBrace;
  if b : bool then parse_block self
  else
    t ← current;
    stmt ← self_stmt self;
    last_ ← previous_end;
    mret {| block_stmts := match stmt with Some s => [s] | None => [] end; block_span := from_bounds (start (token_span t)) last_ |}.

Definition parse_arrow_arm (body : M (Block Stmt)) : M (option (MatchArm Expr Stmt)) :=
  t ← current;
  n ← turns;
  patterns ← patterns_loop n [];
  match patterns with
  | None => mret None
  | Some patterns =>
    _ ← expect Arrow;
    body ← body;
    last_ ← previous_end;
    mret (Some {| arm_patterns := patterns; arm_body := body; arm_span := from_bounds (start (token_span t)) last_ |})
  end.

Definition parse_match_arm : M (option (MatchArm Expr Stmt)) := parse_arrow_arm parse_match_arm_body.

Definition parse_expression_arm_body : M (Block Stmt) :=
  b ← at_kind LBrace;
  if b : bool then parse_block self
  else
    t ← current;
    expr ← self_expr self;
    last_ ← previous_end;
    let s := from_bounds (start (token_span t)) last_ in
    mret {| block_stmts := [Stmt_Expr expr s]; block_span := s |}.

Definition parse_match_expression_arm : M (option (MatchArm Expr Stmt)) := parse_arrow_arm parse_expression_arm_body.

Definition parse_handler_arm : M (option (MatchArm Expr Stmt)) :=
  t ← current;
  let arm pattern := body ← parse_block self; last_ ← previous_end;
    mret (Some {| arm_patterns := [pattern]; arm_body := body; arm_span := from_bounds (start (token_span t)) last_ |}) in
  if decide (kind t = Else_) then _ ← bump; arm (Pattern_Wildcard (token_span t))
  else if decide (kind t <> Identifier) then _ ← error (token_span t) KPAR017; mret None
  else
    variant ← text_of (token_span t);
    _ ← bump;
    binding ← parse_payload_binding;
    arm (Pattern_Variant variant (token_span t) binding).

(** A subject and its arms, from the keyword on. *)
Definition parse_matching (arm : M (option (MatchArm Expr Stmt))) : M (Expr * list (MatchArm Expr Stmt) * Span) :=
  t ← current;
  _ ← bump;
  subject ← without_struct_literals (self_expr self);
  _ ← expect LBrace;
  n ← turns;
  arms ← arms_loop arm n [];
  _ ← expect RBrace;
  last_ ← previous_end;
  mret (subject, arms, from_bounds (start (token_span t)) last_).

Definition parse_match : M Stmt := r ← parse_matching parse_match_arm; mret (Stmt_Match r.1.1 r.1.2 r.2).
Definition parse_match_expression : M Expr := r ← parse_matching parse_match_expression_arm; mret (Expr_Match r.1.1 r.1.2 r.2).

Definition parse_attempt : M Stmt :=
  t ← current;
  _ ← bump;
  body ← parse_block self;
  handle ← at_word (spelled "handle");
  handlers ← (if handle : bool then
                _ ← bump;
                _ ← expect LBrace;
                n ← turns;
                arms ← arms_loop parse_handler_arm n [];
                _ ← expect RBrace;
                mret arms
              else u ← current; _ ← error (token_span u) KPAR016; mret []);
  last_ ← previous_end;
  mret (Stmt_Attempt body handlers (from_bounds (start (token_span t)) last_)).

(** ** Statements: [stmt.rs] *)

Definition compound_assign_op (k : TokenKind) : option BinaryOp :=
  match k with
  | PlusEq => Some Op_Add | MinusEq => Some Op_Sub | StarEq => Some Op_Mul | SlashEq => Some Op_Div | PercentEq => Some Op_Rem
  | AmpEq => Some Op_BitAnd | PipeEq => Some Op_BitOr | CaretEq => Some Op_BitXor | LtLtEq => Some Op_Shl | GtGtEq => Some Op_Shr
  | _ => None
  end.

Definition parse_expr_or_assign : M Stmt :=
  t ← current;
  target ← self_expr self;
  k ← current_kind;
  let op := compound_assign_op k in
  if bool_decide (op = None) && bool_decide (k <> Equals) then
    last_ ← previous_end; mret (Stmt_Expr target (from_bounds (start (token_span t)) last_))
  else
    _ ← bump;
    value ← self_expr self;
    last_ ← previous_end;
    mret (Stmt_Assign target op value (from_bounds (start (token_span t)) last_)).

Definition parse_let (mutable : bool) : M Stmt :=
  t ← current;
  _ ← bump;
  name ← expect_name KPAR010;
  colon ← eat Colon;
  ty ← (if colon : bool then
          mode ← parse_ownership_prefix; ty ← parse_type_ref_statement_final self; mret (mode.1, mode.2, Some ty)
        else mret (Owned, None, None));
  equals ← eat Equals;
  init ← (if equals : bool then self_expr self
          else u ← current; _ ← error (token_span u) KPAR011; mret (Expr_Error (token_span u)));
  last_ ← previous_end;
  mret (Stmt_Let name.1 name.2 mutable ty.2 ty.1.1 ty.1.2 init (from_bounds (start (token_span t)) last_)).

Definition starts_expression : M bool :=
  k ← current_kind;
  k1 ← peek_kind 1;
  closure ← at_closure_start;
  mret match k with
       | IntLiteral | FloatLiteral | StringLiteral | True_ | False_ | Infinity | Identifier | LParen | Try_ | Match_ | Minus | Bang
       | Tilde | LBracket => true
       | Dot => bool_decide (k1 = Identifier)
       | LBrace => closure
       | _ => false
       end.

Definition parse_return : M Stmt :=
  t ← current;
  _ ← bump;
  b ← starts_expression;
  value ← (if b : bool then e ← self_expr self; mret (Some e) else mret None);
  last_ ← previous_end;
  mret (Stmt_Return value (from_bounds (start (token_span t)) last_)).

(** [else if] goes round. *)
Fixpoint if_loop (fuel : nat) : M Stmt :=
  match fuel with
  | O => st_fail OutOfFuel
  | S fuel =>
    t ← current;
    _ ← bump;
    cond ← without_struct_literals (self_expr self);
    then_block ← parse_block self;
    else_ ← eat Else_;
    if_ ← at_kind If_;
    else_block ← (if negb else_ then mret None
                  else if if_ : bool then
                    inner ← if_loop fuel; mret (Some {| block_stmts := [inner]; block_span := stmt_span inner |})
                  else block ← parse_block self; mret (Some block));
    last_ ← previous_end;
    mret (Stmt_If cond then_block else_block (from_bounds (start (token_span t)) last_))
  end.

Definition parse_if : M Stmt := n ← turns; if_loop n.

Definition parse_while : M Stmt :=
  t ← current;
  _ ← bump;
  cond ← without_struct_literals (self_expr self);
  body ← parse_block self;
  last_ ← previous_end;
  mret (Stmt_While cond body (from_bounds (start (token_span t)) last_)).

Definition parse_iterable : M (ForIterable Expr) :=
  first_ ← self_expr self;
  range ← eat DotDot;
  if range : bool then end_ ← self_expr self; mret (Iterable_Range first_ end_) else mret (Iterable_Each first_).

Definition parse_for : M Stmt :=
  t ← current;
  _ ← bump;
  name ← expect_name KPAR012;
  _ ← expect In_;
  iterable ← without_struct_literals parse_iterable;
  body ← parse_block self;
  last_ ← previous_end;
  mret (Stmt_For name.1 name.2 iterable body (from_bounds (start (token_span t)) last_)).

Definition parse_break : M Stmt := t ← current; _ ← bump; mret (Stmt_Break (token_span t)).
Definition parse_continue : M Stmt := t ← current; _ ← bump; mret (Stmt_Continue (token_span t)).

Definition parse_stmt : M (option Stmt) :=
  k ← current_kind;
  s ← match k with
      | Let_ => parse_let false
      | Var => parse_let true
      | Return_ => parse_return
      | If_ => parse_if
      | While_ => parse_while
      | For_ => parse_for
      | Break_ => parse_break
      | Continue_ => parse_continue
      | Match_ => parse_match
      | Attempt => parse_attempt
      | _ => parse_expr_or_assign
      end;
  mret (Some s).
End parse.
