(* ===== verification/ParserExpr.v ===== *)
(** * The expression parser

    [expr.rs] and the calls of [expr/calls.rs] of [kira-parser]; [knot] ties the
    functions of the parser to each other, [n] calls deep. *)

From Stdlib Require Import Strings.String.
From stdpp Require Import list.
From S2P Require Import Prelude.
From S2P Require Import Foreign.
From S2P Require Import VmText.
From S2P Require Import Source.
From S2P Require Import Lexer.
From S2P Require Import Syntax.
From S2P Require Import Parser.
From S2P Require Import ParserBlocks.
From S2P Require Import ParserStmts.

(** Up to the brace that closes the current block. *)
Fixpoint close_brace_loop (fuel depth : nat) : M unit :=
  match fuel with
  | O => st_fail OutOfFuel
  | S fuel =>
    k ← current_kind;
    match k, depth with
    | Eof_, _ | RBrace, O => mret tt
    | RBrace, S depth => _ ← bump; close_brace_loop fuel depth
    | LBrace, _ => _ ← bump; close_brace_loop fuel (S depth)
    | _, _ => _ ← bump; close_brace_loop fuel depth
    end
  end.
Definition skip_to_close_brace : M unit := n ← turns; close_brace_loop n 0.

Section parse.
Variable self : Self.

(** ** Primaries *)

Definition parse_task_spawn (name_span : Span) : M Expr :=
  open ← current;
  _ ← bump;
  r ← at_kind RBrace;
  body ← (if r : bool then _ ← error (token_span open) KPAR060; mret (Expr_Error (token_span open)) else self_expr self);
  _ ← skip_unknown;
  r ← at_kind RBrace;
  e ← at_eof;
  _ ← (if negb r && negb e then t ← current; _ ← error (token_span t) KPAR060; skip_to_close_brace else mret tt);
  _ ← expect RBrace;
  last_ ← previous_end;
  mret (Expr_TaskSpawn body (from_bounds (start name_span) last_)).

Definition parse_name_or_call (name_span : Span) : M Expr := fun p =>
  (name ← text_of name_span;
   _ ← bump;
   brace ← at_kind LBrace;
   if bool_decide (name = spelled "Task") && brace then parse_task_spawn name_span
   else
     lt ← at_kind Lt_;
     generic ← at_explicit_call_type_args;
     type_args ← (if (bool_decide (name = spelled "nativeRecover") && lt) || generic then parse_call_type_args self else mret []);
     paren ← at_kind LParen;
     if paren : bool then
       args ← parse_call_args self;
       last_ ← previous_end;
       mret (Expr_Call name name_span false type_args args [] None (from_bounds (start name_span) last_))
     else
       bare ← at_bare_construct_block;
       content ← at_content_block;
       brace ← at_kind LBrace;
       closure ← at_closure_start;
       if (bare || content) : bool then
        made ← parse_deferred_brace self [];
        last_ ← previous_end;
        mret (Expr_Call name name_span true type_args made.1 (db_children made.2) (db_closure made.2) (from_bounds (start name_span) last_))
       else if brace && negb (no_struct_literal p) && negb closure then parse_struct_literal self name name_span
       else mret (Expr_Name name name_span)) p.

Definition parse_dot_member (dot_span : Span) : M Expr :=
  _ ← bump;
  t ← current;
  name ← text_of (token_span t);
  _ ← bump;
  paren ← at_kind LParen;
  args ← (if paren : bool then args ← parse_positional_call_args self; mret (Some args) else mret None);
  last_ ← previous_end;
  mret (Expr_DotMember name (token_span t) args (from_bounds (start dot_span) last_)).

Definition parse_primary : M Expr :=
  t ← current;
  let s := token_span t in
  closure ← at_closure_start;
  k1 ← peek_kind 1;
  if closure : bool then parse_closure self
  else
    match kind t with
    | IntLiteral => parse_int s
    | FloatLiteral => parse_float s
    | StringLiteral => parse_string_literal s
    | True_ => _ ← bump; mret (Expr_Bool true s)
    | False_ => _ ← bump; mret (Expr_Bool false s)
    | Infinity => _ ← bump; mret (Expr_Float POSITIVE_INFINITY s)
    | Identifier => parse_name_or_call s
    | Match_ => parse_match_expression self
    | LParen => parse_paren self
    | LBracket => parse_array_literal self
    | k =>
      if bool_decide (k = Dot) && bool_decide (k1 = Identifier) then parse_dot_member s
      else _ ← error s KPAR020; _ ← bump; mret (Expr_Error s)
    end.

(** ** Postfixes *)

Fixpoint name_path_text (base : Expr) : M (option rstring) :=
  match base with
  | Expr_Name _ s => t ← text_of s; mret (Some t)
  | Expr_Field base _ field_span _ =>
    prefix ← name_path_text base;
    match prefix with
    | Some prefix => t ← text_of field_span; mret (Some (prefix ++ [POINT] ++ t))
    | None => mret None
    end
  | _ => mret None
  end.

(** [Err] ends the postfix chain with an error node. *)
Definition parse_dot_postfix (base : Expr) : M (result Expr Expr) := fun p =>
  (_ ← bump;
   t ← current;
   let field_span := token_span t in
   if decide (kind t <> Identifier /\ kind t <> Type__ /\ kind t <> IntLiteral /\ kind t <> FloatLiteral) then
     _ ← error field_span KPAR022; mret (Err (Expr_Error field_span))
   else
     field ← text_of field_span;
     _ ← bump;
     let base_span := expr_span base in
     paren ← at_kind LParen;
     if paren : bool then
       args ← parse_call_args self;
       last_ ← previous_end;
       mret (Ok (Expr_MethodCall base field field_span args [] (from_bounds (start base_span) last_)))
     else
       brace ← at_kind LBrace;
       closure ← at_closure_start;
       prefix ← (if brace && negb (no_struct_literal p) && negb closure then name_path_text base else mret None);
       trailing ← at_trailing_block;
       let literal := match prefix with Some w => bool_decide (w <> spelled "MainThread") | None => false end in
       let name_span := from_bounds (start base_span) (end_of field_span) in
       if literal : bool then
         e ← parse_struct_literal self (default [] prefix ++ [POINT] ++ field) name_span; mret (Ok e)
       else if trailing : bool then mret (Ok (Expr_MethodCall base field field_span [] [] name_span))
       else mret (Ok (Expr_Field base field field_span name_span))) p.

Fixpoint postfix_loop (fuel : nat) (base : Expr) : M Expr :=
  match fuel with
  | O => st_fail OutOfFuel
  | S fuel => fun p =>
    (dot ← at_kind Dot;
     if dot : bool then
       r ← parse_dot_postfix base;
       match r with Ok next => postfix_loop fuel next | Err e => mret e end
     else
       bracket ← at_kind LBracket;
       if bracket : bool then
         _ ← bump;
         index ← with_struct_literals (self_expr self);
         _ ← expect RBracket;
         last_ ← previous_end;
         postfix_loop fuel (Expr_Index base index (from_bounds (start (expr_span base)) last_))
       else
         closure ← at_closure_start;
         if negb (no_struct_literal p) && closure then next ← attach_trailing_closure self base; postfix_loop fuel next
         else
           trailing ← at_trailing_block;
           attached ← (if trailing : bool then attach_content_block self base else mret None);
           match attached with
           | Some next => postfix_loop fuel next
           | None =>
             fill ← at_named_fill;
             fillable ← at_fillable_construction base;
             if fill && fillable then next ← attach_named_fills self base; postfix_loop fuel next else mret base
           end) p
  end.

Definition parse_postfix (base : Expr) : M Expr := n ← turns; postfix_loop n base.

(** ** Operators *)

Definition parse_unary : M Expr :=
  try_ ← at_kind Try_;
  if try_ : bool then
    t ← current;
    _ ← bump;
    value ← parse_try_operand self;
    mret (Expr_Try value (from_bounds (start (token_span t)) (end_of (expr_span value))))
  else
    o ← ownership_op_here;
    t ← current;
    match o with
    | Some op =>
      _ ← bump;
      operand ← parse_unary_nested self;
      mret (Expr_Ownership op operand (from_bounds (start (token_span t)) (end_of (expr_span operand))))
    | None =>
      match unary_op (kind t) with
      | Some op =>
        _ ← bump;
        operand ← parse_unary_nested self;
        mret (Expr_Unary op operand (from_bounds (start (token_span t)) (end_of (expr_span operand))))
      | None => primary ← parse_primary; parse_postfix primary
      end
    end.

Fixpoint binary_loop (fuel : nat) (min_bp : nat) (lhs : Expr) : M Expr :=
  match fuel with
  | O => st_fail OutOfFuel
  | S fuel =>
    k ← current_kind;
    if decide ((k = Is_ \/ k = As_) /\ (min_bp < TYPE_OPERATOR_BP)%nat) then
      _ ← bump;
      ty ← parse_type_ref self;
      last_ ← previous_end;
      let s := from_bounds (start (expr_span lhs)) last_ in
      binary_loop fuel min_bp (if decide (k = Is_) then Expr_TypeTest lhs ty s else Expr_TypeCast lhs ty s)
    else
      match binary_op k with
      | None => mret lhs
      | Some (op, bp) =>
        if (bp <=? min_bp)%nat then mret lhs
        else
          _ ← bump;
          rhs ← self_binary self bp;
          binary_loop fuel min_bp (Expr_Binary op lhs rhs (from_bounds (start (expr_span lhs)) (end_of (expr_span rhs))))
      end
  end.

Definition parse_binary (min_bp : nat) : M Expr := lhs ← parse_unary; n ← turns; binary_loop n min_bp lhs.

Definition parse_expr_descend : M Expr :=
  cond ← parse_binary 0;
  q ← at_kind Question;
  if negb q then mret cond
  else
    _ ← bump;
    then_ ← self_expr self;
    _ ← expect Colon;
    otherwise ← self_expr self;
    mret (Expr_Conditional cond then_ otherwise (from_bounds (start (expr_span cond)) (end_of (expr_span otherwise)))).

Definition parse_expr : M Expr := nested parse_expr_descend.
End parse.

Definition tie (self : Self) : Self :=
  {| self_expr := parse_expr self; self_binary := parse_binary self; self_unary := parse_unary self;
     self_type := parse_type_ref self; self_stmt := parse_stmt self; self_item := parse_content_item self;
     self_fill := parse_fill_value self |}.

Fixpoint knot (n : nat) : Self :=
  match n with
  | O => {| self_expr := st_fail OutOfFuel; self_binary _ := st_fail OutOfFuel; self_unary := st_fail OutOfFuel;
            self_type := st_fail OutOfFuel; self_stmt := st_fail OutOfFuel; self_item := st_fail OutOfFuel;
            self_fill := st_fail OutOfFuel |}
  | S n => tie (knot n)
  end.

(** An expression at the start of a text. *)
Definition parse_text (n : nat) (source_ : Z) (text_ : rstring) : Parser * result Stop Expr :=
  parse_expr (knot n) (parser_new text_ (lr_tokens (lex source_ text_))).

(** A block at the start of a text. *)
Definition block_text (n : nat) (source_ : Z) (text_ : rstring) : Parser * result Stop (Block Stmt) :=
  parse_block (knot n) (parser_new text_ (lr_tokens (lex source_ text_))).
