(* ===== verification/ParserPrint.v ===== *)
(** * Writing an expression

    The spelling of a tree as tokens, with parentheses only where the precedence
    needs them ([body], [wrap]), and the proof that [parse_expr] reads it back.

    One more pair is needed than the precedence asks for: where the left operand of
    [<] ends in a name, since a name, a [<] and what follows may look like type
    arguments ([at_explicit_call_type_args]). *)

From Stdlib Require Import Strings.String.
From stdpp Require Import list.
From S2P Require Import Prelude.
From S2P Require Import Foreign.
From S2P Require Import DecimalNumber.
From S2P Require Import VmText.
From S2P Require Import Source.
From S2P Require Import Lexer.
From S2P Require Import LexerScan.
From S2P Require Import LexerText.
From S2P Require Import LexerStrings.
From S2P Require Import LexerChars.
From S2P Require Import Syntax.
From S2P Require Import Parser.
From S2P Require Import ParserBlocks.
From S2P Require Import ParserExpr.

(** ** Spelling *)

Definition no_span : Span := {| start := 0; len := 0 |}.

(** A type without its spans. *)
Fixpoint strip_type (ty : TypeRef) : TypeRef :=
  match ty with
  | TypeRef_Named w _ => TypeRef_Named w no_span
  | TypeRef_SomeConstruct w _ _ => TypeRef_SomeConstruct w no_span no_span
  | TypeRef_Generic w _ ts _ => TypeRef_Generic w no_span (map strip_type ts) no_span
  | TypeRef_Tuple ts _ => TypeRef_Tuple (map strip_type ts) no_span
  | TypeRef_Array t _ => TypeRef_Array (strip_type t) no_span
  | TypeRef_Function ts ms t _ => TypeRef_Function (map strip_type ts) ms (strip_type t) no_span
  | TypeRef_Error _ => TypeRef_Error no_span
  end.

(** A tree without its spans; what has no spelling below keeps them. *)
Fixpoint strip (e : Expr) : Expr :=
  let arg (a : CallArg Expr) : CallArg Expr :=
    match a with Build_CallArg _ l v _ => Build_CallArg _ ((fun x => (x.1, no_span)) <$> l) (strip v) no_span end in
  match e with
  | Expr_Int v _ => Expr_Int v no_span
  | Expr_Float v _ => Expr_Float v no_span
  | Expr_Bool v _ => Expr_Bool v no_span
  | Expr_Str v _ => Expr_Str v no_span
  | Expr_Name w _ => Expr_Name w no_span
  | Expr_Unary op x _ => Expr_Unary op (strip x) no_span
  | Expr_Binary op l r _ => Expr_Binary op (strip l) (strip r) no_span
  | Expr_Tuple es _ => Expr_Tuple (map strip es) no_span
  | Expr_Conditional c a b _ => Expr_Conditional (strip c) (strip a) (strip b) no_span
  | Expr_TypeTest x t _ => Expr_TypeTest (strip x) (strip_type t) no_span
  | Expr_TypeCast x t _ => Expr_TypeCast (strip x) (strip_type t) no_span
  | Expr_Call w _ braced ts args cs tc _ => Expr_Call w no_span braced (map strip_type ts) (map arg args) (map strip cs) tc no_span
  | Expr_StructLit w _ fs _ =>
    Expr_StructLit w no_span (map (fun f => match f with Build_FieldInit _ n _ v _ => Build_FieldInit _ n no_span (strip v) no_span end) fs) no_span
  | Expr_MethodCall x w _ args cs _ => Expr_MethodCall (strip x) w no_span (map arg args) (map strip cs) no_span
  | Expr_Field x w _ _ => Expr_Field (strip x) w no_span no_span
  | Expr_ArrayLit es _ => Expr_ArrayLit (map strip es) no_span
  | Expr_Index x i _ => Expr_Index (strip x) (strip i) no_span
  | Expr_DotMember w _ args _ => Expr_DotMember w no_span (map strip <$> args) no_span
  | Expr_Try x _ => Expr_Try (strip x) no_span
  | Expr_Ownership op x _ => Expr_Ownership op (strip x) no_span
  | Expr_Error _ => Expr_Error no_span
  | _ => e
  end.

Abbreviation Spelled := (TokenKind * rstring)%type (only parsing).

Definition binary_token (op : BinaryOp) : Spelled :=
  match op with
  | Op_Or => (PipePipe, spelled "||") | Op_And => (AmpAmp, spelled "&&") | Op_BitOr => (Pipe, spelled "|")
  | Op_BitXor => (Caret, spelled "^") | Op_BitAnd => (Amp, spelled "&") | Op_Eq => (EqEq, spelled "==")
  | Op_Ne => (BangEq, spelled "!=") | Op_Lt => (Lt_, spelled "<") | Op_Le => (LtEq, spelled "<=")
  | Op_Gt => (Gt_, spelled ">") | Op_Ge => (GtEq, spelled ">=") | Op_Shl => (LtLt, spelled "<<")
  | Op_Shr => (GtGt, spelled ">>") | Op_Add => (Plus, spelled "+") | Op_Sub => (Minus, spelled "-")
  | Op_Mul => (Star, spelled "*") | Op_Div => (Slash, spelled "/") | Op_Rem => (Percent, spelled "%")
  end.

(** The precedence of the language's reference: the higher binds tighter. *)
Definition power (op : BinaryOp) : nat :=
  match op with
  | Op_Or => 1 | Op_And => 2 | Op_BitOr => 3 | Op_BitXor => 4 | Op_BitAnd => 5 | Op_Eq | Op_Ne => 6
  | Op_Lt | Op_Le | Op_Gt | Op_Ge => 7 | Op_Shl | Op_Shr => 9 | Op_Add | Op_Sub => 10 | Op_Mul | Op_Div | Op_Rem => 11
  end.

Definition unary_token (op : UnaryOp) : Spelled :=
  match op with Op_Neg => (Minus, spelled "-") | Op_Not => (Bang, spelled "!") | Op_BitNot => (Tilde, spelled "~") end.

Definition PREFIX : nat := 12.
Definition POSTFIX : nat := 13.

(** How tight a tree binds: where something tighter is asked for it is put in
    parentheses. *)
Definition level (e : Expr) : nat :=
  match e with
  | Expr_Conditional _ _ _ _ => 0
  | Expr_Binary op _ _ _ => power op
  | Expr_Try _ _ => 7
  | Expr_Unary _ _ _ => PREFIX
  | _ => POSTFIX
  end.

(** Whether the spelling of a tree ends in a name that stands alone. *)
Fixpoint ends_name (e : Expr) : bool :=
  match e with
  | Expr_Name _ _ => true
  | Expr_Unary _ x _ => negb (level x <? PREFIX)%nat && ends_name x
  | Expr_Binary op _ r _ => negb (level r <? S (power op))%nat && ends_name r
  | Expr_Try x _ => negb (level x <? 8)%nat && ends_name x
  | Expr_Conditional _ _ b _ => ends_name b
  | _ => false
  end.

Definition left_level (op : BinaryOp) (l : Expr) : nat :=
  if bool_decide (op = Op_Lt) && ends_name l then S POSTFIX else power op.

Definition wrap (c : nat) (e : Expr) (pieces : list Spelled) : list Spelled :=
  if (level e <? c)%nat then (LParen, spelled "(") :: pieces ++ [(RParen, spelled ")")] else pieces.

(** Pieces with commas between them. *)
Fixpoint commas (ls : list (list Spelled)) : list Spelled :=
  match ls with [] => [] | [l] => l | l :: ls => l ++ (Comma, spelled ",") :: commas ls end.

Fixpoint body (e : Expr) : list Spelled :=
  let arg (a : CallArg Expr) :=
    match a with Build_CallArg _ l v _ =>
      match l with Some x => [(Identifier, x.1); (Colon, spelled ":")] | None => [] end ++ body v
    end in
  match e with
  | Expr_Int v _ => [(IntLiteral, i64_to_string v)]
  | Expr_Bool v _ => [if v then (True_, spelled "true") else (False_, spelled "false")]
  | Expr_Str v _ => [(StringLiteral, string_literal v)]
  | Expr_Name w _ => [(Identifier, w)]
  | Expr_Unary op x _ => unary_token op :: wrap PREFIX x (body x)
  | Expr_Binary op l r _ => wrap (left_level op l) l (body l) ++ binary_token op :: wrap (S (power op)) r (body r)
  | Expr_Tuple es _ => (LParen, spelled "(") :: commas (map body es) ++ [(RParen, spelled ")")]
  | Expr_Conditional c a b _ =>
    wrap 1 c (body c) ++ (Question, spelled "?") :: body a ++ (Colon, spelled ":") :: body b
  | Expr_Call w _ _ _ args _ _ _ => (Identifier, w) :: (LParen, spelled "(") :: commas (map arg args) ++ [(RParen, spelled ")")]
  | Expr_MethodCall x w _ args _ _ =>
    wrap POSTFIX x (body x) ++ (Dot, spelled ".") :: (Identifier, w) :: (LParen, spelled "(") ::
      commas (map arg args) ++ [(RParen, spelled ")")]
  | Expr_Field x w _ _ => wrap POSTFIX x (body x) ++ [(Dot, spelled "."); (Identifier, w)]
  | Expr_ArrayLit es _ => (LBracket, spelled "[") :: commas (map body es) ++ [(RBracket, spelled "]")]
  | Expr_Index x i _ => wrap POSTFIX x (body x) ++ (LBracket, spelled "[") :: body i ++ [(RBracket, spelled "]")]
  | Expr_Try x _ => (Try_, spelled "try") :: wrap 8 x (body x)
  | _ => []
  end.

(** The levels of nesting a spelling takes beyond the one it is read at. *)
Fixpoint depth (e : Expr) : nat :=
  let sub (c : nat) (x : Expr) : nat := if (level x <? c)%nat then S (depth x) else depth x in
  let arg (a : CallArg Expr) := match a with Build_CallArg _ _ v _ => S (depth v) end in
  match e with
  | Expr_Unary _ x _ => S (sub PREFIX x)
  | Expr_Binary op l r _ => Nat.max (sub (left_level op l) l) (sub (S (power op)) r)
  | Expr_Tuple es _ | Expr_ArrayLit es _ => max_list (map (fun x => S (depth x)) es)
  | Expr_Conditional c a b _ => Nat.max (sub 1%nat c) (Nat.max (S (depth a)) (S (depth b)))
  | Expr_Call _ _ _ _ args _ _ _ => max_list (map arg args)
  | Expr_MethodCall x _ _ args _ _ => Nat.max (sub POSTFIX x) (max_list (map arg args))
  | Expr_Field x _ _ _ => sub POSTFIX x
  | Expr_Index x i _ => Nat.max (sub POSTFIX x) (S (depth i))
  | Expr_Try x _ => S (sub 8%nat x)
  | _ => 0%nat
  end.

Fixpoint size (e : Expr) : nat :=
  let arg (a : CallArg Expr) := match a with Build_CallArg _ _ v _ => size v end in
  match e with
  | Expr_Unary _ x _ | Expr_Field x _ _ _ | Expr_Try x _ => S (size x)
  | Expr_Binary _ l r _ | Expr_Index l r _ => S (size l + size r)
  | Expr_Tuple es _ | Expr_ArrayLit es _ => S (sum_list (map size es))
  | Expr_Conditional c a b _ => S (size c + size a + size b)
  | Expr_Call _ _ _ _ args _ _ _ => S (sum_list (map arg args))
  | Expr_MethodCall x _ _ args _ _ => S (size x + sum_list (map arg args))
  | _ => 1%nat
  end.

(** A name that is not read as an ownership operator. *)
Definition name_ok (w : rstring) : Prop := lexeme Identifier w /\ w <> spelled "move" /\ w <> spelled "copy".

(** The trees with a spelling. *)
Fixpoint printable (e : Expr) : Prop :=
  let arg (a : CallArg Expr) :=
    match a with Build_CallArg _ l v _ => match l with Some x => name_ok x.1 | None => True end /\ printable v end in
  match e with
  | Expr_Int v _ => 0 <= v < 2 ^ 63
  | Expr_Bool _ _ | Expr_Str _ _ => True
  | Expr_Name w _ => name_ok w
  | Expr_Unary _ x _ | Expr_Try x _ => printable x
  | Expr_Field x w _ _ => printable x /\ name_ok w
  | Expr_Binary _ l r _ | Expr_Index l r _ => printable l /\ printable r
  | Expr_Tuple es _ => (2 <= length es <= 4)%nat /\ foldr and True (map printable es)
  | Expr_ArrayLit es _ => foldr and True (map printable es)
  | Expr_Conditional c a b _ => printable c /\ printable a /\ printable b
  | Expr_Call w _ braced ts args cs tc _ => (braced = false /\ ts = [] /\ cs = [] /\ tc = None) /\ name_ok w /\ foldr and True (map arg args)
  | Expr_MethodCall x w _ args cs _ => cs = [] /\ printable x /\ name_ok w /\ foldr and True (map arg args)
  | _ => False
  end.

(** ** Running the parser on known tokens *)

Definition upcoming (p : Parser) : list Token := drop (p_pos p) (p_tokens p).
Definition advanced (n : nat) (p : Parser) : Parser := with_cursor (p_pos p + n) p.

(** A token spelled so. *)
Definition spells (text_ : rstring) (t : Token) (s : Spelled) : Prop := kind t = s.1 /\ slice (token_span t) text_ = Some s.2.

(** The parser before tokens spelled so, with others after them, and with nesting to
    spare. *)
Record reading (p : Parser) (ts rest : list Token) (pieces : list Spelled) (d : nat) : Prop := {
  reading_tokens : upcoming p = ts ++ rest;
  reading_rest : rest <> [];
  reading_spelled : Forall2 (spells (p_text p)) ts pieces;
  reading_depth : (nesting p + d <= MAX_NESTING_DEPTH)%nat
}.

Lemma bind_eq {A B} (m : M A) (k : A -> M B) p q a : m p = (q, Ok a) -> (m ≫= k) p = k a q.
Proof. intros H. unfold mbind, st_bind. by rewrite H. Qed.

(** The next call is known: its answer in place of it. *)
Ltac known := solve [eassumption | reflexivity | congruence | done | simpl in *; congruence].
Tactic Notation "run" uconstr(l) := (erewrite bind_eq; [|eapply l; known]); cbv beta iota zeta delta [negb].

Lemma advanced_zero p : advanced 0 p = p.
Proof. unfold advanced, with_cursor. destruct p. cbn. by rewrite Nat.add_0_r. Qed.

Lemma advanced_advanced m n p : advanced m (advanced n p) = advanced (n + m) p.
Proof. unfold advanced, with_cursor. cbn. by rewrite Nat.add_assoc. Qed.

Lemma upcoming_advanced p ts rest : upcoming p = ts ++ rest -> upcoming (advanced (length ts) p) = rest.
Proof. unfold upcoming. cbn. intros H. by rewrite <- drop_drop, H, drop_app_length. Qed.

Lemma upcoming_inside p t l : upcoming p = t :: l -> (p_pos p < length (p_tokens p))%nat /\ length (p_tokens p) = (p_pos p + S (length l))%nat.
Proof.
  unfold upcoming. intros H. assert (length (drop (p_pos p) (p_tokens p)) = S (length l)) as Hl by by rewrite H.
  rewrite length_drop in Hl. lia.
Qed.

Lemma peek_upcoming p i t : upcoming p !! i = Some t -> peek_token i p = (p, Ok t).
Proof.
  unfold upcoming. rewrite lookup_drop. intros H. pose proof (lookup_lt_Some _ _ _ H) as Hlt.
  unfold peek_token. rewrite Nat.min_l by lia. by rewrite H.
Qed.

Lemma peek_clamped p t l i : upcoming p = t :: l -> exists u, peek_token i p = (p, Ok u).
Proof.
  intros H. destruct (upcoming_inside p t l H) as [Hin _]. unfold peek_token.
  destruct (lookup_lt_is_Some_2 (p_tokens p) (Nat.min (p_pos p + i) (length (p_tokens p) - 1))) as [u ->]; [lia|by exists u].
Qed.

Lemma current_upcoming p t l : upcoming p = t :: l -> current p = (p, Ok t).
Proof. intros H. apply peek_upcoming. by rewrite H. Qed.

Lemma peek_kind_clamped p t l i : upcoming p = t :: l -> exists k, peek_kind i p = (p, Ok k).
Proof. intros H. destruct (peek_clamped p t l i H) as [u Hu]. exists (kind u). unfold peek_kind. by erewrite bind_eq. Qed.

Lemma current_kind_upcoming p t l : upcoming p = t :: l -> current_kind p = (p, Ok (kind t)).
Proof. intros H. unfold current_kind. run current_upcoming. done. Qed.

Lemma at_kind_yes p t l k : upcoming p = t :: l -> kind t = k -> at_kind k p = (p, Ok true).
Proof. intros H <-. unfold at_kind. run current_kind_upcoming. by rewrite bool_decide_true. Qed.

Lemma at_kind_no p t l k : upcoming p = t :: l -> kind t <> k -> at_kind k p = (p, Ok false).
Proof. intros H Hk. unfold at_kind. run current_kind_upcoming. by rewrite bool_decide_false. Qed.

Lemma bump_upcoming p t l : upcoming p = t :: l -> l <> [] -> bump p = (advanced 1 p, Ok t).
Proof.
  intros H Hl. destruct (upcoming_inside p t l H) as [_ Hlen]. unfold bump. run current_upcoming.
  unfold step_cursor. unfold mbind, st_bind. destruct l as [|u l]; [done|]. cbn in Hlen.
  destruct (Nat.ltb_spec (p_pos p + 1) (length (p_tokens p))); [done|lia].
Qed.

Lemma text_of_ok p s w : slice s (p_text p) = Some w -> text_of s p = (p, Ok w).
Proof. unfold text_of. by intros ->. Qed.

Lemma previous_end_ok p t l : upcoming p = t :: l -> exists z, previous_end p = (p, Ok z).
Proof.
  intros H. destruct (upcoming_inside p t l H) as [Hin _]. unfold previous_end. destruct (p_pos p) as [|n]; [by exists 0|].
  destruct (lookup_lt_is_Some_2 (p_tokens p) n) as [u ->]; [lia|]. by eexists.
Qed.

Lemma previous_kind_ok p t l : upcoming p = t :: l -> exists k, previous_kind p = (p, Ok k).
Proof.
  intros H. destruct (upcoming_inside p t l H) as [Hin _]. unfold previous_kind. destruct (p_pos p) as [|n]; [by eexists|].
  destruct (lookup_lt_is_Some_2 (p_tokens p) n) as [u ->]; [lia|]. by eexists.
Qed.

Lemma eat_yes p t l k : upcoming p = t :: l -> l <> [] -> kind t = k -> eat k p = (advanced 1 p, Ok true).
Proof. intros H Hl Hk. unfold eat. run at_kind_yes. run bump_upcoming. done. Qed.

Lemma eat_no p t l k : upcoming p = t :: l -> kind t <> k -> eat k p = (p, Ok false).
Proof. intros H Hk. unfold eat. run at_kind_no. done. Qed.

Lemma expect_yes p t l k : upcoming p = t :: l -> l <> [] -> kind t = k -> expect k p = (advanced 1 p, Ok true).
Proof. intros H Hl Hk. unfold expect. run eat_yes. done. Qed.

Lemma closure_start_no p t l : upcoming p = t :: l -> kind t <> LBrace -> at_closure_start p = (p, Ok false).
Proof.
  intros H Hk. unfold at_closure_start, at_closure_brace, at_malformed_closure_brace.
  erewrite bind_eq; [|run at_kind_no; done]. cbv iota.
  run at_kind_no. destruct (peek_kind_clamped p t l 1 H) as [k Hp]. by erewrite bind_eq.
Qed.

Lemma trailing_block_no p t l : upcoming p = t :: l -> kind t <> LBrace -> at_trailing_block p = (p, Ok false).
Proof. intros H Hk. unfold at_trailing_block. run at_kind_no. run closure_start_no. done. Qed.

Lemma bare_block_no p t l : upcoming p = t :: l -> kind t <> LBrace -> at_bare_construct_block p = (p, Ok false).
Proof. intros H Hk. unfold at_bare_construct_block. run at_kind_no. run closure_start_no. done. Qed.

Lemma content_block_no p t l : upcoming p = t :: l -> kind t <> LBrace -> at_content_block p = (p, Ok false).
Proof. intros H Hk. unfold at_content_block. run at_kind_no. run closure_start_no. done. Qed.

Lemma named_fill_no p t l : upcoming p = t :: l -> kind t <> Identifier -> at_named_fill p = (p, Ok false).
Proof.
  intros H Hk. unfold at_named_fill. run at_kind_no. destruct (peek_kind_clamped p t l 1 H) as [k Hp].
  erewrite bind_eq by done; cbv beta iota zeta. by rewrite Bool.andb_false_r.
Qed.

Lemma fillable_ok p t l e : upcoming p = t :: l -> exists b, at_fillable_construction e p = (p, Ok b).
Proof. intros H. destruct (previous_kind_ok p t l H) as [k Hp]. unfold at_fillable_construction. erewrite bind_eq by done; cbv beta iota zeta. by eexists. Qed.

Lemma type_args_no p t l : upcoming p = t :: l -> kind t <> Lt_ -> at_explicit_call_type_args p = (p, Ok false).
Proof. intros H Hk. unfold at_explicit_call_type_args. run at_kind_no. done. Qed.

Lemma peek_is_word_no p t l word : upcoming p = t :: l -> kind t <> Identifier \/ (exists w, slice (token_span t) (p_text p) = Some w /\ w <> word) ->
  peek_is_word 0 word p = (p, Ok false).
Proof.
  intros H Hw. unfold peek_is_word. run current_upcoming. case_decide as Hk; [|done].
  destruct Hw as [|(w & Hs & Hne)]; [done|]. run text_of_ok. by rewrite bool_decide_false.
Qed.

Lemma ownership_no p t l : upcoming p = t :: l ->
  kind t <> Identifier \/ (exists w, slice (token_span t) (p_text p) = Some w /\ w <> spelled "move" /\ w <> spelled "copy") ->
  ownership_op_here p = (p, Ok None).
Proof.
  intros H Hw. unfold ownership_op_here.
  erewrite bind_eq; [|eapply peek_is_word_no; [done|]; destruct Hw as [|(w & ? & ? & ?)]; [by left|right; by exists w]].
  erewrite bind_eq; [|eapply peek_is_word_no; [done|]; destruct Hw as [|(w & ? & ? & ?)]; [by left|right; by exists w]].
  destruct (peek_kind_clamped p t l 1 H) as [k Hp]. erewrite bind_eq by done; cbv beta iota zeta. by destruct (starts_operand k).
Qed.

Lemma reading_app p ts rest a b d : reading p ts rest (a ++ b) d -> exists ts1 ts2,
  ts = ts1 ++ ts2 /\ reading p ts1 (ts2 ++ rest) a d /\ reading (advanced (length ts1) p) ts2 rest b d.
Proof.
  intros [Hup Hrest (ts1 & ts2 & Ha & Hb & ->)%Forall2_app_inv_r Hd]. exists ts1, ts2. split; [done|]. rewrite <- app_assoc in Hup.
  split; constructor; try done; [by destruct ts2|by apply upcoming_advanced].
Qed.

Lemma reading_cons p ts rest s b d : reading p ts rest (s :: b) d -> exists t ts',
  ts = t :: ts' /\ kind t = s.1 /\ slice (token_span t) (p_text p) = Some s.2 /\ upcoming p = t :: ts' ++ rest /\
  ts' ++ rest <> [] /\ reading (advanced 1 p) ts' rest b d.
Proof.
  intros [Hup Hrest Hsp Hd]. inversion Hsp as [|t ? ts' ? [Hk Hs] Hsp' Hts]; subst. exists t, ts'.
  split_and!; try done; [by destruct ts'|]. constructor; try done. by apply (upcoming_advanced p [t]).
Qed.

Lemma reading_nil p ts rest d : reading p ts rest [] d -> ts = [] /\ upcoming p = rest /\ rest <> [].
Proof. intros [Hup Hrest Hsp _]. inversion Hsp; subst. done. Qed.

Lemma reading_less p ts rest a d d' : reading p ts rest a d -> (d' <= d)%nat -> reading p ts rest a d'.
Proof. intros [? ? ? ?] Hd. constructor; try done. lia. Qed.

(** ** What may follow a spelling *)

Definition head_kind (ts : list Token) : TokenKind := match ts with t :: _ => kind t | [] => Eof_ end.

(** After a tree that was asked for at level [c]. *)
Definition stops (c : nat) (k : TokenKind) : bool :=
  match binary_op k with
  | Some (_, bp) => (bp <=? c)%nat
  | None => match k with Colon | Comma | RParen | RBracket | Eof_ => true | Question => (0 <? c)%nat | _ => false end
  end.

Definition follows (c : nat) (e : Expr) (k : TokenKind) : Prop := stops c k = true /\ (ends_name e = true -> k <> Lt_).

(** After a tree a postfix may still be put on. *)
Definition chains (e : Expr) (k : TokenKind) : Prop :=
  (stops POSTFIX k = true \/ k = Dot \/ k = LBracket) /\ (ends_name e = true -> k <> Lt_).

Lemma stops_mono c c' k : stops c k = true -> (c <= c')%nat -> stops c' k = true.
Proof.
  unfold stops. destruct (binary_op k) as [[op bp]|]; [intros H%Nat.leb_le Hc; apply Nat.leb_le; lia|].
  destruct k; try done. intros H%Nat.ltb_lt Hc. apply Nat.ltb_lt. lia.
Qed.

Lemma stops_any c k : stops c k = true -> stops PREFIX k = true /\ stops POSTFIX k = true.
Proof. by destruct k. Qed.

Lemma stops_kind c k : stops c k = true -> k <> LBrace /\ k <> Identifier /\ k <> Dot /\ k <> LBracket /\ k <> LParen /\ k <> Is_ /\ k <> As_ /\ k <> Unknown.
Proof. by destruct k. Qed.

Lemma chains_kind e k : chains e k -> k <> LBrace /\ k <> Identifier /\ k <> LParen.
Proof. intros [[H|[-> | ->]] _]; [|done|done]. apply stops_kind in H. tauto. Qed.

Lemma stops_chains c e k : stops c k = true -> (c <= POSTFIX)%nat -> (ends_name e = true -> k <> Lt_) -> chains e k.
Proof. intros H Hc Hn. split; [|done]. left. by eapply stops_mono. Qed.

Lemma binary_token_op op : binary_op (binary_token op).1 = Some (op, power op).
Proof. by destruct op. Qed.

Lemma power_range op : (1 <= power op <= 11)%nat.
Proof. destruct op; cbn; lia. Qed.

Lemma binary_token_stops op c : (power op <= c)%nat -> stops c (binary_token op).1 = true.
Proof. intros H. unfold stops. rewrite binary_token_op. by apply Nat.leb_le. Qed.

Lemma binary_token_lt op : (binary_token op).1 = Lt_ -> op = Op_Lt.
Proof. by destruct op. Qed.

Lemma unary_token_op op : unary_op (unary_token op).1 = Some op /\ (unary_token op).1 <> Identifier /\ (unary_token op).1 <> Try_.
Proof. by destruct op. Qed.

Lemma loop_stops n F m e p t l c : upcoming p = t :: l -> stops c (kind t) = true -> (c <= m)%nat \/ binary_op (kind t) = None ->
  binary_loop (knot n) (S F) m e p = (p, Ok e).
Proof.
  intros Hu Hs Hm. destruct (stops_kind c _ Hs) as (_ & _ & _ & _ & _ & Hi & Ha & _). cbn [binary_loop].
  run current_kind_upcoming. rewrite decide_False by tauto. unfold stops in Hs.
  destruct (binary_op (kind t)) as [[op bp]|]; [|done]. destruct Hm as [Hm|]; [|done]. apply Nat.leb_le in Hs.
  destruct (Nat.leb_spec bp m); [done|lia].
Qed.

Lemma postfix_stops n F e p t l : upcoming p = t :: l -> stops POSTFIX (kind t) = true ->
  postfix_loop (knot n) (S F) e p = (p, Ok e).
Proof.
  intros Hu Hs. destruct (stops_kind _ _ Hs) as (Hb & Hi & Hd & Hbr & _). cbn [postfix_loop].
  run at_kind_no. run at_kind_no. run closure_start_no. rewrite Bool.andb_false_r. run trailing_block_no.
  erewrite bind_eq by done. cbv beta iota zeta. run named_fill_no.
  destruct (fillable_ok p t l e Hu) as [b Hf]. erewrite bind_eq by done. done.
Qed.

(** *** Flags and nesting *)

Lemma reading_flag p ts rest a d : reading p ts rest a d -> reading (with_literal_flag false p) ts rest a d.
Proof. by intros []. Qed.

Lemma reading_deeper p ts rest a d : reading p ts rest a (S d) -> reading (with_nesting (S (nesting p)) p) ts rest a d.
Proof. intros [? ? ? Hd]. constructor; try done. cbn. lia. Qed.

Lemma literals_ok {A} (m : M A) p k a : m (with_literal_flag false p) = (advanced k (with_literal_flag false p), Ok a) ->
  with_struct_literals m p = (advanced k p, Ok a).
Proof. intros H. unfold with_struct_literals, with_flag. rewrite H. by destruct p. Qed.

Lemma nested_ok b p e k : upcoming p <> [] -> (nesting p < MAX_NESTING_DEPTH)%nat ->
  b (with_nesting (S (nesting p)) p) = (advanced k (with_nesting (S (nesting p)) p), Ok e) -> nested b p = (advanced k p, Ok e).
Proof.
  intros Hne Hn Hb. destruct (upcoming p) as [|t l] eqn:Hu; [done|]. unfold nested. erewrite bind_eq; cycle 1.
  { unfold enter_nesting. run current_upcoming. rewrite decide_False by lia. erewrite bind_eq by done. cbv beta iota zeta.
    unfold deepen. by rewrite (proj2 (Nat.ltb_lt _ _) Hn). }
  cbv beta iota zeta. erewrite bind_eq by exact Hb. cbv beta iota zeta. erewrite bind_eq by done. by destruct p.
Qed.

Lemma turns_over p ts rest : upcoming p = ts ++ rest -> exists n, turns p = (p, Ok n) /\ (length ts < n)%nat.
Proof.
  intros H. exists (S (2 * length (p_tokens p))). split; [done|]. assert (length (drop (p_pos p) (p_tokens p)) = length (ts ++ rest)) as Hl by by rewrite <- H.
  rewrite length_drop, length_app in Hl. lia.
Qed.

Lemma advanced_eq n m p : n = m -> advanced n p = advanced m p.
Proof. by intros ->. Qed.

(** ** The statements *)

Definition asked (c : nat) (e : Expr) : nat := if (level e <? c)%nat then S (depth e) else depth e.
Definition fuel_ok (c : nat) (e : Expr) (n : nat) : Prop := (2 * size e <= if (level e <? c)%nat then n else S n)%nat.
Definition bare (c : nat) (e : Expr) : bool := negb (level e <? c)%nat.

(** A call of [first_] and a number of turns of the loop after it read the tree. *)
Definition reaches (first_ : M Expr) (loop : nat -> Expr -> M Expr) (F : nat) (p : Parser) (ts : list Token) (e : Expr) : Prop :=
  exists e0 k e' F', first_ p = (advanced k p, Ok e0) /\ strip e' = strip e /\ (F <= F' + length ts)%nat /\
    loop F e0 (advanced k p) = loop F' e' (advanced (length ts) p).

(** A whole expression. *)
Definition reads_expr (e : Expr) : Prop := forall n p ts rest, (2 * size e <= S n)%nat -> reading p ts rest (body e) (S (depth e)) ->
  stops 0 (head_kind rest) = true ->
  exists e', parse_expr (knot n) p = (advanced (length ts) p, Ok e') /\ strip e' = strip e.

(** The operands and operators of [parse_binary], up to the rest of its loop. *)
Definition reads_binary (c : nat) (e : Expr) : Prop := forall n m p ts rest F, fuel_ok c e n -> (m < c)%nat ->
  reading p ts rest (wrap c e (body e)) (asked c e) -> stops c (head_kind rest) = true ->
  (bare c e && ends_name e = true -> head_kind rest <> Lt_) -> (length ts < F)%nat ->
  reaches (parse_unary (knot n)) (fun F => binary_loop (knot n) F m) F p ts e.

Definition reads_unary (e : Expr) : Prop := forall n p ts rest, fuel_ok PREFIX e n ->
  reading p ts rest (wrap PREFIX e (body e)) (asked PREFIX e) -> stops PREFIX (head_kind rest) = true ->
  (bare PREFIX e && ends_name e = true -> head_kind rest <> Lt_) ->
  exists e', parse_unary (knot n) p = (advanced (length ts) p, Ok e') /\ strip e' = strip e.

Definition reads_chain (e : Expr) : Prop := forall n p ts rest F, fuel_ok POSTFIX e n ->
  reading p ts rest (wrap POSTFIX e (body e)) (asked POSTFIX e) ->
  stops POSTFIX (head_kind rest) = true \/ head_kind rest = Dot \/ head_kind rest = LBracket ->
  (bare POSTFIX e && ends_name e = true -> head_kind rest <> Lt_) -> (length ts < F)%nat ->
  reaches (parse_primary (knot n)) (postfix_loop (knot n)) F p ts e.

Record package (e : Expr) : Prop := {
  package_expr : reads_expr e;
  package_binary : forall c, (1 <= c)%nat -> reads_binary c e;
  package_unary : reads_unary e;
  package_chain : reads_chain e
}.

(** The three where no parentheses are put. *)
Definition binary_bare (c : nat) (e : Expr) : Prop := forall n m p ts rest F, (2 * size e <= S n)%nat -> (m < c)%nat ->
  reading p ts rest (body e) (depth e) -> stops c (head_kind rest) = true ->
  (ends_name e = true -> head_kind rest <> Lt_) -> (length ts < F)%nat ->
  reaches (parse_unary (knot n)) (fun F => binary_loop (knot n) F m) F p ts e.

Definition unary_bare (e : Expr) : Prop := forall n p ts rest, (2 * size e <= S n)%nat ->
  reading p ts rest (body e) (depth e) -> stops PREFIX (head_kind rest) = true ->
  (ends_name e = true -> head_kind rest <> Lt_) ->
  exists e', parse_unary (knot n) p = (advanced (length ts) p, Ok e') /\ strip e' = strip e.

Definition chain_bare (e : Expr) : Prop := forall n p ts rest F, (2 * size e <= S n)%nat ->
  reading p ts rest (body e) (depth e) ->
  stops POSTFIX (head_kind rest) = true \/ head_kind rest = Dot \/ head_kind rest = LBracket ->
  (ends_name e = true -> head_kind rest <> Lt_) -> (length ts < F)%nat ->
  reaches (parse_primary (knot n)) (postfix_loop (knot n)) F p ts e.

(** ** Where a spelling begins *)

Definition calm (k : TokenKind) : bool :=
  match k with IntLiteral | True_ | False_ | StringLiteral | LParen | LBracket => true | _ => false end.

(** A first piece that goes to [parse_primary]. *)
Definition primary_start (s : Spelled) : Prop := calm s.1 = true \/ s.1 = Identifier /\ s.2 <> spelled "move" /\ s.2 <> spelled "copy".

Definition opens (k : TokenKind) : bool :=
  calm k || match k with Identifier | Minus | Bang | Tilde | Try_ => true | _ => false end.

Lemma opens_kind k : opens k = true -> k <> RParen /\ k <> Eof_ /\ k <> RBracket /\ k <> RBrace /\ k <> Unknown.
Proof. by destruct k. Qed.

Lemma primary_opens s : primary_start s -> opens s.1 = true.
Proof. unfold opens. intros [-> | [-> _]]; [done|]. by destruct (calm Identifier). Qed.

Lemma wrap_cases c e l : wrap c e l = l /\ (level e <? c)%nat = false \/
  wrap c e l = (LParen, spelled "(") :: l ++ [(RParen, spelled ")")] /\ (level e <? c)%nat = true.
Proof. unfold wrap. destruct (level e <? c)%nat; auto. Qed.

Lemma chain_first_of e : (POSTFIX <= level e -> exists s l, body e = s :: l /\ primary_start s)%nat ->
  exists s l, wrap POSTFIX e (body e) = s :: l /\ primary_start s.
Proof.
  intros H. destruct (wrap_cases POSTFIX e (body e)) as [[-> Hl]|[-> _]]; [by apply H, Nat.ltb_ge|].
  eexists _, _. split; [done|by left].
Qed.

Lemma chain_first e : printable e -> exists s l, wrap POSTFIX e (body e) = s :: l /\ primary_start s.
Proof.
  intros Hp. apply chain_first_of. revert Hp. induction e; cbn; try done; intros Hp Hl;
    try (by eexists _, _; split; [done|left]); try (by eexists _, _; split; [done|right; unfold name_ok in *; tauto]).
  - destruct value; eexists _, _; (split; [done|by left]).
  - unfold PREFIX, POSTFIX in Hl. lia.
  - pose proof (power_range op). unfold POSTFIX in Hl. lia.
  - unfold POSTFIX in Hl. lia.
  - destruct (chain_first_of e) as (s & l & -> & Hs); [tauto|]. by exists s; eexists.
  - destruct (chain_first_of e) as (s & l & -> & Hs); [tauto|]. by exists s; eexists.
  - destruct (chain_first_of e1) as (s & l & -> & Hs); [tauto|]. by exists s; eexists.
  - unfold POSTFIX in Hl. lia.
Qed.

Lemma wrap_first c e : (exists s l, body e = s :: l /\ opens s.1 = true) -> exists s l, wrap c e (body e) = s :: l /\ opens s.1 = true.
Proof. intros H. destruct (wrap_cases c e (body e)) as [[-> _]|[-> _]]; [done|]. by eexists _, _. Qed.

Lemma body_first e : printable e -> exists s l, body e = s :: l /\ opens s.1 = true.
Proof.
  induction e; cbn; try done; intros Hp; try (by eexists _, _; split; [done|]).
  - destruct value; by eexists _, _.
  - destruct op; by eexists _, _.
  - destruct (wrap_first (left_level op e1) e1) as (s & l & -> & Hs); [apply IHe1; tauto|]. by exists s; eexists.
  - destruct (wrap_first 1 e1) as (s & l & -> & Hs); [apply IHe1; tauto|]. by exists s; eexists.
  - destruct (wrap_first POSTFIX e) as (s & l & -> & Hs); [apply IHe; tauto|]. by exists s; eexists.
  - destruct (wrap_first POSTFIX e) as (s & l & -> & Hs); [apply IHe; tauto|]. by exists s; eexists.
  - destruct (wrap_first POSTFIX e1) as (s & l & -> & Hs); [apply IHe1; tauto|]. by exists s; eexists.
Qed.

(** Two kinds that [parse_call_arg] takes for a label. *)
Definition labels (ks : list TokenKind) : bool :=
  match ks with Identifier :: (Colon | Equals) :: _ => true | _ => false end.

Lemma wrap_labels c e ks : (labels ((body e).*1 ++ ks) = false) -> labels ((wrap c e (body e)).*1 ++ ks) = false.
Proof. intros H. by destruct (wrap_cases c e (body e)) as [[-> _]|[-> _]]. Qed.

Lemma body_labels e ks : printable e -> match ks with k :: _ => k <> Colon /\ k <> Equals | [] => True end -> labels ((body e).*1 ++ ks) = false.
Proof.
  revert ks. induction e; intros ks Hp Hk; cbn in Hp |- *; try done.
  - by destruct value.
  - destruct ks as [|k ks]; [done|]. destruct Hk. by destruct k.
  - by destruct op.
  - rewrite fmap_app, <- app_assoc. apply wrap_labels, IHe1; [tauto|]. by destruct op.
  - rewrite fmap_app, <- app_assoc. apply wrap_labels, IHe1; [tauto|]. done.
  - rewrite fmap_app, <- app_assoc. apply wrap_labels, IHe; [tauto|]. done.
  - rewrite fmap_app, <- app_assoc. apply wrap_labels, IHe; [tauto|]. done.
  - rewrite fmap_app, <- app_assoc. apply wrap_labels, IHe1; [tauto|]. done.
Qed.

(** ** Parentheses *)

Lemma size_pos e : (1 <= size e)%nat.
Proof. destruct e; cbn; lia. Qed.

Lemma reading_some p ts rest a d : reading p ts rest a d -> upcoming p <> [].
Proof. intros [-> Hr _ _]. by destruct ts. Qed.

(** What a spelling leaves in front of the parser. *)
Lemma reading_up p ts rest a d : reading p ts rest a d -> upcoming p = ts ++ rest.
Proof. by intros []. Qed.

Lemma reading_next p ts rest a d : reading p ts rest a d -> exists u l, rest = u :: l /\ upcoming (advanced (length ts) p) = u :: l /\ head_kind rest = kind u.
Proof. intros [H Hr _ _]. destruct rest as [|u l]; [done|]. exists u, l. split; [done|]. split; [by eapply upcoming_advanced|done]. Qed.

Lemma paren_primary e n p ts rest : reads_expr e -> (2 * size e <= n)%nat ->
  reading p ts rest ((LParen, spelled "(") :: body e ++ [(RParen, spelled ")")]) (S (depth e)) ->
  exists e', parse_primary (knot n) p = (advanced (length ts) p, Ok e') /\ strip e' = strip e.
Proof.
  intros He Hn Hr. pose proof (size_pos e). destruct n as [|n]; [lia|].
  destruct (reading_cons _ _ _ _ _ _ Hr) as (t & ts' & -> & Hk & _ & Hu & Hl & Hr').
  destruct (reading_app _ _ _ _ _ _ Hr') as (ts1 & ts2 & -> & H1 & H2).
  destruct (reading_cons _ _ _ _ _ _ H2) as (c & ts3 & -> & Hck & _ & Hcu & Hcl & H3).
  destruct (reading_nil _ _ _ _ H3) as (-> & _ & _).
  destruct (He n (with_literal_flag false (advanced 1 p)) ts1 ([c] ++ rest)) as (e' & Hp & Hs);
    [lia|by apply reading_flag|cbn; by rewrite Hck|]. exists e'. split; [|done].
  unfold parse_primary. run current_upcoming. run closure_start_no. destruct (peek_kind_clamped _ _ _ 1 Hu) as [k1 Hk1].
  erewrite bind_eq by exact Hk1. cbv beta iota zeta. cbn in Hk. rewrite Hk. cbv beta iota. unfold parse_paren. run current_upcoming.
  run bump_upcoming. erewrite bind_eq by (apply literals_ok; exact Hp). cbv beta iota zeta. run eat_no.
  erewrite bind_eq; cycle 1. { eapply expect_yes; [exact Hcu|exact Hcl|exact Hck]. }
  cbv beta iota zeta. rewrite !advanced_advanced. erewrite advanced_eq; [done|]. cbn. rewrite length_app. cbn. lia.
Qed.

(** A first piece that goes to [parse_primary] goes there. *)
Lemma unary_primary n p t l s : upcoming p = t :: l -> spells (p_text p) t s -> primary_start s ->
  parse_unary (knot n) p = (x ← parse_primary (knot n); parse_postfix (knot n) x) p.
Proof.
  intros Hu [Hk Hw] Hs. assert (kind t <> Try_ /\ unary_op (kind t) = None) as [Ht Ho].
  { rewrite Hk. destruct Hs as [Hs|[-> _]]; [|done]. by destruct s.1. }
  unfold parse_unary. run at_kind_no. erewrite bind_eq; cycle 1.
  { eapply ownership_no; [exact Hu|]. destruct Hs as [Hs|(Hi & Hm & Hc)]; [left; rewrite Hk; by destruct s.1|right; by exists s.2]. }
  cbv beta iota zeta. run current_upcoming. by rewrite Ho.
Qed.

(** With nothing after it that a postfix could begin, the chain is the operand. *)
Lemma chain_unary n p ts rest e s l d : (forall F, (length ts < F)%nat -> reaches (parse_primary (knot n)) (postfix_loop (knot n)) F p ts e) ->
  reading p ts rest (s :: l) d -> primary_start s -> stops POSTFIX (head_kind rest) = true ->
  exists e', parse_unary (knot n) p = (advanced (length ts) p, Ok e') /\ strip e' = strip e.
Proof.
  intros Hc Hr Hs Hst. destruct (reading_next _ _ _ _ _ Hr) as (u & l' & _ & Hun & Hh).
  destruct (reading_cons _ _ _ _ _ _ Hr) as (t & ts' & Hts & Hk & Hw & Hu & _).
  destruct (turns_over _ _ _ (reading_up _ _ _ _ _ Hr)) as (F & HF & Hlt).
  destruct (Hc F Hlt) as (e0 & k & e' & F' & H0 & He & HF' & Hloop). exists e'. split; [|done].
  rewrite (unary_primary n p t _ s Hu (conj Hk Hw) Hs). erewrite bind_eq by exact H0. unfold parse_postfix.
  erewrite bind_eq; [|instantiate (1 := F); unfold turns in *; by injection HF as <-].
  rewrite Hloop. destruct F' as [|F']; [lia|]. rewrite Hh in Hst. by eapply postfix_stops.
Qed.

Lemma reaches_done first_ loop F p ts e e' : first_ p = (advanced (length ts) p, Ok e') -> strip e' = strip e -> reaches first_ loop F p ts e.
Proof. intros H Hs. exists e', (length ts), e', F. split_and!; try done. lia. Qed.

Lemma paren_unary e n p ts rest : reads_expr e -> (2 * size e <= n)%nat ->
  reading p ts rest ((LParen, spelled "(") :: body e ++ [(RParen, spelled ")")]) (S (depth e)) -> stops POSTFIX (head_kind rest) = true ->
  exists e', parse_unary (knot n) p = (advanced (length ts) p, Ok e') /\ strip e' = strip e.
Proof.
  intros He Hn Hr Hs. eapply chain_unary; [|exact Hr|by left|exact Hs]. intros F _.
  destruct (paren_primary e n p ts rest He Hn Hr) as (e' & Hp & Hm). by eapply reaches_done.
Qed.

(** *** From the bare trees to the wrapped ones *)

Lemma chain_package e : reads_expr e -> ((POSTFIX <= level e)%nat -> chain_bare e) -> reads_chain e.
Proof.
  intros He Hb n p ts rest F Hn Hr Hs Hl HF. unfold fuel_ok, asked, bare in *.
  destruct (wrap_cases POSTFIX e (body e)) as [[Hw Hlev]|[Hw Hlev]]; rewrite Hw in Hr; rewrite Hlev in *.
  - eapply Hb; try done. by apply Nat.ltb_ge.
  - destruct (paren_primary e n p ts rest He Hn Hr) as (e' & Hp & Hm). by eapply reaches_done.
Qed.

Lemma unary_package e : reads_expr e -> ((PREFIX <= level e)%nat -> unary_bare e) -> reads_unary e.
Proof.
  intros He Hb n p ts rest Hn Hr Hs Hl. unfold fuel_ok, asked, bare in *.
  destruct (wrap_cases PREFIX e (body e)) as [[Hw Hlev]|[Hw Hlev]]; rewrite Hw in Hr; rewrite Hlev in *.
  - eapply Hb; try done. by apply Nat.ltb_ge.
  - eapply paren_unary; try done. eapply stops_mono; [done|unfold PREFIX, POSTFIX; lia].
Qed.

Lemma unary_of_chain e : printable e -> (POSTFIX <= level e)%nat -> chain_bare e -> unary_bare e.
Proof.
  intros Hp Hlev Hc n p ts rest Hn Hr Hs Hl. destruct (chain_first e Hp) as (s & l & Hw & Hs1).
  unfold wrap in Hw. rewrite (proj2 (Nat.ltb_ge _ _) Hlev) in Hw. rewrite Hw in Hr.
  assert (stops POSTFIX (head_kind rest) = true) as Hs' by (eapply stops_mono; [done|unfold PREFIX, POSTFIX; lia]).
  eapply chain_unary; [|exact Hr|exact Hs1|done]. intros F HF. rewrite <- Hw in Hr. eapply Hc; try done. by left.
Qed.

Lemma binary_of_unary c e : unary_bare e -> binary_bare c e.
Proof.
  intros Hb n m p ts rest F Hn Hm Hr Hs Hl HF.
  destruct (Hb n p ts rest Hn Hr (proj1 (stops_any _ _ Hs)) Hl) as (e' & Hp & He). by eapply reaches_done.
Qed.

Lemma binary_package c e : reads_expr e -> ((c <= level e)%nat -> binary_bare c e) -> reads_binary c e.
Proof.
  intros He Hb n m p ts rest F Hn Hm Hr Hs Hl HF. unfold fuel_ok, asked, bare in *.
  destruct (wrap_cases c e (body e)) as [[Hw Hlev]|[Hw Hlev]]; rewrite Hw in Hr; rewrite Hlev in *.
  - eapply Hb; try done. by apply Nat.ltb_ge.
  - destruct (paren_unary e n p ts rest He Hn Hr (proj2 (stops_any _ _ Hs))) as (e' & Hp & He'). by eapply reaches_done.
Qed.

(** ** Whole expressions *)

(** [parse_binary], from what its operands and operators do. *)
Lemma binary_stops n m p ts rest e d l : reading p ts rest l d ->
  (forall F, (length ts < F)%nat -> reaches (parse_unary (knot n)) (fun F => binary_loop (knot n) F m) F p ts e) ->
  stops m (head_kind rest) = true \/ binary_op (head_kind rest) = None /\ stops 1 (head_kind rest) = true ->
  exists e', parse_binary (knot n) m p = (advanced (length ts) p, Ok e') /\ strip e' = strip e.
Proof.
  intros Hr Hb Hs. destruct (reading_next _ _ _ _ _ Hr) as (u & l' & _ & Hun & Hh). rewrite Hh in Hs.
  destruct (turns_over _ _ _ (reading_up _ _ _ _ _ Hr)) as (F & HF & Hlt).
  destruct (Hb F Hlt) as (e0 & k & e' & F' & H0 & He & HF' & Hloop). exists e'. split; [|done].
  unfold parse_binary. erewrite bind_eq by exact H0. cbv beta iota zeta.
  erewrite bind_eq; [|instantiate (1 := F); unfold turns in *; by injection HF as <-].
  cbv beta. rewrite Hloop. destruct F' as [|F']; [lia|].
  destruct Hs as [Hs|[Ho Hs]]; [eapply loop_stops; eauto|eapply loop_stops; [done|exact Hs|by right]].
Qed.

Lemma reads_expr_of e : (forall n p ts rest, (2 * size e <= S n)%nat -> reading p ts rest (body e) (depth e) -> stops 0 (head_kind rest) = true ->
    exists e', parse_expr_descend (knot n) p = (advanced (length ts) p, Ok e') /\ strip e' = strip e) -> reads_expr e.
Proof.
  intros H n p ts rest Hn Hr Hs. destruct (H n (with_nesting (S (nesting p)) p) ts rest Hn (reading_deeper _ _ _ _ _ Hr) Hs) as (e' & Hp & He).
  exists e'. split; [|done]. unfold parse_expr. eapply nested_ok; [by eapply reading_some| |done]. destruct Hr. lia.
Qed.

(** A tree that is not a conditional is what [parse_binary] reads. *)
Lemma expr_of_binary e : (1 <= level e)%nat -> binary_bare 1 e -> reads_expr e.
Proof.
  intros Hlev Hb. apply reads_expr_of. intros n p ts rest Hn Hr Hs.
  destruct (reading_next _ _ _ _ _ Hr) as (u & l' & _ & Hun & Hh).
  destruct (binary_stops n 0 p ts rest e _ _ Hr) as (e' & Hp & He); [|by left|].
  { intros F HF. eapply Hb; try done; [lia|apply (stops_mono 0); [done|lia]|]. intros _ Hlt. by rewrite Hlt in Hs. }
  exists e'. split; [|done]. unfold parse_expr_descend. erewrite bind_eq by exact Hp. cbv beta iota zeta.
  erewrite bind_eq; [|eapply at_kind_no; [done|]; rewrite <- Hh; intros Hq; by rewrite Hq in Hs]. done.
Qed.

Lemma expr_conditional c a b s : package c -> reads_expr a -> reads_expr b -> reads_expr (Expr_Conditional c a b s).
Proof.
  intros Hc Ha Hb. apply reads_expr_of. intros n p ts rest Hn Hr Hs. cbn [size depth body] in *.
  destruct (reading_app _ _ _ _ _ _ Hr) as (t1 & t2 & -> & H1 & H2).
  destruct (reading_cons _ _ _ _ _ _ H2) as (q & t3 & -> & Hq & _ & Hqu & Hql & H3).
  destruct (reading_app _ _ _ _ _ _ H3) as (t4 & t5 & -> & H4 & H5).
  destruct (reading_cons _ _ _ _ _ _ H5) as (k & t6 & -> & Hk & _ & Hku & Hkl & H6). cbn in Hq, Hk.
  destruct n as [|n]; [lia|].
  destruct (binary_stops (S n) 0 p t1 (q :: (t4 ++ k :: t6) ++ rest) c _ _ H1) as (c' & Hcp & Hcs); [|right; cbn; by rewrite Hq|].
  { intros F HF. eapply package_binary; try done; [unfold fuel_ok; destruct (level c <? 1)%nat; lia|lia| | |].
    - eapply reading_less; [done|]. unfold asked. destruct (level c <? 1)%nat; lia.
    - cbn. by rewrite Hq.
    - cbn. by rewrite Hq. }
  rewrite <- app_assoc in Hqu, Hql. cbn in Hqu, Hql, H4.
  destruct (Ha n _ t4 _ ltac:(lia) (reading_less _ _ _ _ _ (S (depth a)) H4 ltac:(lia))) as (a' & Hap & Has); [cbn; by rewrite Hk|].
  destruct (Hb n _ t6 _ ltac:(lia) (reading_less _ _ _ _ _ (S (depth b)) H6 ltac:(lia)) Hs) as (b' & Hbp & Hbs).
  eexists (Expr_Conditional c' a' b' _). split; cycle 1.
  { cbn. f_equal; [apply Hcs|apply Has|apply Hbs]. }
  unfold parse_expr_descend. erewrite bind_eq by exact Hcp. cbv beta iota zeta. run at_kind_yes. run bump_upcoming.
  erewrite bind_eq by exact Hap. cbv beta iota zeta. run expect_yes. erewrite bind_eq by exact Hbp. cbv beta iota zeta.
  rewrite !advanced_advanced. erewrite advanced_eq; [done|]. rewrite !length_app. cbn. rewrite !length_app. cbn. lia.
Qed.

(** ** Operators *)

Lemma unary_prefix op x s : package x -> unary_bare (Expr_Unary op x s).
Proof.
  intros Hx n p ts rest Hn Hr Hs Hl. cbn [size depth body] in *. destruct n as [|n]; [lia|].
  destruct (reading_cons _ _ _ _ _ _ Hr) as (t & t1 & -> & Hk & _ & Hu & Hne & H1).
  destruct (unary_token_op op) as (Hop & Hid & Htry). rewrite <- Hk in Hop, Hid, Htry.
  assert (fuel_ok PREFIX x n) as Hf by (unfold fuel_ok; destruct (level x <? PREFIX)%nat; lia).
  destruct (package_unary x Hx n _ t1 rest Hf (reading_deeper _ _ _ _ _ H1) Hs Hl) as (x' & Hp & Hm).
  eexists (Expr_Unary op x' _). split; cycle 1. { cbn. f_equal. apply Hm. }
  unfold parse_unary. run at_kind_no. erewrite bind_eq by (eapply ownership_no; [exact Hu|by left]). cbv beta iota zeta.
  run current_upcoming. rewrite Hop. run bump_upcoming.
  erewrite bind_eq; cycle 1. { eapply nested_ok; [by eapply reading_some| |exact Hp]. destruct H1. lia. }
  cbv beta iota zeta. rewrite advanced_advanced. done.
Qed.

Lemma binary_try c x s : (1 <= c <= 7)%nat -> package x -> binary_bare c (Expr_Try x s).
Proof.
  intros Hc Hx n m p ts rest F Hn Hm Hr Hs Hl HF. cbn [size depth body] in *. destruct n as [|n]; [lia|].
  destruct (reading_cons _ _ _ _ _ _ Hr) as (t & t1 & -> & Hk & _ & Hu & Hne & H1). cbn in Hk.
  assert (stops 7 (head_kind rest) = true) as Hs' by (eapply stops_mono; [done|lia]).
  pose proof (reading_deeper _ _ _ _ _ H1) as H1'.
  destruct (binary_stops n 7 _ t1 rest x _ _ H1') as (x' & Hp & Hx'); [|by left|].
  { intros F' HF'.
    eapply (package_binary x Hx 8); try done; try lia; [|by apply (stops_mono 7); [done|lia]].
    unfold fuel_ok. destruct (level x <? 8)%nat; lia. }
  eapply (reaches_done _ _ _ _ _ _ (Expr_Try x' _)); [|cbn; f_equal; apply Hx'].
  unfold parse_unary. run at_kind_yes. run current_upcoming. run bump_upcoming.
  erewrite bind_eq; cycle 1. { eapply nested_ok; [by eapply reading_some| |exact Hp]. destruct H1. lia. }
  cbv beta iota zeta. rewrite advanced_advanced. done.
Qed.

Lemma loop_operator n F m op e r k p t l : upcoming p = t :: l -> l <> [] -> kind t = (binary_token op).1 -> (m < power op)%nat ->
  parse_binary (knot n) (power op) (advanced 1 p) = (advanced k (advanced 1 p), Ok r) ->
  binary_loop (knot (S n)) (S F) m e p =
  binary_loop (knot (S n)) F m (Expr_Binary op e r (from_bounds (start (expr_span e)) (end_of (expr_span r)))) (advanced k (advanced 1 p)).
Proof.
  intros Hu Hl Hk Hm Hp. cbn [binary_loop]. run current_kind_upcoming. rewrite decide_False; cycle 1.
  { rewrite Hk. destruct op; intros [[|] _]; done. }
  rewrite Hk, binary_token_op. destruct (Nat.leb_spec (power op) m); [lia|]. run bump_upcoming.
  by erewrite bind_eq by exact Hp.
Qed.

Lemma level_range e : (level e <= POSTFIX)%nat.
Proof. destruct e; cbn; unfold POSTFIX, PREFIX; try lia. destruct op; cbn; lia. Qed.

(** Before a [<] nothing bare ends in a name. *)
Lemma left_bare l : bare (left_level Op_Lt l) l && ends_name l = false.
Proof.
  unfold bare, left_level. rewrite bool_decide_true by done. destruct (ends_name l); [|by rewrite Bool.andb_false_r].
  cbn [andb]. pose proof (level_range l). by rewrite (proj2 (Nat.ltb_lt _ _)) by lia.
Qed.

Lemma binary_operator c op l r s : (c <= power op)%nat -> package l -> package r -> binary_bare c (Expr_Binary op l r s).
Proof.
  intros Hc Hl Hr n m p ts rest F Hn Hm Hrd Hs Hlt HF. cbn [size depth body] in *. destruct n as [|n]; [lia|].
  destruct (reading_app _ _ _ _ _ _ Hrd) as (t1 & t2 & -> & H1 & H2).
  destruct (reading_cons _ _ _ _ _ _ H2) as (t & t3 & -> & Hk & _ & Hu & Hne & H3). pose proof (power_range op).
  rewrite length_app in HF. cbn in HF.
  assert (power op <= left_level op l)%nat as Hll by (unfold left_level, POSTFIX; destruct (_ && _); lia).
  destruct (package_binary l Hl (left_level op l) ltac:(lia) (S n) m p t1 ((t :: t3) ++ rest) F) as (e0 & k & l' & F' & H0 & Hl' & HF' & Hloop);
    try done; try lia.
  { unfold fuel_ok. destruct (level l <? left_level op l)%nat; lia. }
  { eapply reading_less; [exact H1|]. unfold asked. lia. }
  { cbn. rewrite Hk. by apply binary_token_stops. }
  { intros Hb. cbn. rewrite Hk. intros ->%binary_token_lt. by rewrite left_bare in Hb. }
  destruct F' as [|F']; [lia|].
  destruct (binary_stops n (power op) _ t3 rest r _ _ H3) as (r' & Hr' & Hrm); [| |].
  { intros F2 HF2. eapply (package_binary r Hr (S (power op))); try done; try lia.
    - unfold fuel_ok. destruct (level r <? S (power op))%nat; lia.
    - eapply reading_less; [exact H3|]. unfold asked. lia.
    - apply (stops_mono c); [done|lia]. }
  { left. apply (stops_mono c); [done|lia]. }
  exists e0, k, (Expr_Binary op l' r' (from_bounds (start (expr_span l')) (end_of (expr_span r')))), F'. split_and!.
  - exact H0.
  - cbn. f_equal; [apply Hl'|apply Hrm].
  - rewrite length_app. cbn. lia.
  - cbv beta in Hloop. rewrite Hloop. erewrite loop_operator; [|exact Hu|exact Hne|exact Hk|lia|exact Hr'].
    rewrite !advanced_advanced. erewrite advanced_eq; [done|]. rewrite length_app. cbn. lia.
Qed.

(** ** Leaves *)

Lemma parsed_int_print v : 0 <= v < 2 ^ 63 -> parsed_int (i64_to_string v) = Some v.
Proof.
  intros Hv. assert (i64_ok v) as Hi by (unfold i64_ok, signed_ok; lia). pose proof (parse_i64_print v Hi) as Hp.
  unfold i64_to_string in *. destruct (Z.ltb_spec v 0) as [|Hp0]; [lia|].
  destruct (digits_cons v) as (b & r & Hr & Hd & _); [lia|]. rewrite Hr in *. inversion Hd as [|? ? _ Hd']; subst.
  unfold parsed_int. destruct b; try done. inversion Hd' as [|c ? Hc _]; subst; [done|]. by destruct c.
Qed.

(** Past the tests for a closure, what [parse_primary] does is up to the kind. *)
Lemma primary_kind self p t l (m : M Expr) : upcoming p = t :: l -> kind t <> LBrace ->
  (kind t = IntLiteral /\ m = parse_int (token_span t) \/ kind t = StringLiteral /\ m = parse_string_literal (token_span t) \/
   kind t = True_ /\ m = (_ ← bump; mret (Expr_Bool true (token_span t))) \/
   kind t = False_ /\ m = (_ ← bump; mret (Expr_Bool false (token_span t))) \/
   kind t = Identifier /\ m = parse_name_or_call self (token_span t) \/
   kind t = LParen /\ m = parse_paren self \/ kind t = LBracket /\ m = parse_array_literal self) ->
  parse_primary self p = m p.
Proof.
  intros Hu Hb Hm. unfold parse_primary. run current_upcoming. run closure_start_no. destruct (peek_kind_clamped _ _ _ 1 Hu) as [k1 Hk1].
  erewrite bind_eq by exact Hk1. cbv beta iota zeta. by destruct Hm as [[-> ->]|[[-> ->]|[[-> ->]|[[-> ->]|[[-> ->]|[[-> ->]|[-> ->]]]]]]].
Qed.

Ltac primary := erewrite primary_kind; [|eassumption|congruence|tauto].

Lemma chain_int v s : 0 <= v < 2 ^ 63 -> chain_bare (Expr_Int v s).
Proof.
  intros Hv n p ts rest F _ Hr _ _ _. destruct (reading_cons _ _ _ _ _ _ Hr) as (t & t1 & -> & Hk & Hw & Hu & Hne & H1).
  apply reading_nil in H1 as [-> _]. cbn in Hk, Hw. eapply (reaches_done _ _ _ _ _ _ (Expr_Int v (token_span t))); [|done].
  primary. unfold parse_int. run bump_upcoming. run text_of_ok. by rewrite parsed_int_print.
Qed.

Lemma chain_bool v s : chain_bare (Expr_Bool v s).
Proof.
  intros n p ts rest F _ Hr _ _ _. destruct (reading_cons _ _ _ _ _ _ Hr) as (t & t1 & -> & Hk & Hw & Hu & Hne & H1).
  apply reading_nil in H1 as [-> _]. eapply (reaches_done _ _ _ _ _ _ (Expr_Bool v (token_span t))); [|done].
  destruct v; cbn in Hk; primary; by run bump_upcoming.
Qed.

Lemma chain_string v s : chain_bare (Expr_Str v s).
Proof.
  intros n p ts rest F _ Hr _ _ _. destruct (reading_cons _ _ _ _ _ _ Hr) as (t & t1 & -> & Hk & Hw & Hu & Hne & H1).
  apply reading_nil in H1 as [-> _]. cbn in Hk, Hw. eapply (reaches_done _ _ _ _ _ _ (Expr_Str v (token_span t))); [|done].
  primary. unfold parse_string_literal. run bump_upcoming. run text_of_ok. change (string_literal v) with (QUOTE :: escape_text v ++ [QUOTE]).
  by rewrite (decode_literal _ _ (escape_text_means v)).
Qed.

Lemma chain_name w s : chain_bare (Expr_Name w s).
Proof.
  intros n p ts rest F _ Hr Hs Hl _. destruct (reading_cons _ _ _ _ _ _ Hr) as (t & t1 & -> & Hk & Hw & Hu & Hne & H1).
  destruct (reading_next _ _ _ _ _ H1) as (u & l & -> & Hun & Hh). apply reading_nil in H1 as [-> _].
  cbn in Hk, Hw, Hs, Hl, Hne. eapply (reaches_done _ _ _ _ _ _ (Expr_Name w (token_span t))); [|done].
  assert (kind u <> LBrace /\ kind u <> LParen) as [Hb Hpa].
  { destruct Hs as [Hs|[-> | ->]]; [|done|done]. apply stops_kind in Hs. tauto. }
  assert (upcoming (advanced 1 p) = u :: l) as Hu1 by by apply (upcoming_advanced p [t]).
  primary. unfold parse_name_or_call. run text_of_ok. run bump_upcoming. run at_kind_no. rewrite Bool.andb_false_r.
  erewrite bind_eq by (eapply at_kind_no; [exact Hu1|by apply Hl]). cbv beta iota zeta.
  erewrite bind_eq by (eapply type_args_no; [exact Hu1|by apply Hl]). cbv beta iota zeta. rewrite Bool.andb_false_r. cbn [orb].
  erewrite bind_eq by done. cbv beta iota zeta. run at_kind_no. run bare_block_no. run content_block_no. run at_kind_no. run closure_start_no. done.
Qed.

(** ** Arguments and elements *)

Definition arg_body (a : CallArg Expr) : list Spelled :=
  match a with Build_CallArg _ l v _ =>
    match l with Some x => [(Identifier, x.1); (Colon, spelled ":")] | None => [] end ++ body v
  end.
Definition arg_depth (a : CallArg Expr) : nat := match a with Build_CallArg _ _ v _ => S (depth v) end.
Definition arg_size (a : CallArg Expr) : nat := match a with Build_CallArg _ _ v _ => size v end.
Definition arg_strip (a : CallArg Expr) : CallArg Expr :=
  match a with Build_CallArg _ l v _ => Build_CallArg _ ((fun x => (x.1, no_span)) <$> l) (strip v) no_span end.
Definition arg_ok (a : CallArg Expr) : Prop :=
  match a with Build_CallArg _ l v _ => match l with Some x => name_ok x.1 | None => True end /\ printable v end.

Lemma reading_kinds p ts rest a d : reading p ts rest a d -> kind <$> ts = a.*1.
Proof. intros [_ _ Hsp _]. induction Hsp as [|t s ts a [Hk _] _ IH]; [done|]. cbn. by rewrite Hk, IH. Qed.

(** The loops stop at what closes them. *)
Definition closes (k : TokenKind) : Prop := k = Comma \/ k = RParen \/ k = RBracket.

Lemma closes_stops k : closes k -> stops 0 k = true /\ k <> Colon /\ k <> Equals.
Proof. by intros [-> |[-> | ->]]. Qed.

(** No label is seen where none was written. *)
Lemma no_label_seen e p ts rest d : printable e -> reading p ts rest (body e) d -> closes (head_kind rest) ->
  exists t u l, upcoming p = t :: u :: l /\ ~ (kind t = Identifier /\ (kind u = Colon \/ kind u = Equals)).
Proof.
  intros Hp Hr Hc. pose proof (reading_kinds _ _ _ _ _ Hr) as Hk. pose proof (reading_up _ _ _ _ _ Hr) as Hu.
  destruct (reading_next _ _ _ _ _ Hr) as (r & l & -> & _ & Hh). rewrite Hh in Hc. apply closes_stops in Hc as (_ & Hc & He).
  pose proof (body_labels e (kind r :: (kind <$> l)) Hp (conj Hc He)) as Hlab.
  destruct (body_first e Hp) as (s & b & Hb & _). rewrite Hb in Hk. destruct ts as [|t ts]; [done|].
  rewrite Hb, <- Hk in Hlab. destruct (ts ++ r :: l) as [|u l'] eqn:Htl; [by destruct ts|].
  exists t, u, l'. split; [rewrite Hu; cbn; by rewrite Htl|].
  assert (labels (kind t :: kind u :: (kind <$> l')) = false) as Hlab'.
  { rewrite <- Hlab. cbn. f_equal. change (kind r :: (kind <$> l)) with (kind <$> r :: l). rewrite <- fmap_app, Htl. done. }
  cbn in Hlab'. intros [Hi [Hq|Hq]]; by rewrite Hi, Hq in Hlab'.
Qed.

Lemma call_arg a n p ts rest : arg_ok a -> reads_expr (arg_value a) -> (2 * arg_size a <= S n)%nat ->
  reading p ts rest (arg_body a) (arg_depth a) -> closes (head_kind rest) ->
  exists a', parse_call_arg (knot (S n)) p = (advanced (length ts) p, Ok a') /\ arg_strip a' = arg_strip a.
Proof.
  destruct a as [l v sp]. cbn [arg_ok arg_value arg_size arg_body arg_depth]. intros [Hl Hp] Hv Hn Hr Hc.
  destruct (reading_next _ _ _ _ _ Hr) as (r & rl & -> & Hnx & _). unfold parse_call_arg. destruct l as [[w ws]|].
  - destruct (reading_cons _ _ _ _ _ _ Hr) as (t & t1 & -> & Hk & Hw & Hu & Hne & H1).
    destruct (reading_cons _ _ _ _ _ _ H1) as (c & t2 & -> & Hck & _ & Hcu & Hcne & H2). cbn in Hk, Hw, Hck.
    destruct (Hv n _ t2 _ Hn H2 (proj1 (closes_stops _ Hc))) as (v' & Hpv & Hsame).
    run current_kind_upcoming. erewrite bind_eq; cycle 1.
    { unfold peek_kind. erewrite bind_eq by (eapply peek_upcoming; by rewrite Hu). done. }
    cbv beta iota zeta. rewrite decide_True by auto. erewrite bind_eq; cycle 1.
    { run current_upcoming. run text_of_ok. run bump_upcoming. run bump_upcoming. done. }
    cbv beta iota zeta. erewrite bind_eq by exact Hpv. cbv beta iota zeta. rewrite !advanced_advanced in *.
    cbn [length] in Hnx. destruct (previous_end_ok _ _ _ Hnx) as [z Hz].
    eexists (Build_CallArg _ (Some (w, token_span t)) v' _). split; cycle 1. { cbn. by rewrite Hsame. }
    erewrite advanced_eq by (cbn; done). erewrite bind_eq by exact Hz. done.
  - destruct (no_label_seen v p ts _ _ Hp Hr Hc) as (t & u & l & Hu & Hno).
    destruct (Hv n _ ts _ Hn Hr (proj1 (closes_stops _ Hc))) as (v' & Hpv & Hsame).
    run current_kind_upcoming. erewrite bind_eq; cycle 1.
    { unfold peek_kind. erewrite bind_eq by (eapply peek_upcoming; by rewrite Hu). done. }
    cbv beta iota zeta. rewrite decide_False by done. erewrite bind_eq by done. cbv beta iota zeta.
    erewrite bind_eq by exact Hpv. cbv beta iota zeta. destruct (previous_end_ok _ _ _ Hnx) as [z Hz].
    eexists (Build_CallArg _ None v' _). split; cycle 1. { cbn. by rewrite Hsame. }
    erewrite bind_eq by exact Hz. done.
Qed.

Lemma reading_commas p ts rest b ls d : reading p ts rest (commas (b :: ls)) d ->
  ls = [] /\ reading p ts rest b d \/
  exists t1 c t2, ts = t1 ++ c :: t2 /\ kind c = Comma /\ reading p t1 (c :: t2 ++ rest) b d /\
    upcoming (advanced (length t1) p) = c :: t2 ++ rest /\ t2 ++ rest <> [] /\
    reading (advanced (length t1 + 1) p) t2 rest (commas ls) d.
Proof.
  intros H. destruct ls as [|b' ls]; [by left|right]. change (commas (b :: b' :: ls)) with (b ++ (Comma, spelled ",") :: commas (b' :: ls)) in H.
  destruct (reading_app _ _ _ _ _ _ H) as (t1 & t2 & -> & H1 & H2).
  destruct (reading_cons _ _ _ _ _ _ H2) as (c & t3 & -> & Hk & _ & Hu & Hne & H3).
  exists t1, c, t3. rewrite <- advanced_advanced. by split_and!.
Qed.

(** Where an element begins a loop does not end. *)
Lemma first_opens p ts rest a d : reading p ts rest a d -> (exists s l, a = s :: l /\ opens s.1 = true) ->
  exists t l, upcoming p = t :: l /\ opens (kind t) = true.
Proof.
  intros Hr (s & l & -> & Hs). destruct (reading_cons _ _ _ _ _ _ Hr) as (t & ts' & -> & Hk & _ & Hu & _).
  exists t, (ts' ++ rest). by rewrite Hk.
Qed.

Lemma arg_first a : arg_ok a -> exists s l, arg_body a = s :: l /\ opens s.1 = true.
Proof.
  destruct a as [[x|] v sp]; cbn; intros [_ Hp]; [|by apply body_first]. eexists _, _. split; [done|].
  unfold opens. by destruct (calm Identifier).
Qed.

Lemma commas_first (P : Spelled -> Prop) b ls : (exists s l, b = s :: l /\ P s) -> exists s l, commas (b :: ls) = s :: l /\ P s.
Proof. intros (s & l & -> & Hs). destruct ls; [by exists s, l|]. by exists s; eexists. Qed.

Lemma call_args_ok n args : forall p ts rest acc F, Forall (fun a => arg_ok a /\ reads_expr (arg_value a)) args ->
  (2 * sum_list (map arg_size args) <= S n)%nat ->
  reading p ts rest (commas (map arg_body args)) (max_list (map arg_depth args)) -> head_kind rest = RParen -> (length args < F)%nat ->
  exists args', call_args_loop (knot (S n)) F acc p = (advanced (length ts) p, Ok (acc ++ args')) /\ map arg_strip args' = map arg_strip args.
Proof.
  induction args as [|a args IH]; intros p ts rest acc F Hok Hn Hr Hc HF; (destruct F as [|F]; [cbn in HF; lia|]); cbn [call_args_loop].
  - destruct (reading_next _ _ _ _ _ Hr) as (r & rl & -> & Hnx & _). apply reading_nil in Hr as (-> & Hu & _). cbn in Hc.
    run at_kind_yes. unfold at_eof. run at_kind_no. exists []. by rewrite app_nil_r, advanced_zero.
  - apply Forall_cons in Hok as [[Ha Hv] Hok]. cbn in Hn, HF. change (map arg_body (a :: args)) with (arg_body a :: map arg_body args) in Hr.
    destruct (first_opens _ _ _ _ _ Hr (commas_first _ _ _ (arg_first a Ha))) as (t & l & Hu & Hopen). apply opens_kind in Hopen as (Hr1 & He & _).
    run at_kind_no. unfold at_eof. run at_kind_no. cbn [orb]. erewrite bind_eq by done. cbv beta iota zeta.
    destruct (reading_commas _ _ _ _ _ _ Hr) as [[Hnil H1]|(t1 & c & t2 & -> & Hck & H1 & Hu2 & Hne & H2)].
    + destruct (call_arg a n p ts rest Ha Hv) as (a' & Hp & Hs); [lia|eapply reading_less; [exact H1|cbn; lia]|by right; left|].
      destruct (reading_next _ _ _ _ _ H1) as (r & rl & -> & Hnx & _). cbn in Hc.
      erewrite bind_eq by exact Hp. cbv beta iota zeta. run eat_no. exists [a']. split; [done|]. cbn. rewrite Hs.
      by destruct args.
    + destruct (call_arg a n p t1 (c :: t2 ++ rest) Ha Hv) as (a' & Hp & Hs); [lia|eapply reading_less; [exact H1|cbn; lia]|by left|].
      erewrite bind_eq by exact Hp. cbv beta iota zeta. run eat_yes. erewrite bind_eq by done. cbv beta iota zeta.
      rewrite decide_False by (cbn; lia). erewrite bind_eq by done. cbv beta iota zeta. rewrite advanced_advanced.
      destruct (IH (advanced (length t1 + 1) p) t2 rest (acc ++ [a']) F Hok) as (args' & Hloop & Hss); [lia| |done|lia|].
      { eapply reading_less; [exact H2|cbn; lia]. }
      exists (a' :: args'). rewrite Hloop, advanced_advanced, <- app_assoc. split; [|cbn; by rewrite Hs, Hss].
      erewrite advanced_eq; [done|]. rewrite length_app. cbn. lia.
Qed.

Lemma commas_length (ls : list (list Spelled)) : Forall (fun l => exists s r, l = s :: r /\ opens s.1 = true) ls -> (length ls <= length (commas ls))%nat.
Proof.
  induction ls as [|l ls IH]; intros H; [done|]. apply Forall_cons in H as [(s & r & -> & _) H]. specialize (IH H).
  destruct ls as [|l' ls]; [cbn; lia|]. change (commas ((s :: r) :: l' :: ls)) with ((s :: r) ++ (Comma, spelled ",") :: commas (l' :: ls)).
  rewrite length_app. cbn in *. lia.
Qed.

Lemma reading_length p ts rest a d : reading p ts rest a d -> length ts = length a.
Proof. intros [_ _ H _]. by eapply Forall2_length. Qed.

(** The turns of a loop over a list are enough. *)
Lemma turns_list p ts rest ls d : reading p ts rest (commas ls) d -> Forall (fun l => exists s r, l = s :: r /\ opens s.1 = true) ls ->
  exists F, turns p = (p, Ok F) /\ (length ls < F)%nat.
Proof.
  intros Hr Hls. destruct (turns_over _ _ _ (reading_up _ _ _ _ _ Hr)) as (F & HF & Hlt). exists F. split; [done|].
  apply commas_length in Hls. rewrite (reading_length _ _ _ _ _ Hr) in Hlt. lia.
Qed.

(** Something in brackets: what opens it, what is in it, what closes it. *)
Lemma reading_between p ts rest o a c d : reading p ts rest (o :: a ++ [c]) d -> exists t t1 u,
  ts = t :: t1 ++ [u] /\ kind t = o.1 /\ kind u = c.1 /\ upcoming p = t :: t1 ++ u :: rest /\
  reading (advanced 1 p) t1 (u :: rest) a d /\ upcoming (advanced (1 + length t1) p) = u :: rest /\ rest <> [].
Proof.
  intros Hr. destruct (reading_cons _ _ _ _ _ _ Hr) as (t & ts' & -> & Hk & _ & Hu & _ & H1).
  destruct (reading_app _ _ _ _ _ _ H1) as (t1 & t2 & -> & H2 & H3).
  destruct (reading_cons _ _ _ _ _ _ H3) as (u & t3 & -> & Hck & _ & Hcu & Hne & H4). apply reading_nil in H4 as (-> & _ & _).
  rewrite advanced_advanced in Hcu. exists t, t1, u. split_and!; try done. by rewrite Hu, <- app_assoc.
Qed.

Lemma call_args_read n args p ts rest d : Forall (fun a => arg_ok a /\ reads_expr (arg_value a)) args ->
  (2 * sum_list (map arg_size args) <= S n)%nat -> (max_list (map arg_depth args) <= d)%nat ->
  reading p ts rest ((LParen, spelled "(") :: commas (map arg_body args) ++ [(RParen, spelled ")")]) d ->
  exists args', parse_call_args (knot (S n)) p = (advanced (length ts) p, Ok args') /\ map arg_strip args' = map arg_strip args.
Proof.
  intros Hok Hn Hd Hr. destruct (reading_between _ _ _ _ _ _ _ Hr) as (t & t1 & u & -> & Hk & Huk & Hu & H1 & Hu1 & Hne).
  cbn in Hk, Huk. apply (reading_less _ _ _ _ _ _) with (2 := Hd) in H1.
  destruct (turns_list _ _ _ _ _ H1) as (F & HF & Hlt).
  { apply Forall_map. eapply Forall_impl; [exact Hok|]. intros a [Ha _]. by apply arg_first. }
  rewrite length_map in Hlt. destruct (call_args_ok n args _ t1 (u :: rest) [] F Hok Hn (reading_flag _ _ _ _ _ H1)) as (args' & Hp & Hs); [done|done|].
  exists args'. split; [|done]. unfold parse_call_args. assert (t1 ++ u :: rest <> []) as Hne1 by by destruct t1.
  run bump_upcoming.
  erewrite bind_eq by exact HF. cbv beta iota zeta. erewrite bind_eq by (apply literals_ok; exact Hp). cbv beta iota zeta.
  rewrite advanced_advanced. run expect_yes. rewrite advanced_advanced. erewrite advanced_eq; [done|]. cbn. rewrite length_app. cbn. lia.
Qed.

Lemma array_end_is p t l : upcoming p = t :: l ->
  at_array_end p = (p, Ok (bool_decide (kind t = RBracket \/ kind t = RBrace \/ kind t = Eof_))).
Proof. intros H. unfold at_array_end. run current_kind_upcoming. done. Qed.

Lemma skip_unknown_no p t l : upcoming p = t :: l -> kind t <> Unknown -> skip_unknown p = (p, Ok tt).
Proof. intros H Hk. unfold skip_unknown. erewrite bind_eq by done. cbv beta iota zeta. cbn [skip_unknown_loop]. run at_kind_no. done. Qed.

Lemma separator_yes p t l : upcoming p = t :: l -> l <> [] -> kind t = Comma -> eat_separator p = (advanced 1 p, Ok true).
Proof. intros H Hl Hk. unfold eat_separator. run eat_yes. done. Qed.

Lemma separator_no p t l : upcoming p = t :: l -> kind t <> Comma -> kind t <> Unknown -> eat_separator p = (p, Ok false).
Proof. intros H Hk Hn. unfold eat_separator. run eat_no. run at_kind_no. done. Qed.

Lemma array_ok n es : forall p ts rest acc F, Forall (fun e => printable e /\ reads_expr e) es ->
  (2 * sum_list (map size es) <= S n)%nat ->
  reading p ts rest (commas (map body es)) (max_list (map (fun e => S (depth e)) es)) -> head_kind rest = RBracket -> (length es < F)%nat ->
  exists es', array_loop (knot (S n)) F acc p = (advanced (length ts) p, Ok (acc ++ es')) /\ map strip es' = map strip es.
Proof.
  induction es as [|e es IH]; intros p ts rest acc F Hok Hn Hr Hc HF; (destruct F as [|F]; [cbn in HF; lia|]); cbn [array_loop].
  - destruct (reading_next _ _ _ _ _ Hr) as (r & rl & -> & Hnx & _). apply reading_nil in Hr as (-> & Hu & _). cbn in Hc.
    run array_end_is. rewrite bool_decide_true by auto. exists []. by rewrite app_nil_r, advanced_zero.
  - apply Forall_cons in Hok as [[Ha Hv] Hok]. cbn in Hn, HF. change (map body (e :: es)) with (body e :: map body es) in Hr.
    destruct (first_opens _ _ _ _ _ Hr (commas_first _ _ _ (body_first e Ha))) as (t & l & Hu & Hopen).
    apply opens_kind in Hopen as (_ & He & Hb & Hbr & Hun).
    run array_end_is. rewrite bool_decide_false by tauto. erewrite bind_eq by done. cbv beta iota zeta.
    run skip_unknown_no. run array_end_is. rewrite bool_decide_false by tauto.
    destruct (reading_commas _ _ _ _ _ _ Hr) as [[Hnil H1]|(t1 & c & t2 & -> & Hck & H1 & Hu2 & Hne & H2)].
    + destruct (Hv n p ts rest) as (e' & Hp & Hs); [lia|eapply reading_less; [exact H1|cbn; lia]|by rewrite Hc|].
      destruct (reading_next _ _ _ _ _ H1) as (r & rl & -> & Hnx & _). cbn in Hc.
      erewrite bind_eq by exact Hp. cbv beta iota zeta. run separator_no. run array_end_is. rewrite bool_decide_true by auto.
      cbn [negb andb]. erewrite bind_eq by done. cbv beta iota zeta. erewrite bind_eq by done. cbv beta iota zeta.
      pose proof (reading_length _ _ _ _ _ H1). destruct (body_first e Ha) as (s0 & b & Hb1 & _). rewrite Hb1 in *. cbn in *.
      rewrite decide_False by (cbn; lia). erewrite bind_eq by done. cbv beta iota zeta. destruct es; [|done]. destruct F as [|F]; [lia|].
      cbn [array_loop]. run array_end_is. rewrite bool_decide_true by auto. exists [e']. split; [done|]. cbn. by rewrite Hs.
    + destruct (Hv n p t1 (c :: t2 ++ rest)) as (e' & Hp & Hs); [lia|eapply reading_less; [exact H1|cbn; lia]|cbn; by rewrite Hck|].
      erewrite bind_eq by exact Hp. cbv beta iota zeta. run separator_yes. rewrite advanced_advanced.
      destruct (upcoming (advanced (length t1 + 1) p)) as [|v vl] eqn:Hv1; [by apply reading_some in H2|].
      run array_end_is. cbn [negb andb]. erewrite bind_eq by done. cbv beta iota zeta. erewrite bind_eq by done. cbv beta iota zeta.
      rewrite decide_False by (cbn; lia). erewrite bind_eq by done. cbv beta iota zeta.
      destruct (IH (advanced (length t1 + 1) p) t2 rest (acc ++ [e']) F Hok) as (es' & Hloop & Hss); [lia| |done|lia|].
      { eapply reading_less; [exact H2|cbn; lia]. }
      exists (e' :: es'). rewrite Hloop, advanced_advanced, <- app_assoc. split; [|cbn; by rewrite Hs, Hss].
      erewrite advanced_eq; [done|]. rewrite length_app. cbn. lia.
Qed.

Lemma chain_array es s : Forall (fun e => printable e /\ reads_expr e) es -> chain_bare (Expr_ArrayLit es s).
Proof.
  intros Hes n p ts rest F Hn Hr _ _ _. cbn [size depth body] in *.
  destruct (reading_between _ _ _ _ _ _ _ Hr) as (t & t1 & u & -> & Hk & Huk & Hu & H1 & Hu1 & Hne). cbn in Hk, Huk.
  destruct (turns_list _ _ _ _ _ H1) as (F' & HF & Hlt).
  { apply Forall_map. eapply Forall_impl; [exact Hes|]. intros e [He _]. by apply body_first. }
  destruct n as [|n]; [lia|]. rewrite length_map in Hlt.
  destruct (array_ok n es _ t1 (u :: rest) [] F' Hes ltac:(lia) (reading_flag _ _ _ _ _ H1)) as (es' & Hp & Hs); [done|done|].
  assert (t1 ++ u :: rest <> []) as Hne1 by by destruct t1.
  destruct rest as [|v rest]; [done|]. assert (upcoming (advanced (length t1 + 1) (advanced 1 p)) = v :: rest) as Hv.
  { rewrite advanced_advanced. rewrite (advanced_eq _ (1 + length t1 + 1)) by lia. rewrite <- advanced_advanced. by apply (upcoming_advanced _ [u]). }
  destruct (previous_end_ok _ _ _ Hv) as [z Hz].
  eapply (reaches_done _ _ _ _ _ _ (Expr_ArrayLit es' (from_bounds (start (token_span t)) z))); [|cbn; f_equal; exact Hs].
  primary. unfold parse_array_literal. run current_upcoming. run bump_upcoming. erewrite bind_eq by exact HF. cbv beta iota zeta.
  erewrite bind_eq by (apply literals_ok; exact Hp). cbv beta iota zeta. rewrite advanced_advanced. run expect_yes.
  rewrite advanced_advanced in Hz |- *. rewrite (advanced_eq _ (1 + (length t1 + 1)) p) by lia. erewrite bind_eq by exact Hz.
  cbv beta iota zeta. erewrite advanced_eq; [done|]. cbn. rewrite length_app. cbn. lia.
Qed.

Lemma reading_end p ts rest a d : reading p ts rest a d -> exists z, previous_end (advanced (length ts) p) = (advanced (length ts) p, Ok z).
Proof. intros Hr. destruct (reading_next _ _ _ _ _ Hr) as (u & l & _ & Hu & _). by eapply previous_end_ok. Qed.

Lemma tuple_ok n es : forall p ts rest acc F, Forall (fun e => printable e /\ reads_expr e) es ->
  (2 * sum_list (map size es) <= S n)%nat -> (length acc + length es <= 4)%nat ->
  reading p ts rest (commas (map body es)) (max_list (map (fun e => S (depth e)) es)) -> head_kind rest = RParen -> (length es < F)%nat ->
  exists es', tuple_loop (knot (S n)) F acc p = (advanced (length ts) p, Ok (acc ++ es')) /\ map strip es' = map strip es.
Proof.
  induction es as [|e es IH]; intros p ts rest acc F Hok Hn H4 Hr Hc HF; (destruct F as [|F]; [cbn in HF; lia|]); cbn [tuple_loop].
  - destruct (reading_next _ _ _ _ _ Hr) as (r & rl & -> & Hnx & _). apply reading_nil in Hr as (-> & Hu & _). cbn in Hc.
    run at_kind_yes. unfold at_eof. run at_kind_no. exists []. by rewrite app_nil_r, advanced_zero.
  - apply Forall_cons in Hok as [[Ha Hv] Hok]. cbn in Hn, HF, H4. change (map body (e :: es)) with (body e :: map body es) in Hr.
    destruct (first_opens _ _ _ _ _ Hr (commas_first _ _ _ (body_first e Ha))) as (t & l & Hu & Hopen).
    apply opens_kind in Hopen as (Hr1 & He & _). run at_kind_no. unfold at_eof. run at_kind_no. cbn [orb].
    assert (forall e', (4 <? length (acc ++ [e'] : list Expr))%nat = false) as Hmax.
    { intros e'. rewrite length_app. apply Nat.ltb_ge. cbn. lia. }
    destruct (reading_commas _ _ _ _ _ _ Hr) as [[Hnil H1]|(t1 & c & t2 & -> & Hck & H1 & Hu2 & Hne & H2)].
    + destruct (Hv n (with_literal_flag false p) ts rest) as (e' & Hp & Hs);
        [lia|eapply reading_less; [by apply reading_flag|cbn; lia]|by rewrite Hc|].
      destruct (reading_next _ _ _ _ _ H1) as (r & rl & -> & Hnx & _). cbn in Hc.
      erewrite bind_eq by (apply literals_ok; exact Hp). cbv beta iota zeta. rewrite Hmax. erewrite bind_eq by done. cbv beta iota zeta.
      run eat_no. exists [e']. split; [done|]. cbn. rewrite Hs. by destruct es.
    + destruct (Hv n (with_literal_flag false p) t1 (c :: t2 ++ rest)) as (e' & Hp & Hs);
        [lia|eapply reading_less; [by apply reading_flag|cbn; lia]|cbn; by rewrite Hck|].
      erewrite bind_eq by (apply literals_ok; exact Hp). cbv beta iota zeta. rewrite Hmax. erewrite bind_eq by done. cbv beta iota zeta.
      run eat_yes. rewrite advanced_advanced.
      destruct (IH (advanced (length t1 + 1) p) t2 rest (acc ++ [e']) F Hok) as (es' & Hloop & Hss); [lia|rewrite length_app; cbn; lia| |done|lia|].
      { eapply reading_less; [exact H2|cbn; lia]. }
      exists (e' :: es'). rewrite Hloop, advanced_advanced, <- app_assoc. split; [|cbn; by rewrite Hs, Hss].
      erewrite advanced_eq; [done|]. rewrite length_app. cbn. lia.
Qed.

Lemma chain_tuple es s : (2 <= length es <= 4)%nat -> Forall (fun e => printable e /\ reads_expr e) es -> chain_bare (Expr_Tuple es s).
Proof.
  intros Hlen Hes n p ts rest F Hn Hr _ _ _. cbn [size depth body] in *. destruct n as [|n]; [lia|].
  destruct (reading_end _ _ _ _ _ Hr) as [z Hz].
  destruct (reading_between _ _ _ _ _ _ _ Hr) as (t & t1 & u & -> & Hk & Huk & Hu & H1 & Hu1 & Hne). cbn in Hk, Huk.
  destruct es as [|e es]; [cbn in Hlen; lia|]. apply Forall_cons in Hes as [[He Hv] Hes]. cbn in Hlen, Hn.
  change (map body (e :: es)) with (body e :: map body es) in H1.
  destruct (reading_commas _ _ _ _ _ _ H1) as [[Hnil _]|(t2 & c & t3 & -> & Hck & H2 & Hu2 & Hne2 & H3)]; [by destruct es; [cbn in Hlen; lia|]|].
  destruct (Hv n (with_literal_flag false (advanced 1 p)) t2 (c :: t3 ++ u :: rest)) as (e' & Hp & Hs);
    [lia|eapply reading_less; [by apply reading_flag|cbn; lia]|cbn; by rewrite Hck|].
  rewrite advanced_advanced in H3, Hu2.
  destruct (turns_list _ _ _ _ _ H3) as (F' & HF & Hlt).
  { apply Forall_map. eapply Forall_impl; [exact Hes|]. intros x [Hx _]. by apply body_first. }
  rewrite length_map in Hlt.
  destruct (tuple_ok n es (advanced (1 + (length t2 + 1)) p) t3 (u :: rest) [e'] F' Hes) as (es' & Hl & Hss); [lia|cbn; lia| |done|done|].
  { eapply reading_less; [exact H3|cbn; lia]. }
  assert ((t2 ++ c :: t3) ++ u :: rest <> []) as Hne1 by by destruct t2.
  eapply (reaches_done _ _ _ _ _ _ (Expr_Tuple (e' :: es') (from_bounds (start (token_span t)) z))).
  2: { cbn. f_equal. f_equal; [apply Hs|done]. }
  primary. unfold parse_paren. run current_upcoming. run bump_upcoming.
  erewrite bind_eq by (apply literals_ok; exact Hp). cbv beta iota zeta. rewrite !advanced_advanced. run eat_yes.
  rewrite !advanced_advanced. replace (1 + (length t2 + 1))%nat with (1 + length t2 + 1)%nat in * by lia.
  erewrite bind_eq by exact HF. cbv beta iota zeta. erewrite bind_eq by exact Hl. cbv beta iota zeta.
  rewrite !advanced_advanced. erewrite bind_eq; cycle 1.
  { eapply expect_yes; [|exact Hne|exact Huk]. rewrite <- Hu1. f_equal. apply advanced_eq. rewrite length_app. cbn. lia. }
  cbv beta iota zeta. rewrite !advanced_advanced in *. erewrite advanced_eq; [erewrite bind_eq by exact Hz; done|].
  cbn. rewrite !length_app. cbn. lia.
Qed.

Lemma chain_call w ws args s : name_ok w -> Forall (fun a => arg_ok a /\ reads_expr (arg_value a)) args -> chain_bare (Expr_Call w ws false [] args [] None s).
Proof.
  intros Hname Hok n p ts rest F Hn Hr _ _ _. cbn [size depth body] in *. destruct n as [|n]; [lia|].
  destruct (reading_end _ _ _ _ _ Hr) as [z Hz].
  destruct (reading_cons _ _ _ _ _ _ Hr) as (t & t1 & -> & Hk & Hw & Hu & Hne & H1). cbn in Hk, Hw.
  destruct (call_args_read n args _ _ _ _ Hok ltac:(change (map arg_size args) with (map (fun a : CallArg Expr => match a with Build_CallArg _ _ v _ => size v end) args); lia)
    (Nat.le_refl _) H1) as (args' & Hp & Hs).
  destruct (reading_cons _ _ _ _ _ _ H1) as (o & t2 & -> & Hok' & _ & Hou & _ & _). cbn in Hok'.
  eapply (reaches_done _ _ _ _ _ _ (Expr_Call w (token_span t) false [] args' [] None (from_bounds (start (token_span t)) z))).
  2: { cbn. f_equal. exact Hs. }
  primary. unfold parse_name_or_call. run text_of_ok. run bump_upcoming. run at_kind_no. rewrite Bool.andb_false_r. run at_kind_no.
  run type_args_no. rewrite Bool.andb_false_r. cbn [orb]. erewrite bind_eq by done. cbv beta iota zeta.
  run at_kind_yes. erewrite bind_eq by exact Hp. cbv beta iota zeta.
  rewrite advanced_advanced. erewrite bind_eq by exact Hz. done.
Qed.

(** A postfix onto a chain: the base, then one turn of the loop. *)
Lemma chain_postfix x e n p ts1 ts2 rest F : package x -> (2 * size x <= n)%nat -> 
  reading p ts1 (ts2 ++ rest) (wrap POSTFIX x (body x)) (asked POSTFIX x) -> (2 <= length ts2)%nat ->
  head_kind (ts2 ++ rest) = Dot \/ head_kind (ts2 ++ rest) = LBracket -> (length (ts1 ++ ts2) < F)%nat ->
  (forall x' F', strip x' = strip x -> exists e', strip e' = strip e /\
    postfix_loop (knot n) (S F') x' (advanced (length ts1) p) = postfix_loop (knot n) F' e' (advanced (length (ts1 ++ ts2)) p)) ->
  reaches (parse_primary (knot n)) (postfix_loop (knot n)) F p (ts1 ++ ts2) e.
Proof.
  intros Hx Hn Hr H2 Hh HF Hstep. rewrite length_app in HF.
  destruct (package_chain x Hx n p ts1 (ts2 ++ rest) F) as (e0 & k & x' & F' & H0 & Hx' & HF' & Hloop);
    [unfold fuel_ok; destruct (level x <? POSTFIX)%nat; lia|done|tauto|by intros _; destruct Hh as [-> | ->]|lia|].
  destruct F' as [|F']; [lia|]. destruct (Hstep x' F' Hx') as (e' & He & Hnext).
  exists e0, k, e', F'. split_and!; [done|done|rewrite length_app; lia|]. by rewrite Hloop.
Qed.

Lemma chain_field x w ws s : package x -> chain_bare (Expr_Field x w ws s).
Proof.
  intros Hx n p ts rest F Hn Hr Hs _ HF. cbn [size depth body] in *.
  destruct (reading_app _ _ _ _ _ _ Hr) as (t1 & t2 & -> & H1 & H2).
  destruct (reading_cons _ _ _ _ _ _ H2) as (d & t3 & -> & Hdk & _ & Hdu & Hdne & H3).
  destruct (reading_cons _ _ _ _ _ _ H3) as (f & t4 & -> & Hfk & Hfw & Hfu & Hfne & H4).
  destruct (reading_next _ _ _ _ _ H4) as (u & l & -> & Hun & Hh). apply reading_nil in H4 as [-> _]. cbn in Hdk, Hfk, Hfw, Hs, Hfne.
  assert (kind u <> LBrace /\ kind u <> LParen) as [Hb Hpa].
  { destruct Hs as [Hs|[-> | ->]]; [|done|done]. apply stops_kind in Hs. tauto. }
  eapply chain_postfix; [exact Hx|lia|exact H1|cbn; lia|by left; cbn|done|].
  rewrite !advanced_advanced in *.
  assert (upcoming (advanced (length t1 + 1 + 1) p) = u :: l) as Hu1 by (rewrite <- advanced_advanced; by apply (upcoming_advanced _ [f])).
  intros x' F' Hx'.
  eexists (Expr_Field x' w (token_span f) _). split; cycle 1.
  { cbn [postfix_loop]. run at_kind_yes. erewrite bind_eq; cycle 1.
    { unfold parse_dot_postfix. run bump_upcoming. rewrite !advanced_advanced. run current_upcoming. rewrite decide_False by tauto.
      run text_of_ok. run bump_upcoming. rewrite !advanced_advanced. run at_kind_no. run at_kind_no. run closure_start_no.
      cbn [andb]. erewrite bind_eq by done. cbv beta iota zeta. run trailing_block_no. done. }
    cbv beta iota zeta. erewrite advanced_eq; [done|]. rewrite length_app. cbn. lia. }
  cbn. by rewrite Hx'.
Qed.

Lemma chain_method x w ws args s : package x -> Forall (fun a => arg_ok a /\ reads_expr (arg_value a)) args ->
  chain_bare (Expr_MethodCall x w ws args [] s).
Proof.
  intros Hx Hok n p ts rest F Hn Hr _ _ HF. cbn [size depth body] in *.
  change (sum_list _) with (sum_list (map arg_size args)) in Hn. destruct n as [|n]; [lia|].
  destruct (reading_end _ _ _ _ _ Hr) as [z Hz].
  destruct (reading_app _ _ _ _ _ _ Hr) as (t1 & t2 & -> & H1 & H2).
  destruct (reading_cons _ _ _ _ _ _ H2) as (d & t3 & -> & Hdk & _ & Hdu & Hdne & H3).
  destruct (reading_cons _ _ _ _ _ _ H3) as (f & t4 & -> & Hfk & Hfw & Hfu & Hfne & H4). cbn in Hdk, Hfk, Hfw, Hfne.
  destruct (call_args_read n args _ _ _ _ Hok ltac:(lia) (Nat.le_max_r _ _) H4) as (args' & Hp & Hs).
  destruct (reading_cons _ _ _ _ _ _ H4) as (o & t5 & -> & Hok' & _ & Hou & _ & _). cbn in Hok'.
  eapply chain_postfix; [exact Hx|lia|eapply reading_less; [exact H1|unfold asked; lia]|cbn; lia|by left; cbn|done|].
  intros x' F' Hx'.
  eexists (Expr_MethodCall x' w (token_span f) args' [] _). split; cycle 1.
  { cbn [postfix_loop]. run at_kind_yes. erewrite bind_eq; cycle 1.
    { unfold parse_dot_postfix. run bump_upcoming. run current_upcoming. rewrite decide_False by tauto.
      run text_of_ok. run bump_upcoming. run at_kind_yes.
      erewrite bind_eq by exact Hp. cbv beta iota zeta. rewrite !advanced_advanced.
      erewrite advanced_eq; [erewrite bind_eq by exact Hz; done|]. rewrite !length_app. cbn. lia. }
    done. }
  cbn. rewrite Hx'. f_equal. exact Hs.
Qed.

Lemma chain_index x i s : package x -> reads_expr i -> chain_bare (Expr_Index x i s).
Proof.
  intros Hx Hi n p ts rest F Hn Hr _ _ HF. cbn [size depth body] in *. destruct n as [|n]; [lia|].
  destruct (reading_end _ _ _ _ _ Hr) as [z Hz].
  destruct (reading_app _ _ _ _ _ _ Hr) as (t1 & t2 & -> & H1 & H2).
  destruct (reading_between _ _ _ _ _ _ _ H2) as (t & t3 & u & -> & Hk & Huk & Hu & H3 & Hu3 & Hne). cbn in Hk, Huk.
  destruct (Hi n (with_literal_flag false (advanced 1 (advanced (length t1) p))) t3 (u :: rest)) as (i' & Hp & Hs);
    [lia|eapply reading_less; [by apply reading_flag|lia]|cbn; by rewrite Huk|].
  eapply chain_postfix; [exact Hx|lia|eapply reading_less; [exact H1|unfold asked; lia]|cbn; rewrite length_app; cbn; lia|by right; cbn|done|].
  assert (t3 ++ u :: rest <> []) as Hne1 by by destruct t3.
  intros x' F' Hx'. eexists (Expr_Index x' i' _). split; cycle 1.
  { cbn [postfix_loop]. run at_kind_no. run at_kind_yes. run bump_upcoming.
    erewrite bind_eq by (apply literals_ok; exact Hp). cbv beta iota zeta. rewrite !advanced_advanced in *.
    replace (length t1 + 1 + length t3)%nat with (length t1 + (1 + length t3))%nat by lia. run expect_yes. rewrite !advanced_advanced.
    rewrite (advanced_eq _ (length (t1 ++ t :: t3 ++ [u])) p) by (rewrite !length_app; cbn; rewrite !length_app; cbn; lia).
    erewrite bind_eq by exact Hz. done. }
  cbn. by rewrite Hx', Hs.
Qed.

(** ** Every tree *)

Lemma package_of e : printable e -> reads_expr e -> ((POSTFIX <= level e)%nat -> chain_bare e) ->
  ((PREFIX <= level e)%nat -> unary_bare e) -> (forall c, (1 <= c <= level e)%nat -> binary_bare c e) -> package e.
Proof.
  intros Hp He Hc Hu Hb. constructor; [done| |by apply unary_package|by apply chain_package].
  intros c H1. apply binary_package; [done|]. intros H. by apply Hb.
Qed.

Lemma package_chained e : printable e -> level e = POSTFIX -> chain_bare e -> package e.
Proof.
  intros Hp Hl Hc. assert (unary_bare e) as Hu by (apply unary_of_chain; [done|lia|done]).
  apply package_of; try done; [|by intros c _; apply binary_of_unary].
  apply expr_of_binary; [rewrite Hl; unfold POSTFIX; lia|by apply binary_of_unary].
Qed.

Lemma package_binary_bare e : printable e -> (1 <= level e < PREFIX)%nat -> (forall c, (1 <= c <= level e)%nat -> binary_bare c e) -> package e.
Proof.
  intros Hp Hl Hb. apply package_of; try done; try (unfold PREFIX, POSTFIX in *; lia).
  apply expr_of_binary; [lia|]. apply Hb. lia.
Qed.

Lemma foldr_and {A} (P : A -> Prop) l : foldr and True (map P l) <-> Forall P l.
Proof. induction l as [|x l IH]; cbn; [done|]. rewrite Forall_cons, IH. done. Qed.

Lemma in_sum {A} (f : A -> nat) x l : x ∈ l -> (f x <= sum_list (map f l))%nat.
Proof. induction 1 as [|? ? ? _ IH]; cbn; lia. Qed.

Lemma elements_read n (IH : forall e, (size e < n)%nat -> printable e -> package e) es :
  (sum_list (map size es) < n)%nat -> foldr and True (map printable es) -> Forall (fun e => printable e /\ reads_expr e) es.
Proof.
  intros Hn Hp%foldr_and. rewrite Forall_forall in *. intros e He. split; [by apply Hp|]. apply package_expr, IH; [|by apply Hp].
  pose proof (in_sum size e es He). lia.
Qed.

Lemma args_read n (IH : forall e, (size e < n)%nat -> printable e -> package e) args :
  (sum_list (map arg_size args) < n)%nat -> foldr and True (map arg_ok args) -> Forall (fun a => arg_ok a /\ reads_expr (arg_value a)) args.
Proof.
  intros Hn Hp%foldr_and. rewrite Forall_forall in *. intros a Ha. split; [by apply Hp|]. specialize (Hp a Ha).
  pose proof (in_sum arg_size a args Ha). destruct a as [l v sp]. cbn in *. apply package_expr, IH; [lia|tauto].
Qed.

Lemma packages n : forall e, (size e < n)%nat -> printable e -> package e.
Proof.
  induction n as [|n IH]; intros e Hn Hp; [lia|].
  destruct e; try done; pose proof Hp as Hp'; cbn [printable] in Hp'; cbn [size] in Hn.
  - by apply package_chained, chain_int.
  - by apply package_chained, chain_bool.
  - by apply package_chained, chain_string.
  - by apply package_chained, chain_name.
  - assert (unary_bare (Expr_Unary op e span_)) as Hu by (apply unary_prefix, IH; [lia|done]).
    apply package_of; try done; [|by cbn; unfold PREFIX, POSTFIX; lia|by intros c _; apply binary_of_unary].
    apply expr_of_binary; [cbn; unfold PREFIX; lia|by apply binary_of_unary].
  - pose proof (power_range op). apply package_binary_bare; [done|cbn; unfold PREFIX; lia|]. intros c Hc.
    apply binary_operator; [apply Hc|apply IH; [lia|tauto]..].
  - apply package_chained; [done..|]. apply chain_tuple; [tauto|]. apply (elements_read n IH); [lia|tauto].
  - assert (reads_expr (Expr_Conditional e1 e2 e3 span_)) as He.
    { apply expr_conditional; [apply IH; [lia|tauto]|apply package_expr, IH; [lia|tauto]..]. }
    apply package_of; try done; cbn; unfold PREFIX, POSTFIX; lia.
  - destruct Hp' as [(-> & -> & -> & ->) Hp']. apply package_chained; [done..|]. apply chain_call; [tauto|]. change (sum_list _) with (sum_list (map arg_size args)) in Hn.
    apply (args_read n IH); [lia|tauto].
  - destruct Hp' as [-> Hp']. apply package_chained; [done..|]. apply chain_method; [apply IH; [lia|tauto]|].
    change (sum_list _) with (sum_list (map arg_size args)) in Hn. apply (args_read n IH); [lia|tauto].
  - apply package_chained; [done..|]. apply chain_field, IH; [lia|tauto].
  - apply package_chained; [done..|]. apply chain_array, (elements_read n IH); [lia|done].
  - apply package_chained; [done..|]. apply chain_index; [apply IH; [lia|tauto]|apply package_expr, IH; [lia|tauto]].
  - apply package_binary_bare; [done|cbn; unfold PREFIX; lia|]. intros c Hc. cbn in Hc. apply binary_try; [lia|]. apply IH; [lia|done].
Qed.

(** ** As text *)

Definition piece (s : Spelled) : Piece := {| before := spelled " "; as_kind := s.1; spelling := s.2 |}.

(** The text of a tree: its pieces, a space before each. *)
Definition expr_text (e : Expr) : rstring := written (map piece (body e)) [].

Definition lexed (s : Spelled) : Prop := lexeme s.1 s.2.

Lemma operator_lexed k w : bool_decide ((w, k) ∈ operators) = true -> lexed (k, w).
Proof. intros H. apply lexeme_operator. by apply (bool_decide_eq_true_1 _). Qed.

Lemma try_lexed : lexed (Try_, spelled "try").
Proof. apply (lexeme_word x74 [x72; x79]); [done|by repeat constructor]. Qed.

Lemma bool_lexed (b : bool) : lexed (if b then (True_, spelled "true") else (False_, spelled "false")).
Proof. destruct b; [apply (lexeme_word x74 [x72; x75; x65])|apply (lexeme_word x66 [x61; x6c; x73; x65])]; try done; by repeat constructor. Qed.

Lemma int_lexed v : 0 <= v < 2 ^ 63 -> lexed (IntLiteral, i64_to_string v).
Proof.
  intros Hv. unfold i64_to_string. destruct (Z.ltb_spec v 0) as [|_]; [lia|]. destruct (digits_cons v) as (b & r & -> & Hd & _); [lia|].
  by apply lexeme_int.
Qed.

Lemma wrap_lexed c e l : Forall lexed l -> Forall lexed (wrap c e l).
Proof.
  intros H. destruct (wrap_cases c e l) as [[-> _]|[-> _]]; [done|]. constructor; [by apply operator_lexed|].
  apply Forall_app. split; [done|]. constructor; [by apply operator_lexed|constructor].
Qed.

Lemma commas_lexed ls : Forall (Forall lexed) ls -> Forall lexed (commas ls).
Proof.
  induction 1 as [|l ls Hl Hls IH]; [constructor|]. destruct ls as [|l' ls]; [done|].
  change (commas (l :: l' :: ls)) with (l ++ (Comma, spelled ",") :: commas (l' :: ls)). apply Forall_app. split; [done|].
  constructor; [by apply operator_lexed|done].
Qed.

Lemma binary_lexed op : lexed (binary_token op).
Proof. destruct op; by apply operator_lexed. Qed.
Lemma unary_lexed op : lexed (unary_token op).
Proof. destruct op; by apply operator_lexed. Qed.

Ltac lexes := repeat first [assumption | apply wrap_lexed | apply commas_lexed | apply binary_lexed | apply unary_lexed | apply bool_lexed
  | apply try_lexed | apply int_lexed | by apply operator_lexed | apply Forall_nil | apply Forall_cons; split | apply Forall_app; split].

Lemma body_lexed n : forall e, (size e < n)%nat -> printable e -> Forall lexed (body e).
Proof.
  induction n as [|n IH]; intros e Hn Hp; [lia|].
  assert (forall es, (sum_list (map size es) < n)%nat -> foldr and True (map printable es) -> Forall (Forall lexed) (map body es)) as Hes.
  { intros es Hs Hall%foldr_and. apply Forall_map, Forall_forall. intros e' He'. rewrite Forall_forall in Hall.
    pose proof (in_sum size e' es He'). apply IH; [lia|by apply Hall]. }
  assert (forall args, (sum_list (map arg_size args) < n)%nat -> foldr and True (map arg_ok args) -> Forall (Forall lexed) (map arg_body args)) as Hargs.
  { intros args Hs Hall%foldr_and. apply Forall_map, Forall_forall. intros a Ha. rewrite Forall_forall in Hall. specialize (Hall a Ha).
    pose proof (in_sum arg_size a args Ha). destruct a as [[x|] v sp]; cbn in *; destruct Hall as [Hx Hv]; [|apply IH; [lia|done]].
    constructor; [apply Hx|]. constructor; [by apply operator_lexed|]. apply IH; [lia|done]. }
  destruct e; cbn [printable size] in Hp, Hn; try done; cbn [body]; lexes; try done;
    try (apply IH; [lia|tauto]); try (apply Hes; [lia|tauto]); try match goal with |- lexed (Identifier, _) => apply Hp end.
  - apply lexeme_string, escape_text_body.
  - apply Hargs; [change (sum_list _) with (sum_list (map arg_size args)) in Hn; lia|tauto].
  - apply Hargs; [change (sum_list _) with (sum_list (map arg_size args)) in Hn; lia|tauto].
Qed.

Lemma pieces_spaced l : Forall lexed l -> spaced (map piece l) [].
Proof.
  induction 1 as [|s l Hs Hl IH]; [constructor|]. cbn. split; [by apply gap_white; [|constructor]|]. split; [done|]. split; [|done].
  by destruct l.
Qed.

(** The tokens of a text so written slice the pieces. *)
Lemma placed_spells l : forall t s, Forall lexed l -> fits_u32 t -> utf8 t -> t = s ++ written (map piece l) [] ->
  Forall2 (spells t) (placed (length s) (map piece l)) l.
Proof.
  induction l as [|[k w] l IH]; intros t s Hl Hf Hu Ht; [constructor|]. apply Forall_cons in Hl as [_ Hl]. cbn in Ht |- *.
  assert (utf8 (written (map piece l) [])) as Hr.
  { destruct l as [|[k' w'] l]; [constructor|]. cbn in Ht |- *. 
    by apply (utf8_ascii t Hu (s ++ x20 :: w) x20 (w' ++ written (map piece l) [])); [rewrite Ht, <- app_assoc|]. }
  constructor.
  - split; [done|]. cbn [snd]. replace (length s + 1)%nat with (length (s ++ spelled " ")) by (rewrite length_app; cbn; lia).
    apply (slice_exact k t (s ++ spelled " ") w (written (map piece l) [])); try done; [by rewrite Ht, <- app_assoc|].
    by apply (utf8_ascii t Hu s x20 (w ++ written (map piece l) [])).
  - replace (length s + 1 + length w)%nat with (length (s ++ x20 :: w)) by (rewrite length_app; cbn; lia).
    apply IH; try done. by rewrite Ht, <- app_assoc.
Qed.


(** [(-a) < (f(x: 1)[b] - (2 - c)) * true ? "q" : try d.e || g]. *)
Definition sample_tree : Expr :=
  let n w := Expr_Name (spelled w) no_span in
  let bin op l r := Expr_Binary op l r no_span in
  let arg := {| arg_label := Some (spelled "x"%string, no_span); arg_value := Expr_Int 1 no_span; arg_span := no_span |} in
  Expr_Conditional
    (bin Op_Lt (Expr_Unary Op_Neg (n "a"%string) no_span)
      (bin Op_Mul (bin Op_Sub (Expr_Index (Expr_Call (spelled "f"%string) no_span false [] [arg] [] None no_span) (n "b"%string) no_span)
                              (bin Op_Sub (Expr_Int 2 no_span) (n "c"%string))) (Expr_Bool true no_span)))
    (Expr_Str (spelled "q"%string) no_span)
    (bin Op_Or (Expr_Try (Expr_Field (n "d"%string) (spelled "e"%string) no_span no_span) no_span) (n "g"%string))
    no_span.

Example sample_text : expr_text sample_tree = 
  spelled " ( - a ) < ( f ( x : 1 ) [ b ] - ( 2 - c ) ) * true ? " ++ string_literal (spelled "q") ++ spelled " : try d . e || g".
Proof. by vm_compute. Qed.

Lemma letter_ok b : is_ident_start b = true -> name_ok [b].
Proof.
  intros Hb. assert (lexeme (default Identifier (keyword_from_text [b])) [b]) as Hl by (apply lexeme_word; [done|constructor]).
  split; [|done]. by destruct b.
Qed.


(** A [try] takes the sum it begins, since an operand stops at a power of 7. *)
Example tried_sum : strip <$> (match (parse_text 20 0 (spelled "try f() + 1")).2 with Ok e => Some e | Err _ => None end) =
  Some (Expr_Try (Expr_Binary Op_Add (Expr_Call (spelled "f") no_span false [] [] [] None no_span) (Expr_Int 1 no_span) no_span) no_span).
Proof. by vm_compute. Qed.


Definition seen (n : nat) (t : rstring) : option Expr * list ParseError :=
  let r := parse_text n 0 t in (match r.2 with Ok e => Some (strip e) | Err _ => None end, p_errors r.1).

(** Between two comparisons among a call's arguments, every token may belong to a
    list of types: they are read as the type arguments of a call. *)
Example later_comparison : seen 30 (spelled "f(a < b, c > (d))") =
  let name w := Expr_Name (spelled w) no_span in let type w := TypeRef_Named (spelled w) no_span in
  let given a := {| arg_label := None; arg_value := a; arg_span := no_span |} in
  (Some (Expr_Call (spelled "f") no_span false []
    [given (Expr_Call (spelled "a") no_span false [type "b"; type "c"]%string [given (name "d"%string)] [] None no_span)] [] None no_span), []).
Proof. by vm_compute. Qed.

(** A comparison after a cast is read as the type's arguments. *)
Example cast_then_less : seen 30 (spelled "x as Int < 5") =
  (Some (Expr_TypeCast (Expr_Name (spelled "x") no_span) (TypeRef_Error no_span) no_span),
   [{| error_code := KPAR006; error_span := {| start := 11; len := 1 |} |};
    {| error_code := KPAR045; error_span := {| start := 5; len := 7 |} |}]).
Proof. by vm_compute. Qed.
