(* ===== verification/ParserSteps.v ===== *)
(** * Runs of the parser, step by step

    A parser whose tokens are those of its text stays one: [keeps] follows a run from
    a parser to one no earlier, nested as deep, and with every diagnostic it had.  The
    [Budget] is what a call may count on: the levels left to nest and the tokens left
    to take. *)

From Stdlib Require Import Strings.String.
From stdpp Require Import list.
From S2P Require Import Prelude.
From S2P Require Import Foreign.
From S2P Require Import VmText.
From S2P Require Import Source.
From S2P Require Import Lexer.
From S2P Require Import LexerScan.
From S2P Require Import LexerChars.
From S2P Require Import Syntax.
From S2P Require Import Parser.

(** The run ends with [Q]. *)
Definition run_to {A} (m : M A) (p : Parser) (Q : Parser -> A -> Prop) : Prop :=
  match m p with (q, Ok a) => Q q a | (_, Err _) => False end.

Lemma to_bind {A B} (m : M A) (k : A -> M B) p (Q : Parser -> B -> Prop) :
  run_to m p (fun q a => run_to (k a) q Q) -> run_to (m ≫= k) p Q.
Proof. unfold run_to, mbind, st_bind. by destruct (m p) as [q [a|e]]. Qed.

Lemma to_weaken {A} (m : M A) p (R Q : Parser -> A -> Prop) : run_to m p R -> (forall q a, R q a -> Q q a) -> run_to m p Q.
Proof. unfold run_to. destruct (m p) as [q [a|e]]; auto. Qed.

Lemma to_known {A B} (m : M A) (k : A -> M B) p q a (Q : Parser -> B -> Prop) : m p = (q, Ok a) -> run_to (k a) q Q -> run_to (m ≫= k) p Q.
Proof. intros H Hk. apply to_bind. unfold run_to at 1. by rewrite H. Qed.

Create HintDb keeps.
(** The loops, which are given their turns. *)
Create HintDb loops.

(** ** Where a run may be *)

Record Budget := { b_text : rstring; b_levels : nat; b_tokens : nat }.

Definition deeper (w : Budget) : Budget := {| b_text := b_text w; b_levels := S (b_levels w); b_tokens := b_tokens w |}.
Definition less (w : Budget) : Budget := {| b_text := b_text w; b_levels := b_levels w; b_tokens := Nat.pred (b_tokens w) |}.

(** The names of a path can be read again from their spans. *)
Fixpoint path_sliced (text_ : rstring) (e : Expr) : Prop :=
  match e with
  | Expr_Name _ s => is_Some (slice s text_)
  | Expr_Field b _ s _ => path_sliced text_ b /\ is_Some (slice s text_)
  | _ => True
  end.

Definition any {A} (_ : A) : Prop := True.
Definition tree (w : Budget) (e : Expr) : Prop := path_sliced (b_text w) e.
Definition ours (w : Budget) (t : Token) : Prop := spans_text (b_text w) t.

Record listed (text_ : rstring) (ts : list Token) : Prop := {
  listed_ours : Forall (spans_text text_) ts;
  listed_end : exists front e, ts = front ++ [e] /\ kind e = Eof_
}.

(** The turns left to a loop that takes a token each; a [>>] may be cut in two. *)
Definition cost (t : Token) : nat := match kind t with GtGt => 2 | _ => 1 end.
Definition costs (ts : list Token) : nat := sum_list_with cost ts.
Definition left_ (p : Parser) : nat := costs (drop (p_pos p) (p_tokens p)).

(** A parser of such tokens, inside them, within the budget. *)
Record fine (w : Budget) (p : Parser) : Prop := {
  fine_text : p_text p = b_text w;
  fine_fits : fits_u32 (b_text w);
  fine_listed : listed (b_text w) (p_tokens p);
  fine_inside : (p_pos p < length (p_tokens p))%nat;
  fine_nesting : (b_levels w <= nesting p)%nat;
  fine_left : (left_ p <= b_tokens w)%nat
}.

(** What a run leaves of the tokens and diagnostics it began with. *)
Record grown (p q : Parser) : Prop := {
  grown_before : take (p_pos p) (p_tokens q) = take (p_pos p) (p_tokens p);
  grown_here t : p_tokens p !! p_pos p = Some t -> kind t <> GtGt -> p_tokens q !! p_pos p = Some t;
  grown_costs : costs (p_tokens q) = costs (p_tokens p);
  grown_length : (length (p_tokens p) <= length (p_tokens q))%nat;
  grown_errors : p_errors p `prefix_of` p_errors q
}.

Definition same_place (p q : Parser) : Prop := p_pos q = p_pos p /\ p_tokens q = p_tokens p /\ p_errors p `prefix_of` p_errors q.
Definition further (p q : Parser) : Prop := (p_pos p < p_pos q)%nat /\ (left_ q < left_ p)%nat /\ grown p q.
Definition moves (p q : Parser) : Prop := same_place p q \/ further p q.
Definition after (w : Budget) (p q : Parser) : Prop := fine w q /\ moves p q.

Definition keeps {A} (w : Budget) (m : M A) (R : A -> Prop) : Prop :=
  forall p, fine w p -> run_to m p (fun q a => after w p q /\ R a).

(** A test, which leaves the parser as it is. *)
Definition looks {A} (w : Budget) (m : M A) (R : Parser -> A -> Prop) : Prop :=
  forall p, fine w p -> exists a, m p = (p, Ok a) /\ R p a.

Lemma same_left p q : same_place p q -> left_ q = left_ p.
Proof. unfold left_. by intros (-> & -> & _). Qed.

Lemma same_refl p : same_place p p.
Proof. by split_and!. Qed.

Lemma grown_same p q : p_tokens q = p_tokens p -> p_errors p `prefix_of` p_errors q -> grown p q.
Proof. intros H He. constructor; rewrite ?H; try done. Qed.

(** From there or from further on. *)
Lemma grown_trans p q r : (p_pos p <= p_pos q)%nat -> grown p q -> grown q r -> grown p r.
Proof.
  intros Hle [Hb Hh Hc Hl He] [Hb' Hh' Hc' Hl' He']. constructor; [|intros t Ht Hk|congruence|lia|by etransitivity].
  - rewrite <- Hb. rewrite <- (Nat.min_l _ _ Hle) at 1 2. by rewrite <- !take_take, Hb'.
  - specialize (Hh t Ht Hk). destruct (decide (p_pos p = p_pos q)) as [Heq|Hne]; [rewrite Heq in *; by apply Hh'|].
    assert (take (p_pos q) (p_tokens r) !! p_pos p = Some t) as H by (rewrite Hb'; apply lookup_take_Some; split; [done|lia]).
    by apply lookup_take_Some in H as [H _].
Qed.

Lemma moves_grown p q : moves p q -> grown p q /\ (p_pos p <= p_pos q)%nat.
Proof. intros [(Hp & Ht & He)|(Hp & _ & Hg)]; [split; [by apply grown_same|lia]|split; [done|lia]]. Qed.

Lemma moves_left p q : moves p q -> (left_ q <= left_ p)%nat.
Proof. intros [H|(_ & H & _)]; [by rewrite (same_left p q H)|lia]. Qed.

Lemma moves_trans p q r : moves p q -> moves q r -> moves p r.
Proof.
  intros H1 H2. destruct (moves_grown _ _ H1) as [Hg1 Hp1], (moves_grown _ _ H2) as [Hg2 Hp2].
  pose proof (moves_left _ _ H1) as Hl1. pose proof (moves_left _ _ H2) as Hl2. pose proof (grown_trans _ _ _ Hp1 Hg1 Hg2) as Hg.
  destruct H1 as [H1|H1]; [|right; unfold further in *; split_and!; [lia..|done]].
  destruct H2 as [H2|H2]; [left|right; unfold further in *; split_and!; [lia..|done]].
  destruct H1 as (? & ? & ?), H2 as (? & ? & ?). split_and!; [congruence..|by etransitivity].
Qed.

Lemma after_refl w p : fine w p -> after w p p.
Proof. intros H. split; [done|left; apply same_refl]. Qed.

Lemma after_trans w p q r : after w p q -> after w q r -> after w p r.
Proof. intros [_ H1] [Hr H2]. split; [done|by eapply moves_trans]. Qed.

Lemma after_left w p q : after w p q -> (left_ q <= left_ p)%nat.
Proof. intros [_ H]. by apply moves_left. Qed.

Lemma after_placed w p p' q q' : same_place p p' -> same_place q q' -> fine w q' -> moves p' q -> after w p q'.
Proof. intros Hp Hq Hf H. split; [done|]. eapply moves_trans; [by left|]. eapply moves_trans; [exact H|by left]. Qed.

(** *** Budgets *)

Lemma fine_lower w p : fine (less w) p -> fine w p.
Proof. intros []. constructor; try done. cbn in *. lia. Qed.

(** A taken token is one the rest need not count on. *)
Lemma fine_less w p q : fine w p -> fine w q -> (left_ q < left_ p)%nat -> fine (less w) q.
Proof. intros [] [] H. constructor; try done. cbn. lia. Qed.

Lemma fine_after w p q : fine w p -> fine (less w) p -> after w p q -> fine (less w) q.
Proof. intros Hp [] [[] Hm]. pose proof (moves_left _ _ Hm). constructor; try done. cbn in *. lia. Qed.

Lemma keeps_less {A} w (m : M A) R : keeps w m R -> keeps (less w) m R.
Proof.
  intros H p Hp. pose proof (fine_lower w p Hp) as Hw. eapply to_weaken; [by apply H|]. intros q a [Hq Ha]. split; [|done].
  split; [by apply (fine_after w p q)|apply Hq].
Qed.

Lemma keeps_bind {A B} w (m : M A) (k : A -> M B) R R' : keeps w m R -> (forall a, R a -> keeps w (k a) R') -> keeps w (m ≫= k) R'.
Proof.
  intros Hm Hk p Hp. apply to_bind. eapply to_weaken; [by apply Hm|]. intros q a [Hq Ha]. eapply to_weaken; [apply (Hk a Ha q), Hq|].
  intros r b [Hr Hb]. split; [by eapply after_trans|done].
Qed.

Lemma keeps_ret {A} w (a : A) (R : A -> Prop) : R a -> keeps w (mret a) R.
Proof. intros Ha p Hp. by split; [apply after_refl|]. Qed.

Lemma keeps_weaken {A} w (m : M A) (R R' : A -> Prop) : keeps w m R -> (forall a, R a -> R' a) -> keeps w m R'.
Proof. intros H HR p Hp. eapply to_weaken; [by apply H|]. intros q a [Hq Ha]. auto. Qed.

Lemma looks_bind {A B} w (m : M A) (k : A -> M B) R R' : looks w m R ->
  (forall a, looks w (k a) (fun p b => R p a -> R' p b)) -> looks w (m ≫= k) R'.
Proof.
  intros Hm Hk p Hp. destruct (Hm p Hp) as (a & H & Ha). destruct (Hk a p Hp) as (b & Hb & HR). exists b. unfold mbind, st_bind. rewrite H.
  split; [done|by apply HR].
Qed.

Lemma looks_ret {A} w (a : A) (R : Parser -> A -> Prop) : (forall p, R p a) -> looks w (mret a) R.
Proof. intros Ha p _. by exists a. Qed.

Lemma looks_keeps {A} w (m : M A) (R : Parser -> A -> Prop) (R' : A -> Prop) : looks w m R -> (forall p a, R p a -> R' a) -> keeps w m R'.
Proof. intros H HR p Hp. destruct (H p Hp) as (a & Ha & HRa). unfold run_to. rewrite Ha. split; [by apply after_refl|by eapply HR]. Qed.

(** ** The cursor *)

Lemma token_ours w ts i t : listed (b_text w) ts -> ts !! i = Some t -> ours w t.
Proof. intros [H _] Ht. rewrite Forall_forall in H. apply H. by eapply list_elem_of_lookup_2. Qed.

(** Past the last token but one there is the end. *)
Lemma peek_spec w p i : fine w p -> exists t, peek_token i p = (p, Ok t) /\ ours w t /\ (kind t <> Eof_ -> (p_pos p + i + 1 < length (p_tokens p))%nat).
Proof.
  intros [_ _ Ht Hi _ _]. unfold peek_token.
  destruct (lookup_lt_is_Some_2 (p_tokens p) (Nat.min (p_pos p + i) (length (p_tokens p) - 1))) as [t Hl]; [lia|]. rewrite Hl. exists t.
  split; [done|]. split; [by eapply token_ours|]. intros Hk. destruct (decide (p_pos p + i + 1 < length (p_tokens p))%nat) as [|Hn]; [done|].
  destruct (listed_end _ _ Ht) as (front & e & He & Hke). rewrite He, length_app in *. cbn in *. rewrite Nat.min_r in Hl by lia.
  rewrite Nat.add_sub, lookup_app_r, Nat.sub_diag in Hl by lia. by injection Hl as <-.
Qed.

Definition here (p : Parser) : TokenKind := match p_tokens p !! p_pos p with Some t => kind t | None => Eof_ end.

Lemma same_here p q : same_place p q -> here q = here p.
Proof. unfold here. by intros (-> & -> & _). Qed.

Lemma current_spec w p : fine w p -> exists t, current p = (p, Ok t) /\ ours w t /\ p_tokens p !! p_pos p = Some t /\ kind t = here p /\
  (here p <> Eof_ -> (p_pos p + 1 < length (p_tokens p))%nat).
Proof.
  intros Hp. destruct (peek_spec w p 0 Hp) as (t & H & Ht & Hk). exists t. assert (p_tokens p !! p_pos p = Some t) as Hl.
  { destruct Hp as [_ _ _ Hi _ _]. unfold peek_token in H. rewrite Nat.min_l in H by lia.
    rewrite Nat.add_0_r in H. destruct (p_tokens p !! p_pos p); [by injection H as ->|done]. }
  assert (kind t = here p) as Heq by (unfold here; by rewrite Hl). rewrite <- Heq. split_and!; try done. intros Hn. specialize (Hk Hn). lia.
Qed.

Lemma current_kind_spec w p : fine w p -> current_kind p = (p, Ok (here p)).
Proof.
  intros Hp. destruct (current_spec w p Hp) as (t & H & _ & _ & Hk & _). unfold current_kind, mbind, st_bind. by rewrite H, <- Hk.
Qed.

Lemma at_kind_spec w p k : fine w p -> at_kind k p = (p, Ok (bool_decide (here p = k))).
Proof. intros Hp. unfold at_kind, mbind, st_bind. by rewrite (current_kind_spec w p Hp). Qed.

Lemma left_next p t : p_tokens p !! p_pos p = Some t -> left_ p = (cost t + left_ (with_cursor (p_pos p + 1) p))%nat.
Proof. intros H. unfold left_. cbn. by rewrite (drop_S _ _ _ H), Nat.add_1_r. Qed.

Lemma cost_pos t : (1 <= cost t)%nat.
Proof. unfold cost. case_match; lia. Qed.

Lemma bump_spec w p : fine w p -> exists t q, bump p = (q, Ok t) /\ ours w t /\ after w p q /\ (here p <> Eof_ -> further p q).
Proof.
  intros Hp. destruct (current_spec w p Hp) as (t & H & Ht & Hl & _ & He). pose proof Hp as [? ? ? ? ? Hw]. unfold bump, mbind, st_bind. rewrite H.
  unfold step_cursor. destruct (Nat.ltb_spec (p_pos p + 1) (length (p_tokens p))).
  - pose proof (left_next p t Hl) as Hn. pose proof (cost_pos t). assert (further p (with_cursor (p_pos p + 1) p)) as Hf.
    { split_and!; [cbn; lia|lia|by apply grown_same]. }
    eexists t, _. split; [done|]. split; [done|]. split; [split; [constructor; try done; lia|by right]|done].
  - eexists t, _. split; [done|]. split; [done|]. split; [by apply after_refl|]. intros Hn. specialize (He Hn). lia.
Qed.

Lemma eat_spec w p k : fine w p -> exists b q, eat k p = (q, Ok b) /\ after w p q /\ (b = true -> k <> Eof_ -> further p q) /\ (here p = k -> b = true).
Proof.
  intros Hp. unfold eat, mbind, st_bind. rewrite (at_kind_spec w p k Hp). case_bool_decide as Hk.
  - destruct (bump_spec w p Hp) as (t & q & -> & _ & Hq & Hm). exists true, q. split_and!; try done. intros _ Hn. apply Hm. congruence.
  - exists false, p. split_and!; try done. by apply after_refl.
Qed.

(** ** Steps *)

Lemma keeps_peek w i : keeps w (peek_token i) (ours w).
Proof. intros p Hp. destruct (peek_spec w p i Hp) as (t & H & Ht & _). unfold run_to. rewrite H. by split; [apply after_refl|]. Qed.

Lemma keeps_bump w : keeps w bump (ours w).
Proof. intros p Hp. destruct (bump_spec w p Hp) as (t & q & H & Ht & Hq & _). unfold run_to. by rewrite H. Qed.

Lemma keeps_eat w k : keeps w (eat k) any.
Proof. intros p Hp. destruct (eat_spec w p k Hp) as (b & q & H & Hq & _). unfold run_to. by rewrite H. Qed.

Lemma looks_text w s : is_Some (slice s (b_text w)) -> looks w (text_of s) (fun _ _ => True).
Proof. intros [t Ht] p Hp. unfold text_of. rewrite (fine_text w p Hp), Ht. by exists t. Qed.
Lemma keeps_text w s : is_Some (slice s (b_text w)) -> keeps w (text_of s) any.
Proof. intros H. by eapply looks_keeps; [apply looks_text|]. Qed.

Lemma ours_sliced w t : ours w t -> is_Some (slice (token_span t) (b_text w)).
Proof. intros [[x Hx] _]. by exists x. Qed.

Lemma keeps_error w s c : keeps w (error s c) any.
Proof. intros p []. split; [|done]. split; [by constructor|left; split_and!; [done..|by apply prefix_app_r]]. Qed.

Lemma keeps_turns w : keeps w turns any.
Proof. intros p Hp. by split; [apply after_refl|]. Qed.

Lemma keeps_cursor w : keeps w cursor any.
Proof. intros p Hp. by split; [apply after_refl|]. Qed.

Lemma looks_previous_end w : looks w previous_end (fun _ _ => True).
Proof.
  intros p Hp. pose proof Hp as [_ _ _ Hi _ _]. unfold previous_end. destruct (p_pos p) as [|n] eqn:E; [by eexists|].
  destruct (lookup_lt_is_Some_2 (p_tokens p) n) as [u ->]; [lia|]. by eexists.
Qed.
Lemma keeps_previous_end w : keeps w previous_end any.
Proof. by eapply looks_keeps; [apply looks_previous_end|]. Qed.

Lemma looks_previous_kind w : looks w previous_kind (fun _ _ => True).
Proof.
  intros p Hp. pose proof Hp as [_ _ _ Hi _ _]. unfold previous_kind. destruct (p_pos p) as [|n] eqn:E; [by eexists|].
  destruct (lookup_lt_is_Some_2 (p_tokens p) n) as [u ->]; [lia|]. by eexists.
Qed.

Lemma keeps_flag {A} w get_ set_ b (m : M A) R : (forall c p, fine w p -> fine w (set_ c p) /\ same_place p (set_ c p)) ->
  keeps w m R -> keeps w (with_flag get_ set_ b m) R.
Proof.
  intros Hset Hm p Hp. destruct (Hset b p Hp) as [Hs Hps]. specialize (Hm _ Hs). unfold run_to, with_flag in *.
  destruct (m (set_ b p)) as [q [a|e]]; try done. destruct Hm as [Hq Ha]. destruct (Hset (get_ p) q (proj1 Hq)) as [Hr Hpr].
  split; [|done]. by apply (after_placed w p (set_ b p) q); [..|apply Hq].
Qed.

Lemma keeps_literals {A} w (m : M A) R : keeps w m R -> keeps w (with_struct_literals m) R.
Proof. apply keeps_flag. intros c p []. by split; [constructor|]. Qed.

Lemma keeps_no_literals {A} w (m : M A) R : keeps w m R -> keeps w (without_struct_literals m) R.
Proof. apply keeps_flag. intros c p []. by split; [constructor|]. Qed.

Lemma keeps_fills {A} w (m : M A) R : keeps w m R -> keeps w (without_named_fills m) R.
Proof. apply keeps_flag. intros c p []. by split; [constructor|]. Qed.

#[export] Hint Resolve keeps_peek keeps_bump keeps_eat keeps_error keeps_turns keeps_cursor keeps_previous_end
  keeps_literals keeps_no_literals keeps_fills : keeps.
#[export] Hint Extern 2 (keeps _ (text_of _) _) => apply keeps_text; first [by apply ours_sliced | assumption] : keeps.
#[export] Hint Extern 1 (any _) => exact I : keeps.
(** What is kept with a budget is kept with less. *)
#[export] Hint Extern 3 (keeps (less _) _ _) => simple apply keeps_less : keeps.

(** A loop by its lemma, once there are such lemmas. *)
Ltac loop_step := fail.

(** A run step by step: each call by its lemma, each test both ways. *)
Ltac walk := repeat (intros; cbv beta in *; match goal with
  | |- keeps _ (mret _) _ => apply keeps_ret; try first [exact I | assumption]
  | |- keeps _ (turns ≫= _) _ => loop_step
  | |- keeps _ (_ ≫= _) _ => first [eapply keeps_bind; [solve [eauto 4 with keeps nocore]|] | apply (keeps_bind _ _ _ any)]
  | |- keeps _ (with_struct_literals _) _ => apply keeps_literals
  | |- keeps _ (without_struct_literals _) _ => apply keeps_no_literals
  | |- keeps _ (without_named_fills _) _ => apply keeps_fills
  | |- keeps _ (if ?b then _ else _) _ => destruct b
  | |- keeps _ (match ?x with _ => _ end) _ => destruct x
  | |- keeps _ _ _ => solve [eauto 4 with keeps nocore]
  end).

(** A call that looks at the parser it is given. *)
Ltac at_here := let p := fresh in let Hp := fresh in intros p Hp; unfold run_to; cbv beta;
  match goal with |- match ?m p with _ => _ end => match goal with |- context [after ?w p _ /\ ?R _] =>
    assert (keeps w m R) as Hkeep; [clear Hp|exact (Hkeep p Hp)] end end.

Lemma keeps_current w : keeps w current (ours w).
Proof. apply keeps_peek. Qed.
(** The same with nothing said of the token. *)
Lemma keeps_take w : keeps w bump any.
Proof. by eapply keeps_weaken; [apply keeps_bump|]. Qed.
Lemma keeps_see w i : keeps w (peek_token i) any.
Proof. by eapply keeps_weaken; [apply keeps_peek|]. Qed.
#[export] Hint Resolve keeps_current : keeps.
#[export] Hint Resolve keeps_take keeps_see | 10 : keeps.

(** *** Tests *)

Lemma looks_current_kind w : looks w current_kind (fun p k => k = here p).
Proof. intros p Hp. exists (here p). split; [by apply (current_kind_spec w)|done]. Qed.
Lemma looks_peek_kind w i : looks w (peek_kind i) (fun p k => k <> Eof_ -> (p_pos p + i + 1 < length (p_tokens p))%nat).
Proof. intros p Hp. destruct (peek_spec w p i Hp) as (t & H & _ & Hk). exists (kind t). unfold peek_kind, mbind, st_bind. by rewrite H. Qed.
Lemma looks_at_kind w k : looks w (at_kind k) (fun p b => b = bool_decide (here p = k)).
Proof. intros p Hp. eexists. split; [by apply (at_kind_spec w)|done]. Qed.

(** A test is known and the run goes on from the same parser. *)
Lemma to_look {A B} w (m : M A) (k : A -> M B) R p Q : looks w m R -> fine w p -> (forall a, R p a -> run_to (k a) p Q) -> run_to (m ≫= k) p Q.
Proof. intros Hm Hp Hk. destruct (Hm p Hp) as (a & Ha & HR). eapply to_known; [exact Ha|by apply Hk]. Qed.

Lemma look_keeps {A} w (m : M A) R : looks w m R -> keeps w m any.
Proof. intros H. by eapply looks_keeps. Qed.

Lemma keeps_current_kind w : keeps w current_kind any.
Proof. eapply look_keeps, looks_current_kind. Qed.
Lemma keeps_peek_kind w i : keeps w (peek_kind i) any.
Proof. eapply look_keeps, looks_peek_kind. Qed.
Lemma keeps_at_kind w k : keeps w (at_kind k) any.
Proof. eapply look_keeps, looks_at_kind. Qed.
Lemma keeps_at_eof w : keeps w at_eof any.
Proof. apply keeps_at_kind. Qed.
Lemma keeps_previous_kind w : keeps w previous_kind any.
Proof. eapply look_keeps, looks_previous_kind. Qed.
#[export] Hint Resolve keeps_current_kind keeps_peek_kind keeps_at_kind keeps_at_eof keeps_previous_kind : keeps.

Lemma keeps_is_word w i word : keeps w (peek_is_word i word) any.
Proof. unfold peek_is_word. walk. Qed.
Lemma keeps_expect w k : keeps w (expect k) any.
Proof. unfold expect. walk. Qed.
Lemma keeps_missing_comma w : keeps w missing_comma any.
Proof. unfold missing_comma. walk. Qed.
#[export] Hint Resolve keeps_is_word keeps_expect keeps_missing_comma : keeps.

(** ** Loops *)

(** A loop that does with as many turns as there are tokens left. *)
Definition turning {A} (w : Budget) (loop : nat -> M A) (R : A -> Prop) : Prop :=
  forall F p, fine w p -> (left_ p < F)%nat -> run_to (loop F) p (fun q a => after w p q /\ R a).

Lemma turning_literals {A} w (loop : nat -> M A) R : turning w loop R -> turning w (fun F => with_struct_literals (loop F)) R.
Proof.
  intros Hl F p Hp HF. assert (fine w (with_literal_flag false p)) as Hs by by destruct Hp. specialize (Hl F _ Hs HF). unfold run_to, with_struct_literals, with_flag in *.
  destruct (loop F _) as [q [a|e]]; try done. destruct Hl as [Hq Ha]. split; [|done].
  apply (after_placed w p (with_literal_flag false p) q); [done|done| |apply Hq]. by destruct Hq as [[] _].
Qed.

Lemma left_bound p : (left_ p <= 2 * length (p_tokens p))%nat.
Proof.
  unfold left_. transitivity (2 * length (drop (p_pos p) (p_tokens p)))%nat; [|rewrite length_drop; lia].
  unfold costs. induction (drop _ _) as [|t l IH]; cbn; [lia|]. unfold cost at 1. case_match; lia.
Qed.

Lemma turns_fine p : exists F, turns p = (p, Ok F) /\ (left_ p < F)%nat.
Proof. exists (S (2 * length (p_tokens p))). split; [done|]. pose proof (left_bound p). lia. Qed.

(** A loop given its turns. *)
Lemma keeps_turning {A} w (loop : nat -> M A) R : turning w loop R -> keeps w (n ← turns; loop n) R.
Proof. intros H p Hp. destruct (turns_fine p) as (F & HF & Hlt). eapply to_known; [exact HF|]. by apply H. Qed.

Lemma keeps_loop {A B} w (loop : nat -> M A) (k : A -> M B) R R' : turning w loop R -> (forall a, R a -> keeps w (k a) R') ->
  keeps w (n ← turns; a ← loop n; k a) R'.
Proof.
  intros Hl Hk p Hp. destruct (turns_fine p) as (F & HF & Hlt). eapply to_known; [exact HF|]. apply to_bind.
  eapply to_weaken; [by apply Hl|]. intros q a [Hq Ha]. eapply to_weaken; [apply (Hk a Ha q), Hq|]. intros r b [Hr Hb].
  split; [by eapply after_trans|done].
Qed.

Ltac loop_step ::= first
  [eapply keeps_loop; [first [apply turning_literals|idtac]; solve [eauto 3 with loops keeps nocore]|]
  |apply keeps_turning; first [apply turning_literals|idtac]; solve [eauto 3 with loops keeps nocore]].

Lemma to_later {A} w p q (m : M A) R : after w p q -> run_to m q (fun r b => after w q r /\ R b) -> run_to m q (fun r b => after w p r /\ R b).
Proof. intros Hq Hm. eapply to_weaken; [exact Hm|]. intros r b [Hr Hb]. split; [by eapply after_trans|done]. Qed.

(** One call of a turn that began at [p0], and the rest of it from there. *)
Lemma to_step {A B} w p0 (m : M A) (k : A -> M B) p R Q : keeps w m R -> after w p0 p ->
  (forall q a, after w p0 q -> R a -> run_to (k a) q Q) -> run_to (m ≫= k) p Q.
Proof. intros Hm Hp Hk. apply to_bind. eapply to_weaken; [apply Hm, Hp|]. intros q a [Hq Ha]. apply Hk; [by eapply after_trans|done]. Qed.

Ltac turn := eapply (to_step _ _ _ _ _ any); [walk|done|]; intros ? ? ? _.

(** A turn that starts with a test. *)
Ltac look := let Hl := fresh "Hlook" in eapply to_look; [first [apply looks_at_kind|apply looks_current_kind|apply looks_peek_kind|apply looks_text; by apply ours_sliced]|done|];
  cbv beta; intros ? Hl; try subst.

(** A turn that takes a token first, and what it leaves of the budget. *)
Lemma to_taken {A} w (k : Token -> M A) p Q : fine w p -> here p <> Eof_ ->
  (forall t q, ours w t -> after w p q -> (left_ q < left_ p)%nat -> fine (less w) q -> run_to (k t) q Q) -> run_to (bump ≫= k) p Q.
Proof.
  intros Hp He Hk. destruct (bump_spec w p Hp) as (t & q & Hb & Ht & Hq & Hm). eapply to_known; [exact Hb|]. destruct (Hm He) as (_ & Hlt & _).
  apply Hk; try done. by eapply fine_less; [|apply Hq|].
Qed.

(** The rest of a turn, within the smaller budget. *)
Lemma to_less {A} w p q (m : M A) R : after w p q -> fine (less w) q -> (left_ q < left_ p)%nat -> keeps (less w) m R ->
  run_to m q (fun r a => after w p r /\ (left_ r < left_ p)%nat /\ R a).
Proof.
  intros Hq Hf Hlt Hm. eapply to_weaken; [by apply Hm|]. intros r a [[Hr Hmv] Ha]. assert (after w q r) as Hqr by (split; [by apply fine_lower|done]).
  split; [by eapply after_trans|]. split; [|done]. pose proof (after_left _ _ _ Hqr). lia.
Qed.

(** A call that takes a token and keeps to the rest. *)
Lemma bump_first {A} w (k : Token -> M A) p R : fine w p -> here p <> Eof_ -> (forall t, ours w t -> keeps (less w) (k t) R) ->
  run_to (bump ≫= k) p (fun q a => after w p q /\ (left_ q < left_ p)%nat /\ R a).
Proof. intros Hp He Hk. apply (to_taken w); [done|done|]. intros t q Ht Hq Hlt Hf. apply (to_less w); [done..|by apply Hk]. Qed.

(** What moved on is still a run that keeps. *)
Lemma to_kept {A} w (m : M A) p R : run_to m p (fun q a => after w p q /\ (left_ q < left_ p)%nat /\ R a) -> run_to m p (fun q a => after w p q /\ R a).
Proof. intros H. eapply to_weaken; [exact H|]. intros q a (Hq & _ & Ha). done. Qed.

(** The guard against a turn that took nothing. *)
Lemma moved_spec w p q : fine w p -> here p <> Eof_ -> after w p q -> exists r,
  (if decide (p_pos q = p_pos p) then _ ← bump; mret tt else mret tt) q = (r, Ok tt) /\ after w p r /\ (left_ r < left_ p)%nat.
Proof.
  intros Hp Hk Hq. case_decide as Heq.
  - destruct Hq as [Hf [Hs|[? _]]]; [|lia]. destruct (bump_spec w q Hf) as (t & r & Hb & _ & Hr & Hm). exists r. unfold mbind, st_bind. rewrite Hb.
    rewrite (same_here p q Hs) in Hm. specialize (Hm Hk). split; [done|]. rewrite <- (same_left p q Hs). split; [|apply Hm].
    eapply after_trans; [|exact Hr]. split; [done|by left].
  - exists q. split; [done|]. split; [done|]. by destruct Hq as [Hf [[? _]|(_ & ? & _)]].
Qed.

(** The end of a turn whose guard holds, and the turns left. *)
Ltac guarded p Hp IH := let Hs := fresh in let Hps := fresh in eapply to_known; [done|];
  match goal with |- run_to _ ?q _ => destruct (moved_spec _ p q Hp) as (? & Hs & Hps & ?); [done|done|] end;
  eapply to_known; [exact Hs|]; eapply to_later; [done|]; apply IH; [apply Hps|lia].

Lemma skip_loop_keeps w : turning w skip_unknown_loop any.
Proof.
  intros F. induction F as [|F IH]; intros p Hp HF; [lia|]. cbn [skip_unknown_loop]. look.
  case_bool_decide as Hk; [|by split; [apply after_refl|]].
  apply (to_taken w); [done|congruence|]. intros t q _ Hq Hlt _. eapply to_later; [done|]. apply IH; [apply Hq|lia].
Qed.

Lemma keeps_skip_unknown w : keeps w skip_unknown any.
Proof. apply keeps_turning. apply skip_loop_keeps. Qed.
#[export] Hint Resolve keeps_skip_unknown : keeps.

Lemma keeps_separator w : keeps w eat_separator any.
Proof. unfold eat_separator. walk. Qed.
#[export] Hint Resolve keeps_separator : keeps.

Lemma balanced_loop_keeps w o c d : turning w (fun F => skip_balanced_loop F d o c) any.
Proof.
  intros F. revert d. induction F as [|F IH]; intros d p Hp HF; [lia|]. cbn [skip_balanced_loop]. look.
  case_bool_decide as Hk; [by split; [apply after_refl|]|]. look.
  repeat case_decide; try destruct (d <=? 1)%nat; (apply (to_taken w); [done|done|]; intros t q _ Hq Hlt _);
    first [eapply to_later; [done|]; apply IH; [apply Hq|lia]|by split].
Qed.

(** A group is taken from its opener on. *)
Lemma balanced_takes w p o c : fine w p -> here p = o -> o <> Eof_ -> run_to (skip_balanced o c) p (fun q _ => after w p q /\ (left_ q < left_ p)%nat).
Proof.
  intros Hp Ho He. unfold skip_balanced. look. rewrite bool_decide_eq_true_2 by done. destruct (turns_fine p) as (F & HF & Hlt).
  eapply to_known; [exact HF|]. destruct F as [|F]; [lia|]. cbn [skip_balanced_loop]. look. rewrite bool_decide_eq_false_2 by congruence. look.
  rewrite decide_True by done. apply (to_taken w); [done|congruence|]. intros t q _ Hq Hq' _.
  eapply to_weaken; [apply (balanced_loop_keeps w); [apply Hq|lia]|]. intros r [] [Hr _]. split; [by eapply after_trans|].
  pose proof (after_left _ _ _ Hr). lia.
Qed.

Lemma keeps_skip_balanced w o c : keeps w (skip_balanced o c) any.
Proof. unfold skip_balanced. eapply keeps_bind; [apply keeps_at_kind|]. intros [|] _; [|walk]. apply keeps_turning, balanced_loop_keeps. Qed.
#[export] Hint Resolve keeps_skip_balanced : keeps.

Lemma keeps_recover w : keeps w recover_refused_nesting any.
Proof. unfold recover_refused_nesting. walk. Qed.
#[export] Hint Resolve keeps_recover : keeps.

(** ** Looking ahead *)

Definition ahead (p : Parser) : nat := length (p_tokens p) - p_pos p.

Lemma peek_kind_spec w p i : fine w p -> exists k, peek_kind i p = (p, Ok k) /\ (k <> Eof_ -> (p_pos p + i + 1 < length (p_tokens p))%nat).
Proof. apply looks_peek_kind. Qed.

Lemma closure_run_looks w p : fine w p -> forall F i b, (ahead p < S F + i)%nat -> exists r, closure_run (S F) i b p = (p, Ok r).
Proof.
  intros Hp. assert (ahead p = length (p_tokens p) - p_pos p)%nat as Hl by done.
  induction F as [|F IH]; intros i b HF; cbn [closure_run]; destruct (peek_kind_spec w p i Hp) as (k & Hk & Hi);
    unfold mbind, st_bind in *; rewrite Hk; (case_decide as Hid; [|by eexists]);
    destruct (peek_kind_spec w p (S i) Hp) as (c & Hc & Hsi); rewrite Hc;
    (case_decide as Hcc; [|by eexists]); subst; specialize (Hsi ltac:(done)); [lia|]. apply IH. lia.
Qed.

Lemma dotted_run_looks w p : fine w p -> forall F i b, (ahead p < S F + i)%nat -> exists r, dotted_run (S F) i b p = (p, Ok r).
Proof.
  intros Hp. assert (ahead p = length (p_tokens p) - p_pos p)%nat as Hl by done.
  induction F as [|F IH]; intros i b HF; cbn [dotted_run]; destruct (peek_kind_spec w p i Hp) as (k & Hk & Hi);
    destruct (peek_kind_spec w p (S i) Hp) as (c & Hc & Hsi); unfold mbind, st_bind in *; rewrite Hk, Hc;
    (case_decide as Hcc; [|by eexists]); destruct Hcc as [-> ->]; specialize (Hsi ltac:(done)); [lia|]. apply IH. lia.
Qed.

Lemma type_args_run_looks w p : fine w p -> forall F i d, (0 < F)%nat -> (ahead p < F + i)%nat -> exists b, type_args_run F i d p = (p, Ok b).
Proof.
  intros Hp. assert (ahead p = length (p_tokens p) - p_pos p)%nat as Hl by done.
  induction F as [|F IH]; intros i d H0 HF; [lia|]. cbn [type_args_run]. destruct (peek_kind_spec w p i Hp) as (k & Hk & Hi).
  destruct (peek_kind_spec w p (S i) Hp) as (c & Hc & _). unfold mbind, st_bind in *. rewrite Hk, Hc. cbv zeta.
  destruct (decide (k = Eof_)) as [->|Hn]; [by eexists|]. specialize (Hi Hn).
  assert (forall d', exists b, type_args_run F (S i) d' p = (p, Ok b)) as Hnext by (intros d'; apply IH; lia).
  destruct k; repeat case_decide; first [apply Hnext|by eexists].
Qed.

Lemma look_known {A B} (m : M A) (k : A -> M B) p a (R : Parser -> B -> Prop) : m p = (p, Ok a) ->
  (exists b, k a p = (p, Ok b) /\ R p b) -> exists b, (m ≫= k) p = (p, Ok b) /\ R p b.
Proof. intros H Hk. unfold mbind, st_bind. by rewrite H. Qed.

(** The tests that walk a run of names first. *)
Lemma looks_run_then {A} w b (k : nat * bool -> M A) R : (forall r, looks w (k r) R) -> looks w (n ← turns; r ← closure_run n 1 b; k r) R.
Proof.
  intros Hk p Hp. eapply look_known; [done|]. destruct (closure_run_looks w p Hp (2 * length (p_tokens p)) 1 b) as [r Hr]; [unfold ahead; lia|].
  eapply look_known; [exact Hr|by apply Hk].
Qed.

Lemma looks_dotted_then {A} w i b (k : nat * bool -> M A) R : (forall r, looks w (k r) R) -> looks w (n ← turns; r ← dotted_run n i b; k r) R.
Proof.
  intros Hk p Hp. eapply look_known; [done|]. destruct (dotted_run_looks w p Hp (2 * length (p_tokens p)) i b) as [r Hr]; [unfold ahead; lia|].
  eapply look_known; [exact Hr|by apply Hk].
Qed.

Definition starts_brace (p : Parser) (b : bool) : Prop := b = true -> here p = LBrace.

(** A test of a brace that looks no further where there is none. *)
Lemma looks_brace_then w (k : bool -> M bool) : (forall b, looks w (k b) (fun _ c => c = true -> b = true)) ->
  looks w (b ← at_kind LBrace; k b) starts_brace.
Proof.
  intros Hk p Hp. unfold mbind, st_bind. rewrite (at_kind_spec w p _ Hp). destruct (Hk (bool_decide (here p = LBrace)) p Hp) as (c & Hc & Hb).
  exists c. split; [done|]. intros Ht. by apply (bool_decide_eq_true_1 _), Hb.
Qed.

(** Tests in a row. *)
Ltac tests := repeat (intros; cbv beta zeta; match goal with
  | |- looks _ (mret _) _ => apply looks_ret; try done
  | |- looks _ (n ← turns; r ← closure_run n 1 _; _) _ => apply looks_run_then
  | |- looks _ (n ← turns; r ← dotted_run n _ _; _) _ => apply looks_dotted_then
  | |- looks _ (_ ≫= _) _ => eapply looks_bind; [eauto 2 with keeps nocore|]
  | |- looks _ (if ?b then _ else _) _ => destruct b
  end).
#[export] Hint Resolve looks_peek_kind looks_at_kind looks_current_kind looks_previous_kind : keeps.

Lemma looks_closure_brace w : looks w at_closure_brace starts_brace.
Proof. apply looks_brace_then. intros []; cbn [negb]; tests. Qed.

Lemma looks_malformed_brace w : looks w at_malformed_closure_brace starts_brace.
Proof. apply looks_brace_then. intros []; cbn [negb orb]; tests. Qed.
#[export] Hint Resolve looks_closure_brace looks_malformed_brace : keeps.

Lemma looks_closure_start w : looks w at_closure_start starts_brace.
Proof. unfold at_closure_start. intros p Hp. destruct (looks_closure_brace w p Hp) as (b & Hb & HR), (looks_malformed_brace w p Hp) as (c & Hc & HRc).
  unfold mbind, st_bind. rewrite Hb. destruct b; [by exists true|]. by exists c.
Qed.
#[export] Hint Resolve looks_closure_start : keeps.

Lemma looks_field_override w : looks w at_braced_field_override (fun _ _ => True).
Proof. unfold at_braced_field_override. tests. Qed.
#[export] Hint Resolve looks_field_override : keeps.

(** The tests below ask the parser's flags. *)
Lemma looks_content_block w : looks w at_content_block starts_brace.
Proof. intros p Hp. refine (looks_brace_then w _ _ p Hp). intros []; cbn [negb orb]; tests; destruct (_ || _); tests. Qed.
Lemma looks_bare_block w : looks w at_bare_construct_block starts_brace.
Proof. intros p Hp. refine (looks_brace_then w _ _ p Hp). intros []; cbn [negb orb]; tests; destruct (_ || _); tests. Qed.
Lemma looks_trailing_block w : looks w at_trailing_block starts_brace.
Proof. intros p Hp. refine (looks_brace_then w _ _ p Hp). intros []; cbn [andb]; tests. Qed.

Lemma looks_named_fill w : looks w at_named_fill (fun p b => b = true -> here p = Identifier).
Proof.
  intros p Hp. unfold at_named_fill, mbind, st_bind. rewrite (at_kind_spec w p _ Hp). destruct (peek_kind_spec w p 1 Hp) as (k & -> & _).
  eexists. split; [done|]. intros [[_ H]%andb_true_iff _]%andb_true_iff. by apply (bool_decide_eq_true_1 _).
Qed.

Lemma looks_fillable w e : looks w (at_fillable_construction e) (fun _ _ => True).
Proof. unfold at_fillable_construction. tests. Qed.

Lemma looks_type_args w : looks w at_explicit_call_type_args (fun _ _ => True).
Proof.
  intros p Hp. unfold at_explicit_call_type_args. apply (look_known _ _ _ (bool_decide (here p = Lt_)) (fun _ _ => True)); [by apply (at_kind_spec w)|].
  case_bool_decide; [|by eexists]. apply (look_known _ _ _ (S (2 * length (p_tokens p))) (fun _ _ => True)); [done|].
  destruct (type_args_run_looks w p Hp (S (S (2 * length (p_tokens p)))) 0 0) as [b Hb]; [lia|unfold ahead; lia|]. by exists b.
Qed.
#[export] Hint Resolve looks_content_block looks_bare_block looks_trailing_block looks_named_fill looks_fillable looks_type_args : keeps.

(** The same as steps of a run. *)
Lemma keeps_closure_start w : keeps w at_closure_start any.
Proof. eapply look_keeps, looks_closure_start. Qed.
Lemma keeps_content_block w : keeps w at_content_block any.
Proof. eapply look_keeps, looks_content_block. Qed.
Lemma keeps_bare_block w : keeps w at_bare_construct_block any.
Proof. eapply look_keeps, looks_bare_block. Qed.
Lemma keeps_trailing_block w : keeps w at_trailing_block any.
Proof. eapply look_keeps, looks_trailing_block. Qed.
Lemma keeps_named_fill w : keeps w at_named_fill any.
Proof. eapply look_keeps, looks_named_fill. Qed.
Lemma keeps_fillable w e : keeps w (at_fillable_construction e) any.
Proof. eapply look_keeps, looks_fillable. Qed.
Lemma keeps_type_args w : keeps w at_explicit_call_type_args any.
Proof. eapply look_keeps, looks_type_args. Qed.
Lemma keeps_ownership w : keeps w ownership_op_here any.
Proof. unfold ownership_op_here. walk. Qed.
#[export] Hint Resolve keeps_closure_start keeps_content_block keeps_bare_block keeps_trailing_block keeps_named_fill keeps_fillable
  keeps_type_args keeps_ownership : keeps.

(** ** Nesting *)

Lemma enter_spec w p : fine w p -> exists q b, enter_nesting p = (q, Ok b) /\ fine (deeper w) q /\ same_place p q /\
  (b = true -> (b_levels w < MAX_NESTING_DEPTH)%nat).
Proof.
  intros Hp. destruct (current_spec w p Hp) as (t & H & _). unfold enter_nesting, mbind, st_bind. rewrite H.
  destruct Hp as [? ? ? ? Hn ?]. case_decide; eexists _, _; (split; [reflexivity|]);
    (split; [constructor; try done; cbn; lia|]); (split; [split_and!; try done; by apply prefix_app_r|]); intros Hb%Nat.ltb_lt; cbn in Hb; lia.
Qed.

Lemma exit_fine w p : fine (deeper w) p -> fine w (with_nesting (Nat.pred (nesting p)) p).
Proof. intros []. constructor; try done. cbn in *. lia. Qed.

Lemma fine_shallow w p : fine (deeper w) p -> fine w p.
Proof. intros []. constructor; try done. cbn in *. lia. Qed.

(** A level that is entered and left, or refused. *)
Lemma keeps_level {A} w (body refusal : M A) R : ((b_levels w < MAX_NESTING_DEPTH)%nat -> keeps (deeper w) body R) ->
  keeps (deeper w) refusal R ->
  keeps w (allowed ← enter_nesting; a ← (if allowed : bool then body else refusal); _ ← exit_nesting; mret a) R.
Proof.
  intros Hb Hr p Hp. destruct (enter_spec w p Hp) as (q & b & H & Hq & Hpl & Hlt). eapply to_known; [exact H|].
  assert (keeps (deeper w) (if b then body else refusal) R) as Hin by (destruct b; auto).
  apply to_bind. eapply to_weaken; [by apply Hin|]. intros r a [[Hf Hm] Ha]. split; [|done].
  by apply (after_placed w p q r); [|..|apply exit_fine|].
Qed.

Lemma keeps_nested w body : ((b_levels w < MAX_NESTING_DEPTH)%nat -> keeps (deeper w) body (tree w)) -> keeps w (nested body) (tree w).
Proof. intros Hb. apply keeps_level; [done|]. walk. Qed.

(** ** Literals *)

Lemma keeps_int w s : is_Some (slice s (b_text w)) -> keeps w (parse_int s) (tree w).
Proof. intros Hs. unfold parse_int. walk. Qed.
Lemma keeps_float w s : is_Some (slice s (b_text w)) -> keeps w (parse_float s) (tree w).
Proof. intros Hs. unfold parse_float. walk. Qed.
Lemma keeps_string w s : is_Some (slice s (b_text w)) -> keeps w (parse_string_literal s) (tree w).
Proof. intros Hs. unfold parse_string_literal. walk. by case_match. Qed.

#[export] Hint Resolve keeps_int keeps_float keeps_string : keeps.
#[export] Hint Extern 2 (is_Some (slice (token_span _) _)) => by apply ours_sliced : keeps.
