(* ===== verification/ParserLists.v ===== *)
(** * What the parser does on types and lists

    The types and the bracketed lists of [Parser] keep to their budget when what they
    call does. *)

From Stdlib Require Import Strings.String.
From stdpp Require Import list.
From S2P Require Import Prelude.
From S2P Require Import Foreign.
From S2P Require Import VmText.
From S2P Require Import Source.
From S2P Require Import Lexer.
From S2P Require Import LexerScan.
From S2P Require Import LexerChars.
From S2P Require Import Syntax.
From S2P Require Import Parser.
From S2P Require Import ParserSteps.

(** ** Types *)

Lemma split_ours w t : fits_u32 (b_text w) -> ours w t -> kind t = GtGt ->
  ours w {| kind := Gt_; token_span := {| start := start (token_span t); len := 1 |} |} /\
  ours w {| kind := Gt_; token_span := {| start := Z.min (2 ^ 32 - 1) (start (token_span t) + 1); len := 1 |} |}.
Proof.
  intros Hf [_ H] Hk. destruct (H Hk) as (a & b & Ht & Hb & ->). cbn [token_span token_at start].
  assert (utf8 (x3e :: b)) as Hb1 by by apply utf8_cons.
  split; (split; [|done]).
  - exists [x3e]. apply (slice_exact Gt_ (b_text w) a [x3e] (x3e :: b)); try done. by apply utf8_cons.
  - exists [x3e]. pose proof Hf as Hf'. unfold fits_u32 in Hf'. rewrite Ht, length_app in Hf'. cbn in Hf'.
    rewrite Z.min_r by lia. pose proof (slice_exact Gt_ (b_text w) (a ++ [x3e]) [x3e] b Hf) as Hs.
    cbn [token_at token_span] in Hs. rewrite length_app, Nat2Z.inj_add in Hs. apply Hs; try done. by rewrite Ht, <- app_assoc.
Qed.

(** A token that is cut in two costs what it did. *)
Lemma split_fine w p t a b : fine w p -> p_tokens p !! p_pos p = Some t -> kind t = GtGt -> ours w a -> ours w b -> kind a = Gt_ -> kind b = Gt_ ->
  let q := with_tokens (take (p_pos p) (p_tokens p) ++ a :: b :: drop (S (p_pos p)) (p_tokens p)) p in
  fine w q /\ here q = Gt_ /\ left_ q = left_ p /\ grown p q.
Proof.
  intros Hp Hl Hk Ha Hb Hka Hkb q. pose proof Hp as [Htx Hfit [Hall Hend] Hi Hw Hleft]. pose proof (take_drop_middle _ _ _ Hl) as Hcut.
  assert (cost t = 2 /\ cost a = 1 /\ cost b = 1)%nat as (Ht2 & Ha1 & Hb1) by (unfold cost; by rewrite Hk, Hka, Hkb).
  assert (drop (p_pos p) (p_tokens q) = a :: b :: drop (S (p_pos p)) (p_tokens p)) as Hd.
  { cbn. rewrite drop_app_ge by (rewrite length_take; lia). rewrite length_take, Nat.min_l, Nat.sub_diag by lia. done. }
  assert (left_ q = left_ p) as Heq.
  { unfold left_. change (p_pos q) with (p_pos p). rewrite Hd, (drop_S _ _ _ Hl). unfold costs. cbn [sum_list_with]. rewrite Ht2, Ha1, Hb1. done. }
  split_and!; try done.
  - constructor; try done; [|cbn; rewrite length_app, length_take; cbn; lia|lia]. split.
    + cbn. rewrite <- Hcut in Hall. apply Forall_app in Hall as [H1 H2]. apply Forall_cons in H2 as [_ H2]. apply Forall_app.
      split; [done|]. apply Forall_cons; split; [exact Ha|]. apply Forall_cons; by split.
    + destruct Hend as (front & e & He & Hke). cbn. rewrite He in Hl |- *. destruct (decide (p_pos p < length front)%nat) as [Hlt|Hge].
      * rewrite take_app_le, drop_app_le by lia. eexists (_ ++ _ :: _ :: _), e. split; [|done]. by rewrite <- app_assoc.
      * rewrite He, length_app in Hi. cbn in Hi. rewrite lookup_app_r in Hl by lia. replace (p_pos p - length front)%nat with 0%nat in Hl by lia.
        injection Hl as <-. congruence.
  - unfold here. change (p_pos q) with (p_pos p). by rewrite <- (Nat.add_0_r (p_pos p)), <- lookup_drop, Hd.
  - constructor; [| | | |done].
    + cbn. rewrite take_app_le, take_take, Nat.min_id; [done|]. rewrite length_take. lia.
    + intros u Hu Hn. congruence.
    + unfold costs. cbn [q p_tokens with_tokens]. rewrite <- Hcut at 3. rewrite !sum_list_with_app. cbn [sum_list_with]. rewrite Ht2, Ha1, Hb1. lia.
    + cbn. rewrite <- Hcut at 1. rewrite !length_app. cbn. lia.
Qed.

Lemma keeps_generic_close w : keeps w eat_generic_close any.
Proof.
  intros p Hp. unfold eat_generic_close. eapply to_known; [by apply (current_kind_spec w)|].
  destruct (here p) eqn:Hh; try by split; [apply after_refl|].
  { assert (keeps w (_ ← bump; mret true) any) as H by walk. by apply H. }
  destruct (current_spec w p Hp) as (t & _ & Ht & Hl & Hk & _). rewrite Hh in Hk. destruct (split_ours w t (fine_fits w p Hp) Ht Hk) as [H1 H2].
  eapply to_known; [unfold split_close; rewrite Hl; reflexivity|]. cbv zeta.
  destruct (split_fine w p t _ _ Hp Hl Hk H1 H2 eq_refl eq_refl) as (Hq & Hhq & Hlq & Hg).
  match goal with |- run_to _ ?x _ => set (q := x) in * end.
  destruct (bump_spec w q Hq) as (u & x & Hb & _ & Hx & Hm). eapply to_known; [exact Hb|]. split; [|done]. split; [apply Hx|right].
  destruct (Hm ltac:(by rewrite Hhq)) as (Hpos & Hl2 & Hg2). split_and!; [exact Hpos|lia|]. by eapply (grown_trans p q x).
Qed.
#[export] Hint Resolve keeps_generic_close : keeps.

Lemma keeps_word w word : keeps w (at_word word) any.
Proof. apply keeps_is_word. Qed.
Lemma keeps_starts_type w n : keeps w (peek_starts_type n) any.
Proof. unfold peek_starts_type. walk. Qed.
#[export] Hint Resolve keeps_word keeps_starts_type : keeps.

Lemma keeps_prefix w : keeps w parse_ownership_prefix any.
Proof. unfold parse_ownership_prefix. walk. Qed.

Lemma keeps_some w : keeps w at_some_construct any.
Proof. unfold at_some_construct. walk. Qed.

Lemma keeps_dotted_then {A} w i b (k : nat * bool -> M A) : (forall r, looks w (k r) (fun _ _ => True)) ->
  keeps w (n ← turns; r ← dotted_run n i b; k r) any.
Proof. intros Hk. eapply look_keeps, looks_dotted_then, Hk. Qed.

Lemma keeps_any w end_ : keeps w (at_any_construct end_) any.
Proof.
  unfold at_any_construct. eapply keeps_bind; [apply keeps_word|]. intros a _. eapply keeps_bind; [apply keeps_peek_kind|]. intros k _.
  destruct (negb _); [walk|]. destruct end_; [walk|]. apply keeps_dotted_then. intros r. tests.
Qed.
#[export] Hint Resolve keeps_prefix keeps_some keeps_any : keeps.

Lemma qualified_loop_keeps w x : turning w (fun F => qualified_loop F x) any.
Proof.
  intros F. revert x. induction F as [|F IH]; intros x p Hp HF; [lia|]. cbn [qualified_loop]. pose proof (after_refl w p Hp) as H0.
  look. look. case_bool_decide as Hd; [|by split]. cbn [andb]. case_bool_decide; [|by split].
  apply (to_taken w); [done|by rewrite Hd|]. intros t q _ Hq Hlt _.
  eapply (to_step w q); [apply keeps_current|apply after_refl, Hq|]. intros q1 u Hq1 Hu.
  turn. turn. apply (to_later w p); [by eapply after_trans|]. apply IH; [match goal with H : after w q ?r |- fine w ?r => apply H end|].
  match goal with H : after w q ?r |- (left_ ?r < _)%nat => pose proof (after_left _ _ _ H) end. lia.
Qed.

Lemma keeps_qualified w s : is_Some (slice s (b_text w)) -> keeps w (parse_qualified_name s) any.
Proof.
  intros Hs. unfold parse_qualified_name. eapply keeps_bind; [by apply keeps_text|]. intros x _. eapply keeps_bind; [apply keeps_bump|]. intros _ _.
  eapply keeps_loop; [apply qualified_loop_keeps|]. walk.
Qed.
#[export] Hint Resolve keeps_qualified : keeps.

Section types.
Context (self : Self) (w : Budget).
Context (self_type_keeps : keeps w (self_type self) any).
#[local] Hint Resolve self_type_keeps : keeps.

Lemma type_args_loop_keeps args : turning w (fun F => type_args_loop self F args) any.
Proof.
  intros F. revert args. induction F as [|F IH]; intros args p Hp HF; [lia|]. cbn [type_args_loop]. pose proof (after_refl w p Hp) as H0.
  eapply to_known; [unfold at_generic_close, mbind, st_bind; by rewrite (current_kind_spec w p Hp)|]. look.
  case_bool_decide; [by split|]. case_bool_decide as He; [by split|]. cbn [orb].
  eapply to_known; [done|]. turn. turn. guarded p Hp IH.
Qed.

Lemma keeps_call_type_args : keeps w (parse_call_type_args self) any.
Proof.
  unfold parse_call_type_args. eapply keeps_bind; [apply keeps_current|]. intros t _. eapply keeps_bind; [apply keeps_bump|]. intros _ _.
  eapply keeps_loop; [apply type_args_loop_keeps|]. walk.
Qed.

Lemma keeps_generic_args name s u : keeps w (parse_generic_args self name s u) any.
Proof.
  unfold parse_generic_args. eapply keeps_bind; [apply keeps_bump|]. intros _ _.
  eapply keeps_loop; [apply type_args_loop_keeps|]. walk.
Qed.
#[local] Hint Resolve keeps_generic_args : keeps.

Lemma params_loop_keeps ps ms b : turning w (fun F => params_loop self F ps ms b) any.
Proof.
  intros F. revert ps ms b. induction F as [|F IH]; intros ps ms b p Hp HF; [lia|]. cbn [params_loop]. pose proof (after_refl w p Hp) as H0.
  look. look. case_bool_decide; [by split|]. case_bool_decide as He; [by split|]. cbn [orb]. eapply to_known; [done|].
  turn. turn. cbv zeta. turn. destruct (negb _); [by split|]. guarded p Hp IH.
Qed.

Lemma keeps_function_type : keeps w (parse_function_type self) any.
Proof.
  unfold parse_function_type. eapply keeps_bind; [apply keeps_current|]. intros t _. eapply keeps_bind; [apply keeps_bump|]. intros _ _.
  eapply keeps_loop; [apply params_loop_keeps|]. intros [[ps ms] b] _. walk.
Qed.
#[local] Hint Resolve keeps_function_type : keeps.

Lemma keeps_type_inner end_ : keeps w (parse_type_ref_inner self end_) any.
Proof. unfold parse_type_ref_inner. walk. Qed.
End types.

(** A refused level is not left: the nesting does not fall. *)
Lemma keeps_type self w end_ : ((b_levels w < MAX_NESTING_DEPTH)%nat -> keeps (deeper w) (self_type self) any) ->
  keeps w (parse_type_ref_ending self end_) any.
Proof.
  intros Ht p Hp. destruct (enter_spec w p Hp) as (q & b & H & Hq & Hpl & Hlt). unfold parse_type_ref_ending. eapply to_known; [exact H|].
  destruct b; cbn [negb].
  - apply to_bind. eapply to_weaken; [apply (keeps_type_inner self (deeper w)); [by apply Ht, Hlt|done]|]. intros r ty [[Hf Hm] _].
    eapply (to_known exit_nesting); [reflexivity|]. split; [|done]. by apply (after_placed w p q r); [|..|apply exit_fine|].
  - assert (keeps (deeper w) (_ ← recover_refused_nesting; t ← current; mret (TypeRef_Error (token_span t))) any) as Hk by walk.
    eapply to_weaken; [by apply Hk|]. intros r ty [[Hf Hm] _]. split; [|done]. by apply (after_placed w p q r); [..|apply fine_shallow|].
Qed.

(** ** What a call may count on *)

(** The calls back within the budget; those that nesting does not bound have a token
    less. *)
Record calls_keep (self : Self) (w : Budget) : Prop := {
  ck_expr : keeps w (self_expr self) (tree w);
  ck_type : keeps w (self_type self) any;
  ck_stmt : keeps (less w) (self_stmt self) any;
  ck_item : keeps (less w) (self_item self) any;
  ck_fill : keeps (less w) (self_fill self) any;
  ck_binary : (b_levels w < MAX_NESTING_DEPTH)%nat -> keeps (deeper w) (self_binary self (TYPE_OPERATOR_BP - 1)) (tree w);
  ck_unary : (b_levels w < MAX_NESTING_DEPTH)%nat -> keeps (deeper w) (self_unary self) (tree w);
  ck_deep_type : (b_levels w < MAX_NESTING_DEPTH)%nat -> keeps (deeper w) (self_type self) any;
  ck_deep_stmt : (b_levels w < MAX_NESTING_DEPTH)%nat -> keeps (deeper w) (self_stmt self) any
}.

(** ** Lists *)

Section lists.
Context (self : Self) (w : Budget) (Hself : calls_keep self w).
#[local] Hint Resolve ck_expr ck_type : keeps.

Lemma keeps_expr : keeps w (self_expr self) any.
Proof. eapply keeps_weaken; [by apply ck_expr|done]. Qed.
#[local] Hint Resolve keeps_expr | 10 : keeps.

Lemma keeps_call_arg : keeps w (parse_call_arg self) any.
Proof. unfold parse_call_arg. walk. Qed.
#[local] Hint Resolve keeps_call_arg : keeps.

Lemma args_loop_keeps args : turning w (fun F => call_args_loop self F args) any.
Proof.
  intros F. revert args. induction F as [|F IH]; intros args p Hp HF; [lia|]. cbn [call_args_loop]. pose proof (after_refl w p Hp) as H0.
  look. look. case_bool_decide; [by split|]. case_bool_decide as He; [by split|]. cbn [orb]. eapply to_known; [done|].
  turn. turn. destruct (negb _); [by split|]. guarded p Hp IH.
Qed.

Lemma keeps_call_args : keeps w (parse_call_args self) any.
Proof.
  unfold parse_call_args. eapply keeps_bind; [apply keeps_bump|]. intros _ _.
  eapply keeps_loop; [apply turning_literals, args_loop_keeps|]. walk.
Qed.
#[local] Hint Resolve keeps_call_args : keeps.

Lemma keeps_positional_args : keeps w (parse_positional_call_args self) any.
Proof. unfold parse_positional_call_args. walk. Qed.

Lemma tuple_loop_keeps es : turning w (fun F => tuple_loop self F es) any.
Proof.
  intros F. revert es. induction F as [|F IH]; intros es p Hp HF; [lia|]. cbn [tuple_loop]. pose proof (after_refl w p Hp) as H0.
  look. look. case_bool_decide as Hr; [by split|]. case_bool_decide as He; [by split|]. cbn [orb].
  turn. cbv zeta. turn.
  match goal with |- run_to _ ?q _ => destruct (eat_spec w q Comma (proj1 ltac:(eassumption))) as (b & r & Hb & Hr' & Hmv & _) end.
  eapply to_known; [exact Hb|]. eapply to_later; [by eapply after_trans|]. destruct b; cbn [negb]; [|by split; [apply after_refl, Hr'|]].
  apply IH; [apply Hr'|]. destruct (Hmv eq_refl ltac:(done)) as (_ & Hlt & _).
  match goal with H : after w p ?q, _ : (_ < left_ ?q)%nat |- _ => pose proof (after_left _ _ _ H) end. lia.
Qed.

Lemma keeps_paren : keeps w (parse_paren self) (tree w).
Proof.
  unfold parse_paren. eapply keeps_bind; [apply keeps_current|]. intros t _. eapply keeps_bind; [apply keeps_bump|]. intros _ _.
  eapply keeps_bind; [by apply keeps_literals, ck_expr|]. intros e He. eapply keeps_bind; [apply keeps_eat|]. intros [|] _; cbn [negb]; [|walk].
  eapply keeps_loop; [apply tuple_loop_keeps|]. walk.
Qed.

Lemma looks_array_end v : looks v at_array_end (fun p b => b = bool_decide (here p = RBracket \/ here p = RBrace \/ here p = Eof_)).
Proof. intros p Hp. unfold at_array_end, mbind, st_bind. rewrite (current_kind_spec v p Hp). by eexists. Qed.
Lemma keeps_array_end v : keeps v at_array_end any.
Proof. eapply look_keeps, looks_array_end. Qed.
#[local] Hint Resolve keeps_array_end : keeps.

Lemma array_loop_keeps es : turning w (fun F => array_loop self F es) any.
Proof.
  intros F. revert es. induction F as [|F IH]; intros es p Hp HF; [lia|]. cbn [array_loop]. pose proof (after_refl w p Hp) as H0.
  eapply to_look; [apply looks_array_end|done|]. intros ? ->. case_bool_decide as He; [by split|]. eapply to_known; [done|].
  turn. turn. destruct a0; [by split|]. turn. turn. turn. turn.
  assert (here p <> Eof_) by tauto. guarded p Hp IH.
Qed.

Lemma keeps_array : keeps w (parse_array_literal self) (tree w).
Proof.
  unfold parse_array_literal. eapply keeps_bind; [apply keeps_current|]. intros t _. eapply keeps_bind; [apply keeps_bump|]. intros _ _.
  eapply keeps_loop; [apply turning_literals, array_loop_keeps|]. walk.
Qed.

Lemma keeps_field_init : keeps w (parse_field_init self) any.
Proof. unfold parse_field_init. walk. Qed.
#[local] Hint Resolve keeps_field_init : keeps.

Lemma fields_loop_keeps fs : turning w (fun F => fields_loop self F fs) any.
Proof.
  intros F. revert fs. induction F as [|F IH]; intros fs p Hp HF; [lia|]. cbn [fields_loop]. pose proof (after_refl w p Hp) as H0.
  look. look. case_bool_decide; [by split|]. case_bool_decide as He; [by split|]. cbn [orb]. eapply to_known; [done|].
  turn. turn. turn. destruct (_ || _); [by split|]. turn. turn. turn. turn. turn. guarded p Hp IH.
Qed.

Lemma keeps_struct name s : keeps w (parse_struct_literal self name s) (tree w).
Proof.
  unfold parse_struct_literal. eapply keeps_bind; [apply keeps_bump|]. intros _ _.
  eapply keeps_loop; [apply turning_literals, fields_loop_keeps|]. walk.
Qed.
End lists.
#[export] Hint Resolve ck_expr ck_type keeps_call_args keeps_positional_args keeps_paren keeps_array keeps_struct : keeps.
#[export] Hint Resolve keeps_expr | 10 : keeps.
