(* ===== verification/ParserParts.v ===== *)
(** * What the parser does on blocks and content

    The parts of [ParserBlocks]: they come back, within the budget they were given,
    and what opens with a brace takes a token at least. *)

From Stdlib Require Import Strings.String.
From stdpp Require Import list.
From S2P Require Import Prelude.
From S2P Require Import Foreign.
From S2P Require Import VmText.
From S2P Require Import Source.
From S2P Require Import Lexer.
From S2P Require Import Syntax.
From S2P Require Import Parser.
From S2P Require Import ParserBlocks.
From S2P Require Import ParserSteps.
From S2P Require Import ParserLists.

(** A run that takes a token and goes on. *)
Definition takes {A} (w : Budget) (m : M A) (p : Parser) (R : A -> Prop) : Prop :=
  run_to m p (fun q a => after w p q /\ (left_ q < left_ p)%nat /\ R a).

Lemma keeps_name w c : keeps w (expect_name c) any.
Proof. unfold expect_name. walk. Qed.
#[export] Hint Resolve keeps_name : keeps.

Lemma takes_then {A B} w (m : M A) (k : A -> M B) p R R' : takes w m p R -> (forall a, R a -> keeps w (k a) R') -> takes w (m ≫= k) p R'.
Proof.
  intros Hm Hk. apply to_bind. eapply to_weaken; [exact Hm|]. intros q a (Hq & Hlt & Ha). eapply to_weaken; [apply (Hk a Ha q), Hq|].
  intros r b [Hr Hb]. split; [by eapply after_trans|]. split; [|done]. pose proof (after_left _ _ _ Hr). lia.
Qed.

Lemma bump_takes w p : fine w p -> here p <> Eof_ -> takes w bump p (ours w).
Proof.
  intros Hp He. destruct (bump_spec w p Hp) as (t & q & Hb & Ht & Hq & Hm). unfold takes, run_to. rewrite Hb.
  by destruct (Hm He) as (_ & ? & _).
Qed.

(** [expect] where there is what it expects. *)
Lemma expect_takes w p k : fine w p -> here p = k -> k <> Eof_ -> takes w (expect k) p (fun b => b = true).
Proof.
  intros Hp Hk He. unfold takes, expect. destruct (eat_spec w p k Hp) as (b & q & Hb & Hq & Hm & Hy). eapply to_known; [exact Hb|].
  rewrite (Hy Hk) in *. split; [done|]. split; [|done]. by destruct (Hm eq_refl He) as (_ & ? & _).
Qed.

(** ** Blocks *)

Lemma block_loop_keeps self v ss : keeps v (self_stmt self) any -> turning v (fun F => block_loop self F ss) any.
Proof.
  intros Hst F. revert ss. induction F as [|F IH]; intros ss p Hp HF; [lia|]. cbn [block_loop]. pose proof (after_refl v p Hp) as H0.
  look. look. case_bool_decide; [by split|]. case_bool_decide as He; [by split|]. cbn [orb]. eapply to_known; [done|].
  turn. turn. turn. destruct (_ || _); [by split|]. turn. turn. guarded p Hp IH.
Qed.

Lemma keeps_block_body self v s : keeps v (self_stmt self) any -> keeps v (parse_block_body self s) any.
Proof. intros Hst. unfold parse_block_body. eapply keeps_loop; [by apply block_loop_keeps|]. walk. Qed.

Section parts.
Context (self : Self) (w : Budget) (Hself : calls_keep self w).

(** The level a block takes. *)
Lemma keeps_block_level t e : keeps w (allowed ← enter_nesting;
    block ← (if allowed : bool then parse_block_body self t else _ ← recover_refused_nesting; _ ← expect RBrace; mret e);
    _ ← exit_nesting; mret block) any.
Proof. apply keeps_level; [|walk]. intros Hlt. by apply keeps_block_body, ck_deep_stmt. Qed.

Lemma keeps_block : keeps w (parse_block self) any.
Proof.
  unfold parse_block. eapply keeps_bind; [apply keeps_current|]. intros t _. cbv zeta. eapply keeps_bind; [apply keeps_expect|]. intros b _.
  destruct b; cbn [negb]; [apply keeps_block_level|walk].
Qed.

Lemma block_takes p : fine w p -> here p = LBrace -> takes w (parse_block self) p any.
Proof.
  intros Hp Hh. unfold parse_block. destruct (current_spec w p Hp) as (t & Ht & _). unfold takes. eapply to_known; [exact Ht|]. cbv zeta.
  eapply takes_then; [by apply expect_takes|]. intros ? ->. cbn [negb]. apply keeps_block_level.
Qed.

(** ** Closures *)

Lemma closure_params_keep v ps : turning v (fun F => closure_params_loop F ps) any.
Proof.
  intros F. revert ps. induction F as [|F IH]; intros ps p Hp HF; [lia|]. cbn [closure_params_loop]. pose proof (after_refl v p Hp) as H0.
  look. look. look. case_bool_decide; [by split|]. case_bool_decide; [by split|]. case_bool_decide as He; [by split|]. cbn [orb].
  destruct (current_spec v p Hp) as (t & Ht & Hot & _ & Hk & _). eapply to_known; [exact Ht|].
  case_decide as Hid; [assert (keeps v (_ ← error (token_span t) KPAR039; mret ps) any) as Hw by walk; by apply Hw|].
  look. apply (to_taken v); [done|done|]. intros u q _ Hq Hlt _. destruct (eat_spec v q Comma (proj1 Hq)) as (b & r & Hb & Hr & _).
  eapply to_known; [exact Hb|]. assert (after v p r) as Hpr by by eapply after_trans. destruct b; cbn [negb]; [|by split].
  eapply to_later; [exact Hpr|]. apply IH; [apply Hr|]. pose proof (after_left _ _ _ Hr). lia.
Qed.

(** The braces of a closure hold statements of its own level. *)
Lemma closure_takes p : fine w p -> here p = LBrace -> takes w (parse_closure self) p (tree w).
Proof.
  intros Hp Hh. unfold parse_closure. destruct (current_spec w p Hp) as (t & Ht & _). unfold takes. eapply to_known; [exact Ht|].
  apply bump_first; [done|by rewrite Hh|]. intros _ _. eapply keeps_loop; [apply closure_params_keep|]. intros ps _.
  eapply keeps_bind; [apply keeps_expect|]. intros _ _. eapply keeps_bind; [apply keeps_block_body, ck_stmt, Hself|]. walk.
Qed.

Lemma trailing_closure_takes base p : fine w p -> here p = LBrace -> takes w (attach_trailing_closure self base) p (tree w).
Proof.
  intros Hp Hh. unfold attach_trailing_closure. eapply takes_then; [by apply closure_takes|]. intros e _. cbv zeta. walk; exact I.
Qed.

(** ** Content *)

Lemma content_loop_keeps v es : keeps v (self_item self) any -> turning v (fun F => content_loop self F es) any.
Proof.
  intros Hi F. revert es. induction F as [|F IH]; intros es p Hp HF; [lia|]. cbn [content_loop]. pose proof (after_refl v p Hp) as H0.
  look. look. case_bool_decide; [by split|]. case_bool_decide as He; [by split|]. cbn [orb]. eapply to_known; [done|].
  turn. turn. turn. destruct (_ || _); [by split|]. turn. turn. guarded p Hp IH.
Qed.

Lemma keeps_content v : keeps v (self_item self) any -> keeps v (parse_content_block self) any.
Proof.
  intros Hi. unfold parse_content_block. eapply keeps_bind; [apply keeps_bump|]. intros _ _.
  eapply keeps_loop; [by apply turning_literals, content_loop_keeps|]. walk.
Qed.

Lemma keeps_binder v : keeps v bare_override_path_ends_in_binder any.
Proof. unfold bare_override_path_ends_in_binder. apply keeps_dotted_then. intros r. tests. Qed.

Lemma override_loop_keeps v path s : turning v (fun F => override_path_loop F path s) any.
Proof.
  intros F. revert path s. induction F as [|F IH]; intros path s p Hp HF; [lia|]. cbn [override_path_loop].
  destruct (eat_spec v p Dot Hp) as (b & q & Hb & Hq & Hm & _). eapply to_known; [exact Hb|]. destruct b; cbn [negb]; [|by split].
  destruct (Hm eq_refl ltac:(done)) as (_ & Hlt & _). destruct (current_spec v q (proj1 Hq)) as (t & Ht & Hot & _). eapply to_known; [exact Ht|].
  eapply to_later; [exact Hq|]. case_decide; [assert (keeps v (_ ← error (token_span t) KPAR022; mret (path, s)) any) as Hw by walk; apply Hw, Hq|].
  pose proof (proj1 Hq) as Hqf. pose proof (after_refl v q Hqf). turn. turn. eapply to_later; [done|].
  apply IH; match goal with H : after v q ?r |- context [?r] => first [apply H|pose proof (after_left _ _ _ H); lia] end.
Qed.

#[local] Hint Resolve closure_params_keep content_loop_keeps override_loop_keeps : loops.
#[local] Hint Resolve keeps_binder : keeps.

Lemma keeps_override : keeps (less w) (parse_override self) any.
Proof.
  pose proof (ck_fill self w Hself). unfold parse_override. walk.
Qed.

Lemma trailing_loop_keeps args es : turning (less w) (fun F => trailing_loop self F args es) any.
Proof.
  pose proof (ck_item self w Hself). intros F. revert args es. induction F as [|F IH]; intros args es p Hp HF; [lia|]. cbn [trailing_loop].
  pose proof (after_refl (less w) p Hp) as H0.
  look. look. case_bool_decide; [by split|]. case_bool_decide as He; [by split|]. cbn [orb]. eapply to_known; [done|].
  turn. turn. turn. destruct (_ || _); [by split|]. eapply (to_step _ _ _ _ _ any); [apply keeps_override|done|]. intros ? ? ? _.
  turn. turn. guarded p Hp IH.
Qed.

Lemma trailing_takes p : fine w p -> here p = LBrace -> takes w (parse_trailing_block self) p any.
Proof.
  intros Hp Hh. unfold parse_trailing_block. apply bump_first; [done|by rewrite Hh|]. intros _ _.
  eapply keeps_loop; [apply turning_literals, trailing_loop_keeps|]. walk.
Qed.

(** Where a run that moved on began, with what it left of the tokens. *)
Lemma rewound p q : fine w p -> here p = LBrace -> after w p q ->
  let r := with_cursor (p_pos p) (with_errors (take (length (p_errors p)) (p_errors q)) q) in
  fine w r /\ here r = LBrace /\ left_ r = left_ p /\ grown p r /\ p_errors r = p_errors p.
Proof.
  intros Hp Hh [Hq Hm] r. destruct (moves_grown _ _ Hm) as [[Hb Hk Hc Hl [es He]] Hpos]. pose proof Hp as [_ _ _ Hi _ Hleft].
  assert (p_errors r = p_errors p) as Her by (cbn; by rewrite He, take_app_length).
  assert (left_ r = left_ p) as Hlr.
  { unfold left_. cbn. pose proof (take_drop (p_pos p) (p_tokens q)) as H1. pose proof (take_drop (p_pos p) (p_tokens p)) as H2.
    rewrite Hb in H1. rewrite <- H1 in Hc. rewrite <- H2 in Hc at 2. unfold costs in *. rewrite !sum_list_with_app in Hc. lia. }
  destruct (current_spec w p Hp) as (t & _ & _ & Ht & Hkt & _). rewrite Hh in Hkt. specialize (Hk t Ht ltac:(by rewrite Hkt)).
  split_and!; try done.
  - destruct Hq. constructor; try done; [cbn; lia|lia].
  - unfold here. change (p_tokens r) with (p_tokens q). change (p_pos r) with (p_pos p). by rewrite Hk.
  - constructor; try done; [|by rewrite Her]. intros u Hu Hn. change (p_tokens r) with (p_tokens q). congruence.
Qed.

(** What is read again from further on. *)
Lemma later_cursor p q n : fine w p -> fine w q -> grown p q -> (p_pos p < n)%nat -> (n < length (p_tokens q))%nat -> forall es, p_errors p `prefix_of` es ->
  let r := with_cursor n (with_errors es q) in after w p r /\ (left_ r < left_ p)%nat.
Proof.
  intros Hp Hq [Hb Hk Hc Hl He] Hn Hi es Hes r. pose proof Hp as [_ _ _ Hip _ Hleft].
  assert (costs (drop (p_pos p) (p_tokens q)) = left_ p) as Hsame.
  { unfold left_. pose proof (take_drop (p_pos p) (p_tokens q)) as H1. pose proof (take_drop (p_pos p) (p_tokens p)) as H2.
    rewrite Hb in H1. rewrite <- H1 in Hc. rewrite <- H2 in Hc at 2. unfold costs in *. rewrite !sum_list_with_app in Hc. lia. }
  assert (left_ r < left_ p)%nat as Hlt.
  { rewrite <- Hsame. unfold left_. cbn. destruct (lookup_lt_is_Some_2 (p_tokens q) (p_pos p)) as [t Ht]; [lia|]. rewrite (drop_S _ _ _ Ht).
    pose proof (cost_pos t). replace n with (S (p_pos p) + (n - S (p_pos p)))%nat by lia. rewrite <- drop_drop.
    pose proof (take_drop (n - S (p_pos p)) (drop (S (p_pos p)) (p_tokens q))) as Hd. unfold costs. cbn [sum_list_with].
    rewrite <- Hd at 2. rewrite sum_list_with_app. lia. }
  split; [|done]. split; [destruct Hq; constructor; try done; lia|right]. split_and!; [done|done|by constructor].
Qed.

Lemma moves_further p q : moves p q -> (left_ q < left_ p)%nat -> further p q.
Proof. intros [H|H] Hlt; [rewrite (same_left p q H) in Hlt; lia|done]. Qed.

(** Both readings come back, and the one that stands takes the brace. *)
Lemma deferred_takes args p : fine w p -> here p = LBrace -> takes w (parse_deferred_brace self args) p any.
Proof.
  intros Hp Hh. unfold parse_deferred_brace, takes. destruct (current_spec w p Hp) as (t & Ht & _).
  eapply to_known; [reflexivity|]. eapply to_known; [reflexivity|]. eapply to_known; [exact Ht|].
  apply to_bind. eapply to_weaken; [by apply block_takes|]. intros q block (Hq & Hlt & _).
  destruct (moves_further _ _ (proj2 Hq) Hlt) as (Hpos & _ & _). destruct (rewound p q Hp Hh Hq) as (Hr & Hhr & Hlr & Hg & Her).
  eapply to_known; [reflexivity|]. cbv zeta. eapply to_known; [reflexivity|]. eapply to_known; [reflexivity|]. eapply to_known; [reflexivity|].
  cbn [p_pos with_errors] in *. set (r := with_cursor (p_pos p) _) in *. apply to_bind. eapply to_weaken; [by apply trailing_takes|].
  intros s content (Hs & Hlts & _). destruct (moves_further _ _ (proj2 Hs) Hlts) as (Hposs & _ & Hgs).
  assert (grown p s) as Hps by (apply (grown_trans p r s); done). destruct (grown_errors _ _ Hps) as [es He].
  eapply to_known; [reflexivity|]. eapply to_look; [apply looks_previous_end|apply Hs|]. intros last_ _. destruct (_ && _).
  - eapply to_known; [reflexivity|]. eapply to_known; [reflexivity|].
    destruct (later_cursor p s (p_pos q) Hp (proj1 Hs) Hps Hpos) with (es := take (length (p_errors p)) (p_errors s)) as [Ha Hl].
    + pose proof (fine_inside w q (proj1 Hq)). pose proof (grown_length _ _ Hgs) as Hlen. cbn in Hlen. lia.
    + by rewrite He, take_app_length.
    + split; [exact Ha|]. by split.
  - split; [|split; [lia|done]]. split; [apply Hs|right]. split_and!; [done|lia|done].
Qed.

Lemma deferred_then {B} args (k : list (CallArg Expr) * DeferredBrace -> M B) p R : fine w p -> here p = LBrace ->
  (forall a, keeps w (k a) R) -> takes w (parse_deferred_brace self args ≫= k) p R.
Proof. intros Hp Hh Hk. eapply takes_then; [by apply deferred_takes|]. intros a _. apply Hk. Qed.

Lemma literals_takes {A} (m : M A) p R : fine w p -> (forall q, fine w q -> here q = here p -> takes w m q R) -> takes w (with_struct_literals m) p R.
Proof.
  intros Hp Hm. assert (fine w (with_literal_flag false p)) as Hs by by destruct Hp. specialize (Hm _ Hs eq_refl).
  unfold takes, run_to, with_struct_literals, with_flag in *. destruct (m _) as [q [a|e]]; [|done]. destruct Hm as (Hq & Hlt & Ha).
  split; [|by split]. apply (after_placed w p (with_literal_flag false p) q); [done|done| |apply Hq]. by destruct Hq as [[] _].
Qed.

Lemma keeps_fill : keeps w (parse_fill_value self) any.
Proof.
  intros p Hp. unfold parse_fill_value. look. eapply to_look; [apply looks_closure_start|done|]. intros c _.
  case_bool_decide as Hh; cbn [andb]; [destruct c; cbn [negb]|].
  1, 3: assert (keeps w (without_named_fills (self_expr self)) any) as Hk by (pose proof (keeps_expr self w Hself); walk); by apply Hk.
  destruct (current_spec w p Hp) as (t & Ht & _). eapply to_known; [exact Ht|]. apply to_kept.
  apply (takes_then w (with_struct_literals (parse_deferred_brace self [])) _ p any); [|intros a _; walk].
  apply literals_takes; [done|]. intros q Hq Hhq. apply deferred_takes; [done|congruence].
Qed.
#[local] Hint Resolve keeps_fill : keeps.

Lemma named_fill_takes p : fine w p -> here p = Identifier -> takes w (parse_named_fill self) p any.
Proof.
  intros Hp Hh. unfold parse_named_fill, takes. destruct (current_spec w p Hp) as (t & Ht & Hot & _). eapply to_known; [exact Ht|]. look.
  apply (to_taken w); [done|by rewrite Hh|]. intros u q _ Hq Hlt _.
  assert (keeps w (_ ← bump; value ← parse_fill_value self; last_ ← previous_end;
    mret {| arg_label := Some (a, token_span t); arg_value := value; arg_span := from_bounds (start (token_span t)) last_ |}) any) as Hk by walk.
  eapply to_weaken; [apply Hk, Hq|]. intros r b [Hr Hb]. split; [by eapply after_trans|]. split; [|done]. pose proof (after_left _ _ _ Hr). lia.
Qed.

Lemma fills_loop_keeps base : tree w base -> turning w (fun F => fills_loop self F base) (tree w).
Proof.
  intros Hb F. revert base Hb. induction F as [|F IH]; intros base Hb p Hp HF; [lia|]. cbn [fills_loop]. pose proof (after_refl w p Hp) as H0.
  eapply to_look; [apply looks_named_fill|done|]. intros b Hn. destruct b; cbn [negb]; [|by split].
  destruct base; try by split. apply to_bind. eapply to_weaken; [by apply named_fill_takes, Hn|]. intros q arg (Hq & Hlt & _).
  eapply to_look; [apply looks_previous_end|apply Hq|]. intros last_ _. eapply to_later; [exact Hq|]. apply IH; [done|apply Hq|lia].
Qed.

Lemma named_fills_takes base p : tree w base -> fine w p -> is_call base = true -> at_named_fill p = (p, Ok true) -> takes w (attach_named_fills self base) p (tree w).
Proof.
  intros Hb Hp Hc Hf. unfold attach_named_fills, takes. eapply to_known; [reflexivity|]. destruct base; try done. cbn [fills_loop].
  destruct (looks_named_fill w p Hp) as (b & Hb' & Hn). rewrite Hf in Hb'. injection Hb' as <-. eapply to_known; [exact Hf|]. cbn [negb].
  apply to_bind. eapply to_weaken; [by apply named_fill_takes, Hn|]. intros q arg (Hq & Hlt & _).
  eapply to_look; [apply looks_previous_end|apply Hq|]. intros last_ _. pose proof (left_bound p).
  eapply to_weaken; [eapply fills_loop_keeps; [|apply Hq|lia]; exact I|]. intros r e [Hr He]. split; [by eapply after_trans|]. split; [|done].
  pose proof (after_left _ _ _ Hr). lia.
Qed.

Definition attached (o : option Expr) : Prop := match o with Some e => tree w e | None => True end.

(** A block that attaches takes the brace; where none does, nothing is taken. *)
Lemma content_block_runs base p : fine w p -> here p = LBrace -> run_to (attach_content_block self base) p (fun q o =>
  match o with Some e => after w p q /\ (left_ q < left_ p)%nat /\ tree w e | None => q = p end).
Proof.
  intros Hp Hh. unfold attach_content_block. destruct base; try done; (match goal with |- run_to (if ?b then _ else _) _ _ => destruct b end; [done|]);
    apply to_bind; (eapply to_weaken; [by apply deferred_takes|]); intros q brace (Hq & Hlt & _); (eapply to_look; [apply looks_previous_end|apply Hq|]);
    intros last_ _; (split; [done|]); by split.
Qed.

(** ** Items *)

Lemma looks_word v word : looks v (at_word word) (fun p b => b = true -> here p = Identifier).
Proof.
  intros p Hp. unfold at_word, peek_is_word. destruct (current_spec v p Hp) as (t & Ht & Hot & _ & Hk & _). unfold mbind, st_bind.
  change (peek_token 0) with current. rewrite Ht. case_decide as Hid; [|by eexists].
  destruct (looks_text v _ (ours_sliced v t Hot) p Hp) as (x & Hx & _). rewrite Hx. eexists. split; [done|]. intros _. congruence.
Qed.

Lemma keeps_content_for p : fine w p -> here p <> Eof_ -> takes w (parse_content_for self) p any.
Proof.
  intros Hp Hh. unfold parse_content_for, takes. destruct (current_spec w p Hp) as (t & Ht & _). eapply to_known; [exact Ht|].
  pose proof (keeps_content (less w) (ck_item self w Hself)). pose proof (keeps_less w _ _ (keeps_expr self w Hself)). apply bump_first; [done|done|]. walk.
Qed.

Lemma content_if_runs F : forall p, fine w p -> here p <> Eof_ -> (left_ p < F)%nat -> takes w (content_if_loop self F) p any.
Proof.
  pose proof (keeps_content (less w) (ck_item self w Hself)). pose proof (keeps_less w _ _ (keeps_expr self w Hself)) as Hex.
  induction F as [|F IH]; intros p Hp Hh HF; [lia|]. cbn [content_if_loop]. unfold takes. destruct (current_spec w p Hp) as (t & Ht & _).
  eapply to_known; [exact Ht|]. apply (to_taken w); [done|done|]. intros u q _ Hq Hlt Hqf. pose proof (after_refl (less w) q Hqf) as H0.
  turn. turn. turn. eapply to_look; [apply looks_at_kind|match goal with H : after _ q ?r |- fine _ ?r => apply H end|]. intros ? ->.
  match goal with H : after (less w) q ?r |- run_to _ ?r _ => rename r into r0; rename H into Hr end.
  assert (after w p r0 /\ (left_ r0 < left_ p)%nat) as [Hpr Hltr].
  { split; [eapply after_trans; [exact Hq|split; [apply fine_lower, Hr|apply Hr]]|]. pose proof (after_left _ _ _ Hr). lia. }
  apply to_bind. apply (to_weaken _ _ (fun s _ => after w r0 s)).
  - destruct a1; cbn [negb]; [case_bool_decide as Hif|exact (after_refl w r0 (proj1 Hpr))].
    + apply to_bind. eapply to_weaken; [apply IH; [apply Hpr|by rewrite Hif|lia]|]. intros s e (Hs & _). exact Hs.
    + assert (keeps (less w) (parse_content_block self) any) as Hk by done. eapply to_weaken; [apply Hk, Hr|]. intros s e [[Hs Hm] _].
      split; [by apply fine_lower|done].
  - intros s es Hs. assert (keeps w (last_ ← previous_end; mret (Expr_ContentIf a a0 es (from_bounds (start (token_span t)) last_))) any) as Hend by walk.
    eapply to_weaken; [apply Hend, Hs|]. intros z e [Hz _]. assert (after w r0 z) as H0z by by eapply after_trans.
    split; [by eapply after_trans|]. split; [|done]. pose proof (after_left _ _ _ H0z). lia.
Qed.

Lemma keeps_item : keeps w (parse_content_item self) any.
Proof.
  intros p Hp. unfold parse_content_item. destruct (looks_word w (spelled "For") p Hp) as (b & Hb & Hword). eapply to_known; [exact Hb|]. look. look.
  destruct (b && bool_decide (a = LParen)) eqn:Hfor.
  { apply andb_true_iff in Hfor as [-> _]. apply to_kept, keeps_content_for; [done|by rewrite Hword]. }
  destruct (bool_decide_reflect (here p = If_)) as [Hif|]; [|by apply (keeps_expr self w Hself)]. unfold parse_content_if. destruct (turns_fine p) as (F & HF & Hlt).
  eapply to_known; [exact HF|]. apply to_kept, content_if_runs; [done|by rewrite Hif|done].
Qed.
End parts.
#[export] Hint Resolve keeps_block : keeps.
