(* ===== verification/ParserStmtRuns.v ===== *)
(** * What the parser does on arms and statements

    The statements of [ParserStmts] come back within the budget they were given. *)

From Stdlib Require Import Strings.String.
From stdpp Require Import list.
From S2P Require Import Prelude.
From S2P Require Import Foreign.
From S2P Require Import Source.
From S2P Require Import Lexer.
From S2P Require Import Syntax.
From S2P Require Import Parser.
From S2P Require Import ParserBlocks.
From S2P Require Import ParserStmts.
From S2P Require Import ParserSteps.
From S2P Require Import ParserLists.
From S2P Require Import ParserParts.

(** ** Patterns *)

Lemma tree_any {A} w (m : M A) R : keeps w m R -> keeps w m any.
Proof. intros H. by eapply keeps_weaken. Qed.

Lemma keeps_literal w : keeps w parse_literal_primary any.
Proof.
  apply (tree_any w _ (tree w)). unfold parse_literal_primary. eapply keeps_bind; [apply keeps_current|]. intros t Ht. cbv zeta.
  pose proof (ours_sliced w t Ht). walk.
Qed.

(** Whatever it is, a token is taken. *)
Lemma literal_takes w p : fine w p -> here p <> Eof_ -> takes w parse_literal_primary p any.
Proof.
  intros Hp Hh. unfold parse_literal_primary, takes. destruct (current_spec w p Hp) as (t & Ht & Hot & _). eapply to_known; [exact Ht|]. cbv zeta.
  assert (forall k : Token -> M Expr, (forall t, ours w t -> keeps (less w) (k t) any) -> takes w (bump ≫= k) p any) as Htk.
  { intros k Hk. by apply bump_first. }
  pose proof (ours_sliced w t Hot).
  assert (forall c, takes w (_ ← error (token_span t) c; _ ← bump; mret (Expr_Error (token_span t))) p any) as Herr.
  { intros c. unfold takes. eapply (to_known (error _ _)); [reflexivity|]. set (q := with_errors _ p).
    assert (after w p q) as Hq by (destruct (keeps_error w (token_span t) c p Hp); done).
    eapply to_weaken; [apply (bump_first w _ q any); [apply Hq|done|]; intros; walk|]. intros r e (Hr & Hlt & _).
    split; [by eapply after_trans|]. by split. }
  destruct (kind t); try apply Herr; apply Htk; intros u _; walk; by case_match.
Qed.

Lemma keeps_pattern_literal w : keeps w parse_pattern_literal any.
Proof. pose proof (keeps_literal w). unfold parse_pattern_literal. walk. Qed.

Lemma pattern_literal_takes w p : fine w p -> starts_pattern_literal (here p) = true -> takes w parse_pattern_literal p any.
Proof.
  intros Hp Hh. assert (here p <> Eof_) by (by intros H; rewrite H in Hh). unfold parse_pattern_literal, takes.
  destruct (current_spec w p Hp) as (t & Ht & Hot & _). eapply to_known; [exact Ht|].
  case_decide; [|by apply literal_takes]. apply bump_first; [done|done|]. intros _ _. pose proof (keeps_literal (less w)). walk.
Qed.

Lemma keeps_payload w : keeps w parse_payload_binding any.
Proof. unfold parse_payload_binding. walk. Qed.
#[export] Hint Resolve keeps_payload keeps_pattern_literal : keeps.

(** A pattern that is one takes a token; what is none is left. *)
Definition some_takes {A} (w : Budget) (m : M (option A)) (p : Parser) : Prop :=
  run_to m p (fun q o => after w p q /\ (is_Some o -> (left_ q < left_ p)%nat)).

Lemma takes_some {A} w (m : M (option A)) p : takes w m p any -> some_takes w m p.
Proof. intros H. eapply to_weaken; [exact H|]. intros q o (Hq & Hlt & _). by split. Qed.

Lemma none_takes {A} w p s c : fine w p -> some_takes w (_ ← error s c; mret (@None A)) p.
Proof. intros Hp. split; [|by intros [? ?]]. by destruct (keeps_error w s c p Hp). Qed.

Lemma pattern_takes w p : fine w p -> some_takes w parse_match_pattern p.
Proof.
  intros Hp. unfold parse_match_pattern, some_takes. destruct (current_spec w p Hp) as (t & Ht & Hot & _ & Hk & _). eapply to_known; [exact Ht|].
  case_decide as He; [apply takes_some, bump_first; [done|congruence|intros; walk]|].
  case_decide as Hid; [look; apply takes_some, bump_first; [done|congruence|intros; walk]|].
  destruct (starts_pattern_literal _) eqn:Hs; [|by apply none_takes]. rewrite Hk in Hs.
  apply takes_some. eapply takes_then; [by apply pattern_literal_takes|]. intros; walk.
Qed.

Lemma patterns_loop_runs w F : forall ps p, fine w p -> (left_ p < F)%nat -> some_takes w (patterns_loop F ps) p.
Proof.
  induction F as [|F IH]; intros ps p Hp HF; [lia|]. cbn [patterns_loop]. unfold some_takes. apply to_bind.
  eapply to_weaken; [by apply pattern_takes|]. intros q [pat|] [Hq Hlt]; [|split; [done|by intros [? ?]]]. specialize (Hlt ltac:(by eexists)).
  destruct (eat_spec w q Comma (proj1 Hq)) as (b & r & Hb & Hr & _). eapply to_known; [exact Hb|]. pose proof (after_left _ _ _ Hr).
  assert (after w p r) as Hpr by by eapply after_trans. destruct b; cbn [negb]; [|split; [done|lia]].
  eapply to_weaken; [apply IH; [apply Hr|lia]|]. intros s o [Hs Hls]. split; [by eapply after_trans|]. pose proof (after_left _ _ _ Hs). lia.
Qed.

(** ** Arms *)

(** What is skipped to the next arm: something, unless the arms end there. *)
Lemma recover_runs w F : forall p, fine w p -> (left_ p < F)%nat ->
  run_to (recover_loop F) p (fun q _ => after w p q /\ (here p <> Eof_ -> here p <> RBrace -> (left_ q < left_ p)%nat)).
Proof.
  induction F as [|F IH]; intros p Hp HF; [lia|]. cbn [recover_loop]. pose proof (after_refl w p Hp). look.
  case_decide as He; [split; [done|tauto]|]. case_decide as Hb.
  - eapply to_weaken; [by apply (balanced_takes w)|]. intros q _ [Hq Hlt]. by split.
  - apply (to_taken w); [done|tauto|]. intros t q _ Hq Hlt _. eapply to_weaken; [apply IH; [apply Hq|lia]|]. intros r _ [Hr _].
    split; [by eapply after_trans|]. intros _ _. pose proof (after_left _ _ _ Hr). lia.
Qed.

Lemma arms_loop_keeps w arm arms : (forall p, fine w p -> some_takes w arm p) -> turning w (fun F => arms_loop arm F arms) any.
Proof.
  intros Harm F. revert arms. induction F as [|F IH]; intros arms p Hp HF; [lia|]. cbn [arms_loop]. pose proof (after_refl w p Hp) as H0.
  look. look. case_bool_decide as Hr'; [by split|]. case_bool_decide as He; [by split|]. cbn [orb]. apply to_bind.
  eapply to_weaken; [by apply Harm|]. intros q [a|] [Hq Hlt]; [eapply to_later; [done|]; apply IH; [apply Hq|specialize (Hlt ltac:(by eexists)); lia]|].
  apply to_bind. unfold recover_to_next_arm. destruct (turns_fine q) as (n & Hn & Hqn). eapply to_known; [exact Hn|].
  eapply to_weaken; [apply (recover_runs w); [apply Hq|exact Hqn]|]. intros r _ [Hr Hmv]. eapply to_later; [by eapply after_trans|].
  apply IH; [apply Hr|]. pose proof (after_left _ _ _ Hr). destruct (proj2 Hq) as [Hs|(_ & Hql & _)]; [|lia].
  rewrite (same_here _ _ Hs) in Hmv. rewrite (same_left _ _ Hs) in *. specialize (Hmv He Hr'). lia.
Qed.

Section statements.
Context (self : Self) (w : Budget) (Hself : calls_keep self w).

Lemma stmt_block : keeps w (parse_block self) any.
Proof. by apply keeps_block. Qed.
Lemma stmt_expr : keeps w (self_expr self) any.
Proof. by apply keeps_expr. Qed.
#[local] Hint Resolve stmt_block stmt_expr : keeps.

(** An arm with an arrow, within what the keyword left of the budget. *)
Lemma arrow_arm_takes body p : keeps (less w) body any -> fine (less w) p -> some_takes (less w) (parse_arrow_arm body) p.
Proof.
  intros Hb Hp. unfold parse_arrow_arm, some_takes. destruct (current_spec (less w) p Hp) as (t & Ht & _). eapply to_known; [exact Ht|].
  destruct (turns_fine p) as (F & HF & Hlt). eapply to_known; [exact HF|]. apply to_bind. eapply to_weaken; [by apply patterns_loop_runs|].
  intros q [ps|] [Hq Hmv]; [|split; [done|by intros [? ?]]]. specialize (Hmv ltac:(by eexists)).
  assert (keeps (less w) (_ ← expect Arrow; body ← body; last_ ← previous_end;
    mret (Some {| arm_patterns := ps; arm_body := body; arm_span := from_bounds (start (token_span t)) last_ |})) any) as Hk by walk.
  eapply to_weaken; [apply Hk, Hq|]. intros r o [Hr _]. split; [by eapply after_trans|]. pose proof (after_left _ _ _ Hr). lia.
Qed.

Lemma keeps_arm_body : keeps (less w) (parse_match_arm_body self) any.
Proof. pose proof (ck_stmt self w Hself). unfold parse_match_arm_body. walk. Qed.
Lemma keeps_expression_body : keeps (less w) (parse_expression_arm_body self) any.
Proof. unfold parse_expression_arm_body. walk. Qed.

Lemma matching_takes arm p : (forall q, fine (less w) q -> some_takes (less w) arm q) -> fine w p -> here p <> Eof_ -> takes w (parse_matching self arm) p any.
Proof.
  intros Harm Hp Hh. unfold parse_matching, takes. destruct (current_spec w p Hp) as (t & Ht & _). eapply to_known; [exact Ht|].
  pose proof (fun arms => arms_loop_keeps (less w) arm arms Harm). apply bump_first; [done|done|]. intros _ _.
  eapply keeps_bind; [apply keeps_less, keeps_no_literals, stmt_expr|]. intros e _. eapply keeps_bind; [apply keeps_expect|]. intros b _.
  eapply keeps_loop; [done|]. walk.
Qed.

Lemma match_takes p : fine w p -> here p <> Eof_ -> takes w (parse_match self) p any.
Proof.
  intros Hp Hh. unfold parse_match. eapply takes_then; [apply matching_takes; [|done|done]|intros; walk].
  intros q Hq. apply arrow_arm_takes; [apply keeps_arm_body|done].
Qed.

Lemma match_expression_takes p : fine w p -> here p <> Eof_ -> takes w (parse_match_expression self) p (tree w).
Proof.
  intros Hp Hh. unfold parse_match_expression. eapply takes_then; [apply matching_takes; [|done|done]|intros; walk].
  intros q Hq. apply arrow_arm_takes; [apply keeps_expression_body|done].
Qed.

Lemma handler_takes p : fine w p -> some_takes w (parse_handler_arm self) p.
Proof.
  intros Hp. unfold parse_handler_arm, some_takes. destruct (current_spec w p Hp) as (t & Ht & Hot & _ & Hk & _). eapply to_known; [exact Ht|]. cbv zeta.
  case_decide as He; [apply takes_some, bump_first; [done|congruence|intros; walk]|].
  case_decide as Hid; [by apply none_takes|]. look. apply takes_some, bump_first; [done|congruence|]. intros; walk.
Qed.

Lemma keeps_attempt : keeps w (parse_attempt self) any.
Proof.
  unfold parse_attempt. eapply keeps_bind; [apply keeps_current|]. intros t _. eapply keeps_bind; [apply keeps_bump|]. intros _ _.
  eapply keeps_bind; [apply stmt_block|]. intros b _. eapply keeps_bind; [apply keeps_word|]. intros h _.
  apply (keeps_bind _ _ _ any); [|walk]. destruct h; [|walk]. eapply keeps_bind; [apply keeps_bump|]. intros _ _.
  eapply keeps_bind; [apply keeps_expect|]. intros _ _. eapply keeps_loop; [apply arms_loop_keeps, handler_takes|]. walk.
Qed.

(** ** Statements *)

Lemma keeps_type_final : keeps w (parse_type_ref_statement_final self) any.
Proof. unfold parse_type_ref_statement_final. apply keeps_type. intros Hlt. by apply ck_deep_type. Qed.
#[local] Hint Resolve keeps_type_final keeps_attempt : keeps.

Lemma keeps_expr_or_assign : keeps w (parse_expr_or_assign self) any.
Proof. unfold parse_expr_or_assign. walk. Qed.
Lemma keeps_let mutable : keeps w (parse_let self mutable) any.
Proof. unfold parse_let. walk. Qed.
Lemma keeps_starts_expression : keeps w starts_expression any.
Proof. unfold starts_expression. walk. Qed.
#[local] Hint Resolve keeps_starts_expression : keeps.
Lemma keeps_return : keeps w (parse_return self) any.
Proof. unfold parse_return. walk. Qed.
Lemma keeps_while : keeps w (parse_while self) any.
Proof. unfold parse_while. walk. Qed.
Lemma keeps_iterable : keeps w (parse_iterable self) any.
Proof. unfold parse_iterable. walk. Qed.
#[local] Hint Resolve keeps_iterable : keeps.
Lemma keeps_for : keeps w (parse_for self) any.
Proof. unfold parse_for. walk. Qed.
Lemma keeps_break : keeps w parse_break any.
Proof. unfold parse_break. walk. Qed.
Lemma keeps_continue : keeps w parse_continue any.
Proof. unfold parse_continue. walk. Qed.
#[local] Hint Resolve keeps_expr_or_assign keeps_let keeps_return keeps_while keeps_for keeps_break keeps_continue : keeps.

(** A chain of [else if] takes a token each time round. *)
Lemma if_runs F : forall p, fine w p -> here p <> Eof_ -> (left_ p < F)%nat -> run_to (if_loop self F) p (fun q _ => after w p q).
Proof.
  induction F as [|F IH]; intros p Hp Hh HF; [lia|]. cbn [if_loop]. destruct (current_spec w p Hp) as (t & Ht & _). eapply to_known; [exact Ht|].
  apply (to_taken w); [done|done|]. intros u q _ Hq Hlt _. pose proof (after_refl w q (proj1 Hq)) as H0.
  turn. turn. turn. eapply to_look; [apply looks_at_kind|match goal with H : after _ q ?r |- fine _ ?r => apply H end|]. intros ? ->.
  match goal with H : after w q ?r |- run_to _ ?r _ => rename r into r0; rename H into Hr end.
  assert (after w p r0 /\ (left_ r0 < left_ p)%nat) as [Hpr Hltr] by (split; [by eapply after_trans|pose proof (after_left _ _ _ Hr); lia]).
  apply to_bind. apply (to_weaken _ _ (fun s _ => after w r0 s)).
  - destruct a1; cbn [negb]; [case_bool_decide as Hif|exact (after_refl w r0 (proj1 Hpr))].
    + apply to_bind. eapply to_weaken; [apply IH; [apply Hpr|by rewrite Hif|lia]|]. done.
    + assert (keeps w (block ← parse_block self; mret (Some block)) any) as Hk by walk. eapply to_weaken; [apply Hk, Hpr|]. by intros s e [Hs _].
  - intros s es Hs. assert (keeps w (last_ ← previous_end; mret (Stmt_If a a0 es (from_bounds (start (token_span t)) last_))) any) as Hend by walk.
    eapply to_weaken; [apply Hend, Hs|]. intros z e [Hz _]. by do 2 (eapply after_trans; [done|]).
Qed.

Lemma keeps_stmt : keeps w (parse_stmt self) any.
Proof.
  intros p Hp. unfold parse_stmt. look.
  assert (forall m : M Stmt, run_to m p (fun q _ => after w p q) -> run_to (s ← m; mret (Some s)) p (fun q a => after w p q /\ any a)) as Hdo.
  { intros m Hm. apply to_bind. eapply to_weaken; [exact Hm|]. intros q s Hq. by split. }
  assert (forall m : M Stmt, keeps w m any -> run_to (s ← m; mret (Some s)) p (fun q a => after w p q /\ any a)) as Hk.
  { intros m Hm. apply Hdo. eapply to_weaken; [by apply Hm|]. by intros q s [Hq _]. }
  destruct (here p) eqn:Hh; try (apply Hk; solve [eauto 2 with keeps nocore]).
  - apply Hdo. unfold parse_if. destruct (turns_fine p) as (F & HF & Hlt). eapply to_known; [exact HF|]. apply if_runs; [done|by rewrite Hh|done].
  - apply Hdo. eapply to_weaken; [apply match_takes; [done|by rewrite Hh]|]. by intros q s [Hq _].
Qed.
End statements.
