(* ===== verification/ParserRuns.v ===== *)
(** * What the parser does on any text

    [parse_expr], [parse_block] and [parse_stmt] come back on every list of tokens that
    ends with the end of the file and whose spans slice the text: the loops move on or
    end, and the calls are bounded by the nesting budget and the tokens. *)

From Stdlib Require Import Strings.String.
From stdpp Require Import list.
From S2P Require Import Prelude.
From S2P Require Import Foreign.
From S2P Require Import VmText.
From S2P Require Import Source.
From S2P Require Import Lexer.
From S2P Require Import LexerScan.
From S2P Require Import LexerChars.
From S2P Require Import Syntax.
From S2P Require Import Parser.
From S2P Require Import ParserBlocks.
From S2P Require Import ParserStmts.
From S2P Require Import ParserExpr.
From S2P Require Import ParserSteps.
From S2P Require Import ParserLists.
From S2P Require Import ParserParts.
From S2P Require Import ParserStmtRuns.

Lemma close_brace_keeps w d : turning w (fun F => close_brace_loop F d) any.
Proof.
  intros F. revert d. induction F as [|F IH]; intros d p Hp HF; [lia|]. cbn [close_brace_loop]. pose proof (after_refl w p Hp) as H0. look.
  assert (forall d, here p <> Eof_ -> run_to (_ ← bump; close_brace_loop F d) p (fun q a => after w p q /\ any a)) as Hnext.
  { intros d' He. apply (to_taken w); [done|done|]. intros t q _ Hq Hlt _. eapply to_later; [done|]. apply IH; [apply Hq|lia]. }
  destruct (here p) eqn:Hh; try (apply Hnext; congruence); [destruct d; [by split|apply Hnext; congruence]|by split].
Qed.

Lemma keeps_close_brace w : keeps w skip_to_close_brace any.
Proof. apply keeps_turning, close_brace_keeps. Qed.
#[local] Hint Resolve keeps_close_brace : keeps.

(** The same call, at the parser it looks at. *)
Ltac looking := match goal with |- run_to ?m ?p ?Q => let n := eval cbv beta in (m p) in
  match n with ?f p => change (run_to f p Q) end end.

Section calls.
Context (self : Self) (w : Budget) (Hself : calls_keep self w).

Lemma keeps_call_types : keeps w (parse_call_type_args self) any.
Proof. apply keeps_call_type_args. by apply ck_type. Qed.
#[local] Hint Resolve keeps_call_types : keeps.

(** ** Primaries *)

Lemma keeps_task s : keeps w (parse_task_spawn self s) (tree w).
Proof. unfold parse_task_spawn. walk. Qed.
#[local] Hint Resolve keeps_task : keeps.

(** A name with braces after it. *)
Lemma keeps_braced name s ts flag : is_Some (slice s (b_text w)) ->
  keeps w (bare ← at_bare_construct_block; content ← at_content_block; brace ← at_kind LBrace; closure ← at_closure_start;
    if (bare || content) : bool then
      made ← parse_deferred_brace self [];
      last_ ← previous_end;
      mret (Expr_Call name s true ts made.1 (db_children made.2) (db_closure made.2) (from_bounds (start s) last_))
    else if brace && flag && negb closure then parse_struct_literal self name s else mret (Expr_Name name s)) (tree w).
Proof.
  intros Hs q Hq. eapply to_look; [apply looks_bare_block|done|]. intros bare Hb. eapply to_look; [apply looks_content_block|done|]. intros content Hc.
  look. eapply to_look; [apply looks_closure_start|done|]. intros closure _. destruct (bare || content) eqn:Hbc.
  - apply to_kept. assert (here q = LBrace) by (apply orb_true_iff in Hbc as [-> | ->]; auto).
    apply (deferred_then self w Hself); [done|done|]. intros a. walk.
  - assert (keeps w (if bool_decide (here q = LBrace) && flag && negb closure then parse_struct_literal self name s else mret (Expr_Name name s)) (tree w)) as Hk.
    { destruct (_ && _); walk. }
    by apply Hk.
Qed.

Lemma keeps_name_or_call s : is_Some (slice s (b_text w)) -> keeps w (parse_name_or_call self s) (tree w).
Proof.
  intros Hs. unfold parse_name_or_call. at_here. eapply keeps_bind; [by apply keeps_text|]. intros name _.
  eapply keeps_bind; [apply keeps_bump|]. intros _ _. eapply keeps_bind; [apply keeps_at_kind|]. intros brace _. destruct (_ && brace); [walk|].
  eapply keeps_bind; [apply keeps_at_kind|]. intros lt _. eapply keeps_bind; [apply keeps_type_args|]. intros generic _.
  apply (keeps_bind _ _ _ any); [walk|]. intros ts _. eapply keeps_bind; [apply keeps_at_kind|]. intros [|] _; [walk|by apply keeps_braced].
Qed.

Lemma keeps_dot_member s : keeps w (parse_dot_member self s) (tree w).
Proof. unfold parse_dot_member. walk. Qed.
#[local] Hint Resolve keeps_name_or_call keeps_dot_member : keeps.

Lemma keeps_primary : keeps w (parse_primary self) (tree w).
Proof.
  intros p Hp. unfold parse_primary. destruct (current_spec w p Hp) as (t & Ht & Hot & _ & Hk & _). eapply to_known; [exact Ht|]. cbv zeta.
  eapply to_look; [apply looks_closure_start|done|]. intros closure Hc. look.
  destruct closure; [by apply to_kept, closure_takes, Hc|]. pose proof (ours_sliced w t Hot).
  destruct (decide (kind t = Match_)) as [Hm|Hm].
  - rewrite Hm. apply to_kept, match_expression_takes; [done|done|congruence].
  - assert (forall m, keeps w m (tree w) -> run_to m p (fun q e => after w p q /\ tree w e)) as Hdo by auto.
    destruct (kind t) eqn:E; try done; apply Hdo; walk.
Qed.

Lemma keeps_path e : tree w e -> keeps w (name_path_text e) any.
Proof.
  induction e; cbn [name_path_text]; intros He; try by walk.
  destruct He as [Hb Hs]. eapply keeps_bind; [by apply IHe|]. walk.
Qed.
#[local] Hint Resolve keeps_path : keeps.

Definition either (r : result Expr Expr) : Prop := match r with Ok e | Err e => tree w e end.

(** ** Postfixes *)

Lemma dot_postfix_takes base p : tree w base -> fine w p -> here p <> Eof_ -> takes w (parse_dot_postfix self base) p either.
Proof.
  intros Hb Hp He. unfold parse_dot_postfix. refine (takes_then w bump _ p (ours w) either (bump_takes w p Hp He) _).
  intros _ _. eapply keeps_bind; [apply keeps_current|]. intros t Ht. pose proof (ours_sliced w t Ht). walk. by split.
Qed.

(** One turn: another call of the loop from where it moved on to, or the end. *)
Lemma postfix_loop_keeps base : tree w base -> turning w (fun F => postfix_loop self F base) (tree w).
Proof.
  intros Hb F. revert base Hb. induction F as [|F IH]; intros base Hb p Hp HF; [lia|]. cbn [postfix_loop]. looking.
  pose proof (after_refl w p Hp) as H0. 
  assert (forall (m : M Expr), takes w m p (tree w) -> run_to (next ← m; postfix_loop self F next) p (fun q e => after w p q /\ tree w e)) as Hgo.
  { intros m Hm. apply to_bind. eapply to_weaken; [exact Hm|]. intros q e (Hq & Hlt & He). eapply to_later; [exact Hq|]. apply IH; [done|apply Hq|lia]. }
  look. case_bool_decide as Hd.
  { apply to_bind. eapply to_weaken; [apply (dot_postfix_takes base); [done|done|by rewrite Hd]|]. intros q r (Hq & Hlt & Hr).
    destruct r as [e|e]; [|by split]. eapply to_later; [done|]. apply IH; [done|apply Hq|lia]. }
  look. case_bool_decide as Hk.
  { apply (to_taken w); [done|by rewrite Hk|]. intros t q _ Hq Hlt _. pose proof (after_refl w q (proj1 Hq)).
    turn. turn. turn. match goal with H : after w q ?r |- run_to _ ?r _ => pose proof (after_left _ _ _ H); apply (to_later w p r); [by eapply after_trans|];
      apply IH; [done|apply H|lia] end. }
  eapply to_look; [apply looks_closure_start|done|]. intros closure Hc. destruct (_ && closure) eqn:Hcl.
  { apply Hgo, trailing_closure_takes; [done|done|]. apply Hc. by apply andb_true_iff in Hcl as [_ ?]. }
  eapply to_look; [apply looks_trailing_block|done|]. intros trailing Ht. apply to_bind.
  apply (to_weaken _ _ (fun q o => match o with Some e => after w p q /\ (left_ q < left_ p)%nat /\ tree w e | None => q = p end)).
  { destruct trailing; [by apply content_block_runs, Ht|done]. }
  intros q [e|]; [intros (Hq & Hlt & He); eapply to_later; [exact Hq|]; apply IH; [done|apply Hq|lia]|intros ->].
  destruct (looks_named_fill w p Hp) as (fill & Hf & Hfill). eapply to_known; [exact Hf|].
  destruct (looks_fillable w base p Hp) as (fillable & Hfb & _). eapply to_known; [exact Hfb|].
  destruct (fill && fillable) eqn:Hff; [|by split]. apply andb_true_iff in Hff as [-> ->]. apply Hgo, named_fills_takes; try done.
  unfold at_fillable_construction, mbind, st_bind in Hfb. destruct (previous_kind p) as [p' [k|e]]; [|done]. injection Hfb as _ Hfb.
  by apply andb_true_iff in Hfb as [_ ?].
Qed.

Lemma keeps_postfix base : tree w base -> keeps w (parse_postfix self base) (tree w).
Proof. intros Hb. by apply keeps_turning, postfix_loop_keeps. Qed.

(** ** Operators *)

Lemma keeps_try_operand : keeps w (parse_try_operand self) (tree w).
Proof. apply keeps_nested. intros H. by apply ck_binary. Qed.
Lemma keeps_unary_nested : keeps w (parse_unary_nested self) (tree w).
Proof. apply keeps_nested. intros H. by apply ck_unary. Qed.
#[local] Hint Resolve keeps_primary keeps_postfix keeps_try_operand keeps_unary_nested : keeps.

Lemma keeps_unary : keeps w (parse_unary self) (tree w).
Proof. unfold parse_unary. walk. Qed.

Lemma binary_op_range k op bp : binary_op k = Some (op, bp) -> (1 <= bp <= 11)%nat /\ k <> Eof_.
Proof. destruct k; try done; intros [= <- <-]; (split; [lia|done]). Qed.

Lemma keeps_infix_type : keeps w (parse_type_ref self) any.
Proof. unfold parse_type_ref. apply keeps_type. intros Hlt. by apply ck_deep_type. Qed.

Lemma binary_loop_keeps min lhs : (forall b, (min < b <= 11)%nat -> keeps w (self_binary self b) (tree w)) -> tree w lhs ->
  turning w (fun F => binary_loop self F min lhs) (tree w).
Proof.
  intros Hb Hl F. revert lhs Hl. induction F as [|F IH]; intros lhs Hl p Hp HF; [lia|]. cbn [binary_loop]. look. case_decide as Hty.
  { apply (to_taken w); [done|by destruct Hty as [[-> | ->] _]|]. intros t q _ Hq Hlt _. pose proof keeps_infix_type.
    pose proof (after_refl w q (proj1 Hq)). turn. turn. cbv zeta.
    match goal with H : after w q ?r |- run_to _ ?r _ => pose proof (after_left _ _ _ H); apply (to_later w p r); [by eapply after_trans|];
      apply IH; [by case_decide|apply H|lia] end. }
  destruct (binary_op (here p)) as [[op bp]|] eqn:Ho; [|by split; [apply after_refl|]]. destruct (Nat.leb_spec bp min); [by split; [apply after_refl|]|].
  destruct (binary_op_range _ _ _ Ho) as [Hbp He]. apply (to_taken w); [done|done|]. intros t q _ Hq Hlt _.
  eapply (to_step w q); [apply Hb; lia|apply after_refl, Hq|]. intros q1 r Hq1 _.
  apply (to_later w p q1); [by eapply after_trans|]. apply IH; [done|apply Hq1|]. pose proof (after_left _ _ _ Hq1). lia.
Qed.

Lemma keeps_binary min : (forall b, (min < b <= 11)%nat -> keeps w (self_binary self b) (tree w)) -> keeps w (parse_binary self min) (tree w).
Proof.
  intros Hb. unfold parse_binary. eapply keeps_bind; [apply keeps_unary|]. intros e He. by apply keeps_turning, binary_loop_keeps.
Qed.

Lemma keeps_descend : (forall b, (0 < b <= 11)%nat -> keeps w (self_binary self b) (tree w)) -> keeps w (parse_expr_descend self) (tree w).
Proof. intros Hb. unfold parse_expr_descend. eapply keeps_bind; [by apply keeps_binary|]. walk. Qed.
End calls.

(** ** Fuel *)

(** The calls that nesting leaves room for: twelve for a level, one for each power a
    right operand can ask for. *)
Definition room (levels : nat) : nat := 12 * (MAX_NESTING_DEPTH - levels).

(** And the tokens: those calls that nesting does not count take one each. *)
Definition need (w : Budget) : nat := room (b_levels w) + b_tokens w.

Lemma need_deeper w : (b_levels w < MAX_NESTING_DEPTH)%nat -> need w = (12 + need (deeper w))%nat.
Proof. unfold need, room, deeper, MAX_NESTING_DEPTH. cbn. lia. Qed.

(** Inside its tokens a parser has one to take. *)
Lemma fine_some w p : fine w p -> (1 <= b_tokens w)%nat.
Proof.
  intros [_ _ _ Hi _ Hl]. unfold left_ in Hl. destruct (lookup_lt_is_Some_2 _ _ Hi) as [t Ht]. rewrite (drop_S _ _ _ Ht) in Hl.
  cbn in Hl. pose proof (cost_pos t). lia.
Qed.

(** What is kept where there is a token to take. *)
Lemma keeps_less_some {A} w (m : M A) R : ((1 <= b_tokens w)%nat -> keeps (less w) m R) -> keeps (less w) m R.
Proof. intros H p Hp. apply H; [|done]. by eapply fine_some, fine_lower. Qed.

Definition knot_kept (n : nat) : Prop := forall w,
  ((1 + need w <= n)%nat -> keeps w (self_expr (knot n)) (tree w)) /\
  (forall b, (b <= 11)%nat -> (13 - b + need w <= n)%nat -> keeps w (self_binary (knot n) b) (tree w)) /\
  ((1 + need w <= n)%nat -> keeps w (self_type (knot n)) any) /\
  ((2 + need w <= n)%nat -> keeps w (self_unary (knot n)) (tree w) /\ keeps w (self_stmt (knot n)) any /\
    keeps w (self_item (knot n)) any /\ keeps w (self_fill (knot n)) any).

Lemma knot_calls n : knot_kept n -> forall v, (1 + need v <= n)%nat -> calls_keep (knot n) v.
Proof.
  intros IH v Hv.
  assert ((b_levels v < MAX_NESTING_DEPTH)%nat -> (13 + need (deeper v) <= n)%nat) as Hd by (intros Hlt; rewrite (need_deeper v Hlt) in Hv; lia).
  assert (forall A (m : M A) R, ((2 + need (less v) <= n)%nat -> keeps (less v) m R) -> keeps (less v) m R) as Hless.
  { intros A m R H. apply keeps_less_some. intros H1. apply H.
    change (need (less v)) with (room (b_levels v) + Nat.pred (b_tokens v))%nat. unfold need in Hv. lia. }
  split; try (intros Hlt; specialize (Hd Hlt); try change (tree v) with (tree (deeper v))); try (apply Hless; intros Hl); apply IH;
    unfold TYPE_OPERATOR_BP; lia.
Qed.

Lemma knot_keeps n : knot_kept n.
Proof.
  induction n as [|n IH]; intros w; [split_and!; intros; try lia|]. pose proof (knot_calls n IH) as Hself.
  cbn [knot tie self_expr self_binary self_unary self_type self_stmt self_item self_fill]. split_and!.
  - intros Hn. apply keeps_nested. intros Hlt. rewrite (need_deeper w Hlt) in Hn. change (tree w) with (tree (deeper w)).
    apply keeps_descend; [apply Hself; lia|]. intros b Hb. apply IH; lia.
  - intros b Hb Hn. apply keeps_binary; [apply Hself; lia|]. intros b' Hb'. apply IH; lia.
  - intros Hn. unfold parse_type_ref. apply keeps_type. intros Hlt. rewrite (need_deeper w Hlt) in Hn. apply IH. lia.
  - intros Hn. assert (calls_keep (knot n) w) as Hw by (apply Hself; lia).
    split_and!; [by apply keeps_unary|by apply keeps_stmt|by apply keeps_item|by apply keeps_fill].
Qed.

(** ** On text *)

(** The lexer's tokens are such a list. *)
Lemma lexed_tokens source_ t : utf8 t -> fits_u32 t -> listed t (lr_tokens (lex source_ t)).
Proof.
  intros Ht Hf. destruct (lex_reads source_ t Hf) as (ts & ds & Hscan & Hlex). rewrite Hlex. split; [|by exists ts, (eof_token t)].
  apply Forall_app. split; [|constructor; [split; [exists []; by apply utf8_whole|done]|constructor]].
  pose proof (scanned_spelled t _ _ _ _ Hscan Hf (take (bom_len t) t)) as Hall.
  destruct (lexer_new_inside source_ t Hf) as ([_ Hp] & Hpos & _). rewrite Hpos in Hp.
  apply Hall; [by rewrite take_drop| |by apply utf8_bom]. rewrite length_take. cbn in Hp. lia.
Qed.

(** The parser of a text, moved to one of its tokens. *)
Definition standing (source_ : Z) (t : rstring) (i : nat) : Parser := with_cursor i (parser_new t (lr_tokens (lex source_ t))).

Lemma standing_fine source_ t i : utf8 t -> fits_u32 t -> (i < length (lr_tokens (lex source_ t)))%nat ->
  fine {| b_text := t; b_levels := 0; b_tokens := 2 * length (lr_tokens (lex source_ t)) |} (standing source_ t i).
Proof.
  intros Ht Hf Hi. constructor; try done; [by apply lexed_tokens|]. exact (left_bound (standing source_ t i)).
Qed.

Lemma lexed_some source_ t : utf8 t -> fits_u32 t -> (0 < length (lr_tokens (lex source_ t)))%nat.
Proof. intros Ht Hf. destruct (listed_end _ _ (lexed_tokens source_ t Ht Hf)) as (front & e & -> & _). rewrite length_app. cbn. lia. Qed.

(** The calls a text asks for: what its nesting leaves room for, and two a token. *)
Definition calls_for (source_ : Z) (t : rstring) : nat := S (1536 + 2 * length (lr_tokens (lex source_ t))).

Lemma calls_enough source_ t n : (calls_for source_ t <= n)%nat ->
  calls_keep (knot n) {| b_text := t; b_levels := 0; b_tokens := 2 * length (lr_tokens (lex source_ t)) |}.
Proof. intros Hn. apply knot_calls; [apply knot_keeps|]. unfold need, calls_for in *. cbn [b_levels b_tokens]. change (room 0) with 1536%nat. lia. Qed.

(** The run answers, inside tokens that still end with the end of the file. *)
Definition comes_back {A} (r : Parser * result Stop A) : Prop := exists q a front z,
  r = (q, Ok a) /\ (p_pos q < length (p_tokens q))%nat /\ p_tokens q = front ++ [z] /\ kind z = Eof_.

Lemma run_comes_back {A} w (m : M A) p R : fine w p -> keeps w m R -> comes_back (m p).
Proof.
  intros Hp Hm. specialize (Hm p Hp). unfold run_to, comes_back in *. destruct (m p) as [q [a|e]]; [|done].
  destruct Hm as [[[_ _ Htk Hi _ _] _] _]. destruct (listed_end _ _ Htk) as (front & z & Hz & Hk). by exists q, a, front, z.
Qed.


(** More parentheses than may nest. *)
Definition deep_text : rstring := repeat x28 200.



(** Braces that are read twice, and a [match] in an arm of another. *)
Definition braces_text : rstring := spelled "f { g { x = 1 } } match a { B -> match c { D -> return } }".


(** ** What the runs show *)

(** The refusal of the level past the limit is reported. *)
Example deep_text_reported : error_code <$> p_errors (parse_text 2000 0 deep_text).1 !! 0%nat = Some KPAR068.
Proof. by vm_compute. Qed.

(** A cast to an array type nested past the limit. *)
Definition deep_cast : rstring := spelled "x as " ++ repeat x5b 128 ++ spelled " Int " ++ repeat x5d 128 ++ spelled " + ".

(** Each type refused for its nesting leaves a level of the budget taken. *)
Example refused_types_stay_nested : let r := parse_text 1600 0 (deep_cast ++ deep_cast ++ deep_cast ++ spelled "y") in
  nesting r.1 = 3%nat /\ error_code <$> p_errors r.1 = [KPAR068; KPAR068; KPAR068].
Proof. by vm_compute. Qed.

(** Two hundred [match]es, each in an arm of the one before: no level of the nesting
    budget is asked for, and nothing is reported. *)
Definition nested_matches : rstring := spelled "{ " ++ concat (repeat (spelled "match a { B -> ") 200) ++ spelled "return " ++ repeat x7d 201.

Example nested_matches_unbounded : let r := block_text 2000 0 nested_matches in
  p_errors r.1 = [] /\ match r.2 with Ok b => length (block_stmts b) | Err _ => 0%nat end = 1%nat /\
  match (block_text 150 0 nested_matches).2 with Err OutOfFuel => true | _ => false end = true.
Proof. by vm_compute. Qed.

(** A brace whose content reading ends early: the closure it stands for ends there,
    and its block, which goes on to the end, does not. *)
Example closure_span_of_content : match (parse_text 60 0 (spelled "f { attempt { } handle { A { } } }")).2 with
  | Ok (Expr_Call _ _ _ _ _ _ (Some tc) _) =>
    match tc_closure tc with Expr_Closure _ body s => Some (end_of s, end_of (block_span body)) | _ => None end
  | _ => None end = Some (15, 34).
Proof. by vm_compute. Qed.

(** An arm that is none takes the arms after it along, up to a brace. *)
Example bad_arm_takes_the_rest : let r := block_text 60 0 (spelled "{ match e { Red -> return 1 @ -> return 2 Blue -> return 3 } }") in
  error_code <$> p_errors r.1 = [KPAR014] /\
  match r.2 with Ok b => match block_stmts b with [Stmt_Match _ arms _] => length arms | _ => 0%nat end | Err _ => 0%nat end = 1%nat.
Proof. by vm_compute. Qed.
